(* ===== verification/_CoqProject ===== *)
-Q . S2P
Prelude.v
BlockingQueue.v
QueueThreads.v
ThreadPool.v
ShmState.v
ShmBlock.v
Spmc.v
SpmcTurns.v
Discover.v
PubSubShm.v
PubSubAsync.v
PubSubThreads.v
PubSubLoop.v
Hex.v
CanFrame.v
CanView.v
AeLoop.v
AeTimer.v
AeHttpd.v
Zmalloc.v
ProcStat.v
MersenneTwister.v
Reordering.v
PerfStats.v
Files.v
Component.v
Litmus.v
PingPong.v
Wakeups.v
EchoServer.v
Samples.v
Strings.v
Trap.v
FirstMissing.v
Permutation.v
Wildcard.v
WildcardFirst.v
Palindrome.v
Parentheses.v
LongestPath.v
Concatenation.v
Odometer.v
Queens.v
Sudoku.v
BoxRemoval.v
JsonValue.v
JsonNumber.v
JsonGrammar.v
JsonLexer.v
JsonScan.v
JsonScanNumber.v
JsonTokens.v
JsonParser.v
JsonParse.v
JsonTotal.v
JsonDom.v
JsonSound.v
JsonCorrect.v
JsonDtoa.v
JsonDtoaDigits.v
JsonDtoaRound.v
JsonDtoaCorrect.v
JsonSerializer.v
JsonDump.v
JsonDumpString.v
JsonRoundTrip.v
