(* ===== verification/Prelude.v ===== *)
(** * Verification of the code_c repository: root file

    The repository is a collection of C and C++ programs.  This library models
    those with state, protocols or algorithms of their own, and proves what
    makes them correct.  Functions are translated one by one: pure code becomes
    functions on [Z] and lists, fallible code returns an [outcome] (a value,
    undefined behaviour, an exception, or a loop that used up its fuel), objects
    are records that the operations take and return, and code that several
    threads run is a step relation whose steps interleave.  A property that a
    call returns is stated as such: the result is [Ret], not "if it returns".

    ** The parts, and the files that model them

    - Bounded blocking queues (src/util/bounded_blocking_queue.h and .hpp,
      src/c/20221124-bounded_blocking_queue).  BlockingQueue.v has the rings, a
      module for each of the three; [queue_put], [queue_get], [queue_close] and
      the methods of the template are the critical sections.  QueueThreads.v has
      the threads, proved against the class [BlockingQueue] that two modules
      implement: first in first out under any interleaving, no lost wake-up.
    - The thread pool (src/util/threadpool.c, src/c/20220908-threadpool).
      ThreadPool.v: callers, workers and threads that destroy the pool; the ring
      refines a queue, no wake-up is lost, a graceful shutdown sees every task
      finished and comes to its end.  [threadpool_free] destroys a mutex that it
      has locked; what this does is a parameter.
    - Blocks in shared memory (src/c/20181104_dilu_spmc_atomic/shmblock2.cpp to
      shmblock4.cpp and three copies of shm.hpp under src/c++).  ShmState.v: the
      lock words, every atomic access a step; no fault in any schedule, and in
      shmblock2.cpp the words count the readers, so that the producer writes
      blocks that nobody reads.  ShmBlock.v: creation, opening, acquiring and
      releasing blocks in named segments, and reference counts under any
      interleaving of processes that open and destroy.
    - One producer and many consumers on System V shared memory (spmc6.c to
      spmc12.c, shmblock.c, spmc_test.c).  Spmc.v: no torn reads and no faults
      with the fenced words of spmc7.c and spmc8.c, progress of the producer, for
      consumers that come after [spmc_init]; what an earlier one runs into.
      SpmcTurns.v: the threads of spmc6.c, whose consumers take the entries in
      turn.
    - Publish/subscribe (six versions of message.hpp, two of
      service_discover.hpp).  Discover.v: the datagrams of the discovery.
      PubSubShm.v, on ShmState.v, ShmBlock.v and Discover.v: delivery of messages,
      and what the discovery brings about on a network that loses, duplicates
      and reorders datagrams.  PubSubAsync.v, PubSubThreads.v and PubSubLoop.v:
      the versions with async handles, with threads and with one event loop or
      UDP; at rest every subscriber has the latest message, read off the log of
      what happened.
    - CAN frames as text (src/c++/20230210-cansocket/lib.c).  CanFrame.v:
      [parse_canframe], [sprint_canframe], [hexstring2data] and the length codes;
      parsing reads back what was printed, and its result on every string: where
      it reads behind the array, where it shifts out of range, and a well-formed
      frame otherwise.  CanView.v: the long form and the description of error
      frames; the texts they print and the sizes of the arrays they need.
    - The event loop of the HTTP samples (src/c/20171011_ae_httpd).  AeLoop.v:
      ae.c and ae_epoll.c, the table of file events, which refines a map from
      descriptors to registrations whatever [epoll_ctl] returns, and the
      dispatch.  AeTimer.v: the list of time events.  AeHttpd.v, on AeLoop.v: the
      handlers of chuqq_httpd.c and its variants; one response for each time
      that the input so far ends a request.  Zmalloc.v: the counting allocator
      zmalloc.c, with any sizes and failures and the switch to thread safety;
      ProcStat.v: what it reads from /proc.
    - Programs on memory orders and wake-ups.  Reordering.v, on
      MersenneTwister.v: memory_reordering.cc on processors with store buffers;
      the fence, or one processor, excludes what the program looks for, and its
      generator is MT19937 as its authors define it.
      Litmus.v: src/c/20170710_memory_order on a memory of histories and views;
      which orders make the assertions hold.  PingPong.v: the condition
      variable, try_lock and atomic versions of src/c++/20220803-pingpong-bench;
      the threads take turns and can always finish.  Wakeups.v:
      src/c++/20180310_condition_var; the lock that [go] needs.
    - Servers and schedulers.  EchoServer.v: the echo servers of
      src/c/20140406_tcp_echo_block, whose clients share a buffer: they get their
      answers exactly if they take turns with short requests; and ftee.c.
      Component.v: the timers of src/c++/20230203-component-schedule, whose calls
      into libuv are recorded: when the handles that libuv has stay valid, and
      that a timer is stopped once.
    - Utilities: Hex.v (src/util/hex.hpp, hex_codec.cpp), Strings.v
      (src/util/string.hpp, buffer.hpp), Files.v (file.hpp, cmd.hpp and the scope
      guards, with the errors of the system calls) and PerfStats.v (the
      counters and the stop watch).
    - JSON (src/util/nlohmann_json.hpp).  JsonValue.v has the values, the members
      of objects and the exceptions, JsonNumber.v the conversions of the C
      library, JsonGrammar.v the grammar of RFC 8259 and UTF-8 as relations.
      JsonLexer.v: the class [lexer]; JsonScan.v, JsonScanNumber.v and
      JsonTokens.v prove its strings, numbers and tokens against the grammar.
      JsonParser.v: the class [parser] with the receivers of its events, which
      are instances of a class; JsonParse.v, JsonTotal.v, JsonDom.v and
      JsonSound.v prove it for any receiver and for the one that builds a value
      through pointers into it.  JsonCorrect.v: [parse] returns a value exactly
      for the documents of this value (a JSON text behind an optional byte order
      mark and before the end or a zero byte), and throws otherwise.  JsonDtoa.v: Grisu2,
      which JsonDtoaDigits.v, JsonDtoaRound.v and JsonDtoaCorrect.v prove to
      write a number that is rounded to the same double.  JsonSerializer.v: the
      class [serializer], on JsonDump.v for numbers and JsonDumpString.v for
      strings.  JsonRoundTrip.v, on all of them: parsing what is dumped gives the
      value back, up to the numbers and binary values that JSON has no text for.
    - Programs of a page each: Samples.v (primes at compile time, a spiral, a
      line reader, the keys of a remote control, the target of a fuzzer).
    - Puzzle solutions (src/c++/leetcode): Trap.v (42), FirstMissing.v (41),
      Permutation.v (60), Wildcard.v (44-2), WildcardFirst.v (44), Palindrome.v
      (214), Parentheses.v (32), LongestPath.v (388), Concatenation.v (30),
      Queens.v (51) and Sudoku.v (37), the last two on the walk of Odometer.v.  Each solution is proved equal to an independent
      definition of the answer.  BoxRemoval.v (546, 546-2): bounds of the score,
      which is not always the best one.

    This file has the outcomes, machine integers, arrays, loops and strings that
    the others share, and their automation.

    ** Integers, bounds and fuel

    An [int] is a [Z] whose arithmetic is undefined outside its range; [size_t]
    wraps around modulo 2^64; bytes are [Z] between 0 and 255.  Counted loops
    recurse on their number of rounds.  [while] loops take fuel; every theorem
    about one gives a fuel that suffices, as a function of the input
    (the length of a text, the number of positions of a search), so that
    termination is part of what is proved.

    ** What is assumed

    The standard library is modelled by what its documentation says of the
    functions that are used.  System calls, libuv, the allocator and the user's
    callbacks are arguments, with any result that their documentation allows,
    or calls that are recorded.
    Threads interleave at the accesses to shared memory, sequentially
    consistently, but for Reordering.v (the store buffers of x86) and Litmus.v
    (the relaxed, release/acquire and sequentially consistent orders of C++); the
    weaker orders that some other programs ask for are not modelled there.

    ** What is not modelled

    Of nlohmann_json.hpp the interface of [basic_json] beyond parsing and
    dumping, which is overloads and conversions resolved by the compiler, the
    receiver with a callback, JSON pointers and patches, the binary formats, and
    input from files and wide strings; the vendored headers httplib.h and
    catch.hpp, and ae.c.orig;
    programs that only make system calls, call a library, print or measure time,
    which have no state or contract of their own; cansocket.hpp and the other
    wrappers of sockets; printing functions; the set-up of sockets and segments;
    the branches of zmalloc.c for other allocators and systems; spmc5.c, whose
    buffers overlap the locks of the threads library, so that its behaviour is
    that of the inside of that library; 23.cpp of the puzzles, whose comparison
    is not the strict order that its priority queue demands. *)

From stdpp Require Import base decidable list numbers option relations strings.
From Stdlib Require Import ZArith Lia.

Open Scope Z_scope.

(** ** Outcomes of C++ code

    A call either returns a value, performs an operation that the language
    leaves undefined, throws, or is still looping when the fuel of the
    enclosing loop is used up. *)

Inductive ub :=
  | OutOfBounds
  | NullDeref
  | DivByZero
  | EmptyTop
  | BadPointer
  | Uninitialised
  | AssertFailed
  | IntOverflow
  | NotLocked.

#[export] Instance ub_eq_dec : EqDecision ub.
Proof. solve_decision. Defined.

(** The exceptions that the code throws and does not catch; [throw;] with no
    exception to rethrow ends the program, and so does [exit].  The exceptions
    of the JSON library carry a number and a text in bytes. *)
Inductive exn :=
  | BadArrayNewLength
  | OutOfRange
  | Message (what : string)
  | RethrowNothing
  | Exit (status : Z)
  | JsonException (id : Z) (what : list Z).

Inductive outcome (A : Type) : Type :=
  | Ret (a : A)
  | Undef (u : ub)
  | Throw (e : exn)
  | NoFuel.
Arguments Ret {A} a.
Arguments Undef {A} u.
Arguments Throw {A} e.
Arguments NoFuel {A}.

#[export] Instance outcome_ret : MRet outcome := fun A a => Ret a.
#[export] Instance outcome_bind : MBind outcome := fun A B f m =>
  match m with
  | Ret a => f a
  | Undef u => Undef u
  | Throw e => Throw e
  | NoFuel => NoFuel
  end.

(** The call returns, with a result that satisfies [Q]. *)
Definition returns {A} (m : outcome A) (Q : A -> Prop) : Prop :=
  exists a, m = Ret a /\ Q a.

Lemma bind_Ret {A B} (m : outcome A) (f : A -> outcome B) b :
  m ≫= f = Ret b <-> exists a, m = Ret a /\ f a = Ret b.
Proof.
  split.
  - destruct m as [a| | |]; simpl; try done. eauto.
  - by intros (a & -> & H).
Qed.

Lemma returns_ret {A} (a : A) (Q : A -> Prop) : Q a -> returns (Ret a) Q.
Proof. intros H. by exists a. Qed.

Lemma returns_bind {A B} (m : outcome A) (f : A -> outcome B) P Q :
  returns m P -> (forall a, P a -> returns (f a) Q) -> returns (m ≫= f) Q.
Proof. intros (a & -> & Ha) Hf. exact (Hf a Ha). Qed.

Lemma returns_mono {A} (m : outcome A) (P Q : A -> Prop) :
  returns m P -> (forall a, P a -> Q a) -> returns m Q.
Proof. intros (a & -> & Ha) Hf. exists a. auto. Qed.

(** ** Machine integers

    An [int] is a [Z] between [int_min] and [int_max]; arithmetic that leaves
    the range is undefined.  A [size_t] is a [Z] modulo [size_max]. *)

Definition int_min : Z := - 2 ^ 31.
Definition int_max : Z := 2 ^ 31 - 1.
Definition size_max : Z := 2 ^ 64.

Definition in_int (z : Z) : bool := (int_min <=? z) && (z <=? int_max).

(** The result of an [int] operation whose exact value is [z]. *)
Definition int_op (z : Z) : outcome Z := if in_int z then Ret z else Undef IntOverflow.

(** [a % b] on [int]: the sign of the dividend, undefined for zero. *)
Definition int_rem (a b : Z) : outcome Z := if b =? 0 then Undef DivByZero else Ret (Z.rem a b).

(** [a / b] on [int]: rounds towards zero. *)
Definition int_div (a b : Z) : outcome Z := if b =? 0 then Undef DivByZero else int_op (Z.quot a b).

Definition szadd (a b : Z) : Z := (a + b) mod size_max.
Definition szmul (a b : Z) : Z := (a * b) mod size_max.

(** Conversion of an integer to [int], two's complement. *)
Definition to_int (z : Z) : Z := (z + 2 ^ 31) mod 2 ^ 32 - 2 ^ 31.

Lemma in_int_spec z : in_int z = true <-> int_min <= z <= int_max.
Proof. unfold in_int. rewrite andb_true_iff, !Z.leb_le. done. Qed.

Lemma int_op_in z : int_min <= z <= int_max -> int_op z = Ret z.
Proof. intros H. unfold int_op. by rewrite (proj2 (in_int_spec z) H). Qed.

Lemma int_op_Ret z r : int_op z = Ret r <-> r = z /\ int_min <= z <= int_max.
Proof.
  unfold int_op. rewrite <- in_int_spec. destruct (in_int z); split; try done.
  - by intros [= ->].
  - by intros [-> _].
  - by intros [_ ?].
Qed.

Lemma to_int_small z : int_min <= z <= int_max -> to_int z = z.
Proof. unfold int_min, int_max, to_int. intros H. rewrite Z.mod_small; lia. Qed.

Lemma int_rem_ring i n : 0 <= i -> 0 < n -> int_rem i n = Ret (i mod n).
Proof.
  intros Hi Hn. unfold int_rem. destruct (Z.eqb_spec n 0); [lia|].
  by rewrite Z.rem_mod_nonneg by lia.
Qed.

(** Numbers with no bit in common. *)
Lemma land_pow2_disjoint a b k : 0 <= k -> 0 <= b < 2 ^ k -> Z.land (a * 2 ^ k) b = 0.
Proof.
  intros Hk Hb.
  replace b with (Z.land b (Z.ones k)) by (rewrite Z.land_ones by done; by apply Z.mod_small).
  rewrite (Z.land_comm b), Z.land_assoc, Z.land_ones by done. by rewrite Z_mod_mult.
Qed.

Lemma lor_add_pow2 a b k : 0 <= k -> 0 <= b < 2 ^ k -> Z.lor (a * 2 ^ k) b = a * 2 ^ k + b.
Proof.
  intros Hk Hb. pose proof (land_pow2_disjoint a b k Hk Hb).
  pose proof (Z.add_lor_land (a * 2 ^ k) b). lia.
Qed.

(** ** Arrays and vectors indexed by machine integers *)

Section Vectors.
Context {A : Type}.

Definition vget (v : list A) (i : Z) : outcome A :=
  if i <? 0 then Undef OutOfBounds
  else match v !! Z.to_nat i with
       | Some a => Ret a
       | None => Undef OutOfBounds
       end.

Definition vset (v : list A) (i : Z) (a : A) : outcome (list A) :=
  if (i <? 0) || (Z.of_nat (length v) <=? i) then Undef OutOfBounds
  else Ret (<[Z.to_nat i := a]> v).

Definition zlen (v : list A) : Z := Z.of_nat (length v).

Lemma zlen_nonneg (v : list A) : 0 <= zlen v.
Proof. unfold zlen. lia. Qed.

Lemma vget_nat (v : list A) (i : nat) a : v !! i = Some a -> vget v (Z.of_nat i) = Ret a.
Proof.
  intros H. unfold vget.
  destruct (Z.ltb_spec (Z.of_nat i) 0); [lia|].
  by rewrite Nat2Z.id, H.
Qed.

Lemma vget_Ret (v : list A) i a : vget v i = Ret a <-> 0 <= i /\ v !! Z.to_nat i = Some a.
Proof.
  unfold vget. destruct (Z.ltb_spec i 0).
  - split; [done|]. intros [? _]. lia.
  - destruct (v !! Z.to_nat i); split.
    + intros [= ->]. done.
    + intros [_ [= ->]]. done.
    + done.
    + intros [_ [=]].
Qed.

Lemma vget_in_range (v : list A) i : 0 <= i < zlen v -> exists a, vget v i = Ret a.
Proof.
  unfold zlen. intros H.
  destruct (lookup_lt_is_Some_2 v (Z.to_nat i)) as [a Ha]; [lia|].
  exists a. apply vget_Ret. split; [lia|done].
Qed.

Lemma vget_out_of_range (v : list A) i : ~ (0 <= i < zlen v) -> vget v i = Undef OutOfBounds.
Proof.
  unfold zlen, vget. intros H. destruct (Z.ltb_spec i 0); [done|].
  rewrite lookup_ge_None_2; [done|lia].
Qed.

Lemma vset_in_range (v : list A) i a :
  0 <= i < zlen v -> vset v i a = Ret (<[Z.to_nat i := a]> v).
Proof.
  unfold zlen, vset. intros H.
  destruct (Z.ltb_spec i 0); [lia|].
  destruct (Z.leb_spec (Z.of_nat (length v)) i); [lia|done].
Qed.

Lemma vset_out_of_range (v : list A) i a :
  ~ (0 <= i < zlen v) -> vset v i a = Undef OutOfBounds.
Proof.
  unfold zlen, vset. intros H.
  destruct (Z.ltb_spec i 0); [done|].
  destruct (Z.leb_spec (Z.of_nat (length v)) i); [done|lia].
Qed.

Lemma zlen_insert (v : list A) i a : zlen (<[i := a]> v) = zlen v.
Proof. unfold zlen. by rewrite length_insert. Qed.
End Vectors.

(** ** Counted loops: [for (i = lo; i < lo + n; i++) body] *)

Section Loops.
Context {St : Type}.

Fixpoint for_loop (n : nat) (i : Z) (body : Z -> St -> outcome St) (s : St) : outcome St :=
  match n with
  | O => Ret s
  | S n => body i s ≫= for_loop n (i + 1) body
  end.

(** Total correctness of a counted loop from an invariant indexed by the
    loop counter. *)
Lemma for_loop_inv (P : Z -> St -> Prop) body n i s :
  P i s ->
  (forall j t, i <= j < i + Z.of_nat n -> P j t -> returns (body j t) (P (j + 1))) ->
  returns (for_loop n i body s) (P (i + Z.of_nat n)).
Proof.
  revert i s. induction n as [|n IH]; intros i s Hi Hstep; simpl.
  - apply returns_ret. by rewrite Z.add_0_r.
  - apply (returns_bind _ _ (P (i + 1))).
    + apply Hstep; [lia|done].
    + intros t Ht. replace (i + Z.of_nat (S n)) with (i + 1 + Z.of_nat n) by lia.
      apply IH; [done|]. intros j u Hj. apply Hstep. lia.
Qed.
End Loops.

(** ** Loops that are not counted

    [step] runs the loop body once: it either continues with a new state or
    leaves the loop with a result. *)

Inductive control (St R : Type) : Type :=
  | Continue (s : St)
  | Break (r : R).
Arguments Continue {St R} s.
Arguments Break {St R} r.

Section While.
Context {St R : Type}.

Fixpoint while_loop (fuel : nat) (step : St -> outcome (control St R)) (s : St) : outcome R :=
  match fuel with
  | O => NoFuel
  | S fuel =>
      c ← step s;
      match c with
      | Continue s' => while_loop fuel step s'
      | Break r => Ret r
      end
  end.

Lemma while_loop_continue fuel step s s' :
  step s = Ret (Continue s') -> while_loop (S fuel) step s = while_loop fuel step s'.
Proof. intros H. simpl. by rewrite H. Qed.

Lemma while_loop_break fuel step s r :
  step s = Ret (Break r) -> while_loop (S fuel) step s = Ret r.
Proof. intros H. simpl. by rewrite H. Qed.

(** More fuel does not change a result. *)
Lemma while_loop_fuel fuel k step s :
  while_loop fuel step s <> NoFuel -> while_loop (fuel + k) step s = while_loop fuel step s.
Proof.
  revert s. induction fuel as [|fuel IH]; intros s H; [done|]. simpl in *.
  destruct (step s) as [[s'|r]| | |]; simpl in *; auto.
Qed.

(** An invariant and a decreasing measure give termination and the result. *)
Lemma while_loop_total (I : St -> Prop) (m : St -> nat) (Q : R -> Prop) step fuel s :
  I s ->
  (forall t, I t -> returns (step t) (fun c =>
     match c with
     | Continue t' => I t' /\ (m t' < m t)%nat
     | Break r => Q r
     end)) ->
  (m s < fuel)%nat ->
  returns (while_loop fuel step s) Q.
Proof.
  intros Hs Hstep. revert s Hs. induction fuel as [|fuel IH]; intros s Hs Hm; [lia|].
  simpl. destruct (Hstep s Hs) as (c & Hc & HQ). rewrite Hc. simpl.
  destruct c as [t|r].
  - destruct HQ as [Ht Hlt]. apply IH; [done|lia].
  - by apply returns_ret.
Qed.

(** The same for a loop that may also end in a given fault; the measure is a
    part of the invariant. *)
Lemma while_loop_either (I : nat -> St -> Prop) (Q : R -> Prop) u (U : Prop) step fuel k s :
  I k s ->
  (forall k t, I k t -> returns (step t) (fun c =>
     match c with
     | Continue t' => exists k', (k' < k)%nat /\ I k' t'
     | Break r => Q r
     end) \/ step t = Undef u /\ U) ->
  (k < fuel)%nat ->
  returns (while_loop fuel step s) Q \/ while_loop fuel step s = Undef u /\ U.
Proof.
  intros Hs Hstep. revert k s Hs. induction fuel as [|fuel IH]; intros k s Hs Hm; [lia|].
  simpl. destruct (Hstep k s Hs) as [(c & Hc & HQ)|[Hc HU]]; rewrite Hc; simpl; [|by right].
  destruct c as [t|r].
  - destruct HQ as (k' & Hlt & Ht). apply (IH k'); [done|lia].
  - left. by apply returns_ret.
Qed.
End While.

(** ** Counting the elements that satisfy a test *)

Section Counting.
Context {A : Type}.

Fixpoint zcount (p : A -> bool) (l : list A) : Z :=
  match l with
  | [] => 0
  | x :: l => Z.b2z (p x) + zcount p l
  end.

Lemma zcount_nonneg p l : 0 <= zcount p l.
Proof. induction l as [|x l IH]; simpl; [lia|]. destruct (p x); simpl; lia. Qed.

Lemma zcount_insert p l i a b :
  l !! i = Some a -> zcount p (<[i := b]> l) = zcount p l - Z.b2z (p a) + Z.b2z (p b).
Proof.
  revert i. induction l as [|x l IH]; intros [|i] H; simplify_eq/=; [lia|].
  rewrite (IH i H). lia.
Qed.

Lemma zcount_lookup p l i a : l !! i = Some a -> p a = true -> 0 < zcount p l.
Proof.
  revert i. induction l as [|x l IH]; intros [|i] H Hp; simplify_eq/=.
  - rewrite Hp. pose proof (zcount_nonneg p l). simpl. lia.
  - pose proof (IH i H Hp). destruct (p x); simpl; lia.
Qed.

Lemma zcount_pos p l : 0 < zcount p l -> exists i a, l !! i = Some a /\ p a = true.
Proof.
  induction l as [|x l IH]; simpl; [lia|]. destruct (p x) eqn:E.
  - intros _. by exists 0%nat, x.
  - intros H. destruct (IH H) as (i & a & Hi & Ha). by exists (S i), a.
Qed.

Lemma zcount_mono p p' l :
  (forall a, p a = true -> p' a = true) -> zcount p l <= zcount p' l.
Proof.
  intros Hpp. induction l as [|x l IH]; simpl; [lia|].
  specialize (Hpp x). destruct (p x), (p' x); simpl; lia.
Qed.

Lemma zcount_none p l : (forall a, p a = false) -> zcount p l = 0.
Proof. intros Hp. induction l as [|x l IH]; simpl; [done|]. rewrite Hp, IH. done. Qed.
End Counting.

Lemma zcount_fmap {A B} (p : B -> bool) (f : A -> B) l :
  zcount p (f <$> l) = zcount (fun a => p (f a)) l.
Proof. induction l as [|x l IH]; [done|]. csimpl. by rewrite IH. Qed.

(** A value below [n], case by case. *)
Lemma below_nat (n : nat) (P : Z -> Prop) d :
  0 <= d < Z.of_nat n -> Forall P (Z.of_nat <$> seq 0 n) -> P d.
Proof.
  intros Hd HP. apply (Forall_lookup_1 _ _ (Z.to_nat d) _ HP).
  rewrite list_lookup_fmap, lookup_seq_lt by lia. simpl. f_equal. lia.
Qed.

(** The least number with a decidable property. *)
Lemma least_nat (P : nat -> Prop) `{!forall n, Decision (P n)} n :
  P n -> exists k, (k <= n)%nat /\ P k /\ forall m, (m < k)%nat -> ~ P m.
Proof.
  induction (lt_wf n) as [n _ IH]. intros Hn.
  destruct (decide (Exists P (seq 0 n))) as [[m [Hm HP]]%Exists_exists|Hno].
  - apply elem_of_seq in Hm. destruct (IH m ltac:(lia) HP) as (k & Hk & HP2). exists k. split; [lia|done].
  - exists n. split; [done|]. split; [done|]. intros m Hm HP. apply Hno, Exists_exists.
    exists m. split; [|done]. apply elem_of_seq. lia.
Qed.

(** What every step preserves, every run preserves. *)
Lemma rtc_preserves {A} (R : relation A) (P : A -> Prop) x y :
  (forall a b, P a -> R a b -> P b) -> P x -> rtc R x y -> P y.
Proof. intros Hstep Hx Hr. revert Hx. induction Hr; eauto. Qed.

(** Filling a list from the left. *)
Lemma take_insert_next {A} (l : list A) i x :
  (i < length l)%nat -> take (S i) (<[i := x]> l) = take i l ++ [x].
Proof.
  intros Hi. rewrite (take_S_r _ _ x) by (by apply list_lookup_insert_eq).
  by rewrite take_insert_ge.
Qed.

(** A loop that updates each element of a vector in turn. *)
Lemma for_loop_imap {A} (f : nat -> A -> A) body (b : list A) :
  (forall i x c, length c = length b -> b !! i = Some x -> c !! i = Some x ->
     body (Z.of_nat i) c = Ret (<[i := f i x]> c)) ->
  for_loop (length b) 0 body b = Ret (imap f b).
Proof.
  intros Hbody.
  destruct (for_loop_inv (fun i c => length c = length b /\ forall k,
    c !! k = if decide (Z.of_nat k < i) then imap f b !! k else b !! k) body (length b) 0 b)
    as (c & -> & Hl & Hc).
  - split; [done|]. intros k. rewrite decide_False by lia. done.
  - intros i c Hi [Hl Hc]. destruct (lookup_lt_is_Some_2 b (Z.to_nat i)) as [x Hx]; [lia|].
    pose proof (Hc (Z.to_nat i)) as Hci. rewrite decide_False, Hx in Hci by lia.
    replace i with (Z.of_nat (Z.to_nat i)) at 1 by lia. rewrite (Hbody _ x) by done.
    apply returns_ret. rewrite length_insert. split; [done|]. intros k.
    destruct (decide (k = Z.to_nat i)) as [->|Hne].
    + rewrite list_lookup_insert_eq, decide_True, list_lookup_imap, Hx by lia. done.
    + rewrite list_lookup_insert_ne, Hc by done. destruct (decide (Z.of_nat k < i)).
      * by rewrite decide_True by lia.
      * by rewrite decide_False by lia.
  - f_equal. apply list_eq. intros k. rewrite Hc. destruct (decide _) as [|Hge]; [done|].
    rewrite !lookup_ge_None_2; [done|rewrite length_imap; lia|lia].
Qed.

Lemma Forall2_elem_r {A B} (P : A -> B -> Prop) l k y :
  Forall2 P l k -> y ∈ k -> exists x, x ∈ l /\ P x y.
Proof.
  intros H Hy. induction H as [|x z l k HP H IH]; [by apply elem_of_nil in Hy|].
  apply elem_of_cons in Hy as [->|Hy].
  - exists x. split; [by left|done].
  - destruct (IH Hy) as (x' & Hx & HP'). exists x'. split; [by right|done].
Qed.

Lemma elem_of_snoc {A} (l : list A) x y : x ∈ l ++ [y] <-> x ∈ l \/ x = y.
Proof. by rewrite elem_of_app, list_elem_of_singleton. Qed.

(** ** Notations and automation *)

Declare Scope vec_scope.
Delimit Scope vec_scope with vec.

(** Reading and writing an element. *)
Notation "v .[ i ]" := (vget v i) (at level 1, i at level 200, left associativity) : vec_scope.
Notation "v .[ i <- x ]" := (vset v i x)
  (at level 1, i at level 200, x at level 200, left associativity) : vec_scope.

(** The lengths of the lists that the operations build. *)
Create HintDb lens.
Create Rewrite HintDb lens.
#[export] Hint Rewrite @length_insert @length_app @length_take @length_drop @length_replicate
  @length_reverse @length_fmap @length_imap @zlen_insert : lens.
#[export] Hint Resolve zlen_nonneg : lens.

(** Goals on lengths and indices. *)
Ltac len := unfold zlen in *; autorewrite with lens in *; cbn [length] in *; lia.

(** Running on after a call that returned. *)
Ltac bind_ret := cbn [mbind outcome_bind].

(** One goal for each element of a list that is written out. *)
Ltac each_copy H :=
  repeat (apply elem_of_cons in H as [->|H]); [..|by apply elem_of_nil in H].

(** Membership in a list that is written out. *)
Ltac in_list := repeat ((by left) || right).

(** ** Strings in memory: characters up to the first zero *)

Fixpoint strlen (s : list Z) : outcome Z :=
  match s with
  | [] => Undef OutOfBounds
  | c :: s => if c =? 0 then Ret 0 else n ← strlen s; Ret (n + 1)
  end.

Definition no_nul (s : list Z) : Prop := Forall (fun c => c <> 0) s.

Lemma strlen_text s rest : no_nul s -> strlen (s ++ 0 :: rest) = Ret (zlen s).
Proof.
  intros Hs. induction Hs as [|c s Hc Hs IH]; [done|]. simpl.
  destruct (Z.eqb_spec c 0); [done|]. rewrite IH. bind_ret. f_equal. len.
Qed.

(** The bytes of a text of the program, and the code of one character. *)
Definition bytes_of (s : string) : list Z :=
  (fun a => Z.of_N (Ascii.N_of_ascii a)) <$> String.list_ascii_of_string s.

Abbreviation ch s := (ltac:(let v := eval vm_compute in (default 0 (head (bytes_of s))) in exact v))
  (only parsing).

(** A byte, a list of bytes. *)
Definition is_byte (c : Z) : Prop := 0 <= c < 256.
Definition bytes (l : list Z) : Prop := Forall is_byte l.
