(* ===== verification/BlockingQueue.v ===== *)
(** * Bounded blocking queues, sequential part

    The three ring-buffer queues of the repository:
    - [queue_t] of src/util/bounded_blocking_queue.h (module [UtilQueue]),
    - [queue_t] of src/c/20221124-bounded_blocking_queue/bounded_blocking_queue.h
      (module [PlainQueue]),
    - [BoundedBlockingQueue<T>] of src/util/bounded_blocking_queue.hpp
      (module [CppQueue]).

    Every operation runs with the queue's mutex held from the lock (or from the
    return of a wait) to the next wait or unlock, so one critical section is one
    atomic action.  [queue_put] and its siblings are modelled by that action: it
    either leaves the function with a result and a signal, or waits on a
    condition variable, after which the same action runs again.  The
    interleaving of the actions of many threads is in QueueThreads.v. *)

From stdpp Require Import base list numbers.
From Stdlib Require Import ZArith Lia.
From S2P Require Import Prelude.

Open Scope Z_scope.

Inductive cond := NotEmpty | NotFull.

#[export] Instance cond_eq_dec : EqDecision cond.
Proof. solve_decision. Defined.

(** One critical section: [Leave q r c] unlocks and returns [r] after signalling
    [c]; [Wait c] releases the lock inside [pthread_cond_wait] on [c]. *)
Inductive section_result (Q R : Type) : Type :=
  | Leave (q : Q) (r : R) (c : option cond)
  | Wait (c : cond).
Arguments Leave {Q R} q r c.
Arguments Wait {Q R} c.

(** ** Contents of a ring *)

Section Ring.
Context {A : Type}.

(** [n] cells of [data] from index [o], wrapping at [size]. *)
Fixpoint ring_slice (data : list (option A)) (size o : Z) (n : nat) : list (option A) :=
  match n with
  | O => []
  | S n => default None (data !! Z.to_nat o)
           :: ring_slice data size ((o + 1) mod size) n
  end.

Definition ring_count (size o i : Z) : Z := (i - o) mod size.

Lemma ring_count_bounds size o i : 0 < size -> 0 <= ring_count size o i < size.
Proof. intros. apply Z.mod_pos_bound. lia. Qed.

Lemma ring_count_zero size o i :
  0 <= o < size -> 0 <= i < size -> ring_count size o i = 0 <-> i = o.
Proof.
  intros Ho Hi. unfold ring_count. split; [|intros ->; by rewrite Z.sub_diag].
  intros H. destruct (decide (o <= i)).
  - rewrite Z.mod_small in H; lia.
  - rewrite <- (Z_mod_plus_full _ 1), Z.mod_small in H; lia.
Qed.

Lemma mod_succ size i : 0 <= i < size ->
  (i + 1) mod size = if decide (i + 1 = size) then 0 else i + 1.
Proof.
  intros Hi. case_decide as E; [|rewrite Z.mod_small; lia].
  rewrite E. apply Z.mod_same. lia.
Qed.

(** [(in + 1) % size == out] tests for [size - 1] stored elements. *)
Lemma ring_full size o i :
  0 <= o < size -> 0 <= i < size ->
  (i + 1) mod size = o <-> ring_count size o i = size - 1.
Proof.
  intros Ho Hi. rewrite mod_succ by done. unfold ring_count.
  destruct (decide (o <= i)).
  - rewrite Z.mod_small by lia. case_decide; lia.
  - rewrite <- (Z_mod_plus_full _ 1), Z.mod_small by lia. case_decide; lia.
Qed.

Lemma ring_count_push size o i :
  0 <= o < size -> 0 <= i < size -> (i + 1) mod size <> o ->
  ring_count size o ((i + 1) mod size) = ring_count size o i + 1.
Proof.
  intros Ho Hi Hne. pose proof (ring_full size o i Ho Hi) as Hf.
  pose proof (ring_count_bounds size o i ltac:(lia)) as Hb.
  unfold ring_count in *. rewrite Zminus_mod_idemp_l.
  replace (i + 1 - o) with (i - o + 1) by lia.
  rewrite <- Zplus_mod_idemp_l. apply Z.mod_small.
  assert ((i - o) mod size <> size - 1) by (intros E; apply Hne, Hf, E). lia.
Qed.

Lemma ring_count_pop size o i :
  0 <= o < size -> 0 <= i < size -> i <> o ->
  ring_count size ((o + 1) mod size) i = ring_count size o i - 1.
Proof.
  intros Ho Hi Hne. pose proof (ring_count_zero size o i Ho Hi) as Hz.
  pose proof (ring_count_bounds size o i ltac:(lia)) as Hb.
  unfold ring_count in *. rewrite Zminus_mod_idemp_r.
  replace (i - (o + 1)) with (i - o + - 1) by lia.
  rewrite <- Zplus_mod_idemp_l. apply Z.mod_small.
  assert ((i - o) mod size <> 0) by (intros E; apply Hne, Hz, E). lia.
Qed.

(** The cell at distance [k] from [o]. *)
Lemma ring_slice_snoc data size o n :
  0 < size -> 0 <= o < size ->
  ring_slice data size o (S n) =
  ring_slice data size o n ++ [default None (data !! Z.to_nat ((o + Z.of_nat n) mod size))].
Proof.
  intros Hs. revert o. induction n as [|n IH]; intros o Ho.
  - simpl. by rewrite Z.add_0_r, Z.mod_small.
  - change (ring_slice data size o (S (S n))) with
      (default None (data !! Z.to_nat o) :: ring_slice data size ((o + 1) mod size) (S n)).
    rewrite IH by (apply Z.mod_pos_bound; lia). rewrite Zplus_mod_idemp_l.
    by replace (o + 1 + Z.of_nat n) with (o + Z.of_nat (S n)) by lia.
Qed.

(** Writing a cell outside the slice does not change the slice. *)
Lemma ring_slice_insert data size o n i x :
  0 <= o < size -> 0 <= i ->
  (forall k, (k < n)%nat -> (o + Z.of_nat k) mod size <> i) ->
  ring_slice (<[Z.to_nat i := x]> data) size o n = ring_slice data size o n.
Proof.
  revert o. induction n as [|n IH]; intros o Ho Hi Hk; [done|]. simpl. f_equal.
  - rewrite list_lookup_insert_ne; [done|]. specialize (Hk 0%nat ltac:(lia)).
    rewrite Z.add_0_r, Z.mod_small in Hk by lia. lia.
  - apply IH; [apply Z.mod_pos_bound; lia|done|]. intros k Hlt.
    specialize (Hk (S k) ltac:(lia)). rewrite Zplus_mod_idemp_l.
    replace (o + 1 + Z.of_nat k) with (o + Z.of_nat (S k)) by lia. done.
Qed.

Lemma ring_slice_length data size o n : length (ring_slice data size o n) = n.
Proof. revert o. induction n as [|n IH]; intros o; simpl; [done|]. by rewrite IH. Qed.

Lemma ring_offset_ne size o i k :
  0 <= o < size -> 0 <= i < size -> 0 <= k < ring_count size o i ->
  (o + k) mod size <> i.
Proof.
  intros Ho Hi Hk Heq. unfold ring_count in *. subst i.
  rewrite Zminus_mod_idemp_l in Hk. replace (o + k - o) with k in Hk by lia.
  pose proof (Z.mod_le k size ltac:(lia) ltac:(lia)). lia.
Qed.

Lemma ring_end size o i :
  0 <= i < size -> 0 < size -> (o + ring_count size o i) mod size = i.
Proof.
  intros Hi Hs. unfold ring_count. rewrite Zplus_mod_idemp_r.
  replace (o + (i - o)) with i by lia. by apply Z.mod_small.
Qed.

(** The cells between [out] and [in], and what a put and a get do to them. *)
Definition ring_cells (data : list (option A)) (size o i : Z) : list (option A) :=
  ring_slice data size o (Z.to_nat (ring_count size o i)).

Lemma ring_cells_push data size o i x :
  0 <= o < size -> 0 <= i < size -> size <= zlen data -> (i + 1) mod size <> o ->
  ring_cells (<[Z.to_nat i := Some x]> data) size o ((i + 1) mod size) =
  ring_cells data size o i ++ [Some x].
Proof.
  intros Ho Hi Hd Hne. unfold ring_cells, zlen in *.
  pose proof (ring_count_bounds size o i ltac:(lia)) as Hb.
  rewrite ring_count_push by done. rewrite Z2Nat.inj_add, Nat.add_1_r by lia.
  rewrite ring_slice_snoc by lia. rewrite Z2Nat.id by lia. rewrite ring_end by lia.
  rewrite list_lookup_insert_eq by lia. simpl. f_equal.
  apply ring_slice_insert; [done|lia|]. intros k Hk. apply ring_offset_ne; lia.
Qed.

Lemma ring_cells_pop data size o i :
  0 <= o < size -> 0 <= i < size -> i <> o ->
  ring_cells data size o i =
  default None (data !! Z.to_nat o) :: ring_cells data size ((o + 1) mod size) i.
Proof.
  intros Ho Hi Hne. unfold ring_cells.
  pose proof (ring_count_bounds size o i ltac:(lia)) as Hb.
  pose proof (ring_count_zero size o i Ho Hi) as Hz.
  rewrite ring_count_pop by done.
  replace (Z.to_nat (ring_count size o i)) with (S (Z.to_nat (ring_count size o i - 1))) by lia.
  done.
Qed.

Lemma ring_cells_length data size o i :
  0 < size -> zlen (ring_cells data size o i) = ring_count size o i.
Proof.
  intros Hs. unfold ring_cells, zlen. rewrite ring_slice_length.
  pose proof (ring_count_bounds size o i Hs). lia.
Qed.
End Ring.

Arguments ring_count : simpl never.
Arguments ring_cells : simpl never.

Create HintDb ring.
#[export] Hint Resolve ring_count_bounds : ring.

(** What a blocking queue promises, as an abstract bounded FIFO. *)
Record fifo := {
  f_cap : Z;
  f_closed : bool;
  f_items : list Z;
}.

Inductive fifo_put : fifo -> Z -> section_result fifo Z -> Prop :=
| fifo_put_closed f x :
    f_closed f = true -> fifo_put f x (Leave f (-1) None)
| fifo_put_full f x :
    f_closed f = false -> zlen (f_items f) = f_cap f -> fifo_put f x (Wait NotFull)
| fifo_put_ok f x :
    f_closed f = false -> zlen (f_items f) < f_cap f ->
    fifo_put f x
      (Leave {| f_cap := f_cap f; f_closed := false; f_items := f_items f ++ [x] |}
             0 (Some NotEmpty)).

Inductive fifo_get : fifo -> section_result fifo Z -> Prop :=
| fifo_get_closed f :
    f_closed f = true -> fifo_get f (Leave f 0 None)
| fifo_get_empty f :
    f_closed f = false -> f_items f = [] -> fifo_get f (Wait NotEmpty)
| fifo_get_ok f x xs :
    f_closed f = false -> f_items f = x :: xs ->
    fifo_get f
      (Leave {| f_cap := f_cap f; f_closed := false; f_items := xs |} x (Some NotFull)).

Definition section_map {Q Q' R} (g : Q -> Q') (r : section_result Q R) : section_result Q' R :=
  match r with
  | Leave q r c => Leave (g q) r c
  | Wait c => Wait c
  end.

Definition section_ok {Q R} (P : Q -> Prop) (r : section_result Q R) : Prop :=
  match r with
  | Leave q _ _ => P q
  | Wait _ => True
  end.

(** ** src/util/bounded_blocking_queue.h *)

Module UtilQueue.

Record queue_t := {
  size : Z;
  out : Z;
  inn : Z;
  closed : Z;
  data : list (option Z);
}.

(** [queue_init]: [malloc_ok n] tells whether the allocation of [n] bytes
    succeeds.  The allocated cells are uninitialised. *)
Definition queue_init (malloc_ok : Z -> bool) (q : option queue_t) (sz : Z) : option queue_t * Z :=
  match q with
  | None => (None, -1)
  | Some q0 =>
      if sz <=? 0 then (Some q0, -1)
      else
        let size' := szadd sz 1 in
        let bytes := szmul 8 size' in
        if malloc_ok bytes then
          (Some {| size := size'; out := 0; inn := 0; closed := 0;
                   data := replicate (Z.to_nat (bytes / 8)) None |}, 0)
        else
          (Some {| size := size'; out := 0; inn := 0; closed := 0; data := [] |}, -1)
  end.

(** [queue_close], the part under the lock; the broadcasts follow. *)
Definition queue_close (q : queue_t) : queue_t :=
  {| size := size q; out := out q; inn := inn q; closed := 1; data := data q |}.

Definition queue_put (q : queue_t) (item : Z) : outcome (section_result queue_t Z) :=
  if negb (closed q =? 0) then Ret (Leave q (-1) None)
  else if size q =? 0 then Undef DivByZero
  else if negb (szadd (inn q) 1 mod size q =? out q) then
    data' ← vset (data q) (inn q) (Some item);
    Ret (Leave {| size := size q; out := out q; inn := szadd (inn q) 1 mod size q;
                  closed := closed q; data := data' |} 0 (Some NotEmpty))
  else Ret (Wait NotFull).

Definition queue_get (q : queue_t) : outcome (section_result queue_t Z) :=
  if negb (closed q =? 0) then Ret (Leave q 0 None)
  else if negb (inn q =? out q) then
    cell ← vget (data q) (out q);
    match cell with
    | None => Undef Uninitialised
    | Some ret =>
        if size q =? 0 then Undef DivByZero
        else Ret (Leave {| size := size q; out := szadd (out q) 1 mod size q; inn := inn q;
                           closed := closed q; data := data q |} ret (Some NotFull))
    end
  else Ret (Wait NotEmpty).

Definition cells (q : queue_t) : list (option Z) :=
  ring_cells (data q) (size q) (out q) (inn q).

(** Type invariant of an initialised queue. *)
Record wf (q : queue_t) : Prop := {
  wf_size : 2 <= size q < size_max;
  wf_data : zlen (data q) = size q;
  wf_out : 0 <= out q < size q;
  wf_in : 0 <= inn q < size q;
  wf_cells : exists items, cells q = Some <$> items;
}.

(** The abstract queue of a concrete one. *)
Definition abs (q : queue_t) : fifo :=
  {| f_cap := size q - 1; f_closed := negb (closed q =? 0); f_items := omap id (cells q) |}.

Lemma szadd_succ q i : wf q -> 0 <= i < size q -> szadd i 1 = i + 1.
Proof.
  intros Hq Hi. unfold szadd. apply Z.mod_small.
  pose proof (wf_size q Hq). lia.
Qed.

Lemma omap_id_some (l : list Z) : omap id (Some <$> l) = l.
Proof. induction l as [|x l IH]; [done|]. csimpl. by f_equal. Qed.

Lemma abs_items q items : cells q = Some <$> items -> f_items (abs q) = items.
Proof. intros H. simpl. rewrite H. apply omap_id_some. Qed.

Lemma abs_count q : wf q -> zlen (f_items (abs q)) = ring_count (size q) (out q) (inn q).
Proof.
  intros Hq. destruct (wf_cells q Hq) as [items Hi].
  rewrite (abs_items q items Hi). pose proof (wf_size q Hq).
  rewrite <- (ring_cells_length (data q)) by lia. fold (cells q). rewrite Hi.
  unfold zlen. by rewrite length_fmap.
Qed.

Lemma queue_init_ok ok q0 sz q :
  0 < sz < 2 ^ 60 -> queue_init ok (Some q0) sz = (Some q, 0) ->
  wf q /\ abs q = {| f_cap := sz; f_closed := false; f_items := [] |}.
Proof.
  intros Hs. unfold queue_init. destruct (Z.leb_spec sz 0); [lia|].
  destruct (ok _); intros [= <-].
  assert (szadd sz 1 = sz + 1) as E by (unfold szadd, size_max; apply Z.mod_small; lia).
  assert (szmul 8 (sz + 1) = 8 * (sz + 1)) as E2
    by (unfold szmul, size_max; apply Z.mod_small; lia).
  rewrite E, E2. rewrite (Z.mul_comm 8), Z.div_mul by lia.
  assert (ring_count (sz + 1) 0 0 = 0) as E3 by (apply ring_count_zero; lia).
  split; [constructor; simpl; unfold zlen, size_max, cells; simpl|].
  - lia.
  - rewrite length_replicate. lia.
  - lia.
  - lia.
  - exists []. unfold ring_cells. by rewrite E3.
  - unfold abs, cells, ring_cells. simpl. f_equal. lia.
Qed.

Lemma wf_push q x :
  wf q -> (inn q + 1) mod size q <> out q -> forall cl,
  let q' := {| size := size q; out := out q; inn := (inn q + 1) mod size q; closed := cl;
               data := <[Z.to_nat (inn q) := Some x]> (data q) |} in
  wf q' /\ f_items (abs q') = f_items (abs q) ++ [x].
Proof.
  intros Hq Hne cl q'. destruct (wf_cells q Hq) as [items Hi].
  destruct Hq as [Hs Hd Ho Hn _].
  assert (cells q' = Some <$> (items ++ [x])) as Hc.
  { unfold cells, q'. simpl. rewrite ring_cells_push by (done || lia).
    fold (cells q). by rewrite Hi, fmap_app. }
  split; [constructor; simpl|].
  - done.
  - by rewrite zlen_insert.
  - done.
  - apply Z.mod_pos_bound. lia.
  - eauto.
  - by rewrite (abs_items q' _ Hc), (abs_items q _ Hi).
Qed.

Lemma wf_pop q x xs :
  wf q -> cells q = Some <$> (x :: xs) -> forall cl,
  let q' := {| size := size q; out := (out q + 1) mod size q; inn := inn q; closed := cl;
               data := data q |} in
  data q !! Z.to_nat (out q) = Some (Some x) /\ wf q' /\ f_items (abs q') = xs.
Proof.
  intros [Hs Hd Ho Hn _] Hi cl q'.
  assert (inn q <> out q) as Hne.
  { intros E. assert (ring_count (size q) (out q) (inn q) = 0) as E0 by (by apply ring_count_zero).
    unfold cells, ring_cells in Hi. rewrite E0 in Hi. done. }
  unfold cells in Hi. rewrite ring_cells_pop in Hi by done. simpl in Hi.
  injection Hi as Hx Hc.
  assert (data q !! Z.to_nat (out q) = Some (Some x)) as Hg
    by (by destruct (data q !! Z.to_nat (out q)); simpl in Hx; subst).
  split; [done|]. split; [constructor; simpl; try done|].
  - apply Z.mod_pos_bound. lia.
  - by exists xs.
  - exact (abs_items q' xs Hc).
Qed.

(** [queue_put] and [queue_get] implement the abstract queue, and keep the
    invariant. *)
Lemma queue_put_spec q x :
  wf q -> returns (queue_put q x) (fun r =>
    fifo_put (abs q) x (section_map abs r) /\ section_ok wf r).
Proof.
  intros Hq. pose proof (abs_count q Hq) as Hcount. pose proof Hq as [Hs Hd Ho Hn _].
  unfold queue_put. destruct (closed q =? 0) eqn:Hcl; simpl.
  2:{ apply returns_ret. simpl. split; [|done]. constructor. simpl. by rewrite Hcl. }
  destruct (Z.eqb_spec (size q) 0); [lia|].
  rewrite (szadd_succ q) by done.
  pose proof (ring_full (size q) (out q) (inn q) Ho Hn) as Hfull.
  pose proof (ring_count_bounds (size q) (out q) (inn q) ltac:(lia)).
  destruct (Z.eqb_spec ((inn q + 1) mod size q) (out q)) as [E|E]; simpl.
  - apply returns_ret. split; [|done]. simpl. apply fifo_put_full.
    + simpl. by rewrite Hcl.
    + rewrite Hcount. simpl. by apply Hfull.
  - rewrite vset_in_range by lia. simpl. apply returns_ret.
    destruct (wf_push q x Hq E (closed q)) as [Hw Hit]. split; [|exact Hw].
    unfold section_map. unfold abs at 2. simpl in Hit |- *. rewrite Hit, Hcl.
    apply (fifo_put_ok (abs q)).
    + simpl. by rewrite Hcl.
    + rewrite Hcount. simpl. assert (ring_count (size q) (out q) (inn q) <> size q - 1)
        by (intros E'; apply E, Hfull, E'). lia.
Qed.

Lemma queue_get_spec q :
  wf q -> returns (queue_get q) (fun r =>
    fifo_get (abs q) (section_map abs r) /\ section_ok wf r).
Proof.
  intros Hq. pose proof (abs_count q Hq) as Hcount. pose proof Hq as [Hs Hd Ho Hn [items Hi]].
  unfold queue_get. destruct (closed q =? 0) eqn:Hcl; simpl.
  2:{ apply returns_ret. simpl. split; [|done]. constructor. simpl. by rewrite Hcl. }
  pose proof (ring_count_zero (size q) (out q) (inn q) Ho Hn) as Hz.
  rewrite (abs_items q items Hi) in Hcount.
  destruct (Z.eqb_spec (inn q) (out q)) as [E|E]; simpl.
  - apply returns_ret. split; [|done]. simpl. apply fifo_get_empty.
    + simpl. by rewrite Hcl.
    + rewrite (abs_items q items Hi). apply length_zero_iff_nil. unfold zlen in Hcount.
      rewrite (proj2 Hz E) in Hcount. lia.
  - destruct items as [|x xs].
    { exfalso. apply E, Hz. by rewrite <- Hcount. }
    destruct (wf_pop q x xs Hq Hi (closed q)) as (Hg & Hw & Hit).
    rewrite (proj2 (vget_Ret _ _ _) (conj (proj1 Ho) Hg)). simpl.
    destruct (Z.eqb_spec (size q) 0); [lia|]. rewrite (szadd_succ q) by done.
    apply returns_ret. split; [|exact Hw]. unfold section_map, abs at 2.
    simpl in Hit |- *. rewrite Hit, Hcl.
    apply (fifo_get_ok (abs q)).
    + simpl. by rewrite Hcl.
    + by apply (abs_items q).
Qed.

Lemma queue_close_spec q :
  wf q -> wf (queue_close q) /\
  abs (queue_close q) = {| f_cap := f_cap (abs q); f_closed := true; f_items := f_items (abs q) |}.
Proof. intros [Hs Hd Ho Hn Hc]. split; [by constructor|done]. Qed.

End UtilQueue.

(** ** src/c/20221124-bounded_blocking_queue/bounded_blocking_queue.h *)

Module PlainQueue.

Record queue_t := {
  size : Z;
  head : Z;
  tail : Z;
  data : list (option Z);
}.

Definition queue_init (malloc_ok : Z -> bool) (q : option queue_t) (sz : Z) : option queue_t * Z :=
  match q with
  | None => (None, -1)
  | Some q0 =>
      if sz <=? 1 then (Some q0, -1)
      else
        let bytes := szmul 8 sz in
        if malloc_ok bytes then
          (Some {| size := sz; head := 0; tail := 0;
                   data := replicate (Z.to_nat (bytes / 8)) None |}, 0)
        else (Some {| size := sz; head := 0; tail := 0; data := [] |}, -1)
  end.

Definition queue_put (q : queue_t) (item : Z) : outcome (section_result queue_t unit) :=
  if size q =? 0 then Undef DivByZero
  else if szadd (tail q) 1 mod size q =? head q then Ret (Wait NotFull)
  else
    data' ← vset (data q) (tail q) (Some item);
    Ret (Leave {| size := size q; head := head q; tail := szadd (tail q) 1 mod size q;
                  data := data' |} tt (Some NotEmpty)).

Definition queue_get (q : queue_t) : outcome (section_result queue_t Z) :=
  if tail q =? head q then Ret (Wait NotEmpty)
  else
    cell ← vget (data q) (head q);
    match cell with
    | None => Undef Uninitialised
    | Some ret =>
        if size q =? 0 then Undef DivByZero
        else Ret (Leave {| size := size q; head := szadd (head q) 1 mod size q; tail := tail q;
                           data := data q |} ret (Some NotFull))
    end.

(** This queue is the queue of src/util without the [closed] flag. *)
Definition as_util (q : queue_t) : UtilQueue.queue_t :=
  {| UtilQueue.size := size q; UtilQueue.out := head q; UtilQueue.inn := tail q;
     UtilQueue.closed := 0; UtilQueue.data := data q |}.

Definition wf (q : queue_t) : Prop := UtilQueue.wf (as_util q).
Definition abs (q : queue_t) : fifo := UtilQueue.abs (as_util q).

(** The result code that [UtilQueue.queue_put] adds. *)
Definition put_result (r : section_result queue_t unit) : section_result queue_t Z :=
  match r with
  | Leave q _ c => Leave q 0 c
  | Wait c => Wait c
  end.

Lemma put_as_util q x :
  UtilQueue.queue_put (as_util q) x =
  (r ← queue_put q x; Ret (section_map as_util (put_result r))).
Proof.
  unfold UtilQueue.queue_put, queue_put. simpl.
  destruct (size q =? 0); [done|]. destruct (szadd (tail q) 1 mod size q =? head q); [done|].
  simpl. by destruct (vset _ _ _).
Qed.

Lemma get_as_util q :
  UtilQueue.queue_get (as_util q) = (r ← queue_get q; Ret (section_map as_util r)).
Proof.
  unfold UtilQueue.queue_get, queue_get. simpl.
  destruct (tail q =? head q); [done|]. simpl.
  destruct (vget _ _) as [[]| | |]; simpl; try done. by destruct (size q =? 0).
Qed.

Lemma plain_queue_init_ok ok q0 sz q :
  1 < sz < 2 ^ 60 -> queue_init ok (Some q0) sz = (Some q, 0) ->
  wf q /\ abs q = {| f_cap := sz - 1; f_closed := false; f_items := [] |}.
Proof.
  intros Hs. unfold queue_init. destruct (Z.leb_spec sz 1); [lia|].
  destruct (ok (szmul 8 sz)); intros [= <-].
  apply (UtilQueue.queue_init_ok (fun _ => true)
    {| UtilQueue.size := 0; UtilQueue.out := 0; UtilQueue.inn := 0; UtilQueue.closed := 0;
       UtilQueue.data := [] |} (sz - 1)); [lia|].
  unfold UtilQueue.queue_init. destruct (Z.leb_spec (sz - 1) 0); [lia|].
  assert (szadd (sz - 1) 1 = sz) as ->; [|done].
  unfold szadd, size_max. rewrite Z.mod_small; lia.
Qed.

Lemma plain_queue_put_spec q x :
  wf q -> returns (queue_put q x) (fun r =>
    fifo_put (abs q) x (section_map abs (put_result r)) /\ section_ok wf r).
Proof.
  intros Hq. destruct (UtilQueue.queue_put_spec (as_util q) x Hq) as (r & Hr & Hf & Hw).
  rewrite put_as_util in Hr. destruct (queue_put q x) as [r'| | |]; try done.
  injection Hr as <-. apply returns_ret. by destruct r'.
Qed.

Lemma plain_queue_get_spec q :
  wf q -> returns (queue_get q) (fun r =>
    fifo_get (abs q) (section_map abs r) /\ section_ok wf r).
Proof.
  intros Hq. destruct (UtilQueue.queue_get_spec (as_util q) Hq) as (r & Hr & Hf & Hw).
  rewrite get_as_util in Hr. destruct (queue_get q) as [r'| | |]; try done.
  injection Hr as <-. apply returns_ret. by destruct r'.
Qed.

End PlainQueue.

(** ** src/util/bounded_blocking_queue.hpp *)

Module CppQueue.
Section Elements.
Context {T : Type}.

Record BoundedBlockingQueue := {
  data_ : list (option T);
  capacity_ : Z;
  in_ : Z;
  out_ : Z;
  closed_ : bool;
}.

(** The constructor: [new T[max_elems]], then [max_elems + 1] in [int]. *)
Definition make (max_elems : Z) : outcome BoundedBlockingQueue :=
  if max_elems <? 0 then Throw BadArrayNewLength
  else if int_max <=? max_elems then Undef IntOverflow
  else Ret {| data_ := replicate (Z.to_nat max_elems) None; capacity_ := max_elems + 1;
              in_ := 0; out_ := 0; closed_ := false |}.

Definition full (q : BoundedBlockingQueue) : bool :=
  szadd (in_ q) 1 mod capacity_ q =? out_ q.

Definition empty (q : BoundedBlockingQueue) : bool := in_ q =? out_ q.

Definition push_back (q : BoundedBlockingQueue) (v : T)
    : outcome (section_result BoundedBlockingQueue bool) :=
  if negb (closed_ q || negb (full q)) then Ret (Wait NotFull)
  else if closed_ q then Ret (Leave q false None)
  else if full q then Undef AssertFailed
  else
    data' ← vset (data_ q) (in_ q) (Some v);
    Ret (Leave {| data_ := data'; capacity_ := capacity_ q;
                  in_ := szadd (in_ q) 1 mod capacity_ q; out_ := out_ q;
                  closed_ := closed_ q |} true (Some NotEmpty)).

(** [pop_front] also hands back the element it moves out; the cell it moves
    from keeps its old value here, and is never read again before a push. *)
Definition pop_front (q : BoundedBlockingQueue)
    : outcome (section_result BoundedBlockingQueue (option T)) :=
  if negb (closed_ q || negb (empty q)) then Ret (Wait NotEmpty)
  else if closed_ q then Ret (Leave q None None)
  else if empty q then Undef AssertFailed
  else
    cell ← vget (data_ q) (out_ q);
    match cell with
    | None => Undef Uninitialised
    | Some v =>
        Ret (Leave {| data_ := data_ q; capacity_ := capacity_ q; in_ := in_ q;
                      out_ := szadd (out_ q) 1 mod capacity_ q;
                      closed_ := closed_ q |} (Some v) (Some NotFull))
    end.

Definition close (q : BoundedBlockingQueue) : BoundedBlockingQueue :=
  {| data_ := data_ q; capacity_ := capacity_ q; in_ := in_ q; out_ := out_ q;
     closed_ := true |}.

(** A thread that pushes every element of a list; it stops at the first call
    that does not return at once. *)
Fixpoint push_all (q : BoundedBlockingQueue) (vs : list T) : outcome BoundedBlockingQueue :=
  match vs with
  | [] => Ret q
  | v :: vs =>
      r ← push_back q v;
      match r with
      | Leave q' _ _ => push_all q' vs
      | Wait _ => NoFuel
      end
  end.

(** What every state reached without a fault satisfies: the array has one cell
    less than the ring has positions. *)
Record wf (q : BoundedBlockingQueue) : Prop := {
  wf_cap : 2 <= capacity_ q <= int_max;
  wf_data : zlen (data_ q) = capacity_ q - 1;
  wf_in : 0 <= in_ q < capacity_ q;
  wf_out : 0 <= out_ q < capacity_ q;
}.

Lemma szadd_cap q i : wf q -> 0 <= i < capacity_ q -> szadd i 1 = i + 1.
Proof.
  intros Hq Hi. unfold szadd, size_max. apply Z.mod_small.
  pose proof (wf_cap q Hq). unfold int_max in *. lia.
Qed.

Lemma full_spec q : wf q -> full q = true <-> (in_ q + 1) mod capacity_ q = out_ q.
Proof.
  intros Hq. unfold full. rewrite (szadd_cap q) by (done || apply Hq). apply Z.eqb_eq.
Qed.

Lemma push_back_open q v :
  wf q -> closed_ q = false -> full q = false ->
  push_back q v =
    if in_ q =? capacity_ q - 1 then Undef OutOfBounds
    else Ret (Leave {| data_ := <[Z.to_nat (in_ q) := Some v]> (data_ q);
                       capacity_ := capacity_ q; in_ := in_ q + 1; out_ := out_ q;
                       closed_ := false |} true (Some NotEmpty)).
Proof.
  intros Hq Hc Hf. unfold push_back. rewrite Hc, Hf. simpl.
  destruct Hq as [Hcap Hd Hi Ho] eqn:HH. destruct (Z.eqb_spec (in_ q) (capacity_ q - 1)).
  - by rewrite vset_out_of_range by lia.
  - rewrite vset_in_range by lia. simpl.
    rewrite (szadd_cap q), Z.mod_small by (done || lia). done.
Qed.

Lemma make_wf n q : 1 <= n -> make n = Ret q -> wf q.
Proof.
  intros Hn. unfold make. destruct (Z.ltb_spec n 0); [lia|].
  destruct (Z.leb_spec int_max n); [done|]. intros [= <-].
  constructor; simpl; try lia. unfold zlen. rewrite length_replicate. lia.
Qed.

Lemma push_all_spec vs q :
  wf q -> closed_ q = false -> out_ q = 0 -> in_ q + zlen vs < capacity_ q ->
  returns (push_all q vs) (fun q' =>
    wf q' /\ closed_ q' = false /\ out_ q' = 0 /\ capacity_ q' = capacity_ q /\
    in_ q' = in_ q + zlen vs /\
    (forall k, 0 <= k < in_ q -> data_ q' !! Z.to_nat k = data_ q !! Z.to_nat k) /\
    (forall (k : nat) v, vs !! k = Some v ->
       data_ q' !! Z.to_nat (in_ q + Z.of_nat k) = Some (Some v))).
Proof.
  revert q. induction vs as [|v vs IH]; intros q Hq Hc Ho Hl; unfold zlen in *; simpl in *.
  { apply returns_ret. rewrite Z.add_0_r. repeat split; try done; apply Hq. }
  assert (full q = false) as Hf.
  { apply not_true_iff_false. rewrite full_spec by done. destruct Hq.
    rewrite Z.mod_small; lia. }
  rewrite push_back_open by done. destruct (Z.eqb_spec (in_ q) (capacity_ q - 1)); [lia|]. simpl.
  destruct Hq as [Hcap Hd Hi Hout].
  eapply returns_mono; [apply IH; simpl; try done; try lia|].
  - constructor; simpl; try done; [|lia]. by rewrite zlen_insert.
  - simpl. intros q' (Hw & ? & ? & ? & Hin & Hold & Hnew).
    split; [done|]. repeat (split; [done || lia|]). split.
    + intros k Hk. rewrite Hold by lia. apply list_lookup_insert_ne. lia.
    + intros [|k] w Hw'; simpl in Hw'.
      * injection Hw' as ->. rewrite Z.add_0_r, Hold by lia.
        apply list_lookup_insert_eq. unfold zlen in Hd. lia.
      * rewrite <- (Hnew k w Hw'). f_equal. lia.
Qed.

(** [k] pushes fit a fresh queue for [n >= k] elements, in order. *)
Lemma push_all_fresh n vs q :
  1 <= n -> make n = Ret q -> zlen vs <= n ->
  returns (push_all q vs) (fun q' =>
    wf q' /\ closed_ q' = false /\ out_ q' = 0 /\ capacity_ q' = n + 1 /\ in_ q' = zlen vs /\
    (forall (k : nat) v, vs !! k = Some v -> data_ q' !! k = Some (Some v))).
Proof.
  intros Hn Hm Hl. pose proof (make_wf n q Hn Hm) as Hw. revert Hm. unfold make.
  destruct (Z.ltb_spec n 0); [lia|]. destruct (Z.leb_spec int_max n); [done|]. intros [= <-].
  eapply returns_mono; [apply push_all_spec; simpl; try done; lia|]. simpl.
  intros q' (H1 & H2 & H3 & H4 & H5 & _ & H6). repeat (split; [done|]).
  intros k v Hk. rewrite <- (H6 k v Hk). f_equal. lia.
Qed.

Lemma pop_front_head q v :
  wf q -> closed_ q = false -> out_ q = 0 -> in_ q <> 0 -> data_ q !! 0%nat = Some (Some v) ->
  pop_front q = Ret (Leave {| data_ := data_ q; capacity_ := capacity_ q; in_ := in_ q;
                              out_ := 1; closed_ := false |} (Some v) (Some NotFull)).
Proof.
  intros Hq Hc Ho Hne Hd. unfold pop_front, empty. rewrite Hc, Ho.
  destruct (Z.eqb_spec (in_ q) 0); [done|]. simpl. rewrite (proj2 (vget_Ret _ 0 _) (conj (Z.le_refl 0) Hd)). simpl.
  pose proof (wf_cap q Hq). change (szadd 0 1) with 1. by rewrite Z.mod_small by lia.
Qed.

(** The first [max_elems] pushes into a fresh C++ queue succeed and a pop
    returns the first element, but the next push, for which there is room,
    writes [data_[max_elems]], one past the end of the array that the
    constructor allocated. *)
Theorem cpp_queue_overflow n v vs x q :
  1 <= n -> make n = Ret q -> zlen (v :: vs) = n ->
  exists q1 q2,
    push_all q (v :: vs) = Ret q1 /\
    pop_front q1 = Ret (Leave q2 (Some v) (Some NotFull)) /\
    full q2 = false /\ in_ q2 = zlen (data_ q2) /\
    push_back q2 x = Undef OutOfBounds.
Proof.
  intros Hn Hm Hl.
  destruct (push_all_fresh n (v :: vs) q Hn Hm ltac:(lia)) as
    (q1 & Hq1 & Hw & Hc & Ho & Hcap & Hin & Hd).
  eexists q1, _. split; [exact Hq1|].
  split; [apply pop_front_head; try done; [lia|by apply (Hd 0%nat)]|].
  pose proof (wf_data q1 Hw) as Hda. pose proof (wf_cap q1 Hw).
  set (q2 := Build_BoundedBlockingQueue _ _ _ _ _).
  assert (wf q2) as Hw2 by (constructor; simpl; try done; lia).
  assert (full q2 = false) as Hf.
  { apply not_true_iff_false. rewrite full_spec by done. simpl.
    rewrite Hin, Hl, Hcap, Z.mod_same by lia. done. }
  split; [done|]. split; [simpl; lia|].
  rewrite push_back_open by done. simpl. destruct (Z.eqb_spec (in_ q1) (capacity_ q1 - 1)); [done|lia].
Qed.

End Elements.
Arguments BoundedBlockingQueue : clear implicits.

(** A queue for two elements: push 10, push 20, pop, push 30. *)
Lemma cpp_queue_overflow_witness :
  exists q q1 q2, make (T := Z) 2 = Ret q /\ push_all q [10; 20] = Ret q1 /\
    pop_front q1 = Ret (Leave q2 (Some 10) (Some NotFull)) /\
    push_back q2 30 = Undef OutOfBounds.
Proof.
  eexists. destruct (cpp_queue_overflow 2 10 [20] 30 _ ltac:(lia) eq_refl eq_refl)
    as (q1 & q2 & H1 & H2 & _ & _ & H3).
  exists q1, q2. repeat (split; [done|]). done.
Defined.
End CppQueue.
