(* ===== verification/QueueThreads.v ===== *)
(** * Bounded blocking queues, concurrent part

    Threads that call [queue_put], [queue_get] and [queue_close] of one queue.
    A thread is idle, ready to enter its critical section, asleep in
    [pthread_cond_wait], or between the two broadcasts of [queue_close].  The
    queue itself is known only through the interface [BlockingQueue], which
    module [UtilQueue] and module [PlainQueue] implement. *)

From stdpp Require Import base list numbers relations.
From Stdlib Require Import ZArith Lia.
From S2P Require Import Prelude BlockingQueue.

Open Scope Z_scope.

(** ** The interface: what a queue promises to its threads *)

Class BlockingQueue (Q : Type) := {
  bq_put : Q -> Z -> outcome (section_result Q Z);
  bq_get : Q -> outcome (section_result Q Z);
  (** [None]: the queue has no close operation. *)
  bq_close : Q -> option Q;
  bq_wf : Q -> Prop;
  bq_abs : Q -> fifo;
  bq_cap : forall q, bq_wf q -> 1 <= f_cap (bq_abs q);
  bq_put_law : forall q x, bq_wf q -> returns (bq_put q x) (fun r =>
    fifo_put (bq_abs q) x (section_map bq_abs r) /\ section_ok bq_wf r);
  bq_get_law : forall q, bq_wf q -> returns (bq_get q) (fun r =>
    fifo_get (bq_abs q) (section_map bq_abs r) /\ section_ok bq_wf r);
  bq_close_law : forall q q', bq_wf q -> bq_close q = Some q' ->
    bq_wf q' /\ f_cap (bq_abs q') = f_cap (bq_abs q) /\ f_closed (bq_abs q') = true /\
    f_items (bq_abs q') = f_items (bq_abs q);
}.

#[export] Program Instance util_queue : BlockingQueue UtilQueue.queue_t := {|
  bq_put := UtilQueue.queue_put;
  bq_get := UtilQueue.queue_get;
  bq_close := fun q => Some (UtilQueue.queue_close q);
  bq_wf := UtilQueue.wf;
  bq_abs := UtilQueue.abs;
  bq_put_law := UtilQueue.queue_put_spec;
  bq_get_law := UtilQueue.queue_get_spec;
|}.
Next Obligation. intros q Hq. pose proof (UtilQueue.wf_size q Hq). simpl. lia. Qed.
Next Obligation.
  intros q q' Hq [= <-]. destruct (UtilQueue.queue_close_spec q Hq) as [Hw Ha]. by rewrite Ha.
Qed.

Definition plain_put (q : PlainQueue.queue_t) (x : Z)
    : outcome (section_result PlainQueue.queue_t Z) :=
  r ← PlainQueue.queue_put q x; Ret (PlainQueue.put_result r).

#[export] Program Instance plain_queue : BlockingQueue PlainQueue.queue_t := {|
  bq_put := plain_put;
  bq_get := PlainQueue.queue_get;
  bq_close := fun _ => None;
  bq_wf := PlainQueue.wf;
  bq_abs := PlainQueue.abs;
  bq_get_law := PlainQueue.plain_queue_get_spec;
|}.
Next Obligation. intros q Hq. pose proof (UtilQueue.wf_size _ Hq). simpl in *. lia. Qed.
Next Obligation.
  intros q x Hq. unfold plain_put. destruct (PlainQueue.plain_queue_put_spec q x Hq) as (r & -> & Hf & Hw).
  apply returns_ret. split; [done|]. by destruct r.
Qed.
Next Obligation. intros; simplify_eq. Qed.

(** ** Threads *)

Inductive call :=
  | Put (x : Z)
  | Get
  | Close.

Inductive thread :=
  | Idle
  | Ready (c : call)
  | Asleep (cv : cond) (c : call)
  | Broadcasting (cvs : list cond).

Definition is_ready_get (t : thread) : bool :=
  match t with Ready Get => true | _ => false end.

Definition is_ready_put (t : thread) : bool :=
  match t with Ready (Put _) => true | _ => false end.

Definition is_asleep (cv : cond) (t : thread) : bool :=
  match t with Asleep cv' _ => bool_decide (cv = cv') | _ => false end.

Definition will_broadcast (cv : cond) (t : thread) : bool :=
  match t with Broadcasting cvs => bool_decide (cv ∈ cvs) | _ => false end.

(** A thread that sleeps waits for what its call needs. *)
Definition sleeps_well (t : thread) : bool :=
  match t with
  | Asleep NotEmpty Get => true
  | Asleep NotFull (Put _) => true
  | Asleep _ _ => false
  | _ => true
  end.

(** [pthread_cond_broadcast]. *)
Definition wake_all (cv : cond) (t : thread) : thread :=
  match t with
  | Asleep cv' c => if decide (cv = cv') then Ready c else t
  | _ => t
  end.

(** [pthread_cond_signal]: one of the sleepers, if there is any. *)
Inductive signalled : option cond -> list thread -> list thread -> Prop :=
| signalled_none ths : signalled None ths ths
| signalled_nobody cv ths : zcount (is_asleep cv) ths = 0 -> signalled (Some cv) ths ths
| signalled_one cv ths i c :
    ths !! i = Some (Asleep cv c) -> signalled (Some cv) ths (<[i := Ready c]> ths).

Section System.
Context {Q : Type} `{BQ : BlockingQueue Q}.

(** The critical section of a put or a get. *)
Definition critical (q : Q) (c : call) : option (outcome (section_result Q Z)) :=
  match c with
  | Put x => Some (bq_put q x)
  | Get => Some (bq_get q)
  | Close => None
  end.

(** The queue, the threads, and the elements put and got so far, oldest first. *)
Record system := {
  queue : Q;
  threads : list thread;
  put_log : list Z;
  got_log : list Z;
}.

Definition log_put (c : call) (sig : option cond) (l : list Z) : list Z :=
  match c, sig with Put x, Some _ => l ++ [x] | _, _ => l end.

Definition log_got (c : call) (sig : option cond) (r : Z) (l : list Z) : list Z :=
  match c, sig with Get, Some _ => l ++ [r] | _, _ => l end.

Inductive step : system -> system -> Prop :=
| step_call s i c :
    threads s !! i = Some Idle ->
    step s {| queue := queue s; threads := <[i := Ready c]> (threads s);
              put_log := put_log s; got_log := got_log s |}
| step_leave s i c q' r sig ths :
    threads s !! i = Some (Ready c) ->
    critical (queue s) c = Some (Ret (Leave q' r sig)) ->
    signalled sig (<[i := Idle]> (threads s)) ths ->
    step s {| queue := q'; threads := ths;
              put_log := log_put c sig (put_log s); got_log := log_got c sig r (got_log s) |}
| step_wait s i c cv :
    threads s !! i = Some (Ready c) ->
    critical (queue s) c = Some (Ret (Wait cv)) ->
    step s {| queue := queue s; threads := <[i := Asleep cv c]> (threads s);
              put_log := put_log s; got_log := got_log s |}
| step_close s i q' :
    threads s !! i = Some (Ready Close) ->
    bq_close (queue s) = Some q' ->
    step s {| queue := q'; threads := <[i := Broadcasting [NotEmpty; NotFull]]> (threads s);
              put_log := put_log s; got_log := got_log s |}
| step_broadcast s i cv cvs :
    threads s !! i = Some (Broadcasting (cv :: cvs)) ->
    step s {| queue := queue s;
              threads := wake_all cv <$> <[i := Broadcasting cvs]> (threads s);
              put_log := put_log s; got_log := got_log s |}
| step_close_done s i :
    threads s !! i = Some (Broadcasting []) ->
    step s {| queue := queue s; threads := <[i := Idle]> (threads s);
              put_log := put_log s; got_log := got_log s |}
| step_spurious s i cv c :
    threads s !! i = Some (Asleep cv c) ->
    step s {| queue := queue s; threads := <[i := Ready c]> (threads s);
              put_log := put_log s; got_log := got_log s |}.

(** [n] idle threads and a freshly initialised queue. *)
Definition initial (q : Q) (n : nat) : system :=
  {| queue := q; threads := replicate n Idle; put_log := []; got_log := [] |}.

Definition starts_empty (q : Q) : Prop :=
  bq_wf q /\ f_items (bq_abs q) = [] /\ f_closed (bq_abs q) = false.

Definition reachable (s : system) : Prop :=
  exists q n, starts_empty q /\ rtc step (initial q n) s.

(** ** No wake-up is lost *)

(** While a thread sleeps for an element, there are at least as many getters
    under way as there are elements; the same for putters and free cells; and
    once the queue is closed, a thread that sleeps has a broadcast to come. *)
Record awake (f : fifo) (ths : list thread) : Prop := {
  awake_calls : Forall (fun t => sleeps_well t = true) ths;
  awake_getters : f_closed f = false -> 0 < zcount (is_asleep NotEmpty) ths ->
    zlen (f_items f) <= zcount is_ready_get ths;
  awake_putters : f_closed f = false -> 0 < zcount (is_asleep NotFull) ths ->
    f_cap f - zlen (f_items f) <= zcount is_ready_put ths;
  awake_closed : forall cv, f_closed f = true -> 0 < zcount (is_asleep cv) ths ->
    0 < zcount (will_broadcast cv) ths;
}.

Record inv (s : system) : Prop := {
  inv_wf : bq_wf (queue s);
  inv_fifo : put_log s = got_log s ++ f_items (bq_abs (queue s));
  inv_bound : zlen (f_items (bq_abs (queue s))) <= f_cap (bq_abs (queue s));
  inv_awake : awake (bq_abs (queue s)) (threads s);
}.

End System.
Arguments system : clear implicits.

(** Rewrites every count of an updated thread list, then decides. *)
Ltac count_threads :=
  repeat match goal with
  | H : ?l !! ?i = Some ?a |- context [zcount ?p (<[?i := ?b]> ?l)] =>
      rewrite (zcount_insert p l i a b H)
  | H : ?l !! ?i = Some ?a, H' : context [zcount ?p (<[?i := ?b]> ?l)] |- _ =>
      rewrite (zcount_insert p l i a b H) in H'
  end; simpl in *; try lia.

(** Waking a thread up, by a signal or spuriously, keeps the invariant. *)
Lemma awake_wake f ths i cv c :
  awake f ths -> ths !! i = Some (Asleep cv c) -> awake f (<[i := Ready c]> ths).
Proof.
  intros [Hc Hg Hp Hcl] Hi.
  assert (0 <= Z.b2z (is_ready_get (Ready c)) /\ 0 <= Z.b2z (is_ready_put (Ready c))) as [? ?]
    by (destruct c; simpl; lia).
  assert (forall cv', 0 <= Z.b2z (is_asleep cv' (Asleep cv c))) as Hb
    by (intros cv'; destruct (is_asleep _ _); simpl; lia).
  pose proof (Hb NotEmpty). pose proof (Hb NotFull).
  split.
  - apply Forall_insert; [done|by destruct c].
  - intros Ho Hz. rewrite !(zcount_insert _ _ _ _ _ Hi) in *. simpl in *. specialize (Hg Ho). lia.
  - intros Ho Hz. rewrite !(zcount_insert _ _ _ _ _ Hi) in *. simpl in *. specialize (Hp Ho). lia.
  - intros cv' Ho Hz. rewrite !(zcount_insert _ _ _ _ _ Hi) in *. specialize (Hb cv').
    simpl in *. specialize (Hcl cv' Ho). lia.
Qed.

Lemma awake_signalled f sig ths ths' :
  awake f ths -> signalled sig ths ths' -> awake f ths'.
Proof. intros Ha Hs. destruct Hs; [done..|]. by eapply awake_wake. Qed.

(** A thread that neither sleeps nor runs a put or a get may start a call. *)
Lemma awake_call f ths i c :
  awake f ths -> ths !! i = Some Idle -> awake f (<[i := Ready c]> ths).
Proof.
  intros [Hc Hg Hp Hcl] Hi. split.
  - by apply Forall_insert.
  - intros Ho Hz. specialize (Hg Ho). destruct c; count_threads.
  - intros Ho Hz. specialize (Hp Ho). destruct c; count_threads.
  - intros cv Ho Hz. specialize (Hcl cv Ho). count_threads.
Qed.

Lemma sleeper_call ths i cv c :
  Forall (fun t => sleeps_well t = true) ths -> ths !! i = Some (Asleep cv c) ->
  match cv with NotEmpty => c = Get | NotFull => exists x, c = Put x end.
Proof.
  intros Hf Hi. pose proof (Forall_lookup_1 _ _ _ _ Hf Hi) as Hw. simpl in Hw.
  destruct cv, c; try done. eauto.
Qed.

(** A put that stores an element, with the signal it sends. *)
Lemma awake_put f ths i x ths' :
  awake f ths -> ths !! i = Some (Ready (Put x)) ->
  signalled (Some NotEmpty) (<[i := Idle]> ths) ths' ->
  awake {| f_cap := f_cap f; f_closed := f_closed f; f_items := f_items f ++ [x] |} ths'.
Proof.
  intros [Hc Hg Hp Hcl] Hi Hs.
  assert (zlen (f_items f ++ [x]) = zlen (f_items f) + 1) as Hl
    by (unfold zlen; rewrite length_app; simpl; lia).
  assert (Forall (fun t => sleeps_well t = true) (<[i := Idle]> ths)) as Hc'
    by (by apply Forall_insert).
  inversion Hs as [| |cv ths0 j c Hj]; subst.
  - split; simpl; rewrite ?Hl; [done|..].
    + intros Ho Hz. lia.
    + intros Ho Hz. specialize (Hp Ho). count_threads.
    + intros cv Ho Hz. specialize (Hcl cv Ho). count_threads.
  - pose proof (sleeper_call _ _ _ _ Hc' Hj) as ->.
    split; simpl; rewrite ?Hl; [by apply Forall_insert|..].
    + intros Ho Hz. specialize (Hg Ho). count_threads.
    + intros Ho Hz. specialize (Hp Ho). count_threads.
    + intros cv Ho Hz. specialize (Hcl cv Ho). destruct cv; count_threads.
Qed.

(** A get that takes an element, with the signal it sends. *)
Lemma awake_get f ths i x xs ths' :
  awake f ths -> ths !! i = Some (Ready Get) -> f_items f = x :: xs ->
  signalled (Some NotFull) (<[i := Idle]> ths) ths' ->
  awake {| f_cap := f_cap f; f_closed := f_closed f; f_items := xs |} ths'.
Proof.
  intros [Hc Hg Hp Hcl] Hi Hx Hs.
  assert (zlen (f_items f) = zlen xs + 1) as Hl by (rewrite Hx; unfold zlen; simpl; lia).
  assert (Forall (fun t => sleeps_well t = true) (<[i := Idle]> ths)) as Hc'
    by (by apply Forall_insert).
  inversion Hs as [| |cv ths0 j c Hj]; subst.
  - split; simpl; [done|..].
    + intros Ho Hz. specialize (Hg Ho). count_threads.
    + intros Ho Hz. lia.
    + intros cv Ho Hz. specialize (Hcl cv Ho). count_threads.
  - destruct (sleeper_call _ _ _ _ Hc' Hj) as [y ->].
    split; simpl; [by apply Forall_insert|..].
    + intros Ho Hz. specialize (Hg Ho). count_threads.
    + intros Ho Hz. specialize (Hp Ho). count_threads.
    + intros cv Ho Hz. specialize (Hcl cv Ho). destruct cv; count_threads.
Qed.

(** A call on a closed queue returns without touching it. *)
Lemma awake_leave_closed f ths i c :
  awake f ths -> ths !! i = Some (Ready c) -> f_closed f = true ->
  awake f (<[i := Idle]> ths).
Proof.
  intros [Hc Hg Hp Hcl] Hi Ho. split; [by apply Forall_insert|congruence..|].
  intros cv _ Hz. specialize (Hcl cv Ho). count_threads.
Qed.

(** A call that has to wait goes to sleep. *)
Lemma awake_wait f ths i c cv :
  awake f ths -> ths !! i = Some (Ready c) -> f_closed f = false ->
  match cv with
  | NotEmpty => c = Get /\ f_items f = []
  | NotFull => (exists x, c = Put x) /\ zlen (f_items f) = f_cap f
  end ->
  awake f (<[i := Asleep cv c]> ths).
Proof.
  intros [Hc Hg Hp Hcl] Hi Ho Hcv.
  pose proof (zcount_nonneg is_ready_get (<[i := Asleep cv c]> ths)).
  pose proof (zcount_nonneg is_ready_put (<[i := Asleep cv c]> ths)).
  specialize (Hg Ho). specialize (Hp Ho).
  destruct cv; [destruct Hcv as [-> He]; assert (zlen (f_items f) = 0) by (by rewrite He)|destruct Hcv as [[x ->] He]];
    (split; [by apply Forall_insert|..|congruence]); intros _ Hz; simpl; try lia; count_threads.
Qed.

(** [queue_close] under the lock. *)
Lemma awake_close f ths i its cap :
  awake f ths -> ths !! i = Some (Ready Close) ->
  awake {| f_cap := cap; f_closed := true; f_items := its |}
        (<[i := Broadcasting [NotEmpty; NotFull]]> ths).
Proof.
  intros [Hc Hg Hp Hcl] Hi. split; simpl; [by apply Forall_insert|done..|].
  intros cv _ _. pose proof (zcount_nonneg (will_broadcast cv) ths).
  rewrite (zcount_insert _ _ _ _ _ Hi). destruct cv; simpl; lia.
Qed.

(** One broadcast of [queue_close]. *)
Lemma awake_broadcast f ths i cv cvs :
  awake f ths -> ths !! i = Some (Broadcasting (cv :: cvs)) ->
  awake f (wake_all cv <$> <[i := Broadcasting cvs]> ths).
Proof.
  intros [Hc Hg Hp Hcl] Hi. set (ths' := <[i := Broadcasting cvs]> ths).
  assert (forall p : thread -> bool, (forall t, p t = true -> p (wake_all cv t) = true) ->
    zcount p ths' <= zcount p (wake_all cv <$> ths')) as Hup.
  { intros p Hp'. rewrite zcount_fmap. by apply zcount_mono. }
  assert (forall cv', 0 < zcount (is_asleep cv') (wake_all cv <$> ths') ->
    cv' <> cv /\ 0 < zcount (is_asleep cv') ths) as Hdown.
  { intros cv'. rewrite zcount_fmap. intros Hz. split.
    - intros ->. rewrite zcount_none in Hz; [lia|]. intros [| |cv'' c|]; try done. simpl.
      case_decide; simpl; [done|]. by apply bool_decide_eq_false.
    - assert (zcount (is_asleep cv') ths' = zcount (is_asleep cv') ths) as <-
        by (unfold ths'; count_threads).
      eapply Z.lt_le_trans; [exact Hz|]. apply zcount_mono. intros [| |cv'' c|]; try done. simpl.
      by case_decide. }
  split.
  - apply Forall_fmap, Forall_insert; [|done]. apply (Forall_impl _ _ _ Hc).
    intros [| |cv' c|]; try done. simpl. by case_decide.
  - intros Ho Hz. destruct (Hdown _ Hz) as [_ Hz']. specialize (Hg Ho Hz').
    specialize (Hup is_ready_get ltac:(by intros [|[]| |])). unfold ths' in *. count_threads.
  - intros Ho Hz. destruct (Hdown _ Hz) as [_ Hz']. specialize (Hp Ho Hz').
    specialize (Hup is_ready_put ltac:(by intros [|[]| |])). unfold ths' in *. count_threads.
  - intros cv' Ho Hz. destruct (Hdown _ Hz) as [Hne Hz']. specialize (Hcl cv' Ho Hz').
    specialize (Hup (will_broadcast cv') ltac:(by intros [| | |])).
    unfold ths' in Hup. rewrite (zcount_insert _ _ _ _ _ Hi) in Hup. simpl in Hup.
    rewrite (bool_decide_ext (cv' ∈ cv :: cvs) (cv' ∈ cvs)) in Hup
      by (rewrite elem_of_cons; tauto).
    unfold ths'. lia.
Qed.

Lemma awake_close_done f ths i :
  awake f ths -> ths !! i = Some (Broadcasting []) -> awake f (<[i := Idle]> ths).
Proof.
  intros [Hc Hg Hp Hcl] Hi. split; [by apply Forall_insert|..].
  - intros Ho Hz. specialize (Hg Ho). count_threads.
  - intros Ho Hz. specialize (Hp Ho). count_threads.
  - intros cv Ho Hz. specialize (Hcl cv Ho). count_threads.
Qed.

(** Replaces the abstraction of the queue by the value an operation gave it. *)
Ltac abs_eq q :=
  match goal with H : ?a = bq_abs q |- _ => rewrite <- ?H; clear H | |- _ => idtac end; simpl.

Section Invariant.
Context {Q : Type} `{BQ : BlockingQueue Q}.

Lemma inv_initial (q : Q) n : starts_empty q -> inv (initial q n).
Proof.
  intros (Hw & He & Hc). pose proof (bq_cap q Hw).
  assert (forall p : thread -> bool, p Idle = false -> zcount p (replicate n Idle) = 0) as Hz
    by (intros p Hp; induction n; simpl; rewrite ?Hp; auto).
  split; simpl; [done|by rewrite He|rewrite He; unfold zlen; simpl; lia|].
  split; [by apply Forall_replicate|..]; intros *; rewrite Hz; done || lia.
Qed.

Lemma critical_returns (s : system Q) c :
  inv s -> c <> Close -> exists r, critical (queue s) c = Some (Ret r).
Proof.
  intros Hs Hc. destruct c as [x| |]; simpl.
  - destruct (bq_put_law (queue s) x (inv_wf s Hs)) as (r & -> & _). eauto.
  - destruct (bq_get_law (queue s) (inv_wf s Hs)) as (r & -> & _). eauto.
  - done.
Qed.

Lemma inv_put (s : system Q) i x q' r sig ths :
  inv s -> threads s !! i = Some (Ready (Put x)) -> bq_put (queue s) x = Ret (Leave q' r sig) ->
  signalled sig (<[i := Idle]> (threads s)) ths ->
  inv {| queue := q'; threads := ths; put_log := log_put (Put x) sig (put_log s);
         got_log := got_log s |}.
Proof.
  intros [Hw Hf Hb Ha] Hi Hp Hs.
  destruct (bq_put_law (queue s) x Hw) as (r0 & Hr & Hput & Hok).
  rewrite Hp in Hr. injection Hr as <-. simpl in Hput, Hok.
  inversion Hput as [f y Hcl|f y Hcl Hfull|f y Hcl Hroom]; subst.
  - inversion Hs; subst. split; simpl; [done|by abs_eq q'..|]. abs_eq q'.
    by eapply awake_leave_closed.
  - split; simpl; [done|abs_eq q'..].
    + by rewrite Hf, app_assoc.
    + unfold zlen in *. rewrite length_app. simpl. lia.
    + rewrite <- Hcl. by eapply awake_put.
Qed.

Lemma inv_get (s : system Q) i q' r sig ths :
  inv s -> threads s !! i = Some (Ready Get) -> bq_get (queue s) = Ret (Leave q' r sig) ->
  signalled sig (<[i := Idle]> (threads s)) ths ->
  inv {| queue := q'; threads := ths; put_log := put_log s;
         got_log := log_got Get sig r (got_log s) |}.
Proof.
  intros [Hw Hf Hb Ha] Hi Hp Hs.
  destruct (bq_get_law (queue s) Hw) as (r0 & Hr & Hget & Hok).
  rewrite Hp in Hr. injection Hr as <-. simpl in Hget, Hok.
  inversion Hget as [f Hcl|f Hcl He|f y ys Hcl Hx]; subst.
  - inversion Hs; subst. split; simpl; [done|by abs_eq q'..|]. abs_eq q'.
    by eapply awake_leave_closed.
  - split; simpl; [done|abs_eq q'..].
    + by rewrite Hf, Hx, <- app_assoc.
    + rewrite Hx in Hb. unfold zlen in *. simpl in Hb. lia.
    + rewrite <- Hcl. by eapply awake_get.
Qed.

Lemma inv_wait (s : system Q) i c cv :
  inv s -> threads s !! i = Some (Ready c) -> critical (queue s) c = Some (Ret (Wait cv)) ->
  inv {| queue := queue s; threads := <[i := Asleep cv c]> (threads s);
         put_log := put_log s; got_log := got_log s |}.
Proof.
  intros [Hw Hf Hb Ha] Hi Hc. split; simpl; try done.
  destruct c as [x| |]; simpl in Hc; [..|done]; injection Hc as Hc.
  - destruct (bq_put_law (queue s) x Hw) as (r0 & Hr & Hput & _). rewrite Hc in Hr.
    injection Hr as <-. simpl in Hput. inversion Hput; subst. apply awake_wait; eauto.
  - destruct (bq_get_law (queue s) Hw) as (r0 & Hr & Hget & _). rewrite Hc in Hr.
    injection Hr as <-. simpl in Hget. inversion Hget; subst. apply awake_wait; eauto.
Qed.

Lemma inv_close (s : system Q) i q' :
  inv s -> threads s !! i = Some (Ready Close) -> bq_close (queue s) = Some q' ->
  inv {| queue := q'; threads := <[i := Broadcasting [NotEmpty; NotFull]]> (threads s);
         put_log := put_log s; got_log := got_log s |}.
Proof.
  intros [Hw Hf Hb Ha] Hi Hc. destruct (bq_close_law _ _ Hw Hc) as (Hw' & Hcap & Hcl & Hit).
  split; simpl; [done|by rewrite Hit|by rewrite Hit, Hcap|].
  destruct (bq_abs q') as [cap cl its]. simpl in *. subst. by eapply awake_close.
Qed.

Lemma inv_step (s s' : system Q) : inv s -> step s s' -> inv s'.
Proof.
  intros Hs Hst. pose proof Hs as [Hw Hf Hb Ha].
  inversion Hst as [? i c Hi|? i c q' r sig ths Hi Hc Hsig|? i c cv Hi Hc|? i q' Hi Hc
    |? i cv cvs Hi|? i Hi|? i cv c Hi]; subst.
  - split; simpl; try done. by apply awake_call.
  - destruct c as [x| |]; simpl in Hc; [..|done]; injection Hc as Hc.
    + by eapply inv_put.
    + by eapply inv_get.
  - by eapply inv_wait.
  - by eapply inv_close.
  - split; simpl; try done. by apply awake_broadcast.
  - split; simpl; try done. by apply awake_close_done.
  - split; simpl; try done. by eapply awake_wake.
Qed.

(** No step changes the capacity. *)
Lemma step_cap (s s' : system Q) :
  inv s -> step s s' -> f_cap (bq_abs (queue s')) = f_cap (bq_abs (queue s)).
Proof.
  intros Hs Hst. pose proof (inv_wf s Hs) as Hw.
  inversion Hst as [|? i c q' r sig ths Hi Hc Hsig| |? i q' Hi Hc| | |]; subst; try done; simpl.
  - destruct c as [x| |]; simpl in Hc; [..|done]; injection Hc as Hc.
    + destruct (bq_put_law (queue s) x Hw) as (r0 & Hr & Hput & _). rewrite Hc in Hr.
      injection Hr as <-. simpl in Hput. inversion Hput; subst; by abs_eq q'.
    + destruct (bq_get_law (queue s) Hw) as (r0 & Hr & Hget & _). rewrite Hc in Hr.
      injection Hr as <-. simpl in Hget. inversion Hget; subst; by abs_eq q'.
  - by destruct (bq_close_law _ _ Hw Hc) as (_ & -> & _).
Qed.

Lemma run_cap (s s' : system Q) :
  inv s -> rtc step s s' -> f_cap (bq_abs (queue s')) = f_cap (bq_abs (queue s)).
Proof.
  intros Hs Hr. revert Hs. induction Hr as [|s t u Hst Hr IH]; intros Hs; [done|].
  rewrite IH by eauto using inv_step. by apply step_cap.
Qed.

Lemma inv_run (s s' : system Q) : inv s -> rtc step s s' -> inv s'.
Proof. apply rtc_preserves, inv_step. Qed.

(** Every thread is idle or asleep. *)
Definition quiet (s : system Q) : Prop :=
  Forall (fun t => match t with Idle | Asleep _ _ => True | _ => False end) (threads s).

Lemma quiet_count (s : system Q) (p : thread -> bool) :
  quiet s -> p Idle = false -> (forall cv c, p (Asleep cv c) = false) -> zcount p (threads s) = 0.
Proof.
  intros Hq H1 H2. unfold quiet in Hq. induction Hq as [|t ths Ht Hq IH]; simpl; [done|].
  rewrite IH. destruct t; try done; by rewrite ?H1, ?H2.
Qed.

Lemma quiet_sleepers (s : system Q) :
  inv s -> quiet s ->
  (f_closed (bq_abs (queue s)) = true -> forall cv, zcount (is_asleep cv) (threads s) = 0) /\
  (0 < zcount (is_asleep NotEmpty) (threads s) -> f_items (bq_abs (queue s)) = []) /\
  (0 < zcount (is_asleep NotFull) (threads s) ->
   zlen (f_items (bq_abs (queue s))) = f_cap (bq_abs (queue s))).
Proof.
  intros [Hw Hf Hb [_ Hg Hp Hcl]] Hq.
  rewrite (quiet_count s is_ready_get) in Hg by done.
  rewrite (quiet_count s is_ready_put) in Hp by done.
  assert (f_closed (bq_abs (queue s)) = true -> forall cv,
    zcount (is_asleep cv) (threads s) = 0) as Hclosed.
  { intros Hc cv. specialize (Hcl cv Hc). rewrite (quiet_count s (will_broadcast cv)) in Hcl by done.
    pose proof (zcount_nonneg (is_asleep cv) (threads s)). lia. }
  split; [done|].
  destruct (f_closed (bq_abs (queue s))) eqn:Hc.
  - rewrite !(Hclosed eq_refl). split; lia.
  - split; intros Hz.
    + specialize (Hg eq_refl Hz). apply length_zero_iff_nil. unfold zlen in Hg. lia.
    + specialize (Hp eq_refl Hz). lia.
Qed.
End Invariant.

(** ** The queue of src/util under any schedule *)

Lemma util_run malloc_ok q0 sz q n s :
  0 < sz < 2 ^ 60 ->
  UtilQueue.queue_init malloc_ok (Some q0) sz = (Some q, 0) ->
  rtc step (initial q n) s ->
  inv s /\ f_cap (UtilQueue.abs (queue s)) = sz.
Proof.
  intros Hsz Hinit Hrun. destruct (UtilQueue.queue_init_ok _ _ _ _ Hsz Hinit) as [Hw Ha].
  assert (inv (initial q n)) as H0.
  { apply inv_initial. split; [done|]. change (bq_abs q) with (UtilQueue.abs q). by rewrite Ha. }
  split; [by apply (inv_run _ _ H0)|]. etrans; [apply (run_cap _ _ H0 Hrun)|].
  change (bq_abs _) with (UtilQueue.abs q). by rewrite Ha.
Qed.

(** C1: however many threads put, get and close, and however they are
    scheduled, a queue that [queue_init] made for [sz] elements hands out the
    elements in the order they were put, without loss or duplication, never
    holds more than [sz] of them, and no operation on it touches memory it
    should not. *)
Theorem util_queue_fifo malloc_ok q0 sz q n s :
  0 < sz < 2 ^ 60 ->
  UtilQueue.queue_init malloc_ok (Some q0) sz = (Some q, 0) ->
  rtc step (initial q n) s ->
  put_log s = got_log s ++ f_items (UtilQueue.abs (queue s)) /\
  zlen (f_items (UtilQueue.abs (queue s))) <= sz /\
  (forall x, exists r, UtilQueue.queue_put (queue s) x = Ret r) /\
  (exists r, UtilQueue.queue_get (queue s) = Ret r).
Proof.
  intros Hsz Hinit Hrun. destruct (util_run _ _ _ _ _ _ Hsz Hinit Hrun) as [Hs Hcap].
  split; [apply Hs|]. split; [etrans; [apply Hs|]; by rewrite <- Hcap|]. split.
  - intros x. destruct (critical_returns s (Put x) Hs ltac:(done)) as [r [= Hr]]. eauto.
  - destruct (critical_returns s Get Hs ltac:(done)) as [r [= Hr]]. eauto.
Qed.

(** C2: no wake-up is lost.  When every thread is idle or asleep, a thread
    sleeps in [queue_get] only if the queue is empty, in [queue_put] only if it
    is full, never both, and nobody sleeps on a closed queue. *)
Theorem util_queue_no_lost_wakeup malloc_ok q0 sz q n s :
  0 < sz < 2 ^ 60 ->
  UtilQueue.queue_init malloc_ok (Some q0) sz = (Some q, 0) ->
  rtc step (initial q n) s -> quiet s ->
  (UtilQueue.closed (queue s) <> 0 -> forall cv, zcount (is_asleep cv) (threads s) = 0) /\
  (0 < zcount (is_asleep NotEmpty) (threads s) -> f_items (UtilQueue.abs (queue s)) = []) /\
  (0 < zcount (is_asleep NotFull) (threads s) -> zlen (f_items (UtilQueue.abs (queue s))) = sz) /\
  (zcount (is_asleep NotEmpty) (threads s) = 0 \/ zcount (is_asleep NotFull) (threads s) = 0).
Proof.
  intros Hsz Hinit Hrun Hq. destruct (util_run _ _ _ _ _ _ Hsz Hinit Hrun) as [Hs Hcap].
  destruct (quiet_sleepers s Hs Hq) as (Hc & He & Hf).
  pose proof (zcount_nonneg (is_asleep NotEmpty) (threads s)).
  pose proof (zcount_nonneg (is_asleep NotFull) (threads s)).
  change (@bq_abs _ util_queue) with UtilQueue.abs in *. rewrite Hcap in Hf.
  split; [|split; [done|split; [done|]]].
  - intros Hcl. apply Hc. simpl. by apply negb_true_iff, Z.eqb_neq.
  - destruct (decide (zcount (is_asleep NotEmpty) (threads s) = 0)) as [|Hne]; [by left|right].
    destruct (decide (zcount (is_asleep NotFull) (threads s) = 0)) as [|Hnf]; [done|].
    rewrite He in Hf by lia. unfold zlen in Hf. simpl in Hf. lia.
Qed.

(** ** Runs of two threads *)

Definition blank : UtilQueue.queue_t :=
  {| UtilQueue.size := 0; UtilQueue.out := 0; UtilQueue.inn := 0; UtilQueue.closed := 0;
     UtilQueue.data := [] |}.

Definition one_cell : UtilQueue.queue_t :=
  {| UtilQueue.size := 2; UtilQueue.out := 0; UtilQueue.inn := 0; UtilQueue.closed := 0;
     UtilQueue.data := [None; None] |}.

Definition after_put : system UtilQueue.queue_t :=
  {| queue := {| UtilQueue.size := 2; UtilQueue.out := 0; UtilQueue.inn := 1;
                 UtilQueue.closed := 0; UtilQueue.data := [Some 7; None] |};
     threads := [Idle; Idle]; put_log := [7]; got_log := [] |}.

Definition getter_asleep : system UtilQueue.queue_t :=
  {| queue := one_cell; threads := [Asleep NotEmpty Get; Idle]; put_log := []; got_log := [] |}.

Lemma run_to_after_put : rtc step (initial one_cell 2) after_put.
Proof.
  eapply rtc_l; [by apply (step_call _ 0 (Put 7))|].
  apply rtc_once, (step_leave {| queue := one_cell; threads := [Ready (Put 7); Idle];
    put_log := []; got_log := [] |} 0 (Put 7) (queue after_put) 0 (Some NotEmpty) [Idle; Idle]);
    [done|done|by apply signalled_nobody].
Qed.

Lemma run_to_getter_asleep : rtc step (initial one_cell 2) getter_asleep.
Proof.
  eapply rtc_l; [by apply (step_call _ 0 Get)|].
  by apply rtc_once, (step_wait {| queue := one_cell; threads := [Ready Get; Idle];
    put_log := []; got_log := [] |} 0 Get NotEmpty).
Qed.

(** A thread puts 7 into a queue for one element. *)
Lemma util_queue_fifo_witness :
  put_log after_put = [7] /\
  put_log after_put = got_log after_put ++ f_items (UtilQueue.abs (queue after_put)).
Proof.
  split; [done|].
  apply (util_queue_fifo (fun _ => true) blank 1 one_cell 2 after_put ltac:(lia) eq_refl
    run_to_after_put).
Defined.

(** A getter falls asleep on an empty queue. *)
Lemma util_queue_no_lost_wakeup_witness :
  0 < zcount (is_asleep NotEmpty) (threads getter_asleep) /\
  f_items (UtilQueue.abs (queue getter_asleep)) = [].
Proof.
  split; [done|].
  apply (util_queue_no_lost_wakeup (fun _ => true) blank 1 one_cell 2 getter_asleep ltac:(lia)
    eq_refl run_to_getter_asleep); [by repeat constructor|done].
Defined.
