(* ===== verification/ThreadPool.v ===== *)
(** * The thread pool

    src/util/threadpool.c, and its copy in src/c/20220908-threadpool: a ring of
    tasks, workers that wait on one condition variable, and the two kinds of
    shutdown.  What a thread does between locking and unlocking the mutex is
    one step.  The pthread calls on an initialised mutex, condition variable
    or thread succeed, with one exception: [threadpool_free] destroys the mutex
    that it has locked, and what this does is a parameter [destroy_locked],
    because POSIX leaves it undefined while Linux documents that it returns
    [EBUSY].  The results of [malloc], of the two initialisations and of
    [pthread_create] are arguments of [threadpool_create]. *)

From stdpp Require Import base list numbers relations sorting.
From Stdlib Require Import ZArith Lia.
From S2P Require Import Prelude BlockingQueue.

Open Scope Z_scope.

Definition MAX_THREADS : Z := 64.
Definition MAX_QUEUE : Z := 65536.

Definition threadpool_invalid : Z := -1.
Definition threadpool_lock_failure : Z := -2.
Definition threadpool_queue_full : Z := -3.
Definition threadpool_shutdown : Z := -4.
Definition threadpool_thread_failure : Z := -5.

Definition threadpool_graceful : Z := 1.
Definition immediate_shutdown : Z := 1.
Definition graceful_shutdown : Z := 2.

(** Pointers to a function and to its argument. *)
Record threadpool_task_t := { function : Z; argument : Z }.

(** A cell of the ring that was never written holds nothing. *)
Record threadpool_t := {
  queue : list (option threadpool_task_t);
  thread_count : Z;
  queue_size : Z;
  head : Z;
  tail : Z;
  count : Z;
  shutdown : Z;
  started : Z;
}.

Definition set_shutdown (p : threadpool_t) (v : Z) : threadpool_t :=
  {| queue := queue p; thread_count := thread_count p; queue_size := queue_size p;
     head := head p; tail := tail p; count := count p; shutdown := v; started := started p |}.

Definition set_started (p : threadpool_t) (v : Z) : threadpool_t :=
  {| queue := queue p; thread_count := thread_count p; queue_size := queue_size p;
     head := head p; tail := tail p; count := count p; shutdown := shutdown p; started := v |}.

(** ** The calls *)

(** [threadpool_add] with the mutex: the pool, the result, and whether a worker
    is signalled. *)
Definition threadpool_add (p : threadpool_t) (t : threadpool_task_t)
    : outcome (threadpool_t * Z * bool) :=
  if function t =? 0 then Ret (p, threadpool_invalid, false)
  else
    n ← int_op (tail p + 1);
    next ← int_rem n (queue_size p);
    if count p =? queue_size p then Ret (p, threadpool_queue_full, false)
    else if negb (shutdown p =? 0) then Ret (p, threadpool_shutdown, false)
    else
      q ← vset (queue p) (tail p) (Some t);
      c ← int_op (count p + 1);
      Ret ({| queue := q; thread_count := thread_count p; queue_size := queue_size p;
              head := head p; tail := next; count := c; shutdown := shutdown p;
              started := started p |}, 0, true).

(** One pass of the worker through its critical section. *)
Inductive pass :=
  | MustWait
  | MustExit (p : threadpool_t)
  | Grabbed (p : threadpool_t) (t : threadpool_task_t).

Definition threadpool_thread (p : threadpool_t) : outcome pass :=
  if (count p =? 0) && (shutdown p =? 0) then Ret MustWait
  else if (shutdown p =? immediate_shutdown) ||
          ((shutdown p =? graceful_shutdown) && (count p =? 0))
  then n ← int_op (started p - 1); Ret (MustExit (set_started p n))
  else
    cell ← vget (queue p) (head p);
    n ← int_op (head p + 1);
    h ← int_rem n (queue_size p);
    c ← int_op (count p - 1);
    match cell with
    | None => Undef Uninitialised
    | Some t =>
        Ret (Grabbed {| queue := queue p; thread_count := thread_count p;
                        queue_size := queue_size p; head := h; tail := tail p; count := c;
                        shutdown := shutdown p; started := started p |} t)
    end.

(** The first part of [threadpool_destroy]: the pool that the workers are to
    find, or nothing when it is shutting down already. *)
Definition threadpool_destroy_begin (p : threadpool_t) (flags : Z) : option threadpool_t :=
  if negb (shutdown p =? 0) then None
  else Some (set_shutdown p (if Z.land flags threadpool_graceful =? 0
                             then immediate_shutdown else graceful_shutdown)).

(** ** Creating and freeing *)

Inductive resource := RPool | RThreads | RQueue.

#[export] Instance resource_eq_dec : EqDecision resource.
Proof. solve_decision. Defined.

(** What [malloc] and the initialisations gave. *)
Record alloc := {
  got_pool : bool;
  got_threads : bool;
  got_queue : bool;
  got_lock : bool;
  got_notify : bool;
}.

Section Pool.
(** What [pthread_mutex_destroy] does with a mutex that its caller has locked. *)
Variable destroy_locked : outcome Z.

(** [threadpool_free]: whether it frees, and what stays allocated.  The result
    of [pthread_mutex_destroy] is not looked at. *)
Definition threadpool_free (started : Z) (a : alloc) : outcome (bool * list resource) :=
  let held := [RPool] ++ (if got_threads a then [RThreads] else []) ++
              (if got_queue a then [RQueue] else []) in
  if 0 <? started then Ret (false, held)
  else if got_threads a then
    if got_lock a && got_notify a
    then _ ← destroy_locked; Ret (true, [])
    else Undef Uninitialised
  else Ret (true, if got_queue a then [RQueue] else []).

Definition new_pool (n qsize : Z) : threadpool_t :=
  {| queue := replicate (Z.to_nat qsize) None; thread_count := n; queue_size := qsize;
     head := 0; tail := 0; count := 0; shutdown := 0; started := n |}.

Inductive creation :=
  | CreateNull (leaked : list resource)
  | CreateDestroys (p : threadpool_t)   (* [threadpool_destroy(pool, 0)], then NULL *)
  | Created (p : threadpool_t).

(** The number of threads that start before [pthread_create] fails. *)
Fixpoint create_threads (n : nat) (creates : nat -> bool) : nat :=
  match n with
  | O => O
  | S n => if creates O then S (create_threads n (fun i => creates (S i))) else O
  end.

Definition threadpool_create (tcount qsize : Z) (a : alloc) (creates : nat -> bool)
    : outcome creation :=
  if (tcount <=? 0) || (MAX_THREADS <? tcount) || (qsize <=? 0) || (MAX_QUEUE <? qsize)
  then Ret (CreateNull [])
  else if negb (got_pool a) then Ret (CreateNull [])
  else if negb (got_lock a) || negb (got_notify a) || negb (got_threads a) || negb (got_queue a)
  then r ← threadpool_free 0 a; Ret (CreateNull r.2)
  else
    let n := Z.of_nat (create_threads (Z.to_nat tcount) creates) in
    Ret (if n <? tcount then CreateDestroys (new_pool n qsize) else Created (new_pool n qsize)).

(** ** The threads *)

Inductive worker :=
  | WReady                           (* about to lock the mutex *)
  | WWaiting                         (* in [pthread_cond_wait] *)
  | WRunning (t : threadpool_task_t) (* runs a task, without the mutex *)
  | WExited.

(** A thread that has called [threadpool_destroy]. *)
Inductive destroyer :=
  | DCalled (flags : Z)
  | DJoining (i : Z)                 (* joins worker [i] *)
  | DReturned (err : Z).

(** [leaked]: a thread has left with the mutex locked.  [added] are the tasks
    that [threadpool_add] has accepted, [grabbed] and [finished] those that
    workers have taken and completed, oldest first. *)
Record system := {
  pool : threadpool_t;
  leaked : bool;
  freed : bool;
  workers : list worker;
  destroyers : list destroyer;
  added : list threadpool_task_t;
  grabbed : list threadpool_task_t;
  finished : list threadpool_task_t;
}.

Definition is_waiting (w : worker) : bool := match w with WWaiting => true | _ => false end.
Definition is_ready (w : worker) : bool := match w with WReady => true | _ => false end.
Definition is_exited (w : worker) : bool := match w with WExited => true | _ => false end.
Definition alive (w : worker) : bool := negb (is_exited w).

(** [pthread_cond_broadcast] *)
Definition wake (w : worker) : worker := match w with WWaiting => WReady | _ => w end.

(** [pthread_cond_signal] *)
Inductive signalled : bool -> list worker -> list worker -> Prop :=
| signalled_none ws : signalled false ws ws
| signalled_nobody ws : zcount is_waiting ws = 0 -> signalled true ws ws
| signalled_one ws i :
    ws !! i = Some WWaiting -> signalled true ws (<[i := WReady]> ws).

Definition set_worker (s : system) (p : threadpool_t) (i : nat) (w : worker)
    (g : list threadpool_task_t) : system :=
  {| pool := p; leaked := leaked s; freed := freed s; workers := <[i := w]> (workers s);
     destroyers := destroyers s; added := added s; grabbed := grabbed s ++ g;
     finished := finished s |}.

Definition set_destroyer (s : system) (i : nat) (d : destroyer) : system :=
  {| pool := pool s; leaked := leaked s; freed := freed s; workers := workers s;
     destroyers := <[i := d]> (destroyers s); added := added s; grabbed := grabbed s;
     finished := finished s |}.

(** A worker's pass through its critical section. *)
Definition worker_pass (s : system) (i : nat) : outcome system :=
  if freed s then Undef BadPointer
  else
    r ← threadpool_thread (pool s);
    Ret match r with
        | MustWait => set_worker s (pool s) i WWaiting []
        | MustExit p => set_worker s p i WExited []
        | Grabbed p t => set_worker s p i (WRunning t) [t]
        end.

(** The critical section of [threadpool_destroy]; when the pool is shutting
    down already it leaves the loop without unlocking. *)
Definition destroyer_pass (s : system) (i : nat) (flags : Z) : outcome system :=
  if freed s then Undef BadPointer
  else Ret match threadpool_destroy_begin (pool s) flags with
  | None =>
      {| pool := pool s; leaked := true; freed := freed s; workers := workers s;
         destroyers := <[i := DReturned threadpool_shutdown]> (destroyers s);
         added := added s; grabbed := grabbed s; finished := finished s |}
  | Some p =>
      {| pool := p; leaked := leaked s; freed := freed s; workers := wake <$> workers s;
         destroyers := <[i := DJoining 0]> (destroyers s); added := added s;
         grabbed := grabbed s; finished := finished s |}
  end.

Definition all_allocated : alloc :=
  {| got_pool := true; got_threads := true; got_queue := true; got_lock := true;
     got_notify := true |}.

(** After the last join: [threadpool_free], which locks the mutex, and the
    return. *)
Definition destroyer_free (s : system) (i : nat) : outcome system :=
  r ← threadpool_free (started (pool s)) all_allocated;
  Ret {| pool := pool s; leaked := leaked s; freed := r.1; workers := workers s;
         destroyers := <[i := DReturned 0]> (destroyers s); added := added s;
         grabbed := grabbed s; finished := finished s |}.

Inductive step : system -> system -> Prop :=
| step_worker s i s' :
    workers s !! i = Some WReady -> leaked s = false ->
    worker_pass s i = Ret s' -> step s s'
| step_finish s i t :
    workers s !! i = Some (WRunning t) ->
    step s {| pool := pool s; leaked := leaked s; freed := freed s;
              workers := <[i := WReady]> (workers s); destroyers := destroyers s;
              added := added s; grabbed := grabbed s; finished := finished s ++ [t] |}
| step_spurious s i :
    workers s !! i = Some WWaiting ->
    step s (set_worker s (pool s) i WReady [])
| step_add s t p err sig ws :
    freed s = false -> leaked s = false ->
    threadpool_add (pool s) t = Ret (p, err, sig) -> signalled sig (workers s) ws ->
    step s {| pool := p; leaked := leaked s; freed := freed s; workers := ws;
              destroyers := destroyers s;
              added := if err =? 0 then added s ++ [t] else added s;
              grabbed := grabbed s; finished := finished s |}
| step_destroy s i flags s' :
    leaked s = false -> destroyers s !! i = Some (DCalled flags) ->
    destroyer_pass s i flags = Ret s' -> step s s'
| step_join s i j :
    freed s = false -> destroyers s !! i = Some (DJoining j) -> j < thread_count (pool s) ->
    workers s !! Z.to_nat j = Some WExited ->
    step s (set_destroyer s i (DJoining (j + 1)))
| step_free s i j s' :
    freed s = false -> destroyers s !! i = Some (DJoining j) -> thread_count (pool s) <= j ->
    leaked s = false -> destroyer_free s i = Ret s' -> step s s'.

(** A pool as [threadpool_create] returns it, and threads that will destroy it. *)
Definition initial (p : threadpool_t) (flags : list Z) : system :=
  {| pool := p; leaked := false; freed := false;
     workers := replicate (Z.to_nat (thread_count p)) WReady; destroyers := DCalled <$> flags;
     added := []; grabbed := []; finished := [] |}.

Definition reachable (s : system) : Prop :=
  exists tcount qsize a creates p flags,
    threadpool_create tcount qsize a creates = Ret (Created p) /\ rtc step (initial p flags) s.

(** ** The ring of tasks *)

Record pool_ok (p : threadpool_t) (items : list threadpool_task_t) : Prop := {
  po_size : 1 <= queue_size p <= MAX_QUEUE;
  po_queue : zlen (queue p) = queue_size p;
  po_head : 0 <= head p < queue_size p;
  po_count : count p = zlen items /\ count p <= queue_size p;
  po_tail : tail p = (head p + count p) mod queue_size p;
  po_items : ring_slice (queue p) (queue_size p) (head p) (length items) = Some <$> items;
}.

Lemma pool_ok_tail p items : pool_ok p items -> 0 <= tail p < queue_size p.
Proof. intros [Hs _ _ _ Ht _]. rewrite Ht. apply Z.mod_pos_bound. lia. Qed.

Lemma new_pool_ok n qsize : 1 <= qsize <= MAX_QUEUE -> pool_ok (new_pool n qsize) [].
Proof.
  intros H. split; simpl; try done; try lia; [len|]. split; [done|lia].
Qed.

Lemma next_cell p i :
  1 <= queue_size p <= MAX_QUEUE -> 0 <= i < queue_size p ->
  int_op (i + 1) = Ret (i + 1) /\ int_rem (i + 1) (queue_size p) = Ret ((i + 1) mod queue_size p).
Proof.
  unfold MAX_QUEUE. intros Hs Hi. split; [|by apply int_rem_ring; lia].
  apply int_op_in. unfold int_min, int_max. lia.
Qed.

Lemma ring_offset_inj size o k m :
  0 <= k < m /\ m < size -> (o + k) mod size <> (o + m) mod size.
Proof.
  intros [Hk Hm] E. assert ((o + m - (o + k)) mod size = 0) as H0.
  { by rewrite Zminus_mod, E, Z.sub_diag. }
  replace (o + m - (o + k)) with (m - k) in H0 by lia. rewrite Z.mod_small in H0; lia.
Qed.

(** What [threadpool_add] answers. *)
Definition add_result (p : threadpool_t) (items : list threadpool_task_t) (t : threadpool_task_t) : Z :=
  if function t =? 0 then threadpool_invalid
  else if zlen items =? queue_size p then threadpool_queue_full
  else if negb (shutdown p =? 0) then threadpool_shutdown
  else 0.

(** Two pools that differ in their tasks only. *)
Definition same_threads (p p' : threadpool_t) : Prop :=
  thread_count p' = thread_count p /\ queue_size p' = queue_size p /\
  shutdown p' = shutdown p /\ started p' = started p.

Lemma add_spec p items t :
  pool_ok p items ->
  returns (threadpool_add p t) (fun x =>
    x.1.2 = add_result p items t /\ x.2 = (add_result p items t =? 0) /\
    same_threads p x.1.1 /\
    if add_result p items t =? 0 then pool_ok x.1.1 (items ++ [t]) else x.1.1 = p).
Proof.
  intros Hp. pose proof (pool_ok_tail _ _ Hp) as Ht. destruct Hp as [Hs Hq Hh [Hc Hle] Htl Hi].
  unfold threadpool_add, add_result. destruct (function t =? 0); [by apply returns_ret|].
  destruct (next_cell p (tail p) Hs Ht) as [E1 E2]. rewrite E1. bind_ret. rewrite E2. bind_ret.
  rewrite Hc.
  destruct (Z.eqb_spec (zlen items) (queue_size p)) as [E|E]; [by apply returns_ret|].
  destruct (negb (shutdown p =? 0)); [by apply returns_ret|].
  rewrite vset_in_range by lia. bind_ret. pose proof (zlen_nonneg items). unfold MAX_QUEUE in *.
  rewrite int_op_in by (unfold int_min, int_max; lia). apply returns_ret. simpl.
  split; [done|]. split; [done|]. split; [done|]. rewrite Hc in Htl, Hle.
  split; simpl; try done; [by rewrite zlen_insert|len|..].
  - rewrite Htl, Zplus_mod_idemp_l. f_equal. lia.
  - rewrite length_app, Nat.add_1_r, ring_slice_snoc, fmap_app by lia. fold (zlen items).
    rewrite <- Htl, list_lookup_insert_eq by len. simpl. f_equal.
    rewrite ring_slice_insert; [done|lia|lia|]. intros k Hk. rewrite Htl.
    apply ring_offset_inj. len.
Qed.

(** What a worker does in its critical section. *)
Definition leaves (p : threadpool_t) (items : list threadpool_task_t) : bool :=
  (shutdown p =? immediate_shutdown) || (shutdown p =? graceful_shutdown) && (zlen items =? 0).

Lemma thread_spec p items :
  pool_ok p items -> 0 <= started p <= MAX_THREADS -> 0 <= shutdown p <= 2 ->
  returns (threadpool_thread p) (fun r =>
    match r with
    | MustWait => shutdown p = 0 /\ items = []
    | MustExit p' => shutdown p <> 0 /\ leaves p items = true /\
                     p' = set_started p (started p - 1)
    | Grabbed p' t => leaves p items = false /\ same_threads p p' /\
                      exists rest, items = t :: rest /\ pool_ok p' rest
    end).
Proof.
  intros [Hs Hq Hh [Hc Hle] Htl Hi] Hst Hsd. unfold threadpool_thread. rewrite Hc. fold (leaves p items).
  destruct ((zlen items =? 0) && (shutdown p =? 0)) eqn:E.
  { apply andb_true_iff in E as [E0%Z.eqb_eq E1%Z.eqb_eq]. apply returns_ret. split; [done|].
    destruct items; [done|]. unfold zlen in E0. simpl in E0. lia. }
  destruct (leaves p items) eqn:El.
  { unfold MAX_THREADS in *. rewrite int_op_in by (unfold int_min, int_max; lia).
    apply returns_ret. split; [|done]. intros E0. unfold leaves in El. rewrite E0 in El. done. }
  destruct items as [|t rest].
  { exfalso. assert (shutdown p = 0 \/ shutdown p = 1 \/ shutdown p = 2) as Hcase by lia.
    unfold leaves in El. destruct Hcase as [Ec|[Ec|Ec]]; rewrite Ec in E, El; done. }
  simpl in Hi. injection Hi as Hcell Hrest.
  destruct (queue p !! Z.to_nat (head p)) as [cell|] eqn:Hget; [|done]. simpl in Hcell. subst cell.
  rewrite (proj2 (vget_Ret _ _ _)) by (split; [lia|exact Hget]). bind_ret.
  destruct (next_cell p (head p) Hs Hh) as [E1 E2]. rewrite E1. bind_ret. rewrite E2. bind_ret.
  assert (zlen (t :: rest) = zlen rest + 1) as Hz by len. rewrite Hz in *.
  pose proof (zlen_nonneg rest). unfold MAX_QUEUE in *.
  rewrite int_op_in by (unfold int_min, int_max; lia). apply returns_ret.
  split; [done|]. split; [done|]. exists rest. split; [done|].
  split; simpl; try done; try lia.
  - apply Z.mod_pos_bound. lia.
  - rewrite Htl, Zplus_mod_idemp_l. f_equal. lia.
Qed.

(** ** The invariant of the threads *)

Definition running (w : worker) : option threadpool_task_t :=
  match w with WRunning t => Some t | _ => None end.

(** A thread that joins has seen the workers before [j] exit; one that has
    returned zero has freed the pool. *)
Definition destroyer_ok (s : system) (d : destroyer) : Prop :=
  match d with
  | DCalled _ => True
  | DJoining j => shutdown (pool s) <> 0 /\ 0 <= j <= thread_count (pool s) /\
                  forall i, (i < Z.to_nat j)%nat -> workers s !! i = Some WExited
  | DReturned err => err = threadpool_shutdown \/ err = 0 /\ freed s = true
  end.

Definition is_joining (d : destroyer) : bool :=
  match d with DJoining _ => true | _ => false end.

(** The thread that shuts the pool down. *)
Definition in_charge (d : destroyer) : bool :=
  match d with DJoining _ => true | DReturned err => err =? 0 | DCalled _ => false end.

Record inv (items : list threadpool_task_t) (s : system) : Prop := {
  iv_pool : pool_ok (pool s) items;
  iv_threads : 1 <= thread_count (pool s) <= MAX_THREADS;
  iv_workers : thread_count (pool s) = zlen (workers s);
  iv_started : started (pool s) = zcount alive (workers s);
  iv_shutdown : 0 <= shutdown (pool s) <= 2;
  iv_added : added s = grabbed s ++ items;
  iv_done : grabbed s ≡ₚ finished s ++ omap running (workers s);
  iv_up : shutdown (pool s) = 0 -> zcount is_exited (workers s) = 0;
  iv_down : shutdown (pool s) <> 0 -> zcount is_waiting (workers s) = 0;
  iv_awake : 0 < zcount is_waiting (workers s) -> zlen items <= zcount is_ready (workers s);
  iv_exited : 0 < zcount is_exited (workers s) -> leaves (pool s) items = true;
  iv_destroyers : Forall (destroyer_ok s) (destroyers s);
  iv_freed : freed s = true -> Forall (fun w => w = WExited) (workers s);
  iv_charge : zcount in_charge (destroyers s) = (if shutdown (pool s) =? 0 then 0 else 1);
  iv_joined : freed s = true -> zcount is_joining (destroyers s) = 0;
}.

Lemma zcount_replicate {A} (p : A -> bool) n x :
  zcount p (replicate n x) = if p x then Z.of_nat n else 0.
Proof. induction n as [|n IH]; cbn [replicate zcount]; [by destruct (p x)|]. rewrite IH. destruct (p x); simpl; lia. Qed.

Lemma create_threads_le n creates : (create_threads n creates <= n)%nat.
Proof.
  revert creates. induction n as [|n IH]; intros creates; simpl; [lia|].
  destruct (creates O); [|lia]. specialize (IH (fun i => creates (S i))). lia.
Qed.

Lemma create_spec tcount qsize a creates p :
  threadpool_create tcount qsize a creates = Ret (Created p) ->
  p = new_pool tcount qsize /\ 1 <= tcount <= MAX_THREADS /\ 1 <= qsize <= MAX_QUEUE.
Proof.
  unfold threadpool_create. destruct (_ || _ || _ || _) eqn:E; [done|].
  destruct (negb (got_pool a)); [done|].
  destruct (negb (got_lock a) || _ || _ || _); [intros H; by apply bind_Ret in H as (r & _ & H)|].
  intros [= H]. rewrite !orb_false_iff, !Z.leb_gt, !Z.ltb_ge in E.
  pose proof (create_threads_le (Z.to_nat tcount) creates).
  destruct (Z.ltb_spec (Z.of_nat (create_threads (Z.to_nat tcount) creates)) tcount); [done|].
  injection H as <-. split; [f_equal; lia|lia].
Qed.

Lemma initial_inv n qsize flags :
  1 <= n <= MAX_THREADS -> 1 <= qsize <= MAX_QUEUE -> inv [] (initial (new_pool n qsize) flags).
Proof.
  intros Hn Hq. split; simpl; rewrite ?zcount_replicate; simpl; try done; try lia.
  - by apply new_pool_ok.
  - len.
  - assert (omap running (replicate (Z.to_nat n) WReady) = []) as ->; [|done].
    induction (Z.to_nat n); [done|]. by csimpl.
  - by apply Forall_fmap, Forall_true.
  - rewrite zcount_fmap. by apply zcount_none.
Qed.

(** ** Every step keeps the invariant *)

Lemma running_insert ws i w w' :
  ws !! i = Some w -> exists l1 l2,
    omap running ws = l1 ++ option_list (running w) ++ l2 /\
    omap running (<[i := w']> ws) = l1 ++ option_list (running w') ++ l2.
Proof.
  intros Hi. pose proof (lookup_lt_Some _ _ _ Hi) as Hlt.
  exists (omap running (take i ws)), (omap running (drop (S i) ws)).
  assert (forall x, omap running (x :: drop (S i) ws) =
    option_list (running x) ++ omap running (drop (S i) ws)) as Hx
    by (intros x; csimpl; by destruct (running x)).
  split.
  - rewrite <- (take_drop_middle ws i w Hi) at 1. by rewrite omap_app, Hx.
  - by rewrite insert_take_drop, omap_app, Hx by done.
Qed.

(** A worker that is alive goes on; it takes the tasks [g]. *)
Lemma set_worker_inv items items' s i w w' p g :
  inv items s -> workers s !! i = Some w -> alive w = true ->
  pool_ok p items' -> thread_count p = thread_count (pool s) ->
  shutdown p = shutdown (pool s) ->
  started p = started (pool s) - 1 + Z.b2z (alive w') ->
  items = g ++ items' -> g ++ option_list (running w) ≡ₚ option_list (running w') ->
  (shutdown p = 0 -> is_exited w' = false) -> (shutdown p <> 0 -> is_waiting w' = false) ->
  (0 < zcount is_waiting (<[i := w']> (workers s)) ->
   zlen items' <= zcount is_ready (<[i := w']> (workers s))) ->
  (0 < zcount is_exited (<[i := w']> (workers s)) -> leaves p items' = true) ->
  inv items' (set_worker s p i w' g).
Proof.
  intros [Hp Ht Hw Hst Hsd Ha Hdn Hup Hdw Haw Hex Hd Hf Hch Hjd] Hi Hal Hp' Htc Hs' Hst' -> Hg H0 H1 H2 H3.
  assert (is_exited w = false) as Hne by (by destruct w).
  split; simpl; rewrite ?Htc, ?Hs' in *; try done.
  - by rewrite zlen_insert.
  - rewrite Hst', Hst, (zcount_insert _ _ _ _ _ Hi), Hal. simpl. lia.
  - by rewrite <- app_assoc.
  - destruct (running_insert _ _ _ w' Hi) as (l1 & l2 & E1 & E2). rewrite E2, Hdn, E1, <- Hg.
    rewrite <- !app_assoc. f_equiv. f_equiv.
    rewrite !app_assoc. rewrite (Permutation_app_comm _ g). by rewrite <- !app_assoc.
  - intros E. rewrite (zcount_insert _ _ _ _ _ Hi), Hne, H0, Hup by done. done.
  - intros E. rewrite (zcount_insert _ _ _ _ _ Hi), H1 by done.
    pose proof (zcount_nonneg is_waiting (<[i := w']> (workers s))) as Hn.
    rewrite (zcount_insert _ _ _ _ _ Hi), H1, (Hdw E) in Hn by done. rewrite (Hdw E).
    destruct (is_waiting w); simpl in *; lia.
  - eapply Forall_impl; [exact Hd|]. intros [fl|j|err]; simpl; rewrite ?Htc, ?Hs'; try done.
    intros (E & Hj & Hall). split; [done|]. split; [done|]. intros k Hk.
    destruct (decide (k = i)) as [->|Hki].
    + specialize (Hall i Hk). rewrite Hi in Hall. injection Hall as ->. done.
    + rewrite list_lookup_insert_ne by done. by apply Hall.
  - intros E. exfalso. pose proof (Forall_lookup_1 _ _ _ _ (Hf E) Hi) as ->. done.
Qed.

Definition good (s : system) : Prop := exists items, inv items s.

Lemma alive_not_freed items s i w :
  inv items s -> workers s !! i = Some w -> alive w = true -> freed s = false.
Proof.
  intros Hs Hi Ha. destruct (freed s) eqn:E; [|done].
  pose proof (Forall_lookup_1 _ _ _ _ (iv_freed _ _ Hs E) Hi) as ->. done.
Qed.

Lemma started_bounds items s : inv items s -> 0 <= started (pool s) <= MAX_THREADS.
Proof.
  intros Hs. pose proof (iv_threads _ _ Hs) as Ht. rewrite (iv_workers _ _ Hs) in Ht.
  rewrite (iv_started _ _ Hs). split; [apply zcount_nonneg|]. etrans; [|apply Ht]. clear.
  induction (workers s) as [|w l IH]; [done|]. unfold zlen in *. cbn [zcount length].
  destruct (alive w); simpl; lia.
Qed.

Lemma zcount_others {A} (p : A -> bool) l i a b :
  l !! i = Some a -> p a = false -> p b = false -> zcount p (<[i := b]> l) = zcount p l.
Proof. intros Hi Ha Hb. rewrite (zcount_insert _ _ _ _ _ Hi), Ha, Hb. simpl. lia. Qed.

(** What is left to do of the tasks [items] when the pool is shutting down. *)
Definition work_left (w : worker) : nat :=
  match w with WRunning _ => 2 | WReady => 1 | _ => 0 end.

Definition work (items : list threadpool_task_t) (ws : list worker) : nat :=
  2 * length items + sum_list_with work_left ws.

Lemma work_insert ws i w w' :
  ws !! i = Some w ->
  (sum_list_with work_left (<[i := w']> ws) + work_left w =
   sum_list_with work_left ws + work_left w')%nat.
Proof.
  revert i. induction ws as [|x ws IH]; intros [|i] H; simplify_eq/=; [lia|].
  specialize (IH i H). lia.
Qed.

(** A pass of a worker, as far as a shutdown is concerned. *)
Definition passed (items : list threadpool_task_t) (s : system)
    (items' : list threadpool_task_t) (s' : system) : Prop :=
  destroyers s' = destroyers s /\ leaked s' = leaked s /\
  thread_count (pool s') = thread_count (pool s) /\ shutdown (pool s') = shutdown (pool s) /\
  (shutdown (pool s) <> 0 -> (work items' (workers s') < work items (workers s))%nat) /\
  (shutdown (pool s) = immediate_shutdown -> grabbed s' = grabbed s).

Lemma worker_pass_keeps items s i :
  inv items s -> workers s !! i = Some WReady ->
  returns (worker_pass s i) (fun s' => exists items', inv items' s' /\ passed items s items' s').
Proof.
  intros Hs Hi. unfold worker_pass. rewrite (alive_not_freed _ _ _ _ Hs Hi) by done.
  destruct (thread_spec _ _ (iv_pool _ _ Hs) (started_bounds _ _ Hs) (iv_shutdown _ _ Hs))
    as (r & -> & Hr). apply returns_ret. unfold passed, work.
  destruct r as [|p|p t].
  - destruct Hr as [Hsd ->]. exists []. split; [|by rewrite Hsd; repeat split].
    eapply (set_worker_inv [] []); try done; try apply Hs; simpl; try lia; try done.
    + intros _. apply zcount_nonneg.
    + rewrite (zcount_others is_exited _ _ _ _ Hi), (iv_up _ _ Hs Hsd) by done. lia.
  - destruct Hr as (Hsd & Hl & ->). exists items. split.
    + eapply (set_worker_inv items items); try done; try apply Hs; simpl; try lia; try done.
      * by destruct (iv_pool _ _ Hs).
      * rewrite (zcount_others is_waiting _ _ _ _ Hi), (iv_down _ _ Hs Hsd) by done. lia.
    + pose proof (work_insert _ _ _ WExited Hi) as Hwk. simpl in *.
      repeat (split; [done|]). split; [lia|]. by rewrite app_nil_r.
  - destruct Hr as (Hl & (Ht & _ & Hs' & Hst) & rest & -> & Hp). exists rest.
    assert (zcount is_exited (workers s) = 0) as Hex.
    { pose proof (zcount_nonneg is_exited (workers s)).
      destruct (decide (0 < zcount is_exited (workers s))) as [Hlt|]; [|lia].
      rewrite (iv_exited _ _ Hs Hlt) in Hl. done. }
    split.
    + eapply (set_worker_inv (t :: rest) rest); try done; simpl; try lia.
      * rewrite (zcount_others is_waiting _ _ _ _ Hi) by done. intros Hw.
        pose proof (iv_awake _ _ Hs Hw). rewrite (zcount_insert _ _ _ _ _ Hi). simpl. len.
      * rewrite (zcount_others is_exited _ _ _ _ Hi), Hex by done. lia.
    + pose proof (work_insert _ _ _ (WRunning t) Hi) as Hwk. simpl in *.
      repeat (split; [done|]). split; [lia|]. intros E. unfold leaves in Hl. rewrite E in Hl. done.
Qed.

Lemma finish_keeps items s i t :
  inv items s -> workers s !! i = Some (WRunning t) ->
  inv items {| pool := pool s; leaked := leaked s; freed := freed s;
               workers := <[i := WReady]> (workers s); destroyers := destroyers s;
               added := added s; grabbed := grabbed s; finished := finished s ++ [t] |}.
Proof.
  intros Hs Hi. pose proof (alive_not_freed _ _ _ _ Hs Hi eq_refl) as Hfr.
  destruct Hs as [Hp Ht Hw Hst Hsd Ha Hdn Hup Hdw Haw Hex Hd Hf Hch Hjd].
  split; simpl; try done.
  - by rewrite zlen_insert.
  - by rewrite (zcount_insert _ _ _ _ _ Hi), Hst; simpl; lia.
  - destruct (running_insert _ _ _ WReady Hi) as (l1 & l2 & E1 & E2). rewrite E2, Hdn, E1.
    simpl. rewrite <- app_assoc. f_equiv. symmetry. exact (Permutation_middle l1 l2 t).
  - intros E. by rewrite (zcount_others is_exited _ _ _ _ Hi); [apply Hup|..].
  - intros E. by rewrite (zcount_others is_waiting _ _ _ _ Hi); [apply Hdw|..].
  - rewrite (zcount_others is_waiting _ _ _ _ Hi) by done. intros Hpos.
    rewrite (zcount_insert _ _ _ _ _ Hi). specialize (Haw Hpos). simpl. lia.
  - by rewrite (zcount_others is_exited _ _ _ _ Hi).
  - eapply Forall_impl; [exact Hd|]. intros [fl|j|err]; simpl; try done.
    intros (E & Hj & Hall). split; [done|]. split; [done|]. intros k Hk.
    destruct (decide (k = i)) as [->|Hki].
    + specialize (Hall i Hk). by rewrite Hi in Hall.
    + rewrite list_lookup_insert_ne by done. by apply Hall.
  - by rewrite Hfr.
Qed.

Lemma spurious_keeps items s i :
  inv items s -> workers s !! i = Some WWaiting -> inv items (set_worker s (pool s) i WReady []).
Proof.
  intros Hs Hi.
  eapply (set_worker_inv items items); try done; try apply Hs; simpl; try lia; try done.
  - rewrite !(zcount_insert _ _ _ _ _ Hi). simpl. intros Hpos.
    pose proof (iv_awake _ _ Hs ltac:(lia)). lia.
  - rewrite (zcount_others is_exited _ _ _ _ Hi) by done. apply Hs.
Qed.

(** A signal wakes a worker when one waits. *)
Lemma signalled_spec sig ws ws' :
  signalled sig ws ws' ->
  length ws' = length ws /\ omap running ws' = omap running ws /\
  zcount alive ws' = zcount alive ws /\ zcount is_exited ws' = zcount is_exited ws /\
  zcount is_waiting ws' <= zcount is_waiting ws /\
  (0 < zcount is_waiting ws' ->
   zcount is_ready ws + Z.b2z sig <= zcount is_ready ws') /\
  forall i, ws !! i = Some WExited -> ws' !! i = Some WExited.
Proof.
  intros [ws1|ws1 H0|ws1 i Hi]; simpl.
  - repeat (split; [done || lia|]). done.
  - repeat (split; [done || lia|]). done.
  - destruct (running_insert _ _ _ WReady Hi) as (l1 & l2 & E1 & E2).
    rewrite length_insert, !(zcount_insert _ _ _ _ _ Hi), E2, E1. simpl.
    repeat (split; [done || lia|]). intros k Hk.
    destruct (decide (k = i)) as [->|]; [by rewrite Hi in Hk|by rewrite list_lookup_insert_ne].
Qed.

(** The conditions on the threads that destroy, when the workers that have
    exited stay and the pool is not restarted. *)
Lemma destroyer_ok_mono s s' d :
  thread_count (pool s') = thread_count (pool s) ->
  (shutdown (pool s) <> 0 -> shutdown (pool s') <> 0) -> freed s' = freed s ->
  (forall i, workers s !! i = Some WExited -> workers s' !! i = Some WExited) ->
  destroyer_ok s d -> destroyer_ok s' d.
Proof.
  intros Ht Hs Hf Hw. destruct d as [fl|j|err]; simpl; rewrite ?Ht, ?Hf; try done.
  intros (H1 & H2 & H3). split; [auto|]. split; [done|]. intros i Hi. apply Hw, H3, Hi.
Qed.

Lemma add_keeps items s t p err sig ws :
  inv items s -> freed s = false -> threadpool_add (pool s) t = Ret (p, err, sig) ->
  signalled sig (workers s) ws ->
  good {| pool := p; leaked := leaked s; freed := freed s; workers := ws;
          destroyers := destroyers s; added := if err =? 0 then added s ++ [t] else added s;
          grabbed := grabbed s; finished := finished s |}.
Proof.
  intros Hs Hfr Hadd Hsig.
  destruct (add_spec _ _ t (iv_pool _ _ Hs)) as (x & Hx & Herr & Hsg & Hst & Hp).
  rewrite Hadd in Hx. injection Hx as <-. simpl in Herr, Hsg, Hst, Hp.
  destruct (signalled_spec _ _ _ Hsig) as (Hlen & Hrun & Hal & Hex & Hwt & Hrd & Hkeep).
  destruct Hst as (Htc & _ & Hsd & Hstd).
  exists (if err =? 0 then items ++ [t] else items).
  destruct Hs as [Hp0 Ht0 Hw0 Hst0 Hsd0 Ha0 Hdn0 Hup0 Hdw0 Haw0 Hex0 Hd0 Hf0 Hch0 Hjd0].
  rewrite Hsg, <- Herr in *.
  split; simpl; rewrite ?Htc, ?Hsd, ?Hstd, ?Hal, ?Hrun, ?Hex; try done.
  - destruct (err =? 0); [done|by subst p].
  - rewrite Hw0. len.
  - rewrite Ha0. destruct (err =? 0); [by rewrite app_assoc|done].
  - intros E. specialize (Hdw0 E). pose proof (zcount_nonneg is_waiting ws). lia.
  - intros Hpos. specialize (Haw0 ltac:(lia)). specialize (Hrd Hpos).
    destruct (err =? 0); simpl in Hrd; [len|lia].
  - intros Hpos. specialize (Hex0 Hpos). destruct (Z.eqb_spec err 0) as [E0|E0]; [|by subst p].
    exfalso. assert (shutdown (pool s) = 0) as Es; [|by rewrite Hup0 in Hpos].
    subst err. unfold add_result in E0. destruct (function t =? 0); [done|].
    destruct (zlen items =? queue_size (pool s)); [done|]. by destruct (Z.eqb_spec (shutdown (pool s)) 0).
  - eapply Forall_impl; [exact Hd0|]. intros d. apply destroyer_ok_mono; simpl; auto.
    by rewrite Hsd.
  - rewrite Hfr. done.
Qed.

Lemma wake_lookup (ws : list worker) (i : nat) : ws !! i = Some WExited -> (wake <$> ws) !! i = Some WExited.
Proof. intros H. by rewrite list_lookup_fmap, H. Qed.

Lemma destroy_keeps items s i flags s' :
  inv items s -> destroyers s !! i = Some (DCalled flags) -> destroyer_pass s i flags = Ret s' ->
  inv items s'.
Proof.
  intros [Hp Ht Hw Hst Hsd Ha Hdn Hup Hdw Haw Hex Hd Hf Hch Hjd] Hi.
  unfold destroyer_pass, threadpool_destroy_begin. destruct (freed s) eqn:Hfr; [done|]. intros [= <-].
  destruct (Z.eqb_spec (shutdown (pool s)) 0) as [E|E]; simpl.
  - assert (omap running (wake <$> workers s) = omap running (workers s)) as Hrun.
    { clear. induction (workers s) as [|w l IH]; [done|]. csimpl. rewrite IH. by destruct w. }
    assert (forall q, (forall w, q (wake w) = q w) ->
      zcount q (wake <$> workers s) = zcount q (workers s)) as Hq.
    { intros q Hq. rewrite zcount_fmap. clear -Hq. induction (workers s) as [|w l IH]; [done|].
      simpl. by rewrite Hq, IH. }
    set (v := if Z.land flags threadpool_graceful =? 0 then immediate_shutdown else graceful_shutdown).
    assert (1 <= v <= 2) as Hv by (unfold v; destruct (_ =? 0); done).
    assert (zcount is_waiting (wake <$> workers s) = 0) as Hw0.
    { rewrite zcount_fmap. apply zcount_none. by intros []. }
    pose proof (Hq alive ltac:(by intros [])) as Hal.
    pose proof (Hq is_exited ltac:(by intros [])) as Hxt.
    split; simpl; rewrite ?Hrun, ?Hw0, ?Hal, ?Hxt; try done; try lia.
    + by destruct Hp.
    + rewrite Hw. len.
    + apply Forall_insert.
      * eapply Forall_impl; [exact Hd|]. intros d. apply destroyer_ok_mono; simpl; auto.
        apply wake_lookup.
      * simpl. split; [lia|]. split; [lia|]. intros k Hk. lia.
    + rewrite (zcount_insert _ _ _ _ _ Hi), Hch. simpl. by rewrite (proj2 (Z.eqb_neq v 0)) by lia.
  - split; simpl; try done.
    + apply Forall_insert; [|by left].
      eapply Forall_impl; [exact Hd|]. intros d. apply destroyer_ok_mono; simpl; auto.
    + by rewrite (zcount_others in_charge _ _ _ _ Hi), Hch, (proj2 (Z.eqb_neq _ _) E).
Qed.

Lemma join_keeps items s i j :
  inv items s -> destroyers s !! i = Some (DJoining j) -> j < thread_count (pool s) ->
  workers s !! Z.to_nat j = Some WExited -> inv items (set_destroyer s i (DJoining (j + 1))).
Proof.
  intros [Hp Ht Hw Hst Hsd Ha Hdn Hup Hdw Haw Hex Hd Hf Hch Hjd] Hi Hj Hwj.
  pose proof (Forall_lookup_1 _ _ _ _ Hd Hi) as (H1 & H2 & H3).
  split; simpl; try done.
  - apply Forall_insert.
    + eapply Forall_impl; [exact Hd|]. intros d. by apply destroyer_ok_mono.
    + simpl. split; [done|]. split; [lia|]. intros k Hk.
      destruct (decide (k = Z.to_nat j)) as [->|]; [done|]. apply H3. lia.
  - rewrite (zcount_insert _ _ _ _ _ Hi), Hch. simpl. lia.
  - rewrite (zcount_insert _ _ _ _ _ Hi). simpl. intros E. rewrite (Hjd E). done.
Qed.

(** When all workers have been joined they have exited. *)
Lemma joined_all items s i j :
  inv items s -> destroyers s !! i = Some (DJoining j) -> thread_count (pool s) <= j ->
  Forall (fun w => w = WExited) (workers s) /\ started (pool s) = 0 /\ shutdown (pool s) <> 0.
Proof.
  intros Hs Hi Hj. pose proof (Forall_lookup_1 _ _ _ _ (iv_destroyers _ _ Hs) Hi) as (H1 & H2 & H3).
  assert (Forall (fun w => w = WExited) (workers s)) as Hall.
  { apply Forall_lookup. intros k w Hk. pose proof (lookup_lt_Some _ _ _ Hk).
    pose proof (iv_workers _ _ Hs). rewrite H3 in Hk by len. by injection Hk as <-. }
  split; [done|]. split; [|done]. rewrite (iv_started _ _ Hs). clear -Hall.
  induction Hall as [|w l -> _ IH]; [done|]. simpl. by rewrite IH.
Qed.

Lemma joining_in_charge d : is_joining d = true -> in_charge d = true.
Proof. by destruct d. Qed.

Lemma free_keeps items s i j s' :
  inv items s -> destroyers s !! i = Some (DJoining j) -> thread_count (pool s) <= j ->
  destroyer_free s i = Ret s' -> inv items s'.
Proof.
  intros Hs Hi Hj. destruct (joined_all _ _ _ _ Hs Hi Hj) as (Hall & Hz & Hdn).
  unfold destroyer_free, threadpool_free. rewrite Hz. simpl.
  intros H. apply bind_Ret in H as (r & Hd' & [= <-]). apply bind_Ret in Hd' as (e & _ & [= <-]).
  destruct Hs as [Hp Ht Hw Hst Hsd Ha Hdo Hup Hdw Haw Hex Hd Hf Hch Hjd]. split; simpl; try done.
  - apply Forall_insert; [|simpl; auto].
    eapply Forall_impl; [exact Hd|]. intros [fl|k|err]; simpl; try done. intros [->|[-> _]]; auto.
  - rewrite (zcount_insert _ _ _ _ _ Hi), Hch. simpl. lia.
  - intros _. rewrite (zcount_insert _ _ _ _ _ Hi). simpl.
    pose proof (zcount_mono is_joining in_charge (destroyers s) joining_in_charge) as Hm.
    pose proof (zcount_lookup is_joining _ _ _ Hi eq_refl). rewrite Hch in Hm.
    rewrite (proj2 (Z.eqb_neq _ _) Hdn) in Hm. lia.
Qed.

Lemma step_good s s' : good s -> step s s' -> good s'.
Proof.
  intros [items Hs] Hst. destruct Hst as [s i s' Hi _ H|s i t Hi|s i Hi|s t p err sig ws Hf _ Ha Hsg
    |s i flags s' _ Hi H|s i j _ Hi Hj Hw|s i j s' _ Hi Hj _ H].
  - destruct (worker_pass_keeps _ _ _ Hs Hi) as (x & Hx & items' & Hg & _). rewrite H in Hx.
    injection Hx as ->. by exists items'.
  - exists items. by apply finish_keeps.
  - exists items. by apply spurious_keeps.
  - by eapply add_keeps.
  - exists items. by eapply destroy_keeps.
  - exists items. by apply join_keeps.
  - exists items. by eapply free_keeps.
Qed.

Lemma pool_reachable_good s : reachable s -> good s.
Proof.
  intros (tc & qs & a & cr & p & flags & Hc & Hr). apply create_spec in Hc as (-> & H1 & H2).
  eapply rtc_preserves; [exact step_good| |exact Hr]. exists []. by apply initial_inv.
Qed.

(** ** What the pool promises *)

(** C5: tasks are taken in the order in which they were accepted, none is lost
    or taken twice, and the tasks taken are those finished and those running. *)
Theorem pool_fifo s :
  reachable s ->
  exists items,
    ring_slice (queue (pool s)) (queue_size (pool s)) (head (pool s))
      (Z.to_nat (count (pool s))) = Some <$> items /\
    added s = grabbed s ++ items /\
    grabbed s ≡ₚ finished s ++ omap running (workers s).
Proof.
  intros Hr. destruct (pool_reachable_good s Hr) as [items Hs]. exists items.
  split; [|split; apply Hs]. destruct (iv_pool _ _ Hs) as [_ _ _ [Hc _] _ Hi].
  by rewrite Hc, <- Hi; unfold zlen; rewrite Nat2Z.id.
Qed.

(** C6: no access to the pool is undefined and no wake-up is lost.  Until the
    pool is freed every pass of a worker, every call of [threadpool_add] and
    every call of [threadpool_destroy] returns, the joins name threads that were
    started, and [threadpool_free] returns if the destruction of the mutex that
    it has locked does.  Once the pool is freed no worker and no thread that
    joins is left to use it.  While a worker waits there are at least as many
    workers on their way to the queue as tasks in it, and none waits once the
    pool is shutting down. *)
Theorem pool_no_lost_wakeup s :
  reachable s ->
  (freed s = false ->
   (forall i, workers s !! i = Some WReady -> exists s', worker_pass s i = Ret s') /\
   (forall t, exists x, threadpool_add (pool s) t = Ret x) /\
   (forall i flags, destroyers s !! i = Some (DCalled flags) ->
      exists s', destroyer_pass s i flags = Ret s') /\
   (forall i j, destroyers s !! i = Some (DJoining j) ->
      0 <= j /\ (j < thread_count (pool s) -> exists w, workers s !! Z.to_nat j = Some w) /\
      (thread_count (pool s) <= j ->
       forall r, destroy_locked = Ret r -> exists s', destroyer_free s i = Ret s'))) /\
  (freed s = true ->
   Forall (fun w => w = WExited) (workers s) /\ zcount is_joining (destroyers s) = 0) /\
  (0 < zcount is_waiting (workers s) ->
   count (pool s) <= zcount is_ready (workers s) /\ shutdown (pool s) = 0).
Proof.
  intros Hr. destruct (pool_reachable_good s Hr) as [items Hs]. split; [|split].
  - intros Hf. split_and!.
    + intros i Hi. destruct (worker_pass_keeps _ _ _ Hs Hi) as (s' & H & _). eauto.
    + intros t. destruct (add_spec _ _ t (iv_pool _ _ Hs)) as (x & H & _). eauto.
    + intros i flags _. unfold destroyer_pass. rewrite Hf. eauto.
    + intros i j Hi. pose proof (Forall_lookup_1 _ _ _ _ (iv_destroyers _ _ Hs) Hi) as (_ & Hj & _).
      split; [lia|]. split.
      * intros Hlt. rewrite (iv_workers _ _ Hs) in Hlt. apply lookup_lt_is_Some_2. len.
      * intros Hle r Er. destruct (joined_all _ _ _ _ Hs Hi Hle) as (_ & Hz & _).
        unfold destroyer_free, threadpool_free. rewrite Hz, Er. eexists. reflexivity.
  - intros Hf. split; by apply Hs.
  - intros Hw. destruct (iv_pool _ _ Hs) as [_ _ _ [Hc _] _ _]. rewrite Hc.
    split; [by apply Hs|]. destruct (decide (shutdown (pool s) = 0)) as [|Hne]; [done|].
    rewrite (iv_down _ _ Hs Hne) in Hw. lia.
Qed.

(** C7: when [threadpool_destroy] with [threadpool_graceful] has returned 0,
    every task that was accepted has been finished, once. *)
Theorem graceful_finishes_all s i :
  reachable s -> destroyers s !! i = Some (DReturned 0) ->
  shutdown (pool s) = graceful_shutdown ->
  freed s = true /\ Forall (fun w => w = WExited) (workers s) /\ finished s ≡ₚ added s.
Proof.
  intros Hr Hi Hg. destruct (pool_reachable_good s Hr) as [items Hs].
  pose proof (Forall_lookup_1 _ _ _ _ (iv_destroyers _ _ Hs) Hi) as [?|[_ Hf]]; [done|].
  pose proof (iv_freed _ _ Hs Hf) as Hall. split; [done|]. split; [done|].
  assert (0 < zcount is_exited (workers s)) as Hex.
  { pose proof (iv_threads _ _ Hs) as Ht. rewrite (iv_workers _ _ Hs) in Ht.
    destruct Hall as [|w l -> Hall]; [unfold zlen in Ht; simpl in Ht; lia|].
    simpl. pose proof (zcount_nonneg is_exited l). lia. }
  pose proof (iv_exited _ _ Hs Hex) as Hl. unfold leaves in Hl. rewrite Hg in Hl. simpl in Hl.
  apply Z.eqb_eq in Hl. assert (items = []) as ->.
  { destruct items; [done|]. unfold zlen in Hl. simpl in Hl. lia. }
  rewrite (iv_added _ _ Hs), app_nil_r, (iv_done _ _ Hs).
  assert (omap running (workers s) = []) as ->; [|by rewrite app_nil_r].
  clear -Hall. induction Hall as [|w l -> _ IH]; [done|]. by csimpl.
Qed.

(** ** Shutting down always ends *)

Lemma workers_exit n items s :
  inv items s -> leaked s = false -> shutdown (pool s) <> 0 ->
  (work items (workers s) <= n)%nat ->
  exists items' s', rtc step s s' /\ inv items' s' /\ destroyers s' = destroyers s /\
    leaked s' = false /\ Forall (fun w => is_exited w = true) (workers s').
Proof.
  revert items s. induction n as [n IH] using lt_wf_ind. intros items s Hs Hl Hd Hn.
  destruct (decide (Forall (fun w => is_exited w = true) (workers s))) as [Hall|Hno]; [by exists items, s|].
  apply not_Forall_Exists in Hno; [|intros w; apply _].
  apply Exists_exists in Hno as (w & (i & Hi)%list_elem_of_lookup_1 & Hw).
  assert (forall items1 s1, step s s1 -> inv items1 s1 -> destroyers s1 = destroyers s ->
    leaked s1 = leaked s -> shutdown (pool s1) <> 0 ->
    (work items1 (workers s1) < work items (workers s))%nat ->
    exists items' s', rtc step s s' /\ inv items' s' /\ destroyers s' = destroyers s /\
      leaked s' = false /\ Forall (fun w => is_exited w = true) (workers s')) as Hgo.
  { intros items1 s1 Hst H1 H2 H3 H4 H5.
    destruct (IH (work items1 (workers s1)) ltac:(lia) items1 s1) as (it & t & Hr & Ht & Hdt & Hlt & Hat);
      try done; [congruence|]. exists it, t. split; [by eapply rtc_l|]. split; [done|].
    split; [congruence|done]. }
  destruct w as [| |t|].
  - destruct (worker_pass_keeps _ _ _ Hs Hi) as (s1 & H1 & it & Hinv & Hd1 & Hl1 & _ & Hs1 & Hw1 & _).
    apply (Hgo it s1); auto; [by eapply step_worker|by rewrite Hs1].
  - pose proof (zcount_lookup is_waiting _ _ _ Hi eq_refl). rewrite (iv_down _ _ Hs Hd) in *. lia.
  - apply (Hgo items _ (step_finish s i t Hi)); auto; [by apply finish_keeps|].
    pose proof (work_insert _ _ _ WReady Hi). unfold work. simpl in *. lia.
  - by destruct Hw.
Qed.

Lemma joining_not_freed items s i j :
  inv items s -> destroyers s !! i = Some (DJoining j) -> freed s = false.
Proof.
  intros Hs Hi. destruct (freed s) eqn:E; [|done].
  pose proof (zcount_lookup is_joining _ _ _ Hi eq_refl). rewrite (iv_joined _ _ Hs E) in *. lia.
Qed.

Lemma joins_end n items s i j r :
  destroy_locked = Ret r ->
  inv items s -> leaked s = false -> Forall (fun w => is_exited w = true) (workers s) ->
  destroyers s !! i = Some (DJoining j) -> thread_count (pool s) - j <= Z.of_nat n ->
  exists s', rtc step s s' /\ destroyers s' !! i = Some (DReturned 0) /\ freed s' = true.
Proof.
  intros Er. revert s j. induction n as [|n IH]; intros s j Hs Hl Hall Hi Hn;
    pose proof (Forall_lookup_1 _ _ _ _ (iv_destroyers _ _ Hs) Hi) as (_ & Hj & _);
    pose proof (lookup_lt_Some _ _ _ Hi) as Hlt; pose proof (joining_not_freed _ _ _ _ Hs Hi) as Hf.
  2: destruct (decide (j < thread_count (pool s))) as [Hlt'|Hge].
  2: { pose proof (iv_workers _ _ Hs) as Hw.
    destruct (lookup_lt_is_Some_2 (workers s) (Z.to_nat j)) as [w Hk]; [len|].
    pose proof (Forall_lookup_1 _ _ _ _ Hall Hk) as Hx. destruct w; try done.
    destruct (IH (set_destroyer s i (DJoining (j + 1))) (j + 1)) as (t & Hr & Ht); simpl; try done.
    - by apply join_keeps.
    - by apply list_lookup_insert_eq.
    - lia.
    - exists t. split; [|done]. eapply rtc_l; [|exact Hr]. by apply step_join. }
  all: destruct (joined_all _ _ _ _ Hs Hi ltac:(lia)) as (_ & Hz & _);
    eexists; split; [eapply rtc_once, (step_free _ _ _ _ Hf Hi); [lia|done|];
      unfold destroyer_free, threadpool_free; rewrite Hz, Er; reflexivity|]; simpl;
    by rewrite list_lookup_insert_eq.
Qed.

(** With the mutex left locked nobody frees the pool. *)
Lemma leaked_step s s' i j :
  leaked s = true -> step s s' -> destroyers s !! i = Some (DJoining j) ->
  leaked s' = true /\ exists j', destroyers s' !! i = Some (DJoining j').
Proof.
  intros Hl Hst Hi. destruct Hst as [s k s' _ Hn _|s k t Hk|s k Hk|s t p err sig ws _ Hn _ _
    |s k flags s' Hn _ _|s k m _ Hk Hm Hw|s k m s' _ _ _ Hn _]; try congruence; simpl; eauto.
  split; [done|]. destruct (decide (i = k)) as [->|Hne].
  - rewrite list_lookup_insert_eq by (by eapply lookup_lt_Some). eauto.
  - rewrite list_lookup_insert_ne by done. eauto.
Qed.

Lemma leaked_for_ever s s' i j :
  leaked s = true -> destroyers s !! i = Some (DJoining j) -> rtc step s s' ->
  exists j', destroyers s' !! i = Some (DJoining j').
Proof.
  intros Hl Hi Hr. revert j Hl Hi. induction Hr as [|a b c Hst _ IH]; intros j Hl Hi; [eauto|].
  destruct (leaked_step a b i j Hl Hst Hi) as (Hl' & j' & Hj'). eauto.
Qed.

(** C8: where destroying the locked mutex returns, a call of
    [threadpool_destroy] that has begun to join can come to its end, whatever
    the workers are doing, if and only if no other call has left with the mutex
    locked; after such a call it never ends. *)
Theorem destroy_completes s i j r :
  destroy_locked = Ret r -> reachable s -> destroyers s !! i = Some (DJoining j) ->
  (leaked s = false <->
   exists s', rtc step s s' /\ destroyers s' !! i = Some (DReturned 0) /\ freed s' = true).
Proof.
  intros Er Hr Hi. split.
  - intros Hl. destruct (pool_reachable_good s Hr) as [items Hs].
    pose proof (Forall_lookup_1 _ _ _ _ (iv_destroyers _ _ Hs) Hi) as (Hd & _).
    destruct (workers_exit _ items s Hs Hl Hd (le_n _)) as (it & t & Hrt & Ht & Hdt & Hlt & Hat).
    rewrite <- Hdt in Hi.
    destruct (joins_end (Z.to_nat (thread_count (pool t) - j)) it t i j r Er Ht Hlt Hat Hi ltac:(lia))
      as (s' & Hrs & Hs'). exists s'. split; [by etrans|done].
  - intros (s' & Hst & Hd & _). destruct (leaked s) eqn:Hl; [|done].
    destruct (leaked_for_ever s s' i j Hl Hi Hst) as [j' Hj']. congruence.
Qed.

(** ** Immediate shutdown, and a second destroy *)

Lemma immediate_step s s' :
  good s -> shutdown (pool s) = immediate_shutdown -> step s s' ->
  shutdown (pool s') = immediate_shutdown /\ grabbed s' = grabbed s /\ added s' = added s.
Proof.
  intros [items Hs] Hd Hst. destruct Hst as [s i s' Hi _ H|s i t Hi|s i Hi|s t p err sig ws Hf _ Ha Hsg
    |s i flags s' _ Hi H|s i j _ Hi Hj Hw|s i j s' _ Hi Hj _ H]; try done.
  - destruct (worker_pass_keeps _ _ _ Hs Hi) as (x & Hx & it & _ & _ & _ & _ & Hsd & _ & Hg).
    rewrite H in Hx. injection Hx as ->. rewrite Hsd. split; [done|]. split; [by apply Hg|].
    unfold worker_pass in H. destruct (freed s); [done|]. apply bind_Ret in H as (r & _ & H).
    injection H as <-. by destruct r.
  - simpl. by rewrite app_nil_r.
  - destruct (add_spec _ _ t (iv_pool _ _ Hs)) as (x & Hx & Herr & _ & (_ & _ & Hsd & _) & _).
    rewrite Ha in Hx. injection Hx as <-. simpl in *. rewrite Hsd. split; [done|]. split; [done|].
    subst err. unfold add_result. rewrite Hd. destruct (function t =? 0); [done|].
    by destruct (zlen items =? queue_size (pool s)).
  - unfold destroyer_pass, threadpool_destroy_begin in H. rewrite Hd in H.
    destruct (freed s); [done|]. by injection H as <-.
  - apply bind_Ret in H as (r & _ & H). by injection H as <-.
Qed.

(** Once the pool is shutting down immediately no task is accepted and no
    task is taken any more. *)
Theorem immediate_takes_nothing s s' :
  reachable s -> shutdown (pool s) = immediate_shutdown -> rtc step s s' ->
  grabbed s' = grabbed s /\ added s' = added s.
Proof.
  intros Hr Hd Hst. pose proof (pool_reachable_good s Hr) as Hg. clear Hr. revert Hg Hd.
  induction Hst as [|s t u Hst _ IH]; intros Hg Hd; [done|].
  destruct (immediate_step s t Hg Hd Hst) as (H1 & <- & <-).
  apply IH; [by eapply step_good|done].
Qed.

(** A second [threadpool_destroy] while the first is under way returns
    [threadpool_shutdown] with the mutex locked: from then on the first call
    never returns. *)
Theorem second_destroy_blocks_first s k flags i j :
  freed s = false -> leaked s = false -> shutdown (pool s) <> 0 ->
  destroyers s !! k = Some (DCalled flags) -> destroyers s !! i = Some (DJoining j) ->
  exists s1, step s s1 /\ destroyers s1 !! k = Some (DReturned threadpool_shutdown) /\
    forall s', rtc step s1 s' -> exists j', destroyers s' !! i = Some (DJoining j').
Proof.
  intros Hf Hl Hd Hk Hi. eexists. split.
  { eapply step_destroy; [done|exact Hk|]. unfold destroyer_pass. by rewrite Hf. }
  unfold threadpool_destroy_begin. rewrite (proj2 (Z.eqb_neq _ _) Hd). simpl.
  split; [apply list_lookup_insert_eq; by eapply lookup_lt_Some|]. intros s' Hr.
  eapply leaked_for_ever; [| |exact Hr]; simpl; [done|]. by rewrite list_lookup_insert_ne by congruence.
Qed.

(** The comment in [threadpool_free] says that [threads] is allocated after the
    mutex and the condition variable are initialised; [threadpool_create] does
    it before.  So a failed initialisation leads to the use of what was not
    initialised, and a failed allocation of [threads] leaks the queue. *)
Theorem create_failures tcount qsize a creates :
  1 <= tcount <= MAX_THREADS -> 1 <= qsize <= MAX_QUEUE -> got_pool a = true ->
  (got_threads a = true -> got_lock a && got_notify a = false ->
   threadpool_create tcount qsize a creates = Undef Uninitialised) /\
  (got_threads a = false -> got_queue a = true ->
   threadpool_create tcount qsize a creates = Ret (CreateNull [RQueue])).
Proof.
  intros Ht Hq Hp. unfold threadpool_create.
  rewrite (proj2 (Z.leb_gt tcount 0)), (proj2 (Z.ltb_ge MAX_THREADS tcount)),
    (proj2 (Z.leb_gt qsize 0)), (proj2 (Z.ltb_ge MAX_QUEUE qsize)), Hp by lia. cbn [orb negb].
  split.
  - intros Hth Hin. unfold threadpool_free. rewrite Hth.
    destruct (got_lock a), (got_notify a); done.
  - intros Hth Hqu. unfold threadpool_free. rewrite Hth, Hqu.
    by destruct (got_lock a), (got_notify a).
Qed.

End Pool.

(** ** Instances of the theorems *)

(** What Linux documents for the destruction of a locked mutex. *)
Definition EBUSY : Z := 16.
Definition linux : outcome Z := Ret EBUSY.

Definition some_task : threadpool_task_t := {| function := 1; argument := 0 |}.

Lemma initial_reachable (n qsize : Z) flags :
  1 <= n <= MAX_THREADS -> 1 <= qsize <= MAX_QUEUE -> reachable linux (initial (new_pool n qsize) flags).
Proof.
  intros Hn Hq. exists n, qsize, all_allocated, (fun _ => true), (new_pool n qsize), flags.
  split; [|done]. unfold threadpool_create.
  rewrite (proj2 (Z.leb_gt n 0)), (proj2 (Z.ltb_ge MAX_THREADS n)),
    (proj2 (Z.leb_gt qsize 0)), (proj2 (Z.ltb_ge MAX_QUEUE qsize)) by lia. cbn [orb negb].
  assert (forall k, create_threads k (fun _ => true) = k) as E
    by (intros k; induction k as [|k IH]; simpl; auto).
  rewrite E. simpl. replace (Z.of_nat (Z.to_nat n)) with n by lia.
  by rewrite (proj2 (Z.ltb_ge n n)) by lia.
Qed.

Lemma reachable_step s s' : reachable linux s -> step linux s s' -> reachable linux s'.
Proof.
  intros (tc & qs & a & cr & p & fl & Hc & Hr) Hst. exists tc, qs, a, cr, p, fl.
  split; [done|]. by eapply rtc_r.
Qed.

(** One worker, one task, one destroyer: the task added and taken. *)
Lemma busy_reachable flags rest :
  exists s, reachable linux s /\ workers s = [WRunning some_task] /\ added s = [some_task] /\
    destroyers s = DCalled <$> (flags :: rest) /\ shutdown (pool s) = 0 /\ leaked s = false /\
    freed s = false.
Proof.
  pose proof (initial_reachable 1 1 (flags :: rest) ltac:(done) ltac:(done)) as H0.
  eapply reachable_step in H0; [|eapply (step_add linux _ some_task); [done|done|reflexivity|];
    by apply signalled_nobody].
  eapply reachable_step in H0; [|eapply (step_worker linux _ 0%nat); [done|done|reflexivity]].
  eexists. split; [exact H0|]. done.
Qed.

(** The first destroyer has begun to join while the task is running. *)
Lemma joining_reachable flags rest :
  exists s, reachable linux s /\ workers s = [WRunning some_task] /\ added s = [some_task] /\
    destroyers s = DJoining 0 :: (DCalled <$> rest) /\
    shutdown (pool s) = (if Z.land flags threadpool_graceful =? 0
                         then immediate_shutdown else graceful_shutdown) /\
    leaked s = false /\ freed s = false.
Proof.
  destruct (busy_reachable flags rest) as (s & Hr & Hw & Ha & Hd & Hs & Hl & Hf).
  assert (destroyers s !! 0%nat = Some (DCalled flags)) as H0 by (rewrite Hd; done).
  eexists. split; [eapply reachable_step, (step_destroy linux s 0 flags); [exact Hr|done|done|]|].
  { unfold destroyer_pass. by rewrite Hf. }
  unfold threadpool_destroy_begin. rewrite Hs. simpl. rewrite Hw, Hd. done.
Qed.

Lemma pool_fifo_witness :
  exists s items, reachable linux s /\ added s = [some_task] /\ added s = grabbed s ++ items.
Proof.
  destruct (busy_reachable 0 []) as (s & Hr & _ & Ha & _).
  destruct (pool_fifo linux s Hr) as (items & _ & H & _). exists s, items. exact (conj Hr (conj Ha H)).
Defined.

Lemma pool_no_lost_wakeup_witness :
  exists s, reachable linux s /\ exists x, threadpool_add (pool s) some_task = Ret x.
Proof.
  destruct (busy_reachable 0 []) as (s & Hr & _ & _ & _ & _ & _ & Hf).
  exists s. split; [exact Hr|]. exact (proj1 (proj2 (proj1 (pool_no_lost_wakeup linux s Hr) Hf)) some_task).
Defined.

Lemma destroy_completes_witness :
  exists s s', workers s = [WRunning some_task] /\ rtc (step linux) s s' /\
    destroyers s' !! 0%nat = Some (DReturned 0) /\ freed s' = true.
Proof.
  destruct (joining_reachable 1 []) as (s & Hr & Hw & _ & Hd & _ & Hl & _).
  assert (destroyers s !! 0%nat = Some (DJoining 0)) as H0 by (rewrite Hd; reflexivity).
  destruct (proj1 (destroy_completes linux s 0 0 EBUSY eq_refl Hr H0) Hl) as (s' & H1 & H2).
  exists s, s'. exact (conj Hw (conj H1 H2)).
Defined.

Lemma immediate_takes_nothing_witness :
  exists s, reachable linux s /\ shutdown (pool s) = immediate_shutdown /\
    forall s', rtc (step linux) s s' -> grabbed s' = grabbed s /\ added s' = added s.
Proof.
  destruct (joining_reachable 0 []) as (s & Hr & _ & _ & _ & Hs & _).
  exists s. split; [exact Hr|]. split; [exact Hs|].
  intros s' H. exact (immediate_takes_nothing linux s s' Hr Hs H).
Defined.

Lemma second_destroy_blocks_first_witness :
  exists s s1, reachable linux s /\ workers s = [WRunning some_task] /\ step linux s s1 /\
    forall s', rtc (step linux) s1 s' -> exists j', destroyers s' !! 0%nat = Some (DJoining j').
Proof.
  destruct (joining_reachable 1 [1]) as (s & Hr & Hw & _ & Hd & Hs & Hl & Hf).
  assert (destroyers s !! 0%nat = Some (DJoining 0)) as H0 by (rewrite Hd; reflexivity).
  assert (destroyers s !! 1%nat = Some (DCalled 1)) as H1 by (rewrite Hd; reflexivity).
  assert (shutdown (pool s) <> 0) as Hne by (rewrite Hs; discriminate).
  destruct (second_destroy_blocks_first linux s 1 1 0 0 Hf Hl Hne H1 H0) as (s1 & Hst & _ & Hall).
  exists s, s1. exact (conj Hr (conj Hw (conj Hst Hall))).
Defined.

Lemma graceful_finishes_all_witness :
  exists s, reachable linux s /\ added s = [some_task] /\ finished s ≡ₚ added s.
Proof.
  pose proof (initial_reachable 1 1 [1] ltac:(done) ltac:(done)) as H0.
  eapply reachable_step in H0; [|eapply (step_add linux _ some_task); [reflexivity|reflexivity|reflexivity|];
    apply signalled_nobody; reflexivity].
  eapply reachable_step in H0; [|eapply (step_destroy linux _ 0%nat); reflexivity].
  eapply reachable_step in H0; [|eapply (step_worker linux _ 0%nat); reflexivity].
  eapply reachable_step in H0; [|eapply (step_finish linux _ 0%nat); reflexivity].
  eapply reachable_step in H0; [|eapply (step_worker linux _ 0%nat); reflexivity].
  eapply reachable_step in H0; [|eapply (step_join linux _ 0%nat); reflexivity].
  eapply reachable_step in H0;
    [|eapply (step_free linux _ 0%nat); [reflexivity|reflexivity|discriminate|reflexivity|reflexivity]].
  eexists. split; [exact H0|]. split; [reflexivity|].
  exact (proj2 (proj2 (graceful_finishes_all linux _ 0 H0 eq_refl eq_refl))).
Defined.
