(* ===== verification/ShmState.v ===== *)
(** * The lock words of the shared-memory blocks

    [class State] as it stands in
    - src/c/20181104_dilu_spmc_atomic/shmblock2.cpp, shmblock3.cpp, shmblock4.cpp,
    - src/c++/20221213-pubsub-shm-udp/shm.hpp,
    - src/c++/20221215-pubsub-shm-udp-2/shm.hpp,
    - src/c++/20230108-pubsub-shm-udp-3/shm.hpp.

    One producer and any number of consumers share the object.  Every access to
    an atomic member is one step; the steps of the threads interleave, and the
    accesses to one word are totally ordered.  A [compare_exchange_weak] may
    fail spuriously.  The six copies differ in how a reader reacts before the
    first block is published, and in how the writer releases its lock. *)

From stdpp Require Import base list numbers relations.
From Stdlib Require Import ZArith Lia.
From S2P Require Import Prelude.

Open Scope Z_scope.

Definition ENTRY_NUM_MAX : Z := 64.
Definition kRWLockFree : Z := 0.
Definition kWriteExclusive : Z := -1.

Record State := {
  block_num_ : Z;
  block_size_ : Z;
  write_pos_ : Z;
  read_pos_ : Z;
  refcount_ : Z;
  locks_ : list Z;
}.

Definition make_State (block_num block_size : Z) : State :=
  {| block_num_ := block_num; block_size_ := block_size; write_pos_ := 0; read_pos_ := -1;
     refcount_ := 0; locks_ := replicate (Z.to_nat ENTRY_NUM_MAX) 0 |}.

Definition set_locks (st : State) (l : list Z) : State :=
  {| block_num_ := block_num_ st; block_size_ := block_size_ st; write_pos_ := write_pos_ st;
     read_pos_ := read_pos_ st; refcount_ := refcount_ st; locks_ := l |}.

Definition set_read_pos (st : State) (i : Z) : State :=
  {| block_num_ := block_num_ st; block_size_ := block_size_ st; write_pos_ := write_pos_ st;
     read_pos_ := i; refcount_ := refcount_ st; locks_ := locks_ st |}.

Definition set_refcount (st : State) (n : Z) : State :=
  {| block_num_ := block_num_ st; block_size_ := block_size_ st; write_pos_ := write_pos_ st;
     read_pos_ := read_pos_ st; refcount_ := n; locks_ := locks_ st |}.

(** [locks_[i].store(v)]; [locks_[i].fetch_add(d)], which wraps. *)
Definition lock_store (st : State) (i v : Z) : outcome State :=
  l ← vset (locks_ st) i v; Ret (set_locks st l).

Definition lock_add (st : State) (i d : Z) : outcome State :=
  v ← vget (locks_ st) i; lock_store st i (to_int (v + d)).

(** [locks_[i].compare_exchange_weak(expected, desired)]; [spurious] makes it
    fail although the word holds [expected]. *)
Definition lock_cas (st : State) (i expected desired : Z) (spurious : bool)
    : outcome (option State) :=
  v ← vget (locks_ st) i;
  if (v =? expected) && negb spurious
  then st' ← lock_store st i desired; Ret (Some st')
  else Ret None.

Definition IncreaseRefCount (st : State) : State := set_refcount st (to_int (refcount_ st + 1)).

(** Returns the count before the decrement. *)
Definition DecreaseRefCount (st : State) : State * Z :=
  (set_refcount st (to_int (refcount_ st - 1)), refcount_ st).

Definition CheckValid (st : State) (block_size block_num : Z) : bool :=
  (block_size_ st =? block_size) && (block_num_ st =? block_num).

(** ** The points where the copies differ *)

Inductive unpublished := KeepReading | GiveUp.
Inductive release := StoreFree | AddOne.

Record variant := {
  on_unpublished : unpublished;
  on_release : release;
}.

(** The test after which a reader goes back to the start of its loop instead of
    trying to lock block [i].  The comment beside it says that the block is
    being written, but all the copies test the index and not the lock word. *)
Definition index_test (i : Z) : bool := i <? kRWLockFree.

(** src/c/20181104_dilu_spmc_atomic/shmblock2.cpp, shmblock3.cpp, shmblock4.cpp *)
Definition shmblock2 : variant :=
  {| on_unpublished := KeepReading; on_release := AddOne |}.
Definition shmblock3 : variant :=
  {| on_unpublished := KeepReading; on_release := StoreFree |}.
Definition shmblock4 : variant :=
  {| on_unpublished := KeepReading; on_release := StoreFree |}.

(** shm.hpp of the publish/subscribe programs of 2022-12-13, 2022-12-15 and
    2023-01-08 *)
Definition pubsub1 : variant :=
  {| on_unpublished := GiveUp; on_release := StoreFree |}.
Definition pubsub2 : variant :=
  {| on_unpublished := GiveUp; on_release := StoreFree |}.
Definition pubsub3 : variant :=
  {| on_unpublished := GiveUp; on_release := StoreFree |}.

Definition State_copies : list variant :=
  [shmblock2; shmblock3; shmblock4; pubsub1; pubsub2; pubsub3].

(** ** The atomic steps of the writer *)

Inductive writer :=
  | WIdle
  | WScan (i : Z)      (* in [LockForWrite], about to try block [i] *)
  | WOwn (i : Z)       (* [LockForWrite] has returned [i] *)
  | WPublish (i : Z).  (* in [ReleaseWriteLock], before the store to [read_pos_] *)

Definition LockForWrite_step (st : State) (i : Z) (spurious : bool)
    : outcome (State * writer) :=
  r ← lock_cas st i kRWLockFree kWriteExclusive spurious;
  match r with
  | Some st' => Ret (st', WOwn i)
  | None => j ← int_op (i + 1); k ← int_rem j (block_num_ st); Ret (st, WScan k)
  end.

Definition ReleaseWriteLock_unlock (v : variant) (st : State) (i : Z) : outcome State :=
  match on_release v with
  | StoreFree => lock_store st i kRWLockFree
  | AddOne => lock_add st i 1
  end.

Definition ReleaseWriteLock (v : variant) (st : State) (i : Z) : outcome State :=
  st' ← ReleaseWriteLock_unlock v st i; Ret (set_read_pos st' i).

Definition writer_step (v : variant) (st : State) (w : writer) (spurious : bool)
    : outcome (State * writer) :=
  match w with
  | WIdle => Ret (st, WScan (write_pos_ st))
  | WScan i => LockForWrite_step st i spurious
  | WOwn i => st' ← ReleaseWriteLock_unlock v st i; Ret (st', WPublish i)
  | WPublish i => Ret (set_read_pos st i, WIdle)
  end.

(** ** The atomic steps of a reader *)

Inductive reader :=
  | RIdle
  | RPos                 (* about to load [read_pos_] *)
  | RLock (i : Z)        (* about to load [locks_[i]] *)
  | RCas (i n : Z)       (* about to replace [n] by [n + 1] in [locks_[i]] *)
  | ROwn (i : Z)         (* [LockForRead] has returned [i] *)
  | RFailed.             (* [LockForRead] has returned -1 *)

Definition LockForRead_step (v : variant) (st : State) (r : reader) (spurious : bool)
    : outcome (State * reader) :=
  match r with
  | RPos =>
      let i := read_pos_ st in
      if i <? 0
      then Ret (st, match on_unpublished v with KeepReading => RPos | GiveUp => RFailed end)
      else Ret (st, RLock i)
  | RLock i =>
      n ← vget (locks_ st) i;
      if index_test i then Ret (st, RPos) else Ret (st, RCas i n)
  | RCas i n =>
      n' ← int_op (n + 1);
      r ← lock_cas st i n n' spurious;
      match r with
      | Some st' => Ret (st', ROwn i)
      | None => Ret (st, RPos)
      end
  | _ => Ret (st, r)
  end.

Definition ReleaseReadLock (st : State) (i : Z) : outcome State := lock_add st i (-1).

Definition reader_step (v : variant) (st : State) (r : reader) (spurious : bool)
    : outcome (State * reader) :=
  match r with
  | RIdle => Ret (st, RPos)
  | ROwn i => st' ← ReleaseReadLock st i; Ret (st', RIdle)
  | RFailed => Ret (st, RIdle)
  | _ => LockForRead_step v st r spurious
  end.

(** ** The calls, run without interference

    [spur k] says whether the [k]-th compare-exchange fails spuriously. *)

Fixpoint LockForWrite_from (fuel : nat) (spur : nat -> bool) (st : State) (i : Z)
    : outcome (State * Z) :=
  match fuel with
  | O => NoFuel
  | S fuel =>
      r ← LockForWrite_step st i (spur fuel);
      match r with
      | (st', WOwn j) => Ret (st', j)
      | (st', WScan j) => LockForWrite_from fuel spur st' j
      | (_, _) => NoFuel
      end
  end.

Definition LockForWrite (fuel : nat) (spur : nat -> bool) (st : State) : outcome (State * Z) :=
  LockForWrite_from fuel spur st (write_pos_ st).

Fixpoint LockForRead_from (v : variant) (fuel : nat) (spur : nat -> bool) (st : State) (r : reader)
    : outcome (State * Z) :=
  match fuel with
  | O => NoFuel
  | S fuel =>
      match r with
      | ROwn i => Ret (st, i)
      | RFailed => Ret (st, -1)
      | _ => x ← LockForRead_step v st r (spur fuel); LockForRead_from v fuel spur x.1 x.2
      end
  end.

Definition LockForRead (v : variant) (fuel : nat) (spur : nat -> bool) (st : State)
    : outcome (State * Z) :=
  LockForRead_from v fuel spur st RPos.

(** ** One producer and its consumers *)

Record shm := {
  shared : State;
  wr : writer;
  rds : list reader;
}.

Inductive shm_step (v : variant) : shm -> shm -> Prop :=
| by_writer s spurious st' w' :
    writer_step v (shared s) (wr s) spurious = Ret (st', w') ->
    shm_step v s {| shared := st'; wr := w'; rds := rds s |}
| by_reader s k r spurious st' r' :
    rds s !! k = Some r ->
    reader_step v (shared s) r spurious = Ret (st', r') ->
    shm_step v s {| shared := st'; wr := wr s; rds := <[k := r']> (rds s) |}.

Definition shm_init (block_num block_size : Z) (readers : nat) : shm :=
  {| shared := make_State block_num block_size; wr := WIdle; rds := replicate readers RIdle |}.

Definition owns (i : Z) (r : reader) : bool :=
  match r with ROwn j => j =? i | _ => false end.

Definition owners (i : Z) (l : list reader) : Z := zcount (owns i) l.

(** ** The invariant of every variant

    [slack i] is what the lock word of block [i] lacks of the number of its
    readers: one while the block is being written, and more after the lock
    word has been overwritten under a reader. *)

Definition writer_ok (bn : Z) (w : writer) : Prop :=
  match w with
  | WIdle => True
  | WScan i | WOwn i | WPublish i => 0 <= i < bn
  end.

Definition reader_ok (v : variant) (bn : Z) (n : nat) (r : reader) : Prop :=
  match r with
  | RLock i | ROwn i => 0 <= i < bn
  | RCas i m => 0 <= i < bn /\ int_min <= m <= Z.of_nat n
  | _ => True
  end.

Definition held (w : writer) (i : Z) : Z :=
  match w with WOwn j => Z.b2z (j =? i) | _ => 0 end.

Definition slack (s : shm) (i : Z) : Z :=
  owners i (rds s) - default 0 (locks_ (shared s) !! Z.to_nat i).

Record shm_inv (v : variant) (s : shm) : Prop := {
  si_num : 0 < block_num_ (shared s) <= ENTRY_NUM_MAX;
  si_wpos : write_pos_ (shared s) = 0;
  si_rpos : -1 <= read_pos_ (shared s) < block_num_ (shared s);
  si_locks : zlen (locks_ (shared s)) = ENTRY_NUM_MAX;
  si_few : Z.of_nat (length (rds s)) < int_max - 2;
  si_writer : writer_ok (block_num_ (shared s)) (wr s);
  si_readers : Forall (reader_ok v (block_num_ (shared s)) (length (rds s))) (rds s);
  si_slack : forall i, 0 <= i < block_num_ (shared s) ->
    held (wr s) i <= slack s i <= Z.of_nat (length (rds s)) + 1;
}.

Lemma owners_bounds i l : 0 <= owners i l <= Z.of_nat (length l).
Proof.
  unfold owners. split; [apply zcount_nonneg|]. induction l as [|r l IH]; simpl; [lia|].
  destruct (owns i r); simpl; lia.
Qed.

Lemma held_bounds w i : 0 <= held w i <= 1.
Proof. destruct w; simpl; try lia. destruct (_ =? _); simpl; lia. Qed.

Lemma owners_init i bn bs n : owners i (rds (shm_init bn bs n)) = 0.
Proof. unfold owners. simpl. induction n; simpl; auto. Qed.

Lemma shm_init_inv v bn bs n :
  0 < bn <= ENTRY_NUM_MAX -> Z.of_nat n < int_max - 2 -> shm_inv v (shm_init bn bs n).
Proof.
  intros Hbn Hn. split; simpl; rewrite ?length_replicate; try done; [lia|..].
  - by apply Forall_replicate.
  - intros i Hi. unfold slack. rewrite owners_init.
    change (locks_ (shared (shm_init bn bs n))) with (replicate (Z.to_nat ENTRY_NUM_MAX) 0).
    destruct (replicate _ 0 !! Z.to_nat i) as [x|] eqn:Hx; simpl; [|lia].
    apply lookup_replicate in Hx as [-> _]. lia.
Qed.

(** The lock word of a block, in terms of its slack. *)
Lemma lock_word v s i :
  shm_inv v s -> 0 <= i < block_num_ (shared s) ->
  exists l, locks_ (shared s) !! Z.to_nat i = Some l /\ vget (locks_ (shared s)) i = Ret l /\
    l = owners i (rds s) - slack s i /\
    int_min < l - 1 /\ l <= Z.of_nat (length (rds s)) /\ l + 1 < int_max.
Proof.
  intros Hs Hi. pose proof (si_num v s Hs). pose proof (si_locks v s Hs) as Hl.
  destruct (vget_in_range (locks_ (shared s)) i) as [l Hg]; [lia|].
  pose proof (proj1 (vget_Ret _ _ _) Hg) as [_ Hlook]. exists l.
  pose proof (si_slack v s Hs i Hi) as Hsl. pose proof (owners_bounds i (rds s)).
  pose proof (si_few v s Hs). pose proof (held_bounds (wr s) i).
  assert (slack s i = owners i (rds s) - l) as E by (unfold slack; by rewrite Hlook).
  unfold int_min, int_max in *. repeat (split; [done || lia|]). lia.
Qed.

(** Changing one lock word, the writer and the readers together. *)
Lemma shm_inv_lock v s i l' w' rds' :
  shm_inv v s -> 0 <= i < block_num_ (shared s) ->
  writer_ok (block_num_ (shared s)) w' -> length rds' = length (rds s) ->
  Forall (reader_ok v (block_num_ (shared s)) (length (rds s))) rds' ->
  (forall j, j <> i -> owners j rds' = owners j (rds s) /\ held w' j <= held (wr s) j) ->
  held w' i <= owners i rds' - l' <= Z.of_nat (length (rds s)) + 1 ->
  shm_inv v {| shared := set_locks (shared s) (<[Z.to_nat i := l']> (locks_ (shared s)));
               wr := w'; rds := rds' |}.
Proof.
  intros [Hnum Hw Hr Hl Hf Hwr Hrd Hsl] Hi Hw' Hlen Hrd' Hother Hown.
  split; simpl; rewrite ?Hlen, ?zlen_insert; try done.
  intros j Hj. unfold slack. simpl. destruct (decide (j = i)) as [->|Hne].
  - rewrite list_lookup_insert_eq; [done|]. unfold zlen in Hl. lia.
  - rewrite list_lookup_insert_ne by lia. destruct (Hother j Hne) as [-> Hh].
    specialize (Hsl j Hj). unfold slack in Hsl. lia.
Qed.

(** Changing only the program counters and [read_pos_]. *)
Lemma shm_inv_pc v s w' rds' rp :
  shm_inv v s -> -1 <= rp < block_num_ (shared s) ->
  writer_ok (block_num_ (shared s)) w' -> length rds' = length (rds s) ->
  Forall (reader_ok v (block_num_ (shared s)) (length (rds s))) rds' ->
  (forall j, owners j rds' = owners j (rds s) /\ held w' j <= held (wr s) j) ->
  shm_inv v {| shared := set_read_pos (shared s) rp; wr := w'; rds := rds' |}.
Proof.
  intros [Hnum Hw Hr Hl Hf Hwr Hrd Hsl] Hrp Hw' Hlen Hrd' Hother.
  split; simpl; rewrite ?Hlen; try done.
  intros j Hj. unfold slack. simpl. destruct (Hother j) as [-> Hh].
  specialize (Hsl j Hj). unfold slack in Hsl. lia.
Qed.

Lemma set_read_pos_same st : set_read_pos st (read_pos_ st) = st.
Proof. by destruct st. Qed.

(** What a step of one thread does to the invariant. *)
Definition writer_keeps (v : variant) (s : shm) (r : outcome (State * writer)) : Prop :=
  returns r (fun x => shm_inv v {| shared := x.1; wr := x.2; rds := rds s |}).

Definition reader_keeps (v : variant) (s : shm) (k : nat) (r : outcome (State * reader)) : Prop :=
  returns r (fun x => shm_inv v {| shared := x.1; wr := wr s; rds := <[k := x.2]> (rds s) |}).

(** A change of the writer's program counter only. *)
Lemma writer_keeps_pc v s w' rp :
  shm_inv v s -> -1 <= rp < block_num_ (shared s) -> writer_ok (block_num_ (shared s)) w' ->
  (forall j, held w' j <= held (wr s) j) ->
  writer_keeps v s (Ret (set_read_pos (shared s) rp, w')).
Proof.
  intros Hs Hrp Hw Hh. apply returns_ret. simpl.
  apply shm_inv_pc; [done..|apply Hs|auto].
Qed.

Lemma next_block v s i :
  shm_inv v s -> 0 <= i < block_num_ (shared s) ->
  (j ← int_op (i + 1); k ← int_rem j (block_num_ (shared s)); Ret (shared s, WScan k)) =
  Ret (shared s, WScan ((i + 1) mod block_num_ (shared s))).
Proof.
  intros Hs Hi. pose proof (si_num v s Hs). unfold ENTRY_NUM_MAX in *.
  rewrite int_op_in by (unfold int_min, int_max; lia). simpl.
  by rewrite int_rem_ring by lia.
Qed.

Lemma WScan_keeps v s i spur :
  shm_inv v s -> wr s = WScan i -> writer_keeps v s (LockForWrite_step (shared s) i spur).
Proof.
  intros Hs Hw. pose proof (si_writer v s Hs) as Hi. rewrite Hw in Hi. simpl in Hi.
  destruct (lock_word v s i Hs Hi) as (l & Hlook & Hg & Hl & Hb). pose proof (si_num v s Hs).
  pose proof (si_locks v s Hs). pose proof (owners_bounds i (rds s)).
  unfold LockForWrite_step, lock_cas, lock_store. rewrite Hg. simpl.
  destruct ((l =? kRWLockFree) && negb spur) eqn:E.
  - apply andb_true_iff in E as [->%Z.eqb_eq _]. rewrite vset_in_range by lia. simpl.
    apply returns_ret, shm_inv_lock; try done; try apply Hs; simpl.
    + intros j Hj. split; [done|]. rewrite Hw. simpl. rewrite (proj2 (Z.eqb_neq i j)); done.
    + rewrite Z.eqb_refl. unfold kWriteExclusive. simpl. lia.
  - simpl. rewrite (next_block v s i Hs Hi). rewrite <- (set_read_pos_same (shared s)) at 1.
    apply writer_keeps_pc; [done|apply Hs|simpl; apply Z.mod_pos_bound; lia|]. rewrite Hw. done.
Qed.

Lemma WOwn_keeps v s i :
  shm_inv v s -> wr s = WOwn i ->
  writer_keeps v s (st' ← ReleaseWriteLock_unlock v (shared s) i; Ret (st', WPublish i)).
Proof.
  intros Hs Hw. pose proof (si_writer v s Hs) as Hi. rewrite Hw in Hi. simpl in Hi.
  destruct (lock_word v s i Hs Hi) as (l & Hlook & Hg & Hl & Hb). pose proof (si_num v s Hs).
  pose proof (si_locks v s Hs). pose proof (owners_bounds i (rds s)).
  pose proof (si_slack v s Hs i Hi) as Hsl. rewrite Hw in Hsl. simpl in Hsl.
  rewrite Z.eqb_refl in Hsl. simpl in Hsl.
  assert (forall l', 0 <= owners i (rds s) - l' <= Z.of_nat (length (rds s)) + 1 ->
    writer_keeps v s (Ret (set_locks (shared s) (<[Z.to_nat i := l']> (locks_ (shared s))),
                           WPublish i))) as Hstore.
  { intros l' Hl'. apply returns_ret, shm_inv_lock; try done; try apply Hs. simpl.
    intros j Hj. split; [done|]. apply held_bounds. }
  unfold ReleaseWriteLock_unlock, lock_add, lock_store. destruct (on_release v).
  - rewrite vset_in_range by lia. apply Hstore. unfold kRWLockFree. lia.
  - rewrite Hg. simpl. rewrite to_int_small by lia. rewrite vset_in_range by lia.
    apply Hstore. lia.
Qed.

Lemma writer_step_keeps v s spur :
  shm_inv v s -> writer_keeps v s (writer_step v (shared s) (wr s) spur).
Proof.
  intros Hs. pose proof (si_writer v s Hs) as Hok. pose proof (si_num v s Hs).
  destruct (wr s) as [|i|i|i] eqn:Hw; simpl in Hok |- *.
  - rewrite <- (set_read_pos_same (shared s)) at 1.
    apply writer_keeps_pc; [done|apply Hs| |by rewrite Hw]. simpl. rewrite (si_wpos v s Hs). lia.
  - by apply WScan_keeps.
  - by apply WOwn_keeps.
  - apply writer_keeps_pc; [done|lia|done|]. rewrite Hw. done.
Qed.

Lemma owners_insert l k r r' j :
  l !! k = Some r ->
  owners j (<[k := r']> l) = owners j l - Z.b2z (owns j r) + Z.b2z (owns j r').
Proof. apply zcount_insert. Qed.

(** A reader that neither takes nor returns a lock. *)
Lemma reader_keeps_pc v s k r r' :
  shm_inv v s -> rds s !! k = Some r ->
  reader_ok v (block_num_ (shared s)) (length (rds s)) r' ->
  (forall j, owns j r' = owns j r) -> reader_keeps v s k (Ret (shared s, r')).
Proof.
  intros Hs Hk Hr' Hown. apply returns_ret. simpl. rewrite <- (set_read_pos_same (shared s)).
  apply shm_inv_pc; [done|apply Hs|apply Hs|by rewrite length_insert|..].
  - apply Forall_insert; [apply Hs|done].
  - intros j. split; [|done]. rewrite (owners_insert _ _ _ _ _ Hk), Hown. lia.
Qed.

(** A reader that changes the lock word of block [i] by what it adds to the
    owners of [i]. *)
Lemma reader_keeps_lock v s k i l r r' :
  shm_inv v s -> rds s !! k = Some r -> 0 <= i < block_num_ (shared s) ->
  locks_ (shared s) !! Z.to_nat i = Some l ->
  reader_ok v (block_num_ (shared s)) (length (rds s)) r' ->
  (forall j, j <> i -> owns j r' = owns j r) ->
  let l' := l + Z.b2z (owns i r') - Z.b2z (owns i r) in
  reader_keeps v s k
    (Ret (set_locks (shared s) (<[Z.to_nat i := l']> (locks_ (shared s))), r')).
Proof.
  intros Hs Hk Hi Hl Hr' Hown l'. apply returns_ret. simpl.
  apply shm_inv_lock; [done|done|apply Hs|by rewrite length_insert|..].
  - apply Forall_insert; [apply Hs|done].
  - intros j Hj. split; [|done]. rewrite (owners_insert _ _ _ _ _ Hk), Hown by done. lia.
  - rewrite (owners_insert _ _ _ _ _ Hk). pose proof (si_slack v s Hs i Hi) as Hsl.
    unfold slack in Hsl. rewrite Hl in Hsl. simpl in Hsl. lia.
Qed.

Lemma RCas_keeps v s k i n spur :
  shm_inv v s -> rds s !! k = Some (RCas i n) ->
  reader_keeps v s k (LockForRead_step v (shared s) (RCas i n) spur).
Proof.
  intros Hs Hk. pose proof (Forall_lookup_1 _ _ _ _ (si_readers v s Hs) Hk) as (Hi & Hn).
  destruct (lock_word v s i Hs Hi) as (l & Hlook & Hg & Hl & Hb).
  pose proof (si_num v s Hs). pose proof (si_locks v s Hs). pose proof (si_few v s Hs).
  unfold LockForRead_step, lock_cas, lock_store. rewrite int_op_in, Hg by lia. simpl.
  destruct ((l =? n) && negb spur) eqn:E.
  - apply andb_true_iff in E as [->%Z.eqb_eq _]. rewrite vset_in_range by lia. simpl.
    replace (n + 1) with (n + Z.b2z (owns i (ROwn i)) - Z.b2z (owns i (RCas i n)))
      by (simpl; rewrite Z.eqb_refl; simpl; lia).
    apply reader_keeps_lock; try done. intros j Hj. simpl. by apply Z.eqb_neq.
  - simpl. by eapply reader_keeps_pc.
Qed.

Lemma ROwn_keeps v s k i :
  shm_inv v s -> rds s !! k = Some (ROwn i) ->
  reader_keeps v s k (st' ← ReleaseReadLock (shared s) i; Ret (st', RIdle)).
Proof.
  intros Hs Hk. pose proof (Forall_lookup_1 _ _ _ _ (si_readers v s Hs) Hk) as Hi.
  simpl in Hi. destruct (lock_word v s i Hs Hi) as (l & Hlook & Hg & Hl & Hb).
  pose proof (si_num v s Hs). pose proof (si_locks v s Hs). pose proof (si_few v s Hs).
  unfold ReleaseReadLock, lock_add, lock_store. rewrite Hg. simpl.
  rewrite to_int_small by lia. rewrite vset_in_range by lia. simpl.
  replace (l + -1) with (l + Z.b2z (owns i RIdle) - Z.b2z (owns i (ROwn i)))
    by (simpl; rewrite Z.eqb_refl; simpl; lia).
  apply reader_keeps_lock; try done. intros j Hj. simpl. symmetry. by apply Z.eqb_neq.
Qed.

Lemma reader_step_keeps v s k r spur :
  shm_inv v s -> rds s !! k = Some r ->
  reader_keeps v s k (reader_step v (shared s) r spur).
Proof.
  intros Hs Hk. pose proof (Forall_lookup_1 _ _ _ _ (si_readers v s Hs) Hk) as Hr.
  pose proof (si_rpos v s Hs). destruct r as [| |i|i n|i|]; simpl reader_step.
  - by eapply reader_keeps_pc.
  - unfold LockForRead_step. destruct (Z.ltb_spec (read_pos_ (shared s)) 0).
    + eapply reader_keeps_pc; [done|done|..]; by destruct (on_unpublished v).
    + eapply reader_keeps_pc; [done|done| |done]. simpl. lia.
  - simpl in Hr. destruct (lock_word v s i Hs Hr) as (l & _ & Hg & Hl & Hb).
    unfold LockForRead_step. rewrite Hg. simpl. destruct (index_test i);
      (eapply reader_keeps_pc; [done|done| |done]); simpl; [done|].
    split; [done|lia].
  - by apply RCas_keeps.
  - by apply ROwn_keeps.
  - by eapply reader_keeps_pc.
Qed.

Lemma shm_inv_step v s s' : shm_inv v s -> shm_step v s s' -> shm_inv v s'.
Proof.
  intros Hs Hst. destruct Hst as [s spur st' w' Hw|s k r spur st' r' Hk Hr].
  - destruct (writer_step_keeps v s spur Hs) as (x & Hx & Hinv). rewrite Hw in Hx.
    by injection Hx as <-.
  - destruct (reader_step_keeps v s k r spur Hs Hk) as (x & Hx & Hinv). rewrite Hr in Hx.
    by injection Hx as <-.
Qed.

Lemma shm_inv_run v s s' : shm_inv v s -> rtc (shm_step v) s s' -> shm_inv v s'.
Proof. apply rtc_preserves, shm_inv_step. Qed.

(** ** Releasing by an addition keeps the lock words exact *)

(** The lock word counts the readers, less one while the block is written. *)
Definition counted (s : shm) : Prop :=
  forall i, 0 <= i < block_num_ (shared s) -> slack s i = held (wr s) i.

Lemma counted_lock s i l' w' rds' :
  counted s -> 0 <= i < zlen (locks_ (shared s)) ->
  (forall j, 0 <= j -> j <> i -> owners j rds' = owners j (rds s) /\ held w' j = held (wr s) j) ->
  owners i rds' - l' = held w' i ->
  counted {| shared := set_locks (shared s) (<[Z.to_nat i := l']> (locks_ (shared s)));
               wr := w'; rds := rds' |}.
Proof.
  intros He Hi Hother Hsl j Hj. simpl in *. unfold slack. simpl.
  destruct (decide (j = i)) as [->|Hne].
  - rewrite list_lookup_insert_eq; [done|]. unfold zlen in Hi. lia.
  - rewrite list_lookup_insert_ne by lia. destruct (Hother j ltac:(lia) Hne) as [-> ->].
    apply (He j Hj).
Qed.

Lemma counted_pc s w' rds' rp :
  counted s -> (forall j, owners j rds' = owners j (rds s) /\ held w' j = held (wr s) j) ->
  counted {| shared := set_read_pos (shared s) rp; wr := w'; rds := rds' |}.
Proof.
  intros He Hsame j Hj. unfold slack. simpl in *. destruct (Hsame j) as [-> ->]. apply (He j Hj).
Qed.

Lemma counted_writer v s spur st' w' :
  on_release v = AddOne -> shm_inv v s -> counted s -> writer_step v (shared s) (wr s) spur = Ret (st', w') ->
  counted {| shared := st'; wr := w'; rds := rds s |}.
Proof.
  intros Hv Hs He. pose proof (si_writer v s Hs) as Hok. pose proof (si_locks v s Hs) as Hlen.
  pose proof (si_num v s Hs). destruct (wr s) as [|i|i|i] eqn:Hw; simpl in Hok |- *.
  - intros [= <- <-]. rewrite <- (set_read_pos_same (shared s)). apply counted_pc; [done|].
    by rewrite Hw.
  - destruct (lock_word v s i Hs Hok) as (l & Hlook & Hg & Hl & Hb).
    pose proof (He i Hok) as Hsl. rewrite Hw in Hsl. simpl in Hsl.
    unfold LockForWrite_step, lock_cas, lock_store. rewrite Hg. simpl.
    destruct ((l =? kRWLockFree) && negb spur) eqn:E.
    + apply andb_true_iff in E as [->%Z.eqb_eq _]. rewrite vset_in_range by lia. simpl.
      intros [= <- <-]. apply counted_lock; [done|lia|..]; simpl; rewrite ?Z.eqb_refl;
        unfold kRWLockFree, kWriteExclusive in *; simpl; try lia.
      intros j _ Hj. rewrite Hw. simpl. rewrite (proj2 (Z.eqb_neq i j)); done.
    + simpl. rewrite (next_block v s i Hs Hok). intros [= <- <-].
      rewrite <- (set_read_pos_same (shared s)). apply counted_pc; [done|]. by rewrite Hw.
  - destruct (lock_word v s i Hs Hok) as (l & Hlook & Hg & Hl & Hb).
    pose proof (He i Hok) as Hsl. rewrite Hw in Hsl. simpl in Hsl. rewrite Z.eqb_refl in Hsl. simpl in Hsl.
    unfold ReleaseWriteLock_unlock, lock_add, lock_store. rewrite Hv, Hg. simpl.
    rewrite to_int_small by lia. rewrite vset_in_range by lia. intros [= <- <-].
    apply counted_lock; [done|lia| |simpl; lia].
    intros j _ Hj. rewrite Hw. simpl. rewrite (proj2 (Z.eqb_neq i j)); done.
  - intros [= <- <-]. apply counted_pc; [done|]. by rewrite Hw.
Qed.

Lemma owner_counts l k i : l !! k = Some (ROwn i) -> 0 < owners i l.
Proof. intros H. apply (zcount_lookup _ _ k (ROwn i)); [done|]. simpl. apply Z.eqb_refl. Qed.

Lemma counted_reader v s k r spur st' r' :
  shm_inv v s -> counted s -> rds s !! k = Some r ->
  reader_step v (shared s) r spur = Ret (st', r') ->
  counted {| shared := st'; wr := wr s; rds := <[k := r']> (rds s) |}.
Proof.
  intros Hs He Hk. pose proof (Forall_lookup_1 _ _ _ _ (si_readers v s Hs) Hk) as Hr.
  pose proof (si_locks v s Hs) as Hlen. pose proof (si_num v s Hs). pose proof (si_few v s Hs).
  assert (forall r1, (forall j, owns j r1 = owns j r) ->
    counted {| shared := shared s; wr := wr s; rds := <[k := r1]> (rds s) |}) as Hpc.
  { intros r1 H1. rewrite <- (set_read_pos_same (shared s)). apply counted_pc; [done|].
    intros j. split; [|done]. rewrite (owners_insert _ _ _ _ _ Hk), H1. lia. }
  destruct r as [| |i|i n|i|]; simpl reader_step; try (intros [= <- <-]; by apply Hpc).
  - unfold LockForRead_step. destruct (read_pos_ (shared s) <? 0); intros [= <- <-];
      apply Hpc; [by destruct (on_unpublished v)|done].
  - unfold LockForRead_step. simpl. destruct (vget (locks_ (shared s)) i) as [n| | |]; simpl; try done.
    destruct (index_test i); intros [= <- <-]; by apply Hpc.
  - destruct Hr as (Hi & Hn).
    destruct (lock_word v s i Hs Hi) as (l & Hlook & Hg & Hl & Hb). pose proof (He i Hi) as Hsl.
    unfold LockForRead_step, lock_cas, lock_store. rewrite int_op_in, Hg by lia. simpl.
    destruct ((l =? n) && negb spur) eqn:E; [|intros [= <- <-]; by apply Hpc].
    apply andb_true_iff in E as [->%Z.eqb_eq _]. rewrite vset_in_range by lia. intros [= <- <-].
    pose proof (held_bounds (wr s) i).
    apply counted_lock; [done|lia|..]; rewrite ?(owners_insert _ _ _ _ _ Hk); simpl;
      rewrite ?Z.eqb_refl; simpl; try lia.
    intros j _ Hj. rewrite (owners_insert _ _ _ _ _ Hk). simpl.
    rewrite (proj2 (Z.eqb_neq i j)) by done. simpl. split; [lia|done].
  - simpl in Hr. destruct (lock_word v s i Hs Hr) as (l & Hlook & Hg & Hl & Hb).
    pose proof (He i Hr) as Hsl. pose proof (owner_counts _ _ _ Hk).
    pose proof (held_bounds (wr s) i). unfold ReleaseReadLock, lock_add, lock_store.
    rewrite Hg. simpl. rewrite to_int_small by lia. rewrite vset_in_range by lia.
    intros [= <- <-].
    apply counted_lock; [done|lia|..]; rewrite ?(owners_insert _ _ _ _ _ Hk); simpl;
      rewrite ?Z.eqb_refl; simpl; try lia.
    intros j _ Hj. rewrite (owners_insert _ _ _ _ _ Hk). simpl.
    rewrite (proj2 (Z.eqb_neq i j)) by done. simpl. split; [lia|done].
Qed.

Lemma counted_run v s s' :
  on_release v = AddOne -> shm_inv v s -> counted s -> rtc (shm_step v) s s' ->
  counted s'.
Proof.
  intros Hv Hs He Hr. revert Hs He. induction Hr as [|s t u Hst Hr IH]; [done|].
  intros Hs He. apply IH; [by eapply shm_inv_step|].
  destruct Hst; [by eapply counted_writer|by eapply counted_reader].
Qed.

Lemma counted_init bn bs n : 0 < bn <= ENTRY_NUM_MAX -> counted (shm_init bn bs n).
Proof.
  intros Hbn i Hi. unfold slack. rewrite owners_init.
  change (locks_ (shared (shm_init bn bs n))) with (replicate (Z.to_nat ENTRY_NUM_MAX) 0).
  destruct (replicate _ 0 !! Z.to_nat i) as [x|] eqn:Hx; simpl; [|done].
  by apply lookup_replicate in Hx as [-> _].
Qed.

(** ** The calls without interference *)

Definition lock_at (st : State) (i : Z) : Z := default 0 (locks_ st !! Z.to_nat i).

(** The constants and bounds of a state that the constructor made. *)
Record state_ok (st : State) : Prop := {
  so_num : 0 < block_num_ st <= ENTRY_NUM_MAX;
  so_wpos : 0 <= write_pos_ st < block_num_ st;
  so_locks : zlen (locks_ st) = ENTRY_NUM_MAX;
}.

Lemma lock_at_get st i : state_ok st -> 0 <= i < block_num_ st -> vget (locks_ st) i = Ret (lock_at st i).
Proof.
  intros [Hn Hw Hl] Hi. destruct (vget_in_range (locks_ st) i) as [l Hg]; [lia|].
  rewrite Hg. apply vget_Ret in Hg as [_ Hg]. unfold lock_at. by rewrite Hg.
Qed.

(** A busy block is passed over. *)
Lemma LockForWrite_busy st i spur :
  state_ok st -> 0 <= i < block_num_ st -> lock_at st i <> 0 ->
  LockForWrite_step st i spur = Ret (st, WScan ((i + 1) mod block_num_ st)).
Proof.
  intros Hst Hi Hb. unfold LockForWrite_step, lock_cas. rewrite lock_at_get by done. simpl.
  rewrite (proj2 (Z.eqb_neq _ kRWLockFree) Hb). simpl. destruct Hst as [Hn Hw Hl].
  unfold ENTRY_NUM_MAX in *. rewrite int_op_in by (unfold int_min, int_max; lia). simpl.
  by rewrite int_rem_ring by lia.
Qed.

Lemma LockForWrite_from_first st k i fuel :
  state_ok st -> 0 <= i < block_num_ st ->
  (forall m : nat, (m < k)%nat -> lock_at st ((i + Z.of_nat m) mod block_num_ st) <> 0) ->
  lock_at st ((i + Z.of_nat k) mod block_num_ st) = 0 -> (k < fuel)%nat ->
  let j := (i + Z.of_nat k) mod block_num_ st in
  LockForWrite_from fuel (fun _ => false) st i =
  Ret (set_locks st (<[Z.to_nat j := kWriteExclusive]> (locks_ st)), j).
Proof.
  intros Hst. revert i fuel. induction k as [|k IH]; intros i fuel Hi Hbusy Hfree Hf j;
    (destruct fuel as [|fuel]; [lia|]); simpl.
  - unfold j in *. rewrite Z.add_0_r, Z.mod_small in * by lia.
    unfold LockForWrite_step, lock_cas, lock_store. rewrite lock_at_get, Hfree by done. simpl.
    destruct Hst. rewrite vset_in_range by lia. done.
  - specialize (Hbusy 0%nat ltac:(lia)) as H0. rewrite Z.add_0_r, Z.mod_small in H0 by lia.
    rewrite LockForWrite_busy by done. simpl.
    assert (forall m : nat, ((i + 1) mod block_num_ st + Z.of_nat m) mod block_num_ st =
                            (i + Z.of_nat (S m)) mod block_num_ st) as Hshift.
    { intros m. rewrite Zplus_mod_idemp_l. f_equal. lia. }
    rewrite IH; rewrite ?Hshift; try done; [apply Z.mod_pos_bound; lia| |lia].
    intros m Hm. rewrite Hshift. apply Hbusy. lia.
Qed.

Lemma LockForWrite_from_spins st i fuel spur :
  state_ok st -> 0 <= i < block_num_ st ->
  (forall j, 0 <= j < block_num_ st -> lock_at st j <> 0) ->
  LockForWrite_from fuel spur st i = NoFuel.
Proof.
  intros Hst Hi Hbusy. revert i Hi. induction fuel as [|fuel IH]; intros i Hi; [done|]. simpl.
  rewrite LockForWrite_busy by auto. simpl. apply IH. apply Z.mod_pos_bound. lia.
Qed.

(** A producer that runs alone: lock a block, write it, publish it. *)
Fixpoint publish_alone (v : variant) (n : nat) (st : State) : outcome State :=
  match n with
  | O => Ret st
  | S n =>
      x ← LockForWrite 1 (fun _ => false) st;
      st' ← ReleaseWriteLock v x.1 x.2;
      publish_alone v n st'
  end.

Lemma set_lock_back st i l :
  locks_ st !! i = Some l -> set_locks st (<[i := l]> (<[i := kWriteExclusive]> (locks_ st))) = st.
Proof.
  intros H. rewrite list_insert_insert_eq, list_insert_id by done. by destruct st.
Qed.

(** Releasing a block that was free before it was locked for writing leaves
    the lock words as they were, and publishes the block. *)
Lemma ReleaseWriteLock_locked v st j :
  zlen (locks_ st) = ENTRY_NUM_MAX -> 0 <= j < ENTRY_NUM_MAX -> lock_at st j = 0 ->
  ReleaseWriteLock v (set_locks st (<[Z.to_nat j := kWriteExclusive]> (locks_ st))) j =
  Ret (set_read_pos st j).
Proof.
  intros Hl Hj H0. destruct (vget_in_range (locks_ st) j) as [l [_ Hlook]%vget_Ret]; [lia|].
  unfold lock_at in H0. rewrite Hlook in H0. simpl in H0. subst l.
  set (st1 := set_locks _ _).
  assert (zlen (locks_ st1) = ENTRY_NUM_MAX) as Hl1 by (unfold st1; simpl; by rewrite zlen_insert).
  unfold ReleaseWriteLock, ReleaseWriteLock_unlock, lock_add, lock_store.
  assert (vget (locks_ st1) j = Ret kWriteExclusive) as Hg.
  { apply vget_Ret. split; [lia|]. apply list_lookup_insert_eq. by eapply lookup_lt_Some. }
  destruct (on_release v); rewrite ?Hg; simpl; (rewrite vset_in_range by (simpl in *; lia));
    simpl; unfold set_locks at 1; simpl; f_equal; f_equal; apply (set_lock_back st _ 0 Hlook).
Qed.

Lemma publish_once v st :
  state_ok st -> lock_at st (write_pos_ st) = 0 ->
  (x ← LockForWrite 1 (fun _ => false) st; ReleaseWriteLock v x.1 x.2) =
  Ret (set_read_pos st (write_pos_ st)).
Proof.
  intros Hst H0. pose proof Hst as [Hn Hw Hl]. unfold LockForWrite.
  rewrite (LockForWrite_from_first st 0) by (rewrite ?Z.add_0_r, ?Z.mod_small; done || lia).
  simpl. rewrite Z.add_0_r, Z.mod_small by lia.
  apply ReleaseWriteLock_locked; [done|lia|done].
Qed.

(** If some block is free, [block_num] attempts without spurious failure lock
    one of the blocks. *)
Lemma LockForWrite_some st j :
  state_ok st -> 0 <= j < block_num_ st -> lock_at st j = 0 ->
  exists i, 0 <= i < block_num_ st /\ lock_at st i = 0 /\
    LockForWrite (Z.to_nat (block_num_ st)) (fun _ => false) st =
    Ret (set_locks st (<[Z.to_nat i := kWriteExclusive]> (locks_ st)), i).
Proof.
  intros Hst Hj H0. pose proof Hst as [Hn Hw Hl].
  pose proof (Z.mod_pos_bound (j - write_pos_ st) (block_num_ st) ltac:(lia)) as Hb.
  destruct (least_nat
    (fun m => lock_at st ((write_pos_ st + Z.of_nat m) mod block_num_ st) = 0)
    (Z.to_nat ((j - write_pos_ st) mod block_num_ st))) as (k & Hk & Hfree & Hbusy).
  { rewrite Z2Nat.id, Zplus_mod_idemp_r by lia.
    replace (write_pos_ st + (j - write_pos_ st)) with j by lia. by rewrite (Z.mod_small j). }
  exists ((write_pos_ st + Z.of_nat k) mod block_num_ st).
  split; [apply Z.mod_pos_bound; lia|]. split; [done|].
  apply LockForWrite_from_first; try done. lia.
Qed.

Lemma publish_alone_spec v n st :
  state_ok st -> lock_at st (write_pos_ st) = 0 ->
  publish_alone v (S n) st = Ret (set_read_pos st (write_pos_ st)).
Proof.
  intros Hst H0. revert st Hst H0. induction n as [|n IH]; intros st Hst H0.
  - pose proof (publish_once v st Hst H0) as Hp. simpl.
    destruct (LockForWrite 1 _ st) as [x| | |]; simpl in *; try done. by rewrite Hp.
  - pose proof (publish_once v st Hst H0) as Hp. cbn [publish_alone].
    destruct (LockForWrite 1 _ st) as [x| | |]; simpl in Hp; try done.
    bind_ret. rewrite Hp. bind_ret.
    apply (IH (set_read_pos st (write_pos_ st))); [|done]. by destruct Hst; split.
Qed.

(** ** Schedules that can be run *)

Inductive move :=
  | MoveWriter (spurious : bool)
  | MoveReader (k : nat) (spurious : bool).

Fixpoint run_moves (v : variant) (ms : list move) (s : shm) : outcome shm :=
  match ms with
  | [] => Ret s
  | MoveWriter b :: ms =>
      x ← writer_step v (shared s) (wr s) b;
      run_moves v ms {| shared := x.1; wr := x.2; rds := rds s |}
  | MoveReader k b :: ms =>
      match rds s !! k with
      | None => Undef BadPointer
      | Some r =>
          x ← reader_step v (shared s) r b;
          run_moves v ms {| shared := x.1; wr := wr s; rds := <[k := x.2]> (rds s) |}
      end
  end.

Lemma run_moves_sound v ms s s' : run_moves v ms s = Ret s' -> rtc (shm_step v) s s'.
Proof.
  revert s. induction ms as [|[b|k b] ms IH]; intros s; cbn [run_moves].
  - by intros [= ->].
  - destruct (writer_step _ _ _ _) as [[st w]| | |] eqn:E; try done. intros H.
    eapply rtc_l; [by apply (by_writer v s b)|]. by apply IH.
  - destruct (rds s !! k) as [r|] eqn:Hk; [|done].
    destruct (reader_step _ _ _ _) as [[st r']| | |] eqn:E; try done. intros H.
    eapply rtc_l; [by apply (by_reader v s k r b)|]. by apply IH.
Qed.

(** ** Claims *)

(** C17: in every copy of [State], with up to 64 blocks and any schedule of one
    producer and its consumers, no access leaves the lock array, no arithmetic
    overflows, and every block handed out is one of the [block_num] blocks. *)
Theorem shm_no_fault v bn bs n s :
  0 < bn <= ENTRY_NUM_MAX -> Z.of_nat n < int_max - 2 ->
  rtc (shm_step v) (shm_init bn bs n) s ->
  (forall spur, exists x, writer_step v (shared s) (wr s) spur = Ret x) /\
  (forall k r spur, rds s !! k = Some r -> exists x, reader_step v (shared s) r spur = Ret x) /\
  (forall i, wr s = WOwn i -> 0 <= i < block_num_ (shared s)) /\
  (forall i, ROwn i ∈ rds s -> 0 <= i < block_num_ (shared s)).
Proof.
  intros Hbn Hn Hr. pose proof (shm_inv_run _ _ _ (shm_init_inv v bn bs n Hbn Hn) Hr) as Hs.
  split; [|split; [|split]].
  - intros spur. destruct (writer_step_keeps v s spur Hs) as (x & -> & _). eauto.
  - intros k r spur Hk. destruct (reader_step_keeps v s k r spur Hs Hk) as (x & -> & _). eauto.
  - intros i Hw. pose proof (si_writer v s Hs) as Hok. by rewrite Hw in Hok.
  - intros i Hi. by apply (proj1 (Forall_forall _ _) (si_readers v s Hs) (ROwn i)).
Qed.

(** [LockForRead] compares the block index with [kRWLockFree] where it means
    the lock word.  So a reader can lock the block that the producer is writing,
    in every copy; and where the producer releases by a store, the lock word of
    that block is then -1 for good although nobody holds it. *)
Theorem shm_reader_locks_written_block v bn bs :
  v ∈ State_copies ->
  (exists s, rtc (shm_step v) (shm_init bn bs 1) s /\ wr s = WOwn 0 /\ rds s = [ROwn 0]) /\
  (on_release v = StoreFree ->
   exists s, rtc (shm_step v) (shm_init bn bs 1) s /\ wr s = WIdle /\ rds s = [RIdle] /\
     lock_at (shared s) 0 = kWriteExclusive).
Proof.
  set (w := MoveWriter false). set (r := MoveReader 0 false).
  intros Hv. split.
  - exists {| shared := set_locks (set_read_pos (make_State bn bs) 0)
                          (locks_ (make_State bn bs)); wr := WOwn 0; rds := [ROwn 0] |}.
    split; [|done]. apply (run_moves_sound v [w; w; w; w; w; w; r; r; r; r]).
    by each_copy Hv.
  - intros Hrel. exists {| shared := set_locks (set_read_pos (make_State bn bs) 0)
                          (-1 :: replicate 63 0); wr := WIdle; rds := [RIdle] |}.
    split; [|done]. apply (run_moves_sound v [w; w; w; w; w; w; r; r; r; r; w; w; r]).
    by each_copy Hv.
Qed.

Lemma shm_reader_locks_written_block_witness :
  exists s, rtc (shm_step pubsub3) (shm_init 8 4194304 1) s /\ wr s = WOwn 0 /\ rds s = [ROwn 0].
Proof.
  apply (shm_reader_locks_written_block pubsub3 8 4194304).
  in_list.
Defined.

(** C18: in shmblock2.cpp, whose producer releases a block by adding one, every
    lock word is the number of readers of its block, less one while the producer
    holds it, on every schedule.  So the producer begins to write only blocks
    that nobody reads, although a reader may come while it writes. *)
Theorem shmblock2_lock_counts bn bs n s :
  0 < bn <= ENTRY_NUM_MAX -> Z.of_nat n < int_max - 2 ->
  rtc (shm_step shmblock2) (shm_init bn bs n) s ->
  (forall i, 0 <= i < block_num_ (shared s) ->
     lock_at (shared s) i = owners i (rds s) - held (wr s) i) /\
  (forall i spur st', wr s = WScan i ->
     writer_step shmblock2 (shared s) (wr s) spur = Ret (st', WOwn i) -> owners i (rds s) = 0).
Proof.
  intros Hbn Hn Hr. pose proof (shm_init_inv shmblock2 bn bs n Hbn Hn) as Hi.
  pose proof (shm_inv_run _ _ _ Hi Hr) as Hs.
  pose proof (counted_run shmblock2 _ _ eq_refl Hi (counted_init bn bs n Hbn) Hr) as He. split.
  - intros i Hb. specialize (He i Hb). unfold slack in He. fold (lock_at (shared s) i) in He. lia.
  - intros i spur st' Hw. rewrite Hw. cbn [writer_step]. pose proof (si_writer _ s Hs) as Hok. rewrite Hw in Hok.
    destruct (lock_word _ s i Hs Hok) as (l & _ & Hg & Hl & _). specialize (He i Hok). rewrite Hw in He.
    unfold LockForWrite_step, lock_cas. rewrite Hg. bind_ret.
    destruct (Z.eqb_spec l kRWLockFree) as [->|_]; [unfold kRWLockFree in Hl; simpl in He; lia|].
    bind_ret. rewrite (next_block _ s i Hs Hok). by intros [= _ ?].
Qed.

(** A reader of block 0 has come while the producer writes it. *)
Lemma shmblock2_lock_counts_witness :
  exists s, rtc (shm_step shmblock2) (shm_init 8 4194304 1) s /\ wr s = WOwn 0 /\ rds s = [ROwn 0] /\
    lock_at (shared s) 0 = owners 0 (rds s) - held (wr s) 0.
Proof.
  set (w := MoveWriter false). set (r := MoveReader 0 false).
  assert (rtc (shm_step shmblock2) (shm_init 8 4194304 1)
    {| shared := set_locks (set_read_pos (make_State 8 4194304) 0) (locks_ (make_State 8 4194304));
       wr := WOwn 0; rds := [ROwn 0] |}) as Hr
    by (by apply (run_moves_sound shmblock2 [w; w; w; w; w; w; r; r; r; r])).
  eexists. split; [exact Hr|]. split; [done|]. split; [done|].
  refine (proj1 (shmblock2_lock_counts 8 4194304 1 _ _ _ Hr) 0 _);
    unfold ENTRY_NUM_MAX, int_max; simpl; lia.
Defined.

Lemma shm_no_fault_witness :
  exists s, rtc (shm_step pubsub3) (shm_init 8 4194304 1) s /\ wr s = WOwn 0 /\
    0 <= 0 < block_num_ (shared s).
Proof.
  assert (rtc (shm_step pubsub3) (shm_init 8 4194304 1)
    {| shared := set_locks (make_State 8 4194304) (-1 :: replicate 63 0);
       wr := WOwn 0; rds := [RIdle] |}) as Hr
    by (by apply (run_moves_sound pubsub3 [MoveWriter false; MoveWriter false])).
  eexists. split; [exact Hr|]. split; [done|].
  destruct (shm_no_fault pubsub3 8 4194304 1 _ ltac:(unfold ENTRY_NUM_MAX; lia)
    ltac:(unfold int_max; lia) Hr) as (_ & _ & Hw & _). by apply Hw.
Defined.

(** Without interference [LockForWrite] takes the first free block at or
    after [write_pos_], in cyclic order, within [block_num] attempts; if every
    block is held it never returns. *)
Theorem LockForWrite_first_free st k :
  state_ok st ->
  let block (m : nat) := (write_pos_ st + Z.of_nat m) mod block_num_ st in
  (forall m : nat, (m < k)%nat -> lock_at st (block m) <> 0) ->
  (lock_at st (block k) = 0 ->
   LockForWrite (S k) (fun _ => false) st =
   Ret (set_locks st (<[Z.to_nat (block k) := kWriteExclusive]> (locks_ st)), block k)) /\
  (block_num_ st <= Z.of_nat k -> forall fuel spur, LockForWrite fuel spur st = NoFuel).
Proof.
  intros Hst block Hbusy. pose proof Hst as [Hn Hw Hl]. split.
  - intros Hfree. apply LockForWrite_from_first; try done. lia.
  - intros Hk fuel spur. apply LockForWrite_from_spins; [done|done|]. intros j Hj.
    specialize (Hbusy (Z.to_nat ((j - write_pos_ st) mod block_num_ st))).
    pose proof (Z.mod_pos_bound (j - write_pos_ st) (block_num_ st) ltac:(lia)) as Hb.
    unfold block in Hbusy. rewrite Z2Nat.id in Hbusy by lia.
    rewrite Zplus_mod_idemp_r in Hbusy.
    replace (write_pos_ st + (j - write_pos_ st)) with j in Hbusy by lia.
    rewrite (Z.mod_small j) in Hbusy by lia. apply Hbusy. lia.
Qed.

(** Block 0 has a reader, block 1 is free. *)
Lemma LockForWrite_first_free_witness :
  let st := set_locks (make_State 4 10) (1 :: replicate 63 0) in
  LockForWrite 2 (fun _ => false) st =
  Ret (set_locks st (1 :: -1 :: replicate 62 0), 1).
Proof.
  intros st.
  assert (state_ok st) as Hst by (by split; unfold ENTRY_NUM_MAX; simpl).
  apply (LockForWrite_first_free st 1 Hst); [|done].
  intros m Hm. by assert (m = 0%nat) as -> by lia.
Defined.

(** Nothing ever advances [write_pos_], although its comment calls it the
    position that the producer will write next: a producer that nobody reads
    publishes the same block every time, whatever [block_num] is. *)
Theorem publish_alone_same_block v bn bs n :
  0 < bn <= ENTRY_NUM_MAX ->
  publish_alone v (S n) (make_State bn bs) = Ret (set_read_pos (make_State bn bs) 0).
Proof.
  intros Hbn. apply (publish_alone_spec v n (make_State bn bs)); [|done].
  split; simpl; [done|lia|done].
Qed.

Lemma publish_alone_same_block_witness :
  publish_alone pubsub3 3 (make_State 8 4194304) = Ret (set_read_pos (make_State 8 4194304) 0).
Proof. apply (publish_alone_same_block pubsub3 8 4194304 2). unfold ENTRY_NUM_MAX. lia. Defined.

Lemma LockForRead_from_unpublished v st fuel spur :
  read_pos_ st < 0 -> on_unpublished v = KeepReading ->
  LockForRead_from v fuel spur st RPos = NoFuel.
Proof.
  intros Hr Hv. induction fuel as [|fuel IH]; [done|]. simpl.
  destruct (Z.ltb_spec (read_pos_ st) 0); [|lia]. simpl. by rewrite Hv.
Qed.

(** A published block is locked for reading whatever its lock word is. *)
Lemma LockForRead_gets v st :
  state_ok st -> 0 <= read_pos_ st < block_num_ st ->
  int_min <= lock_at st (read_pos_ st) + 1 <= int_max ->
  LockForRead v 4 (fun _ => false) st =
  Ret (set_locks st (<[Z.to_nat (read_pos_ st) := lock_at st (read_pos_ st) + 1]> (locks_ st)),
       read_pos_ st).
Proof.
  intros Hst Hpos Hb. set (i := read_pos_ st) in *. destruct (Hst) as [Hn Hw Hl].
  unfold LockForRead. simpl. fold i. destruct (Z.ltb_spec i 0); [lia|]. simpl.
  rewrite lock_at_get by (done || lia). simpl. unfold index_test, kRWLockFree.
  destruct (Z.ltb_spec i 0); [lia|]. simpl. rewrite int_op_in by lia. simpl.
  unfold lock_cas, lock_store. rewrite lock_at_get by (done || lia). simpl.
  rewrite Z.eqb_refl. simpl. by rewrite vset_in_range by lia.
Qed.

(** Giving a read lock back undoes taking it. *)
Lemma ReleaseReadLock_back st i :
  state_ok st -> 0 <= i < block_num_ st -> int_min <= lock_at st i <= int_max ->
  ReleaseReadLock (set_locks st (<[Z.to_nat i := lock_at st i + 1]> (locks_ st))) i = Ret st.
Proof.
  intros Hst Hi Hb. pose proof (lock_at_get st i Hst Hi) as [_ Hlook]%vget_Ret.
  destruct Hst as [Hn Hw Hl]. unfold ReleaseReadLock, lock_add, lock_store. simpl.
  assert (vget (<[Z.to_nat i := lock_at st i + 1]> (locks_ st)) i = Ret (lock_at st i + 1)) as ->.
  { apply vget_Ret. split; [lia|]. apply list_lookup_insert_eq. by eapply lookup_lt_Some. }
  simpl. replace (lock_at st i + 1 + -1) with (lock_at st i) by lia. rewrite to_int_small by lia.
  rewrite vset_in_range by (rewrite zlen_insert; lia). simpl. unfold set_locks at 1. simpl.
  rewrite list_insert_insert_eq, list_insert_id by done. by destruct st.
Qed.

(** Without interference [LockForRead] takes the published block and counts
    itself in its lock word, whatever that word is; before anything is
    published it returns -1 in the publish/subscribe programs, and spins in the
    shmblock programs. *)
Theorem LockForRead_published v st :
  v ∈ State_copies -> state_ok st -> read_pos_ st < block_num_ st ->
  (0 <= read_pos_ st -> lock_at st (read_pos_ st) + 1 <= int_max ->
   int_min <= lock_at st (read_pos_ st) + 1 ->
   LockForRead v 4 (fun _ => false) st =
   Ret (set_locks st (<[Z.to_nat (read_pos_ st) := lock_at st (read_pos_ st) + 1]> (locks_ st)),
        read_pos_ st)) /\
  (read_pos_ st < 0 ->
   match on_unpublished v with
   | GiveUp => LockForRead v 2 (fun _ => false) st = Ret (st, -1)
   | KeepReading => forall fuel spur, LockForRead v fuel spur st = NoFuel
   end).
Proof.
  intros Hv Hst Hrp. split.
  - intros Hpos Hmax Hmin. by apply LockForRead_gets.
  - intros Hneg. destruct (on_unpublished v) eqn:Hu.
    + intros fuel spur. by apply LockForRead_from_unpublished.
    + unfold LockForRead. simpl. destruct (Z.ltb_spec (read_pos_ st) 0); [|lia]. by rewrite Hu.
Qed.

(** A reader of a block that is being written gets it. *)
Lemma LockForRead_published_witness :
  let st := set_locks (set_read_pos (make_State 4 10) 0) (-1 :: replicate 63 0) in
  LockForRead pubsub3 4 (fun _ => false) st = Ret (set_read_pos (make_State 4 10) 0, 0).
Proof.
  intros st. assert (state_ok st) as Hst by (by split; unfold ENTRY_NUM_MAX; simpl).
  apply (LockForRead_published pubsub3 st); try done.
  in_list.
Defined.
