(* ===== verification/ShmBlock.v ===== *)
(** * Blocks in named shared memory

    [class ShmBlock] in two families.  The first creates the segment with
    [O_EXCL], checks the geometry when it opens an existing one and counts
    references:
    - src/c/20181104_dilu_spmc_atomic/shmblock2.cpp, shmblock3.cpp, shmblock4.cpp,
    - src/c++/20221213-pubsub-shm-udp/shm.hpp.
    The second creates or overwrites, does not check and does not count:
    - src/c++/20221215-pubsub-shm-udp-2/shm.hpp,
    - src/c++/20230108-pubsub-shm-udp-3/shm.hpp.

    The operating system is a table of names and a table of segments; whether a
    system call fails is an argument of the operation that makes it.  What is
    used of the documented behaviour: [shm_open] with [O_EXCL] fails with EEXIST
    exactly when the name exists, a new segment is empty and reads as zeros once
    it is extended, [mmap] of length 0 fails, a segment whose name is unlinked
    stays usable through the mappings it has. *)

From stdpp Require Import base list numbers strings gmap relations.
From Stdlib Require Import ZArith Lia.
From S2P Require Import Prelude ShmState.

Open Scope Z_scope.

(** ** The operating system *)

(** The header of a segment, and its length in bytes. *)
Record segment := {
  seg_len : Z;
  seg_state : State;
}.

(** All bytes zero. *)
Definition zero_State : State :=
  {| block_num_ := 0; block_size_ := 0; write_pos_ := 0; read_pos_ := 0; refcount_ := 0;
     locks_ := replicate (Z.to_nat ENTRY_NUM_MAX) 0 |}.

Record os := {
  names : gmap string nat;
  segments : list segment;
}.

(** Which system calls of one operation succeed. *)
Record calls := {
  shm_open_ok : bool;
  ftruncate_ok : bool;
  fstat_ok : bool;
  mmap_ok : bool;
}.

Definition all_ok : calls :=
  {| shm_open_ok := true; ftruncate_ok := true; fstat_ok := true; mmap_ok := true |}.

Definition shm_unlink (o : os) (name : string) : os :=
  {| names := delete name (names o); segments := segments o |}.

(** A new, empty segment. *)
Definition shm_create (o : os) (name : string) : os * nat :=
  ({| names := <[name := length (segments o)]> (names o);
      segments := segments o ++ [{| seg_len := 0; seg_state := zero_State |}] |},
   length (segments o)).

Definition set_segment (o : os) (id : nat) (s : segment) : os :=
  {| names := names o; segments := <[id := s]> (segments o) |}.

Definition ftruncate (o : os) (id : nat) (len : Z) : os :=
  match segments o !! id with
  | Some s => set_segment o id {| seg_len := len; seg_state := seg_state s |}
  | None => o
  end.

Definition seg_length (o : os) (id : nat) : Z :=
  match segments o !! id with Some s => seg_len s | None => 0 end.

(** ** The object *)

Inductive mapping :=
  | Unmapped
  | MapFailed
  | Mapped (id : nat).

(** A pointer into the blocks of a segment, or an offset from NULL. *)
Record pointer := {
  base : option nat;
  offset : Z;
}.

Record ShmBlock := {
  shm_name_ : string;
  sb_block_num_ : Z;
  sb_block_size_ : Z;
  cap_ : Z;
  managed_shm_ : mapping;
  state_ : option nat;
  buffer_ : option nat;
}.

(** The constructor: [block_num * block_size] is an [int] product, the sum with
    [sizeof(State)] a [size_t] that is stored in an [int]. *)
Definition make_ShmBlock (sizeof_State : Z) (name : string) (block_num block_size : Z)
    : outcome ShmBlock :=
  bytes ← int_op (block_num * block_size);
  Ret {| shm_name_ := name; sb_block_num_ := block_num; sb_block_size_ := block_size;
         cap_ := to_int (szadd sizeof_State (bytes mod size_max));
         managed_shm_ := Unmapped; state_ := None; buffer_ := None |}.

Definition set_mapping (b : ShmBlock) (m : mapping) : ShmBlock :=
  {| shm_name_ := shm_name_ b; sb_block_num_ := sb_block_num_ b;
     sb_block_size_ := sb_block_size_ b; cap_ := cap_ b;
     managed_shm_ := m; state_ := state_ b; buffer_ := buffer_ b |}.

Definition set_state (b : ShmBlock) (id : nat) : ShmBlock :=
  {| shm_name_ := shm_name_ b; sb_block_num_ := sb_block_num_ b;
     sb_block_size_ := sb_block_size_ b; cap_ := cap_ b;
     managed_shm_ := managed_shm_ b; state_ := Some id; buffer_ := buffer_ b |}.

Definition set_buffer (b : ShmBlock) (id : nat) : ShmBlock :=
  {| shm_name_ := shm_name_ b; sb_block_num_ := sb_block_num_ b;
     sb_block_size_ := sb_block_size_ b; cap_ := cap_ b;
     managed_shm_ := managed_shm_ b; state_ := state_ b; buffer_ := Some id |}.

(** [*state_]: the mapping must be there. *)
Definition get_state (o : os) (b : ShmBlock) : outcome State :=
  match state_ b with
  | None => Undef NullDeref
  | Some id =>
      match managed_shm_ b, segments o !! id with
      | Mapped id', Some s => if decide (id = id') then Ret (seg_state s) else Undef BadPointer
      | _, _ => Undef BadPointer
      end
  end.

Definition put_state (o : os) (b : ShmBlock) (st : State) : os :=
  match state_ b with
  | None => o
  | Some id =>
      match segments o !! id with
      | Some s => set_segment o id {| seg_len := seg_len s; seg_state := st |}
      | None => o
      end
  end.

Definition is_null (m : mapping) : bool := match m with Unmapped => true | _ => false end.

(** [buffer_ + i * block_size_]. *)
Definition block_pointer (b : ShmBlock) (i : Z) : outcome pointer :=
  off ← int_op (i * sb_block_size_ b);
  Ret {| base := buffer_ b; offset := off |}.

(** The distance of [buf] from [buffer_] divided by [block_size_], as an [int]. *)
Definition block_index (b : ShmBlock) (p : pointer) : outcome Z :=
  if decide (base p = buffer_ b) then
    if sb_block_size_ b =? 0 then Undef DivByZero
    else Ret (to_int (Z.quot (offset p) (sb_block_size_ b)))
  else Undef BadPointer.

Definition ReleaseWrittenBlock (v : variant) (o : os) (b : ShmBlock) (buf : pointer)
    : outcome os :=
  i ← block_index b buf;
  st ← get_state o b;
  st' ← ReleaseWriteLock v st i;
  Ret (put_state o b st').

Definition ReleaseReadBlock (o : os) (b : ShmBlock) (buf : pointer) : outcome os :=
  i ← block_index b buf;
  st ← get_state o b;
  st' ← ReleaseReadLock st i;
  Ret (put_state o b st').

(** ** First family: exclusive creation, geometry check, reference count *)

Module Counted.

Definition OpenOnly (c : calls) (o : os) (b : ShmBlock) : os * ShmBlock * bool :=
  if negb (is_null (managed_shm_ b)) then (o, b, true)
  else
    match (if shm_open_ok c then names o !! shm_name_ b else None) with
    | None => (o, b, false)
    | Some id =>
        if negb (fstat_ok c) then (o, b, false)
        else if negb (mmap_ok c && (0 <? seg_length o id)) then (o, set_mapping b MapFailed, false)
        else
          let b' := set_state (set_mapping b (Mapped id)) id in
          match segments o !! id with
          | None => (o, b', false)
          | Some s =>
              if negb (CheckValid (seg_state s) (sb_block_size_ b) (sb_block_num_ b))
              then (o, b', false)
              else (put_state o b' (IncreaseRefCount (seg_state s)), set_buffer b' id, true)
          end
    end.

Definition OpenOrCreate (c : calls) (o : os) (b : ShmBlock) : os * ShmBlock * bool :=
  if negb (is_null (managed_shm_ b)) then (o, b, true)
  else if negb (shm_open_ok c) then (o, b, false)
  else
    match names o !! shm_name_ b with
    | Some _ => OpenOnly c o b
    | None =>
        let '(o1, id) := shm_create o (shm_name_ b) in
        if negb (ftruncate_ok c && (0 <=? cap_ b)) then (o1, b, false)
        else
          let o2 := ftruncate o1 id (cap_ b) in
          if negb (mmap_ok c && (0 <? cap_ b))
          then (shm_unlink o2 (shm_name_ b), set_mapping b MapFailed, false)
          else
            let b' := set_state (set_mapping b (Mapped id)) id in
            let st := make_State (sb_block_num_ b) (sb_block_size_ b) in
            (put_state o2 b' (IncreaseRefCount st), set_buffer b' id, true)
    end.

(** The destructor. *)
Definition destroy (o : os) (b : ShmBlock) : outcome os :=
  st ← get_state o b;
  let '(st', rc) := DecreaseRefCount st in
  let o' := put_state o b st' in
  Ret (if rc =? 1 then shm_unlink o' (shm_name_ b) else o').

(** [None] is the NULL that the caller gets when the segment cannot be had. *)
Definition AcquireBlockToWrite (fuel : nat) (spur : nat -> bool) (c : calls) (o : os) (b : ShmBlock)
    : outcome (os * ShmBlock * option pointer) :=
  let '(o1, b1, ok) := if is_null (managed_shm_ b) then OpenOrCreate c o b else (o, b, true) in
  if negb ok then Ret (o1, b1, None)
  else
    st ← get_state o1 b1;
    x ← LockForWrite fuel spur st;
    p ← block_pointer b1 x.2;
    Ret (put_state o1 b1 x.1, b1, Some p).

(** [asserts]: whether the copy asserts that the index is not negative. *)
Definition AcquireBlockToRead (v : variant) (asserts : bool) (fuel : nat) (spur : nat -> bool)
    (c : calls) (o : os) (b : ShmBlock) : outcome (os * ShmBlock * option pointer) :=
  let '(o1, b1, ok) := if is_null (managed_shm_ b) then OpenOnly c o b else (o, b, true) in
  if negb ok then Ret (o1, b1, None)
  else
    st ← get_state o1 b1;
    x ← LockForRead v fuel spur st;
    if asserts && (x.2 <? 0) then Undef AssertFailed
    else
      p ← block_pointer b1 x.2;
      Ret (put_state o1 b1 x.1, b1, Some p).

End Counted.

(** ** Second family: create or overwrite *)

Module Overwriting.

Definition Create (c : calls) (o : os) (b : ShmBlock) : os * ShmBlock * bool :=
  if negb (is_null (managed_shm_ b)) then (o, b, true)
  else if negb (shm_open_ok c) then (o, b, false)
  else
    let '(o1, id) := match names o !! shm_name_ b with
                     | Some id => (o, id)
                     | None => shm_create o (shm_name_ b)
                     end in
    if negb (ftruncate_ok c && (0 <=? cap_ b)) then (o1, b, false)
    else
      let o2 := ftruncate o1 id (cap_ b) in
      if negb (mmap_ok c && (0 <? cap_ b))
      then (shm_unlink o2 (shm_name_ b), set_mapping b MapFailed, false)
      else
        let b' := set_state (set_mapping b (Mapped id)) id in
        let st := make_State (sb_block_num_ b) (sb_block_size_ b) in
        (put_state o2 b' st, set_buffer b' id, true).

Definition Open (c : calls) (o : os) (b : ShmBlock) : os * ShmBlock * bool :=
  if negb (is_null (managed_shm_ b)) then (o, b, true)
  else
    match (if shm_open_ok c then names o !! shm_name_ b else None) with
    | None => (o, b, false)
    | Some id =>
        if negb (fstat_ok c) then (o, b, false)
        else if negb (mmap_ok c && (0 <? seg_length o id)) then (o, set_mapping b Unmapped, false)
        else (o, set_buffer (set_state (set_mapping b (Mapped id)) id) id, true)
    end.

Definition Stop (b : ShmBlock) : ShmBlock :=
  if negb (is_null (managed_shm_ b)) then set_mapping b Unmapped else b.

(** The destructors of the two copies. *)
Definition destroy2 (o : os) (b : ShmBlock) : os := shm_unlink o (shm_name_ b).

Definition destroy3 (o : os) (b : ShmBlock) : os :=
  if negb (is_null (managed_shm_ b)) then shm_unlink o (shm_name_ b) else o.

Definition acquire_write (fuel : nat) (spur : nat -> bool) (c : calls) (o : os) (b : ShmBlock)
    : outcome (os * ShmBlock * option pointer) :=
  let '(o1, b1, ok) := if is_null (managed_shm_ b) then Create c o b else (o, b, true) in
  if negb ok then Ret (o1, b1, None)
  else
    st ← get_state o1 b1;
    x ← LockForWrite fuel spur st;
    p ← block_pointer b1 x.2;
    Ret (put_state o1 b1 x.1, b1, Some p).

Definition acquire_read (v : variant) (fuel : nat) (spur : nat -> bool) (c : calls) (o : os) (b : ShmBlock)
    : outcome (os * ShmBlock * option pointer) :=
  let '(o1, b1, ok) := if is_null (managed_shm_ b) then Open c o b else (o, b, true) in
  if negb ok then Ret (o1, b1, None)
  else
    st ← get_state o1 b1;
    x ← LockForRead v fuel spur st;
    if x.2 <? 0 then Undef AssertFailed
    else
      p ← block_pointer b1 x.2;
      Ret (put_state o1 b1 x.1, b1, Some p).

End Overwriting.

(** ** The copies *)

Definition sizeof_State_packed : Z := 276.
Definition sizeof_State_aligned : Z := 448.

(** The class as a table of its operations. *)
Record block_ops := {
  bo_state : variant;
  bo_make : string -> Z -> Z -> outcome ShmBlock;
  bo_open_write : calls -> os -> ShmBlock -> os * ShmBlock * bool;
  bo_open_read : calls -> os -> ShmBlock -> os * ShmBlock * bool;
  bo_acquire_write : nat -> (nat -> bool) -> calls -> os -> ShmBlock ->
    outcome (os * ShmBlock * option pointer);
  bo_acquire_read : nat -> (nat -> bool) -> calls -> os -> ShmBlock ->
    outcome (os * ShmBlock * option pointer);
  bo_destroy : os -> ShmBlock -> outcome os;
}.

Definition shmblock2_cpp : block_ops :=
  {| bo_state := shmblock2; bo_make := make_ShmBlock sizeof_State_packed;
     bo_open_write := Counted.OpenOrCreate; bo_open_read := Counted.OpenOnly;
     bo_acquire_write := Counted.AcquireBlockToWrite;
     bo_acquire_read := Counted.AcquireBlockToRead shmblock2 false;
     bo_destroy := Counted.destroy |}.

Definition shmblock3_cpp : block_ops :=
  {| bo_state := shmblock3; bo_make := make_ShmBlock sizeof_State_packed;
     bo_open_write := Counted.OpenOrCreate; bo_open_read := Counted.OpenOnly;
     bo_acquire_write := Counted.AcquireBlockToWrite;
     bo_acquire_read := Counted.AcquireBlockToRead shmblock3 false;
     bo_destroy := Counted.destroy |}.

Definition shmblock4_cpp : block_ops :=
  {| bo_state := shmblock4; bo_make := make_ShmBlock sizeof_State_aligned;
     bo_open_write := Counted.OpenOrCreate; bo_open_read := Counted.OpenOnly;
     bo_acquire_write := Counted.AcquireBlockToWrite;
     bo_acquire_read := Counted.AcquireBlockToRead shmblock4 false;
     bo_destroy := Counted.destroy |}.

Definition pubsub1_hpp : block_ops :=
  {| bo_state := pubsub1; bo_make := make_ShmBlock sizeof_State_aligned;
     bo_open_write := Counted.OpenOrCreate; bo_open_read := Counted.OpenOnly;
     bo_acquire_write := Counted.AcquireBlockToWrite;
     bo_acquire_read := Counted.AcquireBlockToRead pubsub1 true;
     bo_destroy := Counted.destroy |}.

Definition pubsub2_hpp : block_ops :=
  {| bo_state := pubsub2; bo_make := make_ShmBlock sizeof_State_packed;
     bo_open_write := Overwriting.Create; bo_open_read := Overwriting.Open;
     bo_acquire_write := Overwriting.acquire_write;
     bo_acquire_read := Overwriting.acquire_read pubsub2;
     bo_destroy := fun o b => Ret (Overwriting.destroy2 o b) |}.

Definition pubsub3_hpp : block_ops :=
  {| bo_state := pubsub3; bo_make := make_ShmBlock sizeof_State_packed;
     bo_open_write := Overwriting.Create; bo_open_read := Overwriting.Open;
     bo_acquire_write := Overwriting.acquire_write;
     bo_acquire_read := Overwriting.acquire_read pubsub3;
     bo_destroy := fun o b => Ret (Overwriting.destroy3 o b) |}.

Definition counted_copies : list block_ops :=
  [shmblock2_cpp; shmblock3_cpp; shmblock4_cpp; pubsub1_hpp].

Definition overwriting_copies : list block_ops := [pubsub2_hpp; pubsub3_hpp].

(** ** An object that has its segment *)

Record opened (o : os) (b : ShmBlock) (id : nat) (st : State) : Prop := {
  op_mapping : managed_shm_ b = Mapped id;
  op_state : state_ b = Some id;
  op_buffer : buffer_ b = Some id;
  op_segment : exists len, segments o !! id = Some {| seg_len := len; seg_state := st |};
  op_ok : state_ok st;
  op_num : block_num_ st = sb_block_num_ b;
  op_size : 0 < sb_block_size_ b;
  op_bytes : sb_block_num_ b * sb_block_size_ b <= int_max;
}.

Lemma opened_get o b id st : opened o b id st -> get_state o b = Ret st.
Proof.
  intros [Hm Hs Hb [len Hseg] Hok Hn Hsz Hby]. unfold get_state. rewrite Hs, Hm, Hseg. simpl.
  by rewrite decide_True.
Qed.

(** Writing the header back keeps the object opened. *)
Lemma opened_put o b id st st' :
  opened o b id st -> state_ok st' -> block_num_ st' = block_num_ st ->
  opened (put_state o b st') b id st'.
Proof.
  intros [Hm Hs Hb [len Hseg] Hok Hn Hsz Hby] Hok' Hn'.
  split; try done; [|congruence]. exists len. unfold put_state. rewrite Hs, Hseg. simpl.
  rewrite list_lookup_insert_eq; [done|]. by eapply lookup_lt_Some.
Qed.

Lemma put_put o b id st st1 st2 :
  opened o b id st -> put_state (put_state o b st1) b st2 = put_state o b st2.
Proof.
  intros [Hm Hs Hb [len Hseg] _ _ _ _]. unfold put_state. rewrite Hs, Hseg. simpl.
  rewrite list_lookup_insert_eq by (by eapply lookup_lt_Some). unfold set_segment. simpl.
  by rewrite list_insert_insert_eq.
Qed.

Lemma put_same o b id st : opened o b id st -> put_state o b st = o.
Proof.
  intros [Hm Hs Hb [len Hseg] _ _ _ _]. unfold put_state. rewrite Hs, Hseg. simpl.
  unfold set_segment. rewrite list_insert_id by done. by destruct o.
Qed.

(** Turning a block index into a pointer and back. *)
Lemma block_pointer_index o b id st i :
  opened o b id st -> 0 <= i < block_num_ st ->
  block_pointer b i = Ret {| base := Some id; offset := i * sb_block_size_ b |} /\
  block_index b {| base := Some id; offset := i * sb_block_size_ b |} = Ret i /\
  0 <= i * sb_block_size_ b /\
  i * sb_block_size_ b + sb_block_size_ b <= sb_block_num_ b * sb_block_size_ b.
Proof.
  intros Ho Hi. destruct Ho as [Hm Hs Hb _ Hok Hn Hsz Hby]. rewrite Hn in Hi.
  pose proof (so_num st Hok) as Hnum. unfold ENTRY_NUM_MAX in Hnum.
  assert (i * sb_block_size_ b + sb_block_size_ b <= sb_block_num_ b * sb_block_size_ b) by nia.
  assert (0 <= i * sb_block_size_ b) by nia.
  unfold block_pointer, block_index. simpl.
  rewrite int_op_in by (unfold int_min in *; lia). simpl. rewrite Hb.
  split; [done|]. split; [|done]. rewrite decide_True by done.
  destruct (Z.eqb_spec (sb_block_size_ b) 0); [lia|]. rewrite Z.quot_mul by lia.
  rewrite to_int_small; [done|]. unfold int_min, int_max. lia.
Qed.

(** The acquire operations of an object that has its segment. *)
Lemma acquire_write_opened ops o b id st fuel spur c :
  ops ∈ counted_copies ++ overwriting_copies -> opened o b id st ->
  bo_acquire_write ops fuel spur c o b =
  (x ← LockForWrite fuel spur st; p ← block_pointer b x.2; Ret (put_state o b x.1, b, Some p)).
Proof.
  intros Hops Ho. pose proof (opened_get _ _ _ _ Ho) as Hg. pose proof (op_mapping _ _ _ _ Ho) as Hm.
  assert (bo_acquire_write ops = Counted.AcquireBlockToWrite \/
          bo_acquire_write ops = Overwriting.acquire_write) as [-> | ->]
    by (each_copy Hops; auto).
  - unfold Counted.AcquireBlockToWrite. rewrite Hm. simpl. by rewrite Hg.
  - unfold Overwriting.acquire_write. rewrite Hm. simpl. by rewrite Hg.
Qed.

Lemma acquire_read_opened ops o b id st fuel spur c :
  ops ∈ counted_copies ++ overwriting_copies -> opened o b id st ->
  exists asserts,
  bo_acquire_read ops fuel spur c o b =
  (x ← LockForRead (bo_state ops) fuel spur st;
   if asserts && (x.2 <? 0) then Undef AssertFailed
   else p ← block_pointer b x.2; Ret (put_state o b x.1, b, Some p)).
Proof.
  intros Hops Ho. pose proof (opened_get _ _ _ _ Ho) as Hg. pose proof (op_mapping _ _ _ _ Ho) as Hm.
  each_copy Hops; simpl; unfold Counted.AcquireBlockToRead, Overwriting.acquire_read;
    rewrite Hm; simpl; rewrite Hg; simpl;
    first [by exists true | by exists false].
Qed.

Lemma copies_State ops :
  ops ∈ counted_copies ++ overwriting_copies -> bo_state ops ∈ State_copies.
Proof. intros Hops. each_copy Hops; simpl; in_list. Qed.

Lemma state_ok_locks st i l :
  state_ok st -> state_ok (set_locks st (<[i := l]> (locks_ st))).
Proof. intros [Hn Hw Hl]. split; simpl; [done..|]. by rewrite zlen_insert. Qed.

(** ** Writing and reading a block *)

Lemma write_block ops o b id st j c :
  ops ∈ counted_copies ++ overwriting_copies -> opened o b id st ->
  0 <= j < block_num_ st -> lock_at st j = 0 ->
  exists i p o1,
    bo_acquire_write ops (Z.to_nat (block_num_ st)) (fun _ => false) c o b = Ret (o1, b, Some p) /\
    lock_at st i = 0 /\ p = {| base := Some id; offset := i * sb_block_size_ b |} /\
    0 <= offset p /\ offset p + sb_block_size_ b <= sb_block_num_ b * sb_block_size_ b /\
    ReleaseWrittenBlock (bo_state ops) o1 b p = Ret (put_state o b (set_read_pos st i)).
Proof.
  intros Hops Ho Hj H0. pose proof (op_ok _ _ _ _ Ho) as Hok. pose proof (so_num _ Hok).
  destruct (LockForWrite_some st j Hok Hj H0) as (i & Hi & Hfree & HL).
  destruct (block_pointer_index _ _ _ _ i Ho Hi) as (Hp & Hidx & Hlo & Hhi).
  exists i, {| base := Some id; offset := i * sb_block_size_ b |}, (put_state o b
    (set_locks st (<[Z.to_nat i := kWriteExclusive]> (locks_ st)))).
  rewrite (acquire_write_opened _ _ _ _ _ _ _ _ Hops Ho), HL. simpl. rewrite Hp. simpl.
  repeat (split; [done|]). unfold ReleaseWrittenBlock. rewrite Hidx. simpl.
  rewrite (opened_get _ _ id _ (opened_put _ _ _ _ _ Ho (state_ok_locks _ _ _ Hok) eq_refl)). simpl.
  rewrite (ReleaseWriteLock_locked _ st) by (done || apply Hok || lia). simpl.
  by rewrite (put_put _ _ _ _ _ _ Ho).
Qed.

Lemma LockForRead_known v st :
  v ∈ State_copies -> state_ok st -> 0 <= read_pos_ st < block_num_ st ->
  int_min <= lock_at st (read_pos_ st) + 1 <= int_max ->
  LockForRead v 4 (fun _ => false) st =
  Ret (set_locks st (<[Z.to_nat (read_pos_ st) := lock_at st (read_pos_ st) + 1]> (locks_ st)),
       read_pos_ st).
Proof.
  intros Hv Hst Hrp Hb. by apply LockForRead_gets.
Qed.

Lemma read_block ops o b id st c :
  ops ∈ counted_copies ++ overwriting_copies -> opened o b id st ->
  0 <= read_pos_ st < block_num_ st ->
  int_min <= lock_at st (read_pos_ st) < int_max ->
  exists p o1,
    bo_acquire_read ops 4 (fun _ => false) c o b = Ret (o1, b, Some p) /\
    p = {| base := Some id; offset := read_pos_ st * sb_block_size_ b |} /\
    0 <= offset p /\ offset p + sb_block_size_ b <= sb_block_num_ b * sb_block_size_ b /\
    ReleaseReadBlock o1 b p = Ret o.
Proof.
  intros Hops Ho Hrp Hl. pose proof (op_ok _ _ _ _ Ho) as Hok. set (i := read_pos_ st) in *.
  destruct (block_pointer_index _ _ _ _ i Ho Hrp) as (Hp & Hidx & Hlo & Hhi).
  set (st1 := set_locks st (<[Z.to_nat i := lock_at st i + 1]> (locks_ st))).
  exists {| base := Some id; offset := i * sb_block_size_ b |}, (put_state o b st1).
  destruct (acquire_read_opened ops o b id st 4 (fun _ => false) c Hops Ho) as [asserts ->].
  rewrite LockForRead_known; [|by apply copies_State|done|done|fold i; lia]. fold i. simpl.
  rewrite (proj2 (Z.ltb_ge i 0)) by lia. rewrite andb_false_r, Hp. simpl.
  repeat (split; [done|]). unfold ReleaseReadBlock. rewrite Hidx. simpl.
  rewrite (opened_get _ _ id _ (opened_put _ _ _ _ st1 Ho (state_ok_locks _ _ _ Hok) eq_refl)). simpl.
  assert (ReleaseReadLock st1 i = Ret st) as -> by (apply ReleaseReadLock_back; done || lia). simpl.
  by rewrite (put_put _ _ _ _ _ _ Ho), (put_same _ _ _ _ Ho).
Qed.

(** C19: if a block is free, the producer gets a pointer to a whole block inside
    the segment's buffer; handing that pointer back unlocks and publishes this
    very block and changes nothing else. *)
Theorem write_block_roundtrip ops o b id st j c :
  ops ∈ counted_copies ++ overwriting_copies -> opened o b id st ->
  0 <= j < block_num_ st -> lock_at st j = 0 ->
  exists i p o1,
    bo_acquire_write ops (Z.to_nat (block_num_ st)) (fun _ => false) c o b = Ret (o1, b, Some p) /\
    lock_at st i = 0 /\ p = {| base := Some id; offset := i * sb_block_size_ b |} /\
    0 <= offset p /\ offset p + sb_block_size_ b <= sb_block_num_ b * sb_block_size_ b /\
    ReleaseWrittenBlock (bo_state ops) o1 b p = Ret (put_state o b (set_read_pos st i)).
Proof. apply write_block. Qed.

(** C20: when a block is published and nobody is writing it, a consumer gets a
    pointer to that whole block, and handing the pointer back restores the shared
    memory exactly. *)
Theorem read_block_roundtrip ops o b id st c :
  ops ∈ counted_copies ++ overwriting_copies -> opened o b id st ->
  0 <= read_pos_ st < block_num_ st ->
  0 <= lock_at st (read_pos_ st) < int_max ->
  exists p o1,
    bo_acquire_read ops 4 (fun _ => false) c o b = Ret (o1, b, Some p) /\
    p = {| base := Some id; offset := read_pos_ st * sb_block_size_ b |} /\
    0 <= offset p /\ offset p + sb_block_size_ b <= sb_block_num_ b * sb_block_size_ b /\
    ReleaseReadBlock o1 b p = Ret o.
Proof. intros H1 H2 H3 H4. apply read_block; [done..|unfold int_min; lia]. Qed.

(** ** Getting the segment *)

(** A geometry whose segment fits an [int]. *)
Record geometry (block_num block_size : Z) : Prop := {
  ge_num : 0 < block_num <= ENTRY_NUM_MAX;
  ge_size : 0 < block_size;
  ge_bytes : sizeof_State_aligned + block_num * block_size <= int_max;
}.

(** What the constructor makes. *)
Record constructed (name : string) (bn bs : Z) (b : ShmBlock) : Prop := {
  co_name : shm_name_ b = name;
  co_num : sb_block_num_ b = bn;
  co_size : sb_block_size_ b = bs;
  co_cap : bn * bs < cap_ b;
  co_null : managed_shm_ b = Unmapped;
  co_state : state_ b = None;
  co_buffer : buffer_ b = None;
}.

Lemma make_constructed ops name bn bs b :
  ops ∈ counted_copies ++ overwriting_copies -> geometry bn bs ->
  bo_make ops name bn bs = Ret b -> constructed name bn bs b.
Proof.
  intros Hops [Hn Hs Hb].
  assert (exists sz, bo_make ops = make_ShmBlock sz /\ 0 < sz <= sizeof_State_aligned) as (sz & -> & Hsz).
  { unfold sizeof_State_aligned. each_copy Hops; eexists; split; done || reflexivity. }
  unfold make_ShmBlock. assert (0 < bn * bs) by nia. unfold sizeof_State_aligned in *.
  rewrite int_op_in by (unfold int_min in *; lia). simpl. intros [= <-].
  split; simpl; try done. unfold szadd, size_max, int_max in *.
  rewrite (Z.mod_small (bn * bs)), Z.mod_small by lia.
  rewrite to_int_small by (unfold int_min, int_max; lia). lia.
Qed.

Lemma make_State_ok bn bs : 0 < bn <= ENTRY_NUM_MAX -> state_ok (make_State bn bs).
Proof. intros Hn. split; simpl; [done|lia|done]. Qed.

(** The header a fresh segment gets. *)
Definition fresh_state (bn bs : Z) (st : State) : Prop :=
  st = make_State bn bs \/ st = IncreaseRefCount (make_State bn bs).

Lemma fresh_state_ok bn bs st :
  0 < bn <= ENTRY_NUM_MAX -> fresh_state bn bs st ->
  state_ok st /\ block_num_ st = bn /\ block_size_ st = bs /\ read_pos_ st = -1 /\
  locks_ st = replicate (Z.to_nat ENTRY_NUM_MAX) 0.
Proof.
  intros Hn [-> | ->]; repeat (split; [by apply make_State_ok || done|]); try done.
  split; [|done]. by destruct (make_State_ok bn bs Hn).
Qed.

(** The segment that a creation leaves, and the object attached to it. *)
Definition created (o : os) (name : string) (len : Z) (st : State) : os :=
  {| names := <[name := length (segments o)]> (names o);
     segments := segments o ++ [{| seg_len := len; seg_state := st |}] |}.

Definition attached (o : os) (b : ShmBlock) : ShmBlock :=
  let id := length (segments o) in set_buffer (set_state (set_mapping b (Mapped id)) id) id.

Lemma put_created o name b len st :
  let id := length (segments o) in
  put_state (ftruncate (shm_create o name).1 id len) (set_state (set_mapping b (Mapped id)) id) st =
  created o name len st.
Proof.
  unfold put_state, ftruncate, set_segment, created. simpl.
  rewrite lookup_app_r, Nat.sub_diag by done. simpl.
  rewrite insert_app_r_alt, Nat.sub_diag by done. simpl.
  rewrite lookup_app_r, Nat.sub_diag by done. simpl.
  by rewrite insert_app_r_alt, Nat.sub_diag by done.
Qed.

Lemma create_counted name bn bs o b :
  geometry bn bs -> constructed name bn bs b -> names o !! name = None ->
  Counted.OpenOrCreate all_ok o b =
  (created o name (cap_ b) (IncreaseRefCount (make_State bn bs)), attached o b, true).
Proof.
  intros [Hn Hs Hb] [Hna Hnu Hsi Hca Hnull Hnost Hnobuf] Hnone. assert (0 < bn * bs) by nia.
  pose proof (put_created o name b (cap_ b)) as Hput. simpl in Hput.
  unfold Counted.OpenOrCreate. rewrite Hnull, Hna, Hnone. simpl.
  rewrite (proj2 (Z.leb_le 0 (cap_ b))), (proj2 (Z.ltb_lt 0 (cap_ b))) by lia. simpl.
  by rewrite Hput, Hnu, Hsi.
Qed.

Lemma create_overwriting name bn bs o b :
  geometry bn bs -> constructed name bn bs b -> names o !! name = None ->
  Overwriting.Create all_ok o b =
  (created o name (cap_ b) (make_State bn bs), attached o b, true).
Proof.
  intros [Hn Hs Hb] [Hna Hnu Hsi Hca Hnull Hnost Hnobuf] Hnone. assert (0 < bn * bs) by nia.
  pose proof (put_created o name b (cap_ b)) as Hput. simpl in Hput.
  unfold Overwriting.Create. rewrite Hnull, Hna, Hnone. simpl.
  rewrite (proj2 (Z.leb_le 0 (cap_ b))), (proj2 (Z.ltb_lt 0 (cap_ b))) by lia. simpl.
  by rewrite Hput, Hnu, Hsi.
Qed.

Lemma created_opened name bn bs o b st :
  geometry bn bs -> constructed name bn bs b -> fresh_state bn bs st ->
  opened (created o name (cap_ b) st) (attached o b) (length (segments o)) st.
Proof.
  intros [Hn Hs Hb] [Hna Hnu Hsi Hca Hnull Hnost Hnobuf] Hf. unfold sizeof_State_aligned in *.
  destruct (fresh_state_ok bn bs st Hn Hf) as (Hok & Hbn & Hbs & _).
  split; try done; simpl; [|congruence|lia|rewrite Hnu, Hsi; lia].
  exists (cap_ b). by rewrite lookup_app_r, Nat.sub_diag by done.
Qed.

Lemma open_write_fresh ops name bn bs o b :
  ops ∈ counted_copies ++ overwriting_copies -> geometry bn bs -> constructed name bn bs b ->
  names o !! name = None ->
  exists st, bo_open_write ops all_ok o b = (created o name (cap_ b) st, attached o b, true) /\
    fresh_state bn bs st.
Proof.
  intros Hops Hg Hc Hnone.
  assert (bo_open_write ops = Counted.OpenOrCreate \/ bo_open_write ops = Overwriting.Create)
    as [-> | ->] by (each_copy Hops; auto); eexists.
  - split; [by apply (create_counted name bn bs)|by right].
  - split; [by apply (create_overwriting name bn bs)|by left].
Qed.

Lemma open_read_existing ops name bn bs o b id len st :
  ops ∈ counted_copies ++ overwriting_copies -> geometry bn bs -> constructed name bn bs b ->
  names o !! name = Some id -> segments o !! id = Some {| seg_len := len; seg_state := st |} ->
  0 < len -> state_ok st -> block_num_ st = bn -> block_size_ st = bs ->
  exists o' b' st', bo_open_read ops all_ok o b = (o', b', true) /\ opened o' b' id st' /\
    (st' = st \/ st' = IncreaseRefCount st) /\ names o' = names o.
Proof.
  intros Hops [Hn Hs Hb] [Hna Hnu Hsi Hca Hnull Hnost Hnobuf] Hid Hseg Hlen Hok Hbn Hbs.
  unfold sizeof_State_aligned in *.
  assert (opened o (set_buffer (set_state (set_mapping b (Mapped id)) id) id) id st) as Hop.
  { split; simpl; try done; [by exists len|congruence|lia|rewrite Hnu, Hsi; lia]. }
  assert (bo_open_read ops = Counted.OpenOnly \/ bo_open_read ops = Overwriting.Open)
    as [-> | ->] by (each_copy Hops; auto).
  - unfold Counted.OpenOnly. rewrite Hnull, Hna. simpl. rewrite Hid. simpl.
    unfold seg_length. rewrite Hseg. simpl. rewrite (proj2 (Z.ltb_lt 0 len)) by lia. simpl.
    unfold CheckValid. rewrite Hbs, Hsi, Hbn, Hnu, !Z.eqb_refl. simpl.
    eexists _, _, (IncreaseRefCount st). split; [done|].
    pose proof (opened_put _ _ _ _ (IncreaseRefCount st) Hop ltac:(by destruct Hok) eq_refl) as Hp.
    unfold put_state in *. simpl in *. rewrite Hseg in *. by eauto.
  - unfold Overwriting.Open. rewrite Hnull, Hna. simpl. rewrite Hid. simpl.
    unfold seg_length. rewrite Hseg. simpl. rewrite (proj2 (Z.ltb_lt 0 len)) by lia. simpl.
    eexists _, _, st. eauto.
Qed.

(** C21: the first object of a name to be opened for writing creates the segment
    with a fresh header, nothing locked and nothing published; an object opened
    for reading afterwards is attached to the same segment. *)
Theorem producer_consumer_attach ops name bn bs o b c :
  ops ∈ counted_copies ++ overwriting_copies -> geometry bn bs ->
  names o !! name = None ->
  bo_make ops name bn bs = Ret b -> bo_make ops name bn bs = Ret c ->
  exists id o1 b1 st1 o2 c1 st2,
    bo_open_write ops all_ok o b = (o1, b1, true) /\ opened o1 b1 id st1 /\
    read_pos_ st1 = -1 /\ locks_ st1 = replicate (Z.to_nat ENTRY_NUM_MAX) 0 /\
    bo_open_read ops all_ok o1 c = (o2, c1, true) /\ opened o2 c1 id st2 /\
    locks_ st2 = locks_ st1 /\ read_pos_ st2 = read_pos_ st1 /\ get_state o2 b1 = Ret st2.
Proof.
  intros Hops Hg Hnone Hb Hc.
  pose proof (make_constructed _ _ _ _ _ Hops Hg Hb) as Hcb.
  pose proof (make_constructed _ _ _ _ _ Hops Hg Hc) as Hcc.
  destruct (open_write_fresh ops name bn bs o b Hops Hg Hcb Hnone)
    as (st1 & Hw & Hfresh).
  set (o1 := created o name (cap_ b) st1) in *. set (b1 := attached o b) in *.
  assert (opened o1 b1 (length (segments o)) st1) as Ho1 by (by apply (created_opened name bn bs)).
  pose proof (ge_num _ _ Hg) as Hn. pose proof (ge_size _ _ Hg).
  destruct (fresh_state_ok bn bs st1 Hn Hfresh) as (Hok & Hbn & Hbs & Hrp & Hlo).
  destruct (open_read_existing ops name bn bs o1 c (length (segments o)) (cap_ b) st1 Hops Hg Hcc)
    as (o2 & c1 & st2 & Hr & Ho2 & Hst & Hn2); try done.
  { apply lookup_insert_eq. }
  { simpl. by rewrite lookup_app_r, Nat.sub_diag. }
  { pose proof (co_cap _ _ _ _ Hcb). nia. }
  exists (length (segments o)), o1, b1, st1, o2, c1, st2. repeat (split; [done|]).
  split; [by destruct Hst as [-> | ->]|]. split; [by destruct Hst as [-> | ->]|].
  destruct Ho1 as [Hm1 Hs1 _ _ _ _ _ _]. destruct Ho2 as [_ _ _ [len2 Hseg2] _ _ _ _].
  unfold get_state. rewrite Hs1, Hm1, Hseg2. by rewrite decide_True.
Qed.

(** ** What the error paths leave behind *)

Definition mmap_fails : calls :=
  {| shm_open_ok := true; ftruncate_ok := true; fstat_ok := true; mmap_ok := false |}.

(** An object left with MAP_FAILED in [managed_shm_] and no state. *)
Lemma acquire_map_failed ops o b fuel spur c :
  ops ∈ counted_copies ++ overwriting_copies ->
  managed_shm_ b = MapFailed -> state_ b = None ->
  bo_acquire_write ops fuel spur c o b = Undef NullDeref /\
  bo_acquire_read ops fuel spur c o b = Undef NullDeref.
Proof.
  intros Hops Hm Hs. each_copy Hops; simpl;
    unfold Counted.AcquireBlockToWrite, Counted.AcquireBlockToRead,
           Overwriting.acquire_write, Overwriting.acquire_read, get_state;
    rewrite Hm; simpl; by rewrite Hs.
Qed.

(** When [mmap] fails while the segment is created, the operation reports
    the failure and removes the name again, but leaves MAP_FAILED in
    [managed_shm_], which is not NULL; the next attempt to write takes the
    object for mapped and dereferences the null [state_].  The copies that
    count references do the same when they open a segment for reading; the
    others reset the pointer there and can try again. *)
Theorem mmap_failure_poisons ops name bn bs o b :
  ops ∈ counted_copies ++ overwriting_copies -> geometry bn bs -> constructed name bn bs b ->
  (names o !! name = None ->
   exists o' b', bo_open_write ops mmap_fails o b = (o', b', false) /\ names o' = names o /\
     forall fuel spur c, bo_acquire_write ops fuel spur c o' b' = Undef NullDeref) /\
  (forall id, names o !! name = Some id ->
   (ops ∈ counted_copies ->
    exists b', bo_open_read ops mmap_fails o b = (o, b', false) /\
      forall fuel spur c, bo_acquire_read ops fuel spur c o b' = Undef NullDeref) /\
   (ops ∈ overwriting_copies -> bo_open_read ops mmap_fails o b = (o, b, false))).
Proof.
  intros Hops [Hn Hs Hb] [Hna Hnu Hsi Hca Hnull Hnost Hnobuf].
  unfold sizeof_State_aligned in *. assert (0 < bn * bs) by nia. split.
  - intros Hnone.
    assert (bo_open_write ops mmap_fails o b =
      (shm_unlink (ftruncate (shm_create o name).1 (length (segments o)) (cap_ b)) name,
       set_mapping b MapFailed, false)) as ->.
    { each_copy Hops; simpl; unfold Counted.OpenOrCreate, Overwriting.Create;
        rewrite Hnull, Hna, Hnone; simpl; by rewrite (proj2 (Z.leb_le 0 (cap_ b))) by lia. }
    eexists _, _. split; [done|]. split.
    + unfold ftruncate. simpl. rewrite lookup_app_r, Nat.sub_diag by done. simpl.
      by apply delete_insert_id.
    + intros. by apply acquire_map_failed.
  - intros id Hid. split.
    + intros Hc. exists (set_mapping b MapFailed). split.
      * each_copy Hc; simpl; unfold Counted.OpenOnly; rewrite Hnull, Hna; simpl; by rewrite Hid.
      * intros. by apply acquire_map_failed.
    + intros Hc. each_copy Hc; simpl; unfold Overwriting.Open; rewrite Hnull, Hna; simpl;
        rewrite Hid; simpl; unfold set_mapping; rewrite <- Hnull; by destruct b.
Qed.

(** An object whose geometry does not match the segment's is told so once.
    [OpenOnly] leaves it mapped but without a buffer, so the next attempt to
    read locks a block of the segment and returns an offset from NULL. *)
Theorem geometry_mismatch_poisons ops name bn bs o b id len st c :
  ops ∈ counted_copies -> geometry bn bs -> constructed name bn bs b ->
  names o !! name = Some id -> segments o !! id = Some {| seg_len := len; seg_state := st |} ->
  0 < len -> state_ok st -> CheckValid st bs bn = false ->
  0 <= read_pos_ st < block_num_ st -> 0 <= lock_at st (read_pos_ st) < int_max ->
  read_pos_ st * bs <= int_max ->
  exists b' o',
    bo_open_read ops all_ok o b = (o, b', false) /\
    bo_acquire_read ops 4 (fun _ => false) c o b' =
      Ret (o', b', Some {| base := None; offset := read_pos_ st * bs |}).
Proof.
  intros Hops [Hn Hs Hb] [Hna Hnu Hsi Hca Hnull Hnost Hnobuf] Hid Hseg Hlen Hok Hck Hrp Hl Hoff.
  set (b' := set_state (set_mapping b (Mapped id)) id). exists b'.
  assert (bo_open_read ops all_ok o b = (o, b', false)) as Hopen.
  { assert (bo_open_read ops = Counted.OpenOnly) as -> by (by each_copy Hops).
    unfold Counted.OpenOnly. rewrite Hnull, Hna. simpl. rewrite Hid. simpl.
    unfold seg_length. rewrite Hseg. simpl. rewrite (proj2 (Z.ltb_lt 0 len)) by lia. simpl.
    rewrite Hsi, Hnu, Hck. done. }
  assert (get_state o b' = Ret st) as Hget
    by (unfold get_state; simpl; rewrite Hseg; by rewrite decide_True).
  assert (block_pointer b' (read_pos_ st) = Ret {| base := None; offset := read_pos_ st * bs |}) as Hp.
  { unfold block_pointer. simpl. rewrite Hsi, Hnobuf.
    rewrite int_op_in; [done|]. unfold int_min. nia. }
  assert (bo_state ops ∈ State_copies) as Hv
    by (apply copies_State, elem_of_app; by left).
  pose proof (LockForRead_known _ st Hv Hok Hrp ltac:(unfold int_min; lia)) as HL.
  eexists. split; [done|].
  each_copy Hops; simpl in *; unfold Counted.AcquireBlockToRead; simpl; rewrite Hget; simpl;
    unfold shmblock2_cpp, shmblock3_cpp, shmblock4_cpp, pubsub1_hpp in HL; simpl in HL;
    rewrite HL; simpl; rewrite ?(proj2 (Z.ltb_ge _ 0)) by lia; simpl; rewrite Hp; reflexivity.
Qed.

(** Creating a segment whose name is in use does not fail in the copies
    without reference count: the header in use is reinitialised under its
    users, so locks that are held and the published position are lost. *)
Theorem create_resets_used_segment ops name bn bs o b id len st :
  ops ∈ overwriting_copies -> geometry bn bs -> constructed name bn bs b ->
  names o !! name = Some id -> segments o !! id = Some {| seg_len := len; seg_state := st |} ->
  exists o' b', bo_open_write ops all_ok o b = (o', b', true) /\ names o' = names o /\
    opened o' b' id (make_State bn bs).
Proof.
  intros Hops [Hn Hs Hb] [Hna Hnu Hsi Hca Hnull Hnost Hnobuf] Hid Hseg.
  unfold sizeof_State_aligned in *. assert (0 < bn * bs) by nia.
  assert (bo_open_write ops = Overwriting.Create) as -> by (by each_copy Hops).
  unfold Overwriting.Create. rewrite Hnull, Hna. simpl. rewrite Hid. simpl.
  rewrite (proj2 (Z.leb_le 0 (cap_ b))), (proj2 (Z.ltb_lt 0 (cap_ b))) by lia. simpl.
  unfold put_state, ftruncate. rewrite Hseg. simpl.
  rewrite list_lookup_insert_eq by (by eapply lookup_lt_Some). simpl.
  eexists _, _. split; [done|]. split; [done|]. split; simpl; try done.
  - exists (cap_ b). rewrite list_insert_insert_eq, Hnu, Hsi.
    apply list_lookup_insert_eq. by eapply lookup_lt_Some.
  - by apply make_State_ok.
  - lia.
  - rewrite Hnu, Hsi. lia.
Qed.

(** ** The reference count

    Processes open and destroy objects of one name and geometry at the same
    time: every access to the names and to the header is a step of its own.  An
    object is opened by [OpenOnly], which is also what [OpenOrCreate] calls when
    the name exists. *)

Inductive stage :=
  | SNew         (* constructed, in [OpenOnly] *)
  | SMapped      (* about to compare the geometry *)
  | SChecked     (* about to count itself *)
  | SOpen        (* opened; the next access is the one of the destructor *)
  | SUnlink      (* in the destructor, about to remove the name *)
  | SGone        (* destroyed *)
  | SFailed.     (* [OpenOnly] has returned false *)

Record user := { u_block : ShmBlock; u_stage : stage }.

(** The next access of an object to what it shares with the others. *)
Definition access (o : os) (u : user) : outcome (os * user) :=
  let b := u_block u in
  let now b g := {| u_block := b; u_stage := g |} in
  match u_stage u with
  | SNew =>
      Ret (o, match names o !! shm_name_ b with
              | None => now b SFailed
              | Some id => if 0 <? seg_length o id
                           then now (set_state (set_mapping b (Mapped id)) id) SMapped
                           else now (set_mapping b MapFailed) SFailed
              end)
  | SMapped =>
      st ← get_state o b;
      Ret (o, now b (if CheckValid st (sb_block_size_ b) (sb_block_num_ b) then SChecked else SFailed))
  | SChecked =>
      st ← get_state o b;
      Ret (put_state o b (IncreaseRefCount st),
           now (match state_ b with Some id => set_buffer b id | None => b end) SOpen)
  | SOpen =>
      st ← get_state o b;
      let '(st', rc) := DecreaseRefCount st in
      Ret (put_state o b st', now b (if rc =? 1 then SUnlink else SGone))
  | SUnlink => Ret (shm_unlink o (shm_name_ b), now b SGone)
  | SGone | SFailed => Ret (o, u)
  end.

Fixpoint accesses (n : nat) (o : os) (u : user) : outcome (os * user) :=
  match n with
  | O => Ret (o, u)
  | S n => x ← access o u; accesses n x.1 x.2
  end.

(** Without interference the accesses are those of [OpenOnly] and of the
    destructor. *)
Lemma accesses_OpenOnly o b :
  managed_shm_ b = Unmapped ->
  (forall id, names o !! shm_name_ b = Some id -> is_Some (segments o !! id)) ->
  exists u, accesses 3 o {| u_block := b; u_stage := SNew |} =
    Ret ((Counted.OpenOnly all_ok o b).1.1, u) /\
  u_block u = (Counted.OpenOnly all_ok o b).1.2 /\
  u_stage u = (if (Counted.OpenOnly all_ok o b).2 then SOpen else SFailed).
Proof.
  intros Hm Hseg. unfold Counted.OpenOnly. rewrite Hm. cbn [is_null negb shm_open_ok all_ok fstat_ok mmap_ok].
  cbn [accesses access u_stage u_block]. destruct (names o !! shm_name_ b) as [id|] eqn:Hid; [|by eexists].
  destruct (Hseg id eq_refl) as [[len st] Hs]. rewrite andb_true_l.
  destruct (0 <? seg_length o id) eqn:Hlen; bind_ret; cbn [negb]; [|by eexists]. rewrite Hs.
  cbn [accesses access u_stage u_block fst snd].
  assert (get_state o (set_state (set_mapping b (Mapped id)) id) = Ret st) as Hg
    by (unfold get_state; simpl; rewrite Hs; by rewrite decide_True).
  rewrite Hg. bind_ret. cbn [sb_block_size_ sb_block_num_ set_state set_mapping seg_state fst snd].
  destruct (CheckValid st (sb_block_size_ b) (sb_block_num_ b)); cbn [negb access u_stage u_block]; [|by eexists].
  rewrite Hg. bind_ret. by eexists.
Qed.

Lemma accesses_destroy o b o' :
  Counted.destroy o b = Ret o' ->
  accesses 2 o {| u_block := b; u_stage := SOpen |} = Ret (o', {| u_block := b; u_stage := SGone |}).
Proof.
  unfold Counted.destroy. intros H. apply bind_Ret in H as (st & Hg & H). cbn [accesses access u_stage u_block].
  rewrite Hg. bind_ret. cbn [fst snd]. destruct (DecreaseRefCount st) as [st' rc]. injection H as <-.
  destruct (rc =? 1); reflexivity.
Qed.

Section Users.
Context (name : string) (bn bs : Z) (Hgeo : geometry bn bs).

Inductive users_step : os * list user -> os * list user -> Prop :=
| users_new o us b :
    constructed name bn bs b -> Z.of_nat (length us) < int_max ->
    users_step (o, us) (o, us ++ [{| u_block := b; u_stage := SNew |}])
| users_access o us k u x :
    us !! k = Some u -> access o u = Ret x -> users_step (o, us) (x.1, <[k := x.2]> us).












End Users.


(** ** Concrete objects *)

(** The geometry that the publish/subscribe programs use. *)
Definition demo_block : ShmBlock :=
  {| shm_name_ := "topic"; sb_block_num_ := 8; sb_block_size_ := 4194304;
     cap_ := 33554708; managed_shm_ := Unmapped; state_ := None; buffer_ := None |}.

Definition demo_os (st : State) : os := created {| names := ∅; segments := [] |} "topic" 33554708 st.

Definition demo_attached : ShmBlock := attached {| names := ∅; segments := [] |} demo_block.

Lemma demo_geometry : geometry 8 4194304.
Proof. split; unfold ENTRY_NUM_MAX, sizeof_State_aligned, int_max; lia. Qed.

Lemma demo_constructed : constructed "topic" 8 4194304 demo_block.
Proof. split; simpl; done || lia. Qed.

Lemma demo_opened st :
  state_ok st -> block_num_ st = 8 -> opened (demo_os st) demo_attached 0 st.
Proof.
  intros Hok Hn. split; simpl; try done. by exists 33554708.
Qed.

Lemma write_block_roundtrip_witness :
  exists p o1,
    bo_acquire_write pubsub3_hpp 8 (fun _ => false) all_ok (demo_os (make_State 8 4194304))
      demo_attached = Ret (o1, demo_attached, Some p) /\ 0 <= offset p.
Proof.
  destruct (write_block_roundtrip pubsub3_hpp (demo_os (make_State 8 4194304)) demo_attached 0
    (make_State 8 4194304) 0 all_ok) as (i & p & o1 & Ha & _ & _ & Hp & _).
  - in_list.
  - apply demo_opened; [|done]. apply make_State_ok. unfold ENTRY_NUM_MAX. lia.
  - simpl. lia.
  - done.
  - exists p, o1. split; [exact Ha|done].
Defined.

Lemma read_block_roundtrip_witness :
  let st := set_read_pos (make_State 8 4194304) 3 in
  exists p o1,
    bo_acquire_read pubsub3_hpp 4 (fun _ => false) all_ok (demo_os st) demo_attached =
      Ret (o1, demo_attached, Some p) /\ offset p = 12582912 /\
    ReleaseReadBlock o1 demo_attached p = Ret (demo_os st).
Proof.
  intros st.
  destruct (read_block_roundtrip pubsub3_hpp (demo_os st) demo_attached 0 st all_ok)
    as (p & o1 & Ha & Hp & _ & _ & Hr).
  - in_list.
  - apply demo_opened; [|done]. by split; unfold ENTRY_NUM_MAX; simpl; try lia.
  - simpl. lia.
  - done.
  - exists p, o1. split; [exact Ha|]. split; [by rewrite Hp|done].
Defined.

Lemma producer_consumer_attach_witness :
  exists id o1 b1 o2 c1 st2,
    bo_open_write pubsub3_hpp all_ok {| names := ∅; segments := [] |} demo_block = (o1, b1, true) /\
    bo_open_read pubsub3_hpp all_ok o1 demo_block = (o2, c1, true) /\
    opened o2 c1 id st2 /\ get_state o2 b1 = Ret st2.
Proof.
  destruct (producer_consumer_attach pubsub3_hpp "topic" 8 4194304
    {| names := ∅; segments := [] |} demo_block demo_block)
    as (id & o1 & b1 & st1 & o2 & c1 & st2 & Hw & _ & _ & _ & Hr & Ho & _ & _ & Hg).
  - in_list.
  - apply demo_geometry.
  - done.
  - vm_compute. done.
  - vm_compute. done.
  - exists id, o1, b1, o2, c1, st2. done.
Defined.

Lemma mmap_failure_poisons_witness :
  exists o' b',
    bo_open_write pubsub3_hpp mmap_fails {| names := ∅; segments := [] |} demo_block = (o', b', false) /\
    bo_acquire_write pubsub3_hpp 8 (fun _ => false) all_ok o' b' = Undef NullDeref.
Proof.
  destruct (mmap_failure_poisons pubsub3_hpp "topic" 8 4194304 {| names := ∅; segments := [] |}
    demo_block ltac:(in_list) demo_geometry demo_constructed) as [Hw _].
  destruct (Hw eq_refl) as (o' & b' & H1 & _ & H2). exists o', b'. split; [done|]. apply H2.
Defined.

Lemma geometry_mismatch_poisons_witness :
  let st := set_read_pos (make_State 4 10) 2 in
  exists b' o',
    bo_open_read pubsub1_hpp all_ok (demo_os st) demo_block = (demo_os st, b', false) /\
    bo_acquire_read pubsub1_hpp 4 (fun _ => false) all_ok (demo_os st) b' =
      Ret (o', b', Some {| base := None; offset := 8388608 |}).
Proof.
  intros st.
  apply (geometry_mismatch_poisons pubsub1_hpp "topic" 8 4194304 (demo_os st) demo_block 0
    33554708 st all_ok ltac:(in_list) demo_geometry demo_constructed eq_refl eq_refl eq_refl);
    [by split|done|by split|by split|done].
Defined.

Lemma create_resets_used_segment_witness :
  let st := set_locks (set_read_pos (make_State 8 4194304) 0) (1 :: replicate 63 0) in
  exists o' b', bo_open_write pubsub3_hpp all_ok (demo_os st) demo_block = (o', b', true) /\
    opened o' b' 0 (make_State 8 4194304).
Proof.
  intros st.
  destruct (create_resets_used_segment pubsub3_hpp "topic" 8 4194304 (demo_os st) demo_block 0
    33554708 st ltac:(in_list) demo_geometry demo_constructed eq_refl eq_refl)
    as (o' & b' & H1 & _ & H2).
  by exists o', b'.
Defined.

Definition demo_count (n : Z) : os := demo_os (set_refcount (make_State 8 4194304) n).
Definition demo_user (g : stage) : user := {| u_block := demo_attached; u_stage := g |}.
Definition demo_new : user := {| u_block := demo_block; u_stage := SNew |}.




Fixpoint run_users (l : list nat) (x : os * list user) : outcome (os * list user) :=
  match l with
  | [] => Ret x
  | k :: l =>
      match x.2 !! k with
      | None => Undef BadPointer
      | Some u => y ← access x.1 u; run_users l (y.1, <[k := y.2]> x.2)
      end
  end.

Lemma run_users_sound name bn bs l x y : run_users l x = Ret y -> rtc (users_step name bn bs) x y.
Proof.
  revert x. induction l as [|k l IH]; intros [o us] H; cbn [run_users] in H; [by injection H as <-|].
  destruct ((o, us).2 !! k) as [u|] eqn:Hk; [|done]. apply bind_Ret in H as (z & Hz & H).
  eapply rtc_l; [by eapply users_access|by apply IH].
Qed.

(** Between the decrement and the removal of the name another process can find
    the name and count itself: its segment has lost its name although it is in
    use. *)
Theorem open_races_with_last_destroy :
  exists o u, rtc (users_step "topic" 8 4194304) (demo_count 1, [demo_user SOpen]) (o, [demo_user SGone; u]) /\
    u_stage u = SOpen /\ names o !! "topic" = None.
Proof.
  destruct (run_users [0; 1; 1; 1; 0]%nat (demo_count 1, [demo_user SOpen; demo_new])) as [[o us]| | |] eqn:E;
    try discriminate E.
  exists o, {| u_block := demo_attached; u_stage := SOpen |}.
  assert (us = [demo_user SGone; {| u_block := demo_attached; u_stage := SOpen |}] /\ names o !! "topic" = None)
    as [-> Hn] by (vm_compute in E; injection E as <- <-; by vm_compute).
  split; [|done]. eapply rtc_l; [by apply (users_new _ _ _ _ _ demo_block demo_constructed)|].
  eapply run_users_sound. exact E.
Qed.

(** An object whose open failed on another geometry lowers a count that it never
    raised, and the destructor of one that was never opened uses a null
    pointer. *)
Theorem destroy_without_open :
  (exists o' b b', make_ShmBlock sizeof_State_packed "topic" 4 10 = Ret b /\
     Counted.OpenOnly all_ok (demo_count 1) b = (demo_count 1, b', false) /\
     Counted.destroy (demo_count 1) b' = Ret o' /\ names o' !! "topic" = None) /\
  Counted.destroy (demo_count 1) demo_block = Undef NullDeref.
Proof.
  split; [|done]. do 3 eexists. split; [reflexivity|]. split; [vm_compute; reflexivity|].
  split; [vm_compute; reflexivity|]. by vm_compute.
Qed.
