(* ===== verification/Spmc.v ===== *)
(** * One producer, many consumers, on System V shared memory

    src/c/20181104_dilu_spmc_atomic: spmc7.c, spmc8.c, spmc9.c and spmc10.c
    guard every entry by an atomic word; spmc11.c, spmc12.c and shmblock.c guard
    it by a [pthread_rwlock_t].  spmc_test.c is the program that runs them: a
    producer stores the numbers below [count] and consumers read them.

    Every access to shared memory is a step of its thread, and the steps of the
    threads interleave.  The [int] that the producer stores is copied byte by
    byte: with entries of ten bytes it is not aligned.  [size] and [write_pos]
    are used by the producer only, so that their accesses belong to the step
    before them.  The interleaving is sequentially consistent.  This is what the
    full barriers of the [__sync] operations in spmc7.c and spmc8.c give; the
    relaxed operations of spmc9.c and spmc10.c promise less, and the theorems
    that depend on the order of accesses to different words are stated for the
    first two only.

    spmc_test.c forks and does not wait for [spmc_init] of the producer.  The
    section on starting has the stores of [spmc_init] one by one, and shows what
    an early consumer runs into; the theorems are about consumers that come when
    [spmc_init] has returned. *)

From stdpp Require Import base functions list numbers relations.
From Stdlib Require Import ZArith Lia.
From S2P Require Import Prelude.

Open Scope Z_scope.

Definition ENTRY_NUM_MAX : Z := 64.
Definition count : Z := 20000000.

(** [nconsumers] holds the atomic words, or the states of the read-write locks:
    the number of read locks, or -1 for a write lock. *)
Record spmc_t := {
  key : Z;
  size : Z;
  capacity : Z;
  buf_size : Z;
  write_pos : Z;
  read_pos : Z;
  nconsumers : list Z;
  buf : list Z;
}.

Definition set_nconsumers (s : spmc_t) (l : list Z) : spmc_t :=
  {| key := key s; size := size s; capacity := capacity s; buf_size := buf_size s;
     write_pos := write_pos s; read_pos := read_pos s; nconsumers := l; buf := buf s |}.

Definition set_buf (s : spmc_t) (l : list Z) : spmc_t :=
  {| key := key s; size := size s; capacity := capacity s; buf_size := buf_size s;
     write_pos := write_pos s; read_pos := read_pos s; nconsumers := nconsumers s; buf := l |}.

Definition set_read_pos (s : spmc_t) (i : Z) : spmc_t :=
  {| key := key s; size := size s; capacity := capacity s; buf_size := buf_size s;
     write_pos := write_pos s; read_pos := i; nconsumers := nconsumers s; buf := buf s |}.

Definition set_taken (s : spmc_t) (sz wp : Z) : spmc_t :=
  {| key := key s; size := sz; capacity := capacity s; buf_size := buf_size s;
     write_pos := wp; read_pos := read_pos s; nconsumers := nconsumers s; buf := buf s |}.

(** ** The points where the versions differ *)

Inductive lock_kind := Words | Rwlocks.
Inductive release_kind := ReleaseCas | ReleaseStore | ReleaseUnlock.
Inductive publish_kind := PublishCas | PublishStore.
Inductive end_kind := EndCas | EndSub | EndSubChecked | EndUnlock.

#[export] Instance publish_kind_eq_dec : EqDecision publish_kind.
Proof. solve_decision. Defined.

Record version := {
  locks : lock_kind;
  loads_first : bool;        (* the producer loads the word before it tries to set it *)
  on_release : release_kind; (* [producer_alloc_end], the entry *)
  on_publish : publish_kind; (* [producer_alloc_end], [read_pos] *)
  on_end : end_kind;         (* [consumer_alloc_end] *)
  resets_pos : bool;         (* [spmc_init] sets [write_pos] and [read_pos] *)
}.

Definition spmc7 : version :=
  {| locks := Words; loads_first := true; on_release := ReleaseCas; on_publish := PublishCas;
     on_end := EndCas; resets_pos := false |}.
Definition spmc8 : version :=
  {| locks := Words; loads_first := true; on_release := ReleaseCas; on_publish := PublishCas;
     on_end := EndCas; resets_pos := false |}.
Definition spmc9 : version :=
  {| locks := Words; loads_first := false; on_release := ReleaseStore;
     on_publish := PublishStore; on_end := EndSub; resets_pos := true |}.
Definition spmc10 : version :=
  {| locks := Words; loads_first := false; on_release := ReleaseStore;
     on_publish := PublishStore; on_end := EndSubChecked; resets_pos := true |}.
Definition spmc11 : version :=
  {| locks := Rwlocks; loads_first := false; on_release := ReleaseUnlock;
     on_publish := PublishStore; on_end := EndUnlock; resets_pos := true |}.
Definition spmc12 : version :=
  {| locks := Rwlocks; loads_first := false; on_release := ReleaseUnlock;
     on_publish := PublishStore; on_end := EndUnlock; resets_pos := true |}.
Definition shmblock : version :=
  {| locks := Rwlocks; loads_first := false; on_release := ReleaseUnlock;
     on_publish := PublishStore; on_end := EndUnlock; resets_pos := true |}.

Definition word_versions : list version := [spmc7; spmc8; spmc9; spmc10].
(** The versions whose words are set by full barriers. *)
Definition fenced_versions : list version := [spmc7; spmc8].
Definition rwlock_versions : list version := [spmc11; spmc12; shmblock].

(** ** The operations on one word or lock *)

Definition word_store (s : spmc_t) (i w : Z) : outcome spmc_t :=
  l ← vset (nconsumers s) i w; Ret (set_nconsumers s l).

Definition word_cas (s : spmc_t) (i expected desired : Z) : outcome (option spmc_t) :=
  w ← vget (nconsumers s) i;
  if w =? expected then s' ← word_store s i desired; Ret (Some s') else Ret None.

(** [pthread_rwlock_tryrdlock], [pthread_rwlock_unlock] *)
Definition tryrdlock (s : spmc_t) (i : Z) : outcome (option spmc_t) :=
  w ← vget (nconsumers s) i;
  if (w <? 0) || (int_max <=? w) then Ret None
  else s' ← word_store s i (w + 1); Ret (Some s').

Definition unlock (s : spmc_t) (i : Z) : outcome spmc_t :=
  w ← vget (nconsumers s) i;
  if w =? -1 then word_store s i 0
  else if w =? 0 then Undef NotLocked
  else word_store s i (w - 1).

(** ** Creating and freeing *)

(** [shm] is the segment as [shmget] and [shmat] give it, with whatever it
    holds, or nothing when one of them fails. *)
Definition spmc_init (v : version) (shm : option spmc_t) (k entry_num bsize : Z)
    (is_producer : bool) : outcome spmc_t :=
  if (entry_num <=? 0) || (ENTRY_NUM_MAX <? entry_num) || (bsize <=? 0) then Throw (Exit (-1))
  else
    bytes ← int_op (entry_num * bsize);
    match shm with
    | None => Throw (Exit (-1))
    | Some s =>
        if is_producer then
          let s := {| key := k; size := 0; capacity := entry_num; buf_size := bsize;
                      write_pos := if resets_pos v then 0 else write_pos s;
                      read_pos := if resets_pos v then 0 else read_pos s;
                      nconsumers := nconsumers s; buf := buf s |} in
          for_loop (Z.to_nat (capacity s)) 0 (fun i s => word_store s i 0) s
        else Ret s
    end.

(** [free] of memory that [shmat] mapped. *)
Definition spmc_free (s : option spmc_t) : outcome unit :=
  match s with
  | None => Ret ()
  | Some _ => Undef BadPointer
  end.

(** ** The bytes of an [int] *)

Definition int_byte (x k : Z) : Z := (x / 2 ^ (8 * k)) mod 256.

Definition int_of_bytes (l : list Z) : Z :=
  to_int (foldr (fun b acc => b + 256 * acc) 0 l).

(** ** The producer

    A pointer is its offset from [spmc->buf]. *)

Inductive producer_pc :=
  | PTop                      (* at the head of the loop in [produce] *)
  | PTest (i : Z)             (* in [producer_alloc], about to load the word of [i] *)
  | PTry (i : Z)              (* in [producer_alloc], about to lock [i] *)
  | PStore (b k : Z)          (* has stored [k] bytes at [b] *)
  | PUnlock (b : Z)           (* in [producer_alloc_end], before the unlock *)
  | PPos (i : Z)              (* about to load [read_pos] *)
  | PPublish (i old : Z)      (* about to store to [read_pos] *)
  | PDone.

#[export] Instance producer_pc_eq_dec : EqDecision producer_pc.
Proof. solve_decision. Defined.

Record producer := { p_pc : producer_pc; p_i : Z }.

Definition at_entry (v : version) (i : Z) : producer_pc :=
  if loads_first v then PTest i else PTry i.

Definition next_entry (s : spmc_t) (i : Z) : outcome Z :=
  j ← int_op (i + 1); int_rem j (capacity s).

Definition lock_to_write (v : version) (s : spmc_t) (i : Z) : outcome (option spmc_t) :=
  match locks v with
  | Words => word_cas s i 0 (-1)
  | Rwlocks => tryrdlock s i
  end.

(** One round of the loop of [producer_alloc], from the attempt to lock. *)
Definition producer_alloc_try (v : version) (s : spmc_t) (i : Z)
    : outcome (spmc_t * producer_pc) :=
  got ← lock_to_write v s i;
  match got with
  | Some s' =>
      sz ← (if size s' <=? i then int_op (i + 1) else Ret (size s'));
      b ← int_op (i * buf_size s');
      wp ← next_entry s' i;
      Ret (set_taken s' sz wp, PStore b 0)
  | None => j ← next_entry s i; Ret (s, at_entry v j)
  end.

Definition producer_unlock (v : version) (s : spmc_t) (i : Z) : outcome spmc_t :=
  match on_release v with
  | ReleaseCas =>
      r ← word_cas s i (-1) 0;
      match r with Some s' => Ret s' | None => Throw (Exit (-1)) end
  | ReleaseStore => word_store s i 0
  | ReleaseUnlock => unlock s i
  end.

Definition producer_alloc_end_unlock (v : version) (s : spmc_t) (b : Z)
    : outcome (spmc_t * producer_pc) :=
  i ← int_div b (buf_size s);
  s' ← producer_unlock v s i;
  Ret (s', match on_publish v with PublishCas => PPos i | PublishStore => PPublish i 0 end).

(** The last access of [producer_alloc_end]; then [produce] counts on. *)
Definition producer_publish (v : version) (s : spmc_t) (i old n : Z)
    : outcome (spmc_t * producer) :=
  let stored := n' ← int_op (n + 1); Ret (set_read_pos s i, {| p_pc := PTop; p_i := n' |}) in
  match on_publish v with
  | PublishCas => if read_pos s =? old then stored else Ret (s, {| p_pc := PPos i; p_i := n |})
  | PublishStore => stored
  end.

Definition producer_step (v : version) (s : spmc_t) (p : producer) : outcome (spmc_t * producer) :=
  let n := p_i p in
  let goto pc := {| p_pc := pc; p_i := n |} in
  match p_pc p with
  | PTop => Ret (s, goto (if n <? count then at_entry v (write_pos s) else PDone))
  | PTest i =>
      w ← vget (nconsumers s) i;
      if w =? 0 then Ret (s, goto (PTry i))
      else j ← next_entry s i; Ret (s, goto (PTest j))
  | PTry i => r ← producer_alloc_try v s i; Ret (r.1, goto r.2)
  | PStore b k =>
      l ← vset (buf s) (b + k) (int_byte n k);
      Ret (set_buf s l, goto (if k <? 3 then PStore b (k + 1) else PUnlock b))
  | PUnlock b => r ← producer_alloc_end_unlock v s b; Ret (r.1, goto r.2)
  | PPos i => Ret (s, goto (PPublish i (read_pos s)))
  | PPublish i old => producer_publish v s i old n
  | PDone => Ret (s, p)
  end.

(** ** A consumer *)

Inductive consumer_pc :=
  | CPos                      (* in [consumer_alloc], about to load [read_pos] *)
  | CLoad (i : Z)             (* about to load the word of [i], or to lock [i] *)
  | CTry (i old : Z)          (* about to replace [old] by [old + 1] *)
  | CRead (b : Z) (l : list Z)  (* has loaded the bytes [l] of the [int] at [b] *)
  | CCheck (b : Z)            (* about to compare [old] to [buf[0]] *)
  | CKeep (b : Z)             (* about to copy [buf[0]] to [old] *)
  | CEnd (b : Z)              (* in [consumer_alloc_end] *)
  | CEndCas (b i old : Z)     (* about to replace [old] by [old - 1] *)
  | CDone (b : Z).            (* has left the loop, with [buf] at [b] *)

(** [c_value] is the [value] read last. *)
Record consumer := {
  c_pc : consumer_pc;
  c_old : Z;
  c_diff : Z;
  c_same : Z;
  c_value : option Z;
}.

Definition consume : consumer :=
  {| c_pc := CPos; c_old := 1; c_diff := 0; c_same := 0; c_value := None |}.

Definition goto (c : consumer) (pc : consumer_pc) : consumer :=
  {| c_pc := pc; c_old := c_old c; c_diff := c_diff c; c_same := c_same c; c_value := c_value c |}.

Definition consumer_alloc_load (v : version) (s : spmc_t) (i : Z)
    : outcome (spmc_t * consumer_pc) :=
  match locks v with
  | Words =>
      old ← vget (nconsumers s) i;
      Ret (s, if old <? 0 then CPos else CTry i old)
  | Rwlocks =>
      got ← tryrdlock s i;
      match got with
      | Some s' => b ← int_op (i * buf_size s'); Ret (s', CRead b [])
      | None => Ret (s, CPos)
      end
  end.

Definition consumer_alloc_try (s : spmc_t) (i old : Z) : outcome (spmc_t * consumer_pc) :=
  n ← int_op (old + 1);
  got ← word_cas s i old n;
  match got with
  | Some s' => b ← int_op (i * buf_size s'); Ret (s', CRead b [])
  | None => Ret (s, CPos)
  end.

Definition consumer_alloc_end (v : version) (s : spmc_t) (b : Z)
    : outcome (spmc_t * consumer_pc) :=
  i ← int_div b (buf_size s);
  match on_end v with
  | EndCas => old ← vget (nconsumers s) i; Ret (s, CEndCas b i old)
  | EndSub =>
      w ← vget (nconsumers s) i; s' ← word_store s i (to_int (w - 1)); Ret (s', CPos)
  | EndSubChecked =>
      w ← vget (nconsumers s) i; s' ← word_store s i (to_int (w - 1));
      if to_int (w - 1) <? 0 then Throw (Exit (-1)) else Ret (s', CPos)
  | EndUnlock => s' ← unlock s i; Ret (s', CPos)
  end.

Definition consumer_step (v : version) (s : spmc_t) (c : consumer) : outcome (spmc_t * consumer) :=
  match c_pc c with
  | CPos => Ret (s, goto c (CLoad (read_pos s)))
  | CLoad i => r ← consumer_alloc_load v s i; Ret (r.1, goto c r.2)
  | CTry i old => r ← consumer_alloc_try s i old; Ret (r.1, goto c r.2)
  | CRead b l =>
      x ← vget (buf s) (b + zlen l);
      if zlen l <? 3 then Ret (s, goto c (CRead b (l ++ [x])))
      else Ret (s, {| c_pc := CCheck b; c_old := c_old c; c_diff := c_diff c;
                      c_same := c_same c; c_value := Some (int_of_bytes (l ++ [x])) |})
  | CCheck b =>
      x ← vget (buf s) b;
      if negb (c_old c =? x) then Ret (s, goto c (CKeep b))
      else if bool_decide (c_value c = Some (count - 1)) then Ret (s, goto c (CDone b))
      else n ← int_op (c_same c + 1);
           Ret (s, {| c_pc := CEnd b; c_old := c_old c; c_diff := c_diff c;
                      c_same := n; c_value := c_value c |})
  | CKeep b =>
      x ← vget (buf s) b;
      n ← int_op (c_diff c + 1);
      Ret (s, {| c_pc := CEnd b; c_old := x; c_diff := n; c_same := c_same c;
                 c_value := c_value c |})
  | CEnd b => r ← consumer_alloc_end v s b; Ret (r.1, goto c r.2)
  | CEndCas b i old =>
      n ← int_op (old - 1);
      r ← word_cas s i old n;
      match r with
      | Some s' => Ret (s', goto c CPos)
      | None => Ret (s, goto c (CEnd b))
      end
  | CDone _ => Ret (s, c)
  end.

(** ** The processes of spmc_test.c, with any number of consumers *)

Record system := { mem : spmc_t; prod : producer; cons : list consumer }.

Definition by_producer (v : version) (s : system) : outcome system :=
  r ← producer_step v (mem s) (prod s);
  Ret {| mem := r.1; prod := r.2; cons := cons s |}.

Definition by_consumer (v : version) (k : nat) (s : system) : outcome system :=
  match cons s !! k with
  | None => Ret s
  | Some c =>
      r ← consumer_step v (mem s) c;
      Ret {| mem := r.1; prod := prod s; cons := <[k := r.2]> (cons s) |}
  end.

Inductive step (v : version) : system -> system -> Prop :=
| step_producer s s' : by_producer v s = Ret s' -> step v s s'
| step_consumer s k s' : by_consumer v k s = Ret s' -> step v s s'.

(** A schedule names the thread that takes each step: the producer, or a
    consumer. *)
Fixpoint run (v : version) (sched : list (option nat)) (s : system) : outcome system :=
  match sched with
  | [] => Ret s
  | None :: sched => by_producer v s ≫= run v sched
  | Some k :: sched => by_consumer v k s ≫= run v sched
  end.

(** A segment that [shmget] has just made holds zeroes. *)
Definition fresh_segment (entry_num bsize : Z) : spmc_t :=
  {| key := 0; size := 0; capacity := 0; buf_size := 0; write_pos := 0; read_pos := 0;
     nconsumers := replicate (Z.to_nat ENTRY_NUM_MAX) 0;
     buf := replicate (Z.to_nat (entry_num * bsize)) 0 |}.

Definition start (s : spmc_t) (readers : nat) : system :=
  {| mem := s; prod := {| p_pc := PTop; p_i := 0 |}; cons := replicate readers consume |}.

Definition SHM_KEY : Z := 12311.

(** [main_p] on the segment [shm], and its consumers. *)
Definition main (v : version) (shm : spmc_t) (entry_num bsize : Z) (readers : nat)
    : outcome system :=
  s ← spmc_init v (Some shm) SHM_KEY entry_num bsize true; Ret (start s readers).

(** ** Starting

    [main] of spmc_test.c forks: the consumers run while the producer is still
    in [spmc_init]. *)

(** The stores of [spmc_init] for the producer, in order. *)
Definition init_stores (v : version) (k entry_num bsize : Z) : list (spmc_t -> outcome spmc_t) :=
  let header f := fun s => Ret (f s) in
  [header (fun s => {| key := k; size := size s; capacity := capacity s; buf_size := buf_size s;
             write_pos := write_pos s; read_pos := read_pos s; nconsumers := nconsumers s; buf := buf s |});
   header (fun s => {| key := key s; size := 0; capacity := capacity s; buf_size := buf_size s;
             write_pos := write_pos s; read_pos := read_pos s; nconsumers := nconsumers s; buf := buf s |});
   header (fun s => {| key := key s; size := size s; capacity := entry_num; buf_size := buf_size s;
             write_pos := write_pos s; read_pos := read_pos s; nconsumers := nconsumers s; buf := buf s |});
   header (fun s => {| key := key s; size := size s; capacity := capacity s; buf_size := bsize;
             write_pos := write_pos s; read_pos := read_pos s; nconsumers := nconsumers s; buf := buf s |})] ++
  (if resets_pos v then [header (fun s => set_taken s (size s) 0); header (fun s => set_read_pos s 0)] else []) ++
  ((fun i s => word_store s i 0) <$> seqZ 0 entry_num).

(** The stores that the producer has still to do, and the processes. *)
Record forked := { todo : list (spmc_t -> outcome spmc_t); procs : system }.

Definition with_mem (s : system) (m : spmc_t) : system :=
  {| mem := m; prod := prod s; cons := cons s |}.

Definition fork_step (v : version) (who : option nat) (f : forked) : outcome forked :=
  match who, todo f with
  | Some k, _ => s ← by_consumer v k (procs f); Ret {| todo := todo f; procs := s |}
  | None, st :: rest =>
      m ← st (mem (procs f)); Ret {| todo := rest; procs := with_mem (procs f) m |}
  | None, [] => s ← by_producer v (procs f); Ret {| todo := []; procs := s |}
  end.

Fixpoint fork_run (v : version) (sched : list (option nat)) (f : forked) : outcome forked :=
  match sched with
  | [] => Ret f
  | who :: sched => fork_step v who f ≫= fork_run v sched
  end.

Definition fork_main (v : version) (shm : spmc_t) (entry_num bsize : Z) (readers : nat) : forked :=
  {| todo := init_stores v SHM_KEY entry_num bsize; procs := start shm readers |}.

(** The producer alone. *)
Fixpoint all_stores (l : list (spmc_t -> outcome spmc_t)) (s : spmc_t) : outcome spmc_t :=
  match l with
  | [] => Ret s
  | st :: l => st s ≫= all_stores l
  end.

Lemma fork_run_stores v l p s s' :
  all_stores l s = Ret s' ->
  fork_run v (replicate (length l) None) {| todo := l; procs := with_mem p s |} =
  Ret {| todo := []; procs := with_mem p s' |}.
Proof.
  revert s. induction l as [|st l IH]; intros s H; [by injection H as ->|].
  apply bind_Ret in H as (m & Hm & H). cbn [length replicate fork_run fork_step todo procs mem with_mem].
  rewrite Hm. bind_ret. by apply IH.
Qed.

Lemma all_stores_words n i s :
  all_stores ((fun i s => word_store s i 0) <$> seqZ i (Z.of_nat n)) s =
  for_loop n i (fun i s => word_store s i 0) s.
Proof.
  revert i s. induction n as [|n IH]; intros i s; [done|].
  rewrite seqZ_cons by lia. cbn [fmap list_fmap all_stores for_loop].
  replace (Z.pred (Z.of_nat (S n))) with (Z.of_nat n) by lia. replace (Z.succ i) with (i + 1) by lia.
  destruct (word_store s i 0); bind_ret; [apply IH|done..].
Qed.

(** A producer whose consumers wait for it starts as [main] says. *)
Lemma init_first v shm e b readers s0 :
  main v shm e b readers = Ret s0 ->
  fork_run v (replicate (length (init_stores v SHM_KEY e b)) None) (fork_main v shm e b readers) =
  Ret {| todo := []; procs := s0 |}.
Proof.
  unfold main, spmc_init. destruct ((e <=? 0) || (ENTRY_NUM_MAX <? e) || (b <=? 0)) eqn:Hok; [done|].
  rewrite !orb_false_iff, !Z.leb_gt in Hok. intros H. apply bind_Ret in H as (s & H & [= <-]).
  apply bind_Ret in H as (n & _ & H). cbn [capacity] in H.
  unfold fork_main. change (start shm readers) with (with_mem (start s readers) shm).
  rewrite (fork_run_stores v _ _ _ s); [done|].
  unfold init_stores. replace (seqZ 0 e) with (seqZ 0 (Z.of_nat (Z.to_nat e))) by (f_equal; lia).
  destruct (resets_pos v); cbn [app all_stores]; bind_ret; by rewrite all_stores_words.
Qed.

(** Until [buf_size] is stored a consumer that returns an entry divides by
    zero. *)
Theorem early_consumer_divides_by_zero v :
  v ∈ word_versions ->
  fork_run v (replicate 10 (Some 0%nat)) (fork_main v (fresh_segment 4 10) 4 10 1) = Undef DivByZero.
Proof. intros Hv. each_copy Hv; vm_compute; reflexivity. Qed.

(** When the producer clears the word of an entry that a consumer of spmc10.c
    holds, the consumer finds a negative count and exits. *)
Theorem early_consumer_exits :
  fork_run spmc10 (replicate 6 None ++ replicate 9 (Some 0%nat) ++ replicate 4 None ++ [Some 0%nat])
    (fork_main spmc10 (fresh_segment 4 10) 4 10 1) = Throw (Exit (-1)).
Proof. vm_compute. reflexivity. Qed.

(** ** The invariant of the versions with atomic words

    [val i] is the number that entry [i] holds, or will hold when the producer
    has finished writing it. *)

Definition word_based (v : version) : Prop :=
  locks v = Words /\ on_release v <> ReleaseUnlock /\ on_end v <> EndUnlock.

Lemma word_versions_based v : v ∈ word_versions -> word_based v.
Proof. intros Hv. each_copy Hv; done. Qed.

Lemma fenced_word v : v ∈ fenced_versions -> v ∈ word_versions.
Proof. intros Hv. each_copy Hv; in_list. Qed.

Definition has_entry (s : spmc_t) (i : Z) : Prop := 0 <= i < capacity s.

(** The first [k] bytes at [b] are those of [x]. *)
Definition stored (s : spmc_t) (b x k : Z) : Prop :=
  forall j, 0 <= j < k -> vget (buf s) (b + j) = Ret (int_byte x j).

Definition writing (s : spmc_t) (p : producer) (i : Z) : bool :=
  match p_pc p with PStore b _ | PUnlock b => b =? i * buf_size s | _ => false end.

Definition owns (bs i : Z) (c : consumer) : bool :=
  match c_pc c with
  | CRead b _ | CCheck b | CKeep b | CEnd b | CEndCas b _ _ | CDone b => b =? i * bs
  | _ => false
  end.

Definition owners (s : system) (i : Z) : Z := zcount (owns (buf_size (mem s)) i) (cons s).

Definition word (s : system) (i : Z) : Z :=
  if writing (mem s) (prod s) i then -1 else owners s i.

(** The largest number an entry may hold. *)
Definition newest (p : producer) : Z :=
  match p_pc p with
  | PTop | PTest _ | PTry _ | PDone => Z.max 0 (p_i p - 1)
  | _ => p_i p
  end.

Definition producer_ok (val : Z -> Z) (s : spmc_t) (p : producer) : Prop :=
  match p_pc p with
  | PTop => True
  | PTest i | PTry i => has_entry s i /\ p_i p < count
  | PStore b k => exists i, b = i * buf_size s /\ has_entry s i /\ val i = p_i p /\
                            p_i p < count /\ 0 <= k < 4 /\ stored s b (p_i p) k
  | PUnlock b => exists i, b = i * buf_size s /\ has_entry s i /\ val i = p_i p /\
                           p_i p < count /\ stored s b (p_i p) 4
  | PPos i | PPublish i _ => has_entry s i /\ val i = p_i p /\ p_i p < count
  | PDone => p_i p = count
  end.

(** What a consumer is reading, or about to read, is not older than [x - 1]. *)
Definition not_before (val : Z -> Z) (n bs x : Z) (c : consumer) : Prop :=
  x <= n /\
  match c_pc c with
  | CLoad i | CTry i _ => x - 1 <= val i
  | CRead b _ => forall i, b = i * bs -> x - 1 <= val i
  | _ => True
  end.

Definition consumer_ok (val : Z -> Z) (s : spmc_t) (n : Z) (readers : nat) (c : consumer) : Prop :=
  (forall x, c_value c = Some x -> 0 <= x /\ not_before val n (buf_size s) x c) /\
  match c_pc c with
  | CPos => True
  | CLoad i => has_entry s i
  | CTry i old => has_entry s i /\ 0 <= old <= Z.of_nat readers
  | CRead b l => exists i, b = i * buf_size s /\ has_entry s i /\ zlen l < 4 /\
                           l = int_byte (val i) <$> seqZ 0 (zlen l)
  | CCheck b => exists i, b = i * buf_size s /\ has_entry s i /\ c_value c = Some (val i)
  | CKeep b | CEnd b | CDone b => exists i, b = i * buf_size s /\ has_entry s i
  | CEndCas b i old => b = i * buf_size s /\ has_entry s i /\ 1 <= old <= Z.of_nat readers
  end.

Record geometry (s : spmc_t) : Prop := {
  g_cap : 0 < capacity s <= ENTRY_NUM_MAX;
  g_bs : 4 <= buf_size s;
  g_int : capacity s * buf_size s <= int_max;
  g_buf : zlen (buf s) = capacity s * buf_size s;
  g_words : zlen (nconsumers s) = ENTRY_NUM_MAX;
  g_wpos : has_entry s (write_pos s);
  g_rpos : has_entry s (read_pos s);
}.

Record inv (val : Z -> Z) (s : system) : Prop := {
  i_geo : geometry (mem s);
  i_few : Z.of_nat (length (cons s)) < int_max;
  i_count : 0 <= p_i (prod s) <= count;
  i_prod : producer_ok val (mem s) (prod s);
  i_cons : Forall (consumer_ok val (mem s) (p_i (prod s)) (length (cons s))) (cons s);
  i_word : forall i, has_entry (mem s) i ->
    nconsumers (mem s) !! Z.to_nat i = Some (word s i);
  i_excl : forall i, has_entry (mem s) i -> writing (mem s) (prod s) i = true -> owners s i = 0;
  i_val : forall i, has_entry (mem s) i -> 0 <= val i <= newest (prod s);
  i_entry : forall i, has_entry (mem s) i -> writing (mem s) (prod s) i = false ->
    stored (mem s) (i * buf_size (mem s)) (val i) 4;
  i_latest : p_i (prod s) - 1 <= val (read_pos (mem s));
}.

(** ** Bytes and pointers *)

Lemma int_of_int_bytes x :
  0 <= x <= int_max -> int_of_bytes (int_byte x <$> seqZ 0 4) = x.
Proof.
  intros Hx. unfold int_of_bytes. change (seqZ 0 4) with [0; 1; 2; 3]. cbn [fmap list_fmap foldr].
  unfold int_byte, int_max in *.
  change (2 ^ (8 * 0)) with 1. change (2 ^ (8 * 1)) with 256.
  change (2 ^ (8 * 2)) with 65536. change (2 ^ (8 * 3)) with 16777216.
  match goal with |- to_int ?e = _ => assert (e = x) as -> end.
  { rewrite Z.div_1_r. change 65536 with (256 * 256). change 16777216 with (256 * 256 * 256).
    rewrite <- !Z.div_div by lia.
    rewrite (Z.mod_small (x / 256 / 256 / 256)).
    - pose proof (Z.div_mod x 256). pose proof (Z.div_mod (x / 256) 256).
      pose proof (Z.div_mod (x / 256 / 256) 256). lia.
    - rewrite !Z.div_div by lia. split; [apply Z.div_pos; lia|].
      apply Z.div_lt_upper_bound; lia. }
  apply to_int_small. unfold int_min, int_max. lia.
Qed.

Lemma entry_index s i :
  geometry s -> has_entry s i -> int_div (i * buf_size s) (buf_size s) = Ret i.
Proof.
  intros [Hc Hb Hi _ _ _ _] He. unfold has_entry, ENTRY_NUM_MAX in *. unfold int_div.
  destruct (Z.eqb_spec (buf_size s) 0); [lia|]. rewrite Z.quot_mul by lia.
  apply int_op_in. unfold int_min, int_max. lia.
Qed.

Lemma entry_pointer s i :
  geometry s -> has_entry s i ->
  int_op (i * buf_size s) = Ret (i * buf_size s) /\
  0 <= i * buf_size s /\ i * buf_size s + 4 <= zlen (buf s).
Proof.
  intros [Hc Hb Hi Hz _ _ _] He. unfold has_entry in *.
  assert (0 <= i * buf_size s) by nia.
  assert (i * buf_size s + buf_size s <= capacity s * buf_size s) by nia.
  split; [|lia]. apply int_op_in. unfold int_min, int_max in *. lia.
Qed.

Lemma next_entry_Ret s i :
  geometry s -> has_entry s i -> next_entry s i = Ret ((i + 1) mod capacity s).
Proof.
  intros [Hc Hb Hi Hz _ _ _] He. unfold has_entry, ENTRY_NUM_MAX in *. unfold next_entry.
  rewrite int_op_in by (unfold int_min, int_max; lia). bind_ret. by apply int_rem_ring; lia.
Qed.

Lemma next_has_entry s i : geometry s -> has_entry s ((i + 1) mod capacity s).
Proof. intros Hg. apply Z.mod_pos_bound. apply Hg. Qed.

Lemma word_get val s i :
  inv val s -> has_entry (mem s) i -> vget (nconsumers (mem s)) i = Ret (word s i).
Proof. intros Hs Hi. apply vget_Ret. split; [apply Hi|by apply Hs]. Qed.

Lemma word_store_Ret s i w :
  geometry s -> has_entry s i ->
  word_store s i w = Ret (set_nconsumers s (<[Z.to_nat i := w]> (nconsumers s))).
Proof.
  intros [Hc _ _ _ Hw _ _] Hi. unfold word_store, has_entry in *.
  by rewrite vset_in_range by lia.
Qed.

Lemma readers_bounds s i : 0 <= owners s i <= Z.of_nat (length (cons s)).
Proof.
  unfold owners. split; [apply zcount_nonneg|]. induction (cons s) as [|c l IH]; simpl; [lia|].
  destruct (owns _ i c); simpl; lia.
Qed.

Lemma same_entry bs i j : 0 < bs -> (i * bs =? j * bs) = (i =? j).
Proof. intros H. destruct (Z.eqb_spec i j) as [->|Hn]; [apply Z.eqb_refl|]. apply Z.eqb_neq. nia. Qed.

(** ** The producer keeps the invariant *)

Definition grows (val val' : Z -> Z) : Prop := forall i, val i <= val' i.

Definition producer_keeps (val : Z -> Z) (s : system) (r : outcome (spmc_t * producer)) : Prop :=
  returns r (fun x => exists val',
    inv val' {| mem := x.1; prod := x.2; cons := cons s |} /\
    grows val val' /\ p_i (prod s) <= p_i x.2 /\ buf_size x.1 = buf_size (mem s)).

Lemma keeps_same_val val s s' p' :
  inv val {| mem := s'; prod := p'; cons := cons s |} -> p_i (prod s) <= p_i p' ->
  buf_size s' = buf_size (mem s) -> producer_keeps val s (Ret (s', p')).
Proof. intros H1 H2 H3. apply returns_ret. exists val. split; [done|]. split; [|done]. intros i. lia. Qed.

Lemma producer_pc_keeps val s p' :
  inv val s -> p_i p' = p_i (prod s) -> producer_ok val (mem s) p' ->
  (forall i, writing (mem s) p' i = writing (mem s) (prod s) i) ->
  newest (prod s) <= newest p' ->
  producer_keeps val s (Ret (mem s, p')).
Proof.
  intros [Hg Hf Hc Hp Hco Hw He Hv Hen Hl] Hn Hok Hwr Hnew.
  apply keeps_same_val; [|lia|done].
  split; simpl; rewrite ?Hn; try done.
  - intros i Hi. rewrite Hw by done. unfold word, owners. simpl. by rewrite Hwr.
  - intros i Hi. rewrite Hwr. by apply He.
  - intros i Hi. pose proof (Hv i Hi). lia.
  - intros i Hi. rewrite Hwr. by apply Hen.
Qed.

(** A step to a program counter that holds no entry, from one that holds none. *)
Ltac same_pc Hpc :=
  apply producer_pc_keeps; try done;
  [.. | intros ?; unfold writing; by rewrite Hpc | unfold newest; by rewrite Hpc].

Lemma at_entry_ok v val s p i :
  has_entry s i -> p_i p < count ->
  producer_ok val s {| p_pc := at_entry v i; p_i := p_i p |} /\
  newest {| p_pc := at_entry v i; p_i := p_i p |} = Z.max 0 (p_i p - 1) /\
  forall j, writing s {| p_pc := at_entry v i; p_i := p_i p |} j = false.
Proof. intros Hi Hn. unfold at_entry. by destruct (loads_first v). Qed.

Lemma not_before_mono val val' n n' bs x c :
  grows val val' -> n <= n' -> not_before val n bs x c -> not_before val' n' bs x c.
Proof.
  intros Hg Hn [H1 H2]. split; [lia|]. destruct (c_pc c); try done.
  - specialize (Hg i). lia.
  - specialize (Hg i). lia.
  - intros i Hi. specialize (Hg i). specialize (H2 i Hi). lia.
Qed.

(** A larger count, and changed values of entries that the consumer does not
    hold. *)
Lemma consumer_ok_mono val val' s s' n n' m c :
  consumer_ok val s n m c -> grows val val' -> n <= n' ->
  capacity s' = capacity s -> buf_size s' = buf_size s ->
  (forall i, val' i <> val i -> owns (buf_size s) i c = false) ->
  consumer_ok val' s' n' m c.
Proof.
  intros [H1 H2] Hg Hn Hc Hb Hv. unfold consumer_ok, has_entry in *. rewrite Hc, Hb. split.
  - intros x Hx. destruct (H1 x Hx). split; [done|]. by eapply not_before_mono.
  - assert (forall i, owns (buf_size s) i c = true -> val' i = val i) as Hsame.
    { intros i Hi. destruct (decide (val' i = val i)) as [|Hne]; [done|]. by rewrite Hv in Hi. }
    unfold owns in Hsame. destruct (c_pc c) as [| | |b l|b| | | |]; try done.
    + destruct H2 as (i & -> & Hi & Hl & E). exists i. by rewrite Hsame by apply Z.eqb_refl.
    + destruct H2 as (i & -> & Hi & E). exists i. by rewrite Hsame by apply Z.eqb_refl.
Qed.

Lemma PTest_keeps v val s i :
  inv val s -> p_pc (prod s) = PTest i -> producer_keeps val s (producer_step v (mem s) (prod s)).
Proof.
  intros Hs Hpc. pose proof (i_prod _ _ Hs) as Hok. unfold producer_ok in Hok. rewrite Hpc in Hok.
  destruct Hok as [Hi Hn]. pose proof (i_geo _ _ Hs) as Hg. unfold producer_step. rewrite Hpc.
  rewrite (word_get val) by done. bind_ret. destruct (word s i =? 0).
  - same_pc Hpc.
  - rewrite next_entry_Ret by done. bind_ret. same_pc Hpc. split; [by apply next_has_entry|done].
Qed.

(** Setting a word that nobody holds. *)
Lemma set_nconsumers_geometry s i w :
  geometry s -> geometry (set_nconsumers s (<[i := w]> (nconsumers s))).
Proof. intros []. split; try done. simpl. by rewrite zlen_insert. Qed.

Lemma grows_insert val i n : val i <= n -> grows val (<[i := n]> val).
Proof.
  intros H j. destruct (decide (j = i)) as [->|Hne].
  - rewrite fn_lookup_insert. lia.
  - rewrite fn_lookup_insert_ne by done. lia.
Qed.

(** The producer locks a free entry. *)
Lemma lock_entry_inv val s i sz wp :
  inv val s -> p_pc (prod s) = PTry i -> word s i = 0 -> has_entry (mem s) wp ->
  inv (<[i := p_i (prod s)]> val)
    {| mem := set_taken (set_nconsumers (mem s) (<[Z.to_nat i := -1]> (nconsumers (mem s)))) sz wp;
       prod := {| p_pc := PStore (i * buf_size (mem s)) 0; p_i := p_i (prod s) |};
       cons := cons s |}.
Proof.
  intros [Hg Hf Hc Hp Hco Hw He Hv Hen Hl] Hpc E Hwp.
  unfold producer_ok in Hp. rewrite Hpc in Hp. destruct Hp as [Hi Hn].
  assert (forall j, writing (mem s) (prod s) j = false) as Hno
    by (intros j; unfold writing; by rewrite Hpc).
  unfold word in E. rewrite Hno in E. pose proof (Hv i Hi) as Hvi. unfold newest in Hv, Hvi.
  rewrite Hpc in Hv, Hvi. pose proof (g_bs _ Hg) as Hbs.
  pose proof (grows_insert val i (p_i (prod s)) ltac:(lia)) as Hgr.
  split; simpl; try done.
  - destruct Hg. split; try done. simpl. by rewrite zlen_insert.
  - exists i. rewrite fn_lookup_insert. split; [done|]. split; [done|]. split; [done|].
    split; [done|]. split; [lia|]. intros j Hj. lia.
  - apply Forall_lookup. intros k c Hk. pose proof (Forall_lookup_1 _ _ _ _ Hco Hk) as Hcc.
    eapply consumer_ok_mono; [exact Hcc|done|lia|done|done|].
    intros j Hj. destruct (decide (j = i)) as [->|Hne].
    + destruct (owns (buf_size (mem s)) i c) eqn:Ho; [|done].
      pose proof (zcount_lookup _ _ _ _ Hk Ho). unfold owners in E. lia.
    + by rewrite fn_lookup_insert_ne in Hj.
  - intros j Hj. unfold word, writing, owners. simpl. rewrite same_entry by lia.
    destruct (Z.eqb_spec i j) as [->|Hne].
    + apply list_lookup_insert_eq. pose proof (g_words _ Hg). pose proof (g_cap _ Hg).
      unfold has_entry in *. len.
    + rewrite list_lookup_insert_ne by (unfold has_entry in *; simpl in *; lia).
      rewrite Hw by done. unfold word. by rewrite Hno.
  - intros j Hj. unfold writing. simpl. rewrite same_entry by lia. intros ->%Z.eqb_eq. done.
  - intros j Hj. unfold newest. simpl. destruct (decide (j = i)) as [->|Hne].
    + rewrite fn_lookup_insert. lia.
    + rewrite fn_lookup_insert_ne by done. pose proof (Hv j Hj). lia.
  - intros j Hj. unfold writing. simpl. rewrite same_entry by lia. intros Hne%Z.eqb_neq.
    rewrite fn_lookup_insert_ne by done. by apply Hen.
  - pose proof (Hgr (read_pos (mem s))). lia.
Qed.

Lemma PTry_keeps v val s i :
  word_based v -> inv val s -> p_pc (prod s) = PTry i ->
  producer_keeps val s (producer_step v (mem s) (prod s)).
Proof.
  intros (Hv & _ & _) Hs Hpc. pose proof (i_prod _ _ Hs) as Hok. unfold producer_ok in Hok.
  rewrite Hpc in Hok. destruct Hok as [Hi Hn]. pose proof (i_geo _ _ Hs) as Hg.
  unfold producer_step, producer_alloc_try, lock_to_write, word_cas. rewrite Hpc, Hv.
  rewrite (word_get val) by done. bind_ret. destruct (Z.eqb_spec (word s i) 0) as [E|E].
  - rewrite word_store_Ret by done. bind_ret.
    pose proof (set_nconsumers_geometry _ (Z.to_nat i) (-1) Hg) as Hg'.
    set (t := set_nconsumers _ _) in *. assert (has_entry t i) as Hi' by done.
    assert (exists sz, (if size t <=? i then int_op (i + 1) else Ret (size t)) = Ret sz) as [sz Hsz].
    { destruct (_ <=? _); [|eauto]. destruct Hg as [Hc _ _ _ _ _ _]. unfold has_entry, ENTRY_NUM_MAX in *.
      exists (i + 1). apply int_op_in. unfold int_min, int_max. lia. }
    rewrite Hsz. bind_ret. destruct (entry_pointer t i Hg' Hi') as (Hb & _). rewrite Hb. bind_ret.
    rewrite next_entry_Ret by done. bind_ret. apply returns_ret.
    exists (<[i := p_i (prod s)]> val). split.
    { apply lock_entry_inv; [done..|]. exact (next_has_entry _ i Hg). }
    split; [|done]. pose proof (i_val _ _ Hs i Hi) as Hvi. unfold newest in Hvi. rewrite Hpc in Hvi.
    pose proof (i_count _ _ Hs). apply grows_insert. lia.
  - rewrite next_entry_Ret by done. bind_ret.
    destruct (at_entry_ok v val (mem s) (prod s) ((i + 1) mod capacity (mem s))) as (H1 & H2 & H3);
      [by apply next_has_entry|done|].
    apply producer_pc_keeps; try done.
    + intros j. rewrite H3. unfold writing. by rewrite Hpc.
    + simpl. rewrite H2. unfold newest. by rewrite Hpc.
Qed.

(** Storing a byte of one entry leaves the others. *)
Lemma stored_set s b k y b' x m :
  0 <= b + k < zlen (buf s) -> (forall j, 0 <= j < m -> b' + j <> b + k /\ 0 <= b' + j) ->
  stored s b' x m -> stored (set_buf s (<[Z.to_nat (b + k) := y]> (buf s))) b' x m.
Proof.
  intros Hb Hne Hst j Hj. destruct (Hne j Hj). pose proof (Hst j Hj) as Hg.
  apply vget_Ret in Hg as [H1 H2]. apply vget_Ret. split; [done|]. simpl.
  rewrite list_lookup_insert_ne by lia. done.
Qed.

Lemma stored_next s b x k :
  0 <= k -> 0 <= b -> b + k < zlen (buf s) -> stored s b x k ->
  stored (set_buf s (<[Z.to_nat (b + k) := int_byte x k]> (buf s))) b x (k + 1).
Proof.
  intros Hk Hb Hl Hst j Hj. destruct (decide (j = k)) as [->|Hne].
  - apply vget_Ret. split; [lia|]. simpl. apply list_lookup_insert_eq. unfold zlen in *. lia.
  - apply (stored_set s b k _ b x k); [lia|intros; lia|done|lia].
Qed.

Lemma PStore_keeps v val s b k :
  inv val s -> p_pc (prod s) = PStore b k -> producer_keeps val s (producer_step v (mem s) (prod s)).
Proof.
  intros Hs Hpc. destruct Hs as [Hg Hf Hc Hp Hco Hw He Hv Hen Hl].
  unfold producer_ok in Hp. rewrite Hpc in Hp. destruct Hp as (i & -> & Hi & Hval & Hn & Hk & Hst).
  destruct (entry_pointer _ _ Hg Hi) as (_ & Hb0 & Hb4). pose proof (g_bs _ Hg) as Hbs.
  unfold producer_step. rewrite Hpc, vset_in_range by lia. bind_ret.
  set (p' := {| p_pc := _; p_i := _ |}).
  assert (forall j, writing (mem s) p' j = writing (mem s) (prod s) j) as Hwr.
  { intros j. unfold writing, p'. rewrite Hpc. simpl. by destruct (k <? 3). }
  assert (i * buf_size (mem s) + k < zlen (buf (mem s))) as Hbk by lia.
  pose proof (stored_next _ _ _ _ (proj1 Hk) Hb0 Hbk Hst) as Hst'.
  apply keeps_same_val; [|simpl; lia|done]. split; simpl; try done.
  - destruct Hg. split; try done. simpl. by rewrite zlen_insert.
  - unfold producer_ok, p'. simpl. destruct (Z.ltb_spec k 3); exists i.
    + repeat (split; [done || lia|]). done.
    + replace 4 with (k + 1) by lia. done.
  - intros j Hj. rewrite Hw by done. unfold word, owners. simpl.
    change (writing (set_buf (mem s) _) p' j) with (writing (mem s) p' j). by rewrite Hwr.
  - intros j Hj. change (writing (set_buf (mem s) _) p' j) with (writing (mem s) p' j).
    rewrite Hwr. by apply He.
  - intros j Hj. pose proof (Hv j Hj). unfold newest, p' in *. rewrite Hpc in *. simpl.
    by destruct (k <? 3).
  - intros j Hj. change (writing (set_buf (mem s) _) p' j) with (writing (mem s) p' j).
    rewrite Hwr. intros Hno. apply stored_set; [lia| |by apply Hen].
    unfold writing in Hno. rewrite Hpc, same_entry in Hno by lia. apply Z.eqb_neq in Hno.
    intros m Hm. unfold has_entry in *. simpl in Hj. split; [|nia].
    destruct (Z.lt_trichotomy i j) as [|[|]]; [nia|done|nia].
Qed.

(** The producer unlocks the entry it has written. *)
Lemma unlock_entry_inv val s i pc :
  inv val s -> p_pc (prod s) = PUnlock (i * buf_size (mem s)) -> has_entry (mem s) i ->
  pc = PPos i \/ pc = PPublish i 0 ->
  inv val {| mem := set_nconsumers (mem s) (<[Z.to_nat i := 0]> (nconsumers (mem s)));
             prod := {| p_pc := pc; p_i := p_i (prod s) |}; cons := cons s |}.
Proof.
  intros [Hg Hf Hc Hp Hco Hw He Hv Hen Hl] Hpc Hi Hpc'. pose proof (g_bs _ Hg) as Hbs.
  set (p' := {| p_pc := pc; p_i := p_i (prod s) |}).
  assert (forall t j, writing t p' j = false) as Hno by (intros t j; by destruct Hpc' as [-> | ->]).
  assert (forall j, writing (mem s) (prod s) j = (i =? j)) as Hwr.
  { intros j. unfold writing. rewrite Hpc. apply same_entry. lia. }
  unfold producer_ok in Hp. rewrite Hpc in Hp. destruct Hp as (i' & Hb & Hi' & Hval & Hn & Hst).
  assert (i' = i) as -> by nia.
  split; simpl; try done.
  - by apply set_nconsumers_geometry.
  - unfold producer_ok. simpl. by destruct Hpc' as [-> | ->].
  - intros j Hj. unfold word. rewrite Hno. simpl. destruct (decide (j = i)) as [->|Hne].
    + rewrite list_lookup_insert_eq
        by (pose proof (g_words _ Hg); pose proof (g_cap _ Hg); unfold has_entry in *; len).
      f_equal. symmetry. apply He; [done|]. by rewrite Hwr, Z.eqb_refl.
    + rewrite list_lookup_insert_ne by (unfold has_entry in *; simpl in *; lia). rewrite Hw by done.
      unfold word. rewrite Hwr, (proj2 (Z.eqb_neq i j)) by done. done.
  - intros j Hj. by rewrite Hno.
  - intros j Hj. pose proof (Hv j Hj) as Hvj. unfold newest in *. rewrite Hpc in Hvj.
    simpl. by destruct Hpc' as [-> | ->].
  - intros j Hj _. destruct (decide (j = i)) as [->|Hne]; [by rewrite Hval|].
    apply Hen; [done|]. rewrite Hwr. by apply Z.eqb_neq.
Qed.

Lemma PUnlock_keeps v val s b :
  word_based v -> inv val s -> p_pc (prod s) = PUnlock b ->
  producer_keeps val s (producer_step v (mem s) (prod s)).
Proof.
  intros (_ & Hrel & _) Hs Hpc. pose proof (i_prod _ _ Hs) as Hok. unfold producer_ok in Hok.
  rewrite Hpc in Hok. destruct Hok as (i & -> & Hi & _). pose proof (i_geo _ _ Hs) as Hg.
  unfold producer_step, producer_alloc_end_unlock. rewrite Hpc, entry_index by done. bind_ret.
  assert (producer_unlock v (mem s) i =
    Ret (set_nconsumers (mem s) (<[Z.to_nat i := 0]> (nconsumers (mem s))))) as ->.
  { unfold producer_unlock, word_cas. destruct (on_release v); [|by apply word_store_Ret|done].
    rewrite (word_get val) by done. bind_ret. unfold word, writing. rewrite Hpc, Z.eqb_refl. simpl.
    rewrite word_store_Ret by done. done. }
  bind_ret. apply keeps_same_val; [|simpl; lia|done].
  apply unlock_entry_inv; [done..|]. destruct (on_publish v); eauto.
Qed.

(** The producer publishes an entry and goes on to the next number. *)
Lemma publish_inv val s i old :
  inv val s -> p_pc (prod s) = PPublish i old ->
  inv val {| mem := set_read_pos (mem s) i; prod := {| p_pc := PTop; p_i := p_i (prod s) + 1 |};
             cons := cons s |}.
Proof.
  intros [Hg Hf Hc Hp Hco Hw He Hv Hen Hl] Hpc. unfold producer_ok in Hp. rewrite Hpc in Hp.
  destruct Hp as (Hi & Hval & Hn).
  assert (forall j, writing (mem s) (prod s) j = false) as Hno
    by (intros j; unfold writing; by rewrite Hpc).
  split; simpl; try done.
  - destruct Hg. by split.
  - lia.
  - eapply Forall_impl; [exact Hco|]. intros c Hcc.
    eapply consumer_ok_mono; [exact Hcc|intros j; lia|lia|done..].
  - intros j Hj. rewrite Hw by done. unfold word. by rewrite Hno.
  - intros j Hj. pose proof (Hv j Hj) as Hvj. unfold newest in *. rewrite Hpc in Hvj. simpl. lia.
  - intros j Hj _. by apply Hen.
  - lia.
Qed.

Lemma producer_step_keeps v val s :
  word_based v -> inv val s -> producer_keeps val s (producer_step v (mem s) (prod s)).
Proof.
  intros Hv Hs. pose proof (i_prod _ _ Hs) as Hok. pose proof (i_geo _ _ Hs) as Hg.
  pose proof (i_count _ _ Hs) as Hc. unfold count in Hc.
  destruct (p_pc (prod s)) as [|i|i|b k|b|i|i old|] eqn:Hpc.
  - unfold producer_step. rewrite Hpc. destruct (Z.ltb_spec (p_i (prod s)) count) as [Hlt|Hge].
    + destruct (at_entry_ok v val (mem s) (prod s) (write_pos (mem s))) as (H1 & H2 & H3);
        [apply Hg|done|].
      apply producer_pc_keeps; try done.
      * intros j. rewrite H3. unfold writing. by rewrite Hpc.
      * rewrite H2. unfold newest. by rewrite Hpc.
    + same_pc Hpc. unfold producer_ok. simpl. unfold count in *. lia.
  - by eapply PTest_keeps.
  - by eapply PTry_keeps.
  - by eapply PStore_keeps.
  - by eapply PUnlock_keeps.
  - unfold producer_step, producer_ok in *. rewrite Hpc in *. same_pc Hpc.
  - unfold producer_step, producer_publish. rewrite Hpc.
    rewrite int_op_in by (unfold int_min, int_max; lia). bind_ret.
    assert (producer_keeps val s (Ret (set_read_pos (mem s) i,
      {| p_pc := PTop; p_i := p_i (prod s) + 1 |}))) as Hst.
    { apply keeps_same_val; [by eapply publish_inv|simpl; lia|done]. }
    destruct (on_publish v); [|done]. destruct (_ =? _); [done|].
    unfold producer_ok in Hok. rewrite Hpc in Hok. same_pc Hpc.
  - unfold producer_step. rewrite Hpc. by apply producer_pc_keeps.
Qed.

(** ** The consumers keep the invariant *)

(** A step of a consumer does not fall behind a bound, and what it reads is
    not older than the bound. *)
Definition bound_kept (val : Z -> Z) (n bs : Z) (c c' : consumer) : Prop :=
  forall x, not_before val n bs x c ->
    not_before val n bs x c' /\ forall y, c_value c' = Some y -> c_value c = Some y \/ x - 1 <= y.

Definition consumer_keeps (val : Z -> Z) (s : system) (k : nat) (c : consumer)
    (r : outcome (spmc_t * consumer)) : Prop :=
  returns r (fun x =>
    inv val {| mem := x.1; prod := prod s; cons := <[k := x.2]> (cons s) |} /\
    buf_size x.1 = buf_size (mem s) /\
    bound_kept val (p_i (prod s)) (buf_size (mem s)) c x.2).

(** The word of entry [i] follows the owners of [i]. *)
Lemma consumer_word_inv val s k c c' i w :
  inv val s -> cons s !! k = Some c -> has_entry (mem s) i ->
  consumer_ok val (mem s) (p_i (prod s)) (length (cons s)) c' ->
  (forall j, j <> i -> owns (buf_size (mem s)) j c' = owns (buf_size (mem s)) j c) ->
  writing (mem s) (prod s) i = false ->
  w = owners s i - Z.b2z (owns (buf_size (mem s)) i c) + Z.b2z (owns (buf_size (mem s)) i c') ->
  inv val {| mem := set_nconsumers (mem s) (<[Z.to_nat i := w]> (nconsumers (mem s)));
             prod := prod s; cons := <[k := c']> (cons s) |}.
Proof.
  intros [Hg Hf Hc Hp Hco Hw He Hv Hen Hl] Hk Hi Hc' Ho Hno Hww.
  split; simpl; rewrite ?length_insert; try done.
  - by apply set_nconsumers_geometry.
  - by apply Forall_insert.
  - intros j Hj. unfold word, owners. simpl. rewrite (zcount_insert _ _ _ _ _ Hk).
    change (writing (set_nconsumers (mem s) _)) with (writing (mem s)).
    destruct (decide (j = i)) as [->|Hne].
    + rewrite list_lookup_insert_eq
        by (pose proof (g_words _ Hg); pose proof (g_cap _ Hg); unfold has_entry in *; len).
      rewrite Hno. by f_equal.
    + rewrite list_lookup_insert_ne by (unfold has_entry in *; simpl in *; lia). rewrite Hw by done.
      unfold word, owners. rewrite Ho by done. f_equal. destruct (writing _ _ j); lia.
  - intros j Hj Hwr. change (writing (mem s) (prod s) j = true) in Hwr.
    unfold owners. simpl. rewrite (zcount_insert _ _ _ _ _ Hk).
    destruct (decide (j = i)) as [->|Hne]; [by rewrite Hno in Hwr|].
    rewrite Ho by done. pose proof (He j Hj Hwr) as E. unfold owners in E. lia.
Qed.

(** A consumer that neither takes nor returns an entry. *)
Lemma consumer_pc_keeps val s k c c' :
  inv val s -> cons s !! k = Some c ->
  consumer_ok val (mem s) (p_i (prod s)) (length (cons s)) c' ->
  (forall j, owns (buf_size (mem s)) j c' = owns (buf_size (mem s)) j c) ->
  bound_kept val (p_i (prod s)) (buf_size (mem s)) c c' ->
  consumer_keeps val s k c (Ret (mem s, c')).
Proof.
  intros [Hg Hf Hc Hp Hco Hw He Hv Hen Hl] Hk Hc' Ho Hb. apply returns_ret.
  assert (forall j, owners {| mem := mem s; prod := prod s; cons := <[k := c']> (cons s) |} j =
    owners s j) as Hown.
  { intros j. unfold owners. simpl. rewrite (zcount_insert _ _ _ _ _ Hk), Ho. lia. }
  split; [|done]. split; simpl; rewrite ?length_insert; try done.
  - by apply Forall_insert.
  - intros j Hj. unfold word. rewrite Hown. by apply Hw.
  - intros j Hj. rewrite Hown. by apply He.
Qed.

Lemma bound_kept_goto val n bs c pc :
  (forall x, not_before val n bs x c -> not_before val n bs x (goto c pc)) ->
  bound_kept val n bs c (goto c pc).
Proof. intros H x Hx. split; [by apply H|]. simpl. auto. Qed.

(** The bounds on the values after a step. *)
Lemma values_kept val s n m c c' :
  consumer_ok val s n m c -> bound_kept val n (buf_size s) c c' -> c_value c' = c_value c ->
  forall x, c_value c' = Some x -> 0 <= x /\ not_before val n (buf_size s) x c'.
Proof.
  intros [H1 _] Hb Hv x Hx. rewrite Hv in Hx. destruct (H1 x Hx) as [H2 H3].
  split; [done|]. by apply Hb.
Qed.

(** A program counter that promises nothing about what will be read. *)
Definition no_bound (pc : consumer_pc) : Prop :=
  match pc with CLoad _ | CTry _ _ | CRead _ _ => False | _ => True end.

Lemma bound_kept_free val n bs c c' :
  no_bound (c_pc c') -> c_value c' = c_value c -> bound_kept val n bs c c'.
Proof.
  intros Hn Hv x [Hx _]. split; [|rewrite Hv; auto]. split; [done|]. by destruct (c_pc c').
Qed.

Lemma owner_word val s k c i :
  inv val s -> cons s !! k = Some c -> has_entry (mem s) i ->
  owns (buf_size (mem s)) i c = true ->
  writing (mem s) (prod s) i = false /\ word s i = owners s i /\
  1 <= owners s i <= Z.of_nat (length (cons s)).
Proof.
  intros Hs Hk Hi Ho. pose proof (zcount_lookup _ _ _ _ Hk Ho) as Hpos.
  pose proof (readers_bounds s i). unfold owners in *.
  assert (writing (mem s) (prod s) i = false) as Hno.
  { destruct (writing (mem s) (prod s) i) eqn:E; [|done].
    pose proof (i_excl _ _ Hs i Hi E) as Hz. unfold owners in Hz. lia. }
  split; [done|]. unfold word. rewrite Hno. unfold owners. lia.
Qed.

Lemma CPos_keeps v val s k c :
  inv val s -> cons s !! k = Some c -> c_pc c = CPos ->
  consumer_keeps val s k c (consumer_step v (mem s) c).
Proof.
  intros Hs Hk Hpc. pose proof (Forall_lookup_1 _ _ _ _ (i_cons _ _ Hs) Hk) as Hok.
  unfold consumer_step. rewrite Hpc.
  assert (bound_kept val (p_i (prod s)) (buf_size (mem s)) c (goto c (CLoad (read_pos (mem s)))))
    as Hb.
  { apply bound_kept_goto. intros x [Hx _]. split; [done|]. simpl.
    pose proof (i_latest _ _ Hs). lia. }
  apply consumer_pc_keeps; try done.
  - split; [by eapply values_kept|]. simpl. apply (i_geo _ _ Hs).
  - intros j. unfold owns. by rewrite Hpc.
Qed.

Lemma CLoad_keeps v val s k c i :
  word_based v -> inv val s -> cons s !! k = Some c -> c_pc c = CLoad i ->
  consumer_keeps val s k c (consumer_step v (mem s) c).
Proof.
  intros (Hv & _ & _) Hs Hk Hpc. pose proof (Forall_lookup_1 _ _ _ _ (i_cons _ _ Hs) Hk) as Hok.
  pose proof Hok as [_ Hi]. rewrite Hpc in Hi.
  unfold consumer_step, consumer_alloc_load. rewrite Hpc, Hv, (word_get val) by done. bind_ret.
  pose proof (readers_bounds s i).
  destruct (Z.ltb_spec (word s i) 0) as [Hlt|Hge]; cbn [fst snd].
  - assert (bound_kept val (p_i (prod s)) (buf_size (mem s)) c (goto c CPos)) as Hb
      by by apply bound_kept_free.
    apply consumer_pc_keeps; try done.
    + split; [by eapply values_kept|done].
    + intros j. unfold owns. by rewrite Hpc.
  - assert (bound_kept val (p_i (prod s)) (buf_size (mem s)) c (goto c (CTry i (word s i)))) as Hb.
    { apply bound_kept_goto. intros x. unfold not_before. by rewrite Hpc. }
    apply consumer_pc_keeps; try done.
    + split; [by eapply values_kept|]. simpl. split; [done|]. split; [done|].
      unfold word in *. destruct (writing _ _ i); lia.
    + intros j. unfold owns. by rewrite Hpc.
Qed.

Lemma CTry_keeps v val s k c i old :
  inv val s -> cons s !! k = Some c -> c_pc c = CTry i old ->
  consumer_keeps val s k c (consumer_step v (mem s) c).
Proof.
  intros Hs Hk Hpc. pose proof (Forall_lookup_1 _ _ _ _ (i_cons _ _ Hs) Hk) as Hok.
  pose proof Hok as [_ Hi]. rewrite Hpc in Hi. destruct Hi as [Hi Hold].
  pose proof (i_geo _ _ Hs) as Hg. pose proof (g_bs _ Hg). pose proof (i_few _ _ Hs).
  unfold consumer_step, consumer_alloc_try, word_cas. rewrite Hpc.
  rewrite int_op_in by (unfold int_min, int_max in *; lia). bind_ret.
  rewrite (word_get val) by done. bind_ret. destruct (Z.eqb_spec (word s i) old) as [E|_].
  - rewrite word_store_Ret by done. bind_ret.
    destruct (entry_pointer _ _ Hg Hi) as (Hp & _). cbn [buf_size set_nconsumers]. rewrite Hp. bind_ret.
    assert (writing (mem s) (prod s) i = false) as Hno.
    { unfold word in E. destruct (writing (mem s) (prod s) i); [lia|done]. }
    unfold word in E. rewrite Hno in E.
    assert (bound_kept val (p_i (prod s)) (buf_size (mem s)) c
      (goto c (CRead (i * buf_size (mem s)) []))) as Hb.
    { apply bound_kept_goto. intros x. unfold not_before. rewrite Hpc. intros [H1 H2].
      split; [done|]. intros j Hj. assert (j = i) as -> by nia. done. }
    apply returns_ret. split; [|done]. cbn [fst snd]. apply (consumer_word_inv val s k c); try done.
    + split; [by eapply values_kept|]. simpl. by exists i.
    + intros j Hj. unfold owns. rewrite Hpc. simpl. rewrite same_entry by lia. by apply Z.eqb_neq.
    + unfold owns. rewrite Hpc. simpl. rewrite Z.eqb_refl. simpl. lia.
  - assert (bound_kept val (p_i (prod s)) (buf_size (mem s)) c (goto c CPos)) as Hb
      by by apply bound_kept_free.
    apply consumer_pc_keeps; try done.
    + split; [by eapply values_kept|done].
    + intros j. unfold owns. by rewrite Hpc.
Qed.

Lemma CRead_keeps v val s k c b l :
  inv val s -> cons s !! k = Some c -> c_pc c = CRead b l ->
  consumer_keeps val s k c (consumer_step v (mem s) c).
Proof.
  intros Hs Hk Hpc. pose proof (Forall_lookup_1 _ _ _ _ (i_cons _ _ Hs) Hk) as Hok.
  pose proof Hok as [Hval Hi]. rewrite Hpc in Hi. destruct Hi as (i & -> & Hi & Hl & El).
  assert (owns (buf_size (mem s)) i c = true) as Ho by (unfold owns; by rewrite Hpc, Z.eqb_refl).
  destruct (owner_word _ _ _ _ _ Hs Hk Hi Ho) as (Hno & _).
  pose proof (i_entry _ _ Hs i Hi Hno (zlen l)) as Hget. pose proof (zlen_nonneg l).
  pose proof (i_val _ _ Hs i Hi) as Hv. pose proof (i_count _ _ Hs) as Hc.
  assert (newest (prod s) <= p_i (prod s)) as Hnew by (unfold newest; destruct (p_pc (prod s)); lia).
  unfold consumer_step. rewrite Hpc, Hget by lia. bind_ret.
  assert (l ++ [int_byte (val i) (zlen l)] = int_byte (val i) <$> seqZ 0 (zlen l + 1)) as Esnoc.
  { rewrite El at 1. rewrite seqZ_app, fmap_app by lia. by rewrite Z.add_0_l. }
  destruct (Z.ltb_spec (zlen l) 3).
  - assert (bound_kept val (p_i (prod s)) (buf_size (mem s)) c
      (goto c (CRead (i * buf_size (mem s)) (l ++ [int_byte (val i) (zlen l)])))) as Hb.
    { apply bound_kept_goto. intros x. unfold not_before. by rewrite Hpc. }
    apply consumer_pc_keeps; try done.
    + split; [by eapply values_kept|]. simpl. exists i. split; [done|]. split; [done|].
      assert (zlen (l ++ [int_byte (val i) (zlen l)]) = zlen l + 1) as -> by len.
      split; [lia|done].
    + intros j. unfold owns. by rewrite Hpc.
  - assert (zlen l + 1 = 4) as E4 by lia. rewrite E4 in Esnoc.
    rewrite Esnoc, int_of_int_bytes by (unfold count, int_max in *; lia).
    apply consumer_pc_keeps; try done.
    + split; simpl; [|by exists i]. intros x [= <-]. split; [lia|]. split; [lia|done].
    + intros j. unfold owns. by rewrite Hpc.
    + intros x. unfold not_before. rewrite Hpc. intros [H1 H2]. simpl. split; [done|].
      intros y [= <-]. right. by apply H2.
Qed.

(** The counters of [consume] are of type [int]. *)
Definition counters_full (c : consumer) : Prop :=
  in_int (c_diff c + 1) = false \/ in_int (c_same c + 1) = false.

Lemma entry_get s i :
  geometry s -> has_entry s i -> exists x, vget (buf s) (i * buf_size s) = Ret x.
Proof.
  intros Hg Hi. destruct (entry_pointer _ _ Hg Hi) as (_ & H1 & H2). apply vget_in_range. lia.
Qed.

Lemma CCheck_keeps v val s k c b :
  inv val s -> cons s !! k = Some c -> c_pc c = CCheck b \/ c_pc c = CKeep b ->
  consumer_keeps val s k c (consumer_step v (mem s) c) \/
  consumer_step v (mem s) c = Undef IntOverflow /\ counters_full c.
Proof.
  intros Hs Hk Hpc. pose proof (Forall_lookup_1 _ _ _ _ (i_cons _ _ Hs) Hk) as Hok.
  pose proof Hok as [Hval Hi].
  assert (exists i, b = i * buf_size (mem s) /\ has_entry (mem s) i) as (i & -> & He)
    by (destruct Hpc as [Hpc|Hpc]; rewrite Hpc in Hi; destruct Hi as (i & ? & ?); exists i; tauto).
  assert (forall j, owns (buf_size (mem s)) j c = (i * buf_size (mem s) =? j * buf_size (mem s)))
    as Ho by (intros j; unfold owns; by destruct Hpc as [-> | ->]).
  destruct (entry_get _ _ (i_geo _ _ Hs) He) as [x Hx].
  assert (forall c', c_value c' = c_value c ->
    c_pc c' = CKeep (i * buf_size (mem s)) \/ c_pc c' = CDone (i * buf_size (mem s)) \/
    c_pc c' = CEnd (i * buf_size (mem s)) ->
    consumer_keeps val s k c (Ret (mem s, c'))) as Hto.
  { intros c' Hv Hpc'. assert (no_bound (c_pc c')) by (by destruct Hpc' as [-> | [-> | ->]]).
    pose proof (bound_kept_free val (p_i (prod s)) (buf_size (mem s)) c c' ltac:(done) Hv) as Hb.
    apply consumer_pc_keeps; try done.
    - split; [by eapply values_kept|]. destruct Hpc' as [-> | [-> | ->]]; by exists i.
    - intros j. rewrite Ho. unfold owns. by destruct Hpc' as [-> | [-> | ->]]. }
  unfold consumer_step. destruct Hpc as [-> | ->]; rewrite Hx; bind_ret.
  - destruct (negb _); [left; apply Hto; simpl; eauto|].
    destruct (bool_decide _); [left; apply Hto; simpl; eauto|].
    unfold int_op. destruct (in_int (c_same c + 1)) eqn:E; bind_ret.
    + left. apply Hto; simpl; eauto.
    + right. split; [done|]. by right.
  - unfold int_op. destruct (in_int (c_diff c + 1)) eqn:E; bind_ret.
    + left. apply Hto; simpl; eauto.
    + right. split; [done|]. by left.
Qed.

(** A consumer returns an entry. *)
Lemma return_entry val s k c i :
  inv val s -> cons s !! k = Some c -> has_entry (mem s) i ->
  (forall j, owns (buf_size (mem s)) j c = (i * buf_size (mem s) =? j * buf_size (mem s))) ->
  consumer_keeps val s k c
    (Ret (set_nconsumers (mem s) (<[Z.to_nat i := word s i - 1]> (nconsumers (mem s))), goto c CPos)).
Proof.
  intros Hs Hk Hi Ho. pose proof (Forall_lookup_1 _ _ _ _ (i_cons _ _ Hs) Hk) as Hok.
  pose proof (g_bs _ (i_geo _ _ Hs)).
  assert (owns (buf_size (mem s)) i c = true) as Hoi by by rewrite Ho, Z.eqb_refl.
  destruct (owner_word _ _ _ _ _ Hs Hk Hi Hoi) as (Hno & Hw & _).
  assert (bound_kept val (p_i (prod s)) (buf_size (mem s)) c (goto c CPos)) as Hb
    by by apply bound_kept_free.
  apply returns_ret. split; [|done]. cbn [fst snd]. apply (consumer_word_inv val s k c); try done.
  - split; [by eapply values_kept|done].
  - intros j Hj. rewrite Ho, same_entry by lia. symmetry. apply Z.eqb_neq. lia.
  - rewrite Hoi, Hw. simpl. lia.
Qed.

Lemma CEnd_keeps v val s k c b :
  word_based v -> inv val s -> cons s !! k = Some c -> c_pc c = CEnd b ->
  consumer_keeps val s k c (consumer_step v (mem s) c).
Proof.
  intros (_ & _ & Hend) Hs Hk Hpc. pose proof (Forall_lookup_1 _ _ _ _ (i_cons _ _ Hs) Hk) as Hok.
  pose proof Hok as [_ Hi]. rewrite Hpc in Hi. destruct Hi as (i & -> & Hi).
  pose proof (i_geo _ _ Hs) as Hg. pose proof (i_few _ _ Hs).
  assert (forall j, owns (buf_size (mem s)) j c = (i * buf_size (mem s) =? j * buf_size (mem s)))
    as Ho by (intros j; unfold owns; by rewrite Hpc).
  destruct (owner_word _ _ _ _ i Hs Hk Hi) as (Hno & Hw & Hpos); [by rewrite Ho, Z.eqb_refl|].
  pose proof (return_entry val s k c i Hs Hk Hi Ho) as Hret.
  unfold consumer_step, consumer_alloc_end. rewrite Hpc, entry_index by done. bind_ret.
  destruct (on_end v); [..|done]; rewrite (word_get val) by done; bind_ret.
  - assert (bound_kept val (p_i (prod s)) (buf_size (mem s)) c
      (goto c (CEndCas (i * buf_size (mem s)) i (word s i)))) as Hb by by apply bound_kept_free.
    apply consumer_pc_keeps; try done.
    split; [by eapply values_kept|]. simpl. rewrite Hw. done.
  - rewrite to_int_small by (unfold int_min, int_max in *; lia). by rewrite word_store_Ret by done.
  - rewrite to_int_small by (unfold int_min, int_max in *; lia). rewrite word_store_Ret by done.
    bind_ret. by rewrite (proj2 (Z.ltb_ge (word s i - 1) 0)) by lia.
Qed.

Lemma CEndCas_keeps v val s k c b i old :
  inv val s -> cons s !! k = Some c -> c_pc c = CEndCas b i old ->
  consumer_keeps val s k c (consumer_step v (mem s) c).
Proof.
  intros Hs Hk Hpc. pose proof (Forall_lookup_1 _ _ _ _ (i_cons _ _ Hs) Hk) as Hok.
  pose proof Hok as [_ Hi]. rewrite Hpc in Hi. destruct Hi as (-> & Hi & Hold).
  pose proof (i_geo _ _ Hs) as Hg. pose proof (i_few _ _ Hs).
  assert (forall j, owns (buf_size (mem s)) j c = (i * buf_size (mem s) =? j * buf_size (mem s)))
    as Ho by (intros j; unfold owns; by rewrite Hpc).
  unfold consumer_step, word_cas. rewrite Hpc.
  rewrite int_op_in by (unfold int_min, int_max in *; lia). bind_ret.
  rewrite (word_get val) by done. bind_ret. destruct (Z.eqb_spec (word s i) old) as [<-|_].
  - rewrite word_store_Ret by done. by apply return_entry.
  - assert (bound_kept val (p_i (prod s)) (buf_size (mem s)) c (goto c (CEnd (i * buf_size (mem s)))))
      as Hb by by apply bound_kept_free.
    apply consumer_pc_keeps; try done.
    split; [by eapply values_kept|]. simpl. by exists i.
Qed.

Lemma consumer_step_keeps v val s k c :
  word_based v -> inv val s -> cons s !! k = Some c ->
  consumer_keeps val s k c (consumer_step v (mem s) c) \/
  consumer_step v (mem s) c = Undef IntOverflow /\ counters_full c.
Proof.
  intros Hv Hs Hk. destruct (c_pc c) as [|i|i old|b l|b|b|b|b i old|b] eqn:Hpc.
  - left. by apply CPos_keeps.
  - left. by eapply CLoad_keeps.
  - left. by eapply CTry_keeps.
  - left. by eapply CRead_keeps.
  - eapply CCheck_keeps; eauto.
  - eapply CCheck_keeps; eauto.
  - left. by eapply CEnd_keeps.
  - left. by eapply CEndCas_keeps.
  - left. unfold consumer_step. rewrite Hpc. apply consumer_pc_keeps; try done.
    + by apply (Forall_lookup_1 _ _ _ _ (i_cons _ _ Hs) Hk).
    + apply bound_kept_free; [by rewrite Hpc|done].
Qed.

(** ** Runs of the versions with atomic words *)

(** Consumer [k] will not read a number below [x - 1]. *)
Definition beyond (x : Z) (k : nat) (val : Z -> Z) (s : system) : Prop :=
  exists c, cons s !! k = Some c /\
    not_before val (p_i (prod s)) (buf_size (mem s)) x c /\
    forall y, c_value c = Some y -> x - 1 <= y.

Lemma step_inv v val s s' :
  word_based v -> inv val s -> step v s s' ->
  exists val', inv val' s' /\ buf_size (mem s') = buf_size (mem s) /\
    forall x k, beyond x k val s -> beyond x k val' s'.
Proof.
  intros Hv Hs Hst. destruct Hst as [s s' H|s k s' H].
  - destruct (producer_step_keeps v val s Hv Hs) as (y & Hy & val' & Hinv & Hg & Hn & Hb).
    unfold by_producer in H. rewrite Hy in H. injection H as <-. exists val'. split; [done|].
    split; [done|]. intros x k (c & Hk & Hnb & Hval). exists c. split; [done|]. split; [|done].
    simpl. rewrite Hb. by eapply not_before_mono.
  - unfold by_consumer in H. destruct (cons s !! k) as [c|] eqn:Hk; [|simplify_eq; eauto].
    destruct (consumer_step_keeps v val s k c Hv Hs Hk) as [(y & Hy & Hinv & Hb & Hkept)|[E _]];
      [|by rewrite E in H].
    rewrite Hy in H. injection H as <-. exists val. split; [done|].
    split; [done|]. intros x k' (c' & Hk' & Hnb & Hval). unfold beyond. simpl. rewrite Hb.
    destruct (decide (k' = k)) as [->|Hne].
    + assert (c' = c) as -> by congruence. exists y.2.
      rewrite list_lookup_insert_eq by (by eapply lookup_lt_Some). split; [done|].
      destruct (Hkept x Hnb) as [H1 H2]. split; [done|].
      intros z Hz. destruct (H2 z Hz) as [|]; [by apply Hval|done].
    + exists c'. by rewrite list_lookup_insert_ne by done.
Qed.

Definition good (s : system) : Prop := exists val, inv val s.

Lemma good_run v s s' : word_based v -> good s -> rtc (step v) s s' -> good s'.
Proof.
  intros Hv. apply rtc_preserves. intros a b [val Hs] Hst.
  destruct (step_inv v val a b Hv Hs Hst) as (val' & H & _). by exists val'.
Qed.

(** ** What an entry holds was stored there as a whole *)

(** The entries and their number are as before. *)
Definition same_entries (s s' : spmc_t) : Prop := capacity s' = capacity s /\ buf s' = buf s.

Lemma word_store_entries s i w s' : word_store s i w = Ret s' -> same_entries s s'.
Proof. unfold word_store. intros H. by apply bind_Ret in H as (l & _ & [= <-]). Qed.

Lemma word_cas_entries s i x y s' : word_cas s i x y = Ret (Some s') -> same_entries s s'.
Proof.
  unfold word_cas. intros H. apply bind_Ret in H as (w & _ & H). destruct (w =? x); [|done].
  apply bind_Ret in H as (t & H & [= <-]). by eapply word_store_entries.
Qed.

Lemma consumer_alloc_end_entries v s b r :
  word_based v -> consumer_alloc_end v s b = Ret r -> same_entries s r.1.
Proof.
  intros (_ & _ & Hv) H. unfold consumer_alloc_end in H. apply bind_Ret in H as (i & _ & H).
  destruct (on_end v); [| | |done]; apply bind_Ret in H as (w & _ & H).
  - by injection H as <-.
  - apply bind_Ret in H as (s' & H' & [= <-]). by eapply word_store_entries.
  - apply bind_Ret in H as (s' & H' & H). destruct (_ <? 0); [done|]. injection H as <-.
    by eapply word_store_entries.
Qed.

(** Consumers only read the entries. *)
Lemma consumer_step_entries v s c r :
  word_based v -> consumer_step v s c = Ret r -> same_entries s r.1.
Proof.
  intros Hv H. pose proof Hv as (Hw & _). unfold consumer_step in H.
  destruct (c_pc c) as [|i|i old|b l|b|b|b|b i old|b].
  - by injection H as <-.
  - apply bind_Ret in H as (x & Hx & [= <-]). unfold consumer_alloc_load in Hx. rewrite Hw in Hx.
    by apply bind_Ret in Hx as (w & _ & [= <-]).
  - apply bind_Ret in H as (x & Hx & [= <-]). unfold consumer_alloc_try in Hx.
    apply bind_Ret in Hx as (n & _ & Hx). apply bind_Ret in Hx as ([s'|] & Hg & Hx); [|by injection Hx as <-].
    apply bind_Ret in Hx as (y & _ & [= <-]). by eapply word_cas_entries.
  - apply bind_Ret in H as (x & _ & H). destruct (zlen l <? 3); by injection H as <-.
  - apply bind_Ret in H as (x & _ & H). destruct (negb _); [by injection H as <-|].
    destruct (bool_decide _); [by injection H as <-|]. by apply bind_Ret in H as (y & _ & [= <-]).
  - apply bind_Ret in H as (x & _ & H). by apply bind_Ret in H as (y & _ & [= <-]).
  - apply bind_Ret in H as (x & Hx & [= <-]). by eapply consumer_alloc_end_entries.
  - apply bind_Ret in H as (n & _ & H). apply bind_Ret in H as ([s'|] & Hg & [= <-]); [|done].
    by eapply word_cas_entries.
  - by injection H as <-.
Qed.

(** The producer stores to the entry that it is writing, and to no other. *)
Lemma producer_step_entries v s p r :
  word_based v -> producer_step v s p = Ret r ->
  capacity r.1 = capacity s /\
  match p_pc p with
  | PStore b k => vset (buf s) (b + k) (int_byte (p_i p) k) = Ret (buf r.1)
  | _ => buf r.1 = buf s
  end.
Proof.
  intros (Hw & Hrel & _) H. unfold producer_step in H.
  destruct (p_pc p) as [|j|j|b k|b|j|j old|].
  - by injection H as <-.
  - apply bind_Ret in H as (w & _ & H). destruct (w =? 0); [by injection H as <-|].
    by apply bind_Ret in H as (n & _ & [= <-]).
  - apply bind_Ret in H as (y & Hy & [= <-]). unfold producer_alloc_try in Hy.
    apply bind_Ret in Hy as ([s'|] & Hg & Hy); unfold lock_to_write in Hg; rewrite Hw in Hg.
    + apply bind_Ret in Hy as (a & _ & Hy). apply bind_Ret in Hy as (b & _ & Hy).
      apply bind_Ret in Hy as (c & _ & [= <-]). exact (word_cas_entries _ _ _ _ _ Hg).
    + by apply bind_Ret in Hy as (a & _ & [= <-]).
  - by apply bind_Ret in H as (l & Hl & [= <-]).
  - apply bind_Ret in H as (y & Hy & [= <-]). unfold producer_alloc_end_unlock in Hy.
    apply bind_Ret in Hy as (n & _ & Hy). apply bind_Ret in Hy as (s' & Hu & [= <-]).
    unfold producer_unlock in Hu. destruct (on_release v); [|exact (word_store_entries _ _ _ _ Hu)|done].
    apply bind_Ret in Hu as ([t|] & Hg & Hu); [|done]. injection Hu as <-. exact (word_cas_entries _ _ _ _ _ Hg).
  - by injection H as <-.
  - unfold producer_publish in H. destruct (on_publish v).
    + destruct (read_pos s =? old); [|by injection H as <-]. by apply bind_Ret in H as (n & _ & [= <-]).
    + by apply bind_Ret in H as (n & _ & [= <-]).
  - by injection H as <-.
Qed.

Lemma step_capacity v s s' : word_based v -> step v s s' -> capacity (mem s') = capacity (mem s).
Proof.
  intros Hv [t t' H|t k t' H].
  - apply bind_Ret in H as (r & Hr & [= <-]). by apply (producer_step_entries v _ _ _ Hv Hr).
  - unfold by_consumer in H. destruct (cons t !! k) as [c|]; [|by injection H as <-].
    apply bind_Ret in H as (r & Hr & [= <-]). by apply (consumer_step_entries v _ _ _ Hv Hr).
Qed.

Lemma stored_unique s b x y :
  0 <= x <= int_max -> 0 <= y <= int_max -> stored s b x 4 -> stored s b y 4 -> x = y.
Proof.
  intros Hx Hy H1 H2. rewrite <- (int_of_int_bytes x Hx), <- (int_of_int_bytes y Hy). f_equal.
  apply list_fmap_ext. intros i k Hk. apply lookup_seqZ in Hk as [-> Hk].
  specialize (H1 (0 + Z.of_nat i) ltac:(lia)). specialize (H2 (0 + Z.of_nat i) ltac:(lia)). congruence.
Qed.

(** On the way from [s0] to [s] the producer has stored [x] completely at [p]. *)
Definition stored_whole (v : version) (s0 s : system) (p x : Z) : Prop :=
  exists s1, rtc (step v) s0 s1 /\ rtc (step v) s1 s /\ p_pc (prod s1) = PUnlock p /\ p_i (prod s1) = x.

Definition all_whole (v : version) (s0 s : system) (val : Z -> Z) : Prop :=
  forall i, has_entry (mem s) i -> writing (mem s) (prod s) i = false ->
    val i = 0 \/ stored_whole v s0 s (i * buf_size (mem s)) (val i).

Lemma stored_whole_step v s0 s s' p x : stored_whole v s0 s p x -> step v s s' -> stored_whole v s0 s' p x.
Proof. intros (s1 & H1 & H2 & H3) Hst. exists s1. split; [done|]. split; [by eapply rtc_r|done]. Qed.

Lemma val_int val s i : inv val s -> has_entry (mem s) i -> 0 <= val i <= int_max.
Proof.
  intros Hs Hi. pose proof (i_val _ _ Hs i Hi). pose proof (i_count _ _ Hs). unfold count, int_max in *.
  assert (newest (prod s) <= Z.max 0 (p_i (prod s))) by (unfold newest; destruct (p_pc (prod s)); lia). lia.
Qed.

Lemma step_keeps_stored v val s s' i x :
  word_based v -> inv val s -> step v s s' -> has_entry (mem s) i -> writing (mem s) (prod s) i = false ->
  stored (mem s) (i * buf_size (mem s)) x 4 -> stored (mem s') (i * buf_size (mem s)) x 4.
Proof.
  intros Hv Hs Hst Hi Hno Hx. destruct Hst as [s s' H|s k s' H].
  - apply bind_Ret in H as (r & Hr & [= <-]). cbn [mem].
    apply (producer_step_entries v _ _ _ Hv) in Hr as [_ Hb]. pose proof (i_prod _ _ Hs) as Hok.
    unfold producer_ok in Hok. unfold writing in Hno.
    destruct (p_pc (prod s)) as [| | |b k| | | |]; try (unfold stored; by rewrite Hb).
    destruct Hok as (j & -> & Hj & _ & _ & Hk & _). pose proof (i_geo _ _ Hs) as Hg.
    pose proof (g_bs _ Hg). destruct (entry_pointer _ _ Hg Hj) as (_ & H0 & H4).
    rewrite vset_in_range in Hb by lia. injection Hb as Hb. rewrite same_entry in Hno by lia.
    apply Z.eqb_neq in Hno. unfold stored. rewrite <- Hb.
    apply (stored_set (mem s) (j * buf_size (mem s)) k); [lia| |done].
    unfold has_entry in *. intros m Hm. split; [|nia]. destruct (Z.lt_trichotomy i j) as [|[|]]; [nia|done|nia].
  - unfold by_consumer in H. destruct (cons s !! k) as [c|]; [|by injection H as <-].
    apply bind_Ret in H as (r & Hr & [= <-]). unfold stored. cbn [mem].
    by rewrite (proj2 (consumer_step_entries v _ _ _ Hv Hr)).
Qed.

(** The entry that the producer has just unlocked. *)
Lemma unlocked_entry v val s s' i :
  word_based v -> inv val s -> step v s s' -> buf_size (mem s') = buf_size (mem s) ->
  writing (mem s) (prod s) i = true -> writing (mem s') (prod s') i = false ->
  p_pc (prod s) = PUnlock (i * buf_size (mem s)) /\
  stored (mem s') (i * buf_size (mem s)) (p_i (prod s)) 4.
Proof.
  intros Hv Hs Hst Hb Hw Hno. unfold writing in Hw, Hno. rewrite Hb in Hno.
  destruct Hst as [s s' H|s k s' H].
  2: { unfold by_consumer in H. destruct (cons s !! k) as [c|]; [|injection H as <-; by rewrite Hw in Hno].
    apply bind_Ret in H as (r & _ & [= <-]). cbn [prod] in Hno. by rewrite Hw in Hno. }
  apply bind_Ret in H as (r & H & [= <-]). cbn [mem prod] in *. pose proof (i_prod _ _ Hs) as Hok.
  pose proof (producer_step_entries v _ _ _ Hv H) as [_ Hbuf].
  unfold producer_step in H. unfold producer_ok in Hok.
  destruct (p_pc (prod s)) as [|j|j|b k|b|j|j old|] eqn:Hpc; try done.
  - apply bind_Ret in H as (l & _ & [= <-]). cbn [p_pc snd] in Hno. by destruct (k <? 3); rewrite Hw in Hno.
  - apply Z.eqb_eq in Hw as ->. split; [done|]. destruct Hok as (j & _ & _ & _ & _ & Hst).
    unfold stored. by rewrite Hbuf.
Qed.

Lemma whole_step v s0 s s' val val' :
  word_based v -> rtc (step v) s0 s -> inv val s -> inv val' s' -> step v s s' ->
  buf_size (mem s') = buf_size (mem s) -> all_whole v s0 s val -> all_whole v s0 s' val'.
Proof.
  intros Hv Hr Hs Hs' Hst Hb Hall i Hi Hno. pose proof (i_entry _ _ Hs' i Hi Hno) as Hst'. rewrite Hb in *.
  assert (has_entry (mem s) i) as Hi0 by (unfold has_entry; by rewrite <- (step_capacity v s s' Hv Hst)).
  pose proof (val_int _ _ _ Hs' Hi) as Hint. destruct (writing (mem s) (prod s) i) eqn:Hw.
  - right. destruct (unlocked_entry v val s s' i Hv Hs Hst Hb Hw Hno) as [Hpc Hp].
    pose proof (i_count _ _ Hs) as Hc. exists s. split; [done|]. split; [by apply rtc_once|]. split; [done|].
    eapply stored_unique; [unfold count, int_max in *; lia|exact Hint|exact Hp|exact Hst'].
  - assert (val' i = val i) as ->.
    { eapply stored_unique; [exact Hint|by apply (val_int _ _ _ Hs)|exact Hst'|].
      eapply step_keeps_stored; try done. by apply (i_entry _ _ Hs). }
    destruct (Hall i Hi0 Hw) as [|H]; [by left|right]. by eapply stored_whole_step.
Qed.

Lemma whole_run v s0 s :
  word_based v -> inv (fun _ => 0) s0 -> rtc (step v) s0 s -> exists val, inv val s /\ all_whole v s0 s val.
Proof.
  intros Hv H0. revert s. apply (rtc_ind_r (fun s => exists val, inv val s /\ all_whole v s0 s val)).
  - exists (fun _ => 0). split; [done|]. by left.
  - intros s s' Hr Hst (val & Hs & Hall).
    destruct (step_inv v val s s' Hv Hs Hst) as (val' & Hs' & Hb & _). exists val'. split; [done|].
    by eapply whole_step.
Qed.

Lemma beyond_run v x k s s' :
  word_based v -> (exists val, inv val s /\ beyond x k val s) -> rtc (step v) s s' ->
  exists val, inv val s' /\ beyond x k val s'.
Proof.
  intros Hv. apply (rtc_preserves _ (fun s => exists val, inv val s /\ beyond x k val s)).
  intros a b (val & Hs & Hx) Hst. destruct (step_inv v val a b Hv Hs Hst) as (val' & H & _ & Hb).
  eauto.
Qed.

(** [main_p] on a new segment. *)
Definition geometry_ok (entry_num bsize : Z) (readers : nat) : Prop :=
  0 < entry_num <= ENTRY_NUM_MAX /\ 4 <= bsize /\ entry_num * bsize <= int_max /\
  Z.of_nat readers < int_max.

Lemma zero_words n i s :
  nconsumers s = replicate (Z.to_nat ENTRY_NUM_MAX) 0 -> 0 <= i ->
  i + Z.of_nat n <= ENTRY_NUM_MAX ->
  for_loop n i (fun i s => word_store s i 0) s = Ret s.
Proof.
  intros Hs. revert i. induction n as [|n IH]; intros i Hi Hn; [done|].
  assert (word_store s i 0 = Ret s) as E.
  { unfold word_store. rewrite vset_in_range by (rewrite Hs; len). bind_ret.
    rewrite list_insert_id; [by destruct s|]. rewrite Hs. apply lookup_replicate_2. lia. }
  cbn [for_loop]. rewrite E. apply IH; lia.
Qed.

Definition started (entry_num bsize : Z) : spmc_t :=
  {| key := SHM_KEY; size := 0; capacity := entry_num; buf_size := bsize; write_pos := 0;
     read_pos := 0; nconsumers := replicate (Z.to_nat ENTRY_NUM_MAX) 0;
     buf := replicate (Z.to_nat (entry_num * bsize)) 0 |}.

Lemma main_fresh v e b readers :
  geometry_ok e b readers ->
  main v (fresh_segment e b) e b readers = Ret (start (started e b) readers).
Proof.
  intros (He & Hb & Hi & _). unfold main, spmc_init.
  rewrite (proj2 (Z.leb_gt e 0)), (proj2 (Z.ltb_ge ENTRY_NUM_MAX e)), (proj2 (Z.leb_gt b 0)) by lia.
  cbn [orb]. rewrite int_op_in by (unfold int_min, int_max in *; nia). bind_ret.
  cbn [write_pos read_pos fresh_segment nconsumers buf capacity].
  rewrite zero_words; [|done|lia|lia]. bind_ret. unfold started. by destruct (resets_pos v).
Qed.

Lemma start_inv e b readers :
  geometry_ok e b readers -> inv (fun _ => 0) (start (started e b) readers).
Proof.
  intros (He & Hb & Hi & Hr). split; simpl; rewrite ?length_replicate; try done.
  - split; unfold has_entry; simpl; try done; try lia. unfold zlen. rewrite length_replicate. nia.
  - by apply Forall_replicate.
  - intros i Hie. unfold word, owners. simpl.
    assert (zcount (owns b i) (replicate readers consume) = 0) as ->.
    { clear. induction readers; simpl; auto. }
    apply (lookup_replicate_2 (Z.to_nat ENTRY_NUM_MAX)). unfold has_entry in Hie. simpl in Hie. lia.
  - intros i Hie _ j Hj. unfold has_entry in Hie. simpl in *. apply vget_Ret. split; [nia|].
    assert (int_byte 0 j = 0) as ->.
    { unfold int_byte. by rewrite Z.div_0_l by (apply Z.pow_nonzero; lia). }
    simpl. apply lookup_replicate_2. nia.
Qed.

Lemma reachable_good v e b readers s0 s :
  v ∈ word_versions -> geometry_ok e b readers ->
  main v (fresh_segment e b) e b readers = Ret s0 -> rtc (step v) s0 s -> good s.
Proof.
  intros Hv Hg H0 Hr. rewrite main_fresh in H0 by done. injection H0 as <-.
  eapply good_run; [by apply word_versions_based| |done]. eexists. by apply start_inv.
Qed.

(** ** A consumer that runs alone *)

Fixpoint consumer_run (v : version) (n : nat) (m : spmc_t) (c : consumer)
    : outcome (spmc_t * consumer) :=
  match n with
  | O => Ret (m, c)
  | S n => r ← consumer_step v m c; consumer_run v n r.1 r.2
  end.

Lemma run_alone v k n s c :
  cons s !! k = Some c ->
  run v (replicate n (Some k)) s =
  (r ← consumer_run v n (mem s) c;
   Ret {| mem := r.1; prod := prod s; cons := <[k := r.2]> (cons s) |}).
Proof.
  revert s c. induction n as [|n IH]; intros s c Hk; cbn [replicate run consumer_run].
  - bind_ret. cbn [fst snd]. rewrite list_insert_id by done. by destruct s.
  - unfold by_consumer. rewrite Hk. destruct (consumer_step v (mem s) c) as [r| | |]; try done.
    bind_ret. rewrite (IH _ r.2).
    + cbn [mem prod cons]. destruct (consumer_run v n r.1 r.2); try done. bind_ret.
      by rewrite list_insert_insert_eq.
    + apply list_lookup_insert_eq. by eapply lookup_lt_Some.
Qed.

(** Reading the four bytes of an entry. *)
Lemma read_byte v m c b l y :
  c_pc c = CRead b l -> zlen l < 3 -> vget (buf m) (b + zlen l) = Ret y ->
  consumer_step v m c = Ret (m, goto c (CRead b (l ++ [y]))).
Proof.
  intros Hpc Hl Hy. unfold consumer_step. rewrite Hpc, Hy. bind_ret.
  by rewrite (proj2 (Z.ltb_lt _ _) Hl).
Qed.

Lemma consumer_run_read v m c b x :
  stored m b x 4 -> 0 <= x <= int_max -> c_pc c = CRead b [] ->
  exists c', consumer_run v 4 m c = Ret (m, c') /\ c_value c' = Some x.
Proof.
  intros Hst Hx Hpc. cbn [consumer_run].
  rewrite (read_byte v m c b [] (int_byte x 0)) by (done || by apply Hst). bind_ret. cbn [fst snd app].
  rewrite (read_byte v m _ b [int_byte x 0] (int_byte x 1)) by (done || by apply Hst).
  bind_ret. cbn [fst snd app].
  rewrite (read_byte v m _ b [int_byte x 0; int_byte x 1] (int_byte x 2)) by (done || by apply Hst).
  bind_ret. cbn [fst snd app]. unfold consumer_step. cbn [c_pc goto].
  change (zlen [int_byte x 0; int_byte x 1; int_byte x 2]) with 3. rewrite (Hst 3) by lia. bind_ret.
  eexists. split; [reflexivity|]. cbn [fst snd c_value app]. f_equal. by apply int_of_int_bytes.
Qed.

(** Locking the published entry, which nobody is writing. *)
Lemma consumer_run_alloc v val s c :
  word_based v -> inv val s -> c_pc c = CPos -> p_pc (prod s) = PDone ->
  let i := read_pos (mem s) in
  consumer_run v 3 (mem s) c =
  Ret (set_nconsumers (mem s) (<[Z.to_nat i := word s i + 1]> (nconsumers (mem s))),
       goto c (CRead (i * buf_size (mem s)) [])).
Proof.
  intros (Hv & _ & _) Hs Hpc Hd i. pose proof (i_geo _ _ Hs) as Hg.
  assert (has_entry (mem s) i) as Hi by apply Hg. pose proof (readers_bounds s i).
  pose proof (i_few _ _ Hs).
  assert (word s i = owners s i) as Hw by (unfold word, writing; by rewrite Hd).
  assert (consumer_step v (mem s) c = Ret (mem s, goto c (CLoad i))) as E1
    by (unfold consumer_step; by rewrite Hpc).
  assert (consumer_step v (mem s) (goto c (CLoad i)) = Ret (mem s, goto c (CTry i (word s i)))) as E2.
  { unfold consumer_step, consumer_alloc_load. cbn [c_pc goto]. rewrite Hv, (word_get val) by done.
    bind_ret. by rewrite (proj2 (Z.ltb_ge (word s i) 0)) by lia. }
  cbn [consumer_run]. rewrite E1. bind_ret. cbn [fst snd]. rewrite E2. bind_ret. cbn [fst snd].
  unfold consumer_step, consumer_alloc_try, word_cas. cbn [c_pc goto].
  rewrite int_op_in by (unfold int_min, int_max in *; lia). bind_ret.
  rewrite (word_get val) by done. bind_ret. rewrite Z.eqb_refl, word_store_Ret by done. bind_ret.
  cbn [buf_size set_nconsumers]. by rewrite (proj1 (entry_pointer _ _ Hg Hi)).
Qed.

Lemma consumer_run_app v n m s c :
  consumer_run v (n + m) s c = (r ← consumer_run v n s c; consumer_run v m r.1 r.2).
Proof.
  revert s c. induction n as [|n IH]; intros s c; [done|]. cbn [Nat.add consumer_run].
  destruct (consumer_step v s c) as [r| | |]; try done. bind_ret. apply IH.
Qed.

(** ** Fewer consumers than entries never hold up the producer *)

Fixpoint zsum (f : Z -> Z) (n : nat) : Z :=
  match n with
  | O => 0
  | S n => f (Z.of_nat n) + zsum f n
  end.

Lemma zsum_add f g n : zsum (fun j => f j + g j) n = zsum f n + zsum g n.
Proof. induction n as [|n IH]; simpl; lia. Qed.

Lemma zsum_ge f n : (forall j, 0 <= j < Z.of_nat n -> 1 <= f j) -> Z.of_nat n <= zsum f n.
Proof.
  induction n as [|n IH]; intros H; [done|]. cbn [zsum].
  pose proof (H (Z.of_nat n) ltac:(lia)). pose proof (IH ltac:(intros; apply H; lia)). lia.
Qed.

Lemma owns_once bs c n :
  0 < bs -> zsum (fun j => Z.b2z (owns bs j c)) n <= 1 /\
  ((exists i, Z.of_nat n <= i /\ owns bs i c = true) ->
   zsum (fun j => Z.b2z (owns bs j c)) n = 0).
Proof.
  intros Hbs. induction n as [|n [IH1 IH2]]; cbn [zsum]; [lia|].
  destruct (owns bs (Z.of_nat n) c) eqn:E; cbn [Z.b2z].
  - rewrite IH2 by (exists (Z.of_nat n); split; [lia|done]). split; [lia|].
    intros (i & Hi & Ho). unfold owns in *. destruct (c_pc c); try done;
      apply Z.eqb_eq in E, Ho; nia.
  - split; [lia|]. intros (i & Hi & Ho). rewrite IH2; [lia|]. exists i. split; [lia|done].
Qed.

Lemma owners_sum bs l n :
  0 < bs -> zsum (fun j => zcount (owns bs j) l) n <= Z.of_nat (length l).
Proof.
  intros Hbs. induction l as [|c l IH]; cbn [zcount length].
  - induction n; cbn [zsum]; lia.
  - rewrite (zsum_add (fun j => Z.b2z (owns bs j c))). pose proof (owns_once bs c n Hbs). lia.
Qed.

Lemma some_free s :
  geometry (mem s) -> Z.of_nat (length (cons s)) < capacity (mem s) ->
  exists j, has_entry (mem s) j /\ owners s j = 0.
Proof.
  intros Hg Hfew. pose proof (g_bs _ Hg). pose proof (g_cap _ Hg).
  pose proof (owners_sum (buf_size (mem s)) (cons s) (Z.to_nat (capacity (mem s))) ltac:(lia)).
  destruct (decide (Exists (fun j => owners s j = 0) (seqZ 0 (capacity (mem s))))) as [He|Hno].
  - apply Exists_exists in He as (j & Hj & E). apply elem_of_seqZ in Hj.
    exists j. unfold has_entry. split; [lia|done].
  - exfalso.
    assert (Z.of_nat (Z.to_nat (capacity (mem s))) <=
      zsum (fun j => zcount (owns (buf_size (mem s)) j) (cons s)) (Z.to_nat (capacity (mem s)))) as Hge.
    { apply zsum_ge. intros j Hj. pose proof (zcount_nonneg (owns (buf_size (mem s)) j) (cons s)).
      destruct (decide (zcount (owns (buf_size (mem s)) j) (cons s) = 0)); [|lia].
      destruct Hno. apply Exists_exists. exists j. split; [apply elem_of_seqZ; lia|done]. }
    lia.
Qed.

(** Entry [i + d] of the ring is free. *)
Definition free_at (s : system) (i d : Z) : Prop :=
  0 <= d < ENTRY_NUM_MAX /\ owners s ((i + d) mod capacity (mem s)) = 0.

(** The producer between two steps of its own: where it looks for an entry one
    is free at distance [d], and it knows [read_pos]. *)
Definition looks (v : version) (s : system) (d : Z) : Prop :=
  match p_pc (prod s) with
  | PTest i | PTry i => free_at s i d
  | PPublish i old => on_publish v = PublishCas -> old = read_pos (mem s)
  | _ => True
  end.

Definition steps_left (p : producer) (d : Z) : Z :=
  1000 * (count - p_i p) +
  match p_pc p with
  | PTop => 200
  | PTest _ => 11 + 2 * d
  | PTry _ => 10 + 2 * d
  | PStore _ k => 9 - k
  | PUnlock _ => 4
  | PPos _ => 3
  | PPublish _ _ => 2
  | PDone => 0
  end.

Lemma free_next s i d :
  geometry (mem s) -> has_entry (mem s) i -> free_at s i d -> owners s i <> 0 ->
  1 <= d /\ free_at s ((i + 1) mod capacity (mem s)) (d - 1).
Proof.
  intros Hg Hi [Hd Hf] Hw. destruct (decide (d = 0)) as [->|Hne].
  - rewrite Z.add_0_r, Z.mod_small in Hf by apply Hi. done.
  - split; [lia|]. split; [lia|]. rewrite Zplus_mod_idemp_l.
    by replace (i + 1 + (d - 1)) with (i + d) by lia.
Qed.

(** What one step of the producer gives, as far as progress goes. *)
Definition advances (v : version) (s : system) (d : Z) (x : spmc_t * producer) : Prop :=
  capacity x.1 = capacity (mem s) /\
  exists d', looks v {| mem := x.1; prod := x.2; cons := cons s |} d' /\
    0 <= steps_left x.2 d' < steps_left (prod s) d.

Lemma advances_at v val s d i m :
  inv val s -> free_at s i d -> p_i (prod s) < count -> steps_left (prod s) m >=
    1000 * (count - p_i (prod s)) + 12 + 2 * d ->
  advances v s m (mem s, {| p_pc := at_entry v i; p_i := p_i (prod s) |}).
Proof.
  intros Hs Hf Hn Hm. pose proof (i_count _ _ Hs). destruct Hf as [Hd Hf]. split; [done|]. exists d.
  unfold at_entry, looks, free_at, steps_left in *. cbn [p_pc p_i mem prod cons].
  destruct (loads_first v); cbn [p_pc p_i snd]; (split; [done|]); lia.
Qed.
Lemma free_from s i :
  geometry (mem s) -> has_entry (mem s) i -> Z.of_nat (length (cons s)) < capacity (mem s) ->
  exists d, free_at s i d.
Proof.
  intros Hg Hi Hfew. destruct (some_free s Hg Hfew) as (j & Hj & E). pose proof (g_cap _ Hg).
  exists ((j - i) mod capacity (mem s)).
  pose proof (Z.mod_pos_bound (j - i) (capacity (mem s)) ltac:(lia)). split; [lia|].
  rewrite Zplus_mod_idemp_r. replace (i + (j - i)) with j by lia. by rewrite Z.mod_small.
Qed.

Lemma word_store_capacity s i w s' : word_store s i w = Ret s' -> capacity s' = capacity s.
Proof. intros H. apply bind_Ret in H as (l & _ & H). by injection H as <-. Qed.

Lemma producer_unlock_capacity v s i s' :
  on_release v <> ReleaseUnlock -> producer_unlock v s i = Ret s' -> capacity s' = capacity s.
Proof.
  unfold producer_unlock, word_cas. intros Hv H. destruct (on_release v); [..|done].
  - apply bind_Ret in H as (r & Hr & H). destruct r as [s1|]; [|done]. injection H as <-.
    apply bind_Ret in Hr as (w & _ & Hr). destruct (w =? -1); [|done].
    apply bind_Ret in Hr as (s2 & H2 & Hr). injection Hr as ->. by eapply word_store_capacity.
  - by eapply word_store_capacity.
Qed.

Lemma PTry_advances v val s d i x :
  locks v = Words -> inv val s -> p_pc (prod s) = PTry i -> free_at s i d ->
  producer_step v (mem s) (prod s) = Ret x -> advances v s d x.
Proof.
  intros Hv Hs Hpc Hf Hx. pose proof (i_geo _ _ Hs) as Hg. pose proof (i_count _ _ Hs).
  pose proof (i_prod _ _ Hs) as Hok. unfold producer_ok in Hok. rewrite Hpc in Hok.
  destruct Hok as [Hi Hn].
  assert (word s i = owners s i) as Hw by (unfold word, writing; by rewrite Hpc).
  unfold producer_step, producer_alloc_try, lock_to_write, word_cas in Hx.
  rewrite Hpc, Hv, (word_get val), Hw in Hx by done. cbn [mbind outcome_bind] in Hx.
  destruct (Z.eqb_spec (owners s i) 0) as [E|E].
  - rewrite word_store_Ret in Hx by done. cbn [mbind outcome_bind] in Hx.
    apply bind_Ret in Hx as (r & Hr & Hx). injection Hx as <-.
    apply bind_Ret in Hr as (sz & _ & Hr). apply bind_Ret in Hr as (b & _ & Hr).
    apply bind_Ret in Hr as (wp & _ & Hr). injection Hr as <-. destruct Hf as [Hd _].
    split; [done|]. exists 0. split; [done|]. unfold steps_left. rewrite Hpc. simpl. lia.
  - rewrite next_entry_Ret in Hx by done. injection Hx as <-.
    destruct (free_next s i d Hg Hi Hf E) as [Hd Hf']. apply (advances_at v val s (d - 1)); try done.
    unfold steps_left. rewrite Hpc. lia.
Qed.

Lemma producer_advances v val s d x :
  word_based v -> inv val s -> looks v s d -> Z.of_nat (length (cons s)) < capacity (mem s) ->
  p_pc (prod s) <> PDone -> producer_step v (mem s) (prod s) = Ret x -> advances v s d x.
Proof.
  intros (Hv & Hrel & _) Hs Hlk Hfew Hnd Hx. pose proof (i_geo _ _ Hs) as Hg.
  pose proof (i_count _ _ Hs) as Hc. pose proof (i_prod _ _ Hs) as Hok.
  unfold looks in Hlk. unfold producer_ok in Hok.
  destruct (p_pc (prod s)) as [|i|i|b k|b|i|i old|] eqn:Hpc; [..|done];
    [| |by eapply PTry_advances|..]; unfold producer_step in Hx; rewrite Hpc in Hx.
  - destruct (Z.ltb_spec (p_i (prod s)) count); injection Hx as <-.
    + destruct (free_from s (write_pos (mem s)) Hg (g_wpos _ Hg) Hfew) as [d' Hf].
      apply (advances_at v val s d'); try done. destruct Hf as [Hd' _].
      unfold steps_left, ENTRY_NUM_MAX in *. rewrite Hpc. lia.
    + split; [done|]. exists 0. split; [done|]. unfold steps_left. rewrite Hpc. simpl. lia.
  - destruct Hok as [Hi Hn].
    assert (word s i = owners s i) as Hw by (unfold word, writing; by rewrite Hpc).
    rewrite (word_get val), Hw in Hx by done. cbn [mbind outcome_bind] in Hx.
    destruct (Z.eqb_spec (owners s i) 0) as [E|E].
    + injection Hx as <-. split; [done|]. exists d. split; [done|]. destruct Hlk as [Hd _].
      unfold steps_left. rewrite Hpc. simpl. lia.
    + rewrite next_entry_Ret in Hx by done. injection Hx as <-.
      destruct (free_next s i d Hg Hi Hlk E) as [Hd Hf']. split; [done|]. exists (d - 1).
      split; [done|]. unfold steps_left. rewrite Hpc. simpl. lia.
  - apply bind_Ret in Hx as (l & _ & Hx). injection Hx as <-. destruct Hok as (i & Hok).
    split; [done|]. exists 0. unfold looks, steps_left. rewrite Hpc. simpl.
    destruct (Z.ltb_spec k 3); simpl; (split; [done|]); lia.
  - apply bind_Ret in Hx as (r & Hr & Hx). injection Hx as <-.
    apply bind_Ret in Hr as (i & _ & Hr). apply bind_Ret in Hr as (m & Hm & Hr). injection Hr as <-.
    split; [by eapply producer_unlock_capacity|]. exists 0. unfold looks, steps_left. rewrite Hpc.
    simpl. destruct (on_publish v); simpl; (split; [done|]); lia.
  - injection Hx as <-. split; [done|]. exists 0. split; [done|]. unfold steps_left. rewrite Hpc. simpl. lia.
  - unfold producer_publish in Hx.
    assert ((n' ← int_op (p_i (prod s) + 1);
      Ret (set_read_pos (mem s) i, {| p_pc := PTop; p_i := n' |})) = Ret x) as Hst.
    { destruct (on_publish v); [|done]. by rewrite Hlk, Z.eqb_refl in Hx. }
    apply bind_Ret in Hst as (n' & [-> _]%int_op_Ret & Hst). injection Hst as <-.
    split; [done|]. exists 0. split; [done|]. unfold steps_left. rewrite Hpc. simpl. lia.
Qed.

(** The producer runs alone to the end. *)
Definition finishes (v : version) (s : system) : Prop :=
  exists n s', run v (replicate n None) s = Ret s' /\ p_pc (prod s') = PDone /\ cons s' = cons s.

Lemma finishes_step v s s' :
  by_producer v s = Ret s' -> cons s' = cons s -> finishes v s' -> finishes v s.
Proof.
  intros H Hc (n & t & Hr & Hd & Ht). exists (S n), t. cbn [replicate run]. rewrite H. bind_ret.
  split; [done|]. split; [done|congruence].
Qed.

Lemma finishes_looking v (m : nat) val s d :
  word_based v -> inv val s -> looks v s d -> Z.of_nat (length (cons s)) < capacity (mem s) ->
  steps_left (prod s) d < Z.of_nat m -> finishes v s.
Proof.
  intros Hv. revert val s d. induction m as [|m IH]; intros val s d Hs Hl Hfew Hm.
  - destruct (decide (p_pc (prod s) = PDone)) as [Hd|Hnd]; [by exists 0%nat, s|].
    destruct (producer_step_keeps v val s Hv Hs) as (x & Hx & _).
    destruct (producer_advances v val s d x Hv Hs Hl Hfew Hnd Hx) as (_ & d' & _ & Hlt). lia.
  - destruct (decide (p_pc (prod s) = PDone)) as [Hd|Hnd]; [by exists 0%nat, s|].
    destruct (producer_step_keeps v val s Hv Hs) as (x & Hx & val' & Hinv & _).
    destruct (producer_advances v val s d x Hv Hs Hl Hfew Hnd Hx) as (Hc & d' & Hl' & Hlt).
    eapply finishes_step; [unfold by_producer; rewrite Hx; reflexivity|done|].
    apply (IH val' _ d'); [done|done|simpl; by rewrite Hc|simpl; lia].
Qed.

Lemma good_finishes v s :
  word_based v -> good s -> Z.of_nat (length (cons s)) < capacity (mem s) -> finishes v s.
Proof.
  intros Hv [val Hs] Hfew. pose proof (i_geo _ _ Hs) as Hg. pose proof (i_prod _ _ Hs) as Hok.
  assert (forall t d val, inv val t -> looks v t d -> cons t = cons s ->
    capacity (mem t) = capacity (mem s) -> finishes v t) as Hgo.
  { intros t d w Ht Hl Hc Hcap.
    apply (finishes_looking v (Z.to_nat (steps_left (prod t) d + 1)) w t d); try done; [|lia].
    by rewrite Hc, Hcap. }
  destruct (p_pc (prod s)) as [|i|i|b k|b|i|i old|] eqn:Hpc;
    try (apply (Hgo s 0 val); [done| |done|done]; unfold looks; by rewrite Hpc).
  1, 2: unfold producer_ok in Hok; rewrite Hpc in Hok; destruct Hok as [Hi _];
    destruct (free_from s i Hg Hi Hfew) as [d Hf];
    apply (Hgo s d val); [done| |done|done]; unfold looks; by rewrite Hpc.
  destruct (decide (on_publish v = PublishCas /\ old <> read_pos (mem s))) as [[E Hne]|Hno].
  - destruct (producer_step_keeps v val s Hv Hs) as (x & Hx & val' & Hinv & _).
    eapply finishes_step; [unfold by_producer; rewrite Hx; reflexivity|done|].
    unfold producer_step, producer_publish in Hx. rewrite Hpc, E in Hx.
    rewrite (proj2 (Z.eqb_neq (read_pos (mem s)) old)) in Hx by done. injection Hx as <-.
    by apply (Hgo _ 0 val').
  - apply (Hgo s 0 val); [done| |done|done]. unfold looks. rewrite Hpc. intros E.
    destruct (decide (old = read_pos (mem s))) as [|Hne]; [done|]. by destruct Hno.
Qed.

Lemma run_rtc v sched s s' : run v sched s = Ret s' -> rtc (step v) s s'.
Proof.
  revert s. induction sched as [|[k|] sched IH]; intros s H; cbn [run] in H.
  - injection H as ->. done.
  - apply bind_Ret in H as (t & H1 & H2). eapply rtc_l; [|by apply IH]. by eapply step_consumer.
  - apply bind_Ret in H as (t & H1 & H2). eapply rtc_l; [|by apply IH]. by apply step_producer.
Qed.

(** C10: in spmc7.c and spmc8.c on a new segment, with consumers that come
    when [spmc_init] of the producer has returned, no access of any schedule
    leaves the segment and no [exit] is reached; no arithmetic overflows, but
    for the two counters of a consumer that has counted to the end of [int]. *)
Theorem spmc_no_fault v e b readers :
  v ∈ fenced_versions -> geometry_ok e b readers ->
  exists s0, main v (fresh_segment e b) e b readers = Ret s0 /\
  forall s, rtc (step v) s0 s ->
    (exists s', by_producer v s = Ret s') /\
    forall k, (exists s', by_consumer v k s = Ret s') \/
      exists c, cons s !! k = Some c /\ counters_full c /\ by_consumer v k s = Undef IntOverflow.
Proof.
  intros Hv%fenced_word Hg. exists (start (started e b) readers). split; [by apply main_fresh|].
  intros s Hr. destruct (reachable_good v e b readers _ s Hv Hg (main_fresh _ _ _ _ Hg) Hr) as [val Hs].
  pose proof (word_versions_based v Hv) as Hw. split.
  - destruct (producer_step_keeps v val s Hw Hs) as (x & Hx & _). unfold by_producer.
    rewrite Hx. eauto.
  - intros k. unfold by_consumer. destruct (cons s !! k) as [c|] eqn:Hk; [|eauto].
    destruct (consumer_step_keeps v val s k c Hw Hs Hk) as [(x & Hx & _)|[Hx Hfull]]; rewrite Hx.
    + left. eauto.
    + right. by exists c.
Qed.

(** C9: in spmc7.c and spmc8.c on a new segment, with consumers that come when
    [spmc_init] of the producer has returned, a consumer never reads a torn
    number.  When it has read [x] from the entry at [p], the entry holds the
    four bytes of [x], and the producer has stored [x] there as a whole, or [x]
    is the zero of the new segment.  What it reads later is not older than [x]
    by more than one. *)
Theorem spmc_values v e b readers s0 s k c x :
  v ∈ fenced_versions -> geometry_ok e b readers ->
  main v (fresh_segment e b) e b readers = Ret s0 -> rtc (step v) s0 s ->
  cons s !! k = Some c -> c_value c = Some x ->
  (forall p, c_pc c = CCheck p ->
     stored (mem s) p x 4 /\ (x = 0 \/ stored_whole v s0 s p x)) /\
  0 <= x <= p_i (prod s) /\
  forall s' c' y, rtc (step v) s s' -> cons s' !! k = Some c' -> c_value c' = Some y -> x - 1 <= y.
Proof.
  intros Hv%fenced_word Hg H0 Hr Hk Hx. pose proof (word_versions_based v Hv) as Hw.
  rewrite main_fresh in H0 by done. injection H0 as <-.
  destruct (whole_run v _ s Hw (start_inv e b readers Hg) Hr) as (val & Hs & Hall).
  pose proof (Forall_lookup_1 _ _ _ _ (i_cons _ _ Hs) Hk) as [Hval Hpc].
  destruct (Hval x Hx) as [Hx0 Hnb]. split; [|split; [split; [done|apply Hnb]|]].
  - intros p Ep. rewrite Ep in Hpc. destruct Hpc as (i & -> & Hi & Hv'). rewrite Hx in Hv'. injection Hv' as ->.
    destruct (owner_word _ _ _ _ i Hs Hk Hi) as (Hno & _); [unfold owns; by rewrite Ep, Z.eqb_refl|].
    split; [by apply (i_entry _ _ Hs)|by apply Hall].
  - intros s' c' y Hr' Hk' Hy.
    destruct (beyond_run v x k s s' Hw) as (val' & _ & c2 & Hk2 & _ & Hb); [|done|].
    + exists val. split; [done|]. exists c. split; [done|]. split; [done|].
      intros z Hz. assert (z = x) as -> by congruence. lia.
    + assert (c2 = c') as -> by congruence. by apply Hb.
Qed.

(** In the versions with atomic words, when the producer has finished, a
    consumer that asks for a block and runs alone reads the last number. *)
Theorem spmc_last_value v e b readers s0 s k c :
  v ∈ word_versions -> geometry_ok e b readers ->
  main v (fresh_segment e b) e b readers = Ret s0 -> rtc (step v) s0 s ->
  p_pc (prod s) = PDone -> cons s !! k = Some c -> c_pc c = CPos ->
  exists s' c', run v (replicate 7 (Some k)) s = Ret s' /\ cons s' !! k = Some c' /\
    c_value c' = Some (count - 1).
Proof.
  intros Hv Hg H0 Hr Hd Hk Hpc.
  destruct (reachable_good v e b readers s0 s Hv Hg H0 Hr) as [val Hs].
  pose proof (i_geo _ _ Hs) as Hgeo. pose proof (g_rpos _ Hgeo) as Hi.
  pose proof (i_prod _ _ Hs) as Hp. unfold producer_ok in Hp. rewrite Hd in Hp.
  pose proof (i_val _ _ Hs _ Hi) as Hval. pose proof (i_latest _ _ Hs) as Hl.
  unfold newest in Hval. rewrite Hd, Hp in Hval. rewrite Hp in Hl. unfold count in *.
  assert (val (read_pos (mem s)) = 20000000 - 1) as E by lia.
  rewrite (run_alone v k 7 s c Hk). change 7%nat with (3 + 4)%nat.
  rewrite consumer_run_app, (consumer_run_alloc v val s c (word_versions_based v Hv)) by done.
  bind_ret. cbn [fst snd].
  set (m := set_nconsumers _ _). set (c1 := goto _ _).
  destruct (consumer_run_read v m c1 (read_pos (mem s) * buf_size (mem s)) (20000000 - 1))
    as (c' & Hrun & Hc').
  - rewrite <- E. apply (i_entry _ _ Hs); [done|]. unfold writing. by rewrite Hd.
  - unfold int_max. lia.
  - done.
  - rewrite Hrun. bind_ret. do 2 eexists. split; [reflexivity|]. cbn [cons fst snd].
    rewrite list_lookup_insert_eq by (by eapply lookup_lt_Some). done.
Qed.

(** C15: in the versions with atomic words, as long as there are fewer
    consumers than entries the producer can always run to its end, whatever
    the consumers hold. *)
Theorem spmc_producer_finishes v e b readers s0 s :
  v ∈ word_versions -> geometry_ok e b readers ->
  main v (fresh_segment e b) e b readers = Ret s0 -> rtc (step v) s0 s ->
  Z.of_nat (length (cons s)) < capacity (mem s) ->
  exists n s', run v (replicate n None) s = Ret s' /\ p_pc (prod s') = PDone /\ cons s' = cons s.
Proof.
  intros Hv Hg H0 Hr Hfew. apply good_finishes; [by apply word_versions_based| |done].
  by eapply reachable_good.
Qed.

(** ** Schedules of the program as [main] starts it *)

(** Four entries of ten bytes, and one consumer. *)
Definition after (v : version) (sched : list (option nat)) : option system :=
  match main v (fresh_segment 4 10) 4 10 1 ≫= run v sched with
  | Ret s => Some s
  | _ => None
  end.

Lemma after_reached v sched s :
  after v sched = Some s ->
  exists s0, main v (fresh_segment 4 10) 4 10 1 = Ret s0 /\ rtc (step v) s0 s.
Proof.
  unfold after. destruct (main v _ 4 10 1) as [s0| | |] eqn:E; try done. bind_ret.
  destruct (run v sched s0) as [t| | |] eqn:Hr; try done. intros [= <-].
  exists s0. split; [done|]. by eapply run_rtc.
Qed.

Definition producer_steps (n : nat) : list (option nat) := replicate n None.
Definition consumer_steps (n : nat) : list (option nat) := replicate n (Some 0%nat).

(** The steps that one number takes the producer. *)
Definition per_number (v : version) : nat :=
  match on_publish v with PublishCas => 10 | PublishStore => 8 end.

(** The consumer reads one byte of 252 and three of 256, which share entry 0. *)
Definition torn (v : version) : list (option nat) :=
  producer_steps (253 * per_number v) ++ consumer_steps 3 ++
  producer_steps (3 * per_number v + 6) ++ consumer_steps 3.

(** The consumer finds 0 published, and locks its entry when 4 has been stored
    there and not yet published. *)
Definition overtaking (v : version) : list (option nat) :=
  producer_steps (per_number v) ++ consumer_steps 2 ++
  producer_steps (4 * per_number v - match on_publish v with PublishCas => 2 | PublishStore => 1 end) ++
  consumer_steps 5.

(** Evaluates a run. *)
Ltac reaches E v sched :=
  let r := eval vm_compute in (after v sched) in
  assert (after v sched = r) as E by (vm_compute; reflexivity).

(** In the versions with read-write locks the producer takes a read lock,
    so that it writes what a consumer reads: the consumer gets the number 508
    when nothing above 256 has been stored. *)
Theorem rwlock_torn_read v :
  v ∈ rwlock_versions ->
  exists s0 s c, main v (fresh_segment 4 10) 4 10 1 = Ret s0 /\ rtc (step v) s0 s /\
    cons s !! 0%nat = Some c /\ c_value c = Some 508 /\ p_i (prod s) = 256.
Proof.
  intros Hv.
  assert (exists s c, after v (torn v) = Some s /\ cons s !! 0%nat = Some c /\
    c_value c = Some 508 /\ p_i (prod s) = 256) as (s & c & E & Hc).
  { each_copy Hv; [reaches E spmc11 (torn spmc11)|reaches E spmc12 (torn spmc12)|
      reaches E shmblock (torn shmblock)]; do 2 eexists; (split; [exact E|]); clear E; (split; [reflexivity|]);
      (split; reflexivity). }
  destruct (after_reached v _ s E) as (s0 & H0 & Hr). clear E. by exists s0, s, c.
Qed.

(** The consumer has read 4. *)
Lemma spmc_reads_four v :
  v ∈ word_versions ->
  exists s0 s c, main v (fresh_segment 4 10) 4 10 1 = Ret s0 /\ rtc (step v) s0 s /\
    cons s !! 0%nat = Some c /\ c_value c = Some 4 /\ c_pc c = CCheck 0.
Proof.
  intros Hv.
  assert (exists s c, after v (overtaking v) = Some s /\ cons s !! 0%nat = Some c /\
    c_value c = Some 4 /\ c_pc c = CCheck 0) as (s & c & E & Hc).
  { each_copy Hv; [reaches E spmc7 (overtaking spmc7)|reaches E spmc8 (overtaking spmc8)|
      reaches E spmc9 (overtaking spmc9)|reaches E spmc10 (overtaking spmc10)]; do 2 eexists;
      (split; [exact E|]); clear E; (split; [reflexivity|]); (split; reflexivity). }
  destruct (after_reached v _ s E) as (s0 & H0 & Hr). clear E. by exists s0, s, c.
Qed.

(** The bound of one in [spmc_values] is reached: the entry is unlocked before
    it is published, so that a consumer can read 4 and then 3. *)
Theorem spmc_goes_back v :
  v ∈ word_versions ->
  exists s0 s c s' c', main v (fresh_segment 4 10) 4 10 1 = Ret s0 /\ rtc (step v) s0 s /\
    cons s !! 0%nat = Some c /\ c_value c = Some 4 /\
    rtc (step v) s s' /\ cons s' !! 0%nat = Some c' /\ c_value c' = Some 3.
Proof.
  intros Hv.
  assert (exists s c s' c', after v (overtaking v) = Some s /\ cons s !! 0%nat = Some c /\
    c_value c = Some 4 /\ run v (consumer_steps (match on_end v with EndCas => 11 | _ => 10 end)) s = Ret s' /\
    cons s' !! 0%nat = Some c' /\ c_value c' = Some 3) as (s & c & s' & c' & E & Hc & Hv4 & Hr & Hc').
  { each_copy Hv; [reaches E spmc7 (overtaking spmc7)|reaches E spmc8 (overtaking spmc8)|
      reaches E spmc9 (overtaking spmc9)|reaches E spmc10 (overtaking spmc10)]; do 4 eexists;
      (split; [exact E|]); clear E; (split; [reflexivity|]); (split; [reflexivity|]);
      (split; [vm_compute; reflexivity|]); (split; reflexivity). }
  destruct (after_reached v _ s E) as (s0 & H0 & Hr0). clear E. exists s0, s, c, s', c'.
  split; [done|]. split; [done|]. split; [done|]. split; [done|]. split; [by eapply run_rtc|done].
Qed.

(** A consumer that has left its loop never returns the entry it holds. *)
Lemma done_stays v s s' k c b :
  word_based v -> rtc (step v) s s' -> good s -> cons s !! k = Some c -> c_pc c = CDone b ->
  good s' /\ buf_size (mem s') = buf_size (mem s) /\ cons s' !! k = Some c.
Proof.
  intros Hv Hr. induction Hr as [s|s t u Hst Hr IH]; intros Hg Hk Hpc; [done|].
  destruct Hg as [val Hs]. destruct (step_inv v val s t Hv Hs Hst) as (val' & Ht & Hb & _).
  destruct IH as (Hgu & Hbu & Hku); [by exists val'| |done|].
  - destruct Hst as [s t H|s j t H].
    + apply bind_Ret in H as (x & _ & H). by injection H as <-.
    + unfold by_consumer in H. destruct (cons s !! j) as [c'|] eqn:Hj; [|by injection H as <-].
      apply bind_Ret in H as (x & Hx & H). injection H as <-. simpl.
      destruct (decide (j = k)) as [->|Hne]; [|by rewrite list_lookup_insert_ne].
      assert (c' = c) as -> by congruence. unfold consumer_step in Hx. rewrite Hpc in Hx.
      injection Hx as <-. apply list_lookup_insert_eq. by eapply lookup_lt_Some.
  - split; [done|]. split; [congruence|done].
Qed.

(** [consume] leaves its loop between [consumer_alloc] and
    [consumer_alloc_end]: the entry it has read last stays locked. *)
Theorem finished_consumer_keeps_entry v e b readers s0 s k c p :
  v ∈ word_versions -> geometry_ok e b readers ->
  main v (fresh_segment e b) e b readers = Ret s0 -> rtc (step v) s0 s ->
  cons s !! k = Some c -> c_pc c = CDone p ->
  exists i, p = i * buf_size (mem s) /\
    forall s', rtc (step v) s s' -> exists w, vget (nconsumers (mem s')) i = Ret w /\ 1 <= w.
Proof.
  intros Hv Hg H0 Hr Hk Hpc. pose proof (reachable_good v e b readers s0 s Hv Hg H0 Hr) as Hgood.
  pose proof Hgood as [val Hs].
  pose proof (Forall_lookup_1 _ _ _ _ (i_cons _ _ Hs) Hk) as [_ Hi]. rewrite Hpc in Hi.
  destruct Hi as (i & -> & Hi). exists i. split; [done|]. intros s' Hr'.
  destruct (done_stays v s s' k c _ (word_versions_based v Hv) Hr' Hgood Hk Hpc)
    as ([val' Hs'] & Hb & Hk').
  pose proof (Forall_lookup_1 _ _ _ _ (i_cons _ _ Hs') Hk') as [_ Hi']. rewrite Hpc in Hi'.
  destruct Hi' as (j & Hij & Hj). pose proof (g_bs _ (i_geo _ _ Hs)).
  assert (j = i) as -> by nia.
  destruct (owner_word val' s' k c i Hs' Hk' Hj) as (_ & Hw & Hpos).
  { unfold owns. rewrite Hpc, Hij. apply Z.eqb_refl. }
  exists (word s' i). split; [by eapply word_get|lia].
Qed.

(** ** Segments that an earlier run has used *)

(** Four entries of ten bytes whose first entry holds the last number. *)
Definition used_segment : spmc_t :=
  set_buf (fresh_segment 4 10) ((int_byte (count - 1) <$> seqZ 0 4) ++ replicate 36 0).

(** [size] is meant to keep consumers from entries that were never written, but
    no consumer looks at it: on a used segment a consumer finishes before the
    producer has stored anything. *)
Theorem used_segment_ends_consumer v :
  v ∈ word_versions ++ rwlock_versions ->
  exists s0 s c b, main v used_segment 4 10 1 = Ret s0 /\ size (mem s0) = 0 /\
    run v (consumer_steps 20) s0 = Ret s /\ cons s !! 0%nat = Some c /\ c_pc c = CDone b.
Proof.
  intros Hv. unfold word_versions, rwlock_versions in Hv. cbn [app] in Hv.
  each_copy Hv; do 4 eexists; (split; [vm_compute; reflexivity|]); (split; [reflexivity|]);
    (split; [vm_compute; reflexivity|]); (split; reflexivity).
Qed.

(** A segment of 64 entries of one byte, with [write_pos] at the last. *)
Definition long_segment : spmc_t := set_taken (fresh_segment 64 1) 64 63.

(** spmc7.c and spmc8.c keep the old [write_pos]: the producer of four entries
    of sixteen bytes, which the segment has room for, writes outside of it. *)
Theorem old_write_pos_escapes v :
  v ∈ [spmc7; spmc8] ->
  exists s0, main v long_segment 4 16 0 = Ret s0 /\ zlen (buf (mem s0)) = 4 * 16 /\
    run v (producer_steps 4) s0 = Undef OutOfBounds.
Proof.
  intros Hv. each_copy Hv; eexists; (split; [vm_compute; reflexivity|]);
    (split; vm_compute; reflexivity).
Qed.

(** ** spmc6.c: consumers that take the entries in turn *)

Module Spmc6.

(** One round of the loop of [consumer_alloc], without interference. *)
Definition consumer_alloc_round (s : spmc_t) (i : Z) : outcome (control Z (spmc_t * Z)) :=
  let next := j ← int_op (i + 1); k ← int_rem j (size s); Ret (Continue k) in
  old ← vget (nconsumers s) i;
  if old <? 0 then next
  else
    n ← int_op (old + 1);
    got ← word_cas s i old n;
    match got with
    | None => next
    | Some s' =>
        b ← int_op (i * buf_size s');
        j ← int_op (read_pos s' + 1);
        rp ← int_rem j (size s');
        Ret (Break (set_read_pos s' rp, b))
    end.

Definition consumer_alloc (fuel : nat) (s : spmc_t) : outcome (spmc_t * Z) :=
  while_loop fuel (consumer_alloc_round s) (read_pos s).

(** The entry at [read_pos] is locked and the next consumer gets the next
    entry; before the producer has stored anything the call divides by zero. *)
Theorem consumer_alloc_in_turn s w fuel :
  geometry s -> vget (nconsumers s) (read_pos s) = Ret w -> 0 <= w < int_max ->
  0 <= size s <= capacity s ->
  consumer_alloc (S fuel) s =
  if size s =? 0 then Undef DivByZero
  else Ret (set_read_pos
              (set_nconsumers s (<[Z.to_nat (read_pos s) := w + 1]> (nconsumers s)))
              ((read_pos s + 1) mod size s),
            read_pos s * buf_size s).
Proof.
  intros Hg Hw Hn Hsz. pose proof (g_rpos _ Hg) as Hr. pose proof (g_cap _ Hg).
  unfold consumer_alloc. cbn [while_loop].
  match goal with |- (_ ← ?r; _) = _ => set (round := r) end.
  assert (round = r ← int_rem (read_pos s + 1) (size s);
    Ret (Break (set_read_pos (set_nconsumers s (<[Z.to_nat (read_pos s) := w + 1]> (nconsumers s))) r,
                read_pos s * buf_size s))) as ->.
  { unfold round, consumer_alloc_round, word_cas. rewrite Hw. bind_ret.
    rewrite (proj2 (Z.ltb_ge w 0)) by lia.
    rewrite (int_op_in (w + 1)) by (unfold int_min, int_max in *; lia). bind_ret.
    rewrite Z.eqb_refl, word_store_Ret by done. bind_ret.
    cbn [buf_size set_nconsumers read_pos size].
    rewrite (proj1 (entry_pointer _ _ Hg Hr)). bind_ret. unfold has_entry, ENTRY_NUM_MAX in *.
    by rewrite int_op_in by (unfold int_min, int_max; lia). }
  unfold has_entry in Hr. unfold int_rem. destruct (Z.eqb_spec (size s) 0) as [E|Hne]; [done|].
  bind_ret. by rewrite Z.rem_mod_nonneg by lia.
Qed.

End Spmc6.

(** ** Instances of the theorems *)

Lemma small_geometry : geometry_ok 4 10 1.
Proof. unfold geometry_ok, ENTRY_NUM_MAX, int_max. simpl. lia. Qed.

Lemma spmc10_word : spmc10 ∈ word_versions.
Proof. in_list. Qed.

Lemma spmc8_fenced : spmc8 ∈ fenced_versions.
Proof. in_list. Qed.

Lemma spmc_no_fault_witness :
  exists s0, main spmc8 (fresh_segment 4 10) 4 10 1 = Ret s0 /\
    exists s', by_producer spmc8 s0 = Ret s'.
Proof.
  destruct (spmc_no_fault spmc8 4 10 1 spmc8_fenced small_geometry) as (s0 & H0 & H).
  exists s0. split; [exact H0|]. exact (proj1 (H s0 (rtc_refl _ _))).
Defined.

(** The consumer has just read 4 from entry 0. *)
Lemma spmc_values_witness :
  exists s0 s c, main spmc8 (fresh_segment 4 10) 4 10 1 = Ret s0 /\ rtc (step spmc8) s0 s /\
    cons s !! 0%nat = Some c /\ c_value c = Some 4 /\ stored_whole spmc8 s0 s 0 4.
Proof.
  destruct (spmc_reads_four spmc8 (fenced_word _ spmc8_fenced)) as (s0 & s & c & H0 & Hr & Hk & Hx & Hp).
  exists s0, s, c. split; [exact H0|]. split; [exact Hr|]. split; [exact Hk|]. split; [exact Hx|].
  destruct (spmc_values spmc8 4 10 1 s0 s 0 c 4 spmc8_fenced small_geometry H0 Hr Hk Hx) as (H & _).
  destruct (proj2 (H 0 Hp)) as [E|E]; [discriminate E|exact E].
Defined.

Lemma started_witness : main spmc10 (fresh_segment 4 10) 4 10 1 = Ret (start (started 4 10) 1).
Proof. exact (main_fresh spmc10 4 10 1 small_geometry). Qed.

Lemma spmc_last_value_witness :
  exists s s' c', p_pc (prod s) = PDone /\ run spmc10 (replicate 7 (Some 0%nat)) s = Ret s' /\
    cons s' !! 0%nat = Some c' /\ c_value c' = Some (count - 1).
Proof.
  destruct (good_finishes spmc10 (start (started 4 10) 1) (word_versions_based _ spmc10_word)
    (ex_intro _ _ (start_inv 4 10 1 small_geometry)) eq_refl) as (n & s & Hr & Hd & Hc).
  assert (cons s !! 0%nat = Some consume) as Hk by (rewrite Hc; reflexivity).
  destruct (spmc_last_value spmc10 4 10 1 _ s 0 consume spmc10_word small_geometry started_witness
    (run_rtc _ _ _ _ Hr) Hd Hk eq_refl) as (s' & c' & H1 & H2 & H3).
  exists s, s', c'. exact (conj Hd (conj H1 (conj H2 H3))).
Defined.

Lemma spmc_producer_finishes_witness :
  exists n s', run spmc10 (replicate n None) (start (started 4 10) 1) = Ret s' /\
    p_pc (prod s') = PDone /\ cons s' = [consume].
Proof.
  exact (spmc_producer_finishes spmc10 4 10 1 _ _ spmc10_word small_geometry started_witness
    (rtc_refl _ _) eq_refl).
Defined.

Lemma rwlock_torn_read_witness :
  exists s0 s c, main spmc12 (fresh_segment 4 10) 4 10 1 = Ret s0 /\ rtc (step spmc12) s0 s /\
    cons s !! 0%nat = Some c /\ c_value c = Some 508 /\ p_i (prod s) = 256.
Proof. exact (rwlock_torn_read spmc12 ltac:(in_list)). Defined.
