(* ===== verification/SpmcTurns.v ===== *)
(** * Consumers that take the entries in turn

    The threads of src/c/20181104_dilu_spmc_atomic/spmc6.c: a producer and any
    number of consumers on the words [nconsumers] and the positions, one access of
    the shared memory at a time.  The theorem is about a new segment after
    [spmc_init] and the first message, when [size] is no longer 0; [spmc_init]
    itself leaves the positions of an older segment as they are.  [buf] has the first byte of each entry, which is
    all that the threads use, and [None] where nothing was stored. *)

From Stdlib Require Import ZArith Lia.
From stdpp Require Import base numbers relations list.
From S2P Require Import Prelude.

Open Scope Z_scope.

Definition ENTRY_NUM_MAX : Z := 64.
Definition count : Z := 200000000.

Record spmc_t := Spmc {
  size : Z;
  capacity : Z;
  write_pos : Z;
  read_pos : Z;
  nconsumers : list Z;
  buf : list (option Z)
}.

Definition set_size (m : spmc_t) (z : Z) := Spmc z (capacity m) (write_pos m) (read_pos m) (nconsumers m) (buf m).
Definition set_write_pos (m : spmc_t) (z : Z) := Spmc (size m) (capacity m) z (read_pos m) (nconsumers m) (buf m).
Definition set_read_pos (m : spmc_t) (z : Z) := Spmc (size m) (capacity m) (write_pos m) z (nconsumers m) (buf m).
Definition set_words (m : spmc_t) (l : list Z) := Spmc (size m) (capacity m) (write_pos m) (read_pos m) l (buf m).
Definition set_buf (m : spmc_t) (l : list (option Z)) := Spmc (size m) (capacity m) (write_pos m) (read_pos m) (nconsumers m) l.

(** [cas(&spmc->nconsumers[i], old, new)] *)
Definition cas_word (m : spmc_t) (i old new : Z) : outcome (option spmc_t) :=
  w ← vget (nconsumers m) i;
  if w =? old then l ← vset (nconsumers m) i new; Ret (Some (set_words m l)) else Ret None.

(** The next access of [produce]: [producer_alloc] at entry [i], the message,
    and [producer_alloc_end]. *)
Inductive producer_pc := PScan (i : Z) | PCas (i : Z) | PGrow (i : Z) | PMove (i : Z) | PWrite (i : Z) | PEnd (i : Z) | PDone.

Record producer_t := Producer { p_pc : producer_pc; p_i : Z }.

(** The next access of [consume]: [consumer_alloc] at entry [i] with its copies
    of the words, the byte, and [consumer_alloc_end]. *)
Inductive consumer_pc :=
  | CStart
  | CScan (i : Z) | CCas (i old : Z) | CPos (i : Z) | CPosCas (i old : Z)
  | CRead (i : Z)
  | CEndLoad (i : Z) | CEndCas (i old : Z)
  | CDone.

Record consumer_t := Consumer { c_pc : consumer_pc; c_old : Z; c_i : Z }.

Record state := State { mem : spmc_t; prod : producer_t; cons : list consumer_t }.

(** The beginning of [producer_alloc] for message [i]. *)
Definition produce_at (m : spmc_t) (i : Z) : producer_t :=
  Producer (if i <? count then PScan (write_pos m) else PDone) i.

Definition producer (m : spmc_t) (p : producer_t) : outcome (spmc_t * producer_t) :=
  let next i := j ← int_rem (i + 1) (capacity m); Ret (m, Producer (PScan j) (p_i p)) in
  match p_pc p with
  | PScan i =>
      old ← vget (nconsumers m) i;
      if negb (old =? 0) then next i else Ret (m, Producer (PCas i) (p_i p))
  | PCas i =>
      r ← cas_word m i 0 (-1);
      match r with Some m' => Ret (m', Producer (PGrow i) (p_i p)) | None => next i end
  | PGrow i => Ret (if size m <=? i then set_size m (i + 1) else m, Producer (PMove i) (p_i p))
  | PMove i => j ← int_rem (i + 1) (capacity m); Ret (set_write_pos m j, Producer (PWrite i) (p_i p))
  | PWrite i => b ← vset (buf m) i (Some (p_i p mod 256)); Ret (set_buf m b, Producer (PEnd i) (p_i p))
  | PEnd i =>
      r ← cas_word m i (-1) 0;
      match r with Some m' => Ret (m', produce_at m' (p_i p + 1)) | None => Throw (Exit (-1)) end
  | PDone => Ret (m, p)
  end.

(** The end of a round of [consume]. *)
Definition consume_at (old i : Z) : consumer_t := Consumer (if i <? 10000 then CStart else CDone) old i.

Definition consumer (m : spmc_t) (c : consumer_t) : outcome (spmc_t * consumer_t) :=
  let at_ pc := Consumer pc (c_old c) (c_i c) in
  let next i := j ← int_rem (i + 1) (size m); Ret (m, at_ (CScan j)) in
  match c_pc c with
  | CStart => Ret (m, at_ (CScan (read_pos m)))
  | CScan i =>
      old ← vget (nconsumers m) i;
      if old <? 0 then next i else Ret (m, at_ (CCas i old))
  | CCas i old =>
      n ← int_op (old + 1);
      r ← cas_word m i old n;
      match r with Some m' => Ret (m', at_ (CPos i)) | None => next i end
  | CPos i => Ret (m, at_ (CPosCas i (read_pos m)))
  | CPosCas i old =>
      n ← int_op (old + 1);
      n ← int_rem n (size m);
      if read_pos m =? old then Ret (set_read_pos m n, at_ (CRead i)) else Ret (m, at_ (CPos i))
  | CRead i =>
      v ← vget (buf m) i;
      match v with
      | None => Undef Uninitialised
      | Some v =>
          if negb (c_old c =? v) then Ret (m, Consumer (CEndLoad i) v (c_i c + 1)) else Ret (m, at_ (CEndLoad i))
      end
  | CEndLoad i => old ← vget (nconsumers m) i; Ret (m, at_ (CEndCas i old))
  | CEndCas i old =>
      n ← int_op (old - 1);
      r ← cas_word m i old n;
      match r with Some m' => Ret (m', consume_at (c_old c) (c_i c)) | None => Ret (m, at_ (CEndLoad i)) end
  | CDone => Ret (m, c)
  end.

(** One access by the producer, or by a consumer. *)
Definition access (s : state) (t : option nat) : outcome state :=
  match t with
  | None => '(m, p) ← producer (mem s) (prod s); Ret (State m p (cons s))
  | Some k =>
      match cons s !! k with
      | None => Ret s
      | Some c => '(m, c') ← consumer (mem s) c; Ret (State m (prod s) (<[k := c']> (cons s)))
      end
  end.

Definition step (s s' : state) : Prop := exists t, access s t = Ret s'.

(** [spmc_init] for the producer, on the segment that [shmat] gives; the key and
    the size of the buffers are left out. *)
Definition spmc_init (m : spmc_t) (entry_num : Z) : outcome spmc_t :=
  words ← for_loop (Z.to_nat entry_num) 0 (fun i l => vset l i 0) (nconsumers m);
  Ret (Spmc 0 entry_num (write_pos m) (read_pos m) words (buf m)).

(** A segment that [shmget] has just made: zeroes, and no message. *)
Definition fresh_segment (entries : Z) : spmc_t :=
  Spmc 0 0 0 0 (replicate (Z.to_nat ENTRY_NUM_MAX) 0) (replicate (Z.to_nat entries) None).

(** The memory before the first message. *)
Definition empty (entries : Z) (n : nat) : state :=
  let m := Spmc 0 entries 0 0 (replicate (Z.to_nat ENTRY_NUM_MAX) 0) (replicate (Z.to_nat entries) None) in
  State m (produce_at m 0) (replicate n (Consumer CStart 10 0)).

(** The first message is stored, and the consumers start. *)
Definition start (entries : Z) (n : nat) : state :=
  let m := Spmc 1 entries (1 mod entries) 0 (replicate (Z.to_nat ENTRY_NUM_MAX) 0)
             (<[0%nat := Some 0]> (replicate (Z.to_nat entries) None)) in
  State m (produce_at m 1) (replicate n (Consumer CStart 10 0)).

(** ** The invariant *)

Definition p_holds (p : producer_pc) (i : Z) : bool :=
  match p with PGrow j | PMove j | PWrite j | PEnd j => i =? j | _ => false end.

Definition c_holds (i : Z) (c : consumer_t) : bool :=
  match c_pc c with CPos j | CPosCas j _ | CRead j | CEndLoad j | CEndCas j _ => i =? j | _ => false end.

Definition holders (s : state) (i : Z) : Z := zcount (c_holds i) (cons s).

(** An entry below [size] that the producer has not just taken has a message. *)
Definition stored_by (p : producer_pc) (i : Z) : bool :=
  match p with PGrow j | PMove j | PWrite j => negb (i =? j) | _ => true end.

Definition producer_ok (m : spmc_t) (p : producer_pc) : Prop :=
  match p with
  | PScan i | PCas i | PGrow i => 0 <= i < capacity m /\ i <= size m
  | PMove i | PWrite i | PEnd i => 0 <= i < capacity m /\ i < size m
  | PDone => True
  end.

Definition consumer_ok (m : spmc_t) (c : consumer_t) : Prop :=
  match c_pc c with
  | CScan i | CPos i | CRead i | CEndLoad i => 0 <= i < size m
  | CCas i old => 0 <= i < size m /\ 0 <= old <= int_max - 1
  | CPosCas i old => 0 <= i < size m /\ 0 <= old < size m
  | CEndCas i old => 0 <= i < size m /\ 0 <= old <= int_max
  | _ => True
  end.

(** A byte of a message up to [n]. *)
Definition byte_of (n v : Z) : Prop := exists k, 0 <= k <= n /\ v = k mod 256.

Record inv (s : state) : Prop := {
  inv_capacity : 1 <= size (mem s) <= capacity (mem s) /\ capacity (mem s) <= ENTRY_NUM_MAX;
  inv_lengths : zlen (nconsumers (mem s)) = ENTRY_NUM_MAX /\ zlen (buf (mem s)) = capacity (mem s);
  inv_write_pos : 0 <= write_pos (mem s) < capacity (mem s) /\ write_pos (mem s) <= size (mem s);
  inv_read_pos : 0 <= read_pos (mem s) < size (mem s);
  inv_messages : 0 <= p_i (prod s);
  inv_many : zlen (cons s) < int_max;
  inv_producer : producer_ok (mem s) (p_pc (prod s));
  inv_consumers : Forall (consumer_ok (mem s)) (cons s);
  inv_words : forall i w, vget (nconsumers (mem s)) i = Ret w ->
    w = if p_holds (p_pc (prod s)) i then -1 else holders s i;
  inv_excluded : forall i, p_holds (p_pc (prod s)) i = true -> holders s i = 0;
  inv_stored : forall i, 0 <= i < size (mem s) -> stored_by (p_pc (prod s)) i = true ->
    exists v, vget (buf (mem s)) i = Ret (Some v) /\ byte_of (p_i (prod s)) v
}.

Lemma zcount_zlen {A} (p : A -> bool) (l : list A) : zcount p l <= zlen l.
Proof. induction l as [|x l IH]; [done|]. unfold zlen in *. simpl. destruct (p x); simpl; lia. Qed.

Lemma holders_bounds s i : inv s -> 0 <= holders s i < int_max.
Proof.
  intros H. pose proof (inv_many s H). pose proof (zcount_zlen (c_holds i) (cons s)).
  pose proof (zcount_nonneg (c_holds i) (cons s)). unfold holders. lia.
Qed.

(** Nobody holds an entry from [size] on. *)
Lemma holders_below s i : Forall (consumer_ok (mem s)) (cons s) -> holders s i <> 0 -> 0 <= i < size (mem s).
Proof.
  intros H Hn. pose proof (zcount_nonneg (c_holds i) (cons s)).
  destruct (zcount_pos (c_holds i) (cons s)) as (k & c & Hk & Hc); [unfold holders in Hn; lia|].
  pose proof (Forall_lookup_1 _ _ _ _ H Hk) as Hok. unfold consumer_ok, c_holds in *.
  destruct (c_pc c); try done; apply Z.eqb_eq in Hc as ->; lia.
Qed.

(** The word of an entry. *)
Lemma word_at s i : inv s -> 0 <= i < capacity (mem s) ->
  vget (nconsumers (mem s)) i = Ret (if p_holds (p_pc (prod s)) i then -1 else holders s i).
Proof.
  intros H Hi. destruct (vget_in_range (nconsumers (mem s)) i) as [w Hw].
  - rewrite (proj1 (inv_lengths s H)). pose proof (inv_capacity s H). lia.
  - rewrite Hw. f_equal. by apply (inv_words s H).
Qed.

Lemma cas_word_at s i old new : inv s -> 0 <= i < capacity (mem s) ->
  cas_word (mem s) i old new =
    Ret (if (if p_holds (p_pc (prod s)) i then -1 else holders s i) =? old
         then Some (set_words (mem s) (<[Z.to_nat i := new]> (nconsumers (mem s)))) else None).
Proof.
  intros H Hi. unfold cas_word. rewrite word_at by done. bind_ret.
  destruct (_ =? old); [|done]. rewrite vset_in_range; [done|].
  rewrite (proj1 (inv_lengths s H)). pose proof (inv_capacity s H). lia.
Qed.

Lemma vget_insert_cases {A} (l : list A) i j x w : 0 <= i -> vget (<[Z.to_nat i := x]> l) j = Ret w ->
  (j = i /\ w = x) \/ (j <> i /\ vget l j = Ret w).
Proof.
  intros Hi [Hj H]%vget_Ret. apply list_lookup_insert_Some in H as [(E & -> & _)|(E & H)].
  - left. split; [lia|done].
  - right. split; [congruence|]. by apply vget_Ret.
Qed.

(** *** The steps of the producer *)

(** The producer goes on without a change of the memory. *)
Lemma producer_moves s pc : inv s -> producer_ok (mem s) pc -> p_holds pc = p_holds (p_pc (prod s)) ->
  (forall i, stored_by pc i = true -> stored_by (p_pc (prod s)) i = true) ->
  inv (State (mem s) (Producer pc (p_i (prod s))) (cons s)).
Proof.
  intros [] Hok Hh Hs. constructor; cbn; try done; rewrite ?Hh; try done. intros i Hi Hp. auto.
Qed.

Lemma next_ok s i : inv s -> 0 <= i < capacity (mem s) -> i < size (mem s) ->
  exists j, int_rem (i + 1) (capacity (mem s)) = Ret j /\ 0 <= j < capacity (mem s) /\ j <= size (mem s).
Proof.
  intros H Hi Hs. exists ((i + 1) mod capacity (mem s)). split; [apply int_rem_ring; lia|].
  pose proof (Z.mod_pos_bound (i + 1) (capacity (mem s)) ltac:(lia)).
  pose proof (Z.mod_le (i + 1) (capacity (mem s)) ltac:(lia) ltac:(lia)). lia.
Qed.

Definition with_producer (s : state) (m : spmc_t) (pc : producer_pc) (i : Z) : state := State m (Producer pc i) (cons s).

(** An entry that consumers hold is below [size]. *)
Lemma busy_below s i : inv s -> p_holds (p_pc (prod s)) i = false ->
  (if p_holds (p_pc (prod s)) i then -1 else holders s i) <> 0 -> i < size (mem s).
Proof. intros H ->. intros Hn. apply (holders_below s i); [apply (inv_consumers s H)|done]. Qed.

Lemma producer_takes s i : inv s -> p_pc (prod s) = PCas i -> holders s i = 0 ->
  inv (with_producer s (set_words (mem s) (<[Z.to_nat i := -1]> (nconsumers (mem s)))) (PGrow i) (p_i (prod s))).
Proof.
  intros H E H0. pose proof (inv_producer s H) as Hok. rewrite E in Hok. cbn in Hok.
  pose proof (inv_words s H) as Hw. rewrite E in Hw. cbn in Hw.
  destruct H. constructor; cbn; try done.
  - by rewrite zlen_insert.
  - intros j w [[-> ->]|[Hne Hj]]%vget_insert_cases; [by rewrite Z.eqb_refl| |lia].
    rewrite (proj2 (Z.eqb_neq _ _) Hne). by apply Hw.
  - by intros j ->%Z.eqb_eq.
  - intros j Hj _. apply inv_stored0; [done|]. by rewrite E.
Qed.

Lemma consumers_grow m m' l : size m <= size m' -> Forall (consumer_ok m) l -> Forall (consumer_ok m') l.
Proof.
  intros Hs H. eapply Forall_impl; [exact H|]. intros c. unfold consumer_ok. destruct (c_pc c); lia.
Qed.

Lemma producer_grows s i : inv s -> p_pc (prod s) = PGrow i ->
  inv (with_producer s (if size (mem s) <=? i then set_size (mem s) (i + 1) else mem s) (PMove i) (p_i (prod s))).
Proof.
  intros H E. pose proof (inv_producer s H) as Hok. rewrite E in Hok. cbn in Hok.
  pose proof (inv_words s H) as Hw. pose proof (inv_excluded s H) as Hx. pose proof (inv_stored s H) as Hs.
  rewrite E in Hw, Hx, Hs. cbn in Hw, Hx, Hs.
  destruct H. destruct (Z.leb_spec (size (mem s)) i); constructor; cbn; try done; try lia.
  - eapply consumers_grow; [|done]. cbn. lia.
  - intros j Hj Hne. apply Hs; [|done]. apply negb_true_iff, Z.eqb_neq in Hne. lia.
Qed.

Lemma producer_steps_on s i j : inv s -> p_pc (prod s) = PMove i -> 0 <= j < capacity (mem s) /\ j <= size (mem s) ->
  inv (with_producer s (set_write_pos (mem s) j) (PWrite i) (p_i (prod s))).
Proof.
  intros H E Hj. pose proof (inv_producer s H) as Hok. pose proof (inv_words s H) as Hw.
  pose proof (inv_excluded s H) as Hx. pose proof (inv_stored s H) as Hs.
  rewrite E in Hok, Hw, Hx, Hs. destruct H. by constructor.
Qed.

Lemma producer_stores s i : inv s -> p_pc (prod s) = PWrite i ->
  inv (with_producer s (set_buf (mem s) (<[Z.to_nat i := Some (p_i (prod s) mod 256)]> (buf (mem s)))) (PEnd i) (p_i (prod s))).
Proof.
  intros H E. pose proof (inv_producer s H) as Hok. pose proof (inv_words s H) as Hw.
  pose proof (inv_excluded s H) as Hx. pose proof (inv_stored s H) as Hs.
  rewrite E in Hok, Hw, Hx, Hs. cbn in Hok. destruct H. constructor; cbn; try done.
  - by rewrite zlen_insert.
  - intros j Hj _. destruct (Z.eq_dec j i) as [->|Hne].
    + exists (p_i (prod s) mod 256). split; [|exists (p_i (prod s)); lia]. apply vget_Ret. split; [lia|].
      apply list_lookup_insert_eq. unfold zlen in *. lia.
    + destruct (Hs j Hj) as (v & Hv & Hb); [cbn; by apply negb_true_iff, Z.eqb_neq|]. exists v. split; [|done].
      apply vget_Ret in Hv as [H0 Hv]. apply vget_Ret. split; [done|]. rewrite list_lookup_insert_ne by lia. done.
Qed.

Lemma producer_ends s i : inv s -> p_pc (prod s) = PEnd i ->
  let m := set_words (mem s) (<[Z.to_nat i := 0]> (nconsumers (mem s))) in
  inv (State m (produce_at m (p_i (prod s) + 1)) (cons s)).
Proof.
  intros H E m. pose proof (inv_producer s H) as Hok. pose proof (inv_words s H) as Hw.
  pose proof (inv_excluded s H) as Hx. pose proof (inv_stored s H) as Hs.
  rewrite E in Hok, Hw, Hx, Hs. cbn in Hok, Hw, Hx, Hs.
  assert (forall j, p_holds (p_pc (produce_at m (p_i (prod s) + 1))) j = false) as Hn
    by (intros j; unfold produce_at; cbn; by destruct (_ <? count)).
  destruct H. constructor; try done.
  - cbn. by rewrite zlen_insert.
  - cbn. lia.
  - unfold produce_at. cbn. destruct (_ <? count); [|done]. cbn. lia.
  - intros j w. rewrite Hn. cbn. intros [[-> ->]|[Hne Hj]]%vget_insert_cases; [|apply Hw in Hj|lia].
    + symmetry. by apply Hx, Z.eqb_refl.
    + by rewrite (proj2 (Z.eqb_neq _ _) Hne) in Hj.
  - intros j. by rewrite Hn.
  - intros j Hj _. destruct (Hs j Hj eq_refl) as (v & Hv & k & Hk & ->). eexists. split; [exact Hv|].
    exists k. cbn. lia.
Qed.

Lemma producer_inv s : inv s -> returns (access s None) inv.
Proof.
  intros H. pose proof (inv_producer s H) as Hok. unfold access, producer.
  assert (Hnext : forall i, p_holds (p_pc (prod s)) i = false -> (forall j, stored_by (p_pc (prod s)) j = true) ->
    p_holds (p_pc (prod s)) = (fun _ => false) -> 0 <= i < capacity (mem s) ->
    (if p_holds (p_pc (prod s)) i then -1 else holders s i) <> 0 ->
    returns ('(m, p) ← (j ← int_rem (i + 1) (capacity (mem s)); Ret (mem s, Producer (PScan j) (p_i (prod s))));
      Ret (State m p (cons s))) inv).
  { intros i Hf Hst Hp Hi Hw. destruct (next_ok s i H Hi (busy_below s i H Hf Hw)) as (j & -> & Hj). bind_ret.
    apply returns_ret. by apply producer_moves. }
  destruct (p_pc (prod s)) as [i|i|i|i|i|i|] eqn:E; cbn in Hok.
  - rewrite (word_at s i H) by lia. rewrite E. cbn [p_holds]. bind_ret. destruct (Z.eqb_spec (holders s i) 0); cbn [negb].
    + apply returns_ret. apply producer_moves; rewrite ?E; try done.
    + apply Hnext; done || lia.
  - rewrite (cas_word_at s i _ _ H) by lia. rewrite E. cbn [p_holds]. bind_ret.
    destruct (Z.eqb_spec (holders s i) 0); [by apply returns_ret, producer_takes|apply Hnext; done || lia].
  - by apply returns_ret, producer_grows.
  - destruct (next_ok s i H) as (j & -> & Hj); [lia|lia|]. bind_ret. by apply returns_ret, producer_steps_on.
  - rewrite vset_in_range by (rewrite (proj2 (inv_lengths s H)); lia). bind_ret. by apply returns_ret, producer_stores.
  - rewrite (cas_word_at s i _ _ H) by lia. rewrite E. cbn [p_holds]. rewrite Z.eqb_refl. bind_ret.
    by apply returns_ret, producer_ends.
  - apply returns_ret. destruct s as [m [? ?] ?]. cbn in *. by subst.
Qed.

(** *** The steps of a consumer *)

Definition with_consumer (s : state) (m : spmc_t) (k : nat) (c : consumer_t) : state := State m (prod s) (<[k := c]> (cons s)).

Lemma holders_set s m k c c' i : cons s !! k = Some c ->
  holders (with_consumer s m k c') i = holders s i - Z.b2z (c_holds i c) + Z.b2z (c_holds i c').
Proof. intros Hk. unfold holders. cbn. by apply zcount_insert. Qed.

(** A consumer goes on, with a change of [read_pos] at most. *)
Lemma consumer_moves s k c c' r : inv s -> cons s !! k = Some c -> 0 <= r < size (mem s) -> consumer_ok (mem s) c' ->
  (forall i, c_holds i c' = c_holds i c) -> inv (with_consumer s (set_read_pos (mem s) r) k c').
Proof.
  intros H Hk Hr Hok Hh.
  assert (forall i, holders (with_consumer s (set_read_pos (mem s) r) k c') i = holders s i) as Hhs
    by (intros i; rewrite (holders_set s _ k c) by done; rewrite Hh; lia).
  unfold with_consumer in *. destruct H. constructor; cbn; try done.
  - by rewrite zlen_insert.
  - apply Forall_insert; [|done]. eapply consumers_grow; [|done]. done.
  - intros i w Hw. specialize (inv_words0 i w Hw). by rewrite <- (Hhs i) in inv_words0.
  - intros i Hp. specialize (inv_excluded0 i Hp). by rewrite <- (Hhs i) in inv_excluded0.
Qed.

Lemma consumer_stays s k c c' : inv s -> cons s !! k = Some c -> consumer_ok (mem s) c' ->
  (forall i, c_holds i c' = c_holds i c) -> inv (with_consumer s (mem s) k c').
Proof.
  intros H Hk Hok Hh. replace (mem s) with (set_read_pos (mem s) (read_pos (mem s))) at 1 by (by destruct (mem s)).
  apply (consumer_moves s k c); try done. apply (inv_read_pos s H).
Qed.

(** A consumer takes or gives back entry [i], which the producer does not hold. *)
Lemma consumer_counts s k c c' i n : inv s -> cons s !! k = Some c -> 0 <= i -> p_holds (p_pc (prod s)) i = false ->
  consumer_ok (mem s) c' -> (forall j, j <> i -> c_holds j c' = c_holds j c) ->
  n = holders s i - Z.b2z (c_holds i c) + Z.b2z (c_holds i c') ->
  inv (with_consumer s (set_words (mem s) (<[Z.to_nat i := n]> (nconsumers (mem s)))) k c').
Proof.
  intros H Hk Hi Hp Hok Hh Hn. set (m := set_words _ _).
  assert (forall j, holders (with_consumer s m k c') j = if j =? i then n else holders s j) as Hhs.
  { intros j. rewrite (holders_set s m k c) by done. destruct (Z.eqb_spec j i) as [->|Hne]; [lia|].
    rewrite Hh by done. lia. }
  unfold with_consumer in *. destruct H. constructor; cbn; try done.
  - by rewrite zlen_insert.
  - by rewrite zlen_insert.
  - apply Forall_insert; [|done]. eapply consumers_grow; [|done]. done.
  - intros j w Hw. pose proof (Hhs j) as E. apply vget_insert_cases in Hw as [[-> ->]|[Hne Hw]]; [|..|done].
    + rewrite Hp. by rewrite Z.eqb_refl in E.
    + rewrite (proj2 (Z.eqb_neq _ _) Hne) in E. specialize (inv_words0 j w Hw). by rewrite <- E in inv_words0.
  - intros j Hj. pose proof (Hhs j) as E. destruct (Z.eqb_spec j i) as [->|Hne]; [congruence|].
    specialize (inv_excluded0 j Hj). by rewrite <- E in inv_excluded0.
Qed.

(** The entry of a consumer is not the producer's. *)
Lemma held_word s k c i : inv s -> cons s !! k = Some c -> c_holds i c = true ->
  p_holds (p_pc (prod s)) i = false /\ 0 < holders s i.
Proof.
  intros H Hk Hc. pose proof (zcount_lookup (c_holds i) (cons s) k c Hk Hc) as Hpos. split; [|done].
  destruct (p_holds _ i) eqn:E; [|done]. pose proof (inv_excluded s H i E). unfold holders in *. lia.
Qed.

Lemma stored_held p i : p_holds p i = false -> stored_by p i = true.
Proof. destruct p; cbn; intros H; by rewrite ?H. Qed.

(** A consumer that has an entry reads the byte of a message. *)
Lemma held_value s k c i : inv s -> cons s !! k = Some c -> c_holds i c = true ->
  exists v, vget (buf (mem s)) i = Ret (Some v) /\ byte_of (p_i (prod s)) v.
Proof.
  intros H Hk Hc. destruct (held_word s k c i H Hk Hc) as [Hp Hh].
  apply (inv_stored s H); [|by apply stored_held]. apply (holders_below s i); [apply (inv_consumers s H)|lia].
Qed.

Lemma consumer_next s k c i : inv s -> cons s !! k = Some c -> 0 <= i < size (mem s) ->
  (forall j, c_holds j c = false) ->
  returns ('(m, c') ← (j ← int_rem (i + 1) (size (mem s)); Ret (mem s, Consumer (CScan j) (c_old c) (c_i c)));
    Ret (State m (prod s) (<[k := c']> (cons s)))) inv.
Proof.
  intros H Hk Hi Hh. rewrite int_rem_ring by lia. bind_ret. apply returns_ret.
  apply (consumer_stays s k c); [done|done| |done]. cbn. apply Z.mod_pos_bound. lia.
Qed.

Lemma consumer_takes s k c i old : inv s -> cons s !! k = Some c -> c_pc c = CCas i old -> 0 <= i < size (mem s) -> 0 <= old ->
  (if p_holds (p_pc (prod s)) i then -1 else holders s i) = old ->
  inv (with_consumer s (set_words (mem s) (<[Z.to_nat i := old + 1]> (nconsumers (mem s)))) k (Consumer (CPos i) (c_old c) (c_i c))).
Proof.
  intros H Hk E Hi Ho Eo. destruct (p_holds (p_pc (prod s)) i) eqn:Ep; [lia|].
  apply (consumer_counts s k c _ i); try done; try lia.
  - intros j Hj. unfold c_holds. rewrite E. by apply Z.eqb_neq.
  - unfold c_holds. rewrite E. cbn. rewrite Z.eqb_refl. cbn. lia.
Qed.

Lemma consumer_gives s k c i old : inv s -> cons s !! k = Some c -> c_pc c = CEndCas i old -> 0 <= i ->
  p_holds (p_pc (prod s)) i = false -> holders s i = old ->
  inv (with_consumer s (set_words (mem s) (<[Z.to_nat i := old - 1]> (nconsumers (mem s)))) k (consume_at (c_old c) (c_i c))).
Proof.
  intros H Hk E Hi Hp Eo. assert (forall j, c_holds j (consume_at (c_old c) (c_i c)) = false) as Hn
    by (intros j; unfold consume_at, c_holds; cbn; by destruct (_ <? 10000)).
  apply (consumer_counts s k c _ i); try done.
  - unfold consume_at, consumer_ok. cbn. by destruct (_ <? 10000).
  - intros j Hj. rewrite Hn. unfold c_holds. rewrite E. symmetry. by apply Z.eqb_neq.
  - rewrite Hn. unfold c_holds. rewrite E, Z.eqb_refl. cbn. lia.
Qed.

Local Ltac same_entry E := intros ?; unfold c_holds; by rewrite E.

Lemma consumer_inv s k : inv s -> returns (access s (Some k)) inv.
Proof.
  intros H. unfold access. destruct (cons s !! k) as [c|] eqn:Hk; [|by apply returns_ret].
  pose proof (Forall_lookup_1 _ _ _ _ (inv_consumers s H) Hk) as Hok. unfold consumer_ok in Hok.
  pose proof (inv_capacity s H) as Hcap. unfold consumer.
  assert (Hstay : forall c', consumer_ok (mem s) c' -> (forall i, c_holds i c' = c_holds i c) ->
    returns (Ret (State (mem s) (prod s) (<[k := c']> (cons s)))) inv)
    by (intros c' H1 H2; apply returns_ret; by apply (consumer_stays s k c)).
  assert (Hheld : forall i, c_holds i c = true -> p_holds (p_pc (prod s)) i = false /\ 0 < holders s i < int_max)
    by (intros i Hi; destruct (held_word s k c i H Hk Hi); pose proof (holders_bounds s i H); split; [done|lia]).
  destruct (c_pc c) as [|i|i old|i|i old|i|i|i old|] eqn:E; unfold c_holds in Hheld; rewrite E in Hheld.
  - apply Hstay; [cbn; apply (inv_read_pos s H)|]. same_entry E.
  - rewrite (word_at s i H) by lia. bind_ret. pose proof (holders_bounds s i H).
    destruct (Z.ltb_spec (if p_holds (p_pc (prod s)) i then -1 else holders s i) 0).
    + apply consumer_next; try done. same_entry E.
    + apply Hstay; [cbn; split; [lia|destruct (p_holds _ i); lia]|]. same_entry E.
  - rewrite int_op_in by (unfold int_min, int_max in *; lia). bind_ret. rewrite (cas_word_at s i _ _ H) by lia. bind_ret.
    destruct (Z.eqb_spec (if p_holds (p_pc (prod s)) i then -1 else holders s i) old) as [Eo|_].
    + apply returns_ret, consumer_takes with (c := c); done || lia.
    + apply consumer_next; try done; [lia|]. same_entry E.
  - apply Hstay; [cbn; pose proof (inv_read_pos s H); lia|]. same_entry E.
  - rewrite int_op_in by (unfold int_min, int_max, ENTRY_NUM_MAX in *; lia). bind_ret. rewrite int_rem_ring by lia. bind_ret.
    destruct (read_pos (mem s) =? old).
    + apply returns_ret, (consumer_moves s k c); try done; [apply Z.mod_pos_bound; lia|cbn; lia|].
      same_entry E.
    + apply Hstay; [cbn; lia|]. same_entry E.
  - destruct (held_value s k c i H Hk) as (v & -> & _); [unfold c_holds; rewrite E; apply Z.eqb_refl|]. bind_ret.
    destruct (negb _); (apply Hstay; [cbn; lia|]); same_entry E.
  - destruct (Hheld i (Z.eqb_refl i)) as [Hp Hh]. rewrite (word_at s i H), Hp by lia. bind_ret.
    apply Hstay; [cbn; lia|]. same_entry E.
  - destruct (Hheld i (Z.eqb_refl i)) as [Hp Hh].
    rewrite int_op_in by (unfold int_min, int_max in *; lia). bind_ret. rewrite (cas_word_at s i _ _ H), Hp by lia. bind_ret.
    destruct (Z.eqb_spec (holders s i) old) as [Eo|_].
    + apply returns_ret, consumer_gives with (c := c); done || lia.
    + apply Hstay; [cbn; lia|]. same_entry E.
  - apply Hstay; [unfold consumer_ok; by rewrite E|done].
Qed.

(** ** The program *)

Lemma turns_start_inv entries n : 1 <= entries <= ENTRY_NUM_MAX -> Z.of_nat n < int_max -> inv (start entries n).
Proof.
  intros He Hn. assert (forall i, holders (start entries n) i = 0) as Hh.
  { intros i. unfold holders, start. cbn [cons]. clear. by induction n. }
  assert (forall i, p_holds (p_pc (prod (start entries n))) i = false) as Hp by done.
  assert (1 mod entries <= 1) by (apply Z.mod_le; lia). pose proof (Z.mod_pos_bound 1 entries ltac:(lia)).
  assert (0 < length (replicate (Z.to_nat entries) (@None Z)))%nat by (rewrite length_replicate; lia).
  constructor; unfold ENTRY_NUM_MAX in *; cbn -[Z.modulo replicate]; try lia.
  - unfold zlen. rewrite length_insert, !length_replicate. split; [reflexivity|lia].
  - unfold zlen. rewrite length_replicate. lia.
  - apply Forall_replicate. done.
  - intros i w [_ [-> _]%lookup_replicate]%vget_Ret. symmetry. apply Hh.
  - intros i Hi _. assert (i = 0) as -> by lia. exists 0. split; [|by exists 0]. apply vget_Ret.
    split; [done|]. by apply list_lookup_insert_eq.
Qed.

Lemma turns_reachable_inv entries n s : 1 <= entries <= ENTRY_NUM_MAX -> Z.of_nat n < int_max ->
  rtc step (start entries n) s -> inv s.
Proof.
  intros He Hn. apply rtc_preserves; [|by apply turns_start_inv]. intros a b Ha [t E].
  assert (returns (access a t) inv) as (b' & Eb & Hb) by (destruct t; [by apply consumer_inv|by apply producer_inv]).
  congruence.
Qed.

(** Only the producer writes, and only to the entry that it holds. *)
Lemma cas_word_buf m i old new m' : cas_word m i old new = Ret (Some m') -> buf m' = buf m.
Proof.
  unfold cas_word. intros H. apply bind_Ret in H as (w & _ & H). destruct (w =? old); [|done].
  apply bind_Ret in H as (l & _ & [= <-]). done.
Qed.

Local Ltac each_bind :=
  repeat match goal with
  | H : (_ ≫= _) = Ret _ |- _ => apply bind_Ret in H as (? & ? & H)
  | H : (if ?b then _ else _) = Ret _ |- _ => destruct b
  | H : match ?x with Some _ => _ | None => _ end = Ret _ |- _ => destruct x eqn:?
  | H : Ret _ = Ret _ |- _ => injection H as <- <- || injection H as <-
  end.

Lemma consumer_buf m c m' c' : consumer m c = Ret (m', c') -> buf m' = buf m.
Proof.
  unfold consumer. intros H. destruct (c_pc c); each_bind; try done; by eapply cas_word_buf.
Qed.

Lemma producer_buf m p m' p' i : producer m p = Ret (m', p') -> p_holds (p_pc p) i = false ->
  vget (buf m') i = vget (buf m) i.
Proof.
  unfold producer. intros H Hi. destruct (p_pc p); each_bind; try done; try (f_equal; by eapply cas_word_buf).
  - by destruct (size m <=? _).
  - rename select (vset _ _ _ = _) into E. unfold vset in E. destruct (_ || _) eqn:Er; [done|]. injection E as <-.
    apply orb_false_iff in Er as [H0 _]. apply Z.eqb_neq in Hi. apply Z.ltb_ge in H0. cbn. unfold vget.
    destruct (Z.ltb_spec i 0); [done|]. rewrite list_lookup_insert_ne by lia. done.
Qed.

Lemma access_buf s t s' i : access s t = Ret s' -> p_holds (p_pc (prod s)) i = false ->
  vget (buf (mem s')) i = vget (buf (mem s)) i.
Proof.
  intros H Hi. unfold access in H. destruct t as [k|].
  - destruct (cons s !! k) as [c|]; [|by injection H as <-].
    apply bind_Ret in H as ([m c'] & E & [= <-]). cbn. by rewrite (consumer_buf _ _ _ _ E).
  - apply bind_Ret in H as ([m p] & E & [= <-]). cbn. by eapply producer_buf.
Qed.

(** C16: the threads of spmc6.c, once a first message is stored: no access
    divides by zero, leaves an array, overflows, reads a byte that was not
    stored or finds its own mark lost; the producer never has an entry that a
    consumer has; and a consumer that has an entry finds there the byte of a
    message, which nobody changes while it has it. *)
Theorem spmc6_threads entries n s :
  1 <= entries <= ENTRY_NUM_MAX -> Z.of_nat n < int_max -> rtc step (start entries n) s ->
  (forall t, exists s', access s t = Ret s') /\
  (forall i, p_holds (p_pc (prod s)) i = true -> holders s i = 0) /\
  (forall k c i, cons s !! k = Some c -> c_holds i c = true ->
     (exists v, vget (buf (mem s)) i = Ret (Some v) /\ byte_of (p_i (prod s)) v) /\
     (forall t s', access s t = Ret s' -> vget (buf (mem s')) i = vget (buf (mem s)) i)).
Proof.
  intros He Hn Hr. pose proof (turns_reachable_inv entries n s He Hn Hr) as H. split; [|split].
  - intros [k|]; [destruct (consumer_inv s k H) as (s' & ? & _)|destruct (producer_inv s H) as (s' & ? & _)]; eauto.
  - apply (inv_excluded s H).
  - intros k c i Hk Hc. split; [by apply (held_value s k c)|]. intros t s' E.
    apply (access_buf s t); [done|]. by apply (held_word s k c i H Hk).
Qed.

Fixpoint run (s : state) (l : list (option nat)) : outcome state :=
  match l with [] => Ret s | t :: l => s ← access s t; run s l end.

Lemma turns_run_rtc l : forall s s', run s l = Ret s' -> rtc step s s'.
Proof.
  induction l as [|t l IH]; intros s s' H; cbn in H; [by injection H as <-|].
  apply bind_Ret in H as (s1 & E & H). eapply rtc_l; [by exists t|by apply IH].
Qed.

(** A consumer reads the first message while the producer stores the second. *)
Lemma spmc6_threads_witness :
  exists s c, rtc step (start 4 2) s /\ cons s !! 0%nat = Some c /\ c_pc c = CRead 0 /\ p_pc (prod s) = PWrite 1 /\
    (exists v, vget (buf (mem s)) 0 = Ret (Some v) /\ byte_of (p_i (prod s)) v).
Proof.
  destruct (run (start 4 2) (replicate 5 (Some 0%nat) ++ replicate 4 None)) as [s| | |] eqn:E; try discriminate E.
  pose proof (turns_run_rtc _ _ _ E) as Hr. exists s, (Consumer (CRead 0) 10 0).
  assert (cons s !! 0%nat = Some (Consumer (CRead 0) 10 0)) as Hk by (vm_compute in E; by injection E as <-).
  split; [exact Hr|]. split; [exact Hk|]. split; [reflexivity|]. split; [vm_compute in E; by injection E as <-|].
  exact (proj1 (proj2 (proj2 (spmc6_threads 4 2 s ltac:(unfold ENTRY_NUM_MAX; lia) ltac:(unfold int_max; simpl; lia) Hr)) 0%nat _ 0 Hk eq_refl)).
Defined.

(** [empty] is what [spmc_init] leaves of a new segment. *)
Lemma init_fresh entries n :
  1 <= entries <= ENTRY_NUM_MAX -> spmc_init (fresh_segment entries) entries = Ret (mem (empty entries n)).
Proof.
  intros He. unfold spmc_init. cbn [nconsumers fresh_segment write_pos read_pos buf].
  assert (forall k i, 0 <= i -> i + Z.of_nat k <= ENTRY_NUM_MAX ->
    for_loop k i (fun i l => vset l i 0) (replicate (Z.to_nat ENTRY_NUM_MAX) 0) =
    Ret (replicate (Z.to_nat ENTRY_NUM_MAX) 0)) as H.
  { intros k. induction k as [|k IH]; intros i Hi Hk; [done|]. cbn [for_loop].
    rewrite vset_in_range by len. bind_ret.
    rewrite list_insert_id by (apply lookup_replicate_2; lia). apply IH; lia. }
  by rewrite H by lia.
Qed.

(** The producer alone stores the first message in six accesses. *)
Lemma first_message entries n :
  1 <= entries <= ENTRY_NUM_MAX -> run (empty entries n) (replicate 6 None) = Ret (start entries n).
Proof.
  intros He. unfold empty, start. generalize (replicate n (Consumer CStart 10 0)) as cs.
  assert (entries ∈ seqZ 1 64) as Hin by (apply elem_of_seqZ; unfold ENTRY_NUM_MAX in *; lia).
  vm_compute in Hin. clear He. intros cs. each_copy Hin; vm_compute; reflexivity.
Qed.

(** A consumer that comes before the first message divides by zero, or reads
    an entry to which nothing was stored. *)
Example early_consumer :
  run (empty 4 1) (replicate 5 (Some 0%nat)) = Undef DivByZero /\
  run (empty 4 1) (replicate 3 (Some 0%nat) ++ replicate 4 None ++ replicate 3 (Some 0%nat)) = Undef Uninitialised.
Proof. split; vm_compute; reflexivity. Qed.
