(* ===== verification/Discover.v ===== *)
(** * Service discovery by multicast

    [class ServiceDiscover] of src/c++/20230108-pubsub-shm-udp-3/service_discover.hpp
    and of its earlier copy src/c++/20230106-service-discover/service_discover.hpp,
    which differ in the names of the callbacks and in [Stop].

    A datagram is a topic, a NUL byte and a payload.  The receive buffer is a
    member array: a datagram overwrites its first bytes and leaves the rest.
    A callback is a value of an arbitrary type; what the callbacks do is in
    PubSubShm.v. *)

From stdpp Require Import base list numbers gmap.
From Stdlib Require Import ZArith Lia.
From S2P Require Import Prelude.

Open Scope Z_scope.

Definition sizeof_buffer : nat := 1500.

Section Discover.
Context {C : Type}.

Record ServiceDiscover := {
  buffer_ : list Z;
  callbacks_ : gmap (list Z) (list C);
  server_open : bool;
  client_open : bool;
}.

(** The handles after the constructor; the array is not initialised, [junk] is
    what it holds. *)
Definition make_ServiceDiscover (junk : list Z) : ServiceDiscover :=
  {| buffer_ := junk; callbacks_ := ∅; server_open := true; client_open := true |}.

(** The bytes that [Send] hands to [uv_udp_try_send]. *)
Definition Send (topic buf : list Z) : list Z := topic ++ [0] ++ buf.

Definition Recv (d : ServiceDiscover) (topic : list Z) (callback : C) : ServiceDiscover :=
  {| buffer_ := buffer_ d;
     callbacks_ := <[topic := default [] (callbacks_ d !! topic) ++ [callback]]> (callbacks_ d);
     server_open := server_open d; client_open := client_open d |}.

(** [std::string topic(buf->base)]: the bytes before the first NUL of the
    array; without one the constructor reads past the array. *)
Fixpoint c_string (bytes : list Z) : outcome (list Z) :=
  match bytes with
  | [] => Undef OutOfBounds
  | b :: bytes => if b =? 0 then Ret [] else s ← c_string bytes; Ret (b :: s)
  end.

(** [discover_read_cb]: the calls it makes, in order.  [callbacks_[topic]] enters
    an empty list for a topic that nobody registered. *)
Definition discover_read_cb (d : ServiceDiscover) (nread : Z)
    : outcome (ServiceDiscover * list (C * list Z * list Z)) :=
  if nread =? 0 then Ret (d, [])
  else if nread <? 0 then Ret (d, [])
  else
    topic ← c_string (buffer_ d);
    let b := drop (length topic + 1) (buffer_ d) in
    let cbs := default [] (callbacks_ d !! topic) in
    Ret ({| buffer_ := buffer_ d; callbacks_ := <[topic := cbs]> (callbacks_ d);
            server_open := server_open d; client_open := client_open d |},
         (fun cb => (cb, topic, b)) <$> cbs).

(** The event loop: [discover_buf_alloc] offers the array, a datagram is copied
    into it and cut off at its end, and the read callback runs. *)
Definition receive (d : ServiceDiscover) (datagram : list Z)
    : outcome (ServiceDiscover * list (C * list Z * list Z)) :=
  let n := Nat.min (length datagram) sizeof_buffer in
  let d' := {| buffer_ := take n datagram ++ drop n (buffer_ d); callbacks_ := callbacks_ d;
               server_open := server_open d; client_open := client_open d |} in
  discover_read_cb d' (Z.of_nat n).

(** [Stop] of the two copies. *)
Definition Stop (d : ServiceDiscover) : ServiceDiscover :=
  {| buffer_ := buffer_ d; callbacks_ := callbacks_ d; server_open := false; client_open := false |}.

Definition Stop_20230106 (d : ServiceDiscover) : ServiceDiscover :=
  {| buffer_ := buffer_ d; callbacks_ := callbacks_ d; server_open := false;
     client_open := client_open d |}.

(** The callbacks registered for a topic. *)
Definition registered (d : ServiceDiscover) (topic : list Z) : list C :=
  default [] (callbacks_ d !! topic).

(** ** Lemmas *)

Lemma c_string_app s rest : 0 ∉ s -> c_string (s ++ 0 :: rest) = Ret s.
Proof.
  induction s as [|b s IH]; intros H0; [done|]. simpl.
  apply not_elem_of_cons in H0 as [Hb Hs]. rewrite (proj2 (Z.eqb_neq b 0)) by done.
  by rewrite IH.
Qed.

Lemma c_string_no_nul s : 0 ∉ s -> c_string s = Undef OutOfBounds.
Proof.
  induction s as [|b s IH]; intros H0; [done|]. simpl.
  apply not_elem_of_cons in H0 as [Hb Hs]. rewrite (proj2 (Z.eqb_neq b 0)) by done.
  by rewrite IH.
Qed.

Lemma registered_Recv d topic cb t :
  registered (Recv d topic cb) t = registered d t ++ (if decide (t = topic) then [cb] else []).
Proof.
  unfold registered, Recv. simpl. case_decide as E.
  - subst. by rewrite lookup_insert_eq.
  - by rewrite lookup_insert_ne, app_nil_r.
Qed.

(** The entry that a received topic leaves behind is not a registration. *)
Lemma registered_read d topic t bf so co :
  registered {| buffer_ := bf; callbacks_ := <[topic := registered d topic]> (callbacks_ d);
                server_open := so; client_open := co |} t = registered d t.
Proof.
  unfold registered. simpl. destruct (decide (t = topic)) as [->|Hne].
  - by rewrite lookup_insert_eq.
  - by rewrite lookup_insert_ne.
Qed.

Lemma receive_frame d topic payload :
  0 ∉ topic -> (length (Send topic payload) <= sizeof_buffer)%nat ->
  let stale := drop (length (Send topic payload)) (buffer_ d) in
  receive d (Send topic payload) =
  Ret ({| buffer_ := Send topic payload ++ stale;
          callbacks_ := <[topic := registered d topic]> (callbacks_ d);
          server_open := server_open d; client_open := client_open d |},
       (fun cb => (cb, topic, payload ++ stale)) <$> registered d topic).
Proof.
  intros H0 Hlen stale. unfold receive. rewrite Nat.min_l by done.
  set (frame := Send topic payload) in *. rewrite take_ge by done.
  assert (length frame = length topic + 1 + length payload)%nat as Hl.
  { unfold frame, Send. rewrite !length_app. simpl. lia. }
  unfold discover_read_cb. cbn [buffer_ callbacks_ server_open client_open].
  destruct (Z.eqb_spec (Z.of_nat (length frame)) 0); [lia|].
  destruct (Z.ltb_spec (Z.of_nat (length frame)) 0); [lia|]. fold stale.
  assert (frame ++ stale = topic ++ 0 :: payload ++ stale) as Hb.
  { unfold frame, Send. rewrite <- app_assoc. simpl. done. }
  rewrite Hb at 1. rewrite c_string_app by done. simpl.
  replace (drop (length topic + 1) (frame ++ stale)) with (payload ++ stale).
  2:{ rewrite Hb, drop_app_add. simpl. by rewrite drop_0. }
  done.
Qed.
(** ** Claims *)

(** A datagram whose topic has no NUL and that fits the buffer reaches
    exactly the callbacks registered for its topic, in the order of their
    registration, and what they are given starts with the payload. *)
Theorem discover_delivers d topic payload :
  0 ∉ topic -> (length (Send topic payload) <= sizeof_buffer)%nat ->
  exists d' calls, receive d (Send topic payload) = Ret (d', calls) /\
    (forall t, registered d' t = registered d t) /\
    (fun x => x.1.1) <$> calls = registered d topic /\
    forall cb t b, (cb, t, b) ∈ calls -> t = topic /\ take (length payload) b = payload.
Proof.
  intros H0 Hlen. eexists _, _. rewrite (receive_frame d topic payload H0 Hlen). split; [done|].
  split; [intros t; apply registered_read|]. split.
  - rewrite <- list_fmap_compose. apply list_fmap_id.
  - intros cb t b (c & [= -> -> ->] & _)%list_elem_of_fmap. split; [done|]. by rewrite take_app_length.
Qed.

(** The length that [discover_read_cb] passes on is computed from the size of
    the buffer and not from the size of the datagram: with the 1500-byte array
    every callback is given [1499 - |topic|] bytes, and after a longer datagram
    on the same topic the bytes behind the payload are that datagram's. *)
Theorem discover_delivers_stale_bytes d topic p1 p2 d1 calls1 cb :
  0 ∉ topic -> length (buffer_ d) = sizeof_buffer -> cb ∈ registered d topic ->
  (length (Send topic p1) <= sizeof_buffer)%nat -> (length p2 <= length p1)%nat ->
  receive d (Send topic p1) = Ret (d1, calls1) ->
  exists d2 calls2 tail, receive d1 (Send topic p2) = Ret (d2, calls2) /\
    (cb, topic, p2 ++ drop (length p2) p1 ++ tail) ∈ calls2 /\
    length (p2 ++ drop (length p2) p1 ++ tail) = (sizeof_buffer - 1 - length topic)%nat.
Proof.
  intros H0 Hbuf Hcb Hlen Hp Hr. rewrite (receive_frame d topic p1 H0 Hlen) in Hr.
  injection Hr as <- <-.
  assert (length (Send topic p1) = length topic + 1 + length p1)%nat as L1
    by (unfold Send; rewrite !length_app; simpl; lia).
  assert (length (Send topic p2) = length topic + 1 + length p2)%nat as L2
    by (unfold Send; rewrite !length_app; simpl; lia).
  set (tail := drop (length (Send topic p1)) (buffer_ d)).
  eexists _, _, tail. rewrite receive_frame by (done || lia). split; [done|].
  rewrite registered_read. cbn [buffer_]. fold tail.
  assert (drop (length (Send topic p2)) (Send topic p1 ++ tail) = drop (length p2) p1 ++ tail) as ->.
  { rewrite L2, drop_app_le by lia. f_equal. unfold Send.
    rewrite <- Nat.add_assoc, drop_app_add. done. }
  split.
  - apply list_elem_of_fmap. by exists cb.
  - rewrite !length_app, length_drop. unfold tail. rewrite length_drop. lia.
Qed.

(** A datagram of at least 1500 bytes whose first 1500 bytes have no NUL makes
    [discover_read_cb] read past its buffer. *)
Theorem discover_overread d datagram :
  (sizeof_buffer <= length datagram)%nat -> length (buffer_ d) = sizeof_buffer ->
  0 ∉ take sizeof_buffer datagram -> receive d datagram = Undef OutOfBounds.
Proof.
  intros Hl Hb H0. unfold receive. rewrite Nat.min_r by done.
  rewrite (drop_ge (buffer_ d)) by lia. rewrite app_nil_r.
  unfold discover_read_cb. cbn [buffer_]. change (Z.of_nat sizeof_buffer =? 0) with false.
  change (Z.of_nat sizeof_buffer <? 0) with false. by rewrite c_string_no_nul.
Qed.
End Discover.
Arguments ServiceDiscover : clear implicits.

(** Topic [t], one callback; payloads [x y z] and then [w]. *)
Definition demo_discover : ServiceDiscover nat :=
  Recv (make_ServiceDiscover (replicate sizeof_buffer 0)) [116] 1%nat.

Lemma discover_delivers_witness :
  exists d' calls, receive demo_discover (Send [116] [120; 121; 122]) = Ret (d', calls) /\
    (fun x => x.1.1) <$> calls = [1%nat].
Proof.
  destruct (discover_delivers demo_discover [116] [120; 121; 122])
    as (d' & calls & Hr & _ & Hc & _).
  - by apply (bool_decide_unpack _).
  - simpl. unfold sizeof_buffer. lia.
  - exists d', calls. split; [exact Hr|done].
Defined.

Lemma discover_delivers_stale_bytes_witness :
  exists d1 d2 calls1 calls2 tail,
    receive demo_discover (Send [116] [120; 121; 122]) = Ret (d1, calls1) /\
    receive d1 (Send [116] [119]) = Ret (d2, calls2) /\
    (1%nat, [116], [119] ++ [121; 122] ++ tail) ∈ calls2.
Proof.
  destruct (receive demo_discover (Send [116] [120; 121; 122])) as [[d1 calls1]| | |] eqn:E;
    try (vm_compute in E; discriminate).
  destruct (discover_delivers_stale_bytes demo_discover [116] [120; 121; 122] [119] d1 calls1 1%nat)
    as (d2 & calls2 & tail & Hr & Hin & _); try done.
  - by apply (bool_decide_unpack _).
  - by left.
  - simpl. unfold sizeof_buffer. lia.
  - simpl. lia.
  - by exists d1, d2, calls1, calls2, tail.
Defined.

Lemma discover_overread_witness :
  receive demo_discover (replicate sizeof_buffer 65) = Undef OutOfBounds.
Proof.
  apply (discover_overread demo_discover (replicate sizeof_buffer 65)).
  - by rewrite length_replicate.
  - done.
  - intros H%list_elem_of_In. rewrite firstn_all2 in H by (rewrite length_replicate; lia).
    by apply list_elem_of_In, elem_of_replicate_inv in H.
Defined.
