(* ===== verification/PubSubShm.v ===== *)
(** * Publish/subscribe over shared memory

    [MessagePublisher] and [MessageSubscriber] of
    - src/c++/20221213-pubsub-shm-udp/message.hpp (module [V1]),
    - src/c++/20221215-pubsub-shm-udp-2/message.hpp (module [V2]),
    - src/c++/20230108-pubsub-shm-udp-3/message.hpp (module [V3]).

    A publisher hands out a block of its shared memory to be written, publishes
    it and sends a one-byte datagram to every subscriber it knows; the
    subscriber's read callback locks the published block, calls the user back
    and unlocks it.  Addresses are values of an arbitrary type; the results of
    libuv calls that the code looks at are arguments.  The user's callback is
    modelled by the buffers it is called with.

    The processes of the third version find each other by multicast, over a
    network that may lose, duplicate and reorder datagrams ([net_step]).  The
    string of the topic outlives the subscriber, whose callback for
    announcements holds a reference to it. *)

From stdpp Require Import base list numbers strings gmap.
From Stdlib Require Import ZArith Lia.
From S2P Require Import Prelude ShmState ShmBlock Discover.

Open Scope Z_scope.

Definition kBlockNum : Z := 8.
Definition kBlockSize : Z := 4 * 1024 * 1024.

(** The bytes of the notifications: [n], [r], [o]. *)
Definition notify : Z := 110.
Definition kNotifyRead : Z := 114.
Definition kNotifyOpen : Z := 111.

Record Buffer := {
  data_ : pointer;
  size_ : Z;
}.

Definition null_pointer : pointer := {| base := None; offset := 0 |}.

Section Messages.
Context {A : Type}.

Record MessagePublisher := {
  p_loop_ : bool;
  subs_ : list A;
  p_shm_ : ShmBlock;
}.

Record MessageSubscriber := {
  s_loop_ : bool;
  s_shm_ : ShmBlock;
  called : list Buffer;   (* the buffers that [callback_] was called with *)
}.

(** ** What the versions share *)

Definition Acquire (ops : block_ops) (fuel : nat) (spur : nat -> bool) (c : calls) (o : os)
    (p : MessagePublisher) (buf : Buffer) : outcome (os * MessagePublisher * Buffer) :=
  if kBlockSize <? size_ buf then Throw (Message "buf size exceeds kBlockSize")
  else
    x ← bo_acquire_write ops fuel spur c o (p_shm_ p);
    Ret (x.1.1, {| p_loop_ := p_loop_ p; subs_ := subs_ p; p_shm_ := x.1.2 |},
         {| data_ := default null_pointer x.2; size_ := kBlockSize |}).

(** The datagrams that are sent, whether or not they arrive. *)
Definition Publish (ops : block_ops) (byte : Z) (o : os) (p : MessagePublisher) (buf : Buffer)
    : outcome (os * list (A * Z)) :=
  o' ← ReleaseWrittenBlock (bo_state ops) o (p_shm_ p) (data_ buf);
  Ret (o', (fun sub => (sub, byte)) <$> subs_ p).

Definition push_sub (p : MessagePublisher) (addr : A) : MessagePublisher :=
  {| p_loop_ := p_loop_ p; subs_ := subs_ p ++ [addr]; p_shm_ := p_shm_ p |}.

Definition set_s_shm (s : MessageSubscriber) (b : ShmBlock) : MessageSubscriber :=
  {| s_loop_ := s_loop_ s; s_shm_ := b; called := called s |}.

Definition call_back (s : MessageSubscriber) (b : Buffer) : MessageSubscriber :=
  {| s_loop_ := s_loop_ s; s_shm_ := s_shm_ s; called := called s ++ [b] |}.

(** [ReleaseReadBlock(b)] for a pointer or NULL. *)
Definition release_read (o : os) (s : MessageSubscriber) (b : option pointer) : outcome os :=
  ReleaseReadBlock o (s_shm_ s) (default null_pointer b).

Definition stop_publisher (p : MessagePublisher) : MessagePublisher :=
  {| p_loop_ := false; subs_ := subs_ p; p_shm_ := p_shm_ p |}.

Definition stop_subscriber (s : MessageSubscriber) : MessageSubscriber :=
  {| s_loop_ := false; s_shm_ := s_shm_ s; called := called s |}.

(** Destruction stops the object if it runs, then destroys its [shm_]. *)
Definition destroy_publisher (ops : block_ops) (o : os) (p : MessagePublisher) : outcome os :=
  let p' := if p_loop_ p then stop_publisher p else p in bo_destroy ops o (p_shm_ p').

Definition destroy_subscriber (ops : block_ops) (o : os) (s : MessageSubscriber) : outcome os :=
  let s' := if s_loop_ s then stop_subscriber s else s in bo_destroy ops o (s_shm_ s').
End Messages.
Arguments MessagePublisher : clear implicits.

Module V1.
Section V1.
Context {A : Type}.

Definition publisher (udp_init : Z) (c : calls) (o : os) (topic : string)
    : outcome (os * MessagePublisher A) :=
  shm ← bo_make pubsub1_hpp topic kBlockNum kBlockSize;
  if negb (udp_init =? 0) then Throw (Message "uv_udp_init error")
  else
    let '(o', shm', ok) := bo_open_write pubsub1_hpp c o shm in
    if ok then Ret (o', {| p_loop_ := true; subs_ := []; p_shm_ := shm' |})
    else Throw (Message "shm OpenOrCreate error").

(** [addr] is what [uv_ip4_addr] makes of the arguments, if anything. *)
Definition AddSub (p : MessagePublisher A) (addr : option A) : MessagePublisher A * Z :=
  match addr with
  | None => (p, -1)
  | Some a => (push_sub p a, 0)
  end.

Definition Publish := Publish (A := A) pubsub1_hpp notify.

(** The subscriber opens or creates. *)
Definition subscriber (udp_init : Z) (c : calls) (o : os) (topic : string)
    : outcome (os * MessageSubscriber) :=
  shm ← bo_make pubsub1_hpp topic kBlockNum kBlockSize;
  if negb (udp_init =? 0) then Throw RethrowNothing
  else
    let '(o', shm', ok) := bo_open_write pubsub1_hpp c o shm in
    if ok then Ret (o', {| s_loop_ := true; s_shm_ := shm'; called := [] |})
    else Throw (Message "shm OpenOrCreate error").

Definition pinger_read_cb (fuel : nat) (spur : nat -> bool) (c : calls) (o : os)
    (s : MessageSubscriber) (nread : Z) : outcome (os * MessageSubscriber) :=
  if nread =? 0 then Ret (o, s)
  else if nread <? 0 then Undef AssertFailed
  else
    x ← bo_acquire_read pubsub1_hpp fuel spur c o (s_shm_ s);
    let s' := call_back (set_s_shm s x.1.2)
                {| data_ := default null_pointer x.2; size_ := kBlockSize |} in
    o' ← release_read x.1.1 s' x.2;
    Ret (o', s').
End V1.
End V1.

Module V2.
Section V2.
Context {A : Type}.

Definition publisher (ops : block_ops) (udp_init : Z) (c : calls) (o : os) (topic : string)
    : outcome (os * MessagePublisher A) :=
  shm ← bo_make ops topic kBlockNum kBlockSize;
  if negb (udp_init =? 0) then Throw (Message "uv_udp_init error")
  else
    let '(o', shm', ok) := bo_open_write ops c o shm in
    if ok then Ret (o', {| p_loop_ := true; subs_ := []; p_shm_ := shm' |})
    else Throw RethrowNothing.

(** Tells the subscriber to open the shared memory again, then adds it. *)
Definition AddSub (p : MessagePublisher A) (addr : option A)
    : MessagePublisher A * Z * list (A * Z) :=
  match addr with
  | None => (p, -1, [])
  | Some a => (push_sub p a, 0, [(a, kNotifyOpen)])
  end.

Definition Publish (ops : block_ops) := Publish (A := A) ops kNotifyRead.

(** The subscriber tries to open; if there is no segment yet it goes on. *)
Definition subscriber (ops : block_ops) (udp_init : Z) (c : calls) (o : os) (topic : string)
    : outcome (os * MessageSubscriber) :=
  shm ← bo_make ops topic kBlockNum kBlockSize;
  if negb (udp_init =? 0) then Throw RethrowNothing
  else
    let '(o', shm', _) := bo_open_read ops c o shm in
    Ret (o', {| s_loop_ := true; s_shm_ := shm'; called := [] |}).

(** [first] is the first byte of the datagram. *)
Definition pinger_read_cb (ops : block_ops) (fuel : nat) (spur : nat -> bool) (c : calls) (o : os)
    (s : MessageSubscriber) (nread first : Z) : outcome (os * MessageSubscriber) :=
  if nread =? 0 then Ret (o, s)
  else if nread <? 0 then Undef AssertFailed
  else if first =? kNotifyRead then
    x ← bo_acquire_read ops fuel spur c o (s_shm_ s);
    let s1 := set_s_shm s x.1.2 in
    match x.2 with
    | None => Ret (x.1.1, s1)
    | Some b =>
        let s2 := call_back s1 {| data_ := b; size_ := kBlockSize |} in
        o' ← release_read x.1.1 s2 (Some b);
        Ret (o', s2)
    end
  else if first =? kNotifyOpen then
    let '(o', shm', _) := bo_open_read ops c o (Overwriting.Stop (s_shm_ s)) in
    Ret (o', set_s_shm s shm')
  else Ret (o, s).
End V2.
End V2.

(** ** The third version finds its peers by multicast *)

(** The bytes of a string. *)
Fixpoint to_bytes (s : string) : list Z :=
  match s with
  | EmptyString => []
  | String c s => Z.of_N (Ascii.N_of_ascii c) :: to_bytes s
  end.

Definition pub_topic (topic : string) : list Z := to_bytes ("message/" +:+ topic +:+ "/pub").
Definition sub_topic (topic : string) : list Z := to_bytes ("message/" +:+ topic +:+ "/sub").

Definition sizeof_sockaddr_in : nat := 16.

(** The two callbacks that the constructors register. *)
Inductive discover_callback :=
  | PubCallback    (* remembers the address that it is sent *)
  | SubCallback.   (* answers with its own address *)

#[export] Instance discover_callback_eq_dec : EqDecision discover_callback.
Proof. solve_decision. Defined.

Module V3.

(** A process with a publisher or a subscriber: what discovery changes of it. *)
Record node := {
  topic_ : string;
  discover_ : ServiceDiscover discover_callback;
  found : list (list Z);     (* [subs_] of a publisher *)
  sockname : list Z;         (* of a subscriber *)
}.

(** The constructors: register, then send; the address that a publisher sends
    is an uninitialised variable. *)
Definition start_publisher (topic : string) (buf junk : list Z) : node * list Z :=
  ({| topic_ := topic;
      discover_ := Recv (make_ServiceDiscover buf) (sub_topic topic) PubCallback;
      found := []; sockname := [] |},
   Send (pub_topic topic) junk).


(** One call of a callback: the node after it, and what it sends. *)
Definition run_callback (n : node) (cb : discover_callback) (b : list Z) : node * list (list Z) :=
  match cb with
  | PubCallback =>
      ({| topic_ := topic_ n; discover_ := discover_ n;
          found := found n ++ [take sizeof_sockaddr_in b]; sockname := sockname n |}, [])
  | SubCallback => (n, [Send (sub_topic (topic_ n)) (sockname n)])
  end.

Fixpoint run_callbacks (n : node) (cbs : list (discover_callback * list Z * list Z))
    : node * list (list Z) :=
  match cbs with
  | [] => (n, [])
  | (cb, _, b) :: cbs =>
      let '(n1, out1) := run_callback n cb b in
      let '(n2, out2) := run_callbacks n1 cbs in
      (n2, out1 ++ out2)
  end.

Definition deliver (n : node) (datagram : list Z) : outcome (node * list (list Z)) :=
  x ← receive (discover_ n) datagram;
  Ret (run_callbacks {| topic_ := topic_ n; discover_ := x.1; found := found n;
                        sockname := sockname n |} x.2).

(** The shared-memory side is that of the second version on the third shm.hpp. *)
Definition publisher := V2.publisher (A := list Z) pubsub3_hpp.
Definition Publish := V2.Publish (A := list Z) pubsub3_hpp.
Definition subscriber := V2.subscriber pubsub3_hpp.
Definition message_read_cb := V2.pinger_read_cb pubsub3_hpp.

End V3.

(** ** Discovery *)

Lemma to_bytes_app s t : to_bytes (s +:+ t) = to_bytes s ++ to_bytes t.
Proof. induction s as [|c s IH]; [done|]. simpl. by f_equal. Qed.

Lemma pub_sub_topics_differ t t' : pub_topic t <> sub_topic t'.
Proof.
  unfold pub_topic, sub_topic. rewrite !to_bytes_app. intros H.
  rewrite !(app_assoc (to_bytes "message/")) in H. by apply app_inj_2 in H as [_ ?].
Qed.

(** A topic that fits the receive buffer with an address behind it, and has no
    NUL in it. *)
Record topic_ok (topic : string) : Prop := {
  to_nul : 0 ∉ to_bytes topic;
  to_len : (length (to_bytes topic) <= 1400)%nat;
}.

Lemma topics_ok topic : topic_ok topic -> (0 ∉ pub_topic topic) /\ (0 ∉ sub_topic topic).
Proof.
  intros [H0 _]. unfold pub_topic, sub_topic. rewrite !to_bytes_app, !not_elem_of_app.
  split; (split; [|split; [done|]]); by apply (bool_decide_unpack _).
Qed.

Lemma frame_fits topic payload :
  topic_ok topic -> (length payload <= sizeof_sockaddr_in)%nat ->
  (length (Send (pub_topic topic) payload) <= sizeof_buffer)%nat /\
  (length (Send (sub_topic topic) payload) <= sizeof_buffer)%nat.
Proof.
  intros [_ Hl] Hp. unfold pub_topic, sub_topic, Send, sizeof_sockaddr_in, sizeof_buffer in *.
  rewrite !to_bytes_app, !length_app. simpl. lia.
Qed.

Definition pub_node (t : string) (n : V3.node) : Prop :=
  V3.topic_ n = t /\
  forall x, registered (V3.discover_ n) x = if decide (x = sub_topic t) then [PubCallback] else [].

Definition sub_node (t : string) (n : V3.node) : Prop :=
  V3.topic_ n = t /\ length (V3.sockname n) = sizeof_sockaddr_in /\
  forall x, registered (V3.discover_ n) x = if decide (x = pub_topic t) then [SubCallback] else [].

Lemma registered_make buf t :
  registered (make_ServiceDiscover (C := discover_callback) buf) t = [].
Proof. done. Qed.

Lemma deliver_eq n topic payload :
  0 ∉ topic -> (length (Send topic payload) <= sizeof_buffer)%nat ->
  exists d b, (forall x, registered d x = registered (V3.discover_ n) x) /\
    take (length payload) b = payload /\
    V3.deliver n (Send topic payload) =
    Ret (V3.run_callbacks {| V3.topic_ := V3.topic_ n; V3.discover_ := d; V3.found := V3.found n;
                             V3.sockname := V3.sockname n |}
           ((fun cb => (cb, topic, b)) <$> registered (V3.discover_ n) topic)).
Proof.
  intros H0 Hl. unfold V3.deliver. rewrite receive_frame by done. simpl. eexists _, _.
  split; [|split; [|done]]; [intros x; apply registered_read|by rewrite take_app_length].
Qed.


Lemma start_pub_node t buf junk : pub_node t (V3.start_publisher t buf junk).1.
Proof.
  split; [done|]. intros x. simpl. rewrite registered_Recv, registered_make. done.
Qed.


(** ** The network

    Datagrams are lost, duplicated and delivered in any order, to each receiver
    on its own; [uv_udp_try_send] can fail.  Processes of any topics start at any
    time. *)

(** What is under way, and what did not or will not arrive: receivers and
    datagrams. *)
Record network := {
  nodes : list V3.node;
  flight : list (nat * list Z);
  lost : list (nat * list Z);
}.








(** There is a subscriber of the topic with this address. *)
Definition subscribed (w : network) (t : string) (a : list Z) : Prop :=
  exists s, s ∈ nodes w /\ sub_node t s /\ V3.sockname s = a.

(** The announcement of a publisher, or the address of a subscriber. *)
Definition datagram (w : network) (d : list Z) : Prop :=
  exists t a, topic_ok t /\ length a = sizeof_sockaddr_in /\
    (d = Send (pub_topic t) a \/ d = Send (sub_topic t) a /\ subscribed w t a).




Lemma to_bytes_inj s t : to_bytes s = to_bytes t -> s = t.
Proof.
  revert t. induction s as [|c s IH]; intros [|c' t]; [done|done|done|]. simpl. intros [= H1 H2].
  f_equal; [|by apply IH]. apply (f_equal Z.to_N) in H1. rewrite !N2Z.id in H1.
  by rewrite <- (Ascii.ascii_N_embedding c), <- (Ascii.ascii_N_embedding c'), H1.
Qed.


Lemma sub_topic_inj t t' : sub_topic t = sub_topic t' -> t = t'.
Proof.
  unfold sub_topic. rewrite !to_bytes_app. intros H%app_inv_head%app_inv_tail. by apply to_bytes_inj.
Qed.

(** A publisher that gets a datagram. *)
Lemma deliver_to_publisher t n t' a (announced : bool) :
  pub_node t n -> topic_ok t' -> length a = sizeof_sockaddr_in ->
  exists n', V3.deliver n (Send (if announced then pub_topic t' else sub_topic t') a) = Ret (n', []) /\
    pub_node t n' /\ V3.sockname n' = V3.sockname n /\
    V3.found n' = V3.found n ++ (if decide (announced = false /\ t' = t) then [a] else []).
Proof.
  intros [Htop Hreg] Ht Ha. destruct (topics_ok t' Ht) as [H0 H1]. destruct (frame_fits t' a Ht ltac:(lia)) as [Hl0 Hl1].
  destruct (deliver_eq n (if announced then pub_topic t' else sub_topic t') a) as (d & b & Hd & Hb & ->);
    [by destruct announced..|]. rewrite Hreg.
  assert (forall f, pub_node t {| V3.topic_ := V3.topic_ n; V3.discover_ := d; V3.found := f; V3.sockname := V3.sockname n |})
    as Hp by (intros f; split; [done|]; intros x; simpl; by rewrite Hd).
  destruct announced.
  - rewrite decide_False by (apply pub_sub_topics_differ). rewrite decide_False by (by intros []). csimpl.
    eexists. split; [done|]. split; [done|]. split; [done|]. by rewrite app_nil_r.
  - destruct (decide (t' = t)) as [->|Hne].
    + rewrite !decide_True by done. csimpl. eexists. split; [done|]. split; [done|].
      split; [done|]. simpl. by rewrite <- Ha, Hb.
    + rewrite decide_False by (by intros ->%sub_topic_inj). rewrite decide_False by (by intros []). csimpl.
      eexists. split; [done|]. split; [done|]. split; [done|]. by rewrite app_nil_r.
Qed.


(** ** Sending keeps what is known *)






(** ** Starting *)


(** ** Arriving *)









(** ** Coming to rest *)







(** ** One message *)

Lemma demo_like_geometry : geometry kBlockNum kBlockSize.
Proof. split; unfold kBlockNum, kBlockSize, ENTRY_NUM_MAX, sizeof_State_aligned, int_max; lia. Qed.

Definition with_segment (b : ShmBlock) (id : nat) : ShmBlock :=
  set_buffer (set_state (set_mapping b (Mapped id)) id) id.

(** Opening a segment of the right geometry that exists. *)
Lemma Open_existing topic bn bs o b id len st :
  geometry bn bs -> constructed topic bn bs b ->
  names o !! topic = Some id -> segments o !! id = Some {| seg_len := len; seg_state := st |} ->
  0 < len -> state_ok st -> block_num_ st = bn ->
  Overwriting.Open all_ok o b = (o, with_segment b id, true) /\ opened o (with_segment b id) id st.
Proof.
  intros [Hn Hs Hb] [Hna Hnu Hsi Hca Hnull Hnost Hnobuf] Hid Hseg Hlen Hok Hbn.
  unfold sizeof_State_aligned in *. split.
  - unfold Overwriting.Open. rewrite Hnull, Hna. simpl. rewrite Hid. simpl.
    unfold seg_length. rewrite Hseg. simpl. by rewrite (proj2 (Z.ltb_lt 0 len)) by lia.
  - split; simpl; try done; [by exists len|congruence|lia|rewrite Hnu, Hsi; lia].
Qed.

Lemma Open_missing topic bn bs o b :
  constructed topic bn bs b -> names o !! topic = None ->
  Overwriting.Open all_ok o b = (o, b, false).
Proof.
  intros [Hna _ _ _ Hnull _ _] Hnone. unfold Overwriting.Open. rewrite Hnull, Hna. simpl.
  by rewrite Hnone.
Qed.

Lemma overwriting_ops ops :
  ops ∈ overwriting_copies ->
  ops ∈ counted_copies ++ overwriting_copies /\
  bo_open_write ops = Overwriting.Create /\ bo_open_read ops = Overwriting.Open /\
  (forall topic, exists b, bo_make ops topic kBlockNum kBlockSize = Ret b /\
     constructed topic kBlockNum kBlockSize b).
Proof.
  intros Hops. assert (ops ∈ counted_copies ++ overwriting_copies) as Hall
    by (apply elem_of_app; by right).
  split; [done|]. split; [by each_copy Hops|]. split; [by each_copy Hops|].
  intros topic.
  assert (exists b, bo_make ops topic kBlockNum kBlockSize = Ret b) as [b Hb]
    by (each_copy Hops; eexists; vm_compute; reflexivity).
  exists b. split; [done|]. apply (make_constructed ops); [done|apply demo_like_geometry|done].
Qed.

(** An object that is not open yet opens the segment when it is read. *)
Lemma acquire_read_opens ops o b b' id st fuel spur :
  ops ∈ overwriting_copies -> managed_shm_ b = Unmapped ->
  Overwriting.Open all_ok o b = (o, b', true) -> opened o b' id st ->
  bo_acquire_read ops fuel spur all_ok o b = bo_acquire_read ops fuel spur all_ok o b'.
Proof.
  intros Hops Hnull Hopen Ho. pose proof (op_mapping _ _ _ _ Ho) as Hm.
  each_copy Hops; simpl; unfold Overwriting.acquire_read; by rewrite Hnull, Hopen, Hm.
Qed.

(** The publisher writes one message into a fresh segment. *)
Lemma publisher_writes {A} ops o topic (addr : A) :
  ops ∈ overwriting_copies -> names o !! topic = None ->
  exists o1 p o2 buf o3 i,
    V2.publisher ops 0 all_ok o topic = Ret (o1, p) /\
    names o1 !! topic = Some (length (segments o)) /\
    Acquire ops 8 (fun _ => false) all_ok o1 (push_sub p addr) {| data_ := null_pointer; size_ := 0 |} =
      Ret (o2, push_sub p addr, buf) /\
    V2.Publish ops o2 (push_sub p addr) buf = Ret (o3, [(addr, kNotifyRead)]) /\
    names o3 = names o1 /\
    (exists len, segments o3 !! length (segments o) =
       Some {| seg_len := len; seg_state := set_read_pos (make_State kBlockNum kBlockSize) i |} /\
       0 < len) /\
    (exists len1, segments o1 !! length (segments o) =
       Some {| seg_len := len1; seg_state := make_State kBlockNum kBlockSize |} /\ 0 < len1) /\
    0 <= i < kBlockNum /\
    data_ buf = {| base := Some (length (segments o)); offset := i * kBlockSize |}.
Proof.
  intros Hops Hnone. destruct (overwriting_ops ops Hops) as (Hall & Hw & Hr & Hmk).
  destruct (Hmk topic) as (b & Hb & Hcb). pose proof demo_like_geometry as Hg.
  pose proof (co_cap _ _ _ _ Hcb) as Hcap. set (st := make_State kBlockNum kBlockSize).
  set (o1 := created o topic (cap_ b) st). set (id := length (segments o)).
  assert (opened o1 (attached o b) id st) as Ho1
    by (apply (created_opened topic kBlockNum kBlockSize); [done|done|by left]).
  destruct (write_block ops o1 (attached o b) id st 0 all_ok Hall Ho1 ltac:(done) eq_refl)
    as (i & ptr & o2 & Hacq & Hfree & Hptr & Hlo & Hhi & Hrel).
  exists o1, {| p_loop_ := true; subs_ := []; p_shm_ := attached o b |}, o2,
    {| data_ := ptr; size_ := kBlockSize |}, (put_state o1 (attached o b) (set_read_pos st i)), i.
  pose proof (op_segment _ _ _ _ Ho1) as [len Hseg].
  assert (0 < cap_ b) as Hpos by (unfold kBlockNum, kBlockSize in Hcap; lia).
  assert (len = cap_ b) as ->.
  { unfold o1, created in Hseg. simpl in Hseg. rewrite lookup_app_r, Nat.sub_diag in Hseg by done.
    by injection Hseg. }
  split.
  { unfold V2.publisher. rewrite Hb. simpl. rewrite Hw.
    by rewrite (create_overwriting topic kBlockNum kBlockSize). }
  split; [apply lookup_insert_eq|]. split.
  { unfold Acquire. simpl. change (Z.to_nat (block_num_ st)) with 8%nat in Hacq. by rewrite Hacq. }
  split; [unfold V2.Publish, Publish; simpl; by rewrite Hrel|].
  assert (put_state o1 (attached o b) (set_read_pos st i) =
    set_segment o1 id {| seg_len := cap_ b; seg_state := set_read_pos st i |}) as ->.
  { unfold put_state. rewrite (op_state _ _ _ _ Ho1), Hseg. done. }
  split; [done|]. split.
  { exists (cap_ b). cbn [set_segment segments]. rewrite list_lookup_insert_eq; [done|]. by eapply lookup_lt_Some. }
  split; [by exists (cap_ b)|]. destruct Hcb as [_ Hnu Hsi _ _ _ _].
  subst ptr. simpl in Hlo, Hhi |- *. rewrite Hnu, Hsi in *. unfold kBlockNum, kBlockSize in *.
  split; [lia|done].
Qed.

Lemma lock_at_fresh bn bs rp i : lock_at (set_read_pos (make_State bn bs) rp) i = 0.
Proof.
  unfold lock_at.
  change (locks_ (set_read_pos (make_State bn bs) rp)) with (replicate (Z.to_nat ENTRY_NUM_MAX) 0).
  destruct (replicate (Z.to_nat ENTRY_NUM_MAX) 0 !! Z.to_nat i) as [x|] eqn:Hx; [|done].
  by apply lookup_replicate in Hx as [-> _].
Qed.

(** The read callback of a subscriber whose object is open, or can be opened. *)
Lemma subscriber_reads ops o s b' id st :
  ops ∈ overwriting_copies -> opened o b' id st -> sb_block_size_ b' = kBlockSize ->
  (s_shm_ s = b' \/
   managed_shm_ (s_shm_ s) = Unmapped /\ Overwriting.Open all_ok o (s_shm_ s) = (o, b', true)) ->
  0 <= read_pos_ st < block_num_ st -> lock_at st (read_pos_ st) = 0 ->
  exists s', V2.pinger_read_cb ops 4 (fun _ => false) all_ok o s 1 kNotifyRead = Ret (o, s') /\
    called s' = called s ++ [{| data_ := {| base := Some id; offset := read_pos_ st * kBlockSize |};
                                size_ := kBlockSize |}].
Proof.
  intros Hops Ho Hsz Hs Hrp Hl. destruct (overwriting_ops ops Hops) as (Hall & _).
  destruct (read_block ops o b' id st all_ok Hall Ho Hrp) as (p & o1 & Hacq & Hp & _ & _ & Hrel).
  { rewrite Hl. unfold int_min, int_max. lia. }
  assert (bo_acquire_read ops 4 (fun _ => false) all_ok o (s_shm_ s) = Ret (o1, b', Some p)) as Hacq'.
  { destruct Hs as [-> |[Hnull Hopen]]; [done|].
    by rewrite (acquire_read_opens ops o _ b' id st 4 (fun _ => false) Hops Hnull Hopen Ho). }
  unfold V2.pinger_read_cb. simpl. rewrite Hacq'. simpl. unfold release_read. simpl. rewrite Hrel. simpl.
  eexists. split; [done|]. simpl. by rewrite Hp, Hsz.
Qed.

Lemma subscriber_starts ops o topic b :
  ops ∈ overwriting_copies -> bo_make ops topic kBlockNum kBlockSize = Ret b ->
  forall o' b' ok, Overwriting.Open all_ok o b = (o', b', ok) ->
  V2.subscriber ops 0 all_ok o topic = Ret (o', {| s_loop_ := true; s_shm_ := b'; called := [] |}).
Proof.
  intros Hops Hb o' b' ok Hopen. destruct (overwriting_ops ops Hops) as (_ & _ & Hr & _).
  unfold V2.subscriber. rewrite Hb. simpl. by rewrite Hr, Hopen.
Qed.

(** ** Claims *)

(** C31: in the second and third version, whether the subscriber starts before or
    after the publisher, the first message that is published reaches it: it is
    notified, its callback is given the very block that the publisher wrote,
    and afterwards the shared memory is as the publisher left it. *)
Theorem message_delivered {A} ops o topic (addr : A) (early : bool) :
  ops ∈ overwriting_copies -> names o !! topic = None ->
  exists o1 p s o2 buf o3 s',
    V2.publisher ops 0 all_ok o topic = Ret (o1, p) /\
    (if early then V2.subscriber ops 0 all_ok o topic = Ret (o, s)
     else V2.subscriber ops 0 all_ok o1 topic = Ret (o1, s)) /\
    Acquire ops 8 (fun _ => false) all_ok o1 (push_sub p addr) {| data_ := null_pointer; size_ := 0 |} =
      Ret (o2, push_sub p addr, buf) /\
    V2.Publish ops o2 (push_sub p addr) buf = Ret (o3, [(addr, kNotifyRead)]) /\
    V2.pinger_read_cb ops 4 (fun _ => false) all_ok o3 s 1 kNotifyRead = Ret (o3, s') /\
    called s' = [{| data_ := data_ buf; size_ := kBlockSize |}].
Proof.
  intros Hops Hnone. destruct (overwriting_ops ops Hops) as (Hall & Hw & Hr & Hmk).
  destruct (Hmk topic) as (b & Hb & Hcb). pose proof demo_like_geometry as Hg.
  destruct (publisher_writes ops o topic addr Hops Hnone) as
    (o1 & p & o2 & buf & o3 & i & Hpub & Hn1 & Hacq & Hpubl & Hn3 & (len & Hseg3 & Hlen) &
     (len1 & Hseg1 & Hlen1) & Hi & Hbuf).
  set (id := length (segments o)) in *.
  assert (state_ok (make_State kBlockNum kBlockSize)) as Hok by (apply make_State_ok, Hg).
  assert (state_ok (set_read_pos (make_State kBlockNum kBlockSize) i)) as Hok3 by (by destruct Hok).
  destruct (Open_existing topic _ _ o3 b id len _ Hg Hcb ltac:(by rewrite Hn3) Hseg3 Hlen Hok3 eq_refl)
    as [Hopen3 Ho3].
  destruct (Open_existing topic _ _ o1 b id len1 _ Hg Hcb Hn1 Hseg1 Hlen1 Hok eq_refl) as [Hopen1 _].
  pose proof (lock_at_fresh kBlockNum kBlockSize i i) as Hfree.
  exists o1, p, {| s_loop_ := true; s_shm_ := if early then b else with_segment b id; called := [] |},
    o2, buf, o3.
  destruct (subscriber_reads ops o3
    {| s_loop_ := true; s_shm_ := if early then b else with_segment b id; called := [] |}
    (with_segment b id) id _ Hops Ho3 (co_size _ _ _ _ Hcb)) as (s' & Hread & Hcalled); [|done|done|].
  { destruct early; [right|by left]. split; [apply Hcb|done]. }
  exists s'. split; [done|]. split.
  { destruct early.
    - by apply (subscriber_starts ops o topic b Hops Hb _ _ false), (Open_missing topic _ _ o b Hcb).
    - by apply (subscriber_starts ops o1 topic b Hops Hb _ _ true). }
  split; [done|]. split; [done|]. split; [done|]. rewrite Hcalled, Hbuf. done.
Qed.

Lemma message_delivered_witness :
  exists o1 (p : MessagePublisher Z) s,
    V3.subscriber 0 all_ok {| names := ∅; segments := [] |} "topic" =
      Ret ({| names := ∅; segments := [] |}, s) /\
    V2.publisher pubsub3_hpp 0 all_ok {| names := ∅; segments := [] |} "topic" = Ret (o1, p).
Proof.
  destruct (message_delivered pubsub3_hpp {| names := ∅; segments := [] |} "topic" 7 true)
    as (o1 & p & s & o2 & buf & o3 & s' & H1 & H2 & _); [in_list|done|].
  exists o1, p, s. by split.
Defined.

(** A subscriber of these versions removes the name of the shared memory
    when it is destroyed, although the publisher is still using it: a
    subscriber that starts afterwards does not find the segment, and is never
    called back however often it is notified. *)
Theorem destroyed_subscriber_hides_segment ops o topic id s :
  ops ∈ overwriting_copies -> shm_name_ (s_shm_ s) = topic ->
  managed_shm_ (s_shm_ s) = Mapped id ->
  exists o' s2,
    destroy_subscriber ops o s = Ret o' /\ segments o' = segments o /\
    V2.subscriber ops 0 all_ok o' topic = Ret (o', s2) /\
    forall fuel spur, V2.pinger_read_cb ops fuel spur all_ok o' s2 1 kNotifyRead = Ret (o', s2) /\
      called s2 = [].
Proof.
  intros Hops Hname Hmap. destruct (overwriting_ops ops Hops) as (Hall & Hw & Hr & Hmk).
  destruct (Hmk topic) as (b & Hb & Hcb).
  exists (shm_unlink o topic), {| s_loop_ := true; s_shm_ := b; called := [] |}.
  assert (Overwriting.Open all_ok (shm_unlink o topic) b = (shm_unlink o topic, b, false)) as Hopen
    by (apply (Open_missing topic _ _ _ b Hcb); apply lookup_delete_eq).
  split.
  { unfold destroy_subscriber. destruct (s_loop_ s); simpl; each_copy Hops; simpl;
      unfold Overwriting.destroy2, Overwriting.destroy3; simpl; rewrite ?Hmap; simpl; by rewrite Hname. }
  split; [done|]. split; [by apply (subscriber_starts ops _ topic b Hops Hb _ _ false)|].
  intros fuel spur. split; [|done].
  assert (bo_acquire_read ops fuel spur all_ok (shm_unlink o topic) b =
          Ret (shm_unlink o topic, b, None)) as Hacq.
  { each_copy Hops; simpl; unfold Overwriting.acquire_read; rewrite (co_null _ _ _ _ Hcb); simpl;
      by rewrite Hopen. }
  unfold V2.pinger_read_cb. simpl. rewrite Hacq. done.
Qed.

Lemma destroyed_subscriber_hides_segment_witness :
  exists o' s2,
    destroy_subscriber pubsub3_hpp (demo_os (make_State 8 4194304))
      {| s_loop_ := true; s_shm_ := demo_attached; called := [] |} = Ret o' /\
    V3.subscriber 0 all_ok o' "topic" = Ret (o', s2).
Proof.
  destruct (destroyed_subscriber_hides_segment pubsub3_hpp (demo_os (make_State 8 4194304)) "topic" 0
    {| s_loop_ := true; s_shm_ := demo_attached; called := [] |}) as (o' & s2 & H1 & _ & H2 & _);
    [in_list|done|done|].
  by exists o', s2.
Defined.


(** A publisher and a subscriber of the topic [t] start in this order; the
    copies of the first announcement are lost, the address of the subscriber
    arrives at the publisher. *)
Definition demo_addr : list Z := replicate sizeof_sockaddr_in 9.

Lemma demo_topic : topic_ok "t".
Proof. split; [by apply (bool_decide_unpack _)|simpl; lia]. Qed.




(** Nothing checks whether an address is known already: an address that arrives
    again, in answer to the announcement of another publisher of the topic, is
    appended again, and each message is then notified twice. *)
Theorem discovery_duplicates t p a :
  topic_ok t -> pub_node t p -> length a = sizeof_sockaddr_in -> a ∈ V3.found p ->
  exists p' l1 l2, V3.deliver p (Send (sub_topic t) a) = Ret (p', []) /\
    V3.found p' = l1 ++ a :: l2 ++ [a].
Proof.
  intros Ht Hp Ha (l1 & l2 & E)%list_elem_of_split.
  destruct (deliver_to_publisher t p t a false Hp Ht Ha) as (p' & Hd & _ & _ & Ef).
  exists p', l1, l2. split; [done|]. rewrite Ef, E, decide_True by done. by rewrite <- app_assoc.
Qed.

Lemma discovery_duplicates_witness :
  let p := V3.run_callback (V3.start_publisher "t" [] demo_addr).1 PubCallback demo_addr in
  exists p' l1 l2, V3.deliver p.1 (Send (sub_topic "t") demo_addr) = Ret (p', []) /\
    V3.found p' = l1 ++ demo_addr :: l2 ++ [demo_addr].
Proof.
  intros p. apply (discovery_duplicates "t" p.1 demo_addr demo_topic); [|done|by left].
  destruct (start_pub_node "t" [] demo_addr) as [H1 H2]. by split.
Defined.
