(* ===== verification/PubSubAsync.v ===== *)
(** * Publish/subscribe inside one process, through libuv async handles

    [MessagePublisherDelegate], [MessagePublisher] and [MessageSubscriber] of
    - src/c++/20221209-pubsub-libuv-async/message.hpp,
    - src/c++/20221209-pubsub-udp-libuv/message.hpp (the same text),
    - src/c++/20221211-pubsub-libuv-multithread/message.hpp (each subscriber may
      have its own event loop).

    [Publish] stores the message in every subscriber of the topic and wakes the
    subscriber's event loop, holding [subscribers_mutex_]; the loop runs
    [async_subscriber_cb].  The stores, the wake-ups and the callbacks of all
    threads interleave.  Of libuv it is assumed what it documents:
    [uv_async_send] calls may be merged, and after a call the callback runs at
    least once.  Messages are numbers; objects are indices. *)

From stdpp Require Import base list numbers strings gmap relations.
From Stdlib Require Import ZArith Lia.
From S2P Require Import Prelude.

Open Scope Z_scope.

Definition message := Z.

(** A publication that holds [subscribers_mutex_]: the message, the subscribers
    still to be served, and whether the first of them has the message already
    but has not been woken. *)
Record posting := {
  msg : message;
  todo : list nat;
  stored : bool;
}.

Record MessagePublisherDelegate := {
  topic_ : string;
  subscribers_ : list nat;
  busy : option posting;
}.

Record MessageSubscriber := {
  publisher_ : nat;
  stop_ : bool;
  buffer_ : option message;
  pending : bool;              (* [async_subscriber_] has been sent to *)
  stop_unsent : bool;          (* in [Stop], before [uv_async_send] *)
  closed : bool;
  called : list message;       (* the arguments of [callback_] so far *)
}.

(** What happened, by the objects and the names of the topics. *)
Inductive event :=
  | Subscribed (s : nat)
  | Published (topic : string) (d : nat) (m : message)
  | Erased (topic : string).

#[export] Instance event_eq_dec : EqDecision event.
Proof. solve_decision. Defined.

Record world := {
  topics : gmap string nat;
  delegates : list MessagePublisherDelegate;
  subs : list MessageSubscriber;
  log : list event;            (* the program does not have it *)
}.

(** [GetOrNew]. *)
Definition GetOrNew (w : world) (topic : string) : world * nat :=
  match topics w !! topic with
  | Some d => (w, d)
  | None =>
      ({| topics := <[topic := length (delegates w)]> (topics w);
          delegates := delegates w ++ [{| topic_ := topic; subscribers_ := []; busy := None |}];
          subs := subs w; log := log w |},
       length (delegates w))
  end.

Definition set_delegate (w : world) (d : nat) (x : MessagePublisherDelegate) : world :=
  {| topics := topics w; delegates := <[d := x]> (delegates w); subs := subs w; log := log w |}.

Definition set_sub (w : world) (s : nat) (x : MessageSubscriber) : world :=
  {| topics := topics w; delegates := delegates w; subs := <[s := x]> (subs w); log := log w |}.

Definition set_busy (x : MessagePublisherDelegate) (p : option posting) : MessagePublisherDelegate :=
  {| topic_ := topic_ x; subscribers_ := subscribers_ x; busy := p |}.

Definition new_subscriber (d : nat) : MessageSubscriber :=
  {| publisher_ := d; stop_ := false; buffer_ := None; pending := false; stop_unsent := false;
     closed := false; called := [] |}.

(** [buffer_.store(buf)] and [uv_async_send(&async_subscriber_)] of [Post]. *)
Definition Post_store (x : MessageSubscriber) (m : message) : MessageSubscriber :=
  {| publisher_ := publisher_ x; stop_ := stop_ x; buffer_ := Some m; pending := pending x;
     stop_unsent := stop_unsent x; closed := closed x; called := called x |}.

Definition async_send (x : MessageSubscriber) : MessageSubscriber :=
  {| publisher_ := publisher_ x; stop_ := stop_ x; buffer_ := buffer_ x; pending := true;
     stop_unsent := stop_unsent x; closed := closed x; called := called x |}.

(** [Stop] of a subscriber: the store, then the wake-up. *)
Definition Stop_store (x : MessageSubscriber) : MessageSubscriber :=
  {| publisher_ := publisher_ x; stop_ := true; buffer_ := buffer_ x; pending := pending x;
     stop_unsent := true; closed := closed x; called := called x |}.

Definition Stop_send (x : MessageSubscriber) : MessageSubscriber :=
  {| publisher_ := publisher_ x; stop_ := stop_ x; buffer_ := buffer_ x; pending := true;
     stop_unsent := false; closed := closed x; called := called x |}.

(** [async_subscriber_cb] of a running subscriber, and of a stopped one. *)
Definition cb_deliver (x : MessageSubscriber) : MessageSubscriber :=
  {| publisher_ := publisher_ x; stop_ := stop_ x; buffer_ := buffer_ x; pending := false;
     stop_unsent := stop_unsent x; closed := closed x;
     called := match buffer_ x with Some m => called x ++ [m] | None => called x end |}.

Definition cb_close (x : MessageSubscriber) : MessageSubscriber :=
  {| publisher_ := publisher_ x; stop_ := stop_ x; buffer_ := buffer_ x; pending := false;
     stop_unsent := stop_unsent x; closed := true; called := called x |}.

Inductive step : world -> world -> Prop :=
| step_new_publisher w topic :
    step w (GetOrNew w topic).1
| step_new_subscriber w topic w1 d x :
    GetOrNew w topic = (w1, d) -> delegates w1 !! d = Some x -> busy x = None ->
    step w {| topics := topics w1;
              delegates := <[d := {| topic_ := topic_ x;
                                     subscribers_ := subscribers_ x ++ [length (subs w1)];
                                     busy := None |}]> (delegates w1);
              subs := subs w1 ++ [new_subscriber d];
              log := log w1 ++ [Subscribed (length (subs w1))] |}
| step_publish w d x m :
    delegates w !! d = Some x -> busy x = None ->
    step w {| topics := topics w;
              delegates := <[d := set_busy x (Some {| msg := m; todo := subscribers_ x;
                                                      stored := false |})]> (delegates w);
              subs := subs w; log := log w ++ [Published (topic_ x) d m] |}
| step_store w d x m s rest y :
    delegates w !! d = Some x -> busy x = Some {| msg := m; todo := s :: rest; stored := false |} ->
    subs w !! s = Some y ->
    step w (set_sub (set_delegate w d (set_busy x (Some {| msg := m; todo := s :: rest;
                                                            stored := true |}))) s (Post_store y m))
| step_send w d x m s rest y :
    delegates w !! d = Some x -> busy x = Some {| msg := m; todo := s :: rest; stored := true |} ->
    subs w !! s = Some y ->
    step w (set_sub (set_delegate w d (set_busy x (Some {| msg := m; todo := rest;
                                                            stored := false |}))) s (async_send y))
| step_published w d x m :
    delegates w !! d = Some x -> busy x = Some {| msg := m; todo := []; stored := false |} ->
    step w (set_delegate w d (set_busy x None))
| step_stop_publisher w d x :
    delegates w !! d = Some x ->
    step w {| topics := delete (topic_ x) (topics w); delegates := delegates w; subs := subs w;
              log := log w ++ [Erased (topic_ x)] |}
| step_stop w s y :
    subs w !! s = Some y -> step w (set_sub w s (Stop_store y))
| step_stop_send w s y :
    subs w !! s = Some y -> stop_unsent y = true -> step w (set_sub w s (Stop_send y))
| step_callback w s y :
    subs w !! s = Some y -> pending y = true -> closed y = false -> stop_ y = false ->
    step w (set_sub w s (cb_deliver y))
| step_callback_stopped w s y x :
    subs w !! s = Some y -> pending y = true -> closed y = false -> stop_ y = true ->
    delegates w !! publisher_ y = Some x -> busy x = None ->
    step w (set_sub (set_delegate w (publisher_ y)
              {| topic_ := topic_ x; subscribers_ := filter (fun i => i <> s) (subscribers_ x);
                 busy := None |}) s (cb_close y)).

Definition empty_world : world := {| topics := ∅; delegates := []; subs := []; log := [] |}.

(** ** What was published *)

(** What happened after subscriber [s] was constructed. *)
Fixpoint after (s : nat) (l : list event) : list event :=
  match l with
  | [] => []
  | Subscribed s' :: l => if decide (s' = s) then l else after s l
  | _ :: l => after s l
  end.

(** The messages that were published on a topic object, and under the name of a
    topic. *)
Definition messages_on (d : nat) (l : list event) : list message :=
  omap (fun e => match e with Published _ d' m => if decide (d' = d) then Some m else None | _ => None end) l.

Definition messages_of (t : string) (l : list event) : list message :=
  omap (fun e => match e with Published t' _ m => if decide (t' = t) then Some m else None | _ => None end) l.

(** The last message on the object of subscriber [s] since its construction. *)
Definition expected (l : list event) (s : nat) (d : nat) : option message := last (messages_on d (after s l)).

Lemma after_snoc s l e : Subscribed s ∈ l -> after s (l ++ [e]) = after s l ++ [e].
Proof.
  induction l as [|x l IH]; [by intros ?%elem_of_nil|]. intros [<-|H]%elem_of_cons; cbn [after app];
    [by rewrite !decide_True|].
  destruct x as [s'| |]; auto. destruct (decide (s' = s)); auto.
Qed.

Lemma after_new s l : Subscribed s ∉ l -> after s (l ++ [Subscribed s]) = [].
Proof.
  induction l as [|x l IH]; cbn [after app]; [by rewrite decide_True|]. intros [Hx Hl]%not_elem_of_cons.
  destruct x as [s'| |]; auto. rewrite decide_False by congruence. auto.
Qed.

Lemma after_elem s l e : e ∈ after s l -> e ∈ l.
Proof.
  induction l as [|x l IH]; [done|]. cbn [after]. rewrite elem_of_cons. destruct x as [s'| |]; auto. destruct (decide _); auto.
Qed.

Lemma messages_on_snoc d l e :
  messages_on d (l ++ [e]) =
  messages_on d l ++ match e with Published _ d' m => if decide (d' = d) then [m] else [] | _ => [] end.
Proof. unfold messages_on. rewrite omap_app. f_equal. destruct e as [| ? d' ?|]; csimpl; [done| |done]. by destruct (decide _). Qed.

(** An event that is not a publication on [d] does not change what is
    expected. *)
Lemma expected_other l e s d :
  Subscribed s ∈ l -> (forall t m, e <> Published t d m) -> expected (l ++ [e]) s d = expected l s d.
Proof.
  intros Hs He. unfold expected. rewrite after_snoc, messages_on_snoc by done.
  destruct e as [|t d' m|]; rewrite ?app_nil_r; try done. destruct (decide (d' = d)) as [->|]; [|by rewrite app_nil_r].
  by destruct (He t m).
Qed.

Lemma expected_published l s t d m : Subscribed s ∈ l -> expected (l ++ [Published t d m]) s d = Some m.
Proof.
  intros Hs. unfold expected. rewrite after_snoc, messages_on_snoc, decide_True by done. apply last_snoc.
Qed.

(** If the object and the name stand for each other, so do their messages. *)
Lemma messages_agree d t l :
  (forall t' d' m, Published t' d' m ∈ l -> t' = t <-> d' = d) -> messages_of t l = messages_on d l.
Proof.
  unfold messages_of, messages_on. induction l as [|e l IH]; intros H; [done|]. csimpl.
  rewrite IH by (intros t' d' m Hm; apply (H t' d' m); by right).
  destruct e as [|t' d' m|]; try done. pose proof (H t' d' m ltac:(by left)) as E.
  destruct (decide (t' = t)), (decide (d' = d)); try done; tauto.
Qed.

(** ** The invariant *)

(** The message that a publication under way still owes to subscriber [s]. *)
Definition owed (p : posting) : list nat := if stored p then tail (todo p) else todo p.

Definition awaits (s : nat) (x : MessagePublisherDelegate) : option message :=
  match busy x with
  | Some p => if bool_decide (s ∈ owed p) then Some (msg p) else None
  | None => None
  end.

(** Subscriber [s] has been given a message and is about to be woken. *)
Definition unwoken (s : nat) (x : MessagePublisherDelegate) : bool :=
  match busy x with
  | Some {| todo := s' :: _; stored := true |} => bool_decide (s' = s)
  | _ => false
  end.

Record sub_ok_in (x : MessagePublisherDelegate) (e : option message) (s : nat) (y : MessageSubscriber) : Prop := {
  so_closed : closed y = true -> stop_ y = true;
  so_member : closed y = false -> s ∈ subscribers_ x;
  so_buffer : closed y = false ->
    match awaits s x with
    | Some m => e = Some m
    | None => buffer_ y = e
    end;
  so_woken : stop_ y = false ->
    last (called y) = buffer_ y \/ pending y = true \/ unwoken s x = true;
  so_none : buffer_ y = None -> called y = [];
}.

Definition sub_ok (ds : list MessagePublisherDelegate) (l : list event) (s : nat) (y : MessageSubscriber) : Prop :=
  exists x, ds !! publisher_ y = Some x /\ sub_ok_in x (expected l s (publisher_ y)) s y.

Record delegate_ok (xs : list MessageSubscriber) (d : nat) (x : MessagePublisherDelegate) : Prop := {
  do_nodup : NoDup (subscribers_ x);
  do_subs : forall s, s ∈ subscribers_ x -> exists y, xs !! s = Some y /\ publisher_ y = d;
  do_busy : forall p, busy x = Some p -> NoDup (todo p) /\ forall s, s ∈ todo p -> s ∈ subscribers_ x;
}.

(** The log tells of the objects that exist, and a topic that has not been
    erased has one object. *)
Record log_ok (w : world) : Prop := {
  lo_subs : forall s, Subscribed s ∈ log w <-> (s < length (subs w))%nat;
  lo_pubs : forall t d m, Published t d m ∈ log w -> exists x, delegates w !! d = Some x /\ topic_ x = t;
  lo_names : forall d x, delegates w !! d = Some x ->
    Erased (topic_ x) ∈ log w \/ topics w !! topic_ x = Some d;
}.

Record inv (w : world) : Prop := {
  inv_log : log_ok w;
  inv_subs : forall s y, subs w !! s = Some y -> sub_ok (delegates w) (log w) s y;
  inv_delegates : forall d x, delegates w !! d = Some x -> delegate_ok (subs w) d x;
  inv_topics : forall t d, topics w !! t = Some d -> is_Some (delegates w !! d);
}.

(** Two delegates that subscriber [s] cannot tell apart. *)
Record same_for (s : nat) (x x' : MessagePublisherDelegate) : Prop := {
  sf_member : s ∈ subscribers_ x -> s ∈ subscribers_ x';
  sf_awaits : awaits s x' = awaits s x;
  sf_unwoken : unwoken s x' = unwoken s x;
}.

Lemma sub_ok_in_same x x' e s y : sub_ok_in x e s y -> same_for s x x' -> sub_ok_in x' e s y.
Proof.
  intros [H1 H2 H3 H4 H5] [E1 E2 E3]. split; rewrite ?E2, ?E3; auto.
Qed.

(** The log stays as it is. *)
Lemma log_ok_same w w' :
  log_ok w -> log w' = log w -> topics w' = topics w -> length (subs w') = length (subs w) ->
  (forall d, topic_ <$> delegates w' !! d = topic_ <$> delegates w !! d) -> log_ok w'.
Proof.
  intros [L1 L2 L3] El Et Es Ed. split; rewrite El, ?Et, ?Es; [done| |].
  - intros t d m H. destruct (L2 t d m H) as (x & Hx & Htx). specialize (Ed d). rewrite Hx in Ed.
    destruct (delegates w' !! d) as [x'|]; [|done]. injection Ed as Ed. exists x'. split; [done|congruence].
  - intros d x' Hx'. specialize (Ed d). rewrite Hx' in Ed. destruct (delegates w !! d) as [x|] eqn:Hx; [|done].
    injection Ed as ->. by apply L3.
Qed.

Lemma set_delegate_topics w d x x' k :
  delegates w !! d = Some x -> topic_ x' = topic_ x ->
  topic_ <$> <[d := x']> (delegates w) !! k = topic_ <$> delegates w !! k.
Proof.
  intros Hx E. destruct (decide (k = d)) as [->|Hne]; [|by rewrite list_lookup_insert_ne].
  rewrite list_lookup_insert_eq by (by eapply lookup_lt_Some). rewrite Hx. simpl. by rewrite E.
Qed.

(** Changing one subscriber and one delegate. *)
Lemma inv_update w d x x' s y y' :
  inv w -> delegates w !! d = Some x -> subs w !! s = Some y -> topic_ x' = topic_ x ->
  publisher_ y = d -> publisher_ y' = d -> delegate_ok (subs w) d x' ->
  (forall s', s' <> s -> same_for s' x x') -> sub_ok_in x' (expected (log w) s d) s y' ->
  inv (set_sub (set_delegate w d x') s y').
Proof.
  intros [Hl Hs Hd Ht] Hx Hy Etop Hpy Hpy' Hdel Hsame Hok. split; simpl.
  - apply (log_ok_same w); simpl; try done; [apply length_insert|]. intros k. by apply (set_delegate_topics w d x).
  - intros s0 y0 H0. unfold sub_ok. destruct (decide (s0 = s)) as [->|Hne].
    + rewrite list_lookup_insert_eq in H0 by (by eapply lookup_lt_Some). injection H0 as <-.
      exists x'. rewrite Hpy'. split; [|done]. apply list_lookup_insert_eq. by eapply lookup_lt_Some.
    + rewrite list_lookup_insert_ne in H0 by done. destruct (Hs s0 y0 H0) as (x0 & Hx0 & Hok0).
      destruct (decide (publisher_ y0 = d)) as [E|E].
      * exists x'. rewrite E in *. rewrite Hx in Hx0. injection Hx0 as <-.
        split; [apply list_lookup_insert_eq; by eapply lookup_lt_Some|].
        eapply sub_ok_in_same; [done|auto].
      * exists x0. by rewrite list_lookup_insert_ne.
  - intros d0 x0 H0.
    assert (forall xs0, delegate_ok (subs w) d0 xs0 -> delegate_ok (<[s := y']> (subs w)) d0 xs0) as Hmono.
    { intros xs0 [N1 N2 N3]. split; [done| |done]. intros s1 Hs1. destruct (N2 s1 Hs1) as (y1 & Hy1 & Hp1).
      destruct (decide (s1 = s)) as [->|Hne].
      - exists y'. rewrite list_lookup_insert_eq by (by eapply lookup_lt_Some). split; [done|].
        rewrite Hy in Hy1. injection Hy1 as <-. congruence.
      - exists y1. by rewrite list_lookup_insert_ne. }
    apply Hmono. destruct (decide (d0 = d)) as [->|Hne].
    + rewrite list_lookup_insert_eq in H0 by (by eapply lookup_lt_Some). by injection H0 as <-.
    + rewrite list_lookup_insert_ne in H0 by done. auto.
  - intros t d0 H0. destruct (Ht t d0 H0) as [x0 Hx0]. destruct (decide (d0 = d)) as [->|Hne].
    + rewrite list_lookup_insert_eq by (by eapply lookup_lt_Some). by eexists.
    + rewrite list_lookup_insert_ne by done. by eexists.
Qed.

(** Changing one subscriber only. *)
Lemma inv_update_sub w s y y' :
  inv w -> subs w !! s = Some y -> publisher_ y' = publisher_ y ->
  (forall x e, sub_ok_in x e s y -> sub_ok_in x e s y') -> inv (set_sub w s y').
Proof.
  intros Hw Hy Hp Hok. destruct (inv_subs w Hw s y Hy) as (x & Hx & Hokx).
  assert (set_sub w s y' = set_sub (set_delegate w (publisher_ y) x) s y') as ->.
  { unfold set_sub, set_delegate. simpl. by rewrite (list_insert_id _ _ _ Hx). }
  apply (inv_update w _ x x s y); try done; [by apply inv_delegates|auto].
Qed.

(** Changing one delegate only. *)
Lemma inv_update_delegate w d x x' :
  inv w -> delegates w !! d = Some x -> topic_ x' = topic_ x -> delegate_ok (subs w) d x' ->
  (forall s, same_for s x x') -> inv (set_delegate w d x').
Proof.
  intros [Hl Hs Hd Ht] Hx Etop Hdel Hsame. split; simpl.
  - apply (log_ok_same w); try done. intros k. by apply (set_delegate_topics w d x).
  - intros s0 y0 H0. destruct (Hs s0 y0 H0) as (x0 & Hx0 & Hok0). unfold sub_ok.
    destruct (decide (publisher_ y0 = d)) as [E|E].
    + exists x'. rewrite E in *. rewrite Hx in Hx0. injection Hx0 as <-.
      split; [apply list_lookup_insert_eq; by eapply lookup_lt_Some|].
      eapply sub_ok_in_same; [done|auto].
    + exists x0. by rewrite list_lookup_insert_ne.
  - intros d0 x0 H0. destruct (decide (d0 = d)) as [->|Hne].
    + rewrite list_lookup_insert_eq in H0 by (by eapply lookup_lt_Some). by injection H0 as <-.
    + rewrite list_lookup_insert_ne in H0 by done. auto.
  - intros t d0 H0. destruct (Ht t d0 H0) as [x0 Hx0]. destruct (decide (d0 = d)) as [->|Hne].
    + rewrite list_lookup_insert_eq by (by eapply lookup_lt_Some). by eexists.
    + rewrite list_lookup_insert_ne by done. by eexists.
Qed.

(** ** Every step keeps it *)

Lemma GetOrNew_spec w topic w1 d :
  inv w -> GetOrNew w topic = (w1, d) ->
  inv w1 /\ subs w1 = subs w /\ log w1 = log w /\ topics w1 !! topic = Some d /\ is_Some (delegates w1 !! d).
Proof.
  intros Hw. unfold GetOrNew. destruct (topics w !! topic) as [d0|] eqn:E; intros [= <- <-].
  { split; [done|]. split; [done|]. split; [done|]. split; [done|]. by eapply inv_topics. }
  destruct Hw as [[L1 L2 L3] Hs Hd Ht]. simpl.
  assert (forall k x, delegates w !! k = Some x ->
    (delegates w ++ [{| topic_ := topic; subscribers_ := []; busy := None |}]) !! k = Some x) as Hold
    by (intros; by apply lookup_app_l_Some).
  split; [split; simpl|split; [done|split; [done|split]]].
  - split; simpl; [done| |].
    + intros t d m H. destruct (L2 t d m H) as (x & Hx & Htx). exists x. split; [by apply Hold|done].
    + intros d x [Hx|[Hle Hx]]%lookup_app_Some.
      * destruct (L3 d x Hx) as [|Ht0]; [by left|right]. rewrite lookup_insert_ne by (intros ->; congruence). done.
      * apply list_lookup_singleton_Some in Hx as [Ek <-]. right. simpl. rewrite lookup_insert_eq. f_equal. lia.
  - intros s y Hy. destruct (Hs s y Hy) as (x & Hx & Hok). exists x. split; [by apply Hold|done].
  - intros d x Hx. apply lookup_app_Some in Hx as [Hx|[_ Hx]]; [auto|].
    apply list_lookup_singleton_Some in Hx as [_ <-]. split; simpl; [constructor| |done].
    intros s Hin. by apply elem_of_nil in Hin.
  - intros t d. destruct (decide (t = topic)) as [->|Hne].
    + rewrite lookup_insert_eq. intros [= <-]. rewrite lookup_app_r, Nat.sub_diag by done. by eexists.
    + rewrite lookup_insert_ne by done. intros Hd0. destruct (Ht t d Hd0) as [x Hx].
      eexists. by apply Hold.
  - apply lookup_insert_eq.
  - rewrite lookup_app_r, Nat.sub_diag by done. by eexists.
Qed.

Lemma inv_new_subscriber w d x :
  inv w -> delegates w !! d = Some x -> busy x = None ->
  inv {| topics := topics w;
         delegates := <[d := {| topic_ := topic_ x;
                                subscribers_ := subscribers_ x ++ [length (subs w)];
                                busy := None |}]> (delegates w);
         subs := subs w ++ [new_subscriber d]; log := log w ++ [Subscribed (length (subs w))] |}.
Proof.
  intros [Hlog Hs Hd Ht] Hx Hb. pose proof Hlog as [L1 L2 L3]. set (x' := {| topic_ := topic_ x; subscribers_ := _; busy := None |}).
  pose proof (Hd d x Hx) as [N1 N2 N3].
  assert (length (subs w) ∉ subscribers_ x) as Hfresh.
  { intros Hin. destruct (N2 _ Hin) as (y & Hy%lookup_lt_Some & _). lia. }
  assert (forall s y, subs w !! s = Some y -> (subs w ++ [new_subscriber d]) !! s = Some y) as Hold
    by (intros; by apply lookup_app_l_Some).
  assert (forall k x0, delegate_ok (subs w) k x0 -> delegate_ok (subs w ++ [new_subscriber d]) k x0) as Hmono.
  { intros k x0 [M1 M2 M3]. split; [done| |done]. intros s Hin. destruct (M2 s Hin) as (y & Hy & Hp).
    exists y. split; [by apply Hold|done]. }
  split; simpl.
  - split; simpl.
    + intros s. rewrite elem_of_snoc, L1, length_app. simpl. split; [intros [?|[= ->]]; lia|].
      intros H. destruct (decide (s = length (subs w))) as [->|]; [by right|left; lia].
    + intros t d0 m [H|[=]]%elem_of_snoc. destruct (L2 t d0 m H) as (x0 & Hx0 & Htx).
      destruct (decide (d0 = d)) as [->|Hne]; [|exists x0; by rewrite list_lookup_insert_ne].
      exists x'. rewrite list_lookup_insert_eq by (by eapply lookup_lt_Some). split; [done|]. simpl. congruence.
    + intros d0 x0 H0. rewrite elem_of_snoc. destruct (decide (d0 = d)) as [->|Hne].
      * rewrite list_lookup_insert_eq in H0 by (by eapply lookup_lt_Some). injection H0 as <-.
        destruct (L3 d x Hx); auto.
      * rewrite list_lookup_insert_ne in H0 by done. destruct (L3 d0 x0 H0); auto.
  - intros s y Hy. apply lookup_app_Some in Hy as [Hy|[Hle Hy]].
    + destruct (Hs s y Hy) as (x0 & Hx0 & Hok).
      assert (Subscribed s ∈ log w) as Hsl by (apply L1; by eapply lookup_lt_Some).
      unfold sub_ok. rewrite expected_other by done. destruct (decide (publisher_ y = d)) as [E|E].
      * rewrite E in *. rewrite Hx in Hx0. injection Hx0 as <-. exists x'.
        split; [apply list_lookup_insert_eq; by eapply lookup_lt_Some|].
        apply (sub_ok_in_same x); [done|]. split; [intros; apply elem_of_app; by left|..];
          unfold awaits, unwoken; by rewrite Hb.
      * exists x0. by rewrite list_lookup_insert_ne.
    + apply list_lookup_singleton_Some in Hy as [Hk <-]. exists x'. simpl.
      assert (s = length (subs w)) as -> by lia.
      split; [apply list_lookup_insert_eq; by eapply lookup_lt_Some|].
      assert (expected (log w ++ [Subscribed (length (subs w))]) (length (subs w)) d = None) as ->.
      { unfold expected. rewrite after_new; [done|]. rewrite L1. lia. }
      split; simpl; try done; [|by left]. intros _. apply elem_of_snoc. by right.
  - intros d0 x0 H0. destruct (decide (d0 = d)) as [->|Hne].
    + rewrite list_lookup_insert_eq in H0 by (by eapply lookup_lt_Some). injection H0 as <-.
      split; simpl; [|intros s [Hin| ->]%elem_of_snoc|done].
      * apply NoDup_app. split; [done|]. split; [|apply NoDup_singleton].
        intros s Hin Hin2%list_elem_of_singleton. by subst.
      * destruct (N2 s Hin) as (y & Hy & Hp). exists y. split; [by apply Hold|done].
      * exists (new_subscriber d). by rewrite lookup_app_r, Nat.sub_diag.
    + rewrite list_lookup_insert_ne in H0 by done. auto.
  - intros t d0 H0. destruct (Ht t d0 H0) as [x0 Hx0]. destruct (decide (d0 = d)) as [->|Hne].
    + rewrite list_lookup_insert_eq by (by eapply lookup_lt_Some). by eexists.
    + rewrite list_lookup_insert_ne by done. by eexists.
Qed.

Lemma inv_publish w d x m :
  inv w -> delegates w !! d = Some x -> busy x = None ->
  inv {| topics := topics w;
         delegates := <[d := set_busy x (Some {| msg := m; todo := subscribers_ x;
                                                 stored := false |})]> (delegates w);
         subs := subs w; log := log w ++ [Published (topic_ x) d m] |}.
Proof.
  intros [Hlog Hs Hd Ht] Hx Hb. pose proof Hlog as [L1 L2 L3].
  set (x' := set_busy x _). pose proof (Hd d x Hx) as [N1 N2 N3].
  split; simpl.
  - split; simpl.
    + intros s. rewrite elem_of_snoc, L1. split; [by intros [?|[=]]|auto].
    + intros t d0 m0 [H|[= -> -> ->]]%elem_of_snoc.
      * destruct (L2 t d0 m0 H) as (x0 & Hx0 & Htx).
        destruct (decide (d0 = d)) as [->|Hne]; [|exists x0; by rewrite list_lookup_insert_ne].
        exists x'. rewrite list_lookup_insert_eq by (by eapply lookup_lt_Some). split; [done|]. simpl. congruence.
      * exists x'. by rewrite list_lookup_insert_eq by (by eapply lookup_lt_Some).
    + intros d0 x0 H0. rewrite elem_of_snoc. destruct (decide (d0 = d)) as [->|Hne].
      * rewrite list_lookup_insert_eq in H0 by (by eapply lookup_lt_Some). injection H0 as <-.
        destruct (L3 d x Hx); auto.
      * rewrite list_lookup_insert_ne in H0 by done. destruct (L3 d0 x0 H0); auto.
  - intros s y Hy. destruct (Hs s y Hy) as (x0 & Hx0 & Hok). unfold sub_ok.
    assert (Subscribed s ∈ log w) as Hsl by (apply L1; by eapply lookup_lt_Some).
    destruct (decide (publisher_ y = d)) as [E|E].
    + rewrite E in *. rewrite Hx in Hx0. injection Hx0 as <-. exists x'.
      split; [apply list_lookup_insert_eq; by eapply lookup_lt_Some|]. rewrite expected_published by done.
      destruct Hok as [O1 O2 O3 O4 O5]. unfold awaits, unwoken in O3, O4. rewrite Hb in O3, O4.
      assert (unwoken s x' = false) as Huw by (unfold unwoken; simpl; by destruct (subscribers_ x)).
      split; rewrite ?Huw; auto. intros Hc. unfold awaits. simpl. unfold owed. simpl.
      by rewrite bool_decide_eq_true_2 by auto.
    + exists x0. rewrite list_lookup_insert_ne by done. split; [done|]. rewrite expected_other by congruence. done.
  - intros d0 x0 H0. destruct (decide (d0 = d)) as [->|Hne].
    + rewrite list_lookup_insert_eq in H0 by (by eapply lookup_lt_Some). injection H0 as <-.
      split; simpl; [done|done|]. by intros p [= <-].
    + rewrite list_lookup_insert_ne in H0 by done. auto.
  - intros t d0 H0. destruct (Ht t d0 H0) as [x0 Hx0]. destruct (decide (d0 = d)) as [->|Hne].
    + rewrite list_lookup_insert_eq by (by eapply lookup_lt_Some). by eexists.
    + rewrite list_lookup_insert_ne by done. by eexists.
Qed.

(** The subscriber at the head of a publication belongs to the delegate. *)
Lemma served_publisher w d x m s rest b y :
  inv w -> delegates w !! d = Some x -> busy x = Some {| msg := m; todo := s :: rest; stored := b |} ->
  subs w !! s = Some y -> publisher_ y = d /\ (s ∉ rest) /\ NoDup rest /\ sub_ok_in x (expected (log w) s d) s y.
Proof.
  intros Hw Hx Hb Hy. destruct (inv_delegates w Hw d x Hx) as [N1 N2 N3].
  destruct (N3 _ Hb) as [[Hs Hrest]%NoDup_cons Hin]. simpl in Hin.
  destruct (N2 s (Hin s ltac:(by left))) as (y0 & Hy0 & Hp). rewrite Hy in Hy0. injection Hy0 as <-.
  destruct (inv_subs w Hw s y Hy) as (x0 & Hx0 & Hok). rewrite Hp in *. rewrite Hx in Hx0. injection Hx0 as <-.
  done.
Qed.

Lemma delegate_ok_busy w d x m l l' b b' :
  delegate_ok (subs w) d x -> busy x = Some {| msg := m; todo := l; stored := b |} ->
  NoDup l' -> (forall s, s ∈ l' -> s ∈ l) ->
  delegate_ok (subs w) d (set_busy x (Some {| msg := m; todo := l'; stored := b' |})).
Proof.
  intros [N1 N2 N3] Hb Hn Hsub. split; simpl; [done|done|]. intros p [= <-]. simpl.
  split; [done|]. intros s Hs. apply (N3 _ Hb). auto.
Qed.

Lemma inv_store w d x m s rest y :
  inv w -> delegates w !! d = Some x ->
  busy x = Some {| msg := m; todo := s :: rest; stored := false |} -> subs w !! s = Some y ->
  inv (set_sub (set_delegate w d (set_busy x (Some {| msg := m; todo := s :: rest;
                                                      stored := true |}))) s (Post_store y m)).
Proof.
  intros Hw Hx Hb Hy. destruct (served_publisher w d x m s rest _ y Hw Hx Hb Hy) as (Hp & Hs & Hn & Hok).
  apply (inv_update w d x _ s y); try done.
  - apply (delegate_ok_busy w d x m (s :: rest) _ false); [by apply inv_delegates|done| |done].
    by constructor.
  - intros s' Hne. split; [done|..]; unfold awaits, unwoken; rewrite Hb; simpl.
    + unfold owed. simpl. by rewrite (bool_decide_ext (s' ∈ s :: rest) (s' ∈ rest))
        by (rewrite elem_of_cons; tauto).
    + by rewrite bool_decide_eq_false_2 by congruence.
  - destruct Hok as [O1 O2 O3 O4 O5]. split; simpl; [done|done| | |done].
    + intros Hc. specialize (O3 Hc). unfold awaits in *. rewrite Hb in O3. unfold owed in *. simpl in *.
      rewrite bool_decide_eq_true_2 in O3 by (by left). rewrite bool_decide_eq_false_2 by done. done.
    + intros _. right. right. unfold unwoken. simpl. by apply bool_decide_eq_true_2.
Qed.

Lemma inv_send w d x m s rest y :
  inv w -> delegates w !! d = Some x ->
  busy x = Some {| msg := m; todo := s :: rest; stored := true |} -> subs w !! s = Some y ->
  inv (set_sub (set_delegate w d (set_busy x (Some {| msg := m; todo := rest;
                                                      stored := false |}))) s (async_send y)).
Proof.
  intros Hw Hx Hb Hy. destruct (served_publisher w d x m s rest _ y Hw Hx Hb Hy) as (Hp & Hs & Hn & Hok).
  assert (forall s', awaits s' (set_busy x (Some {| msg := m; todo := rest; stored := false |})) =
    awaits s' x) as Haw by (intros s'; unfold awaits; by rewrite Hb).
  apply (inv_update w d x _ s y); try done.
  - apply (delegate_ok_busy w d x m (s :: rest) _ true); [by apply inv_delegates|done|done|].
    intros s' Hs'. by right.
  - intros s' Hne. split; [done|by rewrite Haw|]. unfold unwoken. rewrite Hb. simpl.
    rewrite bool_decide_eq_false_2 by congruence. by destruct rest.
  - destruct Hok as [O1 O2 O3 O4 O5]. split; simpl; [done|done|by rewrite Haw| |done]. intros _. by right; left.
Qed.

Lemma inv_callback w s y :
  inv w -> subs w !! s = Some y -> inv (set_sub w s (cb_deliver y)).
Proof.
  intros Hw Hy. apply (inv_update_sub w s y); [done|done|done|].
  intros x e [O1 O2 O3 O4 O5]. destruct (buffer_ y) as [m|] eqn:E; split; simpl; rewrite ?E; try done.
  - intros _. left. by rewrite last_snoc.
  - intros _. left. by rewrite O5.
Qed.

Lemma inv_callback_stopped w s y x :
  inv w -> subs w !! s = Some y -> stop_ y = true ->
  delegates w !! publisher_ y = Some x -> busy x = None ->
  inv (set_sub (set_delegate w (publisher_ y)
         {| topic_ := topic_ x; subscribers_ := filter (fun i => i <> s) (subscribers_ x);
            busy := None |}) s (cb_close y)).
Proof.
  intros Hw Hy Hst Hx Hb. apply (inv_update w _ x _ s y); try done.
  - destruct (inv_delegates w Hw _ x Hx) as [N1 N2 N3]. split; simpl; [by apply NoDup_filter| |done].
    intros s' [_ Hs']%list_elem_of_filter. auto.
  - intros s' Hne. split; simpl; [|unfold awaits, unwoken; by rewrite Hb..].
    intros Hin. by apply list_elem_of_filter.
  - destruct (inv_subs w Hw s y Hy) as (x0 & _ & [O1 O2 O3 O4 O5]).
    split; simpl; try done. by rewrite Hst.
Qed.

Lemma inv_stop_publisher w d x :
  inv w -> delegates w !! d = Some x ->
  inv {| topics := delete (topic_ x) (topics w); delegates := delegates w; subs := subs w;
         log := log w ++ [Erased (topic_ x)] |}.
Proof.
  intros [[L1 L2 L3] Hs Hd Ht] Hx. split; simpl.
  - split; simpl.
    + intros s. rewrite elem_of_snoc, L1. split; [by intros [?|[=]]|auto].
    + intros t d0 m [H|[=]]%elem_of_snoc. eauto.
    + intros d0 x0 H0. rewrite elem_of_snoc. destruct (decide (topic_ x0 = topic_ x)) as [E|E]; [rewrite E; auto|].
      rewrite lookup_delete_ne by congruence. destruct (L3 d0 x0 H0); auto.
  - intros s y Hy. destruct (Hs s y Hy) as (x0 & Hx0 & Hok). exists x0.
    rewrite expected_other; [done|apply L1; by eapply lookup_lt_Some|done].
  - done.
  - intros t d0 [_ H0]%lookup_delete_Some. eauto.
Qed.

Lemma async_inv_step w w' : inv w -> step w w' -> inv w'.
Proof.
  intros Hw Hst.
  destruct Hst as [w topic|w topic w1 d x Hg Hx Hb|w d x m Hx Hb|w d x m s rest y Hx Hb Hy
    |w d x m s rest y Hx Hb Hy|w d x m Hx Hb|w d x Hx|w s y Hy|w s y Hy Hu|w s y Hy Hp Hc Hs
    |w s y x Hy Hp Hc Hs Hx Hb].
  - destruct (GetOrNew w topic) as [w1 d] eqn:E. by apply (GetOrNew_spec w topic w1 d).
  - destruct (GetOrNew_spec w topic w1 d Hw Hg) as (Hw1 & _). by apply inv_new_subscriber.
  - by apply inv_publish.
  - by apply inv_store.
  - by apply inv_send.
  - apply (inv_update_delegate w d x); [done|done|done|..].
    + destruct (inv_delegates w Hw d x Hx) as [N1 N2 N3]. by split.
    + intros s. split; [done|..]; unfold awaits, unwoken; by rewrite Hb.
  - by apply (inv_stop_publisher w d).
  - apply (inv_update_sub w s y); [done|done|done|]. intros x e [O1 O2 O3 O4 O5]. by split.
  - apply (inv_update_sub w s y); [done|done|done|]. intros x e [O1 O2 O3 O4 O5].
    split; simpl; try done. intros _. by right; left.
  - by apply inv_callback.
  - by apply inv_callback_stopped.
Qed.

Lemma inv_empty : inv empty_world.
Proof.
  split; simpl; [split; simpl|intros s y Hy|intros d x Hx|intros t d Hd].
  - intros s. split; [by intros ?%elem_of_nil|lia].
  - by intros t d m ?%elem_of_nil.
  - by intros d x Hx.
  - by rewrite lookup_nil in Hy.
  - by rewrite lookup_nil in Hx.
  - by rewrite lookup_empty in Hd.
Qed.

(** No publication is under way and no wake-up is pending. *)
Definition at_rest (w : world) : Prop :=
  Forall (fun x => busy x = None) (delegates w) /\ Forall (fun y => pending y = false) (subs w).

(** ** Claims *)

(** C33: no subscriber misses the latest message.  Whatever the interleaving of
    publications, wake-ups and callbacks: when no publication is under way and
    no wake-up is pending, the last call of every running subscriber's callback
    was with the last message published on its topic object since the
    subscriber was constructed (and there was none if nothing was published).
    As long as no publisher of its topic has been stopped, that is the last
    message published by any publisher of the topic; after a stop, publishers
    and subscribers of one topic can have different objects
    ([stopped_publisher_splits_topic]). *)
Theorem latest_message_delivered w s y :
  rtc step empty_world w -> at_rest w -> subs w !! s = Some y -> stop_ y = false ->
  exists x, delegates w !! publisher_ y = Some x /\
    last (called y) = last (messages_on (publisher_ y) (after s (log w))) /\
    (Erased (topic_ x) ∉ log w -> last (called y) = last (messages_of (topic_ x) (after s (log w)))).
Proof.
  intros Hr [Hbusy Hpend] Hy Hst.
  pose proof (rtc_preserves step inv _ _ async_inv_step inv_empty Hr) as Hw.
  destruct (inv_subs w Hw s y Hy) as (x & Hx & [O1 O2 O3 O4 O5]). exists x. split; [done|].
  assert (closed y = false) as Hc by (destruct (closed y); [by rewrite O1 in Hst|done]).
  pose proof (Forall_lookup_1 _ _ _ _ Hbusy Hx) as Hb. simpl in Hb.
  pose proof (Forall_lookup_1 _ _ _ _ Hpend Hy) as Hp. simpl in Hp.
  specialize (O3 Hc). specialize (O4 Hst). unfold awaits, unwoken in *. rewrite Hb in *.
  rewrite Hp in O4. destruct O4 as [E|[?|?]]; [|done|done].
  assert (last (called y) = last (messages_on (publisher_ y) (after s (log w)))) as El by (by rewrite E).
  split; [done|]. intros Her. rewrite El. destruct (inv_log w Hw) as [_ L2 L3].
  rewrite (messages_agree (publisher_ y) (topic_ x)); [done|].
  intros t' d' m Hin%after_elem. destruct (L2 t' d' m Hin) as (x' & Hx' & <-). split.
  - intros Et. destruct (L3 _ _ Hx) as [|E1]; [done|]. destruct (L3 _ _ Hx') as [|E2]; [by rewrite Et in *|].
    rewrite Et, E1 in E2. by injection E2.
  - intros ->. rewrite Hx in Hx'. by injection Hx' as <-.
Qed.

(** One subscriber, one message, one callback. *)
Lemma one_message_run :
  exists w y, rtc step empty_world w /\ at_rest w /\ subs w !! 0%nat = Some y /\
    stop_ y = false /\ called y = [5].
Proof.
  eexists _, _. split.
  { eapply rtc_l; [apply (step_new_publisher _ "t")|].
    eapply rtc_l; [eapply (step_new_subscriber _ "t"); reflexivity|].
    eapply rtc_l; [eapply (step_publish _ 0 _ 5); reflexivity|].
    eapply rtc_l; [eapply (step_store _ 0); reflexivity|].
    eapply rtc_l; [eapply (step_send _ 0); reflexivity|].
    eapply rtc_l; [eapply (step_published _ 0); reflexivity|].
    eapply rtc_l; [eapply (step_callback _ 0); reflexivity|]. apply rtc_refl. }
  split; [split; repeat constructor|]. split; [reflexivity|done].
Qed.

Lemma latest_message_delivered_witness :
  exists w y x, rtc step empty_world w /\ subs w !! 0%nat = Some y /\ called y = [5] /\
    delegates w !! publisher_ y = Some x /\ last (messages_on (publisher_ y) (after 0 (log w))) = Some 5.
Proof.
  destruct one_message_run as (w & y & Hr & Hrest & Hy & Hst & Hc).
  destruct (latest_message_delivered w 0 y Hr Hrest Hy Hst) as (x & Hx & El & _). exists w, y, x.
  split; [done|]. split; [done|]. split; [done|]. split; [done|]. by rewrite <- El, Hc.
Defined.

(** [Stop] of any publisher erases the topic.  A subscriber constructed after
    that gets a topic object of its own, so the other publishers of the topic,
    which still share the old object, never reach it. *)
Theorem stopped_publisher_splits_topic w t d x w1 d' x' :
  rtc step empty_world w -> delegates w !! d = Some x -> topic_ x = t ->
  let w0 := {| topics := delete t (topics w); delegates := delegates w; subs := subs w;
               log := log w ++ [Erased t] |} in
  step w w0 /\
  (GetOrNew w0 t = (w1, d') -> delegates w1 !! d' = Some x' ->
   d' <> d /\ busy x' = None /\ subscribers_ x' = [] /\ delegates w1 !! d = Some x /\
   (length (subs w1) ∉ subscribers_ x)).
Proof.
  intros Hr Hx Ht w0. split; [subst t; by apply (step_stop_publisher w d x)|].
  pose proof (rtc_preserves step inv _ _ async_inv_step inv_empty Hr) as Hw.
  unfold GetOrNew. simpl. rewrite lookup_delete_eq. intros [= <- <-] Hx'. simpl in *.
  rewrite lookup_app_r, Nat.sub_diag in Hx' by done. injection Hx' as <-.
  pose proof (lookup_lt_Some _ _ _ Hx) as Hlt. split; [lia|]. split; [done|]. split; [done|].
  split; [by apply lookup_app_l_Some|]. intros Hin.
  destruct (inv_delegates w Hw d x Hx) as [_ N2 _]. destruct (N2 _ Hin) as (y & Hy%lookup_lt_Some & _).
  lia.
Qed.

Lemma stopped_publisher_splits_topic_witness :
  exists w x w1 x', rtc step empty_world w /\ delegates w !! 0%nat = Some x /\
    GetOrNew {| topics := delete "t" (topics w); delegates := delegates w; subs := subs w;
                log := log w ++ [Erased "t"] |} "t" =
      (w1, 1%nat) /\ delegates w1 !! 1%nat = Some x' /\ subscribers_ x' = [].
Proof.
  assert (rtc step empty_world (GetOrNew empty_world "t").1) as Hr
    by (apply rtc_once, step_new_publisher).
  eexists _, _, _, _. split; [exact Hr|]. split; [reflexivity|]. split; [reflexivity|].
  split; [reflexivity|].
  eapply (stopped_publisher_splits_topic (GetOrNew empty_world "t").1 "t" 0 _ _ 1); [exact Hr|..];
    reflexivity.
Defined.
