(* ===== verification/PubSubThreads.v ===== *)
(** * Publish/subscribe with one thread per subscriber

    src/c++/20221206-pubsub/message.hpp.  [Publish] puts the message into every
    subscriber of the topic under [mutex_] and notifies the condition variable;
    every subscriber has a thread that takes the message and calls back, unless
    the message has no data.

    The model has one topic object and its subscribers.  A critical section of
    [mutex_] is one step.  The constructor of a subscriber does not take that
    mutex: it inserts the object under another one, then initialises [stop_],
    then starts the thread, in separate steps.  Subscribers are not destroyed. *)

From stdpp Require Import base list numbers relations.
From Stdlib Require Import ZArith Lia.
From S2P Require Import Prelude.

Open Scope Z_scope.

(** A [Buffer] by its [data_], which may be null. *)
Definition Buffer := option Z.

Inductive pc :=
  | Inserted             (* in the constructor, [stop_] not yet initialised *)
  | Initialised          (* in the constructor, the thread not yet started *)
  | Looping              (* at the head of the thread's loop *)
  | Waiting              (* in [cond_.wait] *)
  | Woken                (* the wait has ended, the mutex is to be taken *)
  | Calling (d : Z)      (* outside the mutex, with data in hand *)
  | Exited.

(** The last three fields are not in the program. *)
Record MessageSubscriber := {
  stop_ : bool;
  buffer_ : option Buffer;
  thread_ : pc;
  called : list Z;         (* the data that [callback_] was called with so far *)
  since : nat;             (* how many messages had been published at its insertion *)
  told : list pc;          (* where it was when somebody stopped it *)
}.

Record topic := {
  subscribers_ : list nat;
  subs : list MessageSubscriber;
  unnotified : nat;        (* [Stop] calls that have still to notify *)
  log : list Buffer;       (* the messages published so far *)
}.

Definition set_thread (p : pc) (y : MessageSubscriber) : MessageSubscriber :=
  {| stop_ := stop_ y; buffer_ := buffer_ y; thread_ := p; called := called y;
     since := since y; told := told y |}.

(** A notification ends the wait of a thread. *)
Definition notify (y : MessageSubscriber) : MessageSubscriber :=
  match thread_ y with Waiting => set_thread Woken y | _ => y end.

(** [sub->buffer_ = buf] in [Publish]. *)
Definition receive (m : Buffer) (y : MessageSubscriber) : MessageSubscriber :=
  {| stop_ := stop_ y; buffer_ := Some m; thread_ := thread_ y; called := called y;
     since := since y; told := told y |}.

(** What [Stop] does to a subscriber under the mutex. *)
Definition halt (y : MessageSubscriber) : MessageSubscriber :=
  {| stop_ := true; buffer_ := buffer_ y; thread_ := thread_ y; called := called y;
     since := since y; told := told y ++ [thread_ y] |}.

(** [buf.swap(buffer_)] and the test that follows it. *)
Definition take_message (y : MessageSubscriber) : MessageSubscriber :=
  {| stop_ := stop_ y; buffer_ := None;
     thread_ := match buffer_ y with Some (Some d) => Calling d | _ => Looping end;
     called := called y; since := since y; told := told y |}.

(** The head of the loop, up to the wait or the end of the critical section. *)
Definition loop_head (y : MessageSubscriber) : MessageSubscriber :=
  if stop_ y then set_thread Exited y
  else match buffer_ y with
       | None => set_thread Waiting y
       | Some _ => take_message y
       end.

Definition run_callback (d : Z) (y : MessageSubscriber) : MessageSubscriber :=
  {| stop_ := stop_ y; buffer_ := buffer_ y; thread_ := Looping; called := called y ++ [d];
     since := since y; told := told y |}.

Definition init_stop (y : MessageSubscriber) : MessageSubscriber :=
  {| stop_ := false; buffer_ := buffer_ y; thread_ := Initialised; called := called y;
     since := since y; told := told y |}.

(** The object at its insertion; [junk] is what the member [stop_] holds. *)
Definition inserted (junk : bool) (n : nat) : MessageSubscriber :=
  {| stop_ := junk; buffer_ := None; thread_ := Inserted; called := []; since := n; told := [] |}.

Definition set_sub (t : topic) (s : nat) (y : MessageSubscriber) : topic :=
  {| subscribers_ := subscribers_ t; subs := <[s := y]> (subs t); unnotified := unnotified t; log := log t |}.

(** Applies [f] to the subscribers in the set. *)
Definition for_each (t : topic) (f : MessageSubscriber -> MessageSubscriber)
    : list MessageSubscriber :=
  imap (fun i y => if bool_decide (i ∈ subscribers_ t) then f y else y) (subs t).

Inductive step : topic -> topic -> Prop :=
| step_insert t junk :
    step t {| subscribers_ := subscribers_ t ++ [length (subs t)];
              subs := subs t ++ [inserted junk (length (log t))]; unnotified := unnotified t; log := log t |}
| step_initialise t s y :
    subs t !! s = Some y -> thread_ y = Inserted -> step t (set_sub t s (init_stop y))
| step_start t s y :
    subs t !! s = Some y -> thread_ y = Initialised -> step t (set_sub t s (set_thread Looping y))
| step_publish t m :
    step t {| subscribers_ := subscribers_ t; subs := notify <$> for_each t (receive m);
              unnotified := unnotified t; log := log t ++ [m] |}
| step_stop_publisher t :
    step t {| subscribers_ := subscribers_ t; subs := for_each t halt;
              unnotified := S (unnotified t); log := log t |}
| step_stop_subscriber t s y :
    subs t !! s = Some y -> thread_ y <> Inserted -> thread_ y <> Initialised ->
    step t {| subscribers_ := filter (fun i => i <> s) (subscribers_ t);
              subs := <[s := halt y]> (subs t); unnotified := S (unnotified t); log := log t |}
| step_notify t n :
    unnotified t = S n ->
    step t {| subscribers_ := subscribers_ t; subs := notify <$> subs t; unnotified := n; log := log t |}
| step_spurious t s y :
    subs t !! s = Some y -> thread_ y = Waiting -> step t (set_sub t s (set_thread Woken y))
| step_loop t s y :
    subs t !! s = Some y -> thread_ y = Looping -> step t (set_sub t s (loop_head y))
| step_woken t s y :
    subs t !! s = Some y -> thread_ y = Woken -> step t (set_sub t s (take_message y))
| step_callback t s y d :
    subs t !! s = Some y -> thread_ y = Calling d -> step t (set_sub t s (run_callback d y)).

Definition no_subscribers : topic := {| subscribers_ := []; subs := []; unnotified := 0; log := [] |}.

(** ** The invariant *)

















(** ** Claims *)




(** The constructor initialises [stop_] after it has entered the subscriber
    into the set.  A publisher that stops in between sets the flag, the
    constructor clears it again, and the thread of the subscriber then sleeps
    although it was stopped and nobody will notify it. *)
Theorem constructor_loses_stop :
  exists t y, rtc step no_subscribers t /\ subs t !! 0%nat = Some y /\
    told y = [Inserted] /\ stop_ y = false /\ thread_ y = Waiting /\ unnotified t = 0%nat.
Proof.
  eexists _, _. split.
  { eapply rtc_l; [apply (step_insert _ false)|].
    eapply rtc_l; [apply step_stop_publisher|].
    eapply rtc_l; [by eapply (step_notify _ 0)|].
    eapply rtc_l; [eapply (step_initialise _ 0); reflexivity|].
    eapply rtc_l; [eapply (step_start _ 0); reflexivity|].
    eapply rtc_l; [eapply (step_loop _ 0); reflexivity|]. apply rtc_refl. }
  split; [reflexivity|]. repeat (split; [reflexivity|]). reflexivity.
Qed.

(** A message without data replaces one with data that has not been taken yet:
    no callback is called with either. *)
Example null_message_hides_another :
  exists t y, rtc step no_subscribers t /\ subs t !! 0%nat = Some y /\ thread_ y = Waiting /\
    log t = [Some 5; None] /\ called y = [].
Proof.
  eexists _, _. split.
  { eapply rtc_l; [apply (step_insert _ false)|].
    eapply rtc_l; [eapply (step_initialise _ 0); reflexivity|].
    eapply rtc_l; [eapply (step_start _ 0); reflexivity|].
    eapply rtc_l; [apply (step_publish _ (Some 5))|].
    eapply rtc_l; [apply (step_publish _ None)|].
    eapply rtc_l; [eapply (step_loop _ 0); reflexivity|].
    eapply rtc_l; [eapply (step_loop _ 0); reflexivity|]. apply rtc_refl. }
  repeat (split; [reflexivity|]). reflexivity.
Qed.
