(* ===== verification/PubSubLoop.v ===== *)
(** * Publish/subscribe on one event loop, and over UDP

    - src/c++/20221207-pubsub-libuv/message.hpp (module [Loop]): the topic object
      keeps one message and an async handle; the callback of the handle calls
      all subscribers back.
    - src/c++/20221211-pubsub-libuv-udp/message.hpp (module [Udp]): the publisher
      sends every message as a datagram to the addresses it was given. *)

From stdpp Require Import base list numbers strings gmap.
From Stdlib Require Import ZArith Lia.
From S2P Require Import Prelude.

Open Scope Z_scope.

Module Loop.

(** A message; [None] is a null [data_]. *)
Definition data := option Z.

Record MessageSubscriber := {
  stop_ : bool;
  handle_open : bool;
  called : list Z;
}.

(** The subscribers live in a store; [None] is an object that has been destroyed. *)
Record MessagePublisherDelegate := {
  topic_ : string;
  buffer_ : data;
  d_stop_ : bool;
  d_handle_open : bool;
  subscribers_ : list nat;
}.

Record world := {
  topics : gmap string nat;
  delegates : list MessagePublisherDelegate;
  subs : list (option MessageSubscriber);
}.

Definition new_delegate (topic : string) : MessagePublisherDelegate :=
  {| topic_ := topic; buffer_ := None; d_stop_ := false; d_handle_open := true; subscribers_ := [] |}.

Definition GetOrNew (w : world) (topic : string) : world * nat :=
  match topics w !! topic with
  | Some d => (w, d)
  | None =>
      ({| topics := <[topic := length (delegates w)]> (topics w);
          delegates := delegates w ++ [new_delegate topic]; subs := subs w |},
       length (delegates w))
  end.

(** Constructs a subscriber.  The handle gets no callback: [uv_async_init] is
    given NULL. *)
Definition subscribe (w : world) (topic : string) : world * nat :=
  let '(w1, d) := GetOrNew w topic in
  let s := length (subs w1) in
  ({| topics := topics w1;
      delegates := alter (fun x => {| topic_ := topic_ x; buffer_ := buffer_ x; d_stop_ := d_stop_ x;
                                      d_handle_open := d_handle_open x;
                                      subscribers_ := subscribers_ x ++ [s] |}) d (delegates w1);
      subs := subs w1 ++ [Some {| stop_ := false; handle_open := true; called := [] |}] |}, s).

(** The destructor: [Stop] if it was not stopped, then the object is gone.  The
    wake-up of [Stop] reaches a handle without callback, so nothing removes
    the object from [subscribers_]. *)
Definition unsubscribe (w : world) (s : nat) : world :=
  {| topics := topics w; delegates := delegates w; subs := <[s := None]> (subs w) |}.

Definition Publish (w : world) (d : nat) (m : data) : world :=
  {| topics := topics w;
     delegates := alter (fun x => {| topic_ := topic_ x; buffer_ := m; d_stop_ := d_stop_ x;
                                     d_handle_open := d_handle_open x;
                                     subscribers_ := subscribers_ x |}) d (delegates w);
     subs := subs w |}.

Definition Stop (w : world) (d : nat) : world :=
  {| topics := topics w;
     delegates := alter (fun x => {| topic_ := topic_ x; buffer_ := buffer_ x; d_stop_ := true;
                                     d_handle_open := d_handle_open x;
                                     subscribers_ := subscribers_ x |}) d (delegates w);
     subs := subs w |}.

(** Applies [f] to the subscribers of a list, in order. *)
Fixpoint for_each (xs : list (option MessageSubscriber)) (l : list nat)
    (f : MessageSubscriber -> MessageSubscriber) : outcome (list (option MessageSubscriber)) :=
  match l with
  | [] => Ret xs
  | s :: l =>
      match xs !! s with
      | Some (Some y) => for_each (<[s := Some (f y)]> xs) l f
      | _ => Undef BadPointer
      end
  end.

Definition call (m : Z) (y : MessageSubscriber) : MessageSubscriber :=
  {| stop_ := stop_ y; handle_open := handle_open y; called := called y ++ [m] |}.

Definition halt (y : MessageSubscriber) : MessageSubscriber :=
  {| stop_ := true; handle_open := false; called := called y |}.

(** What the event loop runs after one or more wake-ups of the delegate. *)
Definition async_publisher_cb (w : world) (d : nat) : outcome world :=
  match delegates w !! d with
  | None => Undef BadPointer
  | Some x =>
      if d_stop_ x then
        xs ← for_each (subs w) (subscribers_ x) halt;
        Ret {| topics := delete (topic_ x) (topics w);
               delegates := <[d := {| topic_ := topic_ x; buffer_ := buffer_ x; d_stop_ := true;
                                      d_handle_open := false; subscribers_ := subscribers_ x |}]>
                              (delegates w);
               subs := xs |}
      else
        match buffer_ x with
        | None => Ret w
        | Some m =>
            xs ← for_each (subs w) (subscribers_ x) (call m);
            Ret {| topics := topics w;
                   delegates := <[d := {| topic_ := topic_ x; buffer_ := None; d_stop_ := false;
                                          d_handle_open := d_handle_open x;
                                          subscribers_ := subscribers_ x |}]> (delegates w);
                   subs := xs |}
        end
  end.

(** ** Lemmas *)

Lemma for_each_spec f l xs :
  NoDup l -> (forall s, s ∈ l -> exists y, xs !! s = Some (Some y)) ->
  exists xs', for_each xs l f = Ret xs' /\ length xs' = length xs /\
    forall s, xs' !! s = if bool_decide (s ∈ l) then fmap f <$> xs !! s else xs !! s.
Proof.
  revert xs. induction l as [|s l IH]; intros xs Hn Halive; [by exists xs|].
  apply NoDup_cons in Hn as [Hs Hn]. destruct (Halive s ltac:(by left)) as [y Hy]. simpl. rewrite Hy.
  destruct (IH (<[s := Some (f y)]> xs) Hn) as (xs' & Hr & Hl & Hx).
  { intros s' Hs'. rewrite list_lookup_insert_ne by (by intros ->). apply Halive. by right. }
  exists xs'. split; [done|]. split; [by rewrite Hl, length_insert|]. intros s'. rewrite Hx.
  destruct (decide (s' = s)) as [->|Hne].
  - rewrite bool_decide_eq_false_2, bool_decide_eq_true_2 by (done || by left).
    rewrite list_lookup_insert_eq by (by eapply lookup_lt_Some). by rewrite Hy.
  - rewrite list_lookup_insert_ne by done.
    by rewrite (bool_decide_ext (s' ∈ s :: l) (s' ∈ l)) by (rewrite elem_of_cons; tauto).
Qed.

(** A destroyed subscriber in the list stops the iteration with a bad access. *)
Lemma for_each_dangling f l xs s :
  NoDup l -> s ∈ l -> xs !! s = Some None -> for_each xs l f = Undef BadPointer.
Proof.
  revert xs. induction l as [|s' l IH]; intros xs Hn Hs Hx; [by apply elem_of_nil in Hs|]. simpl.
  apply NoDup_cons in Hn as [Hs' Hn]. apply elem_of_cons in Hs as [->|Hs]; [by rewrite Hx|].
  destruct (xs !! s') as [[y|]|] eqn:E; [|done|done]. apply IH; [done|done|].
  rewrite list_lookup_insert_ne; [done|]. by intros ->.
Qed.

(** ** Claims *)

(** While all its subscribers exist, a running topic object hands a non-null
    message to every one of them exactly once, and keeps none to deliver again. *)
Theorem loop_delivers_once w d x m :
  delegates w !! d = Some x -> d_stop_ x = false -> NoDup (subscribers_ x) ->
  (forall s, s ∈ subscribers_ x -> exists y, subs w !! s = Some (Some y)) ->
  exists w' x', async_publisher_cb (Publish w d (Some m)) d = Ret w' /\
    delegates w' !! d = Some x' /\ buffer_ x' = None /\ subscribers_ x' = subscribers_ x /\
    async_publisher_cb w' d = Ret w' /\
    forall s y, subs w !! s = Some (Some y) ->
      subs w' !! s = Some (Some (if bool_decide (s ∈ subscribers_ x) then call m y else y)).
Proof.
  intros Hx Hst Hn Halive. unfold async_publisher_cb at 1. simpl.
  rewrite list_lookup_alter_eq, Hx. simpl. rewrite Hst.
  destruct (for_each_spec (call m) (subscribers_ x) (subs w) Hn Halive) as (xs' & -> & Hl & Hxs). simpl.
  set (x' := {| topic_ := topic_ x; buffer_ := None; d_stop_ := false;
                d_handle_open := d_handle_open x; subscribers_ := subscribers_ x |}).
  assert (forall l, length l = length (delegates w) -> (<[d := x']> l) !! d = Some x') as Hlook.
  { intros l Hlen. apply list_lookup_insert_eq. rewrite Hlen. by eapply lookup_lt_Some. }
  eexists _, x'. split; [done|]. simpl. rewrite Hlook by apply length_alter.
  split; [done|]. split; [done|]. split; [done|]. split.
  - unfold async_publisher_cb. simpl. by rewrite Hlook by apply length_alter.
  - intros s y Hy. rewrite Hxs, Hy. by case_bool_decide.
Qed.

(** A subscriber that is destroyed stays in the list of its topic object, so
    the next message makes the event loop use the destroyed object. *)
Theorem loop_uses_destroyed_subscriber w topic w1 s d m :
  subscribe w topic = (w1, s) -> topics w1 !! topic = Some d ->
  (forall x, delegates w1 !! d = Some x ->
     s ∈ subscribers_ x /\ NoDup (subscribers_ x) /\ d_stop_ x = false) ->
  is_Some (delegates w1 !! d) ->
  async_publisher_cb (Publish (unsubscribe w1 s) d (Some m)) d = Undef BadPointer.
Proof.
  intros Hsub Ht Hx [x Hd]. destruct (Hx x Hd) as (Hin & Hn & Hst).
  unfold async_publisher_cb. simpl. rewrite list_lookup_alter_eq, Hd. simpl. rewrite Hst.
  rewrite (for_each_dangling _ _ _ s Hn Hin); [done|].
  apply list_lookup_insert_eq. revert Hsub. unfold subscribe.
  destruct (GetOrNew w topic) as [w0 d0]. intros [= <- <-]. simpl. rewrite length_app. simpl. lia.
Qed.

Definition empty_world : world := {| topics := ∅; delegates := []; subs := [] |}.

Lemma loop_delivers_once_witness :
  let w := (subscribe empty_world "t").1 in
  exists w' x', async_publisher_cb (Publish w 0 (Some 5)) 0 = Ret w' /\
    delegates w' !! 0%nat = Some x' /\ buffer_ x' = None.
Proof.
  intros w.
  destruct (loop_delivers_once w 0 {| topic_ := "t"; buffer_ := None; d_stop_ := false;
    d_handle_open := true; subscribers_ := [0%nat] |} 5) as (w' & x' & H1 & H2 & H3 & _).
  - reflexivity.
  - done.
  - apply NoDup_singleton.
  - intros s ->%list_elem_of_singleton. eexists. reflexivity.
  - by exists w', x'.
Defined.

Lemma loop_uses_destroyed_subscriber_witness :
  let w1 := (subscribe empty_world "t").1 in
  async_publisher_cb (Publish (unsubscribe w1 0) 0 (Some 5)) 0 = Undef BadPointer.
Proof.
  intros w1. apply (loop_uses_destroyed_subscriber empty_world "t" w1 0 0 5).
  - reflexivity.
  - reflexivity.
  - intros x [= <-]. split; [by left|]. split; [apply NoDup_singleton|done].
  - by eexists.
Defined.

End Loop.

Module Udp.
Section Udp.
Context {A : Type} `{EqDecision A}.

Record MessagePublisher := {
  loop_ : bool;
  subs_ : list A;
}.

Definition publisher (udp_init : Z) : outcome MessagePublisher :=
  if negb (udp_init =? 0) then Throw RethrowNothing else Ret {| loop_ := true; subs_ := [] |}.

(** [addr] is what [uv_ip4_addr] makes of the arguments, if anything. *)
Definition AddSub (p : MessagePublisher) (addr : option A) : MessagePublisher * Z :=
  match addr with
  | None => (p, -1)
  | Some a => ({| loop_ := loop_ p; subs_ := subs_ p ++ [a] |}, 0)
  end.

(** The datagrams that are handed to [uv_udp_try_send]. *)
Definition Publish (p : MessagePublisher) (buf : list Z) : list (A * list Z) :=
  (fun sub => (sub, buf)) <$> subs_ p.

Definition Stop (p : MessagePublisher) : MessagePublisher :=
  {| loop_ := false; subs_ := subs_ p |}.

Definition destroy (p : MessagePublisher) : MessagePublisher := if loop_ p then Stop p else p.

Record MessageSubscriber := {
  s_loop_ : bool;
  addr_ : A;
  called : list (list Z);
}.

(** [nread] bytes of [base] are handed to the callback. *)
Definition pinger_read_cb (s : MessageSubscriber) (nread : Z) (base : list Z)
    : outcome MessageSubscriber :=
  if nread =? 0 then Ret s
  else if nread <? 0 then Undef AssertFailed
  else Ret {| s_loop_ := s_loop_ s; addr_ := addr_ s; called := called s ++ [take (Z.to_nat nread) base] |}.

(** The network delivers a datagram to the subscriber bound to its address. *)
Definition deliver (s : MessageSubscriber) (dgram : A * list Z) : outcome MessageSubscriber :=
  if decide (addr_ s = dgram.1) then pinger_read_cb s (Z.of_nat (length dgram.2)) dgram.2 else Ret s.

Fixpoint deliver_all (s : MessageSubscriber) (net : list (A * list Z)) : outcome MessageSubscriber :=
  match net with
  | [] => Ret s
  | g :: net => s' ← deliver s g; deliver_all s' net
  end.

Lemma read_cb_all s buf :
  buf <> [] -> pinger_read_cb s (Z.of_nat (length buf)) buf =
  Ret {| s_loop_ := s_loop_ s; addr_ := addr_ s; called := called s ++ [buf] |}.
Proof.
  intros Hb. assert (length buf <> 0%nat) by (by rewrite length_zero_iff_nil).
  unfold pinger_read_cb. destruct (Z.eqb_spec (Z.of_nat (length buf)) 0); [lia|].
  destruct (Z.ltb_spec (Z.of_nat (length buf)) 0); [lia|]. by rewrite Nat2Z.id, take_ge.
Qed.

(** A subscriber is called back once for each time its address was added, with
    the bytes of the message; an empty message is not delivered. *)
Lemma udp_delivers p s buf :
  exists s', deliver_all s (Publish p buf) = Ret s' /\ addr_ s' = addr_ s /\
    called s' = called s ++
      (if decide (buf = []) then []
       else replicate (length (filter (fun a => addr_ s = a) (subs_ p))) buf).
Proof.
  unfold Publish. generalize (subs_ p). intros l. revert s. induction l as [|a l IH]; intros s.
  - exists s. split; [done|]. split; [done|]. simpl. by case_decide; rewrite app_nil_r.
  - csimpl. unfold deliver at 1. cbn [fst snd]. rewrite filter_cons.
    destruct (decide (addr_ s = a)) as [E|E]; [|apply IH].
    destruct (decide (buf = [])) as [->|Hb].
    + cbn. destruct (IH s) as (s' & H1 & H2 & H3). exists s'. done.
    + rewrite read_cb_all by done. bind_ret.
      destruct (IH {| s_loop_ := s_loop_ s; addr_ := addr_ s; called := called s ++ [buf] |})
        as (s' & H1 & H2 & H3). exists s'. split; [done|]. split; [done|].
      rewrite H3. simpl. by rewrite <- app_assoc.
Qed.
End Udp.
End Udp.
