(* ===== verification/Hex.v ===== *)
(** * Hexadecimal encoding

    src/util/hex.hpp and src/c++/20190421_hex_codec/hex_codec.cpp (module
    [Codec]).  A byte is a [Z] between 0 and 255, whatever the signedness of
    the C++ type it is stored in. *)

From stdpp Require Import base list numbers.
From Stdlib Require Import ZArith Lia.
From S2P Require Import Prelude.

Open Scope Z_scope.

(** The characters [0] to [9] and [A] to [F]. *)
Definition dec2hex : list Z := [48; 49; 50; 51; 52; 53; 54; 55; 56; 57; 65; 66; 67; 68; 69; 70].

Definition hex2dec (low : Z) : Z :=
  if (48 <=? low) && (low <=? 57) then low - 48
  else if (65 <=? low) && (low <=? 70) then low - 65 + 10
  else if (97 <=? low) && (low <=? 102) then low - 97 + 10
  else low.

(** One round of the loop of [hex_encode]. *)
Definition encode_byte (bin : list Z) (i : Z) (hex : list Z) : outcome (list Z) :=
  c ← vget bin i;
  h ← vget dec2hex (Z.shiftr c 4);
  hex1 ← vset hex (i * 2) h;
  l ← vget dec2hex (Z.land c 15);
  vset hex1 (i * 2 + 1) l.

Definition hex_encode (bin : list Z) (binLen : Z) (hex : list Z) (hexLen : Z)
    : outcome (list Z) :=
  twice ← int_op (binLen * 2);
  if hexLen <? twice then Ret hex
  else
    hex1 ← for_loop (Z.to_nat (binLen mod size_max)) 0 (encode_byte bin) hex;
    n ← int_op (twice + 1);
    if n <=? hexLen then vset hex1 twice 0 else Ret hex1.

(** One round of the loop of [hex_decode], at [i = 2 k]. *)
Definition decode_byte (hex : list Z) (k : Z) (bin : list Z) : outcome (list Z) :=
  h ← vget hex (2 * k);
  l ← vget hex (2 * k + 1);
  vset bin k (Z.lor (Z.shiftl (hex2dec h) 4) (hex2dec l) mod 256).

(** [i] takes the even values with [i + 1 < (size_t)(binLen * 2 + 1)]. *)
Definition hex_decode (hex : list Z) (bin : list Z) (binLen : Z) : outcome (list Z) :=
  twice ← int_op (binLen * 2);
  n ← int_op (twice + 1);
  for_loop (Z.to_nat ((n mod size_max) / 2)) 0 (decode_byte hex) bin.

(** [v->resize(n)]. *)
Definition resize (v : list Z) (n : nat) : list Z := take n v ++ replicate (n - length v) 0.

Definition hexEncode (src dst : list Z) : outcome (list Z) :=
  let dst1 := resize dst (length src * 2 + 1) in
  hex_encode src (to_int (zlen src)) dst1 (to_int (zlen dst1)).

Definition hexDecode (src dst : list Z) : outcome (list Z) :=
  let dst1 := resize dst (length src / 2) in
  hex_decode src dst1 (to_int (zlen dst1)).

Module Codec.

Definition hexEncode (src dst : list Z) : outcome (list Z) :=
  let dst1 := resize dst (length src * 2 + 1) in
  dst2 ← for_loop (length src) 0 (encode_byte src) dst1;
  vset dst2 (zlen src * 2) 0.

(** [i] takes the even values with [i + 1 < src.size()]. *)
Definition hexDecode (src dst : list Z) : outcome (list Z) :=
  let dst1 := resize dst (length src / 2) in
  for_loop (length src / 2) 0 (decode_byte src) dst1.

End Codec.

(** ** The reference: two digits a byte *)

Definition byte_ok (b : Z) : Prop := 0 <= b < 256.

Definition digit (d : Z) : Z := nth (Z.to_nat d) dec2hex 0.

Fixpoint enc (l : list Z) : list Z :=
  match l with
  | [] => []
  | b :: l => digit (b / 16) :: digit (b mod 16) :: enc l
  end.

Fixpoint dec (l : list Z) : list Z :=
  match l with
  | h :: l :: r => (hex2dec h * 16 + hex2dec l) :: dec r
  | _ => []
  end.

(** A value below 16, case by case. *)
Lemma below_16 (P : Z -> Prop) d :
  0 <= d < 16 -> Forall P (Z.of_nat <$> seq 0 16) -> P d.
Proof.
  intros Hd HP. apply (Forall_lookup_1 _ _ (Z.to_nat d) _ HP).
  rewrite list_lookup_fmap, lookup_seq_lt by lia. simpl. f_equal. lia.
Qed.

Lemma digit_lookup d : 0 <= d < 16 -> vget dec2hex d = Ret (digit d) /\ hex2dec (digit d) = d.
Proof.
  intros Hd. apply (below_16 (fun d => vget dec2hex d = Ret (digit d) /\ hex2dec (digit d) = d) d Hd).
  by repeat constructor.
Qed.

(** [h << 4 | l] for a low part below 16. *)
Lemma lor_digits h l : 0 <= l < 16 -> Z.lor (Z.shiftl h 4) l = h * 16 + l.
Proof.
  intros Hl. assert (Z.land (Z.shiftl h 4) l = 0) as H0.
  { replace l with (Z.land l (Z.ones 4)) by (rewrite Z.land_ones by done; by apply Z.mod_small).
    rewrite (Z.land_comm l), Z.land_assoc, Z.land_ones, Z.shiftl_mul_pow2 by done.
    by rewrite Z_mod_mult. }
  pose proof (Z.add_lor_land (Z.shiftl h 4) l) as E.
  rewrite H0, Z.shiftl_mul_pow2 in E by done. rewrite Z.shiftl_mul_pow2 by done. lia.
Qed.

Lemma byte_digits b : byte_ok b ->
  Z.shiftr b 4 = b / 16 /\ Z.land b 15 = b mod 16 /\ 0 <= b / 16 < 16 /\ 0 <= b mod 16 < 16.
Proof.
  intros Hb. unfold byte_ok in Hb. split; [by rewrite Z.shiftr_div_pow2|].
  split; [by apply (Z.land_ones b 4)|]. split; [|by apply Z.mod_pos_bound].
  split; [apply Z.div_pos; lia|apply Z.div_lt_upper_bound; lia].
Qed.

Lemma enc_length l : length (enc l) = (length l * 2)%nat.
Proof. induction l as [|b l IH]; simpl; lia. Qed.

Lemma enc_app l1 l2 : enc (l1 ++ l2) = enc l1 ++ enc l2.
Proof. induction l1 as [|b l1 IH]; [done|]. simpl. by rewrite IH. Qed.

Lemma dec_enc l : Forall byte_ok l -> dec (enc l) = l.
Proof.
  intros Hl. induction Hl as [|b l Hb Hl IH]; [done|]. simpl.
  destruct (byte_digits b Hb) as (_ & _ & Hq & Hr).
  rewrite (proj2 (digit_lookup _ Hq)), (proj2 (digit_lookup _ Hr)), IH. f_equal.
  pose proof (Z.div_mod b 16). lia.
Qed.

Lemma resize_length v n : length (resize v n) = n.
Proof. unfold resize. rewrite length_app, length_take, length_replicate. lia. Qed.

(** The encoding loop writes the digits of the first bytes. *)
Lemma encode_loop src dst :
  Forall byte_ok src -> (length src * 2 <= length dst)%nat ->
  returns (for_loop (length src) 0 (encode_byte src) dst) (fun dst' =>
    length dst' = length dst /\ take (length src * 2) dst' = enc src).
Proof.
  intros Hb Hlen.
  eapply returns_mono; [apply (for_loop_inv (fun i d => length d = length dst /\
    take (Z.to_nat i * 2) d = enc (take (Z.to_nat i) src)))|].
  - done.
  - intros i d Hi [Hl Ht].
    destruct (lookup_lt_is_Some_2 src (Z.to_nat i)) as [c Hc]; [lia|].
    destruct (byte_digits c (Forall_lookup_1 _ _ _ _ Hb Hc)) as (E1 & E2 & Hq & Hr).
    unfold encode_byte. rewrite (proj2 (vget_Ret src i c)) by (split; [lia|done]). simpl.
    rewrite E1, (proj1 (digit_lookup _ Hq)). simpl.
    rewrite vset_in_range by len. simpl.
    rewrite E2, (proj1 (digit_lookup _ Hr)). simpl.
    rewrite vset_in_range by (rewrite zlen_insert; unfold zlen; lia). apply returns_ret.
    rewrite !length_insert. split; [done|].
    replace (Z.to_nat (i + 1)) with (S (Z.to_nat i)) by lia.
    replace (Z.to_nat (i * 2 + 1)) with (S (Z.to_nat i * 2)) by lia.
    replace (Z.to_nat (i * 2)) with (Z.to_nat i * 2)%nat by lia.
    simpl Nat.mul. rewrite take_insert_next by (rewrite length_insert; lia).
    rewrite take_insert_next by lia. rewrite Ht.
    rewrite (take_S_r _ _ _ Hc), enc_app, <- app_assoc. done.
  - intros d [Hl Ht]. split; [done|]. rewrite Z.add_0_l, Nat2Z.id in Ht.
    by rewrite (take_ge src) in Ht.
Qed.

Definition hex_value (c : Z) : Prop := 0 <= hex2dec c < 16.

Lemma enc_hex l : Forall byte_ok l -> Forall hex_value (enc l).
Proof.
  intros Hl. induction Hl as [|b l Hb Hl IH]; simpl; [constructor|].
  destruct (byte_digits b Hb) as (_ & _ & Hq & Hr). unfold hex_value.
  constructor; [by rewrite (proj2 (digit_lookup _ Hq))|].
  constructor; [by rewrite (proj2 (digit_lookup _ Hr))|done].
Qed.

Lemma dec_lookup src k h l :
  src !! (k * 2)%nat = Some h -> src !! S (k * 2) = Some l ->
  dec src !! k = Some (hex2dec h * 16 + hex2dec l).
Proof.
  revert src. induction k as [|k IH]; intros [|a [|b src]] Hh Hl; simplify_eq/=; [done|].
  by apply IH.
Qed.

Lemma dec_length src : length (dec src) = (length src / 2)%nat.
Proof.
  remember (length src) as n eqn:E. revert src E.
  induction n as [n IH] using lt_wf_ind; intros [|a [|b src]] ->; try done.
  simpl dec. simpl length. rewrite (IH (length src)) by (simpl; lia).
  change (S (S (length src))) with (2 + length src)%nat.
  rewrite <- (Nat.div_add_l 1 2) by done. by rewrite Nat.mul_1_l.
Qed.

Lemma dec_enc_snoc l : Forall byte_ok l -> dec (enc l ++ [0]) = l.
Proof.
  intros Hl. rewrite <- (dec_enc l Hl) at 2. clear Hl.
  induction l as [|b l IH]; [done|]. simpl. by rewrite IH.
Qed.

(** The decoding loop writes the bytes of the first pairs. *)
Lemma decode_loop src dst :
  Forall hex_value src -> length dst = (length src / 2)%nat ->
  for_loop (length src / 2) 0 (decode_byte src) dst = Ret (dec src).
Proof.
  intros Hv Hlen.
  destruct (for_loop_inv (fun i d => length d = length dst /\
    take (Z.to_nat i) d = take (Z.to_nat i) (dec src)) (decode_byte src) (length src / 2) 0 dst)
    as (d & -> & Hl & Ht).
  - done.
  - intros i d Hi [Hl Ht].
    assert (length src / 2 * 2 <= length src)%nat as H2
      by (pose proof (Nat.div_mod_eq (length src) 2); lia).
    destruct (lookup_lt_is_Some_2 src (Z.to_nat i * 2)) as [h Hh]; [lia|].
    destruct (lookup_lt_is_Some_2 src (S (Z.to_nat i * 2))) as [l Hl']; [lia|].
    pose proof (Forall_lookup_1 _ _ _ _ Hv Hh) as V1.
    pose proof (Forall_lookup_1 _ _ _ _ Hv Hl') as V2. unfold hex_value in V1, V2.
    unfold decode_byte. rewrite (proj2 (vget_Ret src (2 * i) h)) by
      (split; [lia|]; by replace (Z.to_nat (2 * i)) with (Z.to_nat i * 2)%nat by lia).
    simpl. rewrite (proj2 (vget_Ret src (2 * i + 1) l)) by
      (split; [lia|]; by replace (Z.to_nat (2 * i + 1)) with (S (Z.to_nat i * 2)) by lia).
    simpl. rewrite lor_digits, Z.mod_small by lia.
    rewrite vset_in_range by len. apply returns_ret.
    rewrite length_insert. split; [done|].
    replace (Z.to_nat (i + 1)) with (S (Z.to_nat i)) by lia.
    rewrite take_insert_next by lia. by rewrite Ht, (take_S_r _ _ _ (dec_lookup _ _ _ _ Hh Hl')).
  - f_equal. rewrite !take_ge in Ht; [done|rewrite dec_length; lia|lia].
Qed.

(** Both encoders return the digits and a NUL. *)
Lemma encode_into src dst :
  Forall byte_ok src ->
  exists d, for_loop (length src) 0 (encode_byte src) (resize dst (length src * 2 + 1)) = Ret d /\
    zlen d = zlen src * 2 + 1 /\ vset d (zlen src * 2) 0 = Ret (enc src ++ [0]).
Proof.
  intros Hb. pose proof (resize_length dst (length src * 2 + 1)) as Hr.
  destruct (encode_loop src (resize dst (length src * 2 + 1)) Hb) as (d & -> & Hl & Ht); [lia|].
  exists d. split; [done|]. unfold zlen in *. split; [lia|].
  rewrite vset_in_range by len. f_equal.
  replace (Z.to_nat (Z.of_nat (length src) * 2)) with (length src * 2)%nat by lia.
  rewrite <- Ht, <- take_insert_next by lia. rewrite take_ge; [done|]. rewrite length_insert. lia.
Qed.

Lemma hexEncode_spec src dst :
  Forall byte_ok src -> zlen src * 2 + 1 <= int_max -> hexEncode src dst = Ret (enc src ++ [0]).
Proof.
  intros Hb Hlen. destruct (encode_into src dst Hb) as (d & Hd & Hl & Hv).
  pose proof (zlen_nonneg src) as H0.
  assert (zlen (resize dst (length src * 2 + 1)) = zlen src * 2 + 1) as Hz
    by (unfold zlen; rewrite resize_length; lia).
  unfold hexEncode, hex_encode. rewrite Hz, !to_int_small by (unfold int_min; lia).
  rewrite int_op_in by (unfold int_min; lia). simpl. rewrite (proj2 (Z.ltb_ge _ _)) by lia.
  rewrite Z.mod_small by (unfold size_max, int_max in *; lia).
  replace (Z.to_nat (zlen src)) with (length src) by len. rewrite Hd. simpl.
  rewrite int_op_in by (unfold int_min; lia). simpl. by rewrite Z.leb_refl.
Qed.

Lemma codec_hexEncode_spec src dst :
  Forall byte_ok src -> Codec.hexEncode src dst = Ret (enc src ++ [0]).
Proof.
  intros Hb. destruct (encode_into src dst Hb) as (d & Hd & _ & Hv).
  unfold Codec.hexEncode. by rewrite Hd.
Qed.

Lemma hexDecode_spec src dst :
  Forall hex_value src -> zlen src + 1 <= int_max -> hexDecode src dst = Ret (dec src).
Proof.
  intros Hv Hlen. pose proof (resize_length dst (length src / 2)) as Hr.
  pose proof (Nat.div_mod_eq (length src) 2) as E. pose proof (Nat.mod_upper_bound (length src) 2).
  pose proof (decode_loop src (resize dst (length src / 2)) Hv Hr) as Hd.
  unfold hexDecode, hex_decode, zlen in *. rewrite Hr.
  remember (length src / 2)%nat as n eqn:En.
  rewrite to_int_small by (unfold int_min; lia). rewrite int_op_in by (unfold int_min; lia). simpl.
  rewrite int_op_in by (unfold int_min; lia). simpl.
  rewrite Z.mod_small by (unfold size_max, int_max in *; lia).
  rewrite Z.div_add_l by done. by rewrite Z.add_0_r, Nat2Z.id.
Qed.

Lemma codec_hexDecode_spec src dst :
  Forall hex_value src -> Codec.hexDecode src dst = Ret (dec src).
Proof. intros Hv. apply decode_loop; [done|]. apply resize_length. Qed.

(** A buffer of a gibibyte or more overflows the [int] products of
    src/util/hex.hpp; the other copy works with [size_t] throughout. *)
Lemma hexEncode_overflow src dst :
  2 ^ 30 <= zlen src <= int_max -> hexEncode src dst = Undef IntOverflow.
Proof.
  intros Hlen. unfold hexEncode, hex_encode. rewrite (to_int_small (zlen src)) by (unfold int_min; lia).
  assert (int_op (zlen src * 2) = Undef IntOverflow) as ->; [|done].
  unfold int_op. destruct (in_int (zlen src * 2)) eqn:E; [|done].
  apply in_int_spec in E. unfold int_max in *. lia.
Qed.

(** The hexadecimal codec round-trips, and the two copies agree: a
    buffer of bytes is encoded by both as two upper-case digits a byte and a
    NUL, whatever was in the destination, and both decoders give the buffer
    back.  The bound is the [int] arithmetic of src/util/hex.hpp. *)
Theorem hex_roundtrip src dst dst' :
  Forall byte_ok src -> zlen src * 2 + 2 <= int_max ->
  exists hex, hex = enc src ++ [0] /\
    hexEncode src dst = Ret hex /\ Codec.hexEncode src dst = Ret hex /\
    hexDecode hex dst' = Ret src /\ Codec.hexDecode hex dst' = Ret src.
Proof.
  intros Hb Hlen. exists (enc src ++ [0]). split; [done|].
  assert (Forall hex_value (enc src ++ [0])) as Hv
    by (apply Forall_app; split; [by apply enc_hex|by repeat constructor]).
  rewrite hexEncode_spec, codec_hexEncode_spec, hexDecode_spec, codec_hexDecode_spec; try done.
  - by rewrite dec_enc_snoc.
  - unfold zlen in *. rewrite length_app, enc_length. simpl. lia.
  - lia.
Qed.

Lemma hex_roundtrip_witness :
  hexEncode [1; 18; 10; 27; 255] [7] = Ret [48; 49; 49; 50; 48; 65; 49; 66; 70; 70; 0] /\
  hexDecode [48; 49; 49; 50; 48; 65; 49; 66; 70; 70; 0] [] = Ret [1; 18; 10; 27; 255].
Proof.
  destruct (hex_roundtrip [1; 18; 10; 27; 255] [7] []) as (h & -> & H1 & _ & H2 & _).
  - repeat constructor; done.
  - vm_compute. discriminate.
  - exact (conj H1 H2).
Defined.
