(* ===== verification/CanFrame.v ===== *)
(** * CAN frames as text

    src/c++/20230210-cansocket/lib.c, first half: hexadecimal digits, data
    length codes, [hexstring2data], [parse_canframe] and [sprint_canframe].
    A character is its code, a byte a [Z] between 0 and 255, and a [char *] is
    the list of the characters from the pointer to the end of its array, so that
    every access is checked against the array.  The constants of linux/can.h are
    those of the Linux interface that the code is compiled against. *)

From stdpp Require Import base list numbers strings.
From Stdlib Require Import ZArith Lia.
From S2P Require Import Prelude Hex.

Open Scope Z_scope.

(** The characters of a literal. *)
Definition chars (s : string) : list Z :=
  (fun a => Z.of_N (Ascii.N_of_ascii a)) <$> String.list_ascii_of_string s.

(** ** linux/can.h *)

Definition CAN_EFF_FLAG : Z := 0x80000000.
Definition CAN_RTR_FLAG : Z := 0x40000000.
Definition CAN_ERR_FLAG : Z := 0x20000000.
Definition CAN_SFF_MASK : Z := 0x7FF.
Definition CAN_EFF_MASK : Z := 0x1FFFFFFF.
Definition CAN_ERR_MASK : Z := 0x1FFFFFFF.
Definition CAN_MAX_DLC : Z := 8.
Definition CAN_MAX_DLEN : Z := 8.
Definition CANFD_MAX_DLEN : Z := 64.
Definition CAN_MTU : Z := 16.
Definition CANFD_MTU : Z := 72.

Record canfd_frame := CanfdFrame {
  can_id : Z;
  cf_len : Z;
  cf_flags : Z;
  cf_data : list Z
}.

(** [memset(cf, 0, sizeof( *cf))]. *)
Definition zero_frame : canfd_frame := CanfdFrame 0 0 0 (replicate 64 0).

Definition set_id (cf : canfd_frame) (id : Z) : canfd_frame :=
  CanfdFrame id (cf_len cf) (cf_flags cf) (cf_data cf).
Definition set_len (cf : canfd_frame) (l : Z) : canfd_frame :=
  CanfdFrame (can_id cf) l (cf_flags cf) (cf_data cf).
Definition set_flags (cf : canfd_frame) (f : Z) : canfd_frame :=
  CanfdFrame (can_id cf) (cf_len cf) f (cf_data cf).
Definition set_data (cf : canfd_frame) (d : list Z) : canfd_frame :=
  CanfdFrame (can_id cf) (cf_len cf) (cf_flags cf) d.

(** [cf->can_id & flag], as a condition. *)
Definition has (cf : canfd_frame) (flag : Z) : bool := negb (Z.land (can_id cf) flag =? 0).

(** ** Hexadecimal output *)

Definition CANID_DELIM : Z := 35.
Definition DATA_SEPERATOR : Z := 46.

Definition hex_asc_upper : list Z := chars "0123456789ABCDEF" ++ [0].

Definition hex_asc_upper_lo (x : Z) : outcome Z := vget hex_asc_upper (Z.land x 0x0F).
Definition hex_asc_upper_hi (x : Z) : outcome Z :=
  vget hex_asc_upper (Z.shiftr (Z.land x 0xF0) 4).

(** [put_hex_byte(buf + at, byte)]. *)
Definition put_hex_byte (buf : list Z) (pos : Z) (byte : Z) : outcome (list Z) :=
  h ← hex_asc_upper_hi byte;
  buf1 ← vset buf pos h;
  l ← hex_asc_upper_lo byte;
  vset buf1 (pos + 1) l.

(** [_put_id(buf + base, n - 1, id)]: from the last digit to the first. *)
Fixpoint put_id (n : nat) (buf : list Z) (base : Z) (id : Z) : outcome (list Z) :=
  match n with
  | O => Ret buf
  | S n =>
      d ← hex_asc_upper_lo id;
      buf1 ← vset buf (base + Z.of_nat n) d;
      put_id n buf1 base (Z.shiftr id 4)
  end.

Definition put_sff_id : list Z -> Z -> Z -> outcome (list Z) := put_id 3.
Definition put_eff_id : list Z -> Z -> Z -> outcome (list Z) := put_id 8.

(** ** Data length codes *)

Definition dlc2len : list Z := [0; 1; 2; 3; 4; 5; 6; 7; 8; 12; 16; 20; 24; 32; 48; 64].

Definition can_dlc2len (can_dlc : Z) : outcome Z := vget dlc2len (Z.land can_dlc 0x0F).

Definition len2dlc : list Z :=
  [0; 1; 2; 3; 4; 5; 6; 7; 8;
   9; 9; 9; 9;
   10; 10; 10; 10;
   11; 11; 11; 11;
   12; 12; 12; 12;
   13; 13; 13; 13; 13; 13; 13; 13;
   14; 14; 14; 14; 14; 14; 14; 14;
   14; 14; 14; 14; 14; 14; 14; 14;
   15; 15; 15; 15; 15; 15; 15; 15;
   15; 15; 15; 15; 15; 15; 15; 15].

Definition can_len2dlc (len : Z) : outcome Z := if 64 <? len then Ret 0xF else vget len2dlc len.

(** ** Input *)

Definition asc2nibble (c : Z) : Z :=
  if (48 <=? c) && (c <=? 57) then c - 48
  else if (65 <=? c) && (c <=? 70) then c - 65 + 10
  else if (97 <=? c) && (c <=? 102) then c - 97 + 10
  else 16.

(** A counted loop whose body may leave the function: [Break r]. *)
Section ForReturn.
Context {St R : Type}.

Fixpoint for_return (n : nat) (i : Z) (body : Z -> St -> outcome (control St R)) (s : St)
    : outcome (control St R) :=
  match n with
  | O => Ret (Continue s)
  | S n =>
      c ← body i s;
      match c with
      | Continue s' => for_return n (i + 1) body s'
      | Break r => Ret (Break r)
      end
  end.
End ForReturn.

(** One round of the loop of [hexstring2data]; [data] is what the caller finds
    in its array after [return 1]. *)
Definition hexstring_byte (arg : list Z) (i : Z) (data : list Z)
    : outcome (control (list Z) (Z * list Z)) :=
  h ← vget arg (2 * i);
  if 0x0F <? asc2nibble h then Ret (Break (1, data)) else
  data1 ← vset data i (Z.shiftl (asc2nibble h) 4 mod 256);
  l ← vget arg (2 * i + 1);
  if 0x0F <? asc2nibble l then Ret (Break (1, data1)) else
  d ← vget data1 i;
  data2 ← vset data1 i (Z.lor d (asc2nibble l));
  Ret (Continue data2).

(** [memset(data, 0, n)]. *)
Definition clear (data : list Z) (n : Z) : outcome (list Z) :=
  if (0 <=? n) && (n <=? zlen data) then Ret (replicate (Z.to_nat n) 0 ++ drop (Z.to_nat n) data)
  else Undef OutOfBounds.

Definition hexstring2data (arg data : list Z) (maxdlen : Z) : outcome (Z * list Z) :=
  l ← strlen arg;
  let len := to_int l in
  twice ← int_op (maxdlen * 2);
  if (len =? 0) || negb (Z.rem len 2 =? 0) || (twice <? len) then Ret (1, data) else
  data1 ← clear data maxdlen;
  c ← for_return (Z.to_nat (Z.quot len 2)) 0 (hexstring_byte arg) data1;
  match c with
  | Break r => Ret r
  | Continue data2 => Ret (0, data2)
  end.

(** One digit of the identifier: [cf->can_id |= (tmp << (last - i) * 4)].  The
    shift is one of [int]. *)
Definition id_digit (cs : list Z) (last : Z) (i : Z) (id : Z) : outcome (control Z Z) :=
  c ← vget cs i;
  let tmp := asc2nibble c in
  if 0x0F <? tmp then Ret (Break id) else
  v ← int_op (Z.shiftl tmp ((last - i) * 4));
  Ret (Continue (Z.lor id v)).

(** The loop over the data bytes.  It ends ([Continue]) at the end of the
    string or of the data, with their number, or returns 0 ([Break]); [cs[idx]]
    is tested for the separator before the end of the string is. *)
Fixpoint parse_data (n : nat) (i idx dlen : Z) (cs : list Z) (len : Z) (data : list Z)
    : outcome (control (Z * list Z) (list Z)) :=
  match n with
  | O => Ret (Continue (dlen, data))
  | S n =>
      c ← vget cs idx;
      let idx := if c =? DATA_SEPERATOR then idx + 1 else idx in
      if len <=? idx then Ret (Continue (dlen, data)) else
      h ← vget cs idx;
      if 0x0F <? asc2nibble h then Ret (Break data) else
      data1 ← vset data i (Z.shiftl (asc2nibble h) 4 mod 256);
      l ← vget cs (idx + 1);
      if 0x0F <? asc2nibble l then Ret (Break data1) else
      d ← vget data1 i;
      data2 ← vset data1 i (Z.lor d (asc2nibble l));
      parse_data n (i + 1) (idx + 2) (dlen + 1) cs len data2
  end.

Definition parse_payload (cs : list Z) (len idx : Z) (maxdlen mtu : Z) (cf : canfd_frame)
    : outcome (Z * canfd_frame) :=
  c ← parse_data (Z.to_nat maxdlen) 0 idx 0 cs len (cf_data cf);
  match c with
  | Break data => Ret (0, set_data cf data)
  | Continue (dlen, data) => Ret (mtu, set_len (set_data cf data) (dlen mod 256))
  end.

(** What follows the identifier and its delimiter, at [idx]. *)
Definition parse_tail (cs : list Z) (len idx : Z) (cf : canfd_frame) : outcome (Z * canfd_frame) :=
  c ← vget cs idx;
  if (c =? 82) || (c =? 114) then
    let cf := set_id cf (Z.lor (can_id cf) CAN_RTR_FLAG) in
    d ← vget cs (idx + 1);
    let tmp := asc2nibble d in
    Ret (CAN_MTU, if negb (d =? 0) && (tmp <=? CAN_MAX_DLC) then set_len cf tmp else cf)
  else if c =? CANID_DELIM then
    d ← vget cs (idx + 1);
    let tmp := asc2nibble d in
    if 0x0F <? tmp then Ret (0, cf)
    else parse_payload cs len (idx + 2) CANFD_MAX_DLEN CANFD_MTU (set_flags cf tmp)
  else parse_payload cs len idx CAN_MAX_DLEN CAN_MTU cf.

(** The return value and what the function leaves in [*cf]. *)
Definition parse_canframe (cs : list Z) : outcome (Z * canfd_frame) :=
  l ← strlen cs;
  let len := to_int l in
  let cf := zero_frame in
  if len <? 4 then Ret (0, cf) else
  c3 ← vget cs 3;
  if c3 =? CANID_DELIM then
    c ← for_return 3 0 (id_digit cs 2) (can_id cf);
    match c with
    | Break id => Ret (0, set_id cf id)
    | Continue id => parse_tail cs len 4 (set_id cf id)
    end
  else
  c8 ← vget cs 8;
  if c8 =? CANID_DELIM then
    c ← for_return 8 0 (id_digit cs 7) (can_id cf);
    match c with
    | Break id => Ret (0, set_id cf id)
    | Continue id =>
        let cf := set_id cf id in
        parse_tail cs len 9
          (if has cf CAN_ERR_FLAG then cf else set_id cf (Z.lor id CAN_EFF_FLAG))
    end
  else Ret (0, cf).

(** ** Output *)

(** A buffer and the offset of the next character; [buf[offset++] = c]. *)
Definition putc (c : Z) (s : list Z * Z) : outcome (list Z * Z) :=
  buf1 ← vset s.1 s.2 c;
  Ret (buf1, s.2 + 1).

(** [put_hex_byte(buf + offset, byte); offset += 2]. *)
Definition puthex (byte : Z) (s : list Z * Z) : outcome (list Z * Z) :=
  buf1 ← put_hex_byte s.1 s.2 byte;
  Ret (buf1, s.2 + 2).

(** [len = (cf->len > maxdlen) ? maxdlen : cf->len]. *)
Definition shown (cf : canfd_frame) (maxdlen : Z) : Z :=
  if maxdlen <? cf_len cf then maxdlen else cf_len cf.

(** The identifier and its delimiter. *)
Definition sprint_id (buf : list Z) (cf : canfd_frame) : outcome (list Z * Z) :=
  if has cf CAN_ERR_FLAG then
    buf1 ← put_eff_id buf 0 (Z.land (can_id cf) (Z.lor CAN_ERR_MASK CAN_ERR_FLAG));
    buf2 ← vset buf1 8 35;
    Ret (buf2, 9)
  else if has cf CAN_EFF_FLAG then
    buf1 ← put_eff_id buf 0 (Z.land (can_id cf) CAN_EFF_MASK);
    buf2 ← vset buf1 8 35;
    Ret (buf2, 9)
  else
    buf1 ← put_sff_id buf 0 (Z.land (can_id cf) CAN_SFF_MASK);
    buf2 ← vset buf1 3 35;
    Ret (buf2, 4).

(** One round of the loop over the data. *)
Definition sprint_byte (cf : canfd_frame) (sep len : Z) (i : Z) (s : list Z * Z)
    : outcome (list Z * Z) :=
  b ← vget (cf_data cf) i;
  s1 ← puthex b s;
  if negb (sep =? 0) && (i + 1 <? len) then putc 46 s1 else Ret s1.

Definition sprint_canframe (buf : list Z) (cf : canfd_frame) (sep maxdlen : Z) : outcome (list Z) :=
  let len := shown cf maxdlen in
  s ← sprint_id buf cf;
  if (maxdlen =? CAN_MAX_DLEN) && has cf CAN_RTR_FLAG then
    s1 ← putc 82 s;
    s2 ← (if negb (cf_len cf =? 0) && (cf_len cf <=? CAN_MAX_DLC)
          then d ← hex_asc_upper_lo (cf_len cf); putc d s1 else Ret s1);
    vset s2.1 s2.2 0
  else
    s1 ← (if maxdlen =? CANFD_MAX_DLEN then
            t1 ← putc 35 s;
            d ← hex_asc_upper_lo (cf_flags cf);
            t2 ← putc d t1;
            if negb (sep =? 0) && negb (len =? 0) then putc 46 t2 else Ret t2
          else Ret s);
    s2 ← for_loop (Z.to_nat len) 0 (sprint_byte cf sep len) s1;
    vset s2.1 s2.2 0.

(** [char buf[CL_CFSZ]]: twice [sizeof "12345678##1"] and 64 times
    [sizeof ".AA"]. *)
Definition CL_ID : Z := zlen (chars "12345678##1") + 1.
Definition CL_DATA : Z := zlen (chars ".AA") + 1.
Definition CL_CFSZ : Z := 2 * CL_ID + 64 * CL_DATA.

(** [fprintf(stream, "%s", buf)]: what the stream receives. *)
Fixpoint c_string (buf : list Z) : outcome (list Z) :=
  match buf with
  | [] => Undef OutOfBounds
  | c :: buf => if c =? 0 then Ret [] else s ← c_string buf; Ret (c :: s)
  end.

(** The text appended to the stream; [buf] is the content of the local array,
    [eol] the end of line if there is one. *)
Definition fprint_canframe (buf : list Z) (cf : canfd_frame) (eol : option (list Z)) (sep maxdlen : Z)
    : outcome (list Z) :=
  buf1 ← sprint_canframe buf cf sep maxdlen;
  s ← c_string buf1;
  Ret (s ++ match eol with Some e => e | None => [] end).

(** ** Loops that may return, and numbers with few digits *)

Lemma for_return_inv {St R} (P : Z -> St -> Prop) (Q : R -> Prop) body n i s :
  P i s ->
  (forall j t, i <= j < i + Z.of_nat n -> P j t -> returns (body j t) (fun c =>
     match c with Continue t' => P (j + 1) t' | Break r => Q r end)) ->
  returns (for_return n i body s) (fun c =>
     match c with Continue t' => P (i + Z.of_nat n) t' | Break r => Q r end).
Proof.
  revert i s. induction n as [|n IH]; intros i s Hi Hstep; cbn [for_return].
  - apply returns_ret. by rewrite Z.add_0_r.
  - destruct (Hstep i s) as ([t|r] & -> & Hc); [lia|done| |]; bind_ret; [|by apply returns_ret].
    replace (i + Z.of_nat (S n)) with (i + 1 + Z.of_nat n) by lia.
    apply IH; [done|]. intros j u Hj. apply Hstep. lia.
Qed.

Lemma land_15 x : Z.land x 15 = x mod 16.
Proof. apply (Z.land_ones x 4). done. Qed.

Lemma hex_lo x : hex_asc_upper_lo x = Ret (digit (x mod 16)).
Proof.
  unfold hex_asc_upper_lo. rewrite land_15.
  apply (below_nat 16 (fun d => vget hex_asc_upper d = Ret (digit d))).
  - apply Z.mod_pos_bound. done.
  - by repeat constructor.
Qed.

Lemma hex_hi x : byte_ok x -> hex_asc_upper_hi x = Ret (digit (x / 16)).
Proof.
  intros Hx. apply (below_nat 256 (fun x => hex_asc_upper_hi x = Ret (digit (x / 16)))); [done|].
  by repeat constructor.
Qed.

Lemma nibble_digit d : 0 <= d < 16 ->
  asc2nibble (digit d) = d /\ digit d <> 0 /\ digit d <> CANID_DELIM /\ digit d <> DATA_SEPERATOR /\
  digit d <> 82 /\ digit d <> 114.
Proof.
  intros Hd. apply (below_nat 16 (fun d => asc2nibble (digit d) = d /\ digit d <> 0 /\
    digit d <> CANID_DELIM /\ digit d <> DATA_SEPERATOR /\ digit d <> 82 /\ digit d <> 114)); [done|].
  by repeat constructor.
Qed.

Lemma nibble_range c : 0 <= asc2nibble c <= 16 /\ (asc2nibble c <= 15 -> 48 <= c <= 102).
Proof.
  unfold asc2nibble.
  destruct (Z.leb_spec 48 c), (Z.leb_spec c 57), (Z.leb_spec 65 c), (Z.leb_spec c 70),
    (Z.leb_spec 97 c), (Z.leb_spec c 102); simpl; lia.
Qed.

(** The two digits of a byte. *)
Definition hex2 (b : Z) : list Z := [digit (b / 16); digit (b mod 16)].

(** The last [n] digits of a number. *)
Fixpoint hexdigits (n : nat) (v : Z) : list Z :=
  match n with
  | O => []
  | S n => hexdigits n (v / 16) ++ [digit (v mod 16)]
  end.

Lemma hexdigits_length n v : length (hexdigits n v) = n.
Proof. revert v. induction n as [|n IH]; intros v; simpl; [done|]. rewrite length_app, IH. simpl. lia. Qed.

Lemma hexdigits_lookup n v i :
  (i < n)%nat -> hexdigits n v !! i = Some (digit (v / 16 ^ Z.of_nat (n - 1 - i) mod 16)).
Proof.
  revert v. induction n as [|n IH]; intros v Hi; [lia|]. simpl.
  destruct (decide (i = n)) as [->|Hne].
  - rewrite lookup_app_r by (rewrite hexdigits_length; lia).
    rewrite hexdigits_length, Nat.sub_diag. simpl. do 2 f_equal.
    replace (n - 0 - n)%nat with 0%nat by lia. simpl. by rewrite Z.div_1_r.
  - rewrite lookup_app_l by (rewrite hexdigits_length; lia). rewrite IH by lia.
    do 2 f_equal. rewrite Z.div_div by lia.
    replace (n - 0 - i)%nat with (S (n - 1 - i)) by lia. by rewrite Nat2Z.inj_succ, Z.pow_succ_r by lia.
Qed.

(** ** Text in a buffer

    The first characters of the buffer are [text], the offset is behind them,
    and the buffer has [n] characters. *)
Definition holds (n : nat) (text : list Z) (s : list Z * Z) : Prop :=
  exists rest, s = (text ++ rest, zlen text) /\ length (text ++ rest) = n.

Lemma vset_app (t r : list Z) x c : vset (t ++ x :: r) (zlen t) c = Ret (t ++ c :: r).
Proof.
  rewrite vset_in_range by len. f_equal. unfold zlen. rewrite Nat2Z.id.
  rewrite insert_app_r_alt by lia. by rewrite Nat.sub_diag.
Qed.

Lemma putc_holds n text c s :
  holds n text s -> (length text < n)%nat -> returns (putc c s) (holds n (text ++ [c])).
Proof.
  intros (r & -> & Hn) Hlt. destruct r as [|x r]; [rewrite app_nil_r in Hn; lia|].
  unfold putc. simpl. rewrite vset_app. bind_ret. apply returns_ret. exists r.
  rewrite <- app_assoc. split; [|rewrite !length_app in *; simpl in *; lia].
  simpl. f_equal. len.
Qed.

Lemma puthex_holds n text b s :
  holds n text s -> byte_ok b -> (length text + 1 < n)%nat ->
  returns (puthex b s) (holds n (text ++ hex2 b)).
Proof.
  intros (r & -> & Hn) Hb Hlt. destruct r as [|x [|y r]]; [rewrite app_nil_r in Hn; lia|len|].
  unfold puthex, put_hex_byte. simpl. rewrite hex_hi by done. bind_ret. rewrite vset_app. bind_ret.
  rewrite hex_lo. bind_ret. replace (text ++ digit (b / 16) :: y :: r)
    with ((text ++ [digit (b / 16)]) ++ y :: r) by (by rewrite <- app_assoc).
  replace (zlen text + 1) with (zlen (text ++ [digit (b / 16)])) by len. rewrite vset_app. bind_ret.
  apply returns_ret. exists r. unfold hex2. rewrite <- !app_assoc.
  split; [|rewrite !length_app in *; simpl in *; lia]. simpl. f_equal. len.
Qed.

(** The end of the text: [buf[offset] = 0]. *)
Lemma terminate_holds n text s :
  holds n text s -> (length text < n)%nat ->
  returns (vset s.1 s.2 0) (fun buf => exists rest, buf = text ++ 0 :: rest /\ length buf = n).
Proof.
  intros (r & -> & Hn) Hlt. destruct r as [|x r]; [rewrite app_nil_r in Hn; lia|].
  simpl. rewrite vset_app. apply returns_ret. exists r.
  split; [done|]. rewrite !length_app in *. simpl in *. lia.
Qed.

Lemma put_id_text n buf b v :
  (b + n <= length buf)%nat ->
  put_id n buf (Z.of_nat b) v = Ret (take b buf ++ hexdigits n v ++ drop (b + n) buf).
Proof.
  revert buf v. induction n as [|n IH]; intros buf v Hl; cbn [put_id].
  - rewrite Nat.add_0_r. simpl. by rewrite (take_drop b buf).
  - rewrite hex_lo. bind_ret. rewrite vset_in_range by (unfold zlen; lia). bind_ret.
    replace (Z.to_nat (Z.of_nat b + Z.of_nat n)) with (b + n)%nat by lia.
    rewrite Z.shiftr_div_pow2 by done. rewrite IH by (rewrite length_insert; lia). f_equal.
    rewrite take_insert_ge by lia. f_equal. cbn [hexdigits]. rewrite <- app_assoc. f_equal.
    rewrite (drop_S _ (digit (v mod 16))) by (apply list_lookup_insert_eq; lia). simpl. f_equal.
    rewrite drop_insert_lt by lia. f_equal. lia.
Qed.

(** ** The text of a frame *)

(** The data, with a separator between the bytes. *)
Fixpoint data_text (sep : Z) (l : list Z) : list Z :=
  match l with
  | [] => []
  | b :: l' =>
      hex2 b ++ (if negb (sep =? 0) && (1 <? zlen l) then [46] else []) ++ data_text sep l'
  end.

Definition id_text (cf : canfd_frame) : list Z :=
  (if has cf CAN_ERR_FLAG then hexdigits 8 (Z.land (can_id cf) (Z.lor CAN_ERR_MASK CAN_ERR_FLAG))
   else if has cf CAN_EFF_FLAG then hexdigits 8 (Z.land (can_id cf) CAN_EFF_MASK)
   else hexdigits 3 (Z.land (can_id cf) CAN_SFF_MASK)) ++ [35].

Definition shown_data (cf : canfd_frame) (maxdlen : Z) : list Z :=
  take (Z.to_nat (shown cf maxdlen)) (cf_data cf).

Definition remote (cf : canfd_frame) (maxdlen : Z) : bool :=
  (maxdlen =? CAN_MAX_DLEN) && has cf CAN_RTR_FLAG.

Definition remote_text (cf : canfd_frame) : list Z :=
  82 :: (if negb (cf_len cf =? 0) && (cf_len cf <=? CAN_MAX_DLC) then [digit (cf_len cf)] else []).

Definition flags_text (cf : canfd_frame) (sep maxdlen : Z) : list Z :=
  if maxdlen =? CANFD_MAX_DLEN then
    [35; digit (cf_flags cf mod 16)] ++
    (if negb (sep =? 0) && negb (shown cf maxdlen =? 0) then [46] else [])
  else [].

Definition frame_text (cf : canfd_frame) (sep maxdlen : Z) : list Z :=
  id_text cf ++
  (if remote cf maxdlen then remote_text cf
   else flags_text cf sep maxdlen ++ data_text sep (shown_data cf maxdlen)).

(** A frame as the C type allows it. *)
Definition frame_ok (cf : canfd_frame) : Prop :=
  0 <= can_id cf < 2 ^ 32 /\ byte_ok (cf_len cf) /\ byte_ok (cf_flags cf) /\
  length (cf_data cf) = 64%nat /\ Forall byte_ok (cf_data cf).

Lemma data_text_length sep l : (length (data_text sep l) <= 3 * length l)%nat.
Proof.
  induction l as [|b l IH]; [done|]. cbn [data_text]. rewrite !length_app.
  destruct (_ && _); simpl; lia.
Qed.

Lemma id_text_length cf : (length (id_text cf) = 9 \/ length (id_text cf) = 4)%nat.
Proof.
  unfold id_text. destruct (has cf CAN_ERR_FLAG), (has cf CAN_EFF_FLAG);
    rewrite length_app, hexdigits_length; auto.
Qed.

Lemma shown_range cf maxdlen : byte_ok (cf_len cf) -> 0 <= maxdlen ->
  0 <= shown cf maxdlen <= maxdlen /\ shown cf maxdlen <= cf_len cf.
Proof. unfold byte_ok, shown. intros. destruct (Z.ltb_spec maxdlen (cf_len cf)); lia. Qed.

Lemma frame_text_length cf sep maxdlen :
  frame_ok cf -> maxdlen = 8 \/ maxdlen = 64 -> (length (frame_text cf sep maxdlen) <= 204)%nat.
Proof.
  intros (_ & Hlen & _ & Hd & _) Hm. unfold frame_text. rewrite length_app.
  pose proof (id_text_length cf). pose proof (data_text_length sep (shown_data cf maxdlen)) as Ht.
  pose proof (shown_range cf maxdlen Hlen ltac:(lia)).
  unfold shown_data in Ht at 2. rewrite length_take in Ht.
  assert (length (flags_text cf sep maxdlen) <= 3)%nat.
  { unfold flags_text. destruct (_ =? _); [|simpl; lia]. rewrite length_app.
    destruct (_ && _); simpl; lia. }
  destruct (remote cf maxdlen); [|rewrite length_app; lia].
  unfold remote_text. destruct (_ && _); simpl; lia.
Qed.

(** ** [sprint_canframe] writes the text *)

Lemma put_id_delim k buf v :
  (k < length buf)%nat ->
  returns (buf1 ← put_id k buf 0 v; buf2 ← vset buf1 (Z.of_nat k) 35; Ret (buf2, Z.of_nat k + 1))
    (holds (length buf) (hexdigits k v ++ [35])).
Proof.
  intros Hk. rewrite (put_id_text k buf 0) by lia. bind_ret. simpl.
  destruct (drop k buf) as [|x r] eqn:E.
  { apply (f_equal length) in E. rewrite length_drop in E. simpl in E. lia. }
  pose proof (f_equal length E) as El. rewrite length_drop in El. simpl in El.
  assert (Z.of_nat k = zlen (hexdigits k v)) as Hz by (unfold zlen; by rewrite hexdigits_length).
  rewrite Hz, vset_app. bind_ret. apply returns_ret. exists r. rewrite <- app_assoc.
  split; [|rewrite length_app; simpl; rewrite hexdigits_length; lia].
  simpl. f_equal. len.
Qed.

Lemma sprint_id_holds buf cf :
  (9 <= length buf)%nat -> returns (sprint_id buf cf) (holds (length buf) (id_text cf)).
Proof.
  intros Hl. unfold sprint_id, id_text. destruct (has cf CAN_ERR_FLAG); [|destruct (has cf CAN_EFF_FLAG)].
  - apply (put_id_delim 8). lia.
  - apply (put_id_delim 8). lia.
  - apply (put_id_delim 3). lia.
Qed.

(** The loop over the data. *)
Lemma sprint_bytes_holds n cf sep len k i pre s :
  frame_ok cf -> 0 <= i -> i + Z.of_nat k = len -> len <= 64 ->
  holds n pre s -> (length pre + 3 * k < n)%nat ->
  returns (for_loop k i (sprint_byte cf sep len) s)
    (holds n (pre ++ data_text sep (drop (Z.to_nat i) (take (Z.to_nat len) (cf_data cf))))).
Proof.
  intros (Hid & Hcl & Hf & Hd & Hb). revert i pre s.
  induction k as [|k IH]; intros i pre s Hi Hk Hlen Hs Hn; cbn [for_loop].
  - apply returns_ret. rewrite drop_ge by (rewrite length_take; lia). simpl. by rewrite app_nil_r.
  - destruct (lookup_lt_is_Some_2 (take (Z.to_nat len) (cf_data cf)) (Z.to_nat i)) as [b E];
      [rewrite length_take; lia|].
    rewrite (drop_S _ b) by done. apply lookup_take_Some in E as [E _].
    set (q := drop (S (Z.to_nat i)) (take (Z.to_nat len) (cf_data cf))).
    assert (zlen (b :: q) = Z.of_nat (S k)) as Hq
      by (unfold q, zlen; simpl; rewrite length_drop, length_take; lia).
    cbn [data_text]. rewrite Hq. apply (returns_bind _ _ (holds n (pre ++ hex2 b ++
      (if negb (sep =? 0) && (1 <? Z.of_nat (S k)) then [46] else [])))).
    + unfold sprint_byte. rewrite (proj2 (vget_Ret _ i b)) by done. bind_ret.
      eapply returns_bind; [apply puthex_holds; [done|by apply (Forall_lookup_1 _ _ _ _ Hb E)|lia]|].
      intros t Ht. replace (i + 1 <? len) with (1 <? Z.of_nat (S k))
        by (apply eq_true_iff_eq; rewrite !Z.ltb_lt; lia).
      destruct (_ && _); rewrite app_assoc; [|rewrite app_nil_r; by apply returns_ret].
      apply putc_holds; [done|]. rewrite length_app. simpl. lia.
    + intros t Ht. unfold q. replace (S (Z.to_nat i)) with (Z.to_nat (i + 1)) by lia.
      rewrite (app_assoc (hex2 b)), (app_assoc pre).
      apply IH; [lia|lia|lia|done|]. rewrite !length_app. destruct (_ && _); simpl; lia.
Qed.

Lemma sprint_text buf cf sep maxdlen :
  frame_ok cf -> maxdlen = 8 \/ maxdlen = 64 -> CL_CFSZ <= zlen buf ->
  returns (sprint_canframe buf cf sep maxdlen) (fun buf' => exists rest,
    buf' = frame_text cf sep maxdlen ++ 0 :: rest /\ length buf' = length buf).
Proof.
  intros Hcf Hm Hbuf. replace CL_CFSZ with 280 in Hbuf by reflexivity.
  assert (280 <= length buf)%nat as Hl by (unfold zlen in Hbuf; lia).
  pose proof (frame_text_length cf sep maxdlen Hcf Hm) as Hft.
  unfold sprint_canframe. eapply returns_bind; [apply sprint_id_holds; lia|]. intros s Hs.
  pose proof (id_text_length cf) as Hid. unfold frame_text, remote in *.
  destruct Hcf as (Hi & Hlen & Hf & Hd & Hb). pose proof (shown_range cf maxdlen Hlen ltac:(lia)) as Hsh.
  destruct (_ && has cf CAN_RTR_FLAG).
  - eapply returns_bind; [apply putc_holds; [done|lia]|]. intros s1 Hs1.
    apply (returns_bind _ _ (holds (length buf) (id_text cf ++ remote_text cf))).
    + unfold remote_text. destruct (negb _ && _) eqn:E; [|by apply returns_ret].
      apply andb_true_iff in E as [_ E%Z.leb_le]. unfold CAN_MAX_DLC, byte_ok in *.
      rewrite hex_lo, Z.mod_small by lia. bind_ret.
      rewrite (cons_middle 82 (id_text cf)), app_assoc. apply putc_holds; [done|len].
    + intros s2 Hs2. apply terminate_holds; [done|lia].
  - apply (returns_bind _ _ (holds (length buf) (id_text cf ++ flags_text cf sep maxdlen))).
    + unfold flags_text. destruct (maxdlen =? _); [|rewrite app_nil_r; by apply returns_ret].
      eapply returns_bind; [apply putc_holds; [done|lia]|]. intros t1 Ht1. rewrite hex_lo. bind_ret.
      eapply returns_bind; [apply putc_holds; [done|len]|]. intros t2 Ht2.
      rewrite <- app_assoc in Ht2. cbn [app] in Ht2.
      destruct (_ && _); [|rewrite app_nil_r; by apply returns_ret].
      rewrite app_assoc. apply putc_holds; [done|len].
    + intros s1 Hs1. rewrite app_assoc.
      assert (length (id_text cf ++ flags_text cf sep maxdlen) <= 12)%nat.
      { unfold flags_text. destruct (maxdlen =? _); rewrite length_app; [|simpl; lia].
        destruct (_ && _); simpl; lia. }
      eapply returns_bind; [apply (sprint_bytes_holds (length buf)); [done|lia|lia|lia|done|lia]|].
      intros s2 Hs2. apply terminate_holds; [done|]. rewrite app_assoc in Hft.
      change (drop (Z.to_nat 0) ?l) with l. fold (shown_data cf maxdlen). lia.
Qed.

(** ** [parse_canframe] reads the text *)

Lemma c_string_text s rest : no_nul s -> c_string (s ++ 0 :: rest) = Ret s.
Proof.
  intros Hs. induction Hs as [|c s Hc Hs IH]; [done|]. simpl.
  destruct (Z.eqb_spec c 0); [done|]. by rewrite IH.
Qed.

Lemma digit_no_nul d : digit (d mod 16) <> 0.
Proof. apply nibble_digit, Z.mod_pos_bound. done. Qed.

Lemma hexdigits_no_nul n v : no_nul (hexdigits n v).
Proof.
  revert v. induction n as [|n IH]; intros v; simpl; [constructor|].
  apply Forall_app. split; [apply IH|]. constructor; [apply digit_no_nul|constructor].
Qed.

Lemma data_text_no_nul sep l : Forall byte_ok l -> no_nul (data_text sep l).
Proof.
  intros Hl. induction Hl as [|b l Hb Hl IH]; [constructor|]. cbn [data_text].
  destruct (byte_digits b Hb) as (_ & _ & Hq & Hr).
  apply Forall_app. split; [|apply Forall_app; split; [|done]].
  - repeat constructor; by apply nibble_digit.
  - destruct (_ && _); by repeat constructor.
Qed.

Lemma frame_text_no_nul cf sep maxdlen : frame_ok cf -> no_nul (frame_text cf sep maxdlen).
Proof.
  intros (Hi & Hlen & Hf & Hd & Hb). unfold frame_text, id_text. unfold byte_ok in Hlen.
  apply Forall_app. split; [apply Forall_app; split|].
  - destruct (has _ _); [|destruct (has _ _)]; apply hexdigits_no_nul.
  - by repeat constructor.
  - destruct (remote cf maxdlen).
    + unfold remote_text. destruct (_ && _) eqn:E; [|by repeat constructor].
      apply andb_true_iff in E as [_ E%Z.leb_le]. unfold CAN_MAX_DLC in E.
      repeat constructor; [done|]. apply nibble_digit. lia.
    + apply Forall_app. split; [|by apply data_text_no_nul, Forall_take].
      unfold flags_text. destruct (_ =? _); [|constructor].
      apply Forall_app. split; [|destruct (_ && _); by repeat constructor].
      repeat constructor; [done|apply digit_no_nul].
Qed.

(** The digits of an identifier give its value. *)
Lemma parse_id_text n v tail :
  0 <= v < 16 ^ Z.of_nat n -> v <= int_max ->
  for_return n 0 (id_digit (hexdigits n v ++ tail) (Z.of_nat n - 1)) 0 = Ret (Continue v).
Proof.
  intros Hv Hmax.
  destruct (for_return_inv (fun i id => id = v / 16 ^ (Z.of_nat n - i) * 16 ^ (Z.of_nat n - i))
    (fun _ => False) (id_digit (hexdigits n v ++ tail) (Z.of_nat n - 1)) n 0 0)
    as ([id|r] & -> & Hid).
  - rewrite Z.sub_0_r, Z.div_small by done. done.
  - intros i id Hi ->. set (m := Z.of_nat n - 1 - i).
    assert (0 < 16 ^ m) as Hm by (apply Z.pow_pos_nonneg; lia).
    unfold id_digit. rewrite (proj2 (vget_Ret _ i (digit (v / 16 ^ m mod 16)))).
    2: { split; [lia|]. rewrite lookup_app_l by (rewrite hexdigits_length; lia).
      rewrite hexdigits_lookup by lia. do 5 f_equal. lia. }
    bind_ret. pose proof (Z.mod_pos_bound (v / 16 ^ m) 16 ltac:(done)) as Hd.
    rewrite (proj1 (nibble_digit _ Hd)), (proj2 (Z.ltb_ge _ _)) by lia.
    replace (Z.of_nat n - i) with (m + 1) by lia. replace (Z.of_nat n - (i + 1)) with m by lia.
    rewrite Z.shiftl_mul_pow2, (Z.mul_comm _ 4), Z.pow_mul_r by lia. change (2 ^ 4) with 16. fold m.
    rewrite (Z.pow_add_r 16 m 1), Z.pow_1_r, <- Z.div_div by lia.
    assert (v / 16 ^ m * 16 ^ m <= v) as Hle by (rewrite Z.mul_comm; apply Z.mul_div_le; lia).
    pose proof (Z.div_mod (v / 16 ^ m) 16 ltac:(lia)) as E.
    assert (0 <= v / 16 ^ m / 16) by (apply Z.div_pos; [apply Z.div_pos|]; lia).
    remember (v / 16 ^ m mod 16) as d eqn:Ed. remember (v / 16 ^ m / 16) as q eqn:Eq.
    rewrite int_op_in by (unfold int_min; nia). bind_ret. apply returns_ret.
    replace (16 ^ m * 16) with (2 ^ (4 * m + 4)) by (rewrite Z.pow_add_r, Z.pow_mul_r by lia; done).
    rewrite lor_add_pow2 by (rewrite ?Z.pow_add_r, ?Z.pow_mul_r by lia; change (2 ^ 4) with 16; nia).
    rewrite Z.pow_add_r, Z.pow_mul_r by lia. change (2 ^ 4) with 16. rewrite E. lia.
  - rewrite Z.add_0_l, Z.sub_diag in Hid. do 2 f_equal. rewrite Hid. rewrite Z.pow_0_r, Z.div_1_r. lia.
  - done.
Qed.

(** Reading the character behind a prefix. *)
Lemma vget_app (t r : list Z) x : vget (t ++ x :: r) (zlen t) = Ret x.
Proof. apply vget_nat. by apply list_lookup_middle. Qed.

Lemma vget_app2 (t r : list Z) x y : vget (t ++ x :: y :: r) (zlen t + 1) = Ret y.
Proof.
  replace (t ++ x :: y :: r) with ((t ++ [x]) ++ y :: r) by (by rewrite <- app_assoc).
  replace (zlen t + 1) with (zlen (t ++ [x])) by len. apply vget_app.
Qed.

(** The two digits of a byte, stored one after the other. *)
Lemma store_digits (dn r : list Z) x b :
  byte_ok b ->
  (data1 ← vset (dn ++ x :: r) (zlen dn) (Z.shiftl (b / 16) 4 mod 256);
   d ← vget data1 (zlen dn); vset data1 (zlen dn) (Z.lor d (b mod 16))) = Ret (dn ++ b :: r).
Proof.
  intros Hb. destruct (byte_digits b Hb) as (_ & _ & Hq & Hr). unfold byte_ok in Hb.
  rewrite vset_app. bind_ret. rewrite vget_app. bind_ret. rewrite vset_app. do 3 f_equal.
  rewrite Z.shiftl_mul_pow2, Z.mod_small, <- Z.shiftl_mul_pow2 by lia. rewrite lor_digits by lia.
  pose proof (Z.div_mod b 16). lia.
Qed.

(** The data, perhaps behind a separator. *)
Lemma parse_data_text sep bs : forall n k pre dot rest dn cs len,
  Forall byte_ok bs -> (length bs <= n <= k)%nat ->
  dot = [] \/ dot = [DATA_SEPERATOR] /\ bs <> [] ->
  cs = pre ++ dot ++ data_text sep bs ++ 0 :: rest ->
  len = zlen (pre ++ dot ++ data_text sep bs) ->
  parse_data n (zlen dn) (zlen pre) (zlen dn) cs len (dn ++ replicate k 0) =
    Ret (Continue (zlen (dn ++ bs), dn ++ bs ++ replicate (k - length bs) 0)).
Proof.
  induction bs as [|b bs IH]; intros n k pre dot rest dn cs len Hb Hn Hdot -> ->.
  - destruct Hdot as [->|[_ ?]]; [|done]. simpl. rewrite Nat.sub_0_r, !app_nil_r.
    destruct n as [|n]; [done|]. cbn [parse_data]. rewrite vget_app. bind_ret. simpl.
    by rewrite Z.leb_refl.
  - apply Forall_cons in Hb as [Hb Hbs]. destruct n as [|n], k as [|k]; [simpl in Hn; lia..|].
    destruct (byte_digits b Hb) as (_ & _ & Hq & Hr).
    destruct (nibble_digit _ Hq) as (N1 & _ & _ & D1 & _), (nibble_digit _ Hr) as (N2 & _).
    set (dot' := if negb (sep =? 0) && (1 <? zlen (b :: bs)) then [DATA_SEPERATOR] else []).
    assert (data_text sep (b :: bs) = digit (b / 16) :: digit (b mod 16) :: dot' ++ data_text sep bs)
      as E by done. rewrite E. set (rem := dot' ++ data_text sep bs).
    set (h := digit (b / 16)) in *. set (l := digit (b mod 16)) in *.
    cbn [parse_data]. set (pre' := pre ++ dot).
    assert (returns (vget (pre ++ dot ++ (h :: l :: rem) ++ 0 :: rest) (zlen pre)) (fun c =>
      (if c =? DATA_SEPERATOR then zlen pre + 1 else zlen pre) = zlen pre')) as (c & -> & Hc).
    { destruct Hdot as [->|[-> _]]; eexists; (split; [apply vget_app|]); unfold pre'.
      - rewrite (proj2 (Z.eqb_neq _ _)) by done. by rewrite app_nil_r.
      - rewrite Z.eqb_refl. len. }
    bind_ret. rewrite Hc, !(app_assoc pre dot). fold pre'.
    rewrite (proj2 (Z.leb_gt _ _)) by (unfold pre'; len). cbn [app]. rewrite vget_app. bind_ret. rewrite N1, (proj2 (Z.ltb_ge _ _)) by lia.
    simpl replicate. pose proof (store_digits dn (replicate k 0) 0 b Hb) as Hst.
    rewrite vset_app in *. bind_ret. cbn [mbind outcome_bind] in Hst. rewrite vget_app2. bind_ret.
    rewrite N2, (proj2 (Z.ltb_ge _ _)) by lia. rewrite vget_app in *. bind_ret.
    cbn [mbind outcome_bind] in Hst. rewrite Hst. bind_ret.
    rewrite (cons_middle b dn), (app_assoc dn). replace (zlen dn + 1) with (zlen (dn ++ [b])) by len.
    replace (zlen pre' + 2) with (zlen (pre' ++ [h; l])) by len.
    rewrite (IH n k (pre' ++ [h; l]) dot' rest (dn ++ [b])); [|done|simpl in Hn; lia| | |].
    + rewrite <- !app_assoc. done.
    + unfold dot'. destruct (negb (sep =? 0) && _) eqn:Ed; [right|by left]. split; [done|].
      apply andb_true_iff in Ed as [_ Ed%Z.ltb_lt]. intros ->. unfold zlen in Ed. simpl in Ed. lia.
    + unfold rem. rewrite <- !app_assoc. done.
    + unfold pre', rem. rewrite <- !app_assoc. done.
Qed.

Lemma parse_payload_text sep bs maxdlen mtu pre dot rest cf :
  Forall byte_ok bs -> zlen bs <= maxdlen <= 64 -> cf_data cf = replicate 64 0 ->
  dot = [] \/ dot = [DATA_SEPERATOR] /\ bs <> [] ->
  parse_payload (pre ++ dot ++ data_text sep bs ++ 0 :: rest) (zlen (pre ++ dot ++ data_text sep bs))
    (zlen pre) maxdlen mtu cf
  = Ret (mtu, set_len (set_data cf (bs ++ replicate (64 - length bs) 0)) (zlen bs)).
Proof.
  intros Hb Hlen Hd Hdot. unfold parse_payload. rewrite Hd.
  rewrite (parse_data_text sep bs (Z.to_nat maxdlen) 64 pre dot rest []) by (done || len).
  bind_ret. rewrite Z.mod_small by len. done.
Qed.

(** The frame that the text of a frame stands for: what the text leaves out is
    zero. *)
Definition canonical_id (cf : canfd_frame) : Z :=
  if has cf CAN_ERR_FLAG then Z.land (can_id cf) (Z.lor CAN_ERR_MASK CAN_ERR_FLAG)
  else if has cf CAN_EFF_FLAG then Z.lor (Z.land (can_id cf) CAN_EFF_MASK) CAN_EFF_FLAG
  else Z.land (can_id cf) CAN_SFF_MASK.

Definition canonical (cf : canfd_frame) (maxdlen : Z) : canfd_frame :=
  if remote cf maxdlen then
    CanfdFrame (Z.lor (canonical_id cf) CAN_RTR_FLAG)
      (if cf_len cf <=? CAN_MAX_DLC then cf_len cf else 0) 0 (replicate 64 0)
  else
    CanfdFrame (canonical_id cf) (shown cf maxdlen)
      (if maxdlen =? CANFD_MAX_DLEN then cf_flags cf mod 16 else 0)
      (shown_data cf maxdlen ++ replicate (64 - length (shown_data cf maxdlen)) 0).

Definition mtu (maxdlen : Z) : Z := if maxdlen =? CANFD_MAX_DLEN then CANFD_MTU else CAN_MTU.

Lemma shown_data_length cf maxdlen :
  frame_ok cf -> 0 <= maxdlen <= 64 -> zlen (shown_data cf maxdlen) = shown cf maxdlen.
Proof.
  intros (_ & Hl & _ & Hd & _) Hm. pose proof (shown_range cf maxdlen Hl ltac:(lia)).
  unfold zlen, shown_data. rewrite length_take. lia.
Qed.

Lemma parse_remote_text cf pre rest len id :
  byte_ok (cf_len cf) ->
  parse_tail (pre ++ remote_text cf ++ 0 :: rest) len (zlen pre) (set_id zero_frame id) =
  Ret (CAN_MTU, CanfdFrame (Z.lor id CAN_RTR_FLAG)
    (if cf_len cf <=? CAN_MAX_DLC then cf_len cf else 0) 0 (replicate 64 0)).
Proof.
  intros Hl. unfold parse_tail, remote_text. cbn [app]. rewrite vget_app. bind_ret.
  replace ((82 =? 82) || (82 =? 114)) with true by done. cbv zeta iota.
  destruct (negb (cf_len cf =? 0) && (cf_len cf <=? CAN_MAX_DLC)) eqn:E; cbn [app];
    rewrite vget_app2; bind_ret.
  - apply andb_true_iff in E as [_ E%Z.leb_le]. unfold byte_ok, CAN_MAX_DLC in *.
    destruct (nibble_digit (cf_len cf)) as (-> & H0 & _); [lia|].
    rewrite (proj2 (Z.eqb_neq _ _) H0), (proj2 (Z.leb_le _ _)) by lia. done.
  - simpl. unfold set_id, zero_frame. simpl. do 3 f_equal.
    destruct (Z.eqb_spec (cf_len cf) 0) as [->|]; [done|]. simpl in E. by rewrite E.
Qed.

(** Data does not start like a remote or a CAN FD frame. *)
Lemma data_text_head pre sep bs rest :
  Forall byte_ok bs -> exists c, vget (pre ++ data_text sep bs ++ 0 :: rest) (zlen pre) = Ret c /\
    (c =? 82) || (c =? 114) = false /\ (c =? CANID_DELIM) = false.
Proof.
  intros Hb. destruct Hb as [|b bs Hb Hbs]; [exists 0; cbn [data_text app]; by rewrite vget_app|].
  destruct (byte_digits b Hb) as (_ & _ & Hq & _).
  destruct (nibble_digit _ Hq) as (_ & _ & H1 & _ & H2 & H3).
  exists (digit (b / 16)). cbn [data_text hex2 app]. rewrite vget_app. split; [done|].
  by rewrite !(proj2 (Z.eqb_neq _ _)).
Qed.

Lemma parse_tail_text cf sep maxdlen pre rest id body :
  frame_ok cf -> maxdlen = 8 \/ maxdlen = 64 ->
  body = (if remote cf maxdlen then remote_text cf
          else flags_text cf sep maxdlen ++ data_text sep (shown_data cf maxdlen)) ->
  canonical_id cf = id ->
  parse_tail (pre ++ body ++ 0 :: rest) (zlen (pre ++ body)) (zlen pre) (set_id zero_frame id) =
  Ret (mtu maxdlen, canonical cf maxdlen).
Proof.
  intros Hcf Hm -> <-. pose proof (shown_data_length cf maxdlen Hcf ltac:(lia)) as Hz.
  destruct Hcf as (_ & Hl & Hf & Hd & Hb). unfold canonical, mtu.
  pose proof (shown_range cf maxdlen Hl ltac:(lia)) as Hsh.
  assert (Forall byte_ok (shown_data cf maxdlen)) as Hbs by (by apply Forall_take).
  destruct (remote cf maxdlen) eqn:Hr.
  { apply andb_true_iff in Hr as [E%Z.eqb_eq _]. rewrite E. by apply parse_remote_text. }
  unfold flags_text. destruct Hm as [->| ->]; simpl (_ =? _); cbv iota.
  - cbn [app]. unfold parse_tail.
    destruct (data_text_head pre sep (shown_data cf 8) rest Hbs) as (c & -> & E1 & E2).
    bind_ret. rewrite E1, E2.
    rewrite <- (app_nil_l (data_text sep (shown_data cf 8))), <- (app_assoc []).
    rewrite (parse_payload_text sep) by (auto; unfold CAN_MAX_DLEN; lia). by rewrite Hz.
  - set (dot := if negb (sep =? 0) && _ then [46] else []). unfold parse_tail.
    rewrite <- !app_assoc. cbn [app]. rewrite vget_app. bind_ret.
    replace ((35 =? 82) || (35 =? 114)) with false by done.
    replace (35 =? CANID_DELIM) with true by done. cbv iota. rewrite vget_app2. bind_ret.
    pose proof (Z.mod_pos_bound (cf_flags cf) 16 ltac:(done)) as Hmod.
    rewrite (proj1 (nibble_digit _ Hmod)), (proj2 (Z.ltb_ge _ _)) by lia.
    set (f := digit (cf_flags cf mod 16)). replace (zlen pre + 2) with (zlen (pre ++ [35; f])) by len.
    replace (pre ++ 35 :: f :: dot ++ data_text sep (shown_data cf 64) ++ 0 :: rest) with
      ((pre ++ [35; f]) ++ dot ++ data_text sep (shown_data cf 64) ++ 0 :: rest) by (by rewrite <- app_assoc).
    replace (pre ++ 35 :: f :: dot ++ data_text sep (shown_data cf 64)) with
      ((pre ++ [35; f]) ++ dot ++ data_text sep (shown_data cf 64)) by (by rewrite <- app_assoc).
    rewrite (parse_payload_text sep); [by rewrite Hz|done|unfold CANFD_MAX_DLEN; lia|done|].
    unfold dot. destruct (negb (sep =? 0) && _) eqn:E; [right|by left]. split; [done|].
    apply andb_true_iff in E as [_ E]. intros E0. rewrite E0 in Hz. rewrite <- Hz in E. done.
Qed.

Lemma land_mask_range x k : 0 <= k -> 0 <= Z.land x (Z.ones k) < 2 ^ k.
Proof. intros Hk. rewrite Z.land_ones by done. apply Z.mod_pos_bound. lia. Qed.

Lemma has_land id mask flag len f d :
  Z.land mask flag = flag -> has (CanfdFrame (Z.land id mask) len f d) flag = negb (Z.land id flag =? 0).
Proof. intros E. unfold has. simpl. by rewrite <- Z.land_assoc, E. Qed.

(** A text with an identifier of eight digits. *)
Lemma parse_eff_text cf sep maxdlen v rest body :
  frame_ok cf -> maxdlen = 8 \/ maxdlen = 64 -> 0 <= v < 2 ^ 30 ->
  body = (if remote cf maxdlen then remote_text cf
          else flags_text cf sep maxdlen ++ data_text sep (shown_data cf maxdlen)) ->
  canonical_id cf = (if Z.land v CAN_ERR_FLAG =? 0 then Z.lor v CAN_EFF_FLAG else v) ->
  no_nul body -> zlen body <= 1000 ->
  parse_canframe ((hexdigits 8 v ++ [35]) ++ body ++ 0 :: rest) =
  Ret (mtu maxdlen, canonical cf maxdlen).
Proof.
  intros Hcf Hm Hv Hbody Hid Hnn Hlen. unfold parse_canframe.
  set (pre := hexdigits 8 v ++ [35]). assert (zlen pre = 9) as Hp by done.
  rewrite app_assoc, strlen_text by (apply Forall_app; split; [apply Forall_app; split;
    [apply hexdigits_no_nul|by repeat constructor]|done]).
  bind_ret. pose proof (zlen_nonneg body).
  assert (zlen (pre ++ body) = 9 + zlen body) as Hz by (revert Hp; len).
  rewrite to_int_small by (unfold int_min, int_max; lia). rewrite (proj2 (Z.ltb_ge _ _)) by lia.
  rewrite <- app_assoc. pose proof (Z.mod_pos_bound (v / 16 ^ 4) 16 ltac:(done)) as Hd.
  rewrite (proj2 (vget_Ret _ 3 (digit (v / 16 ^ 4 mod 16))))
    by (split; [done|]; unfold pre; rewrite <- app_assoc, lookup_app_l by (rewrite hexdigits_length; lia);
        apply (hexdigits_lookup 8); lia). bind_ret.
  destruct (nibble_digit _ Hd) as (_ & _ & Hne & _). rewrite (proj2 (Z.eqb_neq _ _) Hne).
  rewrite (proj2 (vget_Ret _ 8 35)) by done. bind_ret.
  replace (35 =? CANID_DELIM) with true by done. cbv iota.
  assert (for_return 8 0 (id_digit (pre ++ body ++ 0 :: rest) 7) (can_id zero_frame) = Ret (Continue v))
    as ->.
  { unfold pre. rewrite <- app_assoc. apply (parse_id_text 8); [lia|unfold int_max; lia]. }
  bind_ret. cbv zeta.
  assert ((if has (set_id zero_frame v) CAN_ERR_FLAG then set_id zero_frame v
           else set_id (set_id zero_frame v) (Z.lor v CAN_EFF_FLAG)) =
          set_id zero_frame (canonical_id cf)) as ->
    by (rewrite Hid; unfold has; cbn [can_id set_id]; by destruct (_ =? 0)).
  pose proof (parse_tail_text cf sep maxdlen pre rest _ body Hcf Hm Hbody eq_refl) as Ht.
  by rewrite Hp in Ht.
Qed.

(** A text with an identifier of three digits. *)
Lemma parse_sff_text cf sep maxdlen v rest body :
  frame_ok cf -> maxdlen = 8 \/ maxdlen = 64 -> 0 <= v < 2 ^ 11 ->
  body = (if remote cf maxdlen then remote_text cf
          else flags_text cf sep maxdlen ++ data_text sep (shown_data cf maxdlen)) ->
  canonical_id cf = v -> no_nul body -> zlen body <= 1000 ->
  parse_canframe ((hexdigits 3 v ++ [35]) ++ body ++ 0 :: rest) =
  Ret (mtu maxdlen, canonical cf maxdlen).
Proof.
  intros Hcf Hm Hv Hbody Hid Hnn Hlen. unfold parse_canframe.
  set (pre := hexdigits 3 v ++ [35]). assert (zlen pre = 4) as Hp by done.
  rewrite app_assoc, strlen_text by (apply Forall_app; split; [apply Forall_app; split;
    [apply hexdigits_no_nul|by repeat constructor]|done]).
  bind_ret. pose proof (zlen_nonneg body).
  assert (zlen (pre ++ body) = 4 + zlen body) as Hz by (revert Hp; len).
  rewrite to_int_small by (unfold int_min, int_max; lia). rewrite (proj2 (Z.ltb_ge _ _)) by lia.
  rewrite <- app_assoc. rewrite (proj2 (vget_Ret _ 3 35)) by done. bind_ret.
  replace (35 =? CANID_DELIM) with true by done. cbv iota.
  assert (for_return 3 0 (id_digit (pre ++ body ++ 0 :: rest) 2) (can_id zero_frame) = Ret (Continue v))
    as ->.
  { unfold pre. rewrite <- app_assoc. apply (parse_id_text 3); [lia|unfold int_max; lia]. }
  bind_ret. pose proof (parse_tail_text cf sep maxdlen pre rest _ body Hcf Hm Hbody Hid) as Ht.
  by rewrite Hp in Ht.
Qed.

Lemma parse_frame_text cf sep maxdlen rest :
  frame_ok cf -> maxdlen = 8 \/ maxdlen = 64 ->
  parse_canframe (frame_text cf sep maxdlen ++ 0 :: rest) = Ret (mtu maxdlen, canonical cf maxdlen).
Proof.
  intros Hcf Hm. pose proof (frame_text_no_nul cf sep maxdlen Hcf) as Hnn.
  pose proof (frame_text_length cf sep maxdlen Hcf Hm) as Hlen. unfold frame_text in *.
  apply Forall_app in Hnn as [_ Hnn]. rewrite length_app in Hlen. rewrite <- app_assoc.
  unfold id_text. destruct (has cf CAN_ERR_FLAG) eqn:Ee; [|destruct (has cf CAN_EFF_FLAG) eqn:Ef].
  - apply (parse_eff_text _ sep); try done; [apply (land_mask_range _ 30); done| |unfold zlen; lia].
    unfold canonical_id. rewrite Ee, <- Z.land_assoc. change (Z.land (Z.lor _ _) _) with CAN_ERR_FLAG.
    unfold has in Ee. by apply negb_true_iff in Ee as ->.
  - apply (parse_eff_text _ sep); try done; [|unfold canonical_id; rewrite Ee, Ef|unfold zlen; lia].
    + pose proof (land_mask_range (can_id cf) 29 ltac:(done)). change (Z.ones 29) with CAN_EFF_MASK in *. lia.
    + rewrite <- Z.land_assoc. change (Z.land CAN_EFF_MASK CAN_ERR_FLAG) with 0. by rewrite Z.land_0_r.
  - apply (parse_sff_text _ sep); try done; [apply (land_mask_range _ 11); done| |unfold zlen; lia].
    unfold canonical_id. by rewrite Ee, Ef.
Qed.

(** A frame in the form in which frames are sent: a standard or an extended
    identifier, or that of an error frame, which is a CAN 2.0 frame and never a
    remote frame; remote frames only without data and in CAN 2.0, flags only in
    CAN FD, and no data behind the length. *)
Inductive data_id : Z -> Prop :=
  | standard_id x : 0 <= x < 2 ^ 11 -> data_id x
  | extended_id x : 0 <= x < 2 ^ 29 -> data_id (CAN_EFF_FLAG + x).

Inductive plain_id : Z -> Prop :=
  | plain_data_id id : data_id id -> plain_id id
  | error_id x : 0 <= x < 2 ^ 29 -> plain_id (CAN_ERR_FLAG + x).

Inductive plain : canfd_frame -> Z -> Prop :=
  | plain_remote id l :
      data_id id -> 0 <= l <= 8 -> plain (CanfdFrame (CAN_RTR_FLAG + id) l 0 (replicate 64 0)) 8
  | plain_data id l bs :
      plain_id id -> l = zlen bs -> l <= 8 ->
      plain (CanfdFrame id l 0 (bs ++ replicate (64 - length bs) 0)) 8
  | plain_fd id l f bs :
      data_id id -> l = zlen bs -> l <= 64 -> 0 <= f < 16 ->
      plain (CanfdFrame id l f (bs ++ replicate (64 - length bs) 0)) 64.

Lemma land_flags a b x : 0 <= x < 2 ^ 29 -> Z.land (a * 2 ^ 29 + x) (b * 2 ^ 29) = Z.land a b * 2 ^ 29.
Proof.
  intros Hx. rewrite <- lor_add_pow2, Z.land_lor_distr_l by (done || lia).
  rewrite (Z.land_comm x), (land_pow2_disjoint b x), Z.lor_0_r by (done || lia).
  rewrite <- !Z.shiftl_mul_pow2 by done. symmetry. apply Z.shiftl_land.
Qed.

Lemma land_low a x k : 0 <= k <= 29 -> 0 <= x < 2 ^ k -> Z.land (a * 2 ^ 29 + x) (Z.ones k) = x.
Proof.
  intros Hk Hx. rewrite Z.land_ones by lia. replace 29 with (29 - k + k) by lia.
  rewrite Z.pow_add_r, Z.mul_assoc, Z.add_comm by lia. rewrite Z_mod_plus_full. by apply Z.mod_small.
Qed.

(** The identifier of a plain frame, without and with the bit of a remote
    frame, is what its text stands for. *)
Lemma plain_canonical_id id (r : bool) l f d :
  plain_id id ->
  let cf := CanfdFrame ((if r then CAN_RTR_FLAG else 0) + id) l f d in
  canonical_id cf = id /\ has cf CAN_RTR_FLAG = r /\ 0 <= can_id cf < 2 ^ 32.
Proof.
  intros Hid cf. assert (exists a x, id = a * 2 ^ 29 + x /\ 0 <= x < 2 ^ 29 /\
    (a = 0 /\ x < 2 ^ 11 \/ a = 4 \/ a = 1)) as (a & x & -> & Hx & Ha).
  { destruct Hid as [? [x Hx|x Hx]|x Hx]; [exists 0, x|exists 4, x|exists 1, x];
      unfold CAN_EFF_FLAG, CAN_ERR_FLAG; lia. }
  assert (can_id cf = ((if r then 2 else 0) + a) * 2 ^ 29 + x) as E
    by (simpl; unfold CAN_RTR_FLAG; destruct r; lia).
  assert (forall b, has cf (b * 2 ^ 29) = negb (Z.land ((if r then 2 else 0) + a) b * 2 ^ 29 =? 0)) as Hhas
    by (intros b; unfold has; by rewrite E, land_flags).
  assert (has cf CAN_RTR_FLAG = r) as Hr
    by (change CAN_RTR_FLAG with (2 * 2 ^ 29); rewrite Hhas; destruct r, Ha as [[-> _]|[->| ->]]; done).
  split; [|split; [done|rewrite E; destruct r; lia]].
  unfold canonical_id. change (has cf CAN_ERR_FLAG) with (has cf (1 * 2 ^ 29)).
  change (has cf CAN_EFF_FLAG) with (has cf (4 * 2 ^ 29)). rewrite !Hhas, E. clear Hhas.
  destruct Ha as [[-> Hx1]|[->| ->]].
  - replace (negb _) with false by (by destruct r). replace (negb _) with false by (by destruct r).
    change CAN_SFF_MASK with (Z.ones 11). rewrite land_low by lia. lia.
  - replace (negb _) with false by (by destruct r). replace (negb _) with true by (by destruct r).
    change CAN_EFF_MASK with (Z.ones 29). rewrite land_low by lia. rewrite Z.lor_comm.
    change CAN_EFF_FLAG with (4 * 2 ^ 29). by rewrite lor_add_pow2 by lia.
  - replace (negb _) with true by (by destruct r).
    change (Z.lor CAN_ERR_MASK CAN_ERR_FLAG) with (Z.ones 30). rewrite Z.land_ones by done.
    replace (((if r then 2 else 0) + 1) * 2 ^ 29 + x) with (1 * 2 ^ 29 + x + (if r then 1 else 0) * 2 ^ 30)
      by (destruct r; lia). rewrite Z_mod_plus_full. apply Z.mod_small. lia.
Qed.

Lemma take_shown bs k : (length bs <= 64)%nat -> k = zlen bs ->
  take (Z.to_nat k) (bs ++ replicate (64 - length bs) 0) = bs.
Proof. intros Hb ->. unfold zlen. rewrite Nat2Z.id. apply take_app_length. Qed.

Lemma plain_canonical cf maxdlen : plain cf maxdlen -> canonical cf maxdlen = cf.
Proof.
  unfold canonical, remote. intros [id l Hid Hl|id l bs Hid El Hl|id l f bs Hid El Hl Hf].
  - destruct (plain_canonical_id id true l 0 (replicate 64 0) (plain_data_id id Hid)) as (-> & -> & _). simpl.
    rewrite (proj2 (Z.leb_le _ _)) by (unfold CAN_MAX_DLC; lia). f_equal.
    assert (exists a x, id = a * 2 ^ 31 + x /\ 0 <= x < 2 ^ 30) as (a & x & -> & Hx).
    { destruct Hid as [x Hx|x Hx]; [exists 0, x|exists 1, x]; unfold CAN_EFF_FLAG; lia. }
    rewrite <- (lor_add_pow2 a x 31) at 1 by lia. change CAN_RTR_FLAG with (1 * 2 ^ 30).
    rewrite <- Z.lor_assoc, (Z.lor_comm x), (lor_add_pow2 1), (lor_add_pow2 a) by lia. lia.
  - subst l. destruct (plain_canonical_id id false (zlen bs) 0 (bs ++ replicate (64 - length bs) 0) Hid)
      as (E1 & E2 & _). cbv iota in E1, E2. rewrite Z.add_0_l in E1, E2. rewrite E2, E1, andb_false_r.
    unfold shown_data, shown. cbn [cf_len cf_data]. rewrite (proj2 (Z.ltb_ge _ _)) by lia.
    by rewrite take_shown by (done || len).
  - subst l. unfold shown_data, shown. cbn [cf_len cf_data cf_flags]. rewrite (proj2 (Z.ltb_ge _ _)) by lia.
    destruct (plain_canonical_id id false (zlen bs) f (bs ++ replicate (64 - length bs) 0) (plain_data_id id Hid)) as (E1 & _).
    cbv iota in E1. rewrite Z.add_0_l in E1. rewrite E1, take_shown, Z.mod_small by (done || len). done.
Qed.

(** ** [parse_canframe] on any string *)

(** The result on a string that is not a frame is 0, and whatever is left in
    [*cf] is a frame of the C type; in a frame that was read the length fits
    the kind of frame and what lies behind it is zero. *)
Definition parsed (r : Z) (cf : canfd_frame) : Prop :=
  frame_ok cf /\
  (r = 0 \/
   (r = CAN_MTU /\ cf_len cf <= CAN_MAX_DLEN /\ cf_flags cf = 0 \/
    r = CANFD_MTU /\ cf_len cf <= CANFD_MAX_DLEN /\ cf_flags cf < 16) /\
   exists bs, zlen bs <= cf_len cf /\ cf_data cf = bs ++ replicate (64 - length bs) 0).

Lemma lor_range a b k : 0 <= k -> 0 <= a < 2 ^ k -> 0 <= b < 2 ^ k -> 0 <= Z.lor a b < 2 ^ k.
Proof.
  intros Hk Ha Hb. rewrite <- (Z.mod_small a (2 ^ k)), <- (Z.mod_small b (2 ^ k)) by lia.
  rewrite <- !Z.land_ones, <- Z.land_lor_distr_l by done. by apply land_mask_range.
Qed.

Lemma nibble_byte h l :
  asc2nibble l <= 15 -> byte_ok (Z.lor (Z.shiftl (asc2nibble h) 4 mod 256) (asc2nibble l)).
Proof.
  intros Hl. pose proof (nibble_range l) as [Rl _].
  apply (lor_range _ _ 8); [done|by apply Z.mod_pos_bound|lia].
Qed.

(** A character that can be read, and is the NUL only at the end. *)
Lemma vget_string s rest i :
  no_nul s -> 0 <= i <= zlen s ->
  exists c, vget (s ++ 0 :: rest) i = Ret c /\ (c <> 0 -> i < zlen s).
Proof.
  intros Hs Hi. destruct (decide (i = zlen s)) as [->|Hne].
  - exists 0. split; [apply vget_app|done].
  - destruct (lookup_lt_is_Some_2 s (Z.to_nat i)) as [c Hc]; [len|]. exists c. split; [|lia].
    apply vget_Ret. split; [lia|]. by apply lookup_app_l_Some.
Qed.

Definition data_ok (data : list Z) : Prop := length data = 64%nat /\ Forall byte_ok data.

Lemma zeros_ok k : Forall byte_ok (replicate k 0).
Proof. apply Forall_replicate. by unfold byte_ok. Qed.

Lemma parse_data_safe s rest n : forall dn idx,
  no_nul s -> 0 <= idx <= zlen s -> (length dn + n <= 64)%nat -> Forall byte_ok dn ->
  returns (parse_data n (zlen dn) idx (zlen dn) (s ++ 0 :: rest) (zlen s)
             (dn ++ replicate (64 - length dn) 0)) (fun c =>
    match c with
    | Continue (dlen, data) => exists dn', dlen = zlen dn' /\ (length dn' <= length dn + n)%nat /\
        Forall byte_ok dn' /\ data = dn' ++ replicate (64 - length dn') 0
    | Break data => data_ok data
    end).
Proof.
  induction n as [|n IH]; intros dn idx Hs Hidx Hn Hdn; cbn [parse_data].
  { apply returns_ret. exists dn. repeat split; auto; lia. }
  destruct (vget_string s rest idx Hs Hidx) as (c & -> & Hc). bind_ret.
  set (idx' := if c =? DATA_SEPERATOR then idx + 1 else idx).
  assert (0 <= idx' <= zlen s) as Hidx'.
  { unfold idx'. destruct (Z.eqb_spec c DATA_SEPERATOR) as [->|]; [|lia]. specialize (Hc ltac:(done)). lia. }
  destruct (Z.leb_spec (zlen s) idx') as [|Hlt].
  { apply returns_ret. exists dn. repeat split; auto; lia. }
  destruct (vget_string s rest idx' Hs Hidx') as (h & -> & Hh). bind_ret.
  destruct (Z.ltb_spec 15 (asc2nibble h)) as [|Hh15].
  { apply returns_ret. split; [rewrite length_app, length_replicate; lia|].
    apply Forall_app. split; [done|apply zeros_ok]. }
  replace (64 - length dn)%nat with (S (64 - length dn - 1)) by lia. simpl replicate.
  rewrite vset_app. bind_ret.
  destruct (vget_string s rest (idx' + 1) Hs) as (l & -> & Hl); [lia|]. bind_ret.
  destruct (Z.ltb_spec 15 (asc2nibble l)) as [|Hl15].
  { apply returns_ret. split; [rewrite length_app; simpl; rewrite length_replicate; lia|].
    apply Forall_app. split; [done|]. apply Forall_cons. split; [by apply Z.mod_pos_bound|apply zeros_ok]. }
  rewrite vget_app. bind_ret. rewrite vset_app. bind_ret. set (b := Z.lor _ _).
  assert (byte_ok b) as Hb by (by apply nibble_byte).
  pose proof (nibble_range l) as [_ Hl0]. specialize (Hl ltac:(lia)).
  replace (zlen dn + 1) with (zlen (dn ++ [b])) by len.
  replace (dn ++ b :: replicate (64 - length dn - 1) 0)
    with ((dn ++ [b]) ++ replicate (64 - length (dn ++ [b])) 0)
    by (rewrite length_app, <- app_assoc; simpl; do 3 f_equal; lia).
  eapply returns_mono; [apply IH|].
  - done.
  - lia.
  - rewrite length_app. simpl. lia.
  - apply Forall_app. split; [done|by constructor].
  - intros [[dlen data]|data]; [|done]. intros (dn' & -> & Hlen & Hok & ->).
    exists dn'. rewrite length_app in Hlen. simpl in Hlen. repeat split; auto; lia.
Qed.

Lemma parse_payload_safe s rest idx maxdlen r id f :
  no_nul s -> 0 <= idx <= zlen s -> 0 <= id < 2 ^ 32 ->
  maxdlen = CAN_MAX_DLEN /\ r = CAN_MTU /\ f = 0 \/ maxdlen = CANFD_MAX_DLEN /\ r = CANFD_MTU /\ 0 <= f < 16 ->
  returns (parse_payload (s ++ 0 :: rest) (zlen s) idx maxdlen r (CanfdFrame id 0 f (replicate 64 0)))
    (fun '(r, cf) => parsed r cf).
Proof.
  intros Hs Hidx Hid Hm. unfold parse_payload.
  assert (0 <= maxdlen <= 64 /\ byte_ok f) as [Hmax Hf]
    by (unfold byte_ok, CAN_MAX_DLEN, CANFD_MAX_DLEN in *; lia).
  pose proof (parse_data_safe s rest (Z.to_nat maxdlen) [] idx Hs Hidx ltac:(simpl; lia)
    (Forall_nil_2 _)) as H0.
  match type of H0 with returns _ ?Q => change (returns
    (parse_data (Z.to_nat maxdlen) 0 idx 0 (s ++ 0 :: rest) (zlen s) (replicate 64 0)) Q) in H0 end.
  destruct H0 as ([[dlen data]|data] & E & H); cbn [cf_data]; rewrite E; bind_ret; apply returns_ret.
  - destruct H as (dn & -> & Hlen & Hok & ->). simpl in Hlen.
    assert (zlen dn <= maxdlen) by len. rewrite Z.mod_small by len. split.
    + split; [done|]. split; [unfold byte_ok; cbn [set_len cf_len]; len|]. split; [done|].
      cbn [set_len set_data cf_data]. split; [rewrite length_app, length_replicate; lia|].
      apply Forall_app. split; [done|apply zeros_ok].
    + right. split.
      * destruct Hm as [(-> & -> & ->)|(-> & -> & ?)]; [left|right]; simpl; lia.
      * exists dn. split; [simpl; lia|done].
  - split; [|by left]. destruct H as [H1 H2]. repeat split; simpl; try done; unfold byte_ok in *; lia.
Qed.

Lemma parse_tail_safe s rest idx id :
  no_nul s -> 0 <= idx <= zlen s -> 0 <= id < 2 ^ 32 ->
  returns (parse_tail (s ++ 0 :: rest) (zlen s) idx (set_id zero_frame id)) (fun '(r, cf) => parsed r cf).
Proof.
  intros Hs Hidx Hid. unfold parse_tail.
  destruct (vget_string s rest idx Hs Hidx) as (c & -> & Hc). bind_ret.
  destruct ((c =? 82) || (c =? 114)) eqn:Er; [|destruct (Z.eqb_spec c CANID_DELIM) as [->|]].
  - assert (c <> 0) by (intros ->; done).
    destruct (vget_string s rest (idx + 1) Hs ltac:(lia)) as (d & -> & _). bind_ret. apply returns_ret.
    assert (0 <= Z.lor id CAN_RTR_FLAG < 2 ^ 32) by (apply lor_range; unfold CAN_RTR_FLAG; lia).
    pose proof (nibble_range d) as [Hd _]. pose proof (zeros_ok 64).
    destruct (_ && _) eqn:E; cbn [set_id set_len can_id cf_len].
    + apply andb_true_iff in E as [_ E%Z.leb_le]. unfold CAN_MAX_DLC in E.
      split; [repeat split; simpl; try done; lia|]. right. split; [left; simpl; unfold CAN_MAX_DLEN; lia|].
      exists []. by split; [simpl; unfold zlen; simpl; lia|].
    + split; [repeat split; simpl; try done; lia|]. right. split; [by left|]. by exists [].
  - specialize (Hc ltac:(done)).
    destruct (vget_string s rest (idx + 1) Hs ltac:(lia)) as (d & -> & Hd). bind_ret.
    pose proof (nibble_range d) as [Hn Hd0].
    destruct (Z.ltb_spec 15 (asc2nibble d)).
    + apply returns_ret. split; [|by left]. repeat split; simpl; try done; try lia. apply (zeros_ok 64).
    + apply parse_payload_safe; [done|lia|done|]. right. lia.
  - apply parse_payload_safe; [done|lia|done|]. by left.
Qed.

Lemma id_loop_safe s rest n last :
  no_nul s -> Z.of_nat n <= zlen (s ++ 0 :: rest) -> last = Z.of_nat n - 1 ->
  last <= 6 \/ last = 7 /\ (forall c, vget (s ++ 0 :: rest) 0 = Ret c -> ~ 8 <= asc2nibble c <= 15) ->
  returns (for_return n 0 (id_digit (s ++ 0 :: rest) last) 0) (fun c =>
    match c with
    | Continue id => 0 <= id < 2 ^ 32 /\ Z.of_nat n <= zlen s
    | Break id => 0 <= id < 2 ^ 32
    end).
Proof.
  intros Hs Hn -> Hlast.
  apply (for_return_inv (fun i id => 0 <= id < 2 ^ 32 /\ i <= zlen s) (fun id => 0 <= id < 2 ^ 32));
    [split; [done|apply zlen_nonneg]|].
  intros i id Hi [Hid Hle]. unfold id_digit.
  destruct (vget_string s rest i Hs) as (c & Hc & Hlt); [lia|]. rewrite Hc. bind_ret.
  pose proof (nibble_range c) as [Hr Hc0].
  destruct (Z.ltb_spec 15 (asc2nibble c)); [by apply returns_ret|].
  rewrite Z.shiftl_mul_pow2 by lia. set (m := (Z.of_nat n - 1 - i) * 4).
  assert (0 <= asc2nibble c * 2 ^ m < 2 ^ 31) as Hv.
  { pose proof (Z.pow_pos_nonneg 2 m ltac:(done) ltac:(lia)). destruct (decide (m <= 24)).
    - pose proof (Z.pow_le_mono_r 2 m 24 ltac:(done) ltac:(lia)). nia.
    - assert (m = 28 /\ i = 0) as [Em ->] by lia. rewrite Em in *.
      destruct Hlast as [?|[_ Hlast]]; [lia|]. specialize (Hlast c Hc). lia. }
  rewrite int_op_in by (unfold int_min, int_max; lia). bind_ret. apply returns_ret.
  specialize (Hlt ltac:(lia)). split; [apply lor_range; lia|lia].
Qed.

(** The first digit of an identifier of eight digits is shifted into the sign
    of an [int]. *)
Lemma id_overflow cs c :
  vget cs 0 = Ret c -> 8 <= asc2nibble c <= 15 -> for_return 8 0 (id_digit cs 7) 0 = Undef IntOverflow.
Proof.
  intros Hc Hr. assert (id_digit cs 7 0 0 = Undef IntOverflow) as E.
  { unfold id_digit. rewrite Hc. bind_ret.
    rewrite (proj2 (Z.ltb_ge _ _)) by lia. rewrite Z.shiftl_mul_pow2 by done. unfold int_op.
    destruct (in_int _) eqn:E; [|done]. apply in_int_spec in E. unfold int_max in E. simpl in E. lia. }
  cbn [for_return]. by rewrite E.
Qed.

(** An array that ends before [cs[8]], which is looked at if the string has 4
    to 7 characters and no delimiter at [cs[3]]. *)
Definition reads_behind (s rest : list Z) : bool :=
  (4 <=? zlen s) && negb (bool_decide (s !! 3%nat = Some CANID_DELIM)) && (zlen s + zlen rest <? 8).

(** An identifier of eight digits whose first digit is at least 8. *)
Definition sign_shifted (s rest : list Z) : bool :=
  (4 <=? zlen s) && negb (bool_decide (s !! 3%nat = Some CANID_DELIM)) &&
  bool_decide ((s ++ 0 :: rest) !! 8%nat = Some CANID_DELIM) &&
  match s !! 0%nat with Some c => (8 <=? asc2nibble c) && (asc2nibble c <=? 15) | None => false end.

(** C29: [parse_canframe] on every NUL-terminated string of [int] length, in an
    array that goes on behind it with [rest].  It reads behind the array exactly
    if that ends before [cs[8]] and the string has 4 to 7 characters and no
    delimiter at [cs[3]].  Otherwise an identifier of eight digits whose
    first digit is at least 8 is shifted into the sign of an [int], which is
    undefined.  On all other strings the function returns 0, [CAN_MTU] or
    [CANFD_MTU] and leaves a frame of the C type with a length that fits the
    kind of frame and with zeros behind the data. *)
Theorem parse_canframe_type s rest :
  no_nul s -> zlen s <= int_max ->
  if reads_behind s rest then parse_canframe (s ++ 0 :: rest) = Undef OutOfBounds
  else if sign_shifted s rest then parse_canframe (s ++ 0 :: rest) = Undef IntOverflow
  else returns (parse_canframe (s ++ 0 :: rest)) (fun '(r, cf) => parsed r cf).
Proof.
  intros Hs Hmax. unfold reads_behind, sign_shifted, parse_canframe. rewrite strlen_text by done. bind_ret.
  pose proof (zlen_nonneg s). rewrite to_int_small by (unfold int_min; lia).
  assert (frame_ok zero_frame) as Hz by (repeat split; try done; apply (zeros_ok 64)).
  assert (forall id, 0 <= id < 2 ^ 32 -> parsed 0 (set_id zero_frame id)) as Hz0.
  { intros id Hid. split; [|by left]. destruct Hz as (_ & ?). by split. }
  destruct (Z.ltb_spec (zlen s) 4) as [H4|H4].
  { rewrite (proj2 (Z.leb_gt 4 _)) by lia. apply returns_ret. by split; [|left]. }
  rewrite (proj2 (Z.leb_le 4 _)) by lia.
  destruct (lookup_lt_is_Some_2 s 3) as [c3 H3]; [len|]. rewrite H3.
  rewrite (proj2 (vget_Ret _ 3 c3)) by (split; [done|by apply lookup_app_l_Some]). bind_ret.
  destruct (Z.eqb_spec c3 CANID_DELIM) as [->|Hne].
  - rewrite bool_decide_true by done. cbn [negb andb].
    eapply returns_bind; [apply id_loop_safe; [done|len|done|by left]|].
    intros [id|id] Hid; [|apply returns_ret; by apply Hz0]. apply parse_tail_safe; [done|lia|apply Hid].
  - rewrite bool_decide_false by congruence. cbn [negb andb].
    destruct (Z.ltb_spec (zlen s + zlen rest) 8) as [Hout|Hin].
    { by rewrite vget_out_of_range by len. }
    destruct (vget_in_range (s ++ 0 :: rest) 8) as [c8 H8]; [len|]. rewrite H8. bind_ret.
    apply vget_Ret in H8 as [_ H8]. change (Z.to_nat 8) with 8%nat in H8. rewrite H8. destruct (Z.eqb_spec c8 CANID_DELIM) as [->|Hne8].
    2: { rewrite bool_decide_false by congruence. apply returns_ret. by split; [|left]. }
    rewrite bool_decide_true by done. cbn [andb]. destruct (lookup_lt_is_Some_2 s 0) as [c0 H0]; [len|]. rewrite H0.
    assert (vget (s ++ 0 :: rest) 0 = Ret c0) as Hv by (apply vget_Ret; split; [done|by apply lookup_app_l_Some]).
    destruct ((8 <=? asc2nibble c0) && (asc2nibble c0 <=? 15)) eqn:Hov.
    + cbn [can_id zero_frame]. rewrite (id_overflow _ c0); [done|done|lia].
    + eapply returns_bind.
      { apply id_loop_safe; [done|apply lookup_lt_Some in H8; unfold zlen; lia|done|].
        right. split; [done|]. intros c. rewrite Hv. intros [= <-]. lia. }
      intros [id|id] Hid; [|apply returns_ret; by apply Hz0]. destruct Hid as [Hid Hlen]. cbv zeta.
      assert (zlen s <> 8).
      { intros E8. rewrite list_lookup_middle in H8 by (clear -E8; len). done. }
      destruct (has _ _); apply parse_tail_safe; try done; try lia.
      apply lor_range; unfold CAN_EFF_FLAG; lia.
Qed.

(** ** [hexstring2data] *)

Definition hexchar (c : Z) : Prop := asc2nibble c <= 15.

Fixpoint bytes_of (s : list Z) : list Z :=
  match s with
  | h :: l :: r => asc2nibble h * 16 + asc2nibble l :: bytes_of r
  | _ => []
  end.

Lemma bytes_of_length s : length (bytes_of s) = (length s / 2)%nat.
Proof.
  remember (length s) as n eqn:E. revert s E.
  induction n as [n IH] using lt_wf_ind; intros [|a [|b s]] ->; try done.
  simpl bytes_of. simpl length. rewrite (IH (length s)) by (simpl; lia).
  change (S (S (length s))) with (1 * 2 + length s)%nat. by rewrite Nat.div_add_l by done.
Qed.

Lemma bytes_of_snoc s h l k :
  length s = (2 * k)%nat -> bytes_of (s ++ [h; l]) = bytes_of s ++ [asc2nibble h * 16 + asc2nibble l].
Proof.
  revert s. induction k as [|k IH]; intros [|a [|b s]] Hs; simpl in Hs; try lia; [done|].
  simpl. by rewrite IH by lia.
Qed.

Lemma bytes_of_take_length s k : (2 * k <= length s)%nat -> length (bytes_of (take (2 * k) s)) = k.
Proof.
  intros Hk. rewrite bytes_of_length, length_take, Nat.min_l, Nat.mul_comm by lia. by apply Nat.div_mul.
Qed.

Lemma take_two (s : list Z) k h l :
  s !! (2 * k)%nat = Some h -> s !! S (2 * k) = Some l -> take (2 * S k) s = take (2 * k) s ++ [h; l].
Proof.
  intros Hh Hl. replace (2 * S k)%nat with (S (S (2 * k))) by lia.
  rewrite (take_S_r _ _ _ Hl), (take_S_r _ _ _ Hh). by rewrite <- app_assoc.
Qed.

Definition hexstring_inv (s tail : list Z) (m : nat) (i : Z) (d : list Z) : Prop :=
  Forall hexchar (take (2 * Z.to_nat i) s) /\
  d = bytes_of (take (2 * Z.to_nat i) s) ++ replicate (m - Z.to_nat i) 0 ++ tail.

Lemma hexstring_step s rest tail m i d :
  (length s <= 2 * m)%nat -> 0 <= i -> (2 * Z.to_nat i + 1 < length s)%nat ->
  hexstring_inv s tail m i d ->
  returns (hexstring_byte (s ++ 0 :: rest) i d) (fun c =>
    match c with
    | Continue d' => hexstring_inv s tail m (i + 1) d'
    | Break (r, d') => r = 1 /\ ~ Forall hexchar s /\ length d' = (m + length tail)%nat
    end).
Proof.
  intros Hm Hi Hn [Hhex ->]. unfold hexstring_inv. set (k := Z.to_nat i) in *.
  pose proof (bytes_of_take_length s k ltac:(lia)) as Hl.
  set (dn := bytes_of (take (2 * k) s)) in *.
  replace (m - k)%nat with (S (m - S k)) by lia. cbn [replicate app].
  destruct (lookup_lt_is_Some_2 s (2 * k)) as [h Hh]; [lia|].
  destruct (lookup_lt_is_Some_2 s (S (2 * k))) as [l Hl']; [lia|].
  unfold hexstring_byte. rewrite (proj2 (vget_Ret _ (2 * i) h)) by (split; [lia|];
    apply lookup_app_l_Some; by replace (Z.to_nat (2 * i)) with (2 * k)%nat by lia). bind_ret.
  assert (zlen dn = i) as Hz by len.
  destruct (Z.ltb_spec 15 (asc2nibble h)) as [Hbad|Hh15].
  { apply returns_ret. split; [done|]. split; [|rewrite length_app; simpl; rewrite length_app, length_replicate; lia].
    intros Hall. pose proof (Forall_lookup_1 _ _ _ _ Hall Hh). unfold hexchar in *. lia. }
  rewrite <- Hz at 1. rewrite vset_app. bind_ret. rewrite (proj2 (vget_Ret _ (2 * i + 1) l)) by (split; [lia|];
    apply lookup_app_l_Some; by replace (Z.to_nat (2 * i + 1)) with (S (2 * k)) by lia). bind_ret.
  destruct (Z.ltb_spec 15 (asc2nibble l)) as [Hbad|Hl15].
  { apply returns_ret. split; [done|]. split; [|rewrite length_app; simpl; rewrite length_app, length_replicate; lia].
    intros Hall. pose proof (Forall_lookup_1 _ _ _ _ Hall Hl'). unfold hexchar in *. lia. }
  rewrite <- Hz at 1. rewrite vget_app. bind_ret. rewrite <- Hz at 1. rewrite vset_app. bind_ret.
  apply returns_ret. replace (Z.to_nat (i + 1)) with (S k) by lia.
  rewrite (take_two s k h l) by done. split.
  + apply Forall_app. split; [done|]. by repeat constructor.
  + rewrite (bytes_of_snoc _ _ _ k) by (rewrite length_take; lia). fold dn. rewrite <- app_assoc. simpl.
    do 2 f_equal. pose proof (nibble_range h) as [? _]. pose proof (nibble_range l) as [? _].
    rewrite Z.mod_small by (rewrite Z.shiftl_mul_pow2 by done; lia). by apply lor_digits; lia.
Qed.

Lemma hexstring_loop s rest tail m :
  (length s <= 2 * m)%nat -> Z.rem (zlen s) 2 = 0 ->
  returns (for_return (Z.to_nat (Z.quot (zlen s) 2)) 0 (hexstring_byte (s ++ 0 :: rest))
             (replicate m 0 ++ tail)) (fun c =>
    match c with
    | Continue d => Forall hexchar s /\ d = bytes_of s ++ replicate (m - length (bytes_of s)) 0 ++ tail
    | Break (r, d) => r = 1 /\ ~ Forall hexchar s /\ length d = (m + length tail)%nat
    end).
Proof.
  intros Hm Heven. pose proof (zlen_nonneg s) as H0. pose proof (Z.quot_rem (zlen s) 2 ltac:(done)) as E.
  rewrite Heven, Z.add_0_r in E. set (n := Z.to_nat (Z.quot (zlen s) 2)).
  assert (length s = 2 * n)%nat as Hn by (unfold n, zlen in *; lia).
  eapply returns_mono; [apply (for_return_inv (hexstring_inv s tail m)
    (fun '(r, d) => r = 1 /\ ~ Forall hexchar s /\ length d = (m + length tail)%nat))|].
  - unfold hexstring_inv. simpl. by rewrite Nat.sub_0_r.
  - intros i d Hi Hd. eapply returns_mono; [apply (hexstring_step s rest tail m); [done|lia|lia|done]|].
    by intros [d'|[r d']].
  - intros [d|[r d]]; [|done]. unfold hexstring_inv. rewrite Z.add_0_l, Nat2Z.id, take_ge by lia.
    intros [Hhex ->]. split; [done|]. rewrite bytes_of_length, Hn, Nat.mul_comm, Nat.div_mul by done. done.
Qed.

Definition valid_hexstring (s : list Z) (maxdlen : Z) : Prop :=
  s <> [] /\ Z.rem (zlen s) 2 = 0 /\ zlen s <= maxdlen * 2 /\ Forall hexchar s.

(** [hexstring2data] returns 0 exactly on a string of an even, positive
    number of hexadecimal digits for at most [maxdlen] bytes; then the array
    starts with the bytes, followed by zeros up to [maxdlen]. *)
Theorem hexstring2data_correct s rest data maxdlen :
  no_nul s -> zlen s <= int_max -> 0 <= maxdlen <= zlen data -> maxdlen * 2 <= int_max ->
  returns (hexstring2data (s ++ 0 :: rest) data maxdlen) (fun '(r, d) =>
    length d = length data /\
    (r = 0 /\ valid_hexstring s maxdlen /\
       d = bytes_of s ++ replicate (Z.to_nat maxdlen - length (bytes_of s)) 0 ++ drop (Z.to_nat maxdlen) data \/
     r = 1 /\ ~ valid_hexstring s maxdlen)).
Proof.
  intros Hs Hmax Hm Hm2. unfold hexstring2data. rewrite strlen_text by done. bind_ret.
  pose proof (zlen_nonneg s). rewrite to_int_small by (unfold int_min; lia).
  rewrite int_op_in by (unfold int_min; lia). bind_ret. unfold valid_hexstring.
  destruct (Z.eqb_spec (zlen s) 0) as [E0|N0]; cbn [orb].
  { apply returns_ret. split; [done|]. right. split; [done|]. intros (Hne & _). apply Hne.
    apply length_zero_iff_nil. len. }
  destruct (Z.eqb_spec (Z.rem (zlen s) 2) 0) as [Er|Nr]; cbn [orb negb].
  2: { apply returns_ret. split; [done|]. right. split; [done|]. by intros (_ & ? & _). }
  destruct (Z.ltb_spec (maxdlen * 2) (zlen s)) as [Hgt|Hle].
  { apply returns_ret. split; [done|]. right. split; [done|]. intros (_ & _ & ? & _). lia. }
  unfold clear. rewrite !(proj2 (Z.leb_le _ _)) by lia. cbn [andb]. bind_ret.
  assert (length (drop (Z.to_nat maxdlen) data) = length data - Z.to_nat maxdlen)%nat as Hd by apply length_drop.
  destruct (hexstring_loop s rest (drop (Z.to_nat maxdlen) data) (Z.to_nat maxdlen)) as (c & Hc & Hp);
    [len|done|]. rewrite Hc. bind_ret. destruct c as [d|[r d]]; apply returns_ret.
  - destruct Hp as [Hhex ->]. pose proof (bytes_of_length s) as Hb.
    assert (length s / 2 <= Z.to_nat maxdlen)%nat by (apply Nat.Div0.div_le_upper_bound; len).
    split; [rewrite !length_app, length_replicate; len|]. left. repeat split; try done.
    intros ->. done.
  - destruct Hp as (-> & Hno & Hl). split; [len|]. right. split; [done|]. by intros (_ & _ & _ & ?).
Qed.

Lemma hexstring2data_correct_witness :
  returns (hexstring2data (chars "001234" ++ [0]) [9; 9; 9; 9; 9] 4) (fun '(r, d) =>
    length d = 5%nat /\
    (r = 0 /\ valid_hexstring (chars "001234") 4 /\ d = [0; 18; 52] ++ [0] ++ [9] \/
     r = 1 /\ ~ valid_hexstring (chars "001234") 4)).
Proof.
  apply (hexstring2data_correct (chars "001234") [] [9; 9; 9; 9; 9] 4); try done.
  by repeat constructor.
Defined.

(** A data length has the least code whose length is not below it, and
    every code, whatever its upper bits, is the code of its length. *)
Theorem dlc_correct :
  (forall l, 0 <= l <= 64 -> exists d n, can_len2dlc l = Ret d /\ can_dlc2len d = Ret n /\ 0 <= d < 16 /\
     l <= n <= 64 /\ (forall d' n', 0 <= d' < d -> can_dlc2len d' = Ret n' -> n' < l)) /\
  (forall l, 64 < l < 256 -> can_len2dlc l = Ret 15) /\
  (forall c, 0 <= c < 256 -> exists n, can_dlc2len c = Ret n /\ 0 <= n <= 64 /\ can_len2dlc n = Ret (c mod 16)).
Proof.
  split; [|split].
  - intros l Hl. apply (below_nat 65 (fun l => exists d n, can_len2dlc l = Ret d /\ can_dlc2len d = Ret n /\
      0 <= d < 16 /\ l <= n <= 64 /\ (forall d' n', 0 <= d' < d -> can_dlc2len d' = Ret n' -> n' < l))); [lia|].
    assert (Forall (fun l => exists d n, can_len2dlc l = Ret d /\ can_dlc2len d = Ret n /\ 0 <= d < 16 /\
      l <= n <= 64 /\ Forall (fun d' => Z.of_nat d' < d -> forall n', can_dlc2len (Z.of_nat d') = Ret n' -> n' < l)
        (seq 0 16)) (Z.of_nat <$> seq 0 65)) as H.
    { repeat (constructor; [eexists _, _; split; [reflexivity|]; split; [reflexivity|];
        split; [lia|]; split; [lia|]; repeat constructor; intros Hlt ? [= <-]; lia|]). constructor. }
    eapply Forall_impl; [exact H|]. intros x (d & n & H1 & H2 & H3 & H4 & H5). exists d, n.
    repeat (split; [done|]). intros d' n' Hd' E. apply (Forall_lookup_1 _ _ (Z.to_nat d') (Z.to_nat d') H5).
    + apply lookup_seq. lia.
    + lia.
    + by rewrite Z2Nat.id by lia.
  - intros l Hl. unfold can_len2dlc. by rewrite (proj2 (Z.ltb_lt _ _)) by lia.
  - intros c Hc. unfold can_dlc2len. rewrite land_15.
    pose proof (Z.mod_pos_bound c 16 ltac:(done)) as Hr.
    apply (below_nat 16 (fun d => exists n, vget dlc2len d = Ret n /\ 0 <= n <= 64 /\ can_len2dlc n = Ret d)); [done|].
    repeat (constructor; [eexists; split; [reflexivity|]; split; [lia|reflexivity]|]). constructor.
Qed.

(** C28: printing and reading a frame.  [sprint_canframe], in CAN 2.0 or
    CAN FD form and with or without separators, stays within an array of
    [CL_CFSZ] characters whatever the frame, and [parse_canframe] reads from
    the text the frame that it stands for, with the right frame size.  A frame
    in the form in which frames are sent, in which an error frame is not a
    remote frame, comes back as it was. *)
Theorem canframe_roundtrip buf cf sep maxdlen :
  frame_ok cf -> maxdlen = CAN_MAX_DLEN \/ maxdlen = CANFD_MAX_DLEN -> CL_CFSZ <= zlen buf ->
  returns (sprint_canframe buf cf sep maxdlen) (fun text =>
    parse_canframe text = Ret (mtu maxdlen, canonical cf maxdlen)) /\
  (plain cf maxdlen -> canonical cf maxdlen = cf).
Proof.
  intros Hcf Hm Hbuf. split; [|apply plain_canonical].
  eapply returns_mono; [by apply sprint_text|]. intros text (rest & -> & _).
  by apply parse_frame_text.
Qed.

Lemma canframe_roundtrip_witness :
  let cf := CanfdFrame (CAN_EFF_FLAG + 0x12345678) 3 0 ([0x11; 0x22; 0x33] ++ replicate 61 0) in
  returns (sprint_canframe (replicate 280 7) cf 1 8) (fun text =>
    parse_canframe text = Ret (16, canonical cf 8)) /\
  canonical cf 8 = cf.
Proof.
  intros cf. destruct (canframe_roundtrip (replicate 280 7) cf 1 8) as [H1 H2].
  - repeat split; try done. by repeat constructor.
  - by left.
  - done.
  - split; [done|]. apply H2. apply (plain_data _ 3 [0x11; 0x22; 0x33]); [|done|done].
    by apply plain_data_id, extended_id.
Defined.

Lemma parse_canframe_type_witness :
  returns (parse_canframe (chars "123##31122" ++ [0])) (fun '(r, cf) => parsed r cf).
Proof.
  apply (parse_canframe_type (chars "123##31122") []); [|done]. by repeat constructor.
Defined.

(** [fprint_canframe] needs no more than its local array: whatever the
    frame and the array held, the stream receives the text of the frame and
    the end of line. *)
Theorem fprint_canframe_text buf cf eol sep maxdlen :
  frame_ok cf -> maxdlen = CAN_MAX_DLEN \/ maxdlen = CANFD_MAX_DLEN -> zlen buf = CL_CFSZ ->
  fprint_canframe buf cf eol sep maxdlen =
  Ret (frame_text cf sep maxdlen ++ match eol with Some e => e | None => [] end).
Proof.
  intros Hcf Hm Hbuf. unfold fprint_canframe.
  destruct (sprint_text buf cf sep maxdlen Hcf Hm) as (buf1 & -> & rest & -> & _); [lia|]. bind_ret.
  by rewrite c_string_text by (by apply frame_text_no_nul).
Qed.

Lemma fprint_canframe_text_witness :
  fprint_canframe (replicate 280 7) (CanfdFrame 0x123 2 1 ([0xAB; 0xCD] ++ replicate 62 0)) (Some [10]) 1 64 =
  Ret (chars "123##1.AB.CD" ++ [10]).
Proof.
  apply (fprint_canframe_text (replicate 280 7) (CanfdFrame 0x123 2 1 ([0xAB; 0xCD] ++ replicate 62 0))).
  - repeat split; try done. by repeat constructor.
  - by right.
  - done.
Defined.

(** Examples of the documentation in lib.h; the last one is an identifier with
    a first digit of at least 8, whose shift is undefined. *)
Example parse_examples :
  parse_canframe (chars "123#R7" ++ [0]) = Ret (16, CanfdFrame (0x123 + CAN_RTR_FLAG) 7 0 (replicate 64 0)) /\
  parse_canframe (chars "123#11.2233.44556677.88" ++ [0]) =
    Ret (16, CanfdFrame 0x123 8 0 ([0x11; 0x22; 0x33; 0x44; 0x55; 0x66; 0x77; 0x88] ++ replicate 56 0)) /\
  parse_canframe (chars "32345678#112233" ++ [0]) =
    Ret (16, CanfdFrame 0x32345678 3 0 ([0x11; 0x22; 0x33] ++ replicate 61 0)) /\
  parse_canframe (chars "123##3" ++ [0]) = Ret (72, CanfdFrame 0x123 0 3 (replicate 64 0)) /\
  parse_canframe (chars "80000000#" ++ [0]) = Undef IntOverflow.
Proof. by vm_compute. Qed.

(** A string of 4 to 7 characters without a delimiter: the byte behind its
    array is read.  An identifier of three digits may exceed the 11 bits of a
    standard identifier, and one of eight digits may set the flags; an error
    frame may be a remote frame. *)
Example parse_lenient :
  parse_canframe (chars "1234" ++ [0]) = Undef OutOfBounds /\
  parse_canframe (chars "FFF#" ++ [0]) = Ret (16, CanfdFrame 0xFFF 0 0 (replicate 64 0)) /\
  parse_canframe (chars "40000001#" ++ [0]) =
    Ret (16, CanfdFrame (CAN_EFF_FLAG + CAN_RTR_FLAG + 1) 0 0 (replicate 64 0)) /\
  parse_canframe (chars "20000001#R" ++ [0]) =
    Ret (16, CanfdFrame (CAN_ERR_FLAG + CAN_RTR_FLAG + 1) 0 0 (replicate 64 0)).
Proof. by vm_compute. Qed.
