(* ===== verification/CanView.v ===== *)
(** * CAN frames and error frames in readable form

    src/c++/20230210-cansocket/lib.c, second half: [sprint_long_canframe], the
    error tables and [snprintf_can_error_frame].  [sprintf] and [snprintf] are
    modelled by the characters that they write: [snprintf] writes as many as
    its size allows and a NUL, and returns the length of the whole text. *)

From stdpp Require Import base list numbers strings.
From Stdlib Require Import ZArith Lia.
From S2P Require Import Prelude Hex CanFrame.

Open Scope Z_scope.

(** ** Formatted output *)

(** The characters of [text] from [pos] on. *)
Fixpoint put_text (buf : list Z) (pos : Z) (text : list Z) : outcome (list Z) :=
  match text with
  | [] => Ret buf
  | c :: text => buf1 ← vset buf pos c; put_text buf1 (pos + 1) text
  end.

(** [sprintf(buf + pos, text)]. *)
Definition sprintf (buf : list Z) (pos : Z) (text : list Z) : outcome (list Z) :=
  buf1 ← put_text buf pos text;
  vset buf1 (pos + zlen text) 0.

(** [snprintf(buf + pos, size, text)]: the buffer and the result. *)
Definition snprintf (buf : list Z) (pos size : Z) (text : list Z) : outcome (list Z * Z) :=
  if size =? 0 then Ret (buf, zlen text)
  else
    buf1 ← sprintf buf pos (if zlen text <? size then text else take (Z.to_nat (size - 1)) text);
    Ret (buf1, zlen text).

(** The conversion [%*s], with a width. *)
Definition pad (width : Z) (text : list Z) : list Z :=
  replicate (Z.to_nat (width - zlen text)) 32 ++ text.

(** The conversion [%d], of a number that is not negative. *)
Fixpoint decimal_digits (k : nat) (n : Z) : list Z :=
  match k with
  | O => []
  | S k => if n <? 10 then [48 + n] else decimal_digits k (n / 10) ++ [48 + n mod 10]
  end.
Definition decimal (n : Z) : list Z := decimal_digits 10 n.

(** ** [sprint_long_canframe] *)

Definition CANLIB_VIEW_ASCII : Z := 0x1.
Definition CANLIB_VIEW_BINARY : Z := 0x2.
Definition CANLIB_VIEW_SWAP : Z := 0x4.
Definition CANLIB_VIEW_ERROR : Z := 0x8.
Definition CANLIB_VIEW_INDENT_SFF : Z := 0x10.
Definition SWAP_DELIMITER : Z := 96.

(** [view & flag], as a condition. *)
Definition wants (view flag : Z) : bool := negb (Z.land view flag =? 0).

(** The identifier, and the offset of the length. *)
Definition long_id (buf : list Z) (cf : canfd_frame) (view : Z) : outcome (list Z * Z) :=
  if has cf CAN_ERR_FLAG then
    buf1 ← put_eff_id buf 0 (Z.land (can_id cf) (Z.lor CAN_ERR_MASK CAN_ERR_FLAG));
    Ret (buf1, 10)
  else if has cf CAN_EFF_FLAG then
    buf1 ← put_eff_id buf 0 (Z.land (can_id cf) CAN_EFF_MASK);
    Ret (buf1, 10)
  else if wants view CANLIB_VIEW_INDENT_SFF then
    buf1 ← put_sff_id buf 5 (Z.land (can_id cf) CAN_SFF_MASK);
    Ret (buf1, 10)
  else
    buf1 ← put_sff_id buf 0 (Z.land (can_id cf) CAN_SFF_MASK);
    Ret (buf1, 5).

Definition long_len (buf : list Z) (offset len maxdlen : Z) : outcome (list Z) :=
  if maxdlen =? CAN_MAX_DLEN then
    buf1 ← vset buf (offset + 1) 91;
    buf2 ← vset buf1 (offset + 2) (len + 48);
    vset buf2 (offset + 3) 93
  else
    buf1 ← vset buf offset 91;
    buf2 ← vset buf1 (offset + 1) (Z.quot len 10 + 48);
    buf3 ← vset buf2 (offset + 2) (Z.rem len 10 + 48);
    vset buf3 (offset + 3) 93.

(** The binary digits of a byte, from the most significant: [j = 7 - k]. *)
Definition put_bit (b : Z) (k : Z) (s : list Z * Z) : outcome (list Z * Z) :=
  putc (if Z.land (Z.shiftl 1 (7 - k)) b =? 0 then 48 else 49) s.

(** One round of one of the four loops over the data, in round [k]: [i = k], or
    [i = len - 1 - k] with [CANLIB_VIEW_SWAP]. *)
Definition long_byte (cf : canfd_frame) (view len : Z) (k : Z) (s : list Z * Z)
    : outcome (list Z * Z) :=
  let i := if wants view CANLIB_VIEW_SWAP then len - 1 - k else k in
  s1 ← putc (if wants view CANLIB_VIEW_SWAP && negb (i =? len - 1) then SWAP_DELIMITER else 32) s;
  b ← vget (cf_data cf) i;
  if wants view CANLIB_VIEW_BINARY then for_loop 8 0 (put_bit b) s1 else puthex b s1.

(** One round of one of the two loops that write the data as characters. *)
Definition long_char (cf : canfd_frame) (view len : Z) (k : Z) (s : list Z * Z)
    : outcome (list Z * Z) :=
  let i := if wants view CANLIB_VIEW_SWAP then len - 1 - k else k in
  b ← vget (cf_data cf) i;
  putc (if (0x1F <? b) && (b <? 0x7F) then b else 46) s.

Definition quote (view : Z) : list Z := if wants view CANLIB_VIEW_SWAP then chars "`" else chars "'".

(** [dlen]: the characters that a byte takes. *)
Definition data_width (view : Z) : Z := if wants view CANLIB_VIEW_BINARY then 9 else 3.

(** What follows the data: the mark of an error frame, or the characters. *)
Definition long_tail (buf : list Z) (offset : Z) (cf : canfd_frame) (view len dlen : Z)
    : outcome (list Z) :=
  if CAN_MAX_DLEN <? len then Ret buf
  else if has cf CAN_ERR_FLAG then
    sprintf buf offset (pad (dlen * (8 - len) + 13) (chars "ERRORFRAME"))
  else if wants view CANLIB_VIEW_ASCII then
    let j := dlen * (8 - len) + 4 in
    buf1 ← sprintf buf offset (pad j (quote view));
    s ← for_loop (Z.to_nat len) 0 (long_char cf view len) (buf1, offset + j);
    sprintf s.1 s.2 (quote view)
  else Ret buf.

(** [memset(buf, ' ', 15)]. *)
Definition blank (buf : list Z) : outcome (list Z) :=
  if 15 <=? zlen buf then Ret (replicate 15 32 ++ drop 15 buf) else Undef OutOfBounds.

Definition sprint_long_canframe (buf : list Z) (cf : canfd_frame) (view maxdlen : Z)
    : outcome (list Z) :=
  let len := shown cf maxdlen in
  buf0 ← blank buf;
  s ← long_id buf0 cf view;
  buf1 ← long_len s.1 s.2 len maxdlen;
  if (maxdlen =? CAN_MAX_DLEN) && has cf CAN_RTR_FLAG then
    sprintf buf1 (s.2 + 5) (chars " remote request")
  else
    s1 ← for_loop (Z.to_nat len) 0 (long_byte cf view len) (buf1, s.2 + 5);
    buf2 ← vset s1.1 s1.2 0;
    long_tail buf2 s1.2 cf view len (data_width view).

Definition CL_BINDATA : Z := zlen (chars ".10101010") + 1.
Definition CL_LONGCFSZ : Z := 2 * CL_ID + (zlen (chars "   [255]  ") + 1) + 64 * CL_BINDATA.

(** ** Error frames *)

Definition CAN_ERR_LOSTARB : Z := 0x2.
Definition CAN_ERR_CRTL : Z := 0x4.
Definition CAN_ERR_PROT : Z := 0x8.

Definition error_classes : list (list Z) := chars <$> [
  "tx-timeout";
  "lost-arbitration";
  "controller-problem";
  "protocol-violation";
  "transceiver-status";
  "no-acknowledgement-on-tx";
  "bus-off";
  "bus-error";
  "restarted-after-bus-off"]%string.

Definition controller_problems : list (list Z) := chars <$> [
  "rx-overflow";
  "tx-overflow";
  "rx-error-warning";
  "tx-error-warning";
  "rx-error-passive";
  "tx-error-passive";
  "back-to-error-active"]%string.

Definition protocol_violation_types : list (list Z) := chars <$> [
  "single-bit-error";
  "frame-format-error";
  "bit-stuffing-error";
  "tx-dominant-bit-error";
  "tx-recessive-bit-error";
  "bus-overload";
  "active-error";
  "error-on-tx"]%string.

Definition protocol_violation_locations : list (list Z) := chars <$> [
  "unspecified";
  "unspecified";
  "id.28-to-id.21";
  "start-of-frame";
  "bit-srtr";
  "bit-ide";
  "id.20-to-id.18";
  "id.17-to-id.13";
  "crc-sequence";
  "reserved-bit-0";
  "data-field";
  "data-length-code";
  "bit-rtr";
  "reserved-bit-1";
  "id.4-to-id.0";
  "id.12-to-id.5";
  "unspecified";
  "active-error-flag";
  "intermission";
  "tolerate-dominant-bits";
  "unspecified";
  "unspecified";
  "passive-error-flag";
  "error-delimiter";
  "crc-delimiter";
  "acknowledge-slot";
  "end-of-frame";
  "acknowledge-delimiter";
  "overload-flag";
  "unspecified";
  "unspecified";
  "unspecified"]%string.

(** [n += snprintf(buf + n, len - n, text)] for a pointer [buf] at [base]; the
    difference is one of [size_t]. *)
Definition appendf (base len : Z) (text : list Z) (s : list Z * Z) : outcome (list Z * Z) :=
  r ← snprintf s.1 (base + s.2) ((len - s.2) mod size_max) text;
  n ← int_op (s.2 + r.2);
  Ret (r.1, n).

(** [n += f(buf + n, len - n, ...)] for a function of the file. *)
Definition append_call (f : list Z -> Z -> Z -> outcome (list Z * Z)) (base len : Z) (s : list Z * Z)
    : outcome (list Z * Z) :=
  r ← f s.1 (base + s.2) ((len - s.2) mod size_max);
  n ← int_op (s.2 + r.2);
  Ret (r.1, n).

(** One round of [snprintf_error_data]; the state is the buffer with [n], and
    [count]. *)
Definition error_item (base len err : Z) (arr : list (list Z)) (i : Z) (s : list Z * Z * Z)
    : outcome (list Z * Z * Z) :=
  if Z.land err (Z.shiftl 1 i) =? 0 then Ret s
  else
    s1 ← (if s.2 =? 0 then Ret s.1 else appendf base len (chars ",") s.1);
    name ← vget arr i;
    s2 ← appendf base len name s1;
    Ret (s2, s.2 + 1).

Definition snprintf_error_data (err : Z) (arr : list (list Z)) (buf : list Z) (base len : Z)
    : outcome (list Z * Z) :=
  if (err =? 0) || (len <=? 0) then Ret (buf, 0)
  else
    s ← for_loop (length arr) 0 (error_item base len err arr) (buf, 0, 0);
    Ret s.1.

Definition snprintf_error_lostarb (cf : canfd_frame) (buf : list Z) (base len : Z)
    : outcome (list Z * Z) :=
  if len <=? 0 then Ret (buf, 0)
  else
    b ← vget (cf_data cf) 0;
    snprintf buf base len (chars "{at bit " ++ decimal b ++ chars "}").

Definition snprintf_error_ctrl (cf : canfd_frame) (buf : list Z) (base len : Z)
    : outcome (list Z * Z) :=
  if len <=? 0 then Ret (buf, 0)
  else
    s1 ← appendf base len (chars "{") (buf, 0);
    b ← vget (cf_data cf) 1;
    s2 ← append_call (snprintf_error_data b controller_problems) base len s1;
    appendf base len (chars "}") s2.

Definition snprintf_error_prot (cf : canfd_frame) (buf : list Z) (base len : Z)
    : outcome (list Z * Z) :=
  if len <=? 0 then Ret (buf, 0)
  else
    s1 ← appendf base len (chars "{{") (buf, 0);
    b ← vget (cf_data cf) 2;
    s2 ← append_call (snprintf_error_data b protocol_violation_types) base len s1;
    s3 ← appendf base len (chars "}{") s2;
    d ← vget (cf_data cf) 3;
    s4 ← (if (0 <? d) && (d <? zlen protocol_violation_locations) then
            name ← vget protocol_violation_locations d; appendf base len name s3
          else Ret s3);
    appendf base len (chars "}}") s4.

(** One round of the loop over the classes; the state is the buffer with [n],
    and [classes]. *)
Definition error_class (cf : canfd_frame) (class len : Z) (sep : list Z) (i : Z) (s : list Z * Z * Z)
    : outcome (list Z * Z * Z) :=
  let mask := Z.shiftl 1 i in
  if Z.land class mask =? 0 then Ret s
  else
    s1 ← (if s.2 =? 0 then Ret s.1 else appendf 0 len sep s.1);
    name ← vget error_classes i;
    s2 ← appendf 0 len name s1;
    s3 ← (if mask =? CAN_ERR_LOSTARB then append_call (snprintf_error_lostarb cf) 0 len s2 else Ret s2);
    s4 ← (if mask =? CAN_ERR_CRTL then append_call (snprintf_error_ctrl cf) 0 len s3 else Ret s3);
    s5 ← (if mask =? CAN_ERR_PROT then append_call (snprintf_error_prot cf) 0 len s4 else Ret s4);
    Ret (s5, s.2 + 1).

(** The buffer, and the class that is reported on the error stream as invalid. *)
Definition snprintf_can_error_frame (buf : list Z) (len : Z) (cf : canfd_frame) (sep : option (list Z))
    : outcome (list Z * option Z) :=
  if negb (has cf CAN_ERR_FLAG) then Ret (buf, None)
  else
    let class := Z.land (can_id cf) CAN_EFF_MASK in
    if Z.shiftl 1 (zlen error_classes) <? class then Ret (buf, Some class)
    else
      let sep := match sep with Some sep => sep | None => chars "," end in
      s ← for_loop (length error_classes) 0 (error_class cf class len sep) (buf, 0, 0);
      tx ← vget (cf_data cf) 6;
      rx ← vget (cf_data cf) 7;
      if (tx =? 0) && (rx =? 0) then Ret (s.1.1, None)
      else
        s1 ← appendf 0 len sep s.1;
        s2 ← appendf 0 len (chars "error-counter-tx-rx{{" ++ decimal tx ++ chars "}{" ++ decimal rx ++ chars "}}") s1;
        Ret (s2.1, None).

(** The text appended to the stream; [buf] is the content of the local array. *)
Definition fprint_long_canframe (buf : list Z) (cf : canfd_frame) (eol : option (list Z)) (view maxdlen : Z)
    : outcome (list Z) :=
  buf1 ← sprint_long_canframe buf cf view maxdlen;
  s ← c_string buf1;
  e ← (if wants view CANLIB_VIEW_ERROR && has cf CAN_ERR_FLAG then
         r ← snprintf_can_error_frame buf1 (zlen buf1) cf (Some [10; 9]);
         t ← c_string r.1;
         Ret ([10; 9] ++ t)
       else Ret []);
  Ret (s ++ e ++ match eol with Some e => e | None => [] end).

(** ** The readable form of a frame *)

(** A loop that appends a text for each element of a list. *)
Lemma for_loop_holds {A} n (f : nat -> A -> list Z) body (l : list A) pre s :
  (forall k a t u, l !! k = Some a -> holds n t u -> (length t + length (f k a) < n)%nat ->
     returns (body (Z.of_nat k) u) (holds n (t ++ f k a))) ->
  holds n pre s -> (length pre + length (concat (imap f l)) < n)%nat ->
  returns (for_loop (length l) 0 body s) (holds n (pre ++ concat (imap f l))).
Proof.
  intros Hbody Hs Hn.
  assert (forall k, (k < length l)%nat -> concat (take (S k) (imap f l)) =
    concat (take k (imap f l)) ++ match l !! k with Some a => f k a | None => [] end) as Hsnoc.
  { intros k Hk. destruct (lookup_lt_is_Some_2 l k Hk) as [a Ha]. rewrite Ha.
    rewrite (take_S_r _ _ (f k a)) by (by rewrite list_lookup_imap, Ha). rewrite concat_app. simpl.
    by rewrite app_nil_r. }
  eapply returns_mono; [apply (for_loop_inv (fun i => holds n (pre ++ concat (take (Z.to_nat i) (imap f l)))))|].
  - simpl. by rewrite app_nil_r.
  - intros i t Hi Ht. destruct (lookup_lt_is_Some_2 l (Z.to_nat i)) as [a Ha]; [lia|].
    replace (Z.to_nat (i + 1)) with (S (Z.to_nat i)) by lia.
    assert (length (concat (take (S (Z.to_nat i)) (imap f l))) <= length (concat (imap f l)))%nat as Hle.
    { rewrite <- (take_drop (S (Z.to_nat i)) (imap f l)) at 2. rewrite concat_app, length_app. lia. }
    revert Hle. rewrite Hsnoc, Ha, app_assoc by lia. rewrite length_app. intros Hle.
    replace i with (Z.of_nat (Z.to_nat i)) at 1 by lia.
    apply Hbody; [done|done|]. rewrite length_app. lia.
  - intros t. rewrite Z.add_0_l, Nat2Z.id, take_ge by (rewrite length_imap; lia). done.
Qed.

Lemma put_text_holds n text s pre :
  holds n pre s -> (length pre + length text <= n)%nat ->
  returns (put_text s.1 s.2 text) (fun buf => holds n (pre ++ text) (buf, s.2 + zlen text)).
Proof.
  revert pre s. induction text as [|c text IH]; intros pre s Hs Hn; simpl.
  - apply returns_ret. rewrite app_nil_r. destruct s. simpl. change (zlen []) with 0. by rewrite Z.add_0_r.
  - simpl in Hn. destruct (putc_holds n pre c s Hs ltac:(lia)) as (t & E & Ht).
    unfold putc in E. destruct (vset s.1 s.2 c) as [b| | |] eqn:Ev; try done. simpl in E.
    injection E as <-. simpl. rewrite (cons_middle c pre), app_assoc.
    replace (s.2 + zlen (c :: text)) with ((b, s.2 + 1).2 + zlen text) by (simpl; len).
    apply (IH (pre ++ [c]) (b, s.2 + 1)); [done|]. rewrite length_app. simpl. lia.
Qed.

(** [sprintf] at the offset: the text, terminated; the offset stays. *)
Lemma sprintf_holds n pre text s :
  holds n pre s -> (length pre + length text < n)%nat ->
  returns (sprintf s.1 s.2 text) (fun buf => exists rest,
    buf = pre ++ text ++ 0 :: rest /\ length buf = n).
Proof.
  intros Hs Hn. unfold sprintf. eapply returns_bind; [apply put_text_holds; [done|lia]|].
  intros buf Hbuf. destruct (terminate_holds n (pre ++ text) _ Hbuf) as (b & E & rest & -> & Hl);
    [rewrite length_app; lia|]. simpl in E. rewrite E. apply returns_ret. exists rest.
  split; [by rewrite <- app_assoc|done].
Qed.

(** The offset behind a text that is already in the buffer. *)
Lemma holds_intro n text rest : length (text ++ rest) = n -> holds n text (text ++ rest, zlen text).
Proof. intros H. by exists rest. Qed.

Definition bit_text (b : Z) : list Z :=
  (fun j => if Z.testbit b j then 49 else 48) <$> [7; 6; 5; 4; 3; 2; 1; 0].

Definition long_bytes (cf : canfd_frame) (view maxdlen : Z) : list Z :=
  if wants view CANLIB_VIEW_SWAP then reverse (shown_data cf maxdlen) else shown_data cf maxdlen.

(** A byte of the data, behind its delimiter. *)
Definition byte_text (view : Z) (k : nat) (b : Z) : list Z :=
  (if wants view CANLIB_VIEW_SWAP && negb (k =? 0)%nat then SWAP_DELIMITER else 32) ::
  (if wants view CANLIB_VIEW_BINARY then bit_text b else hex2 b).

Definition char_text (b : Z) : Z := if (0x1F <? b) && (b <? 0x7F) then b else 46.

(** The identifier and the length. *)
Definition long_id_text (cf : canfd_frame) (view : Z) : list Z :=
  if has cf CAN_ERR_FLAG then
    hexdigits 8 (Z.land (can_id cf) (Z.lor CAN_ERR_MASK CAN_ERR_FLAG)) ++ chars "  "
  else if has cf CAN_EFF_FLAG then hexdigits 8 (Z.land (can_id cf) CAN_EFF_MASK) ++ chars "  "
  else (if wants view CANLIB_VIEW_INDENT_SFF then chars "     " else []) ++
    hexdigits 3 (Z.land (can_id cf) CAN_SFF_MASK) ++ chars "  ".

Definition long_len_text (len maxdlen : Z) : list Z :=
  (if maxdlen =? CAN_MAX_DLEN then chars " [" ++ [len + 48] ++ chars "]"
   else chars "[" ++ [Z.quot len 10 + 48; Z.rem len 10 + 48] ++ chars "]") ++ chars " ".

Definition long_tail_text (cf : canfd_frame) (view maxdlen : Z) : list Z :=
  let len := shown cf maxdlen in
  let dlen := data_width view in
  if CAN_MAX_DLEN <? len then []
  else if has cf CAN_ERR_FLAG then pad (dlen * (8 - len) + 13) (chars "ERRORFRAME")
  else if wants view CANLIB_VIEW_ASCII then
    pad (dlen * (8 - len) + 4) (quote view) ++ (char_text <$> long_bytes cf view maxdlen) ++ quote view
  else [].

Definition long_text (cf : canfd_frame) (view maxdlen : Z) : list Z :=
  long_id_text cf view ++ long_len_text (shown cf maxdlen) maxdlen ++
  (if remote cf maxdlen then chars " remote request"
   else concat (imap (byte_text view) (long_bytes cf view maxdlen)) ++ long_tail_text cf view maxdlen).

(** Writing into the first part of a buffer, and behind it. *)
Lemma vset_app_l (t r : list Z) i c :
  0 <= i < zlen t -> vset (t ++ r) i c = Ret (<[Z.to_nat i := c]> t ++ r).
Proof.
  intros Hi. rewrite vset_in_range by len. f_equal. apply insert_app_l. len.
Qed.

Lemma vset_app_r (t r : list Z) i c :
  0 <= i < zlen r -> vset (t ++ r) (zlen t + i) c = Ret (t ++ <[Z.to_nat i := c]> r).
Proof.
  intros Hi. rewrite vset_in_range by len. f_equal. rewrite insert_app_r_alt by len. do 2 f_equal. len.
Qed.

(** The blanks with the identifier. *)
Lemma long_id_ok cf view r :
  exists b, long_id (replicate 15 32 ++ r) cf view = Ret (long_id_text cf view ++ replicate b 32 ++ r,
    zlen (long_id_text cf view)) /\ (5 <= b)%nat /\ (length (long_id_text cf view) + b = 15)%nat.
Proof.
  unfold long_id, long_id_text, put_eff_id, put_sff_id.
  destruct (has cf CAN_ERR_FLAG); [|destruct (has cf CAN_EFF_FLAG)]; [| |destruct (wants _ _)].
  - exists 5%nat. rewrite (put_id_text 8 _ 0) by (rewrite length_app; simpl; lia). bind_ret.
    split; [|done]. by rewrite <- app_assoc.
  - exists 5%nat. rewrite (put_id_text 8 _ 0) by (rewrite length_app; simpl; lia). bind_ret.
    split; [|done]. by rewrite <- app_assoc.
  - exists 5%nat. rewrite (put_id_text 3 _ 5) by (rewrite length_app; simpl; lia). bind_ret.
    split; [|done]. rewrite <- !app_assoc. done.
  - exists 10%nat. rewrite (put_id_text 3 _ 0) by (rewrite length_app; simpl; lia). bind_ret.
    split; [|split; [lia|done]]. rewrite <- !app_assoc. done.
Qed.

Lemma long_len_ok t b r len maxdlen :
  (5 <= b)%nat ->
  long_len (t ++ replicate b 32 ++ r) (zlen t) len maxdlen =
    Ret (t ++ long_len_text len maxdlen ++ replicate (b - 5) 32 ++ r).
Proof.
  intros Hb. do 5 (destruct b as [|b]; [lia|]). simpl replicate. cbn [app Nat.sub]. rewrite Nat.sub_0_r.
  unfold long_len, long_len_text. destruct (maxdlen =? CAN_MAX_DLEN).
  - rewrite !vset_app_r by len. bind_ret. rewrite !vset_app_r by len. bind_ret.
    rewrite !vset_app_r by len. done.
  - replace (zlen t) with (zlen t + 0) at 1 by lia. rewrite !vset_app_r by len. bind_ret.
    rewrite !vset_app_r by len. bind_ret. rewrite !vset_app_r by len. bind_ret.
    rewrite !vset_app_r by len. done.
Qed.

(** A mask of one bit. *)
Lemma land_bit b j : 0 <= j -> (Z.land b (Z.shiftl 1 j) =? 0) = negb (Z.testbit b j).
Proof.
  intros Hj. rewrite Z.shiftl_1_l. destruct (Z.eqb_spec (Z.land b (2 ^ j)) 0) as [E|E].
  - apply (f_equal (fun z => Z.testbit z j)) in E.
    rewrite Z.land_spec, Z.pow2_bits_true, andb_true_r, Z.bits_0 in E by done. by rewrite E.
  - destruct (Z.testbit b j) eqn:Et; [done|]. exfalso. apply E, Z.bits_inj_0. intros n.
    rewrite Z.land_spec, Z.pow2_bits_eqb by done. destruct (Z.eqb_spec j n) as [->|]; [by rewrite Et|].
    apply andb_false_r.
Qed.

(** The bits of a byte. *)
Lemma put_bits_holds n b t s :
  byte_ok b -> holds n t s -> (length t + 8 < n)%nat ->
  returns (for_loop 8 0 (put_bit b) s) (holds n (t ++ bit_text b)).
Proof.
  intros Hb Hs Hn. replace (bit_text b) with (concat (imap (fun _ j => [if Z.testbit b j then 49 else 48])
    [7; 6; 5; 4; 3; 2; 1; 0])) by done.
  apply (for_loop_holds n (fun _ j => [if Z.testbit b j then 49 else 48]) _ [7; 6; 5; 4; 3; 2; 1; 0]);
    [|done|simpl; lia].
  intros k j u v Hk Hu Hl. simpl in Hl. unfold put_bit.
  assert (Z.of_nat k = 7 - j /\ 0 <= j < 8) as [-> Hj].
  { do 8 (destruct k as [|k]; [injection Hk as <-; lia|]). by destruct k. }
  replace (7 - (7 - j)) with j by lia.
  rewrite Z.land_comm, land_bit by lia.
  destruct (Z.testbit b j); apply putc_holds; (done || lia).
Qed.

Lemma concat_imap_length {A} (f : nat -> A -> list Z) d l :
  (forall k a, length (f k a) = d) -> length (concat (imap f l)) = (d * length l)%nat.
Proof.
  revert f. induction l as [|a l IH]; intros f Hf; [simpl; lia|].
  rewrite imap_cons. simpl concat. rewrite length_app, Hf, (IH (f ∘ S)) by (intros; apply Hf).
  simpl. lia.
Qed.

Section LongForm.
Context (cf : canfd_frame) (view maxdlen : Z).
Context (Hcf : frame_ok cf) (Hmax : maxdlen = CAN_MAX_DLEN \/ maxdlen = CANFD_MAX_DLEN).

Let len := shown cf maxdlen.

Lemma long_len_range : 0 <= len <= 64.
Proof.
  destruct Hcf as (_ & Hl & _). pose proof (shown_range cf maxdlen Hl) as H.
  unfold CAN_MAX_DLEN, CANFD_MAX_DLEN in *. unfold len. lia.
Qed.

Lemma long_bytes_length : length (long_bytes cf view maxdlen) = Z.to_nat len.
Proof.
  pose proof long_len_range as H. destruct Hcf as (_ & _ & _ & Hd & _).
  assert (length (shown_data cf maxdlen) = Z.to_nat len) as E
    by (unfold shown_data; rewrite length_take; unfold len in *; lia).
  unfold long_bytes. destruct (wants _ _); [by rewrite length_reverse|done].
Qed.

(** The byte of a round. *)
Lemma long_bytes_lookup k b :
  long_bytes cf view maxdlen !! k = Some b ->
  vget (cf_data cf) (if wants view CANLIB_VIEW_SWAP then len - 1 - Z.of_nat k else Z.of_nat k) = Ret b /\
  byte_ok b /\ Z.of_nat k < len.
Proof.
  intros Hk. pose proof (lookup_lt_Some _ _ _ Hk) as Hlt. rewrite long_bytes_length in Hlt.
  pose proof long_bytes_length as El. pose proof long_len_range as Hr. destruct Hcf as (_ & _ & _ & Hd & Hb).
  assert (forall i, shown_data cf maxdlen !! i = Some b -> vget (cf_data cf) (Z.of_nat i) = Ret b /\ byte_ok b) as Hs.
  { intros i Hi. apply lookup_take_Some in Hi as [Hi _]. split; [by apply vget_nat|].
    by apply (Forall_lookup_1 _ _ _ _ Hb Hi). }
  unfold long_bytes in Hk, El. destruct (wants view CANLIB_VIEW_SWAP).
  - rewrite length_reverse in El. rewrite reverse_lookup in Hk by lia. apply Hs in Hk as [Hv Hk].
    split; [|split; [done|lia]]. rewrite <- Hv. f_equal. lia.
  - apply Hs in Hk as [Hv Hk]. split; [done|]. split; [done|lia].
Qed.

Lemma byte_text_length k b : length (byte_text view k b) = Z.to_nat (data_width view).
Proof. unfold byte_text, data_width. destruct (wants view CANLIB_VIEW_BINARY); done. Qed.

Lemma bytes_text_length :
  Z.of_nat (length (concat (imap (byte_text view) (long_bytes cf view maxdlen)))) = data_width view * len.
Proof.
  pose proof long_len_range as Hr. rewrite (concat_imap_length _ (Z.to_nat (data_width view))) by apply byte_text_length.
  rewrite long_bytes_length. unfold data_width. destruct (wants _ _); lia.
Qed.

(** The loops over the data. *)
Lemma long_bytes_holds n pre s :
  holds n pre s -> (length pre + Z.to_nat (data_width view * len) < n)%nat ->
  returns (for_loop (Z.to_nat len) 0 (long_byte cf view len) s)
    (holds n (pre ++ concat (imap (byte_text view) (long_bytes cf view maxdlen)))).
Proof.
  intros Hs Hn. pose proof bytes_text_length as Hl. rewrite <- long_bytes_length.
  apply for_loop_holds; [|done|lia]. intros k b t u Hk Hu Ht.
  apply long_bytes_lookup in Hk as (Hv & Hb & Hlt). rewrite byte_text_length in Ht. unfold long_byte, byte_text.
  replace (wants view CANLIB_VIEW_SWAP && negb _) with (wants view CANLIB_VIEW_SWAP && negb (k =? 0)%nat).
  2: { destruct (wants view CANLIB_VIEW_SWAP); [|done]. simpl. f_equal.
       destruct (Nat.eqb_spec k 0), (Z.eqb_spec (len - 1 - Z.of_nat k) (len - 1)); (done || lia). }
  unfold data_width in Ht. eapply returns_bind; [apply putc_holds; [done|destruct (wants _ CANLIB_VIEW_BINARY); lia]|].
  intros u1 Hu1. rewrite Hv. bind_ret. rewrite (cons_middle _ t), app_assoc.
  destruct (wants view CANLIB_VIEW_BINARY).
  - apply put_bits_holds; [done|done|]. rewrite length_app. simpl. lia.
  - apply puthex_holds; [done|done|]. rewrite length_app. simpl. lia.
Qed.

Lemma long_chars_holds n pre s :
  holds n pre s -> (length pre + Z.to_nat len < n)%nat ->
  returns (for_loop (Z.to_nat len) 0 (long_char cf view len) s)
    (holds n (pre ++ (char_text <$> long_bytes cf view maxdlen))).
Proof.
  intros Hs Hn. replace (char_text <$> long_bytes cf view maxdlen) with
    (concat (imap (fun _ b => [char_text b]) (long_bytes cf view maxdlen))).
  2: { generalize (long_bytes cf view maxdlen). intros l. induction l as [|b l IH]; [done|].
       rewrite imap_cons. csimpl. by rewrite <- IH. }
  rewrite <- long_bytes_length. apply for_loop_holds; [|done|].
  - intros k b t u Hk Hu Ht. apply long_bytes_lookup in Hk as (Hv & Hb & Hlt). simpl in Ht.
    unfold long_char. rewrite Hv. bind_ret. apply putc_holds; [done|lia].
  - rewrite (concat_imap_length _ 1), long_bytes_length by done. lia.
Qed.

Lemma pad_length w t : zlen t <= w -> zlen (pad w t) = w.
Proof. intros H. unfold pad. unfold zlen in *. rewrite length_app, length_replicate. lia. Qed.

(** What follows the data. *)
Lemma long_tail_ok n pre rest :
  length (pre ++ 0 :: rest) = n -> CAN_MAX_DLEN < len \/ (length pre + 110 < n)%nat ->
  returns (long_tail (pre ++ 0 :: rest) (zlen pre) cf view len (data_width view)) (fun buf => exists rest',
    buf = pre ++ long_tail_text cf view maxdlen ++ 0 :: rest' /\ length buf = n).
Proof.
  intros Hl Hn. pose proof long_len_range as Hr. unfold long_tail, long_tail_text. fold len.
  assert (0 <= data_width view <= 9) as Hd by (unfold data_width; destruct (wants _ _); lia).
  pose proof (holds_intro n pre (0 :: rest) Hl) as Hh.
  destruct (Z.ltb_spec CAN_MAX_DLEN len) as [|Hle]; [apply returns_ret; by exists rest|].
  destruct Hn as [?|Hn]; [lia|]. unfold CAN_MAX_DLEN in Hle. destruct (has cf CAN_ERR_FLAG); [|destruct (wants view CANLIB_VIEW_ASCII)].
  - apply (sprintf_holds n pre _ (_, _) Hh). pose proof (pad_length (data_width view * (8 - len) + 13) (chars "ERRORFRAME")) as Hp.
    specialize (Hp ltac:(change (zlen _) with 10; nia)). unfold zlen in Hp. nia.
  - assert (zlen (quote view) = 1) as Hq by (unfold quote; by destruct (wants _ _)).
    pose proof (pad_length (data_width view * (8 - len) + 4) (quote view)) as Hp. specialize (Hp ltac:(nia)).
    set (P := pad _ (quote view)) in *. set (j := data_width view * (8 - len) + 4) in *.
    eapply returns_bind; [apply (sprintf_holds n pre P (_, _) Hh); unfold zlen in Hp; nia|].
    intros buf1 (r1 & -> & H1). rewrite app_assoc in H1 |- *. replace (zlen pre + j) with (zlen (pre ++ P)) by len.
    eapply returns_bind; [apply (long_chars_holds n); [by apply holds_intro|rewrite length_app; unfold zlen in Hp; nia]|].
    intros s Hs. destruct (sprintf_holds n _ (quote view) s Hs) as (b & -> & r2 & -> & H2).
    { rewrite !length_app, length_fmap, long_bytes_length. unfold zlen in Hp, Hq. nia. }
    apply returns_ret. exists r2. split; [|done]. by rewrite <- !app_assoc.
  - apply returns_ret. by exists rest.
Qed.

Lemma sprint_long_text buf :
  CL_LONGCFSZ <= zlen buf ->
  returns (sprint_long_canframe buf cf view maxdlen) (fun b => exists rest,
    b = long_text cf view maxdlen ++ 0 :: rest /\ length b = length buf).
Proof.
  intros Hbuf. replace CL_LONGCFSZ with 675 in Hbuf by reflexivity. pose proof long_len_range as Hr.
  unfold sprint_long_canframe, blank. rewrite (proj2 (Z.leb_le _ _)) by lia. bind_ret. fold len.
  destruct (long_id_ok cf view (drop 15 buf)) as (b & -> & Hb & Hlen). bind_ret. cbn [fst snd].
  rewrite long_len_ok by done. bind_ret. unfold long_text, remote. fold len.
  set (h := long_id_text cf view) in *. set (t := long_len_text len maxdlen).
  assert (length t = 5)%nat as Ht by (unfold t, long_len_text; by destruct (_ =? _)).
  replace (zlen h + 5) with (zlen (h ++ t)) by len. rewrite !(app_assoc h t).
  set (r := replicate (b - 5) 32 ++ drop 15 buf).
  assert (length ((h ++ t) ++ r) = length buf) as Hl
    by (unfold r; rewrite !length_app, length_replicate, length_drop; unfold zlen in Hbuf; lia).
  pose proof (holds_intro _ (h ++ t) r Hl) as Hh.
  assert (length (h ++ t) <= 15)%nat as H15 by (rewrite length_app; lia).
  assert (675 <= length buf)%nat as Hb' by (unfold zlen in Hbuf; lia).
  destruct (_ && has cf CAN_RTR_FLAG).
  - eapply returns_mono; [apply (sprintf_holds _ _ _ (_, _) Hh); simpl; lia|].
    intros b' (r' & -> & H'). exists r'. split; [by rewrite <- !app_assoc|done].
  - assert (data_width view * len <= 576) by (unfold data_width; destruct (wants _ _); lia).
    eapply returns_bind; [apply (long_bytes_holds _ _ _ Hh); lia|]. intros s Hs.
    pose proof bytes_text_length as Hbl. set (T := concat _) in *.
    destruct Hs as (r1 & -> & Hl1). destruct r1 as [|x r1].
    { rewrite app_nil_r, length_app in Hl1. nia. }
    cbn [fst snd]. rewrite vset_app. bind_ret. eapply returns_mono; [apply (long_tail_ok (length buf))|].
    + rewrite <- Hl1, !length_app. done.
    + destruct (Z.ltb_spec CAN_MAX_DLEN len) as [|Hle]; [by left|right]. unfold CAN_MAX_DLEN in Hle.
      assert (data_width view * len <= 72) by (unfold data_width; destruct (wants _ _); lia).
      rewrite length_app. lia.
    + intros b' (r' & -> & H'). exists r'. split; [by rewrite <- !app_assoc|done].
Qed.
End LongForm.

(** ** The text of an error frame *)

(** Appended output: behind [pre] the buffer holds [text], terminated; as long
    as nothing was written it is [buf0]. *)
Definition prints (buf0 pre text : list Z) (s : list Z * Z) : Prop :=
  exists rest, s = (pre ++ text ++ rest, zlen text) /\ length (pre ++ text ++ rest) = length buf0 /\
    (pre ++ text = [] /\ rest = buf0 \/ pre ++ text <> [] /\ exists r, rest = 0 :: r).

Lemma prints_start buf : prints buf [] [] (buf, 0).
Proof. exists buf. split; [done|]. split; [done|]. by left. Qed.

(** The same state, seen by a function that is called with [buf + n]. *)
Lemma prints_shift buf0 pre text s : prints buf0 pre text s -> prints buf0 (pre ++ text) [] (s.1, 0).
Proof.
  intros (rest & -> & Hl & Hr). exists rest. simpl. rewrite app_nil_r, <- app_assoc. done.
Qed.

Lemma snprintf_prints buf0 pre text t s size :
  prints buf0 pre text s -> zlen t < size -> zlen pre + zlen text + size <= zlen buf0 -> pre ++ text ++ t <> [] ->
  returns (snprintf s.1 (zlen pre + s.2) size t) (fun r => r.2 = zlen t /\ exists rest,
    r.1 = pre ++ text ++ t ++ 0 :: rest /\ length r.1 = length buf0).
Proof.
  intros (rest & -> & Hl & Hr) Ht Hsize Hne. pose proof (zlen_nonneg t). unfold snprintf.
  destruct (Z.eqb_spec size 0); [lia|]. rewrite (proj2 (Z.ltb_lt _ _)) by done. cbn [fst snd].
  destruct (sprintf_holds (length buf0) (pre ++ text) t ((pre ++ text) ++ rest, zlen (pre ++ text)))
    as (b & E & r & -> & Hb); [apply holds_intro; by rewrite <- app_assoc|len|].
  simpl in E. replace (zlen pre + zlen text) with (zlen (pre ++ text)) by len.
  rewrite app_assoc, E. bind_ret. apply returns_ret. split; [done|]. exists r.
  simpl. by rewrite <- app_assoc in Hb |- *.
Qed.

Section Append.
Context (buf0 pre : list Z) (len : Z).
Context (Hfit : zlen pre + len <= zlen buf0) (Hint : len <= int_max).

Lemma appendf_prints text t s :
  prints buf0 pre text s -> zlen text + zlen t < len -> pre ++ text ++ t <> [] ->
  returns (appendf (zlen pre) len t s) (prints buf0 pre (text ++ t)).
Proof.
  intros Hs Hlt Hne. pose proof (zlen_nonneg t). pose proof (zlen_nonneg text). unfold appendf.
  assert (s.2 = zlen text) as E2 by (by destruct Hs as (rest & -> & _)).
  rewrite Z.mod_small by (unfold size_max, int_max in *; lia).
  destruct (snprintf_prints buf0 pre text t s (len - s.2) Hs) as ([b n] & -> & En & rest & E & Hl);
    [lia|lia|done|]. bind_ret. cbn [fst snd] in *. rewrite En, E2.
  rewrite int_op_in by (unfold int_min; lia). bind_ret. apply returns_ret. exists (0 :: rest).
  rewrite E in *. rewrite <- !app_assoc. split; [f_equal; len|]. split; [done|].
  right. split; [done|by exists rest].
Qed.

Lemma append_call_prints f text t s :
  prints buf0 pre text s -> zlen text + zlen t < len -> pre ++ text <> [] ->
  returns (f s.1 (zlen (pre ++ text)) (len - zlen text)) (prints buf0 (pre ++ text) t) ->
  returns (append_call f (zlen pre) len s) (prints buf0 pre (text ++ t)).
Proof.
  intros Hs Hlt Hne (r & E & rest & -> & Hl & Hr). pose proof (zlen_nonneg t). pose proof (zlen_nonneg text).
  assert (s.2 = zlen text) as E2 by (by destruct Hs as (? & -> & _)).
  unfold append_call. rewrite E2. replace (zlen pre + zlen text) with (zlen (pre ++ text)) by len.
  rewrite Z.mod_small by (unfold size_max, int_max in *; lia). rewrite E. bind_ret. cbn [fst snd].
  rewrite int_op_in by (unfold int_min; lia). bind_ret. apply returns_ret. exists rest.
  rewrite <- !app_assoc in *. split; [f_equal; len|]. split; [done|].
  destruct Hr as [[Hr _]|Hr]; [by destruct pre, text|by right].
Qed.
End Append.

(** The elements whose bits are set, and the elements with a separator between
    them. *)
Definition pick {A} (bits : Z) (l : list A) : list A :=
  omap id (imap (fun i a => if Z.testbit bits (Z.of_nat i) then Some a else None) l).

Fixpoint join (sep : list Z) (l : list (list Z)) : list Z :=
  match l with
  | [] => []
  | [a] => a
  | a :: l => a ++ sep ++ join sep l
  end.

Lemma pick_snoc {A} bits (l : list A) a :
  pick bits (l ++ [a]) = pick bits l ++ (if Z.testbit bits (zlen l) then [a] else []).
Proof.
  unfold pick. rewrite imap_app, omap_app. f_equal. simpl. rewrite Nat.add_0_r. fold (zlen l).
  by destruct (Z.testbit bits (zlen l)).
Qed.

Lemma join_snoc sep l a :
  join sep (l ++ [a]) = join sep l ++ (if (length l =? 0)%nat then [] else sep) ++ a.
Proof.
  induction l as [|b l IH]; [done|]. destruct l as [|c l]; [done|].
  change ((b :: c :: l) ++ [a]) with (b :: ((c :: l) ++ [a])).
  assert (forall l', l' <> [] -> join sep (b :: l') = b ++ sep ++ join sep l') as Hj by (by intros [|]).
  rewrite (Hj ((c :: l) ++ [a])), (Hj (c :: l)), IH by done. simpl. by rewrite <- !app_assoc.
Qed.

Lemma join_app_length sep l1 l2 : zlen (join sep l1) <= zlen (join sep (l1 ++ l2)).
Proof.
  revert l1. induction l2 as [|a l2 IH]; intros l1; [by rewrite app_nil_r|].
  rewrite cons_middle, app_assoc. etransitivity; [|apply IH]. rewrite join_snoc. len.
Qed.

Lemma pick_app_prefix {A} bits (l1 l2 : list A) : exists r, pick bits (l1 ++ l2) = pick bits l1 ++ r.
Proof.
  revert l1. induction l2 as [|a l2 IH]; intros l1; [exists []; by rewrite !app_nil_r|].
  rewrite cons_middle, app_assoc. destruct (IH (l1 ++ [a])) as [r ->]. rewrite pick_snoc, <- app_assoc. eauto.
Qed.

Lemma pick_Forall {A} (P : A -> Prop) bits l : Forall P l -> Forall P (pick bits l).
Proof.
  induction l as [|a l IH] using rev_ind; [constructor|]. intros [Hl Ha]%Forall_app. rewrite pick_snoc.
  apply Forall_app. split; [by apply IH|]. destruct (Z.testbit _ _); [done|constructor].
Qed.

Lemma join_nonempty sep l : Forall (fun a => a <> []) l -> l <> [] -> join sep l <> [].
Proof. intros Hl Hne. destruct Hl as [|a [|b l] Ha Hl]; [done|done|]. by destruct a. Qed.

(** The loop of [snprintf_error_data] and the one over the classes: each round
    appends a text if its bit is set. *)
Section Items.
Context (buf0 pre sep : list Z) (bits len : Z) (items : list (list Z)).
Context (body : Z -> list Z * Z * Z -> outcome (list Z * Z * Z)).

Let text (k : nat) := join sep (pick bits (take k items)).

Context (Hbody : forall k a st c,
  items !! k = Some a -> prints buf0 pre (text k) st -> c = zlen (pick bits (take k items)) ->
  (Z.testbit bits (Z.of_nat k) = true -> zlen (text k ++ (if c =? 0 then [] else sep) ++ a) < len) ->
  returns (body (Z.of_nat k) (st, c)) (fun r =>
    if Z.testbit bits (Z.of_nat k)
    then prints buf0 pre (text k ++ (if c =? 0 then [] else sep) ++ a) r.1 /\ r.2 = c + 1
    else r = (st, c))).

Lemma text_mono k : zlen (text k) <= zlen (join sep (pick bits items)).
Proof.
  unfold text. destruct (pick_app_prefix bits (take k items) (drop k items)) as [r E].
  rewrite take_drop in E. rewrite E. apply join_app_length.
Qed.

Lemma items_loop st :
  prints buf0 pre [] st -> zlen (join sep (pick bits items)) < len ->
  returns (for_loop (length items) 0 body (st, 0)) (fun r =>
    prints buf0 pre (join sep (pick bits items)) r.1).
Proof.
  intros Hst Hlen.
  eapply returns_mono; [apply (for_loop_inv (fun i r => prints buf0 pre (text (Z.to_nat i)) r.1 /\
    r.2 = zlen (pick bits (take (Z.to_nat i) items))))|].
  - done.
  - intros i [s c] Hi [Hs Hc]. cbn [fst snd] in *.
    destruct (lookup_lt_is_Some_2 items (Z.to_nat i)) as [a Ha]; [lia|].
    pose proof (text_mono (S (Z.to_nat i))) as Hm.
    replace (Z.to_nat (i + 1)) with (S (Z.to_nat i)) by lia.
    assert (zlen (take (Z.to_nat i) items) = i) as Hz by (unfold zlen; rewrite length_take; lia).
    assert ((length (pick bits (take (Z.to_nat i) items)) =? 0)%nat = (c =? 0)) as Hc0
      by (subst c; unfold zlen; by destruct (length (pick bits (take (Z.to_nat i) items)))).
    replace (text (S (Z.to_nat i))) with (text (Z.to_nat i) ++ (if Z.testbit bits i then
      (if c =? 0 then [] else sep) ++ a else [])) in *
      by (unfold text; rewrite (take_S_r _ _ _ Ha), pick_snoc, Hz; destruct (Z.testbit bits i);
          [by rewrite join_snoc, Hc0|by rewrite !app_nil_r]).
    rewrite (take_S_r _ _ _ Ha), pick_snoc, Hz.
    replace i with (Z.of_nat (Z.to_nat i)) at 1 by lia. eapply returns_mono; [apply (Hbody _ a s c Ha Hs Hc)|].
    + rewrite Z2Nat.id by lia. intros E. rewrite E in Hm. lia.
    + rewrite Z2Nat.id by lia. intros r. destruct (Z.testbit bits i).
      * intros [Hr ->]. split; [done|subst c; len].
      * intros ->. rewrite !app_nil_r. done.
  - intros r [Hr _]. revert Hr. unfold text. rewrite Z.add_0_l, Nat2Z.id, take_ge by lia. done.
Qed.
End Items.

Definition comma : list Z := chars ",".

Definition names_text (err : Z) (arr : list (list Z)) : list Z := join comma (pick err arr).

Lemma pick_0 {A} (l : list A) : pick 0 l = [].
Proof.
  induction l as [|a l IH] using rev_ind; [done|]. by rewrite pick_snoc, IH, Z.bits_0.
Qed.

(** One element of a list, with a separator if it is not the first. *)
Lemma append_item buf0 pre len sep text a s c :
  zlen pre + len <= zlen buf0 -> len <= int_max ->
  prints buf0 pre text s -> zlen (text ++ (if c =? 0 then [] else sep) ++ a) < len ->
  (c = 0 -> pre ++ a <> []) -> (c <> 0 -> pre ++ text <> []) ->
  returns (s1 ← (if c =? 0 then Ret s else appendf (zlen pre) len sep s); appendf (zlen pre) len a s1)
    (prints buf0 pre (text ++ (if c =? 0 then [] else sep) ++ a)).
Proof.
  intros Hfit Hint Hs Hlen Ha Hc. destruct (Z.eqb_spec c 0) as [->|Hne]; cbn [app].
  - bind_ret. apply appendf_prints; [done|done|done|revert Hlen; len|].
    specialize (Ha eq_refl). by destruct pre, text.
  - specialize (Hc Hne). apply (returns_bind _ _ (prints buf0 pre (text ++ sep))).
    + apply appendf_prints; [done|done|done|revert Hlen; len|]. by destruct pre, text.
    + intros s1 Hs1. rewrite app_assoc. apply appendf_prints; [done|done|done|revert Hlen; len|].
      by destruct pre, text.
Qed.

Lemma error_data_prints buf0 pre len err arr s :
  zlen pre + len <= zlen buf0 -> len <= int_max -> pre <> [] -> 
  prints buf0 pre [] s -> zlen (names_text err arr) < len ->
  returns (snprintf_error_data err arr s.1 (zlen pre) len) (prints buf0 pre (names_text err arr)).
Proof.
  intros Hfit Hint Hpre Hs Hlen. unfold snprintf_error_data, names_text in *.
  pose proof (zlen_nonneg (join comma (pick err arr))).
  assert ((s.1, 0) = s) as Es by (by destruct Hs as (r & -> & _)).
  destruct (Z.eqb_spec err 0) as [->|Hne]; [rewrite pick_0; cbn [orb]; rewrite Es; by apply returns_ret|].
  rewrite (proj2 (Z.leb_gt _ _)) by lia. cbn [orb]. rewrite Es.
  eapply returns_bind; [apply (items_loop buf0 pre comma err len arr); [|done|done]|].
  - intros k a st c Ha Hst Hc Hroom. unfold error_item. rewrite land_bit by lia. cbn [fst snd].
    destruct (Z.testbit err (Z.of_nat k)); cbn [negb]; [|by apply returns_ret].
    pose proof (append_item buf0 pre len comma _ a st c Hfit Hint Hst (Hroom eq_refl)) as Hi.
    assert (vget arr (Z.of_nat k) = Ret a) as Hv by (by apply vget_nat).
    destruct Hi as (s2 & E & H2); [by destruct pre|by destruct pre|].
    apply bind_Ret in E as (s1 & E1 & E2). fold comma. rewrite E1. bind_ret. rewrite Hv. bind_ret. rewrite E2. bind_ret.
    by apply returns_ret.
  - intros r Hr. by apply returns_ret.
Qed.

(** What follows the names of three of the classes. *)
Definition lostarb_text (cf : canfd_frame) : list Z :=
  chars "{at bit " ++ decimal (nth 0 (cf_data cf) 0) ++ chars "}".
Definition ctrl_text (cf : canfd_frame) : list Z :=
  chars "{" ++ names_text (nth 1 (cf_data cf) 0) controller_problems ++ chars "}".
Definition location_text (d : Z) : list Z :=
  if (0 <? d) && (d <? zlen protocol_violation_locations)
  then nth (Z.to_nat d) protocol_violation_locations [] else [].
Definition prot_text (cf : canfd_frame) : list Z :=
  chars "{{" ++ names_text (nth 2 (cf_data cf) 0) protocol_violation_types ++ chars "}{" ++
  location_text (nth 3 (cf_data cf) 0) ++ chars "}}".

Definition detail_text (cf : canfd_frame) (i : nat) : list Z :=
  match i with
  | 1%nat => lostarb_text cf
  | 2%nat => ctrl_text cf
  | 3%nat => prot_text cf
  | _ => []
  end.

Definition class_text (cf : canfd_frame) (i : nat) (name : list Z) : list Z := name ++ detail_text cf i.

Definition counters_text (cf : canfd_frame) : list Z :=
  chars "error-counter-tx-rx{{" ++ decimal (nth 6 (cf_data cf) 0) ++ chars "}{" ++
  decimal (nth 7 (cf_data cf) 0) ++ chars "}}".

Definition error_text (cf : canfd_frame) (sep : list Z) : list Z :=
  join sep (pick (Z.land (can_id cf) CAN_EFF_MASK) (imap (class_text cf) error_classes)) ++
  (if (nth 6 (cf_data cf) 0 =? 0) && (nth 7 (cf_data cf) 0 =? 0) then [] else sep ++ counters_text cf).

Lemma data_nth cf i :
  frame_ok cf -> (i < 64)%nat ->
  vget (cf_data cf) (Z.of_nat i) = Ret (nth i (cf_data cf) 0) /\ byte_ok (nth i (cf_data cf) 0).
Proof.
  intros (_ & _ & _ & Hd & Hb) Hi. destruct (lookup_lt_is_Some_2 (cf_data cf) i) as [b E]; [lia|].
  rewrite (nth_lookup_Some _ _ _ b E). split; [by apply vget_nat|]. by apply (Forall_lookup_1 _ _ _ _ Hb E).
Qed.

(** Sizes of texts with literals. *)
Ltac text_len :=
  unfold zlen in *; rewrite ?length_app in *;
  repeat match goal with
    | |- context [length (chars ?s)] =>
        let n := eval vm_compute in (length (chars s)) in change (length (chars s)) with n
    | H : context [length (chars ?s)] |- _ =>
        let n := eval vm_compute in (length (chars s)) in change (length (chars s)) with n in H
    end;
  cbn [length] in *; lia.

Section ErrorParts.
Context (buf0 pre : list Z) (len : Z) (cf : canfd_frame).
Context (Hcf : frame_ok cf) (Hfit : zlen pre + len <= zlen buf0) (Hint : len <= int_max) (Hpre : pre <> []).

Lemma pre_nonempty t : pre ++ t <> [].
Proof. by destruct pre. Qed.

Lemma lostarb_prints s :
  prints buf0 pre [] s -> zlen (lostarb_text cf) < len ->
  returns (snprintf_error_lostarb cf s.1 (zlen pre) len) (prints buf0 pre (lostarb_text cf)).
Proof.
  intros Hs Hlen. pose proof (zlen_nonneg (lostarb_text cf)). unfold snprintf_error_lostarb.
  rewrite (proj2 (Z.leb_gt _ _)) by lia. rewrite (proj1 (data_nth cf 0 Hcf ltac:(lia)) : vget (cf_data cf) 0 = _). bind_ret.
  assert (s.2 = 0) as E2 by (by destruct Hs as (r & -> & _)).
  destruct (snprintf_prints buf0 pre [] (lostarb_text cf) s len Hs) as ([b n] & E & En & rest & Eb & Hl);
    [lia|revert Hfit; len|by apply pre_nonempty|].
  rewrite E2, Z.add_0_r in E. fold (lostarb_text cf). rewrite E. apply returns_ret. cbn [fst snd app] in *. subst n b.
  exists (0 :: rest). split; [done|]. split; [done|]. right. split; [by apply pre_nonempty|by exists rest].
Qed.

Lemma ctrl_prints s :
  prints buf0 pre [] s -> zlen (ctrl_text cf) < len ->
  returns (snprintf_error_ctrl cf s.1 (zlen pre) len) (prints buf0 pre (ctrl_text cf)).
Proof.
  intros Hs Hlen. pose proof (zlen_nonneg (ctrl_text cf)). unfold snprintf_error_ctrl.
  rewrite (proj2 (Z.leb_gt _ _)) by lia. assert ((s.1, 0) = s) as -> by (by destruct Hs as (r & -> & _)).
  unfold ctrl_text in *. set (T := names_text _ _) in *.
  eapply returns_bind; [apply (appendf_prints buf0 pre len Hfit Hint [] (chars "{")); [done|text_len|apply pre_nonempty]|].
  intros s1 Hs1. rewrite (proj1 (data_nth cf 1 Hcf ltac:(lia)) : vget (cf_data cf) 1 = _). bind_ret.
  eapply returns_bind; [apply (append_call_prints buf0 pre len Hfit Hint _ _ T s1 Hs1);
    [text_len|apply pre_nonempty|]|].
  - apply (error_data_prints buf0 _ _ _ _ (s1.1, 0)); [text_len|text_len|apply pre_nonempty|
      by apply prints_shift|fold T; text_len].
  - intros s2 Hs2. rewrite app_assoc. apply appendf_prints; [done|done|done|text_len|].
    rewrite <- !app_assoc. apply pre_nonempty.
Qed.

Lemma prot_prints s :
  prints buf0 pre [] s -> zlen (prot_text cf) < len ->
  returns (snprintf_error_prot cf s.1 (zlen pre) len) (prints buf0 pre (prot_text cf)).
Proof.
  intros Hs Hlen. pose proof (zlen_nonneg (prot_text cf)). unfold snprintf_error_prot.
  rewrite (proj2 (Z.leb_gt _ _)) by lia. assert ((s.1, 0) = s) as -> by (by destruct Hs as (r & -> & _)).
  unfold prot_text in *. set (T := names_text _ _) in *. set (L := location_text _) in *.
  eapply returns_bind; [apply (appendf_prints buf0 pre len Hfit Hint [] (chars "{{")); [done|text_len|apply pre_nonempty]|].
  intros s1 Hs1. rewrite (proj1 (data_nth cf 2 Hcf ltac:(lia)) : vget (cf_data cf) 2 = _). bind_ret.
  eapply returns_bind; [apply (append_call_prints buf0 pre len Hfit Hint _ _ T s1 Hs1);
    [text_len|apply pre_nonempty|]|].
  { apply (error_data_prints buf0 _ _ _ _ (s1.1, 0)); [text_len|text_len|apply pre_nonempty|
      by apply prints_shift|fold T; text_len]. }
  intros s2 Hs2. rewrite app_assoc. eapply returns_bind; [apply appendf_prints;
    [done|done|exact Hs2|text_len|rewrite <- !app_assoc; apply pre_nonempty]|].
  intros s3 Hs3. rewrite (app_assoc _ (chars "}{")).
  rewrite (proj1 (data_nth cf 3 Hcf ltac:(lia)) : vget (cf_data cf) 3 = _). bind_ret.
  apply (returns_bind _ _ (prints buf0 pre ((((chars "{{" ++ T) ++ chars "}{") ++ L)))).
  - unfold L, location_text in *. destruct ((0 <? _) && _) eqn:E; [|rewrite app_nil_r; by apply returns_ret].
    apply andb_true_iff in E as [E1%Z.ltb_lt E2%Z.ltb_lt].
    destruct (vget_in_range protocol_violation_locations (nth 3 (cf_data cf) 0) ltac:(lia)) as [name Hn].
    rewrite Hn. bind_ret. apply vget_Ret in Hn as [_ Hn]. rewrite (nth_lookup_Some _ _ _ _ Hn) in *.
    apply appendf_prints; [done|done|done|text_len|rewrite <- !app_assoc; apply pre_nonempty].
  - intros s4 Hs4. rewrite (app_assoc _ L). apply appendf_prints; [done|done|done|text_len|].
    rewrite <- !app_assoc. apply pre_nonempty.
Qed.
End ErrorParts.

Section ErrorFrame.
Context (buf0 sep : list Z) (len : Z) (cf : canfd_frame).
Context (Hcf : frame_ok cf) (Hfit : len <= zlen buf0) (Hint : len <= int_max).

Let class := Z.land (can_id cf) CAN_EFF_MASK.
Let items := imap (class_text cf) error_classes.

(** The calls after the name of a class. *)
Lemma detail_prints (k : nat) text s :
  (k < 9)%nat -> prints buf0 [] text s -> text <> [] -> zlen (text ++ detail_text cf k) < len ->
  returns (let mask := Z.shiftl 1 (Z.of_nat k) in
    s3 ← (if mask =? CAN_ERR_LOSTARB then append_call (snprintf_error_lostarb cf) 0 len s else Ret s);
    s4 ← (if mask =? CAN_ERR_CRTL then append_call (snprintf_error_ctrl cf) 0 len s3 else Ret s3);
    if mask =? CAN_ERR_PROT then append_call (snprintf_error_prot cf) 0 len s4 else Ret s4)
    (prints buf0 [] (text ++ detail_text cf k)).
Proof.
  intros Hk Hs Hne Hlen.
  assert (forall f t, zlen text + zlen t < len ->
    (returns (f s.1 (zlen text) (len - zlen text)) (prints buf0 text t)) ->
    returns (append_call f 0 len s) (prints buf0 [] (text ++ t))) as Hcall.
  { intros f t Ht Hf. by apply (append_call_prints buf0 [] len Hfit Hint f text t s Hs Ht Hne). }
  pose proof (prints_shift buf0 [] text s Hs) as Hs'.
  destruct k as [|[|[|[|[|[|[|[|[|k]]]]]]]]]; [..|lia]; unfold detail_text in *; cbv zeta;
    repeat match goal with |- context [Z.shiftl 1 ?n =? ?m] =>
      let b := eval vm_compute in (Z.shiftl 1 n =? m) in change (Z.shiftl 1 n =? m) with b end;
    cbv iota; bind_ret; rewrite ?app_nil_r; try by apply returns_ret.
  - eapply returns_bind; [apply (Hcall _ (lostarb_text cf)); [text_len|]|intros u Hu; by apply returns_ret].
    apply (lostarb_prints buf0 text (len - zlen text) cf Hcf ltac:(lia) Hne (s.1, 0) Hs'). text_len.
  - eapply returns_bind; [apply (Hcall _ (ctrl_text cf)); [text_len|]|intros u Hu; by apply returns_ret].
    apply (ctrl_prints buf0 text (len - zlen text) cf Hcf ltac:(lia) ltac:(pose proof (zlen_nonneg text); lia) Hne (s.1, 0) Hs'). text_len.
  - apply (Hcall _ (prot_text cf)); [text_len|].
    apply (prot_prints buf0 text (len - zlen text) cf Hcf ltac:(lia) ltac:(pose proof (zlen_nonneg text); lia) Hne (s.1, 0) Hs'). text_len.
Qed.

Lemma error_classes_nonempty k name : error_classes !! k = Some name -> name <> [].
Proof. intros H ->. by do 9 (destruct k as [|k]; [discriminate H|]). Qed.

Lemma items_nonempty : Forall (fun a => a <> []) items.
Proof.
  apply Forall_lookup_2. intros k a Ha. unfold items in Ha. rewrite list_lookup_imap in Ha.
  destruct (error_classes !! k) as [name|] eqn:En; [|done]. injection Ha as <-.
  apply error_classes_nonempty in En. by destruct name.
Qed.

Lemma classes_prints :
  zlen (join sep (pick class items)) < len ->
  returns (for_loop (length error_classes) 0 (error_class cf class len sep) (buf0, 0, 0)) (fun r =>
    prints buf0 [] (join sep (pick class items)) r.1).
Proof.
  intros Hlen. replace (length error_classes) with (length items) by apply length_imap.
  apply (items_loop buf0 [] sep class len items); [|apply prints_start|done].
  intros k a st c Ha Hst Hc Hroom. unfold items in Ha. rewrite list_lookup_imap in Ha.
  destruct (error_classes !! k) as [name|] eqn:En; [|done]. injection Ha as <-.
  pose proof (error_classes_nonempty k name En) as Hne. pose proof (lookup_lt_Some _ _ _ En) as Hk9.
  change (length error_classes) with 9%nat in Hk9. set (t := join sep (pick class (take k items))) in *.
  unfold error_class. rewrite land_bit by lia. cbn [fst snd].
  destruct (Z.testbit class (Z.of_nat k)); cbn [negb]; [|by apply returns_ret]. specialize (Hroom eq_refl).
  assert (c <> 0 -> t <> []) as Ht.
  { intros Hc0. apply join_nonempty; [by apply pick_Forall, Forall_take, items_nonempty|].
    intros E. rewrite E in Hc. done. }
  pose proof (append_item buf0 [] len sep t name st c Hfit Hint Hst) as Hi.
  destruct Hi as (s2 & E & H2); [revert Hroom; unfold class_text; text_len|done|done|].
  apply bind_Ret in E as (s1 & E1 & E2). change (zlen []) with 0 in E1, E2.
  rewrite E1. bind_ret. rewrite (vget_nat _ _ _ En). bind_ret. rewrite E2. bind_ret.
  assert (t ++ (if c =? 0 then [] else sep) ++ name <> []) as Hne2 by (by destruct t, (c =? 0), sep, name).
  destruct (detail_prints k _ s2 Hk9 H2 Hne2) as (s5 & E & H5);
    [revert Hroom; unfold class_text; text_len|].
  cbv zeta in E. apply bind_Ret in E as (s3 & -> & E). bind_ret. apply bind_Ret in E as (s4 & -> & E).
  bind_ret. rewrite E. bind_ret. apply returns_ret. split; [|done]. cbn [fst].
  unfold class_text. by rewrite !app_assoc in *.
Qed.

(** The whole output: the text, or, if it is empty, the buffer as it was. *)
Lemma error_frame_prints :
  has cf CAN_ERR_FLAG = true -> class <= 512 -> sep <> [] -> zlen (error_text cf sep) < len ->
  returns (snprintf_can_error_frame buf0 len cf (Some sep)) (fun r => r.2 = None /\
    (error_text cf sep = [] /\ r.1 = buf0 \/
     error_text cf sep <> [] /\ exists rest, r.1 = error_text cf sep ++ 0 :: rest /\ length r.1 = length buf0)).
Proof.
  intros Herr Hclass Hsep Hlen. unfold snprintf_can_error_frame. rewrite Herr. cbn [negb]. fold class.
  change (Z.shiftl 1 (zlen error_classes)) with 512. rewrite (proj2 (Z.ltb_ge _ _)) by lia. cbv zeta.
  unfold error_text in *. fold class items in Hlen |- *. set (t := join sep (pick class items)) in *.
  eapply returns_bind; [apply classes_prints; fold t; revert Hlen; len|]. fold t. intros [s c] Hs. cbn [fst] in *.
  rewrite (proj1 (data_nth cf 6 Hcf ltac:(lia)) : vget (cf_data cf) 6 = _). bind_ret.
  rewrite (proj1 (data_nth cf 7 Hcf ltac:(lia)) : vget (cf_data cf) 7 = _). bind_ret. cbn [fst].
  assert (forall u text, prints buf0 [] text u -> text = [] /\ u.1 = buf0 \/
    text <> [] /\ exists rest, u.1 = text ++ 0 :: rest /\ length u.1 = length buf0) as Hend.
  { intros u text (rest & -> & Hl & Hr). cbn [fst app] in *.
    destruct Hr as [[-> ->]|[Hne [r ->]]]; [by left|right; eauto]. }
  destruct (_ && _).
  - apply returns_ret. split; [done|]. rewrite app_nil_r. by apply Hend.
  - eapply returns_bind; [apply (appendf_prints buf0 [] len Hfit Hint t sep s Hs); [revert Hlen; len|by destruct t]|].
    intros s1 Hs1. fold (counters_text cf).
    eapply returns_bind; [apply (appendf_prints buf0 [] len Hfit Hint (t ++ sep) (counters_text cf) s1 Hs1);
      [revert Hlen; len|by destruct t, sep]|].
    intros s2 Hs2. apply returns_ret. split; [done|]. rewrite <- app_assoc in Hs2. by apply Hend.
Qed.
End ErrorFrame.

(** ** How long the text of an error frame can be *)

Definition weight (sep : list Z) (l : list (list Z)) : Z :=
  Z.of_nat (sum_list_with (fun a => length (a ++ sep)) l).

Lemma join_weight sep l : zlen (join sep l) <= weight sep l.
Proof.
  induction l as [|a l IH]; [done|]. unfold weight in *. destruct l as [|b l]; [simpl; len|].
  change (join sep (a :: b :: l)) with (a ++ sep ++ join sep (b :: l)). simpl sum_list_with in *. len.
Qed.

Lemma pick_weight sep bits l : weight sep (pick bits l) <= weight sep l.
Proof.
  induction l as [|a l IH] using rev_ind; [done|]. rewrite pick_snoc. unfold weight in *.
  rewrite !sum_list_with_app. destruct (Z.testbit _ _); simpl; lia.
Qed.

Lemma names_text_bound err arr : zlen (names_text err arr) <= weight comma arr.
Proof. etransitivity; [apply join_weight|apply pick_weight]. Qed.

Lemma decimal_byte b : byte_ok b -> zlen (decimal b) <= 3 /\ no_nul (decimal b).
Proof.
  intros Hb. apply (below_nat 256 (fun b => zlen (decimal b) <= 3 /\ no_nul (decimal b))); [done|].
  repeat (constructor; [split; [done|by repeat constructor]|]). constructor.
Qed.

Lemma location_bound d : zlen (location_text d) <= 22.
Proof.
  unfold location_text. destruct (_ && _) eqn:E; [|done].
  apply andb_true_iff in E as [E1%Z.ltb_lt E2%Z.ltb_lt]. change (zlen protocol_violation_locations) with 32 in E2.
  apply (below_nat 32 (fun d => zlen (nth (Z.to_nat d) protocol_violation_locations []) <= 22)); [lia|].
  by repeat constructor.
Qed.

Lemma detail_bound cf i : frame_ok cf -> zlen (detail_text cf i) <=
  match i with 1%nat => 12 | 2%nat => 115 | 3%nat => 166 | _ => 0 end.
Proof.
  intros Hcf. destruct i as [|[|[|[|i]]]]; try done; simpl.
  - pose proof (decimal_byte _ (proj2 (data_nth cf 0 Hcf ltac:(lia)))) as [H _]. unfold lostarb_text. text_len.
  - pose proof (names_text_bound (nth 1 (cf_data cf) 0) controller_problems) as H.
    change (weight comma controller_problems) with 113 in H. unfold ctrl_text. text_len.
  - pose proof (names_text_bound (nth 2 (cf_data cf) 0) protocol_violation_types) as H.
    change (weight comma protocol_violation_types) with 138 in H.
    pose proof (location_bound (nth 3 (cf_data cf) 0)). unfold prot_text. text_len.
Qed.

Lemma error_text_bound cf sep : frame_ok cf -> zlen (error_text cf sep) <= 467 + 10 * zlen sep.
Proof.
  intros Hcf. unfold error_text. set (bits := Z.land _ _). set (items := imap _ _).
  pose proof (join_weight sep (pick bits items)). pose proof (pick_weight sep bits items).
  assert (weight sep items <= 436 + 9 * zlen sep) as Hw.
  { pose proof (detail_bound cf 1 Hcf). pose proof (detail_bound cf 2 Hcf). pose proof (detail_bound cf 3 Hcf).
    unfold items, error_classes, class_text, weight. simpl detail_text in *. cbn [imap fmap list_fmap sum_list_with].
    unfold compose. cbn [detail_text] in *. cbv iota in *. text_len. }
  destruct (decimal_byte _ (proj2 (data_nth cf 6 Hcf ltac:(lia)))) as [H6 _].
  destruct (decimal_byte _ (proj2 (data_nth cf 7 Hcf ltac:(lia)))) as [H7 _].
  destruct (_ && _); unfold counters_text; text_len.
Qed.

(** ** The texts have no NUL *)

Definition no_nulb (s : list Z) : bool := forallb (fun c => negb (c =? 0)) s.

Lemma no_nulb_spec s : no_nulb s = true -> no_nul s.
Proof.
  induction s as [|c s IH]; simpl; [constructor|]. intros [Hc Hs]%andb_true_iff.
  constructor; [by apply Z.eqb_neq, negb_true_iff|by apply IH].
Qed.

Lemma no_nul_app s t : no_nul (s ++ t) <-> no_nul s /\ no_nul t.
Proof. apply Forall_app. Qed.

Lemma join_no_nul sep l : no_nul sep -> Forall no_nul l -> no_nul (join sep l).
Proof.
  intros Hsep Hl. induction Hl as [|a l Ha Hl IH]; [constructor|]. destruct l as [|b l]; [done|].
  change (join sep (a :: b :: l)) with (a ++ sep ++ join sep (b :: l)). by rewrite !no_nul_app.
Qed.

Lemma names_no_nul err arr : forallb no_nulb arr = true -> no_nul (names_text err arr).
Proof.
  intros H. apply join_no_nul; [by apply no_nulb_spec|]. apply pick_Forall.
  apply Forall_forall. intros a Ha. apply no_nulb_spec. rewrite forallb_forall in H. apply H.
  by apply list_elem_of_In.
Qed.

Lemma detail_no_nul cf i : frame_ok cf -> no_nul (detail_text cf i).
Proof.
  intros Hcf. destruct i as [|[|[|[|i]]]]; cbn [detail_text]; try by constructor.
  - unfold lostarb_text. rewrite !no_nul_app. split; [by apply no_nulb_spec|]. split; [|by apply no_nulb_spec].
    apply decimal_byte, (data_nth cf 0 Hcf). lia.
  - unfold ctrl_text. rewrite !no_nul_app. split; [by apply no_nulb_spec|]. split; [|by apply no_nulb_spec].
    by apply names_no_nul.
  - unfold prot_text. rewrite !no_nul_app. split; [by apply no_nulb_spec|].
    split; [by apply names_no_nul|]. split; [by apply no_nulb_spec|]. split; [|by apply no_nulb_spec].
    unfold location_text. destruct (_ && _) eqn:E; [|constructor].
    apply andb_true_iff in E as [E1%Z.ltb_lt E2%Z.ltb_lt]. change (zlen protocol_violation_locations) with 32 in E2.
    apply (below_nat 32 (fun d => no_nul (nth (Z.to_nat d) protocol_violation_locations []))); [lia|].
    repeat (constructor; [by apply no_nulb_spec|]). constructor.
Qed.

Lemma error_text_no_nul cf sep : frame_ok cf -> no_nul sep -> no_nul (error_text cf sep).
Proof.
  intros Hcf Hsep. unfold error_text. rewrite no_nul_app. split.
  - apply join_no_nul; [done|]. apply pick_Forall, Forall_lookup_2. intros k a Ha.
    rewrite list_lookup_imap in Ha. destruct (error_classes !! k) as [name|] eqn:En; [|done].
    injection Ha as <-. unfold class_text. rewrite no_nul_app. split; [|by apply detail_no_nul].
    apply no_nulb_spec. assert (forallb no_nulb error_classes = true) as H by done.
    rewrite forallb_forall in H. apply H, list_elem_of_In. by apply list_elem_of_lookup_2 in En.
  - destruct (_ && _); [constructor|]. unfold counters_text. rewrite !no_nul_app.
    split; [done|]. split; [by apply no_nulb_spec|]. split; [apply decimal_byte, (data_nth cf 6 Hcf); lia|].
    split; [by apply no_nulb_spec|]. split; [apply decimal_byte, (data_nth cf 7 Hcf); lia|by apply no_nulb_spec].
Qed.

Lemma pad_no_nul w t : no_nul t -> no_nul (pad w t).
Proof. intros Ht. apply no_nul_app. split; [|done]. by apply Forall_replicate. Qed.

Lemma byte_text_no_nul view k b : byte_ok b -> no_nul (byte_text view k b).
Proof.
  intros Hb. constructor; [by destruct (_ && _)|].
  destruct (wants _ _).
  - apply Forall_fmap, Forall_forall. intros j _. simpl. by destruct (Z.testbit b j).
  - destruct (byte_digits b Hb) as (_ & _ & Hq & Hr). repeat constructor; by apply nibble_digit.
Qed.

Lemma char_text_no_nul l : no_nul (char_text <$> l).
Proof.
  apply Forall_fmap, Forall_forall. intros b _. unfold compose, char_text.
  destruct (Z.ltb_spec 31 b); [|done]. destruct (b <? 127); simpl; [lia|done].
Qed.

Lemma long_text_no_nul cf view maxdlen :
  frame_ok cf -> maxdlen = CAN_MAX_DLEN \/ maxdlen = CANFD_MAX_DLEN -> no_nul (long_text cf view maxdlen).
Proof.
  intros Hcf Hmax. pose proof (long_len_range cf maxdlen Hcf Hmax) as Hr.
  assert (no_nul (quote view)) as Hq by (unfold quote; destruct (wants _ _); by apply no_nulb_spec).
  unfold long_text. rewrite !no_nul_app. split; [|split].
  - unfold long_id_text. destruct (has _ _); [|destruct (has _ _)]; rewrite !no_nul_app;
      repeat split; try apply hexdigits_no_nul; try by apply no_nulb_spec.
    destruct (wants _ _); [by apply no_nulb_spec|constructor].
  - unfold long_len_text. rewrite no_nul_app. split; [|by apply no_nulb_spec].
    pose proof (Z.quot_pos (shown cf maxdlen) 10). pose proof (Z.rem_nonneg (shown cf maxdlen) 10 ltac:(done)).
    destruct (_ =? _); repeat constructor; try done; lia.
  - destruct (remote _ _); [by apply no_nulb_spec|]. rewrite no_nul_app. split.
    + apply Forall_concat, Forall_lookup_2. intros k t Ht. rewrite list_lookup_imap in Ht.
      destruct (long_bytes cf view maxdlen !! k) as [b|] eqn:E; [|done]. injection Ht as <-.
      apply byte_text_no_nul. by apply (long_bytes_lookup cf view maxdlen Hcf Hmax k b).
    + unfold long_tail_text. destruct (_ <? _); [constructor|].
      destruct (has _ _); [by apply pad_no_nul, no_nulb_spec|]. destruct (wants _ _); [|constructor].
      rewrite !no_nul_app. split; [by apply pad_no_nul|]. split; [apply char_text_no_nul|done].
Qed.

(** What [fprint_long_canframe] prints behind an error frame: the classes, but
    the text of the frame once more when its class is invalid or there is
    nothing to say. *)
Definition error_part (cf : canfd_frame) (view maxdlen : Z) : list Z :=
  if wants view CANLIB_VIEW_ERROR && has cf CAN_ERR_FLAG then
    [10; 9] ++
    (if (512 <? Z.land (can_id cf) CAN_EFF_MASK) || bool_decide (error_text cf [10; 9] = [])
     then long_text cf view maxdlen else error_text cf [10; 9])
  else [].

(** C30: the local array of [fprint_long_canframe] is large enough.  Whatever
    the frame, the view and the content of the array, nothing is written outside
    it, nothing is cut off, and the stream receives the identifier, the length
    and the data in the chosen form, the description of an error frame and the
    end of line. *)
Theorem fprint_long_canframe_text buf cf eol view maxdlen :
  frame_ok cf -> maxdlen = CAN_MAX_DLEN \/ maxdlen = CANFD_MAX_DLEN -> zlen buf = CL_LONGCFSZ ->
  fprint_long_canframe buf cf eol view maxdlen =
  Ret (long_text cf view maxdlen ++ error_part cf view maxdlen ++
       match eol with Some e => e | None => [] end).
Proof.
  intros Hcf Hmax Hbuf. unfold fprint_long_canframe, error_part.
  destruct (sprint_long_text cf view maxdlen Hcf Hmax buf) as (b & -> & rest & -> & Hl); [lia|]. bind_ret.
  pose proof (long_text_no_nul cf view maxdlen Hcf Hmax) as Hnn.
  rewrite c_string_text by done. bind_ret. destruct (wants _ _ && has cf CAN_ERR_FLAG) eqn:E; [|done].
  apply andb_true_iff in E as [_ Herr]. set (b := long_text cf view maxdlen ++ 0 :: rest) in *.
  assert (zlen b = 675) as Hb by (rewrite <- (eq_refl : CL_LONGCFSZ = 675), <- Hbuf; unfold zlen; by rewrite Hl).
  destruct (Z.ltb_spec 512 (Z.land (can_id cf) CAN_EFF_MASK)) as [Hbad|Hok]; cbn [orb].
  - unfold snprintf_can_error_frame. rewrite Herr. change (Z.shiftl 1 (zlen error_classes)) with 512.
    rewrite (proj2 (Z.ltb_lt _ _)) by lia. cbn [negb]. cbv zeta. bind_ret. cbn [fst]. unfold b.
    by rewrite c_string_text by done.
  - pose proof (error_text_bound cf [10; 9] Hcf) as Hbound. change (zlen [10; 9]) with 2 in Hbound.
    destruct (error_frame_prints b [10; 9] (zlen b) cf Hcf) as (r & -> & _ & Hr);
      [lia|unfold int_max; lia|done|done|done|lia|]. bind_ret.
    destruct Hr as [[E ->]|[Hne (rest' & -> & _)]].
    + rewrite bool_decide_true by done. unfold b. by rewrite c_string_text by done.
    + rewrite bool_decide_false by done.
      rewrite c_string_text by (apply error_text_no_nul; [done|by repeat constructor]). done.
Qed.

Lemma fprint_long_canframe_text_witness :
  fprint_long_canframe (replicate 675 7)
    (CanfdFrame (CAN_ERR_FLAG + 0x6) 8 0 ([5; 3] ++ replicate 62 0)) (Some [10]) CANLIB_VIEW_ERROR 8 =
  Ret (chars "20000006   [8]  05 03 00 00 00 00 00 00   ERRORFRAME" ++ [10; 9] ++
       chars "lost-arbitration{at bit 5}" ++ [10; 9] ++
       chars "controller-problem{rx-overflow,tx-overflow}" ++ [10]).
Proof.
  apply (fprint_long_canframe_text (replicate 675 7)
    (CanfdFrame (CAN_ERR_FLAG + 0x6) 8 0 ([5; 3] ++ replicate 62 0)) (Some [10]) CANLIB_VIEW_ERROR 8).
  - repeat split; try done. by repeat constructor.
  - by left.
  - done.
Defined.

(** [snprintf_can_error_frame] with an array of [len] characters and room
    for the longest text, 467 characters and ten separators, writes the text of
    an error frame and a NUL, and leaves the array alone if there is nothing to
    say. *)
Theorem error_frame_text buf len cf sep :
  let s := match sep with Some s => s | None => chars "," end in
  frame_ok cf -> has cf CAN_ERR_FLAG = true -> Z.land (can_id cf) CAN_EFF_MASK <= 512 -> s <> [] ->
  467 + 10 * zlen s < len <= zlen buf -> len <= int_max ->
  returns (snprintf_can_error_frame buf len cf sep) (fun r => r.2 = None /\
    (error_text cf s = [] /\ r.1 = buf \/
     error_text cf s <> [] /\ exists rest, r.1 = error_text cf s ++ 0 :: rest /\ length r.1 = length buf)).
Proof.
  intros s Hcf Herr Hclass Hs Hlen Hint. pose proof (error_text_bound cf s Hcf).
  replace (snprintf_can_error_frame buf len cf sep) with (snprintf_can_error_frame buf len cf (Some s))
    by (unfold s; by destruct sep).
  apply error_frame_prints; (done || lia).
Qed.

Lemma error_frame_text_witness :
  returns (snprintf_can_error_frame (replicate 500 7) 500
    (CanfdFrame (CAN_ERR_FLAG + 0x8) 8 0 ([0; 0; 1; 8; 0; 0; 9] ++ replicate 57 0)) None) (fun r => r.2 = None /\
    (chars "protocol-violation{{single-bit-error}{crc-sequence}},error-counter-tx-rx{{9}{0}}" = [] /\
       r.1 = replicate 500 7 \/
     chars "protocol-violation{{single-bit-error}{crc-sequence}},error-counter-tx-rx{{9}{0}}" <> [] /\
     exists rest, r.1 = chars "protocol-violation{{single-bit-error}{crc-sequence}},error-counter-tx-rx{{9}{0}}"
       ++ 0 :: rest /\ length r.1 = 500%nat)).
Proof.
  apply (error_frame_text (replicate 500 7) 500
    (CanfdFrame (CAN_ERR_FLAG + 0x8) 8 0 ([0; 0; 1; 8; 0; 0; 9] ++ replicate 57 0)) None); try done.
  repeat split; try done. by repeat constructor.
Defined.

(** With less room the text is cut off where it ends within a call, but the
    next call computes its size as [len - n] in [size_t]: it wraps around and
    the call writes behind the array.  A class with the bit of the error
    counters and another bit is rejected as invalid. *)
Example error_frame_overrun :
  snprintf_can_error_frame (replicate 12 7) 12 (CanfdFrame (CAN_ERR_FLAG + 0x3) 8 0 (replicate 64 0)) None =
    Undef OutOfBounds /\
  snprintf_can_error_frame (replicate 12 7) 12 (CanfdFrame (CAN_ERR_FLAG + 0x201) 8 0 (replicate 64 0)) None =
    Ret (replicate 12 7, Some 0x201).
Proof. by vm_compute. Qed.
