(* ===== verification/AeLoop.v ===== *)
(** * The event loop of the HTTP samples: file events

    src/c/20171011_ae_httpd/ae.c and ae_epoll.c.  A function or data pointer is
    a number, [None] while it is indeterminate.  The kernel's interest list is a
    part of the state of the loop; [epoll_ctl] is modelled by its documentation
    (adding needs a descriptor that is not in the list, changing and removing
    one that is) and may fail for reasons of its own, which is an argument of the
    calls that make it: [aeCreateFileEvent] reports the failure,
    [aeDeleteFileEvent] ignores it, so that the list and the table can part.
    What [epoll_wait] returns is an argument.  Memory allocation succeeds: zmalloc
    ends the program otherwise. *)

From stdpp Require Import base list numbers gmap relations strings.
From Stdlib Require Import ZArith Lia.
From S2P Require Import Prelude.

Open Scope Z_scope.

Definition AE_OK : Z := 0.
Definition AE_ERR : Z := -1.
Definition AE_NONE : Z := 0.
Definition AE_READABLE : Z := 1.
Definition AE_WRITABLE : Z := 2.

(** sys/epoll.h *)
Definition EPOLLIN : Z := 0x001.
Definition EPOLLOUT : Z := 0x004.
Definition EPOLLERR : Z := 0x008.
Definition EPOLLHUP : Z := 0x010.

(** [x & flag], as a condition. *)
Definition band (x flag : Z) : bool := negb (Z.land x flag =? 0).

Record aeFileEvent := FileEvent {
  mask : Z;
  rfileProc : option Z;
  wfileProc : option Z;
  clientData : option Z
}.

Record aeTimeEvent := TimeEvent {
  te_id : Z;
  when_sec : Z;
  when_ms : Z;
  timeProc : Z;
  finalizerProc : option Z;
  te_data : Z
}.

(** [blocks] tells the allocations of [events] apart; [interest] is the interest
    list of the descriptor [epfd]. *)
Record aeEventLoop := EventLoop {
  maxfd : Z;
  setsize : Z;
  timeEventNextId : Z;
  lastTime : Z;
  events : list aeFileEvent;
  blocks : Z;
  fired : list (Z * Z);
  timeEventHead : list aeTimeEvent;
  stop : Z;
  beforesleep : option Z;
  interest : gmap Z Z
}.

Definition set_events (lp : aeEventLoop) (es : list aeFileEvent) : aeEventLoop :=
  EventLoop (maxfd lp) (setsize lp) (timeEventNextId lp) (lastTime lp) es (blocks lp) (fired lp)
    (timeEventHead lp) (stop lp) (beforesleep lp) (interest lp).
Definition set_maxfd (lp : aeEventLoop) (m : Z) : aeEventLoop :=
  EventLoop m (setsize lp) (timeEventNextId lp) (lastTime lp) (events lp) (blocks lp) (fired lp)
    (timeEventHead lp) (stop lp) (beforesleep lp) (interest lp).
Definition set_interest (lp : aeEventLoop) (i : gmap Z Z) : aeEventLoop :=
  EventLoop (maxfd lp) (setsize lp) (timeEventNextId lp) (lastTime lp) (events lp) (blocks lp) (fired lp)
    (timeEventHead lp) (stop lp) (beforesleep lp) i.
Definition set_fired (lp : aeEventLoop) (f : list (Z * Z)) : aeEventLoop :=
  EventLoop (maxfd lp) (setsize lp) (timeEventNextId lp) (lastTime lp) (events lp) (blocks lp) f
    (timeEventHead lp) (stop lp) (beforesleep lp) (interest lp).
Definition set_timers (lp : aeEventLoop) (next : Z) (l : list aeTimeEvent) : aeEventLoop :=
  EventLoop (maxfd lp) (setsize lp) next (lastTime lp) (events lp) (blocks lp) (fired lp)
    l (stop lp) (beforesleep lp) (interest lp).
Definition set_lastTime (lp : aeEventLoop) (t : Z) : aeEventLoop :=
  EventLoop (maxfd lp) (setsize lp) (timeEventNextId lp) t (events lp) (blocks lp) (fired lp)
    (timeEventHead lp) (stop lp) (beforesleep lp) (interest lp).
Definition set_stop (lp : aeEventLoop) (b : Z) : aeEventLoop :=
  EventLoop (maxfd lp) (setsize lp) (timeEventNextId lp) (lastTime lp) (events lp) (blocks lp) (fired lp)
    (timeEventHead lp) b (beforesleep lp) (interest lp).
Definition aeSetBeforeSleepProc (lp : aeEventLoop) (p : option Z) : aeEventLoop :=
  EventLoop (maxfd lp) (setsize lp) (timeEventNextId lp) (lastTime lp) (events lp) (blocks lp) (fired lp)
    (timeEventHead lp) (stop lp) p (interest lp).

Definition set_mask (e : aeFileEvent) (m : Z) : aeFileEvent :=
  FileEvent m (rfileProc e) (wfileProc e) (clientData e).

(** ** ae_epoll.c *)

Inductive epoll_op := EPOLL_CTL_ADD | EPOLL_CTL_MOD | EPOLL_CTL_DEL.

(** The new interest list, or the failure -1. *)
Definition epoll_ctl (ok : bool) (op : epoll_op) (fd ev : Z) (i : gmap Z Z) : option (gmap Z Z) :=
  if negb ok then None
  else match op, i !! fd with
       | EPOLL_CTL_ADD, None => Some (<[fd := ev]> i)
       | EPOLL_CTL_MOD, Some _ => Some (<[fd := ev]> i)
       | EPOLL_CTL_DEL, Some _ => Some (delete fd i)
       | _, _ => None
       end.

(** [ee.events] for a mask. *)
Definition ee_events (m : Z) : Z :=
  Z.lor (if band m AE_READABLE then EPOLLIN else 0) (if band m AE_WRITABLE then EPOLLOUT else 0).

Definition aeApiAddEvent (lp : aeEventLoop) (fd m : Z) (ok : bool) : outcome (Z * aeEventLoop) :=
  e ← vget (events lp) fd;
  let op := if mask e =? AE_NONE then EPOLL_CTL_ADD else EPOLL_CTL_MOD in
  let m := Z.lor m (mask e) in
  match epoll_ctl ok op fd (ee_events m) (interest lp) with
  | None => Ret (-1, lp)
  | Some i => Ret (0, set_interest lp i)
  end.

(** The result of [epoll_ctl] is ignored. *)
Definition aeApiDelEvent (lp : aeEventLoop) (fd delmask : Z) (ok : bool) : outcome aeEventLoop :=
  e ← vget (events lp) fd;
  let m := Z.land (mask e) (Z.lnot delmask) in
  let op := if negb (m =? AE_NONE) then EPOLL_CTL_MOD else EPOLL_CTL_DEL in
  Ret (match epoll_ctl ok op fd (ee_events m) (interest lp) with
       | None => lp
       | Some i => set_interest lp i
       end).

(** The mask of a ready descriptor. *)
Definition fired_mask (ev : Z) : Z :=
  Z.lor (if band ev EPOLLIN then AE_READABLE else 0)
    (Z.lor (if band ev EPOLLOUT then AE_WRITABLE else 0)
      (Z.lor (if band ev EPOLLERR then AE_WRITABLE else 0) (if band ev EPOLLHUP then AE_WRITABLE else 0))).

(** [aeApiPoll], with what [epoll_wait] stored in [state->events]: descriptors
    and events.  A failed call stores nothing. *)
Definition aeApiPoll (lp : aeEventLoop) (ready : list (Z * Z)) : outcome (Z * aeEventLoop) :=
  f ← for_loop (length ready) 0 (fun j f =>
        e ← vget ready j;
        vset f j (e.1, fired_mask e.2)) (fired lp);
  Ret (zlen ready, set_fired lp f).

(** ** ae.c: the loop and its file events *)

(** A fresh allocation of [events] holds [junk], and so does what a
    reallocation adds. *)
Definition clear_mask (i : Z) (es : list aeFileEvent) : outcome (list aeFileEvent) :=
  e ← vget es i;
  vset es i (set_mask e AE_NONE).

(** [created] tells whether [epoll_create] succeeds, [now] is the time. *)
Definition aeCreateEventLoop (size : Z) (junk : list aeFileEvent) (junkf : list (Z * Z)) (now : Z)
    (created : bool) : outcome (option aeEventLoop) :=
  if size <? 0 then Throw (Message "zmalloc: Out of memory")
  else if negb created then Ret None
  else
    es ← for_loop (Z.to_nat size) 0 clear_mask (take (Z.to_nat size) junk);
    Ret (Some (EventLoop (-1) size 0 now es 0 (take (Z.to_nat size) junkf) [] 0 None ∅)).

Definition aeGetSetSize (lp : aeEventLoop) : Z := setsize lp.

Definition aeResizeSetSize (lp : aeEventLoop) (size : Z) (junk : list aeFileEvent) (junkf : list (Z * Z))
    : outcome (Z * aeEventLoop) :=
  if size =? setsize lp then Ret (AE_OK, lp)
  else if size <=? maxfd lp then Ret (AE_ERR, lp)
  else
    let es := take (Z.to_nat size) (events lp ++ junk) in
    let f := take (Z.to_nat size) (fired lp ++ junkf) in
    es1 ← for_loop (Z.to_nat (size - (maxfd lp + 1))) (maxfd lp + 1) clear_mask es;
    Ret (AE_OK, EventLoop (maxfd lp) size (timeEventNextId lp) (lastTime lp) es1 (blocks lp + 1) f
                  (timeEventHead lp) (stop lp) (beforesleep lp) (interest lp)).

Definition aeStop (lp : aeEventLoop) : aeEventLoop := set_stop lp 1.

Definition aeCreateFileEvent (lp : aeEventLoop) (fd m proc data : Z) (ok : bool)
    : outcome (Z * aeEventLoop) :=
  if setsize lp <=? fd then Ret (AE_ERR, lp)
  else
    r ← aeApiAddEvent lp fd m ok;
    if r.1 =? -1 then Ret (AE_ERR, lp)
    else
      e ← vget (events lp) fd;
      es ← vset (events lp) fd
             (FileEvent (Z.lor (mask e) m)
                (if band m AE_READABLE then Some proc else rfileProc e)
                (if band m AE_WRITABLE then Some proc else wfileProc e)
                (Some data));
      let lp1 := set_events r.2 es in
      Ret (AE_OK, if maxfd lp <? fd then set_maxfd lp1 fd else lp1).

(** [for (j = maxfd-1; j >= 0; j--) if (events[j].mask != AE_NONE) break;]
    with [n = j + 1]. *)
Fixpoint search_max (n : nat) (es : list aeFileEvent) : outcome Z :=
  match n with
  | O => Ret (-1)
  | S n =>
      e ← vget es (Z.of_nat n);
      if negb (mask e =? AE_NONE) then Ret (Z.of_nat n) else search_max n es
  end.

Definition aeDeleteFileEvent (lp : aeEventLoop) (fd m : Z) (ok : bool) : outcome aeEventLoop :=
  if setsize lp <=? fd then Ret lp
  else
    e ← vget (events lp) fd;
    if mask e =? AE_NONE then Ret lp
    else
      lp1 ← aeApiDelEvent lp fd m ok;
      let m' := Z.land (mask e) (Z.lnot m) in
      es ← vset (events lp1) fd (set_mask e m');
      let lp2 := set_events lp1 es in
      if (fd =? maxfd lp2) && (m' =? AE_NONE) then
        j ← search_max (Z.to_nat (maxfd lp2)) es;
        Ret (set_maxfd lp2 j)
      else Ret lp2.


(** ** Dispatching *)

(** A call of a handler: the handler, the descriptor, its data and the mask. *)
Definition call := (Z * Z * Z * Z)%type.

(** A pointer that has been set. *)
Definition initialised (p : option Z) : outcome Z :=
  match p with Some p => Ret p | None => Undef Uninitialised end.

(** [fe = &events[fd]], kept across calls: it is dead once [events] has been
    reallocated. *)
Definition deref (lp : aeEventLoop) (block fd : Z) : outcome aeFileEvent :=
  if negb (blocks lp =? block) then Undef BadPointer else vget (events lp) fd.

Section Dispatch.
(** What a handler does to the loop. *)
Context (handler : call -> aeEventLoop -> outcome aeEventLoop).

(** The two halves of a round of the loop of [aeProcessEvents], for the entry
    [fe]; each call is recorded with the loop as the handler finds it.  The first
    also returns [rfired]. *)
Definition fire_read (lp : aeEventLoop) (log : list (aeEventLoop * call)) (fe fd m : Z)
    : outcome (aeEventLoop * list (aeEventLoop * call) * bool) :=
  e ← deref lp fe fd;
  if band (Z.land (mask e) m) AE_READABLE then
    p ← initialised (rfileProc e);
    d ← initialised (clientData e);
    lp1 ← handler (p, fd, d, m) lp;
    Ret (lp1, log ++ [(lp, (p, fd, d, m))], true)
  else Ret (lp, log, false).

Definition fire_write (lp : aeEventLoop) (log : list (aeEventLoop * call)) (rfired : bool) (fe fd m : Z)
    : outcome (aeEventLoop * list (aeEventLoop * call)) :=
  e ← deref lp fe fd;
  if band (Z.land (mask e) m) AE_WRITABLE then
    w ← initialised (wfileProc e);
    same ← (if rfired then r ← initialised (rfileProc e); Ret (w =? r) else Ret false);
    if negb rfired || negb same then
      d ← initialised (clientData e);
      lp1 ← handler (w, fd, d, m) lp;
      Ret (lp1, log ++ [(lp, (w, fd, d, m))])
    else Ret (lp, log)
  else Ret (lp, log).

Definition process_fired (j : Z) (s : aeEventLoop * list (aeEventLoop * call))
    : outcome (aeEventLoop * list (aeEventLoop * call)) :=
  f ← vget (fired s.1) j;
  let fe := blocks s.1 in
  r ← fire_read s.1 s.2 fe f.1 f.2;
  fire_write r.1.1 r.1.2 r.2 fe f.1 f.2.

(** [aeProcessEvents]: the flags are not looked at. *)
Definition aeProcessEvents (lp : aeEventLoop) (ready : list (Z * Z))
    : outcome (Z * aeEventLoop * list (aeEventLoop * call)) :=
  r ← aeApiPoll lp ready;
  s ← for_loop (Z.to_nat r.1) 0 process_fired (r.2, []);
  Ret (r.1, s.1, s.2).

(** [aeMain], given what [epoll_wait] returns time after time; [bs] is the
    handler that is called before sleeping.  [NoFuel] when the loop still runs. *)
Context (bs : aeEventLoop -> outcome aeEventLoop).

Fixpoint main_rounds (readies : list (list (Z * Z))) (lp : aeEventLoop) (log : list (aeEventLoop * call))
    : outcome (aeEventLoop * list (aeEventLoop * call)) :=
  if negb (stop lp =? 0) then Ret (lp, log)
  else match readies with
       | [] => NoFuel
       | ready :: readies =>
           lp1 ← (match beforesleep lp with Some _ => bs lp | None => Ret lp end);
           r ← aeProcessEvents lp1 ready;
           main_rounds readies r.1.2 (log ++ r.2)
       end.

Definition aeMain (lp : aeEventLoop) (readies : list (list (Z * Z)))
    : outcome (aeEventLoop * list (aeEventLoop * call)) :=
  main_rounds readies (set_stop lp 0) [].
End Dispatch.

(** [aeWait]: [poll] returns [retval] and stores [revents]. *)
Definition POLLIN : Z := 0x001.
Definition POLLOUT : Z := 0x004.
Definition POLLERR : Z := 0x008.
Definition POLLHUP : Z := 0x010.

Definition wait_events (m : Z) : Z :=
  Z.lor (if band m AE_READABLE then POLLIN else 0) (if band m AE_WRITABLE then POLLOUT else 0).

Definition aeWait (poll : Z -> Z -> Z * Z) (fd m : Z) : Z :=
  let '(retval, revents) := poll fd (wait_events m) in
  if retval =? 1 then
    Z.lor (if band revents POLLIN then AE_READABLE else 0)
      (Z.lor (if band revents POLLOUT then AE_WRITABLE else 0)
        (Z.lor (if band revents POLLERR then AE_WRITABLE else 0)
          (if band revents POLLHUP then AE_WRITABLE else 0)))
  else retval.

(** ** The invariant *)

Definition event_ok (e : aeFileEvent) : Prop :=
  0 <= mask e < 4 /\
  (band (mask e) AE_READABLE = true -> exists p, rfileProc e = Some p) /\
  (band (mask e) AE_WRITABLE = true -> exists p, wfileProc e = Some p) /\
  (mask e <> AE_NONE -> exists d, clientData e = Some d).

(** What is registered for a descriptor. *)
Record registration := Reg {
  reg_mask : Z;
  reg_read : option Z;
  reg_write : option Z;
  reg_data : option Z
}.

Definition registered (e : aeFileEvent) : option registration :=
  if mask e =? AE_NONE then None
  else Some (Reg (mask e) (if band (mask e) AE_READABLE then rfileProc e else None)
               (if band (mask e) AE_WRITABLE then wfileProc e else None) (clientData e)).

(** The table of the registrations, by descriptor. *)
Definition table (lp : aeEventLoop) (fd : Z) : option registration :=
  match vget (events lp) fd with Ret e => registered e | _ => None end.

(** [maxfd] is the highest registered descriptor, and the pointers of a
    registered event have been set.  If the loop is [synced], no removal from
    the interest list of the kernel has failed, and the list has exactly the
    registered descriptors with the events of their masks. *)
Record wf_if (synced : bool) (lp : aeEventLoop) : Prop := {
  wf_size : zlen (events lp) = setsize lp;
  wf_fired : zlen (fired lp) = setsize lp;
  wf_max : -1 <= maxfd lp < setsize lp;
  wf_event : forall fd e, vget (events lp) fd = Ret e -> event_ok e;
  wf_high : forall fd r, table lp fd = Some r -> fd <= maxfd lp;
  wf_top : 0 <= maxfd lp -> is_Some (table lp (maxfd lp));
  wf_interest : synced = true -> forall fd, interest lp !! fd = (fun r => ee_events (reg_mask r)) <$> table lp fd
}.

Notation wf := (wf_if true).
Arguments wf_size {_}.
Arguments wf_fired {_}.
Arguments wf_max {_}.
Arguments wf_event {_}.
Arguments wf_high {_}.
Arguments wf_top {_}.
Arguments wf_interest {_}.

Lemma wf_weaken b b' lp : wf_if b lp -> (b' = true -> b = true) -> wf_if b' lp.
Proof. intros [] Hb. split; auto. Qed.

Lemma vget_insert {A} (v : list A) i j a :
  0 <= i < zlen v -> vget (<[Z.to_nat i := a]> v) j = if decide (j = i) then Ret a else vget v j.
Proof.
  intros Hi. destruct (decide (j = i)) as [->|Hne].
  - apply vget_Ret. split; [lia|]. apply list_lookup_insert_eq. len.
  - unfold vget. destruct (Z.ltb_spec j 0); [done|]. by rewrite list_lookup_insert_ne by lia.
Qed.

Lemma table_insert lp lp' fd e :
  events lp' = <[Z.to_nat fd := e]> (events lp) -> 0 <= fd < zlen (events lp) ->
  forall x, table lp' x = if decide (x = fd) then registered e else table lp x.
Proof.
  intros E Hfd x. unfold table. rewrite E, vget_insert by done. by destruct (decide (x = fd)).
Qed.

Lemma registered_Some e r : registered e = Some r -> mask e <> AE_NONE.
Proof. unfold registered. destruct (Z.eqb_spec (mask e) AE_NONE); done. Qed.

Lemma registered_is_Some e : mask e <> AE_NONE -> is_Some (registered e).
Proof. unfold registered. destruct (Z.eqb_spec (mask e) AE_NONE); done. Qed.

(** Changing one entry: what is left to show for the invariant. *)
Lemma wf_update b b' lp fd e m i :
  wf_if b lp -> (b' = true -> b = true) -> 0 <= fd < setsize lp -> event_ok e ->
  let lp' := set_maxfd (set_events (set_interest lp i) (<[Z.to_nat fd := e]> (events lp))) m in
  (b' = true -> i = (match registered e with
                     | Some r => <[fd := ee_events (reg_mask r)]> (interest lp)
                     | None => delete fd (interest lp)
                     end)) ->
  -1 <= m < setsize lp ->
  (forall x r, table lp' x = Some r -> x <= m) -> (0 <= m -> is_Some (table lp' m)) ->
  wf_if b' lp'.
Proof.
  intros [S1 S2 S3 S4 S5 S6 S7] Hb Hfd He lp' Hi Hm Hhigh Htop.
  assert (forall x, table lp' x = if decide (x = fd) then registered e else table lp x) as Ht
    by (apply table_insert; [done|lia]).
  split; try done; simpl.
  - by rewrite zlen_insert.
  - intros x a. rewrite vget_insert by lia. destruct (decide (x = fd)); [by intros [= <-]|apply S4].
  - intros Hb' x. rewrite (Hi Hb'), Ht. specialize (S7 (Hb Hb')). destruct (decide (x = fd)) as [->|Hne].
    + destruct (registered e) as [r|] eqn:Er; simpl; [by rewrite lookup_insert_eq|by rewrite lookup_delete_eq].
    + destruct (registered e); [rewrite lookup_insert_ne by done|rewrite lookup_delete_ne by done]; apply S7.
Qed.

Ltac mask_cases m :=
  let H := fresh in
  assert (m = 0 \/ m = 1 \/ m = 2 \/ m = 3) as H by lia; destruct H as [H|[H|[H|H]]].

Definition spec_create (t : Z -> option registration) (fd m proc data : Z) (x : Z) : option registration :=
  if decide (x = fd) then
    let old := match t fd with Some r => r | None => Reg AE_NONE None None None end in
    Some (Reg (Z.lor (reg_mask old) m)
            (if band m AE_READABLE then Some proc else reg_read old)
            (if band m AE_WRITABLE then Some proc else reg_write old) (Some data))
  else t x.

Definition spec_delete (t : Z -> option registration) (fd m : Z) (x : Z) : option registration :=
  if decide (x = fd) then
    r ← t fd;
    let k := Z.land (reg_mask r) (Z.lnot m) in
    if k =? AE_NONE then None
    else Some (Reg k (if band k AE_READABLE then reg_read r else None)
                 (if band k AE_WRITABLE then reg_write r else None) (reg_data r))
  else t x.

Lemma create_registered e m proc data :
  event_ok e -> 1 <= m <= 3 ->
  let e' := FileEvent (Z.lor (mask e) m) (if band m AE_READABLE then Some proc else rfileProc e)
              (if band m AE_WRITABLE then Some proc else wfileProc e) (Some data) in
  event_ok e' /\ registered e' =
    (let old := match registered e with Some r => r | None => Reg AE_NONE None None None end in
     Some (Reg (Z.lor (reg_mask old) m)
            (if band m AE_READABLE then Some proc else reg_read old)
            (if band m AE_WRITABLE then Some proc else reg_write old) (Some data))).
Proof.
  intros (Hm & Hr & Hw & Hd) Hm' e'. destruct e as [k r w d]. unfold e', event_ok, registered. simpl in *.
  mask_cases k; mask_cases m; subst k m; try lia; cbn in *; (split; [|done]);
    (split; [(lia || done)|]); (split; [|split]); intros ?; (discriminate || eauto).
Qed.

Lemma delete_registered e m :
  event_ok e -> 0 <= m <= 3 ->
  let k := Z.land (mask e) (Z.lnot m) in
  event_ok (set_mask e k) /\ registered (set_mask e k) =
    (r ← registered e;
     let k := Z.land (reg_mask r) (Z.lnot m) in
     if k =? AE_NONE then None
     else Some (Reg k (if band k AE_READABLE then reg_read r else None)
                 (if band k AE_WRITABLE then reg_write r else None) (reg_data r))).
Proof.
  intros (Hm & Hr & Hw & Hd) Hm' k'. destruct e as [k r w d]. unfold k', event_ok, registered. simpl in *.
  mask_cases k; mask_cases m; subst k m; try lia; cbn in *; (split; [|done]);
    (split; [(lia || done)|]); (split; [|split]); intros ?; (discriminate || eauto || (by apply Hd)).
Qed.

(** ** Creating and deleting file events *)

(** The parts of the loop that file events do not touch. *)
Definition same_rest (lp lp' : aeEventLoop) : Prop :=
  setsize lp' = setsize lp /\ blocks lp' = blocks lp /\ fired lp' = fired lp /\ stop lp' = stop lp /\
  beforesleep lp' = beforesleep lp /\ timeEventHead lp' = timeEventHead lp /\
  timeEventNextId lp' = timeEventNextId lp /\ lastTime lp' = lastTime lp.

#[global] Instance same_rest_preorder : PreOrder same_rest.
Proof. split; [done|]. unfold same_rest. intros a b c. intuition congruence. Qed.

Lemma wf_vget b lp fd : wf_if b lp -> 0 <= fd < setsize lp ->
  exists e, vget (events lp) fd = Ret e /\ event_ok e /\ table lp fd = registered e.
Proof.
  intros Hwf Hfd. destruct (vget_in_range (events lp) fd) as [e He]; [rewrite (wf_size _ Hwf); lia|].
  exists e. split; [done|]. split; [by apply (wf_event _ Hwf fd)|]. unfold table. by rewrite He.
Qed.

(** The kernel accepts the operation that the mask calls for. *)
Lemma epoll_add lp fd e ok ev :
  wf lp -> vget (events lp) fd = Ret e ->
  epoll_ctl ok (if mask e =? AE_NONE then EPOLL_CTL_ADD else EPOLL_CTL_MOD) fd ev (interest lp) =
  if ok then Some (<[fd := ev]> (interest lp)) else None.
Proof.
  intros Hwf He. unfold epoll_ctl. destruct ok; [|done]. simpl. rewrite (wf_interest _ Hwf) by done.
  unfold table. rewrite He. unfold registered. by destruct (mask e =? AE_NONE).
Qed.

Lemma epoll_del lp fd e k :
  wf lp -> vget (events lp) fd = Ret e -> mask e <> AE_NONE ->
  epoll_ctl true (if negb (k =? AE_NONE) then EPOLL_CTL_MOD else EPOLL_CTL_DEL) fd (ee_events k) (interest lp) =
  Some (if k =? AE_NONE then delete fd (interest lp) else <[fd := ee_events k]> (interest lp)).
Proof.
  intros Hwf He Hne. unfold epoll_ctl. simpl. rewrite (wf_interest _ Hwf) by done. unfold table. rewrite He.
  unfold registered. rewrite (proj2 (Z.eqb_neq _ _) Hne). simpl. by destruct (k =? AE_NONE).
Qed.

(** The kernel's answer, if the list and the table may have parted. *)
Lemma epoll_add_if b lp fd e ok ev :
  wf_if b lp -> vget (events lp) fd = Ret e ->
  epoll_ctl ok (if mask e =? AE_NONE then EPOLL_CTL_ADD else EPOLL_CTL_MOD) fd ev (interest lp) =
    Some (<[fd := ev]> (interest lp)) /\ ok = true \/
  epoll_ctl ok (if mask e =? AE_NONE then EPOLL_CTL_ADD else EPOLL_CTL_MOD) fd ev (interest lp) = None /\
    (ok = false \/ b = false).
Proof.
  intros Hwf He. destruct b.
  - rewrite (epoll_add lp fd e ok) by done. destruct ok; auto.
  - unfold epoll_ctl. destruct ok; [|auto]. cbn [negb].
    destruct (mask e =? AE_NONE), (interest lp !! fd); simpl; auto.
Qed.

Lemma create_ok b lp fd m proc data ok :
  wf_if b lp -> 0 <= fd -> 1 <= m <= 3 ->
  exists r lp', aeCreateFileEvent lp fd m proc data ok = Ret (r, lp') /\ wf_if b lp' /\ same_rest lp lp' /\
    (r = AE_OK /\ fd < setsize lp /\ ok = true /\
       (forall x, table lp' x = spec_create (table lp) fd m proc data x) \/
     r = AE_ERR /\ lp' = lp /\ (setsize lp <= fd \/ ok = false \/ b = false)).
Proof.
  intros Hwf Hfd Hm. unfold aeCreateFileEvent, aeApiAddEvent.
  destruct (Z.leb_spec (setsize lp) fd) as [Hge|Hlt].
  { eexists _, _. split; [done|]. split; [done|]. split; [done|]. right. auto. }
  destruct (wf_vget b lp fd Hwf ltac:(lia)) as (e & He & Hok & Ht). rewrite He. bind_ret.
  destruct (epoll_add_if b lp fd e ok (ee_events (Z.lor m (mask e))) Hwf He) as [[-> ->]|[-> Hno]].
  2: { eexists _, _. split; [done|]. split; [done|]. split; [done|]. right. auto. }
  bind_ret. cbn [fst snd]. rewrite vset_in_range by (rewrite (wf_size _ Hwf); lia). bind_ret.
  destruct (create_registered e m proc data Hok Hm) as [Hok' Hreg].
  set (e' := FileEvent _ _ _ _) in *. set (i := <[fd := _]> _).
  set (lp1 := set_events (set_interest lp i) (<[Z.to_nat fd := e']> (events lp))).
  exists AE_OK, (set_maxfd lp1 (Z.max (maxfd lp) fd)). split.
  { destruct (Z.ltb_spec (maxfd lp) fd); do 2 f_equal; [by rewrite Z.max_r by lia|].
    rewrite Z.max_l by lia. done. }
  assert (forall x, table (set_maxfd lp1 (Z.max (maxfd lp) fd)) x =
    if decide (x = fd) then registered e' else table lp x) as Htab
    by (apply table_insert; [done|rewrite (wf_size _ Hwf); lia]).
  pose proof (wf_max _ Hwf). split; [|split; [done|left; split; [done|split; [done|split; [done|]]]]].
  - apply (wf_update b); [done|done|lia|done| |lia| |].
    + intros _. rewrite Hreg. unfold i. f_equal. unfold registered. simpl. destruct (Z.eqb_spec (mask e) AE_NONE) as [->|]; simpl; f_equal; apply Z.lor_comm.
    + intros x r. fold lp1. rewrite Htab. destruct (decide (x = fd)); [lia|]. intros Hx.
      pose proof (wf_high _ Hwf x r Hx). lia.
    + intros _. fold lp1. rewrite Htab. destruct (decide (Z.max (maxfd lp) fd = fd)) as [|Hne]; [by rewrite Hreg|].
      rewrite Z.max_l by lia. apply (wf_top _ Hwf). lia.
  - intros x. rewrite Htab. unfold spec_create. rewrite Ht. by destruct (decide (x = fd)).
Qed.

Lemma search_max_ok n es :
  (n <= length es)%nat ->
  exists j, search_max n es = Ret j /\ -1 <= j < Z.of_nat n /\
    (0 <= j -> exists e, vget es j = Ret e /\ mask e <> AE_NONE) /\
    (forall x e, j < x < Z.of_nat n -> vget es x = Ret e -> mask e = AE_NONE).
Proof.
  induction n as [|n IH]; intros Hn; cbn [search_max].
  { exists (-1). split; [done|]. split; [lia|]. split; [lia|]. lia. }
  destruct (vget_in_range es (Z.of_nat n)) as [e He]; [len|]. rewrite He. bind_ret.
  destruct (Z.eqb_spec (mask e) AE_NONE) as [E|E]; cbn [negb].
  - destruct (IH ltac:(lia)) as (j & -> & Hj & Htop & Habove). exists j. split; [done|]. split; [lia|].
    split; [done|]. intros x e' Hx He'. destruct (decide (x = Z.of_nat n)) as [->|]; [congruence|].
    apply (Habove x); [lia|done].
  - exists (Z.of_nat n). split; [done|]. split; [lia|]. split; [eauto|]. lia.
Qed.

(** The search finds the highest registered descriptor. *)
Lemma search_max_table lp n :
  (n <= length (events lp))%nat -> (forall x r, table lp x = Some r -> x < Z.of_nat n) ->
  exists j, search_max n (events lp) = Ret j /\ -1 <= j < Z.of_nat n /\
    (forall x r, table lp x = Some r -> x <= j) /\ (0 <= j -> is_Some (table lp j)).
Proof.
  intros Hn Hhigh. destruct (search_max_ok n (events lp) Hn) as (j & -> & Hj & Htop & Habove).
  exists j. split; [done|]. split; [done|]. split.
  - intros x r Hx. destruct (decide (x <= j)) as [|Hgt]; [done|]. exfalso. pose proof (Hhigh x r Hx).
    unfold table in Hx. destruct (vget (events lp) x) as [e| | |] eqn:E; try done.
    apply registered_Some in Hx. apply Hx. apply (Habove x); [lia|done].
  - intros H0. destruct (Htop H0) as (e & He & Hne). unfold table. rewrite He. by apply registered_is_Some.
Qed.

Lemma delete_found b lp fd e m ok :
  wf_if b lp -> vget (events lp) fd = Ret e -> mask e <> AE_NONE -> 0 <= m <= 3 ->
  exists lp', aeDeleteFileEvent lp fd m ok = Ret lp' /\ wf_if (b && ok) lp' /\ same_rest lp lp' /\
    (forall x, table lp' x =
       if decide (x = fd) then registered (set_mask e (Z.land (mask e) (Z.lnot m))) else table lp x).
Proof.
  intros Hwf He Hne Hm. pose proof (wf_size _ Hwf) as Hsz. pose proof (wf_max _ Hwf) as Hmax.
  assert (0 <= fd < setsize lp) as Hfd.
  { apply vget_Ret in He as [? Hl%lookup_lt_Some]. unfold zlen in Hsz. lia. }
  unfold aeDeleteFileEvent, aeApiDelEvent. rewrite (proj2 (Z.leb_gt _ _)), He by lia. bind_ret.
  rewrite (proj2 (Z.eqb_neq _ _) Hne). cbv zeta.
  destruct (delete_registered e m (wf_event _ Hwf fd e He) Hm) as [Hok' _].
  set (k := Z.land (mask e) (Z.lnot m)) in *. bind_ret.
  assert (exists i, match epoll_ctl ok (if negb (k =? AE_NONE) then EPOLL_CTL_MOD else EPOLL_CTL_DEL) fd
      (ee_events k) (interest lp) with None => lp | Some i => set_interest lp i end = set_interest lp i /\
    (b && ok = true -> i = if k =? AE_NONE then delete fd (interest lp) else <[fd := ee_events k]> (interest lp)))
    as (i & -> & Hi).
  { destruct (b && ok) eqn:Eb.
    - apply andb_true_iff in Eb as [-> ->]. rewrite (epoll_del lp fd e) by done. eauto.
    - destruct (epoll_ctl _ _ _ _ _) as [i|]; [by exists i|]. exists (interest lp). by destruct lp. }
  cbn [set_interest events]. rewrite vset_in_range by lia. bind_ret.
  set (lp1 := set_events (set_interest lp i) (<[Z.to_nat fd := set_mask e k]> (events lp))).
  assert (forall x, table lp1 x = if decide (x = fd) then registered (set_mask e k) else table lp x) as Htab
    by (apply table_insert; [done|lia]).
  assert (forall j, -1 <= j < setsize lp -> (forall x r, table lp1 x = Some r -> x <= j) ->
    (0 <= j -> is_Some (table lp1 j)) -> wf_if (b && ok) (set_maxfd lp1 j)) as Hdone.
  { intros j Hj Hhigh Htop. apply (wf_update b); [done|by destruct b|lia|done| |lia|done|done].
    intros Hb. rewrite (Hi Hb). unfold registered, set_mask. simpl. by destruct (k =? AE_NONE). }
  change (maxfd lp1) with (maxfd lp).
  assert (forall x r, table lp1 x = Some r -> x <= maxfd lp) as Hle.
  { intros x r. rewrite Htab. destruct (decide (x = fd)) as [->|]; [intros _|apply (wf_high _ Hwf)].
    destruct (registered_is_Some e Hne) as [r0 Hr0]. apply (wf_high _ Hwf fd r0). unfold table. by rewrite He. }
  destruct ((fd =? maxfd lp) && (k =? AE_NONE)) eqn:Etop.
  - apply andb_true_iff in Etop as [Efd%Z.eqb_eq Ek%Z.eqb_eq].
    destruct (search_max_table lp1 (Z.to_nat (maxfd lp))) as (j & E & Hj & Hhigh & Htop).
    + simpl. rewrite length_insert. len.
    + intros x r Hx. pose proof (Hle x r Hx). assert (x <> maxfd lp); [|lia]. intros ->.
      rewrite Htab, decide_True in Hx by done. apply registered_Some in Hx. by apply Hx.
    + cbn [lp1 set_events events] in E. rewrite E. bind_ret. exists (set_maxfd lp1 j).
      split; [done|]. split; [apply Hdone; [lia|done|done]|]. by split.
  - exists lp1. split; [done|]. split; [|by split]. apply (Hdone (maxfd lp)); [lia|done|].
    intros H0. rewrite Htab. destruct (decide (maxfd lp = fd)) as [E|]; [|by apply (wf_top _ Hwf)].
    rewrite <- E, Z.eqb_refl in Etop. apply registered_is_Some. simpl. by apply Z.eqb_neq.
Qed.

Lemma delete_ok b lp fd m ok :
  wf_if b lp -> 0 <= fd -> 0 <= m <= 3 ->
  exists lp', aeDeleteFileEvent lp fd m ok = Ret lp' /\ wf_if (b && ok) lp' /\ same_rest lp lp' /\
    (forall x, table lp' x = spec_delete (table lp) fd m x).
Proof.
  intros Hwf Hfd Hm. unfold spec_delete.
  assert (wf_if (b && ok) lp) as Hwf1 by (apply (wf_weaken b); [done|by destruct b]).
  destruct (vget (events lp) fd) as [e| | |] eqn:He.
  2-4: exists lp; assert (table lp fd = None) as Hn by (unfold table; by rewrite He);
    (split; [|split; [done|split; [done|intros x; destruct (decide (x = fd)) as [->|]; [by rewrite Hn|done]]]]);
    unfold aeDeleteFileEvent; destruct (Z.leb_spec (setsize lp) fd) as [|Hlt]; [done|];
    destruct (wf_vget b lp fd Hwf ltac:(lia)) as (e' & He' & _); congruence.
  assert (table lp fd = registered e) as Ht by (unfold table; by rewrite He).
  destruct (delete_registered e m (wf_event _ Hwf fd e He) Hm) as [_ Hreg].
  destruct (Z.eqb_spec (mask e) AE_NONE) as [E|E].
  - exists lp. assert (table lp fd = None) as Hn by (rewrite Ht; unfold registered; by rewrite E).
    split; [|split; [done|split; [done|intros x; destruct (decide (x = fd)) as [->|]; [by rewrite Hn|done]]]].
    unfold aeDeleteFileEvent. destruct (setsize lp <=? fd); [done|]. rewrite He. bind_ret. by rewrite E.
  - destruct (delete_found b lp fd e m ok Hwf He E Hm) as (lp' & -> & Hwf' & Hrest & Htab).
    exists lp'. split; [done|]. split; [done|]. split; [done|]. intros x. rewrite Htab, Ht.
    destruct (decide (x = fd)); [exact Hreg|done].
Qed.

(** ** Creating and resizing the loop *)

Lemma clear_masks n i es :
  0 <= i -> i + Z.of_nat n <= zlen es ->
  returns (for_loop n i clear_mask es) (fun es' => zlen es' = zlen es /\
    forall x, vget es' x = if decide (i <= x < i + Z.of_nat n)
                           then e ← vget es x; Ret (set_mask e AE_NONE) else vget es x).
Proof.
  intros Hi Hn. eapply returns_mono; [apply (for_loop_inv (fun j es' => zlen es' = zlen es /\
    forall x, vget es' x = if decide (i <= x < j) then e ← vget es x; Ret (set_mask e AE_NONE) else vget es x))|].
  - split; [done|]. intros x. by rewrite decide_False by lia.
  - intros j t Hj [Hl Ht]. unfold clear_mask.
    destruct (vget_in_range es j) as [e He]; [lia|]. pose proof (Ht j) as Hj'.
    rewrite decide_False, He in Hj' by lia. rewrite Hj'. bind_ret. rewrite vset_in_range by lia.
    apply returns_ret. rewrite zlen_insert. split; [done|]. intros x. rewrite vget_insert by lia.
    destruct (decide (x = j)) as [->|Hne]; [rewrite decide_True by lia; by rewrite He|].
    rewrite Ht. destruct (decide (i <= x < j)); [by rewrite decide_True by lia|by rewrite decide_False by lia].
  - done.
Qed.

Lemma zlen_take_app {A} (a b : list A) n : 0 <= n -> n <= zlen b -> zlen (take (Z.to_nat n) (a ++ b)) = n.
Proof. intros Hn Hb. unfold zlen in *. rewrite length_take, length_app. lia. Qed.

Lemma create_loop_ok size junk junkf now :
  0 <= size -> zlen junk = size -> zlen junkf = size ->
  exists lp, aeCreateEventLoop size junk junkf now true = Ret (Some lp) /\ wf lp /\ setsize lp = size /\
    forall x, table lp x = None.
Proof.
  intros Hs Hj Hjf. unfold aeCreateEventLoop. rewrite (proj2 (Z.ltb_ge _ _)) by lia. cbn [negb].
  rewrite (take_ge junk), (take_ge junkf) by len.
  destruct (clear_masks (Z.to_nat size) 0 junk) as (es & -> & Hl & Hes); [done|lia|]. bind_ret.
  eexists. split; [done|].
  assert (forall x e, vget es x = Ret e -> mask e = AE_NONE) as Hnone.
  { intros x e. rewrite Hes. destruct (decide _) as [|Hout].
    - destruct (vget junk x); simpl; [by intros [= <-]|done..].
    - rewrite vget_out_of_range; [done|lia]. }
  assert (forall x, table (EventLoop (-1) size 0 now es 0 junkf [] 0 None ∅) x = None) as Ht.
  { intros x. unfold table. cbn [events]. destruct (vget es x) as [e| | |] eqn:E; try done.
    unfold registered. by rewrite (Hnone x e E). }
  split; [|by split]. split; try done.
  - simpl. lia.
  - simpl. lia.
  - intros x e He. simpl in He. pose proof (Hnone x e He) as E. repeat split; rewrite E; try done.
  - intros x r. by rewrite Ht.
  - intros _ x. rewrite Ht. apply lookup_empty.
Qed.

Lemma resize_ok b lp size junk junkf :
  wf_if b lp -> size <= zlen junk -> size <= zlen junkf ->
  exists r lp', aeResizeSetSize lp size junk junkf = Ret (r, lp') /\ wf_if b lp' /\
    (forall x, table lp' x = table lp x) /\
    (r = AE_OK /\ setsize lp' = size /\ (size = setsize lp \/ maxfd lp < size) \/
     r = AE_ERR /\ lp' = lp /\ size <= maxfd lp).
Proof.
  intros Hwf Hj Hjf. unfold aeResizeSetSize.
  destruct (Z.eqb_spec size (setsize lp)) as [->|Hne].
  { eexists _, _. split; [done|]. split; [done|]. split; [done|]. left. auto. }
  destruct (Z.leb_spec size (maxfd lp)) as [Hle|Hgt].
  { eexists _, _. split; [done|]. split; [done|]. split; [done|]. by right. }
  pose proof (wf_max _ Hwf) as Hmax. pose proof (wf_size _ Hwf) as Hsz. set (es := take _ (events lp ++ junk)).
  assert (zlen es = size) as Hes by (apply zlen_take_app; lia).
  destruct (clear_masks (Z.to_nat (size - (maxfd lp + 1))) (maxfd lp + 1) es) as (es1 & -> & Hl & Hes1); [lia|lia|].
  bind_ret. eexists _, _. split; [done|].
  assert (forall x, x <= maxfd lp -> vget es1 x = vget (events lp) x) as Hold.
  { intros x Hx. rewrite Hes1, decide_False by lia. unfold es, vget. destruct (Z.ltb_spec x 0); [done|].
    by rewrite lookup_take_lt, lookup_app_l by len. }
  assert (forall x e, maxfd lp < x -> vget es1 x = Ret e -> mask e = AE_NONE) as Hnew.
  { intros x e Hx. rewrite Hes1. destruct (decide _) as [|Hout].
    - destruct (vget es x); simpl; [by intros [= <-]|done..].
    - rewrite vget_out_of_range; [done|lia]. }
  set (lp' := EventLoop _ _ _ _ _ _ _ _ _ _ _).
  assert (forall x, table lp' x = table lp x) as Ht.
  { intros x. destruct (decide (x <= maxfd lp)) as [Hx|Hx]; [unfold table; simpl; by rewrite Hold|].
    assert (table lp x = None) as ->.
    { destruct (table lp x) as [r|] eqn:E; [|done]. pose proof (wf_high _ Hwf x r E). lia. }
    unfold table. simpl. destruct (vget es1 x) as [e| | |] eqn:E; try done.
    unfold registered. rewrite (Hnew x e); [done|lia|done]. }
  split; [|split; [done|left; split; [done|]; split; [done|by right]]]. split; simpl; try lia.
  - rewrite zlen_take_app; lia.
  - intros x e He. destruct (decide (x <= maxfd lp)) as [Hx|Hx].
    + rewrite Hold in He by done. by apply (wf_event _ Hwf x).
    + assert (mask e = AE_NONE) as E by (apply (Hnew x); [lia|done]). repeat split; rewrite E; try done.
  - intros x r. rewrite Ht. apply (wf_high _ Hwf).
  - rewrite Ht. apply (wf_top _ Hwf).
  - intros Hb x. rewrite Ht. by apply (wf_interest _ Hwf).
Qed.

(** ** The abstract event table

    The number of descriptors it can hold, the registrations, and whether the
    kernel has carried out all removals from its interest list that it was asked
    for.  [spec_step] says what each call does to it and returns.  A loop that
    missed a removal may also be refused a registration: the kernel still
    has the descriptor. *)

Definition spec := (Z * (Z -> option registration) * bool)%type.

(** [ok] is the result of the call of [epoll_ctl] that the operation makes. *)
Inductive file_op :=
  | OpCreate (fd m proc data : Z) (ok : bool)
  | OpDelete (fd m : Z) (ok : bool)
  | OpResize (size : Z) (junk : list aeFileEvent) (junkf : list (Z * Z)).

Inductive spec_step : spec -> file_op -> Z -> spec -> Prop :=
  | spec_created size t b fd m proc data :
      fd < size ->
      spec_step (size, t, b) (OpCreate fd m proc data true) AE_OK (size, spec_create t fd m proc data, b)
  | spec_refused size t b fd m proc data ok :
      size <= fd \/ ok = false \/ b = false ->
      spec_step (size, t, b) (OpCreate fd m proc data ok) AE_ERR (size, t, b)
  | spec_deleted size t b fd m ok :
      spec_step (size, t, b) (OpDelete fd m ok) AE_OK (size, spec_delete t fd m, b && ok)
  | spec_resized size t b size' junk junkf :
      0 <= size' -> (forall x r, t x = Some r -> x < size') ->
      spec_step (size, t, b) (OpResize size' junk junkf) AE_OK (size', t, b)
  | spec_kept size t b size' junk junkf :
      size' < 0 \/ (exists x r, t x = Some r /\ size' <= x) ->
      spec_step (size, t, b) (OpResize size' junk junkf) AE_ERR (size, t, b).

Inductive spec_run : spec -> list file_op -> list Z -> spec -> Prop :=
  | spec_run_nil st : spec_run st [] [] st
  | spec_run_cons st op r st1 ops rs st2 :
      spec_step st op r st1 -> spec_run st1 ops rs st2 -> spec_run st (op :: ops) (r :: rs) st2.

(** The calls of ae.c; [aeDeleteFileEvent] returns nothing. *)
Definition run_op (lp : aeEventLoop) (op : file_op) : outcome (Z * aeEventLoop) :=
  match op with
  | OpCreate fd m proc data ok => aeCreateFileEvent lp fd m proc data ok
  | OpDelete fd m ok => lp1 ← aeDeleteFileEvent lp fd m ok; Ret (AE_OK, lp1)
  | OpResize size junk junkf => aeResizeSetSize lp size junk junkf
  end.

Fixpoint run_ops (lp : aeEventLoop) (ops : list file_op) : outcome (list Z * aeEventLoop) :=
  match ops with
  | [] => Ret ([], lp)
  | op :: ops =>
      r ← run_op lp op;
      rs ← run_ops r.2 ops;
      Ret (r.1 :: rs.1, rs.2)
  end.

(** Descriptors are not negative, and what a reallocation adds is as long as
    needed. *)
Definition op_ok (op : file_op) : Prop :=
  match op with
  | OpCreate fd m _ _ _ => 0 <= fd /\ 1 <= m <= 3
  | OpDelete fd m _ => 0 <= fd /\ 0 <= m <= 3
  | OpResize size junk junkf => size <= zlen junk /\ size <= zlen junkf
  end.

(** The kernel carries out a removal. *)
Definition removal_ok (op : file_op) : bool :=
  match op with OpDelete _ _ ok => ok | _ => true end.

Definition simulates (st : spec) (lp : aeEventLoop) : Prop :=
  wf_if st.2 lp /\ setsize lp = st.1.1 /\ forall x, table lp x = st.1.2 x.

Lemma spec_create_ext t t' fd m p d x : (forall x, t x = t' x) -> spec_create t fd m p d x = spec_create t' fd m p d x.
Proof. intros E. unfold spec_create. rewrite !E. done. Qed.

Lemma spec_delete_ext t t' fd m x : (forall x, t x = t' x) -> spec_delete t fd m x = spec_delete t' fd m x.
Proof. intros E. unfold spec_delete. rewrite !E. done. Qed.

Lemma op_simulated st lp op :
  simulates st lp -> op_ok op ->
  exists r lp' st', run_op lp op = Ret (r, lp') /\ spec_step st op r st' /\ simulates st' lp' /\
    st'.2 = st.2 && removal_ok op.
Proof.
  intros (Hwf & Hsz & Ht) Hop. destruct st as [[size t] b]. cbn [fst snd] in *.
  destruct op as [fd m p d ok|fd m ok|size' junk junkf]; cbn [run_op removal_ok].
  - destruct Hop as [Hfd Hm]. destruct (create_ok b lp fd m p d ok Hwf Hfd Hm) as (r & lp' & -> & Hwf' & Hrest & Hr).
    rewrite andb_true_r. destruct Hr as [(-> & Hlt & -> & Ht')|(-> & -> & Hr)]; eexists _, _, _; (split; [done|]).
    + split; [apply spec_created; lia|]. split; [|done]. split; [done|]. split; [destruct Hrest; cbn [fst]; congruence|].
      intros x. rewrite Ht'. by apply spec_create_ext.
    + split; [apply spec_refused; rewrite <- Hsz; done|]. by split.
  - destruct Hop as [Hfd Hm]. destruct (delete_ok b lp fd m ok Hwf Hfd Hm) as (lp' & -> & Hwf' & Hrest & Ht').
    eexists _, _, _. split; [done|]. split; [apply spec_deleted|]. split; [|done]. split; [done|].
    split; [destruct Hrest; cbn [fst]; congruence|]. intros x. rewrite Ht'. by apply spec_delete_ext.
  - destruct Hop as [Hj Hjf]. destruct (resize_ok b lp size' junk junkf Hwf Hj Hjf) as (r & lp' & -> & Hwf' & Ht' & Hr).
    rewrite andb_true_r.
    pose proof (wf_max _ Hwf) as Hmax. destruct Hr as [(-> & Hs & Hr)|(-> & -> & Hr)]; eexists _, _, _; (split; [done|]).
    + split; [apply spec_resized; [lia|]|split; [split; [done|split; [done|intros x; by rewrite Ht', Ht]]|done]].
      intros x r. rewrite <- Ht. intros Hx. pose proof (wf_high _ Hwf x r Hx). lia.
    + split; [apply spec_kept|by split]. destruct (decide (0 <= maxfd lp)) as [H0|]; [right|left; lia].
      destruct (wf_top _ Hwf H0) as [r Hx]. exists (maxfd lp), r. by rewrite <- Ht.
Qed.

Lemma ops_simulated ops st lp :
  Forall op_ok ops -> simulates st lp ->
  exists rs lp' st', run_ops lp ops = Ret (rs, lp') /\ spec_run st ops rs st' /\ simulates st' lp' /\
    st'.2 = st.2 && forallb removal_ok ops.
Proof.
  intros Hops. revert st lp. induction Hops as [|op ops Hop Hops IH]; intros st lp Hsim.
  - exists [], lp, st. split; [done|]. split; [constructor|]. split; [done|]. simpl. by rewrite andb_true_r.
  - destruct (op_simulated st lp op Hsim Hop) as (r & lp1 & st1 & E & Hstep & Hsim1 & Eb1).
    destruct (IH st1 lp1 Hsim1) as (rs & lp2 & st2 & E2 & Hspec & Hsim2 & Eb2).
    exists (r :: rs), lp2, st2. cbn [run_ops]. rewrite E. bind_ret. cbn [fst snd]. rewrite E2. bind_ret.
    split; [done|]. split; [by econstructor|]. split; [done|]. simpl. by rewrite Eb2, Eb1, andb_assoc.
Qed.



(** A removal that the kernel refuses: the table has let the descriptor go, the
    interest list still has it, and the descriptor cannot be registered again. *)
Example failed_removal :
  match aeCreateEventLoop 4 (replicate 4 (FileEvent 7 None None None)) (replicate 4 (0, 0)) 0 true with
  | Ret (Some lp) =>
      match run_ops lp [OpCreate 2 AE_READABLE 10 20 true; OpDelete 2 AE_READABLE false;
                        OpCreate 2 AE_READABLE 10 20 true] with
      | Ret (rs, lp') => rs = [AE_OK; AE_OK; AE_ERR] /\ table lp' 2 = None /\ interest lp' !! 2 = Some EPOLLIN
      | _ => False
      end
  | _ => False
  end.
Proof. by vm_compute. Qed.

(** ** Dispatching events *)

(** What a handler may do to the loop: calls of ae.c, but no resizing.  If the
    loop is to stay [synced], the removals from the interest list succeed. *)
Inductive api (synced : bool) : aeEventLoop -> aeEventLoop -> Prop :=
  | api_create lp fd m p d ok r lp' :
      0 <= fd -> 1 <= m <= 3 -> aeCreateFileEvent lp fd m p d ok = Ret (r, lp') -> api synced lp lp'
  | api_delete lp fd m ok lp' :
      0 <= fd -> 0 <= m <= 3 -> (synced = true -> ok = true) -> aeDeleteFileEvent lp fd m ok = Ret lp' ->
      api synced lp lp'
  | api_stop lp : api synced lp (aeStop lp)
  | api_timers lp next l : api synced lp (set_timers lp next l).

(** The handler for reading that the entry of a descriptor holds, registered or
    not. *)
Definition read_proc (lp : aeEventLoop) (fd : Z) : option Z :=
  match vget (events lp) fd with Ret e => rfileProc e | _ => None end.

(** What stays as it is while handlers run; a pointer that has been set stays
    set. *)
Definition kept (lp lp' : aeEventLoop) : Prop :=
  setsize lp' = setsize lp /\ blocks lp' = blocks lp /\ fired lp' = fired lp /\
  forall fd, is_Some (read_proc lp fd) -> is_Some (read_proc lp' fd).

#[global] Instance kept_preorder : PreOrder kept.
Proof.
  split; [done|]. intros a b c (A1 & A2 & A3 & A4) (B1 & B2 & B3 & B4). unfold kept.
  split; [congruence|]. split; [congruence|]. split; [congruence|auto].
Qed.

Lemma create_read_proc lp fd m p d ok r lp' x :
  aeCreateFileEvent lp fd m p d ok = Ret (r, lp') -> is_Some (read_proc lp x) -> is_Some (read_proc lp' x).
Proof.
  unfold aeCreateFileEvent. destruct (setsize lp <=? fd); [by intros [= <- <-]|].
  unfold read_proc. intros ([r1 lp1] & E1 & E2)%bind_Ret Hx. cbn [fst snd] in E2.
  destruct (r1 =? -1); [by injection E2 as <- <-|]. apply bind_Ret in E2 as (e & He & (es & Hes & E2)%bind_Ret).
  set (e' := FileEvent _ _ _ _) in *. assert (events lp' = es) as -> by (injection E2 as _ <-; by destruct (_ <? _)).
  clear E2. unfold vset in Hes. destruct (_ || _) eqn:Eb; [done|]. injection Hes as <-.
  apply orb_false_iff in Eb as [Hlo%Z.ltb_ge Hhi%Z.leb_gt]. rewrite vget_insert by (unfold zlen; lia).
  destruct (decide (x = fd)) as [->|]; [|done]. rewrite He in Hx. simpl. by destruct (band m AE_READABLE).
Qed.

Lemma delete_read_proc lp fd m ok lp' x :
  aeDeleteFileEvent lp fd m ok = Ret lp' -> is_Some (read_proc lp x) -> is_Some (read_proc lp' x).
Proof.
  unfold aeDeleteFileEvent. destruct (setsize lp <=? fd); [by intros [= <-]|].
  intros (e & He & E)%bind_Ret Hx. destruct (mask e =? AE_NONE); [by injection E as <-|].
  apply bind_Ret in E as (lp1 & E1 & (es & Hes & E)%bind_Ret).
  assert (events lp1 = events lp) as Ev.
  { unfold aeApiDelEvent in E1. rewrite He in E1. cbn [mbind outcome_bind] in E1. injection E1 as <-.
    by destruct (epoll_ctl _ _ _ _ _). }
  rewrite Ev in Hes. unfold vset in Hes. destruct (_ || _) eqn:Eb; [done|]. injection Hes as <-.
  apply orb_false_iff in Eb as [Hlo%Z.ltb_ge Hhi%Z.leb_gt].
  assert (events lp' = <[Z.to_nat fd := set_mask e (Z.land (mask e) (Z.lnot m))]> (events lp)) as E'.
  { destruct (_ && _); [apply bind_Ret in E as (j & _ & E)|]; by injection E as <-. }
  unfold read_proc in *. rewrite E', vget_insert by (unfold zlen; lia).
  destruct (decide (x = fd)) as [->|]; [|done]. by rewrite He in Hx.
Qed.

Lemma api_wf sy lp lp' : wf_if sy lp -> rtc (api sy) lp lp' -> wf_if sy lp' /\ kept lp lp'.
Proof.
  intros Hwf Hr. apply (rtc_preserves (api sy) (fun l => wf_if sy l /\ kept lp l) lp lp'); [|done|done].
  intros a b [Ha Hk] Hstep. assert (wf_if sy b /\ kept a b) as [Hb Hk'].
  { destruct Hstep as [a fd m p d ok r b Hfd Hm E|a fd m ok b Hfd Hm Hok E|a|a next l].
    - destruct (create_ok sy a fd m p d ok Ha Hfd Hm) as (r' & lp1 & E' & Hwf' & Hrest & _).
      pose proof (fun x => create_read_proc _ _ _ _ _ _ _ _ x E) as Hp.
      rewrite E' in E. injection E as -> ->. split; [done|]. unfold same_rest, kept in *. intuition.
    - destruct (delete_ok sy a fd m ok Ha Hfd Hm) as (lp1 & E' & Hwf' & Hrest & _).
      pose proof (fun x => delete_read_proc _ _ _ _ _ x E) as Hp.
      rewrite E' in E. injection E as ->. split; [apply (wf_weaken _ sy) in Hwf'; [done|destruct sy; auto]|]. unfold same_rest, kept in *. intuition.
    - split; [|done]. by destruct Ha; split.
    - split; [|done]. by destruct Ha; split. }
  split; [done|]. by transitivity a.
Qed.

(** The handler that is called is registered for the event at the moment of the
    call, and gets its data. *)
Definition valid_call (c : aeEventLoop * call) : Prop :=
  let '(lp, (p, fd, d, m)) := c in
  exists r, table lp fd = Some r /\ reg_data r = Some d /\
    (band (Z.land (reg_mask r) m) AE_READABLE = true /\ reg_read r = Some p \/
     band (Z.land (reg_mask r) m) AE_WRITABLE = true /\ reg_write r = Some p).

(** An event that fired and is registered: its pointers are set. *)
Lemma fired_registered b lp fd e m (readable : bool) :
  wf_if b lp -> vget (events lp) fd = Ret e -> 0 <= m < 4 ->
  band (Z.land (mask e) m) (if readable then AE_READABLE else AE_WRITABLE) = true ->
  exists p d, (if readable then rfileProc e else wfileProc e) = Some p /\ clientData e = Some d /\
    table lp fd = registered e /\ valid_call (lp, (p, fd, d, m)).
Proof.
  intros Hwf He Hm Hb. pose proof (wf_event _ Hwf fd e He) as (Hmask & Hr & Hw & Hd).
  assert (table lp fd = registered e) as Ht by (unfold table; by rewrite He).
  destruct e as [k r w d]. simpl in *. unfold valid_call. rewrite Ht. unfold registered. simpl.
  destruct readable.
  - mask_cases k; mask_cases m; subst k m; try discriminate Hb; cbn in Hr, Hd;
      destruct Hd as [dd ->]; try done; destruct Hr as [p ->]; try done;
      exists p, dd; cbn; eauto 10.
  - mask_cases k; mask_cases m; subst k m; try discriminate Hb; cbn in Hw, Hd;
      destruct Hd as [dd ->]; try done; destruct Hw as [p ->]; try done;
      exists p, dd; cbn; eauto 10.
Qed.

Lemma fired_mask_range ev : 0 <= fired_mask ev < 4.
Proof.
  unfold fired_mask. destruct (band ev EPOLLIN), (band ev EPOLLOUT), (band ev EPOLLERR), (band ev EPOLLHUP);
    cbn; done.
Qed.

Definition fired_of (e : Z * Z) : Z * Z := (e.1, fired_mask e.2).

Lemma poll_ok lp ready :
  zlen ready <= zlen (fired lp) ->
  aeApiPoll lp ready = Ret (zlen ready, set_fired lp ((fired_of <$> ready) ++ drop (length ready) (fired lp))).
Proof.
  intros Hl. unfold aeApiPoll.
  destruct (for_loop_inv (fun i f => f = (fired_of <$> take (Z.to_nat i) ready) ++ drop (Z.to_nat i) (fired lp))
    (fun j f => e ← vget ready j; vset f j (e.1, fired_mask e.2)) (length ready) 0 (fired lp)) as (f & -> & Hf).
  - done.
  - intros i f Hi ->. destruct (lookup_lt_is_Some_2 ready (Z.to_nat i)) as [e He]; [lia|].
    rewrite (proj2 (vget_Ret _ i e)) by (split; [lia|done]). bind_ret.
    destruct (drop (Z.to_nat i) (fired lp)) as [|x r] eqn:Ed.
    { apply (f_equal length) in Ed. rewrite length_drop in Ed. simpl in Ed. unfold zlen in Hl. lia. }
    set (t := fired_of <$> take (Z.to_nat i) ready).
    assert (Z.to_nat i = length t) as Et by (unfold t; rewrite length_fmap, length_take; lia).
    rewrite vset_in_range by (unfold zlen; rewrite length_app; simpl; lia). apply returns_ret.
    replace (Z.to_nat (i + 1)) with (S (Z.to_nat i)) by lia.
    rewrite (take_S_r _ _ _ He), fmap_app, <- app_assoc. fold t. rewrite Et at 1.
    rewrite insert_app_r_alt, Nat.sub_diag by lia. simpl. unfold fired_of at 1. do 2 f_equal.
    rewrite <- Nat.add_1_r, <- drop_drop, Ed. done.
  - bind_ret. do 3 f_equal. rewrite Hf, Z.add_0_l, Nat2Z.id, take_ge by lia. done.
Qed.

Section DispatchProofs.
Context (handler : call -> aeEventLoop -> outcome aeEventLoop).
Context (sy : bool).
Context (Hhandler : forall c lp, wf_if sy lp -> exists lp', handler c lp = Ret lp' /\ rtc (api sy) lp lp').

Lemma handler_ok c lp : wf_if sy lp -> exists lp', handler c lp = Ret lp' /\ wf_if sy lp' /\ kept lp lp'.
Proof.
  intros Hwf. destruct (Hhandler c lp Hwf) as (lp' & E & Hr). exists lp'. split; [done|]. by apply api_wf.
Qed.

(** The calls for one fired event. *)
Definition calls_of (fd m : Z) (new : list (aeEventLoop * call)) : Prop :=
  Forall valid_call new /\ Forall (fun c => exists l p d, c = (l, (p, fd, d, m))) new.

Lemma calls_of_nil fd m : calls_of fd m [].
Proof. by split. Qed.

Lemma calls_of_app fd m a b : calls_of fd m a -> calls_of fd m b -> calls_of fd m (a ++ b).
Proof. intros [H1 H2] [H3 H4]. split; by apply Forall_app. Qed.

Lemma calls_of_one lp p fd d m : valid_call (lp, (p, fd, d, m)) -> calls_of fd m [(lp, (p, fd, d, m))].
Proof. intros H. split; constructor; [done|constructor|eauto|constructor]. Qed.

Lemma deref_ok sy' lp fd b : wf_if sy' lp -> 0 <= fd < setsize lp -> blocks lp = b ->
  exists e, deref lp b fd = Ret e /\ vget (events lp) fd = Ret e.
Proof.
  intros Hwf Hfd <-. destruct (wf_vget _ lp fd Hwf Hfd) as (e & He & _). exists e.
  unfold deref. by rewrite Z.eqb_refl.
Qed.

Lemma fire_read_ok lp log fd m :
  wf_if sy lp -> 0 <= fd < setsize lp -> 0 <= m < 4 ->
  returns (fire_read handler lp log (blocks lp) fd m) (fun s => wf_if sy s.1.1 /\ kept lp s.1.1 /\
    (s.2 = true -> is_Some (read_proc s.1.1 fd)) /\
    exists new, s.1.2 = log ++ new /\ calls_of fd m new).
Proof.
  intros Hwf Hfd Hm. unfold fire_read.
  destruct (deref_ok _ lp fd _ Hwf Hfd eq_refl) as (e & -> & He). bind_ret.
  destruct (band (Z.land (mask e) m) AE_READABLE) eqn:Eb.
  - destruct (fired_registered _ lp fd e m true Hwf He Hm Eb) as (p & d & Ep & Ed & _ & Hv).
    rewrite Ep, Ed. simpl. destruct (handler_ok (p, fd, d, m) lp Hwf) as (lp1 & -> & Hwf1 & Hk). bind_ret.
    apply returns_ret. split; [done|]. split; [done|]. split.
    + intros _. apply Hk. unfold read_proc. rewrite He. eauto.
    + eexists. split; [done|]. by apply calls_of_one.
  - apply returns_ret. split; [done|]. split; [done|]. split; [done|]. exists [].
    rewrite app_nil_r. split; [done|apply calls_of_nil].
Qed.

Lemma fire_write_ok lp log rfired b fd m :
  wf_if sy lp -> 0 <= fd < setsize lp -> 0 <= m < 4 -> blocks lp = b -> (rfired = true -> is_Some (read_proc lp fd)) ->
  returns (fire_write handler lp log rfired b fd m) (fun s => wf_if sy s.1 /\ kept lp s.1 /\
    exists new, s.2 = log ++ new /\ calls_of fd m new).
Proof.
  intros Hwf Hfd Hm Hb Hr. unfold fire_write.
  destruct (deref_ok _ lp fd b Hwf Hfd Hb) as (e & -> & He). bind_ret.
  assert (returns (Ret (lp, log)) (fun s => wf_if sy s.1 /\ kept lp s.1 /\
    exists new, s.2 = log ++ new /\ calls_of fd m new)) as Hsame.
  { apply returns_ret. split; [done|]. split; [done|]. exists []. rewrite app_nil_r. split; [done|apply calls_of_nil]. }
  destruct (band (Z.land (mask e) m) AE_WRITABLE) eqn:Eb; [|done].
  destruct (fired_registered _ lp fd e m false Hwf He Hm Eb) as (w & d & Ew & Ed & _ & Hv). rewrite Ew, Ed. simpl.
  assert (exists same, (if rfired then r ← initialised (rfileProc e); Ret (w =? r) else Ret false) = Ret same)
    as [same ->].
  { destruct rfired; [|eauto]. destruct (Hr eq_refl) as [r Er]. unfold read_proc in Er. rewrite He in Er.
    rewrite Er. simpl. eauto. }
  bind_ret. destruct (negb rfired || negb same); [|done].
  destruct (handler_ok (w, fd, d, m) lp Hwf) as (lp1 & -> & Hwf1 & Hk). bind_ret. apply returns_ret.
  split; [done|]. split; [done|]. eexists. split; [done|]. by apply calls_of_one.
Qed.

Lemma process_fired_ok j lp log fd m :
  wf_if sy lp -> vget (fired lp) j = Ret (fd, m) -> 0 <= fd < setsize lp -> 0 <= m < 4 ->
  returns (process_fired handler j (lp, log)) (fun s => wf_if sy s.1 /\ kept lp s.1 /\
    exists new, s.2 = log ++ new /\ calls_of fd m new).
Proof.
  intros Hwf Hf Hfd Hm. unfold process_fired. cbn [fst snd]. rewrite Hf. bind_ret. cbn [fst snd].
  eapply returns_bind; [by apply fire_read_ok|].
  intros [[lp1 log1] rf] (Hwf1 & Hk & Hrf & new & -> & Hnew). cbn [fst snd] in *.
  pose proof Hk as (Hs & Hblk & _). eapply returns_mono; [apply fire_write_ok; [done|lia|done|done|done]|].
  intros [lp2 log2] (Hwf2 & Hk2 & new2 & -> & Hnew2). cbn [fst snd]. split; [done|]. split.
  - by transitivity lp1.
  - exists (new ++ new2). rewrite app_assoc. split; [done|]. by apply calls_of_app.
Qed.
End DispatchProofs.

(** What [epoll_wait] returns: at most [setsize] events, of descriptors in the
    interest list. *)
Definition ready_ok (lp : aeEventLoop) (ready : list (Z * Z)) : Prop :=
  zlen ready <= setsize lp /\ Forall (fun e => is_Some (interest lp !! e.1)) ready.

Lemma ready_fds lp ready : wf lp -> ready_ok lp ready -> Forall (fun e => 0 <= e.1 < setsize lp) ready.
Proof.
  intros Hwf [_ Hr]. eapply Forall_impl; [exact Hr|]. intros [fd ev] [x Hx]. cbn [fst] in *.
  rewrite (wf_interest _ Hwf) in Hx by done. destruct (table lp fd) as [r|] eqn:Et; [|done].
  pose proof (wf_high _ Hwf fd r Et). pose proof (wf_max _ Hwf). split; [|lia].
  unfold table in Et. destruct (vget (events lp) fd) as [e| | |] eqn:E; try done. by apply vget_Ret in E as [? _].
Qed.

(** C24: dispatching is safe whatever the handlers do.  If the handlers use the
    loop through its calls (creating and deleting file events, of their own and
    of other descriptors, stopping, timers) and [epoll_wait] returns descriptors
    of the interest list, [aeProcessEvents] returns the number of events, the
    invariant holds afterwards, no pointer that was not set is read, and each
    call goes to a handler that is registered for a fired event at the moment
    of the call, with the data and the mask of that event.  The interest list
    agrees with the table afterwards if the removals of the handlers
    succeed ([synced]); the rest holds also if they fail. *)
Theorem process_events_safe synced handler lp ready :
  (forall c lp, wf_if synced lp -> exists lp', handler c lp = Ret lp' /\ rtc (api synced) lp lp') ->
  wf lp -> ready_ok lp ready ->
  exists lp' log, aeProcessEvents handler lp ready = Ret (zlen ready, lp', log) /\ wf_if synced lp' /\
    Forall valid_call log /\
    Forall (fun c => exists l p fd d ev, c = (l, (p, fd, d, fired_mask ev)) /\ (fd, ev) ∈ ready) log.
Proof.
  intros Hh Hwf Hr. pose proof (ready_fds lp ready Hwf Hr) as Hfds. destruct Hr as [Hlen _].
  unfold aeProcessEvents. rewrite poll_ok by (rewrite (wf_fired _ Hwf); done). bind_ret. cbn [fst snd].
  set (lp0 := set_fired lp _).
  assert (wf_if synced lp0) as Hwf0.
  { destruct Hwf as [W1 W2 W3 W4 W5 W6 W7]. split; try done; [|by auto]. simpl. rewrite <- W2. unfold zlen in *.
    rewrite length_app, length_fmap, length_drop. lia. }
  replace (Z.to_nat (zlen ready)) with (length ready) by len.
  destruct (for_loop_inv (fun i s => wf_if synced s.1 /\ kept lp0 s.1 /\ Forall valid_call s.2 /\
    Forall (fun c => exists l p fd d ev, c = (l, (p, fd, d, fired_mask ev)) /\ (fd, ev) ∈ ready) s.2)
    (process_fired handler) (length ready) 0 (lp0, [])) as ([lp' log] & E & Hwf' & _ & Hv & Hin).
  - split; [exact Hwf0|]. split; [reflexivity|]. by split.
  - intros j [l log] Hj (Hl & Hk & Hv & Hin). cbn [fst snd] in *.
    destruct (lookup_lt_is_Some_2 ready (Z.to_nat j)) as [[fd ev] He]; [lia|].
    assert (vget (fired l) j = Ret (fd, fired_mask ev)) as Hf.
    { destruct Hk as (_ & _ & -> & _). apply vget_Ret. split; [lia|]. simpl.
      rewrite lookup_app_l by (rewrite length_fmap; lia). by rewrite list_lookup_fmap, He. }
    pose proof (Forall_lookup_1 _ _ _ _ Hfds He) as Hfd. cbn [fst] in Hfd.
    eapply returns_mono; [apply (process_fired_ok handler synced Hh j l log fd (fired_mask ev)); try done|].
    + destruct Hk as (-> & _). exact Hfd.
    + apply fired_mask_range.
    + intros [l2 log2] (Hl2 & Hk2 & new & -> & Hn1 & Hn2). cbn [fst snd] in *. split; [done|].
      split; [by transitivity l|]. rewrite !Forall_app. repeat split; try done.
      eapply Forall_impl; [exact Hn2|]. intros c (l0 & p & d & ->). exists l0, p, fd, d, ev.
      split; [done|]. by apply list_elem_of_lookup_2 in He.
  - rewrite E. bind_ret. by exists lp', log.
Qed.

(** The calls for an event when handlers leave the loop alone: reading first,
    and a handler for both directions only once. *)
Definition calls_for (lp : aeEventLoop) (e : Z * Z) : list (aeEventLoop * call) :=
  let '(fd, ev) := e in
  let m := fired_mask ev in
  match table lp fd with
  | Some (Reg k r w (Some d)) =>
      match (if band (Z.land k m) AE_READABLE then r else None), (if band (Z.land k m) AE_WRITABLE then w else None) with
      | Some r, Some w => if w =? r then [(lp, (r, fd, d, m))] else [(lp, (r, fd, d, m)); (lp, (w, fd, d, m))]
      | Some r, None => [(lp, (r, fd, d, m))]
      | None, Some w => [(lp, (w, fd, d, m))]
      | None, None => []
      end
  | _ => []
  end.

(** Conditions on given masks. *)
Ltac bands :=
  repeat match goal with
    | |- context [band ?a ?b] => let v := eval vm_compute in (band a b) in change (band a b) with v
    | |- context [?a =? AE_NONE] =>
        let v := eval vm_compute in (a =? AE_NONE) in change (a =? AE_NONE) with v
    end; cbv iota.

Lemma process_fired_passive handler lp log j fd ev :
  (forall c lp, handler c lp = Ret lp) -> wf lp -> vget (fired lp) j = Ret (fd, fired_mask ev) -> 0 <= fd < setsize lp ->
  process_fired handler j (lp, log) = Ret (lp, log ++ calls_for lp (fd, ev)).
Proof.
  intros Hh Hwf Hf Hfd. unfold process_fired, fire_read, fire_write. cbn [fst snd]. rewrite Hf. bind_ret. cbn [fst snd].
  destruct (deref_ok _ lp fd _ Hwf Hfd eq_refl) as (e & Ed & He). rewrite Ed. bind_ret.
  pose proof (fired_mask_range ev) as Hm. pose proof (wf_event _ Hwf fd e He) as (Hk & Hr & Hw & Hd).
  unfold calls_for, table. rewrite He. unfold registered. set (m := fired_mask ev) in *. clearbody m.
  destruct e as [k r w d]. cbn [mask rfileProc wfileProc clientData] in *.
  mask_cases k; mask_cases m; subst k m; try (destruct Hd as [dd ->]; [done|]);
    try (destruct Hr as [rr ->]; [done|]); try (destruct Hw as [ww ->]; [done|]);
    repeat (bands; cbn [mbind outcome_bind initialised fst snd negb orb mask rfileProc wfileProc clientData];
            rewrite ?Hh, ?Ed); rewrite ?app_nil_r; try done;
    match goal with |- context [?w =? ?r] => destruct (w =? r) end; cbn [negb orb];
    rewrite ?Hh; cbn [mbind outcome_bind]; by rewrite <- ?app_assoc.
Qed.

(** With handlers that leave the loop alone, every fired event is handed
    to exactly the handlers that are registered for it, in the order of the
    kernel's list, reading before writing, and to a handler that is registered
    for both directions only once. *)
Theorem process_events_passive handler lp ready :
  (forall c lp, handler c lp = Ret lp) -> wf lp -> ready_ok lp ready ->
  exists lp', aeProcessEvents handler lp ready = Ret (zlen ready, lp', concat (calls_for lp' <$> ready)) /\
    wf lp' /\ forall fd, table lp' fd = table lp fd.
Proof.
  intros Hh Hwf Hr. pose proof (ready_fds lp ready Hwf Hr) as Hfds. destruct Hr as [Hlen _].
  unfold aeProcessEvents. rewrite poll_ok by (rewrite (wf_fired _ Hwf); done). bind_ret. cbn [fst snd].
  set (lp0 := set_fired lp _). exists lp0.
  assert (wf lp0) as Hwf0.
  { destruct Hwf as [W1 W2 W3 W4 W5 W6 W7]. split; try done. simpl. rewrite <- W2. unfold zlen in *.
    rewrite length_app, length_fmap, length_drop. lia. }
  split; [|by split]. replace (Z.to_nat (zlen ready)) with (length ready) by len.
  destruct (for_loop_inv (fun i s => s = (lp0, concat (calls_for lp0 <$> take (Z.to_nat i) ready)))
    (process_fired handler) (length ready) 0 (lp0, [])) as (s & E & Hs).
  - done.
  - intros j s Hj ->. destruct (lookup_lt_is_Some_2 ready (Z.to_nat j)) as [[fd ev] He]; [lia|].
    rewrite (process_fired_passive handler lp0 _ j fd ev Hh Hwf0).
    + apply returns_ret. replace (Z.to_nat (j + 1)) with (S (Z.to_nat j)) by lia.
      rewrite (take_S_r _ _ _ He), fmap_app, concat_app. simpl. by rewrite app_nil_r.
    + apply vget_Ret. split; [lia|]. simpl. rewrite lookup_app_l by (rewrite length_fmap; lia).
      by rewrite list_lookup_fmap, He.
    + apply (Forall_lookup_1 _ _ _ _ Hfds He).
  - rewrite E. bind_ret. rewrite Hs. cbn [fst snd]. by rewrite Z.add_0_l, Nat2Z.id, take_ge by lia.
Qed.

(** ** Concrete loops *)

Lemma run_ops_wf lp ops :
  wf lp -> Forall op_ok ops -> forallb removal_ok ops = true -> exists rs lp', run_ops lp ops = Ret (rs, lp') /\ wf lp'.
Proof.
  intros Hwf Hops Hok.
  destruct (ops_simulated ops (setsize lp, table lp, true) lp Hops) as (rs & lp' & st & E & _ & (Hwf' & _) & Hb); [done|].
  exists rs, lp'. split; [done|]. rewrite Hb, Hok in Hwf'. done.
Qed.

(** A loop for four descriptors, of which 2 is registered for reading and 3 for
    both directions with the same handler. *)
Definition demo_ops : list file_op :=
  [OpCreate 2 AE_READABLE 10 20 true; OpCreate 3 AE_READABLE 11 21 true; OpCreate 3 AE_WRITABLE 11 21 true].

Definition demo_loop : option aeEventLoop :=
  match aeCreateEventLoop 4 (replicate 4 (FileEvent 7 None None None)) (replicate 4 (0, 0)) 0 true with
  | Ret (Some lp) => match run_ops lp demo_ops with Ret (_, lp') => Some lp' | _ => None end
  | _ => None
  end.

Lemma demo_loop_ok : exists lp, demo_loop = Some lp /\ wf lp /\ ready_ok lp [(2, EPOLLIN); (3, EPOLLIN + EPOLLOUT)].
Proof.
  unfold demo_loop.
  destruct (create_loop_ok 4 (replicate 4 (FileEvent 7 None None None)) (replicate 4 (0, 0)) 0)
    as (lp & E & Hwf & _); [done..|].
  destruct (run_ops_wf lp demo_ops Hwf) as (rs & lp' & Er & Hwf'); [by repeat constructor|done|].
  rewrite E, Er. exists lp'. split; [done|]. split; [done|]. clear Hwf Hwf'.
  vm_compute in E. injection E as <-. vm_compute in Er. injection Er as _ <-.
  split; [done|]. repeat constructor; by eexists.
Qed.

(** A handler that takes the registration of descriptor 3 away: the event of
    that descriptor is not dispatched any more. *)
Lemma process_events_safe_witness :
  exists lp lp' log, demo_loop = Some lp /\
    aeProcessEvents (fun _ lp => aeDeleteFileEvent lp 3 3 true) lp [(2, EPOLLIN); (3, EPOLLIN + EPOLLOUT)] =
      Ret (2, lp', log) /\ wf lp' /\ Forall valid_call log.
Proof.
  destruct demo_loop_ok as (lp & E & Hwf & Hr).
  destruct (process_events_safe true (fun _ lp => aeDeleteFileEvent lp 3 3 true) lp [(2, EPOLLIN); (3, EPOLLIN + EPOLLOUT)]) as (lp' & log & Ep & Hwf' & Hv & _);
    [|exact Hwf|exact Hr|].
  - intros c l Hl. destruct (delete_ok true l 3 3 true Hl) as (l' & El & _); [done|done|].
    exists l'. split; [done|]. apply rtc_once, (api_delete true l 3 3 true); (done || lia).
  - by exists lp, lp', log.
Defined.

Lemma process_events_passive_witness :
  exists lp lp', demo_loop = Some lp /\
    aeProcessEvents (fun _ lp => Ret lp) lp [(2, EPOLLIN); (3, EPOLLIN + EPOLLOUT)] =
      Ret (2, lp', concat (calls_for lp' <$> [(2, EPOLLIN); (3, EPOLLIN + EPOLLOUT)])).
Proof.
  destruct demo_loop_ok as (lp & E & Hwf & Hr).
  destruct (process_events_passive (fun _ lp => Ret lp) lp _ (fun _ _ => eq_refl) Hwf Hr) as (lp' & Ep & _).
  by exists lp, lp'.
Defined.

(** The calls of these two runs: one call in the first, two in the second. *)
Example demo_calls :
  match demo_loop with
  | Some lp =>
      match aeProcessEvents (fun _ lp => aeDeleteFileEvent lp 3 3 true) lp [(2, EPOLLIN); (3, EPOLLIN + EPOLLOUT)],
            aeProcessEvents (fun _ lp => Ret lp) lp [(2, EPOLLIN); (3, EPOLLIN + EPOLLOUT)] with
      | Ret (_, lp1, log1), Ret (_, _, log2) =>
          snd <$> log1 = [(10, 2, 20, 1)] /\ maxfd lp1 = 2 /\
          snd <$> log2 = [(10, 2, 20, 1); (11, 3, 21, 3)]
      | _, _ => False
      end
  | None => False
  end.
Proof. by vm_compute. Qed.

(** A handler that resizes the loop: [fe] points into the old array, which has
    been reallocated, when the second half of the round looks at it. *)
Example resize_in_handler :
  match demo_loop with
  | Some lp => aeProcessEvents (fun _ lp => r ← aeResizeSetSize lp 8 (replicate 8 (FileEvent 7 None None None))
      (replicate 8 (0, 0)); Ret r.2) lp [(3, EPOLLIN + EPOLLOUT)] = Undef BadPointer
  | None => False
  end.
Proof. by vm_compute. Qed.

(** A descriptor that was closed without [aeDeleteFileEvent] leaves its
    registration behind: when the number is used again, the new descriptor cannot
    be registered, because the loop asks the kernel to modify an entry that it
    no longer has. *)
Lemma stale_registration_refused lp fd r m p d :
  wf lp -> 0 <= fd < setsize lp -> table lp fd = Some r ->
  let closed := set_interest lp (delete fd (interest lp)) in
  aeCreateFileEvent closed fd m p d true = Ret (AE_ERR, closed).
Proof.
  intros Hwf Hfd Ht closed. unfold aeCreateFileEvent, aeApiAddEvent. cbn [setsize closed set_interest events].
  rewrite (proj2 (Z.leb_gt _ _)) by lia. destruct (wf_vget _ lp fd Hwf Hfd) as (e & -> & _ & Ht'). bind_ret.
  rewrite Ht' in Ht. apply registered_Some in Ht. rewrite (proj2 (Z.eqb_neq _ _) Ht).
  unfold epoll_ctl. simpl. by rewrite lookup_delete_eq.
Qed.

(** [aeMain] goes on until a handler stops the loop, and returns then. *)
Lemma main_stops handler bs lp ready readies r :
  stop lp = 0 -> beforesleep lp = None -> aeProcessEvents handler lp ready = Ret r -> stop r.1.2 <> 0 ->
  main_rounds handler bs (ready :: readies) lp [] = Ret (r.1.2, r.2).
Proof.
  intros Hs Hb E Hst. cbn [main_rounds]. rewrite Hs, Hb. cbn [negb Z.eqb]. bind_ret. rewrite E. bind_ret.
  rewrite app_nil_l. destruct readies; cbn [main_rounds]; rewrite (proj2 (Z.eqb_neq _ _) Hst); done.
Qed.
