(* ===== verification/AeTimer.v ===== *)
(** * The event loop of the HTTP samples: time events

    src/c/20171011_ae_httpd/ae.c, from [aeGetTime] to [processTimeEvents].  The
    linked list is a list; since nodes are added at its head only, a pointer to
    a node is the number of nodes from it to the end, which insertions leave
    as it is.  The clock readings are arguments. *)

From stdpp Require Import base list numbers gmap.
From Stdlib Require Import ZArith Lia.
From S2P Require Import Prelude AeLoop.

Open Scope Z_scope.

Definition AE_NOMORE : Z := -1.
Definition AE_DELETED_EVENT_ID : Z := -1.

(** [aeAddMillisecondsToNow] at the time [now], seconds and milliseconds. *)
Definition aeAddMillisecondsToNow (milliseconds : Z) (now : Z * Z) : Z * Z :=
  let when_sec := now.1 + Z.quot milliseconds 1000 in
  let when_ms := now.2 + Z.rem milliseconds 1000 in
  if 1000 <=? when_ms then (when_sec + 1, when_ms - 1000) else (when_sec, when_ms).

(** [aeGetTime]: [gettimeofday] gives seconds and microseconds. *)
Definition aeGetTime (tv : Z * Z) : Z * Z := (tv.1, Z.quot tv.2 1000).

Definition aeCreateTimeEvent (lp : aeEventLoop) (milliseconds proc data : Z) (finalizer : option Z)
    (now : Z * Z) : Z * aeEventLoop :=
  let id := timeEventNextId lp in
  let w := aeAddMillisecondsToNow milliseconds now in
  let te := TimeEvent id w.1 w.2 proc finalizer data in
  (id, set_timers lp (timeEventNextId lp + 1) (te :: timeEventHead lp)).

Definition set_id (te : aeTimeEvent) (id : Z) : aeTimeEvent :=
  TimeEvent id (when_sec te) (when_ms te) (timeProc te) (finalizerProc te) (te_data te).
Definition set_when (te : aeTimeEvent) (w : Z * Z) : aeTimeEvent :=
  TimeEvent (te_id te) w.1 w.2 (timeProc te) (finalizerProc te) (te_data te).

(** The first event with the identifier is marked as deleted. *)
Fixpoint mark_deleted (id : Z) (l : list aeTimeEvent) : option (list aeTimeEvent) :=
  match l with
  | [] => None
  | te :: l =>
      if te_id te =? id then Some (set_id te AE_DELETED_EVENT_ID :: l)
      else l' ← mark_deleted id l; Some (te :: l')
  end.

Definition aeDeleteTimeEvent (lp : aeEventLoop) (id : Z) : Z * aeEventLoop :=
  match mark_deleted id (timeEventHead lp) with
  | Some l => (AE_OK, set_timers lp (timeEventNextId lp) l)
  | None => (AE_ERR, lp)
  end.

(** [te->when < nearest->when]. *)
Definition earlier (a b : aeTimeEvent) : bool :=
  (when_sec a <? when_sec b) || ((when_sec a =? when_sec b) && (when_ms a <? when_ms b)).

Fixpoint search_nearest (l : list aeTimeEvent) (nearest : option aeTimeEvent) : option aeTimeEvent :=
  match l with
  | [] => nearest
  | te :: l =>
      search_nearest l (match nearest with
                        | None => Some te
                        | Some n => if earlier te n then Some te else Some n
                        end)
  end.

Definition aeSearchNearestTimer (lp : aeEventLoop) : option aeTimeEvent :=
  search_nearest (timeEventHead lp) None.

(** ** [processTimeEvents] *)

(** The node from which [k] nodes are left, and the nodes behind it. *)
Definition node (l : list aeTimeEvent) (k : nat) : option aeTimeEvent := l !! (length l - k)%nat.
Definition behind (l : list aeTimeEvent) (k : nat) : list aeTimeEvent := drop (length l - k + 1)%nat l.

Definition update_node (l : list aeTimeEvent) (k : nat) (f : aeTimeEvent -> aeTimeEvent) : list aeTimeEvent :=
  alter f (length l - k)%nat l.

(** [timeEventHead = te->next], or [prev->next = te->next]. *)
Definition unlink (l : list aeTimeEvent) (prev : option nat) (k : nat) : list aeTimeEvent :=
  match prev with
  | None => behind l k
  | Some q => take (length l - q + 1) l ++ behind l k
  end.

Section Process.
(** The handlers: what they do to the loop, and what a time procedure returns. *)
Context (time_proc : Z -> Z -> Z -> aeEventLoop -> aeEventLoop * Z).
Context (finalizer : Z -> Z -> aeEventLoop -> aeEventLoop).
(** The clock when the node with [k] nodes left is looked at, and when it is
    scheduled again. *)
Context (clock clock_after : nat -> Z * Z).

Definition due (te : aeTimeEvent) (now : Z * Z) : bool :=
  (when_sec te <? now.1) || ((now.1 =? when_sec te) && (when_ms te <=? now.2)).

Definition with_timers (lp : aeEventLoop) (l : list aeTimeEvent) : aeEventLoop :=
  set_timers lp (timeEventNextId lp) l.

(** The loop over the events: [te] is the node with [k] nodes left, [prev] the
    number of nodes from the previous one. *)
Fixpoint process_from (k : nat) (prev : option nat) (maxId : Z) (lp : aeEventLoop) (processed : Z)
    : outcome (Z * aeEventLoop) :=
  match k with
  | O => Ret (processed, lp)
  | S k' =>
      let l := timeEventHead lp in
      match node l k with
      | None => Undef BadPointer
      | Some te =>
          if te_id te =? AE_DELETED_EVENT_ID then
            let lp1 := with_timers lp (unlink l prev k) in
            let lp2 := match finalizerProc te with Some f => finalizer f (te_data te) lp1 | None => lp1 end in
            process_from k' (q ← prev; Some (q - 1)%nat) maxId lp2 processed
          else if maxId <? te_id te then process_from k' prev maxId lp processed
          else if due te (clock k) then
            let '(lp1, retval) := time_proc (timeProc te) (te_id te) (te_data te) lp in
            let l1 := timeEventHead lp1 in
            let lp2 := with_timers lp1 (update_node l1 k (fun te =>
              if negb (retval =? AE_NOMORE) then set_when te (aeAddMillisecondsToNow retval (clock_after k))
              else set_id te AE_DELETED_EVENT_ID)) in
            process_from k' (Some k) maxId lp2 (processed + 1)
          else process_from k' (Some k) maxId lp processed
      end
  end.

Definition processTimeEvents (lp : aeEventLoop) (now : Z) : outcome (Z * aeEventLoop) :=
  let l := if now <? lastTime lp then (fun te => set_when te (0, when_ms te)) <$> timeEventHead lp
           else timeEventHead lp in
  let lp1 := set_lastTime (with_timers lp l) now in
  process_from (length l) None (timeEventNextId lp1 - 1) lp1 0.
End Process.

(** ** Times and identifiers *)

Lemma add_milliseconds ms now :
  0 <= ms -> 0 <= now.2 < 1000 ->
  let w := aeAddMillisecondsToNow ms now in
  w.1 * 1000 + w.2 = now.1 * 1000 + now.2 + ms /\ 0 <= w.2 < 1000.
Proof.
  intros Hms Hnow. unfold aeAddMillisecondsToNow.
  pose proof (Z.quot_rem ms 1000 ltac:(done)) as E. pose proof (Z.rem_bound_pos ms 1000 Hms ltac:(lia)) as Hr.
  destruct (Z.leb_spec 1000 (now.2 + Z.rem ms 1000)); simpl; lia.
Qed.

(** A comparison that takes the two fields together. *)
Definition instant (te : aeTimeEvent) : Z := when_sec te * 1000 + when_ms te.
Definition normal (te : aeTimeEvent) : Prop := 0 <= when_ms te < 1000.

Lemma earlier_spec a b : normal a -> normal b -> earlier a b = true <-> instant a < instant b.
Proof.
  unfold earlier, instant, normal. intros Ha Hb.
  rewrite orb_true_iff, andb_true_iff, !Z.ltb_lt, Z.eqb_eq. lia.
Qed.

Lemma search_nearest_spec l n :
  Forall normal l -> normal n ->
  exists te, search_nearest l (Some n) = Some te /\ te ∈ n :: l /\ normal te /\
    Forall (fun t => instant te <= instant t) (n :: l).
Proof.
  intros Hl. revert n. induction Hl as [|a l Ha Hl IH]; intros n Hn; cbn [search_nearest].
  - exists n. split; [done|]. split; [by left|]. split; [done|]. by repeat constructor.
  - pose proof (earlier_spec a n Ha Hn) as Hs. destruct (earlier a n) eqn:E.
    + destruct (IH a Ha) as (te & -> & Hin & Hte & Hmin). exists te. split; [done|]. split; [by right|].
      split; [done|]. pose proof (proj1 Hs eq_refl). apply Forall_cons in Hmin as [H1 H2].
      constructor; [lia|]. by constructor.
    + destruct (IH n Hn) as (te & -> & Hin & Hte & Hmin). exists te. split; [done|].
      split; [rewrite !elem_of_cons in *; tauto|]. split; [done|].
      assert (instant n <= instant a) by (destruct (Z.le_gt_cases (instant n) (instant a)); [done|]; by apply Hs in H).
      apply Forall_cons in Hmin as [H1 H2]. constructor; [done|]. constructor; [lia|done].
Qed.

(** [aeSearchNearestTimer] returns no timer exactly when there is none, and
    otherwise one that fires no later than any other. *)
Theorem nearest_timer lp :
  Forall normal (timeEventHead lp) ->
  match aeSearchNearestTimer lp with
  | None => timeEventHead lp = []
  | Some te => te ∈ timeEventHead lp /\ Forall (fun t => instant te <= instant t) (timeEventHead lp)
  end.
Proof.
  unfold aeSearchNearestTimer. intros H. destruct H as [|n l Hn Hl]; [done|]. cbn [search_nearest].
  destruct (search_nearest_spec l n Hl Hn) as (te & -> & Hin & _ & Hmin). done.
Qed.

Lemma nearest_timer_witness :
  let lp := EventLoop (-1) 0 3 0 [] 0 [] [TimeEvent 2 5 300 1 None 0; TimeEvent 1 5 200 1 None 0; TimeEvent 0 6 0 1 None 0]
              0 None ∅ in
  aeSearchNearestTimer lp = Some (TimeEvent 1 5 200 1 None 0) /\
  match aeSearchNearestTimer lp with
  | None => timeEventHead lp = []
  | Some te => te ∈ timeEventHead lp /\ Forall (fun t => instant te <= instant t) (timeEventHead lp)
  end.
Proof.
  intros lp. split; [done|]. apply (nearest_timer lp). unfold lp, normal. by repeat constructor.
Defined.

(** The identifiers of the events that are not deleted. *)
Definition live_ids (l : list aeTimeEvent) : list Z :=
  filter (fun id => id <> AE_DELETED_EVENT_ID) (te_id <$> l).
Definition live (lp : aeEventLoop) : list Z := live_ids (timeEventHead lp).

(** They are different and have been given out. *)
Definition timers_ok (lp : aeEventLoop) : Prop :=
  0 <= timeEventNextId lp /\ NoDup (live lp) /\
  Forall (fun te => te_id te < timeEventNextId lp) (timeEventHead lp).

Lemma live_ids_app a b : live_ids (a ++ b) = live_ids a ++ live_ids b.
Proof. unfold live_ids. by rewrite fmap_app, filter_app. Qed.

Lemma live_ids_cons te l :
  live_ids (te :: l) = if decide (te_id te = AE_DELETED_EVENT_ID) then live_ids l else te_id te :: live_ids l.
Proof.
  unfold live_ids. csimpl. rewrite filter_cons. destruct (decide (te_id te = AE_DELETED_EVENT_ID)) as [E|E].
  - rewrite decide_False by (rewrite E; auto). done.
  - by rewrite decide_True.
Qed.

Lemma mark_deleted_spec id l :
  id <> AE_DELETED_EVENT_ID ->
  match mark_deleted id l with
  | None => id ∉ live_ids l
  | Some l' => exists a b te, l = a ++ te :: b /\ te_id te = id /\ l' = a ++ set_id te AE_DELETED_EVENT_ID :: b
  end.
Proof.
  intros Hid. induction l as [|te l IH]; [apply not_elem_of_nil|]. cbn [mark_deleted].
  destruct (Z.eqb_spec (te_id te) id) as [E|E].
  - by exists [], l, te.
  - destruct (mark_deleted id l) as [l'|]; simpl.
    + destruct IH as (a & b & t & -> & Ht & ->). by exists (te :: a), b, t.
    + rewrite live_ids_cons. destruct (decide _); [done|]. rewrite elem_of_cons. by intros [?|?].
Qed.

(** Time events are created with a fresh identifier and at the right
    instant, and [aeDeleteTimeEvent] takes exactly the event with the given
    identifier out of the live ones, or reports that there is none; both keep
    identifiers unique. *)
Theorem time_events_ok lp ms proc data fin now id :
  timers_ok lp -> 0 <= ms -> 0 <= now.2 < 1000 -> id <> AE_DELETED_EVENT_ID ->
  (let '(new, lp') := aeCreateTimeEvent lp ms proc data fin now in
   timers_ok lp' /\ (new ∉ live lp) /\ live lp' = new :: live lp /\
   exists te, timeEventHead lp' = te :: timeEventHead lp /\ normal te /\ instant te = now.1 * 1000 + now.2 + ms) /\
  (let '(r, lp') := aeDeleteTimeEvent lp id in
   timers_ok lp' /\ (r = AE_OK /\ id ∈ live lp \/ r = AE_ERR /\ lp' = lp /\ (id ∉ live lp)) /\
   (id ∉ live lp') /\ (forall x, x <> id -> x ∈ live lp' <-> x ∈ live lp)).
Proof.
  intros (Hn & Hnd & Hlt) Hms Hnow Hid.
  assert (timeEventNextId lp ∉ live lp) as Hfresh.
  { unfold live, live_ids. rewrite list_elem_of_filter, list_elem_of_fmap. intros [_ (te & E & Hte)].
    rewrite Forall_forall in Hlt. specialize (Hlt te Hte). lia. }
  split.
  - unfold aeCreateTimeEvent. pose proof (add_milliseconds ms now Hms Hnow) as [Hw Hwn].
    set (w := aeAddMillisecondsToNow ms now) in *. set (lp' := set_timers _ _ _).
    assert (live lp' = timeEventNextId lp :: live lp) as El.
    { unfold live, lp'. cbn [set_timers timeEventHead]. rewrite live_ids_cons, decide_False; [done|].
      unfold AE_DELETED_EVENT_ID. simpl. lia. }
    split; [split; [simpl; lia|split]|].
    + rewrite El. by constructor.
    + constructor; [simpl; lia|]. eapply Forall_impl; [exact Hlt|]. intros te Hte. simpl in *. lia.
    + split; [done|]. split; [done|]. by eexists.
  - unfold aeDeleteTimeEvent. pose proof (mark_deleted_spec id (timeEventHead lp) Hid) as Hm.
    destruct (mark_deleted id (timeEventHead lp)) as [l'|]; [|split; [done|]; split; [by right|]; done].
    destruct Hm as (a & b & te & E & Eid & ->). unfold timers_ok, live in *. rewrite E in *.
    assert (live_ids (a ++ te :: b) = live_ids a ++ id :: live_ids b) as E1
      by (rewrite live_ids_app, live_ids_cons, decide_False by congruence; by rewrite Eid).
    assert (live_ids (a ++ set_id te AE_DELETED_EVENT_ID :: b) = live_ids a ++ live_ids b) as E2
      by (by rewrite live_ids_app, live_ids_cons, decide_True).
    cbn [set_timers timeEventHead timeEventNextId]. rewrite E1 in *. rewrite E2.
    apply NoDup_app in Hnd as (Ha & Hab & [Hb1 Hb2]%NoDup_cons).
    apply Forall_app in Hlt as [Hlt1 [Hlt2 Hlt3]%Forall_cons]. split; [|split; [left; split; [done|]|split]].
    + split; [done|]. split; [apply NoDup_app; split; [done|]; split; [|done]; intros x Hx Hxb;
        apply (Hab x Hx); by right|]. apply Forall_app. split; [done|]. constructor; [|done].
      cbn [te_id set_id]. unfold AE_DELETED_EVENT_ID. lia.
    + rewrite elem_of_app, elem_of_cons. auto.
    + rewrite elem_of_app. intros [Hx|Hx]; [|done]. apply (Hab id Hx). by left.
    + intros x Hx. rewrite !elem_of_app, elem_of_cons. tauto.
Qed.

Lemma time_events_ok_witness :
  let lp := EventLoop (-1) 0 2 0 [] 0 [] [TimeEvent 1 5 200 1 None 0; TimeEvent 0 6 0 1 None 0] 0 None ∅ in
  (let '(new, lp') := aeCreateTimeEvent lp 1900 7 8 None (10, 150) in
   timers_ok lp' /\ (new ∉ live lp) /\ live lp' = new :: live lp /\
   exists te, timeEventHead lp' = te :: timeEventHead lp /\ normal te /\ instant te = 10000 + 150 + 1900) /\
  (let '(r, lp') := aeDeleteTimeEvent lp 0 in
   timers_ok lp' /\ (r = AE_OK /\ 0 ∈ live lp \/ r = AE_ERR /\ lp' = lp /\ (0 ∉ live lp)) /\
   (0 ∉ live lp') /\ (forall x, x <> 0 -> x ∈ live lp' <-> x ∈ live lp)).
Proof.
  intros lp. apply (time_events_ok lp 1900 7 8 None (10, 150) 0); try done.
  split; [done|]. split; [|by repeat constructor].
  change (live lp) with [1; 0]. apply NoDup_cons. split; [|apply NoDup_singleton]. by rewrite list_elem_of_singleton.
Defined.

(** ** What a pass over the timers does *)

Section Passive.
(** Handlers that leave the loop alone; [ret] is what a time procedure
    returns. *)
Context (ret : Z -> Z -> Z -> Z) (clock clock_after : nat -> Z * Z).

Let time_proc (p id d : Z) (lp : aeEventLoop) : aeEventLoop * Z := (lp, ret p id d).
Let finalizer (p d : Z) (lp : aeEventLoop) : aeEventLoop := lp.

(** What happens to an event: it is removed, fires and is scheduled again or
    marked for removal, or waits. *)
Definition pass_one (k : nat) (te : aeTimeEvent) : option aeTimeEvent :=
  if te_id te =? AE_DELETED_EVENT_ID then None
  else if due te (clock k) then
    let r := ret (timeProc te) (te_id te) (te_data te) in
    Some (if negb (r =? AE_NOMORE) then set_when te (aeAddMillisecondsToNow r (clock_after k))
          else set_id te AE_DELETED_EVENT_ID)
  else Some te.

Definition fires (k : nat) (te : aeTimeEvent) : bool :=
  negb (te_id te =? AE_DELETED_EVENT_ID) && due te (clock k).

Fixpoint pass (l : list aeTimeEvent) : list aeTimeEvent :=
  match l with
  | [] => []
  | te :: r => match pass_one (length l) te with Some te' => te' :: pass r | None => pass r end
  end.

Fixpoint fired_count (l : list aeTimeEvent) : Z :=
  match l with
  | [] => 0
  | te :: r => Z.b2z (fires (length l) te) + fired_count r
  end.

Lemma node_app l1 te l2 : node (l1 ++ te :: l2) (S (length l2)) = Some te.
Proof.
  unfold node. apply list_lookup_middle. rewrite length_app. simpl. lia.
Qed.

Lemma behind_app l1 te l2 : behind (l1 ++ te :: l2) (S (length l2)) = l2.
Proof.
  unfold behind. rewrite length_app. simpl.
  replace (length l1 + S (length l2) - S (length l2) + 1)%nat with (length (l1 ++ [te])) by (rewrite length_app; simpl; lia).
  rewrite (cons_middle te l1 l2), app_assoc. apply drop_app_length.
Qed.

Lemma update_app l1 te l2 f : update_node (l1 ++ te :: l2) (S (length l2)) f = l1 ++ f te :: l2.
Proof.
  unfold update_node. rewrite length_app. simpl.
  replace (length l1 + S (length l2) - S (length l2))%nat with (length l1 + 0)%nat by lia.
  by rewrite (alter_app_r f l1 (te :: l2) 0).
Qed.

(** The previous node is the last one before [te], if there is one. *)
Definition prev_of (l1 : list aeTimeEvent) (k : nat) : option nat :=
  match l1 with [] => None | _ => Some (S k) end.

Lemma unlink_app l1 te l2 :
  unlink (l1 ++ te :: l2) (prev_of l1 (S (length l2))) (S (length l2)) = l1 ++ l2.
Proof.
  unfold unlink. rewrite behind_app. destruct l1 as [|a l1]; [done|]. cbn [prev_of]. f_equal.
  rewrite length_app. simpl length.
  replace (S (length l1) + S (length l2) - S (S (length l2)) + 1)%nat with (length (a :: l1)) by (simpl; lia).
  apply take_app_length.
Qed.

Lemma prev_of_snoc l1 x k : prev_of (l1 ++ [x]) k = Some (S k).
Proof. by destruct l1. Qed.

Lemma process_from_passive maxId l2 : forall lp l1 n,
  timeEventHead lp = l1 ++ l2 -> Forall (fun te => te_id te <= maxId) l2 ->
  process_from time_proc finalizer clock clock_after (length l2) (prev_of l1 (length l2)) maxId lp n =
  Ret (n + fired_count l2, with_timers lp (l1 ++ pass l2)).
Proof.
  induction l2 as [|te l2 IH]; intros lp l1 n Hl Hid.
  - simpl. rewrite Z.add_0_r, <- Hl. by destruct lp.
  - apply Forall_cons in Hid as [Hte Hid]. cbn [length process_from]. rewrite Hl, node_app.
    cbn [fired_count pass length]. unfold fires, pass_one.
    destruct (Z.eqb_spec (te_id te) AE_DELETED_EVENT_ID) as [E|E]; cbn [negb andb Z.b2z].
    + rewrite unlink_app.
      replace (q ← prev_of l1 (S (length l2)); Some (q - 1)%nat) with (prev_of l1 (length l2)) by (by destruct l1).
      replace (match finalizerProc te with Some f => _ | None => _ end) with (with_timers lp (l1 ++ l2))
        by (by destruct (finalizerProc te)).
      rewrite (IH _ l1) by done. done.
    + rewrite (proj2 (Z.ltb_ge _ _)) by lia. destruct (due te (clock (S (length l2)))); cbn [Z.b2z].
      * unfold time_proc at 1. rewrite Hl, update_app. set (te' := if negb _ then _ else _).
        rewrite <- (prev_of_snoc l1 te' (length l2)), (IH _ (l1 ++ [te'])) by (simpl; by rewrite <- ?app_assoc).
        rewrite <- app_assoc. do 2 f_equal. lia.
      * rewrite <- (prev_of_snoc l1 te (length l2)), (IH _ (l1 ++ [te])) by (by rewrite <- ?app_assoc).
        by rewrite <- app_assoc.
Qed.

(** C26: with handlers that leave the loop alone, [processTimeEvents] returns
    the number of live events that are due; it unlinks the events that are
    marked as deleted, schedules an event that fired again for the instant that
    its procedure asks for or marks it as deleted, and leaves the others and
    the order alone.  When the clock went backwards every live event has its
    seconds set to zero, and so is due, first. *)
Theorem process_time_events lp now :
  timers_ok lp ->
  let l := if now <? lastTime lp then (fun te => set_when te (0, when_ms te)) <$> timeEventHead lp
           else timeEventHead lp in
  processTimeEvents time_proc finalizer clock clock_after lp now =
    Ret (fired_count l, set_lastTime (with_timers lp (pass l)) now) /\
  (now < lastTime lp -> (forall k, 0 < (clock k).1) ->
   fired_count l = zlen (live lp) /\ Forall (fun te => te_id te <> AE_DELETED_EVENT_ID -> forall k, due te (clock k) = true) l).
Proof.
  intros (Hn & Hnd & Hlt) l. split.
  - unfold processTimeEvents. fold l. set (lp1 := set_lastTime (with_timers lp l) now).
    change None with (prev_of [] (length l)). rewrite (process_from_passive _ l lp1 []); [done|done|].
    unfold lp1, l. cbn [set_lastTime with_timers set_timers timeEventNextId].
    destruct (now <? lastTime lp); [apply Forall_fmap|]; (eapply Forall_impl; [exact Hlt|]); intros te Hte; simpl in *; lia.
  - intros Hback Hclock. unfold l, live. rewrite (proj2 (Z.ltb_lt _ _) Hback).
    assert (forall te k, due (set_when te (0, when_ms te)) (clock k) = true) as Hdue.
    { intros te k. unfold due. simpl. by rewrite (proj2 (Z.ltb_lt _ _) (Hclock k)). }
    split; [|apply Forall_fmap, Forall_forall; intros te _ _ k; apply Hdue].
    generalize (timeEventHead lp) as tl. intros tl. induction tl as [|te tl IH]; [done|].
    csimpl. rewrite IH, live_ids_cons. unfold fires. rewrite Hdue, andb_true_r. cbn [set_when te_id].
    destruct (Z.eqb_spec (te_id te) AE_DELETED_EVENT_ID) as [E|E]; [by rewrite decide_True|].
    rewrite decide_False by done. cbn [negb Z.b2z]. len.
Qed.
End Passive.

Lemma process_time_events_witness :
  let lp := EventLoop (-1) 0 3 9 [] 0 []
    [TimeEvent 2 5 300 1 None 0; TimeEvent (-1) 5 200 1 None 0; TimeEvent 0 60 0 1 None 0] 0 None ∅ in
  processTimeEvents (fun p id d lp => (lp, 1500)) (fun _ _ lp => lp) (fun _ => (10, 0)) (fun _ => (10, 700)) lp 10 =
    Ret (1, set_lastTime (with_timers lp [TimeEvent 2 12 200 1 None 0; TimeEvent 0 60 0 1 None 0]) 10).
Proof.
  intros lp. apply (process_time_events (fun _ _ _ => 1500) (fun _ => (10, 0)) (fun _ => (10, 700)) lp 10).
  split; [done|]. split; [|by repeat constructor].
  change (live lp) with [2; 0]. apply NoDup_cons. split; [|apply NoDup_singleton]. by rewrite list_elem_of_singleton.
Defined.

(** A finalizer that creates a timer while the first node of the list is being
    removed: the removal of the next node sets [timeEventHead] to its successor,
    because there is no previous node, and the new timer is lost. *)
Example finalizer_loses_timer :
  let lp := EventLoop (-1) 0 2 0 [] 0 [] [TimeEvent (-1) 0 0 1 (Some 5) 0; TimeEvent (-1) 0 0 1 None 0] 0 None ∅ in
  let fin := fun (p d : Z) lp => (aeCreateTimeEvent lp 1000 7 8 None (10, 0)).2 in
  match processTimeEvents (fun _ _ _ lp => (lp, 0)) fin (fun _ => (10, 0)) (fun _ => (10, 0)) lp 10 with
  | Ret (n, lp') => n = 0 /\ timeEventHead lp' = [] /\ timeEventNextId lp' = 3
  | _ => False
  end.
Proof. by vm_compute. Qed.
