(* ===== verification/AeHttpd.v ===== *)
(** * The HTTP samples on the event loop

    src/c/20171011_ae_httpd/chuqq_httpd.c and its variants chuqq_httpd2.c,
    chuqq_httpd_affinity.c and chuqq_httpd_nodelay.c: the handlers of a thread.
    Connections are allocated in a store of their own, in which freeing an
    address removes it.  The results of [accept], [read], [write] and
    [epoll_ctl] are arguments.  The programs differ in the handler for writing
    (chuqq_httpd2.c) and in whether they free a connection when they close its
    socket (chuqq_httpd_affinity.c, chuqq_httpd_nodelay.c). *)

From stdpp Require Import base list numbers gmap relations strings.
From Stdlib Require Import ZArith Lia.
From S2P Require Import Prelude AeLoop.

Open Scope Z_scope.

(** The characters of the response. *)
Definition RESPONSE : list Z :=
  let chars s := (fun a => Z.of_N (Ascii.N_of_ascii a)) <$> String.list_ascii_of_string s in
  chars "HTTP/1.1 200 OK" ++ [13; 10] ++ chars "Server: fasthttp" ++ [13; 10] ++
  chars "Content-Type: text/plain; charset=utf-8" ++ [13; 10] ++ chars "Content-Length: 11" ++ [13; 10] ++
  chars "Connection: keep-alive" ++ [13; 10; 13; 10] ++ chars "hello world".



(** [input] and [output] record what the calls of [read] stored, one list of
    bytes for each, and the bytes that were sent; the program does not have
    them. *)
Record connection_t := Connection {
  buf : list Z;
  conn_fd : Z;
  cur : Z;
  write_cur : Z;
  input : list (list Z);
  output : list Z
}.

Record thread_t := Thread {
  loop : aeEventLoop;
  listenfd : Z;
  heap : gmap Z connection_t;
  open : gset Z
}.

Definition set_loop (t : thread_t) (lp : aeEventLoop) : thread_t := Thread lp (listenfd t) (heap t) (open t).
Definition set_conn (t : thread_t) (c : Z) (conn : connection_t) : thread_t :=
  Thread (loop t) (listenfd t) (<[c := conn]> (heap t)) (open t).

(** [close(fd)]: the kernel also takes the descriptor out of its interest
    lists. *)
Definition close_fd (t : thread_t) (fd : Z) : thread_t :=
  Thread (set_interest (loop t) (delete fd (interest (loop t)))) (listenfd t) (heap t) (open t ∖ {[fd]}).

Definition free_conn (t : thread_t) (c : Z) : thread_t :=
  Thread (loop t) (listenfd t) (delete c (heap t)) (open t).

(** [*conn] *)
Definition load (t : thread_t) (c : Z) : outcome connection_t :=
  match heap t !! c with Some conn => Ret conn | None => Undef BadPointer end.








(** chuqq_httpd2.c: [socket_writeable] writes the whole response again and again
    until a call fails.  [rs] is what [write] returns. *)
Fixpoint write_all (t : thread_t) (fd c : Z) (rs : list Z) (del : bool) : outcome thread_t :=
  conn ← load t c;
  match rs with
  | [] => NoFuel
  | n :: rs =>
      if n <? 0 then
        lp1 ← aeDeleteFileEvent (loop t) fd AE_WRITABLE del;
        Ret (free_conn (close_fd (set_loop t lp1) fd) c)
      else
        let sent := take (Z.to_nat n) (drop (Z.to_nat (write_cur conn)) RESPONSE) in
        write_all (set_conn t c (Connection (buf conn) (conn_fd conn) (cur conn) (write_cur conn)
                                   (input conn) (output conn ++ sent))) fd c rs del
  end.

(** ** The steps of a thread

    A handler that is registered for an event is called; the kernel's answers
    are any that the calls allow. *)




(** ** The responses that the input asks for

    A response is due when what has been read since the last one ends with an
    empty line. *)

Definition ends_request (b : list Z) : bool := bool_decide ([13; 10; 13; 10] `suffix_of` b).

(** The number of responses, and what has been read since the last of them. *)
Definition answer_read (a : nat * list Z) (l : list Z) : nat * list Z :=
  if ends_request (a.2 ++ l) then (S a.1, []) else (a.1, a.2 ++ l).

Definition answered (reads : list (list Z)) : nat * list Z := foldl answer_read (0%nat, []) reads.


(** The reads of one request: it ends with the last of them, and not before. *)
Definition request_reads (reads : list (list Z)) : Prop :=
  ends_request (concat reads) = true /\
  forall k, (k < length reads)%nat -> ends_request (concat (take k reads)) = false.

Lemma request_answered n reads : request_reads reads -> foldl answer_read (n, []) reads = (S n, []).
Proof.
  intros [Hend Hbefore].
  assert (forall k, (k < length reads)%nat -> foldl answer_read (n, []) (take k reads) = (n, concat (take k reads))) as Hk.
  { induction k as [|k IH]; intros Hlt; [done|].
    destruct (lookup_lt_is_Some_2 reads k) as [l Hl]; [lia|]. pose proof (Hbefore (S k) Hlt) as Hno.
    rewrite (take_S_r _ _ _ Hl), concat_app, foldl_snoc, IH in * by lia. unfold answer_read. cbn [fst snd].
    simpl in *. rewrite app_nil_r in *. by rewrite Hno. }
  destruct reads as [|l reads _] using rev_ind; [done|].
  specialize (Hk (length reads)). rewrite length_app, take_app_length in Hk. simpl in Hk.
  rewrite foldl_snoc, Hk by lia. unfold answer_read. cbn [fst snd].
  rewrite concat_app in Hend. simpl in Hend. rewrite app_nil_r in Hend. by rewrite Hend.
Qed.

(** If no call of [read] returns bytes of two requests, there is one response
    for each request. *)
Lemma one_response_per_request reqs :
  Forall request_reads reqs -> answered (concat reqs) = (length reqs, []).
Proof.
  intros Hreqs. unfold answered. change (length reqs) with (0 + length reqs)%nat. generalize 0%nat as n.
  induction Hreqs as [|reads reqs Hr _ IH]; intros n; simpl; [by rewrite Nat.add_0_r|].
  rewrite foldl_app, request_answered, IH by done. f_equal. lia.
Qed.

(** Two requests that arrive in one call of [read] get one response. *)
Example pipelined_requests :
  answered [[71; 13; 10; 13; 10; 71; 13; 10; 13; 10]] = (1%nat, []) /\
  answered [[71; 13; 10; 13; 10]; [71; 13; 10; 13; 10]] = (2%nat, []).
Proof. by vm_compute. Qed.


(** ** The invariant *)











(** ** The handlers preserve the invariant *)















(** chuqq_httpd2.c: as long as [write] succeeds the handler goes on sending, and
    the thread serves nobody else. *)
Lemma write_all_endless t fd c rs del :
  is_Some (heap t !! c) -> Forall (fun n => 0 <= n) rs -> write_all t fd c rs del = NoFuel.
Proof.
  intros Hc Hrs. revert t Hc. induction Hrs as [|n rs Hn _ IH]; intros t [conn Hc]; simpl; unfold load; rewrite Hc; cbn.
  - done.
  - rewrite (proj2 (Z.ltb_ge n 0) Hn). apply IH. simpl. rewrite lookup_insert_eq. by eexists.
Qed.
