(* ===== verification/Zmalloc.v ===== *)
(** * The counting allocator

    src/c/20171011_ae_httpd/zmalloc.c, for an allocator that does not tell the
    size of its blocks (HAVE_MALLOC_SIZE undefined): each block starts with its
    size, and the bytes in use are counted.  The answers of [malloc], [calloc]
    and [realloc] are arguments. *)

From stdpp Require Import base list numbers gmap relations strings.
From Stdlib Require Import ZArith Lia.
From S2P Require Import Prelude.

Open Scope Z_scope.

Definition PREFIX_SIZE : Z := 8.

(** A block: the size that is stored in front, and the bytes behind it. *)
Record block := Block { b_size : Z; b_data : list Z }.

(** [oom_returns] tells whether a handler that returns has been installed. *)
Record state := State {
  used_memory : Z;
  zmalloc_thread_safe : bool;
  oom_returns : bool;
  blocks : gmap Z block
}.

Definition set_used (s : state) (n : Z) : state := State n (zmalloc_thread_safe s) (oom_returns s) (blocks s).
Definition set_blocks (s : state) (b : gmap Z block) : state :=
  State (used_memory s) (zmalloc_thread_safe s) (oom_returns s) b.

(** [if (_n&(sizeof(long)-1)) _n += sizeof(long)-(_n&(sizeof(long)-1));] *)
Definition pad (n : Z) : Z := if Z.land n 7 =? 0 then n else szadd n (8 - Z.land n 7).

(** With thread safety the number is added as it is. *)
Definition update_zmalloc_stat_alloc (s : state) (n : Z) : state :=
  set_used s (szadd (used_memory s) (if zmalloc_thread_safe s then n else pad n)).

Definition update_zmalloc_stat_free (s : state) (n : Z) : state :=
  set_used s ((used_memory s - (if zmalloc_thread_safe s then n else pad n)) mod size_max).

(** The allocation failed: the handler is called and, if it returns, the null
    pointer is written through. *)
Definition out_of_memory {A} (s : state) : outcome A :=
  if oom_returns s then Undef NullDeref else Throw (Message "zmalloc: Out of memory trying to allocate").

(** What an allocation answers: the address, and the bytes that the block holds
    behind the prefix. *)
Definition answer := option (Z * list Z).

(** The size is stored at the start of a block of [size + PREFIX_SIZE] bytes. *)
Definition store_size (bs : gmap Z block) (p size : Z) (bytes : list Z) : outcome (gmap Z block) :=
  let n := szadd size PREFIX_SIZE in
  if n <? PREFIX_SIZE then Undef OutOfBounds
  else Ret (<[p := Block size (take (Z.to_nat (n - PREFIX_SIZE)) bytes)]> bs).

Definition zmalloc (s : state) (size : Z) (a : answer) : outcome (Z * state) :=
  match a with
  | None => out_of_memory s
  | Some (p, junk) =>
      bs ← store_size (blocks s) p size junk;
      Ret (szadd p PREFIX_SIZE, update_zmalloc_stat_alloc (set_blocks s bs) (szadd size PREFIX_SIZE))
  end.

Definition zcalloc (s : state) (size : Z) (a : option Z) : outcome (Z * state) :=
  match a with
  | None => out_of_memory s
  | Some p =>
      bs ← store_size (blocks s) p size (replicate (Z.to_nat size) 0);
      Ret (szadd p PREFIX_SIZE, update_zmalloc_stat_alloc (set_blocks s bs) (szadd size PREFIX_SIZE))
  end.

(** The block of a pointer, whose size is stored in front of it. *)
Definition header (s : state) (ptr : Z) : outcome block :=
  match blocks s !! (ptr - PREFIX_SIZE) with
  | Some b => Ret b
  | None => Undef BadPointer
  end.

(** [realloc] frees the old block and keeps the bytes that fit. *)
Definition zrealloc (s : state) (ptr size : Z) (a : answer) : outcome (Z * state) :=
  if ptr =? 0 then zmalloc s size a
  else
    b ← header s ptr;
    match a with
    | None => out_of_memory s
    | Some (p, junk) =>
        bs ← store_size (delete (ptr - PREFIX_SIZE) (blocks s)) p size (b_data b ++ junk);
        Ret (szadd p PREFIX_SIZE,
             update_zmalloc_stat_alloc (update_zmalloc_stat_free (set_blocks s bs) (b_size b)) size)
    end.

Definition zmalloc_size (s : state) (ptr : Z) : outcome Z :=
  b ← header s ptr;
  Ret (szadd (pad (b_size b)) PREFIX_SIZE).

Definition zfree (s : state) (ptr : Z) : outcome state :=
  if ptr =? 0 then Ret s
  else
    b ← header s ptr;
    let s1 := update_zmalloc_stat_free s (szadd (b_size b) PREFIX_SIZE) in
    Ret (set_blocks s1 (delete (ptr - PREFIX_SIZE) (blocks s1))).

(** [memcpy(p, s, l)] into the block of [p]. *)
Definition copy_into (s : state) (ptr : Z) (l : list Z) : outcome state :=
  b ← header s ptr;
  if zlen (b_data b) <? zlen l then Undef OutOfBounds
  else Ret (set_blocks s (<[ptr - PREFIX_SIZE := Block (b_size b) (l ++ drop (length l) (b_data b))]> (blocks s))).

(** [str]: the memory from the argument on. *)
Definition zstrdup (s : state) (str : list Z) (a : answer) : outcome (Z * state) :=
  n ← strlen str;
  let l := szadd n 1 in
  r ← zmalloc s l a;
  s1 ← copy_into r.2 r.1 (take (Z.to_nat l) str);
  Ret (r.1, s1).

Definition zmalloc_used_memory (s : state) : Z := used_memory s.

Definition zmalloc_enable_thread_safeness (s : state) : state :=
  State (used_memory s) true (oom_returns s) (blocks s).

Definition zmalloc_set_oom_handler (s : state) (returns : bool) : state :=
  State (used_memory s) (zmalloc_thread_safe s) returns (blocks s).

(** Before the first call. *)
Definition zmalloc_init : state := State 0 false false ∅.

(** ** Accounting *)

(** The multiple of eight above. *)
Definition round8 (n : Z) : Z := (n + 7) / 8 * 8.

(** What a block of the given size counts. *)
Definition charge (safe : bool) (n : Z) : Z := (if safe then n else round8 n) + PREFIX_SIZE.

Definition total (safe : bool) (bs : gmap Z block) : Z :=
  map_fold (fun _ b acc => charge safe (b_size b) + acc) 0 bs.

(** A size to which the prefix can be added. *)
Definition size_ok (n : Z) : Prop := 0 <= n < size_max - PREFIX_SIZE.

(** An address of a block. *)
Definition addr_ok (p : Z) : Prop := 0 < p < size_max - PREFIX_SIZE.

(** The counter is [drift] more than what the live blocks count. *)
Record accounted (drift : Z) (s : state) : Prop := {
  acc_used : used_memory s = (total (zmalloc_thread_safe s) (blocks s) + drift) mod size_max;
  acc_block : forall p b, blocks s !! p = Some b -> addr_ok p /\ size_ok (b_size b) /\ zlen (b_data b) = b_size b
}.
Arguments acc_used {_}.
Arguments acc_block {_}.

Lemma pad_round8 n : 0 <= n < size_max -> pad n = round8 n mod size_max.
Proof.
  intros Hn. unfold pad, szadd, round8.
  assert (Z.land n 7 = n mod 8) as -> by (apply (Z.land_ones n 3); lia).
  pose proof (Z.div_mod n 8 ltac:(lia)) as E. pose proof (Z.mod_pos_bound n 8 ltac:(lia)) as Hb.
  destruct (Z.eqb_spec (n mod 8) 0) as [Ez|Ez].
  - rewrite <- (Z.div_unique (n + 7) 8 (n / 8) 7) by lia. rewrite Z.mod_small; lia.
  - rewrite <- (Z.div_unique (n + 7) 8 (n / 8 + 1) (n mod 8 - 1)) by lia. f_equal. lia.
Qed.

Lemma round8_prefix n : round8 (n + PREFIX_SIZE) = round8 n + PREFIX_SIZE.
Proof. unfold round8, PREFIX_SIZE. replace (n + 8 + 7) with (n + 7 + 1 * 8) by lia. rewrite Z.div_add; lia. Qed.

Lemma total_insert safe bs p b :
  bs !! p = None -> total safe (<[p := b]> bs) = charge safe (b_size b) + total safe bs.
Proof. intros H. unfold total. rewrite map_fold_insert_L; [done| |done]. intros. lia. Qed.

Lemma total_delete safe bs p b :
  bs !! p = Some b -> total safe bs = charge safe (b_size b) + total safe (delete p bs).
Proof. intros H. unfold total. rewrite (map_fold_delete_L _ _ p b); [done| |done]. intros. lia. Qed.

(** The counter after an allocation of [n] bytes and after giving them back. *)
Lemma alloc_used s n :
  size_ok n -> update_zmalloc_stat_alloc s (szadd n PREFIX_SIZE) =
  set_used s ((used_memory s + charge (zmalloc_thread_safe s) n) mod size_max).
Proof.
  intros Hn. unfold size_ok, PREFIX_SIZE in Hn. unfold update_zmalloc_stat_alloc, charge. f_equal.
  assert (szadd n PREFIX_SIZE = n + PREFIX_SIZE) as -> by (apply Z.mod_small; unfold PREFIX_SIZE; lia).
  unfold szadd. destruct (zmalloc_thread_safe s); [done|].
  by rewrite pad_round8, Zplus_mod_idemp_r, round8_prefix by (unfold PREFIX_SIZE; lia).
Qed.

Lemma free_used s n :
  size_ok n -> update_zmalloc_stat_free s (szadd n PREFIX_SIZE) =
  set_used s ((used_memory s - charge (zmalloc_thread_safe s) n) mod size_max).
Proof.
  intros Hn. unfold size_ok, PREFIX_SIZE in Hn. unfold update_zmalloc_stat_free, charge. f_equal.
  assert (szadd n PREFIX_SIZE = n + PREFIX_SIZE) as -> by (apply Z.mod_small; unfold PREFIX_SIZE; lia).
  destruct (zmalloc_thread_safe s); [done|].
  by rewrite pad_round8, Zminus_mod_idemp_r, round8_prefix by (unfold PREFIX_SIZE; lia).
Qed.

(** [zrealloc] leaves the prefix out of both updates. *)
Lemma move_used s n k :
  size_ok n -> size_ok k ->
  update_zmalloc_stat_alloc (update_zmalloc_stat_free s n) k =
  set_used s ((used_memory s - charge (zmalloc_thread_safe s) n + charge (zmalloc_thread_safe s) k) mod size_max).
Proof.
  intros Hn Hk. unfold size_ok, PREFIX_SIZE in *.
  unfold update_zmalloc_stat_alloc, update_zmalloc_stat_free, charge, szadd, set_used.
  cbn [used_memory zmalloc_thread_safe oom_returns blocks]. rewrite Zplus_mod_idemp_l.
  f_equal. destruct (zmalloc_thread_safe s); [f_equal; lia|].
  rewrite !pad_round8, Zplus_mod_idemp_r by lia.
  rewrite <- (Zplus_mod_idemp_l _ (round8 k)), Zminus_mod_idemp_r, Zplus_mod_idemp_l. f_equal. lia.
Qed.

Lemma store_size_ok bs p size bytes :
  size_ok size -> store_size bs p size bytes = Ret (<[p := Block size (take (Z.to_nat size) bytes)]> bs).
Proof.
  intros Hs. unfold store_size, szadd, size_ok, PREFIX_SIZE in *. rewrite Z.mod_small by lia.
  rewrite (proj2 (Z.ltb_ge _ _)) by lia. by replace (size + 8 - 8) with size by lia.
Qed.

(** A size that wraps around: the block is too small for the size. *)
Lemma store_size_wraps bs p size bytes :
  size_max - PREFIX_SIZE <= size < size_max -> store_size bs p size bytes = Undef OutOfBounds.
Proof.
  intros Hs. unfold store_size, szadd, PREFIX_SIZE in *.
  rewrite <- (Z.mod_unique_pos (size + 8) size_max 1 (size + 8 - size_max)) by (unfold size_max in *; lia).
  by rewrite (proj2 (Z.ltb_lt _ _)) by (unfold size_max in *; lia).
Qed.

Lemma ptr_of p : addr_ok p -> szadd p PREFIX_SIZE = p + PREFIX_SIZE.
Proof. unfold addr_ok, szadd, PREFIX_SIZE. intros. apply Z.mod_small. lia. Qed.

(** The state with one more block. *)
Definition with_block (s : state) (p : Z) (b : block) : state :=
  set_used (set_blocks s (<[p := b]> (blocks s)))
    ((used_memory s + charge (zmalloc_thread_safe s) (b_size b)) mod size_max).

Lemma with_block_accounted d s p b :
  accounted d s -> blocks s !! p = None -> addr_ok p -> size_ok (b_size b) -> zlen (b_data b) = b_size b ->
  accounted d (with_block s p b).
Proof.
  intros [Hu Hb] Hn Hp Hs Hl. split.
  - cbn. rewrite Hu, Zplus_mod_idemp_l, total_insert by done. f_equal. lia.
  - intros q c. cbn. rewrite lookup_insert_Some. intros [[<- <-]|[_ Hq]]; [done|]. by apply (Hb q).
Qed.

Lemma zmalloc_ok s size p junk :
  size_ok size -> addr_ok p -> zlen junk = size ->
  zmalloc s size (Some (p, junk)) = Ret (p + PREFIX_SIZE, with_block s p (Block size junk)).
Proof.
  intros Hs Ha Hj. unfold zmalloc. rewrite store_size_ok, (take_ge junk) by (done || len). bind_ret.
  rewrite (alloc_used _ size) by done. unfold with_block. by rewrite ptr_of.
Qed.

Lemma zcalloc_ok s size p :
  size_ok size -> addr_ok p ->
  zcalloc s size (Some p) = Ret (p + PREFIX_SIZE, with_block s p (Block size (replicate (Z.to_nat size) 0))).
Proof.
  intros Hs Ha. unfold zcalloc. rewrite store_size_ok, take_ge by (done || len). bind_ret.
  rewrite (alloc_used _ size) by done. unfold with_block. by rewrite ptr_of.
Qed.

Lemma header_ok s p b : blocks s !! p = Some b -> header s (p + PREFIX_SIZE) = Ret b.
Proof. intros H. unfold header. replace (p + PREFIX_SIZE - PREFIX_SIZE) with p by lia. by rewrite H. Qed.

(** The state without a block of the given size. *)
Definition without_block (s : state) (p n : Z) : state :=
  set_used (set_blocks s (delete p (blocks s))) ((used_memory s - charge (zmalloc_thread_safe s) n) mod size_max).

Lemma without_block_accounted d s p b :
  accounted d s -> blocks s !! p = Some b -> accounted d (without_block s p (b_size b)).
Proof.
  intros [Hu Hb] Hp. split.
  - cbn. rewrite Hu, Zminus_mod_idemp_l, (total_delete _ _ p b Hp). f_equal. lia.
  - intros q c. cbn. rewrite lookup_delete_Some. intros [_ Hq]. by apply (Hb q).
Qed.

Lemma zfree_ok d s p b :
  accounted d s -> blocks s !! p = Some b -> zfree s (p + PREFIX_SIZE) = Ret (without_block s p (b_size b)).
Proof.
  intros [Hu Hb] Hp. destruct (Hb p b Hp) as (Ha & Hs & _). unfold zfree.
  rewrite (proj2 (Z.eqb_neq _ _)) by (unfold addr_ok, PREFIX_SIZE in *; lia).
  rewrite (header_ok s p b Hp). bind_ret. rewrite free_used by done.
  unfold without_block. by replace (p + PREFIX_SIZE - PREFIX_SIZE) with p by lia.
Qed.

Lemma zrealloc_ok d s p b size q junk :
  accounted d s -> blocks s !! p = Some b -> size_ok size -> addr_ok q ->
  zrealloc s (p + PREFIX_SIZE) size (Some (q, junk)) =
  Ret (q + PREFIX_SIZE,
       with_block (without_block s p (b_size b)) q (Block size (take (Z.to_nat size) (b_data b ++ junk)))).
Proof.
  intros [Hu Hb] Hp Hs Haq. destruct (Hb p b Hp) as (Ha & Hsb & _). unfold zrealloc.
  rewrite (proj2 (Z.eqb_neq _ _)) by (unfold addr_ok, PREFIX_SIZE in *; lia).
  rewrite (header_ok s p b Hp). bind_ret. replace (p + PREFIX_SIZE - PREFIX_SIZE) with p by lia.
  rewrite store_size_ok by done. bind_ret. rewrite move_used by done.
  unfold with_block, without_block. cbn. by rewrite ptr_of, Zplus_mod_idemp_l.
Qed.

Lemma zstrdup_ok s text rest p junk :
  no_nul text -> size_ok (zlen text + 1) -> addr_ok p -> zlen junk = zlen text + 1 ->
  zstrdup s (text ++ 0 :: rest) (Some (p, junk)) =
  Ret (p + PREFIX_SIZE, with_block s p (Block (zlen text + 1) (text ++ [0]))).
Proof.
  intros Ht Hs Ha Hj. unfold zstrdup. rewrite strlen_text by done. bind_ret.
  assert (szadd (zlen text) 1 = zlen text + 1) as ->
    by (unfold szadd; apply Z.mod_small; unfold size_ok, PREFIX_SIZE, zlen in *; lia).
  rewrite zmalloc_ok by done. bind_ret. cbn [fst snd]. unfold copy_into.
  rewrite (header_ok _ p (Block (zlen text + 1) junk)) by (cbn; apply lookup_insert_eq). bind_ret.
  assert (take (Z.to_nat (zlen text + 1)) (text ++ 0 :: rest) = text ++ [0]) as ->.
  { change (text ++ 0 :: rest) with (text ++ [0] ++ rest). rewrite app_assoc. apply take_app_length'. len. }
  rewrite (proj2 (Z.ltb_ge _ _)) by (cbn; len). bind_ret.
  rewrite drop_ge, app_nil_r by (cbn; len). replace (p + PREFIX_SIZE - PREFIX_SIZE) with p by lia.
  unfold with_block, set_used, set_blocks. cbn. by rewrite insert_insert_eq.
Qed.

(** ** The calls of a client

    A pointer that is passed is null or was returned and not freed.  The
    allocator fails, or answers with an address that is not in use.  A string
    that is copied is in memory, so that its length does not wrap around;
    other sizes are any. *)
Definition live (s : state) (ptr : Z) : Prop := exists p b, ptr = p + PREFIX_SIZE /\ blocks s !! p = Some b.

Definition fresh (bs : gmap Z block) (p size : Z) (junk : list Z) : Prop :=
  addr_ok p /\ bs !! p = None /\ zlen junk = size.

(** A call, the size that it asks for and whether the allocator answers. *)
Inductive zcall (s : state) : Z -> bool -> outcome state -> Prop :=
  | call_malloc size p junk :
      0 <= size < size_max -> fresh (blocks s) p size junk ->
      zcall s size true (r ← zmalloc s size (Some (p, junk)); Ret r.2)
  | call_malloc_fails size :
      0 <= size < size_max -> zcall s size false (r ← zmalloc s size None; Ret r.2)
  | call_calloc size p :
      0 <= size < size_max -> addr_ok p -> blocks s !! p = None ->
      zcall s size true (r ← zcalloc s size (Some p); Ret r.2)
  | call_calloc_fails size :
      0 <= size < size_max -> zcall s size false (r ← zcalloc s size None; Ret r.2)
  | call_realloc ptr size q junk :
      ptr = 0 \/ live s ptr -> 0 <= size < size_max -> fresh (delete (ptr - PREFIX_SIZE) (blocks s)) q size junk ->
      zcall s size true (r ← zrealloc s ptr size (Some (q, junk)); Ret r.2)
  | call_realloc_fails ptr size :
      ptr = 0 \/ live s ptr -> 0 <= size < size_max ->
      zcall s size false (r ← zrealloc s ptr size None; Ret r.2)
  | call_free ptr :
      ptr = 0 \/ live s ptr -> zcall s 0 true (zfree s ptr)
  | call_strdup text rest p junk :
      no_nul text -> size_ok (zlen text + 1) -> fresh (blocks s) p (zlen text + 1) junk ->
      zcall s (zlen text + 1) true (r ← zstrdup s (text ++ 0 :: rest) (Some (p, junk)); Ret r.2)
  | call_strdup_fails text rest :
      no_nul text -> size_ok (zlen text + 1) ->
      zcall s (zlen text + 1) false (r ← zstrdup s (text ++ 0 :: rest) None; Ret r.2)
  | call_oom_handler returns : zcall s 0 true (Ret (zmalloc_set_oom_handler s returns))
  | call_thread_safe : zcall s 0 true (Ret (zmalloc_enable_thread_safeness s)).

Definition zstep (s s' : state) : Prop := exists size answers, zcall s size answers (Ret s').

(** What a call comes to, with the property of the state it returns. *)
Definition verdict (s : state) (size : Z) (answers : bool) (o : outcome state) (P : state -> Prop) : Prop :=
  if negb answers then o = out_of_memory s
  else if size <? size_max - PREFIX_SIZE then returns o P else o = Undef OutOfBounds.

Lemma out_of_memory_bind {A B} s (f : A -> outcome B) : (r ← out_of_memory s; f r) = out_of_memory s.
Proof. unfold out_of_memory. by destruct (oom_returns s). Qed.

(** After the call the mode is as before, or blocks and counter are. *)
Definition accounted_step (d : Z) (s s' : state) : Prop :=
  accounted d s' /\ zmalloc_thread_safe s' = zmalloc_thread_safe s \/ s' = zmalloc_enable_thread_safeness s.

(** A call of a function that allocates, for any size; [s0] is the state before
    the call, [s] the one in which the old block is gone. *)
Lemma allocating d s0 s size p b f :
  accounted d s -> zmalloc_thread_safe s = zmalloc_thread_safe s0 ->
  0 <= size < size_max -> addr_ok p -> blocks s !! p = None -> zlen (b_data b) = b_size b -> b_size b = size ->
  (size_ok size -> f = Ret (p + PREFIX_SIZE, with_block s p b)) ->
  (size_max - PREFIX_SIZE <= size -> f = Undef OutOfBounds) ->
  verdict s0 size true (r ← f; Ret r.2) (accounted_step d s0).
Proof.
  intros Hacc Hmode Hs Ha Hp Hl <- Hok Hwrap. unfold verdict. cbn [negb].
  destruct (Z.ltb_spec (b_size b) (size_max - PREFIX_SIZE)) as [Hlt|Hge]; [|by rewrite Hwrap].
  rewrite Hok by (split; lia). bind_ret. apply returns_ret. left. split; [|done]. apply with_block_accounted; try done. split; lia.
Qed.

Lemma zcall_malloc d s size p junk :
  accounted d s -> 0 <= size < size_max -> fresh (blocks s) p size junk ->
  verdict s size true (r ← zmalloc s size (Some (p, junk)); Ret r.2) (accounted_step d s).
Proof.
  intros Hacc Hs (Ha & Hp & Hj). apply (allocating d s s size p (Block size junk)); try done.
  - intros Hok. by apply zmalloc_ok.
  - intros Hw. unfold zmalloc. by rewrite store_size_wraps by lia.
Qed.

Lemma zcall_realloc d s ptr size q junk :
  accounted d s -> ptr = 0 \/ live s ptr -> 0 <= size < size_max ->
  fresh (delete (ptr - PREFIX_SIZE) (blocks s)) q size junk ->
  verdict s size true (r ← zrealloc s ptr size (Some (q, junk)); Ret r.2) (accounted_step d s).
Proof.
  intros Hacc [->|(p & b & -> & Hp)] Hs (Ha & Hq & Hj).
  - unfold zrealloc. cbn [Z.eqb]. apply zcall_malloc; [done..|]. split; [done|]. split; [|done].
    rewrite delete_id in Hq; [done|]. destruct (blocks s !! (0 - PREFIX_SIZE)) as [b|] eqn:E; [|done].
    destruct (acc_block _ Hacc _ _ E) as [[? _] _]. unfold PREFIX_SIZE in *. lia.
  - replace (p + PREFIX_SIZE - PREFIX_SIZE) with p in Hq by lia.
    pose proof (without_block_accounted d s p b Hacc Hp) as Hacc1.
    destruct (acc_block _ Hacc p b Hp) as (Hap & _).
    apply (allocating d s (without_block s p (b_size b)) size q (Block size (take (Z.to_nat size) (b_data b ++ junk))));
      try done; [simpl; len| |].
    + intros Hok. by apply (zrealloc_ok d).
    + intros Hw. unfold zrealloc. rewrite (proj2 (Z.eqb_neq _ _)) by (unfold addr_ok, PREFIX_SIZE in *; lia).
      rewrite (header_ok s p b Hp). bind_ret. by rewrite store_size_wraps by lia.
Qed.

Lemma zcall_ok d s size answers o :
  accounted d s -> zcall s size answers o -> verdict s size answers o (accounted_step d s).
Proof.
  intros Hacc Hc. assert (forall x, size_ok x -> (x <? size_max - PREFIX_SIZE) = true) as Hlt
    by (intros x [? ?]; by apply Z.ltb_lt).
  destruct Hc as [size p junk Hs Hf|size Hs|size p Hs Ha Hp|size Hs|ptr size q junk Hptr Hs Hf|ptr size Hptr Hs
    |ptr Hptr|text rest p junk Ht Hs (Ha & Hp & Hj)|text rest Ht Hs|rt|].
  - by apply zcall_malloc.
  - apply out_of_memory_bind.
  - apply (allocating d s s size p (Block size (replicate (Z.to_nat size) 0))); try done.
    + simpl. len.
    + intros Hok. by apply zcalloc_ok.
    + intros Hw. unfold zcalloc. by rewrite store_size_wraps by lia.
  - apply out_of_memory_bind.
  - by apply zcall_realloc.
  - destruct Hptr as [->|(p & b & -> & Hp)]; [apply out_of_memory_bind|]. unfold zrealloc.
    destruct (acc_block _ Hacc _ _ Hp) as [Ha _].
    rewrite (proj2 (Z.eqb_neq _ _)) by (unfold addr_ok, PREFIX_SIZE in *; lia).
    rewrite (header_ok s p b Hp). bind_ret. apply out_of_memory_bind.
  - unfold verdict. cbn [negb]. rewrite Hlt by done. destruct Hptr as [->|(p & b & -> & Hp)]; [apply returns_ret; by left|].
    rewrite (zfree_ok d s p b) by done. apply returns_ret. left. split; [|done]. by apply without_block_accounted.
  - apply (allocating d s s (zlen text + 1) p (Block (zlen text + 1) (text ++ [0]))); try done.
    + unfold size_ok, PREFIX_SIZE in Hs. lia.
    + simpl. len.
    + intros _. by apply zstrdup_ok.
    + unfold size_ok in Hs. lia.
  - unfold verdict, zstrdup. cbn [negb]. rewrite strlen_text by done. bind_ret. cbn [zmalloc].
    by rewrite !out_of_memory_bind.
  - unfold verdict. cbn [negb]. rewrite Hlt by done. apply returns_ret. left. by destruct Hacc.
  - unfold verdict. cbn [negb]. rewrite Hlt by done. apply returns_ret. by right.
Qed.

(** A step of an accounted state. *)
Lemma zstep_accounted d s s' : accounted d s -> zstep s s' -> accounted_step d s s'.
Proof.
  intros Hacc (size & answers & Hc). pose proof (zcall_ok d s size answers _ Hacc Hc) as Hv. unfold verdict in Hv.
  destruct answers; cbn [negb] in Hv; [|unfold out_of_memory in Hv; by destruct (oom_returns s)].
  destruct (_ <? _); [|done]. by destruct Hv as (x & [= <-] & H).
Qed.

(** What the padding of the blocks adds to the counter that is not
    thread-safe. *)
Definition padding (bs : gmap Z block) : Z := total false bs - total true bs.

Lemma enable_accounted d s :
  accounted d s ->
  accounted (if zmalloc_thread_safe s then d else d + padding (blocks s)) (zmalloc_enable_thread_safeness s).
Proof.
  intros [Hu Hb]. split; [|done]. cbn. rewrite Hu. unfold padding.
  destruct (zmalloc_thread_safe s); f_equal; lia.
Qed.

(** Without the switch there is no drift. *)
Lemma zmalloc_unsafe s :
  rtc zstep zmalloc_init s -> exists d, accounted d s /\ (zmalloc_thread_safe s = false -> d = 0).
Proof.
  apply (rtc_preserves zstep (fun s => exists d, accounted d s /\ (zmalloc_thread_safe s = false -> d = 0)) zmalloc_init).
  - intros a b (d & Ha & Hd) Hab. destruct (zstep_accounted d a b Ha Hab) as [[Hb E]| ->].
    + exists d. by rewrite E.
    + eexists. split; [by apply enable_accounted|done].
  - exists 0. by split.
Qed.

(** After the switch the drift stays. *)
Lemma zmalloc_safe d s s' :
  accounted d s -> zmalloc_thread_safe s = true -> rtc zstep s s' ->
  accounted d s' /\ zmalloc_thread_safe s' = true.
Proof.
  intros Hs Ht. apply (rtc_preserves zstep (fun s => accounted d s /\ zmalloc_thread_safe s = true) s); [|done].
  intros a b [Ha Et] Hab. destruct (zstep_accounted d a b Ha Hab) as [[Hb E]| ->]; [by rewrite E|].
  split; [|done]. pose proof (enable_accounted d a Ha) as H. by rewrite Et in H.
Qed.

(** What [verdict] says of a call. *)
Definition call_result (s : state) : Prop :=
  forall size answers o, zcall s size answers o ->
    if negb answers then o = out_of_memory s
    else if size <? size_max - PREFIX_SIZE then exists s', o = Ret s' else o = Undef OutOfBounds.

Lemma accounted_result d s : accounted d s -> call_result s.
Proof.
  intros Hacc size answers o Hc. pose proof (zcall_ok d s size answers o Hacc Hc) as Hv. unfold verdict in Hv.
  destruct (negb answers); [done|]. destruct (_ <? _); [|done]. destruct Hv as (s' & -> & _). by eexists.
Qed.

(** C27: the allocator counts what is allocated.  After any calls from the
    initial state ([zmalloc], [zcalloc], [zrealloc], [zfree], [zstrdup] and the
    two settings, with any sizes and any failures of the allocator), until
    thread safety is enabled, the counter is the number of bytes of the live
    blocks with their prefixes, each rounded up to a multiple of eight, modulo
    2^64, and zero when all blocks have been freed.  After thread safety has
    been enabled in the state [s1], it is the number of bytes unrounded, plus
    the padding of the blocks that were live in [s1], which is never given
    back.  A call returns if the allocator answers and the size and its
    prefix do not wrap around; if they do, the size is stored outside the block,
    and if the allocator fails, the handler is called. *)
Theorem zmalloc_accounting s1 s2 :
  rtc zstep zmalloc_init s1 -> zmalloc_thread_safe s1 = false ->
  rtc zstep (zmalloc_enable_thread_safeness s1) s2 ->
  (call_result s1 /\ zmalloc_used_memory s1 = total false (blocks s1) mod size_max /\
   (blocks s1 = ∅ -> zmalloc_used_memory s1 = 0)) /\
  (call_result s2 /\ zmalloc_used_memory s2 = (total true (blocks s2) + padding (blocks s1)) mod size_max /\
   (blocks s2 = ∅ -> zmalloc_used_memory s2 = padding (blocks s1) mod size_max)).
Proof.
  intros H1 Hf H2. destruct (zmalloc_unsafe s1 H1) as (d & Hacc & Hd). specialize (Hd Hf). subst d.
  pose proof (enable_accounted 0 s1 Hacc) as He. rewrite Hf in He.
  destruct (zmalloc_safe _ _ _ He eq_refl H2) as [Hacc2 Ht2].
  pose proof (acc_used _ Hacc) as Hu1. pose proof (acc_used _ Hacc2) as Hu2. rewrite Hf, Z.add_0_r in Hu1. rewrite Ht2 in Hu2.
  unfold zmalloc_used_memory. split; (split; [by eapply accounted_result|split; [done|]]).
  - intros Hb. by rewrite Hu1, Hb.
  - intros Hb. by rewrite Hu2, Hb.
Qed.

(** [zrealloc] keeps the bytes that fit and touches no other block; the
    size of the new block is the requested one, and [zmalloc_size] reports it
    rounded up with the prefix, modulo 2^64. *)
Theorem zrealloc_correct d s p b size q junk :
  accounted d s -> blocks s !! p = Some b -> size_ok size ->
  delete p (blocks s) !! q = None -> addr_ok q -> zlen junk = size ->
  exists s' b', zrealloc s (p + PREFIX_SIZE) size (Some (q, junk)) = Ret (q + PREFIX_SIZE, s') /\
    blocks s' !! q = Some b' /\ b_size b' = size /\ zlen (b_data b') = size /\
    (forall i, 0 <= i < Z.min (b_size b) size -> vget (b_data b') i = vget (b_data b) i) /\
    (forall x, x <> p -> x <> q -> blocks s' !! x = blocks s !! x) /\
    (q <> p -> blocks s' !! p = None) /\
    zmalloc_size s' (q + PREFIX_SIZE) = Ret ((round8 size + PREFIX_SIZE) mod size_max).
Proof.
  intros Hacc Hp Hs Hq Haq Hj. destruct (acc_block _ Hacc _ _ Hp) as (_ & _ & Hlen).
  rewrite (zrealloc_ok d s p b) by done. eexists _, _. split; [done|]. cbn. rewrite lookup_insert_eq.
  split; [done|]. split; [done|]. split; [unfold size_ok in *; simpl; len|]. split; [|split; [|split]].
  - intros i Hi. unfold vget. destruct (Z.ltb_spec i 0); [done|]. simpl.
    rewrite lookup_take_lt by lia. by rewrite lookup_app_l by (unfold zlen in *; lia).
  - intros x Hxp Hxq. by rewrite lookup_insert_ne, lookup_delete_ne.
  - intros Hne. by rewrite lookup_insert_ne, lookup_delete_eq.
  - unfold zmalloc_size. rewrite (header_ok _ q (Block size (take (Z.to_nat size) (b_data b ++ junk))))
      by (cbn; apply lookup_insert_eq). bind_ret. cbn [b_size].
    unfold szadd. rewrite pad_round8, Zplus_mod_idemp_l by (unfold size_ok, PREFIX_SIZE in *; lia). done.
Qed.

(** Allocate five bytes, grow them to twenty at another address, enable thread
    safety and free them. *)
Definition demo_calls : list (option state) :=
  let get o := match o with Ret s => Some s | _ => None end in
  let s1 := get (r ← zmalloc zmalloc_init 5 (Some (64, [1; 2; 3; 4; 5])); Ret r.2) in
  let s2 := s ← s1; get (r ← zrealloc s 72 20 (Some (128, replicate 20 9)); Ret r.2) in
  let s3 := s ← s2; get (zfree (zmalloc_enable_thread_safeness s) 136) in
  [s1; s2; s3].

(** Thread safety is enabled while twenty bytes are live, whose padding of four
    bytes stays in the counter. *)
Lemma zmalloc_accounting_witness :
  exists s1 s2 s3, demo_calls = [Some s1; Some s2; Some s3] /\
    used_memory s1 = 16 /\ used_memory s2 = 32 /\ used_memory s3 = 4 /\
    zmalloc_used_memory s2 = total false (blocks s2) mod size_max /\
    zmalloc_used_memory s3 = (total true (blocks s3) + padding (blocks s2)) mod size_max.
Proof.
  destruct demo_calls as [|[s1|] [|[s2|] [|[s3|] [|]]]] eqn:E; try (by vm_compute in E).
  vm_compute in E. injection E as E1 E2 E3. exists s1, s2, s3. split; [done|].
  split; [by subst|]. split; [by subst|]. split; [by subst|].
  destruct (zmalloc_accounting s2 s3) as [(_ & H2 & _) (_ & H3 & _)]; [|by subst| |done].
  - apply rtc_l with s1; [|apply rtc_once]; unfold zstep.
    + exists 5, true.
      replace (Ret s1) with (r ← zmalloc zmalloc_init 5 (Some (64, [1; 2; 3; 4; 5])); Ret r.2) by (subst; by vm_compute).
      by apply call_malloc.
    + exists 20, true.
      replace (Ret s2) with (r ← zrealloc s1 72 20 (Some (128, replicate 20 9)); Ret r.2) by (subst; by vm_compute).
      apply call_realloc; [right; subst; eexists 64, _; by split|done|split; [done|by subst]].
  - apply rtc_once. exists 0, true.
    replace (Ret s3) with (zfree (zmalloc_enable_thread_safeness s2) 136) by (subst; by vm_compute).
    apply call_free. right. subst. eexists 128, _. by split.
Defined.

Lemma zrealloc_correct_witness :
  let s := State 16 false false {[64 := Block 5 [1; 2; 3; 4; 5]]} in
  exists s' b', zrealloc s 72 20 (Some (128, replicate 20 9)) = Ret (136, s') /\
    blocks s' !! 128 = Some b' /\ b_size b' = 20 /\ zlen (b_data b') = 20 /\
    (forall i, 0 <= i < 5 -> vget (b_data b') i = vget [1; 2; 3; 4; 5] i) /\
    (forall x, x <> 64 -> x <> 128 -> blocks s' !! x = blocks s !! x) /\
    (128 <> 64 -> blocks s' !! 64 = None) /\ zmalloc_size s' 136 = Ret 32.
Proof.
  intros s. apply (zrealloc_correct 0 s 64 (Block 5 [1; 2; 3; 4; 5]) 20 128 (replicate 20 9)); try done.
  split; [done|]. intros p b. unfold s. cbn [blocks]. rewrite lookup_singleton_Some. by intros [<- <-].
Defined.

(** Turning on thread safety while blocks are live: what was added rounded up is
    taken off unrounded, and the counter stays above zero for good. *)
Example thread_safe_switch_drifts :
  (r ← zmalloc zmalloc_init 5 (Some (64, [1; 2; 3; 4; 5]));
   s ← zfree (zmalloc_enable_thread_safeness r.2) 72;
   Ret (zmalloc_used_memory s, bool_decide (blocks s = ∅))) = Ret (3, true).
Proof. by vm_compute. Qed.

(** A size that wraps around: a block of seven bytes is asked for, and the eight
    bytes of the size are stored into it. *)
Example size_wraps_around p junk : zmalloc zmalloc_init (2 ^ 64 - 1) (Some (p, junk)) = Undef OutOfBounds.
Proof. done. Qed.
