(* ===== verification/ProcStat.v ===== *)
(** * Reading the memory statistics of the kernel

    src/c/20171011_ae_httpd/zmalloc.c: [zmalloc_get_rss] for systems with
    /proc/<pid>/stat and [zmalloc_get_smap_bytes_by_field].  A pointer into an
    array is the list of the characters from there on; what [read] and [fgets]
    store is an argument. *)

From stdpp Require Import base list numbers strings.
From Stdlib Require Import ZArith Lia.
From S2P Require Import Prelude.

Open Scope Z_scope.

(** ** The library functions *)

(** The position of a character other than zero. *)
Fixpoint strchr (s : list Z) (c : Z) : outcome (option nat) :=
  match s with
  | [] => Undef OutOfBounds
  | x :: s =>
      if x =? c then Ret (Some 0%nat)
      else if x =? 0 then Ret None
      else r ← strchr s c; Ret (option_map S r)
  end.

(** Whether the first [n] characters of two strings agree. *)
Fixpoint strncmp_equal (n : nat) (a b : list Z) : outcome bool :=
  match n with
  | O => Ret true
  | S n =>
      match a, b with
      | x :: a, y :: b =>
          if negb (x =? y) then Ret false else if x =? 0 then Ret true else strncmp_equal n a b
      | _, _ => Undef OutOfBounds
      end
  end.

Definition is_digit (c : Z) : bool := (48 <=? c) && (c <=? 57).
Definition is_space (c : Z) : bool := (c =? 32) || (9 <=? c) && (c <=? 13).

Fixpoint digits_from (acc : Z) (s : list Z) : outcome Z :=
  match s with
  | [] => Undef OutOfBounds
  | c :: s => if is_digit c then digits_from (acc * 10 + (c - 48)) s else Ret acc
  end.

Definition long_min : Z := - 2 ^ 63.
Definition long_max : Z := 2 ^ 63 - 1.

(** [strtol] and [strtoll] in base ten: a value that does not fit becomes the
    nearest one that does. *)
Fixpoint strtol (s : list Z) : outcome Z :=
  match s with
  | [] => Undef OutOfBounds
  | c :: r =>
      if is_space c then strtol r
      else if c =? 45 then v ← digits_from 0 r; Ret (Z.max long_min (- v))
      else v ← digits_from 0 (if c =? 43 then r else s); Ret (Z.min long_max v)
  end.

(** ** [zmalloc_get_rss] *)

(** [while (p && count--) { p = strchr(p, ' '); if (p) p++; }] *)
Fixpoint skip_fields (count : nat) (p : list Z) : outcome (option (list Z)) :=
  match count with
  | O => Ret (Some p)
  | S count =>
      r ← strchr p 32;
      match r with
      | None => Ret None
      | Some k => skip_fields count (drop (S k) p)
      end
  end.

(** [opened]: whether [open] succeeds; [n]: what [read] returns; [buf]: the
    array afterwards. *)
Definition zmalloc_get_rss (page : Z) (opened : bool) (n : Z) (buf : list Z) : outcome Z :=
  if negb opened then Ret 0
  else if n <=? 0 then Ret 0
  else
    r ← skip_fields 23 buf;
    match r with
    | None => Ret 0
    | Some p =>
        x ← strchr p 32;
        match x with
        | None => Ret 0
        | Some k =>
            v ← strtol (<[k := 0]> p);
            Ret (szmul (v mod size_max) (page mod size_max))
        end
    end.

(** ** [zmalloc_get_smap_bytes_by_field] *)

(** A line that [fgets] stored. *)
Definition smap_line (field line : list Z) (bytes : Z) : outcome Z :=
  flen ← strlen field;
  same ← strncmp_equal (Z.to_nat flen) line field;
  if (same : bool) then
    p ← strchr line 107;
    match p with
    | None => Ret bytes
    | Some k =>
        v ← strtol (drop (Z.to_nat flen) (<[k := 0]> line));
        if (long_min <=? v * 1024) && (v * 1024 <=? long_max)
        then Ret (szadd bytes (v * 1024)) else Undef IntOverflow
    end
  else Ret bytes.

Fixpoint smap_lines (field : list Z) (lines : list (list Z)) (bytes : Z) : outcome Z :=
  match lines with
  | [] => Ret bytes
  | line :: lines => b ← smap_line field line bytes; smap_lines field lines b
  end.

(** [file]: the lines, or [None] if [fopen] failed. *)
Definition zmalloc_get_smap_bytes_by_field (field : list Z) (file : option (list (list Z))) : outcome Z :=
  match file with
  | None => Ret 0
  | Some lines => smap_lines field lines 0
  end.

Definition chars (s : string) : list Z := (fun a => Z.of_N (Ascii.N_of_ascii a)) <$> String.list_ascii_of_string s.

Definition zmalloc_get_private_dirty (file : option (list (list Z))) : outcome Z :=
  zmalloc_get_smap_bytes_by_field (chars "Private_Dirty:" ++ [0]) file.

(** ** Searching and numbers *)

(** The value of decimal digits. *)
Definition decimal_value (ds : list Z) : Z := foldl (fun acc c => acc * 10 + (c - 48)) 0 ds.

Definition digits (ds : list Z) : Prop := ds <> [] /\ Forall (fun c => 48 <= c <= 57) ds.

Lemma strchr_app f c rest :
  Forall (fun x => x <> c /\ x <> 0) f -> strchr (f ++ c :: rest) c = Ret (Some (length f)).
Proof.
  intros Hf. induction Hf as [|x f [Hc H0] Hf IH]; simpl; [by rewrite Z.eqb_refl|].
  rewrite (proj2 (Z.eqb_neq _ _) Hc), (proj2 (Z.eqb_neq _ _) H0), IH. done.
Qed.

(** Where a character is found that does occur. *)
Lemma strchr_first s c rest :
  no_nul s -> exists k, strchr (s ++ c :: rest) c = Ret (Some k) /\ (k <= length s)%nat /\ (s ++ c :: rest) !! k = Some c.
Proof.
  intros Hs. induction Hs as [|x s Hx Hs IH]; simpl; [rewrite Z.eqb_refl; by exists 0%nat|].
  destruct (Z.eqb_spec x c) as [->|Hc]; [exists 0%nat; split; [done|]; split; [lia|done]|].
  rewrite (proj2 (Z.eqb_neq _ _) Hx). destruct IH as (k & -> & Hk & Hl). bind_ret.
  exists (S k). split; [done|]. split; [lia|done].
Qed.

Lemma digits_from_app ds : forall acc c rest,
  Forall (fun c => 48 <= c <= 57) ds -> is_digit c = false ->
  digits_from acc (ds ++ c :: rest) = Ret (foldl (fun acc c => acc * 10 + (c - 48)) acc ds).
Proof.
  induction ds as [|d ds IH]; intros acc c rest Hds Hc; simpl; [by rewrite Hc|].
  apply Forall_cons in Hds as [Hd Hds]. unfold is_digit at 1.
  rewrite (proj2 (Z.leb_le 48 d)), (proj2 (Z.leb_le d 57)) by lia. by apply IH.
Qed.

Lemma strtol_digits spaces ds c rest :
  Forall (fun c => c = 32) spaces -> digits ds -> decimal_value ds <= long_max -> is_digit c = false ->
  strtol (spaces ++ ds ++ c :: rest) = Ret (decimal_value ds).
Proof.
  intros Hsp [Hne Hds] Hmax Hc. induction Hsp as [|x sp -> Hsp IH]; [|by simpl].
  destruct ds as [|d ds]; [done|]. pose proof Hds as Hds'. apply Forall_cons in Hds as [Hd Hds].
  change (strtol (d :: (ds ++ c :: rest)) = Ret (decimal_value (d :: ds))). cbn [strtol].
  assert (is_space d = false) as ->.
  { unfold is_space. rewrite (proj2 (Z.eqb_neq d 32)), (proj2 (Z.leb_gt d 13)) by lia. by rewrite andb_false_r. }
  rewrite (proj2 (Z.eqb_neq d 45)), (proj2 (Z.eqb_neq d 43)) by lia.
  change (d :: ds ++ c :: rest) with ((d :: ds) ++ c :: rest).
  rewrite digits_from_app by done. bind_ret. f_equal. by apply Z.min_r.
Qed.

Lemma decimal_value_nonneg ds : Forall (fun c => 48 <= c <= 57) ds -> 0 <= decimal_value ds.
Proof.
  intros H. enough (forall acc, 0 <= acc -> 0 <= foldl (fun acc c => acc * 10 + (c - 48)) acc ds) as Hall
    by (by apply Hall).
  induction H as [|d ds Hd H IH]; intros acc Hacc; simpl; [lia|]. apply IH. lia.
Qed.

(** A field of a line that ends in a space. *)
Definition field_ok (f : list Z) : Prop := Forall (fun x => x <> 32 /\ x <> 0) f.

Lemma skip_fields_ok fs rest :
  Forall field_ok fs -> skip_fields (length fs) (concat ((fun f => f ++ [32]) <$> fs) ++ rest) = Ret (Some rest).
Proof.
  intros Hfs. induction Hfs as [|f fs Hf Hfs IH]; [done|]. csimpl. rewrite <- !app_assoc. cbn [app].
  rewrite strchr_app by done. bind_ret.
  replace (f ++ 32 :: concat ((fun f => f ++ [32]) <$> fs) ++ rest)
    with ((f ++ [32]) ++ concat ((fun f => f ++ [32]) <$> fs) ++ rest) by (by rewrite <- app_assoc).
  rewrite drop_app_length' by (rewrite length_app; simpl; lia). apply IH.
Qed.

(** [zmalloc_get_rss] takes the 24th field of what it read, if the fields
    before contain no spaces, and multiplies the number of pages by their size,
    modulo 2^64. *)
Theorem get_rss_correct page n fs ds rest :
  0 < n -> length fs = 23%nat -> Forall field_ok fs -> digits ds -> decimal_value ds <= long_max -> 0 <= page ->
  zmalloc_get_rss page true n (concat ((fun f => f ++ [32]) <$> fs) ++ ds ++ 32 :: rest) =
  Ret ((decimal_value ds * page) mod size_max).
Proof.
  intros Hn Hlen Hfs Hds Hmax Hpage. unfold zmalloc_get_rss. cbn [negb]. rewrite (proj2 (Z.leb_gt _ _) Hn).
  rewrite <- Hlen, skip_fields_ok by done. bind_ret. destruct Hds as [Hne Hds].
  rewrite strchr_app by (eapply Forall_impl; [exact Hds|]; simpl; lia). bind_ret.
  rewrite insert_app_r_alt, Nat.sub_diag by lia. cbn [insert list_insert].
  change (ds ++ 0 :: rest) with ([] ++ ds ++ 0 :: rest). rewrite strtol_digits by done. bind_ret.
  unfold szmul. by rewrite <- Zmult_mod.
Qed.

(** A line of smaps: another field, or the one that is asked for, with spaces and
    a number of kilobytes.  [stale] is what the array held behind it. *)
Inductive smap_entry :=
  | Other (text : list Z)
  | Field (spaces ds : list Z).

Definition entry_text (field : list Z) (e : smap_entry) : list Z :=
  match e with
  | Other text => text
  | Field spaces ds => field ++ spaces ++ ds ++ [32; 107; 66; 10]
  end.

Definition entry_ok (field : list Z) (e : smap_entry) : Prop :=
  match e with
  | Other text => no_nul text /\ ~ field `prefix_of` text
  | Field spaces ds => Forall (fun c => c = 32) spaces /\ digits ds /\ decimal_value ds * 1024 <= long_max
  end.

Definition entry_bytes (e : smap_entry) : Z :=
  match e with Other _ => 0 | Field _ ds => decimal_value ds * 1024 end.

Lemma strncmp_prefix f t rest r2 :
  no_nul f -> no_nul t -> strncmp_equal (length f) (t ++ 0 :: rest) (f ++ r2) = Ret (bool_decide (f `prefix_of` t)).
Proof.
  intros Hf. revert t. induction Hf as [|x f Hx Hf IH]; intros t Ht; [done|].
  destruct t as [|y t]; cbn [length app strncmp_equal].
  - rewrite (proj2 (Z.eqb_neq 0 x)) by auto. cbn [negb]. by rewrite bool_decide_eq_false_2 by (by intros ?%prefix_nil_inv).
  - apply Forall_cons in Ht as [Hy Ht]. destruct (Z.eqb_spec y x) as [->|Hne]; simpl.
    + rewrite (proj2 (Z.eqb_neq _ _) Hx), IH by done. f_equal. apply bool_decide_ext.
      split; [by apply prefix_cons|by apply prefix_cons_inv_2].
    + f_equal. symmetry. apply bool_decide_eq_false. intros ?%prefix_cons_inv_1. by subst.
Qed.

Lemma spaces_no_nul sp : Forall (fun c => c = 32) sp -> no_nul sp.
Proof. intros H. eapply Forall_impl; [exact H|]. simpl. lia. Qed.

Lemma digits_no_nul ds : Forall (fun c => 48 <= c <= 57) ds -> no_nul ds.
Proof. intros H. eapply Forall_impl; [exact H|]. simpl. lia. Qed.

(** The character that is overwritten is in the name of the field or behind the
    number. *)
Lemma terminated field mid rest k :
  (k <= length (field ++ mid))%nat -> Forall (fun c => c <> 107) mid -> (field ++ mid ++ 107 :: rest) !! k = Some 107 ->
  exists rest', drop (length field) (<[k := 0]> (field ++ mid ++ 107 :: rest)) = mid ++ rest'.
Proof.
  intros Hk Hmid Hat. destruct (decide (k < length field)%nat) as [Hlt|Hge].
  - rewrite insert_app_l, drop_app_length' by (rewrite ?length_insert; lia). by eexists.
  - rewrite insert_app_r_alt, drop_app_length by lia. rewrite lookup_app_r in Hat by lia.
    rewrite length_app in Hk. destruct (decide (k - length field < length mid)%nat) as [Hlt|Hge2].
    + rewrite lookup_app_l in Hat by lia. by pose proof (Forall_lookup_1 _ _ _ _ Hmid Hat).
    + rewrite insert_app_r_alt by lia. by eexists.
Qed.

Lemma smap_line_ok field e r2 stale bytes :
  no_nul field -> entry_ok field e ->
  smap_line (field ++ 0 :: r2) (entry_text field e ++ 0 :: stale) bytes =
  Ret (match e with Other _ => bytes | Field _ _ => szadd bytes (entry_bytes e) end).
Proof.
  intros Hf He. unfold smap_line. rewrite strlen_text by done. bind_ret.
  replace (Z.to_nat (zlen field)) with (length field) by len.
  destruct e as [text|sp ds]; destruct He as [H1 H2].
  { rewrite strncmp_prefix by done. bind_ret. by rewrite bool_decide_eq_false_2. }
  destruct H2 as [[Hne Hds] Hmax]. cbn [entry_text].
  assert (no_nul (field ++ sp ++ ds ++ [32])) as Hpre.
  { apply Forall_app_2; [done|]. apply Forall_app_2; [by apply spaces_no_nul|].
    apply Forall_app_2; [by apply digits_no_nul|]. by apply Forall_singleton. }
  rewrite strncmp_prefix; [|done|].
  2: { change [32; 107; 66; 10] with ([32] ++ [107; 66; 10]). rewrite !app_assoc. apply Forall_app_2.
       - by rewrite <- !app_assoc.
       - by repeat apply Forall_cons_2; [..|apply Forall_nil_2]. }
  bind_ret. rewrite bool_decide_eq_true_2 by (by eexists).
  set (mid := sp ++ ds ++ [32]).
  assert ((field ++ sp ++ ds ++ [32; 107; 66; 10]) ++ 0 :: stale = field ++ mid ++ 107 :: 66 :: 10 :: 0 :: stale) as ->
    by (unfold mid; by rewrite <- !app_assoc).
  destruct (strchr_first (field ++ mid) 107 (66 :: 10 :: 0 :: stale) Hpre) as (k & Ek & Hk & Hat).
  rewrite <- app_assoc in Ek, Hat. rewrite Ek. bind_ret.
  destruct (terminated field mid (66 :: 10 :: 0 :: stale) k) as [rest' ->]; [done| |done|].
  { apply Forall_app_2; [|apply Forall_app_2; [|by apply Forall_singleton]];
      (eapply Forall_impl; [eassumption|]; simpl; lia). }
  unfold mid. rewrite <- !app_assoc. cbn [app].
  pose proof (decimal_value_nonneg ds Hds).
  rewrite (strtol_digits sp ds 32 rest') by (done || lia). bind_ret. cbn [entry_bytes].
  rewrite (proj2 (Z.leb_le long_min _)), (proj2 (Z.leb_le _ long_max)) by (unfold long_min; lia). done.
Qed.

(** [zmalloc_get_smap_bytes_by_field] sums the bytes of the lines of the
    field, modulo 2^64, whatever the other lines are. *)
Theorem smap_bytes_correct field r2 (entries : list (smap_entry * list Z)) :
  no_nul field -> Forall (fun e => entry_ok field e.1) entries ->
  zmalloc_get_smap_bytes_by_field (field ++ 0 :: r2)
    (Some ((fun e => entry_text field e.1 ++ 0 :: e.2) <$> entries)) =
  Ret (foldr Z.add 0 (entry_bytes ∘ fst <$> entries) mod size_max).
Proof.
  intros Hf He. cbn [zmalloc_get_smap_bytes_by_field].
  enough (forall b, b = b mod size_max ->
    smap_lines (field ++ 0 :: r2) ((fun e => entry_text field e.1 ++ 0 :: e.2) <$> entries) b =
    Ret ((b + foldr Z.add 0 (entry_bytes ∘ fst <$> entries)) mod size_max)) as Hall by (by apply Hall).
  induction He as [|[e stale] es Hok Hes IH]; intros b Hb; csimpl; [by rewrite Z.add_0_r, <- Hb|].
  rewrite smap_line_ok by done. bind_ret. destruct e as [text|sp ds]; [by rewrite IH|].
  unfold szadd. rewrite IH by (by rewrite Zmod_mod). by rewrite Zplus_mod_idemp_l, Z.add_assoc.
Qed.

Lemma get_rss_correct_witness :
  zmalloc_get_rss 4096 true 100 (concat ((fun f => f ++ [32]) <$> replicate 23 (chars "12")) ++ chars "307" ++ 32 :: [])
  = Ret (307 * 4096).
Proof.
  apply (get_rss_correct 4096 100 (replicate 23 (chars "12")) (chars "307") []); try done.
  - by repeat constructor.
  - by repeat constructor.
Defined.

Lemma smap_bytes_correct_witness :
  zmalloc_get_smap_bytes_by_field (chars "Locked:" ++ 0 :: [])
    (Some ((fun e : smap_entry * list Z => entry_text (chars "Locked:") e.1 ++ 0 :: e.2) <$>
       [(Other (chars "Size:   132 kB" ++ [10]), []); (Field (chars "   ") (chars "12"), [7]);
        (Field (chars " ") (chars "8"), [7; 7])])) = Ret (20 * 1024).
Proof.
  apply (smap_bytes_correct (chars "Locked:") []
    [(Other (chars "Size:   132 kB" ++ [10]), []); (Field (chars "   ") (chars "12"), [7]);
     (Field (chars " ") (chars "8"), [7; 7])]); [by repeat constructor|].
  repeat constructor; try done; simpl; try lia. by intros ?%prefix_cons_inv_1.
Defined.

(** The name of a program may contain spaces: the fields are counted wrongly, and
    another number is taken for the pages. *)
Example name_with_space :
  let fields name := concat ((fun f => f ++ [32]) <$> [chars "77"; name] ++ replicate 20 (chars "0") ++ [chars "9999"; chars "307"]) ++ [0] in
  zmalloc_get_rss 1 true 100 (fields (chars "(prog)")) = Ret 307 /\
  zmalloc_get_rss 1 true 100 (fields (chars "(my prog)")) = Ret 9999.
Proof. split; by vm_compute. Qed.

(** The array is not terminated: without enough spaces in what was read, the
    search goes on behind it. *)
Example unterminated_buffer : zmalloc_get_rss 1 true 4096 (replicate 4096 49) = Undef OutOfBounds.
Proof. by vm_compute. Qed.
