(* ===== verification/MersenneTwister.v ===== *)
(** * The Mersenne twister

    [class MersenneTwister] of src/c/20220210-memory-reorder/memory_reordering.cc.
    The generator keeps a block of 624 numbers and replaces it in place when it
    is used up.  The reference, [Module MT19937], is the generator as Matsumoto
    and Nishimura define it: the linear recurrence, without blocks, and the
    tempering, with its parameters written out. *)

From Stdlib Require Import ZArith Lia.
From stdpp Require Import base numbers list.
From S2P Require Import Prelude.

Open Scope Z_scope.

Definition MT_N : Z := 624.
Definition MT_M : Z := 397.

(** [unsigned int] *)
Definition u32 (z : Z) : Z := z mod 2 ^ 32.

Record MersenneTwister := Twister { buffer_ : list Z; index_ : Z }.

(** One round of the loop of the constructor; [1812433253UL] makes it a
    computation with 64 bits. *)
Definition seed_next (i : Z) (b : list Z) : outcome (list Z) :=
  p ← vget b (i - 1);
  vset b i (u32 ((1812433253 * Z.lxor p (Z.shiftr p 30) + i) mod 2 ^ 64)).

(** [junk]: what the array holds before. *)
Definition make (junk : list Z) (seed : Z) : outcome MersenneTwister :=
  b ← vset junk 0 (u32 seed);
  b ← for_loop (Z.to_nat (MT_N - 1)) 1 seed_next b;
  Ret (Twister b MT_N).

(** [x], and what it contributes to the new number. *)
Definition joined (a b : Z) : Z := Z.lor (Z.land a 0x80000000) (Z.land b 0x7fffffff).
Definition twisted (x : Z) : Z := Z.lxor (Z.shiftr x 1) (Z.land x 1 * 0x9908b0df).

(** [buffer_[i] = buffer_[k] ^ (x >> 1) ^ ((x & 1) * 0x9908b0dfUL)] for the
    numbers at [i] and [j]. *)
Definition twist_at (b : list Z) (i j k : Z) : outcome (list Z) :=
  p ← vget b i;
  q ← vget b j;
  r ← vget b k;
  vset b i (u32 (Z.lxor r (twisted (joined p q)))).

(** The three parts of the new block. *)
Definition twist_block (b : list Z) : outcome (list Z) :=
  b ← for_loop (Z.to_nat (MT_N - MT_M)) 0 (fun i b => twist_at b i (i + 1) (i + MT_M)) b;
  b ← for_loop (Z.to_nat (MT_M - 1)) (MT_N - MT_M) (fun i b => twist_at b i (i + 1) (u32 (i + MT_M - MT_N))) b;
  twist_at b (MT_N - 1) 0 (MT_M - 1).

Definition temper (y : Z) : Z :=
  let y := Z.lxor y (Z.shiftr y 11) in
  let y := Z.lxor y (Z.land (u32 (Z.shiftl y 7)) 0x9d2c5680) in
  let y := Z.lxor y (Z.land (u32 (Z.shiftl y 15)) 0xefc60000) in
  Z.lxor y (Z.shiftr y 18).

Definition Integer (g : MersenneTwister) : outcome (Z * MersenneTwister) :=
  g ← (if MT_N <=? index_ g then b ← twist_block (buffer_ g); Ret (Twister b 0) else Ret g);
  y ← vget (buffer_ g) (index_ g);
  Ret (temper y, Twister (buffer_ g) (index_ g + 1)).

Fixpoint draw (n : nat) (g : MersenneTwister) : outcome (list Z * MersenneTwister) :=
  match n with
  | O => Ret ([], g)
  | S n => r ← Integer g; r' ← draw n r.2; Ret (r.1 :: r'.1, r'.2)
  end.

(** ** The reference *)

Module MT19937.

(** The parameters: the degree of the recurrence, the distance of the middle
    word, the last row of the matrix A, the multiplier of the seeding and the
    masks of the tempering. *)
Definition n : nat := 624.
Definition m : nat := 397.
Definition a : Z := 2567483615.
Definition f : Z := 1812433253.
Definition b : Z := 2636928640.
Definition c : Z := 4022730752.

(** The highest bit of one word and the 31 lower bits of another. *)
Definition concatenate (u l : Z) : Z := u / 2 ^ 31 * 2 ^ 31 + l mod 2 ^ 31.

(** [x A] *)
Definition times_A (x : Z) : Z := if Z.even x then x / 2 else Z.lxor (x / 2) a.

(** The first 624 words. *)
Fixpoint initial_number (seed : Z) (i : nat) : Z :=
  match i with
  | O => seed mod 2 ^ 32
  | S i => let p := initial_number seed i in (f * Z.lxor p (p / 2 ^ 30) + Z.of_nat (S i)) mod 2 ^ 32
  end.

(** The first [624 + k] words. *)
Fixpoint numbers (seed : Z) (k : nat) : list Z :=
  match k with
  | O => initial_number seed <$> seq 0 n
  | S k =>
      let l := numbers seed k in
      l ++ [Z.lxor (l !!! (k + m)%nat) (times_A (concatenate (l !!! k) (l !!! (k + 1)%nat)))]
  end.

Definition number (seed : Z) (k : nat) : Z := numbers seed (k + 1) !!! k.

(** [x T] *)
Definition tempered (x : Z) : Z :=
  let y := Z.lxor x (x / 2 ^ 11) in
  let y := Z.lxor y (Z.land (y * 2 ^ 7) b) in
  let y := Z.lxor y (Z.land (y * 2 ^ 15) c) in
  Z.lxor y (y / 2 ^ 18).

(** The numbers of the generator. *)
Definition output (seed : Z) (k : nat) : Z := tempered (number seed (n + k)).

End MT19937.

Lemma numbers_length seed k : length (MT19937.numbers seed k) = (624 + k)%nat.
Proof. induction k as [|k IH]; [done|]. cbn [MT19937.numbers]. rewrite length_app, IH. simpl. lia. Qed.

Lemma numbers_number seed i k : (k < 624 + i)%nat -> MT19937.numbers seed i !!! k = MT19937.number seed k.
Proof.
  assert (forall j, (k < 624 + j)%nat -> MT19937.numbers seed (S j) !!! k = MT19937.numbers seed j !!! k) as Hstep.
  { intros j Hm. cbn [MT19937.numbers]. by rewrite lookup_total_app_l by (rewrite numbers_length; lia). }
  assert (forall d j, (k < 624 + j)%nat -> MT19937.numbers seed (d + j) !!! k = MT19937.numbers seed j !!! k) as Hadd.
  { induction d as [|d IH]; intros j Hm; [done|]. cbn [Nat.add]. rewrite Hstep by lia. auto. }
  intros Hk. unfold MT19937.number. destruct (le_lt_dec i (k + 1)).
  - replace (k + 1)%nat with (k + 1 - i + i)%nat by lia. by rewrite Hadd.
  - replace i with (i - (k + 1) + (k + 1))%nat by lia. rewrite Hadd by lia. done.
Qed.

(** The numbers satisfy the recurrence. *)
Lemma number_reference seed k :
  MT19937.number seed (k + 624) = Z.lxor (MT19937.number seed (k + 397)) (MT19937.times_A (MT19937.concatenate (MT19937.number seed k) (MT19937.number seed (k + 1)))).
Proof.
  rewrite <- (numbers_number seed (S k) (k + 624)) by lia. cbn [MT19937.numbers].
  rewrite lookup_total_app_r by (rewrite numbers_length; lia). rewrite numbers_length.
  replace (k + 624 - (624 + k))%nat with 0%nat by lia. cbn. by rewrite !numbers_number by (unfold MT19937.m; lia).
Qed.

Lemma number_initial seed k : (k < 624)%nat -> MT19937.number seed k = MT19937.initial_number seed k.
Proof.
  intros Hk. rewrite <- (numbers_number seed 0 k) by lia. cbn [MT19937.numbers]. unfold MT19937.n.
  apply list_lookup_total_correct. rewrite list_lookup_fmap, lookup_seq_lt by lia. done.
Qed.

(** ** 32 bits *)

Definition bits32 (z : Z) : Prop := u32 z = z.

Lemma bits32_range z : bits32 z <-> 0 <= z < 2 ^ 32.
Proof.
  unfold bits32, u32. split; [intros <-; by apply Z.mod_pos_bound|]. apply Z.mod_small.
Qed.

Lemma u32_bits z : bits32 (u32 z).
Proof. apply bits32_range. by apply Z.mod_pos_bound. Qed.

Lemma bits32_lxor a b : bits32 a -> bits32 b -> bits32 (Z.lxor a b).
Proof.
  unfold bits32, u32. intros Ha Hb. rewrite <- Ha at 2. rewrite <- Hb at 2. apply Z.bits_inj'. intros n Hn.
  rewrite Z.lxor_spec, !Z.testbit_mod_pow2, Z.lxor_spec by lia. by destruct (n <? 32).
Qed.

Lemma bits32_lor a b : bits32 a -> bits32 b -> bits32 (Z.lor a b).
Proof.
  unfold bits32, u32. intros Ha Hb. rewrite <- Ha at 2. rewrite <- Hb at 2. apply Z.bits_inj'. intros n Hn.
  rewrite Z.lor_spec, !Z.testbit_mod_pow2, Z.lor_spec by lia. by destruct (n <? 32).
Qed.

Lemma bits32_land a b : bits32 b -> bits32 (Z.land a b).
Proof.
  unfold bits32, u32. intros Hb. rewrite <- Hb at 2. apply Z.bits_inj'. intros n Hn.
  rewrite Z.land_spec, !Z.testbit_mod_pow2, Z.land_spec by lia. destruct (n <? 32); [done|]. by rewrite andb_false_r.
Qed.

Lemma bits32_shiftr a k : 0 <= k -> bits32 a -> bits32 (Z.shiftr a k).
Proof.
  rewrite !bits32_range. intros Hk Ha. rewrite Z.shiftr_div_pow2 by done.
  pose proof (Z.pow_pos_nonneg 2 k ltac:(lia) Hk). split; [apply Z.div_pos; lia|].
  apply Z.div_lt_upper_bound; nia.
Qed.

Lemma bits32_twisted a b : bits32 a -> bits32 b -> bits32 (twisted (joined a b)).
Proof.
  intros Ha Hb. assert (bits32 (joined a b)) as Hj by (apply bits32_lor; by apply bits32_land).
  apply bits32_lxor; [by apply bits32_shiftr|]. apply bits32_range.
  pose proof (Z.land_ones (joined a b) 1 ltac:(lia)) as E. change (Z.ones 1) with 1 in E. rewrite E.
  pose proof (Z.mod_pos_bound (joined a b) 2 ltac:(lia)). change (2 ^ 1) with 2. lia.
Qed.

(** The code's bit operations are the arithmetic of the reference. *)
Lemma land_top u : bits32 u -> Z.land u 0x80000000 = u / 2 ^ 31 * 2 ^ 31.
Proof.
  intros Hu%bits32_range. pose proof (Z.div_mod u (2 ^ 31) ltac:(done)) as E.
  pose proof (Z.mod_pos_bound u (2 ^ 31) ltac:(done)) as Hr.
  assert (0 <= u / 2 ^ 31 < 2) as Hq by (split; [apply Z.div_pos; lia|apply Z.div_lt_upper_bound; lia]).
  rewrite E at 1. rewrite (Z.mul_comm (2 ^ 31)), <- lor_add_pow2, Z.land_lor_distr_l by lia.
  change 0x80000000 with (1 * 2 ^ 31). rewrite (Z.land_comm (u mod _)), (land_pow2_disjoint 1 (u mod 2 ^ 31)), Z.lor_0_r by lia.
  assert (u / 2 ^ 31 = 0 \/ u / 2 ^ 31 = 1) as [-> | ->] by lia; done.
Qed.

Lemma joined_concatenate u l : bits32 u -> joined u l = MT19937.concatenate u l.
Proof.
  intros Hu. unfold joined, MT19937.concatenate. rewrite land_top by done.
  change 0x7fffffff with (Z.ones 31). rewrite Z.land_ones by done.
  apply lor_add_pow2; [done|]. by apply Z.mod_pos_bound.
Qed.

Lemma twisted_times_A x : twisted x = MT19937.times_A x.
Proof.
  unfold twisted, MT19937.times_A, MT19937.a. rewrite Z.shiftr_div_pow2 by done. change (2 ^ 1) with 2.
  rewrite (Z.land_ones x 1 ltac:(done) : Z.land x 1 = _). change (2 ^ 1) with 2.
  rewrite Zmod_even. destruct (Z.even x); [by rewrite Z.lxor_0_r|done].
Qed.

Lemma land_u32 x m : bits32 m -> Z.land (u32 x) m = Z.land x m.
Proof.
  unfold bits32, u32. intros <-. apply Z.bits_inj'. intros i Hi.
  rewrite !Z.land_spec, !Z.testbit_mod_pow2 by lia. destruct (i <? 32); [done|]. by rewrite !andb_false_r.
Qed.

Lemma temper_tempered x : temper x = MT19937.tempered x.
Proof.
  unfold temper, MT19937.tempered. rewrite !land_u32 by done.
  by rewrite !Z.shiftr_div_pow2, !Z.shiftl_mul_pow2 by done.
Qed.

Lemma number_bits seed k : bits32 (MT19937.number seed k).
Proof.
  induction (lt_wf k) as [k _ IH]. destruct (le_lt_dec 624 k) as [Hk|Hk].
  - replace k with (k - 624 + 624)%nat by lia. rewrite number_reference.
    apply bits32_lxor; [apply IH; lia|]. rewrite <- joined_concatenate, <- twisted_times_A by (apply IH; lia).
    apply bits32_twisted; apply IH; lia.
  - rewrite number_initial by done. destruct k; apply u32_bits.
Qed.

(** The recurrence as the code writes it. *)
Lemma number_recurrence seed k :
  MT19937.number seed (k + 624) =
    Z.lxor (MT19937.number seed (k + 397)) (twisted (joined (MT19937.number seed k) (MT19937.number seed (k + 1)))).
Proof. rewrite number_reference, twisted_times_A, joined_concatenate by apply number_bits. done. Qed.

(** ** The block *)

Section Block.
Context (x : nat -> Z).
Context (Hrec : forall k, x (k + 624)%nat = Z.lxor (x (k + 397)%nat) (twisted (joined (x k) (x (k + 1)%nat)))).
Context (Hbits : forall k, bits32 (x k)).

(** The block from [o] on, of which the first [i] numbers have been replaced. *)
Definition mixed (o i : nat) : list Z := (fun j => x (o + j + if decide (j < i)%nat then 624 else 0)%nat) <$> seq 0 624.

Lemma mixed_get o i j : (j < 624)%nat -> vget (mixed o i) (Z.of_nat j) = Ret (x (o + j + if decide (j < i)%nat then 624 else 0)%nat).
Proof. intros Hj. apply vget_nat. unfold mixed. by rewrite list_lookup_fmap, lookup_seq_lt by done. Qed.

Lemma mixed_set o i : (i < 624)%nat -> vset (mixed o i) (Z.of_nat i) (x (o + i + 624)%nat) = Ret (mixed o (S i)).
Proof.
  intros Hi. rewrite vset_in_range by (unfold mixed, zlen; rewrite length_fmap, length_seq; lia). f_equal.
  rewrite Nat2Z.id. apply list_eq. intros j. destruct (decide (j < 624)%nat) as [Hj|Hj].
  - destruct (decide (j = i)) as [->|Hne].
    + rewrite list_lookup_insert_eq by (unfold mixed; rewrite length_fmap, length_seq; lia).
      unfold mixed. rewrite list_lookup_fmap, lookup_seq_lt by done. simpl. by rewrite decide_True by lia.
    + rewrite list_lookup_insert_ne by done. unfold mixed. rewrite !list_lookup_fmap, !lookup_seq_lt by done. simpl.
      repeat f_equal. repeat destruct (decide _); lia.
  - rewrite !lookup_ge_None_2; [done|..]; unfold mixed; rewrite ?length_insert, length_fmap, length_seq; lia.
Qed.

(** A number is replaced, given that the other two are right. *)
Lemma twist_at_ok o i j k :
  (i < 624)%nat -> vget (mixed o i) j = Ret (x (o + i + 1)%nat) -> vget (mixed o i) k = Ret (x (o + i + 397)%nat) ->
  twist_at (mixed o i) (Z.of_nat i) j k = Ret (mixed o (S i)).
Proof.
  intros Hi Hj Hk. unfold twist_at. rewrite (mixed_get o i i Hi), Hj, Hk. bind_ret. rewrite decide_False by lia.
  rewrite Nat.add_0_r. pose proof (bits32_lxor _ _ (Hbits (o + i + 397)) (bits32_twisted _ _ (Hbits (o + i)) (Hbits (o + i + 1)))) as E.
  unfold bits32 in E. rewrite E, <- (Hrec (o + i)). by apply mixed_set.
Qed.

Lemma twist_block_ok o : twist_block (mixed o 0) = Ret (mixed (o + 624) 0).
Proof.
  unfold twist_block.
  destruct (for_loop_inv (fun i b => b = mixed o (Z.to_nat i)) (fun i b => twist_at b i (i + 1) (i + MT_M))
    (Z.to_nat (MT_N - MT_M)) 0 (mixed o 0)) as (b & -> & ->); [done| |].
  { unfold MT_N, MT_M. intros j b Hj ->. exists (mixed o (S (Z.to_nat j))). split; [|f_equal; lia].
    replace j with (Z.of_nat (Z.to_nat j)) at 2 by lia. apply twist_at_ok; [lia|..].
    - replace (j + 1) with (Z.of_nat (S (Z.to_nat j))) by lia. rewrite mixed_get by lia. rewrite decide_False by lia.
      do 2 f_equal. lia.
    - replace (j + 397) with (Z.of_nat (Z.to_nat j + 397)) by lia. rewrite mixed_get by lia. rewrite decide_False by lia.
      do 2 f_equal. lia. }
  bind_ret. change (Z.to_nat (0 + Z.of_nat (Z.to_nat (MT_N - MT_M)))) with (Z.to_nat (MT_N - MT_M)).
  destruct (for_loop_inv (fun i b => b = mixed o (Z.to_nat i)) (fun i b => twist_at b i (i + 1) (u32 (i + MT_M - MT_N)))
    (Z.to_nat (MT_M - 1)) (MT_N - MT_M) (mixed o (Z.to_nat (MT_N - MT_M)))) as (b & -> & ->); [done| |].
  { unfold MT_N, MT_M. intros j b Hj ->. exists (mixed o (S (Z.to_nat j))). split; [|f_equal; lia].
    replace j with (Z.of_nat (Z.to_nat j)) at 2 by lia. apply twist_at_ok; [lia|..].
    - replace (j + 1) with (Z.of_nat (S (Z.to_nat j))) by lia. rewrite mixed_get by lia. rewrite decide_False by lia.
      do 2 f_equal. lia.
    - replace (u32 (j + 397 - 624)) with (Z.of_nat (Z.to_nat j - 227)) by (unfold u32; rewrite Z.mod_small; lia).
      rewrite mixed_get by lia. rewrite decide_True by lia. do 2 f_equal. lia. }
  bind_ret. change (Z.to_nat (MT_N - MT_M + Z.of_nat (Z.to_nat (MT_M - 1)))) with 623%nat.
  change (MT_N - 1) with (Z.of_nat 623). rewrite twist_at_ok; [|lia|..].
  - f_equal. unfold mixed. apply list_fmap_ext. intros j k Hk%lookup_seq. rewrite decide_True, decide_False by lia. f_equal. lia.
  - change 0 with (Z.of_nat 0). rewrite mixed_get by lia. rewrite decide_True by lia. do 2 f_equal. lia.
  - change (MT_M - 1) with (Z.of_nat 396). rewrite mixed_get by lia. rewrite decide_True by lia. do 2 f_equal. lia.
Qed.

(** The generator after [n] numbers. *)
Definition at_number (g : MersenneTwister) (n : nat) : Prop :=
  exists o i, buffer_ g = mixed o 0 /\ index_ g = Z.of_nat i /\ (i <= 624)%nat /\ (o + i = 624 + n)%nat.

Lemma Integer_ok g n :
  at_number g n -> exists g', Integer g = Ret (temper (x (624 + n)%nat), g') /\ at_number g' (S n).
Proof.
  intros (o & i & Hb & Hi & Hle & Ho). unfold Integer. rewrite Hi, Hb. destruct (Z.leb_spec MT_N (Z.of_nat i)) as [Hfull|Hin].
  - assert (i = 624%nat) as -> by (unfold MT_N in *; lia). rewrite twist_block_ok. bind_ret. cbn [buffer_ index_].
    change (vget (mixed (o + 624) 0) 0) with (vget (mixed (o + 624) 0) (Z.of_nat 0)). rewrite mixed_get by lia. bind_ret. rewrite decide_False by lia. eexists. split.
    + do 4 f_equal. lia.
    + exists (o + 624)%nat, 1%nat. cbn [buffer_ index_]. split; [done|]. split; [done|]. lia.
  - bind_ret. rewrite Hb, Hi. unfold MT_N in Hin. rewrite mixed_get by lia. bind_ret. rewrite decide_False by lia.
    eexists. split; [do 4 f_equal; lia|]. exists o, (S i). cbn [buffer_ index_]. split; [done|]. split; [lia|]. lia.
Qed.

Lemma draw_ok m : forall g n, at_number g n ->
  exists g', draw m g = Ret ((fun i => temper (x (624 + n + i)%nat)) <$> seq 0 m, g').
Proof.
  induction m as [|m IH]; intros g n Hg; [by eexists|]. cbn [draw].
  destruct (Integer_ok g n Hg) as (g1 & -> & Hg1). bind_ret. cbn [fst snd].
  destruct (IH g1 (S n) Hg1) as (g2 & ->). bind_ret. cbn [fst snd]. eexists. f_equal. f_equal.
  cbn [seq fmap list_fmap]. rewrite Nat.add_0_r. f_equal. rewrite <- fmap_S_seq, <- list_fmap_compose.
  apply list_fmap_ext. intros j k _. simpl. do 2 f_equal. lia.
Qed.
End Block.

(** ** The constructor *)

Lemma seeding seed junk :
  zlen junk = MT_N ->
  exists g, make junk seed = Ret g /\ buffer_ g = MT19937.initial_number seed <$> seq 0 624 /\ index_ g = MT_N.
Proof.
  intros Hj. unfold make. rewrite vset_in_range by (rewrite Hj; done). bind_ret.
  destruct (for_loop_inv (fun i b => length b = 624%nat /\
    forall j, (j < Z.to_nat i)%nat -> b !! j = Some (MT19937.initial_number seed j)) seed_next (Z.to_nat (MT_N - 1)) 1
    (<[Z.to_nat 0 := u32 seed]> junk)) as (b & -> & Hl & Hb).
  - split; [rewrite length_insert; unfold zlen, MT_N in Hj; lia|]. intros j Hj1. assert (j = 0%nat) as -> by lia.
    apply list_lookup_insert_eq. unfold zlen, MT_N in Hj. lia.
  - unfold MT_N. intros i b Hi [Hl Hb]. unfold seed_next.
    destruct (Z.to_nat i) as [|k] eqn:Ek; [lia|]. replace (i - 1) with (Z.of_nat k) by lia.
    rewrite (vget_nat _ _ _ (Hb k ltac:(lia))). bind_ret. rewrite vset_in_range by (unfold zlen; lia).
    apply returns_ret. split; [by rewrite length_insert|]. rewrite Ek. intros j Hj2.
    destruct (decide (j = S k)) as [->|Hne]; [|rewrite list_lookup_insert_ne by done; apply Hb; lia].
    rewrite list_lookup_insert_eq by lia. f_equal. cbn [MT19937.initial_number]. unfold u32.
    replace (Z.of_nat (S k)) with i by lia. rewrite Z.shiftr_div_pow2 by done. rewrite Z.mod_mod_divide; [done|by exists (2 ^ 32)].
  - bind_ret. eexists. split; [done|]. split; [|done]. cbn [buffer_]. apply list_eq. intros j.
    destruct (decide (j < 624)%nat) as [Hj2|Hj2].
    + rewrite Hb by (unfold MT_N; lia). by rewrite list_lookup_fmap, lookup_seq_lt.
    + rewrite !lookup_ge_None_2; [done|rewrite length_fmap, length_seq; lia|lia].
Qed.

(** The generator of a seed, after some numbers. *)
Definition generating (seed : Z) (n : nat) (g : MersenneTwister) : Prop := at_number (MT19937.number seed) g n.

Lemma make_generating seed junk : zlen junk = MT_N -> exists g, make junk seed = Ret g /\ generating seed 0 g.
Proof.
  intros Hj. destruct (seeding seed junk Hj) as (g & Hg & Hb & Hi). exists g. split; [done|].
  exists 0%nat, 624%nat. split; [|split; [by rewrite Hi|lia]]. rewrite Hb. unfold mixed. apply list_fmap_ext.
  intros j k [-> Hk]%lookup_seq. rewrite decide_False by lia. symmetry. rewrite Nat.add_0_r. by apply number_initial.
Qed.
Lemma Integer_generating seed n g : generating seed n g ->
  exists g', Integer g = Ret (temper (MT19937.number seed (624 + n)), g') /\ generating seed (S n) g'.
Proof. apply Integer_ok; [apply number_recurrence|apply number_bits]. Qed.

(** C39: the generator is MT19937: whatever the array holds before and for any
    seed, the numbers that [Integer] returns one after the other are the
    outputs of the reference generator. *)
Theorem mersenne_twister_correct seed junk n :
  zlen junk = MT_N ->
  exists g g', make junk seed = Ret g /\ draw n g = Ret (MT19937.output seed <$> seq 0 n, g').
Proof.
  intros Hj. destruct (make_generating seed junk Hj) as (g & Hg & H0).
  destruct (draw_ok (MT19937.number seed) (number_recurrence seed) (number_bits seed) n g 0 H0) as (g' & E).
  exists g, g'. split; [done|]. rewrite E. do 2 f_equal. apply list_fmap_ext. intros j k _. apply temper_tempered.
Qed.

Lemma mersenne_twister_correct_witness :
  zlen (replicate 624 7) = MT_N /\
  exists g g', make (replicate 624 7) 5489 = Ret g /\ draw 3 g = Ret (MT19937.output 5489 <$> seq 0 3, g').
Proof. split; [done|]. by apply (mersenne_twister_correct 5489 (replicate 624 7) 3). Defined.

(** The first numbers for the usual seed, and the number that the C++ standard
    requires of the 10000th call. *)
Example first_numbers :
  (g ← make (replicate 624 0) 5489; r ← draw 3 g; Ret r.1) = Ret [3499211612; 581869302; 3890346734].
Proof. by vm_compute. Qed.

Example number_10000 :
  (g ← make (replicate 624 0) 5489; r ← draw (Z.to_nat 9999) g; r ← Integer r.2; Ret r.1) = Ret 4123659995.
Proof. by vm_compute. Qed.
