(* ===== verification/Reordering.v ===== *)
(** * Detecting memory reordering

    src/c/20220210-memory-reorder/memory_reordering.cc: in every round a thread
    stores [X = 1] and loads [Y], another stores [Y = 1] and loads [X], and
    [main] counts the rounds in which both loaded zero.

    The processors are those of the x86 memory model: each has a buffer of
    stores that reach the memory later and in order; a load takes the newest
    store of its own buffer, or else the memory; [mfence] and the operations on
    semaphores wait until the buffer is empty.  Threads on the same processor
    share its buffer. *)

From Stdlib Require Import ZArith Lia.
From stdpp Require Import base numbers functions relations list.
From S2P Require Import Prelude MersenneTwister.

Open Scope Z_scope.

Inductive var := VX | VY | VR1 | VR2.
Inductive tid := T1 | T2.

#[export] Instance var_eq_dec : EqDecision var.
Proof. solve_decision. Defined.
#[export] Instance tid_eq_dec : EqDecision tid.
Proof. solve_decision. Defined.

(** What [ThreadFunc1] and [ThreadFunc2] store, load and answer. *)
Definition own (t : tid) : var := match t with T1 => VX | T2 => VY end.
Definition other (t : tid) : tid := match t with T1 => T2 | T2 => T1 end.
Definition res (t : tid) : var := match t with T1 => VR1 | T2 => VR2 end.
Definition seed_of (t : tid) : Z := match t with T1 => 1 | T2 => 2 end.

(** How the program is compiled: [USE_CPU_FENCE], and the processors of the two
    threads, which [USE_SINGLE_PROCESSOR] makes equal, and of [main]. *)
Record config := Config { use_cpu_fence : bool; cpu_of : tid -> nat; main_cpu : nat }.

(** The next thing that a thread does.  The value in [Post] is the one that was
    stored to [r1] or [r2]. *)
Inductive worker :=
  | SemWait
  | Delay
  | Store
  | Fence
  | Load
  | StoreResult (v : Z)
  | Post (v : Z).

Inductive main_pc := ResetX | ResetY | Post1 | Post2 | Wait1 | Wait2 | Test.

Record state := State {
  mem : var -> Z;
  buf : nat -> list (var * Z);
  begin_sem : tid -> nat;
  end_sem : nat;
  worker_of : tid -> worker;
  random : tid -> MersenneTwister;
  main_at : main_pc;
  detected : Z
}.

(** ** Memory *)

(** The newest store of [x] in a buffer, the oldest first. *)
Fixpoint newest (x : var) (b : list (var * Z)) (v : Z) : Z :=
  match b with
  | [] => v
  | (y, w) :: b => newest x b (if decide (y = x) then w else v)
  end.

Definition visible (s : state) (c : nat) (x : var) : Z := newest x (buf s c) (mem s x).

Definition push (s : state) (c : nat) (x : var) (v : Z) : state :=
  State (mem s) (<[c := buf s c ++ [(x, v)]]> (buf s)) (begin_sem s) (end_sem s) (worker_of s) (random s)
    (main_at s) (detected s).

Definition set_worker (s : state) (t : tid) (w : worker) : state :=
  State (mem s) (buf s) (begin_sem s) (end_sem s) (<[t := w]> (worker_of s)) (random s) (main_at s) (detected s).
Definition set_main (s : state) (m : main_pc) : state :=
  State (mem s) (buf s) (begin_sem s) (end_sem s) (worker_of s) (random s) m (detected s).
Definition set_begin (s : state) (t : tid) (n : nat) : state :=
  State (mem s) (buf s) (<[t := n]> (begin_sem s)) (end_sem s) (worker_of s) (random s) (main_at s) (detected s).
Definition set_end (s : state) (n : nat) : state :=
  State (mem s) (buf s) (begin_sem s) n (worker_of s) (random s) (main_at s) (detected s).
Definition set_random (s : state) (t : tid) (g : MersenneTwister) : state :=
  State (mem s) (buf s) (begin_sem s) (end_sem s) (worker_of s) (<[t := g]> (random s)) (main_at s) (detected s).
Definition set_detected (s : state) (n : Z) : state :=
  State (mem s) (buf s) (begin_sem s) (end_sem s) (worker_of s) (random s) (main_at s) n.

(** The oldest store of a buffer reaches the memory. *)
Definition drain (s : state) (c : nat) : option state :=
  match buf s c with
  | [] => None
  | (x, v) :: b =>
      Some (State (<[x := v]> (mem s)) (<[c := b]> (buf s)) (begin_sem s) (end_sem s) (worker_of s) (random s)
              (main_at s) (detected s))
  end.

(** ** The threads *)

Section Steps.
Context (cfg : config).

Definition drained (s : state) (c : nat) : bool := bool_decide (buf s c = []).

(** A step of [ThreadFunc1] or [ThreadFunc2]. *)
Definition worker_step (s : state) (t : tid) : option state :=
  let c := cpu_of cfg t in
  match worker_of s t with
  | SemWait =>
      if drained s c then
        match begin_sem s t with
        | O => None
        | S n => Some (set_worker (set_begin s t n) t Delay)
        end
      else None
  | Delay =>
      match Integer (random s t) with
      | Ret (y, g) => Some (set_worker (set_random s t g) t (if y mod 8 =? 0 then Store else Delay))
      | _ => None
      end
  | Store => Some (set_worker (push s c (own t) 1) t (if use_cpu_fence cfg then Fence else Load))
  | Fence => if drained s c then Some (set_worker s t Load) else None
  | Load => Some (set_worker s t (StoreResult (visible s c (own (other t)))))
  | StoreResult v => Some (set_worker (push s c (res t) v) t (Post v))
  | Post v => if drained s c then Some (set_worker (set_end s (S (end_sem s))) t SemWait) else None
  end.

(** A step of the loop of [main]. *)
Definition main_step (s : state) : option state :=
  let c := main_cpu cfg in
  match main_at s with
  | ResetX => Some (set_main (push s c VX 0) ResetY)
  | ResetY => Some (set_main (push s c VY 0) Post1)
  | Post1 => if drained s c then Some (set_main (set_begin s T1 (S (begin_sem s T1))) Post2) else None
  | Post2 => if drained s c then Some (set_main (set_begin s T2 (S (begin_sem s T2))) Wait1) else None
  | Wait1 =>
      if drained s c then
        match end_sem s with O => None | S n => Some (set_main (set_end s n) Wait2) end
      else None
  | Wait2 =>
      if drained s c then
        match end_sem s with O => None | S n => Some (set_main (set_end s n) Test) end
      else None
  | Test =>
      Some (set_main (set_detected s (if (visible s c VR1 =? 0) && (visible s c VR2 =? 0)
                                      then detected s + 1 else detected s)) ResetX)
  end.

Inductive action := AWorker (t : tid) | AMain | ADrain (c : nat).

Definition act (s : state) (a : action) : option state :=
  match a with
  | AWorker t => worker_step s t
  | AMain => main_step s
  | ADrain c => drain s c
  end.

Fixpoint run (s : state) (l : list action) : option state :=
  match l with
  | [] => Some s
  | a :: l => s' ← act s a; run s' l
  end.

Definition step (s s' : state) : Prop := exists a, act s a = Some s'.

(** [main] has created the semaphores and the threads. *)
Definition start (g : tid -> MersenneTwister) : state :=
  State (fun _ => 0) (fun _ => []) (fun _ => O) O (fun _ => SemWait) g ResetX 0.
End Steps.

(** ** The semaphores *)

(** [main] has started the thread in this round. *)
Definition posted (t : tid) (m : main_pc) : bool :=
  match m with
  | ResetX | ResetY | Post1 => false
  | Post2 => bool_decide (t = T1)
  | Wait1 | Wait2 | Test => true
  end.

Definition taken (m : main_pc) : nat := match m with Wait2 => 1 | Test => 2 | _ => 0 end.

Definition waiting (w : worker) : bool := match w with SemWait => true | _ => false end.

(** The thread has answered in this round. *)
Definition finished (s : state) (t : tid) : bool :=
  waiting (worker_of s t) && (begin_sem s t =? 0)%nat && posted t (main_at s).

Definition started_ok (s : state) (t : tid) : Prop :=
  if waiting (worker_of s t)
  then if posted t (main_at s) then (begin_sem s t <= 1)%nat else begin_sem s t = O
  else posted t (main_at s) = true /\ begin_sem s t = O.

Record control (s : state) : Prop := {
  control_started : forall t, started_ok s t;
  control_end : (end_sem s + taken (main_at s) =
                 Nat.b2n (finished s T1) + Nat.b2n (finished s T2))%nat
}.

(** Both threads have answered when [main] tests, and none runs while [main] resets. *)
Lemma control_test s t : control s -> main_at s = Test -> finished s t = true.
Proof.
  intros [_ H] Hm. rewrite Hm in H. cbn [taken] in H.
  destruct (finished s T1) eqn:E1, (finished s T2) eqn:E2, t; cbn in H; try assumption; lia.
Qed.
Lemma control_running s t : control s -> worker_of s t <> SemWait -> posted t (main_at s) = true.
Proof. intros [H _] Hw. specialize (H t). unfold started_ok in H. destruct (worker_of s t); cbn in H; tauto. Qed.
Lemma running_unfinished s t : worker_of s t <> SemWait -> finished s t = false.
Proof. unfold finished. destruct (worker_of s t); done. Qed.

Lemma drain_control s c s' : control s -> drain s c = Some s' -> control s'.
Proof.
  intros [H1 H2] E. unfold drain in E. destruct (buf s c) as [|[x v] b]; [discriminate|].
  injection E as <-. constructor; [exact H1|exact H2].
Qed.

(** Looks a thread up in what a step has changed. *)
Ltac settle :=
  cbn [worker_of begin_sem end_sem main_at set_worker set_begin set_end set_main set_random set_detected push];
  rewrite ?fn_lookup_insert, ?fn_lookup_insert_ne by done.

(** The steps of a thread as rules. *)
Inductive worker_move (cfg : config) (s : state) (t : tid) : state -> Prop :=
  | move_wait n : worker_of s t = SemWait -> buf s (cpu_of cfg t) = [] -> begin_sem s t = S n ->
      worker_move cfg s t (set_worker (set_begin s t n) t Delay)
  | move_delay g w : worker_of s t = Delay -> w = Store \/ w = Delay ->
      worker_move cfg s t (set_worker (set_random s t g) t w)
  | move_store w : worker_of s t = Store -> w = (if use_cpu_fence cfg then Fence else Load) ->
      worker_move cfg s t (set_worker (push s (cpu_of cfg t) (own t) 1) t w)
  | move_fence : worker_of s t = Fence -> buf s (cpu_of cfg t) = [] -> worker_move cfg s t (set_worker s t Load)
  | move_load : worker_of s t = Load ->
      worker_move cfg s t (set_worker s t (StoreResult (visible s (cpu_of cfg t) (own (other t)))))
  | move_result v : worker_of s t = StoreResult v ->
      worker_move cfg s t (set_worker (push s (cpu_of cfg t) (res t) v) t (Post v))
  | move_post v : worker_of s t = Post v -> buf s (cpu_of cfg t) = [] ->
      worker_move cfg s t (set_worker (set_end s (S (end_sem s))) t SemWait).

Lemma worker_step_move cfg s t s' : worker_step cfg s t = Some s' -> worker_move cfg s t s'.
Proof.
  unfold worker_step, drained. intros E. destruct (worker_of s t) eqn:W; repeat case_match; simplify_eq;
    repeat match goal with H : bool_decide _ = true |- _ => apply bool_decide_eq_true in H end;
    first [eapply move_wait; eassumption|eapply move_delay; eauto|apply move_store; [assumption|case_match; congruence]
          |apply move_fence; assumption|apply move_load; assumption|apply move_result; assumption
          |eapply move_post; eassumption].
Qed.

(** A step of a thread leaves the other thread and [main] alone. *)
Lemma worker_frame cfg s t s' : worker_move cfg s t s' ->
  main_at s' = main_at s /\ detected s' = detected s /\ mem s' = mem s /\
  (forall u, u <> t -> worker_of s' u = worker_of s u /\ begin_sem s' u = begin_sem s u).
Proof.
  intros E. destruct E; (split_and!; [reflexivity..|]); intros u Hu; split; settle; reflexivity.
Qed.
Lemma finished_frame s s' u : main_at s' = main_at s -> worker_of s' u = worker_of s u ->
  begin_sem s' u = begin_sem s u -> finished s' u = finished s u.
Proof. intros H1 H2 H3. unfold finished. rewrite H1, H2, H3. reflexivity. Qed.
Lemma started_frame s s' u : main_at s' = main_at s -> worker_of s' u = worker_of s u ->
  begin_sem s' u = begin_sem s u -> started_ok s u -> started_ok s' u.
Proof. intros H1 H2 H3. unfold started_ok. rewrite H1, H2, H3. tauto. Qed.

Lemma worker_control cfg s t s' : control s -> worker_move cfg s t s' -> control s'.
Proof.
  intros [H1 H2] E. destruct (worker_frame _ _ _ _ E) as (Hm & _ & _ & Ho). pose proof (H1 t) as Ht.
  assert (Hs : started_ok s' t /\
               (end_sem s' + Nat.b2n (finished s t) = end_sem s + Nat.b2n (finished s' t))%nat).
  { clear Ho H1 H2. destruct E as [n W B N|g w W [-> | ->]|w W ->|W B|W|v W|v W B];
      unfold finished, started_ok in *; settle; rewrite W in *; cbn [waiting andb] in *.
    all: try (destruct (use_cpu_fence cfg); (split; [assumption|reflexivity])).
    - rewrite N in *. destruct (posted t (main_at s)); [|discriminate].
      replace n with O by lia. split; [auto|cbn; lia].
    - destruct Ht as [Hp Hb]. rewrite Hp, Hb. split; cbn; lia. }
  destruct Hs as [Hs He]. constructor.
  - intros u. destruct (decide (u = t)) as [->|Hu]; [exact Hs|].
    destruct (Ho u Hu). eapply started_frame; eauto.
  - rewrite Hm. destruct t;
      [destruct (Ho T2) as [? ?]; [done|]; rewrite (finished_frame s s' T2) by done
      |destruct (Ho T1) as [? ?]; [done|]; rewrite (finished_frame s s' T1) by done]; lia.
Qed.

Lemma main_control cfg s s' : control s -> main_step cfg s = Some s' -> control s'.
Proof.
  intros [H1 H2] E. pose proof (H1 T1) as A. pose proof (H1 T2) as B. clear H1.
  cut (started_ok s' T1 /\ started_ok s' T2 /\
    (end_sem s' + taken (main_at s') = Nat.b2n (finished s' T1) + Nat.b2n (finished s' T2))%nat).
  { intros (?&?&?). constructor; [intros []|]; assumption. }
  unfold main_step in E. unfold started_ok, finished in *.
  destruct (main_at s) eqn:M; cbn [posted taken] in *; rewrite ?bool_decide_true, ?bool_decide_false in * by done.
  all: destruct (drained s (main_cpu cfg)), (end_sem s) eqn:En; try discriminate; injection E as <-; settle.
  all: cbn [posted taken]; rewrite ?En, ?bool_decide_true, ?bool_decide_false by done.
  all: destruct (waiting (worker_of s T1)), (waiting (worker_of s T2)); cbn [andb] in *.
  all: destruct (Nat.eqb_spec (begin_sem s T1) 0), (Nat.eqb_spec (begin_sem s T2) 0); cbn [Nat.b2n andb Nat.eqb] in *.
  all: try lia; try (destruct A; discriminate); try (destruct B; discriminate).
  all: repeat split; try lia.
Qed.

(** ** The buffers *)

Lemma newest_app x b y w v : newest x (b ++ [(y, w)]) v = if decide (y = x) then w else newest x b v.
Proof. revert v. induction b as [|[z u] b IH]; intros v; [reflexivity|]. apply IH. Qed.
Lemma newest_const x b k : (forall w, (x, w) ∈ b -> w = k) -> newest x b k = k.
Proof.
  induction b as [|[z u] b IH]; intros H; [reflexivity|]. cbn. case_decide as Hz.
  - subst z. rewrite (H u (list_elem_of_here _ _)). apply IH. intros w Hw. apply H. right. exact Hw.
  - apply IH. intros w Hw. apply H. right. exact Hw.
Qed.
Lemma newest_absent x b v : (forall w, (x, w) ∉ b) -> newest x b v = v.
Proof. intros H. apply newest_const. intros w Hw. destruct (H w Hw). Qed.

Lemma visible_push s c x v d y : visible (push s c x v) d y = if decide (d = c /\ x = y) then v else visible s d y.
Proof.
  unfold visible, push. cbn [buf mem]. destruct (decide (d = c)) as [->|Hd].
  - rewrite fn_lookup_insert, newest_app. repeat case_decide; tauto.
  - rewrite fn_lookup_insert_ne by congruence. rewrite decide_False by tauto. reflexivity.
Qed.
Lemma push_elem s c x v d e : e ∈ buf (push s c x v) d <-> e ∈ buf s d \/ (d = c /\ e = (x, v)).
Proof.
  unfold push. cbn [buf]. destruct (decide (d = c)) as [->|Hd].
  - rewrite fn_lookup_insert, elem_of_app, list_elem_of_singleton. tauto.
  - rewrite fn_lookup_insert_ne by congruence. tauto.
Qed.

(** A store that reaches the memory is seen by the processors that have no newer one. *)
Lemma visible_drain s c s' : drain s c = Some s' ->
  exists x v, (x, v) ∈ buf s c /\ (forall d e, e ∈ buf s' d -> e ∈ buf s d) /\
    mem s' = <[x := v]> (mem s) /\
    (forall d y, visible s' d y = visible s d y \/ (y = x /\ visible s' d y = newest x (buf s d) v)).
Proof.
  unfold drain. destruct (buf s c) as [|[x v] b] eqn:B; [discriminate|]. intros [= <-].
  exists x, v. unfold visible. cbn [buf mem]. split_and!; [left| |reflexivity|].
  - intros d e. destruct (decide (d = c)) as [->|Hd]; [rewrite fn_lookup_insert, B; right; assumption|].
    rewrite fn_lookup_insert_ne by congruence. tauto.
  - intros d y. destruct (decide (d = c)) as [->|Hd].
    + left. rewrite fn_lookup_insert, B. cbn. unfold fn_insert. reflexivity.
    + rewrite (fn_lookup_insert_ne (buf s)) by congruence. destruct (decide (x = y)) as [->|Hx].
      * right. rewrite fn_lookup_insert. auto.
      * left. rewrite fn_lookup_insert_ne by congruence. reflexivity.
Qed.

(** ** No reorder is seen *)

Definition past_store (w : worker) : bool :=
  match w with Fence | Load | StoreResult _ | Post _ => true | _ => false end.
Definition past_fence (w : worker) : bool :=
  match w with Load | StoreResult _ | Post _ => true | _ => false end.

(** The stores that can be under way. *)
Inductive pending (cfg : config) (s : state) (c : nat) : var -> Z -> Prop :=
  | pending_own t : c = cpu_of cfg t -> past_store (worker_of s t) = true -> pending cfg s c (own t) 1
  | pending_reset t : c = main_cpu cfg -> main_at s = ResetY \/ main_at s = Post1 -> pending cfg s c (own t) 0
  | pending_result t v : c = cpu_of cfg t -> worker_of s t = Post v -> pending cfg s c (res t) v.

(** The value that the thread has loaded in this round. *)
Definition loaded (s : state) (t : tid) (v : Z) : Prop :=
  worker_of s t = StoreResult v \/ worker_of s t = Post v \/ (finished s t = true /\ mem s (res t) = v).

(** Every processor of a thread sees the store of [t]. *)
Definition seen (cfg : config) (s : state) (t : tid) : Prop :=
  forall u, visible s (cpu_of cfg u) (own t) = 1.

Record inv (cfg : config) (s : state) : Prop := {
  inv_control : control s;
  inv_pending : forall c x v, (x, v) ∈ buf s c -> pending cfg s c x v;
  inv_own : forall t, past_store (worker_of s t) = true -> visible s (cpu_of cfg t) (own t) = 1;
  inv_seen : forall t, past_fence (worker_of s t) = true \/ finished s t = true -> seen cfg s t;
  inv_post : forall t v, worker_of s t = Post v -> visible s (cpu_of cfg t) (res t) = v;
  inv_loaded : forall t, loaded s t 0 -> loaded s (other t) 0 -> False;
  inv_detected : detected s = 0
}.

Lemma own_inj t u : own t = own u -> t = u.
Proof. destruct t, u; done. Qed.
Lemma res_inj t u : res t = res u -> t = u.
Proof. destruct t, u; done. Qed.
Lemma own_res t u : own t <> res u.
Proof. destruct t, u; done. Qed.
Lemma other_ne t : other t <> t.
Proof. destruct t; done. Qed.
Lemma tid_cases t u : u = t \/ u = other t.
Proof. destruct t, u; auto. Qed.

Definition engaged (s : state) (t : tid) : Prop := past_store (worker_of s t) = true \/ finished s t = true.

Lemma finished_spec s t : finished s t = true ->
  worker_of s t = SemWait /\ begin_sem s t = O /\ posted t (main_at s) = true.
Proof.
  unfold finished. rewrite !andb_true_iff, Nat.eqb_eq. intros [[H1 H2] H3].
  destruct (worker_of s t); done.
Qed.
Lemma engaged_posted s t : control s -> engaged s t -> posted t (main_at s) = true.
Proof.
  intros Hc [H|H]; [|apply finished_spec, H]. apply (control_running _ _ Hc). intros E. rewrite E in H. discriminate.
Qed.

Lemma pending_own_inv cfg s c t v : pending cfg s c (own t) v ->
  (c = cpu_of cfg t /\ past_store (worker_of s t) = true /\ v = 1) \/
  (v = 0 /\ c = main_cpu cfg /\ (main_at s = ResetY \/ main_at s = Post1)).
Proof.
  intros H. inversion H as [u Hc Hp E E'|u Hc Hm E E'|u w Hc Hw E E'].
  - apply own_inj in E as <-. auto.
  - auto.
  - symmetry in E. destruct (own_res _ _ E).
Qed.
Lemma pending_res_inv cfg s c t v : pending cfg s c (res t) v -> c = cpu_of cfg t /\ worker_of s t = Post v.
Proof.
  intros H. inversion H as [u Hc Hp E E'|u Hc Hm E E'|u w Hc Hw E E'].
  - destruct (own_res _ _ E).
  - destruct (own_res _ _ E).
  - apply res_inj in E as <-. auto.
Qed.

Section Preservation.
Context (cfg : config) (s : state) (Hinv : inv cfg s).

Lemma engaged_own_one t c w : engaged s t -> (own t, w) ∈ buf s c -> w = 1.
Proof.
  intros He Hw. apply (inv_pending _ _ Hinv), pending_own_inv in Hw as [(_&_&Hw)|(_&_&Hm)]; [exact Hw|].
  pose proof (engaged_posted _ _ (inv_control _ _ Hinv) He) as Hp. destruct Hm as [Hm|Hm]; rewrite Hm in Hp; discriminate.
Qed.
Lemma finished_res_absent t c w : finished s t = true -> (res t, w) ∉ buf s c.
Proof.
  intros Hf Hw. apply (inv_pending _ _ Hinv), pending_res_inv in Hw as [_ Hw].
  apply finished_spec in Hf as [Hf _]. congruence.
Qed.
Lemma loaded_engaged t v : loaded s t v -> past_fence (worker_of s t) = true \/ finished s t = true.
Proof. intros [H|[H|[H _]]]; [rewrite H..|]; auto. Qed.

Lemma drain_inv c s' : drain s c = Some s' -> inv cfg s'.
Proof.
  intros E. pose proof (drain_control _ _ _ (inv_control _ _ Hinv) E) as Hc.
  destruct (visible_drain _ _ _ E) as (x & v & Hx & Hsub & Hmem & Hvis).
  assert (Hfr : worker_of s' = worker_of s /\ begin_sem s' = begin_sem s /\ main_at s' = main_at s /\
                detected s' = detected s).
  { unfold drain in E. destruct (buf s c) as [|[? ?] ?]; [discriminate|]. injection E as <-. auto. }
  destruct Hfr as (Hw & Hb & Hm & Hd).
  assert (Hf : forall t, finished s' t = finished s t) by (intros t; apply finished_frame; congruence).
  assert (Hown : forall t d, engaged s t -> visible s d (own t) = 1 -> visible s' d (own t) = 1).
  { intros t d He H1. destruct (Hvis d (own t)) as [->|[<- ->]]; [exact H1|].
    rewrite (engaged_own_one t c v He Hx). apply newest_const. intros w. apply engaged_own_one. exact He. }
  constructor; [exact Hc|..].
  - intros d y w Hy. apply Hsub, (inv_pending _ _ Hinv) in Hy.
    destruct Hy; econstructor; rewrite ?Hw, ?Hm; eassumption.
  - intros t. rewrite Hw. intros Ht. apply Hown; [left; exact Ht|]. apply (inv_own _ _ Hinv), Ht.
  - intros t. rewrite Hw, Hf. intros Ht u. apply Hown; [|apply (inv_seen _ _ Hinv), Ht].
    destruct Ht as [Ht|Ht]; [left|right; exact Ht]. destruct (worker_of s t); done.
  - intros t w. rewrite Hw. intros Ht. destruct (Hvis (cpu_of cfg t) (res t)) as [->|[<- ->]]; [apply (inv_post _ _ Hinv), Ht|].
    assert (Hone : forall d z, (res t, z) ∈ buf s d -> z = w).
    { intros d z Hz. apply (inv_pending _ _ Hinv), pending_res_inv in Hz as [_ Hz]. congruence. }
    rewrite (Hone _ _ Hx). apply newest_const, Hone.
  - assert (Hl : forall t, loaded s' t 0 -> loaded s t 0).
    { intros t [H|[H|[H1 H2]]]; [left|right; left|right; right]; try congruence.
      rewrite Hf in H1. split; [exact H1|]. rewrite <- H2, Hmem. rewrite fn_lookup_insert_ne; [reflexivity|].
      intros ->. destruct (finished_res_absent _ _ _ H1 Hx). }
    intros t H1 H2. apply (inv_loaded _ _ Hinv t); apply Hl; assumption.
  - rewrite Hd. apply Hinv.
Qed.

(** What a step of thread [t] leaves as it was. *)
Lemma move_other t s' u v : worker_move cfg s t s' -> u <> t -> (loaded s' u v <-> loaded s u v) /\
  finished s' u = finished s u /\ worker_of s' u = worker_of s u.
Proof.
  intros E Hu. destruct (worker_frame _ _ _ _ E) as (Hm & _ & Hmem & Ho). destruct (Ho u Hu) as [Hw Hb].
  unfold loaded. rewrite (finished_frame s s' u Hm Hw Hb), Hw, Hmem. tauto.
Qed.

(** The stores under way stay accounted for. *)
Lemma pending_kept t s' c x v : worker_move cfg s t s' -> (x, v) ∈ buf s c ->
  buf s (cpu_of cfg t) = [] \/
  ((forall w, worker_of s t <> Post w) /\ (past_store (worker_of s t) = true -> past_store (worker_of s' t) = true)) ->
  pending cfg s' c x v.
Proof.
  intros E Hin Hk. destruct (worker_frame _ _ _ _ E) as (Hm & _ & _ & Ho).
  assert (Hne : c <> cpu_of cfg t \/ buf s (cpu_of cfg t) <> []).
  { destruct (decide (c = cpu_of cfg t)) as [<-|?]; [right|auto]. intros B. rewrite B in Hin. inversion Hin. }
  apply (inv_pending _ _ Hinv) in Hin as [u -> H|u -> H|u w -> H].
  - apply pending_own; [reflexivity|]. destruct (decide (u = t)) as [->|Hu]; [|destruct (Ho u Hu); congruence].
    destruct Hk as [Hk|[_ Hk]]; [|auto]. destruct Hne as [Hne|Hne]; destruct Hne; auto.
  - apply pending_reset; [reflexivity|congruence].
  - apply pending_result; [reflexivity|]. destruct (decide (u = t)) as [->|Hu]; [|destruct (Ho u Hu); congruence].
    destruct Hk as [Hk|[Hk _]]; [|destruct (Hk w H)]. destruct Hne as [Hne|Hne]; destruct Hne; auto.
Qed.
Lemma move_pending t s' c x v : worker_move cfg s t s' -> (x, v) ∈ buf s' c -> pending cfg s' c x v.
Proof.
  intros E Hx. pose proof (fun Hi => pending_kept t s' c x v E Hi) as Hk.
  destruct E as [n W B N|g w W Hw|w W ->|W B|W|z W|z W B]; try (apply Hk; [exact Hx|auto]; fail).
  all: rewrite W in Hk; cbn [past_store] in Hk.
  - apply Hk; [exact Hx|right; done].
  - apply push_elem in Hx as [Hx|[-> [= -> ->]]]; [apply Hk; [exact Hx|right; done]|].
    apply pending_own; [reflexivity|]. settle. destruct (use_cpu_fence cfg); reflexivity.
  - apply Hk; [exact Hx|right]. settle. done.
  - apply push_elem in Hx as [Hx|[-> [= -> ->]]]; [apply Hk; [exact Hx|right; settle; done]|].
    apply pending_result; [reflexivity|]. settle. reflexivity.
Qed.

(** What a thread that takes no part in the step sees of its variables. *)
Lemma move_visible t s' d y : worker_move cfg s t s' ->
  visible s' d y = visible s d y \/
  (worker_of s t = Store /\ y = own t /\ visible s' d y = 1) \/
  (exists v, worker_of s t = StoreResult v /\ y = res t).
Proof.
  intros E. destruct E as [n W B N|g w W Hw|w W ->|W B|W|z W|z W B]; try (left; reflexivity).
  - change (visible (set_worker ?x _ _) d y) with (visible x d y). rewrite visible_push.
    case_decide as Hd; [|left; reflexivity]. destruct Hd as [_ <-]. auto.
  - change (visible (set_worker ?x _ _) d y) with (visible x d y). rewrite visible_push.
    case_decide as Hd; [|left; reflexivity]. destruct Hd as [_ <-]. eauto.
Qed.

Lemma move_own t s' u : worker_move cfg s t s' -> past_store (worker_of s' u) = true ->
  visible s' (cpu_of cfg u) (own u) = 1.
Proof.
  intros E Hu. destruct (move_visible t s' (cpu_of cfg u) (own u) E) as [Hv|[(_&_&Hv)|(v&_&Hv)]];
    [|exact Hv|destruct (own_res _ _ Hv)].
  destruct (decide (u = t)) as [->|Ht].
  - destruct E as [n W B N|g w W [-> | ->]|w W ->|W B|W|z W|z W B]; revert Hu; settle; try done; intros _.
    + change (visible (set_worker ?x _ _) ?d ?y) with (visible x d y). rewrite visible_push, decide_True; done.
    + rewrite Hv. apply (inv_own _ _ Hinv). rewrite W. reflexivity.
    + rewrite Hv. apply (inv_own _ _ Hinv). rewrite W. reflexivity.
    + rewrite Hv. apply (inv_own _ _ Hinv). rewrite W. reflexivity.
  - destruct (move_other t s' u 0 E Ht) as (_&_&Hw). rewrite Hv. apply (inv_own _ _ Hinv). congruence.
Qed.

(** The store of a thread past its fence is seen: on one processor because it is in the buffer that the threads
    share, and otherwise because the fence has waited until it is in the memory. *)
Lemma fence_seen t : worker_of s t = Fence -> buf s (cpu_of cfg t) = [] -> seen cfg s t.
Proof.
  intros W B u. pose proof (inv_own _ _ Hinv t) as Ho. rewrite W in Ho. specialize (Ho eq_refl).
  unfold visible in *. rewrite B in Ho. cbn in Ho. rewrite Ho. apply newest_const.
  intros w. apply engaged_own_one. left. rewrite W. reflexivity.
Qed.

Context (Hsafe : use_cpu_fence cfg = true \/ cpu_of cfg T1 = cpu_of cfg T2).

Lemma store_seen t w : use_cpu_fence cfg = false -> seen cfg (set_worker (push s (cpu_of cfg t) (own t) 1) t w) t.
Proof.
  intros Hf u. destruct Hsafe as [Hs|Hs]; [congruence|].
  change (visible (set_worker ?x _ _) ?d ?y) with (visible x d y). rewrite visible_push, decide_True; [reflexivity|].
  split; [destruct t, u; congruence|reflexivity].
Qed.

Lemma move_seen t s' u : worker_move cfg s t s' ->
  past_fence (worker_of s' u) = true \/ finished s' u = true -> seen cfg s' u.
Proof.
  intros E Hu.
  assert (Hkeep : past_fence (worker_of s u) = true \/ finished s u = true -> seen cfg s' u).
  { intros Hs z. pose proof (inv_seen _ _ Hinv u Hs z) as Hz.
    destruct (move_visible t s' (cpu_of cfg z) (own u) E) as [->|[(_&_&Hv)|(v&_&Hv)]];
      [exact Hz|exact Hv|destruct (own_res _ _ Hv)]. }
  destruct (decide (u = t)) as [->|Ht].
  2: { destruct (move_other t s' u 0 E Ht) as (_&Hf&Hw). apply Hkeep. rewrite <- Hf, <- Hw. exact Hu. }
  destruct E as [n W B N|g w W [-> | ->]|w W ->|W B|W|z W|z W B];
    rewrite W in Hkeep; try (apply Hkeep; left; reflexivity);
    unfold finished in Hu; revert Hu; settle; cbn [past_fence waiting andb]; try (intros [|]; discriminate).
  - pose proof (store_seen t Load) as Hst. destruct (use_cpu_fence cfg); [intros [|]; discriminate|].
    intros _. exact (Hst eq_refl).
  - intros _ z. apply (fence_seen t W B z).
Qed.

Lemma move_post_value t s' u v : worker_move cfg s t s' -> worker_of s' u = Post v ->
  visible s' (cpu_of cfg u) (res u) = v.
Proof.
  intros E Hu. destruct (decide (u = t)) as [->|Ht].
  - destruct E as [n W B N|g w W [-> | ->]|w W ->|W B|W|z W|z W B]; revert Hu; settle; try done.
    + destruct (use_cpu_fence cfg); discriminate.
    + intros [= ->]. change (visible (set_worker ?x _ _) ?d ?y) with (visible x d y).
      rewrite visible_push, decide_True; done.
  - destruct (move_other t s' u 0 E Ht) as (_&_&Hw).
    destruct (move_visible t s' (cpu_of cfg u) (res u) E) as [->|[(_&Hv&_)|(z&_&Hv)]].
    + apply (inv_post _ _ Hinv). congruence.
    + symmetry in Hv. destruct (own_res _ _ Hv).
    + destruct Ht. apply res_inj, Hv.
Qed.

(** The thread that loads last does not load zero if the other has. *)
Lemma move_loaded t s' : worker_move cfg s t s' -> loaded s' t 0 -> loaded s' (other t) 0 -> False.
Proof.
  intros E H1 H2. apply (move_other t s' (other t) 0 E (other_ne t)) in H2.
  assert (Hkeep : loaded s t 0 -> False) by (intros H; exact (inv_loaded _ _ Hinv t H H2)).
  destruct E as [n W B N|g w W [-> | ->]|w W ->|W B|W|z W|z W B];
    unfold loaded, finished in H1; revert H1; settle; cbn [waiting andb mem set_worker push];
    try (intros [|[|[]]]; discriminate).
  - destruct (use_cpu_fence cfg); intros [|[|[]]]; discriminate.
  - intros [H|[H|[]]]; [|discriminate..]. injection H as H.
    pose proof (inv_seen _ _ Hinv (other t) (loaded_engaged _ _ H2) t). lia.
  - intros [H|[H|[]]]; [discriminate| |discriminate]. injection H as ->. apply Hkeep. left. exact W.
  - intros [H|[H|[_ H]]]; [discriminate..|]. apply Hkeep. right. left.
    pose proof (inv_post _ _ Hinv t z W) as Hv. unfold visible in Hv. rewrite B in Hv. cbn in Hv.
    change (mem (set_end s (S (end_sem s))) (res t)) with (mem s (res t)) in H. congruence.
Qed.

Lemma worker_inv t s' : worker_move cfg s t s' -> inv cfg s'.
Proof.
  intros E. constructor.
  - eapply worker_control; [apply (inv_control _ _ Hinv)|exact E].
  - intros c x v. apply (move_pending t), E.
  - intros u. apply (move_own t), E.
  - intros u. apply (move_seen t), E.
  - intros u v. apply (move_post_value t), E.
  - intros u H1 H2. destruct (tid_cases t u) as [->|Hu]; [eapply move_loaded; eassumption|].
    subst u. replace (other (other t)) with t in H2 by (destruct t; reflexivity). eapply move_loaded; eassumption.
  - destruct (worker_frame _ _ _ _ E) as (_ & -> & _). apply Hinv.
Qed.
End Preservation.

(** [main] between the rounds: no thread runs. *)
Lemma inv_quiet cfg s : control s -> (forall t, waiting (worker_of s t) = true /\ finished s t = false) ->
  (forall c x v, (x, v) ∈ buf s c -> pending cfg s c x v) -> detected s = 0 -> inv cfg s.
Proof.
  intros Hc Hq Hp Hd.
  assert (Hw : forall t, worker_of s t = SemWait) by (intros t; destruct (Hq t) as [H _]; destruct (worker_of s t); done).
  assert (Hf : forall t, finished s t = false) by (intros t; apply Hq).
  constructor; [assumption..| | | | |assumption].
  - intros t. rewrite Hw. discriminate.
  - intros t. rewrite Hw, Hf. intros [|]; discriminate.
  - intros t v. rewrite Hw. discriminate.
  - intros t [H|[H|[H _]]]; [rewrite Hw in H..|rewrite Hf in H]; discriminate.
Qed.

(** A step of [main] that only moves the semaphores while threads run. *)
Lemma inv_signal cfg s s' : inv cfg s -> control s' -> mem s' = mem s -> buf s' = buf s -> worker_of s' = worker_of s ->
  detected s' = detected s -> main_at s <> ResetY -> main_at s <> Post1 ->
  (forall t, finished s' t = true -> finished s t = true) -> inv cfg s'.
Proof.
  intros Hi Hc Hm Hb Hw Hd Hn1 Hn2 Hf.
  assert (Hv : forall c x, visible s' c x = visible s c x) by (intros; unfold visible; rewrite Hm, Hb; reflexivity).
  constructor; [exact Hc|..].
  - intros c x v. rewrite Hb. intros H. apply (inv_pending _ _ Hi) in H as [u -> H|u -> H|u w -> H];
      [apply pending_own|tauto|apply pending_result]; rewrite ?Hw; auto.
  - intros t. rewrite Hw, Hv. apply Hi.
  - intros t Ht u. rewrite Hv. apply (inv_seen _ _ Hi). rewrite <- Hw. destruct Ht; auto.
  - intros t v. rewrite Hw, Hv. apply Hi.
  - assert (Hl : forall t, loaded s' t 0 -> loaded s t 0).
    { intros t [H|[H|[H1 H2]]]; [left|right; left|right; right]; try congruence. split; [auto|congruence]. }
    intros t H1 H2. apply (inv_loaded _ _ Hi t); apply Hl; assumption.
  - rewrite Hd. apply Hi.
Qed.

Lemma control_unposted s t : control s -> posted t (main_at s) = false ->
  waiting (worker_of s t) = true /\ finished s t = false.
Proof.
  intros [H _] Hp. specialize (H t). unfold started_ok, finished in *. rewrite Hp in *.
  destruct (waiting (worker_of s t)); [|destruct H; discriminate]. split; [reflexivity|apply andb_false_r].
Qed.
Lemma control_finished s t : finished s t = true -> waiting (worker_of s t) = true.
Proof. unfold finished. rewrite !andb_true_iff. tauto. Qed.

(** No store is under way when no thread runs and [main] has not reset the variables. *)
Lemma quiet_empty cfg s c x v : inv cfg s -> (forall t, waiting (worker_of s t) = true) ->
  c <> main_cpu cfg \/ (main_at s <> ResetY /\ main_at s <> Post1) -> (x, v) ∉ buf s c.
Proof.
  intros Hi Hw Hm H. apply (inv_pending _ _ Hi) in H as [t -> H|t -> H|t w -> H]; [|tauto|];
    specialize (Hw t); destruct (worker_of s t); discriminate.
Qed.

(** The test of [main] in a round: both threads have answered, and [main] sees their answers. *)
Lemma test_false cfg s : inv cfg s -> main_at s = Test ->
  (visible s (main_cpu cfg) VR1 =? 0) && (visible s (main_cpu cfg) VR2 =? 0) = false.
Proof.
  intros Hi M. apply not_true_iff_false. rewrite andb_true_iff, !Z.eqb_eq. intros [H1 H2].
  pose proof (fun t => control_test s t (inv_control _ _ Hi) M) as Hf.
  assert (Hv : forall t, visible s (main_cpu cfg) (res t) = mem s (res t)).
  { intros t. apply newest_absent. intros w. apply (finished_res_absent _ _ Hi), Hf. }
  pose proof (Hv T1) as E1. pose proof (Hv T2) as E2. cbn [res] in E1, E2.
  apply (inv_loaded _ _ Hi T1); right; right; (split; [apply Hf|cbn; congruence]).
Qed.

Lemma main_inv cfg s s' : inv cfg s -> main_step cfg s = Some s' -> inv cfg s'.
Proof.
  intros Hi E. pose proof (main_control _ _ _ (inv_control _ _ Hi) E) as Hc'.
  pose proof (inv_control _ _ Hi) as Hc. pose proof (quiet_empty cfg s) as Hq. pose proof (inv_detected _ _ Hi) as Hd.
  pose proof (fun t => control_unposted s t Hc) as Hu. pose proof (test_false cfg s Hi) as Ht.
  unfold main_step, drained in E. destruct (main_at s) eqn:M; cbn [posted] in Hu.
  all: try (case_bool_decide as B; [|discriminate]).
  - injection E as <-. apply inv_quiet; [exact Hc'|intros t; apply (control_unposted _ t Hc'); reflexivity| |exact Hd].
    intros c x v [Hx|[-> [= -> ->]]]%push_elem.
    + destruct (Hq c x v Hi (fun t => proj1 (Hu t eq_refl))); [right; done|exact Hx].
    + apply (pending_reset _ _ _ T1); [reflexivity|left; reflexivity].
  - injection E as <-. apply inv_quiet; [exact Hc'|intros t; apply (control_unposted _ t Hc'); reflexivity| |exact Hd].
    intros c x v [Hx|[-> [= -> ->]]]%push_elem.
    + pose proof Hx as Hp. apply (inv_pending _ _ Hi) in Hp as [t -> H|t -> H|t w -> H];
        [|apply pending_reset; [reflexivity|right; reflexivity]|];
        destruct (Hu t eq_refl) as [Hw _]; destruct (worker_of s t); discriminate.
    + apply (pending_reset _ _ _ T2); [reflexivity|right; reflexivity].
  - injection E as <-. apply inv_quiet; [exact Hc'| |intros c x v Hx|exact Hd].
    + intros t. split; [exact (proj1 (Hu t eq_refl))|]. unfold finished. settle. destruct t; settle;
        rewrite ?andb_false_r; reflexivity.
    + destruct (Hq c x v Hi (fun t => proj1 (Hu t eq_refl))); [|exact Hx].
      left. intros ->. change (buf (set_main (set_begin s T1 _) _)) with (buf s) in Hx. rewrite B in Hx. inversion Hx.
  - injection E as <-. eapply (inv_signal _ s); [exact Hi|exact Hc'|reflexivity..|congruence|congruence|].
    intros t. unfold finished. settle. rewrite M. destruct t; settle; [tauto|]. rewrite andb_false_r. discriminate.
  - destruct (end_sem s) eqn:En; [discriminate|]. injection E as <-.
    eapply (inv_signal _ s); [exact Hi|exact Hc'|reflexivity..|congruence|congruence|].
    intros t. unfold finished. settle. rewrite M. tauto.
  - destruct (end_sem s) eqn:En; [discriminate|]. injection E as <-.
    eapply (inv_signal _ s); [exact Hi|exact Hc'|reflexivity..|congruence|congruence|].
    intros t. unfold finished. settle. rewrite M. tauto.
  - injection E as <-. apply inv_quiet; [exact Hc'|intros t; apply (control_unposted _ t Hc'); reflexivity| |].
    + intros c x v Hx. destruct (Hq c x v Hi); [|right; done|exact Hx].
      intros t. apply control_finished, control_test; assumption.
    + cbn [detected set_main set_detected]. rewrite Ht by reflexivity. exact Hd.
Qed.

Lemma act_inv cfg s a s' : use_cpu_fence cfg = true \/ cpu_of cfg T1 = cpu_of cfg T2 ->
  inv cfg s -> act cfg s a = Some s' -> inv cfg s'.
Proof.
  intros Hs Hi E. destruct a as [t| |c]; cbn [act] in E.
  - eapply worker_inv; [exact Hi|exact Hs|apply worker_step_move, E].
  - eapply main_inv; eassumption.
  - eapply drain_inv; eassumption.
Qed.

Lemma round_inv_start cfg g : inv cfg (start g).
Proof.
  apply inv_quiet; [|intros t; split; reflexivity|intros c x v H; inversion H|reflexivity].
  constructor; [intros t; reflexivity|reflexivity].
Qed.

(** C35: as the program is compiled, with both threads on one processor, and also
    with the fences on two, [main] never finds that both threads have loaded zero. *)
Theorem no_reorder_detected cfg g s :
  use_cpu_fence cfg = true \/ cpu_of cfg T1 = cpu_of cfg T2 ->
  rtc (step cfg) (start g) s -> detected s = 0.
Proof.
  intros Hs Hr. apply (inv_detected cfg). revert Hr.
  apply rtc_preserves; [|apply round_inv_start]. intros x y Hx [a Ha]. eapply act_inv; eassumption.
Qed.

Lemma run_steps cfg l : forall s s', run cfg s l = Some s' -> rtc (step cfg) s s'.
Proof.
  induction l as [|a l IH]; intros s s' E; cbn [run] in E; [injection E as <-; constructor|].
  destruct (act cfg s a) as [s1|] eqn:Ea; [|discriminate]. econstructor; [exists a; exact Ea|apply IH, E].
Qed.

(** The generator that a thread constructs, over an array of zeros. *)
Definition fresh_random (t : tid) : MersenneTwister :=
  match make (replicate 624 0) (seed_of t) with Ret g => g | _ => Twister [] 0 end.

(** A round in which the first thread loads before its store has left the
    buffer: thread 1 draws [d1] numbers in its delay and thread 2 [d2]. *)
Definition reordered_round (d1 d2 : nat) : list action :=
  [AMain; AMain; ADrain 2; ADrain 2; AMain; AMain; AWorker T1; AWorker T2] ++
  replicate d1 (AWorker T1) ++ replicate d2 (AWorker T2) ++
  [AWorker T1; AWorker T2; AWorker T1; AWorker T2; AWorker T1; AWorker T2] ++
  [ADrain 0; ADrain 0; ADrain 1; ADrain 1; AWorker T1; AWorker T2; AMain; AMain; AMain].

(** The same round on one processor. *)
Definition shared_round (d1 d2 : nat) : list action :=
  [AMain; AMain; ADrain 1; ADrain 1; AMain; AMain; AWorker T1; AWorker T2] ++
  replicate d1 (AWorker T1) ++ replicate d2 (AWorker T2) ++
  [AWorker T1; AWorker T2; AWorker T1; AWorker T2; AWorker T1; AWorker T2] ++
  [ADrain 0; ADrain 0; ADrain 0; ADrain 0; AWorker T1; AWorker T2; AMain; AMain; AMain].

Definition one_processor : config := Config false (fun _ => 0)%nat 1.
Definition two_processors (fence : bool) : config :=
  Config fence (fun t => match t with T1 => 0 | T2 => 1 end)%nat 2.

Lemma no_reorder_detected_witness : exists s,
  rtc (step one_processor) (start fresh_random) s /\ main_at s = ResetX /\ mem s VR1 = 1 /\ mem s VR2 = 1 /\ detected s = 0.
Proof.
  assert (H : option_map (fun s => (main_at s, mem s VR1, mem s VR2))
                (run one_processor (start fresh_random) (shared_round 4 1)) = Some (ResetX, 1, 1))
    by (vm_compute; reflexivity).
  destruct (run one_processor (start fresh_random) (shared_round 4 1)) as [s|] eqn:E; [|discriminate].
  injection H as H1 H2 H3. exists s.
  assert (Hr : rtc (step one_processor) (start fresh_random) s) by exact (run_steps _ _ _ _ E).
  split; [exact Hr|]. split; [exact H1|]. split; [exact H2|]. split; [exact H3|].
  exact (no_reorder_detected one_processor fresh_random s (or_intror eq_refl) Hr).
Defined.

(** On two processors and without the fence the program does find a reorder. *)
Example reorder_detected : exists s,
  rtc (step (two_processors false)) (start fresh_random) s /\ detected s = 1.
Proof.
  assert (H : option_map detected (run (two_processors false) (start fresh_random) (reordered_round 4 1)) = Some 1)
    by (vm_compute; reflexivity).
  destruct (run (two_processors false) (start fresh_random) (reordered_round 4 1)) as [s|] eqn:E; [|discriminate].
  exists s. split; [exact (run_steps _ _ _ _ E)|]. injection H as H. exact H.
Qed.

(** ** The program does not stop *)

Definition generators_ok (s : state) : Prop := forall t, exists n, generating (seed_of t) n (random s t).

Lemma generators_step cfg s a s' : generators_ok s -> act cfg s a = Some s' -> generators_ok s'.
Proof.
  intros Hg E t. destruct a as [u| |c]; cbn [act] in E.
  - destruct (Hg u) as [n Hn]. destruct (Integer_generating _ _ _ Hn) as (g & Hi & Hn').
    unfold worker_step in E. rewrite Hi in E. repeat case_match; simplify_eq; try apply Hg;
      cbn [set_worker set_random random]; (destruct (decide (t = u)) as [->|Ht];
        [rewrite fn_lookup_insert; exists (S n); exact Hn'|rewrite fn_lookup_insert_ne by congruence; apply Hg]).
  - unfold main_step in E. repeat case_match; simplify_eq; apply Hg.
  - unfold drain in E. repeat case_match; simplify_eq; apply Hg.
Qed.
Lemma control_step cfg s a s' : control s -> act cfg s a = Some s' -> control s'.
Proof.
  intros Hc E. destruct a as [t| |c]; cbn [act] in E.
  - eapply worker_control; [exact Hc|apply worker_step_move, E].
  - eapply main_control; eassumption.
  - eapply drain_control; eassumption.
Qed.

Definition enabled (cfg : config) (s : state) : Prop := exists a s', act cfg s a = Some s'.

Lemma drain_enabled cfg s c : buf s c <> [] -> enabled cfg s.
Proof. intros B. exists (ADrain c). cbn [act]. unfold drain. destruct (buf s c) as [|[x v] b]; [done|eauto]. Qed.
Lemma worker_enabled cfg s t : control s -> generators_ok s -> posted t (main_at s) = true -> finished s t = false ->
  enabled cfg s.
Proof.
  intros [Hc _] Hg Hp Hf. destruct (decide (buf s (cpu_of cfg t) = [])) as [B|B]; [|eapply drain_enabled, B].
  exists (AWorker t). cbn [act]. unfold worker_step, drained. rewrite (bool_decide_true _ B).
  destruct (Hg t) as [n Hn]. destruct (Integer_generating _ _ _ Hn) as (g & -> & _).
  unfold finished in Hf. rewrite Hp in Hf. destruct (worker_of s t); eauto.
  destruct (begin_sem s t); [discriminate|eauto].
Qed.
Lemma main_enabled cfg s : control s -> generators_ok s -> enabled cfg s.
Proof.
  intros Hc Hg. destruct (decide (buf s (main_cpu cfg) = [])) as [B|B]; [|eapply drain_enabled, B].
  assert (Hm : forall s', main_step cfg s = Some s' -> enabled cfg s) by (intros s' E; exists AMain, s'; exact E).
  pose proof (control_end _ Hc) as He. unfold main_step, drained in Hm. rewrite (bool_decide_true _ B) in Hm.
  pose proof (fun t => worker_enabled cfg s t Hc Hg) as Hw.
  destruct (main_at s) eqn:M; try (eapply Hm; reflexivity); destruct (end_sem s); try (eapply Hm; reflexivity).
  all: destruct (finished s T1) eqn:F1; [|exact (Hw T1 eq_refl F1)].
  all: destruct (finished s T2) eqn:F2; [discriminate|exact (Hw T2 eq_refl F2)].
Qed.

(** The program never stops: from every state that it reaches, on any
    processors and with or without the fences, [main], a thread or a buffer can
    take a step. *)
Theorem rounds_go_on cfg junk g s :
  (forall t, zlen (junk t) = MT_N /\ make (junk t) (seed_of t) = Ret (g t)) ->
  rtc (step cfg) (start g) s -> exists s', step cfg s s'.
Proof.
  intros Hg Hr. cut (control s /\ generators_ok s).
  { intros [H1 H2]. destruct (main_enabled cfg s H1 H2) as (a & s' & E). exists s', a. exact E. }
  revert Hr. apply (rtc_preserves (step cfg) (fun s => control s /\ generators_ok s)).
  - intros x y [H1 H2] [a E]. split; [eapply control_step|eapply generators_step]; eassumption.
  - split; [apply (inv_control cfg), round_inv_start|]. intros t. destruct (Hg t) as [Hl Hm].
    destruct (make_generating (seed_of t) (junk t) Hl) as (g' & E & H). exists O. cbn [start random]. congruence.
Qed.

Lemma rounds_go_on_witness : exists s, run one_processor (start fresh_random) [AMain; AMain; ADrain 1; ADrain 1] = Some s /\
  exists s', step one_processor s s'.
Proof.
  eexists. split; [reflexivity|].
  apply (rounds_go_on one_processor (fun _ => replicate 624 0) fresh_random).
  - intros t. split; [reflexivity|]. destruct t; vm_compute; reflexivity.
  - apply (run_steps one_processor [AMain; AMain; ADrain 1; ADrain 1]). reflexivity.
Defined.
