(* ===== verification/PerfStats.v ===== *)
(** * Counting loops

    src/util/perf_stats.hpp: [Incr] adds to an atomic counter; a thread takes
    the count every second and prints it with the time and the average, and
    [Stop] cancels that thread and prints the rest.  src/util/stop_watch.hpp has
    the same report without the thread.  The clock is an input of the steps. *)

From Stdlib Require Import ZArith Lia.
From stdpp Require Import base numbers relations list.
From S2P Require Import Prelude.

Open Scope Z_scope.

(** [uint64_t] *)
Definition u64 (z : Z) : Z := z mod 2 ^ 64.

(** A line of output: the nanoseconds, the loops and the average. *)
Record report := Report { ns : Z; loops : Z; average : Z }.

(** [ns] is signed; the division converts it to [uint64_t]. *)
Definition make_report (n l : Z) : outcome report :=
  if l =? 0 then Undef DivByZero else Ret (Report n l (u64 n / l)).

(** ** The stop watch *)

Record StopWatch := Watch { watch_start : Z; watch_loops : Z }.

Definition Start (now : Z) : StopWatch := Watch now 0.
Definition AddLoops (w : StopWatch) (n : Z) : StopWatch := Watch (watch_start w) (u64 (watch_loops w + n)).
Definition StopAndStats (w : StopWatch) (now : Z) : outcome report :=
  make_report (now - watch_start w) (watch_loops w).

(** ** The statistics *)

(** What a thread that prints does next. *)
Inductive printer :=
  | Resting
  | Loading
  | Loaded (l : Z)
  | Subtracted (l : Z)
  | Dead.

Record PerfStats := Stats {
  loops_ : Z;
  start_ : Z;
  thread_ : printer;
  stopper : printer;
  cancelled : bool;
  output : list report;
  added : Z
}.

Definition make (now : Z) : PerfStats := Stats 0 now Resting Resting false [] 0.

Inductive who := Background | Caller.

Definition printer_of (s : PerfStats) (w : who) : printer :=
  match w with Background => thread_ s | Caller => stopper s end.
Definition set_printer (s : PerfStats) (w : who) (p : printer) : PerfStats :=
  match w with
  | Background => Stats (loops_ s) (start_ s) p (stopper s) (cancelled s) (output s) (added s)
  | Caller => Stats (loops_ s) (start_ s) (thread_ s) p (cancelled s) (output s) (added s)
  end.
Definition set_loops (s : PerfStats) (l : Z) : PerfStats :=
  Stats l (start_ s) (thread_ s) (stopper s) (cancelled s) (output s) (added s).

Definition Incr (s : PerfStats) (n : Z) : PerfStats :=
  Stats (u64 (loops_ s + n)) (start_ s) (thread_ s) (stopper s) (cancelled s) (output s) (added s + n).

(** A step of [Print]: the load, the subtraction, and the line with the new start. *)
Definition print_step (s : PerfStats) (w : who) (now : Z) : option (outcome PerfStats) :=
  match printer_of s w with
  | Loading => Some (Ret (set_printer s w (Loaded (loops_ s))))
  | Loaded l => Some (Ret (set_printer (set_loops s (u64 (loops_ s + u64 (- l)))) w (Subtracted l)))
  | Subtracted l =>
      Some (r ← make_report (now - start_ s) l;
            Ret (set_printer (Stats (loops_ s) now (thread_ s) (stopper s) (cancelled s) (output s ++ [r]) (added s))
                   w Resting))
  | _ => None
  end.

Inductive event :=
  | EIncr (n : Z)
  | EPrint (w : who) (now : Z)
  | EWake
  | ECancel
  | EDie.

(** The thread wakes up from its sleep and prints.  [Stop] cancels it, which
    takes effect where the thread sleeps or writes, and prints. *)
Definition handle (s : PerfStats) (e : event) : option (outcome PerfStats) :=
  match e with
  | EIncr n => Some (Ret (Incr s n))
  | EPrint w now => print_step s w now
  | EWake =>
      match cancelled s, thread_ s with
      | false, Resting => Some (Ret (set_printer s Background Loading))
      | _, _ => None
      end
  | ECancel =>
      if cancelled s then None
      else Some (Ret (Stats (loops_ s) (start_ s) (thread_ s) Loading true (output s) (added s)))
  | EDie =>
      match cancelled s, thread_ s with
      | true, Resting | true, Subtracted _ => Some (Ret (set_printer s Background Dead))
      | _, _ => None
      end
  end.

(** [Incr] takes a [uint64_t]. *)
Definition typed (e : event) : Prop := match e with EIncr n => 0 <= n < 2 ^ 64 | _ => True end.

(** [Stop] is called while the thread sleeps. *)
Definition undisturbed (s : PerfStats) (e : event) : Prop :=
  match e with ECancel => thread_ s = Resting | _ => True end.

Definition step (s s' : PerfStats) : Prop :=
  exists e, typed e /\ undisturbed s e /\ handle s e = Some (Ret s').

Fixpoint run (s : PerfStats) (l : list event) : option (outcome PerfStats) :=
  match l with
  | [] => Some (Ret s)
  | e :: l =>
      match handle s e with
      | Some (Ret s') => run s' l
      | r => r
      end
  end.

(** ** Every loop is printed once *)

Definition sum_of (f : report -> Z) (l : list report) : Z := foldr (fun r n => f r + n) 0 l.
Arguments sum_of : simpl never.

Lemma sum_of_snoc f l r : sum_of f (l ++ [r]) = sum_of f l + f r.
Proof. unfold sum_of. induction l as [|x l IH]; cbn [app foldr]; lia. Qed.

(** What a printer has taken and not printed yet. *)
Definition taken (p : printer) : Z := match p with Subtracted l => l | _ => 0 end.

Definition printer_ok (s : PerfStats) (p : printer) : Prop :=
  match p with Loaded l => 0 <= l <= loops_ s | Subtracted l => 0 <= l | _ => True end.

(** Not both print. *)
Definition passive (p : printer) : Prop := p = Resting \/ p = Dead.

Record counts (s : PerfStats) : Prop := {
  counts_caller : cancelled s = false -> stopper s = Resting;
  counts_thread : cancelled s = true -> passive (thread_ s);
  counts_ok : printer_ok s (thread_ s) /\ printer_ok s (stopper s);
  counts_sum : loops_ s + taken (thread_ s) + taken (stopper s) + sum_of loops (output s) = added s;
  counts_pos : 0 <= loops_ s /\ 0 <= sum_of loops (output s)
}.

Lemma u64_small z : 0 <= z < 2 ^ 64 -> u64 z = z.
Proof. apply Z.mod_small. Qed.
Lemma u64_sub a b : 0 <= b <= a -> a < 2 ^ 64 -> u64 (a + u64 (- b)) = a - b.
Proof. intros H1 H2. unfold u64. rewrite Z.add_mod_idemp_r by lia. apply Z.mod_small. lia. Qed.

Lemma make_report_Ret n l r : make_report n l = Ret r -> l <> 0 /\ r = Report n l (u64 n / l).
Proof. unfold make_report. destruct (Z.eqb_spec l 0); [discriminate|]. intros [= <-]. auto. Qed.

(** A step of a printer while the other rests. *)
Lemma print_counts s w now s' : counts s -> added s < 2 ^ 64 -> print_step s w now = Some (Ret s') -> counts s'.
Proof.
  intros [B T [O1 O2] S [P1 P2]] Hb E. unfold print_step in E.
  assert (Ho : passive (printer_of s (match w with Background => Caller | Caller => Background end)) /\
               cancelled s = (match w with Background => false | Caller => true end)).
  { unfold passive in *. destruct w; cbn [printer_of] in *; destruct (cancelled s);
      try (rewrite B in E by reflexivity; discriminate);
      try (destruct T as [T|T]; [reflexivity|rewrite T in E; discriminate..]); auto. }
  destruct Ho as [Ho Hc].
  assert (Hz : taken (printer_of s (match w with Background => Caller | Caller => Background end)) = 0)
    by (destruct Ho as [-> | ->]; reflexivity).
  destruct w; cbn [printer_of] in *;
    [destruct (thread_ s) as [| |l|l|] eqn:Et|destruct (stopper s) as [| |l|l|] eqn:Et]; try discriminate;
    cbn [taken printer_ok] in *.
  all: try (destruct (make_report (now - start_ s) l) as [r| | |] eqn:R; try discriminate;
            apply make_report_Ret in R as [_ ->]).
  all: injection E as <-; constructor;
    cbn [set_printer set_loops loops_ thread_ stopper cancelled output added start_ taken printer_ok];
    rewrite ?Et, ?Hc, ?sum_of_snoc, ?u64_sub by lia; cbn [loops]; try done; try lia; auto.
  all: destruct Ho as [Ho|Ho]; rewrite Ho; cbn; auto with lia.
Qed.

Lemma handle_counts s e s' : counts s -> typed e -> undisturbed s e -> handle s e = Some (Ret s') ->
  added s' < 2 ^ 64 -> counts s'.
Proof.
  intros Hs Ht Hu E Hb. pose proof Hs as [B T [O1 O2] S [P1 P2]]. destruct e as [n|w now| | |]; cbn in E, Ht, Hu.
  - injection E as <-. cbn in Hb.
    assert (Hl : loops_ s <= added s) by (destruct (thread_ s), (stopper s); cbn in *; lia).
    constructor; cbn; rewrite ?u64_small by lia; auto with lia.
    destruct (thread_ s), (stopper s); cbn in *; rewrite ?u64_small by lia; lia.
  - eapply print_counts; [exact Hs| |exact E]. revert Hb. unfold print_step in E.
    destruct (printer_of s w); try discriminate; [..|destruct (make_report _ _); try discriminate];
      injection E as <-; destruct w; cbn; auto.
  - destruct (cancelled s) eqn:C; [discriminate|]. destruct (thread_ s); try discriminate. injection E as <-.
    constructor; cbn; auto with lia.
  - destruct (cancelled s) eqn:C; [discriminate|]. injection E as <-. rewrite (B eq_refl) in *.
    constructor; cbn; auto with lia. intros _. left. exact Hu.
  - destruct (cancelled s) eqn:C; [|discriminate]. destruct (T eq_refl) as [R|R]; rewrite R in *; [|discriminate].
    injection E as <-. constructor; cbn; auto with lia; rewrite ?C; try done. intros _. right. reflexivity.
Qed.

Lemma added_mono s e s' : typed e -> handle s e = Some (Ret s') -> added s <= added s'.
Proof.
  intros Ht E. destruct e as [n|w now| | |]; cbn in E, Ht; unfold print_step in E.
  2: { destruct (printer_of s w); try discriminate; [..|destruct (make_report _ _); try discriminate];
         injection E as <-; destruct w; cbn; lia. }
  all: repeat case_match; simplify_eq; cbn; lia.
Qed.

(** The periods that are printed follow each other. *)
Definition periods (t0 : Z) (s : PerfStats) : Prop := t0 + sum_of ns (output s) = start_ s.

Lemma handle_periods t0 s e s' : periods t0 s -> handle s e = Some (Ret s') -> periods t0 s'.
Proof.
  intros Hp E. unfold periods in *. destruct e as [n|w now| | |]; cbn in E; unfold print_step in E.
  2: { destruct (printer_of s w) as [| |l|l|]; try discriminate;
         [..|destruct (make_report _ _) as [r| | |] eqn:R; try discriminate; apply make_report_Ret in R as [_ ->]];
         injection E as <-; destruct w; cbn [set_printer set_loops output start_]; rewrite ?sum_of_snoc; cbn [ns]; lia. }
  all: repeat case_match; simplify_eq; exact Hp.
Qed.

(** As long as [Stop] does not cancel the thread while it prints and less
    than 2^64 loops are counted, no loop is lost or printed twice: those printed,
    those about to be printed and those in the counter are the ones added, and
    the periods printed fill the time from the beginning to [start_]. *)
Theorem perf_counts_kept t0 s :
  rtc step (make t0) s -> added s < 2 ^ 64 ->
  loops_ s + taken (thread_ s) + taken (stopper s) + sum_of loops (output s) = added s /\
  t0 + sum_of ns (output s) = start_ s.
Proof.
  intros Hr Hb. cut ((added s < 2 ^ 64 -> counts s) /\ periods t0 s); [intros [H1 H2]; split; [apply H1, Hb|exact H2]|].
  revert Hr. apply (rtc_preserves step (fun s => (added s < 2 ^ 64 -> counts s) /\ periods t0 s)).
  - intros a b [H1 H2] (e & Ht & Hu & E). split; [|eapply handle_periods; eassumption].
    intros Hlt. eapply handle_counts; try eassumption. apply H1. pose proof (added_mono _ _ _ Ht E). lia.
  - split; [|unfold periods, sum_of; cbn; lia]. intros _. constructor; unfold sum_of; cbn; auto with lia.
Qed.

Lemma perf_run_steps l : forall s s', Forall typed l -> ECancel ∉ l -> run s l = Some (Ret s') -> rtc step s s'.
Proof.
  induction l as [|e l IH]; intros s s' Ht Hn E; cbn [run] in E; [injection E as <-; constructor|].
  apply Forall_cons in Ht as [He Ht]. apply not_elem_of_cons in Hn as [Hc Hn].
  destruct (handle s e) as [[s1| | |]|] eqn:H; try discriminate.
  econstructor; [exists e; split; [exact He|split; [destruct e; done|exact H]]|apply IH; assumption].
Qed.

Lemma perf_counts_kept_witness : exists s,
  rtc step (make 0) s /\ output s = [Report 1000 4 250] /\ loops_ s = 2 /\
  loops_ s + taken (thread_ s) + taken (stopper s) + sum_of loops (output s) = added s /\
  0 + sum_of ns (output s) = start_ s.
Proof.
  pose (l := [EIncr 4; EWake; EPrint Background 0; EIncr 2; EPrint Background 0; EPrint Background 1000]).
  assert (Hr : rtc step (make 0) (Stats 2 1000 Resting Resting false [Report 1000 4 250] 6)).
  { apply (perf_run_steps l); [repeat constructor; cbn; lia| |vm_compute; reflexivity].
    unfold l. rewrite !not_elem_of_cons. repeat split; try discriminate. apply not_elem_of_nil. }
  eexists. split; [exact Hr|]. split; [reflexivity|]. split; [reflexivity|].
  apply (perf_counts_kept 0 _ Hr). cbn. lia.
Defined.

(** A second in which nothing was counted ends the program: the thread that
    finds the counter at zero when it wakes up divides by zero, unless [Stop] cancels
    it first. *)
Theorem idle_period_crashes s now :
  loops_ s = 0 -> cancelled s = false -> thread_ s = Resting ->
  run s [EWake; EPrint Background now; EPrint Background now; EPrint Background now] = Some (Undef DivByZero).
Proof.
  intros Hl Hc Ht. cbn. rewrite Hc, Ht. cbn. rewrite Hl. reflexivity.
Qed.

Lemma idle_period_crashes_witness :
  run (make 5) [EWake; EPrint Background 9; EPrint Background 9; EPrint Background 9] = Some (Undef DivByZero).
Proof. apply (idle_period_crashes (make 5) 9); reflexivity. Defined.

(** When [Stop] comes while the thread is between the load and the subtraction
    the same loops are subtracted and printed twice, and the counter wraps around. *)
Example stop_counts_twice :
  (s ← match run (make 0) [EIncr 4; EWake; EPrint Background 0; ECancel; EPrint Caller 0;
                           EPrint Background 0; EPrint Caller 0; EPrint Background 8; EPrint Caller 16] with
       | Some r => r | None => NoFuel end;
   Ret (output s, loops_ s, added s)) =
  Ret ([Report 8 4 2; Report 8 4 2], 2 ^ 64 - 4, 4).
Proof. vm_compute. reflexivity. Qed.

(** ** The stop watch adds up *)

Definition add_all (w : StopWatch) (l : list Z) : StopWatch := fold_left AddLoops l w.
Definition total (l : list Z) : Z := foldr Z.add 0 l.

Lemma add_all_loops l : forall w, watch_start (add_all w l) = watch_start w /\
  watch_loops (add_all w l) = match l with [] => watch_loops w | _ => u64 (watch_loops w + total l) end.
Proof.
  induction l as [|n l IH]; intros w; [auto|]. destruct (IH (AddLoops w n)) as [H1 H2].
  split; [exact H1|]. change (add_all w (n :: l)) with (add_all (AddLoops w n) l). rewrite H2.
  destruct l as [|n' l]; cbn [total foldr AddLoops watch_loops]; [f_equal; lia|].
  unfold u64. rewrite Z.add_mod_idemp_l by lia. f_equal. unfold total. cbn [foldr]. lia.
Qed.

(** A stop watch reports the time since its start and the sum of what was
    added, and their quotient; with no loops, or with a multiple of 2^64, it
    divides by zero. *)
Theorem stop_watch_correct t0 now l :
  0 <= now - t0 < 2 ^ 64 ->
  StopAndStats (add_all (Start t0) l) now =
  (if total l mod 2 ^ 64 =? 0 then Undef DivByZero
   else Ret (Report (now - t0) (total l mod 2 ^ 64) ((now - t0) / (total l mod 2 ^ 64)))).
Proof.
  intros Ht. unfold StopAndStats, make_report. destruct (add_all_loops l (Start t0)) as [-> ->].
  replace (match l with [] => _ | _ => _ end) with (total l mod 2 ^ 64) by (destruct l; reflexivity).
  cbn [Start watch_start]. rewrite u64_small by lia. reflexivity.
Qed.

Lemma stop_watch_correct_witness :
  StopAndStats (add_all (Start 100) [1; 1; 1]) 1000 = Ret (Report 900 3 300).
Proof. rewrite (stop_watch_correct 100 1000 [1; 1; 1]) by lia. reflexivity. Defined.
