(* ===== verification/Files.v ===== *)
(** * Files, commands and guards

    src/util/file.hpp over a map from paths to contents, src/util/cmd.hpp over
    the output of a command, and the scope guards of src/util/scope_guard.hpp
    and src/c++/20190329_scopeguard/ScopeGuard.h. *)

From Stdlib Require Import ZArith Lia.
From stdpp Require Import base numbers gmap strings list.
From S2P Require Import Prelude.

Open Scope Z_scope.

(** ** Files *)

Abbreviation path := string (only parsing).
Abbreviation bytes := (list Z) (only parsing).

(** The files, the number of bytes that the disk still takes, and the paths
    that the process may read and write. *)
Record filesystem := FS {
  files : gmap path bytes;
  room : nat;
  readable : path -> bool;
  writable : path -> bool
}.

Definition set_file (fs : filesystem) (p : path) (b : bytes) (r : nat) : filesystem :=
  FS (<[p := b]> (files fs)) r (readable fs) (writable fs).

(** [std::ofstream]: opening with [app] keeps what a file holds, opening without
    truncates it; both create the file. *)
Definition open_app (fs : filesystem) (p : path) : option filesystem :=
  if writable fs p then Some (set_file fs p (default [] (files fs !! p)) (room fs)) else None.
Definition open_trunc (fs : filesystem) (p : path) : option filesystem :=
  if writable fs p then Some (set_file fs p [] (room fs + length (default [] (files fs !! p)))) else None.
(** [std::ifstream] *)
Definition open_in (fs : filesystem) (p : path) : option bytes :=
  if readable fs p then files fs !! p else None.
(** [ofs.write] on the file just opened: what the disk takes is written, and
    the stream remembers a failure that nobody asks for. *)
Definition stream_write (fs : filesystem) (p : path) (b : bytes) : filesystem :=
  set_file fs p (default [] (files fs !! p) ++ take (room fs) b) (room fs - length b).

Definition createFileIfNotExists (fs : filesystem) (p : path) : Z * filesystem :=
  match open_app fs p with
  | None => (-1, fs)
  | Some fs => (0, fs)
  end.

Definition fileExists (fs : filesystem) (p : path) : Z :=
  match open_in fs p with None => 0 | Some _ => 1 end.

(** The vector is resized to the position of the end, and [read] fills it. *)
Definition readFile (fs : filesystem) (p : path) (data : bytes) : Z * bytes :=
  match open_in fs p with
  | None => (-1, data)
  | Some b =>
      let data := resize (length b) 0 data in
      (0, take (length data) b ++ drop (length b) data)
  end.

Definition writeFile (fs : filesystem) (p : path) (content : bytes) : Z * filesystem :=
  match open_trunc fs p with
  | None => (-1, fs)
  | Some fs => (0, stream_write fs p content)
  end.

(** [remove] needs a file; the directory is writable where the file is. *)
Definition deleteFile (fs : filesystem) (p : path) : Z * filesystem :=
  match files fs !! p with
  | Some b =>
      if writable fs p
      then (0, FS (delete p (files fs)) (room fs + length b) (readable fs) (writable fs))
      else (-1, fs)
  | None => (-1, fs)
  end.

(** ** Commands *)

(** [fgets(buf, size, ptr)]: up to [size - 1] bytes, up to and with the end of line. *)
Fixpoint fgets (size : nat) (s : bytes) : bytes * bytes :=
  match size, s with
  | S (S n as m), c :: s =>
      if c =? 10 then ([c], s) else let '(l, r) := fgets m s in (c :: l, r)
  | _, _ => ([], s)
  end.

(** [std::string(buf)] stops at the first NUL. *)
Fixpoint c_string (s : bytes) : bytes :=
  match s with
  | [] => []
  | c :: s => if c =? 0 then [] else c :: c_string s
  end.

Definition read_chunk (st : bytes * bytes) : outcome (control (bytes * bytes) bytes) :=
  let '(out, res) := st in
  match out with
  | [] => Ret (Break res)
  | _ => let '(buf, rest) := fgets 128 out in Ret (Continue (rest, res ++ c_string buf))
  end.

(** [popen] gives the output of the command, or nothing. *)
Definition executeCmd (fuel : nat) (popen : option bytes) (res : bytes) : outcome (Z * bytes) :=
  match popen with
  | None => Ret (-1, res)
  | Some out => res ← while_loop fuel read_chunk (out, res); Ret (0, res)
  end.

(** ** Guards *)

Section Guards.
Context {S : Type} (init : option bool) (ptr : S -> S).

(** [dismissed_], with nothing in it before it is set. *)
Definition dismiss (_ : option bool) : option bool := Some true.

Definition destroy (dismissed_ : option bool) (s : S) : outcome S :=
  match dismissed_ with
  | None => Undef Uninitialised
  | Some true => Ret s
  | Some false => Ret (ptr s)
  end.

(** A scope with a guard: the body changes the state, dismisses the guard or
    not, and ends normally or with an exception; the guard ends after it. *)
Definition scope (body : S -> S * bool * option exn) (s : S) : outcome (S * option exn) :=
  let '(s, dismissed, e) := body s in
  s ← destroy (if dismissed then dismiss init else init) s;
  Ret (s, e).
End Guards.

(** The constructors: the first leaves [dismissed_] as it is. *)
Definition util_guard : option bool := None.
Definition sample_guard : option bool := Some false.

(** ** Properties of the files *)

(** What [writeFile] has written [readFile] reads, into any vector, and no
    other file changes, provided the file may be written and read and the disk
    has room for the content once the old one is gone. *)
Theorem file_roundtrip fs p content data :
  writable fs p = true -> readable fs p = true ->
  (length content <= room fs + length (default [] (files fs !! p)))%nat ->
  (writeFile fs p content).1 = 0 /\
  readFile (writeFile fs p content).2 p data = (0, content) /\
  fileExists (writeFile fs p content).2 p = 1 /\
  (forall q, q <> p -> files (writeFile fs p content).2 !! q = files fs !! q).
Proof.
  intros Hw Hr Hl. assert (Ht : forall n, (length content <= n)%nat -> take n content = content) by (intros; apply take_ge; lia).
  unfold writeFile, open_trunc, readFile, fileExists, open_in. rewrite Hw.
  cbn [fst snd stream_write set_file files readable room]. rewrite Hr, !lookup_insert_eq, (Ht _ Hl).
  cbn [default from_option app]. split; [reflexivity|]. split; [|split; [reflexivity|]].
  - f_equal. rewrite length_resize, firstn_all, drop_ge by (rewrite length_resize; lia). apply app_nil_r.
  - intros q Hq. rewrite !lookup_insert_ne by congruence. reflexivity.
Qed.

Lemma file_roundtrip_witness :
  readFile (writeFile (FS ∅ 100 (fun _ => true) (fun _ => true)) "util.test" [49; 50; 51; 52]).2 "util.test" [7]
  = (0, [49; 50; 51; 52]).
Proof.
  refine (proj1 (proj2 (file_roundtrip (FS ∅ 100 (fun _ => true) (fun _ => true)) "util.test" [49; 50; 51; 52] [7] _ _ _)));
    [reflexivity..|vm_compute; lia].
Defined.

(** The operations fail exactly when the file cannot be opened or removed,
    with -1, and then leave the files and the vector as they were;
    [createFileIfNotExists] never changes what a file holds. *)
Theorem file_errors fs p content data :
  ((writeFile fs p content).1 = -1 <-> writable fs p = false) /\
  ((writeFile fs p content).1 = -1 -> (writeFile fs p content).2 = fs) /\
  ((readFile fs p data).1 = -1 <-> readable fs p = false \/ files fs !! p = None) /\
  ((readFile fs p data).1 = -1 -> (readFile fs p data).2 = data) /\
  ((deleteFile fs p).1 = -1 <-> writable fs p = false \/ files fs !! p = None) /\
  ((deleteFile fs p).1 = -1 -> (deleteFile fs p).2 = fs) /\
  ((deleteFile fs p).1 = 0 -> fileExists (deleteFile fs p).2 p = 0) /\
  ((createFileIfNotExists fs p).1 = 0 -> 
     files (createFileIfNotExists fs p).2 = <[p := default [] (files fs !! p)]> (files fs)).
Proof.
  unfold writeFile, open_trunc, readFile, open_in, deleteFile, createFileIfNotExists, open_app, fileExists, open_in.
  destruct (writable fs p), (readable fs p) eqn:R, (files fs !! p) as [b|] eqn:F; cbn;
    rewrite ?lookup_delete_eq, ?lookup_insert_eq, ?R; repeat split; try done; try (intros [|]; done); eauto; try tauto.
Qed.

(** A full disk goes unnoticed: [writeFile] returns 0 and the file is empty. *)
Example write_unchecked :
  let fs := FS ∅ 0 (fun _ => true) (fun _ => true) in
  (writeFile fs "f" [1; 2]).1 = 0 /\ readFile (writeFile fs "f" [1; 2]).2 "f" [] = (0, []).
Proof. vm_compute. auto. Qed.

(** ** Properties of the commands *)

Lemma fgets_app n : forall s l r, fgets n s = (l, r) -> l ++ r = s.
Proof.
  induction n as [|n IH]; intros s l r E; [injection E as <- <-; reflexivity|].
  destruct n as [|n]; [destruct s; injection E as <- <-; reflexivity|].
  destruct s as [|c s]; [injection E as <- <-; reflexivity|]. change (fgets (S (S n)) (c :: s)) with
    (if c =? 10 then ([c], s) else let '(l, r) := fgets (S n) s in (c :: l, r)) in E.
  destruct (c =? 10); [injection E as <- <-; reflexivity|].
  destruct (fgets (S n) s) as [l' r'] eqn:F. injection E as <- <-. cbn. f_equal. apply (IH s), F.
Qed.
Lemma fgets_nonempty n c s : exists d l, (fgets (S (S n)) (c :: s)).1 = d :: l.
Proof.
  change (fgets (S (S n)) (c :: s)) with (if c =? 10 then ([c], s) else let '(l, r) := fgets (S n) s in (c :: l, r)).
  destruct (c =? 10); [eauto|]. destruct (fgets (S n) s). eauto.
Qed.
Lemma c_string_id s : Forall (fun c => c <> 0) s -> c_string s = s.
Proof.
  induction 1 as [|c s Hc _ IH]; [reflexivity|]. cbn. destruct (Z.eqb_spec c 0); [done|]. by rewrite IH.
Qed.

(** [executeCmd] appends the whole output of the command to the result,
    however long its lines are, if there is no NUL in it; it ends after at most
    one round for each byte, and without a pipe it returns -1 and appends nothing. *)
Theorem executeCmd_output fuel out res :
  Forall (fun c => c <> 0) out -> (length out < fuel)%nat ->
  executeCmd fuel (Some out) res = Ret (0, res ++ out) /\ executeCmd fuel None res = Ret (-1, res).
Proof.
  intros Hz Hf. split; [|reflexivity]. unfold executeCmd.
  destruct (while_loop_total (fun st => Forall (fun c => c <> 0) st.1 /\ st.2 ++ st.1 = res ++ out)
    (fun st => length st.1) (fun r => r = res ++ out) read_chunk fuel (out, res)) as (r & -> & ->); [auto| |exact Hf|reflexivity].
  intros [s r] [Hs Hr]. cbn [fst snd] in *. unfold read_chunk. destruct s as [|c s].
  - apply returns_ret. rewrite app_nil_r in Hr. exact Hr.
  - destruct (fgets_nonempty 126 c s) as (d & l & Hd). destruct (fgets 128 (c :: s)) as [b t] eqn:F. cbn in Hd. subst b.
    apply fgets_app in F. rewrite <- F in Hs, Hr |- *. apply Forall_app in Hs as [H1 H2].
    apply returns_ret. cbn [fst snd]. rewrite c_string_id by exact H1. split; [split; [exact H2|]|].
    + rewrite <- Hr, app_assoc. reflexivity.
    + rewrite length_app. cbn. lia.
Qed.

Lemma executeCmd_output_witness :
  executeCmd 9 (Some [104; 105; 10; 52; 10]) [62] = Ret (0, [62; 104; 105; 10; 52; 10]).
Proof.
  refine (proj1 (executeCmd_output 9 [104; 105; 10; 52; 10] [62] _ _)); [repeat constructor; lia|cbn; lia].
Defined.

(** What follows a NUL up to the end of its line is lost. *)
Example command_nul : executeCmd 9 (Some [104; 0; 105; 10; 52]) [] = Ret (0, [104; 52]).
Proof. reflexivity. Qed.

(** ** Properties of the guards *)

(** The guard of the sample runs its function once when the scope ends,
    normally or with an exception, unless it was dismissed; the guard of the
    utilities reads an indeterminate value unless it was dismissed. *)
Theorem scope_guards {S : Type} (ptr : S -> S) body s s' d e :
  body s = (s', d, e) ->
  scope sample_guard ptr body s = Ret (if d : bool then s' else ptr s', e) /\
  scope util_guard ptr body s = if d then Ret (s', e) else Undef Uninitialised.
Proof. intros E. unfold scope. rewrite E. destruct d; auto. Qed.

Lemma scope_guards_witness :
  scope sample_guard (fun n => n + 1) (fun n => (n * 2, false, None)) 5 = Ret (11, None).
Proof.
  exact (proj1 (scope_guards (fun n => n + 1) (fun n => (n * 2, false, None)) 5 10 false None eq_refl)).
Defined.
