(* ===== verification/Component.v ===== *)
(** * Timers of a component

    src/c++/20230203-component-schedule/component.h and test_sched.cpp: a
    component keeps its timers in a vector and gives the event loop of libuv
    pointers into it.  An address is the allocation of the vector and an index.
    libuv is not modelled: the calls of its functions are recorded in their
    order, and the callback [OnTimeOut] is an operation that takes the address
    of a handle. *)

From Stdlib Require Import ZArith Lia.
From stdpp Require Import base numbers sets list strings.
From S2P Require Import Prelude.

Open Scope Z_scope.

(** ** The component *)

Abbreviation address := (nat * nat)%type (only parsing).

(** A line of the file of cases: the period in microseconds and the number of
    times; both are [uint32_t]. *)
Record TestCase := Case { duration_microsec : Z; times : Z }.

(** [data] is the member of the handle; the function of a timer is the closure
    of the test, the case and the calls so far, or empty. *)
Record ComponentTimer := Timer {
  timer_id : nat;
  data : option address;
  proc : option (TestCase * Z)
}.

(** The calls into libuv, with timeout and repeat in milliseconds. *)
Inductive uv_call :=
  | uv_timer_init (timer : address)
  | uv_timer_start (timer : address) (timeout repeat : Z)
  | uv_timer_stop (timer : address).

#[export] Instance uv_call_eq_dec : EqDecision uv_call.
Proof. solve_decision. Defined.

Record Component := Comp {
  block : nat;
  capacity : nat;
  timers_ : list ComponentTimer;
  calls : list uv_call
}.

Definition call (c : Component) (u : uv_call) : Component :=
  Comp (block c) (capacity c) (timers_ c) (calls c ++ [u]).
Definition set_timer (c : Component) (i : nat) (t : ComponentTimer) : Component :=
  Comp (block c) (capacity c) (<[i := t]> (timers_ c)) (calls c).

(** The element at an address; the vector has given back its old allocations. *)
Definition deref (c : Component) (a : address) : outcome ComponentTimer :=
  if (a.1 =? block c)%nat
  then match timers_ c !! a.2 with Some t => Ret t | None => Undef BadPointer end
  else Undef BadPointer.

Section Growth.
(** The capacity after a vector of that capacity has grown. *)
Context (grow : nat -> nat).

(** [timers_.push_back]: a full vector moves to a new allocation. *)
Definition push_back (c : Component) (t : ComponentTimer) : Component :=
  if (length (timers_ c) <? capacity c)%nat
  then Comp (block c) (capacity c) (timers_ c ++ [t]) (calls c)
  else Comp (S (block c)) (grow (capacity c)) (timers_ c ++ [t]) (calls c).

(** [one_shot] is not used. *)
Definition AddTimer (c : Component) (period_us : Z) (one_shot : bool) (f : TestCase * Z) : Component * nat :=
  let c := push_back c (Timer 0 None None) in
  let id := (length (timers_ c) - 1)%nat in
  let timer := (block c, id) in
  let c := call c (uv_timer_init timer) in
  let c := set_timer c id (Timer id (Some timer) (Some f)) in
  let c := call c (uv_timer_start timer (period_us / 1000) (period_us / 1000)) in
  (c, id).

Definition ExecuteCase (c : Component) (tc : TestCase) : Component :=
  (AddTimer c (duration_microsec tc) false (tc, 0)).1.

Definition SerializeExcuteCases (c : Component) (cases : list TestCase) : Component :=
  foldl ExecuteCase c cases.
End Growth.

Definition DelTimer (c : Component) (id : nat) : outcome Component :=
  if (id <? length (timers_ c))%nat then Ret (call c (uv_timer_stop (block c, id))) else Undef OutOfBounds.

(** The closure of the test in the timer at [d]: it counts in [uint32_t] and in
    the end deletes the timer.  The measured times are left out. *)
Definition run_proc (c : Component) (d : address) (t : ComponentTimer) (f : TestCase * Z) : outcome Component :=
  let count := (f.2 + 1) mod 2 ^ 32 in
  let c := set_timer c d.2 (Timer (timer_id t) (data t) (Some (f.1, count))) in
  if count =? times f.1 then DelTimer c (timer_id t) else Ret c.

(** [OnTimeOut] calls the function of the timer that the handle's data points
    to. *)
Definition OnTimeOut (c : Component) (timer : address) : outcome Component :=
  h ← deref c timer;
  match data h with
  | None => Undef NullDeref
  | Some d =>
      t ← deref c d;
      match proc t with
      | None => Throw (Message "bad_function_call"%string)
      | Some f => run_proc c d t f
      end
  end.

Fixpoint timeouts (c : Component) (l : list address) : outcome Component :=
  match l with
  | [] => Ret c
  | a :: l => c ← OnTimeOut c a; timeouts c l
  end.

(** A component whose vector has room for [n] timers. *)
Definition reserved (n : nat) : Component := Comp 0 n [] [].

(** ** The addresses that libuv has *)

Definition address_of (u : uv_call) : address :=
  match u with uv_timer_init a | uv_timer_start a _ _ | uv_timer_stop a => a end.
Definition handles (c : Component) : list address := address_of <$> calls c.

(** The address is that of an element. *)
Definition valid (c : Component) (a : address) : Prop := exists t, deref c a = Ret t.

(** The room in the allocation that holds the first timer. *)
Definition first_capacity (grow : nat -> nat) (k : nat) : nat := if (k =? 0)%nat then grow O else k.

Section Handles.
Context (grow : nat -> nat) (Hgrow : forall n, (n < grow n)%nat).

(** What a case adds, the vector full or not. *)
Lemma ExecuteCase_eq c tc :
  let full := negb (length (timers_ c) <? capacity c)%nat in
  let b := if full then S (block c) else block c in
  let id := length (timers_ c) in
  ExecuteCase grow c tc =
    Comp b (if full then grow (capacity c) else capacity c)
      (timers_ c ++ [Timer id (Some (b, id)) (Some (tc, 0))])
      (calls c ++ [uv_timer_init (b, id); uv_timer_start (b, id) (duration_microsec tc / 1000) (duration_microsec tc / 1000)]).
Proof.
  cbv zeta. unfold ExecuteCase, AddTimer, push_back, call, set_timer.
  destruct (length (timers_ c) <? capacity c)%nat; cbn; rewrite length_app, Nat.add_sub, <- app_assoc;
    f_equal; by rewrite insert_app_r_alt, Nat.sub_diag by lia.
Qed.

Lemma ExecuteCase_length c tc : length (timers_ (ExecuteCase grow c tc)) = S (length (timers_ c)).
Proof. rewrite ExecuteCase_eq. cbn. rewrite length_app. cbn. lia. Qed.

(** A vector that has not moved since its first timer holds the cases, and
    libuv has addresses of its elements. *)
Record settled (c : Component) (cases : list TestCase) : Prop := {
  settled_timers : timers_ c = imap (fun i tc => Timer i (Some (block c, i)) (Some (tc, 0))) cases;
  settled_handles : Forall (fun a => a.1 = block c /\ (a.2 < length cases)%nat) (handles c);
  settled_running : forall a, uv_timer_stop a ∉ calls c
}.

Lemma settled_length c cases : settled c cases -> length (timers_ c) = length cases.
Proof. intros H. by rewrite (settled_timers _ _ H), length_imap. Qed.

Lemma not_stop a b t r (timer : address) : uv_timer_stop timer ∉ [uv_timer_init a; uv_timer_start b t r].
Proof. by intros [?|[?|?%not_elem_of_nil]%elem_of_cons]%elem_of_cons. Qed.

Lemma settled_step c done tc : settled c done -> (length done < capacity c)%nat ->
  settled (ExecuteCase grow c tc) (done ++ [tc]) /\ capacity (ExecuteCase grow c tc) = capacity c.
Proof.
  intros Hs Hl. pose proof (settled_length _ _ Hs) as El. destruct Hs as [Ht Hh Hr].
  rewrite ExecuteCase_eq, El, (proj2 (Nat.ltb_lt _ _) Hl). cbn [negb]. split; [|done]. constructor; cbn [block timers_ calls].
  - rewrite imap_app, Ht. cbn. by rewrite Nat.add_0_r.
  - unfold handles in *. cbn [calls]. rewrite fmap_app, length_app. cbn. apply Forall_app. split; [|repeat constructor; cbn; lia].
    eapply Forall_impl; [exact Hh|]. intros a [? ?]. split; [done|lia].
  - intros a [H|H]%elem_of_app; [by apply (Hr a)|]. by apply not_stop in H.
Qed.

Lemma settled_steps cases : forall c done, settled c done -> (length done + length cases <= capacity c)%nat ->
  settled (SerializeExcuteCases grow c cases) (done ++ cases).
Proof.
  induction cases as [|tc cases IH]; intros c done Hs Hl; [by rewrite app_nil_r|]. cbn [length] in Hl.
  destruct (settled_step c done tc Hs ltac:(lia)) as [Hs' Ec].
  replace (done ++ tc :: cases) with ((done ++ [tc]) ++ cases) by by rewrite <- app_assoc.
  apply (IH _ _ Hs'). rewrite Ec, length_app. cbn. lia.
Qed.

Lemma first_case k tc : settled (ExecuteCase grow (reserved k) tc) [tc] /\
  capacity (ExecuteCase grow (reserved k) tc) = first_capacity grow k.
Proof.
  unfold first_capacity. rewrite ExecuteCase_eq. destruct k as [|k]; cbn; (split; [|done]); constructor; try done;
    try (repeat constructor); intros a; apply not_stop.
Qed.

(** A case more than the room moves the vector; the addresses stay as they are. *)
Lemma grown cases : forall c, (length (timers_ c) <= capacity c)%nat ->
  let c' := SerializeExcuteCases grow c cases in
  (block c <= block c')%nat /\ (capacity c < length (timers_ c) + length cases -> block c < block c')%nat /\
  handles c ⊆ handles c'.
Proof.
  induction cases as [|tc cases IH]; intros c Hl; [cbn; split_and!; [lia|lia|done]|].
  pose proof (ExecuteCase_eq c tc) as E. cbv zeta in E. pose proof (ExecuteCase_length c tc) as El.
  destruct (IH (ExecuteCase grow c tc)) as (H1 & H2 & H3).
  - rewrite El, E. cbn [capacity]. pose proof (Hgrow (capacity c)). destruct (Nat.ltb_spec (length (timers_ c)) (capacity c)); cbn; lia.
  - rewrite El in H2. cbn [SerializeExcuteCases foldl length].
    assert (handles c ⊆ handles (ExecuteCase grow c tc)) as Hsub.
    { rewrite E. unfold handles. cbn [calls]. rewrite fmap_app. intros x Hx. apply elem_of_app. by left. }
    assert (H4 : (block c <= block (ExecuteCase grow c tc))%nat /\
      (block c = block (ExecuteCase grow c tc) -> capacity (ExecuteCase grow c tc) = capacity c)%nat).
    { rewrite E. cbn [block capacity]. destruct (length (timers_ c) <? capacity c)%nat; cbn; lia. }
    split_and!; [etrans; [apply H4|exact H1]| |etrans; [exact Hsub|exact H3]].
    intros H. destruct (decide (block c = block (ExecuteCase grow c tc))) as [Eb|]; [|unfold SerializeExcuteCases in *; lia].
    destruct H4 as [_ Ec]. rewrite Ec in H2 by done. rewrite Eb at 1. apply H2. lia.
Qed.
End Handles.

(** C38: when the cases have been started, all the addresses that libuv was
    given are those of timers, as it demands of its handles, exactly if the
    allocation of the first timer has room for all of them.  Otherwise the
    vector has moved, and the loop has an address in memory that was given
    back.  The vector of the code starts without room: the capacity that it
    grows to for its first element decides. *)
Theorem handles_stay_valid grow k tc cases :
  (forall n, (n < grow n)%nat) ->
  let c := SerializeExcuteCases grow (reserved k) (tc :: cases) in
  Forall (valid c) (handles c) <-> (length (tc :: cases) <= first_capacity grow k)%nat.
Proof.
  intros Hgrow c. destruct (first_case grow k tc) as [Hs Hc]. split.
  - intros Hv. destruct (le_lt_dec (length (tc :: cases)) (first_capacity grow k)) as [|Hlt]; [done|exfalso].
    pose proof (settled_length _ _ Hs) as El.
    destruct (grown grow Hgrow cases (ExecuteCase grow (reserved k) tc)) as (_ & Hb & Hh).
    { rewrite El, Hc. unfold first_capacity. pose proof (Hgrow O). cbn. destruct k; cbn; lia. }
    rewrite El, Hc in Hb. specialize (Hb ltac:(cbn in *; lia)).
    assert ((block (ExecuteCase grow (reserved k) tc), O) ∈ handles c) as Hin.
    { apply Hh. rewrite ExecuteCase_eq. unfold handles. cbn. left. }
    rewrite Forall_forall in Hv. destruct (Hv _ Hin) as [t Ht]. unfold deref in Ht. cbn [fst] in Ht.
    rewrite (proj2 (Nat.eqb_neq _ _)) in Ht; [done|]. change (block (ExecuteCase grow (reserved k) tc) < block c)%nat in Hb. lia.
  - intros Hl. pose proof (settled_steps grow cases _ _ Hs) as Hs'. rewrite Hc in Hs'. specialize (Hs' Hl).
    change (settled c (tc :: cases)) in Hs'. pose proof (settled_length _ _ Hs') as El.
    eapply Forall_impl; [apply (settled_handles _ _ Hs')|]. intros a [Ea Hi]. unfold valid, deref.
    rewrite Ea, Nat.eqb_refl. rewrite <- El in Hi. destruct (lookup_lt_is_Some_2 _ _ Hi) as [t ->]. eauto.
Qed.

Lemma handles_stay_valid_witness :
  let grow n := (2 * n + 1)%nat in
  let c := SerializeExcuteCases grow (reserved 0) [Case 1000 100; Case 1000 1000] in
  ~ Forall (valid c) (handles c).
Proof.
  intros grow c Hv. apply (handles_stay_valid grow 0 (Case 1000 100) [Case 1000 1000]) in Hv; [cbn in Hv; lia|].
  intros n. unfold grow. lia.
Defined.

(** ** The callbacks *)

(** How often the handle [a] has run out, and how often it was stopped. *)
Definition runs (a : address) (l : list address) : Z := Z.of_nat (length (filter (a =.) l)).
Definition stops (a : address) (c : Component) : Z := Z.of_nat (length (filter (uv_timer_stop a =.) (calls c))).

Definition case_ok (tc : TestCase) : Prop := 1 <= times tc < 2 ^ 32.

Lemma runs_snoc a l b : runs a (l ++ [b]) = runs a l + (if decide (a = b) then 1 else 0).
Proof. unfold runs. rewrite filter_app, length_app, filter_cons. case_decide; cbn; lia. Qed.
Lemma stops_call a c b : stops a (call c (uv_timer_stop b)) = stops a c + (if decide (a = b) then 1 else 0).
Proof.
  unfold stops. cbn [calls call]. rewrite filter_app, length_app, filter_cons.
  destruct (decide (a = b)) as [->|]; [rewrite decide_True by done|rewrite decide_False by congruence]; cbn; lia.
Qed.
Lemma stops_none a c : uv_timer_stop a ∉ calls c -> stops a c = 0.
Proof.
  unfold stops. induction (calls c) as [|u l IH]; intros H; [done|]. apply not_elem_of_cons in H as [H1 H2].
  rewrite filter_cons_False by done. by apply IH.
Qed.
Lemma runs_bound a l : 0 <= runs a l <= Z.of_nat (length l).
Proof. unfold runs. pose proof (length_filter (a =.) l). lia. Qed.

(** The component after the callbacks of [l]. *)
Record called (b : nat) (cases : list TestCase) (l : list address) (c : Component) : Prop := {
  called_block : block c = b;
  called_length : length (timers_ c) = length cases;
  called_timer : forall i tc, cases !! i = Some tc ->
    timers_ c !! i = Some (Timer i (Some (b, i)) (Some (tc, runs (b, i) l)));
  called_stops : forall i tc, cases !! i = Some tc ->
    stops (b, i) c = if times tc <=? runs (b, i) l then 1 else 0
}.

Lemma called_step b cases l c i : Forall case_ok cases -> called b cases l c -> (i < length cases)%nat ->
  Z.of_nat (length l) + 1 < 2 ^ 32 -> returns (OnTimeOut c (b, i)) (called b cases (l ++ [(b, i)])).
Proof.
  intros Hok [Hb Hl Ht Hs] Hi Hlen. destruct (lookup_lt_is_Some_2 _ _ Hi) as [tc Htc].
  assert (deref c (b, i) = Ret (Timer i (Some (b, i)) (Some (tc, runs (b, i) l)))) as Ed.
  { unfold deref. cbn. by rewrite Hb, Nat.eqb_refl, (Ht i tc Htc). }
  unfold OnTimeOut. rewrite Ed. bind_ret. cbn [data]. rewrite Ed. bind_ret. cbn [proc]. unfold run_proc. cbn [timer_id data fst snd].
  pose proof (runs_bound (b, i) l). rewrite Z.mod_small by lia.
  set (c1 := set_timer c _ _).
  assert (Hc1 : block c1 = b /\ length (timers_ c1) = length cases /\
    forall j tc', cases !! j = Some tc' ->
      timers_ c1 !! j = Some (Timer j (Some (b, j)) (Some (tc', runs (b, j) (l ++ [(b, i)]))))).
  { split; [done|]. cbn. rewrite length_insert. split; [done|]. intros j tc' Hj. rewrite runs_snoc.
    destruct (decide (j = i)) as [->|Hne].
    - rewrite list_lookup_insert_eq, decide_True by (done || lia). rewrite Hj in Htc. by injection Htc as ->.
    - rewrite list_lookup_insert_ne, decide_False, Z.add_0_r by congruence. by apply Ht. }
  destruct Hc1 as (H1 & H2 & H3).
  assert (Hst : forall j tc', cases !! j = Some tc' -> j <> i ->
    stops (b, j) c1 = if times tc' <=? runs (b, j) (l ++ [(b, i)]) then 1 else 0).
  { intros j tc' Hj Hne. rewrite runs_snoc, decide_False, Z.add_0_r by congruence. by apply Hs. }
  assert (Hsi : stops (b, i) c1 = if times tc <=? runs (b, i) l then 1 else 0) by by apply Hs.
  pose proof (Forall_lookup_1 _ _ _ _ Hok Htc) as Htm. unfold case_ok in Htm.
  destruct (Z.eqb_spec (runs (b, i) l + 1) (times tc)) as [Eq|Ne].
  - unfold DelTimer. rewrite H1, (proj2 (Nat.ltb_lt _ _)) by lia. apply returns_ret. constructor; try done.
    intros j tc' Hj. rewrite stops_call. destruct (decide (j = i)) as [->|Hne].
    + rewrite decide_True, Hsi, runs_snoc, decide_True by done. rewrite Hj in Htc. injection Htc as ->.
      rewrite (proj2 (Z.leb_gt _ _)), (proj2 (Z.leb_le _ _)) by lia. done.
    + rewrite decide_False, Z.add_0_r by congruence. by apply Hst.
  - apply returns_ret. constructor; try done. intros j tc' Hj. destruct (decide (j = i)) as [->|Hne]; [|by apply Hst].
    rewrite Hsi, runs_snoc, decide_True by done. rewrite Hj in Htc. injection Htc as ->.
    destruct (Z.leb_spec (times tc) (runs (b, i) l)), (Z.leb_spec (times tc) (runs (b, i) l + 1)); lia.
Qed.

Lemma called_steps b cases l : Forall case_ok cases -> Forall (fun a => a.1 = b /\ (a.2 < length cases)%nat) l ->
  forall l0 c, called b cases l0 c -> Z.of_nat (length (l0 ++ l)) < 2 ^ 32 ->
  returns (timeouts c l) (called b cases (l0 ++ l)).
Proof.
  intros Hok. induction 1 as [|[b' i] l [Hb Hi] _ IH]; intros l0 c Hc Hlen; [rewrite app_nil_r; by apply returns_ret|].
  cbn in Hb, Hi. subst b'. rewrite length_app in Hlen. cbn in Hlen. cbn [timeouts].
  eapply returns_bind; [apply (called_step b cases l0); [done..|lia]|]. intros c' Hc'.
  replace (l0 ++ (b, i) :: l) with ((l0 ++ [(b, i)]) ++ l) by by rewrite <- app_assoc.
  apply IH; [done|]. rewrite !length_app. cbn. lia.
Qed.

(** If the allocation of the first timer has room for all the cases, the
    callbacks of the handles that libuv was given, in any order and number
    below the width of the counter, touch no memory that they should not, and
    the timer of a case is stopped once, by its last call. *)
Theorem timers_stopped_once grow k tc cases l :
  (length (tc :: cases) <= first_capacity grow k)%nat -> Forall case_ok (tc :: cases) ->
  let c := SerializeExcuteCases grow (reserved k) (tc :: cases) in
  Forall (.∈ handles c) l -> Z.of_nat (length l) < 2 ^ 32 ->
  exists c', timeouts c l = Ret c' /\
    forall i tc', (tc :: cases) !! i = Some tc' ->
      stops (block c, i) c' = if times tc' <=? runs (block c, i) l then 1 else 0.
Proof.
  intros Hl Hok c Hh Hlen. destruct (first_case grow k tc) as [Hs Hc].
  pose proof (settled_steps grow cases _ _ Hs) as Hs'. rewrite Hc in Hs'. specialize (Hs' Hl).
  change (settled c (tc :: cases)) in Hs'. pose proof (settled_length _ _ Hs') as El.
  destruct (called_steps (block c) (tc :: cases) l Hok) with (l0 := @nil address) (c := c) as (c' & E & Hc'); [..|done|].
  - pose proof (settled_handles _ _ Hs') as Ha. rewrite Forall_forall in Ha.
    eapply Forall_impl; [exact Hh|]. intros a Hin. by apply Ha.
  - constructor; [done..| |].
    + intros i tc' Hi. rewrite (settled_timers _ _ Hs'), list_lookup_imap, Hi. done.
    + intros i tc' Hi. pose proof (Forall_lookup_1 _ _ _ _ Hok Hi) as Htm. unfold case_ok in Htm. cbn.
      rewrite (proj2 (Z.leb_gt _ _)) by (unfold runs; cbn; lia). apply stops_none, (settled_running _ _ Hs').
  - exists c'. split; [done|]. apply (called_stops _ _ _ _ Hc').
Qed.

Lemma timers_stopped_once_witness :
  let c := SerializeExcuteCases S (reserved 2) [Case 1000 2; Case 5000 1] in
  exists c', timeouts c [(0, 0); (0, 1); (0, 0)]%nat = Ret c' /\
    forall i tc', [Case 1000 2; Case 5000 1] !! i = Some tc' ->
      stops (block c, i) c' = if times tc' <=? runs (block c, i) [(0, 0); (0, 1); (0, 0)]%nat then 1 else 0.
Proof.
  apply (timers_stopped_once S 2 (Case 1000 2) [Case 5000 1]); [cbn; lia|repeat constructor; cbn; lia| |done].
  repeat constructor; apply (bool_decide_unpack _); vm_compute; exact I.
Defined.

(** A period below a millisecond is no period: the handle gets no repeat. *)
Example short_period :
  calls (SerializeExcuteCases S (reserved 1) [Case 500 3]) = [uv_timer_init (0, 0)%nat; uv_timer_start (0, 0)%nat 0 0].
Proof. done. Qed.
