(* ===== verification/Litmus.v ===== *)
(** * Memory orders

    src/c/20170710_memory_order: memory_order_relaxed.cpp,
    memory_order_release_acquire.cpp and test.cpp pass a message through a flag
    and assert that it arrived; memory_order_seq_cst.cpp writes two flags and
    reads them in both orders.

    A location has the history of its stores, and a thread has a view: for each
    location the oldest store that it may still read.  A release store carries
    the view of its thread and an acquire load takes that view over; a relaxed
    store or load does not.  A sequentially consistent load reads the newest
    store.  The increments of [z] read the newest value, as every atomic
    read-modify-write operation does, and so does the load after the joins. *)

From Stdlib Require Import ZArith Lia.
From stdpp Require Import base numbers functions relations list.
From S2P Require Import Prelude.

Open Scope nat_scope.

(** ** Histories and views *)

Inductive loc := X | Y.

#[export] Instance loc_eq_dec : EqDecision loc.
Proof. solve_decision. Defined.

Abbreviation view := (loc -> nat) (only parsing).
Definition no_view : view := fun _ => 0.
Definition join (u v : view) : view := fun l => Nat.max (u l) (v l).

Record message := Msg { value : bool; carried : view }.

Abbreviation history := (loc -> list message) (only parsing).
Definition initially : history := fun _ => [Msg false no_view].

(** A store: the new history and the new view of the thread. *)
Definition store (release : bool) (h : history) (v : view) (l : loc) (b : bool) : history * view :=
  let v' := <[l := length (h l)]> v in
  (<[l := h l ++ [Msg b (if release then v' else <[l := length (h l)]> no_view)]]> h, v').

(** A load of store number [t]. *)
Definition load (acquire : bool) (h : history) (v : view) (l : loc) (t : nat) : option (bool * view) :=
  if decide (v l <= t) then
    m ← h l !! t;
    Some (value m, if acquire then join (<[l := t]> v) (carried m) else <[l := t]> v)
  else None.

(** A sequentially consistent load. *)
Definition newest (h : history) (l : loc) : bool := match last (h l) with Some m => value m | None => false end.

(** ** Passing a message *)

Module MessagePassing.

Inductive writer := StoreX | StoreY | WriterDone.
Inductive reader := SpinY | LoadX | IncrZ | ReaderDone.

Record state := State {
  memory : history;
  writer_at : writer;
  writer_view : view;
  reader_at : reader;
  reader_view : view;
  z : nat
}.

Section Orders.
(** The order of the store to [y] and of the loads of [y]; [x] is relaxed. *)
Context (release acquire : bool).

Definition write_x_then_y (s : state) : option state :=
  match writer_at s with
  | StoreX => let '(h, v) := store false (memory s) (writer_view s) X true in
              Some (State h StoreY v (reader_at s) (reader_view s) (z s))
  | StoreY => let '(h, v) := store release (memory s) (writer_view s) Y true in
              Some (State h WriterDone v (reader_at s) (reader_view s) (z s))
  | WriterDone => None
  end.

(** [t] is the store that the load reads. *)
Definition read_y_then_x (s : state) (t : nat) : option state :=
  match reader_at s with
  | SpinY =>
      match load acquire (memory s) (reader_view s) Y t with
      | Some (b, v) => Some (State (memory s) (writer_at s) (writer_view s) (if b then LoadX else SpinY) v (z s))
      | None => None
      end
  | LoadX =>
      match load false (memory s) (reader_view s) X t with
      | Some (b, v) => Some (State (memory s) (writer_at s) (writer_view s) (if b then IncrZ else ReaderDone) v (z s))
      | None => None
      end
  | IncrZ => Some (State (memory s) (writer_at s) (writer_view s) ReaderDone (reader_view s) (S (z s)))
  | ReaderDone => None
  end.

Inductive action := Writes | Reads (t : nat).
Definition act (s : state) (a : action) : option state :=
  match a with Writes => write_x_then_y s | Reads t => read_y_then_x s t end.
Definition step (s s' : state) : Prop := exists a, act s a = Some s'.

(** [main] has started both threads. *)
Definition start : state := State initially StoreX no_view SpinY no_view 0.

(** Both threads have ended: [main] asserts that [z] is 1. *)
Definition joined (s : state) : bool :=
  match writer_at s, reader_at s with WriterDone, ReaderDone => true | _, _ => false end.

Fixpoint run (s : state) (l : list action) : option state :=
  match l with [] => Some s | a :: l => s' ← act s a; run s' l end.
End Orders.

(** What the threads have done shows in the memory. *)
Record inv (s : state) : Prop := {
  inv_x : memory s X = match writer_at s with
                       | StoreX => [Msg false no_view]
                       | _ => [Msg false no_view; Msg true (<[X := 1]> no_view)]
                       end;
  inv_y : exists v, v X = 1 /\ memory s Y = match writer_at s with
                       | WriterDone => [Msg false no_view; Msg true v]
                       | _ => [Msg false no_view]
                       end;
  inv_writer : writer_at s <> StoreX -> writer_view s X = 1;
  inv_reader : reader_at s <> SpinY -> 1 <= reader_view s X;
  inv_z : z s = match reader_at s with ReaderDone => 1 | _ => 0 end
}.

Lemma passing_run_rtc rel acq l : forall s s', run rel acq s l = Some s' -> rtc (step rel acq) s s'.
Proof.
  induction l as [|a l IH]; intros s s' E; cbn [run] in E; [injection E as <-; constructor|].
  destruct (act rel acq s a) as [s1|] eqn:Ea; [|discriminate]. econstructor; [exists a; exact Ea|apply IH, E].
Qed.

Lemma writer_inv s s' : inv s -> write_x_then_y true s = Some s' -> inv s'.
Proof.
  intros [HX (v & Hv & HY) Hw Hr Hz] E. unfold write_x_then_y in E.
  destruct (writer_at s) eqn:W; try discriminate; unfold store in E; injection E as <-;
    constructor; cbn [memory writer_at writer_view reader_at reader_view z]; auto.
  - rewrite fn_lookup_insert, HX. cbn. reflexivity.
  - exists v. rewrite fn_lookup_insert_ne by done. auto.
  - intros _. rewrite fn_lookup_insert, HX. reflexivity.
  - exists (<[Y := length (memory s Y)]> (writer_view s)). rewrite fn_lookup_insert_ne by done.
    split; [apply Hw; discriminate|]. rewrite fn_lookup_insert, HY. reflexivity.
Qed.

Lemma load_Some acq h v l t r : load acq h v l t = Some r ->
  v l <= t /\ exists m, h l !! t = Some m /\ r.1 = value m /\
    r.2 = (if acq then join (<[l := t]> v) (carried m) else <[l := t]> v).
Proof.
  unfold load. case_decide as Hle; [|discriminate]. destruct (h l !! t) as [m|]; [|discriminate].
  cbn. intros [= <-]. eauto.
Qed.

Lemma reader_inv s t s' : inv s -> read_y_then_x true s t = Some s' -> inv s'.
Proof.
  intros [HX (v & Hv & HY) Hw Hr Hz] E. unfold read_y_then_x in E.
  destruct (reader_at s) eqn:R; try discriminate.
  - destruct (load _ _ _ _ _) as [[r1 r2]|] eqn:L; [|discriminate]. injection E as <-.
    apply load_Some in L as (Hle & m & Hm & H1 & H2). cbn in H1, H2. constructor; cbn; eauto.
    + rewrite H1, H2. unfold join. intros Hne. assert (Hc : value m = true) by (destruct (value m); done).
      assert (m = Msg true v) as ->.
      { rewrite HY in Hm. destruct (writer_at s); destruct t as [|[|t]]; cbn in Hm; simplify_eq; done. }
      cbn. rewrite Hv. lia.
    + rewrite Hz. destruct r1; reflexivity.
  - destruct (load _ _ _ _ _) as [[r1 r2]|] eqn:L; [|discriminate]. injection E as <-.
    apply load_Some in L as (Hle & m & Hm & H1 & H2). cbn in H1, H2. specialize (Hr ltac:(discriminate)).
    assert (value m = true).
    { rewrite HX in Hm. destruct (writer_at s); destruct t as [|[|t]]; cbn in Hm; simplify_eq; try lia; reflexivity. }
    rewrite H1, H, H2 in *. constructor; cbn; eauto. intros _. rewrite fn_lookup_insert. lia.
  - injection E as <-. constructor; cbn; eauto.
Qed.

Lemma start_ok : inv start.
Proof. constructor; cbn; try done. exists (<[X := 1]> no_view). auto. Qed.

(** C36: the assertion holds in every execution exactly when the flag is stored
    with release and loaded with acquire: memory_order_release_acquire.cpp is
    right; with relaxed orders, also behind the fence of test.cpp, the flag can
    arrive before the message. *)
Theorem message_passing release acquire :
  (forall s, rtc (step release acquire) start s -> joined s = true -> z s = 1) <-> release = true /\ acquire = true.
Proof.
  split.
  - intros H.
    assert (Hno : forall l s, run release acquire start l = Some s -> joined s = true -> z s = 1)
      by (intros l s E; apply H, (passing_run_rtc _ _ l), E).
    specialize (Hno [Writes; Writes; Reads 1; Reads 0]).
    destruct release, acquire; auto; specialize (Hno _ eq_refl eq_refl); discriminate.
  - intros [-> ->] s Hr Hj.
    assert (Hi : inv s).
    { revert Hr. apply rtc_preserves; [|apply start_ok]. intros a b Ha [[|t] E]; cbn in E;
        [eapply writer_inv|eapply reader_inv]; eassumption. }
    destruct Hi as [_ _ _ _ ->]. unfold joined in Hj. destruct (writer_at s), (reader_at s); done.
Qed.

End MessagePassing.

(** ** Reading in both orders *)

Module BothOrders.

Inductive reader := Spin | Second | Incr | Done (incremented : bool).
Inductive who := ReadXThenY | ReadYThenX.

#[export] Instance who_eq_dec : EqDecision who.
Proof. solve_decision. Defined.

Definition first (w : who) : loc := match w with ReadXThenY => X | ReadYThenX => Y end.
Definition second (w : who) : loc := match w with ReadXThenY => Y | ReadYThenX => X end.

Record state := State {
  memory : history;
  written : loc -> bool;
  reader_at : who -> reader;
  reader_view : who -> view;
  z : nat
}.

Section Order.
(** All the operations on [x] and [y] are sequentially consistent, or stores
    are release and loads acquire. *)
Context (seq_cst : bool).

Definition read (s : state) (w : who) (l : loc) (t : nat) : option (bool * view) :=
  if seq_cst then Some (newest (memory s) l, reader_view s w) else load true (memory s) (reader_view s w) l t.

(** [write_x] and [write_y] *)
Definition write (s : state) (l : loc) : option state :=
  if written s l then None
  else Some (State (store true (memory s) no_view l true).1 (<[l := true]> (written s)) (reader_at s) (reader_view s) (z s)).

(** [read_x_then_y] and [read_y_then_x] *)
Definition reader_step (s : state) (w : who) (t : nat) : option state :=
  match reader_at s w with
  | Spin =>
      match read s w (first w) t with
      | Some (b, v) => Some (State (memory s) (written s) (<[w := if b then Second else Spin]> (reader_at s))
                               (<[w := v]> (reader_view s)) (z s))
      | None => None
      end
  | Second =>
      match read s w (second w) t with
      | Some (b, v) => Some (State (memory s) (written s) (<[w := if b then Incr else Done false]> (reader_at s))
                               (<[w := v]> (reader_view s)) (z s))
      | None => None
      end
  | Incr => Some (State (memory s) (written s) (<[w := Done true]> (reader_at s)) (reader_view s) (S (z s)))
  | Done _ => None
  end.

Inductive action := Writes (l : loc) | Reads (w : who) (t : nat).
Definition act (s : state) (a : action) : option state :=
  match a with Writes l => write s l | Reads w t => reader_step s w t end.
Definition step (s s' : state) : Prop := exists a, act s a = Some s'.

Definition start : state := State initially (fun _ => false) (fun _ => Spin) (fun _ => no_view) 0.

Fixpoint run (s : state) (l : list action) : option state :=
  match l with [] => Some s | a :: l => s' ← act s a; run s' l end.

(** All the threads have ended: [main] asserts that [z] is 1 or 2. *)
Definition joined (s : state) : bool :=
  written s X && written s Y &&
  match reader_at s ReadXThenY, reader_at s ReadYThenX with Done _, Done _ => true | _, _ => false end.
End Order.

Definition counted (r : reader) : nat := match r with Done true => 1 | _ => 0 end.

Record inv (s : state) : Prop := {
  inv_newest : forall l, newest (memory s) l = written s l;
  inv_first : forall w, reader_at s w <> Spin -> written s (first w) = true;
  inv_false : ~ (reader_at s ReadXThenY = Done false /\ reader_at s ReadYThenX = Done false);
  inv_z : z s = counted (reader_at s ReadXThenY) + counted (reader_at s ReadYThenX)
}.

Lemma both_run_rtc sc l : forall s s', run sc s l = Some s' -> rtc (step sc) s s'.
Proof.
  induction l as [|a l IH]; intros s s' E; cbn [run] in E; [injection E as <-; constructor|].
  destruct (act sc s a) as [s1|] eqn:Ea; [|discriminate]. econstructor; [exists a; exact Ea|apply IH, E].
Qed.

Lemma write_inv s l s' : inv s -> write s l = Some s' -> inv s'.
Proof.
  intros [Hn Hf Hd Hz] E. unfold write in E. destruct (written s l) eqn:W; [discriminate|]. injection E as <-.
  constructor; cbn; try assumption.
  - intros k. unfold newest. destruct (decide (k = l)) as [->|Hk].
    + rewrite !fn_lookup_insert, last_snoc. reflexivity.
    + rewrite !fn_lookup_insert_ne by congruence. apply Hn.
  - intros w Hw. destruct (decide (first w = l)) as [<-|Hk]; [apply fn_lookup_insert|].
    rewrite fn_lookup_insert_ne by congruence. apply Hf, Hw.
Qed.

Lemma both_reader_inv s w t s' : inv s -> reader_step true s w t = Some s' -> inv s'.
Proof.
  intros [Hn Hf Hd Hz] E. unfold reader_step, read in E.
  assert (Hsec : reader_at s w = Second -> newest (memory s) (second w) = false ->
    reader_at s (match w with ReadXThenY => ReadYThenX | ReadYThenX => ReadXThenY end) = Spin).
  { intros _ Hfalse. rewrite Hn in Hfalse.
    pose proof (Hf (match w with ReadXThenY => ReadYThenX | ReadYThenX => ReadXThenY end)) as Ho.
    destruct w; cbn in *; match goal with |- ?r = Spin => destruct r; try reflexivity end;
      rewrite Ho in Hfalse by discriminate; discriminate. }
  destruct (reader_at s w) eqn:R; try discriminate; injection E as <-; constructor; cbn; try assumption.
  all: try (intros u; destruct (decide (u = w)) as [->|Hu];
            [rewrite fn_lookup_insert, ?Hn; intros Hs|rewrite fn_lookup_insert_ne by congruence; apply Hf]).
  all: try (destruct (written s (first w)); [reflexivity|done]); try (apply Hf; congruence).
  all: destruct w; rewrite ?fn_lookup_insert, ?fn_lookup_insert_ne by done; rewrite ?R in *; cbn in *.
  all: try match goal with |- context [newest ?a ?b] => destruct (newest a b) eqn:N end; cbn; try lia.
  all: intros [H1 H2]; try discriminate; rewrite Hsec in * by reflexivity; discriminate.
Qed.

(** With sequentially consistent operations the assertion of
    memory_order_seq_cst.cpp holds in every execution: the readers cannot see the
    two stores in different orders; with release and acquire they can, and [z] is 0. *)
Theorem read_in_both_orders seq_cst :
  (forall s, rtc (step seq_cst) start s -> joined s = true -> z s = 1 \/ z s = 2) <-> seq_cst = true.
Proof.
  split.
  - intros H.
    assert (Hno : forall l s, run seq_cst start l = Some s -> joined s = true -> z s = 1 \/ z s = 2)
      by (intros l s E; apply H, (both_run_rtc _ l), E).
    specialize (Hno [Writes X; Writes Y; Reads ReadXThenY 1; Reads ReadXThenY 0; Reads ReadYThenX 1; Reads ReadYThenX 0]).
    destruct seq_cst; [reflexivity|]. destruct (Hno _ eq_refl eq_refl); discriminate.
  - intros -> s Hr Hj.
    assert (Hi : inv s).
    { revert Hr. apply rtc_preserves.
      - intros a b Ha [[l|w t] E]; cbn in E; [eapply write_inv|eapply both_reader_inv]; eassumption.
      - constructor; try done. cbn. intros [? ?]. discriminate. }
    destruct Hi as [_ _ Hd ->]. unfold joined in Hj. rewrite !andb_true_iff in Hj. destruct Hj as [_ Hj].
    destruct (reader_at s ReadXThenY) as [| | |[]], (reader_at s ReadYThenX) as [| | |[]]; cbn; try done; auto.
    destruct Hd. auto.
Qed.

End BothOrders.
