(* ===== verification/PingPong.v ===== *)
(** * Ping and pong

    src/c++/20220803-pingpong-bench/cc: two threads take turns.  [ping] stores
    the number of its round where [pong] waits for it, [pong] answers where
    [ping] waits.  pingpong.cc uses a mutex and a condition variable for each of
    the two variables, pingpong2.cc tries the mutex in a loop, and
    pingpong_atomic.cc reads an atomic variable in a loop. *)

From Stdlib Require Import ZArith Lia.
From stdpp Require Import base numbers functions relations list.
From S2P Require Import Prelude.

Open Scope Z_scope.

Inductive kind := CondVar | TryLock | Atomic.
Inductive tid := Ping | Pong.

#[export] Instance tid_eq_dec : EqDecision tid.
Proof. solve_decision. Defined.

Definition other (t : tid) : tid := match t with Ping => Pong | Pong => Ping end.

(** What a thread does next: it locks, stores, unlocks and notifies where the
    other waits, and locks, tests and unlocks where it waits itself. *)
Inductive pc :=
  | WLock | WSet | WUnlock | WNotify
  | ALock | ACheck | AUnlock | ARetry | Asleep
  | Done.

(** [value t] is the variable that thread [t] waits for, [owner t] the owner of
    the mutex around it. *)
Record state := State {
  value : tid -> Z;
  owner : tid -> option tid;
  at_ : tid -> pc;
  idx : tid -> Z
}.

Section Rounds.
Context (k : kind) (attempts : Z).

Definition write_first : pc := match k with Atomic => WSet | _ => WLock end.
Definition await_first : pc := match k with Atomic => ACheck | _ => ALock end.

(** The state of a thread at the beginning of round [i]. *)
Definition begin_at (t : tid) (i : Z) : pc :=
  if i <? attempts then match t with Ping => write_first | Pong => await_first end else Done.

Definition go (s : state) (t : tid) (p : pc) : state := State (value s) (owner s) (<[t := p]> (at_ s)) (idx s).
Definition lock (s : state) (c : tid) (o : option tid) : state :=
  State (value s) (<[c := o]> (owner s)) (at_ s) (idx s).
Definition set_value (s : state) (c : tid) (i : Z) : state := State (<[c := i]> (value s)) (owner s) (at_ s) (idx s).

(** The end of a round. *)
Definition next_round (s : state) (t : tid) : state :=
  State (value s) (owner s) (<[t := begin_at t (idx s t + 1)]> (at_ s)) (<[t := idx s t + 1]> (idx s)).
(** After the store [ping] waits and [pong] has ended its round; after the wait
    it is the other way round. *)
Definition after_write (s : state) (t : tid) : state :=
  match t with Ping => go s t await_first | Pong => next_round s t end.
Definition after_await (s : state) (t : tid) : state :=
  match t with Ping => next_round s t | Pong => go s t write_first end.

(** [notify_one] *)
Definition notify (s : state) (c : tid) : state :=
  match at_ s c with Asleep => go s c ALock | _ => s end.

Definition step (s : state) (t : tid) : option state :=
  match at_ s t with
  | WLock => match owner s (other t) with None => Some (go (lock s (other t) (Some t)) t WSet) | _ => None end
  | WSet =>
      let s' := set_value s (other t) (idx s t) in
      Some (match k with Atomic => after_write s' t | _ => go s' t WUnlock end)
  | WUnlock => Some (go (lock s (other t) None) t WNotify)
  | WNotify => Some (after_write (notify s (other t)) t)
  | ALock => match owner s t with None => Some (go (lock s t (Some t)) t ACheck) | _ => None end
  | ACheck =>
      if value s t =? idx s t
      then Some (match k with Atomic => after_await s t | _ => go s t AUnlock end)
      else Some (match k with
                 | CondVar => go (lock s t None) t Asleep
                 | TryLock => go s t ARetry
                 | Atomic => s
                 end)
  | AUnlock => Some (after_await (lock s t None) t)
  | ARetry => Some (go (lock s t None) t ALock)
  | Asleep | Done => None
  end.

(** A thread takes a step, or the condition variable wakes it up for no reason. *)
Inductive steps (s : state) : state -> Prop :=
  | steps_thread t s' : step s t = Some s' -> steps s s'
  | steps_spurious t : at_ s t = Asleep -> steps s (go s t ALock).

Definition start : state :=
  State (fun _ => attempts) (fun _ => None) (fun t => begin_at t 0) (fun _ => 0).

Definition final (s : state) : Prop := at_ s Ping = Done /\ at_ s Pong = Done.

(** ** The invariant *)

(** The number of stores that a thread has made. *)
Definition stored (t : tid) (p : pc) : Z :=
  match t, p with
  | Ping, (WUnlock | WNotify | ALock | ACheck | AUnlock | ARetry | Asleep) => 1
  | Pong, (WUnlock | WNotify) => 1
  | _, _ => 0
  end.
Definition sets (s : state) (t : tid) : Z := idx s t + stored t (at_ s t).

(** The thread holds the mutex of [c]. *)
Definition holds (t : tid) (p : pc) (c : tid) : bool :=
  match k, p with
  | Atomic, _ => false
  | _, (WSet | WUnlock) => bool_decide (c = other t)
  | _, (ACheck | AUnlock | ARetry) => bool_decide (c = t)
  | _, _ => false
  end.

(** The states that a thread has with this kind. *)
Definition of_kind (p : pc) : bool :=
  match k, p with
  | Atomic, (WSet | ACheck | Done) => true
  | TryLock, Asleep => false
  | CondVar, ARetry => false
  | Atomic, _ => false
  | _, _ => true
  end.

(** A thread that has not stored yet, or has seen the answer, is not waited for. *)
Definition ping_leads (p : pc) : bool := match p with WLock | WSet | AUnlock | Done => true | _ => false end.
Definition pong_owes (p : pc) : bool := match p with WLock | WSet | AUnlock => true | _ => false end.

Definition rounds (s : state) : Prop := forall t, 0 <= idx s t <= attempts /\ (at_ s t = Done <-> idx s t = attempts).

(** Whose turn it is. *)
Record turns (s : state) : Prop := {
  turns_value : forall t, value s t = if sets s (other t) =? 0 then attempts else sets s (other t) - 1;
  turns_order : sets s Pong <= sets s Ping <= sets s Pong + 1;
  turns_ping : ping_leads (at_ s Ping) = true -> sets s Ping = sets s Pong;
  turns_pong : pong_owes (at_ s Pong) = true -> sets s Ping = sets s Pong + 1
}.

(** The mutexes. *)
Definition owners (s : state) : Prop := forall c t, owner s c = Some t <-> holds t (at_ s t) c = true.

(** Nobody sleeps while what it waits for is there, unless it is about to be woken up. *)
Definition sleepers (s : state) : Prop := forall t, at_ s t = Asleep -> value s t = idx s t ->
  at_ s (other t) = WUnlock \/ at_ s (other t) = WNotify.

Definition kinds (s : state) : Prop := forall t, of_kind (at_ s t) = true.
End Rounds.

Arguments stored !t !p /.
Arguments holds !k t !p c /.
Arguments of_kind !k !p /.
Arguments ping_leads !p /.
Arguments pong_owes !p /.

Ltac look := repeat first [rewrite fn_lookup_insert | rewrite fn_lookup_insert_ne by done].

Section Preservation.
Context (k : kind) (n : Z).

Lemma begin_stored t i : stored t (begin_at k n t i) = 0.
Proof. unfold begin_at, write_first, await_first. destruct (i <? n), t, k; reflexivity. Qed.


Lemma rounds_go s v o t p : rounds n s -> at_ s t <> Done -> p <> Done ->
  rounds n (State v o (<[t := p]> (at_ s)) (idx s)).
Proof.
  intros H Hd Hp u. destruct (H u) as [H1 H2]. cbn. destruct (decide (u = t)) as [->|Hu]; look; [|auto].
  split; [exact H1|]. split; [done|]. intros E. destruct Hd. apply H2, E.
Qed.
Lemma rounds_next s t : rounds n s -> at_ s t <> Done -> rounds n (next_round k n s t).
Proof.
  intros H Hd u. destruct (H u) as [H1 H2]. cbn. destruct (decide (u = t)) as [->|Hu]; look; [|auto].
  assert (idx s t <> n) by tauto. split; [lia|]. unfold begin_at. destruct (Z.ltb_spec (idx s t + 1) n).
  - unfold write_first, await_first. destruct t, k; split; intros; try discriminate; lia.
  - split; [lia|reflexivity].
Qed.

(** Steps that do not store. *)
Lemma turns_same s s' : turns n s -> value s' = value s -> (forall t, sets s' t = sets s t) ->
  (ping_leads (at_ s' Ping) = true -> sets s Ping = sets s Pong) ->
  (pong_owes (at_ s' Pong) = true -> sets s Ping = sets s Pong + 1) -> turns n s'.
Proof.
  intros [V O P Q] Hv Hs HP HQ. constructor; rewrite ?Hs; auto. intros t. rewrite Hv, Hs. apply V.
Qed.

(** The thread stores the number of its round. *)
Lemma turns_set s s' t : turns n s -> rounds n s -> at_ s t <> Done -> sets s t = idx s t ->
  sets s Ping = sets s Pong + (match t with Ping => 0 | Pong => 1 end) ->
  value s' = <[other t := idx s t]> (value s) -> sets s' t = sets s t + 1 -> sets s' (other t) = sets s (other t) ->
  (ping_leads (at_ s' Ping) = true -> t = Pong) -> (pong_owes (at_ s' Pong) = true -> t = Ping) -> turns n s'.
Proof.
  intros [V O P Q] R Hd Hi Ht Hv Hs Hs' HP HQ. destruct (R t) as [R1 _].
  constructor.
  - intros u. rewrite Hv. destruct t, u; cbn [other] in *; look; rewrite ?Hs, ?Hs'; try apply V;
      rewrite (proj2 (Z.eqb_neq _ _)) by lia; lia.
  - destruct t; cbn [other] in *; lia.
  - intros E. specialize (HP E) as ->. cbn [other] in *. lia.
  - intros E. specialize (HQ E) as ->. cbn [other] in *. lia.
Qed.

Lemma check_succeeds s t : turns n s -> rounds n s -> at_ s t = ACheck -> value s t = idx s t ->
  sets s Ping = sets s Pong + (match t with Ping => 0 | Pong => 1 end).
Proof.
  intros [V O P Q] R E Hv. rewrite V in Hv. destruct (R t) as [R1 R2]. rewrite E in R2.
  assert (idx s t <> n) by (intros H; apply R2 in H; discriminate).
  destruct (Z.eqb_spec (sets s (other t)) 0); [lia|].
  destruct t; unfold sets in *; cbn [other] in *; rewrite E in *; cbn in *; lia.
Qed.

Lemma turns_go s o t p : turns n s -> stored t p = stored t (at_ s t) ->
  (t = Ping -> ping_leads p = true -> sets s Ping = sets s Pong) ->
  (t = Pong -> pong_owes p = true -> sets s Ping = sets s Pong + 1) ->
  turns n (State (value s) o (<[t := p]> (at_ s)) (idx s)).
Proof.
  intros H Hs HP HQ. apply (turns_same s); [exact H|reflexivity|..]; cbn [at_].
  - intros u. unfold sets. cbn. destruct (decide (u = t)) as [->|Hu]; look; congruence.
  - destruct t; look; [auto|apply H].
  - destruct t; look; [apply H|auto].
Qed.
Lemma turns_next s t : turns n s -> stored t (at_ s t) = 1 -> (t = Ping -> sets s Ping = sets s Pong) ->
  turns n (next_round k n s t).
Proof.
  intros H Hs HP. apply (turns_same s); [exact H|reflexivity|..]; cbn [at_ next_round].
  - intros u. unfold sets. cbn. destruct (decide (u = t)) as [->|Hu]; look; [rewrite begin_stored; lia|reflexivity].
  - destruct t; look; [auto|apply H].
  - destruct t; look; [apply H|]. unfold begin_at, await_first. destruct (_ <? _), k; discriminate.
Qed.

Lemma notify_frame s c : value (notify s c) = value s /\ idx (notify s c) = idx s /\ owner (notify s c) = owner s /\
  (forall u, u <> c -> at_ (notify s c) u = at_ s u) /\ at_ (notify s c) c = (match at_ s c with Asleep => ALock | p => p end).
Proof.
  unfold notify. destruct (at_ s c) eqn:E; cbn; split_and!; auto; intros; look; auto.
Qed.
Lemma notify_turns s c : turns n s -> rounds n s -> turns n (notify s c) /\ rounds n (notify s c).
Proof.
  intros H R. unfold notify. destruct (at_ s c) eqn:E; auto. unfold go. split.
  - apply turns_go; [exact H|rewrite E; destruct c; reflexivity|discriminate..].
  - apply rounds_go; [exact R|congruence|discriminate].
Qed.
Lemma other_tid_ne t : other t <> t.
Proof. destruct t; done. Qed.

(** What follows the store, and what follows the wait. *)
Lemma after_write_turns s t : turns n s -> rounds n s -> at_ s t <> Done -> stored t (at_ s t) = 1 ->
  turns n (after_write k n s t) /\ rounds n (after_write k n s t).
Proof.
  intros H R Hd Hs. unfold after_write. destruct t.
  - split; [apply turns_go; [exact H|rewrite Hs; unfold await_first; destruct k; reflexivity|
      unfold await_first; destruct k; discriminate|discriminate]|].
    apply rounds_go; [exact R|exact Hd|unfold await_first; destruct k; discriminate].
  - split; [apply turns_next; [exact H|exact Hs|discriminate]|apply rounds_next; assumption].
Qed.
Lemma after_await_turns s t : turns n s -> rounds n s -> at_ s t = ACheck \/ at_ s t = AUnlock ->
  sets s Ping = sets s Pong + (match t with Ping => 0 | Pong => 1 end) ->
  turns n (after_await k n s t) /\ rounds n (after_await k n s t).
Proof.
  intros H R Ha Hs. unfold after_await.
  assert (Hd : at_ s t <> Done) by (destruct Ha; congruence). destruct t.
  - split; [apply turns_next; [exact H|destruct Ha as [-> | ->]; reflexivity|lia]|apply rounds_next; assumption].
  - split; [apply turns_go; [exact H|destruct Ha as [-> | ->]; unfold write_first; destruct k; reflexivity|discriminate|auto]|].
    apply rounds_go; [exact R|exact Hd|unfold write_first; destruct k; discriminate].
Qed.
Lemma turns_lock s c o : turns n s -> turns n (lock s c o).
Proof. intros [V O P Q]. constructor; assumption. Qed.

(** The store, which is a step of its own except with atomic variables. *)
Lemma set_turns s t : turns n s -> rounds n s -> at_ s t <> Done -> sets s t = idx s t ->
  sets s Ping = sets s Pong + (match t with Ping => 0 | Pong => 1 end) ->
  let s' := match k with
            | Atomic => after_write k n (set_value s (other t) (idx s t)) t
            | _ => go (set_value s (other t) (idx s t)) t WUnlock
            end in
  turns n s' /\ rounds n s'.
Proof.
  intros H R Hd Hi Ht s'.
  assert (Hat : s' = go (set_value s (other t) (idx s t)) t WUnlock \/
                s' = go (set_value s (other t) (idx s t)) t ACheck /\ t = Ping \/
                s' = next_round k n (set_value s (other t) (idx s t)) t /\ t = Pong).
  { unfold s', after_write, await_first. destruct k, t; auto. }
  destruct Hat as [->|[[-> ->]|[-> ->]]]; cbn [other] in *.
  - split; [|apply rounds_go; [exact R|exact Hd|discriminate]].
    apply (turns_set s _ t); try assumption; try reflexivity; destruct t; unfold sets in *; cbn [go set_value idx at_ other] in *; look; cbn; try lia; done.
  - split; [|apply rounds_go; [exact R|exact Hd|discriminate]].
    apply (turns_set s _ Ping); try assumption; try reflexivity; unfold sets in *; cbn [go set_value idx at_ other] in *; look; cbn; try lia; done.
  - split; [|apply (rounds_next (set_value s Ping (idx s Pong))); assumption].
    apply (turns_set s _ Pong); try assumption; try reflexivity; unfold sets in *; cbn [next_round set_value idx at_ other] in *; look;
      rewrite ?begin_stored; try lia; try done. unfold begin_at, await_first. destruct (_ <? _), k; discriminate.
Qed.

Lemma step_turns s t s' : turns n s -> rounds n s -> of_kind k (at_ s t) = true -> step k n s t = Some s' ->
  turns n s' /\ rounds n s'.
Proof.
  intros H R Hk E. unfold step in E.
  assert (Hgo : forall o p, at_ s t <> Done -> p <> Done -> stored t p = stored t (at_ s t) ->
    (t = Ping -> ping_leads p = true -> sets s Ping = sets s Pong) ->
    (t = Pong -> pong_owes p = true -> sets s Ping = sets s Pong + 1) ->
    turns n (State (value s) o (<[t := p]> (at_ s)) (idx s)) /\ rounds n (State (value s) o (<[t := p]> (at_ s)) (idx s))).
  { intros o p H1 H2 H3 H4 H5. split; [apply turns_go|apply rounds_go]; assumption. }
  destruct (at_ s t) eqn:Et.
  - destruct (owner s (other t)); [discriminate|]. injection E as <-. apply Hgo; try discriminate; [destruct t; reflexivity|..].
    + intros -> _. apply H. rewrite Et. reflexivity.
    + intros -> _. apply H. rewrite Et. reflexivity.
  - injection E as <-. assert (Ht : sets s Ping = sets s Pong + (match t with Ping => 0 | Pong => 1 end)).
    { destruct t; [rewrite (turns_ping _ _ H) by (rewrite Et; reflexivity); lia|apply H; rewrite Et; reflexivity]. }
    assert (Hi : sets s t = idx s t) by (unfold sets; rewrite Et; destruct t; cbn; lia).
    assert (Hd : at_ s t <> Done) by congruence.
    apply set_turns; assumption.
  - injection E as <-. apply Hgo; try discriminate. destruct t; reflexivity.
  - injection E as <-. destruct (notify_turns s (other t) H R) as [H1 H2].
    destruct (notify_frame s (other t)) as (_&_&_&Hu&_). specialize (Hu t (not_eq_sym (other_tid_ne t))).
    apply after_write_turns; [exact H1|exact H2|congruence|rewrite Hu, Et; destruct t; reflexivity].
  - destruct (owner s t); [discriminate|]. injection E as <-. apply Hgo; try discriminate; destruct t; reflexivity.
  - destruct (Z.eqb_spec (value s t) (idx s t)) as [Hv|Hv]; injection E as <-.
    + pose proof (check_succeeds s t H R Et Hv) as Hc. destruct k eqn:Ek; [..|rewrite <- Ek; apply after_await_turns; auto].
      all: apply Hgo; try discriminate; [destruct t; reflexivity|intros ->; lia|intros ->; lia].
    + destruct k; [| |split; assumption]; apply Hgo; try discriminate; destruct t; reflexivity.
  - injection E as <-. apply after_await_turns; [apply turns_lock, H|exact R|right; exact Et|].
    change (sets (lock s t None)) with (sets s). destruct t; [rewrite (turns_ping _ _ H) by (rewrite Et; reflexivity); lia|].
    apply H. rewrite Et. reflexivity.
  - injection E as <-. apply Hgo; try discriminate. destruct t; reflexivity.
  - discriminate.
  - discriminate.
Qed.

Lemma owners_keep s s' t p : owners k s -> owner s' = owner s -> at_ s' = <[t := p]> (at_ s) ->
  (forall c, holds k t p c = holds k t (at_ s t) c) -> owners k s'.
Proof.
  intros H Ho Ha Hh c u. rewrite Ho, Ha. destruct (decide (u = t)) as [->|Hu]; look; [rewrite Hh|]; apply H.
Qed.
Lemma owners_acquire s s' t p c : owners k s -> owner s c = None -> owner s' = <[c := Some t]> (owner s) ->
  at_ s' = <[t := p]> (at_ s) -> (forall d, holds k t (at_ s t) d = false) ->
  (forall d, holds k t p d = bool_decide (d = c)) -> owners k s'.
Proof.
  intros H Hc Ho Ha Hno Hp d u. rewrite Ho, Ha. destruct (decide (u = t)) as [->|Hu]; look.
  - rewrite Hp, bool_decide_eq_true. destruct (decide (d = c)) as [->|Hd]; look; [done|].
    rewrite (H d t), Hno. split; [discriminate|done].
  - destruct (decide (d = c)) as [->|Hd]; look; [|apply H]. rewrite <- (H c u), Hc. split; congruence.
Qed.
Lemma owners_release s s' t p c : owners k s -> owner s' = <[c := None]> (owner s) ->
  at_ s' = <[t := p]> (at_ s) -> (forall d, holds k t (at_ s t) d = bool_decide (d = c)) ->
  (forall d, holds k t p d = false) -> owners k s'.
Proof.
  intros H Ho Ha Hh Hp d u. rewrite Ho, Ha. destruct (decide (u = t)) as [->|Hu]; look.
  - rewrite Hp. destruct (decide (d = c)) as [->|Hd]; look; [done|].
    rewrite (H d t), Hh, bool_decide_eq_true. split; [done|discriminate].
  - destruct (decide (d = c)) as [->|Hd]; look; [|apply H].
    assert (Hc : owner s c = Some t) by (apply H; rewrite Hh; apply bool_decide_eq_true; reflexivity).
    split; [discriminate|]. intros Hu'. apply H in Hu'. congruence.
Qed.

(** The beginning of the store, of the wait and of a round. *)
Lemma begin_kind t i : of_kind k (begin_at k n t i) = true.
Proof. unfold begin_at, write_first, await_first. destruct k, t, (i <? n); done. Qed.
Lemma after_write_at s t : exists p, at_ (after_write k n s t) = <[t := p]> (at_ s) /\ of_kind k p = true /\
  (forall c, holds k t p c = false) /\ p <> Asleep /\ owner (after_write k n s t) = owner s /\
  value (after_write k n s t) = value s /\ (forall u, u <> t -> idx (after_write k n s t) u = idx s u).
Proof.
  destruct t; cbn; eexists; (split; [reflexivity|]).
  - unfold await_first. destruct k; repeat split; done.
  - split; [apply begin_kind|]. unfold begin_at, await_first. destruct k, (_ <? n); repeat split; try done; intros; look; done.
Qed.
Lemma after_await_at s t : exists p, at_ (after_await k n s t) = <[t := p]> (at_ s) /\ of_kind k p = true /\
  (forall c, holds k t p c = false) /\ p <> Asleep /\ owner (after_await k n s t) = owner s /\
  value (after_await k n s t) = value s /\ (forall u, u <> t -> idx (after_await k n s t) u = idx s u).
Proof.
  destruct t; cbn; eexists; (split; [reflexivity|]).
  - split; [apply begin_kind|]. unfold begin_at, write_first. destruct k, (_ <? n); repeat split; try done; intros; look; done.
  - unfold write_first. destruct k; repeat split; done.
Qed.

Lemma sleepers_step s s' t p : sleepers s -> at_ s' = <[t := p]> (at_ s) ->
  value s' (other t) = value s (other t) -> idx s' (other t) = idx s (other t) ->
  (p = Asleep -> value s' t <> idx s' t) -> at_ s t <> WUnlock -> (at_ s t = WNotify -> at_ s (other t) <> Asleep) ->
  sleepers s'.
Proof.
  intros H Ha Hv Hi Hp Hu Hn u. rewrite Ha. destruct (decide (u = t)) as [->|Hne]; look.
  - intros Hs E. destruct (Hp Hs E).
  - assert (u = other t) as -> by (destruct t, u; done). rewrite Hv, Hi. intros Hs E.
    destruct (H _ Hs E) as [E1|E1]; replace (other (other t)) with t in E1 by (destruct t; reflexivity); [done|].
    destruct (Hn E1 Hs).
Qed.

(** A thread that is about to store does not disturb a sleeper: it will notify it. *)
Lemma sleepers_writes s s' t p : sleepers s -> at_ s' = <[t := p]> (at_ s) -> p = WUnlock \/ p = WNotify -> sleepers s'.
Proof.
  intros H Ha Hp u. rewrite Ha. destruct (decide (u = t)) as [->|Hne]; look; [destruct Hp; congruence|].
  intros _ _. assert (other u = t) as -> by (destruct t, u; done). look. exact Hp.
Qed.

Definition calm (s : state) : Prop := owners k s /\ sleepers s /\ kinds k s.

Lemma kinds_step s s' t p : kinds k s -> at_ s' = <[t := p]> (at_ s) -> of_kind k p = true -> kinds k s'.
Proof. intros H Ha Hp u. rewrite Ha. destruct (decide (u = t)) as [->|Hu]; look; [exact Hp|apply H]. Qed.

Lemma calm_step s s' t p : calm s -> at_ s' = <[t := p]> (at_ s) -> of_kind k p = true -> owners k s' ->
  value s' (other t) = value s (other t) -> idx s' (other t) = idx s (other t) ->
  (p = Asleep -> value s' t <> idx s' t) -> at_ s t <> WUnlock -> (at_ s t = WNotify -> at_ s (other t) <> Asleep) -> calm s'.
Proof.
  intros (Ho & Hs & Hk) Ha Hp Ho'. intros. split; [exact Ho'|]. split; [eapply sleepers_step; eassumption|eapply kinds_step; eassumption].
Qed.
Lemma calm_writes s s' t p : calm s -> at_ s' = <[t := p]> (at_ s) -> of_kind k p = true -> owners k s' ->
  p = WUnlock \/ p = WNotify -> calm s'.
Proof.
  intros (Ho & Hs & Hk) Ha Hp Ho' Hw. split; [exact Ho'|]. split; [eapply sleepers_writes; eassumption|eapply kinds_step; eassumption].
Qed.

Lemma wake_calm s t : calm s -> at_ s t = Asleep -> calm (go s t ALock).
Proof.
  intros H E. pose proof H as (Ho & Hs & Hk). specialize (Hk t). rewrite E in Hk.
  eapply (calm_step s _ t ALock); [exact H|reflexivity|destruct k; done| |reflexivity|reflexivity|discriminate|congruence|congruence].
  eapply owners_keep; [exact Ho|reflexivity|reflexivity|]. intros c. rewrite E. destruct k; reflexivity.
Qed.
Lemma notify_calm s c : calm s -> calm (notify s c).
Proof. intros H. unfold notify. destruct (at_ s c) eqn:E; auto. apply wake_calm; assumption. Qed.

(** The test: with a condition variable a thread that fails it gives the mutex back and sleeps. *)
Lemma check_calm s t s' : calm s -> at_ s t = ACheck -> step k n s t = Some s' -> calm s'.
Proof.
  intros H Et E. pose proof H as (Ho & Hs & Hk). unfold step in E. rewrite Et in E.
  destruct (Z.eqb_spec (value s t) (idx s t)) as [Hv|Hv]; injection E as <-.
  - destruct (after_await_at s t) as (p & Ha & Hp & Hh & Hp' & Hoo & Hv' & Hi). destruct k eqn:Ek; rewrite <- Ek in *.
    1,2: eapply (calm_step s _ t AUnlock); [exact H|reflexivity|rewrite Ek; reflexivity| |reflexivity|reflexivity|discriminate|congruence|congruence];
      eapply owners_keep; [exact Ho|reflexivity|reflexivity|]; intros c; rewrite Et, Ek; reflexivity.
    eapply (calm_step s _ t p); [exact H|exact Ha|exact Hp| |rewrite Hv'; reflexivity|apply Hi, other_tid_ne|congruence|congruence|congruence].
    eapply owners_keep; [exact Ho|exact Hoo|exact Ha|]. intros c. rewrite Hh, Et, Ek. reflexivity.
  - destruct k eqn:Ek; rewrite <- Ek in *; [..|exact H].
    + eapply (calm_step s _ t Asleep); [exact H|reflexivity|rewrite Ek; reflexivity| |reflexivity|reflexivity|intros _; exact Hv|congruence|congruence].
      eapply owners_release; [exact Ho|reflexivity|reflexivity|..]; intros d; rewrite ?Et, Ek; done.
    + eapply (calm_step s _ t ARetry); [exact H|reflexivity|rewrite Ek; reflexivity| |reflexivity|reflexivity|discriminate|congruence|congruence].
      eapply owners_keep; [exact Ho|reflexivity|reflexivity|]. intros c. rewrite Et, Ek. reflexivity.
Qed.

Lemma step_calm s t s' : calm s -> step k n s t = Some s' -> calm s'.
Proof.
  intros H E. pose proof H as (Ho & Hs & Hk). pose proof (Hk t) as Hkt. pose proof (check_calm s t s' H) as Hck.
  pose proof E as E0. unfold step in E. destruct (at_ s t) eqn:Et.
  - destruct (owner s (other t)) eqn:Hf; [discriminate|]. injection E as <-.
    eapply (calm_step s _ t WSet); [exact H|reflexivity|destruct k; done| |reflexivity|reflexivity|discriminate|congruence|congruence].
    eapply owners_acquire; [exact Ho|exact Hf|reflexivity|reflexivity|..]; intros d; rewrite ?Et; destruct k; done.
  - injection E as <-. destruct (after_write_at (set_value s (other t) (idx s t)) t) as (p & Ha & Hp & Hh & _ & Hoo & _).
    destruct k eqn:Ek; rewrite <- Ek in *.
    1,2: eapply (calm_writes s _ t WUnlock); [exact H|reflexivity|rewrite Ek; reflexivity| |auto];
      eapply owners_keep; [exact Ho|reflexivity|reflexivity|]; intros c; rewrite Et, Ek; reflexivity.
    assert (Hall : forall u, at_ s u <> Asleep) by (intros u; specialize (Hk u); rewrite Ek in Hk; destruct (at_ s u); done).
    split; [eapply owners_keep; [exact Ho|rewrite Hoo; reflexivity|rewrite Ha; reflexivity|]|split].
    + intros c. rewrite Hh, Et, Ek. reflexivity.
    + intros u. rewrite Ha. cbn. destruct (decide (u = t)) as [->|Hu]; look; [|intros; exfalso; eapply Hall; eassumption].
      intros ->. rewrite Ek in Hp. discriminate.
    + eapply kinds_step; [exact Hk|rewrite Ha; reflexivity|exact Hp].
  - injection E as <-. eapply (calm_writes s _ t WNotify); [exact H|reflexivity|destruct k; done| |auto].
    eapply owners_release; [exact Ho|reflexivity|reflexivity|..]; intros d; rewrite ?Et; destruct k; done.
  - injection E as <-. pose proof (notify_calm s (other t) H) as H'. pose proof H' as (Ho' & _ & _).
    destruct (notify_frame s (other t)) as (_&_&_&Hu&Hc). specialize (Hu t (not_eq_sym (other_tid_ne t))).
    destruct (after_write_at (notify s (other t)) t) as (p & Ha & Hp & Hh & Hp' & Hoo & Hv & Hi).
    eapply (calm_step _ _ t p); [exact H'|exact Ha|exact Hp| |congruence|apply Hi, other_tid_ne|congruence|congruence|].
    + eapply owners_keep; [exact Ho'|exact Hoo|exact Ha|]. intros c. rewrite Hh, Hu, Et. destruct k; reflexivity.
    + intros _. rewrite Hc. destruct (at_ s (other t)); discriminate.
  - destruct (owner s t) eqn:Hf; [discriminate|]. injection E as <-.
    eapply (calm_step s _ t ACheck); [exact H|reflexivity|destruct k; done| |reflexivity|reflexivity|discriminate|congruence|congruence].
    eapply owners_acquire; [exact Ho|exact Hf|reflexivity|reflexivity|..]; intros d; rewrite ?Et; destruct k; done.
  - apply Hck; [reflexivity|exact E0].
  - injection E as <-. destruct (after_await_at (lock s t None) t) as (p & Ha & Hp & Hh & Hp' & Hoo & Hv & Hi).
    eapply (calm_step s _ t p); [exact H|rewrite Ha; reflexivity|exact Hp| |rewrite Hv; reflexivity|apply Hi, other_tid_ne|congruence|congruence|congruence].
    eapply owners_release; [exact Ho|rewrite Hoo; reflexivity|rewrite Ha; reflexivity|intros d; rewrite Et; destruct k; done|exact Hh].
  - injection E as <-.
    eapply (calm_step s _ t ALock); [exact H|reflexivity|destruct k; done| |reflexivity|reflexivity|discriminate|congruence|congruence].
    eapply owners_release; [exact Ho|reflexivity|reflexivity|..]; intros d; rewrite ?Et; destruct k; done.
  - discriminate.
  - discriminate.
Qed.
End Preservation.

(** ** The three programs *)

Definition good (k : kind) (n : Z) (s : state) : Prop := turns n s /\ rounds n s /\ calm k s.

Lemma start_good k n : 0 <= n -> good k n (start k n).
Proof.
  intros Hn. assert (Hs : forall t, sets (start k n) t = 0) by (intros t; unfold sets; cbn; rewrite begin_stored; reflexivity).
  split; [|split].
  - constructor; rewrite ?Hs; try lia.
    + intros t. rewrite Hs. reflexivity.
    + unfold start, begin_at, await_first. cbn. destruct (0 <? n), k; discriminate.
  - intros t. cbn. unfold begin_at. destruct (Z.ltb_spec 0 n); (split; [lia|]).
    + unfold write_first, await_first. split; [destruct t, k; discriminate|lia].
    + split; [lia|reflexivity].
  - unfold start, begin_at, write_first, await_first. split_and!.
    + intros c t. cbn. destruct (0 <? n), t, k; split; done.
    + intros t. cbn. destruct (0 <? n), t, k; discriminate.
    + intros t. cbn. destruct (0 <? n), t, k; reflexivity.
Qed.

Lemma steps_good k n s s' : good k n s -> steps k n s s' -> good k n s'.
Proof.
  intros (Ht & Hr & Hc) [t s1 E|t E].
  - destruct (step_turns k n s t s1 Ht Hr) as [H1 H2]; [apply Hc|exact E|]. split; [exact H1|]. split; [exact H2|].
    eapply step_calm; eassumption.
  - split; [apply turns_go; [exact Ht|rewrite E; destruct t; reflexivity|discriminate..]|].
    split; [apply rounds_go; [exact Hr|congruence|discriminate]|apply wake_calm; assumption].
Qed.
Lemma pingpong_reachable_good k n s : 0 <= n -> rtc (steps k n) (start k n) s -> good k n s.
Proof. intros Hn. apply rtc_preserves; [apply steps_good|apply start_good, Hn]. Qed.

(** The threads take turns, whatever the program uses to wait: [ping] never
    stores a round before [pong] has answered the one before, [pong] never
    answers a round twice or too early, no two threads hold the same mutex, and
    at the end both have stored every round. *)
Theorem pingpong_alternates k n s :
  0 <= n -> rtc (steps k n) (start k n) s ->
  sets s Pong <= sets s Ping <= sets s Pong + 1 /\
  (forall c, ~ (holds k Ping (at_ s Ping) c = true /\ holds k Pong (at_ s Pong) c = true)) /\
  (final s -> sets s Ping = n /\ sets s Pong = n).
Proof.
  intros Hn Hr. destruct (pingpong_reachable_good k n s Hn Hr) as (Ht & Hro & Ho & _). split; [apply Ht|]. split.
  - intros c [H1 H2]. apply Ho in H1, H2. congruence.
  - intros [E1 E2]. unfold sets. rewrite E1, E2. cbn. pose proof (proj2 (Hro Ping)). pose proof (proj2 (Hro Pong)). intuition lia.
Qed.

Lemma pingpong_alternates_witness :
  exists s, rtc (steps CondVar 2) (start CondVar 2) s /\ at_ s Pong = Asleep /\
    sets s Pong <= sets s Ping <= sets s Pong + 1.
Proof.
  assert (Hr : rtc (steps CondVar 2) (start CondVar 2) (go (lock (go (lock (start CondVar 2) Pong (Some Pong)) Pong ACheck) Pong None) Pong Asleep)).
  { eapply rtc_l; [apply (steps_thread _ _ _ Pong); reflexivity|].
    eapply rtc_l; [apply (steps_thread _ _ _ Pong); reflexivity|]. apply rtc_refl. }
  eexists. split; [exact Hr|]. split; [reflexivity|]. apply (pingpong_alternates CondVar 2 _ ltac:(lia) Hr).
Defined.

(** *** Progress

    The work that is left: a thread that tests in vain and tries again does not
    change it. *)
Definition weight (t : tid) (p : pc) : Z :=
  match t, p with
  | Ping, WLock => 7 | Ping, WSet => 6 | Ping, WUnlock => 5 | Ping, WNotify => 4
  | Ping, (ALock | ACheck | ARetry | Asleep) => 3 | Ping, AUnlock => 2
  | Pong, (ALock | ACheck | ARetry | Asleep) => 7 | Pong, AUnlock => 6
  | Pong, WLock => 5 | Pong, WSet => 4 | Pong, WUnlock => 3 | Pong, WNotify => 2
  | _, Done => 0
  end.

Definition work (n : Z) (s : state) (t : tid) : Z := 8 * (n - idx s t) + weight t (at_ s t).
Definition left_over (n : Z) (s : state) : Z := work n s Ping + work n s Pong.

Lemma weight_bounds t p : 0 <= weight t p <= 7.
Proof. destruct t, p; cbn; lia. Qed.

Lemma left_over_frame n s s' t : (forall u, u <> t -> work n s' u = work n s u) ->
  left_over n s' - left_over n s = work n s' t - work n s t.
Proof.
  intros H. unfold left_over. destruct t; [rewrite (H Pong) by done|rewrite (H Ping) by done]; lia.
Qed.

Lemma left_over_go n s v o t p :
  left_over n (State v o (<[t := p]> (at_ s)) (idx s)) - left_over n s = weight t p - weight t (at_ s t).
Proof.
  rewrite (left_over_frame n s _ t).
  - unfold work. cbn [at_ idx]. look. lia.
  - intros u Hu. unfold work. cbn [at_ idx]. by rewrite fn_lookup_insert_ne.
Qed.

Lemma left_over_next k n s t : left_over n (next_round k n s t) < left_over n s - weight t (at_ s t).
Proof.
  pose proof (left_over_frame n s (next_round k n s t) t) as H.
  pose proof (weight_bounds t (begin_at k n t (idx s t + 1))).
  unfold work, next_round in H. cbn [at_ idx] in H. rewrite !fn_lookup_insert in H.
  enough (left_over n (next_round k n s t) - left_over n s = 8 * (n - (idx s t + 1)) + weight t (begin_at k n t (idx s t + 1)) - (8 * (n - idx s t) + weight t (at_ s t))) by lia.
  apply H. intros u Hu. by rewrite !fn_lookup_insert_ne.
Qed.

Lemma left_over_notify n s c : left_over n (notify s c) = left_over n s.
Proof.
  unfold notify. destruct (at_ s c) eqn:E; try done.
  pose proof (left_over_go n s (value s) (owner s) c ALock) as H. rewrite E in H.
  destruct c; unfold go; cbn [weight] in H; lia.
Qed.

Lemma left_over_after_write k n s t : at_ s t = WNotify \/ at_ s t = WSet -> left_over n (after_write k n s t) < left_over n s.
Proof.
  intros E. pose proof (weight_bounds t (at_ s t)). destruct t; cbn [after_write].
  - pose proof (left_over_go n s (value s) (owner s) Ping (await_first k)). unfold go.
    assert (weight Ping (await_first k) = 3) by (by destruct k). destruct E as [E|E]; rewrite E in *; cbn [weight] in *; lia.
  - pose proof (left_over_next k n s Pong). lia.
Qed.

Lemma left_over_after_await k n s t : at_ s t = ACheck \/ at_ s t = AUnlock -> left_over n (after_await k n s t) < left_over n s.
Proof.
  intros E. pose proof (weight_bounds t (at_ s t)). destruct t; cbn [after_await].
  - pose proof (left_over_next k n s Ping). lia.
  - pose proof (left_over_go n s (value s) (owner s) Pong (write_first k)). unfold go.
    assert (weight Pong (write_first k) <= 5) by (by destruct k). destruct E as [E|E]; rewrite E in *; cbn [weight] in *; lia.
Qed.

Lemma left_over_lock n s c o : left_over n (lock s c o) = left_over n s.
Proof. done. Qed.
Lemma left_over_value n s c i : left_over n (set_value s c i) = left_over n s.
Proof. done. Qed.

(** A thread whose next step brings it forward. *)
Definition direct (s : state) (t : tid) : Prop :=
  match at_ s t with
  | WSet | WUnlock | WNotify | AUnlock => True
  | WLock => owner s (other t) = None
  | ACheck => value s t = idx s t
  | _ => False
  end.

Lemma left_over_moves n s v o t p : weight t p < weight t (at_ s t) ->
  left_over n (State v o (<[t := p]> (at_ s)) (idx s)) < left_over n s.
Proof. pose proof (left_over_go n s v o t p). lia. Qed.

Lemma left_over_stays n s v o t p : weight t p = weight t (at_ s t) ->
  left_over n (State v o (<[t := p]> (at_ s)) (idx s)) = left_over n s.
Proof. pose proof (left_over_go n s v o t p). lia. Qed.

Lemma pingpong_direct_step k n s t : direct s t -> exists s', step k n s t = Some s' /\ left_over n s' < left_over n s.
Proof.
  unfold direct, step. intros H. destruct (at_ s t) eqn:E; try done; try rewrite H;
    try rewrite Z.eqb_refl; (eexists; split; [done|]).
  1, 3: apply (left_over_moves n s); rewrite E; by destruct t.
  - destruct k; [by apply (left_over_moves n s); rewrite E; destruct t..|].
    rewrite <- (left_over_value n s (other t) (idx s t)). apply left_over_after_write. by right.
  - rewrite <- (left_over_notify n s (other t)). apply left_over_after_write. left.
    unfold notify. destruct (at_ s (other t)) eqn:F; try done. unfold go. cbn [at_].
    rewrite fn_lookup_insert_ne; [done|]. by destruct t.
  - destruct k; [by apply (left_over_moves n s); rewrite E; destruct t..|]. apply left_over_after_await. by left.
  - rewrite <- (left_over_lock n s t None). apply left_over_after_await. by right.
Qed.

(** A thread that the other does not keep waiting, but for a mutex. *)
Definition leads (s : state) (t : tid) : Prop :=
  match at_ s t with
  | WLock | WSet | WUnlock | WNotify | AUnlock => True
  | ALock | ACheck | ARetry | Asleep => value s t = idx s t
  | Done => False
  end.

Definition awaits (p : pc) : bool := match p with ALock | ACheck | ARetry | Asleep => true | _ => false end.

Lemma leads_or s t : leads s t \/ at_ s t = Done \/ (awaits (at_ s t) = true /\ value s t <> idx s t).
Proof. unfold leads. destruct (at_ s t) eqn:E; cbn; auto; destruct (Z.eq_dec (value s t) (idx s t)); auto. Qed.

Lemma awaits_stored t p : awaits p = true -> stored t p = match t with Ping => 1 | Pong => 0 end.
Proof. by destruct t, p. Qed.

Lemma somebody_leads k n s : good k n s -> ~ final s -> exists t, leads s t.
Proof.
  intros ([V O P _] & R & _) Hf. pose proof (V Ping) as V1. pose proof (V Pong) as V2.
  destruct (R Ping) as [R1 D1], (R Pong) as [R2 D2]. unfold sets, final in *. cbn [other] in *.
  destruct (leads_or s Ping) as [?|[E1|[A1 N1]]]; [by exists Ping|..];
    destruct (leads_or s Pong) as [?|[E2|[A2 N2]]]; try (by exists Pong); exfalso.
  - by destruct Hf.
  - rewrite E1, (awaits_stored Pong) in * by done. cbn in *. specialize (P eq_refl).
    assert (at_ s Pong = Done) as E by (apply D2; pose proof (proj1 D1 eq_refl); lia). by rewrite E in A2.
  - rewrite E2, (awaits_stored Ping) in * by done. cbn in *. pose proof (proj1 D2 eq_refl).
    assert (idx s Ping <> n) by (intros Hx%D1; by rewrite Hx in A1).
    destruct (Z.eqb_spec (idx s Pong + 0) 0); lia.
  - rewrite (awaits_stored Ping), (awaits_stored Pong) in * by done.
    destruct (Z.eqb_spec (idx s Pong + 0) 0), (Z.eqb_spec (idx s Ping + 1) 0); lia.
Qed.

Definition moves (k : kind) (n : Z) (s s' : state) : Prop := exists t, step k n s t = Some s'.

(** The threads can get nearer to the end. *)
Definition advances (k : kind) (n : Z) (s : state) : Prop := exists s', rtc (moves k n) s s' /\ left_over n s' < left_over n s.

Lemma advances_direct k n s t : direct s t -> advances k n s.
Proof. intros H. destruct (pingpong_direct_step k n s t H) as (s' & E & Hl). exists s'. split; [|done]. apply rtc_once. by exists t. Qed.

Lemma advances_after k n s s1 : moves k n s s1 -> left_over n s1 = left_over n s -> advances k n s1 -> advances k n s.
Proof. intros Hm E (s' & Hr & Hl). exists s'. split; [by eapply rtc_l|lia]. Qed.

(** A thread that gives its mutex back and tries again. *)
Lemma retry_step k n s t : at_ s t = ARetry -> exists s1, moves k n s s1 /\ left_over n s1 = left_over n s /\
  value s1 = value s /\ idx s1 = idx s /\ owner s1 = <[t := None]> (owner s) /\ at_ s1 = <[t := ALock]> (at_ s).
Proof.
  intros E. exists (go (lock s t None) t ALock). split; [exists t; unfold step; by rewrite E|].
  split; [|done]. apply (left_over_stays n s). rewrite E. by destruct t.
Qed.

Lemma advances_alock k n s t : at_ s t = ALock -> value s t = idx s t -> owner s t = None -> advances k n s.
Proof.
  intros E Hv Ho. apply (advances_after _ _ _ (go (lock s t (Some t)) t ACheck)).
  - exists t. unfold step. by rewrite E, Ho.
  - apply (left_over_stays n s). rewrite E. by destruct t.
  - apply (advances_direct _ _ _ t). unfold direct, go. cbn [at_]. by rewrite fn_lookup_insert.
Qed.

(** The other thread has the mutex that [t] needs to store. *)
Lemma advances_blocked k n s t u : good k n s -> at_ s t = WLock -> owner s (other t) = Some u -> advances k n s.
Proof.
  intros (_ & _ & Ho & _ & Hk) E Hu. pose proof (proj1 (Ho _ _) Hu) as Hh. specialize (Hk u).
  assert (u = other t) as -> by (destruct u, t; try done; rewrite E in Hh; by destruct k).
  assert (t <> other t) as Hne by (by destruct t).
  assert (Hafter : forall s1 p, moves k n s s1 -> left_over n s1 = left_over n s ->
            owner s1 = <[other t := None]> (owner s) -> at_ s1 = <[other t := p]> (at_ s) -> advances k n s).
  { intros s1 p Hm El Eo Ea. eapply advances_after; [exact Hm|exact El|]. apply (advances_direct _ _ _ t). unfold direct.
    rewrite Ea, Eo, fn_lookup_insert_ne, E by done. by rewrite fn_lookup_insert. }
  assert (Hretry : at_ s (other t) = ARetry -> advances k n s).
  { intros F. destruct (retry_step k n s _ F) as (s1 & Hm & El & _ & _ & Eo & Ea). by apply (Hafter s1 ALock). }
  destruct (at_ s (other t)) eqn:F; try (by destruct k, t); try (by apply (advances_direct _ _ _ (other t)); unfold direct; rewrite F).
  - destruct (Z.eq_dec (value s (other t)) (idx s (other t))) as [Hv|Hv];
      [by apply (advances_direct _ _ _ (other t)); unfold direct; rewrite F|].
    assert (step k n s (other t) = Some (match k with CondVar => go (lock s (other t) None) (other t) Asleep
      | TryLock => go s (other t) ARetry | Atomic => s end)) as Es
      by (unfold step; rewrite F; by rewrite (proj2 (Z.eqb_neq _ _) Hv)).
    destruct k; [|clear Hafter Hretry|done].
    + eapply (Hafter _ Asleep); [by eexists|apply (left_over_stays n s); rewrite F; by destruct t|done|done].
    + eapply advances_after; [by eexists|apply (left_over_stays n s); rewrite F; by destruct t|].
      destruct (retry_step TryLock n (go s (other t) ARetry) (other t)) as (s1 & Hm & El & _ & _ & Eo & Ea);
        [unfold go; cbn; by rewrite fn_lookup_insert|].
      eapply advances_after; [exact Hm|exact El|]. apply (advances_direct _ _ _ t). unfold direct, go in *. cbn in *.
      rewrite Ea, Eo, !fn_lookup_insert_ne, E by done. by rewrite fn_lookup_insert.
  - by apply Hretry.
Qed.

Lemma leads_advances k n s t : good k n s -> leads s t -> advances k n s.
Proof.
  intros Hg H. pose proof Hg as (_ & _ & Ho & Hs & Hk). unfold leads in H. destruct (at_ s t) eqn:E; try done.
  2, 3, 4, 6, 7: by apply (advances_direct _ _ _ t); unfold direct; rewrite E.
  - destruct (owner s (other t)) as [u|] eqn:F; [by eapply advances_blocked|].
    apply (advances_direct _ _ _ t). unfold direct. by rewrite E.
  - destruct (owner s t) as [u|] eqn:F; [|by apply (advances_alock _ _ _ t)].
    apply Ho in F. apply (advances_direct _ _ _ u). unfold direct. specialize (Hk u).
    destruct (decide (u = t)) as [->|Hne]; [rewrite E in F; by destruct k|].
    destruct (at_ s u); try done; destruct k, u, t; done.
  - destruct (retry_step k n s t E) as (s1 & Hm & El & Ev & Ei & Eo & Ea).
    eapply advances_after; [exact Hm|exact El|]. apply (advances_alock _ _ _ t).
    + by rewrite Ea, fn_lookup_insert.
    + by rewrite Ev, Ei.
    + by rewrite Eo, fn_lookup_insert.
  - destruct (Hs t E H) as [F|F]; apply (advances_direct _ _ _ (other t)); unfold direct; by rewrite F.
Qed.

Lemma left_over_nonneg k n s : good k n s -> 0 <= left_over n s.
Proof.
  intros (_ & R & _). pose proof (R Ping). pose proof (R Pong). unfold left_over, work.
  pose proof (weight_bounds Ping (at_ s Ping)). pose proof (weight_bounds Pong (at_ s Pong)). lia.
Qed.

Lemma moves_good k n s s' : good k n s -> rtc (moves k n) s s' -> good k n s'.
Proof. intros Hg. apply rtc_preserves; [|done]. intros a b Ha [t E]. eapply steps_good; [exact Ha|]. by econstructor. Qed.

Lemma final_dec s : Decision (final s).
Proof. unfold final. destruct (at_ s Ping) eqn:E1, (at_ s Pong) eqn:E2; first [by left|by right; intros []]. Defined.

Lemma pingpong_good_finishes k n s : good k n s -> exists s', rtc (moves k n) s s' /\ final s'.
Proof.
  remember (Z.to_nat (left_over n s)) as m eqn:Em. revert s Em.
  induction m as [m IH] using lt_wf_ind. intros s -> Hg.
  destruct (final_dec s) as [Hf|Hf]; [exists s; by split; [apply rtc_refl|]|].
  destruct (somebody_leads k n s Hg Hf) as [t Ht].
  destruct (leads_advances k n s t Hg Ht) as (s1 & Hr & Hl).
  pose proof (moves_good k n s s1 Hg Hr) as Hg1. pose proof (left_over_nonneg k n s1 Hg1).
  destruct (IH (Z.to_nat (left_over n s1)) ltac:(lia) s1 eq_refl Hg1) as (s' & Hr' & Hf').
  exists s'. split; [by etrans|done].
Qed.

(** No program can deadlock or lose a wake-up: from every state that is
    reached the threads can end all their rounds, without a spurious wake-up. *)
Theorem pingpong_never_stuck k n s :
  0 <= n -> rtc (steps k n) (start k n) s -> exists s', rtc (moves k n) s s' /\ final s'.
Proof. intros Hn Hr. apply pingpong_good_finishes. by apply pingpong_reachable_good. Qed.

Lemma pingpong_never_stuck_witness :
  exists s', rtc (moves CondVar 1) (start CondVar 1) s' /\ final s'.
Proof. apply (pingpong_never_stuck CondVar 1 (start CondVar 1)); [lia|apply rtc_refl]. Defined.
