(* ===== verification/Wakeups.v ===== *)
(** * Waiting for a flag

    src/c++/20180310_condition_var/condition_var2.cpp: threads wait on a
    condition variable until a flag is set; [go] sets the flag and notifies them
    all.  The lock in [go] is commented out.  condition_var.cpp waits without a
    flag.  Spurious wake-ups, which could hide a lost one, do not happen here. *)

From Stdlib Require Import ZArith Lia.
From stdpp Require Import base numbers relations list.
From S2P Require Import Prelude.

(** ** Many threads and a flag *)

(** [do_print_id]: the lock, the test of the flag, the call of [wait], asleep,
    and the destructor of the lock. *)
Inductive waiter := WLock | WTest | WCall | WAsleep | WUnlock | WDone.

Inductive signaller := GLock | GSet | GNotify | GUnlock | GDone.

#[export] Instance waiter_eq_dec : EqDecision waiter.
Proof. solve_decision. Defined.

(** The mutex is free, or held by [go], or by a thread. *)
Inductive holder := Free | ByGo | ByThread (i : nat).

Record state := State { ready : bool; mtx : holder; waiters : list waiter; go_at : signaller }.

Section Go.
(** [go] takes the lock. *)
Context (locked : bool).

Definition do_print_id (s : state) (i : nat) : option state :=
  match waiters s !! i with
  | Some WLock => match mtx s with
                  | Free => Some (State (ready s) (ByThread i) (<[i := WTest]> (waiters s)) (go_at s))
                  | _ => None
                  end
  | Some WTest => Some (State (ready s) (mtx s) (<[i := if ready s then WUnlock else WCall]> (waiters s)) (go_at s))
  | Some WCall => Some (State (ready s) Free (<[i := WAsleep]> (waiters s)) (go_at s))
  | Some WUnlock => Some (State (ready s) Free (<[i := WDone]> (waiters s)) (go_at s))
  | _ => None
  end.

(** [notify_all]: the threads that sleep go for the lock. *)
Definition wake (w : waiter) : waiter := match w with WAsleep => WLock | _ => w end.

Definition go (s : state) : option state :=
  match go_at s with
  | GLock => match mtx s with Free => Some (State (ready s) ByGo (waiters s) GSet) | _ => None end
  | GSet => Some (State true (mtx s) (waiters s) GNotify)
  | GNotify => Some (State (ready s) (mtx s) (wake <$> waiters s) (if locked then GUnlock else GDone))
  | GUnlock => Some (State (ready s) Free (waiters s) GDone)
  | GDone => None
  end.

Inductive step (s : state) : state -> Prop :=
  | step_waiter i s' : do_print_id s i = Some s' -> step s s'
  | step_go s' : go s = Some s' -> step s s'.

Definition start (n : nat) : state := State false Free (replicate n WLock) (if locked then GLock else GSet).

(** Every thread can be joined. *)
Definition all_done (s : state) : Prop := go_at s = GDone /\ Forall (fun w => w = WDone) (waiters s).
End Go.

(** ** With the lock *)

Definition inside (w : waiter) : bool := match w with WTest | WCall | WUnlock => true | _ => false end.

Record inv (s : state) : Prop := {
  inv_thread : forall i, mtx s = ByThread i <-> exists w, waiters s !! i = Some w /\ inside w = true;
  inv_go : mtx s = ByGo <-> go_at s = GSet \/ go_at s = GNotify \/ go_at s = GUnlock;
  inv_ready : ready s = true <-> go_at s <> GLock /\ go_at s <> GSet;
  inv_call : ready s = true -> WCall ∉ waiters s;
  inv_asleep : go_at s = GUnlock \/ go_at s = GDone -> WAsleep ∉ waiters s
}.

Lemma insert_not_elem (l : list waiter) i w x : w <> x -> x ∉ l -> x ∉ <[i := w]> l.
Proof.
  intros Hw Hx [j H]%list_elem_of_lookup. apply list_lookup_insert_Some in H as [(_ & H & _)|[_ H]]; [done|].
  apply Hx. eapply list_elem_of_lookup_2. exact H.
Qed.

(** A thread moves within, into or out of the lock. *)
Lemma thread_mutex s m i w w' : (forall j, mtx s = ByThread j <-> exists w, waiters s !! j = Some w /\ inside w = true) ->
  waiters s !! i = Some w -> mtx s = Free \/ mtx s = ByThread i ->
  m = (if inside w' then ByThread i else Free) ->
  forall j, m = ByThread j <-> exists x, <[i := w']> (waiters s) !! j = Some x /\ inside x = true.
Proof.
  intros H Hi Hm -> j. pose proof (lookup_lt_Some _ _ _ Hi) as Hl. destruct (decide (j = i)) as [->|Hj].
  - rewrite list_lookup_insert_eq by exact Hl. destruct (inside w') eqn:E; split; try done; eauto.
    intros (x & [= <-] & Hx). congruence.
  - rewrite list_lookup_insert_ne by congruence. rewrite <- (H j).
    destruct (inside w'); split; intros E; try congruence; destruct Hm; congruence.
Qed.

Lemma waiter_inv s i s' : inv s -> do_print_id s i = Some s' -> inv s'.
Proof.
  intros [T G R C A] E. unfold do_print_id in E. destruct (waiters s !! i) as [w|] eqn:W; [|discriminate].
  assert (Hin : inside w = true -> mtx s = ByThread i) by (intros H; apply T; eauto).
  assert (Hgo : mtx s = ByThread i \/ mtx s = Free -> ~ (go_at s = GSet \/ go_at s = GNotify \/ go_at s = GUnlock))
    by (intros H; rewrite <- G; destruct H; congruence).
  destruct w; try discriminate.
  - destruct (mtx s) eqn:M; try discriminate. injection E as <-. constructor; cbn [mtx waiters ready go_at]; auto.
    + eapply thread_mutex; [rewrite M; exact T|exact W|auto|reflexivity].
    + split; [discriminate|]. intros H. destruct Hgo; auto.
    + intros H. apply insert_not_elem; [done|auto].
    + intros H. apply insert_not_elem; [done|auto].
  - specialize (Hin eq_refl). injection E as <-. constructor; cbn [mtx waiters ready go_at]; auto.
    + eapply thread_mutex; [exact T|exact W|auto|]. rewrite Hin. destruct (ready s); reflexivity.
    + intros H. rewrite H. apply insert_not_elem; [done|auto].
    + intros H. apply insert_not_elem; [destruct (ready s); done|auto].
  - specialize (Hin eq_refl). injection E as <-.
    assert (Hr : ready s = true -> False) by (intros H; apply (C H); eapply list_elem_of_lookup_2; exact W).
    constructor; cbn [mtx waiters ready go_at]; auto.
    + eapply thread_mutex; [exact T|exact W|auto|reflexivity].
    + split; [discriminate|]. intros H. destruct Hgo; auto.
    + intros H. destruct Hr. apply R. destruct H; split; congruence.
  - specialize (Hin eq_refl). injection E as <-. constructor; cbn [mtx waiters ready go_at]; auto.
    + eapply thread_mutex; [exact T|exact W|auto|reflexivity].
    + split; [discriminate|]. intros H. destruct Hgo; auto.
    + intros H. apply insert_not_elem; [done|auto].
    + intros H. apply insert_not_elem; [done|auto].
Qed.

Lemma woken_lookup (l : list waiter) (i : nat) w : (wake <$> l) !! i = Some w -> exists x, l !! i = Some x /\ w = wake x.
Proof. rewrite list_lookup_fmap. destruct (l !! i); intros [= <-]; eauto. Qed.

Lemma go_inv s s' : inv s -> go true s = Some s' -> inv s'.
Proof.
  intros [T G R C A] E. unfold go in E. destruct (go_at s) eqn:Eg; try discriminate.
  - destruct (mtx s) eqn:M; try discriminate. injection E as <-. constructor; cbn [mtx waiters ready go_at].
    + intros i. rewrite <- T. split; discriminate.
    + tauto.
    + rewrite R. split; intros []; congruence.
    + exact C.
    + intros []; discriminate.
  - assert (M : mtx s = ByGo) by tauto. injection E as <-. constructor; cbn [mtx waiters ready go_at]; auto.
    + rewrite M. tauto.
    + split; [split; discriminate|reflexivity].
    + intros _ [i H]%list_elem_of_lookup. assert (X : mtx s = ByThread i) by (apply T; eauto). congruence.
    + intros []; discriminate.
  - assert (M : mtx s = ByGo) by tauto. injection E as <-. constructor; cbn [mtx waiters ready go_at].
    + intros i. rewrite T. split; intros (w & Hw & Hi).
      * exists (wake w). rewrite list_lookup_fmap, Hw. split; [reflexivity|destruct w; done].
      * apply woken_lookup in Hw as (x & Hx & ->). exists x. split; [exact Hx|destruct x; done].
    + rewrite M. tauto.
    + rewrite R. split; intros _; split; discriminate.
    + intros H [i (x & Hx & Ex)%woken_lookup]%list_elem_of_lookup. destruct x; try discriminate.
      apply (C H). eapply list_elem_of_lookup_2. exact Hx.
    + intros _ [i (x & Hx & Ex)%woken_lookup]%list_elem_of_lookup. destruct x; discriminate.
  - assert (M : mtx s = ByGo) by tauto. injection E as <-. constructor; cbn [mtx waiters ready go_at]; auto.
    + intros i. rewrite <- T, M. split; discriminate.
    + split; [discriminate|intros [|[|]]; discriminate].
    + rewrite R. split; intros _; split; discriminate.
Qed.

Lemma start_inv_go n : inv (start true n).
Proof.
  constructor; cbn.
  - intros i. split; [discriminate|]. intros (w & [-> _]%lookup_replicate & H). discriminate.
  - split; [discriminate|intros [|[|]]; discriminate].
  - split; [discriminate|]. intros [H _]. done.
  - discriminate.
  - intros []; discriminate.
Qed.

(** A thread that is not asleep and has not ended can move, or waits for the lock. *)
Lemma waiter_moves s i w : waiters s !! i = Some w -> w <> WAsleep -> w <> WDone -> mtx s = Free \/ inside w = true ->
  exists s', do_print_id s i = Some s'.
Proof.
  intros W H1 H2 Hm. unfold do_print_id. rewrite W. destruct w; eauto; try done.
  destruct Hm as [->|]; [eauto|discriminate].
Qed.

(** ** Without the lock *)

(** The first thread tests the flag, [go] sets it and notifies nobody, and the
    thread goes to sleep. *)
Definition lost (n : nat) : state := State true Free (WAsleep :: replicate n WLock) GDone.

Lemma lost_reachable n : rtc (step false) (start false (S n)) (lost n).
Proof.
  eapply rtc_l; [apply (step_waiter _ _ 0); reflexivity|].
  eapply rtc_l; [apply (step_waiter _ _ 0); reflexivity|].
  eapply rtc_l; [apply step_go; reflexivity|].
  eapply rtc_l; [apply step_go; reflexivity|].
  eapply rtc_l; [apply (step_waiter _ _ 0); reflexivity|]. cbn.
  replace (wake <$> replicate n WLock) with (replicate n WLock) by (rewrite fmap_replicate; reflexivity). apply rtc_refl.
Qed.

(** The flag of condition_var2.cpp: if [go] held the lock, no thread would
    sleep once [go] has ended, and until all the threads have ended one of them
    could take a step; without the lock, as the code is, a thread that has just
    tested the flag sleeps for ever. *)
Theorem go_needs_the_lock locked :
  (forall n s, rtc (step locked) (start locked n) s ->
     (go_at s = GDone -> WAsleep ∉ waiters s) /\ (all_done s \/ exists s', step locked s s')) <-> locked = true.
Proof.
  split.
  - intros H. destruct locked; [reflexivity|]. destruct (H 1%nat _ (lost_reachable 0)) as [H1 _].
    destruct (H1 eq_refl). left.
  - intros -> n s Hr. assert (Hi : inv s).
    { revert Hr. apply rtc_preserves; [|apply start_inv_go]. intros a b Ha [i b' E|b' E]; [eapply waiter_inv|eapply go_inv]; eassumption. }
    split; [intros Hg; apply Hi; auto|]. pose proof Hi as [T G R C A].
    assert (Hgo : go_at s <> GDone -> go_at s <> GLock \/ mtx s = Free -> exists s', step true s s').
    { intros H1 H2. destruct (go_at s) eqn:E; try done;
        try (eexists; apply step_go; unfold go; rewrite E; reflexivity).
      destruct H2 as [|H2]; [done|]. eexists. apply step_go. unfold go. rewrite E, H2. reflexivity. }
    destruct (mtx s) as [| |i] eqn:M.
    + destruct (decide (Forall (fun w => w = WDone) (waiters s))) as [Hd|Hd].
      * destruct (go_at s) eqn:Eg; [right; apply Hgo; auto; discriminate..|left; split; assumption].
      * destruct (go_at s) eqn:Eg; [right; apply Hgo; auto; discriminate..|]. right.
        apply not_Forall_Exists in Hd; [|intros w; apply _]. apply Exists_exists in Hd as (w & [i Hw]%list_elem_of_lookup & Hne).
        destruct (waiter_moves s i w Hw) as [s' Hs']; [|exact Hne|auto|exists s'; eapply step_waiter; exact Hs'].
        intros ->. apply A; [auto|]. eapply list_elem_of_lookup_2. exact Hw.
    + right. assert (go_at s = GSet \/ go_at s = GNotify \/ go_at s = GUnlock) by tauto. apply Hgo; [|left]; intuition congruence.
    + right. destruct (proj1 (T i) eq_refl) as (w & Hw & Hin).
      destruct (waiter_moves s i w Hw) as [s' Hs']; [destruct w; done..|auto|exists s'; eapply step_waiter; exact Hs'].
Qed.

(** ** No flag at all *)

(** condition_var.cpp: [worker_thread] waits without a condition, sets
    [processed] and notifies; [main] notifies once and waits for [processed]. *)
Module NoFlag.

Inductive worker := KLock | KCall | KAsleep | KRelock | KSet | KUnlock | KNotify | KDone.
Inductive main_pc := MNotify | MLock | MTest | MCall | MAsleep | MUnlock | MDone.

Record state := State { processed : bool; taken : bool; worker_at : worker; main_at : main_pc }.

Definition wake_worker (w : worker) : worker := match w with KAsleep => KRelock | _ => w end.
Definition wake_main (m : main_pc) : main_pc := match m with MAsleep => MLock | _ => m end.

Definition worker_thread (s : state) : option state :=
  match worker_at s with
  | KLock => if taken s then None else Some (State (processed s) true KCall (main_at s))
  | KCall => Some (State (processed s) false KAsleep (main_at s))
  | KAsleep => None
  | KRelock => if taken s then None else Some (State (processed s) true KSet (main_at s))
  | KSet => Some (State true (taken s) KUnlock (main_at s))
  | KUnlock => Some (State (processed s) false KNotify (main_at s))
  | KNotify => Some (State (processed s) (taken s) KDone (wake_main (main_at s)))
  | KDone => None
  end.

(** One of the threads that wait is woken up; [main] does not wait when it notifies. *)
Definition main (s : state) : option state :=
  match main_at s with
  | MNotify => Some (State (processed s) (taken s) (wake_worker (worker_at s)) MLock)
  | MLock => if taken s then None else Some (State (processed s) true (worker_at s) MTest)
  | MTest => Some (State (processed s) (taken s) (worker_at s) (if processed s then MUnlock else MCall))
  | MCall => Some (State (processed s) false (worker_at s) MAsleep)
  | MAsleep => None
  | MUnlock => Some (State (processed s) false (worker_at s) MDone)
  | MDone => None
  end.

Definition start : state := State false false KLock MNotify.

Fixpoint run (s : state) (l : list bool) : option state :=
  match l with [] => Some s | b :: l => s' ← (if b : bool then main s else worker_thread s); run s' l end.

(** If the worker waits first both threads end; if [main] is faster than the
    worker both sleep for ever. *)
Example order_matters :
  (s ← run start [false; false; true; false; false; false; false; true; true; true]; Some (worker_at s, main_at s)) = Some (KDone, MDone) /\
  (s ← run start [true; false; false; true; true; true]; Some (worker_at s, main_at s, worker_thread s, main s)) =
    Some (KAsleep, MAsleep, None, None).
Proof. split; reflexivity. Qed.

End NoFlag.
