(* ===== verification/EchoServer.v ===== *)
(** * Echo servers and the tee to a pipe

    The loops of src/c/20140406_tcp_echo_block/tcp_echo_server.c and
    tcp_echo_server_epoll.c, and of src/c/20210927-fifo/ftee.c.  What the system
    calls return is an argument: the chunks that [read] delivers and the counts
    that [write] reports.  [Module Epoll] has the server of many clients, whose
    handlers share one buffer. *)

From Stdlib Require Import ZArith Lia.
From stdpp Require Import base numbers relations list.
From S2P Require Import Prelude.

Open Scope Z_scope.

(** ** The blocking server *)

Definition echo_buf_size : Z := 64.

(** The loop of [main]: [reads] are the results of [read], [None] an error and
    the empty chunk the end of the stream; [writes] the results of [write].  The
    status is [None] while the server waits for the next chunk. *)
Fixpoint echo (reads : list (option (list Z))) (writes : list Z) (sent : list Z) : outcome (option Z * list Z) :=
  match reads with
  | [] => Ret (None, sent)
  | None :: _ => Ret (Some (-1), sent)
  | Some chunk :: reads =>
      let ret := zlen chunk in
      if ret =? 0 then Ret (Some 0, sent)
      else if echo_buf_size <=? ret then Undef OutOfBounds (* buf[ret] = 0 *)
      else match writes with
           | [] => Ret (None, sent)
           | w :: writes =>
               if w <? 0 then Ret (Some (-1), sent)
               else
                 let sent := sent ++ take (Z.to_nat w) chunk in
                 if negb (w =? ret) then Ret (Some (-1), sent) else echo reads writes sent
           end
  end.

Lemma echo_complete chunks : forall sent rest ws,
  Forall (fun c => 0 < zlen c < echo_buf_size) chunks ->
  echo ((Some <$> chunks) ++ rest) ((zlen <$> chunks) ++ ws) sent = echo rest ws (sent ++ mjoin chunks).
Proof.
  induction chunks as [|c cs IH]; intros sent rest ws H; [by rewrite app_nil_r|].
  apply Forall_cons in H as [Hc H]. simpl.
  destruct (Z.eqb_spec (zlen c) 0); [lia|]. destruct (Z.leb_spec echo_buf_size (zlen c)); [lia|].
  destruct (Z.ltb_spec (zlen c) 0); [lia|]. rewrite Z.eqb_refl. simpl.
  rewrite take_ge by (unfold zlen; lia). rewrite IH by done. by rewrite <- app_assoc.
Qed.

Lemma echo_overflow chunks rest : forall sent,
  Forall (fun c => 0 < zlen c <= echo_buf_size) chunks ->
  forallb (fun c => zlen c <? echo_buf_size) chunks = false ->
  echo ((Some <$> chunks) ++ rest) (zlen <$> chunks) sent = Undef OutOfBounds.
Proof.
  induction chunks as [|c cs IH]; intros sent H E; [done|].
  apply Forall_cons in H as [Hc H]. simpl in E |- *.
  destruct (Z.eqb_spec (zlen c) 0); [lia|].
  destruct (Z.leb_spec echo_buf_size (zlen c)); [done|].
  destruct (Z.ltb_spec (zlen c) echo_buf_size); [simpl in E|lia].
  destruct (Z.ltb_spec (zlen c) 0); [lia|]. rewrite Z.eqb_refl. by apply IH.
Qed.

(** When every write takes all it is given, the blocking server sends
    back exactly what it received, and returns 0 at the end of the stream, if
    and only if no read filled the buffer; a read of 64 bytes stores the
    terminator behind the array. *)
Theorem echo_correct chunks :
  Forall (fun c => 0 < zlen c <= echo_buf_size) chunks ->
  echo ((Some <$> chunks) ++ [Some []]) (zlen <$> chunks) [] =
    if forallb (fun c => zlen c <? echo_buf_size) chunks then Ret (Some 0, mjoin chunks) else Undef OutOfBounds.
Proof.
  intros H. destruct (forallb _ chunks) eqn:E.
  - pose proof (echo_complete chunks [] [Some []] []) as L. rewrite app_nil_r in L. rewrite L; [done|].
    apply Forall_forall. intros c Hc. rewrite Forall_forall in H. specialize (H c Hc).
    rewrite forallb_forall in E. specialize (E c (proj1 (list_elem_of_In _ _) Hc)). lia.
  - by apply echo_overflow.
Qed.

Lemma echo_correct_witness :
  echo [Some [104; 105]; Some [33]; Some []] [2; 1] [] = Ret (Some 0, [104; 105; 33]).
Proof. apply (echo_correct [[104; 105]; [33]]). repeat constructor; vm_compute; done. Defined.

(** ** Tee to a pipe *)

(** The loop of [main] in ftee.c.  Each round has what [read] delivered, [None]
    for an interrupted call and the empty chunk for the end of the input or
    another error, and the results of the two writes.  The count
    of the second write is the result of the first: after a failure it is
    [(size_t)-1], and the write reads behind the buffer. *)
Record round := Round { got : option (list Z); to_stdout : Z; to_fifo : Z }.

Fixpoint ftee (rounds : list round) (out fifo : list Z) : outcome (list Z * list Z) :=
  match rounds with
  | [] => Ret (out, fifo)
  | Round None _ _ :: rounds => ftee rounds out fifo
  | Round (Some buffer) w1 w2 :: rounds =>
      if zlen buffer =? 0 then Ret (out, fifo)
      else if w1 =? -1 then Undef OutOfBounds
      else
        let part := take (Z.to_nat w1) buffer in
        ftee rounds (out ++ part) (if w2 =? -1 then fifo else fifo ++ take (Z.to_nat w2) part)
  end.

(** What the standard output and the pipe took of a round. *)
Definition out_part (r : round) : list Z := take (Z.to_nat (to_stdout r)) (default [] (got r)).
Definition fifo_part (r : round) : list Z :=
  if to_fifo r =? -1 then [] else take (Z.to_nat (to_fifo r)) (out_part r).

Definition interrupted (r : round) : bool := match got r with None => true | Some _ => false end.
Definition last_round (r : round) : bool := match got r with Some [] => true | _ => false end.

Lemma ftee_app rounds rest : forall out fifo,
  Forall (fun r => last_round r = false) rounds ->
  Forall (fun r => interrupted r = true \/ to_stdout r <> -1) rounds ->
  ftee (rounds ++ rest) out fifo =
    ftee rest (out ++ mjoin (out_part <$> rounds)) (fifo ++ mjoin (fifo_part <$> rounds)).
Proof.
  induction rounds as [|[[b|] w1 w2] rs IH]; intros out fifo H1 H2; simpl; [by rewrite !app_nil_r| |];
    apply Forall_cons in H1 as [E1 H1]; apply Forall_cons in H2 as [E2 H2].
  - destruct E2 as [?|E2]; [done|]. simpl in E2. destruct b as [|x b]; [done|].
    destruct (Z.eqb_spec (zlen (x :: b)) 0) as [E|_]; [unfold zlen in E; simpl in E; lia|].
    destruct (Z.eqb_spec w1 (-1)); [done|]. rewrite IH by done.
    unfold fifo_part, out_part. simpl. destruct (w2 =? -1); by rewrite <- ?app_assoc.
  - rewrite IH by done. unfold fifo_part, out_part. simpl. rewrite !take_nil.
    by destruct (w2 =? -1).
Qed.

Lemma ftee_stdout_error rounds rest : forall out fifo,
  Forall (fun r => last_round r = false) rounds ->
  forallb (fun r => interrupted r || negb (to_stdout r =? -1)) rounds = false ->
  ftee (rounds ++ rest) out fifo = Undef OutOfBounds.
Proof.
  induction rounds as [|[[b|] w1 w2] rs IH]; intros out fifo H E; simpl in *; [done| |];
    apply Forall_cons in H as [E1 H].
  - destruct b as [|x b]; [done|].
    destruct (Z.eqb_spec (zlen (x :: b)) 0) as [E0|_]; [unfold zlen in E0; simpl in E0; lia|].
    destruct (w1 =? -1); [done|]. by apply IH.
  - by apply IH.
Qed.

(** The standard output gets of every chunk what its write took, and the
    pipe a prefix of that, even when the write to the pipe fails; a failed
    write to the standard output makes the program read behind its buffer. *)
Theorem ftee_correct rounds eof rest :
  Forall (fun r => last_round r = false) rounds -> last_round eof = true ->
  ftee (rounds ++ eof :: rest) [] [] =
    if forallb (fun r => interrupted r || negb (to_stdout r =? -1)) rounds
    then Ret (mjoin (out_part <$> rounds), mjoin (fifo_part <$> rounds))
    else Undef OutOfBounds.
Proof.
  intros H Heof. destruct (forallb _ rounds) eqn:E.
  - rewrite ftee_app; [|done|].
    + destruct eof as [[[|]|] ? ?]; done.
    + apply Forall_forall. intros r Hr. rewrite forallb_forall in E.
      specialize (E r (proj1 (list_elem_of_In _ _) Hr)).
      apply orb_true_iff in E as [E|E]; [by left|right]. by apply negb_true_iff, Z.eqb_neq in E.
  - by apply ftee_stdout_error.
Qed.

Lemma ftee_correct_witness :
  ftee [Round (Some [1; 2; 3]) 3 (-1); Round None 0 0; Round (Some [4; 5]) 1 1; Round (Some []) 0 0] [] [] =
    Ret ([1; 2; 3; 4], [4]).
Proof.
  apply (ftee_correct [Round (Some [1; 2; 3]) 3 (-1); Round None 0 0; Round (Some [4; 5]) 1 1] (Round (Some []) 0 0) []).
  - by repeat constructor.
  - done.
Defined.

(** ** The server of many clients *)

Module Epoll.













(** *** One client at a time *)





























End Epoll.
