(* ===== verification/Samples.v ===== *)
(** * Small programs

    Programs of a page each that compute something: the primes of
    src/c++/20180903_compile_time_prime, the spiral of
    src/c++/20210903-matrix-recur, the lines of src/c++/20220916-readline, the
    keys of src/c++/20220801-keyboard_control and the function under test of
    src/c/20190215_libfuzz. *)

From Stdlib Require Import ZArith Znumtheory Lia.
From stdpp Require Import base numbers list.
From S2P Require Import Prelude Files.

Open Scope Z_scope.

(** ** Primes at compile time *)

(** [Prime2<number, i>]: the specialisation for [i = 1], and no instance for 0,
    where [number % 0] does not compile. *)
Fixpoint Prime2 (number : Z) (i : nat) : option bool :=
  match i with
  | O => None
  | S O => Some true
  | S i' => if number mod Z.of_nat i =? 0 then Some false else Prime2 number i'
  end.

Definition Prime (number : Z) : option bool := Prime2 number (Z.to_nat (number - 1)).

Lemma Prime2_spec number i : (0 < i)%nat ->
  exists b, Prime2 number i = Some b /\
    (b = true <-> forall d, 2 <= d <= Z.of_nat i -> ~ (d | number)).
Proof.
  induction i as [|i IH]; intros Hi; [lia|]. destruct i as [|i].
  - exists true. split; [reflexivity|]. split; [lia|done].
  - destruct IH as (b & E & Hb); [lia|].
    change (Prime2 number (S (S i))) with
      (if number mod Z.of_nat (S (S i)) =? 0 then Some false else Prime2 number (S i)).
    destruct (Z.eqb_spec (number mod Z.of_nat (S (S i))) 0) as [H0|H0].
    + exists false. split; [reflexivity|]. split; [done|]. intros H. exfalso.
      apply (H (Z.of_nat (S (S i)))); [lia|]. apply Z.mod_divide; lia.
    + exists b. split; [exact E|]. rewrite Hb. split; intros H d Hd.
      * destruct (decide (d = Z.of_nat (S (S i)))) as [->|]; [|apply H; lia]. intros Hdiv. apply H0, Z.mod_divide; [lia|exact Hdiv].
      * apply H. lia.
Qed.

(** [Prime<n>::isPrime] exists for every [n] above 1 and says whether [n] is prime. *)
Theorem Prime_correct n : 2 <= n -> exists b, Prime n = Some b /\ (b = true <-> prime n).
Proof.
  intros Hn. destruct (Prime2_spec n (Z.to_nat (n - 1))) as (b & E & Hb); [lia|]. exists b. split; [exact E|].
  rewrite Hb, Z2Nat.id by lia. split.
  - intros H. apply prime_alt. split; [lia|]. intros d Hd. apply H. lia.
  - intros H d Hd Hdiv. apply prime_alt in H as [_ H]. apply (H d); [lia|exact Hdiv].
Qed.

Lemma Prime_correct_witness : exists b, Prime 7 = Some b /\ (b = true <-> prime 7).
Proof. apply (Prime_correct 7). lia. Defined.

(** ** Lines *)

(** The loop of [readline] from position [i] of the buffer, with [more] bytes of
    it left: the line or nothing, the rest of the file and the static buffer. *)
Fixpoint readline_from (more : nat) (i : Z) (file buf : list Z) : outcome (option (list Z) * list Z * list Z) :=
  match more with
  | O => buf ← vset buf 1023 0; Ret (Some (c_string buf), file, buf)
  | S more =>
      match file with
      | [] =>
          if i =? 0 then Ret (None, file, buf)
          else buf ← vset buf i 0; Ret (Some (c_string buf), file, buf)
      | c :: file =>
          buf ← vset buf i c;
          if c =? 10 then buf ← vset buf i 0; Ret (Some (c_string buf), file, buf)
          else readline_from more (i + 1) file buf
      end
  end.

Definition readline (file buf : list Z) : outcome (option (list Z) * list Z * list Z) :=
  readline_from 1024 0 file buf.

(** The loop of [main]: the lines that it prints. *)
Fixpoint read_lines (fuel : nat) (file buf : list Z) : outcome (list (list Z)) :=
  match fuel with
  | O => NoFuel
  | S fuel =>
      r ← readline file buf;
      match r with
      | (Some l, file, buf) => ls ← read_lines fuel file buf; Ret (l :: ls)
      | (None, _, _) => Ret []
      end
  end.

Lemma c_string_take buf i : (i < length buf)%nat -> Forall (fun c => c <> 0) (take i buf) -> buf !! i = Some 0 ->
  c_string buf = take i buf.
Proof.
  revert i. induction buf as [|c buf IH]; intros i Hi Hz H0; [cbn in Hi; lia|]. destruct i as [|i].
  - injection H0 as ->. reflexivity.
  - cbn [take] in *. apply Forall_cons in Hz as [Hc Hz]. cbn. destruct (Z.eqb_spec c 0); [done|]. f_equal.
    apply IH; [cbn in Hi; lia|exact Hz|exact H0].
Qed.

(** A line that fits. *)
Lemma readline_line l : forall more i file buf,
  Forall (fun c => c <> 0 /\ c <> 10) l -> (i + length l < 1024)%nat -> (more = 1024 - i)%nat -> length buf = 1024%nat ->
  Forall (fun c => c <> 0) (take i buf) ->
  exists buf', readline_from more (Z.of_nat i) (l ++ 10 :: file) buf = Ret (Some (take i buf ++ l), file, buf') /\
    length buf' = 1024%nat.
Proof.
  induction l as [|c l IH]; intros more i file buf Hl Hi Hle Hb Hz; cbn [length] in Hi;
    (destruct more as [|more]; [lia|]); cbn [readline_from app]; rewrite vset_in_range by (unfold zlen; lia); bind_ret; rewrite Nat2Z.id.
  - change (10 =? 10) with true. cbn iota. rewrite vset_in_range by (unfold zlen; rewrite length_insert; lia). bind_ret.
    rewrite Nat2Z.id, list_insert_insert_eq. eexists. split; [|rewrite length_insert; exact Hb]. do 4 f_equal.
    rewrite app_nil_r. rewrite (c_string_take _ i).
    + apply take_insert_ge. lia.
    + rewrite length_insert. lia.
    + rewrite take_insert_ge by lia. exact Hz.
    + apply list_lookup_insert_eq. lia.
  - apply Forall_cons in Hl as [[H0 H10] Hl]. rewrite (proj2 (Z.eqb_neq c 10)) by exact H10.
    replace (Z.of_nat i + 1) with (Z.of_nat (S i)) by lia.
    destruct (IH more (S i) file (<[i := c]> buf)) as (buf' & E & Hb'); [exact Hl|lia|lia|rewrite length_insert; exact Hb| |].
    + rewrite take_insert_next by lia. apply Forall_app. split; [exact Hz|]. constructor; [exact H0|constructor].
    + exists buf'. rewrite E, take_insert_next by lia. rewrite <- app_assoc. split; [reflexivity|exact Hb'].
Qed.

(** The program prints the lines of a file, each once and in order, if they
    have less than 1024 characters and no NUL, whatever the buffer holds. *)
Theorem read_lines_correct ls buf :
  length buf = 1024%nat -> Forall (fun l => (length l < 1024)%nat /\ Forall (fun c => c <> 0 /\ c <> 10) l) ls ->
  read_lines (S (length ls)) (flat_map (fun l => l ++ [10]) ls) buf = Ret ls.
Proof.
  intros Hb Hls. revert buf Hb. induction Hls as [|l ls [Hl Hc] _ IH]; intros buf Hb; [reflexivity|].
  change (length (l :: ls)) with (S (length ls)). remember (S (length ls)) as m. cbn [read_lines flat_map]. unfold readline. rewrite <- app_assoc. cbn [app].
  destruct (readline_line l 1024 0 (flat_map (fun l => l ++ [10]) ls) buf Hc) as (buf' & E & Hb'); [lia|lia|exact Hb|constructor|].
  change (Z.of_nat 0) with 0 in E. rewrite E. bind_ret. rewrite IH by exact Hb'. reflexivity.
Qed.

Lemma read_lines_correct_witness :
  read_lines 3 [104; 105; 10; 10] (replicate 1024 7) = Ret [[104; 105]; []].
Proof.
  apply (read_lines_correct [[104; 105]; []] (replicate 1024 7)); [reflexivity|].
  repeat constructor; cbn; lia.
Defined.

(** A line of 1024 characters loses its last one. *)
Example long_line :
  match readline (replicate 1024 97 ++ [10]) (replicate 1024 0) with
  | Ret (Some l, _, _) => l = replicate 1023 97
  | _ => False
  end.
Proof. vm_compute. reflexivity. Qed.

(** ** The spiral *)

Definition MAX : Z := 10.

(** The matrix, the position and the number. *)
Record spiral_state := Spiral { cells : list (list Z); px : Z; py : Z; number : Z }.

Definition get2 (a : list (list Z)) (x y : Z) : outcome Z := row ← vget a x; vget row y.
Definition set2 (a : list (list Z)) (x y v : Z) : outcome (list (list Z)) :=
  row ← vget a x; row ← vset row y v; vset a x row.

(** One of the four inner loops, with the direction in which it goes. *)
Definition arm_step (n dx dy : Z) (s : spiral_state) : outcome (control spiral_state spiral_state) :=
  let x := px s + dx in let y := py s + dy in
  if (if dx =? 1 then x <? n else if dx =? -1 then 0 <=? x else if dy =? 1 then y <? n else 0 <=? y) then
    v ← get2 (cells s) x y;
    if v =? 0 then a ← set2 (cells s) x y (number s - 1); Ret (Continue (Spiral a x y (number s - 1)))
    else Ret (Break s)
  else Ret (Break s).

Definition turn (n : Z) (s : spiral_state) : outcome (control spiral_state spiral_state) :=
  if number s =? 1 then Ret (Break s)
  else
    s ← while_loop 11 (arm_step n 1 0) s;
    s ← while_loop 11 (arm_step n 0 1) s;
    s ← while_loop 11 (arm_step n (-1) 0) s;
    s ← while_loop 11 (arm_step n 0 (-1)) s;
    Ret (Continue s).

Definition spiral (n : Z) : outcome (list (list Z)) :=
  let a := replicate (Z.to_nat MAX) (replicate (Z.to_nat MAX) 0) in
  a ← set2 a 0 0 (n * n);
  s ← while_loop 11 (turn n) (Spiral a 0 0 (n * n));
  Ret (cells s).

(** The numbers in the first [n] rows and columns. *)
Definition square (n : Z) (a : list (list Z)) : list Z := mjoin (take (Z.to_nat n) <$> take (Z.to_nat n) a).

Definition written_cells (a : list (list Z)) : list Z := filter (fun v => v <> 0) (mjoin a).

(** Every number from 1 to [n * n] is in the square, which has as many places,
    and every other cell is still zero. *)
Definition spiral_ok (n : Z) : bool :=
  match spiral n with
  | Ret a =>
      forallb (fun k => bool_decide (Z.of_nat k ∈ square n a)) (seq 1 (Z.to_nat (n * n))) &&
      (length (square n a) =? Z.to_nat (n * n))%nat &&
      (length (written_cells a) =? Z.to_nat (n * n))%nat
  | _ => false
  end.

Lemma spiral_checked : forallb (fun n => spiral_ok (Z.of_nat n)) (seq 1 10) = true.
Proof. vm_compute. reflexivity. Qed.

(** For every size that the matrix allows the spiral program ends, stays
    inside the matrix, and writes every number from 1 to n * n exactly once. *)
Theorem spiral_fills n : 1 <= n <= MAX ->
  exists a, spiral n = Ret a /\ (forall k, 1 <= k <= n * n -> k ∈ square n a) /\
    length (square n a) = Z.to_nat (n * n) /\ length (written_cells a) = Z.to_nat (n * n).
Proof.
  unfold MAX. intros Hn. pose proof spiral_checked as H. rewrite forallb_forall in H.
  specialize (H (Z.to_nat n)). rewrite Z2Nat.id in H by lia. specialize (H ltac:(apply in_seq; lia)).
  unfold spiral_ok in H. destruct (spiral n) as [a| | |]; try discriminate. exists a. split; [reflexivity|].
  rewrite !andb_true_iff, !Nat.eqb_eq, forallb_forall in H. destruct H as [[H1 H2] H3]. split; [|auto].
  intros k Hk. specialize (H1 (Z.to_nat k) ltac:(apply in_seq; lia)). rewrite Z2Nat.id in H1 by lia.
  apply bool_decide_eq_true in H1. exact H1.
Qed.

Lemma spiral_fills_witness : exists a, spiral 3 = Ret a /\ (forall k, 1 <= k <= 3 * 3 -> k ∈ square 3 a) /\
  length (square 3 a) = 9%nat /\ length (written_cells a) = 9%nat.
Proof. apply (spiral_fills 3). unfold MAX. lia. Defined.

Example spiral_3 : (a ← spiral 3; Ret (square 3 a)) = Ret [9; 2; 3; 8; 1; 4; 7; 6; 5].
Proof. vm_compute. reflexivity. Qed.

(** ** The keys *)

Record drive := Drive { target_speed : Z; wheel_angle : Z }.

Definition kTargetSpeedMax : Z := 5.
Definition kTargetSpeedMin : Z := -5.
Definition kWheelAngleMax : Z := 5.
Definition kWheelAngleMin : Z := -5.

(** One key; [None] where the program goes on without a line of output. *)
Definition press (d : drive) (ch : Z) : option drive :=
  if (ch =? 119) || (ch =? 65) then
    Some (Drive (if target_speed d <? kTargetSpeedMax then target_speed d + 1 else target_speed d) (wheel_angle d))
  else if (ch =? 115) || (ch =? 66) then
    Some (Drive (if kTargetSpeedMin <? target_speed d then target_speed d - 1 else target_speed d) (wheel_angle d))
  else if (ch =? 97) || (ch =? 68) then
    Some (Drive (target_speed d) (if kWheelAngleMin <? wheel_angle d then wheel_angle d - 1 else wheel_angle d))
  else if (ch =? 100) || (ch =? 67) then
    Some (Drive (target_speed d) (if wheel_angle d <? kWheelAngleMax then wheel_angle d + 1 else wheel_angle d))
  else None.

(** The loop over the keys: the lines that are printed. *)
Fixpoint keys (d : drive) (l : list Z) : drive * list drive :=
  match l with
  | [] => (d, [])
  | ch :: l =>
      match press d ch with
      | None => keys d l
      | Some d => let '(d', out) := keys d l in (d', d :: out)
      end
  end.

Definition within (d : drive) : Prop :=
  kTargetSpeedMin <= target_speed d <= kTargetSpeedMax /\ kWheelAngleMin <= wheel_angle d <= kWheelAngleMax.

Lemma press_within d ch d' : within d -> press d ch = Some d' -> within d' /\
  Z.abs (target_speed d' - target_speed d) + Z.abs (wheel_angle d' - wheel_angle d) <= 1.
Proof.
  unfold within, press, kTargetSpeedMax, kTargetSpeedMin, kWheelAngleMax, kWheelAngleMin. intros H E.
  repeat match type of E with (if ?b then _ else _) = _ => destruct b end; simplify_eq; cbn;
    match goal with |- context [?a <? ?b] => destruct (Z.ltb_spec a b) end; lia.
Qed.

(** Whatever keys are pressed, speed and angle stay within their limits,
    and a line is printed for each key that means something. *)
Theorem keys_within l :
  within (keys (Drive 0 0) l).1 /\ Forall within (keys (Drive 0 0) l).2 /\
  length (keys (Drive 0 0) l).2 = length (filter (fun ch => ch ∈ [119; 65; 115; 66; 97; 68; 100; 67]) l).
Proof.
  assert (H0 : within (Drive 0 0)) by (unfold within; cbn; unfold kTargetSpeedMin, kTargetSpeedMax, kWheelAngleMin, kWheelAngleMax; lia).
  revert H0. generalize (Drive 0 0). induction l as [|ch l IH]; intros d Hd; [repeat split; try apply Hd; constructor|].
  cbn [keys]. destruct (press d ch) as [d'|] eqn:E.
  - apply (press_within d ch d' Hd) in E as Hp. destruct Hp as [Hd' _]. specialize (IH d' Hd').
    destruct (keys d' l) as [d2 out]. destruct IH as (H1 & H2 & H3). cbn [fst snd] in *.
    split; [exact H1|]. split; [constructor; assumption|]. rewrite filter_cons_True; [cbn [length]; congruence|].
    unfold press in E. repeat match type of E with (if (?a =? ?b) || (?c =? ?e) then _ else _) = _ =>
      destruct (Z.eqb_spec a b) as [->|?]; [in_list|destruct (Z.eqb_spec c e) as [->|?]; [in_list|cbn [orb] in E]] end. discriminate.
  - destruct (IH d Hd) as (H1 & H2 & H3). split; [exact H1|]. split; [exact H2|]. rewrite filter_cons_False; [exact H3|].
    intros Hin. each_copy Hin; discriminate E.
Qed.

(** ** The function under test *)

Definition VulnerableFunction1 (data : list Z) (size : Z) : outcome Z :=
  if 3 <=? size then
    a ← vget data 0; if negb (a =? 70) then Ret 0 else
    b ← vget data 1; if negb (b =? 85) then Ret 0 else
    c ← vget data 2; if negb (c =? 90) then Ret 0 else
    d ← vget data 3; Ret (if d =? 90 then 1 else 0)
  else Ret 0.

(** The function reads outside its argument on the input FUZ and on no
    other; otherwise it says whether the data start with FUZZ. *)
Theorem vulnerable_on_FUZ data :
  VulnerableFunction1 data (zlen data) =
  if decide (data = [70; 85; 90]) then Undef OutOfBounds
  else Ret (if decide (take 4 data = [70; 85; 90; 90]) then 1 else 0).
Proof.
  unfold VulnerableFunction1, zlen. destruct data as [|a [|b [|c data]]];
    try (rewrite !decide_False by discriminate; reflexivity).
  rewrite (proj2 (Z.leb_le 3 (Z.of_nat (length (a :: b :: c :: data))))) by (cbn [length]; lia).
  change (vget (a :: b :: c :: data) 0) with (@Ret Z a). change (vget (a :: b :: c :: data) 1) with (@Ret Z b).
  change (vget (a :: b :: c :: data) 2) with (@Ret Z c). bind_ret.
  destruct (Z.eqb_spec a 70) as [->|Ha]; cbn [negb]; [|repeat case_decide; simplify_eq/=; reflexivity].
  destruct (Z.eqb_spec b 85) as [->|Hb]; cbn [negb]; [|repeat case_decide; simplify_eq/=; reflexivity].
  destruct (Z.eqb_spec c 90) as [->|Hc]; cbn [negb]; [|repeat case_decide; simplify_eq/=; reflexivity].
  destruct data as [|d data]; [rewrite decide_True by reflexivity; reflexivity|].
  rewrite (decide_False (P := _ = [70; 85; 90])) by discriminate. cbn [take].
  change (vget (70 :: 85 :: 90 :: d :: data) 3) with (@Ret Z d). bind_ret.
  destruct (Z.eqb_spec d 90) as [->|Hd]; [rewrite decide_True by (rewrite take_0; reflexivity)|rewrite decide_False by congruence]; reflexivity.
Qed.
