(* ===== verification/Strings.v ===== *)
(** * Strings and buffers

    src/util/string.hpp ([replace_all], [capture], [split]) and
    src/util/buffer.hpp ([concatBuffer]).  A string is the list of its bytes.
    Of the standard library the functions use [std::string::find],
    [std::string::replace], [std::string::substr] and [std::getline] on a
    string stream, which are written out first. *)

From stdpp Require Import base list numbers relations.
From Stdlib Require Import ZArith Lia.
From S2P Require Import Prelude.

Open Scope Z_scope.

(** ** The standard library *)

(** [pat] is found at the beginning of [s]. *)
Fixpoint starts (pat s : list Z) : bool :=
  match pat, s with
  | [], _ => true
  | a :: pat, b :: s => (a =? b) && starts pat s
  | _ :: _, [] => false
  end.

(** The first position of [pat] in [s], counted from [base]. *)
Fixpoint find_at (pat s : list Z) (base : nat) : option nat :=
  if starts pat s then Some base
  else match s with
  | [] => None
  | _ :: s => find_at pat s (S base)
  end.

(** [s.find(pat, pos)]; [None] is [npos]. *)
Definition find (s pat : list Z) (pos : nat) : option nat :=
  if decide (pos <= length s)%nat then find_at pat (drop pos s) pos else None.

(** [s.replace(pos, n, by)] for a position in the string. *)
Definition replace (s : list Z) (pos n : nat) (by_ : list Z) : list Z :=
  take pos s ++ by_ ++ drop (pos + n) s.

(** [s.substr(pos, n)] for a position in the string. *)
Definition substr (s : list Z) (pos n : nat) : list Z := take n (drop pos s).

(** The characters up to the delimiter, what follows it, and whether the end
    of the stream was met instead of the delimiter. *)
Fixpoint until (delim : Z) (s : list Z) : list Z * list Z * bool :=
  match s with
  | [] => ([], [], true)
  | c :: s =>
      if c =? delim then ([], s, false)
      else let '(item, rest, eof) := until delim s in (c :: item, rest, eof)
  end.

(** A string stream: the characters left and [eofbit]. *)
Record stream := Stream { chars : list Z; eofbit : bool }.

(** [std::getline(ss, item, delim)]: fails on a stream at its end, or when it
    extracts no character at all. *)
Definition getline (ss : stream) (delim : Z) : option (list Z * stream) :=
  if eofbit ss then None
  else match chars ss with
  | [] => None
  | _ =>
      let '(item, rest, eof) := until delim (chars ss) in Some (item, Stream rest eof)
  end.

(** ** src/util/string.hpp *)

(** The body of [while (true)]. *)
Definition replace_step (old_value new_value str : list Z)
    : outcome (control (list Z) (list Z)) :=
  match find str old_value 0 with
  | Some pos => Ret (Continue (replace str pos (length old_value) new_value))
  | None => Ret (Break str)
  end.

Definition replace_all (fuel : nat) (str old_value new_value : list Z) : outcome (list Z) :=
  if decide (old_value = new_value) then Ret str
  else while_loop fuel (replace_step old_value new_value) str.

Definition capture (str left right : list Z) : list Z :=
  match find str left 0 with
  | None => []
  | Some lpos =>
      let lpos := (lpos + length left)%nat in
      match find str right lpos with
      | None => []
      | Some rpos => substr str lpos (rpos - lpos)
      end
  end.

(** The loop's state: the stream and the elements found so far. *)
Definition split_step (delim : Z) (st : stream * list (list Z))
    : outcome (control (stream * list (list Z)) (list (list Z))) :=
  let '(ss, elems) := st in
  match getline ss delim with
  | Some (item, ss') => Ret (Continue (ss', elems ++ [item]))
  | None => Ret (Break elems)
  end.

Definition split (fuel : nat) (s : list Z) (delim : Z) : outcome (list (list Z)) :=
  while_loop fuel (split_step delim) (Stream s false, []).

(** ** src/util/buffer.hpp *)

(** [std::copy] of [src] to position [at_] of [dst], element by element; [src]
    and [dst] are two vectors. *)
Definition copy_to (src : list Z) (at_ : Z) (dst : list Z) : outcome (list Z) :=
  for_loop (length src) 0 (fun i dst => c ← vget src i; vset dst (at_ + i) c) dst.

Definition concatBuffer (src dst : list Z) : outcome (list Z) :=
  let dstOldSize := zlen dst in
  let dst1 := dst ++ replicate (length src) 0 in
  copy_to src dstOldSize dst1.

(** ** Searching *)

(** [pat] is a prefix of what follows position [p]. *)
Definition occurs (pat s : list Z) (p : nat) : Prop := exists a b, s = a ++ pat ++ b /\ length a = p.

Lemma starts_spec pat s : starts pat s = true <-> exists b, s = pat ++ b.
Proof.
  revert s. induction pat as [|a pat IH]; intros [|c s]; simpl.
  - split; [by exists []|done].
  - split; [by exists (c :: s)|done].
  - split; [done|by intros (b & ?)].
  - rewrite andb_true_iff, Z.eqb_eq, IH. split.
    + intros [-> [b ->]]. by exists b.
    + intros [b E]. simplify_eq. eauto.
Qed.

Lemma occurs_cons pat c s p : occurs pat (c :: s) (S p) <-> occurs pat s p.
Proof.
  split.
  - intros ([|x a] & b & E & Hl); simplify_eq/=. by exists a, b.
  - intros (a & b & -> & <-). by exists (c :: a), b.
Qed.

Lemma occurs_0 pat s : occurs pat s 0 <-> starts pat s = true.
Proof.
  rewrite starts_spec. split.
  - intros ([|x a] & b & -> & Hl); [|done]. by exists b.
  - intros [b ->]. by exists [], b.
Qed.

Lemma find_at_spec pat s base :
  match find_at pat s base with
  | Some p => exists k, p = (base + k)%nat /\ occurs pat s k /\ forall q, (q < k)%nat -> ~ occurs pat s q
  | None => forall q, ~ occurs pat s q
  end.
Proof.
  revert base. induction s as [|c s IH]; intros base; simpl find_at.
  - destruct (starts pat []) eqn:E.
    + exists 0%nat. rewrite occurs_0. split; [lia|]. split; [done|lia].
    + intros q (a & b & Ha & Hq). destruct a, pat; simplify_eq/=.
  - destruct (starts pat (c :: s)) eqn:E.
    + exists 0%nat. rewrite occurs_0. split; [lia|]. split; [done|lia].
    + specialize (IH (S base)). destruct (find_at pat s (S base)) as [p|].
      * destruct IH as (k & -> & Hk & Hq). exists (S k). rewrite occurs_cons.
        split; [lia|]. split; [done|]. intros [|q] Hlt; [by rewrite occurs_0, E|].
        rewrite occurs_cons. apply Hq. lia.
      * intros [|q]; [by rewrite occurs_0, E|]. by rewrite occurs_cons.
Qed.

Lemma occurs_drop pat s pos k :
  (pos <= length s)%nat -> occurs pat (drop pos s) k <-> occurs pat s (pos + k).
Proof.
  revert s. induction pos as [|pos IH]; intros s Hle; [done|].
  destruct s as [|c s]; [simpl in *; lia|]. simpl. rewrite occurs_cons. apply IH. simpl in *; lia.
Qed.

Lemma occurs_length pat s p : occurs pat s p -> (p + length pat <= length s)%nat.
Proof. intros (a & b & -> & <-). rewrite !length_app. lia. Qed.

(** [find] gives the first occurrence from [pos] on. *)
Lemma find_Some s pat pos p :
  find s pat pos = Some p ->
  (pos <= p)%nat /\ occurs pat s p /\ forall q, (pos <= q < p)%nat -> ~ occurs pat s q.
Proof.
  unfold find. destruct (decide (pos <= length s)%nat) as [Hle|]; [|done]. intros E.
  pose proof (find_at_spec pat (drop pos s) pos) as H. rewrite E in H.
  destruct H as (k & -> & Hk & Hq). split; [lia|]. split; [by apply occurs_drop|].
  intros q Hlt Ho. apply (Hq (q - pos)%nat); [lia|]. apply occurs_drop; [done|].
  by replace (pos + (q - pos))%nat with q by lia.
Qed.

Lemma find_None s pat pos q : find s pat pos = None -> (pos <= q)%nat -> ~ occurs pat s q.
Proof.
  unfold find. intros E Hq Ho. pose proof (occurs_length _ _ _ Ho) as Hl.
  destruct (decide (pos <= length s)%nat) as [Hle|]; [|lia].
  pose proof (find_at_spec pat (drop pos s) pos) as H. rewrite E in H.
  apply (H (q - pos)%nat), occurs_drop; [done|]. by replace (pos + (q - pos))%nat with q by lia.
Qed.

Lemma replace_occurs s pat p new :
  occurs pat s p ->
  exists a b, s = a ++ pat ++ b /\ length a = p /\ replace s p (length pat) new = a ++ new ++ b.
Proof.
  intros (a & b & -> & <-). exists a, b. split; [done|]. split; [done|]. unfold replace.
  by rewrite take_app_length, drop_app_add, drop_app_length.
Qed.

(** ** Replacing *)

(** Replacing by a shorter text ends, within one round per character,
    with a text in which the old value no longer occurs. *)
Theorem replace_all_shrinks str old_value new_value fuel :
  (length new_value < length old_value)%nat -> (length str < fuel)%nat ->
  exists r, replace_all fuel str old_value new_value = Ret r /\ forall p, ~ occurs old_value r p.
Proof.
  intros Hlt Hf. unfold replace_all. destruct (decide _) as [->|_]; [lia|].
  apply (while_loop_total (fun _ => True) length); [done| |done].
  intros t _. unfold replace_step. destruct (find t old_value 0) as [p|] eqn:E; apply returns_ret.
  - split; [done|]. destruct (find_Some _ _ _ _ E) as (_ & Ho & _).
    destruct (replace_occurs _ _ _ new_value Ho) as (a & b & -> & _ & ->). rewrite !length_app. lia.
  - intros p. apply (find_None _ _ _ _ E). lia.
Qed.

Lemma replace_all_shrinks_witness :
  exists r, replace_all 5 [97; 97; 98; 98] [97; 98] [] = Ret r /\ forall p, ~ occurs [97; 98] r p.
Proof. apply (replace_all_shrinks [97; 97; 98; 98] [97; 98] [] 5); simpl; lia. Defined.

(** Replacing a value by a text that contains it (or replacing the empty
    string) never ends once the value occurs: each round searches again from
    the beginning and finds the text just written. *)
Theorem replace_all_diverges str old_value new_value p q :
  old_value <> new_value -> occurs old_value str p -> occurs old_value new_value q ->
  forall fuel, replace_all fuel str old_value new_value = NoFuel.
Proof.
  intros Hne Hs Hn fuel. unfold replace_all. destruct (decide _) as [|_]; [done|].
  revert str p Hs. induction fuel as [|fuel IH]; intros str p Hs; [done|].
  simpl. unfold replace_step at 2. destruct (find str old_value 0) as [p'|] eqn:E; simpl.
  - destruct (find_Some _ _ _ _ E) as (_ & Ho & _).
    destruct (replace_occurs _ _ _ new_value Ho) as (a & b & -> & <- & ->).
    destruct Hn as (c & d & -> & <-). apply (IH _ (length (a ++ c))).
    exists (a ++ c), (d ++ b). by rewrite <- !app_assoc.
  - exfalso. apply (find_None _ _ _ p E); [lia|done].
Qed.

Lemma replace_all_diverges_witness :
  forall fuel, replace_all fuel [46; 47] [47] [47; 47] = NoFuel.
Proof.
  apply (replace_all_diverges [46; 47] [47] [47; 47] 1 0).
  - done.
  - by exists [46], [].
  - by exists [], [47].
Defined.

(** What [capture] returns when both marks are found. *)
Lemma capture_between str left right l r :
  find str left 0 = Some l -> find str right (l + length left) = Some r ->
  exists a b, str = a ++ left ++ capture str left right ++ right ++ b /\ length a = l /\
    length (capture str left right) = (r - (l + length left))%nat.
Proof.
  intros E1 E2. destruct (find_Some _ _ _ _ E1) as (_ & (a & b & -> & <-) & _).
  destruct (find_Some _ _ _ _ E2) as (Hle & Hr & _). unfold capture. rewrite E1, E2. unfold substr.
  rewrite drop_app_add, drop_app_length.
  replace r with (length (a ++ left) + (r - (length a + length left)))%nat in Hr
    by (rewrite length_app; lia).
  apply occurs_drop in Hr; [|rewrite app_assoc, !length_app; lia].
  rewrite app_assoc, drop_app_length in Hr. destruct Hr as (c & d & -> & Hc).
  exists a, d. by rewrite <- Hc, take_app_length.
Qed.

(** ** Splitting *)

Lemma until_spec delim s item rest eof :
  until delim s = (item, rest, eof) ->
  (delim ∉ item) /\ s = item ++ (if eof then [] else [delim]) ++ rest /\ (eof = true -> rest = []).
Proof.
  revert item rest eof. induction s as [|c s IH]; intros item rest eof E; simplify_eq/=.
  - split; [apply not_elem_of_nil|done].
  - destruct (Z.eqb_spec c delim) as [->|Hne]; simplify_eq/=.
    + split; [apply not_elem_of_nil|done].
    + destruct (until delim s) as [[i r] e]. simplify_eq/=.
      destruct (IH _ _ _ eq_refl) as (Hi & -> & He). split; [|done].
      by rewrite not_elem_of_cons.
Qed.

(** Each element with the delimiter that ends it. *)
Definition terminated (delim : Z) (elems : list (list Z)) : list Z :=
  elems ≫= fun e => e ++ [delim].

Lemma terminated_snoc delim es e : terminated delim (es ++ [e]) = terminated delim es ++ e ++ [delim].
Proof. unfold terminated. rewrite bind_app. simpl. by rewrite app_nil_r. Qed.

Lemma terminated_nil delim es : terminated delim es = [] -> es = [].
Proof. destruct es as [|e es]; [done|]. unfold terminated. csimpl. by destruct e. Qed.

Lemma last_not_elem (l k : list Z) c : c ∉ k -> k <> [] -> last (l ++ k) <> Some c.
Proof.
  intros Hc Hk E. destruct k as [|x k _] using rev_ind; [done|].
  rewrite app_assoc, last_snoc in E. simplify_eq. apply Hc, elem_of_app. right. by left.
Qed.

(** What the loop of [split] keeps: the elements found and the characters left
    make up the string. *)
Definition split_inv (s : list Z) (delim : Z) (st : stream * list (list Z)) : Prop :=
  Forall (fun e => delim ∉ e) st.2 /\
  if eofbit st.1 then terminated delim st.2 = s ++ [delim] /\ s <> [] /\ last s <> Some delim
  else terminated delim st.2 ++ chars st.1 = s.

Lemma split_inv_step s delim ss elems item ss' :
  split_inv s delim (ss, elems) -> getline ss delim = Some (item, ss') ->
  split_inv s delim (ss', elems ++ [item]) /\
  (eofbit ss' = true \/ (length (chars ss') < length (chars ss))%nat) /\ eofbit ss = false.
Proof.
  unfold split_inv, getline. simpl. intros [HF Hs] G.
  destruct (eofbit ss); [done|]. destruct (chars ss) as [|c0 s0] eqn:Ec; [done|]. rewrite <- Ec in *.
  destruct (until delim (chars ss)) as [[i r] e] eqn:Eu. simplify_eq.
  destruct (until_spec _ _ _ _ _ Eu) as (Hi & Ei & He). simpl. split; [split|split; [|done]].
  - apply Forall_app. split; [done|]. by constructor; [|constructor].
  - rewrite terminated_snoc, Ei. destruct e; simpl.
    + rewrite (He eq_refl) in *. rewrite !app_nil_r in *. rewrite <- app_assoc. split; [done|].
      assert (item <> []) as Hn by (intros ->; simpl in Ei; congruence).
      split; [by destruct (terminated delim elems), item|]. by apply last_not_elem.
    + by rewrite <- !app_assoc.
  - destruct e; [by left|right]. rewrite Ei, !length_app. simpl. lia.
Qed.

(** [split] ends and is inverse to joining: no element contains the
    delimiter, and writing the delimiter after each element gives back the
    string, with the delimiter added where the string did not end with it.
    (So an empty string has no elements, and a final delimiter no empty last
    element.) *)
Theorem split_join s delim fuel :
  (length s + 1 < fuel)%nat ->
  exists elems, split fuel s delim = Ret elems /\
    Forall (fun e => delim ∉ e) elems /\
    (terminated delim elems = s \/
     terminated delim elems = s ++ [delim] /\ s <> [] /\ last s <> Some delim).
Proof.
  intros Hf.
  apply (while_loop_total (split_inv s delim)
    (fun st => if eofbit st.1 then 0%nat else S (length (chars st.1)))); [|..|simpl; lia].
  - split; [constructor|done].
  - intros [ss elems] Hinv. unfold split_step.
    destruct (getline ss delim) as [[item ss']|] eqn:G; apply returns_ret.
    + destruct (split_inv_step _ _ _ _ _ _ Hinv G) as (Hi & Hm & He). split; [done|]. simpl.
      rewrite He. destruct (eofbit ss'); [lia|]. destruct Hm; [done|lia].
    + destruct Hinv as [HF Hs]. split; [done|]. simpl in *. unfold getline in G.
      destruct (eofbit ss); [by right|left].
      destruct (chars ss) as [|c0 s0]; [by rewrite app_nil_r in Hs|].
      by destruct (until delim (c0 :: s0)) as [[? ?] ?].
Qed.

Lemma split_join_witness :
  exists elems, split 6 [97; 44; 44; 98] 44 = Ret elems /\ Forall (fun e => 44 ∉ e) elems /\
    (terminated 44 elems = [97; 44; 44; 98] \/
     terminated 44 elems = [97; 44; 44; 98] ++ [44] /\ [97; 44; 44; 98] <> [] /\
     last [97; 44; 44; 98] <> Some 44).
Proof. apply (split_join [97; 44; 44; 98] 44 6). simpl. lia. Defined.

(** ** Concatenation *)

Lemma concatBuffer_app src dst : concatBuffer src dst = Ret (dst ++ src).
Proof.
  unfold concatBuffer, copy_to.
  destruct (for_loop_inv (fun i d => length d = (length dst + length src)%nat /\
    take (length dst + Z.to_nat i) d = dst ++ take (Z.to_nat i) src)
    (fun i dst0 => c ← vget src i; vset dst0 (zlen dst + i) c) (length src) 0
    (dst ++ replicate (length src) 0)) as (d & -> & Hl & Ht).
  - rewrite length_app, length_replicate. split; [done|]. simpl.
    by rewrite Nat.add_0_r, take_app_length, app_nil_r.
  - intros i d Hi [Hl Ht].
    destruct (lookup_lt_is_Some_2 src (Z.to_nat i)) as [c Hc]; [lia|].
    rewrite (proj2 (vget_Ret src i c)) by (split; [lia|done]). simpl.
    rewrite vset_in_range by len. apply returns_ret. rewrite length_insert.
    split; [done|]. replace (Z.to_nat (zlen dst + i)) with (length dst + Z.to_nat i)%nat by len.
    replace (length dst + Z.to_nat (i + 1))%nat with (S (length dst + Z.to_nat i)) by lia.
    rewrite take_insert_next, Ht by lia. replace (Z.to_nat (i + 1)) with (S (Z.to_nat i)) by lia.
    by rewrite (take_S_r _ _ _ Hc), <- app_assoc.
  - f_equal. rewrite Z.add_0_l, Nat2Z.id in Ht. rewrite !take_ge in Ht by lia. done.
Qed.
