(* ===== verification/Trap.v ===== *)
(** * Trapping rain water

    src/c++/leetcode/42.cpp (module [Levels]) and src/c++/leetcode/42-2.cpp
    (module [Direct]): two pointers walk from both ends of a row of walls and
    always consume the lower one.  The reference is the water that stands on
    each wall: up to the lower of the highest walls to its left and right. *)

From stdpp Require Import base list numbers relations.
From Stdlib Require Import ZArith Lia.
From S2P Require Import Prelude.

Open Scope Z_scope.

(** [if (val < x) val = x]. *)
Definition raise (val x : Z) : Z := if val <? x then x else val.

(** ** 42.cpp: the levels first, then their sum *)

Module Levels.

Record state := State { i : Z; j : Z; val : Z; h : list Z }.

(** [for (; i <= j; ) ...]. *)
Definition step (height : list Z) (s : state) : outcome (control state (list Z)) :=
  if i s <=? j s then
    hi ← vget height (i s);
    hj ← vget height (j s);
    if hi <=? hj then
      let v := raise (val s) hi in
      h' ← vset (h s) (i s) v;
      Ret (Continue (State (i s + 1) (j s) v h'))
    else
      let v := raise (val s) hj in
      h' ← vset (h s) (j s) v;
      Ret (Continue (State (i s) (j s - 1) v h'))
  else Ret (Break (h s)).

(** [result += h[i]-height[i]]. *)
Definition add_water (height h : list Z) (k : Z) (result : Z) : outcome Z :=
  hk ← vget h k;
  x ← vget height k;
  d ← int_op (hk - x);
  int_op (result + d).

Definition trap (fuel : nat) (height : list Z) : outcome Z :=
  h ← while_loop fuel (step height)
        (State 0 (to_int (szadd (zlen height) (-1))) 0 (replicate (length height) 0));
  for_loop (length height) 0 (add_water height h) 0.

End Levels.

(** ** 42-2.cpp: one pass *)

Module Direct.

Record state := State { i : Z; j : Z; val : Z; result : Z }.

Definition step (height : list Z) (s : state) : outcome (control state Z) :=
  if i s <=? j s then
    hi ← vget height (i s);
    hj ← vget height (j s);
    if hi <=? hj then
      let v := raise (val s) hi in
      d ← int_op (v - hi);
      r ← int_op (result s + d);
      Ret (Continue (State (i s + 1) (j s) v r))
    else
      let v := raise (val s) hj in
      d ← int_op (v - hj);
      r ← int_op (result s + d);
      Ret (Continue (State (i s) (j s - 1) v r))
  else Ret (Break (result s)).

Definition trap (fuel : nat) (height : list Z) : outcome Z :=
  while_loop fuel (step height) (State 0 (to_int (szadd (zlen height) (-1))) 0 0).

End Direct.

(** ** The reference *)

Definition max0 (l : list Z) : Z := foldr Z.max 0 l.

(** The water level over wall [k]. *)
Definition level (height : list Z) (k : nat) : Z :=
  Z.min (max0 (take (S k) height)) (max0 (drop k height)).

Definition zsum (l : list Z) : Z := foldr Z.add 0 l.

Definition waters (height : list Z) : list Z := imap (fun k x => level height k - x) height.

Definition water (height : list Z) : Z := zsum (waters height).

Lemma raise_max v x : raise v x = Z.max v x.
Proof. unfold raise. destruct (Z.ltb_spec v x); lia. Qed.

Lemma max0_app l k : max0 (l ++ k) = Z.max (max0 l) (max0 k).
Proof. induction l as [|x l IH]; simpl; [|lia]. induction k; simpl in *; lia. Qed.

Lemma max0_nonneg l : 0 <= max0 l.
Proof. induction l; simpl; lia. Qed.

Lemma zsum_app l k : zsum (l ++ k) = zsum l + zsum k.
Proof. induction l as [|x l IH]; simpl in *; lia. Qed.

Lemma max0_elem l k x : l !! k = Some x -> x <= max0 l.
Proof.
  revert k. induction l as [|y l IH]; intros [|k] E; simplify_eq/=; [lia|].
  specialize (IH k E). lia.
Qed.

Lemma max0_drop_le l k m : (k <= m)%nat -> max0 (drop m l) <= max0 (drop k l).
Proof.
  intros H. replace m with (k + (m - k))%nat by lia. rewrite <- drop_drop.
  rewrite <- (take_drop (m - k) (drop k l)) at 2. rewrite max0_app. lia.
Qed.

(** Water never stands below the wall. *)
Lemma level_above height k x : height !! k = Some x -> x <= level height k.
Proof.
  intros E. unfold level. apply Z.min_glb.
  - apply (max0_elem _ k). by rewrite lookup_take_lt by lia.
  - apply (max0_elem _ 0). by rewrite lookup_drop, Nat.add_0_r.
Qed.

(** ** The two pointers

    Walls [0 .. i-1] and [j1 .. n-1] are consumed ([j1] is the code's
    [j + 1]).  [val] is the highest wall consumed, and neither side's highest
    wall is above what the other side has or is about to consume. *)

Definition pointers (height : list Z) (i j1 : nat) (val : Z) : Prop :=
  (i <= j1 <= length height)%nat /\
  val = Z.max (max0 (take i height)) (max0 (drop j1 height)) /\
  (forall a, (i < j1)%nat -> height !! i = Some a ->
     max0 (drop j1 height) <= Z.max (max0 (take i height)) a) /\
  (forall b, (i < j1)%nat -> height !! pred j1 = Some b ->
     max0 (take i height) <= Z.max (max0 (drop j1 height)) b).

Lemma pointers_start height : pointers height 0 (length height) 0.
Proof. unfold pointers. rewrite drop_all. simpl. split_and!; try lia; intros; lia. Qed.

Section Step.
Context (height : list Z) (i j1 : nat) (val a b : Z).
Hypothesis (Hp : pointers height i j1 val) (Hij : (i < j1)%nat).
Hypothesis (Ha : height !! i = Some a) (Hb : height !! pred j1 = Some b).

Lemma pointers_left :
  a <= b -> level height i = Z.max val a /\ pointers height (S i) j1 (Z.max val a).
Proof.
  intros Hle. destruct Hp as (Hr & -> & HR & HL).
  specialize (HR a Hij Ha). specialize (HL b Hij Hb).
  pose proof (max0_nonneg (take i height)). pose proof (max0_nonneg (drop j1 height)).
  assert (max0 (take (S i) height) = Z.max (max0 (take i height)) a) as Ht
    by (rewrite (take_S_r _ _ _ Ha), max0_app; simpl; lia).
  pose proof (max0_drop_le height i j1 ltac:(lia)).
  assert (b <= max0 (drop i height)).
  { apply (max0_elem _ (pred j1 - i)). rewrite lookup_drop. by replace (i + (pred j1 - i))%nat with (pred j1) by lia. }
  split; [unfold level; lia|]. unfold pointers. rewrite Ht. split; [lia|]. split; [lia|]. split.
  - intros a' _ _. lia.
  - intros b' _ Hb'. simplify_eq. lia.
Qed.

Lemma pointers_right :
  b < a -> level height (pred j1) = Z.max val b /\ pointers height i (pred j1) (Z.max val b).
Proof.
  intros Hlt. destruct Hp as (Hr & -> & HR & HL).
  specialize (HR a Hij Ha). specialize (HL b Hij Hb).
  pose proof (max0_nonneg (take i height)). pose proof (max0_nonneg (drop j1 height)).
  assert (max0 (drop (pred j1) height) = Z.max b (max0 (drop j1 height))) as Ht.
  { rewrite (drop_S _ b (pred j1)) by done. by replace (S (pred j1)) with j1 by lia. }
  assert (max0 (take i height) <= max0 (take (S (pred j1)) height) /\ a <= max0 (take (S (pred j1)) height)).
  { replace (S (pred j1)) with j1 by lia. split.
    - rewrite <- (take_drop i (take j1 height)), take_take, Nat.min_l, max0_app by lia. lia.
    - apply (max0_elem _ i). by rewrite lookup_take_lt. }
  split; [unfold level; lia|]. unfold pointers. rewrite Ht. split; [lia|]. split; [lia|]. split.
  - intros a' _ Ha'. simplify_eq. lia.
  - intros b' _ _. lia.
Qed.
End Step.

(** ** Sums *)

Lemma waters_lookup height k x :
  height !! k = Some x -> waters height !! k = Some (level height k - x).
Proof. intros E. unfold waters. by rewrite list_lookup_imap, E. Qed.

Lemma waters_nonneg height : Forall (fun w => 0 <= w) (waters height).
Proof.
  apply Forall_lookup_2. intros k w E. unfold waters in E. rewrite list_lookup_imap in E.
  destruct (height !! k) as [x|] eqn:Ex; simplify_eq/=. pose proof (level_above _ _ _ Ex). lia.
Qed.

Lemma zsum_nonneg l : Forall (fun w => 0 <= w) l -> 0 <= zsum l.
Proof. induction 1; simpl; lia. Qed.

(** The water on the walls consumed so far. *)
Definition collected (height : list Z) (i j1 : nat) : Z :=
  zsum (take i (waters height)) + zsum (drop j1 (waters height)).

Lemma collected_bounds height i j1 :
  (i <= j1)%nat -> 0 <= collected height i j1 <= water height.
Proof.
  intros Hij. unfold collected, water. pose proof (waters_nonneg height) as Hw.
  rewrite <- (take_drop i (waters height)) at 5.
  rewrite <- (take_drop (j1 - i) (drop i (waters height))), drop_drop, !zsum_app.
  replace (i + (j1 - i))%nat with j1 by lia.
  pose proof (zsum_nonneg _ (Forall_take _ i _ Hw)). pose proof (zsum_nonneg _ (Forall_drop _ j1 _ Hw)).
  pose proof (zsum_nonneg _ (Forall_take _ (j1 - i) _ (Forall_drop _ i _ Hw))). lia.
Qed.

Lemma collected_left height i j1 x :
  height !! i = Some x -> collected height (S i) j1 = collected height i j1 + (level height i - x).
Proof.
  intros E. unfold collected. rewrite (take_S_r _ _ _ (waters_lookup _ _ _ E)), zsum_app. simpl. lia.
Qed.

Lemma collected_right height i j x :
  height !! j = Some x -> collected height i j = collected height i (S j) + (level height j - x).
Proof.
  intros E. unfold collected. rewrite (drop_S _ _ _ (waters_lookup _ _ _ E)). simpl. lia.
Qed.

Lemma collected_all height i : collected height i i = water height.
Proof. unfold collected, water. by rewrite <- zsum_app, take_drop. Qed.

Lemma last_index (height : list Z) :
  zlen height <= int_max -> to_int (szadd (zlen height) (-1)) = zlen height - 1.
Proof.
  intros H. pose proof (zlen_nonneg height). destruct (decide (zlen height = 0)) as [->|Hn]; [done|].
  unfold szadd. rewrite Z.mod_small by (unfold size_max, int_max in *; lia).
  apply to_int_small. unfold int_min. lia.
Qed.

(** ** The one-pass version *)

Definition direct_inv (height : list Z) (s : Direct.state) : Prop :=
  exists i j1, Direct.i s = Z.of_nat i /\ Direct.j s = Z.of_nat j1 - 1 /\
    pointers height i j1 (Direct.val s) /\ Direct.result s = collected height i j1.

Lemma direct_step height s :
  water height <= int_max -> direct_inv height s ->
  returns (Direct.step height s) (fun c => match c with
    | Continue s' => direct_inv height s' /\
        (Z.to_nat (Direct.j s' + 1 - Direct.i s') < Z.to_nat (Direct.j s + 1 - Direct.i s))%nat
    | Break r => r = water height
    end).
Proof.
  intros Hmax (i & j1 & Hi & Hj & Hp & Hr). unfold Direct.step. rewrite Hi, Hj, Hr.
  destruct (Z.leb_spec (Z.of_nat i) (Z.of_nat j1 - 1)) as [Hle|Hgt]; [|apply returns_ret].
  2: { destruct Hp as [Hb _]. replace j1 with i by lia. apply collected_all. }
  destruct (lookup_lt_is_Some_2 height i) as [a Ha]; [destruct Hp as [Hb _]; lia|].
  destruct (lookup_lt_is_Some_2 height (pred j1)) as [b Hb]; [destruct Hp as [Hb _]; lia|].
  rewrite (vget_nat _ _ _ Ha). simpl. replace (Z.of_nat j1 - 1) with (Z.of_nat (pred j1)) by lia.
  rewrite (vget_nat _ _ _ Hb). simpl. pose proof (collected_bounds height i j1 ltac:(lia)) as B0.
  destruct (Z.leb_spec a b) as [Hab|Hab]; rewrite raise_max.
  - destruct (pointers_left height i j1 _ a b Hp ltac:(lia) Ha Hb Hab) as [El Hp'].
    pose proof (collected_bounds height (S i) j1 ltac:(lia)) as B1.
    rewrite (collected_left _ _ _ _ Ha), El in B1. pose proof (level_above _ _ _ Ha).
    rewrite int_op_in by (unfold int_min; lia). simpl. rewrite int_op_in by (unfold int_min; lia).
    apply returns_ret. simpl. split; [|lia]. exists (S i), j1. simpl. split_and!; [lia|lia|done|].
    by rewrite (collected_left _ _ _ _ Ha), El.
  - destruct (pointers_right height i j1 _ a b Hp ltac:(lia) Ha Hb Hab) as [El Hp'].
    pose proof (collected_bounds height i (pred j1) ltac:(lia)) as B1.
    pose proof (collected_right height i _ _ Hb) as Ec. replace (S (pred j1)) with j1 in Ec by lia.
    pose proof (level_above _ _ _ Hb).
    rewrite int_op_in by (unfold int_min; lia). simpl. rewrite int_op_in by (unfold int_min; lia).
    apply returns_ret. simpl. split; [|lia]. exists i, (pred j1). simpl. split_and!; [lia|lia|done|lia].
Qed.

(** ** The version with the levels *)

Definition levels (height : list Z) : list Z := imap (fun k _ => level height k) height.

Lemma levels_lookup height k x : height !! k = Some x -> levels height !! k = Some (level height k).
Proof. intros E. unfold levels. by rewrite list_lookup_imap, E. Qed.

Definition levels_inv (height : list Z) (s : Levels.state) : Prop :=
  exists i j1, Levels.i s = Z.of_nat i /\ Levels.j s = Z.of_nat j1 - 1 /\
    pointers height i j1 (Levels.val s) /\ length (Levels.h s) = length height /\
    forall k, (k < i \/ j1 <= k)%nat -> Levels.h s !! k = levels height !! k.

Lemma levels_step height s :
  levels_inv height s ->
  returns (Levels.step height s) (fun c => match c with
    | Continue s' => levels_inv height s' /\
        (Z.to_nat (Levels.j s' + 1 - Levels.i s') < Z.to_nat (Levels.j s + 1 - Levels.i s))%nat
    | Break r => r = levels height
    end).
Proof.
  intros (i & j1 & Hi & Hj & Hp & Hl & Hk). unfold Levels.step. rewrite Hi, Hj.
  destruct (Z.leb_spec (Z.of_nat i) (Z.of_nat j1 - 1)) as [Hle|Hgt]; [|apply returns_ret].
  2: { apply list_eq. intros k. apply Hk. lia. }
  destruct (lookup_lt_is_Some_2 height i) as [a Ha]; [destruct Hp as [Hb _]; lia|].
  destruct (lookup_lt_is_Some_2 height (pred j1)) as [b Hb]; [destruct Hp as [Hb _]; lia|].
  rewrite (vget_nat _ _ _ Ha). simpl. replace (Z.of_nat j1 - 1) with (Z.of_nat (pred j1)) by lia.
  rewrite (vget_nat _ _ _ Hb). simpl. destruct Hp as [Hb0 Hp0] eqn:EHp; clear EHp.
  destruct (Z.leb_spec a b) as [Hab|Hab]; rewrite raise_max, vset_in_range by len;
    apply returns_ret; simpl; (split; [|lia]); rewrite Nat2Z.id.
  - destruct (pointers_left height i j1 _ a b Hp ltac:(lia) Ha Hb Hab) as [El Hp'].
    exists (S i), j1. simpl. rewrite length_insert. split_and!; [lia|lia|done|done|]. intros k Hk'.
    destruct (decide (k = i)) as [->|Hne].
    + by rewrite list_lookup_insert_eq, (levels_lookup _ _ _ Ha), El by lia.
    + rewrite list_lookup_insert_ne by done. apply Hk. lia.
  - destruct (pointers_right height i j1 _ a b Hp ltac:(lia) Ha Hb Hab) as [El Hp'].
    exists i, (pred j1). simpl. rewrite length_insert. split_and!; [lia|lia|done|done|]. intros k Hk'.
    destruct (decide (k = pred j1)) as [->|Hne].
    + by rewrite list_lookup_insert_eq, (levels_lookup _ _ _ Hb), El by lia.
    + rewrite list_lookup_insert_ne by done. apply Hk. lia.
Qed.

(** The second loop of 42.cpp. *)
Lemma sum_loop height :
  water height <= int_max ->
  for_loop (length height) 0 (Levels.add_water height (levels height)) 0 = Ret (water height).
Proof.
  intros Hmax.
  destruct (for_loop_inv (fun k r => r = collected height (Z.to_nat k) (length height))
    (Levels.add_water height (levels height)) (length height) 0 0) as (r & -> & ->).
  - unfold collected. simpl. rewrite drop_ge; [done|]. unfold waters. by rewrite length_imap.
  - intros k r Hk ->. destruct (lookup_lt_is_Some_2 height (Z.to_nat k)) as [x Hx]; [lia|].
    unfold Levels.add_water.
    rewrite (proj2 (vget_Ret (levels height) k _)) by (split; [lia|by apply (levels_lookup _ _ x)]).
    simpl. rewrite (proj2 (vget_Ret height k x)) by (split; [lia|done]). simpl.
    pose proof (collected_bounds height (S (Z.to_nat k)) (length height) ltac:(lia)) as B1.
    pose proof (collected_bounds height (Z.to_nat k) (length height) ltac:(lia)) as B0.
    pose proof (level_above _ _ _ Hx) as Ha.
    replace (Z.to_nat (k + 1)) with (S (Z.to_nat k)) by lia.
    rewrite (collected_left _ _ _ _ Hx) in B1 |- *.
    rewrite int_op_in by (unfold int_min; lia). simpl.
    rewrite int_op_in by (unfold int_min; lia). by apply returns_ret.
  - by rewrite Z.add_0_l, Nat2Z.id, collected_all.
Qed.

(** Both solutions of the rain-water problem return, within one round per
    wall, the water that stands over the walls by the reference definition,
    and no [int] overflows as long as the answer fits in one. *)
Theorem trap_correct height fuel :
  zlen height <= int_max -> water height <= int_max -> (length height < fuel)%nat ->
  Levels.trap fuel height = Ret (water height) /\ Direct.trap fuel height = Ret (water height).
Proof.
  intros Hn Hw Hf. unfold Levels.trap, Direct.trap. rewrite last_index by done. split.
  - edestruct (while_loop_total (levels_inv height)
      (fun s => Z.to_nat (Levels.j s + 1 - Levels.i s)) (fun r => r = levels height)) as (r & -> & ->).
    + exists 0%nat, (length height). simpl. rewrite length_replicate.
      split_and!; [done|done|apply pointers_start|done|].
      intros k [Hk|Hk]; [lia|]. rewrite !lookup_ge_None_2; [done|unfold levels; by rewrite length_imap|].
      by rewrite length_replicate.
    + apply levels_step.
    + simpl. unfold zlen. lia.
    + by apply sum_loop.
  - edestruct (while_loop_total (direct_inv height)
      (fun s => Z.to_nat (Direct.j s + 1 - Direct.i s)) (fun r => r = water height)) as (r & -> & ->).
    + exists 0%nat, (length height). simpl. split_and!; [done|done|apply pointers_start|].
      unfold collected. simpl. rewrite drop_ge; [done|]. unfold waters. by rewrite length_imap.
    + intros t. by apply direct_step.
    + simpl. unfold zlen. lia.
    + done.
Qed.

Lemma trap_correct_witness :
  Levels.trap 13 [0; 1; 0; 2; 1; 0; 1; 3; 2; 1; 2; 1] = Ret 6 /\
  Direct.trap 13 [0; 1; 0; 2; 1; 0; 1; 3; 2; 1; 2; 1] = Ret 6.
Proof.
  apply (trap_correct [0; 1; 0; 2; 1; 0; 1; 3; 2; 1; 2; 1] 13); [by vm_compute..|simpl; lia].
Defined.
