(* ===== verification/FirstMissing.v ===== *)
(** * The first missing positive number

    src/c++/leetcode/41.cpp.  The solution marks the numbers it sees in [v], a
    member of the object that a call resizes and never clears. *)

From stdpp Require Import base list numbers relations.
From Stdlib Require Import ZArith Lia.
From S2P Require Import Prelude.

Open Scope Z_scope.

(** The object: its only member. *)
Record Solution := { v : list bool }.

(** [v.resize(n)]: new elements are [false]. *)
Definition resize_bools (l : list bool) (n : nat) : list bool :=
  take n l ++ replicate (n - length l) false.

(** [if (n > 0 && n < v.size()) v[n] = true]. *)
Definition mark (l : list bool) (n : Z) : outcome (list bool) :=
  if (0 <? n) && (n <? zlen l) then vset l n true else Ret l.

Fixpoint mark_all (l : list bool) (nums : list Z) : outcome (list bool) :=
  match nums with
  | [] => Ret l
  | n :: nums => l' ← mark l n; mark_all l' nums
  end.

(** The loop from index [i] on and the [return] after it. *)
Fixpoint first_unmarked (rest : list bool) (i size : Z) : Z :=
  match rest with
  | [] => size
  | b :: rest => if b then first_unmarked rest (i + 1) size else i
  end.

Definition firstMissingPositive (o : Solution) (nums : list Z) : outcome (Z * Solution) :=
  l ← mark_all (resize_bools (v o) (length nums + 1)) nums;
  Ret (to_int (first_unmarked (drop 1 l) 1 (zlen l)), {| v := l |}).

(** ** Correctness *)

Lemma resize_bools_length l n : length (resize_bools l n) = n.
Proof. unfold resize_bools. rewrite length_app, length_take, length_replicate. lia. Qed.

Lemma resize_bools_lookup l n k :
  resize_bools l n !! k = Some true <-> (k < n)%nat /\ l !! k = Some true.
Proof.
  unfold resize_bools. rewrite lookup_app_Some, lookup_take_Some, lookup_replicate. split.
  - intros [[H1 H2]|(_ & [=] & _)]. done.
  - intros [H1 H2]. by left.
Qed.

(** Marking adds the numbers in range to the marks. *)
Lemma mark_all_spec nums l :
  exists l', mark_all l nums = Ret l' /\ length l' = length l /\
    forall k, (0 < k)%nat -> l' !! k = Some true <->
      l !! k = Some true \/ (k < length l)%nat /\ Z.of_nat k ∈ nums.
Proof.
  revert l. induction nums as [|n nums IH]; intros l; simpl.
  - exists l. split; [done|]. split; [done|]. intros k _. rewrite elem_of_nil. tauto.
  - assert (exists l1, mark l n = Ret l1 /\ length l1 = length l /\ forall k, (0 < k)%nat ->
      l1 !! k = Some true <-> l !! k = Some true \/ (k < length l)%nat /\ Z.of_nat k = n) as (l1 & -> & Hl & Hm).
    { unfold mark. destruct (_ && _) eqn:E.
      - rewrite andb_true_iff, Z.ltb_lt, Z.ltb_lt in E. rewrite vset_in_range by lia.
        eexists. split; [done|]. split; [apply length_insert|]. intros k Hk. unfold zlen in E.
        destruct (decide (k = Z.to_nat n)) as [->|Hne].
        + rewrite list_lookup_insert_eq by lia. split; [|done]. right. lia.
        + rewrite list_lookup_insert_ne by done. split; [by left|]. intros [?|?]; [done|lia].
      - exists l. split; [done|]. split; [done|]. intros k Hk. split; [by left|].
        intros [?|[Hlt <-]]; [done|]. rewrite andb_false_iff, !Z.ltb_ge in E. unfold zlen in E. lia. }
    simpl. destruct (IH l1) as (l' & -> & Hl' & Hm'). exists l'. split; [done|]. split; [lia|].
    intros k Hk. rewrite Hm', Hm, elem_of_cons, Hl by done. tauto.
Qed.

Lemma first_unmarked_spec rest i size :
  size = i + zlen rest ->
  exists k, first_unmarked rest i size = i + Z.of_nat k /\ (k <= length rest)%nat /\
    rest !! k <> Some true /\ forall m, (m < k)%nat -> rest !! m = Some true.
Proof.
  revert i. induction rest as [|b rest IH]; intros i ->; simpl.
  - exists 0%nat. split; [done|]. split; [done|]. split; [done|lia].
  - destruct b.
    + destruct (IH (i + 1)) as (k & E & Hk & Hn & Hm); [unfold zlen; simpl; lia|].
      rewrite E. exists (S k). split; [lia|]. split; [lia|]. split; [done|].
      intros [|m] Hlt; [done|]. apply Hm. lia.
    + exists 0%nat. split; [lia|]. split; [lia|]. split; [done|lia].
Qed.

(** What a call computes, with the marks left by earlier calls on the same
    object: the least positive number up to [nums.size() + 1] that is neither
    in the numbers nor marked already. *)
Lemma call_spec o nums :
  zlen nums + 1 <= int_max ->
  exists r o', firstMissingPositive o nums = Ret (Z.of_nat r, o') /\
    (0 < r <= length nums + 1)%nat /\
    ((r <= length nums)%nat -> ~ (v o !! r = Some true \/ Z.of_nat r ∈ nums)) /\
    (forall m, (0 < m < r)%nat -> v o !! m = Some true \/ Z.of_nat m ∈ nums).
Proof.
  intros Hn. unfold firstMissingPositive.
  destruct (mark_all_spec nums (resize_bools (v o) (length nums + 1))) as (l & -> & Hl & Hm).
  rewrite resize_bools_length in *. simpl.
  destruct (first_unmarked_spec (drop 1 l) 1 (zlen l)) as (k & -> & Hk & Hno & Hyes).
  { unfold zlen. len. }
  rewrite length_drop, lookup_drop in *. exists (S k), {| v := l |}.
  assert (forall m, (0 < m <= length nums)%nat ->
    l !! m = Some true <-> v o !! m = Some true \/ Z.of_nat m ∈ nums) as Hiff.
  { intros m Hr. rewrite Hm, resize_bools_lookup by lia. split; [tauto|].
    intros [H|H]; [left; split; [lia|done]|right; split; [lia|done]]. }
  split.
  - f_equal. f_equal. unfold zlen in Hn. rewrite to_int_small; [lia|unfold int_min; lia].
  - split; [lia|]. split.
    + intros Hr. rewrite <- Hiff by lia. done.
    + intros m Hr. apply Hiff; [lia|]. specialize (Hyes (pred m) ltac:(lia)).
      rewrite lookup_drop in Hyes. by replace (1 + pred m)%nat with m in Hyes by lia.
Qed.

(** No list of [n] numbers contains all of [1 .. n+1]. *)
Lemma some_missing (nums : list Z) :
  ~ (forall m, (0 < m <= length nums + 1)%nat -> Z.of_nat m ∈ nums).
Proof.
  intros H. set (l := Z.of_nat <$> seq 1 (length nums + 1)).
  assert (l ⊆+ nums) as Hs.
  { apply NoDup_submseteq.
    - apply NoDup_fmap_2; [apply _|apply NoDup_seq].
    - intros x (m & -> & Hx)%list_elem_of_fmap. apply elem_of_seq in Hx. apply H. lia. }
  apply submseteq_length in Hs. unfold l in Hs. rewrite length_fmap, length_seq in Hs. lia.
Qed.

(** On a new object the result is the least positive number that is not
    in the list, without any fault. *)
Theorem first_missing_correct nums :
  zlen nums + 1 <= int_max ->
  exists r o', firstMissingPositive {| v := [] |} nums = Ret (r, o') /\
    0 < r /\ (r ∉ nums) /\ forall m, 0 < m < r -> m ∈ nums.
Proof.
  intros Hn. destruct (call_spec {| v := [] |} nums Hn) as (r & o' & E & Hr & Hno & Hyes).
  simpl in *.
  assert (forall m, (0 < m < r)%nat -> Z.of_nat m ∈ nums) as Hall
    by (intros m Hm; by destruct (Hyes m Hm)).
  exists (Z.of_nat r), o'. split; [done|]. split; [lia|]. split.
  - destruct (decide (r <= length nums)%nat) as [Hle|Hgt].
    + intros Hin. apply (Hno Hle). by right.
    + intros Hin. apply (some_missing nums). intros m Hm.
      destruct (decide (m = r)) as [->|Hne]; [done|]. apply Hall. lia.
  - intros m Hm. specialize (Hall (Z.to_nat m) ltac:(lia)). by rewrite Z2Nat.id in Hall by lia.
Qed.

Lemma first_missing_correct_witness :
  exists r o', firstMissingPositive {| v := [] |} [3; 4; -1; 1] = Ret (r, o') /\
    0 < r /\ (r ∉ [3; 4; -1; 1]) /\ forall m, 0 < m < r -> m ∈ [3; 4; -1; 1].
Proof. apply (first_missing_correct [3; 4; -1; 1]). by vm_compute. Defined.

(** A second call on the same object still sees the marks of the first: on
    the list [2] alone it answers 2, although 1 is missing. *)
Lemma second_call_wrong :
  exists o, firstMissingPositive {| v := [] |} [1] = Ret (2, o) /\
    (firstMissingPositive o [2] ≫= fun r => Ret r.1) = Ret 2.
Proof. by eexists. Qed.
