(* ===== verification/Permutation.v ===== *)
(** * The k-th permutation

    src/c++/leetcode/60.cpp: [fac], [getPermutation] and [solve].  The
    reference is the list of all permutations in lexicographic order. *)

From stdpp Require Import base list numbers relations strings.
From Stdlib Require Import ZArith Lia.
From S2P Require Import Prelude.

Open Scope Z_scope.

(** [f *= i] for [i] from 1 to [x]. *)
Definition fac (x : Z) : outcome Z := for_loop (Z.to_nat x) 1 (fun i f => int_op (f * i)) 1.

(** Conversion to the signed [char] of the platform. *)
Definition to_char (z : Z) : Z := (z + 128) mod 256 - 128.

(** [v.erase(v.begin() + i)]. *)
Definition erase (v : list Z) (i : Z) : list Z := take (Z.to_nat i) v ++ drop (S (Z.to_nat i)) v.

(** Each call erases an element: [v.size() + 1] calls are enough. *)
Fixpoint solve (fuel : nat) (v : list Z) (k : Z) (res : list Z) : outcome (list Z) :=
  match fuel with
  | O => NoFuel
  | S fuel =>
      if zlen v =? 0 then Ret res
      else
        f ← fac (to_int (zlen v - 1));
        d ← int_op (k - 1);
        i ← int_div d f;
        e ← vget v i;
        c ← int_op (48 + e);
        p ← int_op (i * f);
        k' ← int_op (k - p);
        solve fuel (erase v i) k' (res ++ [to_char c])
  end.

Definition getPermutation (n k : Z) : outcome (list Z) :=
  if n <? 0 then Throw (Message "length_error")
  else
    v ← for_loop (Z.to_nat n) 0 (fun i v => vset v i (i + 1)) (replicate (Z.to_nat n) 0);
    solve (S (length v)) v k [].

(** ** The reference *)

Fixpoint lex_lt (p q : list Z) : Prop :=
  match p, q with
  | [], _ :: _ => True
  | a :: p, b :: q => a < b \/ a = b /\ lex_lt p q
  | _, [] => False
  end.

Definition increasing (l : list (list Z)) : Prop :=
  forall a b p q, (a < b)%nat -> l !! a = Some p -> l !! b = Some q -> lex_lt p q.

Definition without (v : list Z) (i : nat) : list Z := take i v ++ drop (S i) v.

(** The permutations of a list of [n] elements that begin with each element in
    turn. *)
Fixpoint perms (n : nat) (v : list Z) : list (list Z) :=
  match n with
  | O => [[]]
  | S n => mjoin (imap (fun i e => cons e <$> perms n (without v i)) v)
  end.

(** The numbers from 1 to [n]. *)
Definition upto (n : nat) : list Z := Z.of_nat <$> seq 1 n.

Fixpoint zfact (n : nat) : Z :=
  match n with
  | O => 1
  | S m => Z.of_nat n * zfact m
  end.

Lemma zfact_pos n : 0 < zfact n.
Proof. induction n; simpl zfact; [done|]. nia. Qed.

Lemma zfact_mono n m : (n <= m)%nat -> zfact n <= zfact m.
Proof.
  induction 1 as [|m Hle IH]; [done|]. simpl zfact. pose proof (zfact_pos m). nia.
Qed.

Lemma zfact_int n : (n <= 12)%nat -> zfact n <= int_max.
Proof. intros H. etrans; [by apply (zfact_mono n 12)|]. by vm_compute. Qed.

Lemma fac_spec n : (n <= 12)%nat -> fac (Z.of_nat n) = Ret (zfact n).
Proof.
  intros Hn. unfold fac. rewrite Nat2Z.id.
  destruct (for_loop_inv (fun i f => f = zfact (Z.to_nat (i - 1))) (fun i f => int_op (f * i)) n 1 1)
    as (f & -> & ->).
  - done.
  - intros i f Hi ->. replace (zfact (Z.to_nat (i - 1)) * i) with (zfact (Z.to_nat i)).
    + pose proof (zfact_pos (Z.to_nat i)). pose proof (zfact_int (Z.to_nat i) ltac:(lia)).
      rewrite int_op_in by (unfold int_min; lia). apply returns_ret. f_equal. lia.
    + replace (Z.to_nat i) with (S (Z.to_nat (i - 1))) by lia. simpl zfact. rewrite Z.mul_comm. f_equal. lia.
  - do 2 f_equal. lia.
Qed.

(** ** Lists of blocks of equal length *)

Section Blocks.
Context {A : Type} (f : nat).

Lemma mjoin_length (bs : list (list A)) :
  Forall (fun b => length b = f) bs -> length (mjoin bs) = (length bs * f)%nat.
Proof. induction 1 as [|b bs Hb _ IH]; [done|]. csimpl. rewrite length_app, Hb, IH. done. Qed.

Lemma mjoin_lookup (bs : list (list A)) i r b :
  Forall (fun b => length b = f) bs -> bs !! i = Some b -> (r < f)%nat ->
  mjoin bs !! (i * f + r)%nat = b !! r.
Proof.
  intros HF. revert i. induction HF as [|b' bs Hb _ IH]; intros i Hi Hr; [done|]. csimpl.
  destruct i as [|i]; simplify_eq/=.
  - by rewrite lookup_app_l by lia.
  - rewrite lookup_app_r by lia. rewrite <- (IH i Hi Hr). f_equal. lia.
Qed.

Lemma mjoin_split (bs : list (list A)) a x :
  Forall (fun b => length b = f) bs -> mjoin bs !! a = Some x ->
  exists i r b, a = (i * f + r)%nat /\ (r < f)%nat /\ bs !! i = Some b /\ b !! r = Some x.
Proof.
  intros HF Ha. pose proof (lookup_lt_Some _ _ _ Ha) as Hlt. rewrite mjoin_length in Hlt by done.
  assert (f <> 0)%nat as Hf by (intros ->; lia).
  pose proof (Nat.div_mod_eq a f) as E. pose proof (Nat.mod_upper_bound a f Hf) as Hr.
  destruct (lookup_lt_is_Some_2 bs (a / f)) as [b Hb]; [apply Nat.Div0.div_lt_upper_bound; lia|].
  exists (a / f)%nat, (a mod f)%nat, b. split; [lia|]. split; [done|]. split; [done|].
  rewrite <- Ha. rewrite <- (mjoin_lookup bs (a / f) (a mod f) b) by done. f_equal. lia.
Qed.
End Blocks.

(** ** The list of permutations *)

Lemma without_length v i x : v !! i = Some x -> S (length (without v i)) = length v.
Proof.
  intros E. apply lookup_lt_Some in E. unfold without. rewrite length_app, length_take, length_drop. lia.
Qed.

Lemma without_permutation v i x : v !! i = Some x -> x :: without v i ≡ₚ v.
Proof.
  intros E. unfold without. rewrite <- (take_drop_middle v i x E) at 3.
  by rewrite Permutation_middle.
Qed.

(** The blocks of [perms]. *)
Definition blocks (n : nat) (v : list Z) : list (list (list Z)) :=
  imap (fun i e => cons e <$> perms n (without v i)) v.

Lemma blocks_lookup n v i b :
  blocks n v !! i = Some b <-> exists e, v !! i = Some e /\ b = cons e <$> perms n (without v i).
Proof.
  unfold blocks. rewrite list_lookup_imap. destruct (v !! i) as [e|]; simpl.
  - split; [intros [= <-]; eauto|]. by intros (e' & [= <-] & ->).
  - split; [done|]. by intros (e' & [=] & _).
Qed.

Lemma perms_length n v : length v = n -> length (perms n v) = Z.to_nat (zfact n).
Proof.
  revert v. induction n as [|n IH]; intros v Hv; [done|]. simpl perms. fold (blocks n v).
  rewrite (mjoin_length (Z.to_nat (zfact n))).
  - unfold blocks. rewrite length_imap, Hv. simpl zfact. pose proof (zfact_pos n). nia.
  - apply Forall_lookup_2. intros i b (e & Ee & ->)%blocks_lookup. rewrite length_fmap.
    apply IH. pose proof (without_length _ _ _ Ee). lia.
Qed.

Lemma blocks_length n v :
  length v = S n -> Forall (fun b => length b = Z.to_nat (zfact n)) (blocks n v).
Proof.
  intros Hv. apply Forall_lookup_2. intros i b (e & Ee & ->)%blocks_lookup. rewrite length_fmap.
  apply perms_length. pose proof (without_length _ _ _ Ee). lia.
Qed.

(** Every permutation, and nothing else, is in the list. *)
Lemma perms_elem n v p : length v = n -> p ∈ perms n v <-> p ≡ₚ v.
Proof.
  revert v p. induction n as [|n IH]; intros v p Hv.
  - apply nil_length_inv in Hv as ->. simpl. rewrite list_elem_of_singleton. split; [by intros ->|].
    by intros ->%Permutation_nil_r.
  - simpl perms. fold (blocks n v). rewrite list_elem_of_join. split.
    + intros (b & Hp & (i & Hi)%list_elem_of_lookup_1). apply blocks_lookup in Hi as (e & Ee & ->).
      apply list_elem_of_fmap in Hp as (q & -> & Hq). pose proof (without_length _ _ _ Ee).
      apply IH in Hq; [|lia]. rewrite Hq. by apply without_permutation.
    + intros Hp. destruct p as [|e p]; [by apply Permutation_nil_l in Hp; subst|].
      assert (e ∈ v) as (i & Ei)%list_elem_of_lookup_1 by (rewrite <- Hp; by left).
      exists (cons e <$> perms n (without v i)). split.
      * apply list_elem_of_fmap. exists p. split; [done|]. pose proof (without_length _ _ _ Ei).
        apply IH; [lia|]. apply (Permutation_cons_inv (a := e)). rewrite Hp.
        symmetry. by apply without_permutation.
      * apply (list_elem_of_lookup_2 _ i), blocks_lookup. eauto.
Qed.

(** A list of numbers in increasing order. *)
Definition ascending (v : list Z) : Prop :=
  forall a b x y, (a < b)%nat -> v !! a = Some x -> v !! b = Some y -> x < y.

Lemma without_lookup v i k :
  (i < length v)%nat -> without v i !! k = v !! (if decide (k < i)%nat then k else S k).
Proof.
  intros Hi. unfold without. destruct (decide (k < i)%nat) as [Hk|Hk].
  - by rewrite lookup_app_l, lookup_take_lt by (rewrite ?length_take; lia).
  - rewrite lookup_app_r by (len). rewrite lookup_drop, length_take. f_equal. lia.
Qed.

Lemma without_ascending v i x : ascending v -> v !! i = Some x -> ascending (without v i).
Proof.
  intros Hv Hi%lookup_lt_Some a b y z Hab. rewrite !without_lookup by done.
  apply Hv. repeat destruct (decide _); lia.
Qed.

Lemma perms_increasing n v : length v = n -> ascending v -> increasing (perms n v).
Proof.
  revert v. induction n as [|n IH]; intros v Hv Hasc.
  - intros a b p q Hab _ Hb%lookup_lt_Some. simpl in Hb. lia.
  - intros a b p q Hab Ha Hb. simpl perms in Ha, Hb. fold (blocks n v) in Ha, Hb.
    pose proof (blocks_length n v Hv) as HB.
    apply (mjoin_split _ _ _ _ HB) in Ha as (i & r & bi & -> & Hr & Hi & Ha).
    apply (mjoin_split _ _ _ _ HB) in Hb as (j & s & bj & -> & Hs & Hj & Hb).
    apply blocks_lookup in Hi as (x & Hx & ->), Hj as (y & Hy & ->).
    apply list_lookup_fmap_Some in Ha as (p' & Ep & Ha), Hb as (q' & Eq & Hb). subst p q. simpl.
    destruct (decide (i = j)) as [->|Hne].
    + simplify_eq. right. split; [done|]. pose proof (without_length _ _ _ Hx).
      apply (IH (without v j) ltac:(lia) (without_ascending _ _ _ Hasc Hx) r s); [lia|done|done].
    + left. apply (Hasc i j); [nia|done|done].
Qed.

(** ** The solution *)

Lemma without_Forall (P : Z -> Prop) v i x :
  v !! i = Some x -> Forall P v -> Forall P (without v i).
Proof.
  intros E HF. rewrite <- (without_permutation v i x E) in HF. by apply Forall_cons in HF as [_ HF].
Qed.

(** The quotient and the next [k] of one call. *)
Lemma kth_block n k f :
  0 < f -> 1 <= k <= Z.of_nat (S n) * f ->
  let i := Z.quot (k - 1) f in
  0 <= i < Z.of_nat (S n) /\ 1 <= k - i * f <= f /\ 0 <= i * f <= k - 1 /\
  Z.to_nat (k - 1) = (Z.to_nat i * Z.to_nat f + Z.to_nat (k - i * f - 1))%nat.
Proof.
  intros Hf Hk i. unfold i. rewrite Z.quot_div_nonneg by lia. clear i.
  pose proof (Z.div_mod (k - 1) f ltac:(lia)) as Ed. pose proof (Z.mod_pos_bound (k - 1) f Hf) as Hm.
  set (i := (k - 1) / f) in *. assert (0 <= i < Z.of_nat (S n)) as Hi.
  { split; [apply Z.div_pos; lia|]. apply Z.div_lt_upper_bound; lia. }
  assert (0 <= i * f) by nia. split; [done|]. split; [lia|]. split; [lia|].
  rewrite <- Z2Nat.inj_mul, <- Z2Nat.inj_add by lia. f_equal. lia.
Qed.

Lemma solve_spec n v k res :
  length v = n -> (n <= 13)%nat -> Forall (fun x => 0 <= x <= 79) v ->
  1 <= k <= zfact n -> k <= int_max ->
  exists p, perms n v !! Z.to_nat (k - 1) = Some p /\
    solve (S n) v k res = Ret (res ++ (Z.add 48 <$> p)).
Proof.
  revert v k res. induction n as [|n IH]; intros v k res Hv Hn HF Hk Hmax.
  - exists []. apply nil_length_inv in Hv as ->. rewrite app_nil_r.
    split; [|done]. simpl in Hk. by replace k with 1 by lia.
  - pose proof (zfact_pos n) as Hf. pose proof (zfact_int n ltac:(lia)) as Hfm.
    destruct (kth_block n k (zfact n) Hf Hk) as (Hi & Hk' & Hp & Ek).
    set (i := Z.quot (k - 1) (zfact n)) in *.
    destruct (lookup_lt_is_Some_2 v (Z.to_nat i)) as [e He]; [lia|].
    pose proof (Forall_lookup_1 _ _ _ _ HF He) as Hev. simpl in Hev.
    pose proof (without_length _ _ _ He) as Hw.
    destruct (IH (without v (Z.to_nat i)) (k - i * zfact n) (res ++ [48 + e])) as (p & Hpp & Hs);
      [lia|lia|by eapply without_Forall|lia|lia|].
    exists (e :: p). split.
    + simpl perms. fold (blocks n v). rewrite Ek.
      rewrite (mjoin_lookup _ _ _ _ (cons e <$> perms n (without v (Z.to_nat i)))
        (blocks_length n v Hv)); [|apply blocks_lookup; eauto|lia].
      by rewrite list_lookup_fmap, Hpp.
    + remember (S n) as m eqn:Em. cbn [solve]. subst m.
      remember (solve (S n)) as again eqn:Eagain in Hs |- *.
      rewrite (proj2 (Z.eqb_neq (zlen v) 0)) by len.
      rewrite to_int_small by (unfold zlen, int_min, int_max; lia).
      replace (zlen v - 1) with (Z.of_nat n) by len. rewrite fac_spec by lia. simpl mbind.
      assert (int_min <= 0) by done. rewrite int_op_in by lia. simpl mbind. unfold int_div.
      rewrite (proj2 (Z.eqb_neq (zfact n) 0)) by lia. fold i.
      rewrite int_op_in by (split; [lia|]; unfold int_max; lia). simpl mbind.
      rewrite (proj2 (vget_Ret v i e)) by (split; [lia|done]). simpl mbind.
      rewrite (int_op_in (48 + e)) by (unfold int_max; lia). simpl mbind. rewrite int_op_in by lia. simpl mbind.
      rewrite int_op_in by lia. simpl mbind. change (erase v i) with (without v (Z.to_nat i)).
      unfold to_char. rewrite Z.mod_small by lia. replace (48 + e + 128 - 128) with (48 + e) by lia.
      rewrite Hs. by rewrite <- app_assoc.
Qed.

Lemma upto_length n : length (upto n) = n.
Proof. unfold upto. by rewrite length_fmap, length_seq. Qed.

Lemma upto_lookup n k x : upto n !! k = Some x <-> (k < n)%nat /\ x = Z.of_nat (S k).
Proof.
  unfold upto. rewrite list_lookup_fmap_Some. split.
  - intros (y & -> & [Hy Hk]%lookup_seq). split; [done|]. f_equal. lia.
  - intros [Hk ->]. exists (S k). split; [done|]. by rewrite lookup_seq_lt.
Qed.

(** The vector that [getPermutation] fills. *)
Lemma fill_spec n :
  for_loop n 0 (fun i v => vset v i (i + 1)) (replicate n 0) = Ret (upto n).
Proof.
  destruct (for_loop_inv (fun i (v : list Z) => length v = n /\
    take (Z.to_nat i) v = take (Z.to_nat i) (upto n)) (fun i v => vset v i (i + 1)) n 0 (replicate n 0))
    as (v & -> & Hl & Ht).
  - by rewrite length_replicate.
  - intros i v Hi [Hl Ht]. rewrite vset_in_range by len. apply returns_ret.
    rewrite length_insert. split; [done|]. replace (Z.to_nat (i + 1)) with (S (Z.to_nat i)) by lia.
    rewrite take_insert_next, Ht by lia.
    rewrite (take_S_r (upto n) (Z.to_nat i) (i + 1)); [done|]. apply upto_lookup. lia.
  - f_equal. rewrite !take_ge in Ht; [done|rewrite upto_length; lia|lia].
Qed.

(** For [n] up to 13 and [1 <= k <= n!] the solution returns, without any
    fault, the digits of the [k]-th permutation: the one at position [k - 1]
    of the list of all permutations of [1 .. n] in lexicographic order.  (From
    ten on a number is written as the character that many places after [0].) *)
Theorem getPermutation_correct n k :
  (n <= 13)%nat -> 1 <= k <= zfact n -> k <= int_max ->
  exists all p, (forall q, q ∈ all <-> q ≡ₚ upto n) /\ increasing all /\
    all !! Z.to_nat (k - 1) = Some p /\
    getPermutation (Z.of_nat n) k = Ret (Z.add 48 <$> p).
Proof.
  intros Hn Hk Hmax.
  destruct (solve_spec n (upto n) k []) as (p & Hp & Hs); [apply upto_length|done| |done|done|].
  { apply Forall_lookup_2. intros i x [Hi ->]%upto_lookup. lia. }
  exists (perms n (upto n)), p. split_and!.
  - intros q. by apply perms_elem, upto_length.
  - apply perms_increasing; [apply upto_length|].
    intros a b x y Hab [_ ->]%upto_lookup [_ ->]%upto_lookup. lia.
  - done.
  - unfold getPermutation. rewrite (proj2 (Z.ltb_ge _ _)) by lia. rewrite Nat2Z.id, fill_spec.
    simpl mbind. by rewrite upto_length.
Qed.

Lemma getPermutation_correct_witness :
  exists all p, (forall q, q ∈ all <-> q ≡ₚ upto 4) /\ increasing all /\
    all !! Z.to_nat (9 - 1) = Some p /\
    getPermutation (Z.of_nat 4) 9 = Ret (Z.add 48 <$> p).
Proof. apply (getPermutation_correct 4 9); [lia|by vm_compute|by vm_compute]. Defined.
