(* ===== verification/Wildcard.v ===== *)
(** * Wildcard matching

    src/c++/leetcode/44-2.cpp: a pattern with [?] (one character) and [*] (any
    characters) is cut at its stars; the pieces before the first and after the
    last star are matched at the ends of the text and the others searched
    greedily from left to right.  The reference is the inductive definition of
    what a pattern matches. *)

From stdpp Require Import base list numbers relations.
From Stdlib Require Import ZArith Lia.
From S2P Require Import Prelude Strings.

Open Scope Z_scope.

Definition star : Z := 42.
Definition any : Z := 63.

(** [string::npos] converted to [int]. *)
Definition npos : Z := -1.

(** ** The solution *)

(** One round of [stringSplit]: [from] and [elems]. *)
Definition split_at (str : list Z) (delim : Z) (i : Z) (st : Z * list (list Z))
    : outcome (Z * list (list Z)) :=
  let '(from, elems) := st in
  c ← vget str i;
  if c =? delim then
    let elems1 :=
      if from <? i then elems ++ [substr str (Z.to_nat from) (Z.to_nat (i - from))] else elems in
    Ret (i + 1, elems1 ++ [substr str (Z.to_nat i) 1])
  else Ret (from, elems).

Definition stringSplit (str : list Z) (delim : Z) : outcome (list (list Z)) :=
  st ← for_loop (length str) 0 (split_at str delim) (0, []);
  let '(from, elems) := st in
  if from <? zlen str then
    Ret (elems ++ [substr str (Z.to_nat from) (Z.to_nat (zlen str - from))])
  else Ret elems.

(** The loop of [match_exact] over the pattern, from position [pos] of [s]. *)
Fixpoint match_chars (s : list Z) (pos : Z) (p : list Z) : outcome bool :=
  match p with
  | [] => Ret true
  | c :: p =>
      if c =? any then match_chars s (pos + 1) p
      else
        d ← vget s pos;
        if c =? d then match_chars s (pos + 1) p else Ret false
  end.

Definition match_exact (s : list Z) (i : Z) (p : list Z) : outcome Z :=
  if zlen s <? i + zlen p then Ret npos
  else
    ok ← match_chars s i p;
    Ret (if ok : bool then to_int (i + zlen p) else npos).

(** [for (; i < s.size()-p.size()+1; i++)], in [size_t] arithmetic. *)
Fixpoint match_from (fuel : nat) (s : list Z) (i : Z) (p : list Z) : outcome Z :=
  match fuel with
  | O => NoFuel
  | S fuel =>
      if i <? szadd (szadd (zlen s) (- zlen p)) 1 then
        ret ← match_exact s i p;
        if ret =? npos then match_from fuel s (i + 1) p else Ret ret
      else Ret npos
  end.

(** The positions of [s] are enough rounds. *)
Definition match_ (s : list Z) (i : Z) (p : list Z) : outcome Z :=
  match_from (length s + 2) s i p.

(** [stripleft] and [stripright] change [s] and [ps]. *)
Fixpoint stripleft (s : list Z) (ps : list (list Z)) : outcome (bool * list Z * list (list Z)) :=
  match ps with
  | [] => Ret (bool_decide (s = []), s, ps)
  | front :: ps' =>
      if decide (front = [star]) then Ret (true, s, ps)
      else if zlen s <? zlen front then Ret (false, s, ps)
      else
        ret ← match_exact s 0 front;
        if ret =? npos then Ret (false, s, ps)
        else stripleft (substr s (length front) (length s - length front)) ps'
  end.

Fixpoint stripright_loop (fuel : nat) (s : list Z) (ps : list (list Z))
    : outcome (bool * list Z * list (list Z)) :=
  match fuel with
  | O => NoFuel
  | S fuel =>
      match last ps with
      | None => Ret (bool_decide (s = []), s, ps)
      | Some back =>
          if decide (back = [star]) then Ret (true, s, ps)
          else if zlen s <? zlen back then Ret (false, s, ps)
          else
            ret ← match_exact (substr s (length s - length back) (length back)) 0 back;
            if ret =? npos then Ret (false, s, ps)
            else stripright_loop fuel (substr s 0 (length s - length back)) (removelast ps)
      end
  end.

(** Each round removes a piece. *)
Definition stripright (s : list Z) (ps : list (list Z)) : outcome (bool * list Z * list (list Z)) :=
  stripright_loop (length ps + 1) s ps.

(** The loop of [isMatch] over the pieces that are left. *)
Fixpoint match_pieces (s : list Z) (i : Z) (ps : list (list Z)) : outcome bool :=
  match ps with
  | [] => Ret true
  | p :: ps =>
      if decide (p = [star]) then match_pieces s i ps
      else if zlen s <? i + zlen p then Ret false
      else
        i' ← match_ s i p;
        if i' =? npos then Ret false else match_pieces s i' ps
  end.

Definition isMatch (s p : list Z) : outcome bool :=
  ps ← stringSplit p star;
  left ← stripleft s ps;
  let '(ok1, s1, ps1) := left in
  if negb ok1 then Ret false
  else
    right ← stripright s1 ps1;
    let '(ok2, s2, ps2) := right in
    if negb ok2 then Ret false else match_pieces s2 0 ps2.

(** ** The reference *)

(** [matches p s]: the pattern [p] matches the text [s]. *)
Inductive matches : list Z -> list Z -> Prop :=
  | matches_nil : matches [] []
  | matches_char c p s : c <> star -> matches p s -> matches (c :: p) (c :: s)
  | matches_any c p s : matches p s -> matches (any :: p) (c :: s)
  | matches_star p u t : matches p t -> matches (star :: p) (u ++ t).

(** A piece without stars matches a text of its length. *)
Definition exact (p u : list Z) : Prop := Forall2 (fun c d => c = any \/ c = d) p u.

Lemma matches_nil_inv s : matches [] s -> s = [].
Proof. by inversion 1. Qed.

Lemma matches_star_inv p s : matches (star :: p) s -> exists u t, s = u ++ t /\ matches p t.
Proof. inversion 1; simplify_eq; eauto. Qed.

Lemma matches_lit p q s :
  star ∉ p -> matches (p ++ q) s <-> exists u t, s = u ++ t /\ exact p u /\ matches q t.
Proof.
  revert s. induction p as [|c p IH]; intros s Hp.
  - split; [intros H; exists [], s; by repeat constructor|]. by intros (u & t & -> & ->%Forall2_nil_inv_l & H).
  - apply not_elem_of_cons in Hp as [Hc Hp]. simpl. split.
    + intros H. inversion H as [|? ? s' Hne H'|d ? s' H'|]; simplify_eq;
        apply IH in H' as (u & t & -> & He & Ht); try done.
      * exists (c :: u), t. split; [done|]. split; [|done]. constructor; auto.
      * exists (d :: u), t. split; [done|]. split; [|done]. constructor; auto.
    + intros (u & t & -> & He & Ht). inversion He as [|c' d p' u' Hcd He']; simplify_eq. simpl.
      assert (matches (p ++ q) (u' ++ t)) by (apply IH; eauto).
      destruct Hcd as [->| ->]; by constructor.
Qed.

Lemma matches_app p q s : matches (p ++ q) s <-> exists u t, s = u ++ t /\ matches p u /\ matches q t.
Proof.
  split.
  - revert s. induction p as [|c p IH]; intros s H.
    + exists [], s. by repeat constructor.
    + simpl in H. inversion H as [|? ? s' Hne H'|d ? s' H'|? u' t' H']; simplify_eq;
        apply IH in H' as (u & t & -> & Hu & Ht).
      * exists (c :: u), t. split; [done|]. split; [by constructor|done].
      * exists (d :: u), t. split; [done|]. split; [by constructor|done].
      * exists (u' ++ u), t. rewrite app_assoc. split; [done|]. split; [by constructor|done].
  - intros (u & t & -> & Hu & Ht). induction Hu as [|c p s Hne Hu IH|c p s Hu IH|p u s Hu IH]; simpl.
    + done.
    + by constructor.
    + by constructor.
    + rewrite <- app_assoc. by constructor.
Qed.

Lemma matches_exact p u : star ∉ p -> matches p u <-> exact p u.
Proof.
  intros Hp. rewrite <- (app_nil_r p) at 1. rewrite matches_lit by done. split.
  - intros (u' & t & -> & He & ->%matches_nil_inv). by rewrite app_nil_r.
  - intros He. exists u, []. rewrite app_nil_r. by repeat constructor.
Qed.

(** Two stars in a row are one. *)
Lemma matches_star_star p s : matches (star :: star :: p) s <-> matches (star :: p) s.
Proof.
  split.
  - intros (u & t & -> & H)%matches_star_inv. apply matches_star_inv in H as (u' & t' & -> & H).
    rewrite app_assoc. by constructor.
  - intros H. apply (matches_star _ [] s H).
Qed.

(** ** Searching a piece *)

(** The piece [p] matches at position [k] of the text. *)
Definition fits (p s : list Z) (k : nat) : Prop :=
  (k + length p <= length s)%nat /\ exact p (take (length p) (drop k s)).

Lemma fits_iff p s k : fits p s k <-> exists a u b, s = a ++ u ++ b /\ length a = k /\ exact p u.
Proof.
  split.
  - intros [Hl He]. exists (take k s), (take (length p) (drop k s)), (drop (length p) (drop k s)).
    rewrite !take_drop, length_take. split; [done|]. split; [lia|done].
  - intros (a & u & b & -> & <- & He). pose proof (Forall2_length _ _ _ He) as Hl. unfold fits.
    rewrite drop_app_length, Hl, take_app_length, !length_app. split; [lia|done].
Qed.

Lemma exact_cons c d p u : exact (c :: p) (d :: u) <-> (c = any \/ c = d) /\ exact p u.
Proof. unfold exact. by rewrite Forall2_cons. Qed.

Lemma match_chars_spec p s k :
  (k + length p <= length s)%nat ->
  exists b, match_chars s (Z.of_nat k) p = Ret b /\
    (b = true <-> exact p (take (length p) (drop k s))).
Proof.
  revert k. induction p as [|c p IH]; intros k Hk; simpl in Hk.
  - exists true. split; [done|]. split; [constructor|done].
  - destruct (lookup_lt_is_Some_2 s k) as [d Hd]; [lia|]. rewrite (drop_S _ _ _ Hd).
    destruct (IH (S k)) as (b & Hb & Hiff); [lia|].
    cbn [match_chars length take]. replace (Z.of_nat k + 1) with (Z.of_nat (S k)) by lia.
    setoid_rewrite exact_cons.
    destruct (Z.eqb_spec c any) as [->|Hc].
    + exists b. rewrite Hb, Hiff. split; [done|]. tauto.
    + rewrite (vget_nat _ _ _ Hd). bind_ret. destruct (Z.eqb_spec c d) as [->|Hcd].
      * exists b. rewrite Hb, Hiff. split; [done|]. tauto.
      * exists false. split; [done|]. split; [done|]. intros [[?|?] _]; done.
Qed.

Section Search.
Context (s : list Z) (Hs : zlen s <= int_max).

Lemma match_exact_spec k p :
  exists r, match_exact s (Z.of_nat k) p = Ret r /\
    (r = npos /\ ~ fits p s k \/ r = Z.of_nat (k + length p) /\ fits p s k).
Proof using Hs.
  unfold match_exact, zlen in *.
  destruct (Z.ltb_spec (Z.of_nat (length s)) (Z.of_nat k + Z.of_nat (length p))) as [Hlt|Hge].
  - exists npos. split; [done|]. left. split; [done|]. intros [H _]. lia.
  - destruct (match_chars_spec p s k) as (b & -> & Hb); [lia|]. bind_ret.
    eexists. split; [done|]. destruct b.
    + right. rewrite to_int_small by (unfold int_min; lia). split; [lia|]. split; [lia|by apply Hb].
    + left. split; [done|]. intros [_ H]. by apply Hb in H.
Qed.

(** The loop finds the leftmost position from [k] on. *)
Lemma match_from_spec fuel k p :
  (length p <= length s)%nat -> (k <= length s + 1)%nat -> (length s + 1 < k + fuel)%nat ->
  exists r, match_from fuel s (Z.of_nat k) p = Ret r /\
    (r = npos /\ (forall j, (k <= j)%nat -> ~ fits p s j) \/
     exists j, (k <= j)%nat /\ fits p s j /\ (forall i, (k <= i < j)%nat -> ~ fits p s i) /\
       r = Z.of_nat (j + length p)).
Proof using Hs.
  intros Hp. revert k. induction fuel as [|fuel IH]; intros k Hk Hf; [lia|]. simpl match_from.
  assert (szadd (szadd (zlen s) (- zlen p)) 1 = zlen s - zlen p + 1) as ->.
  { unfold szadd, zlen in *. rewrite (Z.mod_small (_ + - _)) by (unfold size_max, int_max in *; lia).
    rewrite Z.mod_small by (unfold size_max, int_max in *; lia). lia. }
  destruct (Z.ltb_spec (Z.of_nat k) (zlen s - zlen p + 1)) as [Hlt|Hge]; unfold zlen in *.
  - destruct (match_exact_spec k p) as (r & -> & [[-> Hn]|[-> Hfit]]); bind_ret.
    + rewrite Z.eqb_refl. replace (Z.of_nat k + 1) with (Z.of_nat (S k)) by lia.
      destruct (IH (S k)) as (r & -> & Hr); [lia|lia|]. exists r. split; [done|].
      destruct Hr as [[-> Hno]|(j & Hj & Hfit & Hno & ->)]; [left|right].
      * split; [done|]. intros j Hj. destruct (decide (j = k)) as [->|]; [done|]. apply Hno. lia.
      * exists j. split; [lia|]. split; [done|]. split; [|done]. intros i Hi.
        destruct (decide (i = k)) as [->|]; [done|]. apply Hno. lia.
    + rewrite (proj2 (Z.eqb_neq _ _)) by (unfold npos; lia). eexists. split; [done|]. right.
      exists k. split; [done|]. split; [done|]. split; [lia|done].
  - exists npos. split; [done|]. left. split; [done|]. intros j Hj [Hl _]. lia.
Qed.

Lemma match_spec k p :
  (k + length p <= length s)%nat ->
  exists r, match_ s (Z.of_nat k) p = Ret r /\
    (r = npos /\ (forall j, (k <= j)%nat -> ~ fits p s j) \/
     exists j, (k <= j)%nat /\ fits p s j /\ (forall i, (k <= i < j)%nat -> ~ fits p s i) /\
       r = Z.of_nat (j + length p)).
Proof using Hs. intros H. apply match_from_spec; lia. Qed.
End Search.

(** ** The pieces of a pattern *)

Section Pieces.
Context (d : Z).

Definition literal_of (p : list Z) : Prop := p <> [] /\ d ∉ p.

(** Stars and literals, no two literals in a row. *)
Fixpoint pieces_of (ps : list (list Z)) : Prop :=
  match ps with
  | [] => True
  | p :: ps =>
      (p = [d] \/ literal_of p /\ match ps with [] => True | p' :: _ => p' = [d] end) /\ pieces_of ps
  end.

Lemma literal_not_star p : literal_of p -> p <> [d].
Proof. intros [_ H] ->. apply H. by left. Qed.

Lemma pieces_app_l ps qs : pieces_of (ps ++ qs) -> pieces_of ps.
Proof.
  induction ps as [|p ps IH]; [done|]. simpl. intros [H Hps]. split; [|by apply IH].
  destruct H as [->|[Hl H]]; [by left|right]. split; [done|]. by destruct ps.
Qed.

Lemma pieces_snoc ps p :
  pieces_of ps -> p = [d] \/ literal_of p /\ (ps = [] \/ last ps = Some [d]) -> pieces_of (ps ++ [p]).
Proof.
  intros Hps Hp. induction ps as [|q ps IH]; simpl in *.
  - split; [|done]. destruct Hp as [?|[? _]]; [by left|by right].
  - destruct Hps as [Hq Hps]. split.
    + destruct Hq as [->|[Hl Hq]]; [by left|right]. split; [done|]. destruct ps as [|q' ps]; [|done].
      simpl. destruct Hp as [->|[_ [?|Hlast]]]; [done|done|]. simplify_eq/=. by destruct (literal_not_star _ Hl).
    + apply IH; [done|]. destruct Hp as [->|[Hl [?|Hlast]]]; [by left|done|right].
      split; [done|]. destruct ps; [by left|by right].
Qed.

(** What the loop of [stringSplit] keeps before round [i]. *)
Definition split_at_inv (str : list Z) (i : Z) (st : Z * list (list Z)) : Prop :=
  exists from, st.1 = Z.of_nat from /\ (Z.of_nat from <= i) /\
    pieces_of st.2 /\ (st.2 = [] \/ last st.2 = Some [d]) /\
    mjoin st.2 = take from str /\
    d ∉ take (Z.to_nat i - from) (drop from str).

Lemma substr_literal (str : list Z) from n :
  (from + n <= length str)%nat -> (0 < n)%nat -> d ∉ take n (drop from str) ->
  literal_of (substr str from n).
Proof.
  intros Hle Hn Hs. split; [|done]. intros E. apply (f_equal length) in E. unfold substr in E.
  rewrite length_take, length_drop in E. simpl in E. lia.
Qed.

Lemma take_take_drop {A} (l : list A) a b : take a l ++ take b (drop a l) = take (a + b) l.
Proof.
  rewrite <- (take_drop a l) at 3.
  destruct (decide (a <= length l)%nat) as [Hle|Hgt].
  - rewrite <- (length_take_le l a Hle) at 3. by rewrite take_app_add.
  - rewrite (drop_ge l a), !app_nil_r, take_nil, app_nil_r, take_take by lia. f_equal. lia.
Qed.

Lemma split_at_step str i st :
  0 <= i < zlen str -> split_at_inv str i st ->
  returns (split_at str d i st) (split_at_inv str (i + 1)).
Proof.
  intros Hi (from & Ef & Hle & Hp & Hl & Hj & Hs). destruct st as [f elems]. simpl in *. subst f.
  unfold zlen in Hi. destruct (lookup_lt_is_Some_2 str (Z.to_nat i)) as [c Hc]; [lia|].
  unfold split_at. rewrite (proj2 (vget_Ret str i c)) by (split; [lia|done]). bind_ret.
  assert (substr str (Z.to_nat i) 1 = [c]) as E1 by (unfold substr; by rewrite (drop_S _ _ _ Hc)).
  destruct (Z.eqb_spec c d) as [->|Hne]; apply returns_ret.
  - exists (S (Z.to_nat i)). cbn [fst snd]. rewrite !Nat2Z.id, E1.
    split; [lia|]. split; [lia|].
    replace (Z.to_nat (i + 1) - S (Z.to_nat i))%nat with 0%nat by lia.
    rewrite join_app, last_snoc, (take_S_r _ _ _ Hc).
    assert (pieces_of (if Z.of_nat from <? i then elems ++ [substr str from (Z.to_nat (i - Z.of_nat from))] else elems) /\
      mjoin (if Z.of_nat from <? i then elems ++ [substr str from (Z.to_nat (i - Z.of_nat from))] else elems)
        = take (Z.to_nat i) str) as [Hp1 Hj1].
    { destruct (Z.ltb_spec (Z.of_nat from) i) as [Hlt|Hge].
      - replace (Z.to_nat (i - Z.of_nat from)) with (Z.to_nat i - from)%nat by lia. split.
        + apply pieces_snoc; [done|]. right. split; [|done]. apply substr_literal; [lia|lia|done].
        + rewrite join_app, Hj. csimpl. rewrite app_nil_r. unfold substr. rewrite take_take_drop. f_equal. lia.
      - split; [done|]. by replace (Z.to_nat i) with from by lia. }
    split; [apply pieces_snoc; [done|by left]|]. split; [by right|]. rewrite Hj1.
    split; [done|]. simpl. apply not_elem_of_nil.
  - exists from. simpl. split; [done|]. split; [lia|]. split; [done|]. split; [done|]. split; [done|].
    replace (Z.to_nat (i + 1) - from)%nat with (S (Z.to_nat i - from)) by lia.
    rewrite (take_S_r _ _ c).
    + rewrite elem_of_snoc. intros [?|?]; done.
    + rewrite lookup_drop. by replace (from + (Z.to_nat i - from))%nat with (Z.to_nat i) by lia.
Qed.

(** [stringSplit] cuts the pattern into stars and literals. *)
Lemma stringSplit_spec str :
  exists ps, stringSplit str d = Ret ps /\ pieces_of ps /\ mjoin ps = str.
Proof.
  unfold stringSplit.
  destruct (for_loop_inv (split_at_inv str) (split_at str d) (length str) 0 (0, []))
    as ([f elems] & -> & (from & Ef & Hle & Hp & Hl & Hj & Hs)).
  - exists 0%nat. simpl. split_and!; try done; [by left|apply not_elem_of_nil].
  - intros j t Hj. apply split_at_step. unfold zlen. lia.
  - rewrite Z.add_0_l in *. simpl in *. subst f. unfold zlen. rewrite Nat2Z.id in Hs. rewrite Nat2Z.id.
    destruct (Z.ltb_spec (Z.of_nat from) (Z.of_nat (length str))) as [Hlt|Hge].
    + replace (Z.to_nat (Z.of_nat (length str) - Z.of_nat from)) with (length str - from)%nat by lia.
      eexists. split; [done|]. split.
      * apply pieces_snoc; [done|]. right. split; [|done]. apply substr_literal; [lia|lia|done].
      * rewrite join_app, Hj. csimpl. rewrite app_nil_r. unfold substr. rewrite take_take_drop.
        apply take_ge. lia.
    + exists elems. split; [done|]. split; [done|]. rewrite Hj. apply take_ge. lia.
Qed.

End Pieces.

Abbreviation literal := (literal_of star).
Abbreviation pieces := (pieces_of star).

(** ** Stripping the ends *)

Lemma front_fits p q u b : star ∉ p -> exact p u -> matches (p ++ q) (u ++ b) <-> matches q b.
Proof.
  intros Hp He. rewrite matches_lit by done. split; [|by eauto].
  intros (u' & t & E & He' & Ht). apply app_inj_1 in E as [-> ->]; [done|].
  by rewrite <- (Forall2_length _ _ _ He), <- (Forall2_length _ _ _ He').
Qed.

Lemma front_misfits p q s : star ∉ p -> ~ fits p s 0 -> ~ matches (p ++ q) s.
Proof.
  intros Hp Hf (u & t & -> & He & _)%matches_lit; [|done]. apply Hf, fits_iff. by exists [], u, t.
Qed.

Lemma back_fits p q a u : star ∉ p -> exact p u -> matches (q ++ p) (a ++ u) <-> matches q a.
Proof.
  intros Hp He. rewrite matches_app. split.
  - intros (a' & u' & E & Ha & Hu%matches_exact); [|done]. apply app_inj_2 in E as [-> ->]; [done|].
    by rewrite <- (Forall2_length _ _ _ He), <- (Forall2_length _ _ _ Hu).
  - intros Ha. exists a, u. split; [done|]. split; [done|]. by apply matches_exact.
Qed.

Lemma back_misfits p q s :
  star ∉ p -> (forall a u, s = a ++ u -> ~ exact p u) -> ~ matches (q ++ p) s.
Proof.
  intros Hp Hf (a & u & -> & _ & Hu%matches_exact)%matches_app; [|done]. by apply (Hf a u).
Qed.

Lemma stripleft_spec ps s :
  zlen s <= int_max -> pieces ps ->
  exists ok s' ps', stripleft s ps = Ret (ok, s', ps') /\
    if ok : bool then
      (matches (mjoin ps) s <-> matches (mjoin ps') s') /\ pieces ps' /\ zlen s' <= int_max /\
      (ps' = [] /\ s' = [] \/ exists qs, ps' = [star] :: qs)
    else ~ matches (mjoin ps) s.
Proof.
  revert s. induction ps as [|p ps IH]; intros s Hs Hps; simpl stripleft.
  - eexists _, _, _. split; [done|]. case_bool_decide as Es.
    + split; [done|]. split; [done|]. split; [done|]. by left.
    + intros H%matches_nil_inv. done.
  - destruct (decide (p = [star])) as [->|Hne].
    { eexists _, _, _. split; [done|]. simpl. split; [done|]. split; [done|]. split; [done|]. eauto. }
    destruct Hps as [[->|[[_ Hlit] _]] Hps]; [done|]. unfold zlen at 1 2. csimpl.
    destruct (Z.ltb_spec (Z.of_nat (length s)) (Z.of_nat (length p))) as [Hlt|Hge].
    { eexists _, _, _. split; [done|]. simpl. apply front_misfits; [done|]. intros [Hf _]. lia. }
    destruct (match_exact_spec s Hs 0 p) as (r & E0 & Hr). change (Z.of_nat 0) with 0 in E0. rewrite E0.
    bind_ret. destruct Hr as [[-> Hn]|[-> Hf]].
    + rewrite Z.eqb_refl. eexists _, _, _. split; [done|]. simpl. by apply front_misfits.
    + rewrite (proj2 (Z.eqb_neq _ _)) by (unfold npos; lia).
      apply fits_iff in Hf as (a & u & b & -> & ->%nil_length_inv & He). simpl in *.
      pose proof (Forall2_length _ _ _ He) as Hl. unfold substr. rewrite Hl, drop_app_length.
      rewrite take_ge by (rewrite length_app; lia).
      destruct (IH b) as (ok & s' & ps' & E & Hok); [unfold zlen in *; rewrite length_app in Hs; lia|done|].
      eexists _, _, _. split; [exact E|]. destruct ok; by rewrite front_fits.
Qed.

Lemma pieces_last ps p : pieces (ps ++ [p]) -> p = [star] \/ literal p.
Proof.
  induction ps as [|q ps IH]; simpl.
  - intros [[?|[? _]] _]; [by left|by right].
  - intros [_ H]. by apply IH.
Qed.

Lemma stripright_spec ps s :
  zlen s <= int_max -> pieces ps ->
  exists ok s' ps', stripright s ps = Ret (ok, s', ps') /\
    if ok : bool then
      (matches (mjoin ps) s <-> matches (mjoin ps') s') /\ zlen s' <= int_max /\
      (exists qs, ps = ps' ++ qs) /\ (ps' = [] /\ s' = [] \/ last ps' = Some [star])
    else ~ matches (mjoin ps) s.
Proof.
  unfold stripright. revert s. induction ps as [|p ps IH] using rev_ind; intros s Hs Hps.
  - eexists _, _, _. split; [done|]. case_bool_decide as Es.
    + split; [done|]. split; [done|]. split; [by exists []|]. by left.
    + intros H%matches_nil_inv. done.
  - rewrite length_app, Nat.add_1_r. cbn [stripright_loop]. rewrite last_snoc.
    destruct (decide (p = [star])) as [->|Hne].
    { eexists _, _, _. split; [done|]. cbn. split; [done|]. split; [done|].
      split; [exists []; by rewrite app_nil_r|]. right. apply last_snoc. }
    destruct (pieces_last _ _ Hps) as [->|[_ Hlit]]; [done|]. rewrite join_app. unfold zlen at 1 2.
    change (mjoin [p]) with (p ++ []). rewrite app_nil_r.
    destruct (Z.ltb_spec (Z.of_nat (length s)) (Z.of_nat (length p))) as [Hlt|Hge].
    { eexists _, _, _. split; [done|]. apply back_misfits; [done|]. intros a u -> He.
      apply Forall2_length in He. rewrite length_app in Hlt. lia. }
    set (a := take (length s - length p) s). set (u := drop (length s - length p) s).
    assert (s = a ++ u) as Eau by (symmetry; apply take_drop).
    assert (length u = length p) as Hu by (unfold u; len).
    assert (substr s (length s - length p) (length p) = u) as ->.
    { unfold substr. apply take_ge. lia. }
    assert (substr s 0 (length s - length p) = a) as -> by done. rewrite removelast_last.
    destruct (match_exact_spec u ltac:(unfold zlen in *; lia) 0 p) as (r & E0 & Hr).
    change (Z.of_nat 0) with 0 in E0. rewrite E0. bind_ret. destruct Hr as [[-> Hn]|[-> Hf]].
    + rewrite Z.eqb_refl. eexists _, _, _. split; [done|]. apply back_misfits; [done|].
      intros a' u' E He. rewrite Eau in E. pose proof (Forall2_length _ _ _ He).
      apply app_inj_2 in E as [_ ->]; [|lia]. apply Hn, fits_iff. exists [], u', [].
      by rewrite app_nil_r.
    + rewrite (proj2 (Z.eqb_neq _ _)) by (unfold npos; lia).
      destruct Hf as [_ He]. rewrite drop_0, take_ge in He by lia.
      destruct (IH a) as (ok & s' & ps' & E & Hok).
      { unfold a, zlen in *. len. }
      { by apply pieces_app_l in Hps. }
      eexists _, _, _. split; [exact E|]. rewrite Eau.
      destruct ok; rewrite back_fits by done; [|done].
      destruct Hok as (H1 & H2 & (qs & ->) & H4). split; [done|]. split; [done|].
      split; [|done]. exists (qs ++ [p]). by rewrite app_assoc.
Qed.

(** ** The pieces between stars *)

Lemma star_suffix p s x y : s = x ++ y -> matches (star :: p) y -> matches (star :: p) s.
Proof. intros -> (u & t & -> & H)%matches_star_inv. rewrite app_assoc. by constructor. Qed.

(** A piece after a star is best matched at its leftmost position. *)
Lemma leftmost_piece p q s i j :
  star ∉ p -> (i <= j)%nat -> fits p s j -> (forall k, (i <= k < j)%nat -> ~ fits p s k) ->
  matches (star :: p ++ star :: q) (drop i s) <->
  matches (star :: star :: q) (drop (j + length p) s).
Proof.
  intros Hp Hij Hf Hno. rewrite matches_star_star. split.
  - intros (u & t & E & Ht)%matches_star_inv. apply matches_lit in Ht as (v & b & -> & He & Hb); [|done].
    assert (s = (take i s ++ u) ++ v ++ b) as Es by (rewrite <- app_assoc, <- E; symmetry; apply take_drop).
    destruct Hf as [Hj _]. assert (length (take i s ++ u) = (i + length u)%nat) as Hk
      by (rewrite length_app, length_take; lia).
    assert (fits p s (i + length u)) as Hf' by (apply fits_iff; eauto 10).
    assert (j <= i + length u)%nat as Hle.
    { destruct (decide (j <= i + length u)%nat); [done|]. destruct (Hno (i + length u)%nat); [lia|done]. }
    apply (star_suffix _ _ (take (i + length u - j) (drop (j + length p) s)) b); [|done].
    rewrite <- (take_drop (i + length u - j) (drop (j + length p) s)) at 1. f_equal.
    rewrite drop_drop. replace (j + length p + (i + length u - j))%nat with (length (take i s ++ u) + length v)%nat
      by (rewrite Hk, <- (Forall2_length _ _ _ He); lia).
    pose proof (drop_app_add (take i s ++ u) (v ++ b) (length v)) as Hd. rewrite <- Es in Hd.
    by rewrite Hd, drop_app_length.
  - intros H. apply fits_iff in Hf as (a & u & b & -> & <- & He).
    rewrite (Forall2_length _ _ _ He), drop_app_add, drop_app_length in H.
    rewrite drop_app_le by done. constructor. apply matches_lit; [done|]. eauto.
Qed.

Lemma match_pieces_spec ps s i :
  zlen s <= int_max -> pieces ps -> ps = [] \/ last ps = Some [star] -> (i <= length s)%nat ->
  exists b, match_pieces s (Z.of_nat i) ps = Ret b /\
    (b = true <-> matches (star :: mjoin ps) (drop i s)).
Proof.
  intros Hs. revert i. induction ps as [|p ps IH]; intros i Hps Hlast Hi; simpl match_pieces.
  - exists true. split; [done|]. split; [|done]. intros _.
    rewrite <- (app_nil_r (drop i s)). repeat constructor.
  - assert (ps = [] \/ last ps = Some [star]) as Hlast'
      by (destruct Hlast as [?|Hl]; [done|]; destruct ps; [by left|by right]).
    destruct Hps as [Hp Hps]. destruct (decide (p = [star])) as [->|Hne].
    { destruct (IH i Hps Hlast' Hi) as (b & -> & Hb). exists b. split; [done|]. csimpl.
      by rewrite matches_star_star. }
    destruct Hp as [->|[[_ Hlit] Hnext]]; [done|].
    destruct Hlast as [?|Hl]; [done|]. destruct ps as [|p' ps]; [simplify_eq/=|]. subst p'.
    set (rest := [star] :: ps) in *. assert (mjoin rest = star :: mjoin ps) as Er by done.
    change (mjoin (p :: rest)) with (p ++ mjoin rest). rewrite Er.
    destruct (Z.ltb_spec (zlen s) (Z.of_nat i + zlen p)) as [Hlt|Hge]; unfold zlen in Hlt || unfold zlen in Hge.
    { exists false. split; [done|]. split; [done|]. intros H. exfalso.
      apply matches_star_inv in H as (u & t & E & Ht). apply matches_lit in Ht as (v & b & -> & He & _); [|done].
      apply (f_equal length) in E. rewrite length_drop, !length_app, <- (Forall2_length _ _ _ He) in E. lia. }
    destruct (match_spec s Hs i p) as (r & -> & Hr); [lia|]. bind_ret.
    destruct Hr as [[-> Hno]|(j & Hij & Hf & Hno & ->)].
    + rewrite Z.eqb_refl. exists false. split; [done|]. split; [done|]. intros H. exfalso.
      apply matches_star_inv in H as (u & t & E & Ht). apply matches_lit in Ht as (v & b & -> & He & _); [|done].
      apply (Hno (i + length u)%nat); [lia|]. apply fits_iff. exists (take i s ++ u), v, b.
      rewrite <- app_assoc, <- E, take_drop, length_app, length_take. split; [done|]. split; [lia|done].
    + rewrite (proj2 (Z.eqb_neq _ _)) by (unfold npos; lia).
      destruct (IH (j + length p)%nat Hps Hlast') as (b & -> & Hb); [by destruct Hf|].
      exists b. split; [done|]. rewrite Hb, Er. symmetry. by apply leftmost_piece.
Qed.

(** The wildcard solution returns on every text and pattern, and answers
    true exactly when the pattern matches the text by the reference. *)
Theorem isMatch_correct s p :
  zlen s <= int_max -> exists b, isMatch s p = Ret b /\ (b = true <-> matches p s).
Proof.
  intros Hs. unfold isMatch. destruct (stringSplit_spec star p) as (ps & -> & Hps & <-).
  bind_ret.
  destruct (stripleft_spec ps s Hs Hps) as (ok1 & s1 & ps1 & -> & H1). bind_ret.
  destruct ok1; simpl negb; cbn iota; [|by exists false]. destruct H1 as (E1 & Hps1 & Hs1 & Hl). setoid_rewrite E1.
  destruct (stripright_spec ps1 s1 Hs1 Hps1) as (ok2 & s2 & ps2 & -> & H2). bind_ret.
  destruct ok2; simpl negb; cbn iota; [|by exists false]. destruct H2 as (E2 & Hs2 & (qs & Eq) & Hr). setoid_rewrite E2.
  destruct Hr as [[-> ->]|Hr]; [exists true; split; [done|]; by repeat constructor|].
  rewrite Eq in Hps1. apply pieces_app_l in Hps1. destruct ps2 as [|p2 ps2]; [done|].
  destruct Hl as [[-> _]|(qs' & ->)]; [done|]. simpl in Eq. injection Eq as <- _.
  destruct (match_pieces_spec ps2 s2 0 Hs2) as (b & Hb & Hiff).
  - by destruct Hps1.
  - destruct ps2; [by left|by right].
  - lia.
  - exists b. rewrite drop_0 in Hiff. split; [|exact Hiff].
    cbn [match_pieces]. by rewrite decide_True.
Qed.

Lemma isMatch_correct_witness :
  exists b, isMatch [97; 100; 99; 101; 98] [42; 97; 42; 63] = Ret b /\
    (b = true <-> matches [42; 97; 42; 63] [97; 100; 99; 101; 98]).
Proof. apply (isMatch_correct [97; 100; 99; 101; 98] [42; 97; 42; 63]). by vm_compute. Defined.
