(* ===== verification/WildcardFirst.v ===== *)
(** * Wildcard matching, the first solution

    src/c++/leetcode/44.cpp: the pattern is cut at its stars, what follows the
    last star is matched at the end of the text, and the other pieces from left
    to right.  A piece is itself cut at its question marks; the first part
    without them is searched with [find], the others must follow exactly.
    [stringSplit] is that of the second solution; [print_vector] only prints. *)

From stdpp Require Import base list numbers relations.
From Stdlib Require Import ZArith Lia.
From S2P Require Import Prelude Strings Wildcard.

Open Scope Z_scope.

(** ** The solution *)

(** The loop of [match2] over the parts; [first] is its variable [star]. *)
Fixpoint match2_parts (s : list Z) (i : Z) (first : bool) (ps : list (list Z)) : outcome Z :=
  match ps with
  | [] => Ret (if zlen s <? i then npos else i)
  | p :: ps =>
      if decide (p = [any]) then match2_parts s (i + 1) first ps
      else if zlen s <? i + zlen p then Ret npos
      else if first then
        match find s p (Z.to_nat i) with
        | None => Ret npos
        | Some k => match2_parts s (to_int (Z.of_nat k) + zlen p) false ps
        end
      else if decide (p = substr s (Z.to_nat i) (length p)) then match2_parts s (i + zlen p) false ps
      else Ret npos
  end.

Definition match2 (s : list Z) (i : Z) (p1 : list Z) : outcome Z :=
  ps ← stringSplit p1 any;
  match2_parts s i true ps.

Fixpoint match_loop (fuel : nat) (s : list Z) (i : Z) (p1 : list Z) : outcome Z :=
  match fuel with
  | O => NoFuel
  | S fuel =>
      if i <? szadd (szadd (zlen s) (- zlen p1)) 1 then
        ret ← match2 s i p1;
        if ret =? npos then match_loop fuel s (i + 1) p1 else Ret ret
      else Ret npos
  end.

(** [match]; the positions of [s] are enough rounds. *)
Definition match_piece (s : list Z) (i : Z) (p1 : list Z) : outcome Z := match_loop (length s + 2) s i p1.

Fixpoint strip_loop (fuel : nat) (s : list Z) (ps : list (list Z)) : outcome (bool * list Z * list (list Z)) :=
  match fuel with
  | O => NoFuel
  | S fuel =>
      match last ps with
      | None => Ret (true, s, ps)
      | Some back =>
          if decide (back = [star]) then Ret (true, s, ps)
          else if zlen s <? zlen back then Ret (false, s, ps)
          else
            ret ← match_piece (substr s (length s - length back) (length back)) 0 back;
            if ret =? npos then Ret (false, s, ps)
            else strip_loop fuel (substr s 0 (length s - length back)) (removelast ps)
      end
  end.

(** [stripright]; each round removes a piece. *)
Definition strip_right (s : list Z) (ps : list (list Z)) : outcome (bool * list Z * list (list Z)) :=
  strip_loop (length ps + 1) s ps.

(** The loop of [isMatch]; [after] is its variable [star]. *)
Fixpoint pieces_loop (s : list Z) (i : Z) (after : bool) (ps : list (list Z)) : outcome bool :=
  match ps with
  | [] => Ret true
  | p :: ps =>
      if decide (p = [star]) then pieces_loop s i true ps
      else if zlen s <? i + zlen p then Ret false
      else
        i' ← match_piece s i p;
        if after then (if i' =? npos then Ret false else pieces_loop s i' false ps)
        else if (i' =? npos) || negb (i' =? zlen p) then Ret false
        else pieces_loop s i' false ps
  end.

Definition isMatchFirst (s p : list Z) : outcome bool :=
  ps ← stringSplit p star;
  r ← strip_right s ps;
  let '(ok, s, ps) := r in
  if negb ok then Ret false
  else if decide (ps = []) then Ret (bool_decide (s = []))
  else pieces_loop s 0 false ps.

(** ** Parts of a piece *)

Lemma exact_app p q u : exact (p ++ q) u <-> exists a b, u = a ++ b /\ exact p a /\ exact q b.
Proof.
  split; [intros H; apply Forall2_app_inv_l in H as (a & b & Ha & Hb & ->); eauto|].
  intros (a & b & -> & Ha & Hb). apply Forall2_app; assumption.
Qed.
Lemma fits_app p q s k : fits (p ++ q) s k <-> fits p s k /\ fits q s (k + length p).
Proof.
  unfold fits. rewrite length_app. split.
  - intros [Hl He]. apply exact_app in He as (a & b & E & Ha & Hb).
    pose proof (Forall2_length _ _ _ Ha) as La. pose proof (Forall2_length _ _ _ Hb) as Lb.
    assert (a = take (length p) (drop k s) /\ b = take (length q) (drop (k + length p) s)) as [-> ->].
    { apply app_inj_1 with (l1 := a) (l2 := b); [rewrite length_take, length_drop; lia|].
      rewrite <- E, <- drop_drop. symmetry. apply take_take_drop. }
    split; (split; [lia|assumption]).
  - intros [[Hl1 He1] [Hl2 He2]]. split; [lia|]. rewrite <- take_take_drop, drop_drop. apply exact_app. eauto.
Qed.
Lemma fits_any s k : fits [any] s k <-> (k < length s)%nat.
Proof.
  unfold fits. cbn [length]. split; [lia|]. intros H. split; [lia|].
  destruct (lookup_lt_is_Some_2 s k H) as [c Hc]. rewrite (drop_S _ _ _ Hc). cbn. constructor; [left; reflexivity|constructor].
Qed.
Lemma exact_literal p u : any ∉ p -> exact p u <-> p = u.
Proof.
  intros Hp. split; [|intros <-; apply Forall_Forall2_diag, Forall_true; auto].
  induction 1 as [|c d p u Hcd _ IH]; [reflexivity|]. apply not_elem_of_cons in Hp as [Hc Hp].
  rewrite IH by exact Hp. destruct Hcd as [->| ->]; [done|reflexivity].
Qed.
Lemma fits_occurs p s k : any ∉ p -> fits p s k <-> occurs p s k.
Proof.
  intros Hp. rewrite fits_iff. unfold occurs. split.
  - intros (a & u & b & -> & <- & He). apply exact_literal in He as ->; [eauto|exact Hp].
  - intros (a & b & -> & <-). exists a, p, b. split; [reflexivity|]. split; [reflexivity|]. apply exact_literal; done.
Qed.

Section Search.
Context (s : list Z) (Hs : zlen s <= int_max).

(** Once a part has been found the others follow exactly. *)
Lemma parts_follow ps k : pieces_of any ps ->
  exists r, match2_parts s (Z.of_nat k) false ps = Ret r /\
    (r = npos /\ ~ fits (mjoin ps) s k \/ r = Z.of_nat (k + length (mjoin ps)) /\ fits (mjoin ps) s k).
Proof using Hs.
  revert k. induction ps as [|p ps IH]; intros k Hps; cbn [match2_parts]; unfold zlen.
  - eexists. split; [reflexivity|]. cbn. destruct (Z.ltb_spec (Z.of_nat (length s)) (Z.of_nat k)).
    + left. split; [reflexivity|]. intros [Hl _]. cbn in Hl. lia.
    + right. split; [lia|]. split; [cbn; lia|constructor].
  - destruct Hps as [Hp Hps]. change (mjoin (p :: ps)) with (p ++ mjoin ps). setoid_rewrite fits_app.
    destruct (decide (p = [any])) as [->|Hne].
    + replace (Z.of_nat k + 1) with (Z.of_nat (k + 1)) by lia. destruct (IH (k + 1)%nat Hps) as (r & -> & Hr).
      exists r. split; [reflexivity|]. cbn [length app]. rewrite fits_any.
      destruct Hr as [[-> Hn]|[-> Hf]]; [left; tauto|right]. split; [cbn; lia|]. split; [destruct Hf; lia|exact Hf].
    + destruct Hp as [->|[[_ Hlit] _]]; [done|].
      destruct (Z.ltb_spec (Z.of_nat (length s)) (Z.of_nat k + Z.of_nat (length p))).
      { eexists. split; [reflexivity|]. left. split; [reflexivity|]. intros [[Hl _] _]. lia. }
      rewrite Nat2Z.id. case_decide as Hd.
      * replace (Z.of_nat k + Z.of_nat (length p)) with (Z.of_nat (k + length p)) by lia.
        destruct (IH (k + length p)%nat Hps) as (r & -> & Hr). exists r. split; [reflexivity|].
        assert (fits p s k) by (split; [lia|apply exact_literal; assumption]).
        destruct Hr as [[-> Hn]|[-> Hf]]; [left; tauto|right]. rewrite length_app. split; [lia|tauto].
      * eexists. split; [reflexivity|]. left. split; [reflexivity|]. intros [[_ He] _].
        apply exact_literal in He; [done|exact Hlit].
Qed.

(** The result of a search from [k]: the end of the leftmost match. *)
Definition leftmost_end (p : list Z) (k : nat) (r : Z) : Prop :=
  exists j, (k <= j)%nat /\ fits p s j /\ (forall i, (k <= i < j)%nat -> ~ fits p s i) /\ r = Z.of_nat (j + length p).

(** [match2] finds the leftmost match from [k] on, or there is none at [k]. *)
Lemma parts_first ps k : pieces_of any ps ->
  exists r, match2_parts s (Z.of_nat k) true ps = Ret r /\
    (r = npos /\ ~ fits (mjoin ps) s k \/ leftmost_end (mjoin ps) k r).
Proof using Hs.
  revert k. induction ps as [|p ps IH]; intros k Hps; cbn [match2_parts]; unfold zlen in *.
  - eexists. split; [reflexivity|]. cbn. destruct (Z.ltb_spec (Z.of_nat (length s)) (Z.of_nat k)).
    + left. split; [reflexivity|]. intros [Hl _]. cbn in Hl. lia.
    + right. exists k. cbn. split; [lia|]. split; [split; [cbn; lia|constructor]|]. split; lia.
  - destruct Hps as [Hp Hps]. change (mjoin (p :: ps)) with (p ++ mjoin ps). unfold leftmost_end. setoid_rewrite fits_app.
    destruct (decide (p = [any])) as [->|Hne].
    + replace (Z.of_nat k + 1) with (Z.of_nat (k + 1)) by lia. destruct (IH (k + 1)%nat Hps) as (r & -> & Hr).
      exists r. split; [reflexivity|]. cbn [length app]. setoid_rewrite fits_any.
      destruct Hr as [[-> Hn]|(j & Hj & Hf & Hno & ->)]; [left; tauto|right]. exists (j - 1)%nat.
      replace (j - 1 + 1)%nat with j by lia. split; [lia|]. split; [split; [destruct Hf; lia|exact Hf]|].
      split; [|lia]. intros i Hi [_ Hfi]. apply (Hno (i + 1)%nat); [lia|exact Hfi].
    + destruct Hp as [->|[[_ Hlit] _]]; [done|].
      destruct (Z.ltb_spec (Z.of_nat (length s)) (Z.of_nat k + Z.of_nat (length p))).
      { eexists. split; [reflexivity|]. left. split; [reflexivity|]. intros [[Hl _] _]. lia. }
      rewrite Nat2Z.id. destruct (find s p k) as [j|] eqn:F.
      * apply find_Some in F as (Hj & Ho & Hno). apply (fits_occurs _ _ _ Hlit) in Ho.
        rewrite to_int_small by (destruct Ho; unfold int_min; lia).
        replace (Z.of_nat j + Z.of_nat (length p)) with (Z.of_nat (j + length p)) by lia.
        destruct (parts_follow ps (j + length p) Hps) as (r & -> & Hr). exists r. split; [reflexivity|].
        destruct Hr as [[-> Hn]|[-> Hf]].
        -- left. split; [reflexivity|]. intros [Hp Hq]. destruct (decide (j = k)) as [->|]; [done|].
           apply (Hno k); [lia|]. apply fits_occurs; assumption.
        -- right. exists j. rewrite length_app. split; [exact Hj|]. split; [done|]. split; [|lia].
           intros i Hi [Hp _]. apply (Hno i Hi), fits_occurs; assumption.
      * eexists. split; [reflexivity|]. left. split; [reflexivity|]. intros [Hp _].
        apply (find_None _ _ _ k F); [lia|]. apply fits_occurs; assumption.
Qed.

Lemma match2_spec k p : exists r, match2 s (Z.of_nat k) p = Ret r /\
  (r = npos /\ ~ fits p s k \/ leftmost_end p k r).
Proof using Hs.
  unfold match2. destruct (stringSplit_spec any p) as (ps & -> & Hps & <-). apply parts_first, Hps.
Qed.

Lemma match_loop_spec fuel k p :
  (length p <= length s)%nat -> (k <= length s + 1)%nat -> (length s + 1 < k + fuel)%nat ->
  exists r, match_loop fuel s (Z.of_nat k) p = Ret r /\
    (r = npos /\ (forall j, (k <= j)%nat -> ~ fits p s j) \/ leftmost_end p k r).
Proof using Hs.
  intros Hp. revert k. induction fuel as [|fuel IH]; intros k Hk Hf; [lia|]. cbn [match_loop].
  assert (szadd (szadd (zlen s) (- zlen p)) 1 = zlen s - zlen p + 1) as ->.
  { unfold szadd, zlen in *. rewrite (Z.mod_small (_ + - _)) by (unfold size_max, int_max in *; lia).
    rewrite Z.mod_small by (unfold size_max, int_max in *; lia). lia. }
  destruct (Z.ltb_spec (Z.of_nat k) (zlen s - zlen p + 1)) as [Hlt|Hge]; unfold zlen in *.
  - destruct (match2_spec k p) as (r & -> & [[-> Hn]|Hr]); bind_ret.
    + rewrite Z.eqb_refl. replace (Z.of_nat k + 1) with (Z.of_nat (S k)) by lia.
      destruct (IH (S k)) as (r & -> & Hr); [lia|lia|]. exists r. split; [reflexivity|].
      destruct Hr as [[-> Hno]|(j & Hj & Hfit & Hno & ->)]; [left|right].
      * split; [done|]. intros j Hj. destruct (decide (j = k)) as [->|]; [done|]. apply Hno. lia.
      * exists j. split; [lia|]. split; [done|]. split; [|done]. intros i Hi.
        destruct (decide (i = k)) as [->|]; [done|]. apply Hno. lia.
    + assert (r <> npos) by (destruct Hr as (j & _ & _ & _ & ->); unfold npos; lia).
      rewrite (proj2 (Z.eqb_neq _ _)) by assumption. eauto.
  - exists npos. split; [done|]. left. split; [done|]. intros j Hj [Hl _]. lia.
Qed.

Lemma match_piece_spec k p : (k + length p <= length s)%nat ->
  exists r, match_piece s (Z.of_nat k) p = Ret r /\
    (r = npos /\ (forall j, (k <= j)%nat -> ~ fits p s j) \/ leftmost_end p k r).
Proof using Hs. intros H. apply match_loop_spec; lia. Qed.
End Search.

(** ** The end of the text *)

Lemma strip_right_spec ps s :
  zlen s <= int_max -> pieces ps ->
  exists ok s' ps', strip_right s ps = Ret (ok, s', ps') /\
    if ok : bool then
      (matches (mjoin ps) s <-> matches (mjoin ps') s') /\ zlen s' <= int_max /\
      (exists qs, ps = ps' ++ qs) /\ (ps' = [] \/ last ps' = Some [star])
    else ~ matches (mjoin ps) s.
Proof.
  unfold strip_right. revert s. induction ps as [|p ps IH] using rev_ind; intros s Hs Hps.
  - eexists _, _, _. split; [reflexivity|]. cbn. split; [reflexivity|]. split; [exact Hs|]. split; [by exists []|auto].
  - rewrite length_app, Nat.add_1_r. cbn [strip_loop]. rewrite last_snoc.
    destruct (decide (p = [star])) as [->|Hne].
    { eexists _, _, _. split; [reflexivity|]. cbn. split; [reflexivity|]. split; [exact Hs|].
      split; [exists []; by rewrite app_nil_r|]. right. apply last_snoc. }
    destruct (pieces_last _ _ Hps) as [->|[_ Hlit]]; [done|]. rewrite join_app. unfold zlen at 1 2.
    change (mjoin [p]) with (p ++ []). rewrite app_nil_r.
    destruct (Z.ltb_spec (Z.of_nat (length s)) (Z.of_nat (length p))) as [Hlt|Hge].
    { eexists _, _, _. split; [reflexivity|]. apply back_misfits; [exact Hlit|]. intros a u -> He.
      apply Forall2_length in He. rewrite length_app in Hlt. lia. }
    set (a := take (length s - length p) s). set (u := drop (length s - length p) s).
    assert (s = a ++ u) as Eau by (symmetry; apply take_drop).
    assert (length u = length p) as Hu by (unfold u; len).
    assert (substr s (length s - length p) (length p) = u) as -> by (unfold substr; apply take_ge; lia).
    assert (substr s 0 (length s - length p) = a) as -> by reflexivity. rewrite removelast_last.
    destruct (match_piece_spec u ltac:(unfold zlen in *; lia) 0 p) as (r & E0 & Hr); [lia|].
    change (Z.of_nat 0) with 0 in E0. rewrite E0. bind_ret. destruct Hr as [[-> Hn]|(j & _ & Hf & _ & ->)].
    + rewrite Z.eqb_refl. eexists _, _, _. split; [reflexivity|]. apply back_misfits; [exact Hlit|].
      intros a' u' E He. rewrite Eau in E. pose proof (Forall2_length _ _ _ He).
      apply app_inj_2 in E as [_ ->]; [|lia]. apply (Hn 0%nat); [lia|]. apply fits_iff. exists [], u', [].
      by rewrite app_nil_r.
    + rewrite (proj2 (Z.eqb_neq _ _)) by (unfold npos; lia).
      assert (j = 0%nat) as -> by (destruct Hf; lia).
      destruct Hf as [_ He]. rewrite drop_0, take_ge in He by lia.
      destruct (IH a) as (ok & s' & ps' & E & Hok); [unfold a, zlen in *; len|by apply pieces_app_l in Hps|].
      eexists _, _, _. split; [exact E|]. rewrite Eau. destruct ok; rewrite back_fits by done; [|exact Hok].
      destruct Hok as (H1 & H2 & (qs & ->) & H4). split; [done|]. split; [done|].
      split; [|done]. exists (qs ++ [p]). by rewrite app_assoc.
Qed.

(** ** The pieces from left to right *)

Lemma star_short p q s i : star ∉ p -> (i <= length s < i + length p)%nat -> ~ matches (star :: p ++ q) (drop i s).
Proof.
  intros Hp Hl (u & t & E & Ht)%matches_star_inv. apply matches_lit in Ht as (v & b & -> & He & _); [|exact Hp].
  apply (f_equal length) in E. rewrite length_drop, !length_app, <- (Forall2_length _ _ _ He) in E. lia.
Qed.
Lemma star_misfits p q s i : star ∉ p -> (i <= length s)%nat -> (forall j, (i <= j)%nat -> ~ fits p s j) ->
  ~ matches (star :: p ++ q) (drop i s).
Proof.
  intros Hp Hi Hno (u & t & E & Ht)%matches_star_inv. apply matches_lit in Ht as (v & b & -> & He & _); [|exact Hp].
  apply (Hno (i + length u)%nat); [lia|]. apply fits_iff. exists (take i s ++ u), v, b.
  rewrite <- app_assoc, <- E, take_drop, length_app, length_take. split; [reflexivity|]. split; [lia|exact He].
Qed.

(** After a star; otherwise the first piece is a star. *)
Lemma pieces_loop_spec ps s i after :
  zlen s <= int_max -> pieces ps -> last ps = Some [star] -> (i <= length s)%nat ->
  after = true \/ head ps = Some [star] ->
  exists b, pieces_loop s (Z.of_nat i) after ps = Ret b /\
    (b = true <-> matches (if after then star :: mjoin ps else mjoin ps) (drop i s)).
Proof.
  intros Hs. revert i after. induction ps as [|p ps IH]; intros i after Hps Hlast Hi Haft; [done|]. cbn [pieces_loop].
  destruct Hps as [Hp Hps]. change (mjoin (p :: ps)) with (p ++ mjoin ps).
  destruct (decide (p = [star])) as [->|Hne].
  - assert (Hb : exists b, pieces_loop s (Z.of_nat i) true ps = Ret b /\ (b = true <-> matches (star :: mjoin ps) (drop i s))).
    { destruct ps as [|q ps].
      - exists true. split; [reflexivity|]. split; [|done]. intros _. rewrite <- (app_nil_r (drop i s)). repeat constructor.
      - apply (IH i true Hps Hlast Hi). auto. }
    destruct Hb as (b & Eb & Hb). exists b. split; [exact Eb|]. destruct after; csimpl; [by rewrite matches_star_star|exact Hb].
  - destruct Haft as [->|H]; [|injection H as ->; done]. destruct Hp as [->|[[_ Hlit] Hnext]]; [done|].
    destruct ps as [|p' ps]; [injection Hlast as ->; done|]. subst p'.
    set (rest := [star] :: ps) in *. assert (mjoin rest = star :: mjoin ps) as Er by done.
    destruct (Z.ltb_spec (zlen s) (Z.of_nat i + zlen p)) as [Hlt|Hge]; unfold zlen in Hlt || unfold zlen in Hge.
    { exists false. split; [reflexivity|]. split; [done|]. intros H. exfalso. revert H. apply star_short; [exact Hlit|lia]. }
    destruct (match_piece_spec s Hs i p) as (r & -> & Hr); [lia|]. bind_ret.
    destruct Hr as [[-> Hno]|(j & Hij & Hf & Hno & ->)].
    + rewrite Z.eqb_refl. exists false. split; [reflexivity|]. split; [done|]. intros H. exfalso. revert H.
      apply star_misfits; assumption.
    + rewrite (proj2 (Z.eqb_neq _ _)) by (unfold npos; lia).
      destruct (IH (j + length p)%nat false Hps) as (b & -> & Hb); [exact Hlast|by destruct Hf|auto|].
      exists b. split; [reflexivity|]. rewrite Hb, Er. rewrite leftmost_piece by eassumption. symmetry. apply matches_star_star.
Qed.

(** The first piece must be at the beginning. *)
Lemma first_piece_spec p ps s :
  zlen s <= int_max -> pieces (p :: ps) -> p <> [star] -> last ps = Some [star] ->
  exists b, pieces_loop s 0 false (p :: ps) = Ret b /\ (b = true <-> matches (mjoin (p :: ps)) s).
Proof.
  intros Hs [[->|[[_ Hlit] Hnext]] Hps] Hne Hlast; [done|]. cbn [pieces_loop]. rewrite decide_False by exact Hne.
  change (mjoin (p :: ps)) with (p ++ mjoin ps).
  destruct ps as [|p' ps]; [done|]. subst p'. set (rest := [star] :: ps) in *.
  destruct (Z.ltb_spec (zlen s) (0 + zlen p)) as [Hlt|Hge]; unfold zlen in Hlt || unfold zlen in Hge.
  { exists false. split; [reflexivity|]. split; [done|]. intros H. exfalso. revert H.
    apply front_misfits; [exact Hlit|]. intros [Hl _]. lia. }
  destruct (match_piece_spec s Hs 0 p) as (r & E & Hr); [lia|]. change (Z.of_nat 0) with 0 in E. rewrite E. bind_ret.
  destruct Hr as [[-> Hno]|(j & _ & Hf & Hno & ->)].
  - exists false. split; [reflexivity|]. split; [done|]. intros H. exfalso. revert H.
    apply front_misfits; [exact Hlit|]. apply Hno. lia.
  - rewrite (proj2 (Z.eqb_neq _ npos)) by (unfold npos; lia). cbn [orb]. unfold zlen.
    destruct (Z.eqb_spec (Z.of_nat (j + length p)) (Z.of_nat (length p))) as [Ej|Ej]; cbn [negb].
    + assert (j = 0%nat) as -> by lia. cbn [Nat.add].
      destruct (pieces_loop_spec rest s (length p) false Hs Hps Hlast) as (b & -> & Hb); [destruct Hf; lia|auto|].
      exists b. split; [reflexivity|]. rewrite Hb. apply fits_iff in Hf as (a & u & t & -> & ->%nil_length_inv & He).
      cbn [app]. rewrite (Forall2_length _ _ _ He), drop_app_length. symmetry. apply front_fits; assumption.
    + exists false. split; [reflexivity|]. split; [done|]. intros H. exfalso. revert H.
      apply front_misfits; [exact Hlit|]. apply Hno. lia.
Qed.

(** The first wildcard solution returns on every text and pattern, and
    answers true exactly when the pattern matches the text by the reference, so
    that it agrees with the second. *)
Theorem isMatchFirst_correct s p :
  zlen s <= int_max -> exists b, isMatchFirst s p = Ret b /\ (b = true <-> matches p s).
Proof.
  intros Hs. unfold isMatchFirst. destruct (stringSplit_spec star p) as (ps & -> & Hps & <-). bind_ret.
  destruct (strip_right_spec ps s Hs Hps) as (ok & s' & ps' & -> & H). bind_ret.
  destruct ok; cbn [negb]; [|by exists false]. destruct H as (Em & Hs' & (qs & ->) & Hl). setoid_rewrite Em.
  apply pieces_app_l in Hps. destruct (decide (ps' = [])) as [->|Hne].
  - eexists. split; [reflexivity|]. rewrite bool_decide_eq_true. split; [intros ->; constructor|apply matches_nil_inv].
  - destruct Hl as [->|Hl]; [done|]. destruct ps' as [|q ps']; [done|].
    destruct (decide (q = [star])) as [->|Hq].
    + destruct (pieces_loop_spec ([star] :: ps') s' 0 false Hs' Hps Hl) as (b & Eb & Hb); [lia|auto|].
      exists b. rewrite drop_0 in Hb. split; [exact Eb|exact Hb].
    + apply first_piece_spec; try assumption. destruct ps'; [injection Hl as ->; done|exact Hl].
Qed.

Lemma isMatchFirst_correct_witness :
  exists b, isMatchFirst [98; 97; 97; 98; 98; 97] [63; 42; 63; 97; 63; 63] = Ret b /\
    (b = true <-> matches [63; 42; 63; 97; 63; 63] [98; 97; 97; 98; 98; 97]).
Proof. apply (isMatchFirst_correct [98; 97; 97; 98; 98; 97] [63; 42; 63; 97; 63; 63]). by vm_compute. Defined.
