(* ===== verification/Palindrome.v ===== *)
(** * The shortest palindrome

    src/c++/leetcode/214.cpp: characters are added in front of a string to make
    it a palindrome.  The solution searches the longest palindromic prefix,
    from the longest on, and skips the prefixes that one mismatch excludes. *)

From stdpp Require Import base list numbers relations.
From Stdlib Require Import ZArith Lia.
From S2P Require Import Prelude.

Open Scope Z_scope.

(** [for (k = ...; k >= 0; k--) if (s[k] == c) break;] from [k = n - 1] on. *)
Fixpoint find_back (s : list Z) (c : Z) (n : nat) : outcome Z :=
  match n with
  | O => Ret (-1)
  | S k =>
      d ← vget s (Z.of_nat k);
      if d =? c then Ret (Z.of_nat k) else find_back s c k
  end.

(** [for (j = ...; j >= 0; j--) ...] from [j = n - 1] on: [None] when [j]
    becomes negative, the new [i] when the loop is left by [break]. *)
Fixpoint check_axis (s : list Z) (i : Z) (n : nat) : outcome (option Z) :=
  match n with
  | O => Ret None
  | S j =>
      a ← vget s (Z.of_nat j);
      b ← vget s (i - Z.of_nat j);
      if a =? b then check_axis s i j
      else
        k ← find_back s b j;
        Ret (Some (i - Z.of_nat j + k + 1))
  end.

(** The outer loop, [i--] included. *)
Definition axis_step (s : list Z) (i : Z) : outcome (control Z Z) :=
  if 0 <? i then
    r ← check_axis s i (Z.to_nat (Z.quot (i - 1) 2 + 1));
    match r with
    | None => Ret (Break i)
    | Some i' => Ret (Continue (i' - 1))
    end
  else Ret (Break i).

(** [s.crbegin()+(s.size()-1-c)]: the last characters, in reverse. *)
Definition complete (s : list Z) (c : Z) : list Z :=
  if (zlen s <=? 1) || (c <? 0) || (zlen s - 1 <? c) then s
  else take (Z.to_nat (zlen s - 1 - c)) (reverse s) ++ s.

Definition shortestPalindrome (fuel : nat) (s : list Z) : outcome (list Z) :=
  i ← while_loop fuel (axis_step s) (to_int (szadd (zlen s) (-1)));
  Ret (complete s i).

(** ** Palindromic prefixes *)

Definition palindrome (s : list Z) : Prop := reverse s = s.

(** The prefix that ends at position [i]. *)
Definition pal_prefix (s : list Z) (i : nat) : Prop := palindrome (take (S i) s).

Lemma pal_prefix_iff s i :
  (i < length s)%nat -> pal_prefix s i <-> forall j, (j <= i)%nat -> s !! j = s !! (i - j)%nat.
Proof.
  intros Hi. unfold pal_prefix, palindrome.
  assert (length (take (S i) s) = S i) as Hl by (len). split.
  - intros E j Hj. pose proof (f_equal (fun l => l !! j) E) as Ej. simpl in Ej.
    rewrite reverse_lookup, Hl in Ej by lia. rewrite !lookup_take_lt in Ej by lia.
    by rewrite <- Ej.
  - intros H. apply list_eq_same_length with (S i); [done|by rewrite length_reverse|].
    intros j x y Hj Hx Hy. rewrite reverse_lookup, Hl in Hx by lia.
    rewrite lookup_take_lt in Hx, Hy by lia. rewrite (H j) in Hy by lia.
    replace (S i - S j)%nat with (i - j)%nat in Hx by lia. congruence.
Qed.

Lemma find_back_spec s c n :
  (n <= length s)%nat ->
  exists k, find_back s c n = Ret k /\ -1 <= k < Z.of_nat n /\
    forall p, (k < Z.of_nat p < Z.of_nat n) -> s !! p <> Some c.
Proof.
  induction n as [|n IH]; intros Hn; simpl find_back.
  - exists (-1). split; [done|]. split; [lia|]. lia.
  - destruct (lookup_lt_is_Some_2 s n) as [d Hd]; [lia|]. rewrite (vget_nat _ _ _ Hd).
    bind_ret. destruct (Z.eqb_spec d c) as [->|Hne].
    + eexists. split; [done|]. split; [lia|]. lia.
    + destruct IH as (k & -> & Hk & Hp); [lia|]. exists k. split; [done|]. split; [lia|].
      intros p Hr. destruct (decide (p = n)) as [->|]; [congruence|]. apply Hp. lia.
Qed.

(** A mismatch excludes the axis and those that would move the same character
    onto a different one. *)
Lemma check_axis_spec s i n :
  (0 < i < length s)%nat -> (2 * n <= i + 1)%nat ->
  (forall j, (n <= j)%nat -> (2 * j < i)%nat -> s !! j = s !! (i - j)%nat) ->
  exists r, check_axis s (Z.of_nat i) n = Ret r /\
    match r with
    | None => forall j, (2 * j < i)%nat -> s !! j = s !! (i - j)%nat
    | Some i' => 0 < i' <= Z.of_nat i /\
        forall x, i' <= Z.of_nat x -> (x <= i)%nat -> ~ pal_prefix s x
    end.
Proof.
  intros Hi Hn Hsym. revert Hn Hsym. induction n as [|j IH]; intros Hn Hsym; simpl check_axis.
  - exists None. split; [done|]. intros j Hj. apply Hsym; [lia|done].
  - destruct (lookup_lt_is_Some_2 s j) as [a Ha]; [lia|].
    destruct (lookup_lt_is_Some_2 s (i - j)) as [b Hb]; [lia|].
    rewrite (vget_nat _ _ _ Ha). bind_ret.
    replace (Z.of_nat i - Z.of_nat j) with (Z.of_nat (i - j)) by lia.
    rewrite (vget_nat _ _ _ Hb). bind_ret. destruct (Z.eqb_spec a b) as [->|Hne].
    + apply IH; [lia|]. intros j' Hj' Hlt. destruct (decide (j' = j)) as [->|]; [congruence|].
      apply Hsym; lia.
    + destruct (find_back_spec s b j) as (k & -> & Hk & Hp); [lia|]. bind_ret.
      eexists. split; [done|]. split; [lia|]. intros x Hx Hxi Hpal.
      rewrite pal_prefix_iff in Hpal by lia.
      specialize (Hpal (i - j)%nat ltac:(lia)). rewrite Hb in Hpal. symmetry in Hpal.
      destruct (decide (x = i)) as [->|].
      * replace (i - (i - j))%nat with j in Hpal by lia. congruence.
      * apply (Hp (x - (i - j))%nat); [lia|done].
Qed.

(** A round of the outer loop keeps: no prefix that ends after [i] is a
    palindrome. *)
Definition axis_inv (s : list Z) (i : Z) : Prop :=
  0 <= i < zlen s /\ forall x, i < Z.of_nat x -> (x < length s)%nat -> ~ pal_prefix s x.

Lemma axis_step_spec s i :
  axis_inv s i ->
  returns (axis_step s i) (fun c => match c with
    | Continue i' => axis_inv s i' /\ (Z.to_nat i' < Z.to_nat i)%nat
    | Break r => r = i /\ pal_prefix s (Z.to_nat i)
    end).
Proof.
  intros [Hi Hno]. unfold axis_step, zlen in *. destruct (Z.ltb_spec 0 i) as [Hpos|Hle].
  - rewrite Z.quot_div_nonneg by lia. pose proof (Z.div_mod (i - 1) 2 ltac:(done)) as Ed.
    pose proof (Z.mod_pos_bound (i - 1) 2 ltac:(done)) as Em.
    destruct (check_axis_spec s (Z.to_nat i) (Z.to_nat ((i - 1) / 2 + 1))) as (r & E & Hr); [lia|lia| |].
    { intros j Hj Hlt. lia. }
    rewrite Z2Nat.id in E by lia. rewrite E. bind_ret.
    destruct r as [i'|]; apply returns_ret.
    + destruct Hr as [Hi' Hex]. split; [|lia]. split; [unfold zlen; lia|]. intros x Hx Hxs.
      destruct (decide (x <= Z.to_nat i)%nat); [apply Hex; lia|apply Hno; lia].
    + split; [done|]. apply pal_prefix_iff; [lia|]. intros j Hj.
      destruct (decide (2 * j < Z.to_nat i)%nat) as [Hlt|Hge]; [by apply Hr|].
      destruct (decide (2 * j = Z.to_nat i)%nat) as [E2|]; [f_equal; lia|].
      rewrite (Hr (Z.to_nat i - j)%nat) by lia. f_equal. lia.
  - apply returns_ret. split; [done|]. replace i with 0 by lia. apply pal_prefix_iff; [lia|].
    intros j Hj. f_equal. lia.
Qed.

(** ** Completing *)

Lemma complete_spec s i :
  (i < length s)%nat -> complete s (Z.of_nat i) = reverse (drop (S i) s) ++ s.
Proof.
  intros Hi. unfold complete, zlen. rewrite (proj2 (Z.ltb_ge (Z.of_nat i) 0)) by lia.
  rewrite (proj2 (Z.ltb_ge _ (Z.of_nat i))) by lia. rewrite !orb_false_r.
  destruct (Z.leb_spec (Z.of_nat (length s)) 1) as [Hle|Hgt].
  - by rewrite drop_ge by lia.
  - f_equal. rewrite <- (take_drop (S i) s) at 2. rewrite reverse_app.
    rewrite take_app_length'; [done|]. rewrite length_reverse, length_drop. lia.
Qed.

Lemma completed_palindrome s i :
  pal_prefix s i -> palindrome (reverse (drop (S i) s) ++ s).
Proof.
  unfold pal_prefix, palindrome. intros Hp. rewrite reverse_app, reverse_involutive.
  rewrite <- (take_drop (S i) s) at 1. rewrite reverse_app, Hp, <- app_assoc. by rewrite take_drop.
Qed.

(** Characters in front make a palindrome only before a palindromic prefix. *)
Lemma palindrome_prefix w s :
  palindrome (w ++ s) -> (length w <= length s)%nat -> palindrome (take (length s - length w) s).
Proof.
  unfold palindrome. intros E Hl. rewrite <- (take_drop (length s - length w) s) in E.
  set (p := take (length s - length w) s) in *. set (q := drop (length s - length w) s) in *.
  rewrite !reverse_app, <- app_assoc in E.
  apply app_inj_1 in E as [_ E]; [|unfold q; rewrite length_reverse, length_drop; lia].
  apply app_inj_1 in E as [E _]; [done|]. by rewrite length_reverse.
Qed.

(** The solution returns, within one round per character, a palindrome
    that ends with the given string, and no palindrome that ends with it is
    shorter. *)
Theorem shortestPalindrome_correct s fuel :
  zlen s <= int_max -> (length s < fuel)%nat ->
  exists w, shortestPalindrome fuel s = Ret (w ++ s) /\ palindrome (w ++ s) /\
    forall w', palindrome (w' ++ s) -> (length w <= length w')%nat.
Proof.
  intros Hn Hf. destruct (decide (s = [])) as [->|Hne].
  { destruct fuel; [simpl in Hf; lia|]. exists []. split; [done|]. split; [done|]. simpl. lia. }
  assert (0 < length s)%nat as Hpos by (destruct s; [done|simpl; lia]). unfold shortestPalindrome.
  assert (to_int (szadd (zlen s) (-1)) = zlen s - 1) as ->.
  { unfold szadd, zlen in *. rewrite Z.mod_small by (unfold size_max, int_max in *; lia).
    apply to_int_small. unfold int_min. lia. }
  edestruct (while_loop_total (axis_inv s) Z.to_nat
    (fun r => axis_inv s r /\ pal_prefix s (Z.to_nat r)) (axis_step s) fuel (zlen s - 1)) as (i & -> & Hi & Hp).
  - split; [unfold zlen; lia|]. unfold zlen. intros x Hx Hxs. lia.
  - intros t Ht. eapply returns_mono; [by apply axis_step_spec|]. intros [t'|r]; [done|].
    by intros [-> H].
  - unfold zlen. lia.
  - destruct Hi as [Hi Hno]. unfold zlen in Hi. bind_ret.
    replace i with (Z.of_nat (Z.to_nat i)) by lia. rewrite complete_spec by lia.
    exists (reverse (drop (S (Z.to_nat i)) s)). split; [done|]. split; [by apply completed_palindrome|].
    intros w' Hw'. rewrite length_reverse, length_drop.
    destruct (decide (length s - S (Z.to_nat i) <= length w')%nat) as [|Hlt]; [done|exfalso].
    apply (Hno (length s - length w' - 1)%nat); [lia|lia|]. unfold pal_prefix.
    replace (S (length s - length w' - 1)) with (length s - length w')%nat by lia.
    apply palindrome_prefix; [done|lia].
Qed.

Lemma shortestPalindrome_correct_witness :
  exists w, shortestPalindrome 9 [97; 97; 99; 101; 99; 97; 97; 97] = Ret (w ++ [97; 97; 99; 101; 99; 97; 97; 97]) /\
    palindrome (w ++ [97; 97; 99; 101; 99; 97; 97; 97]) /\
    forall w', palindrome (w' ++ [97; 97; 99; 101; 99; 97; 97; 97]) -> (length w <= length w')%nat.
Proof.
  apply (shortestPalindrome_correct [97; 97; 99; 101; 99; 97; 97; 97] 9); [by vm_compute|simpl; lia].
Defined.
