(* ===== verification/Parentheses.v ===== *)
(** * Longest valid parentheses

    src/c++/leetcode/32.cpp: every parenthesis is marked as matched or not, and
    the longest run of matched ones is the answer.  The reference is the
    inductive definition of a balanced text. *)

From Stdlib Require Import ZArith Lia.
From stdpp Require Import base numbers list.
From S2P Require Import Prelude.

Open Scope Z_scope.

(** [for (auto j = i-1; j >= 0; j--) if (v[j] == -1) { last = j; break; }], with
    [n = j + 1] positions left. *)
Fixpoint last_open (n : nat) (v : list Z) : outcome Z :=
  match n with
  | O => Ret (-1)
  | S n => a ← vget v (Z.of_nat n); if a =? -1 then Ret (Z.of_nat n) else last_open n v
  end.

Definition mark_one (s : list Z) (i : Z) (v : list Z) : outcome (list Z) :=
  c ← vget s i;
  if c =? 40 then vset v i (-1)
  else
    last ← last_open (Z.to_nat i) v;
    if last =? -1 then vset v i (-2)
    else v' ← vset v last 1; vset v' i 1.

(** [max] and [cur] over the marks. *)
Fixpoint scan_runs (v : list Z) (max cur : Z) : outcome Z :=
  match v with
  | [] => Ret max
  | a :: v =>
      if a =? 1 then c ← int_op (cur + 1); scan_runs v max c
      else scan_runs v (if max <? cur then cur else max) 0
  end.

Definition longestValidParentheses (s : list Z) : outcome Z :=
  v ← for_loop (length s) 0 (mark_one s) (replicate (length s + 1) 0);
  scan_runs v 0 0.

(** ** Balanced texts *)

Inductive balanced : list Z -> Prop :=
  | balanced_nil : balanced []
  | balanced_pair w u : balanced w -> balanced u -> balanced (40 :: w ++ 41 :: u).

Fixpoint height (s : list Z) : Z :=
  match s with
  | [] => 0
  | c :: s => (if c =? 40 then 1 else -1) + height s
  end.

Lemma height_app s t : height (s ++ t) = height s + height t.
Proof. induction s as [|c s IH]; simpl; [done|]. rewrite IH. lia. Qed.

Lemma balanced_app w u : balanced w -> balanced u -> balanced (w ++ u).
Proof.
  induction 1 as [|w1 w2 H1 _ H2 IH2]; intros Hu; [done|].
  change (balanced (40 :: (w1 ++ 41 :: w2) ++ u)). rewrite <- app_assoc. constructor; auto.
Qed.

Lemma balanced_height w : balanced w -> height w = 0.
Proof. induction 1 as [|w u _ IHw _ IHu]; [done|]. simpl. rewrite height_app. simpl. lia. Qed.

Lemma balanced_prefix w x y : balanced w -> w = x ++ y -> 0 <= height x.
Proof.
  intros H. revert x y. induction H as [|w u Hw IHw Hu IHu]; intros x y E.
  - by destruct x.
  - destruct x as [|c x]; [done|]. injection E as <- E. simpl.
    apply app_eq_inv in E as [(k & -> & E)|(k & -> & E)].
    + specialize (IHw x k eq_refl). lia.
    + rewrite height_app, (balanced_height w Hw). destruct k as [|c k]; [simpl; lia|].
      injection E as <- ->. specialize (IHu k y eq_refl). simpl. lia.
Qed.

Lemma balanced_suffix w x y : balanced w -> w = x ++ y -> height y <= 0.
Proof.
  intros H E. pose proof (balanced_prefix w x y H E). pose proof (balanced_height w H) as Hz.
  rewrite E, height_app in Hz. lia.
Qed.

(** ** What the marks stand for

    The text read so far: parentheses without a partner and balanced blocks. *)

Inductive token := TOpen | TClose | TBlock (w : list Z).

Definition token_text (t : token) : list Z :=
  match t with TOpen => [40] | TClose => [41] | TBlock w => w end.
Definition token_marks (t : token) : list Z :=
  match t with TOpen => [-1] | TClose => [-2] | TBlock w => replicate (length w) 1 end.
Definition text (ts : list token) : list Z := concat (token_text <$> ts).
Definition marks (ts : list token) : list Z := concat (token_marks <$> ts).

Definition token_ok (t : token) : Prop := match t with TBlock w => balanced w | _ => True end.

(** No open parenthesis is in front of a closing one without a partner. *)
Record tokens_ok (ts : list token) : Prop := {
  to_close : forall a b, ts = a ++ TClose :: b -> Forall (fun t => t <> TOpen) a;
  to_block : Forall token_ok ts
}.

Lemma text_app a b : text (a ++ b) = text a ++ text b.
Proof. unfold text. by rewrite fmap_app, concat_app. Qed.

Lemma marks_app a b : marks (a ++ b) = marks a ++ marks b.
Proof. unfold marks. by rewrite fmap_app, concat_app. Qed.

Lemma marks_length ts : length (marks ts) = length (text ts).
Proof.
  induction ts as [|t ts IH]; [done|]. unfold marks, text in *. csimpl. rewrite !length_app, IH.
  destruct t; simpl; rewrite ?length_replicate; done.
Qed.

(** Blocks only. *)
Lemma blocks_only ts :
  Forall token_ok ts -> Forall (fun t => t <> TOpen) ts -> Forall (fun t => t <> TClose) ts ->
  balanced (text ts) /\ marks ts = replicate (length (text ts)) 1.
Proof.
  intros H1 H2 H3. induction ts as [|t ts IH]; [split; constructor|].
  apply Forall_cons_1 in H1 as [H1 H1']. apply Forall_cons_1 in H2 as [H2 H2']. apply Forall_cons_1 in H3 as [H3 H3'].
  destruct (IH H1' H2' H3') as [IHb IHm]. destruct t as [| |w]; [done..|].
  change (text (TBlock w :: ts)) with (w ++ text ts). change (marks (TBlock w :: ts)) with (replicate (length w) 1 ++ marks ts).
  split; [by apply balanced_app|]. by rewrite IHm, length_app, replicate_add.
Qed.

Lemma marks_no_open ts : Forall (fun t => t <> TOpen) ts -> Forall (fun a => a <> -1) (marks ts).
Proof.
  intros H. induction H as [|t ts Ht H IH]; [constructor|]. unfold marks in *. csimpl. apply Forall_app_2; [|done].
  destruct t as [| |w]; [done|by apply Forall_singleton|]. by apply Forall_replicate.
Qed.

(** Either there is no open parenthesis, or a last one. *)
Lemma last_token ts :
  Forall (fun t => t <> TOpen) ts \/ exists a b, ts = a ++ TOpen :: b /\ Forall (fun t => t <> TOpen) b.
Proof.
  induction ts as [|t ts [IH|(a & b & -> & Hb)]]; [by left| |right; by exists (t :: a), b].
  destruct t as [| |w]; [right; by exists [], ts|left; by constructor..].
Qed.

Lemma after_open a b :
  tokens_ok (a ++ TOpen :: b) -> Forall (fun t => t <> TClose) b.
Proof.
  intros [Hc _]. apply Forall_forall. intros t Ht ->. apply list_elem_of_split in Ht as (b1 & b2 & ->).
  specialize (Hc (a ++ TOpen :: b1) b2). rewrite <- app_assoc in Hc. specialize (Hc eq_refl).
  apply Forall_app in Hc as [_ [Hc _]%Forall_cons_1]. done.
Qed.

(** ** Marking *)

Lemma last_open_none v n rest :
  Forall (fun a => a <> -1) v -> (n <= length v)%nat -> last_open n (v ++ rest) = Ret (-1).
Proof.
  intros Hv. induction n as [|n IH]; intros Hn; [done|]. cbn [last_open].
  destruct (lookup_lt_is_Some_2 v n) as [a Ha]; [lia|].
  rewrite (vget_nat _ n a) by (by rewrite lookup_app_l by lia). bind_ret.
  rewrite (proj2 (Z.eqb_neq _ _) (Forall_lookup_1 _ _ _ _ Hv Ha)). apply IH. lia.
Qed.

Lemma last_open_at a v n rest :
  Forall (fun x => x <> -1) v -> (n <= length v)%nat ->
  last_open (length a + 1 + n) (a ++ -1 :: v ++ rest) = Ret (zlen a).
Proof.
  intros Hv. induction n as [|n IH]; intros Hn.
  - rewrite Nat.add_0_r, Nat.add_1_r. cbn [last_open]. by rewrite (vget_nat _ _ (-1)) by (by apply list_lookup_middle).
  - rewrite Nat.add_succ_r. cbn [last_open]. destruct (lookup_lt_is_Some_2 v n) as [x Hx]; [lia|].
    rewrite (vget_nat _ _ x).
    + bind_ret. rewrite (proj2 (Z.eqb_neq _ _) (Forall_lookup_1 _ _ _ _ Hv Hx)). apply IH. lia.
    + rewrite lookup_app_r by lia. replace (length a + 1 + n - length a)%nat with (S n) by lia. simpl.
      by rewrite lookup_app_l by lia.
Qed.

Lemma vset_middle (a b : list Z) x y : vset (a ++ x :: b) (zlen a) y = Ret (a ++ y :: b).
Proof.
  rewrite vset_in_range by len. f_equal. unfold zlen. rewrite Nat2Z.id, insert_app_r_alt by lia.
  by rewrite Nat.sub_diag.
Qed.

(** The marks after a prefix of the text. *)
Definition marked (s : list Z) (i : Z) (v : list Z) : Prop :=
  exists ts, tokens_ok ts /\ text ts = take (Z.to_nat i) s /\ v = marks ts ++ replicate (length s + 1 - Z.to_nat i) 0.

Lemma tokens_ok_open ts : tokens_ok ts -> tokens_ok (ts ++ [TOpen]).
Proof.
  intros [Hc Hb]. split; [|apply Forall_app_2; [done|by apply Forall_singleton]].
  intros a b E. destruct b as [|t b _] using rev_ind.
  - by apply app_inj_tail in E as [_ ?].
  - rewrite app_comm_cons, app_assoc in E. apply app_inj_tail in E as [E _]. by apply (Hc a b).
Qed.

Lemma tokens_ok_close ts : tokens_ok ts -> Forall (fun t => t <> TOpen) ts -> tokens_ok (ts ++ [TClose]).
Proof.
  intros [_ Hb] Hno. split; [|apply Forall_app_2; [done|by apply Forall_singleton]].
  intros a b E. assert (Forall (fun t => t <> TOpen) (ts ++ [TClose])) as H
    by (apply Forall_app_2; [done|by apply Forall_singleton]).
  rewrite E in H. by apply Forall_app in H as [? _].
Qed.

Lemma tokens_ok_match a b :
  tokens_ok (a ++ TOpen :: b) -> Forall (fun t => t <> TOpen) b ->
  balanced (text b) /\ marks b = replicate (length (text b)) 1 /\
  tokens_ok (a ++ [TBlock (40 :: text b ++ [41])]).
Proof.
  intros Hok Hno. pose proof (after_open _ _ Hok) as Hnc. destruct Hok as [Hc Hb].
  apply Forall_app in Hb as [Hba [_ Hbb]%Forall_cons_1]. destruct (blocks_only b Hbb Hno Hnc) as [Hbal Hm].
  split; [done|]. split; [done|]. split.
  - intros x y E. destruct y as [|t y _] using rev_ind.
    + by apply app_inj_tail in E as [_ ?].
    + rewrite (app_comm_cons y [t] TClose), app_assoc in E. apply app_inj_tail in E as [-> _].
      apply (Hc x (y ++ TOpen :: b)). by rewrite <- app_assoc.
  - apply Forall_app_2; [done|]. apply Forall_singleton. simpl. by apply (balanced_pair (text b) []); [|constructor].
Qed.

Lemma mark_one_ok s i v :
  Forall (fun c => c = 40 \/ c = 41) s -> 0 <= i < zlen s -> marked s i v ->
  returns (mark_one s i v) (marked s (i + 1)).
Proof.
  intros Hs Hi (ts & Hok & Htext & ->). set (k := Z.to_nat i) in *.
  destruct (lookup_lt_is_Some_2 s k) as [c Hc]; [unfold k; len|].
  assert (zlen (marks ts) = i) as Hlen.
  { unfold zlen. rewrite marks_length, Htext, length_take. unfold k, zlen in *. lia. }
  replace (length s + 1 - k)%nat with (S (length s + 1 - Z.to_nat (i + 1)))%nat by (unfold k, zlen in *; lia).
  cbn [replicate]. set (rest := replicate _ _).
  assert (forall y, vset (marks ts ++ 0 :: rest) i y = Ret (marks ts ++ y :: rest)) as Hset.
  { intros y. rewrite <- Hlen at 1. apply vset_middle. }
  assert (take (Z.to_nat (i + 1)) s = text ts ++ [c]) as Htake.
  { rewrite Htext. replace (Z.to_nat (i + 1)) with (S k) by (unfold k; lia). by apply take_S_r. }
  assert (forall ts', tokens_ok ts' -> text ts' = text ts ++ [c] -> marked s (i + 1) (marks ts' ++ rest)) as Hnew.
  { intros ts' H1 H2. exists ts'. by rewrite Htake. }
  unfold mark_one. replace i with (Z.of_nat k) at 1 by (unfold k; lia). rewrite (vget_nat s k c) by done. bind_ret.
  destruct (Forall_lookup_1 _ _ _ _ Hs Hc) as [-> | ->].
  - change (40 =? 40) with true. cbn iota. rewrite Hset. apply returns_ret. specialize (Hnew (ts ++ [TOpen])).
    rewrite text_app, marks_app, <- app_assoc in Hnew. apply Hnew; [by apply tokens_ok_open|done].
  - change (41 =? 40) with false. cbn iota. destruct (last_token ts) as [Hno|(a & b & -> & Hno)].
    + rewrite last_open_none; [|by apply marks_no_open|unfold k, zlen in *; lia]. bind_ret.
      change (-1 =? -1) with true. cbn iota. rewrite Hset. apply returns_ret.
      specialize (Hnew (ts ++ [TClose])). rewrite text_app, marks_app, <- app_assoc in Hnew.
      apply Hnew; [by apply tokens_ok_close|done].
    + destruct (tokens_ok_match a b Hok Hno) as (Hbal & Hm & Hok').
      assert (marks (a ++ TOpen :: b) = marks a ++ -1 :: marks b) as Em by apply marks_app.
      rewrite Em in *. rewrite <- app_assoc. cbn [app].
      replace (Z.to_nat i) with (length (marks a) + 1 + length (marks b))%nat by (rewrite <- Hlen; len).
      rewrite last_open_at by (by apply marks_no_open || done). bind_ret.
      rewrite (proj2 (Z.eqb_neq _ _)) by len. rewrite vset_middle. bind_ret.
      change (marks a ++ 1 :: marks b ++ 0 :: rest) with (marks a ++ (1 :: marks b) ++ 0 :: rest). rewrite app_assoc.
      assert (vset ((marks a ++ 1 :: marks b) ++ 0 :: rest) i 1 = Ret ((marks a ++ 1 :: marks b) ++ 1 :: rest)) as ->.
      { replace i with (zlen (marks a ++ 1 :: marks b)) by (rewrite <- Hlen; len). apply vset_middle. }
      apply returns_ret. specialize (Hnew (a ++ [TBlock (40 :: text b ++ [41])]) Hok').
      rewrite !text_app, marks_app in Hnew. unfold marks at 2, text at 2 in Hnew. cbn in Hnew.
      rewrite !app_nil_r, length_app, replicate_add, <- Hm in Hnew. cbn in Hnew.
      replace ((marks a ++ 1 :: marks b) ++ 1 :: rest) with ((marks a ++ 1 :: marks b ++ [1]) ++ rest)
        by (by rewrite <- !app_assoc; cbn; rewrite <- app_assoc).
      apply Hnew. by rewrite <- app_assoc.
Qed.

(** ** The longest run *)

Lemma scan_ones n v m c :
  0 <= c -> c + Z.of_nat n <= int_max -> scan_runs (replicate n 1 ++ v) m c = scan_runs v m (c + Z.of_nat n).
Proof.
  revert c. induction n as [|n IH]; intros c Hc Hmax; [by rewrite Z.add_0_r|]. cbn [replicate app scan_runs].
  change (1 =? 1) with true. cbn iota. rewrite int_op_in by (unfold int_min; lia). bind_ret.
  rewrite IH by lia. f_equal. lia.
Qed.

Definition infix (w x : list Z) : Prop := exists p q, x = p ++ w ++ q.

(** What has been counted after the text [x]. *)
Definition counted (x : list Z) (m c : Z) : Prop :=
  (exists w, balanced w /\ infix w x /\ zlen w = m) /\ exists p w, x = p ++ w /\ balanced w /\ zlen w = c.

Lemma infix_app w x y : infix w x -> infix w (x ++ y).
Proof. intros (p & q & ->). exists p, (q ++ y). by rewrite <- !app_assoc. Qed.

(** After a parenthesis without a partner. *)
Lemma counted_break x y m c : counted x m c -> counted (x ++ y) (if m <? c then c else m) 0.
Proof.
  intros [(w & Hw & Hin & Hm) (p & u & Ex & Hu & Hc)]. split.
  - destruct (m <? c); [|exists w; auto using infix_app]. exists u. split; [done|]. split; [|done].
    exists p, y. by rewrite Ex, <- app_assoc.
  - exists (x ++ y), []. split; [by rewrite app_nil_r|]. split; [constructor|done].
Qed.

Lemma scan_tokens ts : forall x m c rest,
  Forall token_ok ts -> counted x m c -> zlen (x ++ text ts) <= int_max ->
  exists m' c', scan_runs (marks ts ++ rest) m c = scan_runs rest m' c' /\ counted (x ++ text ts) m' c'.
Proof.
  induction ts as [|t ts IH]; intros x m c rest Hok Hcount Hmax.
  - exists m, c. unfold text. simpl. by rewrite app_nil_r.
  - apply Forall_cons in Hok as [Ht Hok]. change (marks (t :: ts)) with (token_marks t ++ marks ts).
    change (text (t :: ts)) with (token_text t ++ text ts) in *. rewrite <- (app_assoc (token_marks t)), (app_assoc x (token_text t)) in *.
    destruct t as [| |w]; [apply (IH (x ++ [40])); [done|by apply counted_break|done]
                          |apply (IH (x ++ [41])); [done|by apply counted_break|done]|].
    pose proof Hcount as [_ (p & u & Ex & Hu & Hc)]. cbn [token_marks].
    assert (c + Z.of_nat (length w) <= int_max) by (subst; cbn [token_text] in Hmax; len).
    rewrite scan_ones by (subst; len || lia). apply (IH (x ++ w)); [done| |done].
    destruct Hcount as [(v & Hv & Hin & Hm) _]. split; [exists v; auto using infix_app|].
    exists p, (u ++ w). split; [by rewrite Ex, <- app_assoc|]. split; [by apply balanced_app|len].
Qed.

Lemma scan_max v : forall m c r, scan_runs v m c = Ret r -> m <= r.
Proof.
  induction v as [|a v IH]; intros m c r E; simpl in E; [by injection E as ->|].
  destruct (a =? 1).
  - apply bind_Ret in E as (c' & _ & E). by apply (IH m c').
  - apply IH in E. destruct (Z.ltb_spec m c); lia.
Qed.

Lemma scan_current v : forall m c r, scan_runs (v ++ [0]) m c = Ret r -> c <= r.
Proof.
  induction v as [|a v IH]; intros m c r E; cbn [app scan_runs] in E.
  - change (0 =? 1) with false in E. cbn iota in E. injection E as <-. destruct (Z.ltb_spec m c); lia.
  - destruct (a =? 1).
    + apply bind_Ret in E as (c' & [-> _]%int_op_Ret & E). apply IH in E. lia.
    + apply scan_max in E. destruct (Z.ltb_spec m c); lia.
Qed.

(** A run in the marks is counted. *)
Lemma scan_run x n y : forall m c r,
  0 <= c -> scan_runs (x ++ replicate n 1 ++ y ++ [0]) m c = Ret r -> Z.of_nat n <= r.
Proof.
  induction x as [|a x IH]; intros m c r Hc E; cbn [app] in E.
  - enough (c + Z.of_nat n <= r) by lia. clear Hc. revert c E. induction n as [|n IH]; intros c E.
    + rewrite Z.add_0_r. by apply scan_current in E.
    + cbn [replicate app scan_runs] in E. change (1 =? 1) with true in E. cbn iota in E.
      apply bind_Ret in E as (c' & [-> _]%int_op_Ret & E). apply IH in E. lia.
  - cbn [scan_runs] in E. destruct (a =? 1).
    + apply bind_Ret in E as (c' & [-> _]%int_op_Ret & E). by apply IH in E; [|lia].
    + by apply IH in E.
Qed.

(** ** A balanced part of the text is matched throughout *)

Lemma opens_height b x y :
  Forall token_ok b -> Forall (fun t => t <> TClose) b -> text b = x ++ y -> 0 <= height x.
Proof.
  intros Hok Hno. revert x y. induction b as [|t b IH]; intros x y E; [by destruct x|].
  apply Forall_cons in Hok as [Ht Hok]. apply Forall_cons in Hno as [Hn Hno].
  change (token_text t ++ text b = x ++ y) in E. apply app_eq_inv in E as [(k & E & _)|(k & -> & E)].
  - destruct t as [| |w]; [|done|by eapply balanced_prefix].
    destruct x as [|c x]; [done|]. injection E as <- E. symmetry in E. apply app_nil in E as [-> _]. done.
  - specialize (IH Hok Hno k y E). rewrite height_app. destruct t as [| |w]; [simpl; lia|done|].
    simpl. rewrite (balanced_height w Ht). lia.
Qed.

Lemma closes_height a x y :
  Forall token_ok a -> Forall (fun t => t <> TOpen) a -> text a = x ++ y -> height y <= 0.
Proof.
  intros Hok Hno. revert x y. induction a as [|t a IH]; intros x y E; [by destruct x, y|].
  apply Forall_cons in Hok as [Ht Hok]. apply Forall_cons in Hno as [Hn Hno].
  change (token_text t ++ text a = x ++ y) in E. apply app_eq_inv in E as [(k & E & ->)|(k & -> & E)].
  - rewrite height_app. specialize (IH Hok Hno [] (text a) eq_refl).
    enough (height k <= 0) by lia. destruct t as [| |w]; [done| |by eapply balanced_suffix].
    destruct x as [|c x]; [simpl in E; by subst k|]. injection E as _ E. symmetry in E. apply app_nil in E as [_ ->]. done.
  - by apply (IH Hok Hno k).
Qed.

Lemma unmatched_token ts k m :
  marks ts !! k = Some m -> m = 1 \/ exists a t b, ts = a ++ t :: b /\ length (text a) = k /\ (t = TOpen \/ t = TClose).
Proof.
  revert k. induction ts as [|t ts IH]; intros k E; [done|].
  change (marks (t :: ts)) with (token_marks t ++ marks ts) in E. apply lookup_app_Some in E as [E|[Hk E]].
  - destruct t as [| |w]; simpl in E.
    + right. exists [], TOpen, ts. destruct k; [|done]. auto.
    + right. exists [], TClose, ts. destruct k; [|done]. auto.
    + left. by apply lookup_replicate_1 in E as [-> _].
  - destruct (IH _ E) as [->|(a & u & b & -> & Ha & Hu)]; [by left|]. right. exists (t :: a), u, b.
    split; [done|]. split; [|done]. change (text (t :: a)) with (token_text t ++ text a). rewrite length_app, Ha.
    destruct t; simpl in *; rewrite ?length_replicate in *; lia.
Qed.

(** Cutting a text at one of its characters. *)
Lemma cut_at (a b p u q : list Z) c :
  a ++ c :: b = p ++ u ++ q -> (length p <= length a < length p + length u)%nat ->
  exists x y, a = p ++ x /\ u = x ++ c :: y /\ b = y ++ q.
Proof.
  intros E Hl.
  assert (exists x, a = p ++ x /\ u ++ q = x ++ c :: b) as (x & -> & E2).
  { apply app_eq_inv in E as [(x & -> & E)|(x & -> & E)]; [by exists x|].
    rewrite length_app in Hl. destruct x; [|simpl in Hl; lia]. exists []. by rewrite !app_nil_r. }
  rewrite length_app in Hl. exists x. apply app_eq_inv in E2 as [(y & -> & E2)|(y & -> & E2)].
  - rewrite length_app in Hl. destruct y as [|d y]; [simpl in Hl; lia|]. injection E2 as <- ->. by exists y.
  - rewrite length_app in Hl. lia.
Qed.

Lemma balanced_matched ts p u q k m :
  tokens_ok ts -> text ts = p ++ u ++ q -> balanced u ->
  (length p <= k < length p + length u)%nat -> marks ts !! k = Some m -> m = 1.
Proof.
  intros Hok E Hu Hk Hm. destruct (unmatched_token ts k m Hm) as [?|(a & t & b & -> & Ha & Ht)]; [done|]. exfalso.
  pose proof (to_block _ Hok) as Hb. apply Forall_app in Hb as [Hba [_ Hbb]%Forall_cons].
  rewrite text_app in E. subst k. pose proof (balanced_height u Hu) as Hz. destruct Ht as [-> | ->].
  - destruct (cut_at _ _ _ _ _ _ E Hk) as (x & y & _ & -> & Eb).
    pose proof (balanced_prefix _ x _ Hu eq_refl). rewrite height_app in Hz. simpl in Hz.
    pose proof (opens_height b y q Hbb (after_open _ _ Hok) Eb). lia.
  - destruct (cut_at _ _ _ _ _ _ E Hk) as (x & y & Ea & -> & _).
    pose proof (closes_height a p x Hba (to_close _ Hok _ _ eq_refl) Ea).
    assert (0 <= height (x ++ [41])) as Hp by (apply (balanced_prefix _ _ y Hu); by rewrite <- app_assoc).
    rewrite height_app in Hp. simpl in Hp. lia.
Qed.

(** [longestValidParentheses] returns the length of a longest balanced part
    of a text of parentheses. *)
Theorem longestValidParentheses_correct s :
  Forall (fun c => c = 40 \/ c = 41) s -> zlen s <= int_max ->
  exists r, longestValidParentheses s = Ret r /\
    (exists w, balanced w /\ infix w s /\ zlen w = r) /\
    forall w, balanced w -> infix w s -> zlen w <= r.
Proof.
  intros Hs Hmax. unfold longestValidParentheses.
  destruct (for_loop_inv (marked s) (mark_one s) (length s) 0 (replicate (length s + 1) 0)) as (v & -> & ts & Hok & Ht & ->).
  - exists []. split; [split; [by intros [|] ?|constructor]|]. by rewrite Nat.sub_0_r.
  - intros j t Hj Hm. by apply mark_one_ok; [..|done].
  - bind_ret. rewrite take_ge in Ht by lia. replace (length s + 1 - _)%nat with 1%nat by lia.
    destruct (scan_tokens ts [] 0 0 [0]) as (m & c & E & Hc).
    + apply Hok.
    + split; [exists []; split; [constructor|]; split; [by exists [], []|done]|exists [], []]. by repeat constructor.
    + by rewrite Ht.
    + pose proof (counted_break _ [] _ _ Hc) as [(w & Hw & Hin & Hlen) _]. rewrite Ht, app_nil_r in Hin.
      change (replicate 1 0) with [0]. rewrite E. cbn [scan_runs]. change (0 =? 1) with false. cbn iota.
      eexists. split; [done|]. split; [by exists w|]. intros u Hu (p & q & Es).
      apply (scan_run (take (length p) (marks ts)) (length u) (drop (length p + length u) (marks ts)) 0 0); [done|].
      replace (replicate (length u) 1) with (take (length u) (drop (length p) (marks ts))).
      * rewrite <- drop_drop, (app_assoc (take (length u) _)), take_drop, app_assoc, take_drop.
        by rewrite E.
      * symmetry. apply replicate_as_Forall. split.
        -- apply (f_equal length) in Ht, Es. rewrite <- marks_length in Ht. rewrite !length_app in Es.
           rewrite length_take, length_drop. lia.
        -- apply Forall_lookup. intros k a Ha. apply lookup_take_Some in Ha as [Ha Hk]. rewrite lookup_drop in Ha.
           symmetry. apply (balanced_matched ts p u q (length p + k)); [done|congruence|done|lia|done].
Qed.

Lemma longestValidParentheses_correct_witness :
  exists r, longestValidParentheses [41; 40; 41; 40; 41; 41; 40] = Ret r /\ r = 4 /\
    (forall w, balanced w -> infix w [41; 40; 41; 40; 41; 41; 40] -> zlen w <= r).
Proof.
  destruct (longestValidParentheses_correct [41; 40; 41; 40; 41; 41; 40]) as (r & E & _ & Hall).
  - repeat (constructor; [by auto|]). constructor.
  - done.
  - exists r. split; [done|]. split; [|done]. vm_compute in E. by injection E as <-.
Defined.
