(* ===== verification/LongestPath.v ===== *)
(** * The longest path of a file

    src/c++/leetcode/388.cpp: a directory tree is given as lines that are
    indented by tabs; the solution keeps the lengths of the paths of the
    directories around the current line.  The reference is the tree itself. *)

From Stdlib Require Import ZArith Lia.
From stdpp Require Import base numbers list.
From S2P Require Import Prelude.

Open Scope Z_scope.

(** [input[pos]]: a string ends in a zero that may be read. *)
Definition char_at (input : list Z) (pos : Z) : outcome Z :=
  if pos =? zlen input then Ret 0 else vget input pos.

Definition TAB : Z := 9.
Definition NEWLINE : Z := 10.
Definition DOT : Z := 46.

(** The loop of [nextline]: [pos], [level] and [isfile]. *)
Definition nextline_step (input : list Z) (s : Z * Z * Z) : outcome (control (Z * Z * Z) (Z * Z * Z)) :=
  let '(pos, level, isfile) := s in
  if pos <=? zlen input then
    c ← char_at input pos;
    pos' ← int_op (pos + 1);
    if c =? NEWLINE then Ret (Break (pos', level, isfile))
    else if c =? TAB then l ← int_op (level + 1); Ret (Continue (pos', l, isfile))
    else Ret (Continue (pos', level, if c =? DOT then 1 else isfile))
  else Ret (Break s).

(** The result, and [pos], [level] and [isfile] afterwards. *)
Definition nextline (input : list Z) (pos : Z) : outcome (Z * (Z * Z * Z)) :=
  if zlen input <=? pos then Ret (0, (pos, 0, 0))
  else
    r ← while_loop (length input + 2) (nextline_step input) (pos, 0, 0);
    len ← int_op (r.1.1 - pos - r.1.2 - 1);
    Ret (len, r).

(** [v.resize(level)] *)
Definition resize (v : list Z) (n : nat) : list Z := take n v ++ replicate (n - length v) 0.

Definition path_step (input : list Z) (s : Z * Z * list Z) : outcome (control (Z * Z * list Z) Z) :=
  let '(pos, max, v) := s in
  r ← nextline input pos;
  let '(len, (pos', level, isfile)) := r in
  if 0 <? len then
    let v1 := resize v (Z.to_nat level) in
    b ← (if zlen v1 =? 0 then Ret 0 else vget v1 (zlen v1 - 1));
    cur ← int_op (b + 1 + len);
    if isfile =? 0 then Ret (Continue (pos', max, v1 ++ [cur]))
    else Ret (Continue (pos', if max <? cur then cur else max, v1))
  else Ret (Break (if 0 <? max then max - 1 else 0)).

Definition lengthLongestPath (input : list Z) : outcome Z :=
  while_loop (length input + 2) (path_step input) (0, 0, []).

(** ** Trees and their text *)

Inductive node :=
  | File (name : list Z)
  | Dir (name : list Z) (children : list node).

(** A name has no tab and no end of line; files are told by a dot. *)
Definition name_ok (name : list Z) : Prop := name <> [] /\ Forall (fun c => c <> TAB /\ c <> NEWLINE) name.

Fixpoint node_ok (t : node) : Prop :=
  match t with
  | File name => name_ok name /\ DOT ∈ name
  | Dir name children => name_ok name /\ (DOT ∉ name) /\ foldr (fun c P => node_ok c /\ P) True children
  end.

(** The lines of a tree: depth and name. *)
Fixpoint node_lines (d : nat) (t : node) : list (nat * list Z) :=
  match t with
  | File name => [(d, name)]
  | Dir name children => (d, name) :: foldr (fun c l => node_lines (S d) c ++ l) [] children
  end.

Definition line_text (l : nat * list Z) : list Z := replicate l.1 TAB ++ l.2.

(** The lines with an end of line between them. *)
Fixpoint join_lines (ls : list (list Z)) : list Z :=
  match ls with
  | [] => []
  | [l] => l
  | l :: ls => l ++ NEWLINE :: join_lines ls
  end.

Definition forest_lines (d : nat) (ts : list node) : list (nat * list Z) :=
  foldr (fun c l => node_lines d c ++ l) [] ts.

Definition forest_text (ts : list node) : list Z := join_lines (line_text <$> forest_lines 0 ts).

(** The paths of the files, with slashes. *)
Fixpoint node_paths (t : node) : list (list Z) :=
  match t with
  | File name => [name]
  | Dir name children => (fun p => name ++ 47 :: p) <$> foldr (fun c l => node_paths c ++ l) [] children
  end.

Definition forest_paths (ts : list node) : list (list Z) := foldr (fun c l => node_paths c ++ l) [] ts.

Definition longest (ps : list (list Z)) : Z := foldr (fun p m => Z.max (zlen p) m) 0 ps.

Section NodeInd.
Context (P : node -> Prop).
Context (Hfile : forall name, P (File name)).
Context (Hdir : forall name children, Forall P children -> P (Dir name children)).

Fixpoint node_ind' (t : node) : P t :=
  match t with
  | File name => Hfile name
  | Dir name children =>
      Hdir name children
        ((fix go (l : list node) : Forall P l :=
            match l with
            | [] => Forall_nil_2 P
            | c :: l => Forall_cons_2 P c l (node_ind' c) (go l)
            end) children)
  end.
End NodeInd.

(** ** Reading a line *)

Definition tabs (l : list Z) : Z := zcount (fun c => c =? TAB) l.
Definition has_dot (l : list Z) : Z := if existsb (fun c => c =? DOT) l then 1 else 0.

Lemma char_at_spec input k c :
  (input ++ [NEWLINE]) !! k = Some c ->
  (k < length input)%nat /\ char_at input (Z.of_nat k) = Ret c \/
  k = length input /\ c = NEWLINE /\ char_at input (Z.of_nat k) = Ret 0.
Proof.
  intros H. unfold char_at. apply lookup_app_Some in H as [H|[Hk H]].
  - left. pose proof (lookup_lt_Some _ _ _ H). rewrite (proj2 (Z.eqb_neq _ _)) by len.
    split; [done|]. by apply vget_nat.
  - right. apply list_lookup_singleton_Some in H as [Hk0 <-]. assert (k = length input) as -> by lia.
    split; [done|]. split; [done|]. unfold zlen. by rewrite Z.eqb_refl.
Qed.

Lemma tabs_app x y : tabs (x ++ y) = tabs x + tabs y.
Proof. unfold tabs. induction x as [|c x IH]; simpl; [done|]. rewrite IH. lia. Qed.

Lemma tabs_bound x : 0 <= tabs x <= zlen x.
Proof. unfold tabs. induction x as [|c x IH]; simpl; [done|]. destruct (c =? TAB); simpl; len. Qed.

Lemma has_dot_app x y : has_dot (x ++ y) = if has_dot x =? 1 then 1 else has_dot y.
Proof. unfold has_dot. rewrite existsb_app. by destruct (existsb _ x), (existsb _ y). Qed.

Lemma step_inside input k level isf c :
  char_at input (Z.of_nat k) = Ret c -> (k <= length input)%nat -> zlen input + 1 <= int_max ->
  nextline_step input (Z.of_nat k, level, isf) =
  if c =? NEWLINE then Ret (Break (Z.of_nat k + 1, level, isf))
  else if c =? TAB then l ← int_op (level + 1); Ret (Continue (Z.of_nat k + 1, l, isf))
  else Ret (Continue (Z.of_nat k + 1, level, if c =? DOT then 1 else isf)).
Proof.
  intros Hc Hk Hmax. unfold nextline_step. rewrite (proj2 (Z.leb_le _ _)), Hc by len. bind_ret.
  by rewrite (int_op_in (Z.of_nat k + 1)) by (unfold int_min, zlen in *; lia).
Qed.

Lemma step_behind input pos level isf :
  zlen input < pos -> nextline_step input (pos, level, isf) = Ret (Break (pos, level, isf)).
Proof. intros H. unfold nextline_step. by rewrite (proj2 (Z.leb_gt _ _) H). Qed.

Lemma has_dot_bit x : has_dot x = 0 \/ has_dot x = 1.
Proof. unfold has_dot. destruct (existsb _ x); auto. Qed.

(** Reading on: [x] has been read of the line [x ++ y], which starts behind [a]. *)
Lemma nextline_loop input y : forall a x b fuel,
  input ++ [NEWLINE] = a ++ x ++ y ++ NEWLINE :: b -> Forall (fun c => c <> NEWLINE) y ->
  zlen input + 1 <= int_max -> (length y + 2 <= fuel)%nat ->
  while_loop fuel (nextline_step input) (Z.of_nat (length (a ++ x)), tabs x, has_dot x) =
  Ret (zlen (a ++ x ++ y) + 1, tabs (x ++ y), has_dot (x ++ y)).
Proof.
  induction y as [|c y IH]; intros a x b fuel E Hy Hmax Hf; (destruct fuel as [|fuel]; [lia|]);
    cbn [while_loop].
  - assert ((input ++ [NEWLINE]) !! length (a ++ x) = Some NEWLINE) as Hc.
    { rewrite E, app_assoc. by apply list_lookup_middle. }
    rewrite !app_nil_r. destruct (char_at_spec _ _ _ Hc) as [[Hlt Hat]|(Heq & _ & Hat)].
    + by rewrite (step_inside _ _ _ _ _ Hat) by (done || lia).
    + rewrite (step_inside _ _ _ _ _ Hat) by (done || lia).
      change (0 =? NEWLINE) with false. change (0 =? TAB) with false. change (0 =? DOT) with false. cbn iota. bind_ret.
      destruct fuel as [|fuel]; [simpl in Hf; lia|]. cbn [while_loop].
      rewrite step_behind by len. by bind_ret.
  - apply Forall_cons in Hy as [Hc0 Hy].
    assert ((input ++ [NEWLINE]) !! length (a ++ x) = Some c) as Hc.
    { rewrite E, app_assoc. by apply list_lookup_middle. }
    destruct (char_at_spec _ _ _ Hc) as [[Hlt Hat]|(_ & ? & _)]; [|done].
    rewrite (step_inside _ _ _ _ _ Hat), (proj2 (Z.eqb_neq _ _) Hc0) by (done || lia).
    specialize (IH a (x ++ [c]) b fuel). rewrite <- !app_assoc in IH. cbn [app] in IH.
    specialize (IH E Hy Hmax ltac:(simpl in Hf; lia)). rewrite tabs_app, has_dot_app in IH.
    replace (Z.of_nat (length (a ++ x ++ [c]))) with (Z.of_nat (length (a ++ x)) + 1) in IH by len.
    unfold tabs at 2 in IH. unfold has_dot at 2 in IH. cbn in IH. rewrite orb_false_r in IH.
    pose proof (tabs_bound x). pose proof (has_dot_bit x) as Hbit. rewrite length_app in Hlt.
    destruct (Z.eqb_spec c TAB) as [->|Hct].
    + rewrite int_op_in by (unfold int_min, zlen in *; lia). bind_ret.
      change (TAB =? DOT) with false in IH. cbn in IH. rewrite <- IH. do 2 f_equal. destruct Hbit as [-> | ->]; done.
    + bind_ret. cbn in IH. rewrite Z.add_0_r in IH. rewrite <- IH. do 2 f_equal.
      destruct Hbit as [-> | ->], (c =? DOT); done.
Qed.

Lemma nextline_line input a l b :
  input ++ [NEWLINE] = a ++ l ++ NEWLINE :: b -> Forall (fun c => c <> NEWLINE) l -> l <> [] ->
  zlen input + 1 <= int_max ->
  nextline input (zlen a) = Ret (zlen l - tabs l, (zlen (a ++ l) + 1, tabs l, has_dot l)).
Proof.
  intros E Hl Hne Hmax. unfold nextline.
  assert (length a + length l <= length input)%nat as Hlen.
  { apply (f_equal length) in E. rewrite !length_app in E. simpl in E. lia. }
  destruct l as [|c l]; [done|]. rewrite (proj2 (Z.leb_gt _ _)) by len.
  pose proof (nextline_loop input (c :: l) a [] b (length input + 2) E Hl Hmax ltac:(lia)) as H.
  rewrite !app_nil_r in H. cbn [app] in H. change (Z.of_nat (length a)) with (zlen a) in H. change (tabs []) with 0 in H. change (has_dot []) with 0 in H.
  rewrite H. bind_ret. cbn [fst snd]. pose proof (tabs_bound (c :: l)). rewrite int_op_in by (unfold int_min; len).
  bind_ret. do 2 f_equal. len.
Qed.

Lemma nextline_end input pos : zlen input <= pos -> nextline input pos = Ret (0, (pos, 0, 0)).
Proof. intros H. unfold nextline. by rewrite (proj2 (Z.leb_le _ _) H). Qed.

(** ** The lines one after the other *)

Definition last_or_0 (v : list Z) : Z := match last v with Some x => x | None => 0 end.

(** What a line does to [v] and [max]. *)
Definition visit (s : list Z * Z) (l : nat * list Z) : list Z * Z :=
  let v1 := resize s.1 l.1 in
  let cur := last_or_0 v1 + 1 + zlen l.2 in
  if has_dot l.2 =? 0 then (v1 ++ [cur], s.2) else (v1, if s.2 <? cur then cur else s.2).

Lemma line_text_facts d name :
  name_ok name ->
  line_text (d, name) <> [] /\ Forall (fun c => c <> NEWLINE) (line_text (d, name)) /\
  tabs (line_text (d, name)) = Z.of_nat d /\ has_dot (line_text (d, name)) = has_dot name.
Proof.
  intros [Hne Hn]. unfold line_text. simpl. split; [by intros [_ ?]%app_nil|]. split.
  - apply Forall_app_2; [by apply Forall_replicate|]. eapply Forall_impl; [exact Hn|]. by intros c [_ ?].
  - rewrite tabs_app, has_dot_app. split.
    + assert (tabs name = 0) as ->.
      { unfold tabs. clear Hne. induction Hn as [|c l [Hc _] _ IH]; [done|]. simpl. rewrite IH.
        by rewrite (proj2 (Z.eqb_neq _ _) Hc). }
      unfold tabs. induction d as [|d IH]; [done|]. cbn [replicate zcount]. rewrite Z.eqb_refl. simpl Z.b2z. lia.
    + assert (has_dot (replicate d TAB) = 0) as ->; [|done].
      unfold has_dot. by induction d as [|d IH].
Qed.

Lemma last_of_resize v d :
  (if zlen (resize v d) =? 0 then Ret 0 else vget (resize v d) (zlen (resize v d) - 1)) = Ret (last_or_0 (resize v d)).
Proof.
  unfold last_or_0. generalize (resize v d) as w. intros w. destruct w as [|x w _] using rev_ind; [done|].
  rewrite last_snoc, (proj2 (Z.eqb_neq _ _)) by len.
  replace (zlen (w ++ [x]) - 1) with (Z.of_nat (length w)) by len. apply vget_nat. by apply list_lookup_middle.
Qed.

Definition lengths_ok (n : Z) (v : list Z) : Prop := Forall (fun x => 0 <= x <= n) v.

Lemma stack_resize_ok n v d : 0 <= n -> lengths_ok n v -> lengths_ok n (resize v d) /\ 0 <= last_or_0 (resize v d) <= n.
Proof.
  intros Hn Hv. assert (lengths_ok n (resize v d)) as Hr.
  { apply Forall_app_2; [by apply Forall_take|]. apply Forall_replicate. lia. }
  split; [done|]. unfold last_or_0. destruct (last (resize v d)) as [x|] eqn:E; [|lia].
  apply last_Some_elem_of in E. by apply (proj1 (Forall_forall _ _) Hr).
Qed.

Lemma path_step_end input pos max v :
  zlen input <= pos -> path_step input (pos, max, v) = Ret (Break (if 0 <? max then max - 1 else 0)).
Proof. intros H. unfold path_step. by rewrite nextline_end. Qed.

Lemma path_step_line input a d name b max v :
  input ++ [NEWLINE] = a ++ line_text (d, name) ++ NEWLINE :: b -> name_ok name ->
  lengths_ok (zlen a) v -> zlen input + 1 <= int_max ->
  let a' := a ++ line_text (d, name) ++ [NEWLINE] in
  let s := visit (v, max) (d, name) in
  path_step input (zlen a, max, v) = Ret (Continue (zlen a', s.2, s.1)) /\ lengths_ok (zlen a') s.1.
Proof.
  intros E Hn Hv Hmax a' s. destruct (line_text_facts d name Hn) as (Hne & Hnl & Ht & Hdot).
  unfold path_step. rewrite (nextline_line input a _ _ E Hnl Hne Hmax). bind_ret. rewrite Ht, Hdot.
  assert (zlen (line_text (d, name)) - Z.of_nat d = zlen name) as -> by (unfold line_text; simpl; len).
  destruct Hn as [Hne2 _]. rewrite (proj2 (Z.ltb_lt 0 (zlen name))) by (destruct name; [done|len]).
  rewrite Nat2Z.id, last_of_resize. bind_ret.
  destruct (stack_resize_ok (zlen a) v d (zlen_nonneg a) Hv) as [Hr Hl].
  assert (zlen (a ++ line_text (d, name)) + 1 = zlen a') as -> by (unfold a'; len).
  assert (zlen a + 1 + zlen name <= zlen a' /\ zlen a' <= zlen input + 1) as [Hgrow Hle].
  { split; [unfold a', line_text; simpl; len|]. apply (f_equal length) in E. unfold a'. len. }
  pose proof (zlen_nonneg name).
  assert (lengths_ok (zlen a') (resize v d)) as Hr' by (eapply Forall_impl; [exact Hr|]; simpl; lia).
  rewrite int_op_in by (unfold int_min; len). bind_ret. unfold s, visit. cbn [fst snd].
  destruct (has_dot name =? 0); bind_ret; (split; [done|]); [|done].
  apply Forall_app_2; [done|]. apply Forall_singleton. lia.
Qed.

Lemma path_loop input ls : forall a v max fuel,
  input ++ [NEWLINE] = a ++ concat ((fun l => line_text l ++ [NEWLINE]) <$> ls) ->
  Forall (fun l => name_ok l.2) ls -> lengths_ok (zlen a) v -> zlen input + 1 <= int_max -> (length ls < fuel)%nat ->
  while_loop fuel (path_step input) (zlen a, max, v) =
  Ret (let m := (foldl visit (v, max) ls).2 in if 0 <? m then m - 1 else 0).
Proof.
  induction ls as [|[d name] ls IH]; intros a v max fuel E Hok Hv Hmax Hf;
    (destruct fuel as [|fuel]; [simpl in Hf; lia|]); cbn [while_loop].
  - csimpl in E. rewrite app_nil_r in E. rewrite path_step_end by (rewrite <- E; len). by bind_ret.
  - apply Forall_cons in Hok as [Hn Hok]. csimpl in E. rewrite <- app_assoc in E.
    destruct (path_step_line input a d name _ max v E Hn Hv Hmax) as [-> Hv']. bind_ret.
    set (s := visit (v, max) (d, name)) in *.
    rewrite IH; [|by rewrite E, <- !app_assoc|done|done|done|simpl in Hf; lia].
    cbn [foldl]. fold s. by destruct s.
Qed.

(** ** The tree *)

(** The longest path below a directory whose path has the length [base]. *)
Definition top (base : Z) (ps : list (list Z)) : Z := foldr (fun p m => Z.max (base + 1 + zlen p) m) 0 ps.

Lemma top_nonneg base ps : 0 <= top base ps.
Proof. induction ps; simpl; lia. Qed.

Lemma top_app base ps qs : top base (ps ++ qs) = Z.max (top base ps) (top base qs).
Proof. pose proof (top_nonneg base qs). induction ps; simpl; lia. Qed.

Lemma top_below base name ps :
  0 <= base -> top base ((fun p => name ++ 47 :: p) <$> ps) = top (base + 1 + zlen name) ps.
Proof. intros Hb. induction ps as [|p ps IH]; csimpl; [done|]. rewrite IH. f_equal. len. Qed.

(** The lines of a tree change the stack only above its depth. *)
Definition visits (base : Z) (d : nat) (ls : list (nat * list Z)) (ps : list (list Z)) : Prop :=
  forall v max, (d <= length v)%nat -> last_or_0 (take d v) = base -> 0 <= max ->
  exists v', foldl visit (v, max) ls = (v', Z.max max (top base ps)) /\ take d v' = take d v /\ (d <= length v')%nat.

Lemma visits_forest base d ts :
  Forall (fun t => visits base d (node_lines d t) (node_paths t)) ts ->
  visits base d (forest_lines d ts) (forest_paths ts).
Proof.
  intros H. induction H as [|t ts Ht _ IH]; intros v max Hv Hb Hm.
  - exists v. simpl. split; [|done]. f_equal. lia.
  - cbn [forest_lines forest_paths foldr]. rewrite foldl_app.
    destruct (Ht v max Hv Hb Hm) as (v1 & -> & Hv1 & Hl1).
    destruct (IH v1 (Z.max max (top base (node_paths t)))) as (v2 & E & Hv2 & Hl2); [done|congruence|lia|].
    exists v2. unfold forest_lines in E. rewrite E. split; [|split; [congruence|done]]. f_equal.
    unfold forest_paths. rewrite top_app. lia.
Qed.

Lemma resize_take v d : (d <= length v)%nat -> resize v d = take d v.
Proof. intros H. unfold resize. replace (d - length v)%nat with 0%nat by lia. by rewrite app_nil_r. Qed.

Lemma has_dot_spec name : (has_dot name =? 0) = negb (bool_decide (DOT ∈ name)).
Proof.
  unfold has_dot. destruct (existsb _ name) eqn:E.
  - apply existsb_exists in E as (c & Hc & ->%Z.eqb_eq). rewrite bool_decide_eq_true_2; [done|].
    by apply list_elem_of_In.
  - rewrite bool_decide_eq_false_2; [done|]. intros H. rewrite <- not_true_iff_false in E. apply E, existsb_exists.
    exists DOT. split; [by apply list_elem_of_In|done].
Qed.

Lemma node_ok_children children : foldr (fun c P => node_ok c /\ P) True children <-> Forall node_ok children.
Proof.
  induction children as [|c cs IH]; simpl; [split; [constructor|done]|]. rewrite IH. symmetry. apply Forall_cons.
Qed.

Lemma last_or_0_nonneg n v : lengths_ok n v -> 0 <= last_or_0 v.
Proof.
  intros Hv. unfold last_or_0. destruct (last v) as [x|] eqn:E; [|lia]. apply last_Some_elem_of in E.
  by destruct (proj1 (Forall_forall _ _) Hv x E).
Qed.

Lemma visits_node t : node_ok t -> forall base d, 0 <= base -> visits base d (node_lines d t) (node_paths t).
Proof.
  revert t. apply (node_ind' (fun t => node_ok t -> forall base d, 0 <= base -> visits base d (node_lines d t) (node_paths t))).
  - intros name [[Hne _] Hdot] base d Hbase v max Hv Hb Hm. exists (take d v). cbn [node_lines foldl visit fst snd].
    unfold visit. cbn [fst snd]. rewrite resize_take, Hb, has_dot_spec, bool_decide_eq_true_2 by done. cbn [negb].
    split; [|rewrite take_take, length_take; split; [f_equal; lia|lia]]. f_equal. simpl. pose proof (zlen_nonneg name).
    destruct (Z.ltb_spec max (base + 1 + zlen name)); lia.
  - intros name children IH ([Hne _] & Hdot & Hch) base d Hbase v max Hv Hb Hm. cbn [node_lines node_paths foldl].
    unfold visit at 2. cbn [fst snd]. rewrite resize_take, Hb, has_dot_spec, bool_decide_eq_false_2 by done. cbn [negb].
    pose proof (zlen_nonneg name). apply node_ok_children in Hch.
    destruct (visits_forest (base + 1 + zlen name) (S d) children) with (v := take d v ++ [base + 1 + zlen name]) (max := max)
      as (v' & E & Hv' & Hl').
    + apply Forall_forall. intros c Hc. rewrite Forall_forall in IH, Hch. apply IH; auto. lia.
    + rewrite length_app, length_take. simpl. lia.
    + rewrite take_ge by (rewrite length_app, length_take; simpl; lia). unfold last_or_0. by rewrite last_snoc.
    + done.
    + exists v'. unfold forest_lines in E. rewrite E, top_below by done. split; [done|].
      split; [|lia]. apply (f_equal (take d)) in Hv'. rewrite take_take, Nat.min_l in Hv' by lia. rewrite Hv'.
      rewrite take_take, Nat.min_l by lia. rewrite take_app_le by (rewrite length_take; lia). by rewrite take_take, Nat.min_id.
Qed.

Lemma top_longest ps : ps <> [] -> top 0 ps = longest ps + 1.
Proof.
  induction ps as [|p [|q ps] IH]; [done| |]; intros _; simpl.
  - pose proof (zlen_nonneg p). lia.
  - simpl in IH. rewrite IH by done. lia.
Qed.

Lemma top_result ps : (let m := Z.max 0 (top 0 ps) in if 0 <? m then m - 1 else 0) = longest ps.
Proof.
  destruct ps as [|p ps]; [done|]. cbv zeta. rewrite top_longest by done.
  assert (0 <= longest (p :: ps)) by (simpl; pose proof (zlen_nonneg p); lia).
  destruct (Z.ltb_spec 0 (Z.max 0 (longest (p :: ps) + 1))); lia.
Qed.

Lemma join_lines_newline ls : ls <> [] -> join_lines ls ++ [NEWLINE] = concat ((fun l => l ++ [NEWLINE]) <$> ls).
Proof.
  induction ls as [|l [|k ls] IH]; [done|intros _; simpl; by rewrite app_nil_r|]. intros _.
  change (join_lines (l :: k :: ls)) with (l ++ NEWLINE :: join_lines (k :: ls)).
  change (concat ((fun l => l ++ [NEWLINE]) <$> l :: k :: ls)) with ((l ++ [NEWLINE]) ++ concat ((fun l => l ++ [NEWLINE]) <$> k :: ls)).
  rewrite <- IH by done. by rewrite <- !app_assoc.
Qed.

Lemma node_lines_ok t : node_ok t -> forall d, Forall (fun l => name_ok l.2) (node_lines d t).
Proof.
  revert t. apply (node_ind' (fun t => node_ok t -> forall d, Forall (fun l => name_ok l.2) (node_lines d t))).
  - intros name [Hn _] d. by apply Forall_singleton.
  - intros name children IH (Hn & _ & Hch) d. constructor; [done|]. apply node_ok_children in Hch.
    induction children as [|c cs IHc]; [constructor|]. apply Forall_cons in IH as [IH1 IH2].
    apply Forall_cons in Hch as [Hc1 Hc2]. simpl. apply Forall_app_2; auto.
Qed.

Lemma forest_lines_ok ts d : Forall node_ok ts -> Forall (fun l => name_ok l.2) (forest_lines d ts).
Proof.
  intros H. induction H as [|t ts Ht _ IH]; [constructor|]. simpl. apply Forall_app_2; [by apply node_lines_ok|done].
Qed.

Lemma line_count ls : Forall (fun l => name_ok l.2) ls -> (length ls <= length (concat ((fun l => l ++ [NEWLINE]) <$> (line_text <$> ls))))%nat.
Proof. intros H. induction H as [|l ls _ _ IH]; [done|]. csimpl. rewrite !length_app. simpl. lia. Qed.

(** On the text of a forest of files and directories, in which exactly the
    names of files contain dots, [lengthLongestPath] returns the length of the
    longest path of a file, or zero if there is no file. *)
Theorem lengthLongestPath_correct ts :
  Forall node_ok ts -> zlen (forest_text ts) + 1 <= int_max ->
  lengthLongestPath (forest_text ts) = Ret (longest (forest_paths ts)).
Proof.
  intros Hok Hmax. unfold lengthLongestPath. destruct ts as [|t ts]; [done|].
  assert (line_text <$> forest_lines 0 (t :: ts) <> []) as Hne by (by destruct t).
  pose proof (forest_lines_ok (t :: ts) 0 Hok) as Hl.
  change (0, 0, @nil Z) with (zlen (@nil Z), 0, @nil Z).
  rewrite (path_loop _ (forest_lines 0 (t :: ts)) []); [| |done|constructor|done|].
  - destruct (visits_forest 0 0 (t :: ts)) with (v := @nil Z) (max := 0) as (v' & E & _); [|done..|].
    { eapply Forall_impl; [exact Hok|]. intros u Hu. by apply visits_node. }
    rewrite E. cbn [snd]. f_equal. apply top_result.
  - simpl app. unfold forest_text. rewrite join_lines_newline, <- list_fmap_compose by done. done.
  - pose proof (line_count _ Hl) as Hc. rewrite <- join_lines_newline, length_app in Hc by done.
    unfold forest_text. simpl in *. lia.
Qed.

Lemma lengthLongestPath_correct_witness :
  let ts := [Dir [97] [Dir [98; 98] []; Dir [99] [File [102; 46; 101]]]; File [46]] in
  lengthLongestPath (forest_text ts) = Ret 7 /\ longest (forest_paths ts) = 7.
Proof.
  intros ts. split; [|done]. apply (lengthLongestPath_correct ts); [|done].
  repeat constructor; try done; rewrite ?elem_of_cons, ?elem_of_nil; unfold DOT; auto; lia.
Defined.

(** A name of a directory that contains a dot is taken for a file, and an empty
    line ends the search. *)
Example dotted_directory :
  lengthLongestPath [97; 46; 98; 10; 9; 99; 46; 100] = Ret 3 /\ lengthLongestPath [97; 10; 10; 99; 46; 100] = Ret 0.
Proof. split; by vm_compute. Qed.
