(* ===== verification/Concatenation.v ===== *)
(** * Substrings that concatenate all words

    src/c++/leetcode/30.cpp: the positions at which the words of a list stand
    one after the other, in any order.  The solution numbers the different
    words, remembers for every position of the text which word stands there
    ([status_]), and takes words out of a multiset from left to right.  A
    multiset is a list from which one copy of an element is removed. *)

From Stdlib Require Import ZArith Lia Sorted.
From stdpp Require Import base numbers list.
From S2P Require Import Prelude Strings.

Open Scope Z_scope.

Record solution := Solution {
  result_ : list nat;
  s_ : list Z;
  words_ : list (list Z);
  word_len_ : nat;
  status_ : list Z
}.

(** ** The standard library *)

(** The order of [std::string]. *)
Fixpoint string_compare (a b : list Z) : comparison :=
  match a, b with
  | [], [] => Eq
  | [], _ => Lt
  | _, [] => Gt
  | x :: a, y :: b => match x ?= y with Eq => string_compare a b | c => c end
  end.

(** [std::set::insert] *)
Fixpoint set_insert (w : list Z) (l : list (list Z)) : list (list Z) :=
  match l with
  | [] => [w]
  | x :: l =>
      match string_compare w x with
      | Lt => w :: x :: l
      | Eq => x :: l
      | Gt => x :: set_insert w l
      end
  end.

Definition set_of (words : list (list Z)) : list (list Z) := foldl (fun l w => set_insert w l) [] words.

(** [std::find(words_.begin(), words_.end(), w) - words_.begin()] *)
Fixpoint index_of (w : list Z) (l : list (list Z)) : nat :=
  match l with
  | [] => 0
  | x :: l => if decide (x = w) then 0 else S (index_of w l)
  end%nat.

(** [multiset::find] and [multiset::erase] of what it found. *)
Fixpoint erase_one (k : nat) (l : list nat) : option (list nat) :=
  match l with
  | [] => None
  | x :: l => if decide (x = k) then Some l else l' ← erase_one k l; Some (x :: l')
  end.

(** [status_.resize(n, -2)] *)
Definition resize_status (v : list Z) (n : nat) : list Z := take n v ++ replicate (n - length v) (-2).

(** ** The solution *)

Section Call.
(** [s_], [words_] and [word_len_] during a call. *)
Context (s : list Z) (words : list (list Z)) (len : nat).

(** What a position with the word [k] means for the words that are left. *)
Definition take_word (k : nat) (wordset : list nat) : bool * list nat :=
  match erase_one k wordset with
  | None => (false, wordset)
  | Some l => (true, l)
  end.

Definition search (status : list Z) (i : nat) (wordset : list nat) : outcome (bool * list nat * list Z) :=
  st ← vget status (Z.of_nat i);
  if st =? -1 then Ret (false, wordset, status)
  else if -1 <? st then Ret (take_word (Z.to_nat st) wordset, status)
  else
    let k := index_of (substr s i len) words in
    if decide (k = length words) then
      status' ← vset status (Z.of_nat i) (-1);
      Ret (false, wordset, status')
    else
      status' ← vset status (Z.of_nat i) (Z.of_nat k);
      Ret (take_word k wordset, status').

(** [find(i, j, wordset)]: the result and the status. *)
Fixpoint find_words (fuel : nat) (status : list Z) (result : list nat) (i j : nat) (wordset : list nat)
    : outcome (list nat * list Z) :=
  match fuel with
  | O => NoFuel
  | S fuel =>
      if decide (wordset = []) then Ret (result ++ [i], status)
      else if decide (length s <= j)%nat then Ret (result, status)
      else
        r ← search status j wordset;
        let '(found, wordset', status') := r in
        if (found : bool) then find_words fuel status' result i (j + len) wordset'
        else Ret (result, status')
  end.

(** The loop over the occurrences of the word [i]; [total] is
    [words.size() * word_len_]. *)
Definition occurrence_step (wordset : list nat) (total : Z) (i : nat) (st : nat * list Z * list nat)
    : outcome (control (nat * list Z * list nat) (list Z * list nat)) :=
  let '(pos, status, result) := st in
  match words !! i with
  | None => Undef OutOfBounds
  | Some w =>
      match find s w pos with
      | None => Ret (Break (status, result))
      | Some p =>
          if (zlen s - total) mod size_max <? Z.of_nat p then Ret (Break (status, result))
          else
            status1 ← vset status (Z.of_nat p) (Z.of_nat i);
            match erase_one i wordset with
            | None => Undef BadPointer
            | Some wordset2 =>
                r ← find_words (S (length wordset2)) status1 result p (p + len) wordset2;
                Ret (Continue (S p, r.2, r.1))
            end
      end
  end.

Fixpoint word_loop (wordset : list nat) (total : Z) (n i : nat) (status : list Z) (result : list nat)
    : outcome (list Z * list nat) :=
  match n with
  | O => Ret (status, result)
  | S n =>
      r ← while_loop (length s + 2) (occurrence_step wordset total i) (0%nat, status, result);
      word_loop wordset total n (S i) r.1 r.2
  end.
End Call.

Definition findSubstring (o : solution) (s : list Z) (words : list (list Z)) : outcome solution :=
  match last words with
  | None => Ret (Solution [] (s_ o) (words_ o) (word_len_ o) (status_ o))
  | Some w =>
      let len := length w in
      let status := resize_status (status_ o) (length s) in
      let ws := set_of words in
      let wordset := (fun w => index_of w ws) <$> words in
      r ← word_loop s ws len wordset (szmul (zlen words) (Z.of_nat len)) (length ws) 0 status [];
      Ret (Solution r.2 s ws len r.1)
  end.

(** A new object. *)
Definition new_solution : solution := Solution [] [] [] 0 [].

(** A second call of the same object uses what [status_] has kept. *)
Example stale_status :
  (o ← findSubstring new_solution [97; 97] [[97]]; r ← findSubstring o [98; 99] [[98]; [99]]; Ret (result_ r)) = Ret [] /\
  (r ← findSubstring new_solution [98; 99] [[98]; [99]]; Ret (result_ r)) = Ret [0%nat].
Proof. split; by vm_compute. Qed.

(** ** Words and multisets *)

Lemma string_compare_eq a b : string_compare a b = Eq <-> a = b.
Proof.
  revert b. induction a as [|x a IH]; intros [|y b]; simpl; try done.
  destruct (Z.compare_spec x y) as [->|H|H].
  - rewrite IH. split; [by intros ->|by intros [= ->]].
  - split; [done|]. intros [= ->]. lia.
  - split; [done|]. intros [= ->]. lia.
Qed.

Lemma string_compare_trans a : forall b c, string_compare a b = Lt -> string_compare b c = Lt -> string_compare a c = Lt.
Proof.
  induction a as [|x a IH]; intros [|y b] [|z c]; simpl; try done.
  destruct (Z.compare_spec x y), (Z.compare_spec y z), (Z.compare_spec x z); subst; try done; try lia; eauto.
Qed.

Lemma string_compare_flip a : forall b, string_compare a b = Gt -> string_compare b a = Lt.
Proof.
  induction a as [|x a IH]; intros [|y b]; simpl; try done. rewrite (Z.compare_antisym x y).
  destruct (x ?= y); simpl; auto; done.
Qed.

Definition ascending (l : list (list Z)) : Prop := StronglySorted (fun a b => string_compare a b = Lt) l.

Lemma set_insert_elem w l x : x ∈ set_insert w l <-> x = w \/ x ∈ l.
Proof.
  induction l as [|y l IH]; simpl; [by rewrite list_elem_of_singleton, elem_of_nil; tauto|].
  destruct (string_compare w y) eqn:E.
  - apply string_compare_eq in E as ->. rewrite !elem_of_cons. tauto.
  - by rewrite !elem_of_cons.
  - rewrite !elem_of_cons, IH. tauto.
Qed.

Lemma set_insert_ascending w l : ascending l -> ascending (set_insert w l).
Proof.
  intros H. induction H as [|y l Hl IH Hy]; simpl; [by repeat constructor|].
  destruct (string_compare w y) eqn:E; [by constructor| |].
  - constructor; [by constructor|]. constructor; [done|]. eapply Forall_impl; [exact Hy|].
    intros z Hz. simpl in Hz. by eapply string_compare_trans.
  - constructor; [done|]. apply Forall_forall. intros z [->|Hz]%set_insert_elem; [by apply string_compare_flip|].
    by apply (proj1 (Forall_forall _ _) Hy).
Qed.

Lemma set_of_spec words : NoDup (set_of words) /\ forall w, w ∈ set_of words <-> w ∈ words.
Proof.
  unfold set_of.
  assert (forall acc, ascending acc ->
    ascending (foldl (fun l w => set_insert w l) acc words) /\
    forall w, w ∈ foldl (fun l w => set_insert w l) acc words <-> w ∈ words \/ w ∈ acc) as H.
  { induction words as [|x words IH]; intros acc Ha; simpl.
    - split; [done|]. intros w. rewrite elem_of_nil. tauto.
    - destruct (IH (set_insert x acc)) as [H1 H2]; [by apply set_insert_ascending|]. split; [done|].
      intros w. rewrite H2, set_insert_elem, elem_of_cons. tauto. }
  destruct (H []) as [H1 H2]; [constructor|]. split.
  - clear H2. induction H1 as [|y l Hl IH Hy]; [constructor|]. constructor; [|done]. intros Hin.
    pose proof (proj1 (Forall_forall _ _) Hy y Hin) as Hlt. simpl in Hlt.
    by rewrite (proj2 (string_compare_eq y y) eq_refl) in Hlt.
  - intros w. rewrite H2, elem_of_nil. tauto.
Qed.

Lemma index_of_in w l : w ∈ l -> l !! index_of w l = Some w /\ (index_of w l < length l)%nat.
Proof.
  intros H. induction l as [|x l IH]; [by apply elem_of_nil in H|]. simpl.
  destruct (decide (x = w)) as [->|Hne]; [split; [done|lia]|].
  apply elem_of_cons in H as [->|H]; [done|]. destruct (IH H). split; [done|lia].
Qed.

Lemma index_of_absent w l : w ∉ l -> index_of w l = length l.
Proof.
  intros H. induction l as [|x l IH]; [done|]. apply not_elem_of_cons in H as [Hne H]. simpl.
  rewrite decide_False by done. f_equal. auto.
Qed.

Lemma erase_one_Some k l l' : erase_one k l = Some l' -> l ≡ₚ k :: l'.
Proof.
  revert l'. induction l as [|x l IH]; intros l' E; simpl in E; [done|].
  destruct (decide (x = k)) as [->|]; [by injection E as ->|].
  destruct (erase_one k l) as [r|]; [|done]. injection E as <-. rewrite (IH r eq_refl). constructor.
Qed.

Lemma erase_one_None k l : erase_one k l = None -> k ∉ l.
Proof.
  induction l as [|x l IH]; simpl; [intros _; apply not_elem_of_nil|].
  destruct (decide (x = k)) as [->|Hne]; [done|]. destruct (erase_one k l); [done|]. intros _.
  apply not_elem_of_cons. auto.
Qed.

(** ** What is found *)

Section Words.
Context (s : list Z) (words : list (list Z)) (len : nat).
Context (Hlen : (0 < len)%nat) (Hwords : Forall (fun w => length w = len) words) (Hnd : NoDup words).

(** The word [k] stands at a position. *)
Definition at_word (k p : nat) : Prop := words !! k = Some (substr s p len).

(** The words of a multiset stand one after the other from [j] on. *)
Inductive covers : nat -> list nat -> Prop :=
  | covers_nil j : covers j []
  | covers_cons j k l l' : at_word k j -> l ≡ₚ k :: l' -> covers (j + len) l' -> covers j l.

Lemma at_word_unique k k' p : at_word k p -> at_word k' p -> k = k'.
Proof. intros H H'. by apply (NoDup_lookup words k k' (substr s p len)). Qed.

Lemma at_word_length k p : at_word k p -> (p + len <= length s)%nat.
Proof.
  intros H. pose proof (Forall_lookup_1 _ _ _ _ Hwords H) as Hl. unfold substr in Hl.
  rewrite length_take, length_drop in Hl. lia.
Qed.

Lemma covers_length j l : covers j l -> l = [] \/ (j + length l * len <= length s)%nat.
Proof.
  induction 1 as [j|j k l l' Hk Hl _ IH]; [by left|]. right. pose proof (at_word_length _ _ Hk).
  rewrite Hl. simpl. destruct IH as [->|IH]; simpl; lia.
Qed.

Lemma covers_perm l1 l2 j : l1 ≡ₚ l2 -> covers j l1 -> covers j l2.
Proof.
  intros H12 Hc. destruct Hc as [j|j k l1 l1' Hk Hl1 Hc].
  - apply Permutation_nil_l in H12 as <-. constructor.
  - apply (covers_cons j k _ l1'); [done| |done]. by rewrite <- H12.
Qed.

Lemma covers_step j k l l' : at_word k j -> l ≡ₚ k :: l' -> covers j l <-> covers (j + len) l'.
Proof.
  intros Hk Hl. split; [|by apply (covers_cons j k)].
  intros Hc. destruct Hc as [j|j k' l l'' Hk' Hl' Hc]; [by apply Permutation_nil_cons in Hl|].
  assert (k' = k) as -> by (by eapply at_word_unique). apply (covers_perm l''); [|done].
  apply (Permutation_cons_inv (a := k)). by rewrite <- Hl'.
Qed.

(** ** The remembered words *)

Definition status_ok (status : list Z) : Prop :=
  length status = length s /\
  forall p st, status !! p = Some st ->
    st = -2 \/ (st = -1 /\ forall k, ~ at_word k p) \/ exists k, st = Z.of_nat k /\ at_word k p.

Lemma status_set status p st :
  status_ok status -> (p < length s)%nat ->
  (st = -1 /\ (forall k, ~ at_word k p)) \/ (exists k, st = Z.of_nat k /\ at_word k p) ->
  vset status (Z.of_nat p) st = Ret (<[p := st]> status) /\ status_ok (<[p := st]> status).
Proof.
  intros [Hl Hs] Hp Hst. rewrite vset_in_range, Nat2Z.id by (unfold zlen; lia). split; [done|].
  split; [by rewrite length_insert|]. intros q st'. rewrite list_lookup_insert_Some.
  intros [(-> & -> & _)|[_ H]]; [auto|by apply Hs].
Qed.

Lemma search_ok status j l :
  status_ok status -> (j < length s)%nat ->
  exists status', status_ok status' /\
    ((forall k, ~ at_word k j) /\ search s words len status j l = Ret (false, l, status') \/
     exists k, at_word k j /\ search s words len status j l = Ret (take_word k l, status')).
Proof.
  intros Hok Hj. pose proof Hok as [Hl Hs]. destruct (lookup_lt_is_Some_2 status j) as [st Hst]; [lia|].
  unfold search. rewrite (vget_nat _ _ _ Hst). bind_ret. destruct (Hs j st Hst) as [->|[[-> Hno]|(k & -> & Hk)]].
  - change (-2 =? -1) with false. change (-1 <? -2) with false. cbn iota.
    destruct (decide (substr s j len ∈ words)) as [Hin|Hout].
    + destruct (index_of_in _ _ Hin) as [Hk Hlt]. rewrite decide_False by lia.
      destruct (status_set status j (Z.of_nat (index_of (substr s j len) words)) Hok Hj) as [-> Hok']; [eauto|].
      bind_ret. eexists. split; [exact Hok'|]. right. eauto.
    + rewrite (index_of_absent _ _ Hout), decide_True by done.
      assert (forall k, ~ at_word k j) as Hno by (intros k Hk; apply Hout; by eapply list_elem_of_lookup_2).
      destruct (status_set status j (-1) Hok Hj) as [-> Hok']; [auto|]. bind_ret. eexists. split; [exact Hok'|]. by left.
  - exists status. split; [done|]. by left.
  - rewrite (proj2 (Z.eqb_neq _ _)), (proj2 (Z.ltb_lt _ _)), Nat2Z.id by lia. exists status. eauto.
Qed.

Lemma find_words_ok fuel : forall status result i j l,
  status_ok status -> (length l < fuel)%nat ->
  exists status', status_ok status' /\
    (covers j l /\ find_words s words len fuel status result i j l = Ret (result ++ [i], status') \/
     ~ covers j l /\ find_words s words len fuel status result i j l = Ret (result, status')).
Proof.
  induction fuel as [|fuel IH]; intros status result i j l Hok Hf; [lia|]. cbn [find_words].
  destruct (decide (l = [])) as [->|Hne]; [exists status; split; [done|]; left; split; [constructor|done]|].
  destruct (decide (length s <= j)%nat) as [Hj|Hj].
  { exists status. split; [done|]. right. split; [|done]. intros Hc. destruct (covers_length _ _ Hc) as [|H]; [done|].
    destruct l; [done|]. simpl in H. lia. }
  destruct (search_ok status j l Hok ltac:(lia)) as (status1 & Hok1 & [[Hno ->]|(k & Hk & ->)]); bind_ret.
  - exists status1. split; [done|]. right. split; [|done]. intros Hc.
    destruct Hc as [|? k ? ? Hk _ _]; [done|]. by apply (Hno k).
  - unfold take_word. destruct (erase_one k l) as [l'|] eqn:E; cbn iota.
    + pose proof (erase_one_Some _ _ _ E) as Hp. pose proof (covers_step j k l l' Hk Hp) as Hiff.
      destruct (IH status1 result i (j + len)%nat l') as (status' & Hok' & H); [done|rewrite Hp in Hf; simpl in Hf; lia|].
      exists status'. split; [done|]. by rewrite Hiff.
    + exists status1. split; [done|]. right. split; [|done]. intros Hc.
      destruct Hc as [|? k' ? l' Hk' Hp _]; [done|]. assert (k' = k) as -> by (by eapply at_word_unique).
      apply (erase_one_None _ _ E). rewrite Hp. by left.
Qed.

(** ** All occurrences *)

Context (wordset : list nat) (total : Z).
Context (Hall : forall k, (k < length words)%nat -> k ∈ wordset).
Context (Htotal : total = (zlen wordset * Z.of_nat len) mod size_max) (Hbound : zlen wordset * Z.of_nat len < size_max).
Context (Hsize : zlen s < size_max).

(** All the words stand from [p] on, the word [i] first. *)
Definition hit (i p : nat) : Prop := at_word i p /\ covers p wordset.

Lemma hit_length i p : hit i p -> Z.of_nat p + zlen wordset * Z.of_nat len <= zlen s.
Proof.
  intros [Hi Hc]. pose proof (at_word_length _ _ Hi). destruct (covers_length _ _ Hc) as [->|H1]; unfold zlen; [simpl; lia|nia].
Qed.

Lemma occurs_at_word w i p : words !! i = Some w -> occurs w s p <-> at_word i p.
Proof.
  intros Hw. unfold at_word. rewrite Hw. pose proof (Forall_lookup_1 _ _ _ _ Hwords Hw) as Hl. split.
  - intros (a & b & E & <-). f_equal. unfold substr. by rewrite E, drop_app_length, <- Hl, take_app_length.
  - intros [= E]. assert (p + len <= length s)%nat.
    { rewrite E in Hl. unfold substr in Hl. rewrite length_take, length_drop in Hl. lia. }
    exists (take p s), (drop len (drop p s)). rewrite length_take. split; [|lia].
    rewrite E. unfold substr. by rewrite take_drop, take_drop.
Qed.

(** The result so far: the hits of the first words, and of the word [i] below
    [pos]. *)
Definition collected (i pos : nat) (result : list nat) : Prop :=
  NoDup result /\ forall p, p ∈ result <-> exists k, hit k p /\ ((k < i)%nat \/ k = i /\ (p < pos)%nat).

(** What is behind a position without occurrences. *)
Lemma collected_end i pos result :
  collected i pos result -> (forall p, (pos <= p)%nat -> ~ hit i p) -> collected (S i) 0 result.
Proof.
  intros [Hn Hr] Hno. split; [done|]. intros p. rewrite Hr. split; intros (k & Hk & H); exists k; (split; [done|]).
  - lia.
  - destruct (decide (k = i)) as [->|]; [|lia]. right. split; [done|].
    destruct (decide (p < pos)%nat) as [|Hge]; [done|]. exfalso. apply (Hno p); [lia|done].
Qed.

Lemma collected_next i pos q result (b : bool) :
  collected i pos result -> (pos <= q)%nat -> (forall p, (pos <= p < q)%nat -> ~ at_word i p) ->
  (if b then hit i q else ~ hit i q) -> collected i (S q) (if b then result ++ [q] else result).
Proof.
  intros [Hn Hr] Hq Hno Hb.
  assert (forall p, (exists k, hit k p /\ ((k < i)%nat \/ k = i /\ (p < S q)%nat)) <->
    p ∈ result \/ p = q /\ hit i q) as Hiff.
  { intros p. rewrite Hr. split.
    - intros (k & Hk & [Hki|[-> Hp]]); [left; eauto|]. destruct (decide (p = q)) as [->|Hne]; [by right|].
      left. exists i. split; [done|]. right. split; [done|]. destruct (decide (p < pos)%nat) as [|Hge]; [done|].
      exfalso. apply (Hno p); [lia|]. apply Hk.
    - intros [(k & Hk & H)|[-> Hk]]; [exists k; split; [done|]; lia|exists i; split; [done|]; lia]. }
  destruct b.
  - split; [|intros p; rewrite elem_of_snoc, Hiff; intuition].
    apply NoDup_app. split; [done|]. split; [|apply NoDup_singleton]. intros p Hp ->%list_elem_of_singleton.
    apply Hr in Hp as (k & Hk & H). assert (k = i) as -> by (eapply at_word_unique; [apply Hk|apply Hb]). lia.
  - split; [done|]. intros p. rewrite Hiff. intuition.
Qed.

Lemma behind_limit i p :
  (zlen s - total) mod size_max < Z.of_nat p -> forall q, (p <= q)%nat -> ~ hit i q.
Proof.
  intros Hlim q Hq Hh. pose proof (hit_length i q Hh) as Hl. 
  assert (0 <= zlen wordset * Z.of_nat len) as H0 by (unfold zlen; nia).
  rewrite (Z.mod_small _ _ (conj H0 Hbound)) in Htotal. rewrite Htotal, Z.mod_small in Hlim; [lia|]. unfold zlen in *. lia.
Qed.

Lemma occurrence_ok i pos status result :
  (i < length words)%nat -> status_ok status -> collected i pos result ->
  returns (occurrence_step s words len wordset total i (pos, status, result)) (fun c =>
    match c with
    | Continue (pos', status', result') =>
        (pos < pos' <= length s)%nat /\ status_ok status' /\ collected i pos' result'
    | Break (status', result') => status_ok status' /\ collected (S i) 0 result'
    end).
Proof.
  intros Hi Hok Hcol. destruct (lookup_lt_is_Some_2 words i Hi) as [w Hw]. unfold occurrence_step. rewrite Hw.
  destruct (find s w pos) as [p|] eqn:Ef.
  2: { apply returns_ret. split; [done|]. apply (collected_end i pos); [done|]. intros p Hp [Ha _].
       apply (find_None _ _ _ _ Ef Hp). by apply (occurs_at_word w i). }
  destruct (find_Some _ _ _ _ Ef) as (Hpp & Ho & Hno). apply (occurs_at_word w i p Hw) in Ho.
  assert (forall q, (pos <= q < p)%nat -> ~ at_word i q) as Hno'
    by (intros q Hq Ha; apply (Hno q Hq); by apply (occurs_at_word w i)).
  destruct (Z.ltb_spec ((zlen s - total) mod size_max) (Z.of_nat p)) as [Hlim|_].
  { apply returns_ret. split; [done|]. apply (collected_end i pos); [done|]. intros q Hq Hh.
    destruct (decide (q < p)%nat) as [Hlt|Hge]; [by apply (Hno' q ltac:(lia)), Hh|].
    by apply (behind_limit i p Hlim q ltac:(lia)). }
  pose proof (at_word_length _ _ Ho) as Hpl.
  destruct (status_set status p (Z.of_nat i) Hok ltac:(lia)) as [-> Hok1]; [eauto|]. bind_ret.
  destruct (erase_one i wordset) as [l|] eqn:Ee; [|by apply erase_one_None in Ee; specialize (Hall i Hi)].
  pose proof (covers_step p i wordset l Ho (erase_one_Some _ _ _ Ee)) as Hiff.
  destruct (find_words_ok (S (length l)) _ result p (p + len)%nat l Hok1 ltac:(lia)) as
    (status' & Hok' & [[Hc ->]|[Hc ->]]); bind_ret; apply returns_ret; cbn [fst snd]; (split; [lia|]; split; [done|]).
  - by apply (collected_next i pos p result true); [..|split; [|apply Hiff]].
  - apply (collected_next i pos p result false); [done..|]. intros [_ H]. by apply Hc, Hiff.
Qed.

Lemma word_loop_ok n : forall i status result,
  (i + n = length words)%nat -> status_ok status -> collected i 0 result ->
  returns (word_loop s words len wordset total n i status result) (fun r =>
    status_ok r.1 /\ collected (length words) 0 r.2).
Proof.
  induction n as [|n IH]; intros i status result Hn Hok Hcol; cbn [word_loop].
  - apply returns_ret. rewrite Nat.add_0_r in Hn. by subst i.
  - apply (returns_bind _ _ (fun r => status_ok r.1 /\ collected (S i) 0 r.2)).
    2: { intros r [H1 H2]. apply IH; [lia|done..]. }
    apply (while_loop_total (fun st => (st.1.1 <= length s)%nat /\ status_ok st.1.2 /\ collected i st.1.1 st.2)
      (fun st => (length s + 1 - st.1.1)%nat)).
    + simpl. split; [lia|done].
    + intros [[pos st] res] (Hpos & Hst & Hres). simpl in *.
      eapply returns_mono; [apply occurrence_ok; [lia|done..]|].
      intros [[[pos' st'] res']|[st' res']]; simpl; [|done]. intros (Hp & H1 & H2). split; [|lia]. split; [lia|done].
    + simpl. lia.
Qed.
End Words.

(** ** The result *)

(** [words], in some order, one after the other from [p] on. *)
Definition concatenation_at (s : list Z) (words : list (list Z)) (p : nat) : Prop :=
  exists l, l ≡ₚ words /\ (p <= length s)%nat /\ concat l `prefix_of` drop p s.

#[export] Instance covers_proper s ws len j : Proper ((≡ₚ) ==> iff) (covers s ws len j).
Proof. intros l1 l2 H. split; by apply covers_perm. Qed.

Lemma covers_concat s ws len (Hlen : (0 < len)%nat) (Hwords : Forall (fun w => length w = len) ws) j l :
  (j <= length s)%nat ->
  covers s ws len j l <-> exists ks, ks ≡ₚ l /\ exists vs, Forall2 (fun k v => ws !! k = Some v) ks vs /\ concat vs `prefix_of` drop j s.
Proof.
  intros Hj. split.
  - intros Hc. revert Hj. induction Hc as [j|j k l l' Hk Hl Hc IH]; intros Hj.
    { exists []. split; [done|]. exists []. split; [constructor|]. apply prefix_nil. }
    pose proof (at_word_length s ws len Hlen Hwords _ _ Hk) as Hjl. destruct (IH Hjl) as (ks & Hks & vs & Hvs & Hp).
    exists (k :: ks). split; [by rewrite Hl, Hks|]. exists (substr s j len :: vs). split; [by constructor|].
    simpl. destruct Hp as [r Hr]. exists r. unfold substr. rewrite <- app_assoc, <- Hr.
    by rewrite <- drop_drop, take_drop.
  - intros (ks & Hks & vs & Hvs & Hp). rewrite <- Hks. clear Hks l.
    revert j Hj Hp. induction Hvs as [|k v ks vs Hk Hvs IH]; intros j Hj Hp; [constructor|].
    destruct Hp as [r Hr]. simpl in Hr. rewrite <- app_assoc in Hr.
    pose proof (Forall_lookup_1 _ _ _ _ Hwords Hk) as Hl. simpl in Hl.
    assert (at_word s ws len k j) as Ha.
    { unfold at_word, substr. rewrite Hr, <- Hl, take_app_length. done. }
    apply (covers_cons _ _ _ j k _ ks Ha); [done|]. apply IH; [by eapply at_word_length|].
    exists r. rewrite <- drop_drop, Hr, <- Hl. by rewrite drop_app_length.
Qed.

(** The numbers of the words, and back. *)
Lemma numbered (ws l : list (list Z)) :
  (forall w, w ∈ l -> w ∈ ws) -> Forall2 (fun k v => ws !! k = Some v) ((fun w => index_of w ws) <$> l) l.
Proof.
  intros H. induction l as [|w l IH]; csimpl; constructor; [apply index_of_in, H; by left|].
  apply IH. intros x Hx. apply H. by right.
Qed.

Lemma numbered_inv (ws : list (list Z)) (ks : list nat) vs :
  Forall2 (fun k v => ws !! k = Some v) ks vs -> vs = (fun k => default [] (ws !! k)) <$> ks.
Proof. intros H. induction H as [|k v ks vs Hk _ IH]; [done|]. csimpl. by rewrite Hk, IH. Qed.

Lemma hits_concatenations s words len p :
  (0 < len)%nat -> Forall (fun w => length w = len) words -> words <> [] ->
  let ws := set_of words in
  let wordset := (fun w => index_of w ws) <$> words in
  (exists k, hit s ws len wordset k p) <-> concatenation_at s words p.
Proof.
  intros Hlen Hw Hne ws wordset. destruct (set_of_spec words) as [Hnd Hin].
  assert (Forall (fun w => length w = len) ws) as Hws.
  { apply Forall_forall. intros w H. by apply (proj1 (Forall_forall _ _) Hw), Hin. }
  pose proof (numbered ws words (fun w => proj2 (Hin w))) as Hnum. split.
  - intros (k & Hk & Hc). pose proof (at_word_length s ws len Hlen Hws _ _ Hk) as Hp.
    apply (covers_concat s ws len Hlen Hws) in Hc as (ks & Hks & vs & Hvs & Hpre); [|lia].
    exists vs. split; [|split; [lia|done]].
    rewrite (numbered_inv _ _ _ Hvs), Hks. pose proof (numbered_inv _ _ _ Hnum) as En. fold wordset in En. by rewrite <- En.
  - intros (l & Hl & Hp & Hpre).
    assert (covers s ws len p wordset) as Hc.
    { apply (covers_concat s ws len Hlen Hws); [done|]. exists ((fun w => index_of w ws) <$> l).
      split; [unfold wordset; by rewrite Hl|]. exists l. split; [|done]. apply numbered. intros w H. apply Hin. by rewrite <- Hl. }
    assert (exists k, at_word s ws len k p) as [k Hk]; [|by exists k].
    inversion Hc as [j E1 E2|j k l0 l' Hk]; [by destruct words|eauto].
Qed.

(** On a new object [findSubstring] returns every position at which the
    words, all of the same length, stand one after the other in some order, and
    no other position, each once. *)
Theorem findSubstring_correct s words len :
  (0 < len)%nat -> Forall (fun w => length w = len) words -> words <> [] ->
  zlen s <= int_max -> zlen words * Z.of_nat len < size_max ->
  exists o, findSubstring new_solution s words = Ret o /\
    NoDup (result_ o) /\ forall p, p ∈ result_ o <-> concatenation_at s words p.
Proof.
  intros Hlen Hw Hne Hs Hb. unfold findSubstring.
  assert (exists w, last words = Some w /\ length w = len) as (w & -> & Hwl).
  { destruct words as [|w words _] using rev_ind; [done|]. exists w. rewrite last_snoc.
    by apply Forall_app in Hw as [_ [? _]%Forall_cons]. }
  rewrite Hwl. destruct (set_of_spec words) as [Hnd Hin]. set (ws := set_of words) in *.
  set (wordset := (fun w => index_of w ws) <$> words).
  assert (Forall (fun w => length w = len) ws) as Hws.
  { apply Forall_forall. intros x H. by apply (proj1 (Forall_forall _ _) Hw), Hin. }
  assert (zlen wordset = zlen words) as Hzl by (unfold wordset; len).
  destruct (word_loop_ok s ws len Hlen Hws Hnd wordset (szmul (zlen words) (Z.of_nat len))) with
    (n := length ws) (i := 0%nat) (status := resize_status (status_ new_solution) (length s)) (result := @nil nat)
    as (r & -> & _ & Hr1 & Hr2).
  - intros k Hk. destruct (lookup_lt_is_Some_2 ws k Hk) as [x Hx]. apply list_elem_of_fmap. exists x.
    split; [|apply Hin; by eapply list_elem_of_lookup_2].
    destruct (index_of_in x ws) as [Hi _]; [by eapply list_elem_of_lookup_2|]. by apply (NoDup_lookup ws k _ x).
  - by rewrite Hzl.
  - by rewrite Hzl.
  - unfold int_max, size_max in *. lia.
  - done.
  - unfold resize_status. cbn [status_ new_solution length]. rewrite take_nil, Nat.sub_0_r. cbn [app]. split; [by rewrite length_replicate|].
    intros p st H. apply lookup_replicate_1 in H as [-> _]. by left.
  - split; [constructor|]. intros p. rewrite elem_of_nil. split; [done|]. intros (k & _ & [?|[_ ?]]); lia.
  - bind_ret. eexists. split; [done|]. split; [done|]. intros p. simpl.
    rewrite Hr2, <- (hits_concatenations s words len p) by done. fold ws. fold wordset.
    split; intros (k & Hk); [exists k; apply Hk|]. exists k. split; [done|]. left. destruct Hk as [Hk _].
    by apply lookup_lt_Some in Hk.
Qed.

Lemma findSubstring_correct_witness :
  exists o, findSubstring new_solution [97; 98; 98; 97; 99; 97; 98] [[98]; [97]] = Ret o /\
    result_ o = [0; 5; 2]%nat /\
    forall p, p ∈ result_ o <-> concatenation_at [97; 98; 98; 97; 99; 97; 98] [[98]; [97]] p.
Proof.
  destruct (findSubstring_correct [97; 98; 98; 97; 99; 97; 98] [[98]; [97]] 1) as (o & E & _ & H); try done.
  - lia.
  - by repeat constructor.
  - exists o. split; [done|]. split; [|done]. vm_compute in E. by injection E as <-.
Defined.
