(* ===== verification/Odometer.v ===== *)
(** * Backtracking over words

    The N queens and sudoku solutions walk through the words over an alphabet of
    [n] values in lexicographic order and skip all words with a beginning that
    is already wrong.  Here a word is a number in base [n], what has been tried is
    the numbers below a frontier, and skipping a beginning moves the frontier
    without missing a solution. *)

From stdpp Require Import base list numbers relations.
From Stdlib Require Import ZArith Lia.
From S2P Require Import Prelude.

Open Scope Z_scope.

(** ** Words as numbers in base [n] *)

Section Numbers.
Context (n : nat).
Hypothesis (Hn : (0 < n)%nat).
Local Abbreviation N := (Z.of_nat n).

Definition digits (d : list Z) : Prop := Forall (fun x => 0 <= x < Z.of_nat n) d.

Definition num (d : list Z) : Z := foldl (fun a x => a * Z.of_nat n + x) 0 d.

Lemma num_snoc d x : num (d ++ [x]) = num d * N + x.
Proof. unfold num. by rewrite foldl_app. Qed.

Lemma pow_pos k : 0 < N ^ Z.of_nat k.
Proof using Hn. apply Z.pow_pos_nonneg; lia. Qed.

Lemma pow_S k : N ^ Z.of_nat (S k) = N ^ Z.of_nat k * N.
Proof using. clear Hn. rewrite Nat2Z.inj_succ, Z.pow_succ_r by lia. lia. Qed.

Lemma num_app p q : num (p ++ q) = num p * N ^ Z.of_nat (length q) + num q.
Proof using.
  clear Hn. induction q as [|x q IH] using rev_ind.
  - rewrite app_nil_r. change (num []) with 0. change (Z.of_nat (length [])) with 0.
    rewrite Z.pow_0_r. lia.
  - rewrite app_assoc, !num_snoc, IH, length_app, Nat.add_1_r, pow_S. lia.
Qed.

Lemma num_bound q : digits q -> 0 <= num q < N ^ Z.of_nat (length q).
Proof using Hn.
  induction q as [|x q IH] using rev_ind; intros Hq; [done|].
  apply Forall_app in Hq as [Hq [Hx _]%Forall_cons_1]. specialize (IH Hq).
  rewrite num_snoc, length_app, Nat.add_1_r, pow_S. 
  generalize dependent (N ^ Z.of_nat (length q)). intros P HP.
  assert ((num q + 1) * N <= P * N) by (apply Z.mul_le_mono_nonneg_r; lia).
  assert (0 <= num q * N) by (apply Z.mul_nonneg_nonneg; lia). lia.
Qed.

Lemma num_inj p q : digits p -> digits q -> length p = length q -> num p = num q -> p = q.
Proof using Hn.
  revert q. induction p as [|x p IH] using rev_ind; intros q Hp Hq Hl E.
  - by apply symmetry, nil_length_inv in Hl as ->.
  - destruct q as [|y q _] using rev_ind; [rewrite length_app in Hl; simpl in Hl; lia|].
    rewrite !length_app in Hl. simpl in Hl. rewrite !num_snoc in E.
    apply Forall_app in Hp as [Hp [Hx _]%Forall_cons_1], Hq as [Hq [Hy _]%Forall_cons_1].
    assert (num p = num q /\ x = y) as [E1 ->]
      by (apply (Z.div_mod_unique N); lia).
    f_equal. apply IH; [done|done|lia|done].
Qed.

Fixpoint decode (m : nat) (k : Z) : list Z :=
  match m with
  | O => []
  | S m => decode m (k / Z.of_nat n) ++ [k mod Z.of_nat n]
  end.

Lemma decode_length m k : length (decode m k) = m.
Proof using.
  clear Hn. revert k. induction m as [|m IH]; intros k; [done|]. simpl. rewrite length_app, IH. simpl. lia.
Qed.

Lemma decode_digits m k : digits (decode m k).
Proof using Hn.
  revert k. induction m as [|m IH]; intros k; simpl; [constructor|]. apply Forall_app. split; [apply IH|].
  constructor; [|constructor]. apply Z.mod_pos_bound. lia.
Qed.

Lemma num_decode m k : 0 <= k < N ^ Z.of_nat m -> num (decode m k) = k.
Proof using Hn.
  revert k. induction m as [|m IH]; intros k Hk; [simpl in Hk; unfold num; simpl; lia|].
  simpl decode. rewrite num_snoc, IH.
  - pose proof (Z.div_mod k (Z.of_nat n)). lia.
  - rewrite pow_S in Hk. split; [apply Z.div_pos; lia|].
    apply Z.div_lt_upper_bound; lia.
Qed.

Lemma decode_num v : digits v -> decode (length v) (num v) = v.
Proof using Hn.
  intros Hv. apply num_inj; [apply decode_digits|done|apply decode_length|].
  by apply num_decode, num_bound.
Qed.
End Numbers.

(** ** What is acceptable

    The search may skip a beginning only if no acceptable word continues it. *)

Class Pruning (ok : list Z -> Prop) := {
  #[global] pruning_dec :: forall d, Decision (ok d);
  pruning_prefix : forall d k, ok d -> ok (take k d);
}.

(** ** The solutions below a number *)

(** A word of length [m]. *)
Definition word (n m : nat) (d : list Z) : Prop :=
  length d = m /\ Forall (fun x => 0 <= x < Z.of_nat n) d.

Section Solutions.
Context (n m : nat) (ok : list Z -> Prop) `{!Pruning ok}.
Hypothesis (Hn : (0 < n)%nat).

(** The number of words of length [m]. *)
Definition total : Z := Z.of_nat n ^ Z.of_nat m.

Definition solutions (F : Z) : list (list Z) := filter ok (decode n m <$> seqZ 0 F).

Lemma solutions_app F k : 0 <= F -> 0 <= k ->
  solutions (F + k) = solutions F ++ filter ok (decode n m <$> seqZ F k).
Proof. intros HF Hk. unfold solutions. by rewrite seqZ_app, fmap_app, filter_app, Z.add_0_l by done. Qed.

(** An acceptable word is the next solution. *)
Lemma solutions_hit v :
  word n m v -> ok v -> solutions (num n v + 1) = solutions (num n v) ++ [v].
Proof using Hn.
  intros [Hl Hd] Hs. pose proof (num_bound n Hn v Hd) as Hb. rewrite solutions_app by lia. f_equal.
  rewrite seqZ_cons by lia. csimpl. rewrite <- Hl. rewrite (decode_num n Hn v Hd).
  by rewrite filter_cons_True.
Qed.

(** The words numbered from [P * Q] to [(P + 1) * Q] begin alike. *)
Lemma decode_prefix p k l :
  digits n p -> (length p + l = m)%nat ->
  num n p * Z.of_nat n ^ Z.of_nat l <= k < (num n p + 1) * Z.of_nat n ^ Z.of_nat l ->
  take (length p) (decode n m k) = p.
Proof using Hn.
  intros Hp Hl Hk. pose proof (num_bound n Hn p Hp) as Bp. pose proof (pow_pos n Hn l) as Pl.
  set (v := decode n m k). assert (length v = m) as Hv by (by apply decode_length).
  assert (digits n v) as Dv by (apply decode_digits; done).
  rewrite <- (take_drop (length p) v) in Dv. apply Forall_app in Dv as [D1 D2].
  assert (num n v = k) as Ek.
  { apply num_decode; [done|]. split; [nia|].
    replace (Z.of_nat n ^ Z.of_nat m) with (Z.of_nat n ^ Z.of_nat (length p) * Z.of_nat n ^ Z.of_nat l); [nia|].
    rewrite <- Z.pow_add_r by lia. f_equal. lia. }
  rewrite <- (take_drop (length p) v), num_app in Ek. pose proof (num_bound n Hn _ D2) as B2.
  rewrite length_drop, Hv in Ek, B2. replace (m - length p)%nat with l in Ek, B2 by lia.
  apply (num_inj n Hn); [done|done|rewrite length_take; lia|].
  set (Q := Z.of_nat n ^ Z.of_nat l) in *. nia.
Qed.

(** No word that begins like an unacceptable one is a solution. *)
Lemma solutions_skip p q :
  word n m (p ++ q) -> ~ ok p ->
  num n (p ++ q) < (num n p + 1) * Z.of_nat n ^ Z.of_nat (length q) <= total /\
  solutions ((num n p + 1) * Z.of_nat n ^ Z.of_nat (length q)) = solutions (num n (p ++ q)).
Proof using Hn.
  intros [Hl Hd] Hs. apply Forall_app in Hd as [Hp Hq]. rewrite length_app in Hl.
  pose proof (num_bound n Hn p Hp) as Bp. pose proof (num_bound n Hn q Hq) as Bq.
  pose proof (pow_pos n Hn (length q)) as Pq. pose proof (decode_prefix p) as Hpre.
  assert (total = Z.of_nat n ^ Z.of_nat (length p) * Z.of_nat n ^ Z.of_nat (length q)) as Et.
  { unfold total. rewrite <- Z.pow_add_r by lia. f_equal. lia. }
  rewrite num_app. split; [rewrite Et; nia|].
  set (k := num n p * _ + num n q). replace ((num n p + 1) * _) with (k + (Z.of_nat n ^ Z.of_nat (length q) - num n q)) by (unfold k; lia).
  rewrite solutions_app by (unfold k; nia).
  assert (filter ok (decode n m <$> seqZ k (Z.of_nat n ^ Z.of_nat (length q) - num n q)) = []) as ->;
    [|apply app_nil_r].
  apply elem_of_nil_inv. intros v [Hv (k' & -> & Hk)%list_elem_of_fmap]%list_elem_of_filter.
  apply elem_of_seqZ in Hk. apply Hs. rewrite <- (Hpre k' (length q)); [by apply pruning_prefix|done|done|].
  unfold k in Hk. lia.
Qed.

(** All solutions: each exactly once. *)
Lemma solutions_total :
  NoDup (solutions total) /\
  forall v, v ∈ solutions total <-> word n m v /\ ok v.
Proof using Hn.
  assert (0 <= total) as Ht by (apply Z.pow_nonneg; lia). unfold solutions. split.
  - apply NoDup_filter, NoDup_fmap_2_strong; [|apply NoDup_seqZ].
    intros x y Hx%elem_of_seqZ Hy%elem_of_seqZ E. apply (f_equal (num n)) in E.
    rewrite !num_decode in E by (try done; unfold total in *; lia). done.
  - intros v. rewrite list_elem_of_filter, list_elem_of_fmap. split.
    + intros [Hs (k & -> & _)]. split; [|done]. split; [by apply decode_length|by apply decode_digits].
    + intros [[Hl Hd] Hs]. split; [done|]. exists (num n v). pose proof (num_bound n Hn v Hd) as Hb.
      rewrite Hl in Hb. rewrite elem_of_seqZ. split; [|unfold total; lia].
      rewrite <- Hl. symmetry. by apply decode_num.
Qed.
End Solutions.

(** ** The frontier of a beginning *)

Section Frontier.
Context (n m : nat) (ok : list Z -> Prop) `{!Pruning ok}.
Hypothesis (Hn : (0 < n)%nat).
Local Abbreviation N := (Z.of_nat n).

(** The number of the first word that does not begin with [r] or less. *)
Definition frontier (r : list Z) : Z := (num n r + 1) * N ^ Z.of_nat (m - length r).

(** Like [digits], but the last one may be [-1]. *)
Definition almost (r : list Z) : Prop :=
  exists init x, r = init ++ [x] /\ digits n init /\ -1 <= x < N.

Lemma digits_almost r : digits n r -> r <> [] -> almost r.
Proof using.
  clear Hn. intros Hr Hne. destruct r as [|x r _] using rev_ind; [done|].
  apply Forall_app in Hr as [Hr [Hx _]%Forall_cons_1]. exists r, x. split; [done|].
  split; [done|]. lia.
Qed.

Definition pad (r : list Z) : list Z := r ++ replicate (m - length r) 0.

Lemma num_zeros k : num n (replicate k 0) = 0.
Proof using. clear Hn. induction k as [|k IH]; [done|]. rewrite replicate_S_end, num_snoc, IH. lia. Qed.

Lemma pad_word r : digits n r -> (length r <= m)%nat -> word n m (pad r).
Proof using Hn.
  intros Hd Hl. unfold pad. split; [rewrite length_app, length_replicate; lia|].
  apply Forall_app. split; [done|]. apply Forall_replicate. lia.
Qed.

Lemma num_pad r : num n (pad r) = num n r * N ^ Z.of_nat (m - length r).
Proof using. clear Hn. unfold pad. rewrite num_app, num_zeros, length_replicate. lia. Qed.

Lemma frontier_bound r : almost r -> (length r <= m)%nat -> 0 <= frontier r <= total n m.
Proof using Hn.
  intros (init & x & -> & Hi & Hx) Hl. unfold frontier. rewrite num_snoc.
  pose proof (num_bound n Hn init Hi) as B. rewrite length_app, Nat.add_1_r in *.
  pose proof (pow_pos n Hn (m - S (length init))) as P. 
  assert (total n m = N ^ Z.of_nat (length init) * N * N ^ Z.of_nat (m - S (length init))) as ->.
  { unfold total. rewrite <- pow_S, <- Z.pow_add_r by lia. f_equal. lia. }
  split; [apply Z.mul_nonneg_nonneg; nia|]. apply Z.mul_le_mono_nonneg_r; nia.
Qed.

Lemma frontier_end r :
  (length r <= m)%nat -> num n r = N ^ Z.of_nat (length r) - 1 -> frontier r = total n m.
Proof using.
  clear Hn. intros Hl E. unfold frontier, total. rewrite E.
  replace (N ^ Z.of_nat (length r) - 1 + 1) with (N ^ Z.of_nat (length r)) by lia.
  rewrite <- Z.pow_add_r by lia. f_equal. lia.
Qed.

(** Cutting [r1] after its first conflict. *)
Lemma cut_spec r1 i :
  digits n r1 -> (length r1 <= m)%nat -> (i < length r1)%nat -> ~ ok (take (S i) r1) ->
  almost (take (S i) r1) /\ (length (take (S i) r1) <= m)%nat /\
  num n (pad r1) < frontier (take (S i) r1) <= total n m /\
  solutions n m ok (frontier (take (S i) r1)) = solutions n m ok (num n (pad r1)).
Proof using Hn.
  intros Hd Hl Hi Hs. set (q := drop (S i) r1 ++ replicate (m - length r1) 0).
  assert (pad r1 = take (S i) r1 ++ q) as Ep by (unfold pad, q; by rewrite app_assoc, take_drop).
  assert (length q = m - length (take (S i) r1))%nat as Hq.
  { unfold q. rewrite length_app, length_replicate, length_take, length_drop. lia. }
  split; [|split].
  - apply digits_almost; [by apply Forall_take|]. intros E. apply (f_equal length) in E.
    rewrite length_take in E. cbn [length] in E. lia.
  - rewrite length_take. lia.
  - unfold frontier. rewrite <- Hq, Ep. apply solutions_skip; [done| |done].
    rewrite <- Ep. by apply pad_word.
Qed.

End Frontier.
