(* ===== verification/Queens.v ===== *)
(** * The N queens problem

    src/c++/leetcode/51.cpp (module [Boards]) and src/c++/leetcode/51-2.cpp
    (module [Columns]).  Both walk through the placements of one queen in each
    row in the order of the columns, and skip the placements that share a
    conflicting beginning: the first keeps a full board of characters, the
    second the columns of the rows placed so far. *)

From stdpp Require Import base list numbers relations.
From Stdlib Require Import ZArith Lia.
From S2P Require Import Prelude Odometer.

Open Scope Z_scope.

Definition dot : Z := 46.
Definition queen : Z := 81.

(** The condition of the inner loops of [illegal] and [legal]: the queens of
    rows [i] and [j] attack each other. *)
Definition conflict (d : list Z) (i j : nat) : bool :=
  let di := nth i d 0 in
  let dj := nth j d 0 in
  (di =? dj) || (di - dj =? Z.of_nat i - Z.of_nat j) || (di - dj =? Z.of_nat j - Z.of_nat i).

(** Row [i] conflicts with an earlier one. *)
Definition row_conflicts (d : list Z) (i : nat) : bool := existsb (conflict d i) (seq 0 i).

(** The first such row among [k] rows from row [i] on. *)
Fixpoint first_conflict (d : list Z) (i k : nat) : option nat :=
  match k with
  | O => None
  | S k => if row_conflicts d i then Some i else first_conflict d (S i) k
  end.

(** ** 51-2.cpp *)

Module Columns.

(** [next] from the back of [r]. *)
Fixpoint next_rev (n : Z) (l : list Z) : bool * list Z :=
  match l with
  | [] => (false, [])
  | x :: l =>
      if x <? n - 1 then (true, (x + 1) :: l)
      else let '(b, l') := next_rev n l in (b, 0 :: l')
  end.

Definition next (n : Z) (r : list Z) : bool * list Z :=
  let '(b, l) := next_rev n (reverse r) in (b, reverse l).

(** [legal] also cuts [r] after the first row in conflict. *)
Definition legal (r : list Z) : bool * list Z :=
  match first_conflict r 0 (length r) with
  | Some i => (false, take (i + 1) r)
  | None => (true, r)
  end.

(** The loop of [solveNQueens] on [r] and [rs]. *)
Definition step (n : Z) (st : list Z * list (list Z))
    : outcome (control (list Z * list (list Z)) (list (list Z))) :=
  let '(r, rs) := st in
  let '(ok, r1) := next n r in
  if ok then
    let '(good, r2) := legal r1 in
    if good then
      if zlen r2 =? n then Ret (Continue (r2, rs ++ [r2])) else Ret (Continue (r2 ++ [-1], rs))
    else Ret (Continue (r2, rs))
  else Ret (Break rs).

(** [results[i][j][rs[i][j]] = 'Q'] for one result. *)
Definition put_queen (r : list Z) (j : Z) (b : list (list Z)) : outcome (list (list Z)) :=
  q ← vget r j;
  row ← vget b j;
  row' ← vset row q queen;
  vset b j row'.

Fixpoint to_results (n : nat) (rs : list (list Z)) : outcome (list (list (list Z))) :=
  match rs with
  | [] => Ret []
  | r :: rs =>
      b ← for_loop n 0 (put_queen r) (replicate n (replicate n dot));
      bs ← to_results n rs;
      Ret (b :: bs)
  end.

Definition solveNQueens (fuel n : nat) : outcome (list (list (list Z))) :=
  rs ← while_loop fuel (step (Z.of_nat n)) ([-1], []);
  to_results n rs.

End Columns.

(** ** 51.cpp *)

Module Boards.

(** [row.find('Q')] converted to [int]. *)
Fixpoint find_queen (row : list Z) (i : Z) : Z :=
  match row with
  | [] => -1
  | c :: row => if c =? queen then i else find_queen row (i + 1)
  end.

(** [next(res, (k - 1, col))]. *)
Fixpoint next (res : list (list Z)) (k : nat) (col : Z) : outcome (bool * list (list Z)) :=
  match k with
  | O => Ret (false, res)
  | S row =>
      if col <? zlen res - 1 then
        line ← vget res (Z.of_nat row);
        line1 ← if 0 <=? col then vset line col dot else Ret line;
        line2 ← vset line1 (col + 1) queen;
        res' ← vset res (Z.of_nat row) line2;
        Ret (true, res')
      else
        match row with
        | O => Ret (false, res)
        | S row' =>
            line ← vget res (Z.of_nat row);
            line1 ← vset line col dot;
            line2 ← vset line1 0 queen;
            res' ← vset res (Z.of_nat row) line2;
            above ← vget res' (Z.of_nat row');
            next res' row (find_queen above 0)
        end
  end.

(** The first row in conflict and its column, or the number of rows. *)
Definition illegal (res : list (list Z)) : Z * Z :=
  let d := (fun row => find_queen row 0) <$> res in
  match first_conflict d 0 (length res) with
  | Some i => (Z.of_nat i, nth i d 0)
  | None => (zlen res, -1)
  end.

(** The loop of [solveNQueens] on [res], [pos] and [results]. *)
Definition step (n : Z) (st : list (list Z) * (Z * Z) * list (list (list Z)))
    : outcome (control (list (list Z) * (Z * Z) * list (list (list Z))) (list (list (list Z)))) :=
  let '(res, pos, results) := st in
  nx ← next res (Z.to_nat (pos.1 + 1)) pos.2;
  let '(ok, res1) := nx in
  if ok : bool then
    let pos1 := illegal res1 in
    if pos1.1 =? n then
      last_row ← vget res1 (n - 1);
      Ret (Continue (res1, (n - 1, find_queen last_row 0), results ++ [res1]))
    else Ret (Continue (res1, pos1, results))
  else Ret (Break results).

Definition solveNQueens (fuel n : nat) : outcome (list (list (list Z))) :=
  res ← for_loop n 0 (fun i res =>
          r ← vget res i;
          r' ← vset r 0 queen;
          vset res i r') (replicate n (replicate n dot));
  while_loop fuel (step (Z.of_nat n)) (res, (Z.of_nat n - 1, -1), []).

End Boards.

(** ** The reference *)

(** No two queens attack each other. *)
Definition safe (d : list Z) : Prop :=
  forall i j x y, (j < i)%nat -> d !! i = Some x -> d !! j = Some y ->
    x <> y /\ x - y <> Z.of_nat i - Z.of_nat j /\ x - y <> Z.of_nat j - Z.of_nat i.

(** A queen in each of [n] rows. *)
Definition placement (n : nat) (d : list Z) : Prop :=
  length d = n /\ Forall (fun x => 0 <= x < Z.of_nat n) d.

(** The row with a queen in column [q], and the board. *)
Definition queen_row (n : nat) (q : Z) : list Z := <[Z.to_nat q := queen]> (replicate n dot).
Definition board (n : nat) (d : list Z) : list (list Z) := queen_row n <$> d.

(** ** Conflicts *)

Lemma conflict_iff d i j x y :
  d !! i = Some x -> d !! j = Some y ->
  conflict d i j = true <->
  ~ (x <> y /\ x - y <> Z.of_nat i - Z.of_nat j /\ x - y <> Z.of_nat j - Z.of_nat i).
Proof.
  intros Hi Hj. unfold conflict.
  rewrite (nth_lookup_Some _ _ 0 _ Hi), (nth_lookup_Some _ _ 0 _ Hj).
  rewrite !orb_true_iff, !Z.eqb_eq. lia.
Qed.

Lemma row_conflicts_iff d i :
  (i < length d)%nat ->
  row_conflicts d i = true <-> exists j, (j < i)%nat /\ conflict d i j = true.
Proof.
  intros Hi. unfold row_conflicts. rewrite existsb_exists. split.
  - intros (j & Hj%in_seq & Hc). exists j. split; [lia|done].
  - intros (j & Hj & Hc). exists j. split; [apply in_seq; lia|done].
Qed.

Lemma no_conflict_safe d k :
  (k <= length d)%nat -> (forall i, (i < k)%nat -> row_conflicts d i = false) -> safe (take k d).
Proof.
  intros Hk Hno a b x y Hab Ha Hb. apply lookup_take_Some in Ha as [Ha Hlt], Hb as [Hb _].
  destruct (decide (x <> y /\ x - y <> Z.of_nat a - Z.of_nat b /\ x - y <> Z.of_nat b - Z.of_nat a)) as [|Hc];
    [done|]. apply (conflict_iff _ _ _ _ _ Ha Hb) in Hc.
  assert (row_conflicts d a = true) as E by (apply row_conflicts_iff; [lia|eauto]).
  rewrite Hno in E by lia. done.
Qed.

Lemma first_conflict_spec d i k :
  (i + k = length d)%nat -> (forall i', (i' < i)%nat -> row_conflicts d i' = false) ->
  match first_conflict d i k with
  | Some i' => (i' < length d)%nat /\ ~ safe (take (S i') d) /\ safe (take i' d)
  | None => safe d
  end.
Proof.
  revert i. induction k as [|k IH]; intros i Hl Hno; simpl.
  - rewrite <- (take_ge d i) by lia. apply no_conflict_safe; [lia|done].
  - destruct (row_conflicts d i) eqn:E.
    + split; [lia|]. split; [|apply no_conflict_safe; [lia|done]].
      intros Hs. apply row_conflicts_iff in E as (j & Hj & Hc); [|lia].
      destruct (lookup_lt_is_Some_2 d i) as [x Hx]; [lia|].
      destruct (lookup_lt_is_Some_2 d j) as [y Hy]; [lia|].
      apply (conflict_iff _ _ _ _ _ Hx Hy) in Hc. apply Hc.
      apply (Hs i j x y); [done|by rewrite lookup_take_lt by lia|by rewrite lookup_take_lt by lia].
    + apply IH; [lia|]. intros i' Hi'. destruct (decide (i' = i)) as [->|]; [done|]. apply Hno. lia.
Qed.

Lemma first_conflict_all d :
  match first_conflict d 0 (length d) with
  | Some i' => (i' < length d)%nat /\ ~ safe (take (S i') d) /\ safe (take i' d)
  | None => safe d
  end.
Proof. apply first_conflict_spec; [done|lia]. Qed.

Lemma safe_take d k : safe d -> safe (take k d).
Proof.
  intros Hs i j x y Hij Hi Hj. apply lookup_take_Some in Hi as [Hi _], Hj as [Hj _].
  by apply (Hs i j).
Qed.

#[export] Instance safe_pruning : Pruning safe.
Proof.
  split; [|apply safe_take]. intros d. pose proof (first_conflict_all d) as H.
  destruct (first_conflict d 0 (length d)); [right|by left]. intros Hs. apply H. by apply safe_take.
Defined.

(** ** The columns version *)

Section ColumnsProof.
Context (n : nat).
Hypothesis (Hn : (0 < n)%nat).
Local Abbreviation N := (Z.of_nat n).

Lemma next_rev_spec l :
  match l with [] => True | x :: l => -1 <= x < N /\ digits n l end ->
  let '(b, l1) := Columns.next_rev N l in
  length l1 = length l /\
  if b : bool then digits n l1 /\ num n (reverse l1) = num n (reverse l) + 1
  else num n (reverse l) = N ^ Z.of_nat (length l) - 1.
Proof.
  induction l as [|x l IH]; [done|]. intros [Hx Hl]. simpl Columns.next_rev.
  destruct (Z.ltb_spec x (N - 1)) as [Hlt|Hge].
  - rewrite !reverse_cons, !num_snoc. split; [done|]. split; [|lia].
    constructor; [lia|done].
  - replace x with (N - 1) by lia.
    assert (match l with [] => True | x :: l => -1 <= x < N /\ digits n l end) as Hl'.
    { destruct Hl as [|y l Hy Hl]; [done|]. split; [lia|done]. }
    specialize (IH Hl'). destruct (Columns.next_rev N l) as [b l1]. destruct IH as [Hlen IH].
    split; [simpl; lia|]. rewrite !reverse_cons, !num_snoc. destruct b.
    + destruct IH as [Hd ->]. split; [|lia]. constructor; [lia|done].
    + rewrite IH. simpl length. rewrite pow_S. lia.
Qed.

Lemma next_spec r :
  almost n r ->
  let '(b, r1) := Columns.next N r in
  length r1 = length r /\
  if b : bool then digits n r1 /\ num n r1 = num n r + 1
  else num n r = N ^ Z.of_nat (length r) - 1.
Proof.
  intros (init & x & -> & Hi & Hx). unfold Columns.next. rewrite reverse_snoc.
  pose proof (next_rev_spec (x :: reverse init)) as H.
  destruct (Columns.next_rev N (x :: reverse init)) as [b l1].
  destruct H as [Hl H]; [split; [done|by apply Forall_reverse]|].
  rewrite reverse_cons, reverse_involutive in H. rewrite length_reverse, Hl. simpl.
  rewrite length_app, length_reverse, Nat.add_1_r. split; [done|]. destruct b.
  - destruct H as [Hd E]. split; [by apply Forall_reverse|done].
  - rewrite H. simpl length. by rewrite length_reverse.
Qed.

Definition columns_inv (st : list Z * list (list Z)) : Prop :=
  almost n st.1 /\ (length st.1 <= n)%nat /\ st.2 = solutions n n safe (frontier n n st.1).

Definition columns_measure (st : list Z * list (list Z)) : nat :=
  Z.to_nat ((total n n - frontier n n st.1) * (N + 1) + (N - zlen st.1)).

Lemma measure_cut r r1 :
  frontier n n r < frontier n n r1 <= total n n -> (length r <= n)%nat -> (0 < length r1)%nat ->
  forall rs rs', (columns_measure (r1, rs) < columns_measure (r, rs'))%nat.
Proof using Hn.
  intros HF Hl H1 rs rs'. unfold columns_measure, zlen. simpl.
  assert ((total n n - frontier n n r1) * (N + 1) + (N + 1) <= (total n n - frontier n n r) * (N + 1)) by nia.
  assert (0 <= (total n n - frontier n n r1) * (N + 1)) by nia. lia.
Qed.

Lemma columns_step st :
  columns_inv st ->
  returns (Columns.step N st) (fun c => match c with
    | Continue st' => columns_inv st' /\ (columns_measure st' < columns_measure st)%nat
    | Break rs => rs = solutions n n safe (total n n)
    end).
Proof using Hn.
  intros (Ha & Hl & Hrs). destruct st as [r rs]. simpl in Ha, Hl, Hrs. subst rs.
  unfold Columns.step. pose proof (next_spec r Ha) as Hnx.
  destruct (Columns.next N r) as [ok r1]. destruct Hnx as [Hl1 Hnx]. destruct ok.
  - destruct Hnx as [Hd E]. unfold Columns.legal. pose proof (first_conflict_all r1) as Hc.
    assert (num n (pad n r1) = frontier n n r) as Ef by (rewrite num_pad; unfold frontier; by rewrite E, Hl1).
    assert (0 < length r)%nat as Hr0 by (destruct Ha as (i & x & -> & _); len).
    destruct (first_conflict r1 0 (length r1)) as [i|].
    + destruct Hc as (Hi & Hc & _). destruct (cut_spec n n safe Hn r1 i Hd ltac:(lia) Hi Hc) as (A1 & A2 & A3 & A4).
      rewrite Nat.add_1_r. apply returns_ret. rewrite Ef in A3, A4. split.
      * split; [done|]. split; [done|]. simpl. by rewrite A4.
      * apply measure_cut; [done|done|]. len.
    + destruct (Z.eqb_spec (zlen r1) N) as [Hfull|Hpart]; unfold zlen in *; apply returns_ret.
      * assert (n - length r1 = 0)%nat as Hz by lia. rewrite num_pad, Hz, Z.pow_0_r, Z.mul_1_r in Ef.
        assert (frontier n n r1 = frontier n n r + 1) as Ef1.
        { unfold frontier at 1. rewrite Hz, Z.pow_0_r, <- Ef. lia. }
        assert (almost n r1) as A1 by (apply digits_almost; [done|]; intros ->; simpl in *; lia).
        split; [split_and!; simpl; [done|lia|]|].
        -- rewrite Ef1, <- Ef. symmetry. apply solutions_hit; [done| |done]. split; [lia|done].
        -- apply measure_cut; [|done|lia]. pose proof (frontier_bound n n Hn r1 A1 ltac:(lia)). lia.
      * assert (frontier n n (r1 ++ [-1]) = frontier n n r) as Ef1.
        { rewrite <- Ef, num_pad. unfold frontier. rewrite num_snoc, length_app, Nat.add_1_r.
          replace (n - length r1)%nat with (S (n - S (length r1))) by lia. rewrite pow_S. lia. }
        split; [split_and!; simpl|].
        -- exists r1, (-1). split; [done|]. split; [done|lia].
        -- len.
        -- by rewrite Ef1.
        -- unfold columns_measure. simpl. rewrite Ef1. unfold zlen. rewrite length_app. simpl.
           pose proof (frontier_bound n n Hn r Ha Hl). nia.
  - apply returns_ret. f_equal. by apply frontier_end.
Qed.
End ColumnsProof.

(** ** Boards *)

Section BoardsProof.
Context (n : nat).
Hypothesis (Hn : (0 < n)%nat).
Local Abbreviation N := (Z.of_nat n).

Lemma queen_row_length q : length (queen_row n q) = n.
Proof. unfold queen_row. by rewrite length_insert, length_replicate. Qed.

Lemma find_queen_replicate k m l i :
  (k < m)%nat -> Boards.find_queen (<[k := queen]> (replicate m dot) ++ l) i = i + Z.of_nat k.
Proof.
  revert k i. induction m as [|m IH]; intros k i Hk; [lia|].
  destruct k as [|k]; simpl; [lia|]. rewrite IH by lia. lia.
Qed.

Lemma find_queen_row q : 0 <= q < N -> Boards.find_queen (queen_row n q) 0 = q.
Proof.
  intros Hq. unfold queen_row. rewrite <- (app_nil_r (<[_ := _]> _)).
  rewrite find_queen_replicate by lia. lia.
Qed.

Lemma find_board v : placement n v -> (fun row => Boards.find_queen row 0) <$> board n v = v.
Proof.
  intros [_ Hd]. unfold board. rewrite <- list_fmap_compose. rewrite <- (list_fmap_id v) at 2.
  apply list_fmap_ext. intros i q Hi. apply find_queen_row. exact (Forall_lookup_1 _ _ _ _ Hd Hi).
Qed.

(** Moving a queen within its row. *)
Lemma move_queen q q' :
  0 <= q < N -> 0 <= q' < N ->
  exists line, vset (queen_row n q) q dot = Ret line /\ vset line q' queen = Ret (queen_row n q').
Proof.
  intros Hq Hq'. exists (replicate n dot). unfold queen_row. split.
  - rewrite vset_in_range by len.
    rewrite list_insert_insert_eq, list_insert_id; [done|]. rewrite lookup_replicate. lia.
  - rewrite vset_in_range; [done|]. unfold zlen. rewrite length_replicate. lia.
Qed.

Lemma board_length v : length (board n v) = length v.
Proof. apply length_fmap. Qed.

Lemma board_lookup v i q : v !! i = Some q -> vget (board n v) (Z.of_nat i) = Ret (queen_row n q).
Proof. intros E. apply vget_nat. unfold board. by rewrite list_lookup_fmap, E. Qed.

Lemma board_insert v i q :
  (i < length v)%nat -> vset (board n v) (Z.of_nat i) (queen_row n q) = Ret (board n (<[i := q]> v)).
Proof.
  intros Hi. rewrite vset_in_range by (unfold zlen; rewrite board_length; lia).
  unfold board. by rewrite Nat2Z.id, list_fmap_insert.
Qed.
(** [next] on a board is [next] on the columns, from the row on which it is
    called.  The column is that of the row's queen, or [-1] at the start. *)
Definition at_queen (v : list Z) (row : nat) (col : Z) : Prop :=
  v !! row = Some col \/ col = -1 /\ v !! row = Some 0.

Lemma insert_middle (v : list Z) i x :
  (i < length v)%nat -> <[i := x]> v = take i v ++ x :: drop (S i) v.
Proof. intros Hi. by rewrite insert_take_drop. Qed.

Lemma columns_next_last p col :
  col < N - 1 -> Columns.next N (p ++ [col]) = (true, p ++ [col + 1]).
Proof.
  intros H. unfold Columns.next. rewrite reverse_snoc. simpl Columns.next_rev.
  rewrite (proj2 (Z.ltb_lt _ _)) by done. by rewrite reverse_cons, reverse_involutive.
Qed.

Lemma columns_next_carry p col :
  N - 1 <= col ->
  Columns.next N (p ++ [col]) = ((Columns.next N p).1, (Columns.next N p).2 ++ [0]).
Proof.
  intros H. unfold Columns.next. rewrite reverse_snoc. simpl Columns.next_rev.
  rewrite (proj2 (Z.ltb_ge _ _)) by done. destruct (Columns.next_rev N (reverse p)) as [b l].
  simpl. by rewrite reverse_cons.
Qed.

Lemma board_next_here row v col :
  placement n v -> at_queen v row col -> col < N - 1 ->
  Boards.next (board n v) (S row) col = Ret (true, board n ((take row v ++ [col + 1]) ++ drop (S row) v)).
Proof using Hn.
  intros [Hl Hd] Hat Hlt. cbn [Boards.next].
  assert (zlen (board n v) = N) as -> by (unfold zlen; rewrite board_length; lia).
  rewrite (proj2 (Z.ltb_lt _ _)) by done.
  assert (exists q, v !! row = Some q /\ exists line,
    (if 0 <=? col then vset (queen_row n q) col dot else Ret (queen_row n q)) = Ret line /\
    vset line (col + 1) queen = Ret (queen_row n (col + 1))) as (q & Hq & line & E1 & E2).
  { destruct Hat as [Hq|[-> Hq]].
    - exists col. split; [done|]. pose proof (Forall_lookup_1 _ _ _ _ Hd Hq) as Hc. simpl in Hc.
      rewrite (proj2 (Z.leb_le 0 col)) by lia. apply move_queen; lia.
    - exists 0. split; [done|]. exists (queen_row n 0). split; [done|].
      rewrite vset_in_range by (unfold zlen; rewrite queen_row_length; lia).
      unfold queen_row. by rewrite list_insert_insert_eq. }
  rewrite (board_lookup _ _ _ Hq). bind_ret. rewrite E1. bind_ret.
  rewrite E2. bind_ret. apply lookup_lt_Some in Hq.
  rewrite board_insert by done. bind_ret.
  by rewrite insert_middle, <- app_assoc by done.
Qed.

(** The last branch of [next]. *)
Lemma boards_next_up res row col :
  zlen res - 1 <= col ->
  Boards.next res (S (S row)) col =
    (line ← vget res (Z.of_nat (S row));
     line1 ← vset line col dot;
     line2 ← vset line1 0 queen;
     res' ← vset res (Z.of_nat (S row)) line2;
     above ← vget res' (Z.of_nat row);
     Boards.next res' (S row) (Boards.find_queen above 0)).
Proof.
  intros H. remember (S row) as k eqn:Ek. cbn [Boards.next].
  rewrite (proj2 (Z.ltb_ge _ _)) by done. by subst k.
Qed.

Lemma board_next row v col :
  placement n v -> at_queen v row col ->
  exists res', Boards.next (board n v) (S row) col = Ret ((Columns.next N (take row v ++ [col])).1, res') /\
    ((Columns.next N (take row v ++ [col])).1 = true ->
     res' = board n ((Columns.next N (take row v ++ [col])).2 ++ drop (S row) v)).
Proof using Hn.
  revert v col. induction row as [|row IH]; intros v col Hv Hat;
    (destruct (decide (col < N - 1)) as [Hlt|Hge];
      [eexists; rewrite columns_next_last by done; split; [by apply board_next_here|done]|]).
  - exists (board n v). simpl take. rewrite columns_next_carry by lia. split; [|done].
    cbn [Boards.next]. assert (zlen (board n v) = N) as -> by (unfold zlen; rewrite board_length; by destruct Hv as [-> _]).
    by rewrite (proj2 (Z.ltb_ge _ _)) by lia.
  - rewrite columns_next_carry by lia. cbn [fst snd].
    destruct Hat as [Hq|[-> _]]; [|lia]. destruct Hv as [Hl Hd].
    pose proof (lookup_lt_Some _ _ _ Hq) as Hr.
    destruct (lookup_lt_is_Some_2 v row) as [a Ha]; [lia|].
    pose proof (Forall_lookup_1 _ _ _ _ Hd Hq) as Hc. pose proof (Forall_lookup_1 _ _ _ _ Hd Ha) as Hca. simpl in Hc, Hca.
    assert (zlen (board n v) = N) as Hz by (unfold zlen; rewrite board_length; lia).
    rewrite boards_next_up by lia. rewrite (board_lookup _ _ _ Hq). bind_ret.
    destruct (move_queen col 0) as (line & -> & E2); [done|lia|]. bind_ret.
    rewrite E2. bind_ret. rewrite board_insert by done. bind_ret.
    assert (<[S row := 0]> v !! row = Some a) as Ha' by (rewrite list_lookup_insert_ne; [done|lia]).
    rewrite (board_lookup _ _ _ Ha'). bind_ret. rewrite find_queen_row by done.
    destruct (IH (<[S row := 0]> v) a) as (res' & E & Hres).
    + split; [by rewrite length_insert|]. apply Forall_insert; [done|lia].
    + by left.
    + rewrite take_insert_ge in E, Hres by lia. rewrite <- (take_S_r _ _ _ Ha) in E, Hres.
      exists res'. split; [exact E|]. intros Hb. rewrite (Hres Hb).
      rewrite <- app_assoc. do 2 f_equal. rewrite insert_middle by done.
      by rewrite drop_app_length' by (len).
Qed.
Lemma next_shape r r1 :
  Columns.next N r = (true, r1) ->
  exists t y a, r = t ++ y :: a /\ r1 = t ++ (y + 1) :: replicate (length a) 0.
Proof.
  revert r1. induction r as [|x r IH] using rev_ind; intros r1 E; [done|].
  destruct (decide (x < N - 1)) as [Hlt|Hge].
  - rewrite columns_next_last in E by done. injection E as <-. by exists r, x, [].
  - rewrite columns_next_carry in E by lia. destruct (Columns.next N r) as [b r2]. simplify_eq/=.
    destruct (IH _ eq_refl) as (t & y & a & -> & ->). exists t, y, (a ++ [x]).
    rewrite length_app, Nat.add_1_r, replicate_S_end, <- !app_assoc. done.
Qed.

Definition boards_inv (st : list (list Z) * (Z * Z) * list (list (list Z))) : Prop :=
  exists v row col, st = (board n v, (Z.of_nat row, col), board n <$> solutions n n safe (frontier n n (take row v ++ [col]))) /\
    placement n v /\ (row < n)%nat /\ at_queen v row col /\
    drop (S row) v = replicate (n - S row) 0 /\
    (safe (take row v) \/ v = replicate n 0 /\ col = -1).

Definition boards_measure (st : list (list Z) * (Z * Z) * list (list (list Z))) : nat :=
  let '(res, pos, _) := st in
  let d := (fun row => Boards.find_queen row 0) <$> res in
  Z.to_nat (total n n - frontier n n (take (Z.to_nat pos.1) d ++ [pos.2])).

(** The rows after the first conflict still hold their first queen. *)
Lemma zeros_after r r1 v1 i m :
  Columns.next N r = (true, r1) -> v1 = r1 ++ replicate m 0 ->
  safe (take (pred (length r)) r) -> ~ safe (take (S i) v1) -> (i < length v1)%nat ->
  drop (S i) v1 = replicate (length v1 - S i) 0.
Proof.
  intros E -> Hs Hc Hi. destruct (next_shape _ _ E) as (t & y & a & -> & ->).
  assert (length t <= i)%nat as Hti.
  { destruct (decide (length t <= i)%nat) as [|Hlt]; [done|exfalso]. apply Hc.
    rewrite <- app_assoc, take_app_le by lia.
    apply (safe_take _ (S i)) in Hs. rewrite length_app in Hs. cbn [length] in Hs.
    rewrite take_take, Nat.min_l, take_app_le in Hs by lia. done. }
  rewrite <- app_assoc in *. simpl in *. rewrite <- replicate_add in *.
  rewrite length_app in *. simpl in *. rewrite length_replicate in *.
  replace (S i) with (length t + S (i - length t))%nat by lia. rewrite drop_app_add. simpl.
  rewrite drop_replicate. f_equal. lia.
Qed.

Lemma at_queen_almost v row col :
  placement n v -> at_queen v row col -> almost n (take row v ++ [col]).
Proof.
  intros [Hl Hd] Hat. exists (take row v), col. split; [done|]. split; [by apply Forall_take|].
  destruct Hat as [Hq|[-> Hq]]; pose proof (Forall_lookup_1 _ _ _ _ Hd Hq) as H; simpl in H; lia.
Qed.

Lemma boards_measure_eq v row col rs :
  placement n v -> boards_measure (board n v, (Z.of_nat row, col), rs) = Z.to_nat (total n n - frontier n n (take row v ++ [col])).
Proof. intros Hv. unfold boards_measure. cbn [fst snd]. by rewrite find_board, Nat2Z.id. Qed.
(** The state after [next] has produced the board of [v1]: the loop goes on
    from its first conflict, or from its last row after recording it. *)
Lemma boards_continue v1 row :
  placement n v1 -> (row < n)%nat -> safe (take row v1) ->
  drop (S row) v1 = replicate (n - S row) 0 ->
  boards_inv (board n v1, (Z.of_nat row, nth row v1 0), board n <$> solutions n n safe (frontier n n (take (S row) v1))).
Proof.
  intros Hv Hr Hs Hz. destruct (lookup_lt_is_Some_2 v1 row) as [x Hx]; [by destruct Hv as [-> _]|].
  rewrite (nth_lookup_Some _ _ 0 _ Hx). exists v1, row, x. rewrite <- (take_S_r _ _ _ Hx).
  split; [done|]. split; [done|]. split; [done|]. split; [by left|]. split; [done|by left].
Qed.

Lemma measure_continue v1 row rs :
  placement n v1 -> (row < n)%nat ->
  boards_measure (board n v1, (Z.of_nat row, nth row v1 0), rs) = Z.to_nat (total n n - frontier n n (take (S row) v1)).
Proof.
  intros Hv Hr. rewrite boards_measure_eq by done.
  destruct (lookup_lt_is_Some_2 v1 row) as [x Hx]; [by destruct Hv as [-> _]|].
  by rewrite (nth_lookup_Some _ _ 0 _ Hx), <- (take_S_r _ _ _ Hx).
Qed.

Lemma boards_after v1 :
  placement n v1 ->
  (forall i, (i < n)%nat -> ~ safe (take (S i) v1) -> drop (S i) v1 = replicate (n - S i) 0) ->
  returns
    (if (Boards.illegal (board n v1)).1 =? N then
       last_row ← vget (board n v1) (N - 1);
       Ret (Continue (board n v1, (N - 1, Boards.find_queen last_row 0),
         (board n <$> solutions n n safe (num n v1)) ++ [board n v1]))
     else Ret (Continue (board n v1, Boards.illegal (board n v1), board n <$> solutions n n safe (num n v1))))
    (fun c => match c : control _ (list (list (list Z))) with
     | Continue st' => boards_inv st' /\ (boards_measure st' < Z.to_nat (total n n - num n v1))%nat
     | Break _ => False
     end).
Proof using Hn.
  intros Hv Hz. assert (length v1 = n) as Hl by (by destruct Hv).
  assert (pad n v1 = v1) as Epp by (unfold pad; by rewrite Hl, Nat.sub_diag, app_nil_r).
  unfold Boards.illegal. rewrite find_board by done. unfold zlen. rewrite board_length.
  pose proof (first_conflict_all v1) as Hc. destruct (first_conflict v1 0 (length v1)) as [i|]; cbn [fst snd].
  - destruct Hc as (Hi & Hc & Hsi). rewrite (proj2 (Z.eqb_neq _ _)) by lia. apply returns_ret.
    destruct (cut_spec n n safe Hn v1 i) as (A1 & A2 & A3 & A4); [by destruct Hv|lia|done|done|].
    rewrite Epp in A3, A4. rewrite Hl in Hi. split.
    + rewrite <- A4. apply boards_continue; [done|done|done|by apply Hz].
    + rewrite measure_continue by done. lia.
  - rewrite Hl, Z.eqb_refl. destruct (lookup_lt_is_Some_2 v1 (pred n)) as [x Hx]; [lia|].
    replace (N - 1) with (Z.of_nat (pred n)) by lia. rewrite (board_lookup _ _ _ Hx).
    bind_ret. apply returns_ret.
    rewrite find_queen_row by (destruct Hv as [_ Hd1]; exact (Forall_lookup_1 _ _ _ _ Hd1 Hx)).
    assert (take (S (pred n)) v1 = v1) as Et by (apply take_ge; lia).
    assert (frontier n n v1 = num n v1 + 1) as Ef1 by (unfold frontier; rewrite Hl, Nat.sub_diag, Z.pow_0_r; lia).
    rewrite <- (nth_lookup_Some _ _ 0 _ Hx). split.
    + replace ((board n <$> solutions n n safe (num n v1)) ++ [board n v1])
        with (board n <$> solutions n n safe (frontier n n (take (S (pred n)) v1))).
      * apply boards_continue; [done|lia|by apply safe_take|]. rewrite drop_ge by lia.
        by replace (n - S (pred n))%nat with 0%nat by lia.
      * rewrite Et, Ef1, (solutions_hit n n safe Hn v1) by done. by rewrite fmap_app.
    + rewrite measure_continue, Et, Ef1 by (done || lia). pose proof (num_bound n Hn v1 ltac:(by destruct Hv)).
      unfold total. rewrite Hl in *. lia.
Qed.

Lemma boards_step st :
  boards_inv st ->
  returns (Boards.step N st) (fun c => match c with
    | Continue st' => boards_inv st' /\ (boards_measure st' < boards_measure st)%nat
    | Break rs => rs = board n <$> solutions n n safe (total n n)
    end).
Proof using Hn.
  intros (v & row & col & -> & Hv & Hr & Hat & Hz & Hs). rewrite boards_measure_eq by done.
  unfold Boards.step. cbn [fst snd]. replace (Z.to_nat (Z.of_nat row + 1)) with (S row) by lia.
  destruct (board_next row v col Hv Hat) as (res' & -> & Hres). bind_ret.
  pose proof (at_queen_almost v row col Hv Hat) as Ha.
  assert (length (take row v) = row) as Hlt by (rewrite length_take; destruct Hv as [-> _]; lia).
  assert (safe (take (pred (length (take row v ++ [col]))) (take row v ++ [col])) \/
    Columns.next N (take row v ++ [col]) = (true, replicate (S row) 0)) as Hsr.
  { destruct Hs as [Hs|[-> ->]]; [left|right].
    - rewrite length_app, Nat.add_1_r. cbn [pred]. by rewrite take_app_length.
    - rewrite columns_next_last by lia. rewrite take_replicate, Nat.min_l by lia.
      by rewrite replicate_S_end. }
  set (r := take row v ++ [col]) in *.
  assert (length r = S row) as Hlr by (unfold r; len).
  pose proof (next_spec n Hn r Ha) as Hnx. destruct (Columns.next N r) as [ok r1] eqn:Enx.
  cbn [fst snd] in *. destruct Hnx as [Hl1 Hnx]. destruct ok.
  - destruct Hnx as [Hd E]. rewrite (Hres eq_refl), Hz.
    assert (pad n r1 = r1 ++ replicate (n - S row) 0) as Epad by (unfold pad; by rewrite Hl1, Hlr).
    rewrite <- Epad. pose proof (pad_word n n Hn r1 Hd ltac:(lia)) as Hv1.
    assert (num n (pad n r1) = frontier n n r) as <-
      by (rewrite num_pad; unfold frontier; by rewrite E, Hl1).
    eapply returns_mono; [apply (boards_after (pad n r1) Hv1)|by intros [st'|rs]].
    intros i Hi Hc. destruct Hv1 as [Hl2 _]. rewrite <- Hl2 at 2. destruct Hsr as [Hsr|Hsr].
    + apply (zeros_after _ _ _ i _ Enx Epad Hsr Hc). lia.
    + rewrite Epad. assert (r1 = replicate (S row) 0) as -> by congruence.
      rewrite <- replicate_add, drop_replicate. by rewrite length_replicate.
  - apply returns_ret. do 2 f_equal. apply frontier_end; [lia|done].
Qed.
End BoardsProof.

(** ** The answer *)

Lemma board_of_columns n r :
  placement n r ->
  for_loop n 0 (Columns.put_queen r) (replicate n (replicate n dot)) = Ret (board n r).
Proof.
  intros [Hl Hd]. rewrite <- (length_replicate n (replicate n dot)) at 1.
  rewrite (for_loop_imap (fun i row => queen_row n (nth i r 0))).
  - f_equal. apply list_eq. intros i. rewrite list_lookup_imap. unfold board. rewrite list_lookup_fmap.
    destruct (decide (i < n)%nat) as [Hi|Hi].
    + rewrite lookup_replicate_2 by done. destruct (lookup_lt_is_Some_2 r i) as [q Hq]; [lia|].
      by rewrite Hq, (nth_lookup_Some _ _ 0 _ Hq).
    + rewrite !lookup_ge_None_2; [done|lia|rewrite length_replicate; lia].
  - intros i x c Hc Hx Hci. apply lookup_replicate in Hx as [-> Hi]. rewrite length_replicate in Hc.
    destruct (lookup_lt_is_Some_2 r i) as [q Hq]; [lia|]. unfold Columns.put_queen.
    rewrite (vget_nat _ _ _ Hq), (nth_lookup_Some _ _ 0 _ Hq). bind_ret.
    rewrite (vget_nat _ _ _ Hci). bind_ret.
    pose proof (Forall_lookup_1 _ _ _ _ Hd Hq) as Hr. simpl in Hr.
    rewrite vset_in_range by len. bind_ret.
    rewrite vset_in_range by len. by rewrite Nat2Z.id.
Qed.

Lemma to_results_spec n rs :
  Forall (placement n) rs -> Columns.to_results n rs = Ret (board n <$> rs).
Proof.
  induction 1 as [|r rs Hr Hrs IH]; [done|]. cbn [Columns.to_results].
  rewrite board_of_columns by done. bind_ret. by rewrite IH.
Qed.

(** The board that 51.cpp starts with. *)
Lemma first_board n :
  (0 < n)%nat ->
  for_loop n 0 (fun i res => r ← vget res i; r' ← vset r 0 queen; vset res i r')
    (replicate n (replicate n dot)) = Ret (board n (replicate n 0)).
Proof.
  intros Hn. rewrite <- (length_replicate n (replicate n dot)) at 1.
  rewrite (for_loop_imap (fun _ _ => queen_row n 0)).
  - f_equal. apply list_eq. intros i. rewrite list_lookup_imap. unfold board. rewrite fmap_replicate.
    destruct (decide (i < n)%nat) as [Hi|Hi]; [by rewrite !lookup_replicate_2|].
    by rewrite !lookup_ge_None_2 by (rewrite length_replicate; lia).
  - intros i x c Hc Hx Hci. apply lookup_replicate in Hx as [-> Hi]. rewrite length_replicate in Hc.
    rewrite (vget_nat _ _ _ Hci). bind_ret.
    rewrite vset_in_range by len. bind_ret.
    rewrite vset_in_range by len. by rewrite Nat2Z.id.
Qed.

Lemma columns_solutions n fuel :
  (0 < n)%nat -> total n n * (Z.of_nat n + 1) + Z.of_nat n <= Z.of_nat fuel ->
  Columns.solveNQueens fuel n = Ret (board n <$> solutions n n safe (total n n)).
Proof.
  intros Hn Hf. unfold Columns.solveNQueens.
  assert (frontier n n [-1] = 0) as E0 by (unfold frontier, num; simpl; lia).
  edestruct (while_loop_total (columns_inv n) (columns_measure n) (fun rs => rs = solutions n n safe (total n n))
    (Columns.step (Z.of_nat n)) fuel ([-1], [])) as (rs & -> & ->).
  - split; [exists [], (-1); split; [done|]; split; [constructor|lia]|].
    split; [simpl; lia|]. cbn [fst snd]. by rewrite E0.
  - by apply columns_step.
  - unfold columns_measure. cbn [fst snd]. rewrite E0. unfold zlen. simpl length.
    assert (0 <= total n n) by (apply Z.pow_nonneg; lia). nia.
  - bind_ret. apply to_results_spec, Forall_forall. intros v Hv.
    by apply (solutions_total n n safe Hn) in Hv as [Hv _].
Qed.

Lemma boards_solutions n fuel :
  (0 < n)%nat -> total n n < Z.of_nat fuel ->
  Boards.solveNQueens fuel n = Ret (board n <$> solutions n n safe (total n n)).
Proof.
  intros Hn Hf. unfold Boards.solveNQueens. rewrite first_board by done. bind_ret.
  assert (placement n (replicate n 0)) as Hv.
  { split; [apply length_replicate|]. apply Forall_replicate. lia. }
  assert (frontier n n (take (pred n) (replicate n 0) ++ [-1]) = 0) as E0.
  { unfold frontier. rewrite num_snoc, take_replicate, num_zeros by done. lia. }
  replace (Z.of_nat n - 1) with (Z.of_nat (pred n)) by lia.
  edestruct (while_loop_total (boards_inv n) (boards_measure n)
    (fun rs => rs = board n <$> solutions n n safe (total n n)) (Boards.step (Z.of_nat n)) fuel
    (board n (replicate n 0), (Z.of_nat (pred n), -1), [])) as (rs & -> & ->).
  - exists (replicate n 0), (pred n), (-1). rewrite E0. split; [done|]. split; [done|]. split; [lia|].
    split; [right; split; [done|apply lookup_replicate_2; lia]|].
    split; [by rewrite drop_replicate|]. by right.
  - by apply boards_step.
  - rewrite boards_measure_eq, E0 by done. assert (0 <= total n n) by (apply Z.pow_nonneg; lia). lia.
  - done.
Qed.

(** Both solutions of the N queens problem return the same boards: the
    boards of all placements of one queen a row in which no two queens attack
    each other, each once. *)
Theorem queens_correct n fuel :
  (0 < n)%nat -> total n n * (Z.of_nat n + 1) + Z.of_nat n <= Z.of_nat fuel ->
  exists sols, NoDup sols /\ (forall v, v ∈ sols <-> placement n v /\ safe v) /\
    Boards.solveNQueens fuel n = Ret (board n <$> sols) /\
    Columns.solveNQueens fuel n = Ret (board n <$> sols).
Proof.
  intros Hn Hf. destruct (solutions_total n n safe Hn) as [Hnd Hiff]. exists (solutions n n safe (total n n)).
  split; [done|]. split; [done|]. split; [|by apply columns_solutions].
  apply boards_solutions; [done|]. assert (0 <= total n n) by (apply Z.pow_nonneg; lia). nia.
Qed.

Lemma queens_correct_witness :
  exists sols, NoDup sols /\ (forall v, v ∈ sols <-> placement 4 v /\ safe v) /\
    Boards.solveNQueens 1284 4 = Ret (board 4 <$> sols) /\
    Columns.solveNQueens 1284 4 = Ret (board 4 <$> sols).
Proof. apply (queens_correct 4 1284); [lia|by vm_compute]. Defined.
