(* ===== verification/Sudoku.v ===== *)
(** * Sudoku

    src/c++/leetcode/37.cpp (module [First]) and src/c++/leetcode/37-2.cpp
    (module [Second]): the blank cells are filled in the order of the rows,
    with a stack of the cells filled so far to go back to.  The two versions
    differ in where a cell's next candidate is stored while going back.  The
    printing functions are left out. *)

From stdpp Require Import base list numbers relations.
From Stdlib Require Import ZArith Lia.
From S2P Require Import Prelude Odometer.

Open Scope Z_scope.
Open Scope vec_scope.

(** The characters [.], [1] and [:] (the one after [9]). *)
Definition blank : Z := 46.
Definition one : Z := 49.
Definition beyond : Z := 58.

Abbreviation pos := (Z * Z)%type.
Abbreviation grid := (list (list Z)).

(** [b[p.first][p.second]]. *)
Definition get2 (b : grid) (p : pos) : outcome Z := row ← b.[p.1]; row.[p.2].

Definition set2 (b : grid) (p : pos) (c : Z) : outcome grid :=
  row ← b.[p.1];
  row' ← row.[p.2 <- c];
  b.[p.1 <- row'].

(** ** What both versions share *)

(** The cells that [legal] compares with: those of the row, of the column and
    of the block but the cell itself, in the order of its loops. *)
Definition peers (p : pos) : list pos :=
  let '(px, py) := p in
  let x := Z.quot px 3 * 3 in
  let y := Z.quot py 3 * 3 in
  ((fun i => (px, i)) <$> filter (fun i => i <> py) (seqZ 0 9)) ++
  ((fun i => (i, py)) <$> filter (fun i => i <> px) (seqZ 0 9)) ++
  filter (fun q => q <> p) (seqZ x 3 ≫= fun i => (fun j => (i, j)) <$> seqZ y 3).

(** Some cell of the list holds [v]. *)
Fixpoint clash (b : grid) (v : Z) (cells : list pos) : outcome bool :=
  match cells with
  | [] => Ret false
  | q :: cells =>
      c ← get2 b q;
      if c =? v then Ret true else clash b v cells
  end.

Definition legal (b : grid) (p : pos) (v : Z) : outcome bool :=
  bad ← clash b v (peers p);
  Ret (negb bad).

(** The loop of [nextval] over [n] candidates from [c] on. *)
Fixpoint first_legal (b : grid) (p : pos) (c : Z) (n : nat) : outcome (option Z) :=
  match n with
  | O => Ret None
  | S n =>
      good ← legal b p c;
      if good : bool then Ret (Some c) else first_legal b p (c + 1) n
  end.

(** The first blank cell of a list. *)
Fixpoint first_blank (b : grid) (cells : list pos) : outcome (option pos) :=
  match cells with
  | [] => Ret None
  | q :: cells =>
      c ← get2 b q;
      if c =? blank then Ret (Some q) else first_blank b cells
  end.

(** ** 37.cpp *)

Module First.

(** [for (int i = pos.first * 9 + pos.second; i < 81; i++)]. *)
Definition cells_from (p : pos) : list pos :=
  (fun i => (Z.quot i 9, Z.rem i 9)) <$> seqZ (p.1 * 9 + p.2) (81 - (p.1 * 9 + p.2)).

Definition nextpos (b : grid) (p : pos) : outcome (option pos) := first_blank b (cells_from p).

(** [v] is a reference to the cell [p] of [b]. *)
Definition nextval (b : grid) (p : pos) : outcome (bool * grid) :=
  v ← get2 b p;
  b1 ← if v =? blank then set2 b p one else Ret b;
  v1 ← get2 b1 p;
  r ← first_legal b1 p v1 (Z.to_nat (beyond - v1));
  match r with
  | Some c => b2 ← set2 b1 p c; Ret (true, b2)
  | None => Ret (false, b1)
  end.

(** The inner loop and the [push] after it, on the board, the position and the
    stack. *)
Definition fill_step (st : grid * pos * list pos)
    : outcome (control (grid * pos * list pos) (grid * pos * list pos)) :=
  let '(b, p, s) := st in
  r ← nextval b p;
  let '(found, b1) := r in
  if found : bool then Ret (Break (b1, p, p :: s))
  else
    b2 ← set2 b1 p blank;
    match s with
    | [] => Undef EmptyTop
    | p' :: s' =>
        c ← get2 b2 p';
        b3 ← set2 b2 p' (c + 1);
        Ret (Continue (b3, p', s'))
    end.

Definition step (fuel : nat) (st : grid * pos * list pos)
    : outcome (control (grid * pos * list pos) (grid * list pos)) :=
  let '(b, p, s) := st in
  r ← nextpos b p;
  match r with
  | None => Ret (Break (b, s))
  | Some p' => st' ← while_loop fuel fill_step (b, p', s); Ret (Continue st')
  end.

(** The stack is a member of the object. *)
Definition solveSudoku (fuel : nat) (s : list pos) (b : grid) : outcome (grid * list pos) :=
  while_loop fuel (step fuel) (b, (0, 0), s).

End First.

(** ** 37-2.cpp *)

Module Second.

(** The two loops of [nextpos]. *)
Definition cells_from (size : Z) (p : pos) : list pos :=
  seqZ p.1 (size - p.1) ≫= fun i =>
    let y := if i =? p.1 then p.2 else 0 in (fun j => (i, j)) <$> seqZ y (size - y).

Definition nextpos (b : grid) (p : pos) : outcome (option pos) :=
  first_blank b (cells_from (zlen b) p).

Definition nextval (b : grid) (p : pos) : outcome (bool * grid) :=
  v ← get2 b p;
  let v := if v =? blank then one - 1 else v in
  r ← first_legal b p (v + 1) (Z.to_nat (beyond - (v + 1)));
  match r with
  | Some c => b1 ← set2 b p c; Ret (true, b1)
  | None => Ret (false, b)
  end.

Definition fill_step (st : grid * pos * list pos)
    : outcome (control (grid * pos * list pos) (grid * pos * list pos)) :=
  let '(b, p, s) := st in
  r ← nextval b p;
  let '(found, b1) := r in
  if found : bool then Ret (Break (b1, p, p :: s))
  else
    b2 ← set2 b1 p blank;
    match s with
    | [] => Undef EmptyTop
    | p' :: s' => Ret (Continue (b2, p', s'))
    end.

Definition step (fuel : nat) (st : grid * pos * list pos)
    : outcome (control (grid * pos * list pos) grid) :=
  let '(b, p, s) := st in
  r ← nextpos b p;
  match r with
  | None => Ret (Break b)
  | Some p' => st' ← while_loop fuel fill_step (b, p', s); Ret (Continue st')
  end.

Definition solveSudoku (fuel : nat) (b : grid) : outcome grid :=
  while_loop fuel (step fuel) (b, (0, 0), []).

End Second.

(** ** The reference *)

Definition all_cells : list pos := seqZ 0 9 ≫= fun i => (fun j => (i, j)) <$> seqZ 0 9.

Definition cell (b : grid) (p : pos) : option Z := b !! Z.to_nat p.1 ≫= fun row => row !! Z.to_nat p.2.

(** Nine rows of nine cells, each blank or a digit. *)
Definition board_ok (b : grid) : Prop :=
  length b = 9%nat /\ Forall (fun row => length row = 9%nat) b /\
  forall p c, p ∈ all_cells -> cell b p = Some c -> c = blank \/ one <= c < beyond.

(** Two cells of the same row, column or block. *)
Definition related (p q : pos) : Prop :=
  q <> p /\ (q.1 = p.1 \/ q.2 = p.2 \/ (q.1 / 3 = p.1 / 3 /\ q.2 / 3 = p.2 / 3)).

(** [b] completes [g]: it keeps the digits of [g], has no blank, and each cell
    that was blank differs from all cells of its row, column and block. *)
Definition completes (g b : grid) : Prop :=
  board_ok b /\
  (forall p, p ∈ all_cells -> cell g p <> Some blank -> cell b p = cell g p) /\
  (forall p, p ∈ all_cells -> cell b p <> Some blank) /\
  (forall p q, p ∈ all_cells -> q ∈ all_cells -> cell g p = Some blank -> related p q -> cell b q <> cell b p).

(** ** Cells *)

Definition in_board (p : pos) : Prop := 0 <= p.1 < 9 /\ 0 <= p.2 < 9.

Lemma all_cells_iff p : p ∈ all_cells <-> in_board p.
Proof.
  unfold all_cells. rewrite list_elem_of_bind. unfold in_board. destruct p as [x y]. cbn [fst snd]. split.
  - intros (i & Hp & Hi%elem_of_seqZ). apply list_elem_of_fmap in Hp as (j & [= -> ->] & Hj%elem_of_seqZ). lia.
  - intros [Hx Hy]. exists x. rewrite elem_of_seqZ, list_elem_of_fmap. split; [|lia].
    exists y. rewrite elem_of_seqZ. split; [done|lia].
Qed.

(** Peers are cells of the board, are not the cell itself, and are peers of
    each other. *)
Lemma peers_spec p q :
  p ∈ all_cells -> q ∈ peers p -> q ∈ all_cells /\ q <> p /\ p ∈ peers q.
Proof.
  assert (Forall (fun p => Forall (fun q => q ∈ all_cells /\ q <> p /\ p ∈ peers q) (peers p)) all_cells) as H.
  { apply (bool_decide_unpack _). by vm_compute. }
  intros Hp Hq. exact (proj1 (Forall_forall _ _) (proj1 (Forall_forall _ _) H p Hp) q Hq).
Qed.

#[local] Instance related_dec p q : Decision (related p q).
Proof. unfold related. apply _. Defined.

(** The loops of [legal] visit the related cells. *)
Lemma peers_related p q : p ∈ all_cells -> q ∈ all_cells -> q ∈ peers p <-> related p q.
Proof.
  assert (Forall (fun p => Forall (fun q => bool_decide (q ∈ peers p) = bool_decide (related p q)) all_cells) all_cells) as H.
  { apply (bool_decide_unpack _). by vm_compute. }
  intros Hp Hq. pose proof (proj1 (Forall_forall _ _) (proj1 (Forall_forall _ _) H p Hp) q Hq) as E. cbn beta in E.
  rewrite <- (bool_decide_eq_true (q ∈ peers p)), E. apply bool_decide_eq_true.
Qed.

(** Nine rows of nine cells. *)
Definition nine (b : grid) : Prop := length b = 9%nat /\ Forall (fun row => length row = 9%nat) b.

Definition put (b : grid) (p : pos) (c : Z) : grid :=
  alter (<[Z.to_nat p.2 := c]>) (Z.to_nat p.1) b.

Section Grids.
Context (b : grid).
Hypothesis (Hb : nine b).

Lemma nine_row p : in_board p -> exists row, b !! Z.to_nat p.1 = Some row /\ length row = 9%nat.
Proof using Hb.
  intros [H1 H2]. destruct Hb as [Hl HF].
  destruct (lookup_lt_is_Some_2 b (Z.to_nat p.1)) as [row Hrow]; [lia|].
  exists row. split; [done|]. exact (Forall_lookup_1 _ _ _ _ HF Hrow).
Qed.

Lemma get2_cell p : in_board p -> exists c, cell b p = Some c /\ get2 b p = Ret c.
Proof using Hb.
  intros Hp. destruct (nine_row p Hp) as (row & Hrow & Hlen). destruct Hp as [H1 H2].
  destruct (lookup_lt_is_Some_2 row (Z.to_nat p.2)) as [c Hc]; [lia|].
  exists c. unfold cell, get2. rewrite Hrow. split; [done|].
  rewrite (proj2 (vget_Ret b p.1 row)) by (split; [lia|done]). bind_ret.
  by rewrite (proj2 (vget_Ret row p.2 c)) by (split; [lia|done]).
Qed.

Lemma set2_put p c : in_board p -> set2 b p c = Ret (put b p c).
Proof using Hb.
  intros Hp. destruct (nine_row p Hp) as (row & Hrow & Hlen). destruct Hp as [H1 H2].
  unfold set2, put. rewrite (proj2 (vget_Ret b p.1 row)) by (split; [lia|done]). bind_ret.
  rewrite vset_in_range by len. bind_ret.
  destruct Hb as [Hl _]. rewrite vset_in_range by len. f_equal.
  rewrite (list_insert_alter b). apply list_alter_ext; [|done]. intros r Hr. congruence.
Qed.

Lemma put_nine p c : nine (put b p c).
Proof using Hb.
  destruct Hb as [Hl HF]. unfold put. split; [by rewrite length_alter|].
  apply Forall_lookup_2. intros i row. rewrite list_lookup_alter. destruct (decide _) as [->|].
  - intros (row' & E & ->)%fmap_Some_1. rewrite length_insert. exact (Forall_lookup_1 _ _ _ _ HF E).
  - apply (Forall_lookup_1 _ _ _ _ HF).
Qed.

Lemma cell_put_eq p c : in_board p -> cell (put b p c) p = Some c.
Proof using Hb.
  intros Hp. destruct (nine_row p Hp) as (row & Hrow & Hlen). destruct Hp as [H1 H2].
  unfold cell, put. rewrite list_lookup_alter_eq, Hrow. simpl. apply list_lookup_insert_eq. lia.
Qed.

Lemma cell_put_ne p q c : in_board p -> in_board q -> p <> q -> cell (put b p c) q = cell b q.
Proof using.
  clear Hb. destruct p as [x y], q as [x' y']. intros [H1 H2] [H3 H4] Hne. unfold cell, put. simpl in *.
  destruct (decide (x = x')) as [->|Hx].
  - rewrite list_lookup_alter_eq. destruct (b !! Z.to_nat x') as [row|]; [|done]. simpl.
    rewrite list_lookup_insert_ne; [done|]. intros E. apply Hne. f_equal. lia.
  - rewrite list_lookup_alter_ne; [done|]. lia.
Qed.
End Grids.

Lemma grid_eq b1 b2 :
  nine b1 -> nine b2 -> (forall p, in_board p -> cell b1 p = cell b2 p) -> b1 = b2.
Proof.
  intros [L1 F1] [L2 F2] H. apply (list_eq_same_length _ _ 9); [done|done|].
  intros i r1 r2 Hi E1 E2. pose proof (Forall_lookup_1 _ _ _ _ F1 E1) as R1.
  pose proof (Forall_lookup_1 _ _ _ _ F2 E2) as R2. simpl in R1, R2.
  apply (list_eq_same_length _ _ 9); [done|done|]. intros j x y Hj X Y.
  specialize (H (Z.of_nat i, Z.of_nat j)). unfold cell in H. simpl in H. rewrite !Nat2Z.id, E1, E2 in H.
  simpl in H. rewrite X, Y in H. assert (Some x = Some y) as [=] by (apply H; split; simpl; lia). done.
Qed.

Lemma put_twice b p c c' : put (put b p c) p c' = put b p c'.
Proof.
  unfold put. rewrite list_alter_alter_eq. apply list_alter_ext; [|done].
  intros row _. simpl. apply list_insert_insert_eq.
Qed.

(** ** Legal values *)

Lemma clash_spec b v cells :
  nine b -> (forall q, q ∈ cells -> in_board q) ->
  exists r, clash b v cells = Ret r /\ (r = true <-> exists q, q ∈ cells /\ cell b q = Some v).
Proof.
  intros Hb. induction cells as [|q cells IH]; intros Hin; simpl.
  - exists false. split; [done|]. split; [done|]. intros (q & Hq & _). by apply elem_of_nil in Hq.
  - destruct (get2_cell b Hb q) as (c & Hc & ->); [apply Hin; by left|]. bind_ret.
    destruct (Z.eqb_spec c v) as [->|Hne].
    + exists true. split; [done|]. split; [|done]. intros _. exists q. split; [by left|done].
    + destruct IH as (r & -> & Hr); [intros q' Hq'; apply Hin; by right|]. exists r. split; [done|].
      rewrite Hr. split; intros (q' & Hq' & E); exists q'.
      * split; [by right|done].
      * apply elem_of_cons in Hq' as [->|Hq']; [congruence|done].
Qed.

Lemma legal_spec b p v :
  nine b -> p ∈ all_cells ->
  exists r, legal b p v = Ret r /\ (r = true <-> forall q, q ∈ peers p -> cell b q <> Some v).
Proof.
  intros Hb Hp. unfold legal. destruct (clash_spec b v (peers p) Hb) as (r & -> & Hr).
  { intros q Hq. apply all_cells_iff. by apply (peers_spec p q Hp). }
  eexists. split; [done|]. rewrite negb_true_iff, <- not_true_iff_false, Hr. split.
  - intros Hno q Hq E. apply Hno. eauto.
  - intros Hall (q & Hq & E). by apply (Hall q).
Qed.

(** ** The next candidate of a cell *)

(** The digit [x] may be put into cell [p]. *)
Definition free (b : grid) (p : pos) (x : Z) : Prop := forall q, q ∈ peers p -> cell b q <> Some (x + one).

Lemma free_put b p v x : p ∈ all_cells -> free (put b p v) p x <-> free b p x.
Proof.
  intros Hp. unfold free. split; intros H q Hq; specialize (H q Hq);
    destruct (peers_spec p q Hp Hq) as (Hqa & Hne & _);
    (rewrite cell_put_ne in * by (try apply all_cells_iff; done)); done.
Qed.

(** The least digit above [x] that may be put into the cell, if any. *)
Definition candidate (b : grid) (p : pos) (x : Z) (r : option Z) : Prop :=
  match r with
  | Some c => x < c < 9 /\ free b p c /\ forall e, x < e < c -> ~ free b p e
  | None => forall e, x < e < 9 -> ~ free b p e
  end.

Lemma first_legal_candidate b p v x :
  nine b -> p ∈ all_cells -> -1 <= x < 9 ->
  exists r, first_legal (put b p v) p (x + 1 + one) (Z.to_nat (beyond - (x + 1 + one))) =
    Ret ((fun c => c + one) <$> r) /\ candidate b p x r.
Proof.
  intros Hb Hp Hx. unfold beyond. replace (58 - (x + 1 + one)) with (8 - x) by (unfold one; lia).
  remember (Z.to_nat (8 - x)) as n eqn:En. revert x Hx En. induction n as [|n IH]; intros x Hx En; simpl.
  - exists None. split; [done|]. intros e He. lia.
  - destruct (legal_spec (put b p v) p (x + 1 + one) (put_nine b Hb p v) Hp) as (r & -> & Hr).
    bind_ret. fold (free (put b p v) p (x + 1)) in Hr. rewrite free_put in Hr by done.
    destruct r.
    + exists (Some (x + 1)). split; [done|]. split; [lia|]. split; [by apply Hr|lia].
    + destruct (IH (x + 1)) as (r & E & Hc); [lia|lia|]. exists r. split.
      { rewrite <- E. f_equal. lia. }
      assert (~ free b p (x + 1)) as Hno by (intros Hf; apply Hr in Hf; done). destruct r as [c|].
      * destruct Hc as (H1 & H2 & H3). split; [lia|]. split; [done|]. intros e He.
        destruct (decide (e = x + 1)) as [->|]; [done|]. apply H3. lia.
      * intros e He. destruct (decide (e = x + 1)) as [->|]; [done|]. apply Hc. lia.
Qed.

(** What the cell holds when [x] is the last digit tried ([-1] for none). *)
Definition first_value (x : Z) : Z := if x =? -1 then blank else x + 1 + one.
Definition second_value (x : Z) : Z := if x =? -1 then blank else x + one.

Section NextVal.
Context (b : grid) (p : pos) (x : Z).
Hypothesis (Hb : nine b) (Hp : p ∈ all_cells) (Hx : -1 <= x < 9).

Lemma get2_put v : get2 (put b p v) p = Ret v.
Proof using Hb Hp.
  apply all_cells_iff in Hp. destruct (get2_cell (put b p v) (put_nine b Hb p v) p Hp) as (c & Hc & ->).
  rewrite cell_put_eq in Hc by done. congruence.
Qed.

Lemma set2_put_put v c : set2 (put b p v) p c = Ret (put b p c).
Proof using Hb Hp.
  apply all_cells_iff in Hp. rewrite set2_put by (try apply put_nine; done). by rewrite put_twice.
Qed.

Lemma second_nextval :
  exists r, candidate b p x r /\
    Second.nextval (put b p (second_value x)) p =
      Ret (match r with Some c => (true, put b p (c + one)) | None => (false, put b p (second_value x)) end).
Proof using Hb Hp Hx.
  unfold Second.nextval. rewrite get2_put. bind_ret.
  assert ((if second_value x =? blank then one - 1 else second_value x) = x + one) as ->.
  { unfold second_value, one, blank. destruct (Z.eqb_spec x (-1)) as [->|]; [done|].
    destruct (Z.eqb_spec (x + 49) 46); lia. }
  replace (x + one + 1) with (x + 1 + one) by lia.
  destruct (first_legal_candidate b p (second_value x) x Hb Hp Hx) as (r & -> & Hr).
  bind_ret. exists r. split; [done|]. destruct r as [c|]; [|done]. simpl.
  by rewrite set2_put_put.
Qed.

Lemma first_nextval :
  exists r, candidate b p x r /\
    First.nextval (put b p (first_value x)) p =
      Ret (match r with Some c => (true, put b p (c + one)) | None => (false, put b p (x + 1 + one)) end).
Proof using Hb Hp Hx.
  unfold First.nextval. rewrite get2_put. bind_ret.
  assert ((if first_value x =? blank then set2 (put b p (first_value x)) p one
           else Ret (put b p (first_value x))) = Ret (put b p (x + 1 + one))) as ->.
  { unfold first_value. destruct (Z.eqb_spec x (-1)) as [->|].
    - rewrite Z.eqb_refl. by rewrite set2_put_put.
    - by rewrite (proj2 (Z.eqb_neq _ _)) by (unfold one, blank; lia). }
  bind_ret. rewrite get2_put. bind_ret.
  destruct (first_legal_candidate b p (x + 1 + one) x Hb Hp Hx) as (r & -> & Hr).
  bind_ret. exists r. split; [done|]. destruct r as [c|]; [|done]. simpl.
  by rewrite set2_put_put.
Qed.
End NextVal.

(** ** Filling the blank cells *)

Fixpoint fill_cells (b : grid) (ps : list pos) (d : list Z) : grid :=
  match ps, d with
  | p :: ps, x :: d => put (fill_cells b ps d) p (x + one)
  | _, _ => b
  end.

Lemma fill_cells_nine b ps d : nine b -> nine (fill_cells b ps d).
Proof.
  intros Hb. revert d. induction ps as [|p ps IH]; intros [|x d]; simpl; try done. by apply put_nine.
Qed.

Lemma cell_fill_in b ps d k p x :
  nine b -> NoDup ps -> Forall in_board ps -> ps !! k = Some p -> d !! k = Some x ->
  cell (fill_cells b ps d) p = Some (x + one).
Proof.
  intros Hb Hnd HF. revert d k. induction ps as [|p0 ps IH]; intros d k Hp Hx; [done|].
  apply NoDup_cons in Hnd as [Hn Hnd]. apply Forall_cons in HF as [Hp0 HF].
  destruct d as [|x0 d]; [done|]. simpl. destruct k as [|k]; simplify_eq/=.
  - apply cell_put_eq; [by apply fill_cells_nine|done].
  - rewrite cell_put_ne; [by eapply IH|done| |].
    + exact (Forall_lookup_1 _ _ _ _ HF Hp).
    + intros ->. by apply Hn, (list_elem_of_lookup_2 _ k).
Qed.

Lemma cell_fill_out b ps d p :
  Forall in_board ps -> in_board p -> p ∉ take (length d) ps -> cell (fill_cells b ps d) p = cell b p.
Proof.
  intros HF Hp. revert d. induction ps as [|p0 ps IH]; intros [|x d] Hn; simpl in *; try done.
  apply Forall_cons in HF as [Hp0 HF]. apply not_elem_of_cons in Hn as [Hne Hn].
  rewrite cell_put_ne by done. by apply IH.
Qed.

(** ** Acceptable fillings of a board *)

Section Board.
Context (g : grid).
Hypothesis (Hg : board_ok g).

Definition blanks : list pos := filter (fun p => cell g p = Some blank) all_cells.

Definition fill (d : list Z) : grid := fill_cells g blanks d.

(** Every filled cell differs from its peers. *)
Definition ok (d : list Z) : Prop :=
  Forall (fun x => 0 <= x < Z.of_nat 9) d /\
  Forall (fun px => Forall (fun q => cell (fill d) q <> Some (px.2 + one)) (peers px.1)) (zip blanks d).

Lemma g_nine : nine g.
Proof using Hg. destruct Hg as (H1 & H2 & _). done. Qed.

Lemma blanks_NoDup : NoDup blanks.
Proof. apply NoDup_filter. apply (bool_decide_unpack _). by vm_compute. Qed.

Lemma blanks_iff p : p ∈ blanks <-> p ∈ all_cells /\ cell g p = Some blank.
Proof. unfold blanks. rewrite list_elem_of_filter. tauto. Qed.

Lemma blanks_cell k p : blanks !! k = Some p -> p ∈ all_cells.
Proof. intros Hp%list_elem_of_lookup_2. by apply blanks_iff in Hp as [Hp _]. Qed.

Lemma blanks_board : Forall in_board blanks.
Proof. apply Forall_forall. intros p [Hp _]%blanks_iff. by apply all_cells_iff. Qed.

Lemma fill_nine d : nine (fill d).
Proof using Hg. apply fill_cells_nine, g_nine. Qed.

Lemma fill_in d k p x : blanks !! k = Some p -> d !! k = Some x -> cell (fill d) p = Some (x + one).
Proof using Hg. apply cell_fill_in; [apply g_nine|apply blanks_NoDup|apply blanks_board]. Qed.

Lemma fill_out d p : in_board p -> p ∉ take (length d) blanks -> cell (fill d) p = cell g p.
Proof. apply cell_fill_out, blanks_board. Qed.

(** What a cell holds: a new digit, or what the board gave. *)
Lemma fill_cases d p :
  in_board p ->
  (exists k x, blanks !! k = Some p /\ d !! k = Some x /\ cell (fill d) p = Some (x + one)) \/
  cell (fill d) p = cell g p /\ forall k, blanks !! k = Some p -> d !! k = None.
Proof using Hg.
  intros Hp. destruct (decide (p ∈ take (length d) blanks)) as [Hin|Hout].
  - left. apply list_elem_of_lookup_1 in Hin as (k & Hk). apply lookup_take_Some in Hk as [Hk Hlt].
    destruct (lookup_lt_is_Some_2 d k Hlt) as [x Hx]. exists k, x. split; [done|]. split; [done|].
    by eapply fill_in.
  - right. split; [by apply fill_out|]. intros k Hk. apply lookup_ge_None_2.
    destruct (decide (length d <= k)%nat) as [|Hlt]; [done|]. exfalso. apply Hout.
    apply (list_elem_of_lookup_2 _ k). rewrite lookup_take_lt by lia. done.
Qed.

(** Filling more cells keeps the digits. *)
Lemma fill_more d d' q c :
  in_board q -> c <> blank -> (forall k x, d !! k = Some x -> d' !! k = Some x) ->
  cell (fill d) q = Some c -> cell (fill d') q = Some c.
Proof using Hg.
  intros Hq Hc Hsub E. destruct (fill_cases d q Hq) as [(k & x & Hk & Hx & E')|[E' Hno]].
  - rewrite E' in E. rewrite <- E. by eapply fill_in, Hsub.
  - rewrite E' in E. destruct (fill_cases d' q Hq) as [(k & x & Hk & Hx & E2)|[E2 _]]; [|congruence].
    exfalso. apply list_elem_of_lookup_2 in Hk. apply blanks_iff in Hk as [_ Hk]. congruence.
Qed.

Lemma ok_iff d :
  ok d <-> digits 9 d /\ forall k p x q, blanks !! k = Some p -> d !! k = Some x -> q ∈ peers p ->
    cell (fill d) q <> Some (x + one).
Proof.
  unfold ok. split; intros [Hd H]; (split; [done|]).
  - intros k p x q Hp Hx Hq. rewrite Forall_lookup in H.
    specialize (H k (p, x)). rewrite Forall_forall in H. apply H; [|done].
    apply lookup_zip_with_Some. eauto.
  - apply Forall_lookup. intros k [p x] Hk. apply lookup_zip_with_Some in Hk as (p' & x' & [= <- <-] & Hp & Hx).
    apply Forall_forall. intros q Hq. by apply (H k p x q).
Qed.

#[local] Instance ok_pruning : Pruning ok.
Proof using Hg.
  split; [intros d; apply _|]. intros d j [Hd H]%ok_iff. apply ok_iff. split; [by apply Forall_take|].
  intros k p x q Hp Hx Hq E. apply lookup_take_Some in Hx as [Hx Hlt].
  pose proof (Forall_lookup_1 _ _ _ _ Hd Hx) as Hxd. simpl in Hxd.
  apply (H k p x q Hp Hx Hq). apply (fill_more (take j d)); [|unfold one, blank; lia| |done].
  - apply all_cells_iff. by apply (peers_spec p q (blanks_cell _ _ Hp)).
  - intros k' x'. rewrite lookup_take_Some. tauto.
Defined.
Lemma fill_snoc d x p :
  blanks !! length d = Some p -> fill (d ++ [x]) = put (fill d) p (x + one).
Proof using Hg.
  intros Hp. assert (in_board p) as Hpb by exact (Forall_lookup_1 _ _ _ _ blanks_board Hp).
  apply grid_eq; [apply fill_nine|apply put_nine, fill_nine|]. intros q Hq.
  destruct (decide (q = p)) as [->|Hne].
  - rewrite cell_put_eq by (try done; apply fill_nine).
    apply (fill_in _ (length d)); [done|]. by rewrite lookup_app_r, Nat.sub_diag by done.
  - rewrite cell_put_ne by done. destruct (fill_cases d q Hq) as [(k & y & Hk & Hy & E)|[E Hno]]; rewrite E.
    + apply (fill_in _ k); [done|]. by apply lookup_app_l_Some.
    + apply fill_out; [done|]. rewrite length_app, Nat.add_1_r, (take_S_r _ _ _ Hp), elem_of_snoc.
      intros [(k & Hk)%list_elem_of_lookup_1|?]; [|done]. apply lookup_take_Some in Hk as [Hk Hlt].
      specialize (Hno k Hk). apply lookup_ge_None in Hno. lia.
Qed.

Lemma ok_snoc d x p :
  blanks !! length d = Some p -> ok (d ++ [x]) <-> ok d /\ 0 <= x < 9 /\ free (fill d) p x.
Proof using Hg.
  intros Hp. assert (p ∈ all_cells) as Hpa by (by eapply blanks_cell).
  assert (forall q, q ∈ peers p -> cell (fill (d ++ [x])) q = cell (fill d) q) as Hsame.
  { intros q Hq. destruct (peers_spec p q Hpa Hq) as (Hqa & Hne & _).
    rewrite (fill_snoc d x p Hp), cell_put_ne; [done|by apply all_cells_iff|by apply all_cells_iff|done]. }
  split.
  - intros H. split; [|split].
    + rewrite <- (take_app_length d [x]). by apply pruning_prefix.
    + apply ok_iff in H as [Hd _]. apply Forall_app in Hd as [_ [Hx _]%Forall_cons_1]. lia.
    + intros q Hq. rewrite <- Hsame by done. apply ok_iff in H as [_ H].
      apply (H (length d) p x q Hp); [|done]. by rewrite lookup_app_r, Nat.sub_diag by done.
  - intros (Hok & Hx & Hf). apply ok_iff in Hok as [Hd H]. apply ok_iff. split.
    { apply Forall_app. split; [done|]. constructor; [lia|constructor]. }
    intros k p' x' q Hp' Hx' Hq. apply lookup_snoc_Some in Hx' as [[Hlt Hx']|[-> <-]].
    + assert (p' ∈ all_cells) as Hpa' by (by eapply blanks_cell).
      destruct (peers_spec p' q Hpa' Hq) as (Hqa & Hne & Hsym).
      destruct (decide (q = p)) as [->|Hqp].
      * rewrite (fill_snoc d x p Hp), cell_put_eq by (by apply fill_nine || by apply all_cells_iff).
        intros [= E]. apply (Hf p' Hsym). rewrite (fill_in d k p' x') by done. f_equal. lia.
      * rewrite (fill_snoc d x p Hp), cell_put_ne; [by apply (H k p' x' q)|by apply all_cells_iff|by apply all_cells_iff|done].
    + assert (p' = p) as -> by congruence. rewrite Hsame by done. by apply Hf.
Qed.
(** ** Going through the candidates *)

Local Abbreviation m := (length blanks).
Local Abbreviation N := (Z.of_nat 9).

(** The number of the first filling that begins with [w]. *)
Definition start (w : list Z) : Z := num 9 w * N ^ Z.of_nat (m - length w).

Lemma start_snoc w x :
  (length w < m)%nat -> start (w ++ [x]) = (num 9 w * 9 + x) * N ^ Z.of_nat (m - S (length w)).
Proof using. clear Hg. intros Hw. unfold start. by rewrite num_snoc, length_app, Nat.add_1_r. Qed.

Lemma frontier_snoc w x :
  (length w < m)%nat -> frontier 9 m (w ++ [x]) = (num 9 w * 9 + x + 1) * N ^ Z.of_nat (m - S (length w)).
Proof using. clear Hg. intros Hw. unfold frontier. by rewrite num_snoc, length_app, Nat.add_1_r. Qed.

Lemma power_step (w : list Z) :
  (length w < m)%nat -> N ^ Z.of_nat (m - length w) = N ^ Z.of_nat (m - S (length w)) * 9.
Proof using. clear Hg. intros Hw. replace (m - length w)%nat with (S (m - S (length w))) by lia. apply pow_S. Qed.

(** Fillings that continue [w] with an impossible digit are no solutions. *)
Lemma skip_range w x k :
  digits 9 w -> (length w < m)%nat -> -1 <= x -> x + 1 + Z.of_nat k <= 9 ->
  (forall e, x < e < x + 1 + Z.of_nat k -> ~ ok (w ++ [e])) ->
  solutions 9 m ok ((num 9 w * 9 + (x + 1 + Z.of_nat k)) * N ^ Z.of_nat (m - S (length w))) =
  solutions 9 m ok (frontier 9 m (w ++ [x])).
Proof using Hg.
  intros Hd Hw Hx. induction k as [|k IH]; intros Hk Hno.
  - rewrite frontier_snoc by done. f_equal. lia.
  - rewrite <- IH; [|lia|intros e He; apply Hno; lia]. set (c := x + 1 + Z.of_nat k).
    destruct (solutions_skip 9 m ok ltac:(lia) (w ++ [c]) (replicate (m - S (length w)) 0)) as [_ E].
    + split; [rewrite !length_app, length_replicate; simpl; lia|].
      apply Forall_app. split; [|apply Forall_replicate; lia].
      apply Forall_app. split; [done|]. constructor; [unfold c; lia|constructor].
    + apply Hno. unfold c. lia.
    + rewrite (num_app 9 (w ++ [c])), num_zeros, length_replicate, num_snoc, Z.add_0_r in E.
      change (Z.of_nat 9) with 9 in *. rewrite <- E. f_equal. unfold c. lia.
Qed.

Lemma candidate_skips w x p r :
  ok w -> blanks !! length w = Some p -> -1 <= x < 9 -> candidate (fill w) p x r ->
  match r with
  | Some c => ok (w ++ [c]) /\ solutions 9 m ok (start (w ++ [c])) = solutions 9 m ok (frontier 9 m (w ++ [x])) /\
      frontier 9 m (w ++ [x]) <= start (w ++ [c])
  | None => solutions 9 m ok (frontier 9 m w) = solutions 9 m ok (frontier 9 m (w ++ [x])) /\
      frontier 9 m (w ++ [x]) <= frontier 9 m w
  end.
Proof using Hg.
  intros Hok Hp Hx Hc. pose proof (lookup_lt_Some _ _ _ Hp) as Hw.
  assert (digits 9 w) as Hd by (by apply ok_iff in Hok as [Hd _]).
  pose proof (pow_pos 9 ltac:(lia) (m - S (length w))) as Hpow.
  assert (forall e, ~ free (fill w) p e -> ~ ok (w ++ [e])) as Hnok.
  { intros e Hf H. apply (ok_snoc w e p Hp) in H as (_ & _ & H). done. }
  destruct r as [c|].
  - destruct Hc as (Hxc & Hf & Hno). split; [apply (ok_snoc w c p Hp); split; [done|]; split; [lia|done]|].
    rewrite start_snoc, frontier_snoc by done. rewrite <- frontier_snoc by done. split.
    + rewrite <- (skip_range w x (Z.to_nat (c - x - 1))) by (try done; try lia; intros e He; apply Hnok, Hno; lia).
      f_equal. f_equal. lia.
    + rewrite frontier_snoc by done. nia.
  - split.
    + rewrite <- (skip_range w x (Z.to_nat (8 - x))) by (try done; try lia; intros e He; apply Hnok, Hc; lia).
      unfold frontier. rewrite power_step by done. f_equal. rewrite Z2Nat.id by lia. ring.
    + rewrite frontier_snoc by done. unfold frontier. rewrite power_step by done. nia.
Qed.
(** ** The inner loop *)

Lemma put_blank w p : blanks !! length w = Some p -> put (fill w) p blank = fill w.
Proof using Hg.
  intros Hp. pose proof (blanks_cell _ _ Hp) as Hpa. apply all_cells_iff in Hpa.
  apply grid_eq; [apply put_nine, fill_nine|apply fill_nine|]. intros q Hq.
  destruct (decide (p = q)) as [<-|Hne]; [|by apply cell_put_ne].
  rewrite cell_put_eq by (done || apply fill_nine). rewrite fill_out; [|done|].
  - apply list_elem_of_lookup_2, blanks_iff in Hp as [_ ->]. done.
  - intros (k & Hk)%list_elem_of_lookup_1. apply lookup_take_Some in Hk as [Hk Hlt].
    pose proof (NoDup_lookup _ _ _ _ blanks_NoDup Hk Hp). lia.
Qed.

(** The stack after the cells of [w] are filled. *)
Definition stack (w : list Z) : list pos := reverse (take (length w) blanks).

Lemma stack_snoc w x p : blanks !! length w = Some p -> stack (w ++ [x]) = p :: stack w.
Proof using.
  clear Hg. intros Hp. unfold stack. by rewrite length_app, Nat.add_1_r, (take_S_r _ _ _ Hp), reverse_snoc.
Qed.

(** What a round of the inner loop does, in terms of the digits [w] of the
    cells on the stack and the last digit [x] tried in the current cell. *)
Definition step_right (value : Z -> Z)
    (step : grid * pos * list pos -> outcome (control (grid * pos * list pos) (grid * pos * list pos))) : Prop :=
  forall w x p, ok w -> blanks !! length w = Some p -> -1 <= x < 9 ->
  exists r, candidate (fill w) p x r /\
    match r with
    | Some c => step (put (fill w) p (value x), p, stack w) = Ret (Break (fill (w ++ [c]), p, stack (w ++ [c])))
    | None =>
        (w = [] -> step (put (fill w) p (value x), p, stack w) = Undef EmptyTop) /\
        (forall w' x' p', w = w' ++ [x'] -> blanks !! length w' = Some p' ->
           step (put (fill w) p (value x), p, stack w) =
           Ret (Continue (put (fill w') p' (value x'), p', stack w')))
    end.

Lemma second_step_right : step_right second_value Second.fill_step.
Proof using Hg.
  intros w x p Hok Hp Hx. pose proof (blanks_cell _ _ Hp) as Hpa.
  destruct (second_nextval (fill w) p x (fill_nine w) Hpa Hx) as (r & Hr & E).
  exists r. split; [done|]. unfold Second.fill_step. rewrite E. bind_ret.
  destruct r as [c|].
  - by rewrite (fill_snoc w c p Hp), (stack_snoc w c p Hp).
  - rewrite set2_put_put by (done || apply fill_nine). bind_ret. rewrite put_blank by done.
    split; [by intros ->|]. intros w' x' p' -> Hp'. rewrite (stack_snoc w' x' p' Hp'), (fill_snoc w' x' p' Hp').
    apply ok_iff in Hok as [Hd _]. apply Forall_app in Hd as [_ [Hx' _]%Forall_cons_1].
    unfold second_value. by rewrite (proj2 (Z.eqb_neq x' (-1))) by lia.
Qed.

Lemma first_step_right : step_right first_value First.fill_step.
Proof using Hg.
  intros w x p Hok Hp Hx. pose proof (blanks_cell _ _ Hp) as Hpa.
  destruct (first_nextval (fill w) p x (fill_nine w) Hpa Hx) as (r & Hr & E).
  exists r. split; [done|]. unfold First.fill_step. rewrite E. bind_ret.
  destruct r as [c|].
  - by rewrite (fill_snoc w c p Hp), (stack_snoc w c p Hp).
  - rewrite set2_put_put by (done || apply fill_nine). bind_ret. rewrite put_blank by done.
    split; [by intros ->|]. intros w' x' p' -> Hp'. rewrite (stack_snoc w' x' p' Hp'), (fill_snoc w' x' p' Hp').
    pose proof (blanks_cell _ _ Hp') as Hpa'. rewrite get2_put by (done || apply fill_nine).
    bind_ret. rewrite set2_put_put by (done || apply fill_nine). bind_ret.
    apply ok_iff in Hok as [Hd _]. apply Forall_app in Hd as [_ [Hx' _]%Forall_cons_1].
    unfold first_value. rewrite (proj2 (Z.eqb_neq x' (-1))) by lia.
    by replace (x' + one + 1) with (x' + 1 + one) by lia.
Qed.

Section Inner.
Context (value : Z -> Z) (step : grid * pos * list pos -> outcome (control (grid * pos * list pos) (grid * pos * list pos))).
Hypothesis (Hright : step_right value step) (Hvalue : value (-1) = blank).

Definition trying (w0 : list Z) (st : grid * pos * list pos) : Prop :=
  exists w x p, st = (put (fill w) p (value x), p, stack w) /\ ok w /\ blanks !! length w = Some p /\
    -1 <= x < 9 /\ solutions 9 m ok (frontier 9 m (w ++ [x])) = [] /\
    (w = w0 /\ x = -1 \/ start w0 < frontier 9 m (w ++ [x])).

(** The cells of [w] are filled, and no filling before [w] is a solution. *)
Definition filled (w : list Z) (st : grid * pos * list pos) : Prop :=
  exists p, st = (fill w, p, stack w) /\ ok w /\ (length w <= m)%nat /\
    solutions 9 m ok (start w) = [] /\
    (w = [] /\ p = (0, 0) \/ exists w' x, w = w' ++ [x] /\ blanks !! length w' = Some p).

Lemma inner_round w0 st :
  trying w0 st ->
  returns (step st) (fun c => match c with
    | Continue st' => exists k', (k' < length st.2)%nat /\ trying w0 st' /\ length st'.2 = k'
    | Break st' => exists w, filled w st' /\ start w0 <= start w /\ (length w = S (length w0) \/ start w0 < start w)
    end) \/ step st = Undef EmptyTop /\ solutions 9 m ok (total 9 m) = [].
Proof using Hg Hright Hvalue.
  intros (w & x & p & -> & Hok & Hp & Hx & Hsol & HF). pose proof (lookup_lt_Some _ _ _ Hp) as Hw.
  destruct (Hright w x p Hok Hp Hx) as (r & Hr & E).
  pose proof (candidate_skips w x p r Hok Hp Hx Hr) as Hs.
  assert (start w0 <= frontier 9 m (w ++ [x])) as HF0.
  { destruct HF as [[-> ->]|?]; [|lia]. rewrite frontier_snoc by done. unfold start. rewrite power_step by done. apply Z.eq_le_incl. ring. }
  destruct r as [c|].
  - left. rewrite E. apply returns_ret. destruct Hs as (Hokc & Es & Hle). exists (w ++ [c]). split; [|split; [lia|]].
    + exists p. split; [done|]. split; [done|]. split; [len|].
      split; [congruence|]. right. eauto.
    + destruct HF as [[-> _]|?]; [left; len|right; lia].
  - destruct Hs as [Es Hle]. destruct E as [E0 E1].
    destruct w as [|x' w' _] using rev_ind.
    + right. split; [by apply E0|]. rewrite <- Hsol, <- Es. f_equal.
      unfold frontier, total. change (num 9 []) with 0. cbn [length]. rewrite Nat.sub_0_r. lia.
    + left. rewrite length_app in Hw. simpl in Hw.
      destruct (lookup_lt_is_Some_2 blanks (length w')) as [p' Hp']; [lia|].
      rewrite (E1 w' x' p') by done. apply returns_ret.
      assert (ok w' /\ 0 <= x' < 9) as [Hok' Hx'] by (apply (ok_snoc w' x' p' Hp') in Hok; tauto).
      eexists. split; [|split; [|done]]; [rewrite (stack_snoc w' x' p' Hp'); simpl; lia|].
      exists w', x', p'. split; [done|]. split; [done|]. split; [done|]. split; [lia|]. split; [congruence|].
      right. destruct HF as [[<- ->]|?]; [|lia]. rewrite frontier_snoc by lia.
      rewrite start_snoc by lia. pose proof (pow_pos 9 ltac:(lia) (m - S (length w'))). lia.
Qed.

Lemma inner_loop w p fuel :
  ok w -> blanks !! length w = Some p -> solutions 9 m ok (start w) = [] -> (length w < fuel)%nat ->
  returns (while_loop fuel step (fill w, p, stack w)) (fun st' =>
    exists w', filled w' st' /\ start w <= start w' /\ (length w' = S (length w) \/ start w < start w')) \/
  while_loop fuel step (fill w, p, stack w) = Undef EmptyTop /\ solutions 9 m ok (total 9 m) = [].
Proof using Hg Hright Hvalue.
  intros Hok Hp Hsol Hf. pose proof (lookup_lt_Some _ _ _ Hp) as Hw.
  apply (while_loop_either (fun k st => trying w st /\ length st.2 = k) _ _ _ _ _ (length (stack w)));
    [split; [|done]|intros k st [Ht <-]; by apply inner_round|].
  - exists w, (-1), p. rewrite Hvalue, put_blank by done. split; [done|]. split; [done|]. split; [done|].
    split; [lia|]. split; [|by left]. rewrite <- Hsol. f_equal. rewrite frontier_snoc by done.
    unfold start. rewrite power_step by done. ring.
  - unfold stack. rewrite length_reverse, length_take. lia.
Qed.
End Inner.
(** ** The next position *)

Lemma first_blank_spec b cells :
  nine b -> Forall in_board cells ->
  first_blank b cells = Ret (head (filter (fun p => cell b p = Some blank) cells)).
Proof using.
  clear Hg. intros Hb HF. induction HF as [|q cells Hq HF IH]; [done|]. simpl.
  destruct (get2_cell b Hb q Hq) as (c & Hc & ->). bind_ret.
  destruct (Z.eqb_spec c blank) as [->|Hne].
  - by rewrite filter_cons_True.
  - rewrite filter_cons_False by congruence. apply IH.
Qed.

Definition index (p : pos) : nat := Z.to_nat (p.1 * 9 + p.2).

(** Both ways to walk through the board from a cell on. *)
Lemma cells_from_spec p :
  p ∈ all_cells -> exists A B, all_cells = A ++ p :: B /\
    First.cells_from p = p :: B /\ Second.cells_from 9 p = p :: B.
Proof using.
  clear Hg. intros Hp.
  assert (Forall (fun p => all_cells = take (index p) all_cells ++ p :: drop (S (index p)) all_cells /\
    First.cells_from p = p :: drop (S (index p)) all_cells /\
    Second.cells_from 9 p = p :: drop (S (index p)) all_cells) all_cells) as H.
  { apply (bool_decide_unpack _). by vm_compute. }
  rewrite Forall_forall in H. specialize (H p Hp). eauto.
Qed.

Lemma filter_same {A} (P Q : A -> Prop) `{!forall x, Decision (P x), !forall x, Decision (Q x)} (l : list A) :
  (forall x, x ∈ l -> P x <-> Q x) -> filter P l = filter Q l.
Proof using.
  clear Hg. induction l as [|x l IH]; intros Hiff; [done|].
  assert (filter P l = filter Q l) as E by (apply IH; intros y Hy; apply Hiff; by right).
  assert (P x <-> Q x) as Hx by (apply Hiff; by left). destruct (decide (P x)) as [HP|HP].
  - rewrite !filter_cons_True by tauto. by rewrite E.
  - rewrite !filter_cons_False by tauto. done.
Qed.

Lemma fill_nil : fill [] = g.
Proof using. clear Hg. unfold fill. by destruct blanks. Qed.

Lemma blanks_after w x p A B :
  ok (w ++ [x]) -> blanks !! length w = Some p -> all_cells = A ++ p :: B ->
  head (filter (fun q => cell (fill (w ++ [x])) q = Some blank) (p :: B)) = blanks !! S (length w).
Proof using Hg.
  intros Hok Hp EAB. apply ok_iff in Hok as [Hd _]. pose proof Hd as Hd'.
  apply Forall_app in Hd' as [_ [Hx _]%Forall_cons_1].
  assert (NoDup all_cells) as Hnd by (apply (bool_decide_unpack _); by vm_compute).
  assert (cell g p = Some blank) as Hgp by (apply list_elem_of_lookup_2, blanks_iff in Hp; tauto).
  set (fA := filter (fun q => cell g q = Some blank) A). set (fB := filter (fun q => cell g q = Some blank) B).
  assert (blanks = fA ++ p :: fB) as EB.
  { unfold blanks. rewrite EAB, filter_app, filter_cons_True by done. done. }
  assert (length fA = length w) as HfA.
  { apply (NoDup_lookup blanks _ _ p blanks_NoDup); [|done]. by rewrite EB, lookup_app_r, Nat.sub_diag. }
  rewrite filter_cons_False.
  2: { rewrite (fill_in _ (length w) p x) by (done || by rewrite lookup_app_r, Nat.sub_diag).
       unfold one, blank. intros [=]. lia. }
  rewrite (filter_same _ (fun q => cell g q = Some blank)).
  - fold fB. rewrite EB, lookup_app_r by lia. rewrite HfA. replace (S (length w) - length w)%nat with 1%nat by lia.
    simpl. apply head_lookup.
  - intros q HqB. assert (q ∈ all_cells) as Hqa by (rewrite EAB; apply elem_of_app; right; by right).
    destruct (fill_cases (w ++ [x]) q ltac:(by apply all_cells_iff)) as [(k & y & Hk & Hy & E)|[E _]]; rewrite E; [|done].
    pose proof (Forall_lookup_1 _ _ _ _ Hd Hy) as Hyd. simpl in Hyd. split.
    { intros [= Ey]. unfold one, blank in Ey. lia. }
    intros _. exfalso. apply lookup_lt_Some in Hy. rewrite length_app in Hy. simpl in Hy.
    assert (q ∈ A ++ [p]) as HqA.
    { rewrite EB in Hk. apply lookup_app_Some in Hk as [Hk|[Hge Hk]].
      - apply list_elem_of_lookup_2, list_elem_of_filter in Hk as [_ Hk]. apply elem_of_app. by left.
      - replace (k - length fA)%nat with 0%nat in Hk by lia. injection Hk as <-. apply elem_of_app. right. by left. }
    rewrite EAB in Hnd. change (A ++ p :: B) with (A ++ [p] ++ B) in Hnd. rewrite app_assoc in Hnd.
    apply NoDup_app in Hnd as (_ & Hdis & _). by apply (Hdis q).
Qed.

Lemma nextpos_spec w st :
  filled w st -> First.nextpos st.1.1 st.1.2 = Ret (blanks !! length w) /\
    Second.nextpos st.1.1 st.1.2 = Ret (blanks !! length w).
Proof using Hg.
  intros (p & -> & Hok & Hl & _ & Hpos). cbn [fst snd]. unfold First.nextpos, Second.nextpos.
  assert (p ∈ all_cells) as Hpa.
  { destruct Hpos as [[_ ->]|(w' & x & -> & Hp)]; [apply (bool_decide_unpack _); by vm_compute|by eapply blanks_cell]. }
  assert (zlen (fill w) = 9) as -> by (unfold zlen; destruct (fill_nine w) as [-> _]; done).
  destruct (cells_from_spec p Hpa) as (A & B & EAB & -> & ->).
  assert (Forall in_board (p :: B)) as HF.
  { apply Forall_forall. intros q Hq. apply all_cells_iff. rewrite EAB. apply elem_of_app. by right. }
  rewrite first_blank_spec by (done || apply fill_nine).
  assert (head (filter (fun q => cell (fill w) q = Some blank) (p :: B)) = blanks !! length w) as ->; [|done].
  destruct Hpos as [[-> ->]|(w' & x & -> & Hp)].
  - rewrite fill_nil. assert (A = []) as ->.
    { destruct A as [|q A]; [done|]. assert (NoDup all_cells) as Hnd by (apply (bool_decide_unpack _); by vm_compute).
      assert (all_cells !! 0%nat = Some (0, 0)) as E0 by done.
      assert (all_cells !! S (length A) = Some (0, 0)) as E1 by (rewrite EAB; simpl; by rewrite lookup_app_r, Nat.sub_diag).
      pose proof (NoDup_lookup _ _ _ _ Hnd E0 E1). done. }
    simpl in EAB. rewrite <- EAB. apply head_lookup.
  - rewrite (blanks_after w' x p A B Hok Hp EAB). by rewrite length_app, Nat.add_1_r.
Qed.
(** ** The outer loop *)

Lemma start_bound w : ok w -> (length w <= m)%nat -> 0 <= start w < total 9 m.
Proof using Hg.
  intros [Hd _]%ok_iff Hl. pose proof (num_bound 9 ltac:(lia) w Hd) as Hb.
  pose proof (pow_pos 9 ltac:(lia) (m - length w)) as Hp. unfold start.
  replace (total 9 m) with (N ^ Z.of_nat (length w) * N ^ Z.of_nat (m - length w)); [nia|].
  unfold total. rewrite <- Z.pow_add_r by lia. f_equal. lia.
Qed.

(** Complete fillings before which there is no solution. *)
Definition found (w : list Z) : Prop := ok w /\ length w = m /\ solutions 9 m ok (start w) = [].

Section Outer.
Context {R : Type} (ret : grid -> list pos -> R) (value : Z -> Z).
Context (nextpos : grid -> pos -> outcome (option pos)).
Context (fill_step : grid * pos * list pos -> outcome (control (grid * pos * list pos) (grid * pos * list pos))).
Hypothesis (Hright : step_right value fill_step) (Hvalue : value (-1) = blank).
Hypothesis (Hnext : forall w st, filled w st -> nextpos st.1.1 st.1.2 = Ret (blanks !! length w)).

(** The outer loop that both versions have. *)
Definition outer_step (fuel : nat) (st : grid * pos * list pos) : outcome (control (grid * pos * list pos) R) :=
  let '(b, p, s) := st in
  r ← nextpos b p;
  match r with
  | None => Ret (Break (ret b s))
  | Some p' => st' ← while_loop fuel fill_step (b, p', s); Ret (Continue st')
  end.

Definition rank (w : list Z) : nat :=
  Z.to_nat ((total 9 m - start w) * (Z.of_nat m + 1) + (Z.of_nat m - Z.of_nat (length w))).

Lemma outer_round fuel w st :
  (m < fuel)%nat -> filled w st ->
  returns (outer_step fuel st) (fun c => match c with
    | Continue st' => exists k', (k' < rank w)%nat /\ exists w', filled w' st' /\ rank w' = k'
    | Break r => exists w, found w /\ r = ret (fill w) (stack w)
    end) \/ outer_step fuel st = Undef EmptyTop /\ solutions 9 m ok (total 9 m) = [].
Proof using Hg Hright Hvalue Hnext.
  intros Hf Hfill. pose proof (Hnext w st Hfill) as En.
  destruct Hfill as (p & -> & Hok & Hl & Hsol & Hpos). unfold outer_step. cbn [fst snd] in En. rewrite En.
  bind_ret. destruct (blanks !! length w) as [p'|] eqn:Hp'.
  - destruct (inner_loop value fill_step Hright Hvalue w p' fuel Hok Hp' Hsol ltac:(lia))
      as [(st' & -> & w' & Hw' & Hle & Hprog)|[-> HU]]; bind_ret; [left|by right].
    apply returns_ret. exists (rank w'). split; [|by exists w'].
    assert (length w' <= m)%nat as Hl' by (destruct Hw' as (? & _ & _ & H & _); done).
    assert (ok w') as Hok' by (destruct Hw' as (? & _ & H & _); done).
    pose proof (start_bound w Hok Hl). pose proof (start_bound w' Hok' Hl'). unfold rank.
    destruct Hprog as [E|Hlt]; nia.
  - left. apply returns_ret. exists w. split; [|done]. apply lookup_ge_None in Hp'. split; [done|]. split; [lia|done].
Qed.

Lemma outer_loop fuel :
  total 9 m * (Z.of_nat m + 1) + Z.of_nat m < Z.of_nat fuel ->
  (exists w, found w /\ while_loop fuel (outer_step fuel) (g, (0, 0), []) = Ret (ret (fill w) (stack w))) \/
  while_loop fuel (outer_step fuel) (g, (0, 0), []) = Undef EmptyTop /\ solutions 9 m ok (total 9 m) = [].
Proof using Hg Hright Hvalue Hnext.
  intros Hf. assert (0 < total 9 m) as Ht by (apply pow_pos; lia).
  destruct (while_loop_either (fun k st => exists w, filled w st /\ rank w = k)
    (fun r => exists w, found w /\ r = ret (fill w) (stack w)) EmptyTop (solutions 9 m ok (total 9 m) = [])
    (outer_step fuel) fuel (rank []) (g, (0, 0), [])) as [(r & -> & w & Hw & ->)|H].
  - exists []. split; [|done]. exists (0, 0). rewrite fill_nil. split; [done|].
    split; [apply ok_iff; split; [constructor|by intros]|]. split; [simpl; lia|]. split; [|by left].
    by unfold start.
  - intros k st (w & Hw & <-). apply outer_round; [nia|done].
  - unfold rank, start. change (num 9 []) with 0. cbn [length]. nia.
  - left. eauto.
  - by right.
Qed.
End Outer.
(** ** Fillings and completed boards *)

Lemma found_completes w : found w -> completes g (fill w).
Proof using Hg.
  intros (Hok & Hl & _). pose proof Hok as [Hd Hpeers]%ok_iff.
  assert (forall p, p ∈ all_cells -> cell g p = Some blank -> exists k x,
    blanks !! k = Some p /\ w !! k = Some x /\ 0 <= x < 9 /\ cell (fill w) p = Some (x + one)) as Hnew.
  { intros p Hp Hb. assert (p ∈ blanks) as (k & Hk)%list_elem_of_lookup_1 by (by apply blanks_iff).
    destruct (lookup_lt_is_Some_2 w k) as [x Hx]; [apply lookup_lt_Some in Hk; lia|].
    pose proof (Forall_lookup_1 _ _ _ _ Hd Hx) as Hxd. simpl in Hxd.
    exists k, x. rewrite (fill_in w k p x) by done. split_and!; done || lia. }
  assert (forall p, p ∈ all_cells -> cell g p <> Some blank -> cell (fill w) p = cell g p) as Hold.
  { intros p Hp Hb. apply fill_out; [by apply all_cells_iff|]. intros Hin%elem_of_take.
    destruct Hin as (k & Hk & _). apply list_elem_of_lookup_2, blanks_iff in Hk as [_ Hk]. done. }
  split; [|split; [done|split]].
  - destruct (fill_nine w) as [H1 H2]. split; [done|]. split; [done|]. intros p c Hp Hc.
    destruct (decide (cell g p = Some blank)) as [Hb|Hb].
    + destruct (Hnew p Hp Hb) as (k & x & _ & _ & Hx & E). right. rewrite E in Hc. injection Hc as <-.
      unfold one, beyond. lia.
    + rewrite Hold in Hc by done. destruct Hg as (_ & _ & H). by apply (H p).
  - intros p Hp. destruct (decide (cell g p = Some blank)) as [Hb|Hb]; [|by rewrite Hold].
    destruct (Hnew p Hp Hb) as (k & x & _ & _ & Hx & ->). unfold one, blank. intros [= E]. lia.
  - intros p q Hp Hq Hb Hr%peers_related; [|done..]. destruct (Hnew p Hp Hb) as (k & x & Hk & Hx & _ & ->).
    by apply (Hpeers k p x q).
Qed.

(** The digits of a completed board. *)
Definition digits_of (b : grid) : list Z := (fun p => default 0 (cell b p) - one) <$> blanks.

Lemma completed_filling b : completes g b -> word 9 m (digits_of b) /\ ok (digits_of b).
Proof using Hg.
  intros (Hbok & Hold & Hnb & Hpeers).
  assert (nine b) as Hb9 by (destruct Hbok as (H1 & H2 & _); done).
  assert (forall k p, blanks !! k = Some p -> exists c, cell b p = Some c /\ one <= c < beyond /\
    digits_of b !! k = Some (c - one)) as Hdig.
  { intros k p Hk. pose proof (blanks_cell _ _ Hk) as Hp.
    destruct (get2_cell b Hb9 p) as (c & Hc & _); [by apply all_cells_iff|]. exists c. split; [done|].
    split; [|unfold digits_of; by rewrite list_lookup_fmap, Hk; simpl; rewrite Hc].
    destruct Hbok as (_ & _ & H). destruct (H p c Hp Hc) as [->|]; [by destruct (Hnb p Hp)|done]. }
  assert (digits 9 (digits_of b)) as Hd.
  { apply Forall_lookup_2. intros k x Hx. pose proof (lookup_lt_Some _ _ _ Hx) as Hlt.
    unfold digits_of in Hlt. rewrite length_fmap in Hlt.
    destruct (lookup_lt_is_Some_2 blanks k Hlt) as [p Hp]. destruct (Hdig k p Hp) as (c & _ & Hc & E).
    rewrite E in Hx. injection Hx as <-. unfold one, beyond in *. lia. }
  split; [split; [apply length_fmap|done]|].
  assert (fill (digits_of b) = b) as Efill.
  { apply grid_eq; [apply fill_nine|done|]. intros p Hp.
    destruct (fill_cases (digits_of b) p Hp) as [(k & x & Hk & Hx & ->)|[-> Hno]].
    - destruct (Hdig k p Hk) as (c & -> & _ & E). rewrite E in Hx. injection Hx as <-. f_equal. lia.
    - apply all_cells_iff in Hp. symmetry. apply Hold; [done|]. intros Hbl.
      assert (p ∈ blanks) as (k & Hk)%list_elem_of_lookup_1 by (by apply blanks_iff).
      destruct (Hdig k p Hk) as (c & _ & _ & E). by rewrite (Hno k Hk) in E. }
  apply ok_iff. split; [done|]. intros k p x q Hk Hx Hq. rewrite Efill.
  destruct (Hdig k p Hk) as (c & Hc & _ & E). rewrite E in Hx. injection Hx as <-.
  replace (c - one + one) with c by lia. rewrite <- Hc.
  apply list_elem_of_lookup_2, blanks_iff in Hk as [Hp Hbl].
  destruct (peers_spec p q Hp Hq) as [Hqb _]. apply Hpeers; [done..|]. by apply peers_related.
Qed.

Lemma no_completion : solutions 9 m ok (total 9 m) = [] -> forall b, ~ completes g b.
Proof using Hg.
  intros Hno b Hb. apply completed_filling in Hb as [Hw Hok].
  assert (digits_of b ∈ solutions 9 m ok (total 9 m)) as Hin
    by (apply solutions_total; [lia|by split]).
  rewrite Hno in Hin. by apply elem_of_nil in Hin.
Qed.

Lemma found_least w w' : found w -> found w' -> ~ num 9 w < num 9 w'.
Proof using Hg.
  intros (Hok & Hl & _) (Hok' & Hl' & Hno) Hlt. unfold start in Hno.
  rewrite Hl', Nat.sub_diag, Z.pow_0_r, Z.mul_1_r in Hno.
  pose proof Hok as [Hd _]%ok_iff. pose proof (num_bound 9 ltac:(lia) w Hd) as Hb.
  pose proof (solutions_hit 9 m ok ltac:(lia) w (conj Hl Hd) Hok) as Hhit.
  replace (num 9 w') with (num 9 w + 1 + (num 9 w' - num 9 w - 1)) in Hno by lia.
  rewrite solutions_app, Hhit in Hno by lia. by destruct (solutions 9 m ok (num 9 w)).
Qed.

Lemma found_unique w w' : found w -> found w' -> w = w'.
Proof using Hg.
  intros H H'. pose proof (found_least w w' H H'). pose proof (found_least w' w H' H).
  destruct H as ([Hd _]%ok_iff & Hl & _), H' as ([Hd' _]%ok_iff & Hl' & _).
  apply (num_inj 9 ltac:(lia)); [done|done|congruence|lia].
Qed.
End Board.

(** A test for [board_ok]. *)
Definition cell_ok (b : grid) (p : pos) : bool :=
  match cell b p with
  | Some c => (c =? blank) || ((one <=? c) && (c <? beyond))
  | None => true
  end.

Lemma board_check b :
  length b = 9%nat -> Forall (fun row => length row = 9%nat) b -> forallb (cell_ok b) all_cells = true ->
  board_ok b.
Proof.
  intros Hl HF Hc. split; [done|]. split; [done|]. intros p c Hp E. rewrite forallb_forall in Hc.
  specialize (Hc p (proj1 (list_elem_of_In _ _) Hp)). unfold cell_ok in Hc. rewrite E in Hc.
  apply orb_true_iff in Hc as [Hc%Z.eqb_eq|[H1%Z.leb_le H2%Z.ltb_lt]%andb_true_iff]; [by left|by right].
Qed.

(** The solved board of the test in 37.cpp with two cells blanked. *)
Definition demo_board : grid :=
  [[46; 51; 52; 54; 55; 56; 57; 49; 50]; [54; 55; 50; 49; 57; 53; 51; 52; 56];
   [49; 57; 56; 51; 52; 50; 53; 54; 55]; [56; 53; 57; 55; 54; 49; 52; 50; 51];
   [52; 50; 54; 56; 53; 51; 55; 57; 49]; [55; 49; 51; 57; 50; 52; 56; 53; 54];
   [57; 54; 49; 53; 51; 55; 50; 56; 52]; [50; 56; 55; 52; 49; 57; 54; 51; 53];
   [51; 52; 53; 50; 56; 54; 49; 55; 46]].

(** C40: both sudoku solvers, on a new object and any board of digits and
    blanks, return the same completed board when the board can be completed;
    when it cannot, both read the top of an empty stack. *)
Theorem sudoku_correct g fuel :
  board_ok g -> total 9 (length (blanks g)) * (Z.of_nat (length (blanks g)) + 1) +
    Z.of_nat (length (blanks g)) < Z.of_nat fuel ->
  (exists b s, completes g b /\ First.solveSudoku fuel [] g = Ret (b, s) /\ Second.solveSudoku fuel g = Ret b) \/
  ((forall b, ~ completes g b) /\
   First.solveSudoku fuel [] g = Undef EmptyTop /\ Second.solveSudoku fuel g = Undef EmptyTop).
Proof.
  intros Hg Hf.
  pose proof (outer_loop g Hg (fun b s => (b, s)) first_value First.nextpos First.fill_step
    (first_step_right g Hg) eq_refl (fun w st H => proj1 (nextpos_spec g Hg w st H)) fuel Hf) as H1.
  pose proof (outer_loop g Hg (fun b _ => b) second_value Second.nextpos Second.fill_step
    (second_step_right g Hg) eq_refl (fun w st H => proj2 (nextpos_spec g Hg w st H)) fuel Hf) as H2.
  destruct H1 as [(w & Hw & E1)|[E1 Hno]], H2 as [(w' & Hw' & E2)|[E2 Hno']].
  - left. rewrite <- (found_unique g Hg w w' Hw Hw') in E2. exists (fill g w), (stack g w).
    split; [exact (found_completes g Hg w Hw)|done].
  - exfalso. exact (no_completion g Hg Hno' (fill g w) (found_completes g Hg w Hw)).
  - exfalso. exact (no_completion g Hg Hno (fill g w') (found_completes g Hg w' Hw')).
  - right. split; [exact (no_completion g Hg Hno)|done].
Qed.

Lemma sudoku_correct_witness :
  (exists b s, completes demo_board b /\ First.solveSudoku 246 [] demo_board = Ret (b, s) /\
     Second.solveSudoku 246 demo_board = Ret b) \/
  ((forall b, ~ completes demo_board b) /\
   First.solveSudoku 246 [] demo_board = Undef EmptyTop /\ Second.solveSudoku 246 demo_board = Undef EmptyTop).
Proof.
  apply (sudoku_correct demo_board 246); [|by vm_compute].
  apply board_check; [done|by repeat constructor|by vm_compute].
Defined.
