(* ===== verification/BoxRemoval.v ===== *)
(** * Removing boxes

    src/c++/leetcode/546.cpp and 546-2.cpp: the score of a row of boxes by
    recursion on intervals, with a table of scores and of the sizes of the groups
    to which the first box of an interval belongs.  The operands of a sum are
    evaluated from left to right. *)

From Stdlib Require Import ZArith Lia.
From stdpp Require Import base numbers list.
From S2P Require Import Prelude.

Open Scope Z_scope.

Inductive version := First | Second.

(** [dp[l][r]]: the score, and the size of the group. *)
Abbreviation table := (list (list (Z * Z))) (only parsing).

Definition cell (dp : table) (l r : Z) : outcome (Z * Z) := row ← vget dp l; vget row r.

Definition updatedp (dp : table) (l r score same : Z) : outcome table :=
  c ← cell dp l r;
  if c.1 <? score then
    row ← vget dp l;
    row ← vset row r (score, same);
    vset dp l row
  else Ret dp.

(** The score of two intervals whose groups are joined. *)
Definition joined_score (v : version) (a b : Z * Z) : outcome Z :=
  s ← int_op (a.1 + b.1);
  match v with
  | First =>
      p ← int_op ((a.2 + b.2) * (a.2 + b.2));
      s ← int_op (s + p);
      s ← int_op (s - a.2 * a.2);
      int_op (s - b.2 * b.2)
  | Second => p ← int_op (2 * a.2 * b.2); int_op (s + p)
  end.

Definition join_groups (v : version) (dp : table) (l r i : Z) : outcome table :=
  a ← cell dp l i;
  b ← cell dp (i + 1) r;
  score ← joined_score v a b;
  updatedp dp l r score (a.2 + b.2).

Section Removal.
Context (v : version) (box : list Z).

(** The two calls of [remove] in a round, and the updates of the table; [group] is
    the size of the group that goes with their sum. *)
Definition both_sides (remove : Z -> Z -> table -> outcome (table * Z)) (group : table -> outcome Z) (l r i : Z) (join : bool)
    (dp : table) : outcome table :=
  '(dp, s1) ← remove l i dp;
  '(dp, s2) ← remove (i + 1) r dp;
  s ← int_op (s1 + s2);
  same ← group dp;
  dp ← updatedp dp l r s same;
  if join then join_groups v dp l r i else Ret dp.

(** One round of the loop of [remove], with the calls of itself. *)
Definition round (remove : Z -> Z -> table -> outcome (table * Z)) (l r i : Z) (st : table * Z) : outcome (table * Z) :=
  let '(dp, same) := st in
  bl ← vget box l;
  bi ← vget box i;
  bn ← vget box (i + 1);
  match v with
  | First =>
      let same := if bl =? bi then same + 1 else same in
      dp ← both_sides remove (fun _ => Ret same) l r i (bl =? bn) dp;
      Ret (dp, same)
  | Second =>
      if (bi =? bn) && negb (i =? r - 1) then Ret (dp, same)
      else
        dp ← both_sides remove (fun dp => a ← cell dp l i; Ret a.2) l r i (bl =? bn) dp;
        Ret (dp, same)
  end.

Fixpoint remove (fuel : nat) (l r : Z) (dp : table) : outcome (table * Z) :=
  match fuel with
  | O => NoFuel
  | S fuel =>
      if r <? l then Ret (dp, 0)
      else
        c ← cell dp l r;
        if negb (c.1 =? 0) then Ret (dp, c.1)
        else if l =? r then dp ← updatedp dp l r 1 1; Ret (dp, 1)
        else
          '(dp, _) ← for_loop (Z.to_nat (r - l)) l (round (remove fuel) l r) (dp, 0);
          c ← cell dp l r;
          Ret (dp, c.1)
  end.

Definition removeBoxes : outcome Z :=
  let dp := replicate 100 (replicate 100 (0, 0)) in
  '(_, s) ← remove (S (length box)) 0 (zlen box - 1) dp;
  Ret s.
End Removal.

(** The tests of the two main functions. *)
Example boxes_tests :
  removeBoxes First [3; 2; 2; 2; 3; 4; 3] = Ret 19 /\ removeBoxes Second [1; 3; 2; 2; 2; 3; 4; 3; 1] = Ret 23.
Proof. split; vm_compute; reflexivity. Qed.

(** ** The table *)

(** A score of [k] boxes. *)
Definition ok (k : Z) (c : Z * Z) : Prop := 0 <= c.2 <= k /\ (c.1 = 0 \/ k <= c.1 <= k * k).

Record good (dp : table) : Prop := {
  good_rows : zlen dp = 100;
  good_columns : forall l row, vget dp l = Ret row -> zlen row = 100;
  good_cells : forall l r c, 0 <= l <= r -> cell dp l r = Ret c -> ok (r - l + 1) c
}.

(** The scores only grow. *)
Definition below (dp dp' : table) : Prop :=
  forall l r c, cell dp l r = Ret c -> exists c', cell dp' l r = Ret c' /\ c.1 <= c'.1.

Lemma below_refl dp : below dp dp.
Proof. intros l r c H. exists c. split; [done|lia]. Qed.

Lemma below_trans dp1 dp2 dp3 : below dp1 dp2 -> below dp2 dp3 -> below dp1 dp3.
Proof.
  intros H1 H2 l r c Hc. destruct (H1 _ _ _ Hc) as (c1 & Hc1 & ?). destruct (H2 _ _ _ Hc1) as (c2 & ? & ?).
  exists c2. split; [done|lia].
Qed.

Lemma good_cell dp l r : good dp -> 0 <= l < 100 -> 0 <= r < 100 -> exists c, cell dp l r = Ret c.
Proof.
  intros H Hl Hr. destruct (vget_in_range dp l) as [row E]; [rewrite (good_rows _ H); lia|].
  unfold cell. rewrite E. bind_ret. apply vget_in_range. rewrite (good_columns _ H l row E). lia.
Qed.

Lemma cell_insert dp l r row x l' r' : 0 <= l < zlen dp -> vget dp l = Ret row -> 0 <= r < zlen row ->
  cell (<[Z.to_nat l := <[Z.to_nat r := x]> row]> dp) l' r' =
  if (l' =? l) && (r' =? r) then Ret x else cell dp l' r'.
Proof.
  intros Hl Hrow Hr. unfold cell. destruct (Z.eqb_spec l' l) as [->|Hne]; cbn [andb].
  - rewrite Hrow. assert (vget (<[Z.to_nat l := <[Z.to_nat r := x]> row]> dp) l = Ret (<[Z.to_nat r := x]> row)) as ->
      by (apply vget_Ret; split; [lia|apply list_lookup_insert_eq; unfold zlen in *; lia]).
    bind_ret. destruct (Z.eqb_spec r' r) as [->|Hne].
    + apply vget_Ret. split; [lia|]. apply list_lookup_insert_eq. unfold zlen in *. lia.
    + unfold vget. destruct (Z.ltb_spec r' 0); [done|]. by rewrite list_lookup_insert_ne by lia.
  - f_equal. unfold vget. destruct (Z.ltb_spec l' 0); [done|]. by rewrite list_lookup_insert_ne by lia.
Qed.

Lemma updatedp_spec dp l r score same : good dp -> 0 <= l <= r -> r < 100 ->
  (forall c, cell dp l r = Ret c -> c.1 < score -> r - l + 1 <= score) ->
  score <= (r - l + 1) * (r - l + 1) -> 0 <= same <= r - l + 1 ->
  exists dp', updatedp dp l r score same = Ret dp' /\ good dp' /\ below dp dp' /\
    exists c, cell dp' l r = Ret c /\ score <= c.1.
Proof.
  intros H Hl Hr Hk Hs Hm. destruct (good_cell dp l r H ltac:(lia) ltac:(lia)) as [c Hc]. unfold updatedp.
  rewrite Hc. bind_ret. destruct (Z.ltb_spec c.1 score) as [Hlt|Hge]; [specialize (Hk c Hc Hlt)|].
  2:{ exists dp. split; [done|]. split; [done|]. split; [apply below_refl|]. by exists c. }
  destruct (vget_in_range dp l) as [row E]; [rewrite (good_rows _ H); lia|].
  pose proof (good_rows _ H) as Hlen. pose proof (good_columns _ H l row E) as Hrow.
  rewrite E. bind_ret. rewrite vset_in_range by lia. bind_ret. rewrite vset_in_range by lia.
  pose proof (fun l' r' => cell_insert dp l r row (score, same) l' r' ltac:(lia) E ltac:(lia)) as Hcell.
  eexists. split; [done|]. split; [constructor|split].
  - by rewrite zlen_insert.
  - intros l' row' [H0 Hl']%vget_Ret. apply list_lookup_insert_Some in Hl' as [(_ & <- & _)|(_ & Hl')].
    + by rewrite zlen_insert.
    + apply (good_columns _ H l'). by apply vget_Ret.
  - intros l' r' c' Hl' Hc'. rewrite Hcell in Hc'.
    destruct ((l' =? l) && (r' =? r)) eqn:Eb; [|by apply (good_cells _ H)].
    apply andb_true_iff in Eb as [->%Z.eqb_eq ->%Z.eqb_eq]. injection Hc' as <-. split; cbn; lia.
  - intros l' r' c' Hc'. rewrite Hcell. destruct ((l' =? l) && (r' =? r)) eqn:Eb; [|exists c'; split; [done|lia]].
    apply andb_true_iff in Eb as [->%Z.eqb_eq ->%Z.eqb_eq]. exists (score, same). split; [done|].
    rewrite Hc in Hc'. injection Hc' as <-. cbn. lia.
  - exists (score, same). rewrite Hcell, !Z.eqb_refl. split; [done|]. cbn. lia.
Qed.

(** ** The recursion *)

(** What a call returns for the boxes from [l] to [r]. *)
Definition removed (dp : table) (l r : Z) (res : table * Z) : Prop :=
  good res.1 /\ below dp res.1 /\
  (l <= r -> r - l + 1 <= res.2 <= (r - l + 1) * (r - l + 1)) /\ (r < l -> res.2 = 0).

(** An interval whose score is known. *)
Definition scored (dp : table) (l r : Z) : Prop := exists c, cell dp l r = Ret c /\ r - l + 1 <= c.1.

Lemma scored_below dp dp' l r : below dp dp' -> scored dp l r -> scored dp' l r.
Proof. intros Hb (c & Hc & Hk). destruct (Hb _ _ _ Hc) as (c' & ? & ?). exists c'. split; [done|lia]. Qed.

Lemma join_score v x y (a b : Z * Z) : ok x a -> ok y b -> 1 <= x -> 1 <= y -> x + y <= 100 ->
  exists score, joined_score v a b = Ret score /\ score <= (x + y) * (x + y).
Proof.
  intros [Ha1 Ha2] [Hb1 Hb2] Hx Hy Hxy.
  assert (0 <= a.1 <= x * x) by nia. assert (0 <= b.1 <= y * y) by nia.
  assert (x * x <= 10000) by nia. assert (y * y <= 10000) by nia.
  assert (0 <= a.2 * a.2 <= 10000) by nia. assert (0 <= b.2 * b.2 <= 10000) by nia.
  assert (0 <= a.2 * b.2 <= x * y) by nia. assert (x * y <= 10000) by nia.
  exists (a.1 + b.1 + 2 * (a.2 * b.2)).
  split; [|nia]. unfold joined_score. destruct v; repeat (rewrite int_op_in by (unfold int_min, int_max; nia); bind_ret); f_equal; nia.
Qed.

Lemma join_groups_spec v dp l r i : good dp -> 0 <= l <= i -> i < r < 100 -> scored dp l r ->
  returns (join_groups v dp l r i) (fun dp' => good dp' /\ below dp dp').
Proof.
  intros H Hl Hi (c & Hc & Hk). unfold join_groups.
  destruct (good_cell dp l i H) as [a Ea]; [lia|lia|]. destruct (good_cell dp (i + 1) r H) as [b Eb]; [lia|lia|].
  rewrite Ea, Eb. bind_ret.
  destruct (join_score v (i - l + 1) (r - i) a b) as (score & Es & Hs); try lia.
  - apply (good_cells _ H); [lia|done].
  - replace (r - i) with (r - (i + 1) + 1) by lia. apply (good_cells _ H); [lia|done].
  - replace (i - l + 1 + (r - i)) with (r - l + 1) in Hs by lia.
    destruct (good_cells _ H l i a ltac:(lia) Ea) as [Ha _]. destruct (good_cells _ H (i + 1) r b ltac:(lia) Eb) as [Hb _].
    destruct (updatedp_spec dp l r score (a.2 + b.2)) as (dp' & E & Hg & Hbe & _); try done; try lia.
    + intros c' Hc' Hlt. rewrite Hc in Hc'. injection Hc' as <-. lia.
    + exists dp'. rewrite Es. bind_ret. done.
Qed.

Section Recursion.
Context (v : version) (box : list Z) (Hbox : zlen box <= 100).

Section Round.
Context (rem : Z -> Z -> table -> outcome (table * Z)) (l r : Z) (Hl : 0 <= l < r) (Hr : r < zlen box).
Context (Hrem : forall l' r' dp, l <= l' <= r' -> r' <= r -> r' - l' < r - l -> good dp ->
           returns (rem l' r' dp) (removed dp l' r')).

Lemma both_sides_spec dp i group join : good dp -> l <= i < r ->
  (forall dp', good dp' -> returns (group dp') (fun m => 0 <= m <= r - l + 1)) ->
  returns (both_sides v rem group l r i join dp) (fun dp' => good dp' /\ below dp dp' /\ scored dp' l r).
Proof.
  intros Hg Hi Hgroup. unfold both_sides.
  destruct (Hrem l i dp) as ([dp1 s1] & -> & Hg1 & Hb1 & Hs1 & _); try lia; [done|]. bind_ret.
  destruct (Hrem (i + 1) r dp1) as ([dp2 s2] & -> & Hg2 & Hb2 & Hs2 & _); try lia; [done|]. bind_ret. cbn [fst snd] in *.
  specialize (Hs1 ltac:(lia)). specialize (Hs2 ltac:(lia)).
  assert ((i - l + 1) * (i - l + 1) + (r - (i + 1) + 1) * (r - (i + 1) + 1) <= (r - l + 1) * (r - l + 1)) by nia.
  assert ((r - l + 1) * (r - l + 1) <= 10000) by nia.
  rewrite int_op_in by (unfold int_min, int_max; lia). bind_ret.
  destruct (Hgroup dp2 Hg2) as (m & -> & Hm). bind_ret.
  destruct (updatedp_spec dp2 l r (s1 + s2) m) as (dp3 & -> & Hg3 & Hb3 & c & Hc & Hle); try done; try lia. bind_ret.
  assert (scored dp3 l r) as Hsc by (exists c; split; [done|lia]).
  assert (below dp dp3) as Hb by (by eapply below_trans; [eapply below_trans|]).
  destruct join; [|by apply returns_ret].
  eapply returns_mono; [apply join_groups_spec; try done; lia|]. intros dp' [Hg' Hb'].
  split; [done|]. split; [by eapply below_trans|by eapply scored_below].
Qed.

Lemma round_spec dp0 i dp same : l <= i < r -> good dp -> below dp0 dp -> 0 <= same <= i - l ->
  returns (round v box rem l r i (dp, same))
    (fun st => good st.1 /\ below dp0 st.1 /\ 0 <= st.2 <= i + 1 - l /\ (i + 1 = r -> scored st.1 l r)).
Proof.
  intros Hi Hg Hb Hsame. unfold round.
  destruct (vget_in_range box l) as [bl ->]; [lia|]. destruct (vget_in_range box i) as [bi ->]; [lia|].
  destruct (vget_in_range box (i + 1)) as [bn ->]; [lia|]. bind_ret.
  assert (Hboth : forall group m, (forall dp', good dp' -> returns (group dp') (fun m => 0 <= m <= r - l + 1)) ->
    0 <= m <= i + 1 - l ->
    returns (dp' ← both_sides v rem group l r i (bl =? bn) dp; Ret (dp', m))
      (fun st => good st.1 /\ below dp0 st.1 /\ 0 <= st.2 <= i + 1 - l /\ (i + 1 = r -> scored st.1 l r))).
  { intros group m Hgr Hm. eapply returns_bind; [by apply both_sides_spec|]. intros dp' (Hg' & Hb' & Hs').
    apply returns_ret. cbn. split; [done|]. split; [by eapply below_trans|done]. }
  destruct v.
  - apply Hboth; [|destruct (bl =? bi); lia]. intros dp' _. apply returns_ret. cbv beta. destruct (bl =? bi); lia.
  - destruct ((bi =? bn) && negb (i =? r - 1)) eqn:E.
    + apply returns_ret. cbn. split; [done|]. split; [done|]. split; [lia|]. intros Hr'.
      apply andb_true_iff in E as [_ E]. rewrite negb_true_iff, Z.eqb_neq in E. lia.
    + apply Hboth; [|lia]. intros dp' Hg'. destruct (good_cell dp' l i Hg') as [a Ea]; [lia|lia|].
      rewrite Ea. bind_ret. apply returns_ret. cbv beta. destruct (good_cells _ Hg' l i a ltac:(lia) Ea). lia.
Qed.
End Round.

Lemma remove_spec fuel : forall l r dp, 0 <= l <= r + 1 -> r < zlen box -> r - l + 1 < Z.of_nat fuel -> good dp ->
  returns (remove v box fuel l r dp) (removed dp l r).
Proof.
  induction fuel as [|fuel IH]; intros l r dp Hl Hr Hf Hg; [lia|]. cbn [remove].
  destruct (Z.ltb_spec r l).
  { apply returns_ret. split; [done|]. split; [apply below_refl|]. cbn. lia. }
  destruct (good_cell dp l r Hg) as [c Hc]; [lia|lia|]. rewrite Hc. bind_ret.
  destruct (good_cells _ Hg l r c ltac:(lia) Hc) as [_ Hok].
  destruct (Z.eqb_spec c.1 0) as [E0|E0]; cbn [negb].
  2:{ apply returns_ret. split; [done|]. split; [apply below_refl|]. cbn. lia. }
  destruct (Z.eqb_spec l r) as [->|Hne].
  - destruct (updatedp_spec dp r r 1 1) as (dp' & -> & Hg' & Hb & _); try done; try lia. bind_ret.
    apply returns_ret. split; [done|]. split; [done|]. cbn. nia.
  - eapply (returns_bind _ _ (fun st => good st.1 /\ below dp st.1 /\ scored st.1 l r)).
    + eapply returns_mono; [apply (for_loop_inv (fun i st => good st.1 /\ below dp st.1 /\ 0 <= st.2 <= i - l /\
        (i = r -> scored st.1 l r)))|].
      * cbn. split; [done|]. split; [apply below_refl|]. lia.
      * intros i [dp' same] Hi (Hg' & Hb' & Hs' & _). apply round_spec; cbn in *; try done; try lia.
        intros l' r' dp'' H1 H2 H3 Hg''. apply IH; try done; lia.
      * cbv beta. intros st (? & ? & _ & Hs). split; [done|]. split; [done|]. apply Hs. lia.
    + intros [dp' same] (Hg' & Hb' & c' & Hc' & Hk). cbn in *. rewrite Hc'. bind_ret. apply returns_ret.
      split; [done|]. split; [done|]. cbn. destruct (good_cells _ Hg' l r c' ltac:(lia) Hc') as [_ Hok']. lia.
Qed.
End Recursion.

Lemma empty_good : good (replicate 100 (replicate 100 (0, 0))).
Proof.
  constructor; [reflexivity| |].
  - intros l row [_ [-> _]%lookup_replicate]%vget_Ret. reflexivity.
  - intros l r c Hl Hc. unfold cell in Hc. apply bind_Ret in Hc as (row & [_ [-> _]%lookup_replicate]%vget_Ret & Hc).
    apply vget_Ret in Hc as [_ [-> _]%lookup_replicate]. split; cbn; lia.
Qed.

(** For at most 100 boxes both solutions return, without leaving the
    table, reading behind the boxes or overflowing, a score that is at least
    that of removing the boxes one by one and at most that of removing them
    all at once. *)
Theorem removeBoxes_bounds v box : zlen box <= 100 ->
  exists s, removeBoxes v box = Ret s /\ zlen box <= s <= zlen box * zlen box.
Proof.
  intros Hbox. unfold removeBoxes.
  destruct (remove_spec v box Hbox (S (length box)) 0 (zlen box - 1) (replicate 100 (replicate 100 (0, 0)))) as ([dp s] & E & _ & _ & H1 & H2);
    [unfold zlen; lia|unfold zlen; lia|unfold zlen; lia|exact empty_good|].
  rewrite E. bind_ret. exists s. split; [done|]. cbn in *. pose proof (zlen_nonneg box).
  destruct (Z.eq_dec (zlen box) 0) as [E0|]; [specialize (H2 ltac:(lia)); lia|]. specialize (H1 ltac:(lia)).
  by replace (zlen box - 1 - 0 + 1) with (zlen box) in H1 by lia.
Qed.

Lemma removeBoxes_bounds_witness : exists s, removeBoxes First [3; 2; 2; 3] = Ret s /\ 4 <= s <= 16.
Proof. apply (removeBoxes_bounds First [3; 2; 2; 3]). unfold zlen. cbn. lia. Defined.

(** ** The score that the puzzle asks for *)

(** Removing so many boxes from a position on, which must have the same colour. *)
Definition play (st : list Z * Z) (move : nat * nat) : option (list Z * Z) :=
  let '(row, score) := st in
  let group := take (snd move) (drop (fst move) row) in
  match group with
  | c :: _ =>
      if forallb (Z.eqb c) group
      then Some (take (fst move) row ++ drop (fst move + snd move) row, score + zlen group * zlen group)
      else None
  | [] => None
  end.

Definition plays (row : list Z) (moves : list (nat * nat)) : option (list Z * Z) :=
  foldl (fun st m => st ≫= fun st => play st m) (Some (row, 0)) moves.

(** Both solutions miss the best score of some rows. *)
Example not_the_best :
  removeBoxes First [2; 1; 2; 2; 1; 1; 1; 2; 1; 2] = Ret 34 /\
  plays [2; 1; 2; 2; 1; 1; 1; 2; 1; 2] [(1, 1); (3, 3); (4, 1); (0, 5)]%nat = Some ([], 36) /\
  removeBoxes Second [1; 1; 2; 1; 2; 2; 1; 2; 2; 1; 1] = Ret 43 /\
  plays [1; 1; 2; 1; 2; 2; 1; 2; 2; 1; 1] [(2, 1); (3, 2); (4, 2); (0, 6)]%nat = Some ([], 45).
Proof. repeat split; vm_compute; reflexivity. Qed.
