(* ===== verification/JsonValue.v ===== *)
(** The values of [src/util/nlohmann_json.hpp] and what its components share:
    the alternatives of [basic_json::json_value], [std::map] with its order on
    strings, decimal numerals, and the texts of the exceptions.

    A string is the list of its bytes.  A [number_float_t] is the bit pattern
    of a [double], an integer between 0 and 2^64.  An object is the sequence of
    the entries of the map in the order in which it is iterated. *)

From Stdlib Require Import ZArith Lia.
From S2P Require Import Prelude.
From stdpp Require Import base decidable option strings sorting list.

Open Scope Z_scope.

(** ** Values *)

#[local] Unset Elimination Schemes.
Inductive json :=
  | Null
  | Boolean (b : bool)
  | Number_integer (z : Z)
  | Number_unsigned (z : Z)
  | Number_float (bits : Z)
  | Str (s : list Z)
  | Binary (b : list Z) (subtype : option Z)
  | Array (l : list json)
  | Object (o : list (list Z * json))
  | Discarded.
#[local] Set Elimination Schemes.

(** Induction with the hypothesis for the elements of a container. *)
Section JsonInd.
Variable P : json -> Prop.
Hypotheses (Hnull : P Null) (Hbool : forall b, P (Boolean b))
  (Hint : forall z, P (Number_integer z)) (Huns : forall z, P (Number_unsigned z))
  (Hfloat : forall z, P (Number_float z)) (Hstr : forall s, P (Str s))
  (Hbin : forall b t, P (Binary b t))
  (Harr : forall l, Forall P l -> P (Array l))
  (Hobj : forall o, Forall (fun e => P e.2) o -> P (Object o))
  (Hdisc : P Discarded).

Fixpoint json_induction (j : json) : P j :=
  match j with
  | Null => Hnull
  | Boolean b => Hbool b
  | Number_integer z => Hint z
  | Number_unsigned z => Huns z
  | Number_float z => Hfloat z
  | Str s => Hstr s
  | Binary b t => Hbin b t
  | Array l => Harr l
      ((fix go l : Forall P l :=
          match l with
          | [] => Forall_nil_2 _
          | x :: l => Forall_cons_2 _ x l (json_induction x) (go l)
          end) l)
  | Object o => Hobj o
      ((fix go o : Forall (fun e => P e.2) o :=
          match o with
          | [] => Forall_nil_2 _
          | x :: o => Forall_cons_2 _ x o (json_induction x.2) (go o)
          end) o)
  | Discarded => Hdisc
  end.
End JsonInd.

Definition is_array (j : json) : bool := match j with Array _ => true | _ => false end.
Definition is_object (j : json) : bool := match j with Object _ => true | _ => false end.
Definition is_structured (j : json) : bool := is_array j || is_object j.
Definition is_discarded (j : json) : bool := match j with Discarded => true | _ => false end.

(** [std::isfinite]: the exponent bits are not all set. *)
Definition isfinite (bits : Z) : bool := negb (Z.land (Z.shiftr bits 52) 0x7FF =? 0x7FF).

(** ** Decimal numerals: [std::to_string] of a number that is not negative *)

Fixpoint decimal_aux (fuel : nat) (n : Z) (acc : list Z) : list Z :=
  match fuel with
  | O => acc
  | S fuel =>
      if n <? 10 then (0x30 + n) :: acc
      else decimal_aux fuel (n / 10) ((0x30 + n mod 10) :: acc)
  end.

Definition decimal (n : Z) : list Z := decimal_aux (S (Z.to_nat (Z.log2 n))) n [].

Definition to_string (n : Z) : list Z :=
  if n <? 0 then ch "-" :: decimal (- n) else decimal n.

(** The value of a numeral. *)
Definition digit_value (acc c : Z) : Z := acc * 10 + (c - 0x30).
Definition decimal_value (l : list Z) : Z := foldl digit_value 0 l.

Definition is_digit (c : Z) : bool := (0x30 <=? c) && (c <=? 0x39).

Lemma is_digit_spec c : is_digit c = true <-> 0x30 <= c <= 0x39.
Proof. unfold is_digit. rewrite andb_true_iff, !Z.leb_le. done. Qed.

Lemma decimal_value_app l k :
  decimal_value (l ++ k) = foldl digit_value (decimal_value l) k.
Proof. unfold decimal_value. apply foldl_app. Qed.

Lemma decimal_value_snoc l c : decimal_value (l ++ [c]) = decimal_value l * 10 + (c - 0x30).
Proof. by rewrite decimal_value_app. Qed.

Lemma foldl_digits_acc acc l :
  foldl digit_value acc l = acc * 10 ^ zlen l + decimal_value l.
Proof.
  revert acc. induction l as [|c l IH] using rev_ind; intros acc.
  - unfold decimal_value, zlen. simpl. lia.
  - rewrite foldl_app, decimal_value_snoc. simpl. rewrite IH. unfold digit_value.
    unfold zlen. rewrite length_app. simpl.
    replace (Z.of_nat (length l + 1)) with (Z.of_nat (length l) + 1) by lia.
    rewrite Z.pow_add_r by lia. lia.
Qed.

Lemma div10_log2 n : 10 <= n -> Z.log2 (n / 10) + 3 <= Z.log2 n.
Proof.
  intros Hn. assert (1 <= n / 10) by (apply Z.div_le_lower_bound; lia).
  rewrite Z.add_comm, <- Z.log2_mul_pow2 by lia. apply Z.log2_le_mono.
  pose proof (Z.mul_div_le n 10). lia.
Qed.

Lemma decimal_aux_app fuel n acc : decimal_aux fuel n acc = decimal_aux fuel n [] ++ acc.
Proof.
  revert n acc. induction fuel as [|fuel IH]; intros n acc; [done|]. simpl.
  case_match; [done|]. rewrite (IH _ (_ :: acc)), (IH _ [_]).
  by rewrite <- app_assoc.
Qed.

Lemma decimal_aux_fuel fuel n :
  0 <= n -> (Z.to_nat (Z.log2 n) < fuel)%nat -> decimal_aux fuel n [] = decimal n.
Proof.
  intros Hn. unfold decimal. remember (S (Z.to_nat (Z.log2 n))) as f eqn:Hf.
  assert (Hf' : (Z.to_nat (Z.log2 n) < f)%nat) by lia. clear Hf.
  revert n Hn fuel Hf'. induction f as [|f IH]; intros n Hn [|fuel] Hf Hfu; try lia.
  simpl. destruct (Z.ltb_spec n 10); [done|].
  pose proof (div10_log2 n ltac:(lia)). pose proof (Z.log2_nonneg (n / 10)).
  assert (0 <= n / 10) by (apply Z.div_pos; lia).
  rewrite (decimal_aux_app fuel), (decimal_aux_app f). f_equal. apply IH; lia.
Qed.

(** The equations of a numeral. *)
Lemma decimal_small n : 0 <= n < 10 -> decimal n = [0x30 + n].
Proof. intros Hn. unfold decimal. simpl. destruct (Z.ltb_spec n 10); [done|lia]. Qed.

Lemma decimal_large n : 10 <= n -> decimal n = decimal (n / 10) ++ [0x30 + n mod 10].
Proof.
  intros Hn. unfold decimal at 1. simpl. destruct (Z.ltb_spec n 10); [lia|].
  rewrite decimal_aux_app. f_equal.
  pose proof (div10_log2 n Hn). pose proof (Z.log2_nonneg (n / 10)).
  apply decimal_aux_fuel; [apply Z.div_pos; lia|lia].
Qed.

Lemma decimal_ind (P : Z -> Prop) :
  (forall n, 0 <= n < 10 -> P n) -> (forall n, 10 <= n -> P (n / 10) -> P n) ->
  forall n, 0 <= n -> P n.
Proof.
  intros H0 H1 n Hn. apply (Z_lt_induction (fun n => 0 <= n -> P n)); [|done..].
  intros m IH Hm. destruct (Z.lt_ge_cases m 10); [by apply H0|].
  apply H1; [done|]. apply IH; [split; [apply Z.div_pos; lia|apply Z.div_lt; lia]|apply Z.div_pos; lia].
Qed.

Lemma decimal_digits n : 0 <= n -> Forall (fun c => is_digit c = true) (decimal n).
Proof.
  revert n. apply decimal_ind; intros n Hn.
  - rewrite decimal_small by done. constructor; [|constructor]. apply is_digit_spec. lia.
  - intros IH. rewrite decimal_large by done. apply Forall_app. split; [done|].
    constructor; [|constructor]. apply is_digit_spec. pose proof (Z.mod_pos_bound n 10). lia.
Qed.

Lemma decimal_value_decimal n : 0 <= n -> decimal_value (decimal n) = n.
Proof.
  revert n. apply decimal_ind; intros n Hn.
  - rewrite decimal_small by done. unfold decimal_value, digit_value. simpl. lia.
  - intros IH. rewrite decimal_large by done. rewrite decimal_value_snoc, IH.
    pose proof (Z.div_mod n 10). lia.
Qed.

(** No leading zero, except for zero itself. *)
Lemma decimal_head n : 0 < n -> exists d l, decimal n = d :: l /\ 0x31 <= d <= 0x39.
Proof.
  intros Hn. assert (H0 : 0 <= n) by lia. revert n H0 Hn.
  apply (decimal_ind (fun n => 0 < n -> exists d l, decimal n = d :: l /\ 0x31 <= d <= 0x39)); intros n Hn.
  - intros H. rewrite decimal_small by done. exists (0x30 + n), []. split; [done|lia].
  - intros IH _. destruct IH as (d & l & Hd & Hr); [apply Z.div_str_pos; lia|].
    rewrite decimal_large by done. rewrite Hd. by exists d, (l ++ [0x30 + n mod 10]).
Qed.

(** ** [std::map<string, basic_json>]: entries in the order of their keys *)

(** [operator<] on strings: the first byte that differs, then the length. *)
Fixpoint key_lt (a b : list Z) : bool :=
  match a, b with
  | _, [] => false
  | [], _ :: _ => true
  | x :: a, y :: b => (x <? y) || ((x =? y) && key_lt a b)
  end.

Section Map.
Context {V : Type}.
Implicit Types (k : list Z) (v : V) (o : list (list Z * V)).

Fixpoint map_find k o : option V :=
  match o with
  | [] => None
  | (k', v) :: o => if decide (k = k') then Some v else map_find k o
  end.

(** The entry of [k], new or overwritten. *)
Fixpoint map_insert k v o : list (list Z * V) :=
  match o with
  | [] => [(k, v)]
  | (k', v') :: o' =>
      if key_lt k k' then (k, v) :: o
      else if key_lt k' k then (k', v') :: map_insert k v o'
      else (k', v) :: o'
  end.

(** [operator[]]: an entry that is missing is made, with [d]. *)
Definition map_index (d : V) k o : list (list Z * V) :=
  match map_find k o with
  | Some _ => o
  | None => map_insert k d o
  end.

(** A change through the reference to an entry. *)
Fixpoint map_alter k (f : V -> V) o : list (list Z * V) :=
  match o with
  | [] => []
  | (k', v) :: o => if decide (k = k') then (k', f v) :: o else (k', v) :: map_alter k f o
  end.

(** What a map is: the keys increase. *)
Definition map_ordered o : Prop := StronglySorted (fun a b => key_lt a.1 b.1 = true) o.

Lemma key_lt_irrefl k : key_lt k k = false.
Proof.
  induction k as [|x k IH]; [done|]. simpl. rewrite IH, Z.ltb_irrefl.
  by destruct (x =? x).
Qed.

Lemma key_lt_trans a b c : key_lt a b = true -> key_lt b c = true -> key_lt a c = true.
Proof.
  revert b c. induction a as [|x a IH]; intros [|y b] [|z c]; simpl; try done.
  rewrite !orb_true_iff, !andb_true_iff, !Z.ltb_lt, !Z.eqb_eq.
  intros [?|[? ?]] [?|[? ?]]; [left; lia..|right]. split; [lia|eauto].
Qed.

Lemma key_lt_total a b : key_lt a b = false -> key_lt b a = false -> a = b.
Proof.
  revert b. induction a as [|x a IH]; intros [|y b]; simpl; try done.
  rewrite !orb_false_iff, !andb_false_iff, !Z.ltb_ge, !Z.eqb_neq.
  intros [? [?|?]] [? [?|?]]; try lia. f_equal; [lia|eauto].
Qed.

Lemma map_find_above k o :
  Forall (fun e => key_lt k e.1 = true) o -> map_find k o = None.
Proof.
  induction 1 as [|[k' v] o H Ho IH]; [done|]. simpl. case_decide as E; [|done].
  subst k'. simpl in H. by rewrite key_lt_irrefl in H.
Qed.

Lemma map_find_insert k k' v o :
  map_ordered o ->
  map_find k' (map_insert k v o) = if decide (k' = k) then Some v else map_find k' o.
Proof.
  induction 1 as [|[k0 v0] o Ho IH Hk]; simpl; [done|].
  destruct (key_lt k k0) eqn:E1; [done|]. destruct (key_lt k0 k) eqn:E2; simpl.
  - rewrite IH. destruct (decide (k' = k)) as [->|]; [|done].
    case_decide as E; [|done]. subst k0. by rewrite key_lt_irrefl in E2.
  - pose proof (key_lt_total _ _ E1 E2) as <-. by case_decide.
Qed.

Lemma map_insert_above k0 k v o :
  key_lt k0 k = true -> Forall (fun e => key_lt k0 e.1 = true) o ->
  Forall (fun e => key_lt k0 e.1 = true) (map_insert k v o).
Proof.
  intros Hk Ho. induction Ho as [|[k' v'] o H Ho IH]; simpl; [by repeat constructor|].
  simpl in H. destruct (key_lt k k') eqn:E1; [by repeat constructor|].
  destruct (key_lt k' k) eqn:E2; by repeat constructor.
Qed.

Lemma map_insert_ordered k v o : map_ordered o -> map_ordered (map_insert k v o).
Proof.
  induction 1 as [|[k0 v0] o Ho IH Hk]; simpl; [by repeat constructor|].
  destruct (key_lt k k0) eqn:E1; [|destruct (key_lt k0 k) eqn:E2].
  - constructor; [by constructor|]. constructor; [done|].
    eapply Forall_impl; [exact Hk|]. intros e He. by eapply key_lt_trans.
  - constructor; [done|]. by apply map_insert_above.
  - constructor; done.
Qed.

Lemma map_find_alter k f o : map_find k (map_alter k f o) = f <$> map_find k o.
Proof.
  induction o as [|[k' v] o IH]; [done|]. simpl. case_decide as E; simpl.
  - by rewrite decide_True.
  - by rewrite decide_False.
Qed.

Lemma map_find_insert_same k v o : map_find k (map_insert k v o) = Some v.
Proof.
  induction o as [|[k' v'] o IH]; simpl; [by rewrite decide_True|].
  destruct (key_lt k k') eqn:E1; simpl; [by rewrite decide_True|].
  destruct (key_lt k' k) eqn:E2; simpl.
  - rewrite decide_False; [done|]. intros <-. by rewrite key_lt_irrefl in E2.
  - by rewrite decide_True by (by apply key_lt_total).
Qed.

Lemma map_find_index d k o : is_Some (map_find k (map_index d k o)).
Proof.
  unfold map_index. destruct (map_find k o) as [v|] eqn:E; [by exists v|].
  rewrite map_find_insert_same. by exists d.
Qed.

(** Assigning through the reference that [operator[]] returns sets the entry. *)
Lemma map_alter_insert k v f o : map_alter k f (map_insert k v o) = map_insert k (f v) o.
Proof.
  induction o as [|[k0 v0] o IH]; cbn [map_insert map_alter]; [by rewrite decide_True|].
  destruct (key_lt k k0) eqn:E1; [|destruct (key_lt k0 k) eqn:E2]; cbn [map_alter].
  - by rewrite decide_True.
  - rewrite decide_False, IH; [done|]. intros ->. by rewrite key_lt_irrefl in E2.
  - by rewrite decide_True by (by apply key_lt_total).
Qed.

Lemma above_trans k k0 o :
  key_lt k k0 = true -> Forall (fun e => key_lt k0 e.1 = true) o ->
  Forall (fun e => key_lt k e.1 = true) o.
Proof. intros Hk Ho. eapply Forall_impl; [exact Ho|]. intros e He. by eapply key_lt_trans. Qed.

Lemma map_alter_found k w v o :
  map_ordered o -> map_find k o = Some w -> map_alter k (fun _ => v) o = map_insert k v o.
Proof.
  induction 1 as [|[k0 v0] o Ho IH Hk]; cbn [map_find map_insert map_alter]; [done|].
  intros Hf. case_decide as E.
  - subst k0. by rewrite key_lt_irrefl.
  - destruct (key_lt k k0) eqn:E1; [|destruct (key_lt k0 k) eqn:E2].
    + rewrite map_find_above in Hf; [done|]. by eapply above_trans.
    + by rewrite IH.
    + by destruct E; apply key_lt_total.
Qed.

Lemma map_alter_index d k v o :
  map_ordered o -> map_alter k (fun _ => v) (map_index d k o) = map_insert k v o.
Proof.
  intros Ho. unfold map_index. destruct (map_find k o) as [w|] eqn:E.
  - by eapply map_alter_found.
  - by apply map_alter_insert.
Qed.

(** Inserting above all the keys appends. *)
Lemma map_insert_snoc k v o :
  Forall (fun e => key_lt e.1 k = true) o -> map_insert k v o = o ++ [(k, v)].
Proof.
  induction 1 as [|[k' v'] o H Ho IH]; [done|]. simpl in *.
  destruct (key_lt k k') eqn:E.
  - pose proof (key_lt_trans _ _ _ E H) as Hc. by rewrite key_lt_irrefl in Hc.
  - by rewrite H, IH.
Qed.

Lemma map_ordered_snoc o k v :
  map_ordered (o ++ [(k, v)]) -> map_ordered o /\ Forall (fun e => key_lt e.1 k = true) o.
Proof.
  intros H. apply StronglySorted_app in H as (H1 & H2 & _). split; [done|].
  apply Forall_forall. intros e He. by apply (H1 e (k, v)); [|left].
Qed.
End Map.

(** The entries of a map in their order, inserted one after the other, make it. *)
Definition map_of {V} (es : list (list Z * V)) : list (list Z * V) :=
  foldl (fun o e => map_insert e.1 e.2 o) [] es.

Lemma map_of_snoc {V} (es : list (list Z * V)) k v :
  map_of (es ++ [(k, v)]) = map_insert k v (map_of es).
Proof. unfold map_of. by rewrite foldl_app. Qed.

Lemma map_of_ordered {V} (es : list (list Z * V)) : map_ordered (map_of es).
Proof.
  induction es as [|[k v] es IH] using rev_ind; [constructor|].
  rewrite map_of_snoc. by apply map_insert_ordered.
Qed.

Lemma map_of_id {V} (o : list (list Z * V)) : map_ordered o -> map_of o = o.
Proof.
  induction o as [|[k v] o IH] using rev_ind; [done|]. intros H.
  apply map_ordered_snoc in H as [Ho Hk]. rewrite map_of_snoc, IH by done.
  by apply map_insert_snoc.
Qed.

(** ** Exceptions *)

Record position_t := {
  chars_read_total : Z;
  chars_read_current_line : Z;
  lines_read : Z;
}.

Definition exception_name (ename : string) (id : Z) : list Z :=
  bytes_of "[json.exception." ++ bytes_of ename ++ [ch "."] ++ to_string id ++ bytes_of "] ".

Definition position_string (pos : position_t) : list Z :=
  bytes_of " at line " ++ to_string (lines_read pos + 1) ++
  bytes_of ", column " ++ to_string (chars_read_current_line pos).

Definition parse_error_create (id : Z) (pos : position_t) (what_arg : list Z) : exn :=
  JsonException id (exception_name "parse_error" id ++ bytes_of "parse error" ++
    position_string pos ++ bytes_of ": " ++ what_arg).

Definition parse_error_create_at (id : Z) (byte : Z) (what_arg : list Z) : exn :=
  JsonException id (exception_name "parse_error" id ++ bytes_of "parse error" ++
    (if byte =? 0 then [] else bytes_of " at byte " ++ to_string byte) ++ bytes_of ": " ++ what_arg).

Definition type_error_create (id : Z) (what_arg : list Z) : exn :=
  JsonException id (exception_name "type_error" id ++ what_arg).

Definition out_of_range_create (id : Z) (what_arg : list Z) : exn :=
  JsonException id (exception_name "out_of_range" id ++ what_arg).
