(* ===== verification/JsonNumber.v ===== *)
(** The conversions of the C library that [src/util/nlohmann_json.hpp] applies
    to the numbers it scans, on the texts that it passes to them: [strtoull]
    and [strtoll] in base ten, with [ERANGE], and [strtod], which returns the
    double that is nearest to the number written, ties to even.

    A double is its bit pattern.  The pattern of the finite double [m * 2^e]
    that is not negative, where [m] has 53 bits or [e] is -1074, is
    [(e + 1074) * 2^52 + m]. *)

From Stdlib Require Import ZArith Lia.
From S2P Require Import Prelude JsonValue.
From stdpp Require Import base decidable option strings list.

Open Scope Z_scope.

(** ** Integers *)

Definition ULLONG_MAX : Z := 2 ^ 64 - 1.
Definition LLONG_MIN : Z := - 2 ^ 63.
Definition LLONG_MAX : Z := 2 ^ 63 - 1.

Fixpoint digit_prefix (s : list Z) : list Z :=
  match s with
  | c :: s => if is_digit c then c :: digit_prefix s else []
  | [] => []
  end.

(** The value, the number of characters read, and whether [errno] is set. *)
Record conversion := { value : Z; consumed : Z; erange : bool }.

Definition strtoull (s : list Z) : conversion :=
  let d := digit_prefix s in
  let n := decimal_value d in
  {| value := Z.min n ULLONG_MAX; consumed := zlen d; erange := ULLONG_MAX <? n |}.

Definition strtoll (s : list Z) : conversion :=
  match s with
  | c :: s' =>
      if c =? ch "-"
      then let d := digit_prefix s' in
           let n := - decimal_value d in
           {| value := Z.max n LLONG_MIN; consumed := 1 + zlen d; erange := n <? LLONG_MIN |}
      else let d := digit_prefix s in
           let n := decimal_value d in
           {| value := Z.min n LLONG_MAX; consumed := zlen d; erange := LLONG_MAX <? n |}
  | [] => {| value := 0; consumed := 0; erange := false |}
  end.

(** ** Doubles *)

Definition inf_bits : Z := 0x7FF * 2 ^ 52.

(** The quotient of two integers, rounded to the nearest integer, ties to even. *)
Definition round_quotient (a b : Z) : Z :=
  let q := a / b in
  let r := 2 * (a mod b) in
  if r <? b then q else if b <? r then q + 1 else if Z.even q then q else q + 1.

(** The exponent of the last place of the rational [num / den]. *)
Definition ulp_exponent (num den : Z) : Z :=
  let l := Z.log2 num - Z.log2 den in
  let l := if num * 2 ^ Z.max 0 (- l) <? den * 2 ^ Z.max 0 l then l - 1 else l in
  Z.max (-1074) (l - 52).

(** The nearest double to [num / den]. *)
Definition round_double (num den : Z) : Z :=
  if num =? 0 then 0
  else
    let e := ulp_exponent num den in
    let m := round_quotient (num * 2 ^ Z.max 0 (- e)) (den * 2 ^ Z.max 0 e) in
    Z.min inf_bits ((e + 1074) * 2 ^ 52 + m).

(** The double nearest to [d * 10^e]. *)
Definition decimal_double (d e : Z) : Z :=
  round_double (d * 10 ^ Z.max 0 e) (10 ^ Z.max 0 (- e)).

Definition sign_bit (neg : bool) : Z := if neg then 2 ^ 63 else 0.

Section Strtod.
(** The decimal point of the locale. *)
Variable decimal_point : list Z.

(** The digits behind the decimal point, and the number of characters read. *)
Definition fraction_part (s : list Z) : list Z * Z :=
  if decide (take (length decimal_point) s = decimal_point)
  then let d := digit_prefix (drop (length decimal_point) s) in (d, zlen decimal_point + zlen d)
  else ([], 0).

Definition exponent_part (s : list Z) : Z * Z :=
  match s with
  | c :: s' =>
      if (c =? ch "e") || (c =? ch "E")
      then
        let '(neg, k, s'') :=
          match s' with
          | d :: r => if d =? ch "-" then (true, 1, r)
                      else if d =? ch "+" then (false, 1, r)
                      else (false, 0, s')
          | [] => (false, 0, s')
          end in
        match digit_prefix s'' with
        | [] => (0, 0)
        | d => ((if neg : bool then -1 else 1) * decimal_value d, 1 + k + zlen d)
        end
      else (0, 0)
  | [] => (0, 0)
  end.

(** The value and the number of characters read. *)
Definition strtod (s : list Z) : Z * Z :=
  let '(neg, k, s1) :=
    match s with
    | c :: r => if c =? ch "-" then (true, 1, r) else (false, 0, s)
    | [] => (false, 0, s)
    end in
  let ip := digit_prefix s1 in
  let '(fp, kf) := fraction_part (drop (length ip) s1) in
  match ip ++ fp with
  | [] => (0, 0)
  | digits =>
      let '(ex, ke) := exponent_part (drop (Z.to_nat (zlen ip + kf)) s1) in
      (sign_bit neg + decimal_double (decimal_value digits) (ex - zlen fp), k + zlen ip + kf + ke)
  end.
End Strtod.
