(* ===== verification/JsonGrammar.v ===== *)
(** The language that [src/util/nlohmann_json.hpp] reads and writes: Unicode
    scalar values and UTF-8, and the grammar of RFC 8259 for strings, numbers
    and values, as relations between a text in bytes and what it denotes.  The
    lexer and the parser are proved to accept this language and nothing else,
    and the serializer to write texts of it. *)

From Stdlib Require Import ZArith Lia.
From S2P Require Import Prelude JsonValue JsonNumber.
From stdpp Require Import base decidable option strings list.

Open Scope Z_scope.

(** The tests on integers in the goal, decided by what is known or case by case. *)
Ltac ztests := repeat (
  match goal with
  | |- context [?a <=? ?b] => destruct (Z.leb_spec a b); try lia
  | |- context [?a <? ?b] => destruct (Z.ltb_spec a b); try lia
  | |- context [?a =? ?b] => destruct (Z.eqb_spec a b); try lia
  end; cbn [andb orb negb]).

(** ** UTF-8 *)

(** The bytes of a code point. *)
Definition utf8_encode (codepoint : Z) : list Z :=
  if codepoint <? 0x80 then [codepoint]
  else if codepoint <=? 0x7FF
  then [Z.lor 0xC0 (Z.shiftr codepoint 6); Z.lor 0x80 (Z.land codepoint 0x3F)]
  else if codepoint <=? 0xFFFF
  then [Z.lor 0xE0 (Z.shiftr codepoint 12);
        Z.lor 0x80 (Z.land (Z.shiftr codepoint 6) 0x3F);
        Z.lor 0x80 (Z.land codepoint 0x3F)]
  else [Z.lor 0xF0 (Z.shiftr codepoint 18);
        Z.lor 0x80 (Z.land (Z.shiftr codepoint 12) 0x3F);
        Z.lor 0x80 (Z.land (Z.shiftr codepoint 6) 0x3F);
        Z.lor 0x80 (Z.land codepoint 0x3F)].

(** A Unicode scalar value: a code point that is no surrogate. *)
Definition scalar (cp : Z) : Prop :=
  0 <= cp <= 0x10FFFF /\ ~ (0xD800 <= cp <= 0xDFFF).

Definition utf8 (cps : list Z) : list Z := mjoin (utf8_encode <$> cps).

(** A text in UTF-8. *)
Definition valid_utf8 (s : list Z) : Prop := exists cps, Forall scalar cps /\ s = utf8 cps.

(** The same in arithmetic. *)
Definition utf8_arith (cp : Z) : list Z :=
  if cp <? 0x80 then [cp]
  else if cp <=? 0x7FF then [0xC0 + cp / 64; 0x80 + cp mod 64]
  else if cp <=? 0xFFFF
  then [0xE0 + cp / 4096; 0x80 + cp / 64 mod 64; 0x80 + cp mod 64]
  else [0xF0 + cp / 262144; 0x80 + cp / 4096 mod 64; 0x80 + cp / 64 mod 64; 0x80 + cp mod 64].

Lemma lor_disjoint k n x : 0 <= x < 2 ^ n -> 0 <= n -> Z.lor (k * 2 ^ n) x = k * 2 ^ n + x.
Proof.
  intros Hx Hn. assert (H : Z.land (k * 2 ^ n) x = 0).
  { apply Z.bits_inj'. intros i Hi. rewrite Z.land_spec, Z.bits_0, <- Z.shiftl_mul_pow2 by done.
    destruct (Z.lt_ge_cases i n); [by rewrite Z.shiftl_spec_low|].
    rewrite <- (Z.mod_small x (2 ^ n)), Z.mod_pow2_bits_high by lia. apply andb_false_r. }
  by rewrite <- Z.lxor_lor, <- Z.add_nocarry_lxor.
Qed.

Lemma utf8_encode_arith cp : 0 <= cp <= 0x10FFFF -> utf8_encode cp = utf8_arith cp.
Proof.
  intros Hcp. unfold utf8_encode, utf8_arith. rewrite !Z.shiftr_div_pow2 by lia.
  change 0x3F with (Z.ones 6). rewrite !Z.land_ones by lia.
  assert (H6 : forall x, Z.lor 0x80 (x mod 2 ^ 6) = 0x80 + x mod 2 ^ 6).
  { intros x. apply (lor_disjoint 2 6); [apply Z.mod_pos_bound|]; lia. }
  rewrite !H6. change (2 ^ 6) with 64. change (2 ^ 12) with 4096. change (2 ^ 18) with 262144.
  destruct (Z.ltb_spec cp 0x80); [done|].
  destruct (Z.leb_spec cp 0x7FF); [|destruct (Z.leb_spec cp 0xFFFF)]; f_equal.
  - apply (lor_disjoint 6 5); [|lia]. Z.to_euclidean_division_equations; lia.
  - apply (lor_disjoint 14 4); [|lia]. Z.to_euclidean_division_equations; lia.
  - apply (lor_disjoint 30 3); [|lia]. Z.to_euclidean_division_equations; lia.
Qed.

Lemma utf8_encode_ascii cp : 0 <= cp < 0x80 -> utf8_encode cp = [cp].
Proof. intros H. unfold utf8_encode. destruct (Z.ltb_spec cp 0x80); [done|lia]. Qed.

Lemma utf8_encode_bytes cp : 0 <= cp <= 0x10FFFF -> bytes (utf8_encode cp).
Proof.
  intros H. rewrite utf8_encode_arith by done. unfold utf8_arith, bytes.
  repeat case_match; repeat constructor; unfold is_byte; Z.to_euclidean_division_equations; lia.
Qed.

Lemma utf8_cons cp cps : utf8 (cp :: cps) = utf8_encode cp ++ utf8 cps.
Proof. done. Qed.

Lemma utf8_app a b : utf8 (a ++ b) = utf8 a ++ utf8 b.
Proof. unfold utf8. by rewrite fmap_app, join_app. Qed.

Lemma utf8_bytes cps : Forall scalar cps -> bytes (utf8 cps).
Proof.
  induction 1 as [|cp cps [Hcp _] H IH]; [constructor|]. rewrite utf8_cons.
  apply Forall_app. split; [by apply utf8_encode_bytes|done].
Qed.

(** ** Strings *)

(** The value of the hexadecimal digit, as [get_codepoint] computes it. *)
Definition hex_value (c : Z) : option Z :=
  if (ch "0" <=? c) && (c <=? ch "9") then Some (c - 0x30)
  else if (ch "A" <=? c) && (c <=? ch "F") then Some (c - 0x37)
  else if (ch "a" <=? c) && (c <=? ch "f") then Some (c - 0x57)
  else None.

(** Four hexadecimal digits. *)
Definition hex4 (a b c d : Z) : option Z :=
  a ← hex_value a; b ← hex_value b; c ← hex_value c; d ← hex_value d;
  Some (a * 4096 + b * 256 + c * 16 + d).

(** The character that a letter behind a backslash stands for. *)
Definition escape_char (e : Z) : option Z :=
  if e =? 0x22 then Some 0x22
  else if e =? 0x5C then Some 0x5C
  else if e =? ch "/" then Some (ch "/")
  else if e =? ch "b" then Some 0x08
  else if e =? ch "f" then Some 0x0C
  else if e =? ch "n" then Some 0x0A
  else if e =? ch "r" then Some 0x0D
  else if e =? ch "t" then Some 0x09
  else None.

(** One character of a string: what is written, and the scalar value. *)
Inductive string_item : list Z -> Z -> Prop :=
  | item_char cp :
      scalar cp -> 0x20 <= cp -> cp <> 0x22 -> cp <> 0x5C -> string_item (utf8_encode cp) cp
  | item_escape e cp : escape_char e = Some cp -> string_item [0x5C; e] cp
  | item_unicode a b c d cp :
      hex4 a b c d = Some cp -> scalar cp -> string_item [0x5C; ch "u"; a; b; c; d] cp
  | item_pair a b c d a' b' c' d' hi lo :
      hex4 a b c d = Some hi -> 0xD800 <= hi <= 0xDBFF ->
      hex4 a' b' c' d' = Some lo -> 0xDC00 <= lo <= 0xDFFF ->
      string_item [0x5C; ch "u"; a; b; c; d; 0x5C; ch "u"; a'; b'; c'; d']
        (0x10000 + (hi - 0xD800) * 0x400 + (lo - 0xDC00)).

Inductive string_body : list Z -> list Z -> Prop :=
  | body_nil : string_body [] []
  | body_cons raw cp body cps :
      string_item raw cp -> string_body body cps -> string_body (raw ++ body) (cp :: cps).

Definition string_text (t s : list Z) : Prop :=
  exists body cps, t = 0x22 :: body ++ [0x22] /\ string_body body cps /\ s = utf8 cps.

(** ** Numbers *)

Definition digits (l : list Z) : Prop := Forall (fun c => is_digit c = true) l.

(** No leading zero. *)
Definition int_text (t : list Z) : Prop :=
  t = [ch "0"] \/ exists d l, t = d :: l /\ 0x31 <= d <= 0x39 /\ digits l.

Definition minus_text (neg : bool) : list Z := if neg then [ch "-"] else [].

(** The digits behind the point; none when there is no point. *)
Inductive frac_text : list Z -> list Z -> Prop :=
  | frac_none : frac_text [] []
  | frac_some d : digits d -> d <> [] -> frac_text (ch "." :: d) d.

Definition exponent_sign (s : list Z) : option Z :=
  match s with
  | [] => Some 1
  | [c] => if c =? ch "+" then Some 1 else if c =? ch "-" then Some (-1) else None
  | _ => None
  end.

Inductive exp_text : list Z -> Z -> Prop :=
  | exp_none : exp_text [] 0
  | exp_some c s d g :
      (c = ch "e" \/ c = ch "E") -> exponent_sign s = Some g -> digits d -> d <> [] ->
      exp_text (c :: s ++ d) (g * decimal_value d).

(** The value of a number with integer part [i], the digits [d] behind the
    point and the exponent [x], which is [e]: an integer of 64 bits when it is
    written as one and fits, or else the nearest double. *)
Definition number_value (neg : bool) (i d x : list Z) (e : Z) : json :=
  let n := decimal_value i in
  let float := Number_float (sign_bit neg + decimal_double (decimal_value (i ++ d)) (e - zlen d)) in
  match d, x with
  | [], [] => if neg
              then if LLONG_MIN <=? - n then Number_integer (- n) else float
              else if n <=? ULLONG_MAX then Number_unsigned n else float
  | _, _ => float
  end.

Inductive number_form : list Z -> json -> Prop :=
  | number_intro neg i f d x e :
      int_text i -> frac_text f d -> exp_text x e ->
      number_form (minus_text neg ++ i ++ f ++ x) (number_value neg i d x e).

(** A double must not overflow. *)
Definition finite_number (j : json) : bool :=
  match j with
  | Number_float v => isfinite v
  | _ => true
  end.

(** ** Values *)

Definition is_space (c : Z) : bool :=
  (c =? ch " ") || (c =? 0x09) || (c =? 0x0A) || (c =? 0x0D).

Definition ws (w : list Z) : Prop := Forall (fun c => is_space c = true) w.

(** A text and the tree of what is written, with the members of an object in
    the order in which they are written. *)
Inductive value_text : list Z -> json -> Prop :=
  | text_null : value_text (bytes_of "null") Null
  | text_true : value_text (bytes_of "true") (Boolean true)
  | text_false : value_text (bytes_of "false") (Boolean false)
  | text_string t s : string_text t s -> value_text t (Str s)
  | text_number t j : number_form t j -> finite_number j = true -> value_text t j
  | text_array_nil w : ws w -> value_text (ch "[" :: w ++ [ch "]"]) (Array [])
  | text_array t l : elements_text t l -> value_text (ch "[" :: t ++ [ch "]"]) (Array l)
  | text_object_nil w : ws w -> value_text (ch "{" :: w ++ [ch "}"]) (Object [])
  | text_object t es : members_text t es -> value_text (ch "{" :: t ++ [ch "}"]) (Object es)

with elements_text : list Z -> list json -> Prop :=
  | elements_one w t w' j :
      ws w -> value_text t j -> ws w' -> elements_text (w ++ t ++ w') [j]
  | elements_more w t w' j t' l :
      ws w -> value_text t j -> ws w' -> elements_text t' l ->
      elements_text (w ++ t ++ w' ++ ch "," :: t') (j :: l)

with members_text : list Z -> list (list Z * json) -> Prop :=
  | members_one w n w1 w2 t w' k j :
      ws w -> string_text n k -> ws w1 -> ws w2 -> value_text t j -> ws w' ->
      members_text (w ++ n ++ w1 ++ ch ":" :: w2 ++ t ++ w') [(k, j)]
  | members_more w n w1 w2 t w' k j t' es :
      ws w -> string_text n k -> ws w1 -> ws w2 -> value_text t j -> ws w' -> members_text t' es ->
      members_text (w ++ n ++ w1 ++ ch ":" :: w2 ++ t ++ w' ++ ch "," :: t') ((k, j) :: es).

Scheme value_text_min := Minimality for value_text Sort Prop
  with elements_text_min := Minimality for elements_text Sort Prop
  with members_text_min := Minimality for members_text Sort Prop.
Combined Scheme json_text_min from value_text_min, elements_text_min, members_text_min.

(** The value that a tree stands for: of members with the same name the last
    counts, and an object is sorted by the names. *)
Fixpoint build (j : json) : json :=
  match j with
  | Array l => Array (build <$> l)
  | Object es => Object (map_of ((fun e => (e.1, build e.2)) <$> es))
  | _ => j
  end.

Definition build_members (es : list (list Z * json)) : list (list Z * json) :=
  map_of ((fun e => (e.1, build e.2)) <$> es).

(** A text of RFC 8259 and its value: a value between white space.  Numbers
    outside of the range of a double are left out, as section 6 of the RFC
    allows. *)
Definition json_text (s : list Z) (j : json) : Prop :=
  exists w t w' v, s = w ++ t ++ w' /\ ws w /\ value_text t v /\ ws w' /\ j = build v.

Definition bom : list Z := [0xEF; 0xBB; 0xBF].

(** What the parser takes for a document: a JSON text, where a byte order mark
    may come first (section 8.1 of the RFC) and a zero byte ends the input,
    whatever follows it. *)
Definition document (s : list Z) (j : json) : Prop :=
  exists b t tl, s = b ++ t ++ tl /\ (b = [] \/ b = bom) /\ json_text t j /\
    (tl = [] \/ head tl = Some 0).

Lemma document_parts s j :
  document s j <->
  exists b w t w' tl v, s = b ++ w ++ t ++ w' ++ tl /\ (b = [] \/ b = bom) /\ ws w /\
    value_text t v /\ ws w' /\ (tl = [] \/ head tl = Some 0) /\ j = build v.
Proof.
  split.
  - intros (b & ? & tl & -> & Hb & (w & t & w' & v & -> & Hw & Hv & Hw' & ->) & Ht).
    exists b, w, t, w', tl, v. by rewrite <- !app_assoc.
  - intros (b & w & t & w' & tl & v & -> & Hb & Hw & Hv & Hw' & Ht & ->).
    exists b, (w ++ t ++ w'), tl. rewrite <- !app_assoc. split_and!; try done. by exists w, t, w', v.
Qed.

(** Without a mark and without a zero byte a document is a JSON text. *)
Lemma document_plain s j :
  head s <> Some 0xEF -> 0 ∉ s -> document s j <-> json_text s j.
Proof.
  intros Hh Hz. split.
  - intros (b & t & tl & -> & Hb & Hj & Ht). destruct Hb as [-> | ->]; [|done].
    destruct Ht as [-> | Ht]; [by rewrite app_nil_r|]. destruct tl as [|c tl]; [done|].
    injection Ht as ->. destruct Hz. apply elem_of_app. right. apply elem_of_app. right. by left.
  - intros Hj. exists [], s, []. rewrite app_nil_r. split_and!; [done|by left|done|by left].
Qed.
