(* ===== verification/JsonLexer.v ===== *)
(** The lexer of [src/util/nlohmann_json.hpp]: reading and putting back
    characters, strings with their escapes and UTF-8 sequences, numbers,
    literals, comments, white space and the byte order mark.

    The input is the list of the bytes that the adapter still has to deliver.
    [current] is a byte or [eof].  The counters of characters and lines are not
    bounded: an input of 2^64 characters does not exist. *)

From Stdlib Require Import ZArith Lia.
From S2P Require Import Prelude JsonValue JsonNumber JsonGrammar.
From stdpp Require Import base decidable option strings list.

Open Scope Z_scope.

Inductive token_type :=
  | uninitialized
  | literal_true
  | literal_false
  | literal_null
  | value_string
  | value_unsigned
  | value_integer
  | value_float
  | begin_array
  | begin_object
  | end_array
  | end_object
  | name_separator
  | value_separator
  | parse_error
  | end_of_input
  | literal_or_value.

#[export] Instance token_type_eq_dec : EqDecision token_type.
Proof. solve_decision. Defined.

Definition token_type_name (t : token_type) : string :=
  match t with
  | uninitialized => "<uninitialized>"
  | literal_true => "true literal"
  | literal_false => "false literal"
  | literal_null => "null literal"
  | value_string => "string literal"
  | value_unsigned | value_integer | value_float => "number literal"
  | begin_array => "'['"
  | begin_object => "'{'"
  | end_array => "']'"
  | end_object => "'}'"
  | name_separator => "':'"
  | value_separator => "','"
  | parse_error => "<parse error>"
  | end_of_input => "end of input"
  | literal_or_value => "'[', '{', or a literal"
  end.

Definition eof : Z := -1.

(** [char_traits<char>::to_char_type], as a byte. *)
Definition to_char_type (c : Z) : Z := c mod 256.

Record lexer := {
  ia : list Z;
  current : Z;
  next_unget : bool;
  position : position_t;
  token_string : list Z;
  token_buffer : list Z;
  error_message : string;
  number_integer : Z;
  number_unsigned : Z;
  number_float : Z;
}.

(** ** Input *)

(** [iterator_input_adapter::get_character]. *)
Definition get_character (s : list Z) : Z * list Z :=
  match s with
  | c :: s => (c, s)
  | [] => (eof, [])
  end.

Definition get (lx : lexer) : lexer :=
  let total := chars_read_total (position lx) + 1 in
  let line := chars_read_current_line (position lx) + 1 in
  let '(c, s) := if next_unget lx then (current lx, ia lx) else get_character (ia lx) in
  {| ia := s;
     current := c;
     next_unget := false;
     position :=
       if c =? 0x0A
       then {| chars_read_total := total; chars_read_current_line := 0;
               lines_read := lines_read (position lx) + 1 |}
       else {| chars_read_total := total; chars_read_current_line := line;
               lines_read := lines_read (position lx) |};
     token_string := if c =? eof then token_string lx else token_string lx ++ [to_char_type c];
     token_buffer := token_buffer lx;
     error_message := error_message lx;
     number_integer := number_integer lx;
     number_unsigned := number_unsigned lx;
     number_float := number_float lx |}.

Definition unget (lx : lexer) : outcome lexer :=
  let p := position lx in
  let pos :=
    if chars_read_current_line p =? 0
    then {| chars_read_total := chars_read_total p - 1; chars_read_current_line := 0;
            lines_read := if 0 <? lines_read p then lines_read p - 1 else lines_read p |}
    else {| chars_read_total := chars_read_total p - 1;
            chars_read_current_line := chars_read_current_line p - 1;
            lines_read := lines_read p |} in
  let put_back ts :=
    {| ia := ia lx; current := current lx; next_unget := true; position := pos;
       token_string := ts; token_buffer := token_buffer lx;
       error_message := error_message lx; number_integer := number_integer lx;
       number_unsigned := number_unsigned lx; number_float := number_float lx |} in
  if current lx =? eof then Ret (put_back (token_string lx))
  else match token_string lx with
       | [] => Undef AssertFailed
       | ts => Ret (put_back (removelast ts))
       end.

(** [token_buffer] and the strings with it, [error_message], and the values. *)
Definition set_buffer (lx : lexer) (ts tb : list Z) : lexer :=
  {| ia := ia lx; current := current lx; next_unget := next_unget lx; position := position lx;
     token_string := ts; token_buffer := tb;
     error_message := error_message lx; number_integer := number_integer lx;
     number_unsigned := number_unsigned lx; number_float := number_float lx |}.

Definition set_error (lx : lexer) (m : string) : lexer :=
  {| ia := ia lx; current := current lx; next_unget := next_unget lx; position := position lx;
     token_string := token_string lx; token_buffer := token_buffer lx;
     error_message := m; number_integer := number_integer lx;
     number_unsigned := number_unsigned lx; number_float := number_float lx |}.

Definition set_numbers (lx : lexer) (i u f : Z) : lexer :=
  {| ia := ia lx; current := current lx; next_unget := next_unget lx; position := position lx;
     token_string := token_string lx; token_buffer := token_buffer lx;
     error_message := error_message lx; number_integer := i;
     number_unsigned := u; number_float := f |}.

Definition reset (lx : lexer) : lexer := set_buffer lx [to_char_type (current lx)] [].

Definition add (c : Z) (lx : lexer) : lexer :=
  set_buffer lx (token_string lx) (token_buffer lx ++ [to_char_type c]).

(** The fuel of a loop that reads a character in every round: the characters
    left, one put back, and the end of the input. *)
Definition input_fuel (lx : lexer) : nat := length (ia lx) + 3.

(** ** Strings *)

Abbreviation scanned := (token_type * lexer)%type.

Definition fail_with (m : string) (lx : lexer) : outcome scanned := Ret (parse_error, set_error lx m).

Fixpoint get_codepoint_loop (factors : list Z) (codepoint : Z) (lx : lexer) : Z * lexer :=
  match factors with
  | [] => (codepoint, lx)
  | factor :: factors =>
      let lx := get lx in
      match hex_value (current lx) with
      | Some d => get_codepoint_loop factors (codepoint + Z.shiftl d factor) lx
      | None => (-1, lx)
      end
  end.

Definition get_codepoint (lx : lexer) : outcome (Z * lexer) :=
  if negb (current lx =? ch "u") then Undef AssertFailed
  else
    let '(codepoint, lx) := get_codepoint_loop [12; 8; 4; 0] 0 lx in
    if codepoint =? -1 then Ret (-1, lx)
    else if (0x0000 <=? codepoint) && (codepoint <=? 0xFFFF) then Ret (codepoint, lx)
    else Undef AssertFailed.

(** The ranges are pairs of bounds; at least one and at most three. *)
Fixpoint next_byte_loop (ranges : list (Z * Z)) (lx : lexer) : bool * lexer :=
  match ranges with
  | [] => (true, lx)
  | (lo, hi) :: ranges =>
      let lx := get lx in
      if (lo <=? current lx) && (current lx <=? hi)
      then next_byte_loop ranges (add (current lx) lx)
      else (false, set_error lx "invalid string: ill-formed UTF-8 byte")
  end.

Definition next_byte_in_range (ranges : list (Z * Z)) (lx : lexer) : bool * lexer :=
  next_byte_loop ranges (add (current lx) lx).

Definition add_all (cs : list Z) (lx : lexer) : lexer := foldl (fun lx c => add c lx) lx cs.

Definition hex_digits_message : string := "invalid string: '\u' must be followed by 4 hex digits".
Definition high_surrogate_message : string :=
  "invalid string: surrogate U+D800..U+DBFF must be followed by U+DC00..U+DFFF".
Definition low_surrogate_message : string :=
  "invalid string: surrogate U+DC00..U+DFFF must follow U+D800..U+DBFF".

(** The end of the case of [\u]: the code point is written. *)
Definition add_codepoint (codepoint : Z) (lx : lexer) : outcome (control lexer scanned) :=
  if (0x00 <=? codepoint) && (codepoint <=? 0x10FFFF)
  then Ret (Continue (add_all (utf8_encode codepoint) lx))
  else Undef AssertFailed.

Definition break_with {St} (m : string) (lx : lexer) : outcome (control St scanned) :=
  Ret (Break (parse_error, set_error lx m)).

(** The second half of a surrogate pair. *)
Definition scan_low_surrogate (codepoint1 : Z) (lx : lexer) : outcome (control lexer scanned) :=
  let lx := get lx in
  if negb (current lx =? 0x5C) then break_with high_surrogate_message lx
  else
    let lx := get lx in
    if negb (current lx =? ch "u") then break_with high_surrogate_message lx
    else
      '(codepoint2, lx) ← get_codepoint lx;
      if codepoint2 =? -1 then break_with hex_digits_message lx
      else if (0xDC00 <=? codepoint2) && (codepoint2 <=? 0xDFFF)
      then add_codepoint ((Z.shiftl codepoint1 10 + codepoint2 - 0x35FDC00) mod 2 ^ 32) lx
      else break_with high_surrogate_message lx.

Definition scan_unicode (lx : lexer) : outcome (control lexer scanned) :=
  '(codepoint1, lx) ← get_codepoint lx;
  if codepoint1 =? -1 then break_with hex_digits_message lx
  else if (0xD800 <=? codepoint1) && (codepoint1 <=? 0xDBFF) then scan_low_surrogate codepoint1 lx
  else if (0xDC00 <=? codepoint1) && (codepoint1 <=? 0xDFFF)
  then break_with low_surrogate_message lx
  else add_codepoint codepoint1 lx.

(** Behind a backslash. *)
Definition scan_escape (lx : lexer) : outcome (control lexer scanned) :=
  let lx := get lx in
  let c := current lx in
  if c =? 0x22 then Ret (Continue (add 0x22 lx))
  else if c =? 0x5C then Ret (Continue (add 0x5C lx))
  else if c =? ch "/" then Ret (Continue (add (ch "/") lx))
  else if c =? ch "b" then Ret (Continue (add 0x08 lx))
  else if c =? ch "f" then Ret (Continue (add 0x0C lx))
  else if c =? ch "n" then Ret (Continue (add 0x0A lx))
  else if c =? ch "r" then Ret (Continue (add 0x0D lx))
  else if c =? ch "t" then Ret (Continue (add 0x09 lx))
  else if c =? ch "u" then scan_unicode lx
  else break_with "invalid string: forbidden character after backslash" lx.

Definition control_messages : list string :=
  [ "invalid string: control character U+0000 (NUL) must be escaped to \u0000";
    "invalid string: control character U+0001 (SOH) must be escaped to \u0001";
    "invalid string: control character U+0002 (STX) must be escaped to \u0002";
    "invalid string: control character U+0003 (ETX) must be escaped to \u0003";
    "invalid string: control character U+0004 (EOT) must be escaped to \u0004";
    "invalid string: control character U+0005 (ENQ) must be escaped to \u0005";
    "invalid string: control character U+0006 (ACK) must be escaped to \u0006";
    "invalid string: control character U+0007 (BEL) must be escaped to \u0007";
    "invalid string: control character U+0008 (BS) must be escaped to \u0008 or \b";
    "invalid string: control character U+0009 (HT) must be escaped to \u0009 or \t";
    "invalid string: control character U+000A (LF) must be escaped to \u000A or \n";
    "invalid string: control character U+000B (VT) must be escaped to \u000B";
    "invalid string: control character U+000C (FF) must be escaped to \u000C or \f";
    "invalid string: control character U+000D (CR) must be escaped to \u000D or \r";
    "invalid string: control character U+000E (SO) must be escaped to \u000E";
    "invalid string: control character U+000F (SI) must be escaped to \u000F";
    "invalid string: control character U+0010 (DLE) must be escaped to \u0010";
    "invalid string: control character U+0011 (DC1) must be escaped to \u0011";
    "invalid string: control character U+0012 (DC2) must be escaped to \u0012";
    "invalid string: control character U+0013 (DC3) must be escaped to \u0013";
    "invalid string: control character U+0014 (DC4) must be escaped to \u0014";
    "invalid string: control character U+0015 (NAK) must be escaped to \u0015";
    "invalid string: control character U+0016 (SYN) must be escaped to \u0016";
    "invalid string: control character U+0017 (ETB) must be escaped to \u0017";
    "invalid string: control character U+0018 (CAN) must be escaped to \u0018";
    "invalid string: control character U+0019 (EM) must be escaped to \u0019";
    "invalid string: control character U+001A (SUB) must be escaped to \u001A";
    "invalid string: control character U+001B (ESC) must be escaped to \u001B";
    "invalid string: control character U+001C (FS) must be escaped to \u001C";
    "invalid string: control character U+001D (GS) must be escaped to \u001D";
    "invalid string: control character U+001E (RS) must be escaped to \u001E";
    "invalid string: control character U+001F (US) must be escaped to \u001F" ].

(** The ranges of the bytes that follow the first byte of a sequence. *)
Definition utf8_ranges (c : Z) : option (list (Z * Z)) :=
  if (0xC2 <=? c) && (c <=? 0xDF) then Some [(0x80, 0xBF)]
  else if c =? 0xE0 then Some [(0xA0, 0xBF); (0x80, 0xBF)]
  else if ((0xE1 <=? c) && (c <=? 0xEC)) || (c =? 0xEE) || (c =? 0xEF)
  then Some [(0x80, 0xBF); (0x80, 0xBF)]
  else if c =? 0xED then Some [(0x80, 0x9F); (0x80, 0xBF)]
  else if c =? 0xF0 then Some [(0x90, 0xBF); (0x80, 0xBF); (0x80, 0xBF)]
  else if (0xF1 <=? c) && (c <=? 0xF3) then Some [(0x80, 0xBF); (0x80, 0xBF); (0x80, 0xBF)]
  else if c =? 0xF4 then Some [(0x80, 0x8F); (0x80, 0xBF); (0x80, 0xBF)]
  else None.

Definition scan_string_step (lx : lexer) : outcome (control lexer scanned) :=
  let lx := get lx in
  let c := current lx in
  if c =? eof then break_with "invalid string: missing closing quote" lx
  else if c =? 0x22 then Ret (Break (value_string, lx))
  else if c =? 0x5C then scan_escape lx
  else if (0 <=? c) && (c <=? 0x1F)
  then break_with (default EmptyString (control_messages !! Z.to_nat c)) lx
  else if (0x20 <=? c) && (c <=? 0x7F) then Ret (Continue (add c lx))
  else match utf8_ranges c with
       | Some ranges =>
           let '(ok, lx) := next_byte_in_range ranges lx in
           if ok : bool then Ret (Continue lx) else Ret (Break (parse_error, lx))
       | None => break_with "invalid string: ill-formed UTF-8 byte" lx
       end.

Definition scan_string (lx : lexer) : outcome scanned :=
  let lx := reset lx in
  if negb (current lx =? 0x22) then Undef AssertFailed
  else while_loop (input_fuel lx) scan_string_step lx.

(** ** Comments *)

Definition line_comment_step (lx : lexer) : outcome (control lexer (bool * lexer)) :=
  let lx := get lx in
  let c := current lx in
  if (c =? 0x0A) || (c =? 0x0D) || (c =? eof) || (c =? 0) then Ret (Break (true, lx))
  else Ret (Continue lx).

Definition block_comment_step (lx : lexer) : outcome (control lexer (bool * lexer)) :=
  let lx := get lx in
  let c := current lx in
  if (c =? eof) || (c =? 0)
  then Ret (Break (false, set_error lx "invalid comment; missing closing '*/'"))
  else if c =? ch "*" then
    let lx := get lx in
    if current lx =? ch "/" then Ret (Break (true, lx))
    else lx ← unget lx; Ret (Continue lx)
  else Ret (Continue lx).

Definition scan_comment (lx : lexer) : outcome (bool * lexer) :=
  let lx := get lx in
  if current lx =? ch "/" then while_loop (input_fuel lx) line_comment_step lx
  else if current lx =? ch "*" then while_loop (input_fuel lx) block_comment_step lx
  else Ret (false, set_error lx "invalid comment; expecting '/' or '*' after '/'").

(** ** Numbers *)

(** The labels of [scan_number]. *)
Inductive number_state :=
  | scan_number_minus
  | scan_number_zero
  | scan_number_any1
  | scan_number_decimal1
  | scan_number_decimal2
  | scan_number_exponent
  | scan_number_sign
  | scan_number_any2.

Section Scan.
(** The text [localeconv()->decimal_point], which is not a null pointer. *)
Variable decimal_point : list Z.
Variable ignore_comments : bool.

Definition get_decimal_point : Z :=
  match decimal_point with
  | c :: _ => c
  | [] => 0
  end.

Definition is_exponent_char (c : Z) : bool := (c =? ch "e") || (c =? ch "E").

(** From a label to the next, or to [scan_number_done] or an error. *)
Definition number_step (x : number_state * token_type * lexer)
    : outcome (control (number_state * token_type * lexer) scanned) :=
  let '(st, number_type, lx) := x in
  let number_type :=
    match st with
    | scan_number_minus => value_integer
    | scan_number_decimal1 | scan_number_exponent => value_float
    | _ => number_type
    end in
  let lx := get lx in
  let c := current lx in
  let goto st := Ret (Continue (st, number_type, add c lx)) in
  let goto_point := Ret (Continue (scan_number_decimal1, number_type, add get_decimal_point lx)) in
  let goto_done := Ret (Break (number_type, lx)) in
  match st with
  | scan_number_minus =>
      if c =? ch "0" then goto scan_number_zero
      else if is_digit c then goto scan_number_any1
      else break_with "invalid number; expected digit after '-'" lx
  | scan_number_zero =>
      if c =? ch "." then goto_point
      else if is_exponent_char c then goto scan_number_exponent
      else goto_done
  | scan_number_any1 =>
      if is_digit c then goto scan_number_any1
      else if c =? ch "." then goto_point
      else if is_exponent_char c then goto scan_number_exponent
      else goto_done
  | scan_number_decimal1 =>
      if is_digit c then goto scan_number_decimal2
      else break_with "invalid number; expected digit after '.'" lx
  | scan_number_decimal2 =>
      if is_digit c then goto scan_number_decimal2
      else if is_exponent_char c then goto scan_number_exponent
      else goto_done
  | scan_number_exponent =>
      if (c =? ch "+") || (c =? ch "-") then goto scan_number_sign
      else if is_digit c then goto scan_number_any2
      else break_with "invalid number; expected '+', '-', or digit after exponent" lx
  | scan_number_sign =>
      if is_digit c then goto scan_number_any2
      else break_with "invalid number; expected digit after exponent sign" lx
  | scan_number_any2 =>
      if is_digit c then goto scan_number_any2 else goto_done
  end.

(** The conversion to a double, when the text is no integer or none that fits. *)
Definition convert_float (lx : lexer) : outcome scanned :=
  let '(x, n) := strtod decimal_point (token_buffer lx) in
  let lx := set_numbers lx (number_integer lx) (number_unsigned lx) x in
  if n =? zlen (token_buffer lx) then Ret (value_float, lx) else Undef AssertFailed.

Definition scan_number_done (number_type : token_type) (lx : lexer) : outcome scanned :=
  lx ← unget lx;
  match number_type with
  | value_unsigned =>
      let x := strtoull (token_buffer lx) in
      if negb (consumed x =? zlen (token_buffer lx)) then Undef AssertFailed
      else if erange x then convert_float lx
      else Ret (value_unsigned, set_numbers lx (number_integer lx) (value x) (number_float lx))
  | value_integer =>
      let x := strtoll (token_buffer lx) in
      if negb (consumed x =? zlen (token_buffer lx)) then Undef AssertFailed
      else if erange x then convert_float lx
      else Ret (value_integer, set_numbers lx (value x) (number_unsigned lx) (number_float lx))
  | _ => convert_float lx
  end.

Definition scan_number (lx : lexer) : outcome scanned :=
  let lx := reset lx in
  let c := current lx in
  let start st :=
    '(number_type, lx) ← while_loop (input_fuel lx) number_step (st, value_unsigned, add c lx);
    if decide (number_type = parse_error) then Ret (parse_error, lx)
    else scan_number_done number_type lx in
  if c =? ch "-" then start scan_number_minus
  else if c =? ch "0" then start scan_number_zero
  else if is_digit c then start scan_number_any1
  else Undef AssertFailed.

(** ** Literals, white space and the byte order mark *)

Fixpoint scan_literal_loop (literal_text : list Z) (return_type : token_type) (lx : lexer)
    : outcome scanned :=
  match literal_text with
  | [] => Ret (return_type, lx)
  | c :: literal_text =>
      let lx := get lx in
      if to_char_type (current lx) =? c then scan_literal_loop literal_text return_type lx
      else fail_with "invalid literal" lx
  end.

Definition scan_literal (literal_text : list Z) (return_type : token_type) (lx : lexer)
    : outcome scanned :=
  match literal_text with
  | c :: literal_text =>
      if to_char_type (current lx) =? c then scan_literal_loop literal_text return_type lx
      else Undef AssertFailed
  | [] => Undef OutOfBounds
  end.

Definition skip_bom (lx : lexer) : outcome (bool * lexer) :=
  let lx := get lx in
  if current lx =? 0xEF then
    let lx := get lx in
    if current lx =? 0xBB then let lx := get lx in Ret (current lx =? 0xBF, lx)
    else Ret (false, lx)
  else lx ← unget lx; Ret (true, lx).

Definition skip_whitespace_step (lx : lexer) : outcome (control lexer lexer) :=
  let lx := get lx in
  if is_space (current lx) then Ret (Continue lx) else Ret (Break lx).

Definition skip_whitespace (lx : lexer) : outcome lexer :=
  while_loop (input_fuel lx) skip_whitespace_step lx.

(** A comment and the white space behind it. *)
Definition skip_comment_step (lx : lexer) : outcome (control lexer (bool * lexer)) :=
  if ignore_comments && (current lx =? ch "/") then
    '(ok, lx) ← scan_comment lx;
    if ok : bool then lx ← skip_whitespace lx; Ret (Continue lx)
    else Ret (Break (false, lx))
  else Ret (Break (true, lx)).

(** The token that begins with the current character. *)
Definition scan_token (lx : lexer) : outcome scanned :=
  let c := current lx in
  if c =? ch "[" then Ret (begin_array, lx)
  else if c =? ch "]" then Ret (end_array, lx)
  else if c =? ch "{" then Ret (begin_object, lx)
  else if c =? ch "}" then Ret (end_object, lx)
  else if c =? ch ":" then Ret (name_separator, lx)
  else if c =? ch "," then Ret (value_separator, lx)
  else if c =? ch "t" then scan_literal (bytes_of "true") literal_true lx
  else if c =? ch "f" then scan_literal (bytes_of "false") literal_false lx
  else if c =? ch "n" then scan_literal (bytes_of "null") literal_null lx
  else if c =? 0x22 then scan_string lx
  else if (c =? ch "-") || is_digit c then scan_number lx
  else if (c =? 0) || (c =? eof) then Ret (end_of_input, lx)
  else fail_with "invalid literal" lx.

(** Behind the byte order mark. *)
Definition scan_next (lx : lexer) : outcome scanned :=
  lx ← skip_whitespace lx;
  '(ok, lx) ← while_loop (input_fuel lx) skip_comment_step lx;
  if ok : bool then scan_token lx else Ret (parse_error, lx).

Definition scan (lx : lexer) : outcome scanned :=
  '(ok, lx) ← (if chars_read_total (position lx) =? 0 then skip_bom lx else Ret (true, lx));
  if ok : bool then scan_next lx
  else fail_with "invalid BOM; must be 0xEF 0xBB 0xBF if given" lx.

(** A lexer at the beginning of its input. *)
Definition new_lexer (input : list Z) : lexer :=
  {| ia := input; current := eof; next_unget := false;
     position := {| chars_read_total := 0; chars_read_current_line := 0; lines_read := 0 |};
     token_string := []; token_buffer := []; error_message := "";
     number_integer := 0; number_unsigned := 0; number_float := 0 |}.
End Scan.

(** The printable form of the last token. *)
Definition get_token_string (lx : lexer) : list Z :=
  mjoin ((fun c => if c <=? 0x1F
                   then bytes_of "<U+00" ++ [0x30 + c / 16;
                          (if c mod 16 <? 10 then 0x30 else 0x37) + c mod 16] ++ bytes_of ">"
                   else [c]) <$> token_string lx).
