(* ===== verification/JsonScan.v ===== *)
(** The lexer of [src/util/nlohmann_json.hpp] against the grammar: from any
    input every call of [scan] returns, without a failed assertion, and the
    tokens that it delivers are exactly the texts of the grammar. *)

From Stdlib Require Import ZArith Lia.
From S2P Require Import Prelude JsonValue JsonNumber JsonGrammar JsonLexer.
From stdpp Require Import base decidable option strings list.

Open Scope Z_scope.

(** ** Where the lexer is in its input *)

(** The characters that [get] will deliver. *)
Definition rest (lx : lexer) : list Z :=
  if next_unget lx then (if current lx =? eof then [] else current lx :: ia lx) else ia lx.

Definition hd_eof (r : list Z) : Z := default eof (head r).

Definition cons_eof (c : Z) (r : list Z) : list Z := if c =? eof then r else c :: r.

(** [r] is still to be read; at least [k] characters have been. *)
Record before (k : Z) (lx : lexer) (r tb : list Z) : Prop := {
  before_rest : rest lx = r;
  before_buffer : token_buffer lx = tb;
  before_total : k <= chars_read_total (position lx);
  before_bytes : bytes r;
  before_end : next_unget lx = true -> current lx = eof -> ia lx = [];
}.

(** [c] has just been read, and [r] is still to be read. *)
Record at_char (k : Z) (lx : lexer) (c : Z) (r tb : list Z) : Prop := {
  at_current : current lx = c;
  at_ia : ia lx = r;
  at_unget : next_unget lx = false;
  at_buffer : token_buffer lx = tb;
  at_total : k <= chars_read_total (position lx);
  at_token : c <> eof -> token_string lx <> [];
  at_end : c = eof -> r = [];
  at_byte : c = eof \/ is_byte c;
  at_bytes : bytes r;
}.

Lemma hd_eof_cases r :
  bytes r ->
  (r = [] /\ hd_eof r = eof) \/ exists c r', r = c :: r' /\ hd_eof r = c /\ is_byte c /\ bytes r'.
Proof.
  intros H. destruct H as [|c r Hc Hr]; [by left|]. right. by exists c, r.
Qed.

Lemma byte_not_eof c : is_byte c -> c <> eof.
Proof. unfold is_byte, eof. lia. Qed.

Lemma to_char_byte c : is_byte c -> to_char_type c = c.
Proof. intros H. unfold to_char_type. by apply Z.mod_small. Qed.

Lemma at_before k lx c r tb : at_char k lx c r tb -> before k lx r tb.
Proof. intros [? ? Hu ? ? ? ? ? ?]. split; unfold rest; rewrite ?Hu; done. Qed.

Lemma before_weaken k k' lx r tb : k' <= k -> before k lx r tb -> before k' lx r tb.
Proof. intros Hk []. split; try done. lia. Qed.

Lemma at_weaken k k' lx c r tb : k' <= k -> at_char k lx c r tb -> at_char k' lx c r tb.
Proof. intros Hk []. split; try done. lia. Qed.

Lemma get_before k lx r tb :
  before k lx r tb -> at_char (k + 1) (get lx) (hd_eof r) (tail r) tb.
Proof.
  intros [Hr Hb Ht Hby He]. unfold rest in Hr. unfold get.
  assert (Hc : (if next_unget lx then (current lx, ia lx) else get_character (ia lx))
               = (hd_eof r, tail r)).
  { destruct (next_unget lx).
    - destruct (Z.eqb_spec (current lx) eof) as [E|E]; subst r; [|done].
      rewrite E, (He eq_refl E). done.
    - subst r. by destruct (ia lx). }
  rewrite Hc. clear Hc Hr He.
  destruct (hd_eof_cases r Hby) as [[-> E]|(c & r' & -> & E & Hc & Hr')]; rewrite E; simpl.
  - split; simpl; try done; [lia|by left].
  - pose proof (byte_not_eof c Hc). rewrite (proj2 (Z.eqb_neq c eof)) by done.
    split; simpl; try done; [destruct (c =? 10); simpl; lia| |by right].
    intros _ E'. by apply app_nil in E' as [_ ?].
Qed.

Lemma get_cons k lx c r tb :
  before k lx (c :: r) tb -> at_char (k + 1) (get lx) c r tb.
Proof. intros H. exact (get_before _ _ _ _ H). Qed.

Lemma get_nil k lx tb : before k lx [] tb -> at_char (k + 1) (get lx) eof [] tb.
Proof. intros H. exact (get_before _ _ _ _ H). Qed.

Lemma unget_at k lx c r tb :
  at_char k lx c r tb -> exists lx', unget lx = Ret lx' /\ before (k - 1) lx' (cons_eof c r) tb.
Proof.
  intros [Hc Hi Hu Hb Ht Hts He Hby Hbs]. unfold unget, cons_eof. rewrite Hc.
  set (pos := if _ =? 0 then _ else _).
  assert (Hpos : chars_read_total pos = chars_read_total (position lx) - 1)
    by (unfold pos; by destruct (_ =? 0)).
  destruct (Z.eqb_spec c eof) as [E|E].
  - eexists. split; [done|]. split; unfold rest; simpl; rewrite ?Hpos; try done.
    + rewrite E. simpl. symmetry. auto.
    + lia.
    + intros _ _. rewrite Hi. auto.
  - specialize (Hts E). destruct (token_string lx) as [|x ts] eqn:Ets; [done|].
    eexists. split; [done|]. split; unfold rest; simpl; rewrite ?Hpos, ?Hc; try done.
    + rewrite (proj2 (Z.eqb_neq c eof)) by done. by rewrite Hi.
    + lia.
    + constructor; [by destruct Hby|done].
Qed.

Lemma set_buffer_at k lx c r tb ts tb' :
  at_char k lx c r tb -> ts <> [] -> at_char k (set_buffer lx ts tb') c r tb'.
Proof. intros [] Hts. by split. Qed.

Lemma reset_at k lx c r tb : at_char k lx c r tb -> at_char k (reset lx) c r [].
Proof. intros H. by apply (set_buffer_at _ _ _ _ tb). Qed.

Lemma add_at k lx c r tb d :
  at_char k lx c r tb -> at_char k (add d lx) c r (tb ++ [to_char_type d]).
Proof. intros []. unfold add, set_buffer. split; simpl; try done. congruence. Qed.

Lemma add_byte_at k lx c r tb d :
  at_char k lx c r tb -> is_byte d -> at_char k (add d lx) c r (tb ++ [d]).
Proof. intros H Hd. rewrite <- (to_char_byte d Hd) at 2. by apply add_at. Qed.

Lemma add_all_at k lx c r tb ds :
  at_char k lx c r tb -> bytes ds -> at_char k (add_all ds lx) c r (tb ++ ds).
Proof.
  intros H Hds. revert lx tb H. induction Hds as [|d ds Hd Hds IH]; intros lx tb H; simpl.
  - by rewrite app_nil_r.
  - rewrite cons_middle, app_assoc. apply IH. by apply add_byte_at.
Qed.

Lemma set_error_at k lx c r tb m : at_char k lx c r tb -> at_char k (set_error lx m) c r tb.
Proof. intros []. by split. Qed.

Lemma set_numbers_before k lx r tb i u f :
  before k lx r tb -> before k (set_numbers lx i u f) r tb.
Proof. intros []. by split. Qed.

Lemma input_fuel_at k lx c r tb : at_char k lx c r tb -> (input_fuel lx = length r + 3)%nat.
Proof. intros []. unfold input_fuel. by subst r. Qed.

Lemma input_fuel_before k lx r tb : before k lx r tb -> (length r < input_fuel lx - 1)%nat.
Proof.
  intros []. unfold input_fuel, rest in *. subst r. repeat case_match; simpl; lia.
Qed.

Create HintDb lex.
#[export] Hint Resolve at_before get_cons get_nil reset_at add_byte_at set_error_at : lex.
#[export] Hint Resolve set_numbers_before byte_not_eof : lex.

Lemma add_before k lx r tb d :
  before k lx r tb -> is_byte d -> before k (add d lx) r (tb ++ [d]).
Proof. intros [] Hd. split; simpl; try done. rewrite to_char_byte by done. congruence. Qed.

Lemma add_all_before k lx r tb ds :
  before k lx r tb -> bytes ds -> before k (add_all ds lx) r (tb ++ ds).
Proof.
  intros H Hds. revert lx tb H. induction Hds as [|d ds Hd Hds IH]; intros lx tb H; simpl.
  - by rewrite app_nil_r.
  - rewrite cons_middle, app_assoc. apply IH. by apply add_before.
Qed.

Lemma set_error_before k lx r tb m : before k lx r tb -> before k (set_error lx m) r tb.
Proof. intros []. by split. Qed.

(** Somewhere in an input. *)
Definition somewhere (k : Z) (lx : lexer) : Prop := exists r tb, before k lx r tb.

Lemma before_somewhere k lx r tb : before k lx r tb -> somewhere k lx.
Proof. intros H. by exists r, tb. Qed.

Lemma error_somewhere k lx m : somewhere k lx -> somewhere k (set_error lx m).
Proof. intros (r & tb & H). exists r, tb. by apply set_error_before. Qed.

#[export] Hint Resolve add_before add_all_before set_error_before before_somewhere error_somewhere : lex.

(** Reading a character, from what is known of the input. *)
Lemma get_cases k lx r tb :
  before k lx r tb ->
  (r = [] /\ current (get lx) = eof /\ before k (get lx) [] tb) \/
  exists c r', r = c :: r' /\ current (get lx) = c /\ is_byte c /\ before (k + 1) (get lx) r' tb.
Proof.
  intros H. pose proof (get_before _ _ _ _ H) as Hg.
  destruct (hd_eof_cases r (before_bytes _ _ _ _ H)) as [[-> E]|(c & r' & -> & E & Hc & Hr')].
  - left. rewrite E in Hg. split; [done|]. split; [by apply Hg|].
    apply (before_weaken (k + 1)); [lia|]. eauto with lex.
  - right. rewrite E in Hg. exists c, r'. split; [done|]. split; [by apply Hg|]. eauto with lex.
Qed.

Lemma get_current k lx c r tb : before k lx (c :: r) tb -> current (get lx) = c.
Proof. intros H. by apply (get_cons _ _ _ _ _ H). Qed.

Lemma get_rest k lx c r tb : before k lx (c :: r) tb -> before k (get lx) r tb.
Proof. intros H. apply (before_weaken (k + 1)); [lia|]. eauto with lex. Qed.

#[export] Hint Resolve get_rest : lex.

(** ** Escapes *)

Lemma hex_value_range c v : hex_value c = Some v -> 0 <= v < 16 /\ c <> eof.
Proof.
  unfold hex_value, eof. intros H.
  repeat case_match; simplify_eq; rewrite ?andb_true_iff, ?Z.leb_le in *; lia.
Qed.

Lemma hex4_range a b c d cp : hex4 a b c d = Some cp -> 0 <= cp <= 0xFFFF.
Proof.
  unfold hex4. intros H.
  destruct (hex_value a) as [va|] eqn:Ea; [|done]. destruct (hex_value b) as [vb|] eqn:Eb; [|done].
  destruct (hex_value c) as [vc|] eqn:Ec; [|done]. destruct (hex_value d) as [vd|] eqn:Ed; [|done].
  injection H as <-. apply hex_value_range in Ea, Eb, Ec, Ed. lia.
Qed.

(** The digits that [get_codepoint] adds up. *)
Fixpoint hex_sum (factors ds : list Z) : option Z :=
  match factors, ds with
  | [], [] => Some 0
  | f :: factors, d :: ds => v ← hex_value d; s ← hex_sum factors ds; Some (Z.shiftl v f + s)
  | _, _ => None
  end.

Lemma hex_sum_hex4 a b c d : hex_sum [12; 8; 4; 0] [a; b; c; d] = hex4 a b c d.
Proof.
  unfold hex4. cbn [hex_sum].
  destruct (hex_value a) as [va|]; [|done]. destruct (hex_value b) as [vb|]; [|done].
  destruct (hex_value c) as [vc|]; [|done]. destruct (hex_value d) as [vd|]; [|done].
  cbn. rewrite !Z.shiftl_mul_pow2 by lia. f_equal. lia.
Qed.

Lemma codepoint_loop_complete factors ds s acc k lx r tb :
  hex_sum factors ds = Some s -> before k lx (ds ++ r) tb ->
  exists lx', get_codepoint_loop factors acc lx = (acc + s, lx') /\ before k lx' r tb.
Proof.
  revert ds s acc lx. induction factors as [|f factors IH]; intros [|d ds] s acc lx H Hlx;
    simplify_eq/=.
  - exists lx. by rewrite Z.add_0_r.
  - destruct (hex_value d) as [v|] eqn:Ev; [|done]. simpl in H.
    destruct (hex_sum factors ds) as [s'|] eqn:Es; [|done]. injection H as <-.
    rewrite (get_current _ _ _ _ _ Hlx), Ev.
    destruct (IH ds s' (acc + Z.shiftl v f) (get lx) Es) as (lx' & E & Hb); [eauto with lex|].
    exists lx'. split; [|done]. rewrite E. f_equal. lia.
Qed.

Lemma codepoint_loop_sound factors acc k lx r tb :
  before k lx r tb ->
  exists cp lx', get_codepoint_loop factors acc lx = (cp, lx') /\
    (cp = -1 /\ somewhere k lx' \/
     exists ds s r', r = ds ++ r' /\ hex_sum factors ds = Some s /\ cp = acc + s /\ before k lx' r' tb).
Proof.
  revert acc lx r. induction factors as [|f factors IH]; intros acc lx r H; simpl.
  - exists acc, lx. split; [done|]. right. exists [], 0, r. by rewrite Z.add_0_r.
  - destruct (get_cases _ _ _ _ H) as [(-> & E & Hb)|(c & r' & -> & E & Hc & Hb)]; rewrite E.
    + exists (-1), (get lx). split; [done|]. left. eauto with lex.
    + apply before_weaken with (k' := k) in Hb; [|lia].
      destruct (hex_value c) as [v|] eqn:Ev; [|exists (-1), (get lx); eauto with lex].
      destruct (IH (acc + Z.shiftl v f) _ _ Hb) as (cp & lx' & -> & [?|(ds & s & r'' & -> & Es & -> & ?)]).
      * exists cp, lx'. auto.
      * eexists _, lx'. split; [done|]. right. exists (c :: ds), (Z.shiftl v f + s), r''.
        simpl. rewrite Ev, Es. simpl. split_and!; [done..|lia|done].
Qed.

Lemma get_codepoint_complete a b c d cp k lx r tb :
  hex4 a b c d = Some cp -> current lx = ch "u" -> before k lx (a :: b :: c :: d :: r) tb ->
  exists lx', get_codepoint lx = Ret (cp, lx') /\ before k lx' r tb.
Proof.
  intros H Hu Hlx. pose proof (hex4_range _ _ _ _ _ H) as Hr. rewrite <- hex_sum_hex4 in H.
  destruct (codepoint_loop_complete _ _ _ 0 _ _ r _ H Hlx) as (lx' & E & Hb).
  exists lx'. split; [|done]. unfold get_codepoint. rewrite Hu, E, Z.add_0_l. simpl.
  destruct (Z.eqb_spec cp (-1)); [lia|]. destruct (Z.leb_spec 0 cp); [|lia].
  destruct (Z.leb_spec cp 0xFFFF); [done|lia].
Qed.

Lemma get_codepoint_sound k lx r tb :
  current lx = ch "u" -> before k lx r tb ->
  exists cp lx', get_codepoint lx = Ret (cp, lx') /\
    (cp = -1 /\ somewhere k lx' \/
     exists a b c d r', r = a :: b :: c :: d :: r' /\ hex4 a b c d = Some cp /\ before k lx' r' tb).
Proof.
  intros Hu Hlx. unfold get_codepoint. rewrite Hu. cbn [negb Z.eqb Pos.eqb].
  destruct (codepoint_loop_sound [12; 8; 4; 0] 0 _ _ _ _ Hlx)
    as (cp & lx' & -> & [[-> Hs]|(ds & s & r' & -> & Hs & -> & Hb)]).
  - exists (-1), lx'. auto.
  - destruct ds as [|a [|b [|c [|d [|]]]]]; simpl in Hs; try done;
      try (by repeat (destruct (hex_value _); simpl in Hs; try done)).
    change (hex_sum [12; 8; 4; 0] [a; b; c; d] = Some s) in Hs. rewrite hex_sum_hex4 in Hs.
    pose proof (hex4_range _ _ _ _ _ Hs). rewrite Z.add_0_l.
    destruct (Z.eqb_spec s (-1)); [lia|]. destruct (Z.leb_spec 0 s); [|lia].
    destruct (Z.leb_spec s 0xFFFF); [|lia]. exists s, lx'. split; [done|]. right. by exists a, b, c, d, r'.
Qed.

(** ** UTF-8 sequences *)

Definition in_range (x : Z) (range : Z * Z) : Prop := range.1 <= x <= range.2.

(** The ranges of the lexer are those of the scalar values beyond ASCII. *)
Lemma utf8_ranges_complete cp :
  scalar cp -> 0x80 <= cp ->
  exists c cs ranges, utf8_encode cp = c :: cs /\ 0x80 <= c < 256 /\
    utf8_ranges c = Some ranges /\ Forall2 in_range cs ranges.
Proof.
  intros [Hcp Hs] Hlo. rewrite utf8_encode_arith by done. unfold utf8_arith.
  destruct (Z.ltb_spec cp 0x80); [lia|].
  destruct (Z.leb_spec cp 0x7FF); [|destruct (Z.leb_spec cp 0xFFFF)].
  - assert (Hq : 2 <= cp / 64 < 32 /\ 0 <= cp mod 64 < 64)
      by (Z.to_euclidean_division_equations; lia).
    destruct Hq as [Hq Hm]. revert Hq. generalize (cp / 64). intros q Hq.
    exists (0xC0 + q), [0x80 + cp mod 64]. unfold utf8_ranges. ztests.
    eexists. do 3 (split; [done||lia|]). repeat constructor; simpl; lia.
  - assert (Hq : 0 <= cp / 4096 < 16 /\ 0 <= cp / 64 mod 64 < 64 /\ 0 <= cp mod 64 < 64 /\
        (0 < cp / 4096 \/ 32 <= cp / 64 mod 64) /\ ~ (cp / 4096 = 13 /\ 32 <= cp / 64 mod 64))
      by (Z.to_euclidean_division_equations; lia).
    revert Hq. generalize (cp / 4096) (cp / 64 mod 64). intros q m (Hq & Hm & Hl & Hz & Hd).
    exists (0xE0 + q), [0x80 + m; 0x80 + cp mod 64]. unfold utf8_ranges. ztests;
      (eexists; do 3 (split; [done||lia|]); repeat constructor; simpl; lia).
  - assert (Hq : 0 <= cp / 262144 <= 4 /\ 0 <= cp / 4096 mod 64 < 64 /\ 0 <= cp / 64 mod 64 < 64 /\
        0 <= cp mod 64 < 64 /\ (0 < cp / 262144 \/ 16 <= cp / 4096 mod 64) /\
        (cp / 262144 < 4 \/ cp / 4096 mod 64 < 16))
      by (Z.to_euclidean_division_equations; lia).
    revert Hq. generalize (cp / 262144) (cp / 4096 mod 64) (cp / 64 mod 64).
    intros q m m' (Hq & Hm & Hm' & Hl & Hz & Hd).
    exists (0xF0 + q), [0x80 + m; 0x80 + m'; 0x80 + cp mod 64]. unfold utf8_ranges. ztests;
      (eexists; do 3 (split; [done||lia|]); repeat constructor; simpl; lia).
Qed.

(** The scalar values of sequences of two, three and four bytes. *)
Lemma utf8_two c a :
  0xC2 <= c <= 0xDF -> 0x80 <= a <= 0xBF ->
  exists cp, scalar cp /\ 0x80 <= cp /\ utf8_encode cp = [c; a].
Proof.
  intros Hc Ha. exists ((c - 0xC0) * 64 + (a - 0x80)).
  split; [split; lia|]. split; [lia|]. rewrite utf8_encode_arith by lia.
  unfold utf8_arith. ztests. repeat f_equal; Z.to_euclidean_division_equations; lia.
Qed.

Lemma utf8_three c a b :
  0xE0 <= c <= 0xEF -> 0x80 <= a <= 0xBF -> 0x80 <= b <= 0xBF ->
  (c = 0xE0 -> 0xA0 <= a) -> (c = 0xED -> a <= 0x9F) ->
  exists cp, scalar cp /\ 0x80 <= cp /\ utf8_encode cp = [c; a; b].
Proof.
  intros Hc Ha Hb Hlo Hs. exists ((c - 0xE0) * 4096 + (a - 0x80) * 64 + (b - 0x80)).
  split; [split; lia|]. split; [lia|]. rewrite utf8_encode_arith by lia.
  unfold utf8_arith. ztests. repeat f_equal; Z.to_euclidean_division_equations; lia.
Qed.

Lemma utf8_four c a b d :
  0xF0 <= c <= 0xF4 -> 0x80 <= a <= 0xBF -> 0x80 <= b <= 0xBF -> 0x80 <= d <= 0xBF ->
  (c = 0xF0 -> 0x90 <= a) -> (c = 0xF4 -> a <= 0x8F) ->
  exists cp, scalar cp /\ 0x80 <= cp /\ utf8_encode cp = [c; a; b; d].
Proof.
  intros Hc Ha Hb Hd Hlo Hs.
  exists ((c - 0xF0) * 262144 + (a - 0x80) * 4096 + (b - 0x80) * 64 + (d - 0x80)).
  split; [split; lia|]. split; [lia|]. rewrite utf8_encode_arith by lia.
  unfold utf8_arith. ztests. repeat f_equal; Z.to_euclidean_division_equations; lia.
Qed.

Lemma utf8_ranges_sound c cs ranges :
  utf8_ranges c = Some ranges -> Forall2 in_range cs ranges ->
  exists cp, scalar cp /\ 0x80 <= cp /\ utf8_encode cp = c :: cs.
Proof.
  intros Hr HF. revert Hr. unfold utf8_ranges. ztests; intros [= <-];
    repeat match goal with
    | H : Forall2 _ _ (_ :: _) |- _ =>
        apply Forall2_cons_inv_r in H as (? & ? & [? ?] & ? & ->); cbn [fst snd] in *
    | H : Forall2 _ _ [] |- _ => apply Forall2_nil_inv_r in H as ->
    end; first [apply utf8_two|apply utf8_three|apply utf8_four]; lia.
Qed.

Lemma next_bytes_complete ranges cs k lx r tb :
  Forall2 in_range cs ranges -> before k lx (cs ++ r) tb ->
  exists lx', next_byte_loop ranges lx = (true, lx') /\ before k lx' r (tb ++ cs).
Proof.
  intros HF. revert lx tb. induction HF as [|c [lo hi] cs ranges [Hlo Hhi] HF IH]; intros lx tb H; simpl.
  - exists lx. by rewrite app_nil_r.
  - cbn [fst snd] in *. rewrite (get_current _ _ _ _ _ H).
    rewrite (proj2 (Z.leb_le lo c)), (proj2 (Z.leb_le c hi)) by done. simpl.
    pose proof (before_bytes _ _ _ _ H) as Hb. inversion_clear Hb.
    destruct (IH (add c (get lx)) (tb ++ [c])) as (lx' & -> & H'); [eauto with lex|].
    exists lx'. by rewrite <- app_assoc in H'.
Qed.

Lemma next_bytes_sound ranges k lx r tb :
  Forall (fun range => 0 <= range.1) ranges -> before k lx r tb ->
  exists ok lx', next_byte_loop ranges lx = (ok, lx') /\
    (ok = false /\ somewhere k lx' \/
     ok = true /\ exists cs r', r = cs ++ r' /\ Forall2 in_range cs ranges /\ before k lx' r' (tb ++ cs)).
Proof.
  intros Hr. revert lx r tb. induction Hr as [|[lo hi] ranges Hlo Hr IH]; intros lx r tb H; simpl.
  - exists true, lx. split; [done|]. right. split; [done|]. exists [], r. by rewrite app_nil_r.
  - cbn [fst] in Hlo.
    destruct (get_cases _ _ _ _ H) as [(-> & E & Hb)|(c & r' & -> & E & Hc & Hb)]; rewrite E.
    + unfold eof. destruct (Z.leb_spec lo (-1)); [lia|]. simpl. eauto 10 with lex.
    + apply before_weaken with (k' := k) in Hb; [|lia].
      destruct (Z.leb_spec lo c); [|simpl; eauto 10 with lex].
      destruct (Z.leb_spec c hi); [|simpl; eauto 10 with lex]. simpl.
      destruct (IH (add c (get lx)) r' (tb ++ [c])) as (ok & lx' & -> & Hres); [eauto with lex|].
      exists ok, lx'. split; [done|]. destruct Hres as [?|(-> & cs & r'' & -> & HF & Hb')]; [by left|].
      right. split; [done|]. exists (c :: cs), r''. rewrite <- app_assoc in Hb'. split; [done|].
      split; [by constructor|done].
Qed.

(** ** One character of a string *)

Lemma escape_range e cp : escape_char e = Some cp -> 0 <= cp < 0x80 /\ e <> ch "u".
Proof. unfold escape_char. intros H. repeat case_match; simplify_eq; rewrite ?Z.eqb_eq in *; lia. Qed.

Lemma add_codepoint_ok cp k lx r tb :
  0 <= cp <= 0x10FFFF -> before k lx r tb ->
  exists lx', add_codepoint cp lx = Ret (Continue lx') /\ before k lx' r (tb ++ utf8_encode cp).
Proof.
  intros Hcp H. unfold add_codepoint. ztests. eexists. split; [done|].
  apply add_all_before; [done|]. by apply utf8_encode_bytes.
Qed.

Lemma pair_value hi lo :
  0xD800 <= hi <= 0xDBFF -> 0xDC00 <= lo <= 0xDFFF ->
  (Z.shiftl hi 10 + lo - 0x35FDC00) mod 2 ^ 32 = 0x10000 + (hi - 0xD800) * 0x400 + (lo - 0xDC00).
Proof. intros Hh Hl. rewrite Z.shiftl_mul_pow2 by lia. rewrite Z.mod_small; lia. Qed.

Lemma scan_escape_letter e cp k lx r tb :
  escape_char e = Some cp -> before k lx (e :: r) tb ->
  exists lx', scan_escape lx = Ret (Continue lx') /\ before k lx' r (tb ++ utf8_encode cp).
Proof.
  intros He H. pose proof (escape_range _ _ He) as [Hr _]. rewrite utf8_encode_ascii by done.
  unfold scan_escape. rewrite (get_current _ _ _ _ _ H). unfold escape_char in He.
  repeat (case_match; [simplify_eq; eexists; split; [done|]; apply add_before; [eauto with lex|unfold is_byte; lia]|]).
  done.
Qed.

Lemma scan_escape_u k lx r tb :
  before k lx (ch "u" :: r) tb ->
  scan_escape lx = scan_unicode (get lx) /\ current (get lx) = ch "u" /\ before k (get lx) r tb.
Proof.
  intros H. pose proof (get_current _ _ _ _ _ H) as E. unfold scan_escape. rewrite E.
  split; [done|]. split; [done|]. eauto with lex.
Qed.

Lemma low_surrogate_complete hi a b c d lo k lx r tb :
  0xD800 <= hi <= 0xDBFF -> hex4 a b c d = Some lo -> 0xDC00 <= lo <= 0xDFFF ->
  before k lx (0x5C :: ch "u" :: a :: b :: c :: d :: r) tb ->
  exists lx', scan_low_surrogate hi lx = Ret (Continue lx') /\
    before k lx' r (tb ++ utf8_encode (0x10000 + (hi - 0xD800) * 0x400 + (lo - 0xDC00))).
Proof.
  intros Hh Hx Hl H. unfold scan_low_surrogate. rewrite (get_current _ _ _ _ _ H).
  cbn [negb Z.eqb Pos.eqb]. apply get_rest in H. pose proof (get_current _ _ _ _ _ H) as E. rewrite E.
  cbn [negb Z.eqb Pos.eqb]. apply get_rest in H.
  destruct (get_codepoint_complete _ _ _ _ _ _ _ _ _ Hx E H) as (lx' & -> & H'). bind_ret.
  ztests. rewrite pair_value by done. apply add_codepoint_ok; [lia|done].
Qed.

Lemma string_item_complete raw cp k lx r tb :
  string_item raw cp -> before k lx (raw ++ r) tb ->
  exists lx', scan_string_step lx = Ret (Continue lx') /\ before k lx' r (tb ++ utf8_encode cp).
Proof.
  intros Hi H. destruct Hi as [cp Hs Hlo Hq Hb|e cp He|a b c d cp Hx Hs|a b c d a' b' c' d' hi lo Hx Hh Hx' Hl];
    unfold scan_string_step.
  - destruct (Z.lt_ge_cases cp 0x80).
    + rewrite utf8_encode_ascii in * by lia. rewrite (get_current _ _ _ _ _ H). unfold eof. ztests.
      eexists. split; [done|]. apply add_before; [eauto with lex|unfold is_byte; lia].
    + destruct (utf8_ranges_complete cp Hs) as (c & cs & ranges & E & Hc & Er & HF); [done|].
      rewrite E in *. rewrite (get_current _ _ _ _ _ H), Er. unfold eof. ztests.
      unfold next_byte_in_range. rewrite (get_current _ _ _ _ _ H).
      destruct (next_bytes_complete ranges cs k (add c (get lx)) r (tb ++ [c])) as (lx' & -> & H');
        [done|apply add_before; [eauto with lex|unfold is_byte; lia]|].
      exists lx'. by rewrite <- app_assoc in H'.
  - rewrite (get_current _ _ _ _ _ H). cbn [Z.eqb Pos.eqb eof]. apply get_rest in H.
    by apply (scan_escape_letter e).
  - rewrite (get_current _ _ _ _ _ H). cbn [Z.eqb Pos.eqb eof]. apply get_rest in H.
    destruct (scan_escape_u _ _ _ _ H) as (-> & E & H'). unfold scan_unicode.
    destruct (get_codepoint_complete _ _ _ _ _ _ _ _ _ Hx E H') as (lx' & -> & Hlx'). bind_ret.
    destruct Hs. ztests; by apply add_codepoint_ok.
  - rewrite (get_current _ _ _ _ _ H). cbn [Z.eqb Pos.eqb eof]. apply get_rest in H.
    destruct (scan_escape_u _ _ _ _ H) as (-> & E & H'). unfold scan_unicode.
    destruct (get_codepoint_complete _ _ _ _ _ _ _ _ _ Hx E H') as (lx' & -> & Hlx'). bind_ret.
    ztests. by apply (low_surrogate_complete hi a' b' c' d').
Qed.

(** What a step does when [p] has been read of the character and [r] follows:
    it takes the rest of a character, or reports an error. *)
Definition item_post (k : Z) (p r tb : list Z) (ctl : control lexer scanned) : Prop :=
  match ctl with
  | Continue lx' => exists q cp r', r = q ++ r' /\ string_item (p ++ q) cp /\
      before k lx' r' (tb ++ utf8_encode cp)
  | Break (tok, lx') => tok = parse_error /\ somewhere k lx'
  end.

Lemma break_sound k p r tb lx m :
  somewhere k lx -> returns (break_with m lx) (item_post k p r tb).
Proof. intros H. apply returns_ret. split; [done|]. by apply error_somewhere. Qed.

Lemma codepoint_sound cp k p q r r' tb lx :
  0 <= cp <= 0x10FFFF -> string_item (p ++ q) cp -> r = q ++ r' -> before k lx r' tb ->
  returns (add_codepoint cp lx) (item_post k p r tb).
Proof.
  intros Hcp Hi -> H. destruct (add_codepoint_ok _ _ _ _ _ Hcp H) as (lx' & -> & H').
  apply returns_ret. by exists q, cp, r'.
Qed.

Lemma low_surrogate_sound hi a b c d k lx r tb :
  0xD800 <= hi <= 0xDBFF -> hex4 a b c d = Some hi -> before k lx r tb ->
  returns (scan_low_surrogate hi lx) (item_post k [0x5C; ch "u"; a; b; c; d] r tb).
Proof.
  intros Hh Hx H. unfold scan_low_surrogate.
  destruct (get_cases _ _ _ _ H) as [(-> & -> & H1)|(x & r1 & -> & -> & _ & H1)];
    [cbn [eof Z.eqb negb]; apply break_sound; eauto with lex|].
  apply before_weaken with (k' := k) in H1; [|lia].
  destruct (Z.eqb_spec x 0x5C) as [->|]; cbn [negb]; [|apply break_sound; eauto with lex].
  destruct (get_cases _ _ _ _ H1) as [(-> & -> & H2)|(x & r2 & -> & E & _ & H2)];
    [cbn [eof Z.eqb negb]; apply break_sound; eauto with lex|].
  rewrite E. apply before_weaken with (k' := k) in H2; [|lia].
  destruct (Z.eqb_spec x (ch "u")) as [->|]; cbn [negb]; [|apply break_sound; eauto with lex].
  destruct (get_codepoint_sound _ _ _ _ E H2) as (cp & lx' & -> & Hcp). bind_ret.
  destruct Hcp as [[-> Hs]|(a' & b' & c' & d' & r' & -> & Hx' & H')].
  - rewrite Z.eqb_refl. by apply break_sound.
  - pose proof (hex4_range _ _ _ _ _ Hx'). ztests; try (apply break_sound; eauto with lex).
    rewrite pair_value by lia. eapply (codepoint_sound _ _ _ [0x5C; ch "u"; a'; b'; c'; d']); try done; [lia|].
    by apply item_pair.
Qed.

Lemma scan_unicode_sound k lx r tb :
  current lx = ch "u" -> before k lx r tb ->
  returns (scan_unicode lx) (item_post k [0x5C; ch "u"] r tb).
Proof.
  intros E H. unfold scan_unicode.
  destruct (get_codepoint_sound _ _ _ _ E H) as (cp & lx' & -> & Hcp). bind_ret.
  destruct Hcp as [[-> Hs]|(a & b & c & d & r' & -> & Hx & H')].
  - rewrite Z.eqb_refl. by apply break_sound.
  - pose proof (hex4_range _ _ _ _ _ Hx). ztests; try (apply break_sound; eauto with lex);
      try (eapply (codepoint_sound _ _ _ [a; b; c; d]); try done; [lia|]; apply item_unicode; [done|split; lia]).
    apply (returns_mono _ (item_post k [0x5C; ch "u"; a; b; c; d] r' tb)); [by apply low_surrogate_sound|].
    intros [lx''|[tok lx'']]; [|done]. intros (q & cp' & r'' & -> & Hi & Hb).
    by exists (a :: b :: c :: d :: q), cp', r''.
Qed.

Lemma scan_escape_sound k lx r tb :
  before k lx r tb -> returns (scan_escape lx) (item_post k [0x5C] r tb).
Proof.
  intros H. destruct (get_cases _ _ _ _ H) as [(-> & E & H1)|(e & r' & -> & E & _ & H1)].
  - unfold scan_escape. rewrite E. cbn [eof Z.eqb Pos.eqb]. apply break_sound. eauto with lex.
  - apply before_weaken with (k' := k) in H1; [|lia].
    destruct (escape_char e) as [cp|] eqn:He.
    + destruct (scan_escape_letter _ _ _ _ _ _ He H) as (lx' & -> & H'). apply returns_ret.
      exists [e], cp, r'. split; [done|]. split; [by constructor|done].
    + destruct (Z.eqb_spec e (ch "u")) as [->|Hu].
      * destruct (scan_escape_u _ _ _ _ H) as (-> & E' & H').
        apply (returns_mono _ (item_post k [0x5C; ch "u"] r' tb)); [by apply scan_unicode_sound|].
        intros [lx''|[tok lx'']]; [|done]. intros (q & cp' & r'' & -> & Hi & Hb).
        by exists (ch "u" :: q), cp', r''.
      * unfold scan_escape. rewrite E. unfold escape_char in He.
        repeat (case_match; [done|]). rewrite (proj2 (Z.eqb_neq e _) Hu).
        apply break_sound. eauto with lex.
Qed.

(** A step of [scan_string]: a character, the closing quote or an error. *)
Definition step_post (k : Z) (r tb : list Z) (ctl : control lexer scanned) : Prop :=
  match ctl with
  | Break (value_string, lx') => exists r', r = 0x22 :: r' /\ before k lx' r' tb
  | _ => item_post k [] r tb ctl
  end.

Lemma step_post_item k r tb ctl : item_post k [] r tb ctl -> step_post k r tb ctl.
Proof. destruct ctl as [?|[tok ?]]; [done|]. by intros [-> ?]. Qed.

Lemma string_step_sound k lx r tb :
  before k lx r tb -> returns (scan_string_step lx) (step_post k r tb).
Proof.
  intros H. unfold scan_string_step.
  destruct (get_cases _ _ _ _ H) as [(-> & E & H1)|(c & r' & -> & E & Hc & H1)]; rewrite E.
  { eapply returns_mono; [|apply step_post_item]. apply break_sound. eauto with lex. }
  apply before_weaken with (k' := k) in H1; [|lia]. pose proof (byte_not_eof _ Hc).
  rewrite (proj2 (Z.eqb_neq c eof)) by done.
  destruct (Z.eqb_spec c 0x22) as [->|]; [apply returns_ret; by exists r'|].
  apply (returns_mono _ (item_post k [] (c :: r') tb)); [|intros ?; apply step_post_item].
  destruct (Z.eqb_spec c 0x5C) as [->|].
  { apply (returns_mono _ (item_post k [0x5C] r' tb)); [by apply scan_escape_sound|].
    intros [lx'|[tok lx']]; [|done]. intros (q & cp & r'' & -> & Hi & Hb). by exists (0x5C :: q), cp, r''. }
  unfold is_byte in Hc. destruct (Z.leb_spec 0 c); [|lia]. cbn [andb].
  destruct (Z.leb_spec c 0x1F); [apply break_sound; eauto with lex|].
  destruct (Z.leb_spec 0x20 c); [|lia]. cbn [andb]. destruct (Z.leb_spec c 0x7F).
  { apply returns_ret. exists [c], c, r'. rewrite utf8_encode_ascii by lia. split; [done|]. split.
    - rewrite <- (utf8_encode_ascii c) by lia. apply item_char; [split; lia|done..].
    - by apply add_before. }
  destruct (utf8_ranges c) as [ranges|] eqn:Er; [|apply break_sound; eauto with lex].
  unfold next_byte_in_range. rewrite E.
  destruct (next_bytes_sound ranges k (add c (get lx)) r' (tb ++ [c]))
    as (ok & lx' & -> & [[-> Hs]|(-> & cs & r'' & -> & HF & Hb)]).
  - revert Er. unfold utf8_ranges. ztests; intros [= <-]; repeat constructor; simpl; lia.
  - by apply add_before.
  - by apply returns_ret.
  - apply returns_ret. destruct (utf8_ranges_sound _ _ _ Er HF) as (cp & Hs & Hlo & Ecp).
    exists (c :: cs), cp, r''. split; [done|]. rewrite <- app_assoc in Hb. rewrite Ecp. split; [|done].
    cbn [app]. rewrite <- Ecp. apply item_char; [done|lia..].
Qed.

(** ** Strings *)

Lemma string_item_cons raw cp : string_item raw cp -> (1 <= length raw)%nat.
Proof.
  destruct 1 as [cp Hs| | |]; simpl; try lia. rewrite utf8_encode_arith by apply Hs.
  unfold utf8_arith. repeat case_match; simpl; lia.
Qed.

Lemma string_loop_complete body cps fuel k lx r tb :
  string_body body cps -> (length body < fuel)%nat -> before k lx (body ++ 0x22 :: r) tb ->
  exists lx', while_loop fuel scan_string_step lx = Ret (value_string, lx') /\
    before k lx' r (tb ++ utf8 cps).
Proof.
  intros Hb. revert fuel lx tb. induction Hb as [|raw cp body cps Hi Hb IH]; intros [|fuel] lx tb Hf H; try lia.
  - simpl. unfold scan_string_step. rewrite (get_current _ _ _ _ _ H).
    cbn [Z.eqb Pos.eqb eof]. bind_ret. exists (get lx). split; [done|].
    unfold utf8. simpl. rewrite app_nil_r. eauto with lex.
  - rewrite <- app_assoc in H.
    destruct (string_item_complete _ _ _ _ _ _ Hi H) as (lx' & E & H').
    simpl. rewrite E. bind_ret. pose proof (string_item_cons _ _ Hi). rewrite length_app in Hf.
    destruct (IH fuel lx' (tb ++ utf8_encode cp)) as (lx'' & E' & H''); [lia|done|].
    exists lx''. split; [done|]. by rewrite utf8_cons, app_assoc.
Qed.

(** The result of a scan: a token with what is known of it, or an error. *)
Definition token_or_error (k : Z) (Q : token_type -> lexer -> Prop) (x : scanned) : Prop :=
  Q x.1 x.2 \/ x.1 = parse_error /\ somewhere k x.2.

Definition string_post (k : Z) (r tb : list Z) (tok : token_type) (lx : lexer) : Prop :=
  tok = value_string /\ exists body cps r', r = body ++ 0x22 :: r' /\ string_body body cps /\
    before k lx r' (tb ++ utf8 cps).

Lemma string_loop_sound fuel k lx r tb :
  (length r < fuel)%nat -> before k lx r tb ->
  returns (while_loop fuel scan_string_step lx) (token_or_error k (string_post k r tb)).
Proof.
  revert lx r tb. induction fuel as [|fuel IH]; intros lx r tb Hf H; [lia|]. simpl.
  destruct (string_step_sound _ _ _ _ H) as (ctl & -> & Hs). bind_ret.
  destruct ctl as [lx'|[tok lx']].
  - destruct Hs as (raw & cp & r' & -> & Hi & Hb). pose proof (string_item_cons _ _ Hi) as Hc.
    simpl in Hi, Hc. rewrite length_app in Hf.
    eapply returns_mono; [apply (IH lx' r' (tb ++ utf8_encode cp)); [lia|done]|].
    intros [tok lx''] [(Htok & body & cps & r'' & -> & Hbody & Hb')|?]; [left|by right].
    split; [done|]. exists (raw ++ body), (cp :: cps), r''. rewrite <- app_assoc. split; [done|].
    split; [by constructor|]. by rewrite utf8_cons, app_assoc.
  - apply returns_ret. destruct (decide (tok = value_string)) as [->|Hne].
    + destruct Hs as (r' & -> & Hb). left. split; [done|]. exists [], [], r'.
      split; [done|]. split; [constructor|]. unfold utf8. simpl. by rewrite app_nil_r.
    + right. by destruct tok.
Qed.

Lemma scan_string_complete body cps k lx r tb :
  string_body body cps -> at_char k lx 0x22 (body ++ 0x22 :: r) tb ->
  exists lx', scan_string lx = Ret (value_string, lx') /\ before k lx' r (utf8 cps).
Proof.
  intros Hb H. apply reset_at in H. unfold scan_string. rewrite (at_current _ _ _ _ _ H).
  cbn [negb Z.eqb Pos.eqb]. rewrite (input_fuel_at _ _ _ _ _ H), length_app. simpl.
  apply (string_loop_complete body cps _ k _ r []); [done|lia|eauto with lex].
Qed.

Lemma scan_string_sound k lx r tb :
  at_char k lx 0x22 r tb -> returns (scan_string lx) (token_or_error k (string_post k r [])).
Proof.
  intros H. apply reset_at in H. unfold scan_string. rewrite (at_current _ _ _ _ _ H).
  cbn [negb Z.eqb Pos.eqb]. rewrite (input_fuel_at _ _ _ _ _ H).
  apply string_loop_sound; [lia|eauto with lex].
Qed.

(** ** White space, literals and comments *)

Fixpoint drop_ws (r : list Z) : list Z :=
  match r with
  | c :: r' => if is_space c then drop_ws r' else r
  | [] => []
  end.

Lemma drop_ws_split r : exists w, r = w ++ drop_ws r /\ ws w.
Proof.
  induction r as [|c r (w & E & Hw)]; [by exists []; split; [|constructor]|].
  simpl. destruct (is_space c) eqn:Ec.
  - exists (c :: w). split; [cbn [app]; by f_equal|by constructor].
  - exists []. by split; [|constructor].
Qed.

Lemma drop_ws_app w r : ws w -> drop_ws (w ++ r) = drop_ws r.
Proof. induction 1 as [|c w Hc Hw IH]; [done|]. simpl. by rewrite Hc. Qed.

Lemma drop_ws_head r c r' : drop_ws r = c :: r' -> is_space c = false.
Proof.
  induction r as [|d r IH]; [done|]. simpl. destruct (is_space d) eqn:E; [done|]. by intros [= <- _].
Qed.

Lemma skip_whitespace_spec k lx r tb :
  before k lx r tb ->
  returns (skip_whitespace lx) (fun lx' =>
    at_char (k + 1) lx' (hd_eof (drop_ws r)) (tail (drop_ws r)) tb).
Proof.
  intros H. unfold skip_whitespace. pose proof (input_fuel_before _ _ _ _ H) as Hf.
  remember (input_fuel lx) as fuel eqn:E. clear E. assert (Hf' : (length r < fuel)%nat) by lia. clear Hf.
  revert lx fuel H Hf'. induction r as [|c r IH]; intros lx [|fuel] H Hf; try (simpl in Hf; lia);
    simpl; unfold skip_whitespace_step.
  - pose proof (get_nil _ _ _ H) as Hg. rewrite (at_current _ _ _ _ _ Hg). bind_ret. by apply returns_ret.
  - pose proof (get_cons _ _ _ _ _ H) as Hg. rewrite (at_current _ _ _ _ _ Hg).
    destruct (is_space c); bind_ret; [|by apply returns_ret].
    apply IH; [eauto with lex|simpl in Hf; lia].
Qed.
