(* ===== verification/JsonScanNumber.v ===== *)
(** The numbers that the lexer of [src/util/nlohmann_json.hpp] scans, against
    the grammar, and the conversions of the C library on them. *)

From Stdlib Require Import ZArith Lia.
From S2P Require Import Prelude JsonValue JsonNumber JsonGrammar JsonLexer JsonScan.
From stdpp Require Import base decidable option strings list.

Open Scope Z_scope.

(** ** Numbers *)

Lemma is_digit_byte c : is_digit c = true -> is_byte c.
Proof. rewrite is_digit_spec. unfold is_byte. lia. Qed.

Lemma digits_bytes l : digits l -> bytes l.
Proof. intros H. eapply Forall_impl; [exact H|]. apply is_digit_byte. Qed.

Lemma digit_prefix_app d r :
  digits d -> is_digit (hd_eof r) = false -> digit_prefix (d ++ r) = d.
Proof.
  intros Hd Hr. induction Hd as [|c d Hc Hd IH]; simpl.
  - destruct r as [|c r]; [done|]. simpl. unfold hd_eof in Hr. simpl in Hr. by rewrite Hr.
  - by rewrite Hc, IH.
Qed.

Lemma digit_prefix_all d : digits d -> digit_prefix d = d.
Proof. intros H. rewrite <- (app_nil_r d) at 1. by apply digit_prefix_app. Qed.

Lemma int_text_digits i : int_text i -> digits i.
Proof.
  intros [->|(d & l & -> & Hd & Hl)]; [by repeat constructor|].
  constructor; [|done]. apply is_digit_spec. lia.
Qed.

Lemma int_text_nonnil i : int_text i -> i <> [].
Proof. by intros [->|(d & l & -> & _)]. Qed.

Create HintDb label.

Section Numbers.
Context (dp : Z).
Hypotheses (Hdp_byte : is_byte dp) (Hdp_digit : is_digit dp = false)
  (Hdp_exp : is_exponent_char dp = false).

(** The fraction as it is stored in [token_buffer]. *)
Definition frac_buffer (f : list Z) : list Z :=
  match f with
  | [] => []
  | _ :: d => dp :: d
  end.

Lemma exp_text_head x e : exp_text x e -> x = [] \/ exists c x', x = c :: x' /\ is_exponent_char c = true.
Proof.
  intros [|c s d g Hc _ _ _]; [by left|right]. exists c, (s ++ d). split; [done|].
  unfold is_exponent_char. by destruct Hc as [-> | ->].
Qed.

Lemma exponent_not_digit c : is_exponent_char c = true -> is_digit c = false.
Proof. unfold is_exponent_char, is_digit. rewrite orb_true_iff, !Z.eqb_eq. intros [-> | ->]; done. Qed.

Lemma exponent_part_ok x e : exp_text x e -> exponent_part x = (e, zlen x).
Proof.
  intros [|c s d g Hc Hs Hd Hn]; [done|]. simpl.
  assert (Ec : (c =? ch "e") || (c =? ch "E") = true) by (by destruct Hc as [-> | ->]). rewrite Ec.
  pose proof (digit_prefix_all d Hd) as Ep. destruct d as [|d0 d]; [done|].
  assert (Hd0 : is_digit d0 = true) by (by inversion_clear Hd). apply is_digit_spec in Hd0.
  destruct s as [|s0 [|]]; simpl in Hs; [injection Hs as <-| |done].
  - cbn [app]. ztests. rewrite Ep. f_equal. len.
  - cbn [app]. revert Hs. ztests; intros [= <-]; rewrite Ep; f_equal; len.
Qed.

Lemma fraction_part_ok f d x e :
  frac_text f d -> exp_text x e -> fraction_part [dp] (frac_buffer f ++ x) = (d, zlen (frac_buffer f)).
Proof.
  intros Hf Hx. unfold fraction_part. destruct Hf as [|d Hd Hn]; cbn [frac_buffer app].
  - rewrite decide_False; [done|]. destruct (exp_text_head _ _ Hx) as [->|(c & x' & -> & Hc)]; [done|].
    simpl. intros [= ->]. by rewrite Hdp_exp in Hc.
  - rewrite decide_True by (simpl; by rewrite take_0). cbn [length drop].
    replace (drop 0 (d ++ x)) with (d ++ x) by done. rewrite digit_prefix_app; [f_equal; len|done|].
    destruct (exp_text_head _ _ Hx) as [->|(c & x' & -> & Hc)]; [done|]. by apply exponent_not_digit.
Qed.

Lemma strtod_ok neg i f d x e :
  int_text i -> frac_text f d -> exp_text x e ->
  strtod [dp] (minus_text neg ++ i ++ frac_buffer f ++ x) =
    (sign_bit neg + decimal_double (decimal_value (i ++ d)) (e - zlen d),
     zlen (minus_text neg ++ i ++ frac_buffer f ++ x)).
Proof.
  intros Hi Hf Hx. pose proof (int_text_digits _ Hi) as Hid.
  pose proof (int_text_nonnil _ Hi) as Hin.
  assert (Hs : forall s, exists k, k = zlen (minus_text neg) /\
    match minus_text neg ++ i ++ s with
    | c :: r => if c =? ch "-" then (true, 1, r) else (false, 0, minus_text neg ++ i ++ s)
    | [] => (false, 0, minus_text neg ++ i ++ s)
    end = (neg, k, i ++ s)).
  { intros s. eexists. split; [done|]. destruct neg; [done|]. simpl.
    destruct Hid as [|c i Hc Hid]; [done|]. apply is_digit_spec in Hc. simpl. ztests. done. }
  unfold strtod. destruct (Hs (frac_buffer f ++ x)) as (k & Hk & ->).
  rewrite digit_prefix_app; [|done|].
  - rewrite drop_app_length, (fraction_part_ok _ _ _ _ Hf Hx).
    destruct (i ++ d) as [|c l] eqn:El; [by apply app_nil in El as [-> _]|]. rewrite <- El.
    replace (Z.to_nat (zlen i + zlen (frac_buffer f))) with (length (i ++ frac_buffer f)) by len.
    rewrite (app_assoc i), drop_app_length, (exponent_part_ok _ _ Hx). f_equal. subst k. len.
  - destruct Hf; simpl; [|done]. destruct (exp_text_head _ _ Hx) as [->|(c & x' & -> & Hc)]; [done|].
    by apply exponent_not_digit.
Qed.

Abbreviation step := (number_step [dp]).

Definition int_type (neg : bool) : token_type := if neg then value_integer else value_unsigned.

(** The type that [scan_number] ends with. *)
Definition number_type (neg : bool) (f x : list Z) : token_type :=
  match f, x with
  | [], [] => int_type neg
  | _, _ => value_float
  end.

(** The number that is in the lexer behind a token. *)
Definition token_number (tok : token_type) (lx : lexer) : option json :=
  match tok with
  | value_unsigned => Some (Number_unsigned (number_unsigned lx))
  | value_integer => Some (Number_integer (number_integer lx))
  | value_float => Some (Number_float (number_float lx))
  | _ => None
  end.

Lemma convert_float_ok neg i f d x e k lx r :
  int_text i -> frac_text f d -> exp_text x e ->
  before k lx r (minus_text neg ++ i ++ frac_buffer f ++ x) ->
  exists lx', convert_float [dp] lx = Ret (value_float, lx') /\
    token_number value_float lx' =
      Some (Number_float (sign_bit neg + decimal_double (decimal_value (i ++ d)) (e - zlen d))) /\
    before k lx' r (minus_text neg ++ i ++ frac_buffer f ++ x).
Proof.
  intros Hi Hf Hx H. unfold convert_float. rewrite (before_buffer _ _ _ _ H).
  rewrite (strtod_ok neg i f d x e) by done. cbn [token_buffer set_numbers].
  rewrite (before_buffer _ _ _ _ H), Z.eqb_refl. eexists. split; [done|]. split; [done|].
  by apply set_numbers_before.
Qed.

(** The end of [scan_number]: the value is that of the grammar. *)
Lemma number_done_ok neg i f d x e k lx c r :
  int_text i -> frac_text f d -> exp_text x e ->
  at_char k lx c r (minus_text neg ++ i ++ frac_buffer f ++ x) ->
  exists tok lx', scan_number_done [dp] (number_type neg f x) lx = Ret (tok, lx') /\
    token_number tok lx' = Some (number_value neg i d x e) /\
    before (k - 1) lx' (cons_eof c r) (minus_text neg ++ i ++ frac_buffer f ++ x).
Proof.
  intros Hi Hf Hx H. pose proof (int_text_digits _ Hi) as Hid.
  destruct (unget_at _ _ _ _ _ H) as (lx1 & E & H1). unfold scan_number_done. rewrite E. bind_ret.
  destruct (convert_float_ok neg i f d x e _ _ _ Hi Hf Hx H1) as (lx2 & Ef & Ev & H2).
  rewrite (before_buffer _ _ _ _ H1).
  destruct Hf as [|d Hd Hn]; [destruct Hx as [|c' s d' g]|]; cbn [number_type frac_buffer app] in *;
    try (exists value_float, lx2; rewrite Ef; split; [done|]; rewrite Ev;
         split; [first [done|by destruct d]|done]).
  rewrite app_nil_r in *. cbn [number_value]. destruct neg; cbn [int_type].
  - cbn [minus_text app strtoll Z.eqb Pos.eqb]. cbv zeta. rewrite digit_prefix_all by done.
    cbn [consumed erange value]. rewrite (proj2 (Z.eqb_eq _ _)) by len. cbn [negb].
    destruct (Z.leb_spec LLONG_MIN (- decimal_value i)).
    + rewrite (proj2 (Z.ltb_ge _ _)) by done. do 2 eexists. split; [done|]. simpl.
      rewrite Z.max_l by done. split; [done|]. by apply set_numbers_before.
    + rewrite (proj2 (Z.ltb_lt _ _)) by done. exists value_float, lx2. rewrite Ef, app_nil_r. auto.
  - cbn [minus_text app]. unfold strtoull. cbv zeta. rewrite digit_prefix_all by done.
    cbn [consumed erange value]. rewrite Z.eqb_refl. cbn [negb].
    destruct (Z.leb_spec (decimal_value i) ULLONG_MAX).
    + rewrite (proj2 (Z.ltb_ge _ _)) by done. do 2 eexists. split; [done|]. simpl.
      rewrite Z.min_l by done. split; [done|]. by apply set_numbers_before.
    + rewrite (proj2 (Z.ltb_lt _ _)) by done. exists value_float, lx2. rewrite Ef, app_nil_r. auto.
Qed.

(** *** The labels, along a number of the grammar *)

(** A character that does not continue a number. *)
Definition number_stop (c : Z) : Prop :=
  is_digit c = false /\ c <> ch "." /\ is_exponent_char c = false.

Definition accepting (st : number_state) : Prop :=
  st = scan_number_zero \/ st = scan_number_any1 \/ st = scan_number_decimal2 \/ st = scan_number_any2.

Lemma digit_not_point c : is_digit c = true -> c <> ch ".".
Proof. rewrite is_digit_spec. lia. Qed.

Lemma exponent_not_point c : is_exponent_char c = true -> c <> ch ".".
Proof. unfold is_exponent_char. rewrite orb_true_iff, !Z.eqb_eq. lia. Qed.

Lemma exponent_byte c : is_exponent_char c = true -> is_byte c.
Proof. unfold is_exponent_char, is_byte. rewrite orb_true_iff, !Z.eqb_eq. lia. Qed.

Lemma run_stop fuel st ty k lx r tb :
  accepting st -> number_stop (hd_eof r) -> before k lx r tb ->
  exists lx', while_loop (S fuel) step (st, ty, lx) = Ret (ty, lx') /\
    at_char (k + 1) lx' (hd_eof r) (tail r) tb.
Proof.
  intros Hst (Hd & Hp & Hx) H. apply get_before in H. exists (get lx). split; [|done].
  apply while_loop_break. unfold number_step. rewrite (at_current _ _ _ _ _ H).
  rewrite Hd, Hx, (proj2 (Z.eqb_neq _ _) Hp). by destruct Hst as [->|[->|[->| ->]]].
Qed.

Lemma run_digits l fuel st ty k lx r tb :
  st = scan_number_any1 \/ st = scan_number_decimal2 \/ st = scan_number_any2 ->
  digits l -> before k lx (l ++ r) tb ->
  exists lx', while_loop (length l + fuel) step (st, ty, lx) = while_loop fuel step (st, ty, lx') /\
    before k lx' r (tb ++ l).
Proof.
  intros Hst Hl. revert lx tb. induction Hl as [|c l Hc Hl IH]; intros lx tb H.
  - exists lx. by rewrite app_nil_r.
  - destruct (IH (add c (get lx)) (tb ++ [c])) as (lx' & E & H').
    { apply add_before; [eauto with lex|by apply is_digit_byte]. }
    exists lx'. rewrite <- app_assoc in H'. split; [|done]. rewrite <- E. apply while_loop_continue.
    unfold number_step. rewrite (get_current _ _ _ _ _ H), Hc. by destruct Hst as [->|[->| ->]].
Qed.

(** A digit that begins a run of digits. *)
Lemma run_first_digit c l fuel st st' ty ty' k lx r tb :
  (st = scan_number_decimal1 /\ st' = scan_number_decimal2 /\ ty' = value_float) \/
  (st = scan_number_exponent /\ st' = scan_number_any2 /\ ty' = value_float) \/
  (st = scan_number_sign /\ st' = scan_number_any2 /\ ty' = ty) ->
  digits (c :: l) -> before k lx (c :: l ++ r) tb ->
  exists lx', while_loop (S (length l + fuel)) step (st, ty, lx) = while_loop fuel step (st', ty', lx') /\
    before k lx' r (tb ++ c :: l).
Proof.
  intros Hst Hd H. assert (Hc : is_digit c = true) by (by inversion_clear Hd).
  assert (Hl : digits l) by (by inversion_clear Hd).
  pose proof (proj1 (is_digit_spec c) Hc) as Hr.
  rewrite (while_loop_continue _ _ _ (st', ty', add c (get lx))).
  - destruct (run_digits l fuel st' ty' k (add c (get lx)) r (tb ++ [c])) as (lx' & E & H').
    + destruct Hst as [(_ & -> & _)|[(_ & -> & _)|(_ & -> & _)]]; auto.
    + done.
    + apply add_before; [eauto with lex|by apply is_digit_byte].
    + exists lx'. by rewrite <- app_assoc in H'.
  - unfold number_step. rewrite (get_current _ _ _ _ _ H), Hc.
    destruct Hst as [(-> & -> & ->)|[(-> & -> & ->)|(-> & -> & ->)]]; try done. ztests. done.
Qed.

Lemma run_exp x e fuel st ty k lx r tb :
  exp_text x e -> x <> [] -> accepting st -> st <> scan_number_any2 -> number_stop (hd_eof r) ->
  (length x < fuel)%nat -> before k lx (x ++ r) tb ->
  exists lx', while_loop fuel step (st, ty, lx) = Ret (value_float, lx') /\
    at_char (k + 1) lx' (hd_eof r) (tail r) (tb ++ x).
Proof.
  intros Hx Hn Hst Hst' Hr Hf H. destruct Hx as [|c s d g Hc Hs Hd Hdn]; [done|]. clear Hn.
  assert (Ec : is_exponent_char c = true) by (unfold is_exponent_char; by destruct Hc as [-> | ->]).
  destruct fuel as [|fuel]; [lia|]. rewrite length_cons, length_app in Hf.
  cbn [app] in H. rewrite <- app_assoc in H.
  rewrite (while_loop_continue _ _ _ (scan_number_exponent, ty, add c (get lx))).
  2: { unfold number_step. rewrite (get_current _ _ _ _ _ H), Ec, (exponent_not_digit _ Ec).
       rewrite (proj2 (Z.eqb_neq _ _) (exponent_not_point _ Ec)).
       destruct Hst as [->|[->|[->| ->]]]; done. }
  assert (H1 : before k (add c (get lx)) (s ++ d ++ r) (tb ++ [c]))
    by (apply add_before; [eauto with lex|by apply exponent_byte]).
  destruct d as [|d0 d]; [done|]. cbn [length] in Hf.
  assert (Hend : forall st' ty' lx' f', (1 + S (length d) <= f')%nat ->
    (st' = scan_number_exponent \/ st' = scan_number_sign /\ ty' = value_float) ->
    before k lx' (d0 :: d ++ r) (tb ++ c :: s) ->
    exists lx'', while_loop f' step (st', ty', lx') = Ret (value_float, lx'') /\
      at_char (k + 1) lx'' (hd_eof r) (tail r) (tb ++ c :: s ++ d0 :: d)).
  { intros st' ty' lx' f' Hf' Hst1 H2.
    replace f' with (S (length d + S (f' - 2 - length d)))%nat by lia.
    destruct (run_first_digit d0 d (S (f' - 2 - length d)) st' scan_number_any2 ty' value_float k lx' r (tb ++ c :: s))
      as (lx2 & -> & H3); [destruct Hst1 as [->|[-> ->]]; auto|done|done|].
    rewrite <- app_assoc in H3. apply run_stop; [by right; right; right|done|done]. }
  destruct s as [|s0 [|]]; simpl in Hs; [|revert Hs; ztests; intros [= <-]|done].
  - apply Hend; [lia|by left|done].
  - subst s0. destruct fuel as [|fuel]; [simpl in Hf; lia|].
    rewrite (while_loop_continue _ _ _ (scan_number_sign, value_float, add (ch "+") (get (add c (get lx)))))
      by (unfold number_step; by rewrite (get_current _ _ _ _ _ H1)).
    apply Hend; [simpl in Hf; lia|by right|]. rewrite (cons_middle c), app_assoc.
    apply add_before; [eauto with lex|done].
  - subst s0. destruct fuel as [|fuel]; [simpl in Hf; lia|].
    rewrite (while_loop_continue _ _ _ (scan_number_sign, value_float, add (ch "-") (get (add c (get lx)))))
      by (unfold number_step; by rewrite (get_current _ _ _ _ _ H1)).
    apply Hend; [simpl in Hf; lia|by right|]. rewrite (cons_middle c), app_assoc.
    apply add_before; [eauto with lex|done].
Qed.

Lemma cons_hd_eof r : bytes r -> cons_eof (hd_eof r) (tail r) = r.
Proof.
  intros H. destruct (hd_eof_cases r H) as [[-> _]|(c & r' & -> & -> & Hc & _)]; [done|].
  unfold cons_eof. by rewrite (proj2 (Z.eqb_neq _ _) (byte_not_eof _ Hc)).
Qed.

Lemma run_frac f d x e fuel st neg k lx r tb :
  frac_text f d -> exp_text x e -> st = scan_number_zero \/ st = scan_number_any1 ->
  number_stop (hd_eof r) -> (length f + length x < fuel)%nat -> before k lx (f ++ x ++ r) tb ->
  exists lx', while_loop fuel step (st, int_type neg, lx) = Ret (number_type neg f x, lx') /\
    at_char (k + 1) lx' (hd_eof r) (tail r) (tb ++ frac_buffer f ++ x).
Proof.
  intros Hf Hx Hst Hr Hfu H.
  assert (Hst' : accepting st) by (unfold accepting; destruct Hst; auto).
  destruct Hf as [|d Hd Hn]; cbn [app frac_buffer length] in *.
  - destruct (decide (x = [])) as [->|Hxn].
    + cbn [number_type app] in *. rewrite app_nil_r. destruct fuel as [|fuel]; [simpl in Hfu; lia|].
      by apply run_stop.
    + replace (number_type neg [] x) with value_float by (by destruct x).
      apply (run_exp x e); try done. by destruct Hst as [-> | ->].
  - destruct fuel as [|fuel]; [lia|].
    rewrite (while_loop_continue _ _ _ (scan_number_decimal1, int_type neg, add dp (get lx))).
    2: { unfold number_step. rewrite (get_current _ _ _ _ _ H). by destruct Hst as [-> | ->]. }
    assert (H1 : before k (add dp (get lx)) (d ++ x ++ r) (tb ++ [dp]))
      by (apply add_before; [eauto with lex|done]).
    destruct d as [|d0 d]; [done|]. cbn [length app number_type] in *.
    replace fuel with (S (length d + (fuel - 1 - length d)))%nat by lia.
    destruct (run_first_digit d0 d (fuel - 1 - length d) scan_number_decimal1 scan_number_decimal2
      (int_type neg) value_float k _ (x ++ r) _ ltac:(auto) Hd H1) as (lx2 & -> & H2).
    rewrite <- app_assoc in H2. cbn [app] in H2.
    destruct (decide (x = [])) as [->|Hxn].
    + replace (fuel - 1 - length d)%nat with (S (fuel - 2 - length d))%nat by (simpl in Hfu; lia).
      rewrite app_nil_r. apply run_stop; [by right; right; left|done|done].
    + rewrite !app_comm_cons, app_assoc. apply (run_exp x e); try done; [by right; right; left|lia].
Qed.

(** From the first digit on. *)
Lemma run_number i f d x e fuel neg k lx r tb :
  int_text i -> frac_text f d -> exp_text x e -> number_stop (hd_eof r) ->
  (length i + length f + length x <= fuel)%nat -> before k lx (tail i ++ f ++ x ++ r) (tb ++ take 1 i) ->
  exists lx', while_loop fuel step
      (if hd_eof i =? ch "0" then scan_number_zero else scan_number_any1, int_type neg, lx) =
      Ret (number_type neg f x, lx') /\
    at_char (k + 1) lx' (hd_eof r) (tail r) (tb ++ i ++ frac_buffer f ++ x).
Proof.
  intros Hi Hf Hx Hr Hfu H. destruct Hi as [->|(d0 & l & -> & Hd0 & Hl)]; cbn [tail app length] in *.
  - cbn [hd_eof head default from_option Z.eqb Pos.eqb]. rewrite cons_middle, app_assoc.
    apply (run_frac f d x e); auto; lia.
  - change (hd_eof (d0 :: l)) with d0. rewrite (proj2 (Z.eqb_neq d0 (ch "0"))) by lia.
    cbn [take] in H. rewrite take_0 in H.
    replace fuel with (length l + (fuel - length l))%nat by lia.
    destruct (run_digits l (fuel - length l) scan_number_any1 (int_type neg) k lx (f ++ x ++ r) (tb ++ [d0]))
      as (lx' & -> & H'); [by left|done|done|]. rewrite app_comm_cons, app_assoc.
    apply (run_frac f d x e); auto; [lia|]. by rewrite <- app_assoc in H'.
Qed.

Lemma scan_number_complete t j c t' k lx r tb :
  number_form t j -> t = c :: t' -> number_stop (hd_eof r) -> at_char k lx c (t' ++ r) tb ->
  exists tok lx' tb', scan_number [dp] lx = Ret (tok, lx') /\
    token_number tok lx' = Some j /\ before k lx' r tb'.
Proof.
  intros [neg i f d x e Hi Hf Hx] Ht Hr H. apply reset_at in H. unfold scan_number.
  rewrite (at_current _ _ _ _ _ H), (input_fuel_at _ _ _ _ _ H).
  pose proof (at_byte _ _ _ _ _ H) as Hc. pose proof (at_bytes _ _ _ _ _ H) as Hb.
  assert (Hrb : bytes r) by (by apply Forall_app in Hb as [_ ?]).
  pose proof (int_text_digits _ Hi) as Hid. pose proof (int_text_nonnil _ Hi) as Hin.
  destruct i as [|i0 i]; [done|]. inversion_clear Hid as [|? ? Hi0 _].
  pose proof (proj1 (is_digit_spec _) Hi0) as Hi0r.
  assert (Hdone : forall lx1, at_char (k + 1) lx1 (hd_eof r) (tail r) (minus_text neg ++ (i0 :: i) ++ frac_buffer f ++ x) ->
    exists tok lx' tb', scan_number_done [dp] (number_type neg f x) lx1 = Ret (tok, lx') /\
      token_number tok lx' = Some (number_value neg (i0 :: i) d x e) /\ before k lx' r tb').
  { intros lx1 H1. destruct (number_done_ok neg (i0 :: i) f d x e _ _ _ _ Hi Hf Hx H1) as (tok & lx' & E & Ev & H').
    rewrite cons_hd_eof in H' by done. replace (k + 1 - 1) with k in H' by lia. eauto 10. }
  assert (Hty : number_type neg f x <> parse_error) by (by destruct neg, f, x).
  destruct neg; simpl in Ht; injection Ht as <- <-.
  - cbn [Z.eqb Pos.eqb]. rewrite app_comm_cons, length_app. cbn [length app Nat.add].
    assert (H1 : at_char k (add (ch "-") (reset lx)) (ch "-") ((i0 :: i ++ f ++ x) ++ r) [ch "-"])
      by (by apply (add_byte_at _ _ _ _ []); [|unfold is_byte]).
    apply at_before in H1. cbn [app] in H1.
    rewrite (while_loop_continue _ _ _ (if i0 =? ch "0" then scan_number_zero else scan_number_any1,
      int_type true, add i0 (get (add (ch "-") (reset lx))))).
    2: { unfold number_step. rewrite (get_current _ _ _ _ _ H1), Hi0. by case_match. }
    rewrite <- !app_assoc in H1.
    destruct (run_number (i0 :: i) f d x e (length (i ++ f ++ x) + length r + 3) true k
      (add i0 (get (add (ch "-") (reset lx)))) r [ch "-"] Hi Hf Hx Hr) as (lx' & E & H').
    + rewrite !length_app. simpl. lia.
    + simpl. apply (add_before _ _ _ [ch "-"]); [eauto with lex|by apply is_digit_byte].
    + change (hd_eof (i0 :: i)) with i0 in E. rewrite E. bind_ret.
      rewrite decide_False by done. by apply Hdone.
  - rewrite <- !app_assoc in H |- *. rewrite (proj2 (Z.eqb_neq i0 (ch "-"))) by lia. rewrite Hi0.
    assert (H1 : before k (add i0 (reset lx)) (tail (i0 :: i) ++ f ++ x ++ r) ([] ++ take 1 (i0 :: i)))
      by (simpl; apply (add_before _ _ _ []); [eauto with lex|by apply is_digit_byte]).
    destruct (run_number (i0 :: i) f d x e (length (i ++ f ++ x ++ r) + 3) false k
      (add i0 (reset lx)) r [] Hi Hf Hx Hr) as (lx' & E & H'); [rewrite !length_app; simpl; lia|done|].
    change (hd_eof (i0 :: i)) with i0 in E. cbn [int_type] in E.
    destruct (i0 =? ch "0"); rewrite E; bind_ret; rewrite decide_False by done; by apply Hdone.
Qed.

(** *** What has been read at each label *)

Inductive label_inv : number_state -> token_type -> list Z -> list Z -> Prop :=
  | inv_minus ty : label_inv scan_number_minus ty [ch "-"] [ch "-"]
  | inv_zero neg :
      label_inv scan_number_zero (int_type neg) (minus_text neg ++ [ch "0"]) (minus_text neg ++ [ch "0"])
  | inv_any1 neg d l :
      0x31 <= d <= 0x39 -> digits l ->
      label_inv scan_number_any1 (int_type neg) (minus_text neg ++ d :: l) (minus_text neg ++ d :: l)
  | inv_decimal1 neg i ty :
      int_text i ->
      label_inv scan_number_decimal1 ty (minus_text neg ++ i ++ [ch "."]) (minus_text neg ++ i ++ [dp])
  | inv_decimal2 neg i d :
      int_text i -> digits d -> d <> [] ->
      label_inv scan_number_decimal2 value_float
        (minus_text neg ++ i ++ ch "." :: d) (minus_text neg ++ i ++ dp :: d)
  | inv_exponent neg i f d c ty :
      int_text i -> frac_text f d -> c = ch "e" \/ c = ch "E" ->
      label_inv scan_number_exponent ty
        (minus_text neg ++ i ++ f ++ [c]) (minus_text neg ++ i ++ frac_buffer f ++ [c])
  | inv_sign neg i f d c s :
      int_text i -> frac_text f d -> c = ch "e" \/ c = ch "E" -> s = ch "+" \/ s = ch "-" ->
      label_inv scan_number_sign value_float
        (minus_text neg ++ i ++ f ++ [c; s]) (minus_text neg ++ i ++ frac_buffer f ++ [c; s])
  | inv_any2 neg i f d c s g x :
      int_text i -> frac_text f d -> c = ch "e" \/ c = ch "E" -> exponent_sign s = Some g ->
      digits x -> x <> [] ->
      label_inv scan_number_any2 value_float
        (minus_text neg ++ i ++ f ++ c :: s ++ x) (minus_text neg ++ i ++ frac_buffer f ++ c :: s ++ x).

(** The number has been read, and the character behind it. *)
Definition number_read (ty : token_type) (t tb : list Z) : Prop :=
  exists neg i f d x e, int_text i /\ frac_text f d /\ exp_text x e /\
    t = minus_text neg ++ i ++ f ++ x /\ tb = minus_text neg ++ i ++ frac_buffer f ++ x /\
    ty = number_type neg f x.

Lemma read_integer neg i :
  int_text i -> number_read (int_type neg) (minus_text neg ++ i) (minus_text neg ++ i).
Proof.
  intros Hi. exists neg, i, [], [], [], 0. split; [done|]. do 2 (split; [constructor|]).
  cbn [frac_buffer app]. by rewrite app_nil_r.
Qed.

Lemma int_any1 d l : 0x31 <= d <= 0x39 -> digits l -> int_text (d :: l).
Proof. intros Hd Hl. right. by exists d, l. Qed.

Definition label_post (k : Z) (t r : list Z) (tb : list Z)
    (ctl : control (number_state * token_type * lexer) scanned) : Prop :=
  match ctl with
  | Continue (st, ty, lx) =>
      exists c r' tb', r = c :: r' /\ label_inv st ty (t ++ [c]) tb' /\ before k lx r' tb'
  | Break (ty, lx) =>
      number_read ty t tb /\ at_char (k + 1) lx (hd_eof r) (tail r) tb \/
      ty = parse_error /\ somewhere k lx
  end.

Lemma goto_sound c r st ty k lx t tb tb' :
  before k lx r tb -> is_byte c -> label_inv st ty (t ++ [c]) tb' ->
  forall b, is_byte b -> tb' = tb ++ [b] ->
  returns (Ret (Continue (st, ty, add b lx))) (label_post k t (c :: r) tb).
Proof.
  intros H Hc Hi b Hb ->. apply returns_ret. exists c, r, (tb ++ [b]). split; [done|]. split; [done|].
  by apply add_before.
Qed.

Lemma stop_sound k t r tb ty lx :
  number_read ty t tb -> at_char (k + 1) lx (hd_eof r) (tail r) tb ->
  returns (Ret (Break (ty, lx))) (label_post k t r tb).
Proof. intros Hr Ha. apply returns_ret. by left. Qed.

Lemma number_error_sound k t r tb lx m :
  at_char (k + 1) lx (hd_eof r) (tail r) tb -> returns (break_with m lx) (label_post k t r tb).
Proof.
  intros H. apply returns_ret. right. split; [done|]. apply error_somewhere.
  apply at_before in H. apply before_weaken with (k' := k) in H; [|lia]. eauto with lex.
Qed.

(** At an accepting label a number has been read. *)
Lemma accepting_read st ty t tb : label_inv st ty t tb -> accepting st -> number_read ty t tb.
Proof.
  intros Hi [->|[->|[->| ->]]]; inversion_clear Hi.
  - apply read_integer. by left.
  - apply read_integer. right. eauto.
  - exists neg, i, (ch "." :: d), d, [], 0. split; [done|]. do 2 (split; [by constructor|]).
    cbn [frac_buffer app]. by rewrite app_nil_r.
  - exists neg, i, f, d, (c :: s ++ x), (g * decimal_value x).
    split; [done|]. split; [done|]. split; [by constructor|]. do 2 (split; [done|]). by destruct f.
Qed.

Lemma digits_snoc l c : is_digit c = true -> digits l -> digits (l ++ [c]).
Proof. intros Hc Hl. apply Forall_app. split; [done|]. by constructor; [|constructor]. Qed.

Lemma digits_one c : is_digit c = true -> digits [c].
Proof. intros Hc. by constructor; [|constructor]. Qed.

Lemma snoc_nonnil {A} (l : list A) x : l ++ [x] <> [].
Proof. intros H. by apply app_nil in H as [_ ?]. Qed.

Lemma nonzero_digit c : is_digit c = true -> c <> ch "0" -> 0x31 <= c <= 0x39.
Proof. rewrite is_digit_spec. lia. Qed.

Lemma exponent_letter c : is_exponent_char c = true -> c = ch "e" \/ c = ch "E".
Proof. unfold is_exponent_char. by rewrite orb_true_iff, !Z.eqb_eq. Qed.

#[local] Hint Resolve digits_snoc digits_one snoc_nonnil : label.

(** From an accepting label that is not the last to the exponent. *)
Lemma to_exponent st ty ty' t tb c :
  label_inv st ty t tb -> accepting st -> st <> scan_number_any2 -> is_exponent_char c = true ->
  label_inv scan_number_exponent ty' (t ++ [c]) (tb ++ [c]).
Proof.
  intros Hi Hst Hne Hc. apply exponent_letter in Hc.
  destruct Hi as [|neg|neg d l Hd Hl| |neg i d Hi Hd Hn| | |]; try (by destruct Hst as [|[|[|]]]);
    rewrite <- ?app_assoc; cbn [app].
  - apply (inv_exponent neg [ch "0"] [] []); [by left|constructor|done].
  - apply (inv_exponent neg (d :: l) [] []); [by apply int_any1|constructor|done].
  - apply (inv_exponent neg i (ch "." :: d) d); [done|by constructor|done].
Qed.

(** From the integer part to the point. *)
Lemma to_point st ty ty' t tb :
  label_inv st ty t tb -> st = scan_number_zero \/ st = scan_number_any1 ->
  label_inv scan_number_decimal1 ty' (t ++ [ch "."]) (tb ++ [dp]).
Proof.
  intros Hi Hst. destruct Hi as [|neg|neg d l Hd Hl| | | | |]; try (by destruct Hst);
    rewrite <- ?app_assoc; cbn [app].
  - apply (inv_decimal1 neg [ch "0"]). by left.
  - apply (inv_decimal1 neg (d :: l)). by apply int_any1.
Qed.

(** A digit. *)
Definition digit_goto (st : number_state) (c : Z) : option number_state :=
  match st with
  | scan_number_minus => Some (if c =? ch "0" then scan_number_zero else scan_number_any1)
  | scan_number_zero => None
  | scan_number_any1 => Some scan_number_any1
  | scan_number_decimal1 | scan_number_decimal2 => Some scan_number_decimal2
  | scan_number_exponent | scan_number_sign | scan_number_any2 => Some scan_number_any2
  end.

Definition type_at (st : number_state) (ty : token_type) : token_type :=
  match st with
  | scan_number_minus => value_integer
  | scan_number_decimal1 | scan_number_exponent => value_float
  | _ => ty
  end.

Lemma to_digit st st' ty t tb c :
  label_inv st ty t tb -> is_digit c = true -> digit_goto st c = Some st' ->
  label_inv st' (type_at st ty) (t ++ [c]) (tb ++ [c]).
Proof.
  intros Hi Hc Hg.
  destruct Hi as [ty|neg|neg d l Hd Hl|neg i ty Hi|neg i d Hi Hd Hn|neg i f d e ty Hi Hf He
    |neg i f d e s Hi Hf He Hs|neg i f d e s g x Hi Hf He Hs Hx Hn];
    simpl in Hg; simplify_eq; rewrite <- ?app_assoc; cbn [app type_at].
  - destruct (Z.eqb_spec c (ch "0")) as [->|Hz].
    + apply (inv_zero true).
    + apply (inv_any1 true); [by apply nonzero_digit|constructor].
  - apply inv_any1; auto with label.
  - apply (inv_decimal2 neg i [c]); auto with label.
  - apply (inv_decimal2 neg i (d ++ [c])); auto with label.
  - apply (inv_any2 neg i f d e [] 1 [c]); auto with label.
  - destruct Hs as [-> | ->]; [apply (inv_any2 neg i f d e [ch "+"] 1 [c])|
      apply (inv_any2 neg i f d e [ch "-"] (-1) [c])]; auto with label.
  - rewrite <- app_assoc. apply (inv_any2 neg i f d e s g (x ++ [c])); auto with label.
Qed.

Lemma label_step_sound st ty t tb k lx r :
  label_inv st ty t tb -> before k lx r tb ->
  returns (step (st, ty, lx)) (label_post k t r tb).
Proof.
  intros Hi H. pose proof (get_before _ _ _ _ H) as Ha. unfold number_step. fold (type_at st ty).
  rewrite (at_current _ _ _ _ _ Ha).
  assert (Hstop : accepting st -> returns (Ret (Break (type_at st ty, get lx))) (label_post k t r tb)).
  { intros Hst. apply stop_sound; [|done]. replace (type_at st ty) with ty
      by (by destruct Hst as [->|[->|[->| ->]]]). by eapply accepting_read. }
  assert (Herr : forall m, returns (break_with m (get lx)) (label_post k t r tb))
    by (intros m; by apply number_error_sound).
  destruct (hd_eof_cases r (before_bytes _ _ _ _ H)) as [[-> E]|(c & r' & -> & E & Hc & Hr')]; rewrite E.
  { cbn [Z.eqb is_digit Z.leb Z.compare andb is_exponent_char orb eof].
    destruct st; try apply Herr; apply Hstop; unfold accepting; auto. }
  apply get_rest in H.
  assert (Hpoint : st = scan_number_zero \/ st = scan_number_any1 -> c = ch "." ->
    returns (Ret (Continue (scan_number_decimal1, type_at st ty, add dp (get lx)))) (label_post k t (c :: r') tb)).
  { intros Hst ->. eapply goto_sound; [done|done|by eapply to_point|done|done]. }
  assert (Hexp : accepting st -> st <> scan_number_any2 -> is_exponent_char c = true ->
    returns (Ret (Continue (scan_number_exponent, type_at st ty, add c (get lx)))) (label_post k t (c :: r') tb)).
  { intros Hst Hne Hx. eapply goto_sound; [done|done|by eapply to_exponent|done|done]. }
  assert (Hdigit : forall st', digit_goto st c = Some st' -> is_digit c = true ->
    returns (Ret (Continue (st', type_at st ty, add c (get lx)))) (label_post k t (c :: r') tb)).
  { intros st' Hst Hx. eapply goto_sound; [done|done|by eapply to_digit|done|done]. }
  assert (Hsign : c = ch "+" \/ c = ch "-" -> st = scan_number_exponent ->
    returns (Ret (Continue (scan_number_sign, type_at st ty, add c (get lx)))) (label_post k t (c :: r') tb)).
  { intros Hs ->. inversion Hi as [| | | | |neg i f d e ty' Hii Hf He| |]; subst.
    eapply (goto_sound _ _ _ _ _ _ _ _ (minus_text neg ++ i ++ frac_buffer f ++ [e; c]));
      [done|done| |done|by rewrite <- !app_assoc].
    rewrite <- !app_assoc. cbn [app]. by apply (inv_sign neg i f d). }
  clear Hi Ha E. unfold accepting in *.
  assert (Hminus : c <> ch "0" -> digit_goto scan_number_minus c = Some scan_number_any1)
    by (intros Hz; simpl; by rewrite (proj2 (Z.eqb_neq _ _) Hz)).
  assert (Hx : is_digit c = true -> is_exponent_char c = false)
    by (intros Hd; destruct (is_exponent_char c) eqn:Ex; [by rewrite exponent_not_digit in Hd|done]).
  destruct (is_digit c) eqn:Ed; [rewrite Hx by done|destruct (is_exponent_char c) eqn:Ex];
    destruct (Z.eqb_spec c (ch ".")) as [Ep|Ep], (Z.eqb_spec c (ch "0")) as [Ez|Ez],
      (Z.eqb_spec c (ch "+")) as [Es|Es], (Z.eqb_spec c (ch "-")) as [Em|Em]; subst; try done;
    destruct st; cbn [orb]; auto 7.
Qed.

Lemma label_loop_sound fuel st ty t tb k lx r :
  label_inv st ty t tb -> before k lx r tb -> (length r < fuel)%nat ->
  returns (while_loop fuel step (st, ty, lx)) (fun x =>
    (exists u r' tb', r = u ++ r' /\ number_read x.1 (t ++ u) tb' /\
       at_char (k + 1) x.2 (hd_eof r') (tail r') tb') \/ x.1 = parse_error /\ somewhere k x.2).
Proof.
  revert st ty t tb lx r. induction fuel as [|fuel IH]; intros st ty t tb lx r Hi H Hf; [lia|].
  cbn [while_loop]. destruct (label_step_sound _ _ _ _ _ _ _ Hi H) as (ctl & -> & Hs). bind_ret.
  destruct ctl as [[[st' ty'] lx']|[ty' lx']].
  - destruct Hs as (c & r' & tb' & -> & Hi' & H'). simpl in Hf.
    eapply returns_mono; [apply (IH _ _ _ _ _ _ Hi' H'); lia|].
    intros [ty'' lx''] [(u & r'' & tb'' & -> & Hr & Ha)|?]; [left|by right].
    exists (c :: u), r'', tb''. by rewrite <- app_assoc in Hr.
  - apply returns_ret. destruct Hs as [[Hr Ha]|?]; [left|by right].
    exists [], r, tb. by rewrite app_nil_r.
Qed.

(** A token that is a number: its text, its value, and what follows. *)
Definition number_post (k : Z) (r : list Z) (tok : token_type) (lx : lexer) : Prop :=
  exists t j r' tb', r = t ++ r' /\ number_form t j /\ token_number tok lx = Some j /\ before k lx r' tb'.

Lemma scan_number_sound k lx c r tb :
  at_char k lx c r tb -> c = ch "-" \/ is_digit c = true ->
  returns (scan_number [dp] lx) (token_or_error k (number_post k (c :: r))).
Proof.
  intros H Hc. apply reset_at in H. unfold scan_number.
  rewrite (at_current _ _ _ _ _ H), (input_fuel_at _ _ _ _ _ H).
  assert (Hb : is_byte c) by (destruct Hc as [->|?]; [done|by apply is_digit_byte]).
  assert (Hstart : forall st, label_inv st value_unsigned [c] [c] ->
    returns ('(ty, lx') ← while_loop (length r + 3) step (st, value_unsigned, add c (reset lx));
      if decide (ty = parse_error) then Ret (parse_error, lx') else scan_number_done [dp] ty lx')
      (token_or_error k (number_post k (c :: r)))).
  { intros st Hi. eapply returns_bind.
    - apply (label_loop_sound (length r + 3) st value_unsigned [c] [c] k _ r); [done| |lia].
      apply (add_before _ _ _ []); eauto with lex.
    - intros [ty lx1] [(u & r' & tb' & -> & Hr & Ha)|[E Hs]]; simpl in *.
      2: { rewrite E, decide_True by done. apply returns_ret. by right. }
      destruct Hr as (neg & i & f & d & x & e & Hi' & Hf & Hx & Et & -> & ->).
      rewrite decide_False by (by destruct neg, f, x).
      destruct (number_done_ok neg i f d x e _ _ _ _ Hi' Hf Hx Ha) as (tok & lx' & -> & Ev & Hb').
      apply returns_ret. left. exists (c :: u), (number_value neg i d x e), r'.
      eexists. split; [done|]. rewrite Et. split; [by constructor|]. split; [done|].
      pose proof (at_bytes _ _ _ _ _ H) as Hbs. apply Forall_app in Hbs as [_ Hbs].
      rewrite cons_hd_eof in Hb' by done. by replace k with (k + 1 - 1) by lia. }
  destruct (Z.eqb_spec c (ch "-")) as [->|Hm]; [apply Hstart, inv_minus|].
  destruct Hc as [?|Hc]; [done|]. rewrite Hc.
  destruct (Z.eqb_spec c (ch "0")) as [->|Hz]; apply Hstart.
  - apply (inv_zero false).
  - apply (inv_any1 false c []); [by apply nonzero_digit|constructor].
Qed.
End Numbers.
