(* ===== verification/JsonTokens.v ===== *)
(** The tokens of [src/util/nlohmann_json.hpp]: [scan] returns from every
    state of the lexer, whatever the input, and the token, its value and the
    input that is left are those of the grammar. *)

From Stdlib Require Import ZArith Lia.
From S2P Require Import Prelude JsonValue JsonNumber JsonGrammar JsonLexer JsonScan JsonScanNumber.
From stdpp Require Import base decidable option strings list.

Open Scope Z_scope.

(** ** What a token stands for *)

Definition struct_char (tok : token_type) : option Z :=
  match tok with
  | begin_array => Some (ch "[")
  | end_array => Some (ch "]")
  | begin_object => Some (ch "{")
  | end_object => Some (ch "}")
  | name_separator => Some (ch ":")
  | value_separator => Some (ch ",")
  | _ => None
  end.

Definition literal_token (tok : token_type) : option (list Z * json) :=
  match tok with
  | literal_null => Some (bytes_of "null", Null)
  | literal_true => Some (bytes_of "true", Boolean true)
  | literal_false => Some (bytes_of "false", Boolean false)
  | _ => None
  end.

(** The text of a token, with the lexer behind it. *)
Inductive token_text (lx : lexer) : token_type -> list Z -> Prop :=
  | token_struct tok c : struct_char tok = Some c -> token_text lx tok [c]
  | token_literal tok t j : literal_token tok = Some (t, j) -> token_text lx tok t
  | token_string t : string_text t (token_buffer lx) -> token_text lx value_string t
  | token_is_number tok t j : number_form t j -> token_number tok lx = Some j -> token_text lx tok t.

(** ** Literals *)

Lemma literal_loop_complete l tok k lx r tb :
  before k lx (l ++ r) tb -> bytes l ->
  exists lx', scan_literal_loop l tok lx = Ret (tok, lx') /\ before k lx' r tb.
Proof.
  revert lx. induction l as [|c l IH]; intros lx H Hl; simpl; [by exists lx|].
  inversion_clear Hl. rewrite (get_current _ _ _ _ _ H), to_char_byte, Z.eqb_refl by done.
  apply IH; eauto with lex.
Qed.

Lemma literal_loop_sound l tok k lx r tb :
  before k lx r tb -> Forall (fun c => 0 <= c < 255) l ->
  returns (scan_literal_loop l tok lx) (token_or_error k (fun tok' lx' =>
    tok' = tok /\ exists r', r = l ++ r' /\ before k lx' r' tb)).
Proof.
  revert lx r. induction l as [|c l IH]; intros lx r H Hl; simpl.
  - apply returns_ret. left. eauto.
  - inversion_clear Hl.
    destruct (get_cases _ _ _ _ H) as [(-> & E & Hb)|(d & r' & -> & E & Hd & Hb)]; rewrite E.
    + change (to_char_type eof) with 255. destruct (Z.eqb_spec 255 c); [lia|]. apply returns_ret. right. split; [done|]. eauto with lex.
    + apply before_weaken with (k' := k) in Hb; [|lia]. rewrite to_char_byte by done.
      destruct (Z.eqb_spec d c) as [->|].
      * eapply returns_mono; [by apply IH|]. intros [tok' lx'] [(Et & r'' & -> & Hb')|?]; [left|by right].
        eauto.
      * apply returns_ret. right. split; [done|]. eauto with lex.
Qed.

Lemma scan_literal_complete t tok c l k lx r tb :
  t = c :: l -> bytes t -> at_char k lx c (l ++ r) tb ->
  exists lx', scan_literal t tok lx = Ret (tok, lx') /\ before k lx' r tb.
Proof.
  intros -> Hb H. inversion_clear Hb. unfold scan_literal.
  rewrite (at_current _ _ _ _ _ H), to_char_byte, Z.eqb_refl by done.
  apply literal_loop_complete; eauto with lex.
Qed.

Lemma scan_literal_sound t tok c l k lx r tb :
  t = c :: l -> Forall (fun c => 0 <= c < 255) t -> at_char k lx c r tb ->
  returns (scan_literal t tok lx) (token_or_error k (fun tok' lx' =>
    tok' = tok /\ exists r', c :: r = t ++ r' /\ before k lx' r' tb)).
Proof.
  intros -> Hb H. inversion_clear Hb. unfold scan_literal.
  rewrite (at_current _ _ _ _ _ H), to_char_byte, Z.eqb_refl by (unfold is_byte; lia).
  eapply returns_mono; [eapply literal_loop_sound; eauto with lex|].
  intros [tok' lx'] [(Et & r' & -> & Hb')|?]; [left|by right]. eauto.
Qed.

(** ** Comments and the byte order mark *)

(** The lexer is at most at [r], and behind it when [strict]. *)
Definition shorter (k : Z) (strict : bool) (r : list Z) (lx : lexer) : Prop :=
  exists r' tb, before k lx r' tb /\ (length r' <= length r)%nat /\
    (strict = true -> (length r' < length r)%nat).

Lemma line_comment_total fuel k lx r tb :
  before k lx r tb -> (length r < fuel)%nat ->
  returns (while_loop fuel line_comment_step lx) (fun x => x.1 = true /\ shorter k false r x.2).
Proof.
  revert lx r. induction fuel as [|fuel IH]; intros lx r H Hf; [lia|].
  cbn [while_loop]. unfold line_comment_step at 2. cbv beta zeta.
  destruct (get_cases _ _ _ _ H) as [(-> & E & Hb)|(c & r' & -> & E & Hc & Hb)]; rewrite E.
  - cbn [eof Z.eqb orb]. bind_ret. apply returns_ret. split; [done|]. by exists [], tb.
  - apply before_weaken with (k' := k) in Hb; [|lia]. case_match; bind_ret.
    + apply returns_ret. split; [done|]. exists r', tb. simpl. split; [done|]. split; [lia|done].
    + eapply returns_mono; [apply (IH _ r'); [done|simpl in Hf; lia]|].
      intros x (Ex & r'' & tb'' & Hx & Hl & _). split; [done|]. exists r'', tb''. simpl. split; [done|].
      split; [lia|done].
Qed.

Lemma block_comment_total fuel k lx r tb :
  before k lx r tb -> (length r < fuel)%nat ->
  returns (while_loop fuel block_comment_step lx) (fun x => shorter k false r x.2).
Proof.
  revert lx r. induction fuel as [|fuel IH]; intros lx r H Hf; [lia|].
  cbn [while_loop]. unfold block_comment_step at 2. cbv beta zeta.
  destruct (get_cases _ _ _ _ H) as [(-> & E & Hb)|(c & r' & -> & E & Hc & Hb)]; rewrite E.
  { cbn [eof Z.eqb orb]. bind_ret. apply returns_ret. exists [], tb. split; [by apply set_error_before|done]. }
  pose proof Hb as Hb0. apply before_weaken with (k' := k) in Hb0; [|lia]. simpl in Hf.
  rewrite (proj2 (Z.eqb_neq _ _) (byte_not_eof _ Hc)). cbn [orb].
  assert (Hnext : forall lx', before k lx' r' tb ->
    returns (while_loop fuel block_comment_step lx') (fun x => shorter k false (c :: r') x.2)).
  { intros lx' H'. eapply returns_mono; [apply (IH _ _ H'); lia|].
    intros x (r2 & tb2 & Hx & Hl & _). exists r2, tb2. simpl. split; [done|]. split; [lia|done]. }
  destruct (c =? 0); bind_ret.
  { apply returns_ret. exists r', tb. simpl. split; [by apply set_error_before|]. split; [lia|done]. }
  destruct (c =? ch "*"); bind_ret; [|by apply Hnext].
  pose proof (get_before _ _ _ _ Hb) as Ha. rewrite (at_current _ _ _ _ _ Ha).
  destruct (Z.eqb_spec (hd_eof r') (ch "/")) as [Es|_]; bind_ret.
  - apply returns_ret. destruct r' as [|x r']; [done|]. exists r', tb. apply at_before in Ha. simpl.
    split; [apply (before_weaken (k + 1 + 1)); [lia|done]|]. split; [lia|done].
  - destruct (unget_at _ _ _ _ _ Ha) as (lx' & -> & Hu). bind_ret. apply Hnext.
    rewrite cons_hd_eof in Hu by apply Hb. apply (before_weaken (k + 1 + 1 - 1)); [lia|done].
Qed.

Lemma scan_comment_total k lx r tb :
  before k lx r tb -> returns (scan_comment lx) (fun x => shorter k x.1 r x.2).
Proof.
  intros H. unfold scan_comment.
  destruct (get_cases _ _ _ _ H) as [(-> & E & Hb)|(c & r' & -> & E & Hc & Hb)]; rewrite E.
  { cbn [eof Z.eqb]. apply returns_ret. exists [], tb. split; [by apply set_error_before|done]. }
  apply before_weaken with (k' := k) in Hb; [|lia]. pose proof (input_fuel_before _ _ _ _ Hb) as Hf.
  assert (Hlift : forall x : bool * lexer, shorter k false r' x.2 -> shorter k x.1 (c :: r') x.2).
  { intros x (r2 & tb2 & Hx & Hl & _). exists r2, tb2. simpl. split; [done|]. split; [lia|intros; lia]. }
  destruct (c =? ch "/"); [|destruct (c =? ch "*")].
  - eapply returns_mono; [eapply line_comment_total; [done|lia]|]. intros x [_ Hx]. by apply Hlift.
  - eapply returns_mono; [eapply block_comment_total; [done|lia]|]. intros x. apply Hlift.
  - apply returns_ret. apply Hlift. exists r', tb. split; [by apply set_error_before|done].
Qed.

Lemma skip_bom_total k lx r tb :
  before k lx r tb -> returns (skip_bom lx) (fun x => shorter k false r x.2 /\
    (x.1 = false -> somewhere (k + 1) x.2)).
Proof.
  intros H. unfold skip_bom. pose proof (get_before _ _ _ _ H) as Ha. rewrite (at_current _ _ _ _ _ Ha).
  destruct (Z.eqb_spec (hd_eof r) 0xEF) as [Ec|_].
  - destruct r as [|c r]; [done|]. change (c = 0xEF) in Ec. subst c. apply at_before in Ha. cbn [tail] in Ha.
    destruct (get_cases _ _ _ _ Ha) as [(-> & E & Hb)|(d & r' & -> & E & Hd & Hb)]; rewrite E.
    { cbn [eof Z.eqb]. apply returns_ret. split; [|eauto with lex]. exists [], tb. simpl.
      split; [apply (before_weaken (k + 1)); [lia|done]|split; [lia|done]]. }
    apply before_weaken with (k' := k + 1) in Hb; [|lia].
    destruct (d =? 0xBB).
    2: { apply returns_ret. split; [|eauto with lex]. exists r', tb. simpl.
         split; [apply (before_weaken (k + 1)); [lia|done]|split; [lia|done]]. }
    pose proof (get_before _ _ _ _ Hb) as Hg. apply at_before in Hg.
    apply before_weaken with (k' := k + 1) in Hg; [|lia].
    apply returns_ret. split; [|eauto with lex]. exists (tail r'), tb. simpl.
    split; [apply (before_weaken (k + 1)); [lia|done]|]. destruct r'; simpl; split; lia || done.
  - destruct (unget_at _ _ _ _ _ Ha) as (lx' & -> & Hu). bind_ret. apply returns_ret. split; [|done].
    rewrite cons_hd_eof in Hu by apply H. exists r, tb. split; [by replace k with (k + 1 - 1) by lia|].
    split; [lia|done].
Qed.

(** ** The token at a character *)

Section Tokens.
Context (dp : Z).
Hypotheses (Hdp_byte : is_byte dp) (Hdp_digit : is_digit dp = false)
  (Hdp_exp : is_exponent_char dp = false).

(** What [scan_token] does at the character [c] in front of [r]. *)
Definition token_post (k : Z) (c : Z) (r : list Z) (x : scanned) : Prop :=
  (exists t r' tb', cons_eof c r = t ++ r' /\ token_text x.2 x.1 t /\ before k x.2 r' tb') \/
  (x.1 = end_of_input /\ (c = eof \/ c = 0) /\ somewhere k x.2) \/
  (x.1 = parse_error /\ somewhere k x.2).

Lemma cons_eof_byte c r : is_byte c -> cons_eof c r = c :: r.
Proof. intros H. unfold cons_eof. by rewrite (proj2 (Z.eqb_neq _ _) (byte_not_eof _ H)). Qed.

Lemma token_literal_sound tok t j c l k lx r tb :
  literal_token tok = Some (t, j) -> t = c :: l -> Forall (fun c => 0 <= c < 255) t ->
  at_char k lx c r tb -> returns (scan_literal t tok lx) (token_post k c r).
Proof.
  intros Ht El Hb H. eapply returns_mono; [by eapply scan_literal_sound|].
  intros [tok' lx'] [(Et & r' & E & Hb')|?]; [left|by right; right].
  simpl in *. subst tok'. exists t, r', tb. rewrite cons_eof_byte.
  - split; [done|]. split; [by eapply token_literal|done].
  - subst t. inversion_clear Hb. unfold is_byte. lia.
Qed.

Lemma scan_token_sound k lx c r tb :
  at_char k lx c r tb -> returns (scan_token [dp] lx) (token_post k c r).
Proof.
  intros H. pose proof (at_before _ _ _ _ _ H) as Hb.
  assert (Hstruct : forall tok, struct_char tok = Some c -> returns (Ret (tok, lx)) (token_post k c r)).
  { intros tok Ht. apply returns_ret. left. exists [c], r, tb.
    split; [by destruct tok; simplify_eq/=|]. split; [by constructor|done]. }
  unfold scan_token. rewrite (at_current _ _ _ _ _ H).
  repeat (match goal with |- returns (if c =? ?x then Ret (?tok, _) else _) _ =>
    destruct (Z.eqb_spec c x) as [->|]; [by apply Hstruct|] end).
  repeat (match goal with |- returns (if c =? ?x then scan_literal _ _ _ else _) _ =>
    destruct (Z.eqb_spec c x) as [->|];
    [eapply token_literal_sound; [done|done|repeat constructor; simpl; lia|done]|] end).
  destruct (Z.eqb_spec c 0x22) as [->|].
  { eapply returns_mono; [by eapply scan_string_sound|].
    intros [tok lx'] [(Et & body & cps & r' & -> & Hs & Hb')|?]; [left|by right; right].
    simpl in *. subst tok. exists (0x22 :: body ++ [0x22]), r', (utf8 cps). split.
    - simpl. by rewrite <- app_assoc.
    - split; [|done]. constructor. exists body, cps. split; [done|]. split; [done|]. by apply Hb'. }
  destruct (Z.eqb_spec c (ch "-")) as [->|]; cbn [orb]; [|destruct (is_digit c) eqn:Ed].
  - eapply returns_mono; [eapply scan_number_sound; try done; by left|].
    intros [tok lx'] [(t & j & r' & tb' & E & Hn & Hv & Hb')|?]; [left|by right; right].
    exists t, r', tb'. split; [done|]. split; [by econstructor|done].
  - eapply returns_mono; [eapply scan_number_sound; try done; by right|].
    intros [tok lx'] [(t & j & r' & tb' & E & Hn & Hv & Hb')|?]; [left|by right; right].
    exists t, r', tb'. rewrite cons_eof_byte by (by apply is_digit_byte). split; [done|]. split; [by econstructor|done].
  - destruct (Z.eqb_spec c 0), (Z.eqb_spec c eof); cbn [orb]; apply returns_ret; right;
      try (left; split; [done|]; split; [auto|]; eauto with lex); right; split; [done|]; eauto with lex.
Qed.

(** ** [scan], with or without comments: it always returns, and every token
    but the last and an error shortens the input *)

Definition progress (r : list Z) (x : scanned) : Prop :=
  exists r' tb', before 1 x.2 r' tb' /\
    (x.1 = end_of_input \/ x.1 = parse_error \/ (length r' < length r)%nat).

Lemma somewhere_progress r tok lx :
  tok = end_of_input \/ tok = parse_error -> somewhere 1 lx -> progress r (tok, lx).
Proof. intros Ht (r' & tb & H). exists r', tb. split; [done|]. destruct Ht; auto. Qed.

Lemma token_text_nonnil lx tok t : token_text lx tok t -> (1 <= length t)%nat.
Proof.
  intros [tok' c Hs|tok' t' j Hl|t' (body & cps & -> & _)|tok' t' j [neg i f d x e Hi _ _] _]; simpl; try lia.
  - destruct tok'; simplify_eq/=; lia.
  - pose proof (int_text_nonnil _ Hi). rewrite !length_app. destruct i; [done|]. simpl. lia.
Qed.

Lemma token_post_progress c r x : token_post 1 c r x -> progress (cons_eof c r) x.
Proof.
  destruct x as [tok lx]. intros [(t & r' & tb & E & Ht & H)|[(Et & _ & Hs)|(Et & Hs)]]; simpl in *.
  - exists r', tb. split; [done|]. right. right. rewrite E, length_app.
    pose proof (token_text_nonnil _ _ _ Ht). lia.
  - apply somewhere_progress; auto.
  - apply somewhere_progress; auto.
Qed.

Lemma progress_mono r r' x : (length r <= length r')%nat -> progress r x -> progress r' x.
Proof.
  intros Hl (r2 & tb & H & Hx). exists r2, tb. split; [done|]. destruct Hx as [?|[?|?]]; auto.
  right. right. lia.
Qed.

Lemma drop_ws_length r : (length (drop_ws r) <= length r)%nat.
Proof. destruct (drop_ws_split r) as (w & Ew & _). rewrite Ew at 2. rewrite length_app. lia. Qed.

Lemma cons_eof_length c r : (length r <= length (cons_eof c r))%nat.
Proof. unfold cons_eof. case_match; simpl; lia. Qed.

(** Behind white space, at a character. *)
Lemma skip_whitespace_at k lx r tb :
  before k lx r tb ->
  returns (skip_whitespace lx) (fun lx' => exists c r', at_char (k + 1) lx' c r' tb /\
    cons_eof c r' = drop_ws r).
Proof.
  intros H. eapply returns_mono; [by apply skip_whitespace_spec|]. intros lx' H'.
  exists (hd_eof (drop_ws r)), (tail (drop_ws r)). split; [done|]. apply cons_hd_eof. destruct (drop_ws_split r) as (w & Ew & _).
  pose proof (before_bytes _ _ _ _ H) as Hb. rewrite Ew in Hb. by apply Forall_app in Hb as [_ ?].
Qed.

Lemma skip_comments_total ic fuel lx c r tb n :
  at_char 1 lx c r tb -> (length r < fuel)%nat -> (length (cons_eof c r) <= n)%nat ->
  returns (while_loop fuel (skip_comment_step ic) lx) (fun x =>
    if x.1 : bool then exists c' r' tb', at_char 1 x.2 c' r' tb' /\ (length (cons_eof c' r') <= n)%nat
    else somewhere 1 x.2).
Proof.
  revert lx c r tb. induction fuel as [|fuel IH]; intros lx c r tb H Hf Hn; [lia|].
  cbn [while_loop]. unfold skip_comment_step at 2.
  destruct (ic && (current lx =? ch "/")); bind_ret.
  2: { apply returns_ret. by exists c, r, tb. }
  destruct (scan_comment_total 1 lx r tb) as ([ok lx1] & -> & r1 & tb1 & H1 & Hl & Hs); [eauto with lex|].
  bind_ret. simpl in *. destruct ok; bind_ret; [|apply returns_ret; simpl; eauto with lex].
  destruct (skip_whitespace_at _ _ _ _ H1) as (lx2 & -> & c2 & r2 & H2 & E2). bind_ret.
  specialize (Hs eq_refl). pose proof (drop_ws_length r1) as Hd. rewrite <- E2 in Hd.
  pose proof (cons_eof_length c r). pose proof (cons_eof_length c2 r2).
  apply at_weaken with (k' := 1) in H2; [|lia].
  eapply IH; [done|lia|lia].
Qed.

Lemma scan_next_total ic lx r tb :
  before 0 lx r tb -> returns (scan_next [dp] ic lx) (progress r).
Proof.
  intros H. unfold scan_next.
  destruct (skip_whitespace_at _ _ _ _ H) as (lx1 & -> & c & r1 & H1 & E1). bind_ret.
  pose proof (drop_ws_length r) as Hd. rewrite <- E1 in Hd.
  destruct (skip_comments_total ic (input_fuel lx1) _ _ _ _ (length r) H1) as ([ok lx2] & -> & Hx);
    [rewrite (input_fuel_at _ _ _ _ _ H1); lia|done|].
  bind_ret. destruct ok; simpl in Hx; [|by apply returns_ret, somewhere_progress; auto].
  destruct Hx as (c' & r' & tb' & H2 & Hl).
  eapply returns_mono; [by eapply scan_token_sound|]. intros x Hx%token_post_progress.
  by eapply progress_mono.
Qed.

Lemma scan_total ic lx r tb :
  before 0 lx r tb -> returns (scan [dp] ic lx) (progress r).
Proof.
  intros H. unfold scan. destruct (chars_read_total (position lx) =? 0).
  - destruct (skip_bom_total _ _ _ _ H) as ([ok lx1] & -> & (r1 & tb1 & H1 & Hl & _) & Hs). bind_ret.
    destruct ok; simpl in *.
    + eapply returns_mono; [by apply (scan_next_total ic _ r1 tb1)|]. intros x. by apply progress_mono.
    + apply returns_ret, somewhere_progress; [auto|]. apply error_somewhere. by apply Hs.
  - bind_ret. by eapply scan_next_total.
Qed.

(** ** The tokens, without comments *)

Lemma scan_started ic lx r tb : before 1 lx r tb -> scan [dp] ic lx = scan_next [dp] ic lx.
Proof.
  intros H. unfold scan. pose proof (before_total _ _ _ _ H).
  by rewrite (proj2 (Z.eqb_neq _ _)) by lia.
Qed.

Lemma scan_next_at lx r tb :
  before 0 lx r tb -> exists lx' c r', at_char 1 lx' c r' tb /\ cons_eof c r' = drop_ws r /\
    scan_next [dp] false lx = scan_token [dp] lx'.
Proof.
  intros H. unfold scan_next. destruct (skip_whitespace_at _ _ _ _ H) as (lx1 & -> & c & r1 & H1 & E1).
  exists lx1, c, r1. split; [done|]. split; [done|]. bind_ret.
  rewrite (input_fuel_at _ _ _ _ _ H1). by rewrite Nat.add_comm.
Qed.

(** What [scan] does on [r]. *)
Definition scan_post (r : list Z) (x : scanned) : Prop :=
  (exists w t r' tb', r = w ++ t ++ r' /\ ws w /\ token_text x.2 x.1 t /\ before 1 x.2 r' tb') \/
  (x.1 = end_of_input /\ (exists w tail, r = w ++ tail /\ ws w /\ (tail = [] \/ head tail = Some 0)) /\
   somewhere 1 x.2) \/
  (x.1 = parse_error /\ somewhere 1 x.2).

Lemma scan_next_sound lx r tb :
  before 0 lx r tb -> returns (scan_next [dp] false lx) (scan_post r).
Proof.
  intros H. destruct (scan_next_at _ _ _ H) as (lx1 & c & r1 & H1 & E1 & ->).
  destruct (drop_ws_split r) as (w & Ew & Hw). rewrite <- E1 in Ew.
  eapply returns_mono; [by eapply scan_token_sound|].
  intros x [(t & r' & tb' & E & Ht & H')|[(Et & Hc & Hs)|?]]; [left| |by right; right].
  - exists w, t, r', tb'. rewrite Ew, E. auto.
  - right. left. split; [done|]. split; [|done]. exists w, (cons_eof c r1). split; [done|]. split; [done|].
    destruct Hc as [-> | ->]; [left|by right]. unfold cons_eof. simpl. by apply H1.
Qed.

(** The scan finds [c :: l] behind white space. *)
Lemma scan_next_cons w c l lx tb :
  before 0 lx (w ++ c :: l) tb -> ws w -> is_space c = false ->
  exists lx', at_char 1 lx' c l tb /\ scan_next [dp] false lx = scan_token [dp] lx'.
Proof.
  intros H Hw Hc. destruct (scan_next_at _ _ _ H) as (lx1 & c' & r1 & H1 & E1 & E).
  exists lx1. split; [|done]. rewrite drop_ws_app in E1 by done. simpl in E1. rewrite Hc in E1.
  unfold cons_eof in E1. destruct (Z.eqb_spec c' eof) as [->|].
  - pose proof (at_end _ _ _ _ _ H1 eq_refl). by subst.
  - by injection E1 as <- <-.
Qed.

Lemma scan_struct tok c w r lx tb :
  struct_char tok = Some c -> ws w -> before 0 lx (w ++ c :: r) tb ->
  exists lx', scan_next [dp] false lx = Ret (tok, lx') /\ before 1 lx' r tb.
Proof.
  intros Ht Hw H. destruct (scan_next_cons _ _ _ _ _ H Hw) as (lx1 & H1 & ->);
    [by destruct tok; simplify_eq/=|].
  exists lx1. split; [|eauto with lex]. unfold scan_token. rewrite (at_current _ _ _ _ _ H1).
  by destruct tok; simplify_eq/=.
Qed.

Lemma scan_string_token t s w r lx tb :
  string_text t s -> ws w -> before 0 lx (w ++ t ++ r) tb ->
  exists lx', scan_next [dp] false lx = Ret (value_string, lx') /\ before 1 lx' r s.
Proof.
  intros (body & cps & -> & Hb & ->) Hw H. cbn [app] in H. rewrite <- app_assoc in H.
  destruct (scan_next_cons _ _ _ _ _ H Hw) as (lx1 & H1 & ->); [done|].
  unfold scan_token. rewrite (at_current _ _ _ _ _ H1). cbn [Z.eqb Pos.eqb].
  by eapply scan_string_complete.
Qed.

Lemma scan_literal_token tok t j w r lx tb :
  literal_token tok = Some (t, j) -> ws w -> before 0 lx (w ++ t ++ r) tb ->
  exists lx', scan_next [dp] false lx = Ret (tok, lx') /\ before 1 lx' r tb.
Proof.
  intros Ht Hw H. destruct tok; simpl in Ht; simplify_eq; cbn [app] in H;
    (destruct (scan_next_cons _ _ _ _ _ H Hw) as (lx1 & H1 & ->); [done|]);
    unfold scan_token; rewrite (at_current _ _ _ _ _ H1); cbn [Z.eqb Pos.eqb];
    (eapply scan_literal_complete; [done|repeat constructor; unfold is_byte; simpl; lia|exact H1]).
Qed.

Lemma scan_number_token t j w r lx tb :
  number_form t j -> number_stop (hd_eof r) -> ws w -> before 0 lx (w ++ t ++ r) tb ->
  exists tok lx' tb', scan_next [dp] false lx = Ret (tok, lx') /\
    token_number tok lx' = Some j /\ before 1 lx' r tb'.
Proof.
  intros Hn Hr Hw H.
  assert (Ht : exists c t', t = c :: t' /\ (c = ch "-" \/ is_digit c = true)).
  { destruct Hn as [neg i f d x e Hi _ _]. pose proof (int_text_nonnil _ Hi).
    pose proof (int_text_digits _ Hi) as Hd. destruct neg; [simpl; eauto|].
    destruct i as [|c i]; [done|]. inversion_clear Hd. simpl. eauto. }
  destruct Ht as (c & t' & -> & Hc). cbn [app] in H.
  assert (Hsp : is_space c = false /\ c <> 0x22 /\ struct_char value_float = None).
  { unfold is_space. destruct Hc as [->|Hc]; [done|]. apply is_digit_spec in Hc. ztests. split; [done|]. split; [lia|done]. }
  destruct (scan_next_cons _ _ _ _ _ H Hw) as (lx1 & H1 & ->); [apply Hsp|].
  assert (E : scan_token [dp] lx1 = scan_number [dp] lx1).
  { unfold scan_token. rewrite (at_current _ _ _ _ _ H1). destruct Hc as [->|Hc]; [done|].
    rewrite Hc, orb_true_r. apply is_digit_spec in Hc. ztests. done. }
  rewrite E. by eapply scan_number_complete.
Qed.

Lemma scan_end w tl lx tb :
  ws w -> tl = [] \/ head tl = Some 0 -> before 0 lx (w ++ tl) tb ->
  exists lx', scan_next [dp] false lx = Ret (end_of_input, lx') /\ somewhere 1 lx'.
Proof.
  intros Hw Ht H. destruct (scan_next_at _ _ _ H) as (lx1 & c & r1 & H1 & E1 & ->).
  rewrite drop_ws_app in E1 by done. exists lx1. split; [|eauto with lex].
  assert (Hc : c = 0 \/ c = eof).
  { destruct (Z.eq_dec c eof); [by right|left]. unfold cons_eof in E1.
    rewrite (proj2 (Z.eqb_neq c eof)) in E1 by done. destruct Ht as [->|Ht]; [done|].
    destruct tl as [|x tl]; [done|]. injection Ht as ->. simpl in E1. by injection E1. }
  unfold scan_token. rewrite (at_current _ _ _ _ _ H1). by destruct Hc as [-> | ->].
Qed.

(** ** The first token, behind an optional byte order mark *)

Lemma new_lexer_before s : bytes s -> before 0 (new_lexer s) s [].
Proof. intros H. by split. Qed.

Lemma scan_first_plain ic s :
  bytes s -> head s <> Some 0xEF ->
  exists lx', scan [dp] ic (new_lexer s) = scan_next [dp] ic lx' /\ before 0 lx' s [].
Proof.
  intros Hs Hh. unfold scan. cbn [new_lexer position chars_read_total Z.eqb]. unfold skip_bom.
  pose proof (get_before _ _ _ _ (new_lexer_before s Hs)) as Ha. rewrite (at_current _ _ _ _ _ Ha).
  rewrite (proj2 (Z.eqb_neq (hd_eof s) 0xEF)) by (destruct s as [|c s]; [done|]; intros E; change (c = 0xEF) in E; by subst c).
  destruct (unget_at _ _ _ _ _ Ha) as (lx' & -> & Hu). bind_ret. exists lx'. split; [done|].
  by rewrite cons_hd_eof in Hu.
Qed.

Lemma scan_first_bom ic s :
  bytes s ->
  exists lx', scan [dp] ic (new_lexer (bom ++ s)) = scan_next [dp] ic lx' /\ before 0 lx' s [].
Proof.
  intros Hs. eexists. split; [done|]. cbn [fst snd].
  assert (H0 : before 0 (new_lexer (bom ++ s)) (bom ++ s) [])
    by (apply new_lexer_before; repeat constructor; done).
  do 3 apply get_rest in H0. exact H0.
Qed.

Lemma scan_first_sound ic s :
  bytes s ->
  (exists b s' lx', s = b ++ s' /\ (b = [] \/ b = bom) /\
     scan [dp] ic (new_lexer s) = scan_next [dp] ic lx' /\ before 0 lx' s' []) \/
  (exists lx', scan [dp] ic (new_lexer s) = Ret (parse_error, lx') /\ somewhere 1 lx').
Proof.
  intros Hs. destruct (decide (head s = Some 0xEF)) as [Hh|Hh].
  2: { left. destruct (scan_first_plain ic s Hs Hh) as (lx' & E & H). exists [], s, lx'. auto. }
  destruct (decide (take 3 s = bom)) as [Hb|Hb].
  - left. rewrite <- (take_drop 3 s), Hb. destruct (scan_first_bom ic (drop 3 s)) as (lx' & E & H).
    { by apply Forall_drop. }
    exists bom, (drop 3 s), lx'. auto.
  - right. destruct s as [|c s]; [done|]. injection Hh as ->.
    pose proof (get_cons _ _ _ _ _ (new_lexer_before _ Hs)) as Ha.
    unfold scan. cbn [new_lexer position chars_read_total Z.eqb]. unfold skip_bom.
    rewrite (at_current _ _ _ _ _ Ha). cbn [Z.eqb Pos.eqb]. apply at_before in Ha.
    destruct (get_cases _ _ _ _ Ha) as [(-> & E & H2)|(x & s1 & -> & E & Hx & H2)]; rewrite E.
    { eexists. split; [done|]. eauto with lex. }
    apply before_weaken with (k' := 1) in H2; [|lia].
    destruct (Z.eqb_spec x 0xBB) as [->|]; [|eexists; split; [done|]; eauto with lex].
    pose proof (get_before _ _ _ _ H2) as H3. rewrite (at_current _ _ _ _ _ H3).
    rewrite (proj2 (Z.eqb_neq (hd_eof s1) 0xBF)).
    + eexists. split; [done|]. apply at_before in H3. apply before_weaken with (k' := 1) in H3; [|lia].
      eauto with lex.
    + destruct s1 as [|y s1]; [done|]. simpl. intros E'. apply Hb. change (y = 0xBF) in E'. by subst y.
Qed.
End Tokens.
