(* ===== verification/JsonParser.v ===== *)
(** The parser of [src/util/nlohmann_json.hpp]: the interface that receives its
    events, the loop over the tokens with its stack of open containers, the
    receivers that build a value and that only accept, and the entry points
    [parse], [accept] and [sax_parse].

    A receiver is an instance of [Sax].  A pointer into the value that is built
    is the path from the root to the element. *)

From Stdlib Require Import ZArith Lia.
From S2P Require Import Prelude JsonValue JsonNumber JsonGrammar JsonLexer.
From stdpp Require Import base decidable option strings list.

Open Scope Z_scope.

(** ** Receivers of events *)

Class Sax (S : Type) := {
  sax_null : S -> outcome (bool * S);
  sax_boolean : bool -> S -> outcome (bool * S);
  sax_number_integer : Z -> S -> outcome (bool * S);
  sax_number_unsigned : Z -> S -> outcome (bool * S);
  sax_number_float : Z -> list Z -> S -> outcome (bool * S);
  sax_string : list Z -> S -> outcome (bool * S);
  sax_binary : list Z -> option Z -> S -> outcome (bool * S);
  sax_start_object : Z -> S -> outcome (bool * S);
  sax_key : list Z -> S -> outcome (bool * S);
  sax_end_object : S -> outcome (bool * S);
  sax_start_array : Z -> S -> outcome (bool * S);
  sax_end_array : S -> outcome (bool * S);
  sax_parse_error : Z -> list Z -> exn -> S -> outcome (bool * S);
}.

(** [static_cast<std::size_t>(-1)]: the number of elements is not known. *)
Definition unknown_size : Z := 2 ^ 64 - 1.

(** ** [json_sax_acceptor] *)

#[export] Instance json_sax_acceptor : Sax unit := {|
  sax_null := fun s => Ret (true, s);
  sax_boolean := fun _ s => Ret (true, s);
  sax_number_integer := fun _ s => Ret (true, s);
  sax_number_unsigned := fun _ s => Ret (true, s);
  sax_number_float := fun _ _ s => Ret (true, s);
  sax_string := fun _ s => Ret (true, s);
  sax_binary := fun _ _ s => Ret (true, s);
  sax_start_object := fun _ s => Ret (true, s);
  sax_key := fun _ s => Ret (true, s);
  sax_end_object := fun s => Ret (true, s);
  sax_start_array := fun _ s => Ret (true, s);
  sax_end_array := fun s => Ret (true, s);
  sax_parse_error := fun _ _ _ s => Ret (false, s);
|}.

(** ** Pointers into a value *)

Inductive path_step :=
  | Idx (n : nat)
  | Key (k : list Z).

Definition step_in (p : path_step) (j : json) : option json :=
  match p, j with
  | Idx n, Array l => l !! n
  | Key k, Object o => map_find k o
  | _, _ => None
  end.

Fixpoint get_path (p : list path_step) (j : json) : option json :=
  match p with
  | [] => Some j
  | x :: p => step_in x j ≫= get_path p
  end.

(** The value with [v] at the path. *)
Fixpoint set_path (p : list path_step) (v : json) (j : json) : json :=
  match p, j with
  | [], _ => v
  | Idx n :: p, Array l => Array (alter (set_path p v) n l)
  | Key k :: p, Object o => Object (map_alter k (set_path p v) o)
  | _, _ => j
  end.

(** ** [json_sax_dom_parser] *)

(** The back of [ref_stack] is the head of the list. *)
Record json_sax_dom_parser := {
  root : json;
  ref_stack : list (list path_step);
  object_element : option (list path_step);
  errored : bool;
  allow_exceptions : bool;
}.

Definition set_root (d : json_sax_dom_parser) (j : json) : json_sax_dom_parser :=
  {| root := j; ref_stack := ref_stack d; object_element := object_element d;
     errored := errored d; allow_exceptions := allow_exceptions d |}.

Definition set_stack (d : json_sax_dom_parser) (st : list (list path_step)) : json_sax_dom_parser :=
  {| root := root d; ref_stack := st; object_element := object_element d;
     errored := errored d; allow_exceptions := allow_exceptions d |}.

Definition set_element (d : json_sax_dom_parser) (p : option (list path_step)) : json_sax_dom_parser :=
  {| root := root d; ref_stack := ref_stack d; object_element := p;
     errored := errored d; allow_exceptions := allow_exceptions d |}.

Definition deref (d : json_sax_dom_parser) (p : list path_step) : outcome json :=
  match get_path p (root d) with
  | Some j => Ret j
  | None => Undef BadPointer
  end.

(** Returns the pointer to the value that was added. *)
Definition handle_value (v : json) (d : json_sax_dom_parser)
    : outcome (list path_step * json_sax_dom_parser) :=
  match ref_stack d with
  | [] => Ret ([], set_root d v)
  | back :: _ =>
      c ← deref d back;
      match c with
      | Array l =>
          Ret (back ++ [Idx (length l)], set_root d (set_path back (Array (l ++ [v])) (root d)))
      | Object _ =>
          match object_element d with
          | None => Undef AssertFailed
          | Some p => _ ← deref d p; Ret (p, set_root d (set_path p v (root d)))
          end
      | _ => Undef AssertFailed
      end
  end.

Definition handle_scalar (v : json) (d : json_sax_dom_parser) : outcome (bool * json_sax_dom_parser) :=
  '(_, d) ← handle_value v d; Ret (true, d).

(** [max_size] of a vector of values and of a map from strings to values, with
    the sizes of their elements and nodes. *)
Definition array_max_size : Z := (2 ^ 63 - 1) / 16.
Definition object_max_size : Z := (2 ^ 63 - 1) / 80.

Definition start_container (empty : json) (max_size : Z) (what : string) (len : Z)
    (d : json_sax_dom_parser) : outcome (bool * json_sax_dom_parser) :=
  '(p, d) ← handle_value empty d;
  if negb (len =? unknown_size) && (max_size <? len)
  then Throw (out_of_range_create 408 (bytes_of what ++ to_string len))
  else Ret (true, set_stack d (p :: ref_stack d)).

Definition dom_key (k : list Z) (d : json_sax_dom_parser) : outcome (bool * json_sax_dom_parser) :=
  match ref_stack d with
  | [] => Undef AssertFailed
  | back :: _ =>
      c ← deref d back;
      match c with
      | Object o =>
          Ret (true, set_element (set_root d (set_path back (Object (map_index Null k o)) (root d)))
                       (Some (back ++ [Key k])))
      | _ => Undef AssertFailed
      end
  end.

Definition end_container (is_kind : json -> bool) (d : json_sax_dom_parser)
    : outcome (bool * json_sax_dom_parser) :=
  match ref_stack d with
  | [] => Undef AssertFailed
  | back :: st =>
      c ← deref d back;
      if is_kind c then Ret (true, set_stack d st) else Undef AssertFailed
  end.

Definition dom_parse_error (ex : exn) (d : json_sax_dom_parser) : outcome (bool * json_sax_dom_parser) :=
  if allow_exceptions d then Throw ex
  else Ret (false, {| root := root d; ref_stack := ref_stack d; object_element := object_element d;
                      errored := true; allow_exceptions := allow_exceptions d |}).

#[export] Instance dom_sax : Sax json_sax_dom_parser := {|
  sax_null := handle_scalar Null;
  sax_boolean := fun b => handle_scalar (Boolean b);
  sax_number_integer := fun z => handle_scalar (Number_integer z);
  sax_number_unsigned := fun z => handle_scalar (Number_unsigned z);
  sax_number_float := fun z _ => handle_scalar (Number_float z);
  sax_string := fun s => handle_scalar (Str s);
  sax_binary := fun b t => handle_scalar (Binary b t);
  sax_start_object := start_container (Object []) object_max_size "excessive object size: ";
  sax_key := dom_key;
  sax_end_object := end_container is_object;
  sax_start_array := start_container (Array []) array_max_size "excessive array size: ";
  sax_end_array := end_container is_array;
  sax_parse_error := fun _ _ => dom_parse_error;
|}.

(** ** [parser] *)

Record parser := {
  last_token : token_type;
  m_lexer : lexer;
}.

Section Parser.
Variable decimal_point : list Z.
Variable ignore_comments : bool.

Definition get_token (p : parser) : outcome parser :=
  '(tok, lx) ← scan decimal_point ignore_comments (m_lexer p);
  Ret {| last_token := tok; m_lexer := lx |}.

(** The constructor reads the first token. *)
Definition new_parser (input : list Z) : outcome parser :=
  get_token {| last_token := uninitialized; m_lexer := new_lexer input |}.

Definition exception_message (expected : token_type) (context : string) (p : parser) : list Z :=
  bytes_of "syntax error " ++
  (if decide (context = EmptyString) then []
   else bytes_of "while parsing " ++ bytes_of context ++ bytes_of " ") ++
  bytes_of "- " ++
  (if decide (last_token p = parse_error)
   then bytes_of (error_message (m_lexer p)) ++ bytes_of "; last read: '" ++
        get_token_string (m_lexer p) ++ bytes_of "'"
   else bytes_of "unexpected " ++ bytes_of (token_type_name (last_token p))) ++
  (if decide (expected = uninitialized) then []
   else bytes_of "; expected " ++ bytes_of (token_type_name expected)).

Context {S : Type} `{Sax S}.

(** [return sax->parse_error(...)] for an unexpected token. *)
Definition syntax_error (expected : token_type) (context : string) (p : parser) (s : S)
    : outcome (bool * S) :=
  let lx := m_lexer p in
  sax_parse_error (chars_read_total (position lx)) (get_token_string lx)
    (parse_error_create 101 (position lx) (exception_message expected context p)) s.

(** What a part of the loop body does: the next round, with the stack of open
    containers; the evaluation of the state; or the end. *)
Inductive parse_result :=
  | NextRound (skip : bool) (states : list bool) (p : parser) (s : S)
  | Evaluate (p : parser) (s : S)
  | Return (b : bool) (p : parser) (s : S).

(** [return] the result of a handler, or leave with [false]. *)
Definition return_from (p : parser) (m : outcome (bool * S)) : outcome parse_result :=
  '(b, s) ← m; Ret (Return b p s).

Definition and_then (p : parser) (m : outcome (bool * S)) (k : S -> outcome parse_result)
    : outcome parse_result :=
  '(b, s) ← m; if b : bool then k s else Ret (Return false p s).

(** A key has been read: the separator and the first token of the value. *)
Definition parse_member (states : list bool) (p : parser) (s : S) : outcome parse_result :=
  if decide (last_token p = value_string) then
    and_then p (sax_key (token_buffer (m_lexer p)) s) (fun s =>
      p ← get_token p;
      if decide (last_token p = name_separator) then
        p ← get_token p;
        Ret (NextRound false states p s)
      else return_from p (syntax_error name_separator "object separator" p s))
  else return_from p (syntax_error value_string "object key" p s).

(** The switch over the last token. *)
Definition parse_value (states : list bool) (p : parser) (s : S) : outcome parse_result :=
  let lx := m_lexer p in
  match last_token p with
  | begin_object =>
      and_then p (sax_start_object unknown_size s) (fun s =>
        p ← get_token p;
        if decide (last_token p = end_object)
        then and_then p (sax_end_object s) (fun s => Ret (Evaluate p s))
        else parse_member (false :: states) p s)
  | begin_array =>
      and_then p (sax_start_array unknown_size s) (fun s =>
        p ← get_token p;
        if decide (last_token p = end_array)
        then and_then p (sax_end_array s) (fun s => Ret (Evaluate p s))
        else Ret (NextRound false (true :: states) p s))
  | value_float =>
      if isfinite (number_float lx)
      then and_then p (sax_number_float (number_float lx) (token_buffer lx) s) (fun s => Ret (Evaluate p s))
      else return_from p (sax_parse_error (chars_read_total (position lx)) (get_token_string lx)
             (out_of_range_create 406 (bytes_of "number overflow parsing '" ++ get_token_string lx ++
                bytes_of "'")) s)
  | literal_false => and_then p (sax_boolean false s) (fun s => Ret (Evaluate p s))
  | literal_null => and_then p (sax_null s) (fun s => Ret (Evaluate p s))
  | literal_true => and_then p (sax_boolean true s) (fun s => Ret (Evaluate p s))
  | value_integer => and_then p (sax_number_integer (number_integer lx) s) (fun s => Ret (Evaluate p s))
  | value_string => and_then p (sax_string (token_buffer lx) s) (fun s => Ret (Evaluate p s))
  | value_unsigned => and_then p (sax_number_unsigned (number_unsigned lx) s) (fun s => Ret (Evaluate p s))
  | parse_error => return_from p (syntax_error uninitialized "value" p s)
  | _ => return_from p (syntax_error literal_or_value "value" p s)
  end.

(** A value has been read: what its container expects next. *)
Definition evaluate_state (states : list bool) (p : parser) (s : S) : outcome parse_result :=
  match states with
  | [] => Ret (Return true p s)
  | true :: states' =>
      p ← get_token p;
      if decide (last_token p = value_separator) then
        p ← get_token p; Ret (NextRound false states p s)
      else if decide (last_token p = end_array) then
        and_then p (sax_end_array s) (fun s => Ret (NextRound true states' p s))
      else return_from p (syntax_error end_array "array" p s)
  | false :: states' =>
      p ← get_token p;
      if decide (last_token p = value_separator) then
        p ← get_token p; parse_member states p s
      else if decide (last_token p = end_object) then
        and_then p (sax_end_object s) (fun s => Ret (NextRound true states' p s))
      else return_from p (syntax_error end_object "object" p s)
  end.

Abbreviation round := (bool * list bool * parser * S)%type.

Definition finish_round (r : parse_result) : outcome (control round (bool * parser * S)) :=
  match r with
  | NextRound skip states p s => Ret (Continue (skip, states, p, s))
  | Evaluate p s => Undef AssertFailed
  | Return b p s => Ret (Break (b, p, s))
  end.

Definition parse_round (x : round) : outcome (control round (bool * parser * S)) :=
  let '(skip, states, p, s) := x in
  r ← (if skip : bool then Ret (Evaluate p s) else parse_value states p s);
  match r with
  | Evaluate p s => r ← evaluate_state states p s; finish_round r
  | _ => finish_round r
  end.

(** Every round reads a token of at least one character. *)
Definition parse_fuel (p : parser) : nat := length (ia (m_lexer p)) + 3.

Definition sax_parse_internal (p : parser) (s : S) : outcome (bool * parser * S) :=
  while_loop (parse_fuel p) parse_round (false, [], p, s).

Definition sax_parse (strict : bool) (p : parser) (s : S) : outcome (bool * S) :=
  '(result, p, s) ← sax_parse_internal p s;
  if result && strict then
    p ← get_token p;
    if decide (last_token p = end_of_input) then Ret (result, s)
    else syntax_error end_of_input "value" p s
  else Ret (result, s).
End Parser.

(** ** Entry points *)

Section Entry.
Variable decimal_point : list Z.

(** [parser(adapter, nullptr, allow_exceptions, ignore_comments).parse(strict, result)] *)
Definition parse_with (strict exceptions ignore_comments : bool) (input : list Z) : outcome json :=
  p ← new_parser decimal_point ignore_comments input;
  let d := {| root := Null; ref_stack := []; object_element := None; errored := false;
              allow_exceptions := exceptions |} in
  '(_, p, d) ← sax_parse_internal decimal_point ignore_comments p d;
  d ← (if strict : bool then
         p ← get_token decimal_point ignore_comments p;
         if decide (last_token p = end_of_input) then Ret d
         else '(_, d) ← syntax_error end_of_input "value" p d; Ret d
       else Ret d);
  Ret (if errored d then Discarded else root d).

(** [basic_json::parse] of a text: strict, with exceptions and no comments. *)
Definition parse (input : list Z) : outcome json := parse_with true true false input.

Definition accept (strict ignore_comments : bool) (input : list Z) : outcome bool :=
  p ← new_parser decimal_point ignore_comments input;
  '(b, _) ← sax_parse decimal_point ignore_comments strict p tt;
  Ret b.
End Entry.
