(* ===== verification/JsonParse.v ===== *)
(** The parser of [src/util/nlohmann_json.hpp] against the grammar: on a text
    of the grammar it sends the events of the tree that is written to the
    receiver, and when it succeeds the input is a text of the grammar. *)

From Stdlib Require Import ZArith Lia.
From S2P Require Import Prelude JsonValue JsonNumber JsonGrammar JsonLexer JsonScan JsonScanNumber.
From S2P Require Import JsonTokens JsonParser.
From stdpp Require Import base decidable option strings list.

Open Scope Z_scope.

Section Parse.
Context (dp : Z).
Hypotheses (Hdp_byte : is_byte dp) (Hdp_digit : is_digit dp = false)
  (Hdp_exp : is_exponent_char dp = false).
Context {St : Type} `{Sax St}.

(** The text of a number is not used by the receiver. *)
Hypothesis float_text : forall z tb s, sax_number_float z tb s = sax_number_float z [] s.

(** ** The events of a value *)

Definition and_also (m : outcome (bool * St)) (k : St -> outcome (bool * St)) : outcome (bool * St) :=
  '(b, s) ← m; if b : bool then k s else Ret (false, s).

Fixpoint emit (j : json) (s : St) : outcome (bool * St) :=
  match j with
  | Null => sax_null s
  | Boolean b => sax_boolean b s
  | Number_integer z => sax_number_integer z s
  | Number_unsigned z => sax_number_unsigned z s
  | Number_float z => sax_number_float z [] s
  | Str t => sax_string t s
  | Binary b t => sax_binary b t s
  | Array l =>
      and_also (sax_start_array unknown_size s) (fun s =>
        and_also ((fix go l s := match l with
                                 | [] => Ret (true, s)
                                 | j :: l => and_also (emit j s) (go l)
                                 end) l s) sax_end_array)
  | Object o =>
      and_also (sax_start_object unknown_size s) (fun s =>
        and_also ((fix go o s := match o with
                                 | [] => Ret (true, s)
                                 | e :: o => and_also (sax_key e.1 s) (fun s =>
                                     and_also (emit e.2 s) (go o))
                                 end) o s) sax_end_object)
  | Discarded => Ret (false, s)
  end.

Fixpoint emit_elements (l : list json) (s : St) : outcome (bool * St) :=
  match l with
  | [] => Ret (true, s)
  | j :: l => and_also (emit j s) (emit_elements l)
  end.

Fixpoint emit_members (o : list (list Z * json)) (s : St) : outcome (bool * St) :=
  match o with
  | [] => Ret (true, s)
  | e :: o => and_also (sax_key e.1 s) (fun s => and_also (emit e.2 s) (emit_members o))
  end.

Lemma emit_Array l s :
  emit (Array l) s = and_also (sax_start_array unknown_size s) (fun s =>
    and_also (emit_elements l s) sax_end_array).
Proof. done. Qed.

Lemma emit_Object o s :
  emit (Object o) s = and_also (sax_start_object unknown_size s) (fun s =>
    and_also (emit_members o s) sax_end_object).
Proof. done. Qed.

Lemma and_also_true m k s :
  and_also m k = Ret (true, s) <-> exists s1, m = Ret (true, s1) /\ k s1 = Ret (true, s).
Proof.
  split.
  - unfold and_also. destruct m as [[[] s1]| | |]; simpl; try done. eauto.
  - by intros (s1 & -> & Hk).
Qed.

Lemma and_then_true (p : parser) m k (s1 : St) :
  m = Ret (true, s1) -> and_then p m k = k s1.
Proof. by intros ->. Qed.

(** ** Running on from the evaluation of the state *)

Abbreviation round := (parse_round [dp] false (S := St)).

Definition eval_then (fuel : nat) (states : list bool) (p : parser) (s : St)
    : outcome (bool * parser * St) :=
  r ← evaluate_state [dp] false states p s;
  c ← finish_round r;
  match c with
  | Continue x => while_loop fuel round x
  | Break x => Ret x
  end.

Lemma round_skip fuel states p s :
  while_loop (S fuel) round (true, states, p, s) = eval_then fuel states p s.
Proof.
  unfold eval_then. simpl. destruct (evaluate_state _ _ _ _ _); done.
Qed.

Lemma round_evaluate fuel states p s p' s' :
  parse_value [dp] false states p s = Ret (Evaluate p' s') ->
  while_loop (S fuel) round (false, states, p, s) = eval_then fuel states p' s'.
Proof.
  intros E. unfold eval_then. cbn [while_loop]. unfold parse_round at 2. rewrite E. bind_ret.
  by destruct (evaluate_state _ _ _ _ _).
Qed.

Lemma round_next fuel states p s skip states' p' s' :
  parse_value [dp] false states p s = Ret (NextRound skip states' p' s') ->
  while_loop (S fuel) round (false, states, p, s) =
  while_loop fuel round (skip, states', p', s').
Proof.
  intros E. apply while_loop_continue. unfold parse_round. by rewrite E.
Qed.

Lemma eval_next fuel states p s skip states' p' s' :
  evaluate_state [dp] false states p s = Ret (NextRound skip states' p' s') ->
  eval_then fuel states p s = while_loop fuel round (skip, states', p', s').
Proof. intros E. unfold eval_then. by rewrite E. Qed.

(** The next token, when a scan is known. *)
Lemma get_token_scan tok0 lx0 r tb tok lx :
  before 1 lx0 r tb -> scan_next [dp] false lx0 = Ret (tok, lx) ->
  get_token [dp] false {| last_token := tok0; m_lexer := lx0 |} = Ret {| last_token := tok; m_lexer := lx |}.
Proof. intros Hb E. unfold get_token. cbn [m_lexer]. by rewrite (scan_started _ _ _ _ _ Hb), E. Qed.

Lemma before_1_0 lx r tb : before 1 lx r tb -> before 0 lx r tb.
Proof. apply before_weaken. lia. Qed.

(** ** Completeness *)

(** The tokens that begin a value. *)
Definition begins_value (tok : token_type) : Prop := tok <> end_array /\ tok <> end_object.

(** The rounds over the text [t] of the value [j]. *)
Definition value_run (t : list Z) (j : json) : Prop :=
  forall w r lx tb, ws w -> number_stop (hd_eof r) -> before 0 lx (w ++ t ++ r) tb ->
  exists tok lx1, scan_next [dp] false lx = Ret (tok, lx1) /\ begins_value tok /\
  forall states s s', emit j s = Ret (true, s') ->
  exists n p2 tb2, (n < length t)%nat /\ before 1 (m_lexer p2) r tb2 /\
  forall fuel, while_loop (n + S fuel) round (false, states, {| last_token := tok; m_lexer := lx1 |}, s) =
    eval_then fuel states p2 s'.

(** The rounds over the elements of an array and the bracket behind them. *)
Definition elements_run (t : list Z) (l : list json) : Prop :=
  forall r lx tb, before 0 lx (t ++ ch "]" :: r) tb ->
  exists tok lx1, scan_next [dp] false lx = Ret (tok, lx1) /\ begins_value tok /\
  forall states s s1 s', emit_elements l s = Ret (true, s1) -> sax_end_array s1 = Ret (true, s') ->
  exists n p2 tb2, (n < length t)%nat /\ before 1 (m_lexer p2) r tb2 /\
  forall fuel, while_loop (n + S fuel) round
      (false, true :: states, {| last_token := tok; m_lexer := lx1 |}, s) =
    while_loop fuel round (true, states, p2, s').

(** The rounds over the members of an object and the brace behind them. *)
Definition members_run (t : list Z) (es : list (list Z * json)) : Prop :=
  forall r lx tb, before 0 lx (t ++ ch "}" :: r) tb ->
  exists lx1, scan_next [dp] false lx = Ret (value_string, lx1) /\
  forall states s s1 s', emit_members es s = Ret (true, s1) -> sax_end_object s1 = Ret (true, s') ->
  exists p1 s0 n p2 tb2,
    parse_member [dp] false (false :: states) {| last_token := value_string; m_lexer := lx1 |} s =
      Ret (NextRound false (false :: states) p1 s0) /\
    (n < length t)%nat /\ before 1 (m_lexer p2) r tb2 /\
  forall fuel, while_loop (n + S fuel) round (false, false :: states, p1, s0) =
    while_loop fuel round (true, states, p2, s').

(** A value of one token. *)
Lemma scalar_run t j :
  (1 <= length t)%nat ->
  (forall w r lx tb, ws w -> number_stop (hd_eof r) -> before 0 lx (w ++ t ++ r) tb ->
   exists tok lx1 tb1, scan_next [dp] false lx = Ret (tok, lx1) /\ begins_value tok /\ before 1 lx1 r tb1 /\
   forall states s s', emit j s = Ret (true, s') ->
     parse_value [dp] false states {| last_token := tok; m_lexer := lx1 |} s =
       Ret (Evaluate {| last_token := tok; m_lexer := lx1 |} s')) ->
  value_run t j.
Proof.
  intros Hl Hs w r lx tb Hw Hr Hb.
  destruct (Hs w r lx tb Hw Hr Hb) as (tok & lx1 & tb1 & E & Ht & H1 & Hrun).
  exists tok, lx1. split; [done|]. split; [done|]. intros states s s' He.
  exists 0%nat, {| last_token := tok; m_lexer := lx1 |}, tb1. split; [lia|]. split; [done|].
  intros fuel. by apply round_evaluate, Hrun.
Qed.

Lemma literal_run tok t j :
  literal_token tok = Some (t, j) -> value_run t j.
Proof.
  intros Ht. apply scalar_run; [by destruct tok; simplify_eq/=; lia|].
  intros w r lx tb Hw Hr Hb. destruct (scan_literal_token dp tok t j w r lx tb Ht Hw Hb) as (lx1 & E & H1).
  exists tok, lx1, tb. split; [done|]. split; [by destruct tok; simplify_eq/=|]. split; [done|].
  intros states s s' He. unfold parse_value. cbn [last_token].
  destruct tok; try discriminate Ht; injection Ht as <- <-; exact (and_then_true _ _ _ s' He).
Qed.

Lemma string_run t s : string_text t s -> value_run t (Str s).
Proof.
  intros Ht. apply scalar_run; [destruct Ht as (? & ? & -> & _); simpl; lia|].
  intros w r lx tb Hw Hr Hb. destruct (scan_string_token dp t s w r lx tb Ht Hw Hb) as (lx1 & E & H1).
  exists value_string, lx1, s. split; [done|]. split; [done|]. split; [done|].
  intros states s0 s' He. unfold parse_value. simpl. rewrite (before_buffer _ _ _ _ H1).
  by rewrite (and_then_true _ _ _ s').
Qed.

Lemma number_run t j : number_form t j -> finite_number j = true -> value_run t j.
Proof.
  intros Hn Hf. apply scalar_run.
  { destruct Hn as [neg i f d x e Hi _ _]. pose proof (int_text_nonnil _ Hi).
    rewrite !length_app. destruct i; [done|]. simpl. lia. }
  intros w r lx tb Hw Hr Hb.
  destruct (scan_number_token dp Hdp_byte Hdp_digit Hdp_exp t j w r lx tb Hn Hr Hw Hb)
    as (tok & lx1 & tb1 & E & Ev & H1).
  exists tok, lx1, tb1. split; [done|].
  destruct tok; try discriminate Ev; injection Ev as <-; (split; [done|]; split; [done|]); intros states s s' He;
    unfold parse_value; cbn [last_token m_lexer].
  - exact (and_then_true _ _ _ s' He).
  - exact (and_then_true _ _ _ s' He).
  - cbn [finite_number] in Hf. rewrite Hf, float_text. exact (and_then_true _ _ _ s' He).
Qed.

Lemma separator_stop c : In c [ch ","; ch "]"; ch "}"] -> number_stop c.
Proof. intros [<-|[<-|[<-|[]]]]; by split. Qed.

Lemma space_stop c : is_space c = true -> number_stop c.
Proof.
  unfold is_space. rewrite !orb_true_iff, !Z.eqb_eq. by intros [[[-> | ->]| ->]| ->]; split.
Qed.

Lemma ws_stop w r : ws w -> number_stop (hd_eof r) -> number_stop (hd_eof (w ++ r)).
Proof. intros [|c w' Hc _] Hr; [done|]. by apply space_stop. Qed.

(** The token behind white space, with the lexer of a parser. *)
Lemma token_struct_at tok c w r p tb :
  struct_char tok = Some c -> ws w -> before 1 (m_lexer p) (w ++ c :: r) tb ->
  exists lx, get_token [dp] false p = Ret {| last_token := tok; m_lexer := lx |} /\ before 1 lx r tb.
Proof.
  intros Ht Hw Hb. destruct (scan_struct dp tok c w r _ tb Ht Hw (before_1_0 _ _ _ Hb)) as (lx & E & H1).
  exists lx. split; [|done]. destruct p. by eapply get_token_scan.
Qed.

Lemma eval_comma_array states w u p tb (s : St) :
  ws w -> before 1 (m_lexer p) (w ++ ch "," :: u) tb ->
  exists lx, before 1 lx u tb /\ forall tok lx1, scan_next [dp] false lx = Ret (tok, lx1) ->
    evaluate_state [dp] false (true :: states) p s =
      Ret (NextRound false (true :: states) {| last_token := tok; m_lexer := lx1 |} s).
Proof.
  intros Hw Hb. destruct (token_struct_at value_separator _ _ _ _ _ eq_refl Hw Hb) as (lx & E & H1).
  exists lx. split; [done|]. intros tok lx1 E1. simpl. rewrite E. bind_ret. cbn [last_token].
  rewrite decide_True by done. by rewrite (get_token_scan _ _ _ _ _ _ H1 E1).
Qed.

Lemma eval_close_array states w r p tb (s s' : St) :
  ws w -> before 1 (m_lexer p) (w ++ ch "]" :: r) tb -> sax_end_array s = Ret (true, s') ->
  exists p', before 1 (m_lexer p') r tb /\
    evaluate_state [dp] false (true :: states) p s = Ret (NextRound true states p' s').
Proof.
  intros Hw Hb Es. destruct (token_struct_at end_array _ _ _ _ _ eq_refl Hw Hb) as (lx & E & H1).
  exists {| last_token := end_array; m_lexer := lx |}. split; [done|]. simpl. rewrite E. bind_ret.
  cbn [last_token]. rewrite decide_False, decide_True by done. exact (and_then_true _ _ _ s' Es).
Qed.

Lemma elements_one_run w t w' j :
  ws w -> value_run t j -> ws w' -> elements_run (w ++ t ++ w') [j].
Proof.
  intros Hw Hv Hw' r lx tb Hb. rewrite <- !app_assoc in Hb.
  destruct (Hv w (w' ++ ch "]" :: r) lx tb Hw) as (tok & lx1 & E & Ht & Hrun);
    [apply ws_stop; [done|by apply separator_stop; right; left]|done|].
  exists tok, lx1. split; [done|]. split; [done|]. intros states s s1 s' He Hend.
  apply and_also_true in He as (s2 & Hj & [= ->]).
  destruct (Hrun (true :: states) s s1 Hj) as (n & p2 & tb2 & Hn & H2 & Hloop).
  destruct (eval_close_array states w' r p2 tb2 s1 s' Hw' H2 Hend) as (p3 & H3 & Ev).
  exists n, p3, tb2. rewrite !length_app. split; [lia|]. split; [done|]. intros fuel.
  rewrite Hloop. by apply eval_next.
Qed.

Lemma elements_more_run w t w' j t' l :
  ws w -> value_run t j -> ws w' -> elements_run t' l ->
  elements_run (w ++ t ++ w' ++ ch "," :: t') (j :: l).
Proof.
  intros Hw Hv Hw' Hl r lx tb Hb. rewrite <- !app_assoc in Hb. cbn [app] in Hb.
  destruct (Hv w (w' ++ ch "," :: t' ++ ch "]" :: r) lx tb Hw) as (tok & lx1 & E & Ht & Hrun);
    [apply ws_stop; [done|by apply separator_stop; left]|done|].
  exists tok, lx1. split; [done|]. split; [done|]. intros states s s1 s' He Hend.
  apply and_also_true in He as (s2 & Hj & He).
  destruct (Hrun (true :: states) s s2 Hj) as (n & p2 & tb2 & Hn & H2 & Hloop).
  destruct (eval_comma_array states w' _ p2 tb2 s2 Hw' H2) as (lx2 & H3 & Ev).
  destruct (Hl r lx2 tb2 (before_1_0 _ _ _ H3)) as (tok' & lx3 & E' & _ & Hrun').
  destruct (Hrun' states s2 s1 s' He Hend) as (n' & p4 & tb4 & Hn' & H4 & Hloop').
  exists (n + S n')%nat, p4, tb4. rewrite !length_app. cbn [length]. split; [lia|]. split; [done|].
  intros fuel. replace (n + S n' + S fuel)%nat with (n + S (n' + S fuel))%nat by lia.
  rewrite Hloop, (eval_next _ _ _ _ _ _ _ _ (Ev tok' lx3 E')). apply Hloop'.
Qed.

Lemma array_nil_run w : ws w -> value_run (ch "[" :: w ++ [ch "]"]) (Array []).
Proof.
  intros Hw w0 r lx tb Hw0 Hr Hb. cbn [app] in Hb. rewrite <- app_assoc in Hb.
  destruct (scan_struct dp begin_array _ _ _ _ _ eq_refl Hw0 Hb) as (lx1 & E & H1).
  exists begin_array, lx1. split; [done|]. split; [done|]. intros states s s' He.
  rewrite emit_Array in He. apply and_also_true in He as (s1 & Hs & He).
  apply and_also_true in He as (s2 & [= ->] & He).
  destruct (token_struct_at end_array _ w r {| last_token := begin_array; m_lexer := lx1 |} tb eq_refl Hw H1)
    as (lx2 & E2 & H2).
  exists 0%nat, {| last_token := end_array; m_lexer := lx2 |}, tb. simpl. split; [lia|]. split; [done|].
  intros fuel. apply round_evaluate. unfold parse_value. cbn [last_token m_lexer].
  rewrite (and_then_true _ _ _ _ Hs), E2. bind_ret. cbn [last_token]. rewrite decide_True by done.
  exact (and_then_true _ _ _ s' He).
Qed.

Lemma array_run t l : elements_run t l -> value_run (ch "[" :: t ++ [ch "]"]) (Array l).
Proof.
  intros Hl w0 r lx tb Hw0 Hr Hb. cbn [app] in Hb. rewrite <- app_assoc in Hb.
  destruct (scan_struct dp begin_array _ _ _ _ _ eq_refl Hw0 Hb) as (lx1 & E & H1).
  exists begin_array, lx1. split; [done|]. split; [done|]. intros states s s' He.
  rewrite emit_Array in He. apply and_also_true in He as (s1 & Hs & He).
  apply and_also_true in He as (s2 & He & Hend).
  destruct (Hl r lx1 tb (before_1_0 _ _ _ H1)) as (tok & lx2 & E2 & [Ht _] & Hrun).
  destruct (Hrun states s1 s2 s' He Hend) as (n & p3 & tb3 & Hn & H3 & Hloop).
  exists (S (S n)), p3, tb3. cbn [length]. rewrite length_app. cbn [length]. split; [lia|]. split; [done|].
  intros fuel. rewrite <- round_skip, <- Hloop. cbn [Nat.add].
  replace (S (S (n + S fuel))) with (S (n + S (S fuel))) by lia. apply round_next.
  unfold parse_value. cbn [last_token m_lexer]. rewrite (and_then_true _ _ _ _ Hs).
  rewrite (get_token_scan _ _ _ _ _ _ H1 E2). bind_ret.
  cbn [last_token]. by rewrite decide_False.
Qed.

(** A member: the key, the separator and the value. *)
Lemma member_run w n w1 w2 t k j r lx tb :
  ws w -> string_text n k -> ws w1 -> ws w2 -> value_run t j -> number_stop (hd_eof r) ->
  before 0 lx (w ++ n ++ w1 ++ ch ":" :: w2 ++ t ++ r) tb ->
  exists lx1, scan_next [dp] false lx = Ret (value_string, lx1) /\
  forall states s s1 s2, sax_key k s = Ret (true, s1) -> emit j s1 = Ret (true, s2) ->
  exists p1 m p2 tb2,
    parse_member [dp] false states {| last_token := value_string; m_lexer := lx1 |} s =
      Ret (NextRound false states p1 s1) /\
    (m < length t)%nat /\ before 1 (m_lexer p2) r tb2 /\
    forall fuel, while_loop (m + S fuel) round (false, states, p1, s1) = eval_then fuel states p2 s2.
Proof.
  intros Hw Hn Hw1 Hw2 Hv Hr Hb.
  destruct (scan_string_token dp n k w _ lx tb Hn Hw Hb) as (lx1 & E & H1).
  exists lx1. split; [done|]. intros states s s1 s2 Hk He.
  destruct (token_struct_at name_separator _ w1 _ {| last_token := value_string; m_lexer := lx1 |} _ eq_refl Hw1 H1)
    as (lx2 & E2 & H2).
  destruct (Hv w2 r lx2 k Hw2 Hr (before_1_0 _ _ _ H2)) as (tok & lx3 & E3 & _ & Hrun).
  destruct (Hrun states s1 s2 He) as (m & p2 & tb2 & Hm & H3 & Hloop).
  exists {| last_token := tok; m_lexer := lx3 |}, m, p2, tb2. split; [|done].
  unfold parse_member. cbn [last_token m_lexer]. rewrite decide_True by done.
  rewrite (before_buffer _ _ _ _ H1), (and_then_true _ _ _ _ Hk), E2. bind_ret. cbn [last_token].
  rewrite decide_True by done. by rewrite (get_token_scan _ _ _ _ _ _ H2 E3).
Qed.

Lemma eval_comma_object states w u p tb (s : St) :
  ws w -> before 1 (m_lexer p) (w ++ ch "," :: u) tb ->
  exists lx, before 1 lx u tb /\ forall tok lx1, scan_next [dp] false lx = Ret (tok, lx1) ->
    evaluate_state [dp] false (false :: states) p s =
      parse_member [dp] false (false :: states) {| last_token := tok; m_lexer := lx1 |} s.
Proof.
  intros Hw Hb. destruct (token_struct_at value_separator _ _ _ _ _ eq_refl Hw Hb) as (lx & E & H1).
  exists lx. split; [done|]. intros tok lx1 E1. simpl. rewrite E. bind_ret. cbn [last_token].
  rewrite decide_True by done. by rewrite (get_token_scan _ _ _ _ _ _ H1 E1).
Qed.

Lemma eval_close_object states w r p tb (s s' : St) :
  ws w -> before 1 (m_lexer p) (w ++ ch "}" :: r) tb -> sax_end_object s = Ret (true, s') ->
  exists p', before 1 (m_lexer p') r tb /\
    evaluate_state [dp] false (false :: states) p s = Ret (NextRound true states p' s').
Proof.
  intros Hw Hb Es. destruct (token_struct_at end_object _ _ _ _ _ eq_refl Hw Hb) as (lx & E & H1).
  exists {| last_token := end_object; m_lexer := lx |}. split; [done|]. simpl. rewrite E. bind_ret.
  cbn [last_token]. rewrite decide_False, decide_True by done. exact (and_then_true _ _ _ s' Es).
Qed.

Lemma members_one_run w n w1 w2 t w' k j :
  ws w -> string_text n k -> ws w1 -> ws w2 -> value_run t j -> ws w' ->
  members_run (w ++ n ++ w1 ++ ch ":" :: w2 ++ t ++ w') [(k, j)].
Proof.
  intros Hw Hn Hw1 Hw2 Hv Hw' r lx tb Hb. repeat (rewrite <- app_assoc in Hb; cbn [app] in Hb).
  destruct (member_run w n w1 w2 t k j (w' ++ ch "}" :: r) lx tb) as (lx1 & E & Hrun); try done.
  { apply ws_stop; [done|by apply separator_stop; right; right; left]. }
  exists lx1. split; [done|]. intros states s s1 s' He Hend.
  apply and_also_true in He as (s2 & Hk & He). apply and_also_true in He as (s3 & Hj & [= ->]).
  destruct (Hrun (false :: states) s s2 s1 Hk Hj) as (p1 & m & p2 & tb2 & Em & Hm & H2 & Hloop).
  destruct (eval_close_object states w' r p2 tb2 s1 s' Hw' H2 Hend) as (p3 & H3 & Ev).
  exists p1, s2, m, p3, tb2. split; [done|]. split.
  { repeat (rewrite length_app || cbn [length]). lia. }
  split; [done|]. intros fuel. rewrite Hloop. by apply eval_next.
Qed.

Lemma members_more_run w n w1 w2 t w' k j t' es :
  ws w -> string_text n k -> ws w1 -> ws w2 -> value_run t j -> ws w' -> members_run t' es ->
  members_run (w ++ n ++ w1 ++ ch ":" :: w2 ++ t ++ w' ++ ch "," :: t') ((k, j) :: es).
Proof.
  intros Hw Hn Hw1 Hw2 Hv Hw' Hl r lx tb Hb. repeat (rewrite <- app_assoc in Hb; cbn [app] in Hb).
  destruct (member_run w n w1 w2 t k j (w' ++ ch "," :: t' ++ ch "}" :: r) lx tb) as (lx1 & E & Hrun); try done.
  { apply ws_stop; [done|by apply separator_stop; left]. }
  exists lx1. split; [done|]. intros states s s1 s' He Hend.
  apply and_also_true in He as (s2 & Hk & He). apply and_also_true in He as (s3 & Hj & He).
  destruct (Hrun (false :: states) s s2 s3 Hk Hj) as (p1 & m & p2 & tb2 & Em & Hm & H2 & Hloop).
  destruct (eval_comma_object states w' _ p2 tb2 s3 Hw' H2) as (lx2 & H3 & Ev).
  destruct (Hl r lx2 tb2 (before_1_0 _ _ _ H3)) as (lx4 & E4 & Hrun').
  destruct (Hrun' states s3 s1 s' He Hend) as (p5 & s5 & m' & p6 & tb6 & Em' & Hm' & H6 & Hloop').
  exists p1, s2, (m + S m')%nat, p6, tb6. split; [done|]. split.
  { repeat (rewrite length_app || cbn [length]). lia. }
  split; [done|]. intros fuel. replace (m + S m' + S fuel)%nat with (m + S (m' + S fuel))%nat by lia.
  rewrite Hloop, <- Hloop'. apply eval_next. by rewrite (Ev _ _ E4).
Qed.

Lemma object_nil_run w : ws w -> value_run (ch "{" :: w ++ [ch "}"]) (Object []).
Proof.
  intros Hw w0 r lx tb Hw0 Hr Hb. cbn [app] in Hb. rewrite <- app_assoc in Hb.
  destruct (scan_struct dp begin_object _ _ _ _ _ eq_refl Hw0 Hb) as (lx1 & E & H1).
  exists begin_object, lx1. split; [done|]. split; [done|]. intros states s s' He.
  rewrite emit_Object in He. apply and_also_true in He as (s1 & Hs & He).
  apply and_also_true in He as (s2 & [= ->] & He).
  destruct (token_struct_at end_object _ w r {| last_token := begin_object; m_lexer := lx1 |} tb eq_refl Hw H1)
    as (lx2 & E2 & H2).
  exists 0%nat, {| last_token := end_object; m_lexer := lx2 |}, tb. simpl. split; [lia|]. split; [done|].
  intros fuel. apply round_evaluate. unfold parse_value. cbn [last_token m_lexer].
  rewrite (and_then_true _ _ _ _ Hs), E2. bind_ret. cbn [last_token]. rewrite decide_True by done.
  exact (and_then_true _ _ _ s' He).
Qed.

Lemma object_run t es : members_run t es -> value_run (ch "{" :: t ++ [ch "}"]) (Object es).
Proof.
  intros Hl w0 r lx tb Hw0 Hr Hb. cbn [app] in Hb. rewrite <- app_assoc in Hb.
  destruct (scan_struct dp begin_object _ _ _ _ _ eq_refl Hw0 Hb) as (lx1 & E & H1).
  exists begin_object, lx1. split; [done|]. split; [done|]. intros states s s' He.
  rewrite emit_Object in He. apply and_also_true in He as (s1 & Hs & He).
  apply and_also_true in He as (s2 & He & Hend).
  destruct (Hl r lx1 tb (before_1_0 _ _ _ H1)) as (lx2 & E2 & Hrun).
  destruct (Hrun states s1 s2 s' He Hend) as (p1 & s3 & n & p3 & tb3 & Em & Hn & H3 & Hloop).
  exists (S (S n)), p3, tb3. cbn [length]. rewrite length_app. cbn [length]. split; [lia|]. split; [done|].
  intros fuel. rewrite <- round_skip, <- Hloop. cbn [Nat.add].
  replace (S (S (n + S fuel))) with (S (n + S (S fuel))) by lia. apply round_next.
  unfold parse_value. cbn [last_token m_lexer]. rewrite (and_then_true _ _ _ _ Hs).
  rewrite (get_token_scan _ _ _ _ _ _ H1 E2). bind_ret.
  cbn [last_token]. by rewrite decide_False.
Qed.

(** On a text of the grammar the parser sends the events of the value. *)
Lemma value_complete t j : value_text t j -> value_run t j.
Proof.
  revert t j. apply (value_text_min value_run elements_run members_run).
  - by apply (literal_run literal_null).
  - by apply (literal_run literal_true).
  - by apply (literal_run literal_false).
  - apply string_run.
  - apply number_run.
  - apply array_nil_run.
  - intros t l _. apply array_run.
  - apply object_nil_run.
  - intros t es _. apply object_run.
  - intros w t w' j Hw _ Hv Hw'. by apply elements_one_run.
  - intros w t w' j t' l Hw _ Hv Hw' _ Hl. by apply elements_more_run.
  - intros w n w1 w2 t w' k j Hw Hn Hw1 Hw2 _ Hv Hw'. by apply members_one_run.
  - intros w n w1 w2 t w' k j t' es Hw Hn Hw1 Hw2 _ Hv Hw' _ Hl. by apply members_more_run.
Qed.
End Parse.
