(* ===== verification/JsonTotal.v ===== *)
(** Totality of the parser of [src/util/nlohmann_json.hpp]: with a receiver
    that keeps its side of the interface the loop over the tokens ends on every
    input, with or without comments, and no assertion fails.  The receiver that
    builds a value and the one that only accepts keep the interface. *)

From Stdlib Require Import ZArith Lia.
From S2P Require Import Prelude JsonValue JsonNumber JsonGrammar JsonLexer JsonScan JsonScanNumber.
From S2P Require Import JsonTokens JsonParser.
From stdpp Require Import base decidable option strings list.

Open Scope Z_scope.

(** ** The interface between parser and receiver *)

(** An outcome that is a value or, where [T] holds, an exception of the library. *)
Definition ok {A} (T : Prop) (m : outcome A) (Q : A -> Prop) : Prop :=
  match m with
  | Ret a => Q a
  | Throw (JsonException _ _) => T
  | _ => False
  end.

Lemma ok_bind {A B} T (m : outcome A) (f : A -> outcome B) P Q :
  ok T m P -> (forall a, P a -> ok T (f a) Q) -> ok T (m ≫= f) Q.
Proof. destruct m as [| |[]|]; simpl; auto. Qed.

Lemma ok_mono {A} (T : Prop) (m : outcome A) (P Q : A -> Prop) :
  ok T m P -> (forall a, P a -> Q a) -> ok T m Q.
Proof. destruct m as [| |[]|]; simpl; auto. Qed.

Lemma ok_returns {A} T (m : outcome A) Q : returns m Q -> ok T m Q.
Proof. by intros (a & -> & Ha). Qed.

(** What a receiver expects: a value, or what may follow one in the container
    that is open. *)
Inductive phase :=
  | Ready
  | Open.

(** The receiver throws, refuses and has failed, or goes on as [Q] says. *)
Definition handled {S} (T : Prop) (failed : S -> Prop) (m : outcome (bool * S)) (Q : S -> Prop) : Prop :=
  ok T m (fun x => if x.1 : bool then Q x.2 else failed x.2).

(** The containers that are open: [true] for an array, innermost first.  The
    configuration [c] of a receiver does not change. *)
Class SaxOk (S : Type) `{Sax S} := {
  sax_cfg : Type;
  sax_inv : sax_cfg -> phase -> list bool -> S -> Prop;
  sax_failed : sax_cfg -> S -> Prop;
  sax_throws : sax_cfg -> Prop;
  ok_null c st s : sax_inv c Ready st s -> handled (sax_throws c) (sax_failed c) (sax_null s) (sax_inv c Open st);
  ok_boolean c b st s :
    sax_inv c Ready st s -> handled (sax_throws c) (sax_failed c) (sax_boolean b s) (sax_inv c Open st);
  ok_number_integer c z st s :
    sax_inv c Ready st s -> handled (sax_throws c) (sax_failed c) (sax_number_integer z s) (sax_inv c Open st);
  ok_number_unsigned c z st s :
    sax_inv c Ready st s -> handled (sax_throws c) (sax_failed c) (sax_number_unsigned z s) (sax_inv c Open st);
  ok_number_float c z t st s :
    sax_inv c Ready st s -> handled (sax_throws c) (sax_failed c) (sax_number_float z t s) (sax_inv c Open st);
  ok_string c t st s :
    sax_inv c Ready st s -> handled (sax_throws c) (sax_failed c) (sax_string t s) (sax_inv c Open st);
  ok_binary c b t st s :
    sax_inv c Ready st s -> handled (sax_throws c) (sax_failed c) (sax_binary b t s) (sax_inv c Open st);
  ok_start_object c n st s :
    sax_inv c Ready st s -> handled (sax_throws c \/ n <> unknown_size) (sax_failed c)
      (sax_start_object n s) (sax_inv c Open (false :: st));
  ok_key c k st s :
    sax_inv c Open (false :: st) s -> handled (sax_throws c) (sax_failed c) (sax_key k s) (sax_inv c Ready (false :: st));
  ok_end_object c st s :
    sax_inv c Open (false :: st) s -> handled (sax_throws c) (sax_failed c) (sax_end_object s) (sax_inv c Open st);
  ok_start_array c n st s :
    sax_inv c Ready st s -> handled (sax_throws c \/ n <> unknown_size) (sax_failed c)
      (sax_start_array n s) (sax_inv c Open (true :: st));
  ok_element c st s : sax_inv c Open (true :: st) s -> sax_inv c Ready (true :: st) s;
  ok_end_array c st s :
    sax_inv c Open (true :: st) s -> handled (sax_throws c) (sax_failed c) (sax_end_array s) (sax_inv c Open st);
  ok_parse_error c ph st pos t id w s :
    sax_inv c ph st s -> handled (sax_throws c) (sax_failed c) (sax_parse_error pos t (JsonException id w) s) (fun _ => False);
  refuses pos t ex s s' : sax_parse_error pos t ex s <> Ret (true, s');
}.

(** The acceptor keeps the interface. *)
#[export] Instance acceptor_ok : SaxOk unit.
Proof. by refine {| sax_cfg := unit; sax_inv := fun _ _ _ _ => True; sax_failed := fun _ _ => True;
  sax_throws := fun _ => False |}. Defined.

(** ** The loop ends *)

Section Total.
Context (dp : Z).
Hypotheses (Hdp_byte : is_byte dp) (Hdp_digit : is_digit dp = false)
  (Hdp_exp : is_exponent_char dp = false).
Context (ic : bool) {St : Type} `{SaxOk St} (c : sax_cfg).

(** The tokens behind which no other follows. *)
Definition terminal (tok : token_type) : bool :=
  match tok with
  | end_of_input | parse_error => true
  | _ => false
  end.

(** The lexer is in its input. *)
Definition lexed (p : parser) : Prop := exists r tb, before 1 (m_lexer p) r tb.

(** What a parser has before it. *)
Definition ahead (p : parser) : nat :=
  if terminal (last_token p) then O else S (length (rest (m_lexer p))).

Lemma get_token_total p :
  lexed p -> returns (get_token [dp] ic p) (fun p' => lexed p' /\ (ahead p' <= length (rest (m_lexer p)))%nat).
Proof.
  intros (r & tb & Hb). unfold get_token.
  destruct (scan_total dp Hdp_byte Hdp_digit Hdp_exp ic (m_lexer p) r tb) as ([tok lx] & -> & r' & tb' & H1 & Hp).
  { apply (before_weaken 1); [lia|done]. }
  bind_ret. apply returns_ret. simpl in *. split; [by exists r', tb'|]. unfold ahead. simpl.
  rewrite (before_rest _ _ _ _ H1), (before_rest _ _ _ _ Hb).
  destruct Hp as [->|[->|Hp]]; simpl; [lia..|]. destruct (terminal tok); lia.
Qed.

(** After a part of a round that began with [n] ahead; [ev] when the state is
    still to be evaluated. *)
Definition round_ok (ev : bool) (n : nat) (states : list bool) (r : parse_result) : Prop :=
  match r with
  | NextRound skip states' p s =>
      lexed p /\ (ahead p < n)%nat /\ (skip = true -> terminal (last_token p) = false) /\
      sax_inv c (if skip then Open else Ready) states' s
  | Evaluate p s => ev = true /\ lexed p /\ terminal (last_token p) = false /\ (ahead p <= n)%nat /\ sax_inv c Open states s
  | Return b p s => lexed p /\ if b : bool then sax_inv c Open [] s else sax_failed c s
  end.

(** The text parser does not know the number of elements. *)
Lemma start_known (m : outcome (bool * St)) Q :
  handled (sax_throws c \/ unknown_size <> unknown_size) (sax_failed c) m Q ->
  handled (sax_throws c) (sax_failed c) m Q.
Proof. destruct m as [| |[]|]; simpl; try done. by intros [?|?]. Qed.

Lemma and_then_ok ev n states p (m : outcome (bool * St)) k Q :
  lexed p -> handled (sax_throws c) (sax_failed c) m Q -> (forall s, Q s -> ok (sax_throws c) (k s) (round_ok ev n states)) ->
  ok (sax_throws c) (and_then p m k) (round_ok ev n states).
Proof.
  intros Hp Hm Hk. eapply ok_bind; [exact Hm|]. intros [[] s] Hs; simpl in *; [auto|].
  by split.
Qed.

Lemma error_ok ev n states expected context ph st p s :
  lexed p -> sax_inv c ph st s -> ok (sax_throws c) (return_from p (syntax_error expected context p s)) (round_ok ev n states).
Proof.
  intros Hp Hi. eapply ok_bind; [by eapply ok_parse_error|]. intros [[] s'] Hs; simpl in *; [by destruct Hs|].
  by split.
Qed.

Lemma ahead_after p tok :
  last_token p = tok -> terminal tok = false -> ahead p = S (length (rest (m_lexer p))).
Proof. intros E Ht. unfold ahead. by rewrite E, Ht. Qed.

Lemma parse_member_ok ev n states st p s :
  lexed p -> (ahead p <= n)%nat -> sax_inv c Open (false :: st) s ->
  ok (sax_throws c) (parse_member [dp] ic (false :: st) p s) (round_ok ev n states).
Proof.
  intros Hp Hn Hs. unfold parse_member. case_decide as Et; [|by eapply error_ok].
  eapply and_then_ok; [done|by apply ok_key|]. intros s' Hs'.
  eapply ok_bind; [by apply ok_returns, get_token_total|]. intros p1 [Hp1 Ha1].
  rewrite (ahead_after _ _ Et eq_refl) in Hn.
  case_decide as Et1; [|by eapply error_ok].
  eapply ok_bind; [by apply ok_returns, get_token_total|]. intros p2 [Hp2 Ha2].
  rewrite (ahead_after _ _ Et1 eq_refl) in Ha1. simpl. split; [done|]. split; [lia|done].
Qed.

Lemma evaluate_ok n st p s :
  lexed p -> (ahead p <= n)%nat -> terminal (last_token p) = false -> sax_inv c Open st s ->
  ok (sax_throws c) (evaluate_state [dp] ic st p s) (round_ok false n st).
Proof.
  intros Hp Hn Ht Hs. rewrite (ahead_after _ _ eq_refl Ht) in Hn.
  destruct st as [|[] st]; simpl; [done|..];
    (eapply ok_bind; [by apply ok_returns, get_token_total|]); intros p1 [Hp1 Ha1].
  - case_decide as Et1; [|case_decide as Et2; [|by eapply error_ok]].
    + eapply ok_bind; [by apply ok_returns, get_token_total|]. intros p2 [Hp2 Ha2].
      rewrite (ahead_after _ _ Et1 eq_refl) in Ha1. simpl. split; [done|]. split; [lia|]. split; [done|]. by apply ok_element.
    + eapply and_then_ok; [done|by apply ok_end_array|]. intros s' Hs'. simpl. rewrite Et2.
      split; [done|]. split; [lia|done].
  - case_decide as Et1; [|case_decide as Et2; [|by eapply error_ok]].
    + eapply ok_bind; [by apply ok_returns, get_token_total|]. intros p2 [Hp2 Ha2].
      rewrite (ahead_after _ _ Et1 eq_refl) in Ha1. apply parse_member_ok; [done|lia|done].
    + eapply and_then_ok; [done|by apply ok_end_object|]. intros s' Hs'. simpl. rewrite Et2.
      split; [done|]. split; [lia|done].
Qed.

Lemma scalar_ok n st p (m : outcome (bool * St)) :
  lexed p -> terminal (last_token p) = false -> (ahead p <= n)%nat -> handled (sax_throws c) (sax_failed c) m (sax_inv c Open st) ->
  ok (sax_throws c) (and_then p m (fun s => Ret (Evaluate p s))) (round_ok true n st).
Proof. intros Hp Ht Hn Hm. by eapply and_then_ok; [done|exact Hm|]. Qed.

Lemma parse_value_ok st p s :
  lexed p -> sax_inv c Ready st s -> ok (sax_throws c) (parse_value [dp] ic st p s) (round_ok true (ahead p) st).
Proof.
  intros Hp Hs. unfold parse_value. destruct (last_token p) eqn:Et; try (by eapply error_ok);
    try (apply scalar_ok; rewrite ?Et; [done|done|lia|]; first
      [by apply ok_null|by apply ok_boolean|by apply ok_number_integer|by apply ok_number_unsigned|by apply ok_string]).
  - case_match; [apply scalar_ok; rewrite ?Et; [done|done|lia|by apply ok_number_float]|].
    eapply ok_bind; [by eapply ok_parse_error|]. intros [[] s'] Hs'; simpl in *; [by destruct Hs'|].
    by split.
  - eapply and_then_ok; [done|apply start_known; by apply ok_start_array|]. intros s' Hs'.
    eapply ok_bind; [by apply ok_returns, get_token_total|]. intros p1 [Hp1 Ha1].
    rewrite (ahead_after _ _ Et eq_refl).
    case_decide as Et1.
    + eapply and_then_ok; [done|by apply ok_end_array|]. intros s2 Hs2. simpl.
      split; [done|]. split; [done|]. rewrite Et1. split; [done|]. split; [lia|done].
    + simpl. split; [done|]. split; [lia|]. split; [done|]. by apply ok_element.
  - eapply and_then_ok; [done|apply start_known; by apply ok_start_object|]. intros s' Hs'.
    eapply ok_bind; [by apply ok_returns, get_token_total|]. intros p1 [Hp1 Ha1].
    rewrite (ahead_after _ _ Et eq_refl).
    case_decide as Et1.
    + eapply and_then_ok; [done|by apply ok_end_object|]. intros s2 Hs2. simpl.
      split; [done|]. split; [done|]. rewrite Et1. split; [done|]. split; [lia|done].
    + apply parse_member_ok; [done|lia|done].
Qed.

(** A round of the loop. *)
Lemma parse_round_ok skip states p s :
  lexed p -> (skip = true -> terminal (last_token p) = false) ->
  sax_inv c (if skip then Open else Ready) states s ->
  ok (sax_throws c) (parse_round [dp] ic (skip, states, p, s)) (fun ctl =>
    match ctl with
    | Continue (skip', states', p', s') => lexed p' /\ (ahead p' < ahead p)%nat /\
        (skip' = true -> terminal (last_token p') = false) /\
        sax_inv c (if skip' then Open else Ready) states' s'
    | Break (b, p', s') => lexed p' /\ if b : bool then sax_inv c Open [] s' else sax_failed c s'
    end).
Proof.
  intros Hp Ht Hs. unfold parse_round.
  eapply (ok_bind _ _ _ (round_ok true (ahead p) states)).
  - destruct skip; [|by apply parse_value_ok]. simpl. do 2 (split; [done|]). split; [auto|]. split; [lia|done].
  - intros [skip' states' p' s'|p' s'|b p' s'] Hr; [done| |done].
    destruct Hr as (_ & Hp' & Ht' & Hn & Hs').
    eapply ok_bind; [by apply (evaluate_ok (ahead p))|].
    by intros [| |] Hr; [|destruct Hr|].
Qed.

Lemma parse_loop_ok fuel skip states p s :
  lexed p -> (skip = true -> terminal (last_token p) = false) ->
  sax_inv c (if skip then Open else Ready) states s -> (ahead p < fuel)%nat ->
  ok (sax_throws c) (while_loop fuel (parse_round [dp] ic) (skip, states, p, s)) (fun x =>
    let '(b, p', s') := x in lexed p' /\ if b : bool then sax_inv c Open [] s' else sax_failed c s').
Proof.
  revert skip states p s. induction fuel as [|fuel IH]; intros skip states p s Hp Ht Hs Hf; [lia|].
  cbn [while_loop]. eapply ok_bind; [by apply parse_round_ok|].
  intros [[[[skip' states'] p'] s']|[[b p'] s']]; [|done]. intros (Hp' & Hn & Ht' & Hs').
  apply IH; [done|done|done|lia].
Qed.

Lemma ahead_fuel p : lexed p -> (ahead p < parse_fuel p)%nat.
Proof.
  intros (r & tb & Hb). unfold ahead, parse_fuel, rest. repeat case_match; simpl; lia.
Qed.

Lemma sax_parse_internal_ok p s :
  lexed p -> sax_inv c Ready [] s ->
  ok (sax_throws c) (sax_parse_internal [dp] ic p s) (fun x =>
    let '(b, p', s') := x in lexed p' /\ if b : bool then sax_inv c Open [] s' else sax_failed c s').
Proof. intros Hp Hs. apply parse_loop_ok; [done|done|done|by apply ahead_fuel]. Qed.

Lemma new_parser_total input :
  bytes input -> returns (new_parser [dp] ic input) lexed.
Proof.
  intros Hb. unfold new_parser, get_token. cbn [m_lexer].
  destruct (scan_total dp Hdp_byte Hdp_digit Hdp_exp ic _ _ _ (new_lexer_before _ Hb))
    as ([tok lx] & -> & r' & tb' & H1 & _).
  bind_ret. apply returns_ret. by exists r', tb'.
Qed.
End Total.
