(* ===== verification/JsonDom.v ===== *)
(** The receiver of [src/util/nlohmann_json.hpp] that builds a value: its
    pointers stay valid, it keeps the interface of the parser, and the events
    of a tree make the value of the tree. *)

From Stdlib Require Import ZArith Lia.
From S2P Require Import Prelude JsonValue JsonGrammar JsonParser JsonParse JsonTotal.
From stdpp Require Import base decidable option strings list.

Open Scope Z_scope.

(** ** Paths *)

Lemma get_path_app p q j : get_path (p ++ q) j = get_path p j ≫= get_path q.
Proof.
  revert j. induction p as [|x p IH]; intros j; [done|]. simpl.
  destruct (step_in x j); [apply IH|done].
Qed.

Lemma set_path_app p q v j c :
  get_path p j = Some c -> set_path (p ++ q) v j = set_path p (set_path q v c) j.
Proof.
  revert j. induction p as [|[n|k] p IH]; intros j Hg; simpl in *; [by injection Hg as <-|..].
  - destruct j as [| | | | | | |l| |]; simpl in Hg; try done.
    destruct (l !! n) as [x|] eqn:Ex; [|done]. simpl in Hg. f_equal.
    apply list_alter_ext; [|done]. intros y Hy. rewrite Ex in Hy. injection Hy as <-. by apply IH.
  - destruct j as [| | | | | | | |o|]; simpl in Hg; try done. f_equal.
    revert Hg. induction o as [|[k' x] o IHo]; [done|]. simpl. case_decide; simpl.
    + intros Hg. do 2 f_equal. by apply IH.
    + intros Hg. f_equal. by apply IHo.
Qed.

Lemma get_set_path p v j c : get_path p j = Some c -> get_path p (set_path p v j) = Some v.
Proof.
  revert j. induction p as [|[n|k] p IH]; intros j Hg; simpl in *; [done|..].
  - destruct j as [| | | | | | |l| |]; simpl in *; try done. rewrite list_lookup_alter_eq.
    destruct (l !! n); [|done]. simpl in *. by apply IH.
  - destruct j as [| | | | | | | |o|]; simpl in *; try done. rewrite map_find_alter.
    destruct (map_find k o); [|done]. simpl in *. by apply IH.
Qed.

Lemma map_alter_alter {V} k (f g : V -> V) o :
  map_alter k f (map_alter k g o) = map_alter k (fun x => f (g x)) o.
Proof.
  induction o as [|[k' v] o IH]; [done|]. simpl. case_decide; simpl.
  - by rewrite decide_True.
  - by rewrite decide_False, IH.
Qed.

Lemma map_alter_ext {V} k (f g : V -> V) o : (forall x, f x = g x) -> map_alter k f o = map_alter k g o.
Proof. intros E. induction o as [|[k' v] o IH]; [done|]. simpl. by rewrite E, IH. Qed.

Lemma set_set_path p v v' j : set_path p v (set_path p v' j) = set_path p v j.
Proof.
  revert j. induction p as [|[n|k] p IH]; intros j; [done|..]; destruct j; simpl; try done; f_equal.
  - rewrite list_alter_alter_eq. apply list_alter_ext; [|done]. intros x _. apply IH.
  - rewrite map_alter_alter. apply map_alter_ext. intros x. apply IH.
Qed.

(** ** Containers that stay what they are *)

Definition kind (b : bool) (j : json) : bool := if b then is_array j else is_object j.

Definition holds_kind (r : json) (b : bool) (p : list path_step) : Prop :=
  exists c, get_path p r = Some c /\ kind b c = true.

Lemma kind_set_path b q v c : q <> [] -> kind b (set_path q v c) = kind b c.
Proof. destruct q as [|[n|k] q]; [done|..]; by destruct c. Qed.

(** A change below a container leaves it a container of its kind. *)
Lemma holds_kind_below r b p q v :
  q <> [] -> holds_kind r b p -> holds_kind (set_path (p ++ q) v r) b p.
Proof.
  intros Hq (c & Hg & Hk). exists (set_path q v c). rewrite (set_path_app _ _ _ _ _ Hg).
  split; [by eapply get_set_path|]. by rewrite kind_set_path.
Qed.

(** The paths on the stack lead to the open containers, each inside the next. *)
Inductive stack_ok (r : json) : list bool -> list (list path_step) -> Prop :=
  | stack_nil : stack_ok r [] []
  | stack_cons b st p ps :
      holds_kind r b p -> stack_ok r st ps ->
      Forall (fun q => exists x y, p = q ++ x :: y) ps -> stack_ok r (b :: st) (p :: ps).

(** Changes at the innermost container or below keep the stack. *)
Lemma stack_below r st ps p x q v :
  stack_ok r st ps -> Forall (fun q => exists x y, p = q ++ x :: y) ps ->
  stack_ok (set_path (p ++ q) v r) st ps /\ stack_ok (set_path (p ++ x :: q) v r) st ps.
Proof.
  induction 1 as [|b st p' ps Hk Hst IH Hp]; intros Hps; [split; constructor|].
  inversion_clear Hps as [|? ? (y & l & Hy) Hps']. destruct IH as [IH1 IH2]; [done|].
  split; constructor; try done; rewrite Hy, <- app_assoc; by apply holds_kind_below.
Qed.

Lemma stack_set r st ps p v b :
  stack_ok r st ps -> Forall (fun q => exists x y, p = q ++ x :: y) ps ->
  holds_kind r b p -> kind b v = true ->
  stack_ok (set_path p v r) (b :: st) (p :: ps).
Proof.
  intros Hst Hps (c & Hg & Hc) Hv. constructor; [|by apply (stack_below r st ps p (Idx 0) [] v) in Hst as [Hst _]; [rewrite app_nil_r in Hst|]|done].
  exists v. split; [by eapply get_set_path|done].
Qed.

Lemma stack_set_below r st ps p x v b :
  stack_ok r (b :: st) (p :: ps) -> stack_ok (set_path (p ++ [x]) v r) (b :: st) (p :: ps).
Proof.
  inversion_clear 1 as [|? ? ? ? Hk Hst Hps]. constructor; [by apply holds_kind_below| |done].
  by apply (stack_below r st ps p x [] v).
Qed.

(** The path of a new element extends those of the open containers. *)
Lemma extends_snoc (p : list path_step) x ps :
  Forall (fun q => exists x y, p = q ++ x :: y) ps ->
  Forall (fun q => exists y z, p ++ [x] = q ++ y :: z) (p :: ps).
Proof.
  intros H. constructor; [by exists x, []|]. eapply Forall_impl; [exact H|].
  intros q (y & z & ->). exists y, (z ++ [x]). by rewrite <- app_assoc.
Qed.

(** ** Where the next value goes *)

(** [handle_value v] puts [v] at [q]; the root is then [place v]. *)
Record slot (d : json_sax_dom_parser) (q : list path_step) (place : json -> json) : Prop := {
  slot_handle v : handle_value v d = Ret (q, set_root d (place v));
  slot_get v : get_path q (place v) = Some v;
  slot_set v v' : set_path q v' (place v) = place v';
}.

Lemma slot_below d q place x v c :
  slot d q place -> set_path (q ++ [x]) v (place c) = place (set_path [x] v c).
Proof. intros Hs. rewrite (set_path_app _ _ _ _ c) by apply Hs. apply Hs. Qed.

Lemma slot_get_below d q place x c :
  slot d q place -> get_path (q ++ [x]) (place c) = step_in x c.
Proof. intros Hs. rewrite get_path_app, (slot_get _ _ _ Hs). simpl. by destruct (step_in x c). Qed.

Lemma root_slot d : ref_stack d = [] -> slot d [] (fun v => v).
Proof. intros E. split; [|done|done]. intros v. unfold handle_value. by rewrite E. Qed.

Lemma alter_last {A} (f : A -> A) (l : list A) x : alter f (length l) (l ++ [x]) = l ++ [f x].
Proof. by rewrite alter_app_r_alt, Nat.sub_diag. Qed.

(** The end of an array that is open. *)
Lemma array_slot d q ps place l :
  (forall v, get_path q (place v) = Some v) -> (forall v v', set_path q v' (place v) = place v') ->
  ref_stack d = q :: ps -> root d = place (Array l) ->
  slot d (q ++ [Idx (length l)]) (fun v => place (Array (l ++ [v]))).
Proof.
  intros Hget Hset Es Er. split.
  - intros v. unfold handle_value, deref. rewrite Es, Er, Hget. bind_ret. by rewrite Hset.
  - intros v. rewrite get_path_app, Hget. simpl. by rewrite list_lookup_middle.
  - intros v v'. rewrite (set_path_app _ _ _ _ (Array (l ++ [v]))), Hset by done. simpl. by rewrite alter_last.
Qed.

(** The member of an object whose key has been read. *)
Lemma member_slot d q ps place k o :
  (forall v, get_path q (place v) = Some v) -> (forall v v', set_path q v' (place v) = place v') ->
  ref_stack d = q :: ps -> map_ordered o -> root d = place (Object (map_index Null k o)) ->
  object_element d = Some (q ++ [Key k]) ->
  slot d (q ++ [Key k]) (fun v => place (Object (map_insert k v o))).
Proof.
  intros Hget Hset Es Ho Er Ee. split.
  - intros v. unfold handle_value, deref. rewrite Es, Er, Hget, Ee. bind_ret.
    rewrite get_path_app, Hget. simpl. destruct (map_find_index Null k o) as [x ->]. simpl.
    rewrite (set_path_app _ _ _ _ (Object (map_index Null k o))), Hset by done. simpl.
    by rewrite map_alter_index.
  - intros v. rewrite get_path_app, Hget. simpl. by rewrite map_find_insert_same.
  - intros v v'. rewrite (set_path_app _ _ _ _ (Object (map_insert k v o))), Hset by done. simpl.
    by rewrite map_alter_insert.
Qed.

(** ** The events of a tree make its value *)

(** A tree that can be written. *)
Fixpoint writable (j : json) : bool :=
  match j with
  | Discarded => false
  | Array l => forallb writable l
  | Object o => forallb (fun e => writable e.2) o
  | _ => true
  end.

(** The receiver took the value [v], and is otherwise as before. *)
Definition took (d d' : json_sax_dom_parser) (r : json) : Prop :=
  root d' = r /\ ref_stack d' = ref_stack d /\ errored d' = errored d /\
  allow_exceptions d' = allow_exceptions d.

Definition emits_value (j : json) : Prop := writable j = true -> forall d q place,
  slot d q place -> exists d', emit j d = Ret (true, d') /\ took d d' (place (build j)).

Lemma scalar_emits d q place v :
  slot d q place -> exists d', handle_scalar v d = Ret (true, d') /\ took d d' (place v).
Proof.
  intros Hs. exists (set_root d (place v)). unfold handle_scalar. by rewrite (slot_handle _ _ _ Hs).
Qed.

Lemma elements_emit l d q ps place done_ :
  Forall emits_value l -> forallb writable l = true ->
  (forall v, get_path q (place v) = Some v) -> (forall v v', set_path q v' (place v) = place v') ->
  ref_stack d = q :: ps -> root d = place (Array done_) ->
  exists d', emit_elements l d = Ret (true, d') /\ took d d' (place (Array (done_ ++ (build <$> l)))).
Proof.
  intros Hl Hw Hget Hset. revert d done_ Hw. induction Hl as [|j l Hj Hl IH]; intros d done_ Hw Es Er.
  - exists d. simpl. rewrite app_nil_r. split; [done|]. by split.
  - simpl in Hw. apply andb_true_iff in Hw as [Hwj Hw].
    destruct (Hj Hwj d _ _ (array_slot d q ps place done_ Hget Hset Es Er)) as (d1 & E1 & Er1 & Es1 & Ee1 & Ea1).
    destruct (IH d1 (done_ ++ [build j]) Hw) as (d2 & E2 & Er2 & Es2 & Ee2 & Ea2); [by rewrite Es1|done|].
    exists d2. split; [apply and_also_true; by exists d1|].
    rewrite <- app_assoc in Er2. split; [done|]. rewrite Es2, Ee2, Ea2. by split.
Qed.

Lemma members_emit es d q ps place o :
  Forall (fun e => emits_value e.2) es -> forallb (fun e => writable e.2) es = true ->
  (forall v, get_path q (place v) = Some v) -> (forall v v', set_path q v' (place v) = place v') ->
  ref_stack d = q :: ps -> map_ordered o -> root d = place (Object o) ->
  exists d', emit_members es d = Ret (true, d') /\
    took d d' (place (Object (foldl (fun o e => map_insert e.1 (build e.2) o) o es))).
Proof.
  intros Hl Hw Hget Hset. revert d o Hw. induction Hl as [|[k j] es Hj Hl IH]; intros d o Hw Es Ho Er.
  - exists d. split; [done|]. by split.
  - simpl in Hw. apply andb_true_iff in Hw as [Hwj Hw].
    set (d0 := set_element (set_root d (place (Object (map_index Null k o)))) (Some (q ++ [Key k]))).
    assert (E0 : dom_key k d = Ret (true, d0)).
    { unfold dom_key, deref. rewrite Es, Er, Hget. bind_ret. by rewrite Hset. }
    destruct (Hj Hwj d0 _ _ (member_slot d0 q ps place k o Hget Hset Es Ho eq_refl eq_refl))
      as (d1 & E1 & Er1 & Es1 & Ee1 & Ea1).
    destruct (IH d1 (map_insert k (build j) o) Hw) as (d2 & E2 & Er2 & Es2 & Ee2 & Ea2);
      [by rewrite Es1|by apply map_insert_ordered|done|].
    exists d2. split.
    + apply and_also_true. exists d0. split; [done|]. apply and_also_true. by exists d1.
    + split; [done|]. rewrite Es2, Ee2, Ea2. by split.
Qed.

Lemma start_container_slot empty max what d q place :
  slot d q place ->
  start_container empty max what unknown_size d =
    Ret (true, set_stack (set_root d (place empty)) (q :: ref_stack d)).
Proof. intros Hs. unfold start_container. by rewrite (slot_handle _ _ _ Hs). Qed.

Lemma dom_emit j : emits_value j.
Proof.
  induction j as [| | | | | | |l IH|o IH|] using json_induction; intros Hw d q place Hs;
    try (by apply scalar_emits with q); [| |done]; cbn [writable] in Hw.
  - destruct (elements_emit l (set_stack (set_root d (place (Array []))) (q :: ref_stack d)) q
      (ref_stack d) place [] IH Hw) as (d1 & E1 & Er1 & Es1 & Ee1 & Ea1); try done; try apply Hs.
    exists (set_stack d1 (ref_stack d)). split; [|by repeat split].
    rewrite emit_Array. apply and_also_true. eexists. split; [by eapply start_container_slot|].
    apply and_also_true. exists d1. split; [done|]. unfold sax_end_array. simpl. unfold end_container, deref.
    rewrite Es1. simpl. by rewrite Er1, (slot_get _ _ _ Hs).
  - destruct (members_emit o (set_stack (set_root d (place (Object []))) (q :: ref_stack d)) q
      (ref_stack d) place [] IH Hw) as (d1 & E1 & Er1 & Es1 & Ee1 & Ea1); try done; try apply Hs; [constructor|].
    exists (set_stack d1 (ref_stack d)). split.
    + rewrite emit_Object. apply and_also_true. eexists. split; [by eapply start_container_slot|].
      apply and_also_true. exists d1. split; [done|]. unfold sax_end_object. simpl. unfold end_container, deref.
      rewrite Es1. simpl. by rewrite Er1, (slot_get _ _ _ Hs).
    + split; [|by repeat split]. simpl. rewrite Er1. do 2 f_equal. unfold map_of. by rewrite foldl_fmap.
Qed.

(** ** The receiver keeps the interface of the parser *)

Definition dom_inv (exceptions : bool) (ph : phase) (st : list bool) (d : json_sax_dom_parser) : Prop :=
  (allow_exceptions d = exceptions /\ errored d = false) /\ stack_ok (root d) st (ref_stack d) /\
  match ph, st with
  | Ready, false :: _ => exists p ps k, ref_stack d = p :: ps /\ object_element d = Some (p ++ [Key k]) /\
      is_Some (get_path (p ++ [Key k]) (root d))
  | _, _ => True
  end.

(** It has refused, which it does only when it does not throw. *)
Definition dom_failed (exceptions : bool) (d : json_sax_dom_parser) : Prop :=
  exceptions = false /\ errored d = true /\ allow_exceptions d = false.

(** Where a value goes, in any state of the receiver. *)
Lemma dom_slot ex st d :
  dom_inv ex Ready st d ->
  exists q place, slot d q place /\ (forall v, stack_ok (place v) st (ref_stack d)) /\
    Forall (fun p => exists x y, q = p ++ x :: y) (ref_stack d).
Proof.
  intros [_ [Hst He]]. remember (ref_stack d) as rs eqn:Ers. destruct Hst as [|b st p ps (c & Hg & Hk) Hst Hps].
  - exists [], (fun v => v). split; [by apply root_slot|]. split; [constructor|constructor].
  - destruct b; simpl in Hk.
    + destruct c as [| | | | | | |l| |]; try done.
      exists (p ++ [Idx (length l)]), (fun v => set_path p (Array (l ++ [v])) (root d)).
      split; [|split; [|by apply extends_snoc]].
      * split.
        -- intros v. unfold handle_value, deref. by rewrite <- Ers, Hg.
        -- intros v. rewrite get_path_app, (get_set_path _ _ _ _ Hg). simpl. by rewrite list_lookup_middle.
        -- intros v v'. erewrite set_path_app by (by eapply get_set_path).
           rewrite set_set_path. simpl. by rewrite alter_last.
      * intros v. apply stack_set; [done|done| |done]. by exists (Array l).
    + destruct He as (p' & ps' & k & E & Ee & Hs). injection E as <- <-.
      exists (p ++ [Key k]), (fun v => set_path (p ++ [Key k]) v (root d)).
      split; [|split; [|by apply extends_snoc]].
      * destruct Hs as [y Hy]. split.
        -- intros v. unfold handle_value, deref. rewrite <- Ers, Hg. bind_ret.
           destruct c; try done. by rewrite Ee, Hy.
        -- intros v. by eapply get_set_path.
        -- intros v v'. apply set_set_path.
      * intros v. apply stack_set_below. constructor; [by exists c|done|done].
Qed.

Lemma dom_scalar_ok ex v st d : dom_inv ex Ready st d -> handled (ex = true) (dom_failed ex) (handle_scalar v d) (dom_inv ex Open st).
Proof.
  intros Hi. destruct (dom_slot ex st d Hi) as (q & place & Hs & Hst & _).
  unfold handle_scalar. rewrite (slot_handle _ _ _ Hs). bind_ret. split; [apply Hi|]. split; [apply Hst|done].
Qed.

Lemma dom_start_ok ex empty b max what n st d :
  kind b empty = true -> dom_inv ex Ready st d ->
  handled (ex = true \/ n <> unknown_size) (dom_failed ex) (start_container empty max what n d) (dom_inv ex Open (b :: st)).
Proof.
  intros Hk Hi. destruct (dom_slot ex st d Hi) as (q & place & Hs & Hst & Hq).
  unfold start_container. rewrite (slot_handle _ _ _ Hs). bind_ret.
  destruct (Z.eqb_spec n unknown_size); cbn [negb andb]; [|case_match; [by right|]].
  all: split; [apply Hi|]; split; [|done]; simpl; constructor; [|done|done];
    exists empty; split; [apply (slot_get _ _ _ Hs)|done].
Qed.

Lemma dom_end_ok ex b is_kind st d :
  (forall j, kind b j = true -> is_kind j = true) -> dom_inv ex Open (b :: st) d ->
  handled (ex = true) (dom_failed ex) (end_container is_kind d) (dom_inv ex Open st).
Proof.
  intros Hk [Hc [Hst _]]. unfold end_container, deref.
  inversion Hst as [|? ? p ps (c & Hg & Hkc) Hst' Hps Eb Ers]; subst.
  rewrite Hg. bind_ret. rewrite (Hk c Hkc). split; [done|]. split; [done|by destruct st].
Qed.

#[export] Instance dom_ok : SaxOk json_sax_dom_parser.
Proof.
  refine {| sax_cfg := bool; sax_inv := dom_inv; sax_failed := dom_failed;
    sax_throws := fun ex => ex = true |};
    try (intros; by apply dom_scalar_ok).
  - intros ex n st s. by apply dom_start_ok.
  - intros ex k st s [Hc [Hst _]]. unfold sax_key. simpl. unfold dom_key, deref.
    inversion Hst as [|? ? p ps (c & Hg & Hkc) Hst' Hps Eb Ers]; subst.
    rewrite Hg. bind_ret. destruct c as [| | | | | | | |o|]; try done. split; [done|]. split; simpl.
    + rewrite <- Ers. apply stack_set; [done|done|by exists (Object o)|done].
    + exists p, ps, k. rewrite <- Ers. split; [done|]. split; [done|].
      rewrite get_path_app, (get_set_path _ _ _ _ Hg). simpl. destruct (map_find_index Null k o) as [x ->].
      by exists x.
  - intros ex st s. by apply (dom_end_ok ex false).
  - intros ex n st s. by apply dom_start_ok.
  - intros ex st s [Hc [Hst _]]. by split.
  - intros ex st s. by apply (dom_end_ok ex true).
  - intros ex ph st pos t id w s [[Ha _] _]. unfold sax_parse_error. simpl. unfold dom_parse_error.
    rewrite Ha. by destruct ex.
  - intros pos t ex s s'. unfold sax_parse_error. simpl. unfold dom_parse_error. by case_match.
Defined.

(** A receiver at the beginning. *)
Definition new_dom (exceptions : bool) : json_sax_dom_parser :=
  {| root := Null; ref_stack := []; object_element := None; errored := false;
     allow_exceptions := exceptions |}.

Lemma new_dom_inv exceptions : dom_inv exceptions Ready [] (new_dom exceptions).
Proof. split; [done|]. split; [constructor|done]. Qed.
