(* ===== verification/JsonSound.v ===== *)
(** Soundness of the parser of [src/util/nlohmann_json.hpp]: when it succeeds,
    what it has read is a text of the grammar, and the receiver has got the
    events of the tree that is written.  The invariant of the loop describes the
    containers that are open and the texts read in them. *)

From Stdlib Require Import ZArith Lia.
From S2P Require Import Prelude JsonValue JsonNumber JsonGrammar JsonLexer JsonScan JsonScanNumber.
From S2P Require Import JsonTokens JsonParser JsonParse JsonTotal.
From stdpp Require Import base decidable option strings list.

Open Scope Z_scope.

(** ** Partial results *)

Definition par {A} (m : outcome A) (Q : A -> Prop) : Prop := forall a, m = Ret a -> Q a.

Lemma par_bind {A B} (m : outcome A) (f : A -> outcome B) P Q :
  par m P -> (forall a, P a -> par (f a) Q) -> par (m ≫= f) Q.
Proof. intros Hm Hf b Hb. apply bind_Ret in Hb as (a & Ha & Hb). exact (Hf a (Hm a Ha) b Hb). Qed.

Lemma par_ret {A} (a : A) (Q : A -> Prop) : Q a -> par (Ret a) Q.
Proof. by intros H b [= <-]. Qed.

Lemma par_returns {A} (m : outcome A) (Q : A -> Prop) : returns m Q -> par m Q.
Proof. intros (a & -> & Ha). by apply par_ret. Qed.

(** ** Open containers *)

(** An open array with its elements so far, or an open object with its members
    so far and the key whose value is being read. *)
Inductive frame :=
  | FArr (l : list json)
  | FObj (es : list (list Z * json)) (k : list Z).

Definition frame_kind (f : frame) : bool := match f with FArr _ => true | FObj _ _ => false end.

(** Elements, each with the comma behind it. *)
Inductive elements_open : list Z -> list json -> Prop :=
  | elements_open_nil : elements_open [] []
  | elements_open_snoc u l w v w' j :
      elements_open u l -> ws w -> value_text v j -> ws w' ->
      elements_open (u ++ w ++ v ++ w' ++ [ch ","]) (l ++ [j]).

Inductive members_open : list Z -> list (list Z * json) -> Prop :=
  | members_open_nil : members_open [] []
  | members_open_snoc u es w n w1 w2 v w' k j :
      members_open u es -> ws w -> string_text n k -> ws w1 -> ws w2 -> value_text v j -> ws w' ->
      members_open (u ++ w ++ n ++ w1 ++ ch ":" :: w2 ++ v ++ w' ++ [ch ","]) (es ++ [(k, j)]).

Inductive frames_text : list frame -> list Z -> Prop :=
  | frames_nil : frames_text [] []
  | frames_array fs c w u l :
      frames_text fs c -> ws w -> elements_open u l ->
      frames_text (FArr l :: fs) (c ++ w ++ ch "[" :: u)
  | frames_object fs c w u es w1 n k w2 :
      frames_text fs c -> ws w -> members_open u es -> ws w1 -> string_text n k -> ws w2 ->
      frames_text (FObj es k :: fs) (c ++ w ++ ch "{" :: u ++ w1 ++ n ++ w2 ++ [ch ":"]).

Lemma elements_close u l t l' :
  elements_open u l -> elements_text t l' -> elements_text (u ++ t) (l ++ l').
Proof.
  intros Hu. revert t l'. induction Hu as [|u l w v w' j Hu IH Hw Hv Hw']; intros t l' Ht; [done|].
  rewrite <- !app_assoc. cbn [app]. apply IH. by constructor.
Qed.

Lemma members_close u es t es' :
  members_open u es -> members_text t es' -> members_text (u ++ t) (es ++ es').
Proof.
  intros Hu. revert t es'. induction Hu as [|u es w n w1 w2 v w' k j Hu IH Hw Hn Hw1 Hw2 Hv Hw']; intros t es' Ht; [done|].
  repeat (rewrite <- app_assoc; cbn [app]). apply IH. by constructor.
Qed.

Section Sound.
Context (dp : Z).
Hypotheses (Hdp_byte : is_byte dp) (Hdp_digit : is_digit dp = false)
  (Hdp_exp : is_exponent_char dp = false).
Context {St : Type} `{SaxOk St}.
Hypothesis float_text : forall z tb (s : St), sax_number_float z tb s = sax_number_float z [] s.

(** The input behind the byte order mark, and the receiver at the beginning. *)
Context (input : list Z) (s0 : St).

Fixpoint emitted (fs : list frame) (s : St) : Prop :=
  match fs with
  | [] => s = s0
  | FArr l :: fs => exists s1 s2, emitted fs s1 /\ sax_start_array unknown_size s1 = Ret (true, s2) /\
      emit_elements l s2 = Ret (true, s)
  | FObj es k :: fs => exists s1 s2 s3, emitted fs s1 /\ sax_start_object unknown_size s1 = Ret (true, s2) /\
      emit_members es s2 = Ret (true, s3) /\ sax_key k s3 = Ret (true, s)
  end.

(** The last token has the text [t] behind [c], or nothing can follow. *)
Definition token_at (c : list Z) (p : parser) : Prop :=
  exists w r tb, before 1 (m_lexer p) r tb /\ ws w /\
    (terminal (last_token p) = true \/
     exists t, input = c ++ w ++ t ++ r /\ token_text (m_lexer p) (last_token p) t).

(** A value is expected, and its first token has been read. *)
Definition inv_ready (fs : list frame) (p : parser) (s : St) : Prop :=
  exists c, frames_text fs c /\ emitted fs s /\ token_at c p.

(** A value has been read. *)
Definition inv_value (fs : list frame) (p : parser) (s : St) : Prop :=
  exists c w v j r tb s1, frames_text fs c /\ ws w /\ value_text v j /\ input = c ++ w ++ v ++ r /\
    before 1 (m_lexer p) r tb /\ emitted fs s1 /\ emit j s1 = Ret (true, s).

(** A key is expected, and its token has been read. *)
Definition inv_key (fs : list frame) (p : parser) (s : St) : Prop :=
  exists c w u es s1 s2, frames_text fs c /\ ws w /\ members_open u es /\ emitted fs s1 /\
    sax_start_object unknown_size s1 = Ret (true, s2) /\ emit_members es s2 = Ret (true, s) /\
    token_at (c ++ w ++ ch "{" :: u) p.

(** The parser returned: it read a value. *)
Definition final (p : parser) (s : St) : Prop :=
  exists w v j r tb, ws w /\ value_text v j /\ input = w ++ v ++ r /\ before 1 (m_lexer p) r tb /\
    emit j s0 = Ret (true, s).

Definition result_ok (fs : list frame) (r : parse_result) : Prop :=
  match r with
  | NextRound skip states p s => exists fs', states = frame_kind <$> fs' /\
      if skip : bool then inv_value fs' p s else inv_ready fs' p s
  | Evaluate p s => inv_value fs p s
  | Return b p s => b = true -> final p s
  end.

Lemma and_then_par fs p (m : outcome (bool * St)) k :
  (forall s1, m = Ret (true, s1) -> par (k s1) (result_ok fs)) -> par (and_then p m k) (result_ok fs).
Proof.
  intros Hk r Hr. unfold and_then in Hr. destruct m as [[[] s1]| | |]; try done; simpl in Hr.
  - by apply (Hk s1).
  - by injection Hr as <-.
Qed.

Lemma error_par fs expected context p s :
  par (return_from p (syntax_error expected context p s)) (result_ok fs).
Proof.
  intros r Hr. unfold return_from in Hr. apply bind_Ret in Hr as ([b s1] & Hm & [= <-]).
  intros ->. by apply refuses in Hm.
Qed.

(** Reading the next token. *)
Lemma get_token_par c p r tb :
  before 1 (m_lexer p) r tb -> input = c ++ r -> par (get_token [dp] false p) (token_at c).
Proof.
  intros Hb Hi. apply par_returns. unfold get_token. rewrite (scan_started _ _ _ _ _ Hb).
  destruct (scan_next_sound dp Hdp_byte Hdp_digit Hdp_exp _ _ _ (before_1_0 _ _ _ Hb)) as ([tok lx] & -> & Hp).
  bind_ret. apply returns_ret. destruct Hp as [(w & t & r' & tb' & E & Hw & Ht & H1)|[(Et & _ & r' & tb' & H1)|(Et & r' & tb' & H1)]];
    simpl in *.
  - exists w, r', tb'. split; [done|]. split; [done|]. right. exists t. by rewrite Hi, E.
  - exists [], r', tb'. split; [done|]. split; [constructor|]. left. simpl. by rewrite Et.
  - exists [], r', tb'. split; [done|]. split; [constructor|]. left. simpl. by rewrite Et.
Qed.

(** A structural token that has been read. *)
Lemma token_at_struct c p tok x :
  token_at c p -> last_token p = tok -> struct_char tok = Some x ->
  exists w r tb, before 1 (m_lexer p) r tb /\ ws w /\ input = c ++ w ++ x :: r.
Proof.
  intros (w & r & tb & Hb & Hw & Ht) E Hx. rewrite E in Ht. exists w, r, tb. split; [done|]. split; [done|].
  destruct Ht as [Ht|(t & Hi & Ht)]; [by destruct tok|].
  inversion Ht as [? c' Hc|? ? ? Hl| |? ? ? _ Hn]; subst; try (by destruct (last_token p)).
  rewrite Hx in Hc. by injection Hc as <-.
Qed.

Lemma token_at_string c p :
  token_at c p -> last_token p = value_string ->
  exists w t r tb, before 1 (m_lexer p) r tb /\ ws w /\ input = c ++ w ++ t ++ r /\
    string_text t (token_buffer (m_lexer p)).
Proof.
  intros (w & r & tb & Hb & Hw & Ht) E. rewrite E in Ht.
  destruct Ht as [Ht|(t & Hi & Ht)]; [done|]. exists w, t, r, tb.
  inversion Ht; by subst.
Qed.

(** A value of one token. *)
Definition token_json (tok : token_type) (lx : lexer) : option json :=
  match tok with
  | literal_null => Some Null
  | literal_true => Some (Boolean true)
  | literal_false => Some (Boolean false)
  | value_string => Some (Str (token_buffer lx))
  | _ => token_number tok lx
  end.

Lemma token_value lx tok t j :
  token_text lx tok t -> token_json tok lx = Some j -> finite_number j = true -> value_text t j.
Proof.
  intros Ht Hj Hf. destruct Ht as [tok c Hc|tok t j' Hl|t Hs|tok t j' Hn Hv].
  - by destruct tok.
  - destruct tok; simplify_eq/=; constructor.
  - simplify_eq/=. by apply text_string.
  - destruct tok; simplify_eq/=; by apply text_number.
Qed.

Lemma scalar_par fs p s j (m : outcome (bool * St)) :
  inv_ready fs p s -> token_json (last_token p) (m_lexer p) = Some j -> finite_number j = true ->
  m = emit j s -> par (and_then p m (fun s => Ret (Evaluate p s))) (result_ok fs).
Proof.
  intros (c & Hfs & He & w & r & tb & Hb & Hw & Ht) Hj Hf ->. apply and_then_par. intros s1 Hs1.
  apply par_ret. destruct Ht as [Ht|(t & Hi & Ht)]; [by destruct (last_token p)|].
  exists c, w, t, j, r, tb, s. by split_and!; [| |eapply token_value|..].
Qed.

Lemma parse_member_par fs0 fs p s :
  inv_key fs p s -> par (parse_member [dp] false (false :: (frame_kind <$> fs)) p s) (result_ok fs0).
Proof.
  intros (c & w & u & es & s1 & s2 & Hfs & Hw & Hu & He & Hs & Hes & Ht).
  unfold parse_member. case_decide as Et; [|apply error_par].
  apply and_then_par. intros s3 Hk.
  destruct (token_at_string _ _ Ht Et) as (w1 & n & r & tb & Hb & Hw1 & Hi & Hn).
  eapply par_bind; [eapply (get_token_par ((c ++ w ++ ch "{" :: u) ++ w1 ++ n)); [done|by rewrite Hi, <- !app_assoc]|].
  intros p1 Ht1. case_decide as Et1; [|apply error_par].
  destruct (token_at_struct _ _ _ _ Ht1 Et1 eq_refl) as (w2 & r2 & tb2 & Hb2 & Hw2 & Hi2).
  eapply par_bind; [eapply (get_token_par (c ++ w ++ ch "{" :: u ++ w1 ++ n ++ w2 ++ [ch ":"])); [done|]|].
  { rewrite Hi2. by repeat (rewrite <- app_assoc; cbn [app]). }
  intros p2 Ht2. apply par_ret. exists (FObj es (token_buffer (m_lexer p)) :: fs). split; [done|].
  exists (c ++ w ++ ch "{" :: u ++ w1 ++ n ++ w2 ++ [ch ":"]).
  split; [by apply frames_object|]. split; [|done]. by exists s1, s2, s.
Qed.

Lemma emit_elements_snoc l j (s s1 s2 : St) :
  emit_elements l s = Ret (true, s1) -> emit j s1 = Ret (true, s2) ->
  emit_elements (l ++ [j]) s = Ret (true, s2).
Proof.
  intros Hl Hj. revert s Hl. induction l as [|x l IH]; intros s Hl; simpl in *.
  - injection Hl as ->. apply and_also_true. by exists s2.
  - apply and_also_true in Hl as (s3 & Hx & Hl). apply and_also_true. exists s3. auto.
Qed.

Lemma emit_members_snoc es k j (s s1 s2 s3 : St) :
  emit_members es s = Ret (true, s1) -> sax_key k s1 = Ret (true, s2) -> emit j s2 = Ret (true, s3) ->
  emit_members (es ++ [(k, j)]) s = Ret (true, s3).
Proof.
  intros Hl Hk Hj. revert s Hl. induction es as [|x es IH]; intros s Hl; cbn [emit_members app] in *.
  - injection Hl as ->. apply and_also_true. exists s2. split; [done|]. apply and_also_true. by exists s3.
  - apply and_also_true in Hl as (s4 & Hx & Hl). apply and_also_true in Hl as (s5 & Hy & Hl).
    apply and_also_true. exists s4. split; [done|]. apply and_also_true. exists s5. auto.
Qed.

(** The evaluation of the state of an array. *)
Lemma evaluate_array_par l fs p s :
  inv_value (FArr l :: fs) p s ->
  par (evaluate_state [dp] false (true :: (frame_kind <$> fs)) p s) (result_ok (FArr l :: fs)).
Proof.
  intros (c & w & v & j & r & tb & s1 & Hfs & Hw & Hv & Hi & Hb & He & Hj).
  inversion Hfs as [|? c' w0 u ? Hfs' Hw0 Hu|]; subst. destruct He as (s2 & s3 & He & Hs & Hl).
  eapply par_bind; [eapply (get_token_par ((c' ++ w0 ++ ch "[" :: u) ++ w ++ v)); [done|by rewrite Hi, <- !app_assoc]|].
  intros p1 Ht1. pose proof (emit_elements_snoc l j s3 s1 s Hl Hj) as Hl'.
  case_decide as Et1; [|case_decide as Et2; [|apply error_par]].
  - destruct (token_at_struct _ _ _ _ Ht1 Et1 eq_refl) as (w2 & r2 & tb2 & Hb2 & Hw2 & Hi2).
    set (c2 := c' ++ w0 ++ ch "[" :: u ++ w ++ v ++ w2 ++ [ch ","]).
    eapply par_bind; [eapply (get_token_par c2); [done|]|].
    { rewrite Hi2. unfold c2. by repeat (rewrite <- app_assoc; cbn [app]). }
    intros p2 Ht2. apply par_ret. exists (FArr (l ++ [j]) :: fs). split; [done|]. exists c2.
    split; [apply frames_array; [done|done|by apply elements_open_snoc]|]. split; [|done]. by exists s2, s3.
  - destruct (token_at_struct _ _ _ _ Ht1 Et2 eq_refl) as (w2 & r2 & tb2 & Hb2 & Hw2 & Hi2).
    apply and_then_par. intros s4 Hend. apply par_ret. exists fs. split; [done|].
    exists c', w0, (ch "[" :: (u ++ w ++ v ++ w2) ++ [ch "]"]), (Array (l ++ [j])), r2, tb2, s2.
    split; [done|]. split; [done|]. split.
    { apply text_array, elements_close; [done|]. by constructor. }
    split; [rewrite Hi2; by repeat (rewrite <- app_assoc; cbn [app])|]. split; [done|]. split; [done|].
    rewrite emit_Array. apply and_also_true. exists s3. split; [done|]. apply and_also_true. by exists s.
Qed.

(** The evaluation of the state of an object. *)
Lemma evaluate_object_par es k fs p s :
  inv_value (FObj es k :: fs) p s ->
  par (evaluate_state [dp] false (false :: (frame_kind <$> fs)) p s) (result_ok (FObj es k :: fs)).
Proof.
  intros (c & w & v & j & r & tb & s1 & Hfs & Hw & Hv & Hi & Hb & He & Hj).
  inversion Hfs as [| |? c' w0 u ? w1 n ? w2 Hfs' Hw0 Hu Hw1 Hn Hw2]; subst.
  destruct He as (s2 & s3 & s4 & He & Hs & Hes & Hk). set (head := c' ++ w0 ++ ch "{" :: u).
  eapply par_bind; [eapply (get_token_par (head ++ w1 ++ n ++ w2 ++ [ch ":"] ++ w ++ v)); [done|]|].
  { rewrite Hi. unfold head. by repeat (rewrite <- app_assoc; cbn [app]). }
  intros p1 Ht1. pose proof (emit_members_snoc es k j _ _ _ _ Hes Hk Hj) as Hes'.
  case_decide as Et1; [|case_decide as Et2; [|apply error_par]].
  - destruct (token_at_struct _ _ _ _ Ht1 Et1 eq_refl) as (w3 & r2 & tb2 & Hb2 & Hw3 & Hi2).
    set (u' := u ++ w1 ++ n ++ w2 ++ ch ":" :: w ++ v ++ w3 ++ [ch ","]).
    eapply par_bind; [eapply (get_token_par (c' ++ w0 ++ ch "{" :: u')); [done|]|].
    { rewrite Hi2. unfold head, u'. by repeat (rewrite <- app_assoc; cbn [app]). }
    intros p2 Ht2. apply parse_member_par. exists c', w0, u', (es ++ [(k, j)]), s2, s3.
    split; [done|]. split; [done|]. split; [by constructor|]. done.
  - destruct (token_at_struct _ _ _ _ Ht1 Et2 eq_refl) as (w3 & r2 & tb2 & Hb2 & Hw3 & Hi2).
    apply and_then_par. intros s5 Hend. apply par_ret. exists fs. split; [done|].
    exists c', w0, (ch "{" :: (u ++ w1 ++ n ++ w2 ++ ch ":" :: w ++ v ++ w3) ++ [ch "}"]),
      (Object (es ++ [(k, j)])), r2, tb2, s2.
    split; [done|]. split; [done|]. split.
    { apply text_object, members_close; [done|]. by constructor. }
    split; [rewrite Hi2; unfold head; by repeat (rewrite <- app_assoc; cbn [app])|]. split; [done|]. split; [done|].
    rewrite emit_Object. apply and_also_true. exists s3. split; [done|]. apply and_also_true. by exists s.
Qed.

Lemma evaluate_par fs p s :
  inv_value fs p s -> par (evaluate_state [dp] false (frame_kind <$> fs) p s) (result_ok fs).
Proof.
  intros Hv. destruct fs as [|[l|es k] fs]; cbn [fmap list_fmap frame_kind].
  - destruct Hv as (c & w & v & j & r & tb & s1 & Hfs & Hw & Hv & Hi & Hb & He & Hj).
    apply par_ret. intros _. inversion Hfs; subst. simpl in He. subst s1. by exists w, v, j, r, tb.
  - by apply evaluate_array_par.
  - by apply evaluate_object_par.
Qed.

Lemma begin_array_par fs p s :
  inv_ready fs p s -> last_token p = begin_array ->
  par (parse_value [dp] false (frame_kind <$> fs) p s) (result_ok fs).
Proof.
  intros (c & Hfs & He & Ht) Et. unfold parse_value. rewrite Et.
  destruct (token_at_struct _ _ _ _ Ht Et eq_refl) as (w & r & tb & Hb & Hw & Hi).
  apply and_then_par. intros s1 Hs.
  eapply par_bind; [eapply (get_token_par (c ++ w ++ [ch "["])); [done|by rewrite Hi, <- !app_assoc]|].
  intros p1 Ht1. case_decide as Et1.
  - destruct (token_at_struct _ _ _ _ Ht1 Et1 eq_refl) as (w1 & r1 & tb1 & Hb1 & Hw1 & Hi1).
    apply and_then_par. intros s2 Hend. apply par_ret.
    exists c, w, (ch "[" :: w1 ++ [ch "]"]), (Array []), r1, tb1, s. split; [done|]. split; [done|].
    split; [by constructor|]. split; [rewrite Hi1; by repeat (rewrite <- app_assoc; cbn [app])|].
    split; [done|]. split; [done|]. rewrite emit_Array. apply and_also_true. exists s1. split; [done|].
    apply and_also_true. by exists s1.
  - apply par_ret. exists (FArr [] :: fs). split; [done|]. exists (c ++ w ++ [ch "["]).
    split; [apply frames_array; [done|done|constructor]|]. split; [|done]. by exists s, s1.
Qed.

Lemma begin_object_par fs p s :
  inv_ready fs p s -> last_token p = begin_object ->
  par (parse_value [dp] false (frame_kind <$> fs) p s) (result_ok fs).
Proof.
  intros (c & Hfs & He & Ht) Et. unfold parse_value. rewrite Et.
  destruct (token_at_struct _ _ _ _ Ht Et eq_refl) as (w & r & tb & Hb & Hw & Hi).
  apply and_then_par. intros s1 Hs.
  eapply par_bind; [eapply (get_token_par (c ++ w ++ [ch "{"])); [done|by rewrite Hi, <- !app_assoc]|].
  intros p1 Ht1. case_decide as Et1.
  - destruct (token_at_struct _ _ _ _ Ht1 Et1 eq_refl) as (w1 & r1 & tb1 & Hb1 & Hw1 & Hi1).
    apply and_then_par. intros s2 Hend. apply par_ret.
    exists c, w, (ch "{" :: w1 ++ [ch "}"]), (Object []), r1, tb1, s. split; [done|]. split; [done|].
    split; [by constructor|]. split; [rewrite Hi1; by repeat (rewrite <- app_assoc; cbn [app])|].
    split; [done|]. split; [done|]. rewrite emit_Object. apply and_also_true. exists s1. split; [done|].
    apply and_also_true. by exists s1.
  - apply parse_member_par. exists c, w, [], [], s, s1. split; [done|]. split; [done|]. split; [constructor|]. done.
Qed.

Lemma parse_value_par fs p s :
  inv_ready fs p s -> par (parse_value [dp] false (frame_kind <$> fs) p s) (result_ok fs).
Proof.
  intros Hr. destruct (last_token p) eqn:Et;
    try (by apply begin_array_par); try (by apply begin_object_par);
    unfold parse_value; rewrite Et; try apply error_par;
    try (eapply scalar_par; [done|by rewrite Et|done|done]).
  case_match eqn:Ef.
  - rewrite float_text. eapply (scalar_par _ _ _ (Number_float _)); [done|by rewrite Et|done|done].
  - intros r Hm. unfold return_from in Hm. apply bind_Ret in Hm as ([b s1] & Hm & [= <-]). intros ->.
    by apply refuses in Hm.
Qed.

(** The loop. *)
Definition round_inv (x : bool * list bool * parser * St) : Prop :=
  let '(skip, states, p, s) := x in
  exists fs, states = frame_kind <$> fs /\ if skip : bool then inv_value fs p s else inv_ready fs p s.

Lemma parse_round_par x :
  round_inv x -> par (parse_round [dp] false x) (fun c =>
    match c with
    | Continue x' => round_inv x'
    | Break (b, p, s) => b = true -> final p s
    end).
Proof.
  destruct x as [[[skip states] p] s]. intros (fs & -> & Hx). unfold parse_round.
  assert (Hfin : forall fs r, result_ok fs r -> par (finish_round r) (fun c =>
    match c with
    | Continue x' => round_inv x'
    | Break (b, p, s) => b = true -> final p s
    end)).
  { intros fs' [skip' st' p' s'|p' s'|b p' s'] Hr; [by apply par_ret|done|by apply par_ret]. }
  eapply (par_bind _ _ (result_ok fs)).
  - destruct skip; [by apply par_ret|by apply parse_value_par].
  - intros [skip' st' p' s'|p' s'|b p' s'] Hr; [by apply (Hfin fs)| |by apply (Hfin fs)].
    eapply par_bind; [by apply evaluate_par|]. intros r Hr'. by apply (Hfin fs).
Qed.

Lemma parse_loop_par fuel x :
  round_inv x -> par (while_loop fuel (parse_round [dp] false) x) (fun y =>
    let '(b, p, s) := y in b = true -> final p s).
Proof.
  revert x. induction fuel as [|fuel IH]; intros x Hx; [done|]. cbn [while_loop].
  eapply par_bind; [by apply parse_round_par|]. intros [x'|y] Hc; [by apply IH|by apply par_ret].
Qed.

Lemma sax_parse_internal_par p :
  token_at [] p -> par (sax_parse_internal [dp] false p s0) (fun y =>
    let '(b, p', s) := y in b = true -> final p' s).
Proof.
  intros Ht. apply parse_loop_par. exists []. split; [done|]. exists []. split; [constructor|]. by split.
Qed.
End Sound.
