(* ===== verification/JsonCorrect.v ===== *)
(** Reading JSON with [src/util/nlohmann_json.hpp]: the main theorems on the
    parser.  [parse] returns exactly the values of the texts of the grammar, on
    every other input it throws an exception of the library, [accept] decides
    the grammar, and no assertion fails and no pointer is invalid on any input. *)

From Stdlib Require Import ZArith Lia.
From S2P Require Import Prelude JsonValue JsonNumber JsonGrammar JsonLexer JsonScan JsonScanNumber.
From S2P Require Import JsonTokens JsonParser JsonParse JsonTotal JsonDom JsonSound.
From stdpp Require Import base decidable option strings list.

Open Scope Z_scope.

(** The decimal point of the locale, when it is one character that does not
    occur elsewhere in a number. *)
Definition point_ok (dp : Z) : Prop :=
  is_byte dp /\ is_digit dp = false /\ is_exponent_char dp = false.

Section Correct.
Context (dp : Z) (Hdp : point_ok dp).

Lemma value_text_writable t v : value_text t v -> writable v = true.
Proof.
  revert t v. apply (value_text_min (fun _ v => writable v = true)
    (fun _ l => forallb writable l = true) (fun _ es => forallb (fun e => writable e.2) es = true));
    try done.
  - intros t j [neg i f d x e _ _ _] _. unfold number_value. by repeat case_match.
  - intros w t w' j _ _ Hj _. simpl. by rewrite Hj.
  - intros w t w' j t' l _ _ Hj _ _ Hl. simpl. by rewrite Hj.
  - intros w n w1 w2 t w' k j _ _ _ _ _ Hj _. simpl. by rewrite Hj.
  - intros w n w1 w2 t w' k j t' es _ _ _ _ _ Hj _ _ Hl. simpl. by rewrite Hj.
Qed.

Lemma value_text_head t v : value_text t v -> exists c t', t = c :: t' /\ is_space c = false /\ c <> 0xEF.
Proof.
  intros Hv. destruct Hv as [| | |t s (body & cps & -> & _)|t j [neg i f d x e Hi _ _] _| | | |];
    try (by do 2 eexists; split; [reflexivity|]; split).
  pose proof (int_text_digits _ Hi) as Hd. pose proof (int_text_nonnil _ Hi) as Hn.
  destruct neg; [by do 2 eexists; split; [done|]; split|].
  destruct i as [|c i]; [done|]. inversion_clear Hd as [|? ? Hc _]. exists c, (i ++ f ++ x). split; [done|].
  apply is_digit_spec in Hc. unfold is_space. ztests; split; done || lia.
Qed.

(** ** Both directions, for any receiver *)

Section Receiver.
Context {St : Type} `{SaxOk St}.
Hypothesis float_text : forall z tb (s : St), sax_number_float z tb s = sax_number_float z [] s.

Lemma tail_stop w tl : ws w -> tl = [] \/ head tl = Some 0 -> number_stop (hd_eof (w ++ tl)).
Proof.
  intros Hw Ht. apply ws_stop; [done|]. destruct Ht as [->|Ht]; [done|].
  destruct tl as [|c tl]; [done|]. injection Ht as ->. done.
Qed.

(** The first token of a document. *)
Lemma new_parser_text b w t v r :
  bytes (b ++ w ++ t ++ r) -> b = [] \/ b = bom -> ws w -> value_text t v ->
  exists lx, new_parser [dp] false (b ++ w ++ t ++ r) =
    ('(tok, lx) ← scan_next [dp] false lx; Ret {| last_token := tok; m_lexer := lx |}) /\
    before 0 lx (w ++ t ++ r) [].
Proof.
  intros Hby Hb Hw Hv. unfold new_parser, get_token. cbn [m_lexer].
  assert (Hs : bytes (w ++ t ++ r)) by (by apply Forall_app in Hby as [_ ?]).
  destruct Hb as [-> | ->].
  - destruct (value_text_head _ _ Hv) as (c & t' & -> & Hc & Hne).
    destruct (scan_first_plain dp false (w ++ (c :: t') ++ r) Hs) as (lx & E & Hlx).
    { destruct Hw as [|x w Hx _]; simpl; [congruence|]. intros [= ->]. done. }
    exists lx. cbn [app] in E |- *. by rewrite E.
  - destruct (scan_first_bom dp false (w ++ t ++ r) Hs) as (lx & E & Hlx). exists lx. by rewrite E.
Qed.

Lemma internal_complete b w t v w' tl c (s0 s' : St) :
  bytes (b ++ w ++ t ++ w' ++ tl) -> b = [] \/ b = bom -> ws w -> value_text t v -> ws w' ->
  tl = [] \/ head tl = Some 0 -> sax_inv c Ready [] s0 -> emit v s0 = Ret (true, s') ->
  exists p p', new_parser [dp] false (b ++ w ++ t ++ w' ++ tl) = Ret p /\
    sax_parse_internal [dp] false p s0 = Ret (true, p', s') /\
    exists lx, get_token [dp] false p' = Ret {| last_token := end_of_input; m_lexer := lx |}.
Proof.
  destruct Hdp as (Hp1 & Hp2 & Hp3). intros Hby Hb Hw Hv Hw' Ht Hi He.
  destruct (new_parser_text b w t v (w' ++ tl) Hby Hb Hw Hv) as (lx & E & Hlx).
  destruct (value_complete dp Hp1 Hp2 Hp3 float_text t v Hv w (w' ++ tl) lx [] Hw) as (tok & lx1 & E1 & _ & Hrun);
    [by apply tail_stop|done|].
  destruct (Hrun [] s0 s' He) as (n & p2 & tb2 & _ & H2 & Hloop).
  set (p := {| last_token := tok; m_lexer := lx1 |}) in *.
  assert (Hp : new_parser [dp] false (b ++ w ++ t ++ w' ++ tl) = Ret p) by (by rewrite E, E1).
  assert (Hl : lexed p).
  { destruct (new_parser_total dp Hp1 Hp2 Hp3 false _ Hby) as (q & Eq & Hq). rewrite Hp in Eq. by injection Eq as <-. }
  exists p, p2. split; [done|]. split.
  - pose proof (sax_parse_internal_ok dp Hp1 Hp2 Hp3 false c p s0 Hl Hi) as Hok.
    unfold sax_parse_internal in *. rewrite <- (while_loop_fuel _ (n + 1)); [|by intros En; rewrite En in Hok].
    replace (parse_fuel p + (n + 1))%nat with (n + S (parse_fuel p))%nat by lia. by rewrite Hloop.
  - destruct (scan_end dp w' tl (m_lexer p2) tb2 Hw' Ht (before_1_0 _ _ _ H2)) as (lx3 & E3 & _).
    exists lx3. destruct p2. by eapply get_token_scan.
Qed.

Lemma internal_sound s p p' (s0 s1 : St) lx :
  bytes s -> new_parser [dp] false s = Ret p -> sax_parse_internal [dp] false p s0 = Ret (true, p', s1) ->
  get_token [dp] false p' = Ret {| last_token := end_of_input; m_lexer := lx |} ->
  exists b w t v w' tl, s = b ++ w ++ t ++ w' ++ tl /\ (b = [] \/ b = bom) /\ ws w /\ value_text t v /\
    ws w' /\ (tl = [] \/ head tl = Some 0) /\ emit v s0 = Ret (true, s1).
Proof.
  destruct Hdp as (Hp1 & Hp2 & Hp3). intros Hs Hp Hint Hend.
  unfold new_parser, get_token in Hp. cbn [m_lexer] in Hp.
  assert (Hfirst : exists b s', s = b ++ s' /\ (b = [] \/ b = bom) /\ token_at s' [] p).
  { destruct (scan_first_sound dp false s Hs) as [(b & s' & lx0 & -> & Hb & E & Hlx)|(lx0 & E & r & tb & Hlx)];
      rewrite E in Hp; clear E.
    - exists b, s'. split; [done|]. split; [done|].
      destruct (scan_next_sound dp Hp1 Hp2 Hp3 _ _ _ Hlx) as ([tok lx1] & E1 & Hpost). rewrite E1 in Hp.
      injection Hp as <-.
      destruct Hpost as [(w & t & r' & tb' & -> & Hw & Ht & H1)|[(Et & _ & r' & tb' & H1)|(Et & r' & tb' & H1)]]; simpl in *.
      + exists w, r', tb'. split; [done|]. split; [done|]. right. by exists t.
      + exists [], r', tb'. split; [done|]. split; [constructor|]. left. simpl. by rewrite Et.
      + exists [], r', tb'. split; [done|]. split; [constructor|]. left. simpl. by rewrite Et.
    - injection Hp as <-. exists [], s. split; [done|]. split; [by left|]. exists [], r, tb.
      split; [done|]. split; [constructor|by left]. }
  destruct Hfirst as (b & s' & -> & Hb & Ht).
  pose proof (sax_parse_internal_par dp Hp1 Hp2 Hp3 float_text s' s0 p Ht _ Hint eq_refl)
    as (w & v & j & r & tb & Hw & Hv & -> & Hr & He).
  unfold get_token in Hend. rewrite (scan_started _ _ _ _ _ Hr) in Hend.
  destruct (scan_next_sound dp Hp1 Hp2 Hp3 _ _ _ (before_1_0 _ _ _ Hr)) as ([tok lx1] & E1 & Hpost).
  rewrite E1 in Hend. injection Hend as -> ->.
  destruct Hpost as [(w1 & t & r' & tb' & _ & _ & Htok & _)|[(_ & (w1 & tl & -> & Hw1 & Htl) & _)|[Et _]]]; simpl in *.
  - inversion Htok as [? c Hc|? ? ? Hl| |? ? ? _ Hn]; by subst.
  - by exists b, w, v, j, w1, tl.
  - done.
Qed.
End Receiver.

(** ** [parse] *)

Lemma parse_complete ex s j :
  bytes s -> document s j -> parse_with [dp] true ex false s = Ret j.
Proof.
  intros Hs (b & w & t & w' & tl & v & -> & Hb & Hw & Hv & Hw' & Ht & ->)%document_parts.
  destruct (dom_emit v (value_text_writable _ _ Hv) (new_dom ex) [] (fun j => j) (root_slot (new_dom ex) eq_refl))
    as (d & He & Hr & _ & Hd & _).
  destruct (internal_complete ltac:(done) b w t v w' tl ex (new_dom ex) d Hs Hb Hw Hv Hw' Ht (new_dom_inv ex) He)
    as (p & p' & E1 & E2 & lx & E3).
  unfold parse_with. rewrite E1. bind_ret. fold (new_dom ex). rewrite E2. bind_ret. rewrite E3. bind_ret.
  cbn [last_token]. rewrite decide_True by done. bind_ret. by rewrite Hd, Hr.
Qed.

Lemma strict_total p d ex :
  lexed p -> dom_inv ex Open [] d ->
  ok (ex = true) (p ← get_token [dp] false p;
      if decide (last_token p = end_of_input) then Ret d
      else '(_, d) ← syntax_error end_of_input "value" p d; Ret d)
    (fun d' => dom_failed ex d' \/ d' = d /\ exists lx,
       get_token [dp] false p = Ret {| last_token := end_of_input; m_lexer := lx |}).
Proof.
  destruct Hdp as (Hp1 & Hp2 & Hp3). intros Hp Hi.
  destruct (get_token_total dp Hp1 Hp2 Hp3 false p Hp) as (p1 & E1 & _ & _). rewrite E1. bind_ret.
  case_decide as Et.
  - right. split; [done|]. exists (m_lexer p1). by destruct p1; simpl in *; subst.
  - eapply ok_bind; [by eapply (@ok_parse_error _ _ dom_ok ex)|]. intros [[] d'] Hd'; [done|]. by left.
Qed.

(** The parser without exceptions, or with them, on any input. *)
Lemma parse_cases ex s :
  bytes s -> ok (ex = true) (parse_with [dp] true ex false s) (fun j => document s j \/ ex = false /\ j = Discarded).
Proof.
  intros Hs. pose proof Hdp as (Hp1 & Hp2 & Hp3). unfold parse_with.
  destruct (new_parser_total dp Hp1 Hp2 Hp3 false s Hs) as (p & E1 & Hp). rewrite E1. bind_ret.
  fold (new_dom ex). pose proof (sax_parse_internal_ok dp Hp1 Hp2 Hp3 false ex p (new_dom ex) Hp (new_dom_inv ex)) as Hok.
  destruct (sax_parse_internal [dp] false p (new_dom ex)) as [[[b p'] d]| | |] eqn:E2; try done. bind_ret.
  destruct Hok as [Hp' Hd]. destruct b.
  - eapply ok_bind; [by eapply strict_total|]. intros d' [(-> & -> & _)|[-> (lx & E3)]]; [by right|].
    cbn [ok]. destruct (internal_sound ltac:(done) s p p' _ _ lx Hs E1 E2 E3)
      as (b & w & t & v & w' & tl & -> & Hb & Hw & Hv & Hw' & Ht & He). left.
    apply document_parts. exists b, w, t, w', tl, v. split_and!; try done.
    destruct (dom_emit v (value_text_writable _ _ Hv) (new_dom ex) [] (fun j => j) (root_slot (new_dom ex) eq_refl))
      as (d1 & He1 & Hr & _ & Hd1 & _).
    rewrite He in He1. injection He1 as <-. by rewrite Hd1, Hr.
  - destruct Hd as (-> & Hd & Ha).
    destruct (get_token_total dp Hp1 Hp2 Hp3 false p' Hp') as (p2 & -> & _ & _). bind_ret.
    case_decide; bind_ret; [rewrite Hd; by right|]. unfold syntax_error, sax_parse_error. simpl.
    unfold dom_parse_error. rewrite Ha. bind_ret. by right.
Qed.
End Correct.

(** C4: with a decimal point of one character, [parse] returns [j] exactly
    when the input is a document whose value is [j]: an optional byte order
    mark, white space, a value of the grammar of RFC 8259 with strings in
    UTF-8, escapes and surrogate pairs, integers of 64 bits and doubles that do
    not overflow, white space, and the end of the input or a zero byte. *)
Theorem parse_correct (dp : Z) (s : list Z) (j : json) :
  point_ok dp -> bytes s -> (parse [dp] s = Ret j <-> document s j).
Proof.
  intros Hdp Hs. split.
  - intros E. pose proof (parse_cases dp Hdp true s Hs) as Hok. unfold parse in E. rewrite E in Hok.
    by destruct Hok as [?|[? _]].
  - intros Hj. by apply parse_complete.
Qed.

(** C12: with a decimal point of one character, on every input the parser returns a value or throws an exception of
    the library, and only when exceptions are allowed: the loops end, no
    assertion fails and no pointer into the value is invalid.  Without
    exceptions the result is the value of the text, or the mark of a discarded
    value when the input is no document. *)
Theorem parse_total (dp : Z) (s : list Z) :
  point_ok dp -> bytes s ->
  ((exists j, parse [dp] s = Ret j) \/
   (exists id what, parse [dp] s = Throw (JsonException id what)) /\ ~ (exists j, document s j)) /\
  ((exists j, document s j /\ parse_with [dp] true false false s = Ret j) \/
   parse_with [dp] true false false s = Ret Discarded /\ ~ (exists j, document s j)).
Proof.
  intros Hdp Hs. split.
  - pose proof (parse_cases dp Hdp true s Hs) as Hok. fold (parse [dp] s) in Hok.
    destruct (parse [dp] s) as [j| |[]|] eqn:E; try done; [left; by exists j|right].
    split; [eauto|]. intros (j & Hj). pose proof (parse_complete dp Hdp true s j Hs Hj) as Hc.
    unfold parse in E. by rewrite E in Hc.
  - pose proof (parse_cases dp Hdp false s Hs) as Hok.
    destruct (parse_with [dp] true false false s) as [j| |[]|] eqn:E; try done.
    destruct Hok as [Hj|[_ ->]]; [left; eauto|right]. split; [done|]. intros (j & Hj).
    pose proof (parse_complete dp Hdp false s j Hs Hj) as Hc. rewrite E in Hc. injection Hc as <-.
    apply document_parts in Hj as (b & w & t & w' & tl & v & _ & _ & _ & Hv & _ & _ & Ev).
    pose proof (value_text_writable _ _ Hv) as Hw. destruct v; try done.
Qed.

(** ** [accept] *)

Lemma acceptor_emit v : writable v = true -> emit v tt = Ret (true, tt).
Proof.
  induction v as [| | | | | | |l IH|o IH|] using json_induction; intros Hw; try done.
  - cbn [writable] in Hw. rewrite emit_Array. apply and_also_true. exists tt. split; [done|].
    apply and_also_true. exists tt. split; [|done]. induction IH as [|j l Hj Hl IHl]; [done|].
    simpl in Hw. apply andb_true_iff in Hw as [Hwj Hw]. apply and_also_true. exists tt. split; [|apply IHl]; auto.
  - cbn [writable] in Hw. rewrite emit_Object. apply and_also_true. exists tt. split; [done|].
    apply and_also_true. exists tt. split; [|done]. induction IH as [|e o Hj Hl IHl]; [done|].
    simpl in Hw. apply andb_true_iff in Hw as [Hwj Hw]. apply and_also_true. exists tt. split; [done|].
    apply and_also_true. exists tt. split; [|apply IHl]; auto.
Qed.

Lemma acceptor_float_text z tb (s : unit) : sax_number_float z tb s = sax_number_float z [] s.
Proof. done. Qed.

Section Accept.
Context (dp : Z) (Hdp : point_ok dp).

(** The acceptor never throws. *)
Lemma ok_no_throw {A} (m : outcome A) Q : ok False m Q -> returns m Q.
Proof. destruct m as [a| |[]|]; simpl; try done. intros Ha. by exists a. Qed.

Lemma accept_internal ic p :
  lexed p -> returns (sax_parse_internal [dp] ic p tt) (fun x => lexed x.1.2).
Proof.
  destruct Hdp as (Hp1 & Hp2 & Hp3). intros Hp. apply ok_no_throw.
  eapply ok_mono; [apply (sax_parse_internal_ok dp Hp1 Hp2 Hp3 ic (tt : @sax_cfg unit _ acceptor_ok) p tt Hp I)|].
  intros [[b p'] s] [Hp' _]. done.
Qed.

(** With or without comments, strict or not. *)
Lemma accept_returns strict ic s : bytes s -> returns (accept [dp] strict ic s) (fun _ => True).
Proof.
  intros Hs. pose proof Hdp as (Hp1 & Hp2 & Hp3). unfold accept.
  eapply returns_bind; [by apply new_parser_total|]. intros p Hp.
  unfold sax_parse. destruct (accept_internal ic p Hp) as ([[b p'] []] & -> & Hp'). bind_ret.
  destruct (b && strict); bind_ret; [|by apply returns_ret].
  destruct (get_token_total dp Hp1 Hp2 Hp3 ic p' Hp') as (p2 & -> & _). bind_ret.
  case_decide; bind_ret; by apply returns_ret.
Qed.
End Accept.

(** C14: [accept] returns on every input, with or without comments, and
    without comments it answers whether the input is a document: a JSON text,
    behind an optional byte order mark and before the end or a zero byte. *)
Theorem accept_correct (dp : Z) (s : list Z) :
  point_ok dp -> bytes s ->
  (forall strict ic, exists b, accept [dp] strict ic s = Ret b) /\
  (accept [dp] true false s = Ret true <-> exists j, document s j).
Proof.
  intros Hdp Hs. split.
  { intros strict ic. destruct (accept_returns dp Hdp strict ic s Hs) as (b & E & _). by exists b. }
  pose proof Hdp as (Hp1 & Hp2 & Hp3). split.
  - intros E. unfold accept in E. apply bind_Ret in E as (p & E1 & E). unfold sax_parse in E.
    apply bind_Ret in E as ([b []] & E & [= ->]). apply bind_Ret in E as ([[r p'] []] & E2 & E).
    destruct r; [|done]. simpl in E. apply bind_Ret in E as (p2 & E3 & E). case_decide as Et; [|done].
    destruct (internal_sound (St := unit) dp Hdp acceptor_float_text s p p' tt tt (m_lexer p2) Hs E1 E2) as (b & w & t & v & w' & tl & -> & Hx).
    { rewrite E3. by destruct p2; simpl in *; subst. }
    destruct Hx as (Hb & Hw & Hv & Hw' & Ht & _). exists (build v). apply document_parts. exists b, w, t, w', tl, v. by split_and!.
  - intros (j & (b & w & t & w' & tl & v & -> & Hb & Hw & Hv & Hw' & Ht & _)%document_parts).
    destruct (internal_complete (St := unit) dp Hdp acceptor_float_text b w t v w' tl (tt : @sax_cfg unit _ acceptor_ok) tt tt Hs Hb Hw Hv Hw' Ht I
      (acceptor_emit v (value_text_writable _ _ Hv))) as (p & p' & E1 & E2 & lx & E3).
    unfold accept. rewrite E1. bind_ret. unfold sax_parse. rewrite E2. bind_ret. cbn [andb].
    rewrite E3. bind_ret. cbn [last_token]. by rewrite decide_True.
Qed.

(** ** Examples *)

Lemma ascii_point : point_ok (ch ".").
Proof. by repeat split. Qed.

Lemma bytes_of_bytes s : bytes (bytes_of s).
Proof.
  unfold bytes_of, bytes. apply Forall_fmap, Forall_forall. intros a _. unfold is_byte. simpl.
  pose proof (Ascii.N_ascii_bounded a). lia.
Qed.

Lemma parse_correct_witness :
  document (bytes_of "[1, -2.5e1, {}]") (Array [Number_unsigned 1; Number_float 13851102128954671104; Object []]).
Proof.
  apply (parse_correct (ch ".")); [apply ascii_point|apply bytes_of_bytes|]. vm_compute. reflexivity.
Defined.

Lemma parse_total_witness :
  exists id what, parse [ch "."] (bytes_of "[1 2]") = Throw (JsonException id what).
Proof.
  destruct (parse_total (ch ".") (bytes_of "[1 2]") ascii_point (bytes_of_bytes _)) as [[(j & E)|[E _]] _].
  - exfalso. vm_compute in E. discriminate.
  - exact E.
Defined.

Lemma accept_correct_witness : exists j, document (bytes_of "[true, null]") j.
Proof.
  apply (accept_correct (ch ".") _ ascii_point (bytes_of_bytes _)). vm_compute. reflexivity.
Defined.

(** The column of an error behind a number and a line feed is lost: [unget] of
    the line feed does not restore it. *)
Example column_lost :
  exists rest, parse [ch "."] (bytes_of "{1" ++ [0x0A]) =
    Throw (JsonException 101 (bytes_of "[json.exception.parse_error.101] parse error at line 1, column 0: " ++ rest)).
Proof. eexists. vm_compute. reflexivity. Qed.

(** A decimal point of two bytes, as in the locale [ps_AF], fails an assertion. *)
Example two_byte_point :
  parse [0xD9; 0xAB] (bytes_of "1.5") = Undef AssertFailed.
Proof. vm_compute. reflexivity. Qed.
