(* ===== verification/JsonDtoa.v ===== *)
(** The conversion of a double to a decimal numeral,
    [nlohmann::detail::to_chars] of [src/util/nlohmann_json.hpp], which is the
    algorithm Grisu2: [diyfp], the boundaries of a double, the cached powers of
    ten, the generation of the digits and their layout.

    A [std::uint64_t] is an integer with its wrap-around written out, a
    [char*] an offset into the array of characters it points into, and a
    [double] its bit pattern.  The exponents of type [int] stay far from the
    bounds of the type. *)

From Stdlib Require Import ZArith Lia.
From S2P Require Import Prelude JsonValue JsonNumber.
From stdpp Require Import base decidable option strings list.

Open Scope Z_scope.

Definition u64 (x : Z) : Z := x mod 2 ^ 64.
Definition u32 (x : Z) : Z := x mod 2 ^ 32.

(** [x << n] and [x >> n] on 64 bits; a shift by 64 or more is undefined. *)
Definition shl64 (x n : Z) : outcome Z :=
  if (0 <=? n) && (n <? 64) then Ret (u64 (Z.shiftl x n)) else Undef IntOverflow.
Definition shr64 (x n : Z) : outcome Z :=
  if (0 <=? n) && (n <? 64) then Ret (Z.shiftr x n) else Undef IntOverflow.

(** [JSON_ASSERT] *)
Definition json_assert (b : bool) : outcome unit := if b then Ret () else Undef AssertFailed.

(** ** [diyfp]: the number [df * 2^de] *)

Record diyfp := Diyfp { df : Z; de : Z }.

Definition diyfp_sub (x y : diyfp) : outcome diyfp :=
  _ ← json_assert (de x =? de y);
  _ ← json_assert (df y <=? df x);
  Ret (Diyfp (u64 (df x - df y)) (de x)).

Definition diyfp_mul (x y : diyfp) : diyfp :=
  let u_lo := Z.land (df x) 0xFFFFFFFF in
  let u_hi := Z.shiftr (df x) 32 in
  let v_lo := Z.land (df y) 0xFFFFFFFF in
  let v_hi := Z.shiftr (df y) 32 in
  let p0 := u64 (u_lo * v_lo) in
  let p1 := u64 (u_lo * v_hi) in
  let p2 := u64 (u_hi * v_lo) in
  let p3 := u64 (u_hi * v_hi) in
  let p0_hi := Z.shiftr p0 32 in
  let p1_lo := Z.land p1 0xFFFFFFFF in
  let p1_hi := Z.shiftr p1 32 in
  let p2_lo := Z.land p2 0xFFFFFFFF in
  let p2_hi := Z.shiftr p2 32 in
  let Q := u64 (p0_hi + p1_lo + p2_lo) in
  let Q := u64 (Q + Z.shiftl 1 31) in
  let h := u64 (p3 + p2_hi + p1_hi + Z.shiftr Q 32) in
  Diyfp h (de x + de y + 64).

Definition normalize_step (x : diyfp) : outcome (control diyfp diyfp) :=
  if Z.shiftr (df x) 63 =? 0
  then Ret (Continue (Diyfp (u64 (Z.shiftl (df x) 1)) (de x - 1)))
  else Ret (Break x).

(** A number of 64 bits that is not zero is shifted at most 63 times. *)
Definition diyfp_normalize (x : diyfp) : outcome diyfp :=
  _ ← json_assert (negb (df x =? 0));
  while_loop 64 normalize_step x.

Definition diyfp_normalize_to (x : diyfp) (target_exponent : Z) : outcome diyfp :=
  let delta := de x - target_exponent in
  _ ← json_assert (0 <=? delta);
  f ← shl64 (df x) delta;
  back ← shr64 f delta;
  _ ← json_assert (back =? df x);
  Ret (Diyfp f target_exponent).

(** ** The boundaries of a double *)

Record boundaries := Boundaries { bw : diyfp; bminus : diyfp; bplus : diyfp }.

Definition kPrecision : Z := 53.
Definition kBias : Z := 1024 - 1 + (kPrecision - 1).
Definition kMinExp : Z := 1 - kBias.
Definition kHiddenBit : Z := 2 ^ (kPrecision - 1).

Definition double_positive (bits : Z) : bool := (0 <? bits) && (bits <? 2 ^ 63).

Definition compute_boundaries (bits : Z) : outcome boundaries :=
  _ ← json_assert (isfinite bits);
  _ ← json_assert (double_positive bits);
  let E := Z.shiftr bits (kPrecision - 1) in
  let F := Z.land bits (kHiddenBit - 1) in
  let is_denormal := E =? 0 in
  let v := if is_denormal then Diyfp F kMinExp else Diyfp (F + kHiddenBit) (E - kBias) in
  let lower_boundary_is_closer := (F =? 0) && (1 <? E) in
  let m_plus := Diyfp (u64 (2 * df v + 1)) (de v - 1) in
  let m_minus := if lower_boundary_is_closer
                 then Diyfp (u64 (4 * df v - 1)) (de v - 2)
                 else Diyfp (u64 (2 * df v - 1)) (de v - 1) in
  w_plus ← diyfp_normalize m_plus;
  w_minus ← diyfp_normalize_to m_minus (de w_plus);
  w ← diyfp_normalize v;
  Ret (Boundaries w w_minus w_plus).

(** ** The cached powers of ten *)

Definition kAlpha : Z := -60.
Definition kGamma : Z := -32.

(** [cf * 2^ce] is close to [10^ck]. *)
Record cached_power := CachedPower { cf : Z; ce : Z; ck : Z }.

Definition kCachedPowersMinDecExp : Z := -300.
Definition kCachedPowersDecStep : Z := 8.

Definition kCachedPowers : list cached_power :=
  [CachedPower 0xAB70FE17C79AC6CA (-1060) (-300);
   CachedPower 0xFF77B1FCBEBCDC4F (-1034) (-292);
   CachedPower 0xBE5691EF416BD60C (-1007) (-284);
   CachedPower 0x8DD01FAD907FFC3C (-980) (-276);
   CachedPower 0xD3515C2831559A83 (-954) (-268);
   CachedPower 0x9D71AC8FADA6C9B5 (-927) (-260);
   CachedPower 0xEA9C227723EE8BCB (-901) (-252);
   CachedPower 0xAECC49914078536D (-874) (-244);
   CachedPower 0x823C12795DB6CE57 (-847) (-236);
   CachedPower 0xC21094364DFB5637 (-821) (-228);
   CachedPower 0x9096EA6F3848984F (-794) (-220);
   CachedPower 0xD77485CB25823AC7 (-768) (-212);
   CachedPower 0xA086CFCD97BF97F4 (-741) (-204);
   CachedPower 0xEF340A98172AACE5 (-715) (-196);
   CachedPower 0xB23867FB2A35B28E (-688) (-188);
   CachedPower 0x84C8D4DFD2C63F3B (-661) (-180);
   CachedPower 0xC5DD44271AD3CDBA (-635) (-172);
   CachedPower 0x936B9FCEBB25C996 (-608) (-164);
   CachedPower 0xDBAC6C247D62A584 (-582) (-156);
   CachedPower 0xA3AB66580D5FDAF6 (-555) (-148);
   CachedPower 0xF3E2F893DEC3F126 (-529) (-140);
   CachedPower 0xB5B5ADA8AAFF80B8 (-502) (-132);
   CachedPower 0x87625F056C7C4A8B (-475) (-124);
   CachedPower 0xC9BCFF6034C13053 (-449) (-116);
   CachedPower 0x964E858C91BA2655 (-422) (-108);
   CachedPower 0xDFF9772470297EBD (-396) (-100);
   CachedPower 0xA6DFBD9FB8E5B88F (-369) (-92);
   CachedPower 0xF8A95FCF88747D94 (-343) (-84);
   CachedPower 0xB94470938FA89BCF (-316) (-76);
   CachedPower 0x8A08F0F8BF0F156B (-289) (-68);
   CachedPower 0xCDB02555653131B6 (-263) (-60);
   CachedPower 0x993FE2C6D07B7FAC (-236) (-52);
   CachedPower 0xE45C10C42A2B3B06 (-210) (-44);
   CachedPower 0xAA242499697392D3 (-183) (-36);
   CachedPower 0xFD87B5F28300CA0E (-157) (-28);
   CachedPower 0xBCE5086492111AEB (-130) (-20);
   CachedPower 0x8CBCCC096F5088CC (-103) (-12);
   CachedPower 0xD1B71758E219652C (-77) (-4);
   CachedPower 0x9C40000000000000 (-50) 4;
   CachedPower 0xE8D4A51000000000 (-24) 12;
   CachedPower 0xAD78EBC5AC620000 3 20;
   CachedPower 0x813F3978F8940984 30 28;
   CachedPower 0xC097CE7BC90715B3 56 36;
   CachedPower 0x8F7E32CE7BEA5C70 83 44;
   CachedPower 0xD5D238A4ABE98068 109 52;
   CachedPower 0x9F4F2726179A2245 136 60;
   CachedPower 0xED63A231D4C4FB27 162 68;
   CachedPower 0xB0DE65388CC8ADA8 189 76;
   CachedPower 0x83C7088E1AAB65DB 216 84;
   CachedPower 0xC45D1DF942711D9A 242 92;
   CachedPower 0x924D692CA61BE758 269 100;
   CachedPower 0xDA01EE641A708DEA 295 108;
   CachedPower 0xA26DA3999AEF774A 322 116;
   CachedPower 0xF209787BB47D6B85 348 124;
   CachedPower 0xB454E4A179DD1877 375 132;
   CachedPower 0x865B86925B9BC5C2 402 140;
   CachedPower 0xC83553C5C8965D3D 428 148;
   CachedPower 0x952AB45CFA97A0B3 455 156;
   CachedPower 0xDE469FBD99A05FE3 481 164;
   CachedPower 0xA59BC234DB398C25 508 172;
   CachedPower 0xF6C69A72A3989F5C 534 180;
   CachedPower 0xB7DCBF5354E9BECE 561 188;
   CachedPower 0x88FCF317F22241E2 588 196;
   CachedPower 0xCC20CE9BD35C78A5 614 204;
   CachedPower 0x98165AF37B2153DF 641 212;
   CachedPower 0xE2A0B5DC971F303A 667 220;
   CachedPower 0xA8D9D1535CE3B396 694 228;
   CachedPower 0xFB9B7CD9A4A7443C 720 236;
   CachedPower 0xBB764C4CA7A44410 747 244;
   CachedPower 0x8BAB8EEFB6409C1A 774 252;
   CachedPower 0xD01FEF10A657842C 800 260;
   CachedPower 0x9B10A4E5E9913129 827 268;
   CachedPower 0xE7109BFBA19C0C9D 853 276;
   CachedPower 0xAC2820D9623BF429 880 284;
   CachedPower 0x80444B5E7AA7CF85 907 292;
   CachedPower 0xBF21E44003ACDD2D 933 300;
   CachedPower 0x8E679C2F5E44FF8F 960 308;
   CachedPower 0xD433179D9C8CB841 986 316;
   CachedPower 0x9E19DB92B4E31BA9 1013 324].

Definition get_cached_power_for_binary_exponent (e : Z) : outcome cached_power :=
  _ ← json_assert (-1500 <=? e);
  _ ← json_assert (e <=? 1500);
  let f := kAlpha - e - 1 in
  let k := Z.quot (f * 78913) (2 ^ 18) + (if 0 <? f then 1 else 0) in
  let index := Z.quot (- kCachedPowersMinDecExp + k + (kCachedPowersDecStep - 1))
                 kCachedPowersDecStep in
  _ ← json_assert (0 <=? index);
  _ ← json_assert (index <? zlen kCachedPowers);
  cached ← vget kCachedPowers index;
  _ ← json_assert (kAlpha <=? ce cached + e + 64);
  _ ← json_assert (ce cached + e + 64 <=? kGamma);
  Ret cached.

(** ** The digits *)

(** The number of digits of [n] and the power of ten of the first one. *)
Definition find_largest_pow10 (n : Z) : Z * Z :=
  if 1000000000 <=? n then (10, 1000000000)
  else if 100000000 <=? n then (9, 100000000)
  else if 10000000 <=? n then (8, 10000000)
  else if 1000000 <=? n then (7, 1000000)
  else if 100000 <=? n then (6, 100000)
  else if 10000 <=? n then (5, 10000)
  else if 1000 <=? n then (4, 1000)
  else if 100 <=? n then (3, 100)
  else if 10 <=? n then (2, 10)
  else (1, 1).

(** One turn of the loop that decrements the last digit, at [last]. *)
Definition grisu2_round_step (last dist delta ten_k : Z) (st : list Z * Z)
    : outcome (control (list Z * Z) (list Z)) :=
  let '(b, rest) := st in
  if (rest <? dist) && (ten_k <=? u64 (delta - rest))
     && ((u64 (rest + ten_k) <? dist) || (u64 (u64 (rest + ten_k) - dist) <? u64 (dist - rest)))
  then
    c ← vget b last;
    _ ← json_assert (negb (c =? ch "0"));
    b ← vset b last (c - 1);
    Ret (Continue (b, u64 (rest + ten_k)))
  else Ret (Break b).

(** A digit is decremented at most nine times. *)
Definition grisu2_round (b : list Z) (buf len dist delta rest ten_k : Z) : outcome (list Z) :=
  _ ← json_assert (1 <=? len);
  _ ← json_assert (dist <=? delta);
  _ ← json_assert (rest <=? delta);
  _ ← json_assert (0 <? ten_k);
  while_loop 10 (grisu2_round_step (buf + len - 1) dist delta ten_k) (b, rest).

(** What a loop that may return from the function leaves: the buffer, the
    length and the decimal exponent that the function returns, or the buffer
    and the length behind the loop. *)
Inductive digits_result :=
  | Returned (b : list Z) (length decimal_exponent : Z)
  | Fell (b : list Z) (length : Z).

Record integral := Integral
  { i_b : list Z; i_length : Z; i_p1 : Z; i_n : Z; i_pow10 : Z }.

(** One turn of the loop over the digits of the integral part, where the
    exponent of [one] is [- shift]. *)
Definition integral_step (buffer shift p2 delta dist decimal_exponent : Z) (st : integral)
    : outcome (control integral digits_result) :=
  if 0 <? i_n st
  then
    let d := i_p1 st / i_pow10 st in
    let r := i_p1 st mod i_pow10 st in
    _ ← json_assert (d <=? 9);
    b ← vset (i_b st) (buffer + i_length st) (ch "0" + d);
    let length := i_length st + 1 in
    let p1 := r in
    let n := i_n st - 1 in
    high ← shl64 p1 shift;
    let rest := u64 (high + p2) in
    if rest <=? delta
    then
      ten_n ← shl64 (i_pow10 st) shift;
      b ← grisu2_round b buffer length dist delta rest ten_n;
      Ret (Break (Returned b length (decimal_exponent + n)))
    else Ret (Continue (Integral b length p1 n (i_pow10 st / 10)))
  else Ret (Break (Fell (i_b st) (i_length st))).

Record fractional := Fractional
  { f_b : list Z; f_length : Z; f_p2 : Z; f_delta : Z; f_dist : Z; f_m : Z }.

(** One turn of the loop over the digits of the fractional part. *)
Definition fractional_step (buffer shift one_f : Z) (st : fractional)
    : outcome (control fractional fractional) :=
  _ ← json_assert (f_p2 st <=? ULLONG_MAX / 10);
  let p2 := u64 (f_p2 st * 10) in
  d ← shr64 p2 shift;
  let r := Z.land p2 (one_f - 1) in
  _ ← json_assert (d <=? 9);
  b ← vset (f_b st) (buffer + f_length st) (ch "0" + d);
  let st' := Fractional b (f_length st + 1) r (u64 (f_delta st * 10)) (u64 (f_dist st * 10))
               (f_m st + 1) in
  if r <=? f_delta st' then Ret (Break st') else Ret (Continue st').

(** The buffer, the length and the decimal exponent.  An integral part of 32
    bits has at most ten digits, and a fraction of at most 60 bits less than
    twenty. *)
Definition grisu2_digit_gen (b : list Z) (buffer length decimal_exponent : Z)
    (M_minus w M_plus : diyfp) : outcome (list Z * Z * Z) :=
  _ ← json_assert (kAlpha <=? de M_plus);
  _ ← json_assert (de M_plus <=? kGamma);
  delta ← diyfp_sub M_plus M_minus;
  dist ← diyfp_sub M_plus w;
  let shift := - de M_plus in
  one_f ← shl64 1 shift;
  p1 ← shr64 (df M_plus) shift;
  let p1 := u32 p1 in
  let p2 := Z.land (df M_plus) (one_f - 1) in
  _ ← json_assert (0 <? p1);
  let '(k, pow10) := find_largest_pow10 p1 in
  res ← while_loop 11 (integral_step buffer shift p2 (df delta) (df dist) decimal_exponent)
          (Integral b length p1 k pow10);
  match res with
  | Returned b length decimal_exponent => Ret (b, length, decimal_exponent)
  | Fell b length =>
      _ ← json_assert (df delta <? p2);
      st ← while_loop 20 (fractional_step buffer shift one_f)
             (Fractional b length p2 (df delta) (df dist) 0);
      b ← grisu2_round (f_b st) buffer (f_length st) (f_dist st) (f_delta st) (f_p2 st) one_f;
      Ret (b, f_length st, decimal_exponent - f_m st)
  end.

Definition grisu2_scaled (b : list Z) (buf len : Z) (m_minus v m_plus : diyfp)
    : outcome (list Z * Z * Z) :=
  _ ← json_assert (de m_plus =? de m_minus);
  _ ← json_assert (de m_plus =? de v);
  cached ← get_cached_power_for_binary_exponent (de m_plus);
  let c_minus_k := Diyfp (cf cached) (ce cached) in
  let w := diyfp_mul v c_minus_k in
  let w_minus := diyfp_mul m_minus c_minus_k in
  let w_plus := diyfp_mul m_plus c_minus_k in
  let M_minus := Diyfp (u64 (df w_minus + 1)) (de w_minus) in
  let M_plus := Diyfp (u64 (df w_plus - 1)) (de w_plus) in
  grisu2_digit_gen b buf len (- ck cached) M_minus w M_plus.

Definition grisu2 (b : list Z) (buf len value : Z) : outcome (list Z * Z * Z) :=
  _ ← json_assert (isfinite value);
  _ ← json_assert (double_positive value);
  w ← compute_boundaries value;
  grisu2_scaled b buf len (bminus w) (bw w) (bplus w).

(** ** The layout *)

(** [memset] and [memmove] within an array. *)
Definition memset (b : list Z) (at_ c n : Z) : outcome (list Z) :=
  if (0 <=? at_) && (0 <=? n) && (at_ + n <=? zlen b)
  then Ret (take (Z.to_nat at_) b ++ replicate (Z.to_nat n) c ++ drop (Z.to_nat (at_ + n)) b)
  else Undef OutOfBounds.

Definition memmove (b : list Z) (dst src n : Z) : outcome (list Z) :=
  if (0 <=? dst) && (0 <=? src) && (0 <=? n) && (dst + n <=? zlen b) && (src + n <=? zlen b)
  then Ret (take (Z.to_nat dst) b ++ take (Z.to_nat n) (drop (Z.to_nat src) b)
            ++ drop (Z.to_nat (dst + n)) b)
  else Undef OutOfBounds.

(** The array and the pointer behind what is appended. *)
Definition append_exponent (b : list Z) (buf e : Z) : outcome (list Z * Z) :=
  _ ← json_assert (-1000 <? e);
  _ ← json_assert (e <? 1000);
  b ← vset b buf (if e <? 0 then ch "-" else ch "+");
  let buf := buf + 1 in
  let k := Z.abs e in
  if k <? 10
  then
    b ← vset b buf (ch "0");
    b ← vset b (buf + 1) (ch "0" + k);
    Ret (b, buf + 2)
  else if k <? 100
  then
    b ← vset b buf (ch "0" + k / 10);
    b ← vset b (buf + 1) (ch "0" + k mod 10);
    Ret (b, buf + 2)
  else
    b ← vset b buf (ch "0" + k / 100);
    b ← vset b (buf + 1) (ch "0" + k mod 100 / 10);
    b ← vset b (buf + 2) (ch "0" + k mod 100 mod 10);
    Ret (b, buf + 3).

Definition format_buffer (b : list Z) (buf len decimal_exponent min_exp max_exp : Z)
    : outcome (list Z * Z) :=
  _ ← json_assert (min_exp <? 0);
  _ ← json_assert (0 <? max_exp);
  let k := len in
  let n := len + decimal_exponent in
  if (k <=? n) && (n <=? max_exp)
  then
    b ← memset b (buf + k) (ch "0") (n - k);
    b ← vset b (buf + n) (ch ".");
    b ← vset b (buf + n + 1) (ch "0");
    Ret (b, buf + n + 2)
  else if (0 <? n) && (n <=? max_exp)
  then
    _ ← json_assert (n <? k);
    b ← memmove b (buf + n + 1) (buf + n) (k - n);
    b ← vset b (buf + n) (ch ".");
    Ret (b, buf + k + 1)
  else if (min_exp <? n) && (n <=? 0)
  then
    b ← memmove b (buf + 2 + - n) buf k;
    b ← vset b buf (ch "0");
    b ← vset b (buf + 1) (ch ".");
    b ← memset b (buf + 2) (ch "0") (- n);
    Ret (b, buf + 2 + - n + k)
  else
    '(b, buf) ← (if k =? 1 then Ret (b, buf + 1)
                 else
                   b ← memmove b (buf + 2) (buf + 1) (k - 1);
                   b ← vset b (buf + 1) (ch ".");
                   Ret (b, buf + 1 + k));
    b ← vset b buf (ch "e");
    append_exponent b (buf + 1) (n - 1).

(** [std::signbit] and the negation of a double. *)
Definition signbit (value : Z) : bool := Z.testbit value 63.
Definition negate (value : Z) : Z := Z.lxor value (2 ^ 63).

(** The numeral of [value], written from [first] on; the array and the pointer
    behind the numeral. *)
Definition to_chars (b : list Z) (first last value : Z) : outcome (list Z * Z) :=
  _ ← json_assert (isfinite value);
  '(b, first, value) ← (if signbit value
                        then b ← vset b first (ch "-"); Ret (b, first + 1, negate value)
                        else Ret (b, first, value));
  if value =? 0
  then
    b ← vset b first (ch "0");
    b ← vset b (first + 1) (ch ".");
    b ← vset b (first + 2) (ch "0");
    Ret (b, first + 3)
  else
    let max_digits10 := 17 in
    _ ← json_assert (max_digits10 <=? last - first);
    '(b, len, decimal_exponent) ← grisu2 b first 0 value;
    _ ← json_assert (len <=? max_digits10);
    let kMinExp := -4 in
    let kMaxExp := 15 in
    _ ← json_assert (kMaxExp + 2 <=? last - first);
    _ ← json_assert (2 + (- kMinExp - 1) + max_digits10 <=? last - first);
    _ ← json_assert (max_digits10 + 6 <=? last - first);
    format_buffer b first len decimal_exponent kMinExp kMaxExp.

(** The text that [to_chars] writes into an array of 64 characters. *)
Definition to_chars_text (value : Z) : outcome (list Z) :=
  '(b, end_) ← to_chars (replicate 64 0) 0 64 value;
  Ret (take (Z.to_nat end_) b).
