(* ===== verification/JsonDtoaDigits.v ===== *)
(** The digits that Grisu2 generates: the product of two [diyfp]s is the
    rounded product, [diyfp_normalize] and [compute_boundaries] are exact, and
    [grisu2_digit_gen] writes at most seventeen digits of a number between its
    bounds, without leaving its buffer, failing an assertion or wrapping
    around. *)

From Stdlib Require Import ZArith Lia.
From S2P Require Import Prelude JsonValue JsonNumber JsonDtoa.
From stdpp Require Import base decidable option strings list.

Open Scope Z_scope.

(** ** Machine arithmetic *)

Lemma word_small x : 0 <= x < 2 ^ 64 -> u64 x = x.
Proof. apply Z.mod_small. Qed.

Lemma u32_small x : 0 <= x < 2 ^ 32 -> u32 x = x.
Proof. apply Z.mod_small. Qed.

Lemma shl64_small x n :
  0 <= n < 64 -> 0 <= x -> x * 2 ^ n < 2 ^ 64 -> shl64 x n = Ret (x * 2 ^ n).
Proof.
  intros Hn Hx H. unfold shl64. rewrite Z.shiftl_mul_pow2 by lia.
  rewrite (proj2 (Z.leb_le _ _)), (proj2 (Z.ltb_lt _ _)) by lia. simpl.
  rewrite word_small; [done|]. split; [|done]. apply Z.mul_nonneg_nonneg; lia.
Qed.

Lemma shr64_div x n : 0 <= n < 64 -> shr64 x n = Ret (x / 2 ^ n).
Proof.
  intros Hn. unfold shr64. rewrite Z.shiftr_div_pow2 by lia.
  by rewrite (proj2 (Z.leb_le _ _)), (proj2 (Z.ltb_lt _ _)) by lia.
Qed.

Lemma land_mask x n : 0 <= n -> Z.land x (2 ^ n - 1) = x mod 2 ^ n.
Proof. intros Hn. rewrite <- Z.land_ones by done. f_equal. rewrite Z.ones_equiv. lia. Qed.

Lemma assert_true b : b = true -> json_assert b = Ret ().
Proof. by intros ->. Qed.

(** A guard that holds. *)
Ltac passes := rewrite assert_true by (repeat rewrite ?andb_true_iff, ?negb_true_iff,
  ?Z.leb_le, ?Z.ltb_lt, ?Z.eqb_eq, ?Z.eqb_neq; cbn [df de]; lia); bind_ret.

Lemma diyfp_sub_ok x y e :
  0 <= y <= x -> x < 2 ^ 64 -> diyfp_sub (Diyfp x e) (Diyfp y e) = Ret (Diyfp (x - y) e).
Proof.
  intros H Hx. unfold diyfp_sub. do 2 passes. by rewrite word_small by (cbn [df]; lia).
Qed.

(** [diyfp::mul] is the product, rounded to nearest. *)
Lemma diyfp_mul_spec x y ex ey :
  0 <= x < 2 ^ 64 -> 0 <= y < 2 ^ 64 ->
  diyfp_mul (Diyfp x ex) (Diyfp y ey) = Diyfp ((x * y + 2 ^ 63) / 2 ^ 64) (ex + ey + 64).
Proof.
  intros Hx Hy. unfold diyfp_mul. cbn [df de]. f_equal.
  change 0xFFFFFFFF with (2 ^ 32 - 1). rewrite !land_mask, !Z.shiftr_div_pow2 by lia.
  rewrite Z.shiftl_mul_pow2 by lia.
  pose proof (Z.div_mod x (2 ^ 32) ltac:(lia)) as Ex. pose proof (Z.div_mod y (2 ^ 32) ltac:(lia)) as Ey.
  pose proof (Z.mod_pos_bound x (2 ^ 32) ltac:(lia)). pose proof (Z.mod_pos_bound y (2 ^ 32) ltac:(lia)).
  assert (0 <= x / 2 ^ 32 < 2 ^ 32) by (split; [apply Z.div_pos|apply Z.div_lt_upper_bound]; lia).
  assert (0 <= y / 2 ^ 32 < 2 ^ 32) by (split; [apply Z.div_pos|apply Z.div_lt_upper_bound]; lia).
  set (u1 := x / 2 ^ 32) in *. set (u0 := x mod 2 ^ 32) in *.
  set (v1 := y / 2 ^ 32) in *. set (v0 := y mod 2 ^ 32) in *.
  assert (Hb : forall a b, 0 <= a < 2 ^ 32 -> 0 <= b < 2 ^ 32 -> 0 <= a * b <= (2 ^ 32 - 1) * (2 ^ 32 - 1)).
  { intros a b Ha Hb. split; [nia|]. apply Z.mul_le_mono_nonneg; lia. }
  pose proof (Hb u0 v0) as B0. pose proof (Hb u0 v1) as B1.
  pose proof (Hb u1 v0) as B2. pose proof (Hb u1 v1) as B3.
  assert (Exy : x * y = u0 * v0 + 2 ^ 32 * (u0 * v1 + u1 * v0) + 2 ^ 64 * (u1 * v1)).
  { rewrite Ex, Ey. ring. }
  rewrite (word_small (u0 * v0)), (word_small (u0 * v1)), (word_small (u1 * v0)), (word_small (u1 * v1)) by lia.
  rewrite Exy. clear Ex Ey Exy Hb.
  generalize dependent (u0 * v0). generalize dependent (u0 * v1).
  generalize dependent (u1 * v0). generalize dependent (u1 * v1). clearbody u0 u1 v0 v1.
  intros p3 B3 p2 B2 p1 B1 p0 B0.
  pose proof (Z.div_mod p0 (2 ^ 32) ltac:(lia)). pose proof (Z.mod_pos_bound p0 (2 ^ 32) ltac:(lia)).
  pose proof (Z.div_mod p1 (2 ^ 32) ltac:(lia)). pose proof (Z.mod_pos_bound p1 (2 ^ 32) ltac:(lia)).
  pose proof (Z.div_mod p2 (2 ^ 32) ltac:(lia)). pose proof (Z.mod_pos_bound p2 (2 ^ 32) ltac:(lia)).
  rewrite (word_small (p0 / 2 ^ 32 + _ + _)) by lia.
  rewrite (word_small (_ + 1 * 2 ^ 31)) by lia.
  set (Q := p0 / 2 ^ 32 + p1 mod 2 ^ 32 + p2 mod 2 ^ 32 + 1 * 2 ^ 31).
  pose proof (Z.div_mod Q (2 ^ 32) ltac:(lia)). pose proof (Z.mod_pos_bound Q (2 ^ 32) ltac:(lia)).
  rewrite word_small by lia.
  apply Z.div_unique with (r := 2 ^ 32 * (Q mod 2 ^ 32) + p0 mod 2 ^ 32); lia.
Qed.

(** [diyfp::normalize] *)
Lemma normalize_loop s : forall fuel f e,
  0 < f -> 2 ^ 63 <= f * 2 ^ Z.of_nat s < 2 ^ 64 -> (s < fuel)%nat ->
  while_loop fuel normalize_step (Diyfp f e)
  = Ret (Diyfp (f * 2 ^ Z.of_nat s) (e - Z.of_nat s)).
Proof.
  induction s as [|s IH]; intros [|fuel] f e Hf Hs Hfuel; try lia.
  - change (Z.of_nat 0) with 0 in *. rewrite Z.pow_0_r, Z.mul_1_r in Hs.
    erewrite while_loop_break; [by rewrite Z.pow_0_r, Z.mul_1_r, Z.sub_0_r|].
    unfold normalize_step. cbn [df]. rewrite Z.shiftr_div_pow2 by lia.
    rewrite (proj2 (Z.eqb_neq _ _)); [done|].
    assert (1 <= f / 2 ^ 63) by (apply Z.div_le_lower_bound; lia). lia.
  - rewrite Nat2Z.inj_succ, Z.pow_succ_r in Hs |- * by lia.
    assert (0 < 2 ^ Z.of_nat s) by (apply Z.pow_pos_nonneg; lia).
    assert (f < 2 ^ 63) by nia.
    erewrite while_loop_continue.
    2: { unfold normalize_step. cbn [df de].
      rewrite Z.shiftr_div_pow2, Z.div_small by lia. cbn [Z.eqb].
      rewrite Z.shiftl_mul_pow2, word_small by lia. reflexivity. }
    rewrite IH by lia. do 2 f_equal; lia.
Qed.

Definition leading_zeros (f : Z) : Z := 63 - Z.log2 f.

Lemma leading_zeros_spec f :
  0 < f < 2 ^ 64 ->
  0 <= leading_zeros f < 64 /\ 2 ^ 63 <= f * 2 ^ leading_zeros f < 2 ^ 64.
Proof.
  intros Hf. unfold leading_zeros. pose proof (Z.log2_spec f ltac:(lia)) as [H1 H2].
  pose proof (Z.log2_nonneg f).
  assert (Z.log2 f < 64) by (apply Z.log2_lt_pow2; lia).
  split; [lia|].
  assert (E63 : 2 ^ 63 = 2 ^ Z.log2 f * 2 ^ (63 - Z.log2 f)).
  { rewrite <- Z.pow_add_r by lia. f_equal. lia. }
  assert (E64 : 2 ^ 64 = 2 ^ Z.succ (Z.log2 f) * 2 ^ (63 - Z.log2 f)).
  { rewrite <- Z.pow_add_r by lia. f_equal. lia. }
  assert (0 < 2 ^ (63 - Z.log2 f)) by (apply Z.pow_pos_nonneg; lia).
  rewrite E63, E64. nia.
Qed.

Lemma normalize_ok f e :
  0 < f < 2 ^ 64 ->
  diyfp_normalize (Diyfp f e) = Ret (Diyfp (f * 2 ^ leading_zeros f) (e - leading_zeros f)).
Proof.
  intros Hf. destruct (leading_zeros_spec f Hf) as [H1 H2].
  unfold diyfp_normalize. passes.
  rewrite (normalize_loop (Z.to_nat (leading_zeros f))); rewrite ?Z2Nat.id; try lia. done.
Qed.

Lemma normalize_to_ok f e t :
  0 <= f -> 0 <= e - t < 64 -> f * 2 ^ (e - t) < 2 ^ 64 ->
  diyfp_normalize_to (Diyfp f e) t = Ret (Diyfp (f * 2 ^ (e - t)) t).
Proof.
  intros Hf Ht H. unfold diyfp_normalize_to. cbn [df de]. passes.
  rewrite shl64_small by lia. bind_ret. rewrite shr64_div by lia. bind_ret.
  rewrite Z.div_mul by (apply Z.pow_nonzero; lia). by passes.
Qed.

(** ** The boundaries *)

(** The significand and the exponent of a double that is positive and finite. *)
Definition significand (bits : Z) : Z :=
  let E := bits / 2 ^ 52 in let F := bits mod 2 ^ 52 in
  if E =? 0 then F else F + 2 ^ 52.
Definition exponent (bits : Z) : Z := Z.max 1 (bits / 2 ^ 52) - 1075.

(** The lower neighbour is half as far as the upper one. *)
Definition closer (bits : Z) : bool := (bits mod 2 ^ 52 =? 0) && (1 <? bits / 2 ^ 52).

Definition positive_finite (bits : Z) : Prop := 0 < bits < inf_bits.

Lemma positive_finite_exponent bits :
  positive_finite bits -> 0 <= bits / 2 ^ 52 <= 2046.
Proof.
  unfold positive_finite, inf_bits. intros H.
  split; [apply Z.div_pos; lia|]. assert (bits / 2 ^ 52 < 2047); [|lia].
  apply Z.div_lt_upper_bound; lia.
Qed.

Lemma positive_finite_ok bits :
  positive_finite bits -> isfinite bits = true /\ double_positive bits = true.
Proof.
  intros H. pose proof (positive_finite_exponent bits H) as HE.
  unfold positive_finite, inf_bits in H. split.
  - unfold isfinite. rewrite Z.shiftr_div_pow2 by lia.
    change 0x7FF with (2 ^ 11 - 1). rewrite land_mask, Z.mod_small by lia.
    rewrite (proj2 (Z.eqb_neq _ _)); [done|lia].
  - unfold double_positive. by rewrite !(proj2 (Z.ltb_lt _ _)) by lia.
Qed.

Lemma significand_spec bits :
  positive_finite bits ->
  let f := significand bits in let e := exponent bits in
  0 < f < 2 ^ 53 /\ -1074 <= e <= 971 /\ bits = (e + 1074) * 2 ^ 52 + f /\
  (e = -1074 \/ 2 ^ 52 <= f) /\ (closer bits = true <-> f = 2 ^ 52 /\ -1074 < e).
Proof.
  intros H. pose proof (positive_finite_exponent bits H) as HE.
  unfold positive_finite, significand, exponent, closer in *. cbv zeta.
  pose proof (Z.div_mod bits (2 ^ 52) ltac:(lia)). pose proof (Z.mod_pos_bound bits (2 ^ 52) ltac:(lia)).
  rewrite andb_true_iff, Z.eqb_eq, Z.ltb_lt. destruct (Z.eqb_spec (bits / 2 ^ 52) 0); lia.
Qed.

(** The boundaries over a common exponent. *)
Definition lower (bits : Z) (s : Z) : Z :=
  let f := significand bits in
  if closer bits then (4 * f - 1) * 2 ^ (s - 1) else (2 * f - 1) * 2 ^ s.

Lemma leading_zeros_double bits :
  positive_finite bits ->
  let f := significand bits in let s := leading_zeros (2 * f + 1) in
  10 <= s <= 62 /\ leading_zeros f = s + 1 /\ 2 ^ 63 <= (2 * f + 1) * 2 ^ s < 2 ^ 64.
Proof.
  intros H. destruct (significand_spec bits H) as (Hf & _). cbv zeta in *.
  set (f := significand bits) in *.
  destruct (leading_zeros_spec (2 * f + 1) ltac:(lia)) as [H1 H2].
  unfold leading_zeros in *. rewrite Z.log2_succ_double by lia.
  assert (Z.log2 f < 53) by (apply Z.log2_lt_pow2; lia).
  pose proof (Z.log2_nonneg f). rewrite Z.log2_succ_double in H2 by lia. lia.
Qed.

Lemma compute_boundaries_ok bits :
  positive_finite bits ->
  let f := significand bits in
  let s := leading_zeros (2 * f + 1) in
  let e := exponent bits - 1 - s in
  compute_boundaries bits
  = Ret (Boundaries (Diyfp (2 * f * 2 ^ s) e) (Diyfp (lower bits s) e)
           (Diyfp ((2 * f + 1) * 2 ^ s) e)).
Proof.
  intros H. destruct (leading_zeros_double bits H) as (Hs & Hz & Hn).
  destruct (significand_spec bits H) as (Hf & He & Eb & Hd & Hc). cbv zeta in *.
  destruct (positive_finite_ok bits H) as [Hfin Hpos].
  unfold compute_boundaries. rewrite (assert_true _ Hfin), (assert_true _ Hpos). bind_ret.
  change (kPrecision - 1) with 52. change (kHiddenBit - 1) with (2 ^ 52 - 1).
  change kHiddenBit with (2 ^ 52). change kMinExp with (-1074). change kBias with 1075.
  rewrite land_mask, Z.shiftr_div_pow2 by lia.
  set (f := significand bits) in *. set (s := leading_zeros (2 * f + 1)) in *.
  replace (if bits / 2 ^ 52 =? 0 then Diyfp (bits mod 2 ^ 52) (-1074)
           else Diyfp (bits mod 2 ^ 52 + 2 ^ 52) (bits / 2 ^ 52 - 1075))
    with (Diyfp f (exponent bits)).
  2: { subst f. unfold significand, exponent.
    pose proof (positive_finite_exponent bits H). destruct (Z.eqb_spec (bits / 2 ^ 52) 0); f_equal; lia. }
  cbn [df de]. rewrite (word_small (2 * f + 1)), (normalize_ok (2 * f + 1)) by lia. bind_ret.
  fold s. cbn [df de].
  fold (closer bits). unfold lower. fold f.
  assert (E2 : 2 ^ s = 2 * 2 ^ (s - 1)).
  { rewrite <- Z.pow_succ_r by lia. f_equal. lia. }
  assert (0 < 2 ^ (s - 1)) by (apply Z.pow_pos_nonneg; lia).
  assert (Ev : f * 2 ^ leading_zeros f = 2 * f * 2 ^ s) by (rewrite Hz, Z.pow_add_r; lia).
  assert (H4 : (4 * f - 1) * 2 ^ (s - 1) <= (2 * f + 1) * 2 ^ s).
  { rewrite E2. clear -H0. generalize dependent (2 ^ (s - 1)). intros. lia. }
  assert (H2 : (2 * f - 1) * 2 ^ s <= (2 * f + 1) * 2 ^ s) by (apply Z.mul_le_mono_nonneg_r; lia).
  assert (Ee : exponent bits - leading_zeros f = exponent bits - 1 - s) by lia.
  destruct (closer bits).
  - assert (Es : exponent bits - 2 - (exponent bits - 1 - s) = s - 1) by lia.
    rewrite word_small, normalize_to_ok; rewrite ?Es; try lia.
    bind_ret. rewrite normalize_ok by lia. bind_ret. by rewrite Ev, Ee.
  - assert (Es : exponent bits - 1 - (exponent bits - 1 - s) = s) by lia.
    rewrite word_small, normalize_to_ok; rewrite ?Es; try lia.
    bind_ret. rewrite normalize_ok by lia. bind_ret. by rewrite Ev, Ee.
Qed.

(** ** The buffer *)

Section Buffer.
(** What stands before the digits, and the room from there on. *)
Context (pre : list Z) (room : Z).

Definition holds (b ds : list Z) : Prop :=
  exists rest, b = pre ++ ds ++ rest /\ zlen ds + zlen rest = room.

Lemma holds_write b ds c :
  holds b ds -> zlen ds < room ->
  exists b', vset b (zlen pre + zlen ds) c = Ret b' /\ holds b' (ds ++ [c]).
Proof.
  intros (rest & -> & Hr) Hlt. destruct rest as [|c0 rest]; [len|].
  eexists. split; [apply vset_in_range; len|]. exists rest. split; [|len].
  rewrite app_assoc, insert_app_r_alt by len.
  replace (_ - _)%nat with O by len. simpl. by rewrite <- !app_assoc.
Qed.

Lemma holds_last b ds c c' :
  holds b (ds ++ [c]) ->
  vget b (zlen pre + zlen ds) = Ret c /\
  exists b', vset b (zlen pre + zlen ds) c' = Ret b' /\ holds b' (ds ++ [c']).
Proof.
  intros (rest & -> & Hr). rewrite <- !app_assoc. split.
  { apply vget_Ret. split; [len|]. rewrite app_assoc, lookup_app_r by len.
    by replace (_ - _)%nat with O by len. }
  eexists. split; [apply vset_in_range; len|]. exists rest. split; [|len].
  rewrite app_assoc, insert_app_r_alt by len.
  replace (_ - _)%nat with O by len. simpl. by rewrite <- !app_assoc.
Qed.

(** [grisu2_round] takes the last digit down while the number stays above the
    lower bound; the digit does not reach zero when the number without it is
    below the bound. *)
Lemma grisu2_round_ok b ds d dist delta rest ten_k :
  holds b (ds ++ [0x30 + d]) -> 0 <= d <= 9 -> 0 <= rest <= delta -> 0 <= dist <= delta ->
  delta < 2 ^ 64 -> 0 < ten_k -> delta < rest + d * ten_k ->
  exists b' j, grisu2_round b (zlen pre) (zlen ds + 1) dist delta rest ten_k = Ret b' /\
    0 <= j <= d /\ holds b' (ds ++ [0x30 + (d - j)]) /\ rest + j * ten_k <= delta.
Proof.
  intros Hb Hd Hrest Hdist Hdelta Hten Hbelow. pose proof (zlen_nonneg ds).
  unfold grisu2_round. do 4 passes.
  replace (zlen pre + (zlen ds + 1) - 1) with (zlen pre + zlen ds) by lia.
  destruct (while_loop_total
    (fun st => exists j, 0 <= j <= d /\ holds st.1 (ds ++ [0x30 + (d - j)]) /\
                 st.2 = rest + j * ten_k /\ st.2 <= delta)
    (fun st => Z.to_nat ((delta - st.2) / ten_k))
    (fun b' => exists j, 0 <= j <= d /\ holds b' (ds ++ [0x30 + (d - j)]) /\ rest + j * ten_k <= delta)
    (grisu2_round_step (zlen pre + zlen ds) dist delta ten_k) 10 (b, rest))
    as (b' & Hl & j & Hj); [| | |by exists b', j].
  - exists 0. simpl. rewrite Z.sub_0_r. split_and!; [lia..|done|lia|lia].
  - intros [b1 r1] (j & Hj & Hb1 & Hr1 & Hle). cbn [fst snd] in *. unfold grisu2_round_step.
    destruct (holds_last b1 ds _ (0x30 + (d - j) - 1) Hb1) as (Hget & b2 & Hset & Hb2).
    destruct (_ && _) eqn:Ht; [|apply returns_ret; exists j; split_and!; [lia..|done|lia]].
    rewrite !andb_true_iff, Z.ltb_lt, Z.leb_le in Ht. destruct Ht as [[_ Ht] _].
    rewrite word_small in Ht by nia.
    assert (j < d).
    { destruct (Z.eq_dec j d) as [->|]; lia. }
    rewrite Hget. bind_ret. passes. rewrite Hset. bind_ret.
    apply returns_ret. rewrite word_small by nia. split.
    + exists (j + 1). split_and!; [lia..| |cbn [snd]; lia|cbn [snd]; lia].
      replace (0x30 + (d - (j + 1))) with (0x30 + (d - j) - 1) by lia. done.
    + cbn [snd]. assert (1 <= (delta - r1) / ten_k) by (apply Z.div_le_lower_bound; lia).
      replace (delta - (r1 + ten_k)) with (delta - r1 + (-1) * ten_k) by lia.
      rewrite Z.div_add by lia. lia.
  - assert ((delta - rest) / ten_k < 10); [|cbn [snd]; lia]. apply Z.div_lt_upper_bound; nia.
Qed.

(** ** The loops *)

Definition numeral (ds : list Z) : Prop := Forall (fun c => is_digit c = true) ds.
Definition leading (ds : list Z) : Prop := exists c l, ds = c :: l /\ 0x31 <= c <= 0x39.

Lemma numeral_snoc ds d : numeral ds -> 0 <= d <= 9 -> numeral (ds ++ [0x30 + d]).
Proof. intros H Hd. apply Forall_app. split; [done|]. repeat constructor. apply is_digit_spec. lia. Qed.

Lemma leading_snoc ds d : ds = [] \/ leading ds -> 1 <= d <= 9 -> leading (ds ++ [0x30 + d]).
Proof.
  intros [->|(c & l & -> & Hc)] Hd; [exists (0x30 + d), []; split; [done|lia]|].
  by exists c, (l ++ [0x30 + d]).
Qed.

Lemma leading_app ds l : leading ds -> leading (ds ++ l).
Proof. intros (c & k & -> & Hc). by exists c, (k ++ l). Qed.

Lemma snoc_value ds d : decimal_value (ds ++ [0x30 + d]) = decimal_value ds * 10 + d.
Proof. rewrite decimal_value_snoc. lia. Qed.

Lemma numeral_nonneg ds : numeral ds -> 0 <= decimal_value ds.
Proof.
  induction ds as [|c ds IH] using rev_ind; [done|]. intros [H Hc]%Forall_app.
  rewrite decimal_value_snoc. apply Forall_cons in Hc as [Hc%is_digit_spec _].
  specialize (IH H). lia.
Qed.

Lemma leading_value ds : numeral ds -> leading ds -> 1 <= decimal_value ds.
Proof.
  intros H (c & l & -> & Hc). apply Forall_cons in H as [_ H].
  unfold decimal_value. cbn [foldl]. rewrite foldl_digits_acc.
  pose proof (numeral_nonneg l H).
  assert (0 < 10 ^ zlen l) by (apply Z.pow_pos_nonneg; [lia|apply zlen_nonneg]).
  unfold digit_value. nia.
Qed.

(** The digits [ds] in units of [u] stand for a number between the bounds
    [P - delta] and [P], both scaled by [a]. *)
Definition in_bounds (P delta a u : Z) (ds : list Z) : Prop :=
  numeral ds /\ leading ds /\ (P - delta) * a <= decimal_value ds * u <= P * a.

Lemma round_between P delta a u b ds d dist rest :
  holds b (ds ++ [0x30 + d]) -> numeral ds -> ds = [] \/ leading ds -> 0 <= d <= 9 ->
  (decimal_value ds * 10 + d) * u + rest = P * a -> 0 <= rest <= delta * a ->
  delta * a < rest + d * u -> 0 <= dist <= delta * a -> delta * a < 2 ^ 64 -> 0 < u ->
  exists b' ds', grisu2_round b (zlen pre) (zlen ds + 1) dist (delta * a) rest u = Ret b' /\
    holds b' ds' /\ zlen ds' = zlen ds + 1 /\ in_bounds P delta a u ds'.
Proof.
  intros Hb Hn Hl Hd HP Hrest Hbelow Hdist Hdelta Hu.
  destruct (grisu2_round_ok b ds d dist (delta * a) rest u) as (b' & j & Hr & Hj & Hb' & Hle); try done.
  assert (j < d) by nia.
  exists b', (ds ++ [0x30 + (d - j)]). split_and!; [done|done|len|].
  split_and!; [apply numeral_snoc; [done|lia]|apply leading_snoc; [done|lia]|..]; rewrite snoc_value; nia.
Qed.

Section Generation.
Context (P shift delta dist : Z).
Hypotheses (Hshift : 32 <= shift <= 60) (HP : 2 ^ 61 <= P < 2 ^ 64)
  (Hdelta : 0 < delta < P) (Hdist : 0 <= dist <= delta) (Hroom : 17 <= room).

Context (one p2 k : Z).
Hypotheses (Eone : one = 2 ^ shift) (Ep2 : p2 = P mod one)
  (Ek : k = (find_largest_pow10 (P / one)).1).

Lemma one_bounds : 2 ^ 32 <= one <= 2 ^ 60.
Proof. rewrite Eone. split; apply Z.pow_le_mono_r; lia. Qed.

Lemma shl_one x : 0 <= x -> x * one < 2 ^ 64 -> shl64 x shift = Ret (x * one).
Proof. rewrite Eone. intros. apply shl64_small; lia. Qed.

Lemma integral_part : 0 < P / one < 2 ^ 32 /\ P = P / one * one + p2 /\ 0 <= p2 < one.
Proof.
  pose proof one_bounds. rewrite Ep2. pose proof (Z.div_mod P one ltac:(lia)).
  pose proof (Z.mod_pos_bound P one ltac:(lia)). split; [|lia]. split.
  - apply Z.div_str_pos. lia.
  - apply Z.div_lt_upper_bound; lia.
Qed.

Lemma find_largest_pow10_ok n :
  0 < n < 2 ^ 32 ->
  let (k, pow10) := find_largest_pow10 n in
  1 <= k <= 10 /\ pow10 = 10 ^ (k - 1) /\ 10 ^ (k - 1) <= n < 10 ^ k.
Proof.
  intros Hn. unfold find_largest_pow10.
  repeat match goal with |- context [?a <=? n] => destruct (Z.leb_spec a n) end;
  split_and!; try reflexivity; cbn; lia.
Qed.

Lemma pow10_pred n : 0 < n -> 10 ^ n = 10 * 10 ^ (n - 1).
Proof. intros Hn. rewrite <- Z.pow_succ_r by lia. f_equal. lia. Qed.

Definition integral_inv (st : integral) : Prop := exists ds,
  holds (i_b st) ds /\ i_length st = zlen ds /\ zlen ds + i_n st = k /\ 0 <= i_n st /\
  (0 < i_n st -> i_pow10 st = 10 ^ (i_n st - 1)) /\ 0 <= i_p1 st < 10 ^ i_n st /\
  decimal_value ds * (10 ^ i_n st * one) + (i_p1 st * one + p2) = P /\
  delta < i_p1 st * one + p2 /\ numeral ds /\
  (ds = [] /\ 10 ^ (k - 1) <= i_p1 st \/ leading ds).

(** The loop returned with the digits, or fell through to the fraction. *)
Definition integral_post (ex : Z) (res : digits_result) : Prop :=
  match res with
  | Returned b len e => exists ds n, holds b ds /\ len = zlen ds /\ e = ex + n /\ 0 <= n <= 9 /\
      zlen ds <= 10 /\ in_bounds P delta 1 (10 ^ n * one) ds
  | Fell b len => exists ds, holds b ds /\ len = zlen ds /\ zlen ds = k /\
      decimal_value ds * one + p2 = P /\ delta < p2 /\ numeral ds /\ leading ds
  end.

Lemma integral_step_ok ex st :
  1 <= k <= 10 -> integral_inv st ->
  returns (integral_step (zlen pre) shift p2 delta dist ex st) (fun c =>
    match c with
    | Continue st' => integral_inv st' /\ (Z.to_nat (i_n st') < Z.to_nat (i_n st))%nat
    | Break r => integral_post ex r
    end).
Proof.
  intros Hk (ds & Hb & Hlen & Hkn & Hn0 & Hpow & Hp1 & Hval & Hgt & Hnum & Hlead).
  destruct st as [b len p1 n pow10]. cbn [i_b i_length i_p1 i_n i_pow10] in *.
  pose proof one_bounds as Hone. destruct integral_part as (Hip & EP & Hp2).
  pose proof (zlen_nonneg ds). unfold integral_step. cbn [i_b i_length i_p1 i_n i_pow10].
  destruct (Z.ltb_spec 0 n).
  2: { assert (n = 0) as -> by lia. rewrite Z.pow_0_r in *. assert (p1 = 0) as -> by lia.
    apply returns_ret. exists ds. split_and!; try done; try lia.
    destruct Hlead as [[-> Hlead]|]; [|done]. exfalso. change (zlen []) with 0 in Hkn. lia. }
  rewrite Hpow by lia. assert (E10 := pow10_pred n ltac:(lia)).
  assert (0 < 10 ^ (n - 1)) as Hpos by (apply Z.pow_pos_nonneg; lia).
  set (u := 10 ^ (n - 1)) in *.
  pose proof (Z.div_mod p1 u ltac:(lia)) as Ed. pose proof (Z.mod_pos_bound p1 u Hpos) as Hr.
  set (d := p1 / u) in *. set (r := p1 mod u) in *. clearbody d r.
  assert (0 <= d <= 9) by nia.
  assert (Hv : (decimal_value ds * 10 + d) * (u * one) + (r * one + p2) = P).
  { rewrite <- Hval, E10, Ed. ring. }
  assert (0 <= decimal_value ds) by (apply numeral_nonneg; done).
  assert (0 <= (decimal_value ds * 10 + d) * (u * one)).
  { apply Z.mul_nonneg_nonneg; [lia|]. apply Z.mul_nonneg_nonneg; lia. }
  assert (0 <= r * one) by (apply Z.mul_nonneg_nonneg; lia).
  passes. rewrite Hlen.
  destruct (holds_write b ds (0x30 + d) Hb ltac:(lia)) as (b' & -> & Hb'). bind_ret.
  rewrite (shl_one r) by lia. bind_ret. rewrite word_small by lia.
  destruct (Z.leb_spec (r * one + p2) delta) as [Hle|Hlt].
  - assert (Hd0 : p1 * one = d * (u * one) + r * one) by (rewrite Ed at 1; ring).
    assert (Hu : u * one <= P).
    { destruct Hlead as [[-> Hl]|Hl].
      - change (zlen []) with 0 in Hkn. replace (k - 1) with (n - 1) in Hl by lia. fold u in Hl.
        change (decimal_value []) with 0 in Hval.
        assert (u * one <= p1 * one) by (apply Z.mul_le_mono_nonneg_r; lia). lia.
      - assert (1 <= decimal_value ds) by (by apply leading_value).
        assert (1 * (u * one) <= (decimal_value ds * 10 + d) * (u * one)); [|lia].
        apply Z.mul_le_mono_nonneg_r; [apply Z.mul_nonneg_nonneg|]; lia. }
    rewrite shl_one by lia. bind_ret.
    rewrite <- (Z.mul_1_r delta) in *.
    destruct (round_between P delta 1 (u * one) b' ds d dist (r * one + p2)) as (b2 & ds2 & -> & Hb2 & Hl2 & Hbt);
      try done; try lia; [by destruct Hlead as [[? _]|]; [left|right]|].
    bind_ret. apply returns_ret. exists ds2, (n - 1). split_and!; try done; lia.
  - apply returns_ret. split; [|cbn; lia].
    exists (ds ++ [0x30 + d]). cbn [i_b i_length i_p1 i_n i_pow10].
    split_and!; [done|len|len|lia| |lia|fold u; lia|by fold u; rewrite snoc_value|lia|by apply numeral_snoc|].
    + intros Hn1. subst u. rewrite (pow10_pred (n - 1)), Z.mul_comm, Z.div_mul by lia. done.
    + right. destruct Hlead as [[-> Hl]|Hl]; [|by apply leading_app].
      apply leading_snoc; [by left|]. change (zlen []) with 0 in Hkn.
      replace (k - 1) with (n - 1) in Hl by lia. fold u in Hl.
      destruct (Z.eq_dec d 0) as [->|]; lia.
Qed.

(** The bounds are far enough apart for seventeen digits. *)
Hypothesis Hwide : P <= 10 ^ 16 * delta.

Definition fractional_inv (st : fractional) : Prop := exists ds, let a := 10 ^ f_m st in
  holds (f_b st) ds /\ f_length st = zlen ds /\ zlen ds = k + f_m st /\ 0 <= f_m st /\
  f_delta st = delta * a /\ f_dist st = dist * a /\ 0 <= f_p2 st < one /\
  decimal_value ds * one + f_p2 st = P * a /\ delta * a < f_p2 st /\ numeral ds /\ leading ds.

Definition fractional_post (st : fractional) : Prop := exists ds d, let a := 10 ^ f_m st in
  holds (f_b st) (ds ++ [0x30 + d]) /\ f_length st = zlen ds + 1 /\ zlen ds < 17 /\
  1 <= f_m st <= 17 /\ f_delta st = delta * a /\ f_dist st = dist * a /\
  0 <= f_p2 st <= delta * a /\ delta * a < 2 ^ 64 /\ 0 <= d <= 9 /\
  (decimal_value ds * 10 + d) * one + f_p2 st = P * a /\ delta * a < f_p2 st + d * one /\
  numeral ds /\ leading ds.

Lemma fraction_short m :
  1 <= k <= 10 -> 10 ^ (k - 1) * one <= P -> 0 <= m -> delta * 10 ^ m < one -> k + m < 17.
Proof.
  intros Hk HkP Hm Hd. destruct (Z.lt_ge_cases (k + m) 17); [done|exfalso].
  assert (10 ^ 16 <= 10 ^ (k - 1) * 10 ^ m).
  { rewrite <- Z.pow_add_r by lia. apply Z.pow_le_mono_r; lia. }
  assert (0 < 10 ^ (k - 1)) by (apply Z.pow_pos_nonneg; lia).
  assert (10 ^ (k - 1) * (delta * 10 ^ m) < 10 ^ (k - 1) * one) by (apply Z.mul_lt_mono_pos_l; lia).
  assert (10 ^ 16 * delta <= 10 ^ (k - 1) * 10 ^ m * delta) by (apply Z.mul_le_mono_nonneg_r; lia).
  lia.
Qed.

Lemma fractional_step_ok st :
  1 <= k <= 10 -> 10 ^ (k - 1) * one <= P -> fractional_inv st ->
  returns (fractional_step (zlen pre) shift one st) (fun c =>
    match c with
    | Continue st' => fractional_inv st' /\ (Z.to_nat (17 - f_m st') < Z.to_nat (17 - f_m st))%nat
    | Break st' => fractional_post st'
    end).
Proof.
  intros Hk HkP (ds & Hb & Hlen & Hkm & Hm & Hde & Hdi & Hp & Hval & Hgt & Hnum & Hlead).
  destruct st as [b len p de di m]. cbn [f_b f_length f_p2 f_delta f_dist f_m] in *.
  pose proof one_bounds as Hone. pose proof (fraction_short m Hk HkP Hm ltac:(lia)) as Hshort.
  assert (0 < 10 ^ m) by (apply Z.pow_pos_nonneg; lia).
  assert (E10 : 10 ^ (m + 1) = 10 * 10 ^ m) by (rewrite Z.add_comm, Z.pow_add_r; lia).
  assert (0 <= dist * 10 ^ m <= delta * 10 ^ m).
  { split; [apply Z.mul_nonneg_nonneg; lia|apply Z.mul_le_mono_nonneg_r; lia]. }
  unfold fractional_step. cbn [f_b f_length f_p2 f_delta f_dist f_m].
  change (ULLONG_MAX / 10) with 1844674407370955161. passes.
  rewrite (word_small (p * 10)), (word_small (de * 10)), (word_small (di * 10)) by lia.
  rewrite shr64_div by lia. bind_ret. rewrite Eone, land_mask, <- Eone by lia.
  pose proof (Z.div_mod (p * 10) one ltac:(lia)) as Ed.
  pose proof (Z.mod_pos_bound (p * 10) one ltac:(lia)) as Hr.
  set (d := p * 10 / one) in *. set (r := (p * 10) mod one) in *. clearbody d r.
  assert (0 <= d <= 9).
  { split; [|assert (d < 10); [|lia]]; apply Z.nlt_ge || apply Z.nle_gt; intros ?; nia. }
  passes. rewrite Hlen.
  destruct (holds_write b ds (0x30 + d) Hb ltac:(lia)) as (b' & -> & Hb'). bind_ret.
  assert (Hv : (decimal_value ds * 10 + d) * one + r = P * 10 ^ (m + 1)).
  { rewrite E10. lia. }
  destruct (Z.leb_spec r (de * 10)) as [Hle|Hlt]; apply returns_ret.
  - exists ds, d. cbn [f_b f_length f_p2 f_delta f_dist f_m]. split_and!; try done; lia.
  - split; [|cbn; lia]. exists (ds ++ [0x30 + d]).
    cbn [f_b f_length f_p2 f_delta f_dist f_m]. rewrite snoc_value.
    split_and!; try done; try len; [by apply numeral_snoc|by apply leading_app].
Qed.

Lemma digit_count : 1 <= k <= 10 /\ 10 ^ (k - 1) <= P / one < 10 ^ k /\
  find_largest_pow10 (P / one) = (k, 10 ^ (k - 1)).
Proof.
  destruct integral_part as (Hip & _). pose proof (find_largest_pow10_ok (P / one) Hip) as H.
  rewrite Ek. destruct (find_largest_pow10 (P / one)) as [k' p']. cbn [fst].
  destruct H as (? & -> & ?). done.
Qed.

Lemma integral_loop_ok b ex :
  zlen b = zlen pre + room -> take (length pre) b = pre ->
  returns (while_loop 11 (integral_step (zlen pre) shift p2 delta dist ex)
             (Integral b 0 (P / one) k (10 ^ (k - 1)))) (integral_post ex).
Proof.
  intros Hlen Htake. destruct integral_part as (Hip & EP & Hp2). destruct digit_count as (Hk & Hpk & _).
  apply (while_loop_total integral_inv (fun st => Z.to_nat (i_n st))).
  - assert (holds b []).
    { exists (drop (length pre) b). split; [|len].
      rewrite <- (take_drop (length pre) b) at 1. by rewrite Htake. }
    exists []. cbn [i_b i_length i_p1 i_n i_pow10]. change (zlen []) with 0.
    change (decimal_value []) with 0. split_and!; try done; try lia; [apply Forall_nil_2|left; split; [done|lia]].
  - intros st Hst. by apply integral_step_ok.
  - cbn. lia.
Qed.

Lemma fractional_loop_ok b ds :
  holds b ds -> zlen ds = k -> decimal_value ds * one + p2 = P -> delta < p2 ->
  numeral ds -> leading ds ->
  returns (while_loop 20 (fractional_step (zlen pre) shift one)
             (Fractional b (zlen ds) p2 delta dist 0)) fractional_post.
Proof.
  intros Hb Hlen Hval Hgt Hn Hl. destruct integral_part as (Hip & EP & Hp2).
  destruct digit_count as (Hk & Hpk & _).
  assert (10 ^ (k - 1) * one <= P).
  { pose proof one_bounds. rewrite EP. assert (10 ^ (k - 1) * one <= P / one * one); [|lia].
    apply Z.mul_le_mono_nonneg_r; lia. }
  apply (while_loop_total fractional_inv (fun st => Z.to_nat (17 - f_m st))); [|intros|cbn; lia].
  - exists ds. cbn [f_b f_length f_p2 f_delta f_dist f_m]. rewrite Z.pow_0_r. split_and!; try done; lia.
  - by apply fractional_step_ok.
Qed.
End Generation.

(** Grisu2 writes the digits [ds] and the exponent [ex + n] of a number between
    the bounds, in units of [2^-shift]. *)
Lemma digit_gen_ok b ex P delta dist shift :
  32 <= shift <= 60 -> 2 ^ 61 <= P < 2 ^ 64 -> 0 < delta < P -> 0 <= dist <= delta ->
  P <= 10 ^ 16 * delta -> 17 <= room -> zlen b = zlen pre + room -> take (length pre) b = pre ->
  exists b' ds n,
    grisu2_digit_gen b (zlen pre) 0 ex (Diyfp (P - delta) (- shift)) (Diyfp (P - dist) (- shift))
      (Diyfp P (- shift)) = Ret (b', zlen ds, ex + n) /\
    holds b' ds /\ zlen ds <= 17 /\ -17 <= n <= 9 /\
    in_bounds P delta (10 ^ Z.max 0 (- n)) (10 ^ Z.max 0 n * 2 ^ shift) ds.
Proof.
  intros Hs HP Hde Hdi Hw Hr Hlen Htake.
  set (one := 2 ^ shift). set (p2 := P mod one). set (k := (find_largest_pow10 (P / one)).1).
  pose proof (one_bounds shift Hs one eq_refl) as Hone.
  destruct (integral_part P shift Hs HP one p2 eq_refl eq_refl) as (Hip & EP & Hp2).
  destruct (digit_count P shift Hs HP one p2 k eq_refl eq_refl eq_refl) as (Hk & Hpk & Hf).
  unfold grisu2_digit_gen. cbn [de df]. change kAlpha with (-60). change kGamma with (-32). do 2 passes.
  rewrite !diyfp_sub_ok by lia. bind_ret. cbn [df]. rewrite Z.opp_involutive.
  replace (P - (P - delta)) with delta by lia. replace (P - (P - dist)) with dist by lia.
  rewrite shl64_small by (rewrite ?Z.mul_1_l; fold one; lia). bind_ret. rewrite Z.mul_1_l. fold one.
  rewrite shr64_div by lia. bind_ret. fold one. rewrite u32_small by lia.
  assert (Z.land P (one - 1) = p2) as -> by (apply land_mask; lia).
  rewrite (assert_true (0 <? P / one)) by (apply Z.ltb_lt; lia). bind_ret. rewrite Hf.
  destruct (integral_loop_ok P shift delta dist Hs HP Hde Hdi Hr one p2 k eq_refl eq_refl eq_refl b ex Hlen Htake)
    as (res & -> & Hres). bind_ret.
  destruct res as [b' len e|b' len].
  - destruct Hres as (ds & n & Hb & -> & -> & Hn & Hl & Hbt). exists b', ds, n.
    rewrite Z.max_l, Z.max_r by lia. split_and!; try done; lia.
  - destruct Hres as (ds & Hb & -> & Hl & Hval & Hgt & Hnum & Hlead). passes.
    destruct (fractional_loop_ok P shift delta dist Hs HP Hde Hdi Hr one p2 k eq_refl eq_refl eq_refl Hw b' ds)
      as (st & -> & ds' & d & Hb' & Hl' & Hl17 & Hm & Hde' & Hdi' & Hp & H64 & Hd & Hv & Hbelow & Hn' & Hlead');
      try done. bind_ret.
    rewrite Hl', Hde', Hdi'.
    destruct (round_between P delta (10 ^ f_m st) one (f_b st) ds' d (dist * 10 ^ f_m st) (f_p2 st))
      as (b2 & ds2 & -> & Hb2 & Hl2 & Hbt); try done; try lia.
    { by right. }
    { assert (0 < 10 ^ f_m st) by (apply Z.pow_pos_nonneg; lia).
      split; [apply Z.mul_nonneg_nonneg; lia|apply Z.mul_le_mono_nonneg_r; lia]. }
    bind_ret. exists b2, ds2, (- f_m st). rewrite Z.opp_involutive, Z.max_r, Z.max_l, Z.pow_0_r, Z.mul_1_l by lia.
    split_and!; try done; [by rewrite <- Hl2|lia..].
Qed.
End Buffer.
