(* ===== verification/JsonDtoaRound.v ===== *)
(** The rounding of [strtod]: a number that lies strictly between the
    boundaries of a double is rounded to this double.  The boundaries are
    compared as rational numbers. *)

From Stdlib Require Import ZArith QArith Qpower Lqa Lia.
From S2P Require Import Prelude JsonValue JsonNumber JsonDtoa JsonDtoaDigits.
From stdpp Require Import base decidable option strings list.

Open Scope Z_scope.

(** ** Powers with exponents of any sign *)

Definition pw (b n : Z) : Q := (inject_Z b ^ n)%Q.

Lemma inject_pos b : 0 < b -> (0 < inject_Z b)%Q.
Proof. intros H. by rewrite <- (Zlt_Qlt 0). Qed.

Lemma inject_nonzero b : b <> 0 -> ~ (inject_Z b == 0)%Q.
Proof. intros H E. apply H. by apply inject_Z_injective. Qed.

Lemma pw_pos b n : 0 < b -> (0 < pw b n)%Q.
Proof. intros H. by apply Qpower_0_lt, inject_pos. Qed.

Lemma pw_add b n m : 0 < b -> (pw b (n + m) == pw b n * pw b m)%Q.
Proof. intros H. apply Qpower_plus, inject_nonzero. lia. Qed.

Lemma pw_sub b n m : 0 < b -> (pw b (n - m) == pw b n / pw b m)%Q.
Proof. intros H. apply Qpower_minus, inject_nonzero. lia. Qed.

Lemma pw_nonneg b n : 0 <= n -> (pw b n == inject_Z (b ^ n))%Q.
Proof. intros H. symmetry. by apply Zpower_Qpower. Qed.

Lemma pw_split b n :
  0 < b -> (pw b n == inject_Z (b ^ Z.max 0 n) / inject_Z (b ^ Z.max 0 (- n)))%Q.
Proof.
  intros H. rewrite <- !pw_nonneg by lia. rewrite <- pw_sub by done.
  by replace (Z.max 0 n - Z.max 0 (- n)) with n by lia.
Qed.

Lemma pw2_lt n m : (pw 2 n < pw 2 m)%Q -> n < m.
Proof. intros H. by apply (Qpower_lt_compat_l_inv (inject_Z 2)). Qed.

(** ** A fraction over a power of two *)

Definition fraction (num den : Z) : Q := (inject_Z num / inject_Z den)%Q.

(** [num / den] in units of [2^e]. *)
Definition above (num e : Z) : Z := num * 2 ^ Z.max 0 (- e).
Definition below (den e : Z) : Z := den * 2 ^ Z.max 0 e.

Lemma below_pos den e : 0 < den -> 0 < below den e.
Proof. intros H. unfold below. assert (0 < 2 ^ Z.max 0 e) by (apply Z.pow_pos_nonneg; lia). nia. Qed.

Lemma fraction_units num den e :
  0 < den -> (fraction num den == fraction (above num e) (below den e) * pw 2 e)%Q.
Proof.
  intros H. unfold fraction, above, below. rewrite (pw_split 2 e), !inject_Z_mult by lia.
  assert (~ (inject_Z (2 ^ Z.max 0 e) == 0)%Q).
  { apply inject_nonzero, Z.pow_nonzero; lia. }
  assert (~ (inject_Z (2 ^ Z.max 0 (- e)) == 0)%Q).
  { apply inject_nonzero, Z.pow_nonzero; lia. }
  assert (~ (inject_Z den == 0)%Q) by (apply inject_nonzero; lia).
  field. done.
Qed.

Lemma fraction_lt a b c d :
  0 < b -> 0 < d -> (fraction a b < fraction c d)%Q <-> a * d < c * b.
Proof.
  intros Hb Hd. unfold fraction. rewrite Zlt_Qlt, !inject_Z_mult.
  pose proof (inject_pos b Hb). pose proof (inject_pos d Hd).
  rewrite <- (Qmult_lt_r _ _ (inject_Z b * inject_Z d)) by (by apply Qmult_lt_0_compat).
  assert (inject_Z a / inject_Z b * (inject_Z b * inject_Z d) == inject_Z a * inject_Z d)%Q
    as -> by (field; lra).
  assert (inject_Z c / inject_Z d * (inject_Z b * inject_Z d) == inject_Z c * inject_Z b)%Q
    as -> by (field; lra).
  done.
Qed.

(** Comparisons with [(a / b) * 2^e]. *)
Lemma fraction_below num den e a b :
  0 < den -> 0 < b ->
  (fraction num den < fraction a b * pw 2 e)%Q <-> b * above num e < a * below den e.
Proof.
  intros Hd Hb. rewrite (fraction_units num den e) by done.
  pose proof (pw_pos 2 e ltac:(lia)). pose proof (below_pos den e Hd).
  rewrite Qmult_lt_r, fraction_lt by done. lia.
Qed.

Lemma fraction_above num den e a b :
  0 < den -> 0 < b ->
  (fraction a b * pw 2 e < fraction num den)%Q <-> a * below den e < b * above num e.
Proof.
  intros Hd Hb. rewrite (fraction_units num den e) by done.
  pose proof (pw_pos 2 e ltac:(lia)). pose proof (below_pos den e Hd).
  rewrite Qmult_lt_r, fraction_lt by done. lia.
Qed.

(** ** Rounding *)

Lemma round_quotient_near a b f :
  0 < b -> (2 * f - 1) * b < 2 * a < (2 * f + 1) * b -> round_quotient a b = f.
Proof.
  intros Hb H. unfold round_quotient.
  pose proof (Z.div_mod a b ltac:(lia)) as E. pose proof (Z.mod_pos_bound a b Hb) as Hm.
  set (q := a / b) in *. set (r := a mod b) in *. clearbody q r. subst a.
  assert (q = f \/ q = f - 1) as [-> | ->] by nia.
  - destruct (Z.ltb_spec (2 * r) b); [done|nia].
  - destruct (Z.ltb_spec (2 * r) b); [nia|]. destruct (Z.ltb_spec b (2 * r)); [lia|nia].
Qed.

(** [ulp_exponent] finds the binary exponent. *)
Lemma ulp_exponent_spec num den :
  0 < num -> 0 < den ->
  exists l, (pw 2 l <= fraction num den)%Q /\ (fraction num den < pw 2 (l + 1))%Q /\
    ulp_exponent num den = Z.max (-1074) (l - 52).
Proof.
  intros Hn Hd. pose proof (Z.log2_spec num Hn) as [Hn1 Hn2]. pose proof (Z.log2_spec den Hd) as [Hd1 Hd2].
  pose proof (Z.log2_nonneg num). pose proof (Z.log2_nonneg den).
  unfold ulp_exponent. set (a := Z.log2 num) in *. set (b := Z.log2 den) in *. clearbody a b.
  assert (Hup : (fraction num den < pw 2 (a - b + 1))%Q).
  { replace (a - b + 1) with (Z.succ a - b) by lia. rewrite pw_sub, !pw_nonneg by lia.
    apply fraction_lt; [done|apply Z.pow_pos_nonneg; lia|]. nia. }
  assert (Hlo : (pw 2 (a - b - 1) < fraction num den)%Q).
  { replace (a - b - 1) with (a - Z.succ b) by lia. rewrite pw_sub, !pw_nonneg by lia.
    apply fraction_lt; [apply Z.pow_pos_nonneg; lia|done|]. nia. }
  assert (E1 : (pw 2 (a - b) == fraction 1 1 * pw 2 (a - b))%Q).
  { unfold fraction. field. }
  fold (above num (a - b)) (below den (a - b)).
  destruct (Z.ltb_spec (above num (a - b)) (below den (a - b))) as [Hlt|Hge].
  - exists (a - b - 1). split_and!; [by apply Qlt_le_weak| |done].
    replace (a - b - 1 + 1) with (a - b) by lia. rewrite E1.
    apply fraction_below; lia.
  - exists (a - b). split_and!; [|done|done].
    apply Qnot_lt_le. rewrite E1. rewrite fraction_below by lia. lia.
Qed.

(** The number lies strictly between the boundaries of the double. *)
Definition rounds_to (x : Q) (bits : Z) : Prop :=
  let f := significand bits in let e := exponent bits in
  ((if closer bits then fraction (4 * f - 1) 4 else fraction (2 * f - 1) 2) * pw 2 e < x)%Q /\
  (x < fraction (2 * f + 1) 2 * pw 2 e)%Q.

Lemma round_double_at num den e f bits :
  0 < num -> 0 < den -> ulp_exponent num den = e ->
  (2 * f - 1) * below den e < 2 * above num e < (2 * f + 1) * below den e ->
  bits = (e + 1074) * 2 ^ 52 + f -> bits < inf_bits -> round_double num den = bits.
Proof.
  intros Hn Hd He Hf Hb Hinf. unfold round_double. destruct (Z.eqb_spec num 0); [lia|].
  rewrite He. fold (above num e) (below den e).
  rewrite (round_quotient_near _ _ f); [lia|by apply below_pos|done].
Qed.

Lemma exponent_below num den e k l :
  0 < den -> 0 <= k -> (pw 2 l <= fraction num den)%Q -> above num e < 2 ^ k * below den e -> l < e + k.
Proof.
  intros Hd Hk Hl H. apply pw2_lt. eapply Qle_lt_trans; [apply Hl|].
  rewrite Z.add_comm, pw_add, pw_nonneg by lia.
  assert (inject_Z (2 ^ k) == fraction (2 ^ k) 1)%Q as -> by (unfold fraction; field).
  apply fraction_below; lia.
Qed.

Lemma exponent_above num den e k l :
  0 < den -> 0 <= k -> (fraction num den < pw 2 (l + 1))%Q -> 2 ^ k * below den e <= above num e ->
  e + k <= l.
Proof.
  intros Hd Hk Hl H. apply Z.lt_succ_r. apply pw2_lt. eapply Qle_lt_trans; [|apply Hl].
  rewrite Z.add_comm, pw_add, pw_nonneg by lia.
  assert (inject_Z (2 ^ k) == fraction (2 ^ k) 1)%Q as -> by (unfold fraction; field).
  apply Qnot_lt_le. rewrite fraction_below by lia. lia.
Qed.

Lemma round_double_near num den bits :
  positive_finite bits -> 0 < num -> 0 < den -> rounds_to (fraction num den) bits ->
  round_double num den = bits.
Proof.
  intros Hb Hn Hd [Hlo Hup]. destruct (significand_spec bits Hb) as (Hf & He & Eb & Hnorm & Hc).
  cbv zeta in *. set (f := significand bits) in *. set (e := exponent bits) in *.
  pose proof Hb as [_ Hinf]. pose proof (below_pos den e Hd) as HB.
  apply fraction_below in Hup; [|lia..].
  destruct (ulp_exponent_spec num den Hn Hd) as (l & Hl1 & Hl2 & Hl).
  assert (Hlt53 : l < e + 53) by (apply (exponent_below num den); [done|done|done|nia]).
  assert (Hlow : (2 * f - 1) * below den e < 2 * above num e).
  { destruct (closer bits); apply fraction_above in Hlo; lia. }
  destruct (Z.lt_ge_cases (above num e) (2 ^ 52 * below den e)) as [Hsmall|Hlarge].
  2: { assert (e + 52 <= l) by (by apply (exponent_above num den)).
    apply (round_double_at num den e f); try done; lia. }
  destruct (Z.eq_dec e (-1074)); [apply (round_double_at num den e f); try done; lia|].
  assert (f = 2 ^ 52) as Ef by nia.
  rewrite (proj2 Hc) in Hlo by lia.
  assert (Hl51 : l < e + 52) by (by apply (exponent_below num den)).
  assert (Hlo' : (fraction (4 * f - 1) 2 * pw 2 (e - 1) < fraction num den)%Q).
  { eapply Qle_lt_trans; [|apply Hlo]. apply Qle_lteq. right.
    unfold fraction. rewrite pw_sub, (pw_nonneg 2 1) by lia. change (inject_Z (2 ^ 1)) with (2 # 1)%Q.
    change (inject_Z 2) with (2 # 1)%Q. change (inject_Z 4) with (4 # 1)%Q. field. }
  pose proof (below_pos den (e - 1) Hd) as HB'.
  apply fraction_above in Hlo'; [|lia..].
  assert (Hle : e - 1 + 52 <= l).
  { apply (exponent_above num den); [done|done|done|]. rewrite Ef in Hlo'. lia. }
  assert (Hup' : above num (e - 1) < 2 ^ 53 * below den (e - 1)).
  { apply Z.nle_gt. intros Hge. apply exponent_above with (l := l) in Hge; [lia|done..]. }
  apply (round_double_at num den (e - 1) (2 ^ 53)); try done; lia.
Qed.
