(* ===== verification/JsonDtoaCorrect.v ===== *)
(** [to_chars] of [src/util/nlohmann_json.hpp] is correct: for every finite
    double it writes a numeral of the grammar, at most seventeen digits long,
    that [strtod] reads back as the same double. *)

From Stdlib Require Import ZArith QArith Qpower Lqa Lia.
From S2P Require Import Prelude JsonValue JsonNumber JsonGrammar.
From S2P Require Import JsonDtoa JsonDtoaDigits JsonDtoaRound.
From stdpp Require Import base decidable option strings list.

Open Scope Z_scope.

(** ** The cached powers *)

(** The significand has 64 bits, and the power is off by at most half a unit. *)
Definition cached_close (c : cached_power) : bool :=
  let x := 2 ^ Z.max 0 (ce c) in let x' := 2 ^ Z.max 0 (- ce c) in
  let t := 10 ^ Z.max 0 (ck c) in let t' := 10 ^ Z.max 0 (- ck c) in
  (2 ^ 63 <=? cf c) && (cf c <? 2 ^ 64) && (-324 <=? ck c) && (ck c <=? 324)
  && (2 * Z.abs (cf c * x * t' - t * x') <=? x * t').

Lemma cached_close_all : forallb cached_close kCachedPowers = true.
Proof. vm_compute. reflexivity. Qed.

Definition cached_fits (e : Z) : bool :=
  match get_cached_power_for_binary_exponent e with
  | Ret c => (-60 <=? ce c + e + 64) && (ce c + e + 64 <=? -32)
  | _ => false
  end.

Lemma cached_fits_all : forallb (fun i => cached_fits (Z.of_nat i - 1137)) (seq 0 2098) = true.
Proof. vm_compute. reflexivity. Qed.

Lemma cached_power_in e c :
  get_cached_power_for_binary_exponent e = Ret c -> cached_close c = true.
Proof.
  unfold get_cached_power_for_binary_exponent. intros H.
  do 4 apply bind_Ret in H as (_ & _ & H). apply bind_Ret in H as (c' & Hc & H).
  do 2 apply bind_Ret in H as (_ & _ & H). injection H as ->.
  apply vget_Ret in Hc as [_ Hc]. apply list_elem_of_lookup_2, list_elem_of_In in Hc.
  pose proof cached_close_all as Ha. rewrite forallb_forall in Ha. by apply Ha.
Qed.

Lemma cached_power_ok e :
  -1137 <= e <= 960 ->
  exists c, get_cached_power_for_binary_exponent e = Ret c /\ 2 ^ 63 <= cf c < 2 ^ 64 /\
    -324 <= ck c <= 324 /\ -60 <= ce c + e + 64 <= -32 /\
    (2 * inject_Z (cf c) * pw 2 (ce c) <= 2 * pw 10 (ck c) + pw 2 (ce c))%Q /\
    (2 * pw 10 (ck c) <= 2 * inject_Z (cf c) * pw 2 (ce c) + pw 2 (ce c))%Q.
Proof.
  intros He. pose proof cached_fits_all as H. rewrite forallb_forall in H.
  specialize (H (Z.to_nat (e + 1137))). rewrite in_seq in H. specialize (H ltac:(lia)).
  replace (Z.of_nat _ - 1137) with e in H by lia. unfold cached_fits in H.
  destruct (get_cached_power_for_binary_exponent e) as [c| | |] eqn:Hc; try done. exists c.
  apply cached_power_in in Hc. unfold cached_close in Hc.
  rewrite !andb_true_iff, !Z.leb_le, Z.ltb_lt in Hc. rewrite andb_true_iff, !Z.leb_le in H.
  destruct Hc as [[[[H1 H2] H3] H4] H5]. split_and!; try done; try apply H.
  all: rewrite (pw_split 2 (ce c)), (pw_split 10 (ck c)) by lia.
  all: assert (Hx : 0 < 2 ^ Z.max 0 (- ce c)) by (apply Z.pow_pos_nonneg; lia).
  all: assert (Ht : 0 < 10 ^ Z.max 0 (- ck c)) by (apply Z.pow_pos_nonneg; lia).
  all: generalize dependent (2 ^ Z.max 0 (- ce c)); generalize dependent (2 ^ Z.max 0 (ce c)).
  all: generalize dependent (10 ^ Z.max 0 (- ck c)); generalize dependent (10 ^ Z.max 0 (ck c)).
  all: intros t t' Ht x x' H5 Hx'; apply inject_pos in Ht as Ht'; apply inject_pos in Hx' as Hx2.
  all: rewrite <- (Qmult_le_r _ _ (inject_Z x' * inject_Z t')) by (by apply Qmult_lt_0_compat).
  - assert (E1 : (2 * inject_Z (cf c) * (inject_Z x / inject_Z x') * (inject_Z x' * inject_Z t')
                  == inject_Z (2 * cf c * x * t'))%Q).
    { rewrite !inject_Z_mult. field. lra. }
    assert (E2 : ((2 * (inject_Z t / inject_Z t') + inject_Z x / inject_Z x') * (inject_Z x' * inject_Z t')
                  == inject_Z (2 * t * x' + x * t'))%Q).
    { rewrite inject_Z_plus, !inject_Z_mult. field. lra. }
    rewrite E1, E2, <- Zle_Qle. lia.
  - assert (E1 : (2 * (inject_Z t / inject_Z t') * (inject_Z x' * inject_Z t')
                  == inject_Z (2 * t * x'))%Q).
    { rewrite !inject_Z_mult. field. lra. }
    assert (E2 : ((2 * inject_Z (cf c) * (inject_Z x / inject_Z x') + inject_Z x / inject_Z x')
                  * (inject_Z x' * inject_Z t') == inject_Z (2 * cf c * x * t' + x * t'))%Q).
    { rewrite inject_Z_plus, !inject_Z_mult. field. lra. }
    rewrite E1, E2, <- Zle_Qle. lia.
Qed.

(** ** Scaling the boundaries *)

Section Scaling.
(** The digits [D], the units [N] of the digits and [S] of the significands, a
    power of ten [T], close to [C * X], and the boundary [M * E], scaled to [W]. *)
Context (D N S T X E M C W : Q).
Hypotheses (HX : (0 < X)%Q) (HE : (0 < E)%Q) (HM : (0 <= M < 2 ^ 64)%Q)
  (HS : (S * X * E * 2 ^ 64 == 1)%Q).

Lemma scale_back : (D * N == D * N * S * 2 ^ 64 * X * E)%Q.
Proof. rewrite <- (Qmult_1_r (D * N)) at 1. rewrite <- HS. ring. Qed.

Lemma scale_upper :
  (D * N * S <= W - 1)%Q -> (2 ^ 64 * W <= M * C + 2 ^ 63)%Q ->
  (2 * C * X <= 2 * T + X)%Q -> (D * N < M * T * E)%Q.
Proof.
  intros H1 H2 H3. rewrite scale_back. apply Qmult_lt_r; [done|].
  apply Qle_lt_trans with (M * (C * X) - 2 ^ 63 * X)%Q.
  - assert (D * N * S * 2 ^ 64 <= M * C - 2 ^ 63)%Q by lra.
    assert (D * N * S * 2 ^ 64 * X <= (M * C - 2 ^ 63) * X)%Q by (by apply Qmult_le_r). lra.
  - assert (M * (C * X) <= M * (T + (1 # 2) * X))%Q.
    { rewrite !(Qmult_comm M). apply Qmult_le_compat_r; [lra|tauto]. }
    assert (M * X < 2 ^ 64 * X)%Q by (apply Qmult_lt_r; tauto). lra.
Qed.

Lemma scale_lower :
  (W + 1 <= D * N * S)%Q -> (M * C + 2 ^ 63 < 2 ^ 64 * (W + 1))%Q ->
  (2 * T <= 2 * C * X + X)%Q -> (M * T * E < D * N)%Q.
Proof.
  intros H1 H2 H3. rewrite scale_back. apply Qmult_lt_r; [done|].
  apply Qle_lt_trans with (M * (C * X) + 2 ^ 63 * X)%Q.
  - assert (M * T <= M * (C * X + (1 # 2) * X))%Q.
    { rewrite !(Qmult_comm M). apply Qmult_le_compat_r; [lra|tauto]. }
    assert (M * X < 2 ^ 64 * X)%Q by (apply Qmult_lt_r; tauto). lra.
  - assert (M * C + 2 ^ 63 < D * N * S * 2 ^ 64)%Q by lra.
    assert ((M * C + 2 ^ 63) * X < D * N * S * 2 ^ 64 * X)%Q by (by apply Qmult_lt_r). lra.
Qed.
End Scaling.

(** The boundaries are apart. *)
Lemma boundary_gap bits :
  positive_finite bits ->
  let f := significand bits in let s := leading_zeros (2 * f + 1) in
  let m := (2 * f + 1) * 2 ^ s in let v := 2 * f * 2 ^ s in
  2 ^ 63 <= m < 2 ^ 64 /\ 0 <= lower bits s /\ 2 ^ 9 <= m - v /\ 2 ^ 9 <= v - lower bits s /\
  m <= 2 ^ 53 * (m - lower bits s).
Proof.
  intros H. destruct (leading_zeros_double bits H) as (Hs & _ & Hn).
  destruct (significand_spec bits H) as (Hf & He & Eb & Hd & Hc). cbv zeta in *.
  set (f := significand bits) in *. set (s := leading_zeros (2 * f + 1)) in *.
  assert (E2 : 2 ^ s = 2 * 2 ^ (s - 1)) by (rewrite <- Z.pow_succ_r by lia; f_equal; lia).
  assert (2 ^ 9 <= 2 ^ (s - 1)) by (apply Z.pow_le_mono_r; lia).
  unfold lower. fold f. clearbody s f.
  destruct (closer bits).
  - assert (f = 2 ^ 52) as -> by tauto. rewrite E2 in *. split_and!; lia.
  - rewrite E2 in *. split_and!; try lia. apply Z.mul_nonneg_nonneg; lia.
Qed.

(** The products with the power of ten, for [c] of 64 bits. *)
Lemma product_gap m v l c :
  2 ^ 63 <= c < 2 ^ 64 -> 2 ^ 63 <= m < 2 ^ 64 -> 0 <= l -> 2 ^ 9 <= m - v -> 2 ^ 9 <= v - l ->
  m <= 2 ^ 53 * (m - l) ->
  let w x := (x * c + 2 ^ 63) / 2 ^ 64 in
  let P := w m - 1 in let delta := P - (w l + 1) in let dist := P - w v in
  2 ^ 61 <= P < 2 ^ 64 /\ 0 <= w l < 2 ^ 64 - 1 /\ 0 <= w v < 2 ^ 64 /\ 1 <= w m < 2 ^ 64 /\
  0 < delta < P /\ 0 <= dist <= delta /\ P <= 10 ^ 16 * delta.
Proof.
  intros Hc Hm Hl Hmv Hvl Hml w P delta dist. unfold dist, delta, P, w. clear dist delta P w.
  assert (2 ^ 63 * 2 ^ 63 <= m * c) by (apply Z.mul_le_mono_nonneg; lia).
  assert (m * c <= (2 ^ 64 - 1) * (2 ^ 64 - 1)) by (apply Z.mul_le_mono_nonneg; lia).
  assert (2 ^ 9 * 2 ^ 63 <= (m - v) * c) by (apply Z.mul_le_mono_nonneg; lia).
  assert (2 ^ 9 * 2 ^ 63 <= (v - l) * c) by (apply Z.mul_le_mono_nonneg; lia).
  assert (m * c <= 2 ^ 53 * (m - l) * c) by (apply Z.mul_le_mono_nonneg_r; lia).
  assert (0 <= l * c) by (apply Z.mul_nonneg_nonneg; lia).
  rewrite Z.mul_sub_distr_r in *. rewrite <- Z.mul_assoc, Z.mul_sub_distr_r in *.
  clear Hm Hl Hmv Hvl Hml Hc. generalize dependent (m * c). generalize dependent (v * c).
  generalize dependent (l * c). intros L HL V HV M H1 H2 H3 H4.
  pose proof (Z.div_mod (M + 2 ^ 63) (2 ^ 64) ltac:(lia)). pose proof (Z.mod_pos_bound (M + 2 ^ 63) (2 ^ 64) ltac:(lia)).
  pose proof (Z.div_mod (V + 2 ^ 63) (2 ^ 64) ltac:(lia)). pose proof (Z.mod_pos_bound (V + 2 ^ 63) (2 ^ 64) ltac:(lia)).
  pose proof (Z.div_mod (L + 2 ^ 63) (2 ^ 64) ltac:(lia)). pose proof (Z.mod_pos_bound (L + 2 ^ 63) (2 ^ 64) ltac:(lia)).
  lia.
Qed.

(** The bounds on the digits as rational numbers. *)
Lemma between_fraction P delta n shift ds :
  0 <= shift -> in_bounds P delta (10 ^ Z.max 0 (- n)) (10 ^ Z.max 0 n * 2 ^ shift) ds ->
  (inject_Z (P - delta) <= inject_Z (decimal_value ds) * pw 10 n * pw 2 shift)%Q /\
  (inject_Z (decimal_value ds) * pw 10 n * pw 2 shift <= inject_Z P)%Q.
Proof.
  intros Hs (_ & _ & Hlo & Hup). rewrite (pw_split 10 n), (pw_nonneg 2 shift) by lia.
  assert (Ha : 0 < 10 ^ Z.max 0 (- n)) by (apply Z.pow_pos_nonneg; lia).
  generalize dependent (10 ^ Z.max 0 (- n)). generalize dependent (10 ^ Z.max 0 n).
  intros t a Hlo Hup Ha. apply inject_pos in Ha as Ha'.
  assert (E : (inject_Z (decimal_value ds) * (inject_Z t / inject_Z a) * inject_Z (2 ^ shift) * inject_Z a
               == inject_Z (decimal_value ds * (t * 2 ^ shift)))%Q).
  { rewrite !inject_Z_mult. field. lra. }
  split; rewrite <- (Qmult_le_r _ _ (inject_Z a)), E, <- inject_Z_mult, <- Zle_Qle by done; done.
Qed.

Lemma inject_div_le x : (2 ^ 64 * inject_Z (x / 2 ^ 64) <= inject_Z x)%Q.
Proof. change (2 ^ 64)%Q with (inject_Z (2 ^ 64)). rewrite <- inject_Z_mult, <- Zle_Qle. apply Z.mul_div_le. lia. Qed.

Lemma inject_div_lt x : (inject_Z x < 2 ^ 64 * (inject_Z (x / 2 ^ 64) + 1))%Q.
Proof.
  change (2 ^ 64)%Q with (inject_Z (2 ^ 64)). change 1%Q with (inject_Z 1).
  rewrite <- inject_Z_plus, <- inject_Z_mult, <- Zlt_Qlt.
  pose proof (Z.mul_succ_div_gt x (2 ^ 64) ltac:(lia)). lia.
Qed.

(** The exact product of a boundary with the power of ten lies outside of the
    bounds for the digits. *)
Section Bounds.
Context (c : cached_power) (e n V : Z).
Let shift := - (ce c + e + 64).
Let x := (inject_Z V * pw 10 (n - ck c))%Q.
Hypotheses
  (Hup : (2 * inject_Z (cf c) * pw 2 (ce c) <= 2 * pw 10 (ck c) + pw 2 (ce c))%Q)
  (Hlo : (2 * pw 10 (ck c) <= 2 * inject_Z (cf c) * pw 2 (ce c) + pw 2 (ce c))%Q).

Lemma units_one : (pw 2 shift * pw 2 (ce c) * pw 2 e * 2 ^ 64 == 1)%Q.
Proof.
  change (2 ^ 64)%Q with (pw 2 64). rewrite <- !pw_add by lia.
  by replace (shift + ce c + e + 64) with 0 by (unfold shift; lia).
Qed.

Lemma unscale (y : Q) : (y * pw 10 (ck c) * pw 2 e == y * pw 2 e * pw 10 (ck c))%Q.
Proof. ring. Qed.

Lemma x_scaled : (inject_Z V * pw 10 n == x * pw 10 (ck c))%Q.
Proof.
  unfold x. rewrite <- Qmult_assoc, <- pw_add by lia. by replace (n - ck c + ck c) with n by lia.
Qed.

Lemma below_upper m :
  0 <= m < 2 ^ 64 ->
  (inject_Z V * pw 10 n * pw 2 shift <= inject_Z ((m * cf c + 2 ^ 63) / 2 ^ 64 - 1))%Q ->
  (x < inject_Z m * pw 2 e)%Q.
Proof.
  intros Hm HV. apply (Qmult_lt_r _ _ (pw 10 (ck c))); [by apply pw_pos|].
  rewrite <- x_scaled, <- unscale.
  apply (scale_upper _ _ (pw 2 shift) _ (pw 2 (ce c)) _ _ (inject_Z (cf c))
           (inject_Z ((m * cf c + 2 ^ 63) / 2 ^ 64))); try done; try (by apply pw_pos).
  - split; [rewrite <- (Zle_Qle 0); lia|]. change (2 ^ 64)%Q with (inject_Z (2 ^ 64)). rewrite <- Zlt_Qlt. lia.
  - apply units_one.
  - unfold Z.sub in HV. rewrite inject_Z_plus in HV. exact HV.
  - pose proof (inject_div_le (m * cf c + 2 ^ 63)) as H. rewrite inject_Z_plus, inject_Z_mult in H. done.
Qed.

Lemma above_lower m :
  0 <= m < 2 ^ 64 ->
  (inject_Z ((m * cf c + 2 ^ 63) / 2 ^ 64 + 1) <= inject_Z V * pw 10 n * pw 2 shift)%Q ->
  (inject_Z m * pw 2 e < x)%Q.
Proof.
  intros Hm HV. apply (Qmult_lt_r _ _ (pw 10 (ck c))); [by apply pw_pos|].
  rewrite <- x_scaled, <- unscale.
  apply (scale_lower _ _ (pw 2 shift) _ (pw 2 (ce c)) _ _ (inject_Z (cf c))
           (inject_Z ((m * cf c + 2 ^ 63) / 2 ^ 64))); try done; try (by apply pw_pos).
  - split; [rewrite <- (Zle_Qle 0); lia|]. change (2 ^ 64)%Q with (inject_Z (2 ^ 64)). rewrite <- Zlt_Qlt. lia.
  - apply units_one.
  - rewrite inject_Z_plus in HV. done.
  - pose proof (inject_div_lt (m * cf c + 2 ^ 63)) as H. rewrite inject_Z_plus, inject_Z_mult in H. done.
Qed.
End Bounds.

Lemma boundary_exact a k s e :
  0 <= s -> 0 <= k ->
  (inject_Z (a * 2 ^ s) * pw 2 (e - k - s) == fraction a (2 ^ k) * pw 2 e)%Q.
Proof.
  intros Hs Hk. unfold fraction. rewrite inject_Z_mult, <- !pw_nonneg, !pw_sub by lia.
  pose proof (pw_pos 2 s ltac:(lia)). pose proof (pw_pos 2 k ltac:(lia)). field. lra.
Qed.

(** Grisu2 writes at most seventeen digits of a number that rounds to the
    double. *)
Lemma grisu2_ok pre room b bits :
  positive_finite bits -> 17 <= room -> zlen b = zlen pre + room -> take (length pre) b = pre ->
  exists b' ds ex, grisu2 b (zlen pre) 0 bits = Ret (b', zlen ds, ex) /\
    holds pre room b' ds /\ zlen ds <= 17 /\ -400 <= ex <= 400 /\ numeral ds /\ leading ds /\
    rounds_to (inject_Z (decimal_value ds) * pw 10 ex) bits.
Proof.
  intros H Hroom Hlen Htake. destruct (leading_zeros_double bits H) as (Hs & _).
  pose proof (compute_boundaries_ok bits H) as Hcb. pose proof (boundary_gap bits H) as Hgap.
  destruct (significand_spec bits H) as (Hf & He & _ & _ & Hc). cbv zeta in *.
  set (f := significand bits) in *. set (s := leading_zeros (2 * f + 1)) in *.
  destruct (positive_finite_ok bits H) as [Hfin Hpos].
  destruct Hgap as (Hm & Hl & Hmv & Hvl & Hml).
  unfold grisu2. rewrite (assert_true _ Hfin), (assert_true _ Hpos), Hcb. bind_ret.
  cbn [bminus bw bplus]. unfold grisu2_scaled. cbn [de]. passes.
  set (e := exponent bits - 1 - s).
  destruct (cached_power_ok e ltac:(subst e; lia)) as (c & -> & Hcf & Hck & Hce & Hup & Hlo). bind_ret.
  rewrite !diyfp_mul_spec by lia. cbn [df de].
  destruct (product_gap _ _ _ (cf c) Hcf Hm Hl Hmv Hvl Hml) as (HP & Hwl & Hwv & Hwm & Hde & Hdi & Hw).
  rewrite !word_small by lia.
  set (wm := ((2 * f + 1) * 2 ^ s * cf c + 2 ^ 63) / 2 ^ 64) in *.
  set (wl := (lower bits s * cf c + 2 ^ 63) / 2 ^ 64) in *.
  set (wv := (2 * f * 2 ^ s * cf c + 2 ^ 63) / 2 ^ 64) in *.
  destruct (digit_gen_ok pre room b (- ck c) (wm - 1) (wm - 1 - (wl + 1)) (wm - 1 - wv) (- (ce c + e + 64)))
    as (b' & ds & n & Hgen & Hb' & Hlen' & Hn & Hbt); try done; try lia.
  destruct Hbt as (Hnum & Hlead & Hbt') eqn:Ebt; clear Ebt.
  destruct (between_fraction (wm - 1) (wm - 1 - (wl + 1)) n (- (ce c + e + 64)) ds) as [Hb1 Hb2]; [lia|done|].
  exists b', ds, (- ck c + n).
  replace (wm - 1 - (wm - 1 - (wl + 1))) with (wl + 1) in * by lia.
  replace (wm - 1 - (wm - 1 - wv)) with wv in * by lia.
  replace (- - (ce c + e + 64)) with (e + ce c + 64) in * by lia.
  rewrite Hgen. split_and!; try done; try lia.
  replace (- ck c + n) with (n - ck c) by lia. split; fold f.
  - apply (above_lower c e n _ Hlo) in Hb1; [|lia]. eapply Qle_lt_trans; [|exact Hb1].
    apply Qle_lteq. right. unfold lower, e. fold f. destruct (closer bits).
    + rewrite <- (boundary_exact _ 2 (s - 1)) by lia.
      by replace (exponent bits - 2 - (s - 1)) with (exponent bits - 1 - s) by lia.
    + by rewrite <- (boundary_exact _ 1 s) by lia.
  - apply (below_upper c e n _ Hup) in Hb2; [|lia]. eapply Qlt_le_trans; [exact Hb2|].
    apply Qle_lteq. right. unfold e. by rewrite (boundary_exact _ 1 s) by lia.
Qed.

(** ** The layout *)

(** A numeral with a point or an exponent, of the number [d * 10^e]. *)
Definition float_text (t : list Z) (d e : Z) : Prop :=
  exists i f ds x ex, t = i ++ f ++ x /\ int_text i /\ frac_text f ds /\ exp_text x ex /\
    (ds <> [] \/ x <> []) /\ d = decimal_value (i ++ ds) /\ e = ex - zlen ds.

Lemma zeros_value n : decimal_value (replicate n 0x30) = 0.
Proof. induction n as [|n IH]; [done|]. unfold decimal_value. simpl. apply IH. Qed.

Lemma zeros_numeral n : numeral (replicate n 0x30).
Proof. by apply Forall_replicate. Qed.

Lemma value_zeros_r ds n : decimal_value (ds ++ replicate n 0x30) = decimal_value ds * 10 ^ Z.of_nat n.
Proof.
  rewrite decimal_value_app, foldl_digits_acc, zeros_value. unfold zlen. rewrite length_replicate. lia.
Qed.

Lemma value_zeros_l n ds : decimal_value (replicate n 0x30 ++ ds) = decimal_value ds.
Proof. rewrite decimal_value_app, zeros_value. done. Qed.

Lemma numeral_int ds : numeral ds -> leading ds -> int_text ds.
Proof. intros Hn (c & l & -> & Hc). right. exists c, l. apply Forall_cons in Hn as [_ Hn]. done. Qed.

(** The next character behind the text. *)
Ltac push := match goal with
  | Hb : holds ?pre ?room ?b ?x |- context [vset ?b ?i ?c] =>
      let b' := fresh "b" in let Hs := fresh "Hs" in let Hb' := fresh "Hb" in
      destruct (holds_write pre room b x c Hb) as (b' & Hs & Hb'); [len|];
      assert (vset b i c = Ret b') as -> by (rewrite <- Hs; f_equal; len); clear Hs Hb; bind_ret;
      rewrite <- ?app_assoc in Hb'; cbn [app] in Hb'
  end.

Section Layout.
Context (pre : list Z) (room : Z).

Lemma holds_segment b x y z y' :
  holds pre room b (x ++ y ++ z) -> zlen y' = zlen y ->
  exists b', take (Z.to_nat (zlen pre + zlen x)) b ++ y'
               ++ drop (Z.to_nat (zlen pre + zlen x + zlen y)) b = b' /\
    holds pre room b' (x ++ y' ++ z).
Proof.
  intros (rest & -> & Hr) Hy. eexists. split; [done|]. exists rest. split; [|len].
  rewrite <- !app_assoc, (app_assoc pre x), take_app_length' by len.
  rewrite (app_assoc _ y), drop_app_length' by len. by rewrite <- !app_assoc.
Qed.

Lemma holds_set b x c c' z :
  holds pre room b (x ++ c :: z) ->
  exists b', vset b (zlen pre + zlen x) c' = Ret b' /\ holds pre room b' (x ++ c' :: z).
Proof.
  intros (rest & -> & Hr). eexists. split; [apply vset_in_range; len|]. exists rest. split; [|len].
  rewrite <- !app_assoc, app_assoc, insert_app_r_alt by len.
  replace (_ - _)%nat with O by len. simpl. by rewrite <- !app_assoc.
Qed.

Lemma holds_length b ds : holds pre room b ds -> zlen b = zlen pre + room.
Proof. intros (rest & -> & Hr). len. Qed.

Lemma holds_fill b x y c n z :
  holds pre room b (x ++ y ++ z) -> zlen y = n ->
  exists b', memset b (zlen pre + zlen x) c n = Ret b' /\
    holds pre room b' (x ++ replicate (Z.to_nat n) c ++ z).
Proof.
  intros Hb <-. pose proof (holds_length _ _ Hb). pose proof Hb as (rest & _ & Hr).
  pose proof (zlen_nonneg y). pose proof (zlen_nonneg x). pose proof (zlen_nonneg pre).
  destruct (holds_segment b x y z (replicate (Z.to_nat (zlen y)) c) Hb) as (b' & Hb' & Hh).
  { unfold zlen in *. rewrite length_replicate. lia. }
  exists b'. split; [|done]. unfold memset.
  rewrite !(proj2 (Z.leb_le _ _)) by len. simpl. by rewrite Hb'.
Qed.

(** Room behind the text is text that may be overwritten. *)
Lemma holds_more b x n :
  holds pre room b x -> 0 <= n -> zlen x + n <= room ->
  exists y, zlen y = n /\ holds pre room b (x ++ y).
Proof.
  intros (rest & -> & Hr) Hn Hroom. exists (take (Z.to_nat n) rest). split.
  - unfold zlen in *. rewrite length_take. lia.
  - exists (drop (Z.to_nat n) rest). rewrite <- app_assoc, take_drop. split; [done|].
    unfold zlen in *. rewrite length_app, length_take, length_drop. lia.
Qed.

(** The text behind [x] moves by [n] characters. *)
Lemma holds_move b x y n :
  holds pre room b (x ++ y) -> 0 <= n -> zlen x + zlen y + n <= room ->
  exists b' g, memmove b (zlen pre + zlen x + n) (zlen pre + zlen x) (zlen y) = Ret b' /\
    zlen g = n /\ holds pre room b' (x ++ g ++ y).
Proof.
  intros Hb Hn Hroom. pose proof (holds_length _ _ Hb) as Hlen.
  destruct (holds_more b _ n Hb Hn) as (e & He & Hbe); [len|].
  pose proof Hbe as (rest & Eb & Hr).
  set (g := take (Z.to_nat n) (y ++ e)). set (old := drop (Z.to_nat n) (y ++ e)).
  assert (Hg : y ++ e = g ++ old) by (unfold g, old; by rewrite take_drop).
  assert (zlen g = n) by (unfold g, zlen in *; rewrite length_take, length_app; lia).
  assert (zlen old = zlen y).
  { unfold old, zlen in *. rewrite length_drop, length_app. lia. }
  rewrite <- app_assoc, Hg in Hbe. rewrite (app_assoc x g) in Hbe.
  rewrite <- (app_nil_r old) in Hbe.
  destruct (holds_segment b (x ++ g) old [] y Hbe) as (b' & Hb' & Hh); [done|].
  exists b', g. split_and!; [|done|by rewrite app_nil_r, <- app_assoc in Hh].
  unfold memmove. pose proof (zlen_nonneg x). pose proof (zlen_nonneg y). pose proof (zlen_nonneg pre).
  rewrite !(proj2 (Z.leb_le _ _)) by len. simpl. f_equal. rewrite <- Hb'. f_equal; [f_equal; len|].
  f_equal; [|f_equal; len]. rewrite Eb, <- !app_assoc, app_assoc, drop_app_length' by len.
  by rewrite take_app_length' by len.
Qed.

Lemma append_exponent_ok b x e :
  holds pre room b x -> zlen x + 4 <= room -> -1000 < e < 1000 ->
  exists b' c l g, append_exponent b (zlen pre + zlen x) e = Ret (b', zlen pre + zlen x + 1 + zlen l) /\
    holds pre room b' (x ++ c :: l) /\ exponent_sign [c] = Some g /\ numeral l /\ l <> [] /\
    g * decimal_value l = e.
Proof.
  intros Hb Hroom He. unfold append_exponent. do 2 passes.
  set (c := if e <? 0 then ch "-" else ch "+").
  assert (exists g, exponent_sign [c] = Some g /\ g * Z.abs e = e) as (g & Hg & Hge).
  { subst c. destruct (Z.ltb_spec e 0); eexists; (split; [reflexivity|lia]). }
  assert (0 <= Z.abs e < 1000) by lia. set (k := Z.abs e) in *. clearbody k. push.
  assert (Hl : forall b' l p, holds pre room b' (x ++ c :: l) -> numeral l -> decimal_value l = k -> l <> [] ->
    p = zlen pre + zlen x + 1 + zlen l ->
    exists b'' c' l' g, Ret (b', p) = Ret (b'', zlen pre + zlen x + 1 + zlen l') /\
      holds pre room b'' (x ++ c' :: l') /\ exponent_sign [c'] = Some g /\ numeral l' /\ l' <> [] /\
      g * decimal_value l' = e).
  { intros b' l p Hh Hn Hv Hne ->. exists b', c, l, g. split_and!; try done. by rewrite Hv. }
  pose proof (Z.div_mod k 10 ltac:(lia)). pose proof (Z.mod_pos_bound k 10 ltac:(lia)).
  pose proof (Z.div_mod k 100 ltac:(lia)). pose proof (Z.mod_pos_bound k 100 ltac:(lia)).
  pose proof (Z.div_mod (k mod 100) 10 ltac:(lia)). pose proof (Z.mod_pos_bound (k mod 100) 10 ltac:(lia)).
  destruct (Z.ltb_spec k 10); [|destruct (Z.ltb_spec k 100)]; repeat push.
  all: match goal with Hh : holds _ _ ?b' (_ ++ _ :: ?l) |- _ => apply (Hl b' l); try done end.
  all: try (repeat constructor; apply is_digit_spec; lia).
  all: unfold decimal_value, digit_value; cbn [foldl]; len.
Qed.

End Layout.

Section Format.
Context (pre : list Z) (room : Z).

(** The text of [V * 10^ex] is written, and the pointer stands behind it. *)
Definition formatted (m : outcome (list Z * Z)) (V ex : Z) : Prop := exists b t d e,
  m = Ret (b, zlen pre + zlen t) /\ holds pre room b t /\ float_text t d e /\
  (inject_Z d * pw 10 e == inject_Z V * pw 10 ex)%Q.

Context (b ds : list Z) (ex : Z).
Hypotheses (Hb : holds pre room b ds) (Hnum : numeral ds) (Hlead : leading ds)
  (Hlen : zlen ds <= 17) (Hroom : 24 <= room) (Hex : -400 <= ex <= 400).
Context (k n : Z) (Ek : k = zlen ds) (En : n = k + ex).

Lemma ds_nonempty : 1 <= k.
Proof. destruct Hlead as (c & l & E & _). rewrite Ek, E. len. Qed.

(** [digits000.0] *)
Lemma format_integer :
  k <= n <= 15 ->
  formatted (b1 ← memset b (zlen pre + k) (ch "0") (n - k);
     b2 ← vset b1 (zlen pre + n) (ch ".");
     b3 ← vset b2 (zlen pre + n + 1) (ch "0");
     Ret (b3, zlen pre + n + 2)) (decimal_value ds) ex.
Proof.
  intros Hn. destruct (holds_more pre room b ds (n - k) Hb) as (y & Hy & Hb0); [lia..|].
  rewrite <- (app_nil_r y) in Hb0.
  destruct (holds_fill pre room b ds y (ch "0") (n - k) [] Hb0 Hy) as (b1 & Hm & Hb1).
  rewrite <- Ek in Hm. rewrite Hm. bind_ret. rewrite app_nil_r in Hb1. clear Hb0.
  assert (Hz : zlen (ds ++ replicate (Z.to_nat (n - k)) 0x30) = n).
  { unfold zlen in *. rewrite length_app, length_replicate. lia. }
  do 2 push. set (i := ds ++ replicate (Z.to_nat (n - k)) 0x30) in *.
  eexists _, (i ++ [ch "."; ch "0"]), (decimal_value (i ++ [ch "0"])), (0 - 1). split_and!.
  - do 2 f_equal. len.
  - subst i. by rewrite <- app_assoc.
  - exists i, [ch "."; ch "0"], [ch "0"], [], 0. rewrite app_nil_r. split_and!; try done; [| |apply exp_none|by left].
    + apply numeral_int; [apply Forall_app; split; [done|apply zeros_numeral]|by apply leading_app].
    + apply (frac_some [ch "0"]); [by repeat constructor|done].
  - rewrite decimal_value_snoc. change (0 - 1) with (-1). change (48 - 48) with 0. unfold i. rewrite value_zeros_r, Z.add_0_r, Z2Nat.id by lia.
    replace ex with (n - k) by lia. rewrite !inject_Z_mult, <- (pw_nonneg 10 (n - k)) by lia.
    change (pw 10 (-1)) with (1 # 10)%Q. change (inject_Z 10) with (10 # 1)%Q. field.
Qed.

(** [dig.its] *)
Lemma format_point :
  0 < n < k ->
  formatted (b1 ← memmove b (zlen pre + n + 1) (zlen pre + n) (k - n);
     b2 ← vset b1 (zlen pre + n) (ch ".");
     Ret (b2, zlen pre + k + 1)) (decimal_value ds) ex.
Proof.
  intros Hn. set (x := take (Z.to_nat n) ds). set (y := drop (Z.to_nat n) ds).
  assert (Hxy : ds = x ++ y) by (subst x y; by rewrite take_drop).
  assert (Hx : zlen x = n) by (subst x; unfold zlen in *; rewrite length_take; lia).
  assert (Hy : zlen y = k - n) by (subst y; unfold zlen in *; rewrite length_drop; lia).
  rewrite Hxy in Hb. destruct (holds_move pre room b x y 1 Hb) as (b1 & g & Hm & Hg & Hb1); [lia..|].
  rewrite Hx, Hy in Hm. rewrite Hm. bind_ret.
  destruct g as [|c [|? ?]]; [len| |len].
  destruct (holds_set pre room b1 x c (ch ".") y Hb1) as (b2 & Hs & Hb2). rewrite Hx in Hs.
  rewrite Hs. bind_ret.
  eexists b2, (x ++ ch "." :: y), (decimal_value ds), ex. split_and!; [do 2 f_equal; len|done| |done].
  rewrite Hxy in Hnum. apply Forall_app in Hnum as [Hnx Hny].
  exists x, (ch "." :: y), y, [], 0. rewrite app_nil_r.
  split_and!; [done| |apply frac_some; [done|]|apply exp_none|left|by rewrite Hxy|lia].
  - apply numeral_int; [done|]. destruct Hlead as (c0 & l & E & Hc). subst x. rewrite E.
    replace (Z.to_nat n) with (S (Z.to_nat n - 1)) by lia. by exists c0, (take (Z.to_nat n - 1) l).
  - intros ->. len.
  - intros ->. len.
Qed.

(** [0.000digits] *)
Lemma format_small :
  -4 < n <= 0 ->
  formatted (b1 ← memmove b (zlen pre + 2 + - n) (zlen pre) k;
     b2 ← vset b1 (zlen pre) (ch "0");
     b3 ← vset b2 (zlen pre + 1) (ch ".");
     b4 ← memset b3 (zlen pre + 2) (ch "0") (- n);
     Ret (b4, zlen pre + 2 + - n + k)) (decimal_value ds) ex.
Proof.
  intros Hn. destruct (holds_move pre room b [] ds (2 - n) Hb) as (b1 & g & Hm & Hg & Hb1);
    [lia|len|]. cbn [app] in Hb1.
  assert (memmove b (zlen pre + 2 + - n) (zlen pre) k = Ret b1) as ->.
  { rewrite <- Hm. f_equal; len. }
  bind_ret. destruct g as [|c0 [|c1 g]]; [len..|].
  destruct (holds_set pre room b1 [] c0 (ch "0") (c1 :: g ++ ds) Hb1) as (b2 & Hs & Hb2).
  rewrite Z.add_0_r in Hs. rewrite Hs. bind_ret.
  destruct (holds_set pre room b2 [ch "0"] c1 (ch ".") (g ++ ds) Hb2) as (b3 & Hs3 & Hb3).
  change (zlen [ch "0"]) with 1 in Hs3. rewrite Hs3. bind_ret.
  destruct (holds_fill pre room b3 [ch "0"; ch "."] g (ch "0") (- n) ds Hb3) as (b4 & Hs4 & Hb4); [len|].
  change (zlen [ch "0"; ch "."]) with 2 in Hs4. rewrite Hs4. bind_ret. set (z := replicate (Z.to_nat (- n)) (ch "0")) in *.
  assert (Hz : zlen z = - n) by (unfold z, zlen; rewrite length_replicate; lia).
  eexists b4, ([ch "0"; ch "."] ++ z ++ ds), (decimal_value ds), ex.
  split_and!; [do 2 f_equal; len|done| |done].
  exists [ch "0"], (ch "." :: z ++ ds), (z ++ ds), [], 0. rewrite app_nil_r.
  assert (Hne : z ++ ds <> []).
  { intros [_ ->]%app_eq_nil. destruct Hlead as (? & ? & [=] & _). }
  split_and!; [done|by left|apply frac_some|apply exp_none|by left| |len].
  - apply Forall_app. split; [apply zeros_numeral|done].
  - done.
  - symmetry. apply (value_zeros_l (S (Z.to_nat (- n))) ds).
Qed.

(** [d.igitse+123] *)
Lemma format_exponent :
  formatted ('(b, buf) ← (if k =? 1 then Ret (b, zlen pre + 1)
                          else
                            b ← memmove b (zlen pre + 2) (zlen pre + 1) (k - 1);
                            b ← vset b (zlen pre + 1) (ch ".");
                            Ret (b, zlen pre + 1 + k));
     b ← vset b buf (ch "e");
     append_exponent b (buf + 1) (n - 1)) (decimal_value ds) ex.
Proof.
  pose proof ds_nonempty as Hk. pose proof Hlead as (c & l & E & Hc).
  assert (Hl : zlen l = k - 1) by (rewrite Ek, E; len).
  assert (exists b1 f, (if k =? 1 then Ret (b, zlen pre + 1)
                        else
                          b ← memmove b (zlen pre + 2) (zlen pre + 1) (k - 1);
                          b ← vset b (zlen pre + 1) (ch ".");
                          Ret (b, zlen pre + 1 + k)) = Ret (b1, zlen pre + zlen (c :: f)) /\
            holds pre room b1 (c :: f) /\ frac_text f l) as (b1 & f & -> & Hb1 & Hf).
  { destruct (Z.eqb_spec k 1).
    - exists b, []. destruct l; [|len]. rewrite E in Hb. split_and!; [done|done|apply frac_none].
    - rewrite E in Hb. destruct (holds_move pre room b [c] l 1 Hb) as (b1 & g & Hm & Hg & Hb1); [lia|len|].
      change (zlen [c]) with 1 in Hm. rewrite Hl in Hm. rewrite <- Z.add_assoc in Hm. change (1 + 1) with 2 in Hm.
      rewrite Hm. bind_ret. destruct g as [|c0 [|? ?]]; [len| |len].
      destruct (holds_set pre room b1 [c] c0 (ch ".") l Hb1) as (b2 & Hs & Hb2).
      change (zlen [c]) with 1 in Hs. rewrite Hs. bind_ret.
      exists b2, (ch "." :: l). split_and!; [do 2 f_equal; len|done|].
      rewrite E in Hnum. apply Forall_cons in Hnum as [_ Hnum].
      apply frac_some; [done|]. intros ->. len. }
  bind_ret. assert (Hlf : zlen (c :: f) <= k + 1) by (destruct Hf; len).
  destruct (holds_write pre room b1 (c :: f) (ch "e") Hb1 ltac:(lia)) as (b2 & -> & Hb2). bind_ret.
  destruct (append_exponent_ok pre room b2 ((c :: f) ++ [ch "e"]) (n - 1) Hb2) as
    (b3 & sg & el & g & Ha & Hb3 & Hsg & Hel & Hne & Hge); [len|lia|].
  replace (zlen pre + zlen (c :: f) + 1) with (zlen pre + zlen ((c :: f) ++ [ch "e"])) by len.
  rewrite Ha. eexists b3, ([c] ++ f ++ ch "e" :: [sg] ++ el), (decimal_value ds), ex.
  split_and!; [do 2 f_equal; unfold zlen; cbn [app length]; len| | |done].
  { rewrite <- app_assoc in Hb3. exact Hb3. }
  exists [c], f, l, (ch "e" :: [sg] ++ el), (g * decimal_value el).
  split_and!; [done|right; exists c, []; (split_and!; [done|lia|lia|apply Forall_nil_2])|done|apply exp_some; try done; by left|by right|by rewrite E|lia].
Qed.

Lemma format_buffer_ok : formatted (format_buffer b (zlen pre) k ex (-4) 15) (decimal_value ds) ex.
Proof.
  unfold format_buffer. rewrite (assert_true (-4 <? 0)), (assert_true (0 <? 15)) by done. bind_ret. rewrite <- En. cbv zeta.
  destruct (Z.leb_spec k n), (Z.leb_spec n 15); cbn [andb]; [by apply format_integer|..].
  all: destruct (Z.ltb_spec 0 n); cbn [andb]; try lia.
  all: try (destruct (Z.ltb_spec (-4) n), (Z.leb_spec n 0); cbn [andb]; try lia).
  all: try apply format_exponent; try (by apply format_small).
  passes. by apply format_point.
Qed.
End Format.

(** ** The numeral of a double *)

Lemma decimal_double_near d e bits :
  positive_finite bits -> 0 < d -> rounds_to (inject_Z d * pw 10 e) bits -> decimal_double d e = bits.
Proof.
  intros Hb Hd [Hlo Hup]. unfold decimal_double.
  assert (0 < 10 ^ Z.max 0 e) by (apply Z.pow_pos_nonneg; lia).
  assert (0 < 10 ^ Z.max 0 (- e)) by (apply Z.pow_pos_nonneg; lia).
  assert (E : (fraction (d * 10 ^ Z.max 0 e) (10 ^ Z.max 0 (- e)) == inject_Z d * pw 10 e)%Q).
  { unfold fraction. rewrite inject_Z_mult, (pw_split 10 e) by lia. field. apply inject_nonzero. lia. }
  apply round_double_near; [done|nia|done|]. split; by rewrite E.
Qed.

Lemma float_text_form neg t d e :
  float_text t d e ->
  number_form (minus_text neg ++ t) (Number_float (sign_bit neg + decimal_double d e)).
Proof.
  intros (i & f & ds & x & ex & -> & Hi & Hf & Hx & Hne & -> & ->).
  replace (Number_float _) with (number_value neg i ds x ex); [by apply number_intro|].
  unfold number_value. destruct ds, x; try done. by destruct Hne.
Qed.

(** The sign and the magnitude of a double. *)
Lemma double_sign v :
  0 <= v < 2 ^ 64 -> isfinite v = true ->
  exists w, v = sign_bit (signbit v) + w /\ 0 <= w < inf_bits /\ (signbit v = true -> negate v = w).
Proof.
  intros Hv Hfin. set (w := v mod 2 ^ 63).
  pose proof (Z.div_mod v (2 ^ 63) ltac:(lia)) as Ev. pose proof (Z.mod_pos_bound v (2 ^ 63) ltac:(lia)) as Hw.
  fold w in Ev, Hw. set (q := v / 2 ^ 63) in *.
  assert (Hq : q = 0 \/ q = 1) by lia.
  assert (Hs : signbit v = (q =? 1)).
  { unfold signbit. rewrite Z.testbit_eqb, Z.mod_small; [done|lia|]. fold q. lia. }
  clearbody q w.
  assert (Hinf : w < inf_bits).
  { unfold isfinite in Hfin. rewrite negb_true_iff, Z.eqb_neq in Hfin. rewrite Z.shiftr_div_pow2 in Hfin by lia.
    change 0x7FF with (2 ^ 11 - 1) in Hfin. rewrite land_mask in Hfin by lia.
    replace (v / 2 ^ 52) with (q * 2 ^ 11 + w / 2 ^ 52) in Hfin.
    2: { rewrite Ev. replace (2 ^ 63 * q + w) with (q * 2 ^ 11 * 2 ^ 52 + w) by lia.
      rewrite Z.div_add_l by lia. done. }
    rewrite Z.add_comm, Z.mod_add in Hfin by lia.
    assert (0 <= w / 2 ^ 52 < 2 ^ 11) by (split; [apply Z.div_pos|apply Z.div_lt_upper_bound]; lia).
    rewrite Z.mod_small in Hfin by lia. unfold inf_bits.
    pose proof (Z.div_mod w (2 ^ 52) ltac:(lia)). pose proof (Z.mod_pos_bound w (2 ^ 52) ltac:(lia)). lia. }
  exists w. rewrite Hs. split_and!; [|lia|done|].
  - destruct Hq as [-> | ->]; simpl sign_bit; lia.
  - intros Hq1%Z.eqb_eq. unfold negate. rewrite Ev, Hq1, Z.mul_1_r.
    pose proof (Z.add_lor_land (1 * 2 ^ 63) w) as Hl. rewrite lor_disjoint, Z.mul_1_l in Hl by lia.
    rewrite Z.add_nocarry_lxor by lia.
    by rewrite Z.lxor_comm, <- Z.lxor_assoc, Z.lxor_nilpotent, Z.lxor_0_l.
Qed.

(** The part of [to_chars] behind the sign. *)
Lemma magnitude_ok pre b w :
  0 <= w < inf_bits -> zlen pre <= 1 -> zlen b = 64 -> take (length pre) b = pre ->
  exists b' t d e,
    (if w =? 0
     then
       b ← vset b (zlen pre) (ch "0");
       b ← vset b (zlen pre + 1) (ch ".");
       b ← vset b (zlen pre + 2) (ch "0");
       Ret (b, zlen pre + 3)
     else
       _ ← json_assert (17 <=? 64 - zlen pre);
       '(b, len, decimal_exponent) ← grisu2 b (zlen pre) 0 w;
       _ ← json_assert (len <=? 17);
       _ ← json_assert (15 + 2 <=? 64 - zlen pre);
       _ ← json_assert (2 + (- -4 - 1) + 17 <=? 64 - zlen pre);
       _ ← json_assert (17 + 6 <=? 64 - zlen pre);
       format_buffer b (zlen pre) len decimal_exponent (-4) 15)
    = Ret (b', zlen pre + zlen t) /\ holds pre (64 - zlen pre) b' t /\ float_text t d e /\
    decimal_double d e = w.
Proof.
  intros Hw Hpre Hlen Htake.
  destruct (Z.eqb_spec w 0) as [->|Hw0].
  - assert (Hb : holds pre (64 - zlen pre) b []).
    { exists (drop (length pre) b). split; [|len].
      rewrite <- (take_drop (length pre) b) at 1. by rewrite Htake. }
    do 3 push. eexists _, [ch "0"; ch "."; ch "0"], 0, (-1).
    split_and!; [done|done| |by vm_compute].
    exists [ch "0"], [ch "."; ch "0"], [ch "0"], [], 0.
    split_and!; [done|by left| |apply exp_none|by left|done|done].
    apply (frac_some [ch "0"]); [by repeat constructor|done].
  - rewrite (assert_true (17 <=? _)) by (apply Z.leb_le; lia). bind_ret.
    destruct (grisu2_ok pre (64 - zlen pre) b w) as (b1 & ds & ex & -> & Hb1 & Hds & Hex & Hn & Hl & Hr);
      [split; lia|lia|lia|done|]. bind_ret.
    do 4 (rewrite assert_true by (apply Z.leb_le; lia); bind_ret).
    destruct (format_buffer_ok pre (64 - zlen pre) b1 ds ex Hb1 Hn Hl Hds ltac:(lia) Hex (zlen ds) _ eq_refl eq_refl)
      as (b2 & t & d & e & -> & Hb2 & Ht & E).
    exists b2, t, d, e. split_and!; [done..|].
    assert (Hv : 1 <= decimal_value ds) by (by apply leading_value).
    apply decimal_double_near; [split; lia| |split; rewrite E; apply Hr].
    assert (0 < inject_Z d * pw 10 e)%Q as Hpos.
    { rewrite E. apply Qmult_lt_0_compat; [apply inject_pos; lia|by apply pw_pos]. }
    pose proof (pw_pos 10 e ltac:(lia)) as Hp. destruct (Z.lt_ge_cases 0 d) as [|Hd]; [done|exfalso].
    apply (Qlt_not_le _ _ Hpos). setoid_rewrite <- (Qmult_0_l (pw 10 e)).
    apply Qmult_le_compat_r; [change 0%Q with (inject_Z 0); rewrite <- Zle_Qle; lia|by apply Qlt_le_weak].
Qed.

(** [to_chars] writes a number of the grammar that stands for the double. *)
Lemma to_chars_ok b v :
  zlen b = 64 -> 0 <= v < 2 ^ 64 -> isfinite v = true ->
  exists b' t, to_chars b 0 64 v = Ret (b', zlen t) /\ zlen b' = 64 /\
    take (length t) b' = t /\ number_form t (Number_float v).
Proof.
  intros Hb Hv Hfin. destruct (double_sign v Hv Hfin) as (w & Ev & Hw & Hneg).
  unfold to_chars. rewrite (assert_true _ Hfin). bind_ret.
  destruct b as [|c0 b]; [len|].
  destruct (signbit v) eqn:Hs.
  - change (vset (c0 :: b) 0 (ch "-")) with (Ret (ch "-" :: b)). bind_ret. rewrite Hneg by done.
    destruct (magnitude_ok [ch "-"] (ch "-" :: b) w) as (b' & t & d & e & Hm & Hb' & Ht & Hd); [done|len|len|done|].
    change (zlen [ch "-"]) with 1 in *. change (0 + 1) with 1. rewrite Hm. 
    exists b', (ch "-" :: t). destruct Hb' as (rest & -> & Hr).
    split_and!; [do 2 f_equal; len|len|cbn [app length take]; by rewrite take_app_length|].
    rewrite Ev, <- Hd. by apply (float_text_form true).
  - bind_ret.
    destruct (magnitude_ok [] (c0 :: b) w) as (b' & t & d & e & Hm & Hb' & Ht & Hd); [done|len|len|done|].
    assert (v = w) as -> by (simpl in Ev; lia). change (zlen []) with 0 in *. rewrite Hm.
    exists b', t. destruct Hb' as (rest & -> & Hr).
    split_and!; [done|len|cbn [app]; by rewrite take_app_length|].
    rewrite <- Hd. by apply (float_text_form false).
Qed.
