(* ===== verification/JsonSerializer.v ===== *)
(** The serializer of [src/util/nlohmann_json.hpp]: the class
    [detail::serializer], which appends the text of a value to its output, and
    [basic_json::dump], which returns it.

    The serializer writes strings through a buffer of 512 characters and
    numbers through one of 64; both are arrays here, and an access beyond the
    end is undefined.  The indentation string is read through [c_str()], so
    that one character behind its end, a zero, can be read as well. *)

From Stdlib Require Import ZArith Lia.
From S2P Require Import Prelude JsonValue JsonNumber JsonDtoa.
From stdpp Require Import base decidable option strings list.

Open Scope Z_scope.

Inductive error_handler_t := error_strict | error_replace | error_ignore.

#[export] Instance error_handler_eq_dec : EqDecision error_handler_t.
Proof. solve_decision. Defined.

(** What the serializer changes: the output, the two buffers and the
    indentation string. *)
Record serializer := Serializer
  { o : list Z; number_buffer : list Z; string_buffer : list Z; indent_string : list Z }.

Definition new_serializer (indent_char : Z) : serializer :=
  Serializer [] (replicate 64 0) (replicate 512 0) (replicate 512 indent_char).

(** [o->write_characters] and [o->write_character] *)
Definition write (s : serializer) (t : list Z) : serializer :=
  Serializer (o s ++ t) (number_buffer s) (string_buffer s) (indent_string s).

(** ** UTF-8 *)

Definition UTF8_ACCEPT : Z := 0.
Definition UTF8_REJECT : Z := 1.

Definition utf8d : list Z :=
  [0; 0; 0; 0; 0; 0; 0; 0; 0; 0; 0; 0; 0; 0; 0; 0; 0; 0; 0; 0; 0; 0; 0; 0; 0; 0; 0; 0; 0; 0; 0; 0] ++
  [0; 0; 0; 0; 0; 0; 0; 0; 0; 0; 0; 0; 0; 0; 0; 0; 0; 0; 0; 0; 0; 0; 0; 0; 0; 0; 0; 0; 0; 0; 0; 0] ++
  [0; 0; 0; 0; 0; 0; 0; 0; 0; 0; 0; 0; 0; 0; 0; 0; 0; 0; 0; 0; 0; 0; 0; 0; 0; 0; 0; 0; 0; 0; 0; 0] ++
  [0; 0; 0; 0; 0; 0; 0; 0; 0; 0; 0; 0; 0; 0; 0; 0; 0; 0; 0; 0; 0; 0; 0; 0; 0; 0; 0; 0; 0; 0; 0; 0] ++
  [1; 1; 1; 1; 1; 1; 1; 1; 1; 1; 1; 1; 1; 1; 1; 1; 9; 9; 9; 9; 9; 9; 9; 9; 9; 9; 9; 9; 9; 9; 9; 9] ++
  [7; 7; 7; 7; 7; 7; 7; 7; 7; 7; 7; 7; 7; 7; 7; 7; 7; 7; 7; 7; 7; 7; 7; 7; 7; 7; 7; 7; 7; 7; 7; 7] ++
  [8; 8; 2; 2; 2; 2; 2; 2; 2; 2; 2; 2; 2; 2; 2; 2; 2; 2; 2; 2; 2; 2; 2; 2; 2; 2; 2; 2; 2; 2; 2; 2] ++
  [10; 3; 3; 3; 3; 3; 3; 3; 3; 3; 3; 3; 3; 4; 3; 3] ++
  [11; 6; 6; 6; 5; 8; 8; 8; 8; 8; 8; 8; 8; 8; 8; 8] ++
  [0; 1; 2; 3; 5; 8; 7; 1; 1; 1; 4; 6; 1; 1; 1; 1] ++
  [1; 1; 1; 1; 1; 1; 1; 1; 1; 1; 1; 1; 1; 1; 1; 1; 1; 0; 1; 1; 1; 1; 1; 0; 1; 0; 1; 1; 1; 1; 1; 1] ++
  [1; 2; 1; 1; 1; 1; 1; 2; 1; 2; 1; 1; 1; 1; 1; 1; 1; 1; 1; 1; 1; 1; 1; 2; 1; 1; 1; 1; 1; 1; 1; 1] ++
  [1; 2; 1; 1; 1; 1; 1; 1; 1; 2; 1; 1; 1; 1; 1; 1; 1; 1; 1; 1; 1; 1; 1; 3; 1; 3; 1; 1; 1; 1; 1; 1] ++
  [1; 3; 1; 1; 1; 1; 1; 3; 1; 3; 1; 1; 1; 1; 1; 1; 1; 3; 1; 1; 1; 1; 1; 1; 1; 1; 1; 1; 1; 1; 1; 1].

(** The state and the code point. *)
Definition decode (state codep byte : Z) : outcome (Z * Z) :=
  _ ← json_assert (byte <? zlen utf8d);
  type ← vget utf8d byte;
  let codep := if negb (state =? UTF8_ACCEPT)
               then Z.lor (Z.land byte 0x3F) (u32 (Z.shiftl codep 6))
               else Z.land (Z.shiftr 0xFF type) byte in
  let index := 256 + state * 16 + type in
  _ ← json_assert (index <? zlen utf8d);
  state ← vget utf8d index;
  Ret (state, codep).

(** ** Strings *)

Definition nibble_to_hex (upper : bool) (n : Z) : Z :=
  if n <? 10 then 0x30 + n else (if upper then 0x37 else 0x57) + n.

Definition hex_bytes (byte : Z) : list Z :=
  [nibble_to_hex true (byte / 16); nibble_to_hex true (byte mod 16)].

(** The conversion [%04x] of a [std::uint16_t]. *)
Definition hex04 (x : Z) : list Z :=
  nibble_to_hex false <$> [x / 4096; x / 256 mod 16; x / 16 mod 16; x mod 16].

Definition unicode_escape (x : Z) : list Z := 0x5C :: ch "u" :: hex04 (x mod 2 ^ 16).

(** The local variables of [dump_escaped]. *)
Record escaping := Escaping
  { codepoint : Z; state : Z; bytes_ : Z; bytes_after_last_accept : Z;
    undumped_chars : Z; index : Z; ser : serializer }.

(** [string_buffer[bytes++] = c] *)
Definition put (x : escaping) (c : Z) : outcome escaping :=
  let s := ser x in
  b ← vset (string_buffer s) (bytes_ x) c;
  Ret (Escaping (codepoint x) (state x) (bytes_ x + 1) (bytes_after_last_accept x)
         (undumped_chars x) (index x) (Serializer (o s) (number_buffer s) b (indent_string s))).

Fixpoint puts (x : escaping) (l : list Z) : outcome escaping :=
  match l with
  | [] => Ret x
  | c :: l => x ← put x c; puts x l
  end.

Definition set_bytes (x : escaping) (bytes last undumped : Z) : escaping :=
  Escaping (codepoint x) (state x) bytes last undumped (index x) (ser x).

(** [snprintf] of a text with the zero that ends it; the count of bytes does
    not include the zero. *)
Definition print_escape (x : escaping) (text : list Z) : outcome escaping :=
  x ← puts x (text ++ [0]);
  Ret (set_bytes x (bytes_ x - 1) (bytes_after_last_accept x) (undumped_chars x)).

(** [o->write_characters(string_buffer.data(), n)] *)
Definition flush (s : serializer) (n : Z) : serializer :=
  write s (take (Z.to_nat n) (string_buffer s)).

(** Write the buffer when less than 13 bytes are left. *)
Definition flush_full (x : escaping) : escaping :=
  if zlen (string_buffer (ser x)) - bytes_ x <? 13
  then Escaping (codepoint x) (state x) 0 (bytes_after_last_accept x) (undumped_chars x) (index x)
         (flush (ser x) (bytes_ x))
  else x.

Definition short_escape (codepoint : Z) : option Z :=
  if codepoint =? 0x08 then Some (ch "b")
  else if codepoint =? 0x09 then Some (ch "t")
  else if codepoint =? 0x0A then Some (ch "n")
  else if codepoint =? 0x0C then Some (ch "f")
  else if codepoint =? 0x0D then Some (ch "r")
  else if codepoint =? 0x22 then Some 0x22
  else if codepoint =? 0x5C then Some 0x5C
  else None.

(** A code point is complete; [c] is its last byte. *)
Definition dump_accept (ensure_ascii : bool) (c : Z) (x : escaping) : outcome escaping :=
  let cp := codepoint x in
  x ← match short_escape cp with
      | Some e => puts x [0x5C; e]
      | None =>
          if (cp <=? 0x1F) || (ensure_ascii && (0x7F <=? cp))
          then
            if cp <=? 0xFFFF
            then print_escape x (unicode_escape cp)
            else print_escape x (unicode_escape (0xD7C0 + Z.shiftr cp 10)
                                 ++ unicode_escape (0xDC00 + Z.land cp 0x3FF))
          else put x c
      end;
  let x := flush_full x in
  Ret (set_bytes x (bytes_ x) (bytes_ x) 0).

Definition replacement (ensure_ascii : bool) : list Z :=
  if ensure_ascii then 0x5C :: bytes_of "ufffd" else [0xEF; 0xBF; 0xBD].

(** A byte is not allowed here. *)
Definition dump_reject (handler : error_handler_t) (ensure_ascii : bool) (byte : Z) (x : escaping)
    : outcome escaping :=
  match handler with
  | error_strict =>
      Throw (type_error_create 316 (bytes_of "invalid UTF-8 byte at index " ++ to_string (index x)
                                    ++ bytes_of ": 0x" ++ hex_bytes byte))
  | _ =>
      let i := if 0 <? undumped_chars x then index x - 1 else index x in
      let x := set_bytes x (bytes_after_last_accept x) (bytes_after_last_accept x) (undumped_chars x) in
      x ← match handler with
          | error_replace =>
              x ← puts x (replacement ensure_ascii);
              let x := flush_full x in
              Ret (set_bytes x (bytes_ x) (bytes_ x) (undumped_chars x))
          | _ => Ret x
          end;
      Ret (Escaping (codepoint x) UTF8_ACCEPT (bytes_ x) (bytes_after_last_accept x) 0 i (ser x))
  end.

(** One turn of the loop over the bytes of [s]. *)
Definition dump_escaped_step (handler : error_handler_t) (s : list Z) (ensure_ascii : bool)
    (x : escaping) : outcome (control escaping escaping) :=
  if index x <? zlen s
  then
    byte ← vget s (index x);
    '(st, cp) ← decode (state x) (codepoint x) byte;
    let x := Escaping cp st (bytes_ x) (bytes_after_last_accept x) (undumped_chars x) (index x) (ser x) in
    x ← (if st =? UTF8_ACCEPT then dump_accept ensure_ascii byte x
         else if st =? UTF8_REJECT then dump_reject handler ensure_ascii byte x
         else
           x ← (if ensure_ascii then Ret x else put x byte);
           Ret (set_bytes x (bytes_ x) (bytes_after_last_accept x) (undumped_chars x + 1)));
    Ret (Continue (Escaping (codepoint x) (state x) (bytes_ x) (bytes_after_last_accept x)
                     (undumped_chars x) (index x + 1) (ser x)))
  else Ret (Break x).

(** Behind the loop. *)
Definition dump_finish (handler : error_handler_t) (s : list Z) (ensure_ascii : bool) (x : escaping)
    : outcome serializer :=
  if state x =? UTF8_ACCEPT
  then if 0 <? bytes_ x then Ret (flush (ser x) (bytes_ x)) else Ret (ser x)
  else
    match handler with
    | error_strict =>
        match last s with
        | Some c => Throw (type_error_create 316 (bytes_of "incomplete UTF-8 string; last byte: 0x"
                                                  ++ hex_bytes c))
        | None => Undef OutOfBounds
        end
    | error_ignore => Ret (flush (ser x) (bytes_after_last_accept x))
    | error_replace => Ret (write (flush (ser x) (bytes_after_last_accept x)) (replacement ensure_ascii))
    end.

(** A byte is read at most twice. *)
Definition dump_escaped (handler : error_handler_t) (t : list Z) (ensure_ascii : bool) (s : serializer)
    : outcome serializer :=
  x ← while_loop (S (2 * length t)) (dump_escaped_step handler t ensure_ascii)
        (Escaping 0 UTF8_ACCEPT 0 0 0 0 s);
  dump_finish handler t ensure_ascii x.

(** ** Numbers *)

(** Twenty digits take five turns of the loop. *)
Fixpoint count_digits_loop (fuel : nat) (x n_digits : Z) : outcome Z :=
  match fuel with
  | O => NoFuel
  | S fuel =>
      if x <? 10 then Ret n_digits
      else if x <? 100 then Ret (n_digits + 1)
      else if x <? 1000 then Ret (n_digits + 2)
      else if x <? 10000 then Ret (n_digits + 3)
      else count_digits_loop fuel (x / 10000) (n_digits + 4)
  end.

Definition count_digits (x : Z) : outcome Z := count_digits_loop 5 x 1.

(** [digits_to_99[i]] *)
Definition digits_to_99 : list (Z * Z) :=
  (fun i => (0x30 + Z.of_nat i / 10, 0x30 + Z.of_nat i mod 10)) <$> seq 0 100.

Definition remove_sign (x : Z) : outcome Z :=
  _ ← json_assert ((x <? 0) && (x <? LLONG_MAX));
  Ret (u64 (u64 (- (x + 1)) + 1)).

(** The two digits with the given index go before [p]. *)
Definition put_pair (b : list Z) (p i : Z) : outcome (list Z * Z) :=
  d ← vget digits_to_99 i;
  b ← vset b (p - 1) d.2;
  b ← vset b (p - 2) d.1;
  Ret (b, p - 2).

Definition pairs_step (st : list Z * Z * Z) : outcome (control (list Z * Z * Z) (list Z * Z * Z)) :=
  let '(b, buffer_ptr, abs_value) := st in
  if 100 <=? abs_value
  then
    '(b, buffer_ptr) ← put_pair b buffer_ptr (abs_value mod 100);
    Ret (Continue (b, buffer_ptr, abs_value / 100))
  else Ret (Break st).

(** [dump_integer] of a number [x]; a number of an unsigned type is not
    negative. *)
Definition dump_integer (x : Z) (s : serializer) : outcome serializer :=
  if x =? 0 then Ret (write s [ch "0"])
  else
    '(b, abs_value, n_chars) ←
      (if x <? 0
       then
         b ← vset (number_buffer s) 0 (ch "-");
         abs_value ← remove_sign x;
         n ← count_digits abs_value;
         Ret (b, abs_value, 1 + n)
       else
         n ← count_digits x;
         Ret (number_buffer s, x, n));
    _ ← json_assert (n_chars <? zlen b - 1);
    '(b, buffer_ptr, abs_value) ← while_loop 11 pairs_step (b, n_chars, abs_value);
    b ← (if 10 <=? abs_value
         then '(b, _) ← put_pair b buffer_ptr abs_value; Ret b
         else vset b (buffer_ptr - 1) (0x30 + abs_value));
    Ret (Serializer (o s ++ take (Z.to_nat n_chars) b) b (string_buffer s) (indent_string s)).

Definition dump_float (x : Z) (s : serializer) : outcome serializer :=
  if negb (isfinite x) then Ret (write s (bytes_of "null"))
  else
    '(b, end_) ← to_chars (number_buffer s) 0 (zlen (number_buffer s)) x;
    Ret (Serializer (o s ++ take (Z.to_nat end_) b) b (string_buffer s) (indent_string s)).

(** ** Values *)

(** [if (indent_string.size() < new_indent) indent_string.resize(2 * size, ' ')] *)
Definition grow_indent (s : serializer) (new_indent : Z) : serializer :=
  if zlen (indent_string s) <? new_indent
  then Serializer (o s) (number_buffer s) (string_buffer s)
         (indent_string s ++ replicate (length (indent_string s)) (ch " "))
  else s.

(** [o->write_characters(indent_string.c_str(), n)] *)
Definition write_indent (s : serializer) (n : Z) : outcome serializer :=
  let t := indent_string s ++ [0] in
  if n <=? zlen t then Ret (write s (take (Z.to_nat n) t)) else Undef OutOfBounds.

(** The elements of a container that is not empty, with [sep] between them. *)
Definition separated {A} (f : A -> serializer -> outcome serializer) (sep : list Z)
    : list A -> serializer -> outcome serializer :=
  fix go l s :=
    match l with
    | [] => Undef AssertFailed
    | x :: l =>
        s ← f x s;
        match l with
        | [] => Ret s
        | _ => go l (write s sep)
        end
    end.

(** The bytes of a binary value. *)
Definition dump_bytes (sep b : list Z) (s : serializer) : outcome serializer :=
  match b with
  | [] => Ret s
  | _ => separated dump_integer sep b s
  end.

Definition dump_subtype (subtype : option Z) (s : serializer) : outcome serializer :=
  match subtype with
  | Some t => dump_integer t s
  | None => Ret (write s (bytes_of "null"))
  end.

Definition dump_binary (b : list Z) (subtype : option Z) (pretty_print : bool)
    (indent_step current_indent : Z) (s : serializer) : outcome serializer :=
  if pretty_print
  then
    let s := write s [ch "{"; 0x0A] in
    let new_indent := u32 (current_indent + indent_step) in
    let s := grow_indent s new_indent in
    s ← write_indent s new_indent;
    let s := write s (0x22 :: bytes_of "bytes" ++ 0x22 :: bytes_of ": [") in
    s ← dump_bytes (bytes_of ", ") b s;
    let s := write s (bytes_of "]," ++ [0x0A]) in
    s ← write_indent s new_indent;
    let s := write s (0x22 :: bytes_of "subtype" ++ 0x22 :: bytes_of ": ") in
    s ← dump_subtype subtype s;
    let s := write s [0x0A] in
    s ← write_indent s current_indent;
    Ret (write s [ch "}"])
  else
    let s := write s (ch "{" :: 0x22 :: bytes_of "bytes" ++ 0x22 :: bytes_of ":[") in
    s ← dump_bytes (bytes_of ",") b s;
    let s := write s (bytes_of "]," ++ 0x22 :: bytes_of "subtype" ++ 0x22 :: bytes_of ":") in
    s ← dump_subtype subtype s;
    Ret (write s [ch "}"]).

Section Dump.
Variable handler : error_handler_t.

Fixpoint dump_value (val : json) (pretty_print ensure_ascii : bool) (indent_step current_indent : Z)
    (s : serializer) {struct val} : outcome serializer :=
  match val with
  | Object [] => Ret (write s (bytes_of "{}"))
  | Object es =>
      if pretty_print
      then
        let s := write s [ch "{"; 0x0A] in
        let new_indent := u32 (current_indent + indent_step) in
        let s := grow_indent s new_indent in
        s ← separated (fun e s =>
               s ← write_indent s new_indent;
               s ← dump_escaped handler e.1 ensure_ascii (write s [0x22]);
               dump_value e.2 true ensure_ascii indent_step new_indent
                 (write s (0x22 :: bytes_of ": "))) [ch ","; 0x0A] es s;
        let s := write s [0x0A] in
        s ← write_indent s current_indent;
        Ret (write s [ch "}"])
      else
        s ← separated (fun e s =>
               s ← dump_escaped handler e.1 ensure_ascii (write s [0x22]);
               dump_value e.2 false ensure_ascii indent_step current_indent
                 (write s (0x22 :: bytes_of ":"))) [ch ","] es (write s [ch "{"]);
        Ret (write s [ch "}"])
  | Array [] => Ret (write s (bytes_of "[]"))
  | Array l =>
      if pretty_print
      then
        let s := write s [ch "["; 0x0A] in
        let new_indent := u32 (current_indent + indent_step) in
        let s := grow_indent s new_indent in
        s ← separated (fun v s =>
               s ← write_indent s new_indent;
               dump_value v true ensure_ascii indent_step new_indent s) [ch ","; 0x0A] l s;
        let s := write s [0x0A] in
        s ← write_indent s current_indent;
        Ret (write s [ch "]"])
      else
        s ← separated (fun v s => dump_value v false ensure_ascii indent_step current_indent s)
              [ch ","] l (write s [ch "["]);
        Ret (write s [ch "]"])
  | Str t =>
      s ← dump_escaped handler t ensure_ascii (write s [0x22]);
      Ret (write s [0x22])
  | Binary b subtype => dump_binary b subtype pretty_print indent_step current_indent s
  | Boolean b => Ret (write s (bytes_of (if b then "true" else "false")))
  | Number_integer z => dump_integer z s
  | Number_unsigned z => dump_integer z s
  | Number_float v => dump_float v s
  | Discarded => Ret (write s (bytes_of "<discarded>"))
  | Null => Ret (write s (bytes_of "null"))
  end.
End Dump.

(** [basic_json::dump] *)
Definition dump (j : json) (indent indent_char : Z) (ensure_ascii : bool) (handler : error_handler_t)
    : outcome (list Z) :=
  let s := new_serializer indent_char in
  s ← (if 0 <=? indent
       then dump_value handler j true ensure_ascii (u32 indent) 0 s
       else dump_value handler j false ensure_ascii 0 0 s);
  Ret (o s).
