(* ===== verification/JsonDump.v ===== *)
(** What the serializer of [src/util/nlohmann_json.hpp] writes for a number:
    the numeral, without leaving its buffer of 64 characters. *)

From Stdlib Require Import ZArith Lia.
From S2P Require Import Prelude JsonValue JsonNumber JsonGrammar.
From S2P Require Import JsonDtoa JsonDtoaDigits JsonDtoaCorrect JsonSerializer.
From stdpp Require Import base decidable option strings list.

Open Scope Z_scope.

(** ** Integers *)

Lemma decimal_length_pos n : 0 <= n -> 1 <= zlen (decimal n).
Proof.
  intros Hn. destruct (Z.lt_ge_cases n 10).
  - rewrite decimal_small by lia. done.
  - rewrite decimal_large by lia. len.
Qed.

Lemma decimal_pair n :
  100 <= n -> decimal n = decimal (n / 100) ++ [0x30 + n mod 100 / 10; 0x30 + n mod 100 mod 10].
Proof.
  intros Hn. rewrite (decimal_large n) by lia.
  assert (10 <= n / 10) by (apply Z.div_le_lower_bound; lia).
  rewrite (decimal_large (n / 10)) by lia. rewrite <- app_assoc, Z.div_div by lia. simpl.
  pose proof (Z.div_mod n 10 ltac:(lia)). pose proof (Z.mod_pos_bound n 10 ltac:(lia)).
  pose proof (Z.div_mod (n / 10) 10 ltac:(lia)). pose proof (Z.mod_pos_bound (n / 10) 10 ltac:(lia)).
  assert (E : n mod 100 = 10 * ((n / 10) mod 10) + n mod 10).
  { symmetry. apply Z.mod_unique with (q := n / 10 / 10); lia. }
  assert (E1 : n mod 100 / 10 = (n / 10) mod 10).
  { symmetry. apply Z.div_unique with (r := n mod 10); lia. }
  assert (E2 : n mod 100 mod 10 = n mod 10).
  { symmetry. apply Z.mod_unique with (q := (n / 10) mod 10); lia. }
  by rewrite E1, E2.
Qed.

Lemma decimal_two n : 10 <= n < 100 -> decimal n = [0x30 + n / 10; 0x30 + n mod 10].
Proof.
  intros Hn. rewrite decimal_large by lia.
  assert (n / 10 < 10) by (apply Z.div_lt_upper_bound; lia).
  rewrite decimal_small; [done|]. split; [apply Z.div_pos; lia|done].
Qed.

(** [count_digits] is the length of the numeral. *)
Lemma decimal_length_step n : 10 <= n -> zlen (decimal n) = zlen (decimal (n / 10)) + 1.
Proof. intros Hn. rewrite decimal_large by done. len. Qed.

Lemma decimal_length_one n : 0 <= n < 10 -> zlen (decimal n) = 1.
Proof. intros Hn. by rewrite decimal_small. Qed.

Lemma count_digits_loop_ok fuel x n :
  0 <= x < 10 ^ (4 * Z.of_nat fuel) -> (0 < fuel)%nat ->
  count_digits_loop fuel x n = Ret (n - 1 + zlen (decimal x)).
Proof.
  revert x n. induction fuel as [|fuel IH]; intros x n Hx Hf; [lia|]. cbn [count_digits_loop].
  assert (Hdiv : forall k, 0 < k -> 0 <= x / k < 10 <-> 0 <= x < 10 * k).
  { intros k Hk. split; intros H.
    - pose proof (Z.mul_succ_div_gt x k Hk). pose proof (Z.mul_div_le x k Hk). nia.
    - split; [apply Z.div_pos; lia|apply Z.div_lt_upper_bound; lia]. }
  destruct (Z.ltb_spec x 10); [rewrite decimal_length_one by lia; f_equal; lia|].
  rewrite (decimal_length_step x) by lia.
  destruct (Z.ltb_spec x 100); [rewrite decimal_length_one by (apply Hdiv; lia); f_equal; lia|].
  rewrite (decimal_length_step (x / 10)), Z.div_div by (try apply Z.div_le_lower_bound; lia).
  destruct (Z.ltb_spec x 1000); [rewrite decimal_length_one by (apply Hdiv; lia); f_equal; lia|].
  rewrite (decimal_length_step (x / _)), Z.div_div by (try apply Z.div_le_lower_bound; lia).
  destruct (Z.ltb_spec x 10000); [rewrite decimal_length_one by (apply Hdiv; lia); f_equal; lia|].
  rewrite (decimal_length_step (x / _)), Z.div_div by (try apply Z.div_le_lower_bound; lia).
  change (10 * 10 * 10 * 10) with 10000.
  replace (4 * Z.of_nat (S fuel)) with (4 * Z.of_nat fuel + 4) in Hx by lia.
  rewrite Z.pow_add_r in Hx by lia. change (10 ^ 4) with 10000 in Hx.
  assert (0 <= x / 10000 < 10 ^ (4 * Z.of_nat fuel)).
  { split; [apply Z.div_pos; lia|apply Z.div_lt_upper_bound; lia]. }
  destruct fuel as [|fuel].
  { change (10 ^ (4 * Z.of_nat 0)) with 1 in *. lia. }
  rewrite IH by lia. f_equal. lia.
Qed.

Lemma count_digits_ok x : 0 <= x < 2 ^ 64 -> count_digits x = Ret (zlen (decimal x)).
Proof. intros Hx. unfold count_digits. rewrite count_digits_loop_ok by lia. f_equal; lia. Qed.

Lemma decimal_length_bound x : 0 <= x < 2 ^ 64 -> zlen (decimal x) <= 20.
Proof.
  intros Hx. destruct (Z.lt_ge_cases 20 (zlen (decimal x))) as [H|]; [exfalso|done].
  pose proof (decimal_value_decimal x ltac:(lia)) as Hv.
  destruct (decide (x = 0)) as [->|]; [done|].
  destruct (decimal_head x ltac:(lia)) as (d & l & E & Hd). rewrite E in Hv, H.
  pose proof (decimal_digits x ltac:(lia)) as Hn. rewrite E in Hn. apply Forall_cons in Hn as [_ Hn].
  unfold decimal_value in Hv. cbn [foldl] in Hv. rewrite foldl_digits_acc in Hv.
  pose proof (numeral_nonneg l Hn). unfold digit_value in Hv.
  assert (10 ^ 20 <= 10 ^ zlen l) by (apply Z.pow_le_mono_r; len). nia.
Qed.

(** The two digits of a number below one hundred go before the others. *)
Lemma put_pair_ok pre room b x d1 d2 y i :
  holds pre room b (x ++ d1 :: d2 :: y) -> 0 <= i < 100 ->
  exists b', put_pair b (zlen pre + zlen x + 2) i = Ret (b', zlen pre + zlen x) /\
    holds pre room b' (x ++ [0x30 + i / 10; 0x30 + i mod 10] ++ y).
Proof.
  intros Hb Hi. unfold put_pair.
  assert (vget digits_to_99 i = Ret (0x30 + i / 10, 0x30 + i mod 10)) as ->.
  { apply vget_Ret. split; [lia|]. unfold digits_to_99. rewrite list_lookup_fmap, lookup_seq_lt by lia.
    simpl. by rewrite Z2Nat.id by lia. }
  bind_ret. cbn [fst snd].
  change (x ++ d1 :: d2 :: y) with (x ++ [d1] ++ d2 :: y) in Hb. rewrite app_assoc in Hb.
  destruct (holds_set pre room b (x ++ [d1]) d2 (0x30 + i mod 10) y Hb) as (b1 & Hs1 & Hb1).
  replace (zlen pre + zlen x + 2 - 1) with (zlen pre + zlen (x ++ [d1])) by len. rewrite Hs1. bind_ret.
  rewrite <- app_assoc in Hb1.
  destruct (holds_set pre room b1 x d1 (0x30 + i / 10) _ Hb1) as (b2 & Hs2 & Hb2).
  replace (zlen pre + zlen x + 2 - 2) with (zlen pre + zlen x) by lia. rewrite Hs2. bind_ret. by exists b2.
Qed.

(** [junk] is what stands where the digits of [v] go. *)
Lemma pairs_loop_ok fuel pre room b junk v suf :
  0 <= v < 100 ^ Z.of_nat fuel -> holds pre room b (junk ++ suf) -> zlen junk = zlen (decimal v) ->
  exists b' junk' v' suf', while_loop (S fuel) pairs_step (b, zlen pre + zlen junk, v)
      = Ret (b', zlen pre + zlen junk', v') /\
    holds pre room b' (junk' ++ suf') /\ zlen junk' = zlen (decimal v') /\ 0 <= v' < 100 /\
    decimal v ++ suf = decimal v' ++ suf'.
Proof.
  revert b junk v suf. induction fuel as [|fuel IH]; intros b junk v suf Hv Hb Hj.
  { change (100 ^ Z.of_nat 0) with 1 in Hv. assert (v = 0) as -> by lia.
    erewrite while_loop_break by done. by exists b, junk, 0, suf. }
  destruct (Z.lt_ge_cases v 100) as [Hs|Hl].
  { erewrite while_loop_break.
    2: { unfold pairs_step. rewrite (proj2 (Z.leb_gt _ _)) by lia. done. }
    exists b, junk, v, suf. by split_and!; [..|lia|lia|]. }
  rewrite (decimal_pair v Hl) in *.
  set (x := take (length (decimal (v / 100))) junk).
  assert (Hx : zlen x = zlen (decimal (v / 100))).
  { unfold x, zlen in *. rewrite length_take. rewrite length_app in Hj. cbn [length] in Hj. lia. }
  assert (exists d1 d2, junk = x ++ [d1; d2]) as (d1 & d2 & Ej).
  { assert (Ed : junk = x ++ drop (length (decimal (v / 100))) junk) by (unfold x; by rewrite take_drop).
    assert (Hd : zlen (drop (length (decimal (v / 100))) junk) = 2).
    { unfold zlen in *. rewrite length_drop. rewrite length_app in Hj. cbn [length] in Hj. lia. }
    destruct (drop _ junk) as [|d1 [|d2 [|]]]; try len. by exists d1, d2. }
  rewrite Ej, <- app_assoc in Hb. pose proof (Z.mod_pos_bound v 100 ltac:(lia)).
  destruct (put_pair_ok pre room b x d1 d2 suf (v mod 100) Hb ltac:(lia)) as (b1 & Hp & Hb1).
  erewrite while_loop_continue.
  2: { unfold pairs_step. rewrite (proj2 (Z.leb_le _ _)) by lia.
    replace (zlen pre + zlen junk) with (zlen pre + zlen x + 2) by (rewrite Ej; len).
    rewrite Hp. bind_ret. reflexivity. }
  rewrite <- app_assoc. apply IH; [|done|done].
  split; [apply Z.div_pos; lia|]. apply Z.div_lt_upper_bound; [lia|].
  rewrite Nat2Z.inj_succ, Z.pow_succ_r in Hv by lia. lia.
Qed.

(** The digits of [v], behind the sign in [pre], in a buffer of 64 characters. *)
Lemma digits_ok pre b v :
  0 < v < 2 ^ 64 -> zlen pre <= 1 -> zlen b = 64 -> take (length pre) b = pre ->
  exists b' b2 p2 v2, zlen b' = 64 /\
    take (Z.to_nat (zlen pre + zlen (decimal v))) b' = pre ++ decimal v /\
    while_loop 11 pairs_step (b, zlen pre + zlen (decimal v), v) = Ret (b2, p2, v2) /\
    (if 10 <=? v2
     then '(b, _) ← put_pair b2 p2 v2; Ret b
     else vset b2 (p2 - 1) (0x30 + v2)) = Ret b'.
Proof.
  intros Hv Hpre Hb Htake. pose proof (decimal_length_bound v ltac:(lia)) as Hlen.
  pose proof (decimal_length_pos v ltac:(lia)).
  assert (Hb0 : holds pre (64 - zlen pre) b []).
  { exists (drop (length pre) b). split; [|len]. rewrite <- (take_drop (length pre) b) at 1. by rewrite Htake. }
  destruct (holds_more _ _ b [] (zlen (decimal v)) Hb0) as (junk & Hj & Hb1); [lia|len|].
  rewrite <- (app_nil_r junk) in Hb1. rewrite <- Hj. cbn [app] in Hb1.
  assert (Hend : forall b', holds pre (64 - zlen pre) b' (decimal v) ->
    zlen b' = 64 /\ take (Z.to_nat (zlen pre + zlen junk)) b' = pre ++ decimal v).
  { intros b' (rest & -> & Hr). split; [len|]. rewrite app_assoc. apply take_app_length'. len. }
  assert (exists b2 junk2 v2 suf2, while_loop 11 pairs_step (b, zlen pre + zlen junk, v)
      = Ret (b2, zlen pre + zlen junk2, v2) /\ holds pre (64 - zlen pre) b2 (junk2 ++ suf2) /\
      zlen junk2 = zlen (decimal v2) /\ 0 <= v2 < 100 /\ decimal v ++ [] = decimal v2 ++ suf2)
    as (b2 & j2 & v2 & s2 & Hw & Hb2 & Hj2 & Hv2 & Hd).
  { apply (pairs_loop_ok 10); [change (100 ^ Z.of_nat 10) with (10 ^ 20); lia|done|done]. }
  rewrite app_nil_r in Hd. destruct (Z.leb_spec 10 v2).
  - rewrite (decimal_two v2) in Hj2, Hd by lia. destruct j2 as [|d1 [|d2 [|]]]; try len.
    destruct (put_pair_ok _ _ b2 [] d1 d2 s2 v2 Hb2 ltac:(lia)) as (b3 & Hp & Hb3).
    change (zlen [d1; d2]) with 2. rewrite Z.add_0_r in Hp. exists b3, b2, (zlen pre + 2), v2.
    cbn [app] in Hb3, Hd. rewrite <- Hd in Hb3. destruct (Hend b3 Hb3).
    rewrite (proj2 (Z.leb_le 10 v2)), Hp by done. done.
  - rewrite (decimal_small v2) in Hj2, Hd by lia. destruct j2 as [|d1 [|]]; try len.
    destruct (holds_set _ _ b2 [] d1 (0x30 + v2) s2 Hb2) as (b3 & Hp & Hb3).
    exists b3, b2, (zlen pre + zlen [d1]), v2. cbn [app] in Hb3, Hd. rewrite <- Hd in Hb3.
    destruct (Hend b3 Hb3). rewrite (proj2 (Z.leb_gt 10 v2)) by done.
    replace (zlen pre + zlen [d1] - 1) with (zlen pre + zlen (@nil Z)) by len. done.
Qed.

(** The buffers and the indentation string do not matter for what follows. *)
Definition buffers_ok (s : serializer) : Prop := zlen (number_buffer s) = 64 /\ zlen (string_buffer s) = 512.

(** [s'] is [s] after the output of [t]. *)
Definition wrote (s s' : serializer) (t : list Z) : Prop :=
  o s' = o s ++ t /\ buffers_ok s' /\ indent_string s' = indent_string s.

Lemma wrote_write s t : buffers_ok s -> wrote s (write s t) t.
Proof. done. Qed.

Lemma wrote_trans s s' s'' t t' : wrote s s' t -> wrote s' s'' t' -> wrote s s'' (t ++ t').
Proof. intros (E1 & _ & I1) (E2 & B & I2). split_and!; [by rewrite E2, E1, app_assoc|done|congruence]. Qed.

(** [dump_integer] writes the numeral. *)
Lemma dump_integer_ok x s :
  LLONG_MIN <= x <= ULLONG_MAX -> buffers_ok s ->
  exists s', dump_integer x s = Ret s' /\ wrote s s' (to_string x).
Proof.
  unfold LLONG_MIN, ULLONG_MAX. intros Hx [Hn Hs]. unfold dump_integer, to_string.
  destruct (Z.eqb_spec x 0) as [->|]; [by eexists|].
  pose proof (decimal_length_bound (Z.abs x) ltac:(lia)). destruct (Z.ltb_spec x 0).
  - destruct (number_buffer s) as [|c0 b] eqn:Eb; [len|].
    change (vset (c0 :: b) 0 (ch "-")) with (Ret (ch "-" :: b)). bind_ret.
    unfold remove_sign. rewrite assert_true by (rewrite andb_true_iff, !Z.ltb_lt; unfold LLONG_MAX; lia).
    bind_ret. rewrite (word_small (- (x + 1))), word_small by lia.
    replace (- (x + 1) + 1) with (- x) by lia. rewrite count_digits_ok by lia. bind_ret.
    destruct (digits_ok [ch "-"] (ch "-" :: b) (- x)) as (b' & b2 & p2 & v2 & Hb' & Ht & Hw & Hf); [lia|len|len|done|].
    change (zlen [ch "-"]) with 1 in *. replace (Z.abs x) with (- x) in * by lia.
    rewrite assert_true by (apply Z.ltb_lt; len). bind_ret. rewrite Hw. bind_ret. rewrite Hf. bind_ret.
    eexists. split; [done|]. split_and!; [cbn [o]; by rewrite Ht|done..].
  - rewrite count_digits_ok by lia. bind_ret.
    destruct (digits_ok [] (number_buffer s) x) as (b' & b2 & p2 & v2 & Hb' & Ht & Hw & Hf); [lia|len|len|done|].
    change (zlen (@nil Z)) with 0 in *. rewrite Z.add_0_l in Hw, Ht. replace (Z.abs x) with x in * by lia.
    rewrite assert_true by (apply Z.ltb_lt; len). bind_ret. rewrite Hw. bind_ret. rewrite Hf. bind_ret.
    eexists. split; [done|]. split_and!; [cbn [o]; by rewrite Ht|done..].
Qed.

(** [dump_float] writes a number that stands for the double. *)
Lemma dump_float_ok v s :
  0 <= v < 2 ^ 64 -> isfinite v = true -> buffers_ok s ->
  exists s' t, dump_float v s = Ret s' /\ wrote s s' t /\ number_form t (Number_float v).
Proof.
  intros Hv Hf [Hn Hs]. unfold dump_float. rewrite Hf, Hn. cbn [negb].
  destruct (to_chars_ok (number_buffer s) v Hn Hv Hf) as (b & t & -> & Hb & Ht & Hnum). bind_ret.
  eexists _, t. split; [done|]. split; [|done].
  split_and!; [cbn [o]|done..]. unfold zlen. by rewrite Nat2Z.id, Ht.
Qed.
