(* ===== verification/JsonDumpString.v ===== *)
(** What [dump_escaped] of [src/util/nlohmann_json.hpp] writes: the automaton
    of [decode] accepts UTF-8 and nothing else, and what is written is the body
    of a JSON string; the buffer of 512 characters is never left. *)

From Stdlib Require Import ZArith Lia.
From S2P Require Import Prelude JsonValue JsonNumber JsonGrammar.
From S2P Require Import JsonDtoa JsonDtoaDigits JsonDtoaCorrect JsonSerializer JsonDump.
From stdpp Require Import base decidable option strings list.

Open Scope Z_scope.

(** ** The automaton *)

Lemma byte_all (p : Z -> bool) :
  forallb (fun i => p (Z.of_nat i)) (seq 0 256) = true -> forall b, is_byte b -> p b = true.
Proof.
  intros H b Hb. rewrite forallb_forall in H. unfold is_byte in Hb.
  rewrite <- (Z2Nat.id b) by lia. apply H, in_seq. lia.
Qed.

Definition byte_type (b : Z) : Z := default 0 (utf8d !! Z.to_nat b).

(** The next state, by the ranges of the bytes. *)
Definition next (st b : Z) : Z :=
  let within lo hi k := if (lo <=? b) && (b <=? hi) then k else UTF8_REJECT in
  if st =? 0
  then if b <? 0x80 then 0
       else if b <? 0xC2 then UTF8_REJECT
       else if b <=? 0xDF then 2
       else if b =? 0xE0 then 4
       else if b =? 0xED then 5
       else if b <=? 0xEF then 3
       else if b =? 0xF0 then 6
       else if b <=? 0xF3 then 7
       else if b =? 0xF4 then 8
       else UTF8_REJECT
  else if st =? 2 then within 0x80 0xBF 0
  else if st =? 3 then within 0x80 0xBF 2
  else if st =? 4 then within 0xA0 0xBF 2
  else if st =? 5 then within 0x80 0x9F 2
  else if st =? 6 then within 0x90 0xBF 3
  else if st =? 7 then within 0x80 0xBF 3
  else if st =? 8 then within 0x80 0x8F 3
  else UTF8_REJECT.

(** The value of the bits of the first byte. *)
Definition first_value (b : Z) : Z :=
  if b <? 0x80 then b else if b <? 0xE0 then b - 0xC0 else if b <? 0xF0 then b - 0xE0 else b - 0xF0.

Definition running (st : Z) : Prop := st = 0 \/ 2 <= st <= 8.

Lemma table_types : forall b, is_byte b -> (0 <=? byte_type b) && (byte_type b <=? 11) = true.
Proof. apply byte_all. vm_compute. reflexivity. Qed.

Lemma table_states : forall b, is_byte b ->
  forallb (fun st => default 99 (utf8d !! Z.to_nat (256 + st * 16 + byte_type b)) =? next st b)
    [0; 2; 3; 4; 5; 6; 7; 8] = true.
Proof. apply (byte_all (fun b => forallb _ _)). vm_compute. reflexivity. Qed.

Lemma table_first : forall b, is_byte b ->
  (next 0 b =? UTF8_REJECT) || (Z.land (Z.shiftr 0xFF (byte_type b)) b =? first_value b) = true.
Proof. apply (byte_all (fun b => orb _ _)). vm_compute. reflexivity. Qed.

Lemma decode_shape st cp b :
  running st -> is_byte b ->
  decode st cp b = Ret (next st b,
    if negb (st =? 0) then Z.lor (Z.land b 0x3F) (u32 (Z.shiftl cp 6))
    else Z.land (Z.shiftr 0xFF (byte_type b)) b).
Proof.
  intros Hst Hb. pose proof (table_types b Hb) as Ht. pose proof (table_states b Hb) as Hn.
  unfold is_byte, running in *. rewrite andb_true_iff, !Z.leb_le in Ht.
  assert (Hget : forall i, 0 <= i < 400 -> vget utf8d i = Ret (default 99 (utf8d !! Z.to_nat i))).
  { intros i Hi. destruct (vget_in_range utf8d i) as [a Ha]; [done|]. rewrite Ha.
    apply vget_Ret in Ha as [_ ->]. done. }
  assert (Ety : default 99 (utf8d !! Z.to_nat b) = byte_type b).
  { unfold byte_type. destruct (lookup_lt_is_Some_2 utf8d (Z.to_nat b)) as [a ->]; [|done].
    change (length utf8d) with 400%nat. lia. }
  unfold decode. change (zlen utf8d) with 400.
  rewrite assert_true by (apply Z.ltb_lt; lia). bind_ret.
  rewrite Hget by lia. bind_ret. rewrite Ety.
  rewrite assert_true by (apply Z.ltb_lt; lia). bind_ret.
  rewrite Hget by lia. bind_ret. f_equal. f_equal.
  rewrite forallb_forall in Hn. apply Z.eqb_eq. apply Hn.
  assert (st = 0 \/ st = 2 \/ st = 3 \/ st = 4 \/ st = 5 \/ st = 6 \/ st = 7 \/ st = 8) by lia.
  cbn [List.In]. lia.
Qed.

Lemma decode_first cp b :
  is_byte b -> next 0 b <> UTF8_REJECT -> decode 0 cp b = Ret (next 0 b, first_value b).
Proof.
  intros Hb Hn. rewrite decode_shape by (by (left || done)). simpl.
  pose proof (table_first b Hb) as H. rewrite orb_true_iff, !Z.eqb_eq in H.
  destruct H as [H|H]; [done|]. by rewrite H.
Qed.

Lemma decode_more st cp b :
  2 <= st <= 8 -> 0 <= cp < 2 ^ 26 -> 0x80 <= b <= 0xBF ->
  decode st cp b = Ret (next st b, cp * 64 + (b - 0x80)).
Proof.
  intros Hst Hcp Hb. rewrite decode_shape by (unfold running, is_byte; lia).
  rewrite (proj2 (Z.eqb_neq _ _)) by lia. cbn [negb]. f_equal. f_equal.
  rewrite Z.shiftl_mul_pow2, u32_small by lia.
  change 0x3F with (2 ^ 6 - 1). rewrite land_mask by lia.
  assert (Hm : b mod 2 ^ 6 = b - 0x80).
  { symmetry. apply Z.mod_unique with (q := 2); lia. }
  rewrite Hm, Z.lor_comm, lor_disjoint by lia. lia.
Qed.

(** Reading the bytes of a code point one by one. *)
Fixpoint runs (st cp : Z) (l : list Z) (final : Z) : Prop :=
  match l with
  | [] => False
  | [b] => decode st cp b = Ret (UTF8_ACCEPT, final)
  | b :: l => exists st' cp', decode st cp b = Ret (st', cp') /\ 2 <= st' <= 8 /\ runs st' cp' l final
  end.

Lemma runs_more st cp b l final :
  2 <= st <= 8 -> 0 <= cp < 2 ^ 26 -> 0x80 <= b <= 0xBF -> 2 <= next st b <= 8 -> l <> [] ->
  runs (next st b) (cp * 64 + (b - 0x80)) l final -> runs st cp (b :: l) final.
Proof.
  intros Hst Hcp Hb Hn Hl H. destruct l as [|b' l]; [done|].
  exists (next st b), (cp * 64 + (b - 0x80)). split; [by apply decode_more|done].
Qed.

Lemma runs_last st cp b final :
  2 <= st <= 8 -> 0 <= cp < 2 ^ 26 -> 0x80 <= b <= 0xBF -> next st b = 0 ->
  cp * 64 + (b - 0x80) = final -> runs st cp [b] final.
Proof. intros Hst Hcp Hb Hn <-. simpl. by rewrite decode_more, Hn. Qed.

Lemma runs_first b l final c0 :
  is_byte b -> 2 <= next 0 b <= 8 -> l <> [] ->
  runs (next 0 b) (first_value b) l final -> runs 0 c0 (b :: l) final.
Proof.
  intros Hb Hn Hl H. destruct l as [|b' l]; [done|].
  exists (next 0 b), (first_value b). split; [|done]. apply decode_first; [done|].
  unfold UTF8_REJECT. lia.
Qed.

(** The states behind the first two bytes of a sequence of three or four. *)
Lemma states_three q r :
  0 <= q <= 15 -> 0 <= r < 64 -> (q = 0 -> 32 <= r) -> (q = 13 -> r < 32) ->
  exists st, next 0 (0xE0 + q) = st /\ 2 <= st <= 8 /\ next st (0x80 + r) = 2.
Proof.
  intros Hq Hr H0 H13. destruct (Z.eq_dec q 0); [|destruct (Z.eq_dec q 13)].
  - exists 4. split_and!; [unfold next; ztests; done|lia|lia|unfold next; ztests; done].
  - exists 5. split_and!; [unfold next; ztests; done|lia|lia|unfold next; ztests; done].
  - exists 3. split_and!; [unfold next; ztests; done|lia|lia|unfold next; ztests; done].
Qed.

Lemma states_four q r :
  0 <= q <= 4 -> 0 <= r < 64 -> (q = 0 -> 16 <= r) -> (q = 4 -> r < 16) ->
  exists st, next 0 (0xF0 + q) = st /\ 2 <= st <= 8 /\ next st (0x80 + r) = 3.
Proof.
  intros Hq Hr H0 H4. destruct (Z.eq_dec q 0); [|destruct (Z.eq_dec q 4)].
  - exists 6. split_and!; [unfold next; ztests; done|lia|lia|unfold next; ztests; done].
  - exists 8. split_and!; [unfold next; ztests; done|lia|lia|unfold next; ztests; done].
  - exists 7. split_and!; [unfold next; ztests; done|lia|lia|unfold next; ztests; done].
Qed.

Lemma next_cont r : 0 <= r < 64 -> next 2 (0x80 + r) = 0 /\ next 3 (0x80 + r) = 2.
Proof. intros Hr. unfold next. split; ztests; done. Qed.

(** The automaton accepts every scalar value. *)
Lemma scalar_runs cp c0 : scalar cp -> runs 0 c0 (utf8_encode cp) cp.
Proof.
  intros [Hcp Hs]. rewrite utf8_encode_arith by lia. unfold utf8_arith.
  pose proof (Z.div_mod cp 64 ltac:(lia)). pose proof (Z.mod_pos_bound cp 64 ltac:(lia)).
  destruct (next_cont (cp mod 64)) as [N2 _]; [lia|].
  destruct (Z.ltb_spec cp 0x80).
  { unfold runs. rewrite decode_first; unfold next, first_value, is_byte, UTF8_REJECT; [|lia|]; by ztests. }
  destruct (Z.leb_spec cp 0x7FF).
  { apply runs_first; [unfold is_byte; lia|unfold next; ztests|done|].
    apply runs_last; unfold next, first_value; ztests; done || lia. }
  replace (cp / 4096) with (cp / 64 / 64) by (by rewrite Z.div_div by lia).
  pose proof (Z.div_mod (cp / 64) 64 ltac:(lia)). pose proof (Z.mod_pos_bound (cp / 64) 64 ltac:(lia)).
  destruct (Z.leb_spec cp 0xFFFF).
  { destruct (states_three (cp / 64 / 64) ((cp / 64) mod 64)) as (st & E1 & Hst & E2); [lia..|].
    assert (Hv : first_value (0xE0 + cp / 64 / 64) = cp / 64 / 64) by (unfold first_value; ztests).
    apply runs_first; rewrite ?E1, ?Hv; [unfold is_byte; lia|lia|done|].
    apply runs_more; rewrite ?E2; [lia..|done|]. apply runs_last; [lia..|done|lia]. }
  replace (cp / 262144) with (cp / 64 / 64 / 64) by (by rewrite (Z.div_div cp 64 64), Z.div_div by lia).
  pose proof (Z.div_mod (cp / 64 / 64) 64 ltac:(lia)). pose proof (Z.mod_pos_bound (cp / 64 / 64) 64 ltac:(lia)).
  destruct (next_cont ((cp / 64) mod 64)) as [_ N3]; [lia|].
  destruct (states_four (cp / 64 / 64 / 64) ((cp / 64 / 64) mod 64)) as (st & E1 & Hst & E2); [lia..|].
  assert (Hv : first_value (0xF0 + cp / 64 / 64 / 64) = cp / 64 / 64 / 64) by (unfold first_value; ztests).
  apply runs_first; rewrite ?E1, ?Hv; [unfold is_byte; lia|lia|done|].
  apply runs_more; rewrite ?E2; [lia..|done|]. apply runs_more; rewrite ?N3; [lia..|done|].
  apply runs_last; [lia..|done|lia].
Qed.

(** ** Incomplete sequences *)

Lemma div64 q r : 0 <= r < 64 -> (q * 64 + r) / 64 = q /\ (q * 64 + r) mod 64 = r.
Proof.
  intros Hr. rewrite Z.div_add_l, Z.div_small by lia. split; [lia|].
  rewrite Z.add_comm, Z.mod_add, Z.mod_small by lia. done.
Qed.

Lemma encode_two q r :
  2 <= q <= 31 -> 0 <= r < 64 -> utf8_encode (q * 64 + r) = [0xC0 + q; 0x80 + r].
Proof.
  intros Hq Hr. rewrite utf8_encode_arith by lia. unfold utf8_arith. ztests.
  destruct (div64 q r Hr) as [-> ->]. done.
Qed.

Lemma encode_three q r1 r0 :
  0 <= q <= 15 -> 0 <= r1 < 64 -> 0 <= r0 < 64 -> (q = 0 -> 32 <= r1) ->
  utf8_encode ((q * 64 + r1) * 64 + r0) = [0xE0 + q; 0x80 + r1; 0x80 + r0].
Proof.
  intros Hq H1 H0 Hlow. rewrite utf8_encode_arith by lia. unfold utf8_arith. ztests.
  replace (_ / 4096) with (((q * 64 + r1) * 64 + r0) / 64 / 64) by (by rewrite Z.div_div by lia).
  destruct (div64 (q * 64 + r1) r0 H0) as [-> ->]. destruct (div64 q r1 H1) as [-> ->]. done.
Qed.

Lemma encode_four q r2 r1 r0 :
  0 <= q <= 4 -> 0 <= r2 < 64 -> 0 <= r1 < 64 -> 0 <= r0 < 64 -> (q = 0 -> 16 <= r2) -> (q = 4 -> r2 < 16) ->
  utf8_encode (((q * 64 + r2) * 64 + r1) * 64 + r0) = [0xF0 + q; 0x80 + r2; 0x80 + r1; 0x80 + r0].
Proof.
  intros Hq H2 H1 H0 Hlow Hhigh. rewrite utf8_encode_arith by lia. unfold utf8_arith. ztests.
  set (cp := ((q * 64 + r2) * 64 + r1) * 64 + r0).
  replace (cp / 262144) with (cp / 64 / 64 / 64) by (by rewrite (Z.div_div cp 64 64), Z.div_div by lia).
  replace (cp / 4096) with (cp / 64 / 64) by (by rewrite Z.div_div by lia). subst cp.
  destruct (div64 ((q * 64 + r2) * 64 + r1) r0 H0) as [-> ->]. destruct (div64 (q * 64 + r2) r1 H1) as [-> ->].
  destruct (div64 q r2 H2) as [-> ->]. done.
Qed.

(** The bytes [raw] are read and have the value [v]; one, two or three more
    bytes from the given range make a scalar value of them. *)
Definition seq2 (v : Z) (raw : list Z) : Prop :=
  0 <= v < 2 ^ 26 /\ forall c, 0x80 <= c <= 0xBF ->
    scalar (v * 64 + (c - 0x80)) /\ utf8_encode (v * 64 + (c - 0x80)) = raw ++ [c].
Definition seq3 (lo hi v : Z) (raw : list Z) : Prop :=
  0 <= v < 2 ^ 26 /\ forall c, lo <= c <= hi -> seq2 (v * 64 + (c - 0x80)) (raw ++ [c]).
Definition seq4 (lo hi v : Z) (raw : list Z) : Prop :=
  0 <= v < 2 ^ 26 /\ forall c, lo <= c <= hi -> seq3 0x80 0xBF (v * 64 + (c - 0x80)) (raw ++ [c]).

Inductive partial : Z -> Z -> list Z -> Prop :=
  | partial2 v raw : seq2 v raw -> partial 2 v raw
  | partial3 v raw : seq3 0x80 0xBF v raw -> partial 3 v raw
  | partial4 v raw : seq3 0xA0 0xBF v raw -> partial 4 v raw
  | partial5 v raw : seq3 0x80 0x9F v raw -> partial 5 v raw
  | partial6 v raw : seq4 0x90 0xBF v raw -> partial 6 v raw
  | partial7 v raw : seq4 0x80 0xBF v raw -> partial 7 v raw
  | partial8 v raw : seq4 0x80 0x8F v raw -> partial 8 v raw.

Lemma partial_state st v raw : partial st v raw -> 2 <= st <= 8.
Proof. destruct 1; lia. Qed.

(** What [decode] makes of one more byte. *)
Definition decoded (st v : Z) (raw : list Z) : Prop :=
  st = UTF8_REJECT \/ (st = UTF8_ACCEPT /\ scalar v /\ utf8_encode v = raw) \/ partial st v raw.

Lemma decode_partial st v raw b :
  partial st v raw -> is_byte b ->
  exists st' v', decode st v b = Ret (st', v') /\ decoded st' v' (raw ++ [b]).
Proof.
  intros Hp Hb. pose proof (partial_state _ _ _ Hp) as Hst.
  assert (Hout : next st b = UTF8_REJECT ->
    exists st' v', decode st v b = Ret (st', v') /\ decoded st' v' (raw ++ [b])).
  { intros Hn. rewrite decode_shape by (unfold running; lia || done). eexists _, _. split; [done|]. by left. }
  assert (Hin : 0x80 <= b <= 0xBF -> 0 <= v < 2 ^ 26 -> decoded (next st b) (v * 64 + (b - 0x80)) (raw ++ [b]) ->
    exists st' v', decode st v b = Ret (st', v') /\ decoded st' v' (raw ++ [b])).
  { intros Hb' Hv Hd. rewrite decode_more by done. by eexists _, _. }
  unfold next in *. clear Hst. destruct Hp as [v raw H|v raw H|v raw H|v raw H|v raw H|v raw H|v raw H];
    cbn [Z.eqb Pos.eqb] in *; destruct H as [Hv H];
    match type of H with forall c, ?lo <= c <= ?hi -> _ =>
      destruct (Z.leb_spec lo b), (Z.leb_spec b hi); cbn [andb] in *; try (by apply Hout)
    end; (apply Hin; [lia|done|]).
  - right; left. by destruct (H b ltac:(lia)).
  - right; right. constructor. apply H. lia.
  - right; right. constructor. apply H. lia.
  - right; right. constructor. apply H. lia.
  - right; right. constructor. apply H. lia.
  - right; right. constructor. apply H. lia.
  - right; right. constructor. apply H. lia.
Qed.

Lemma seq2_lead b : 0xC2 <= b <= 0xDF -> seq2 (b - 0xC0) [b].
Proof.
  intros Hb. split; [lia|]. intros c Hc. split; [split; lia|].
  rewrite encode_two by lia. simpl. by replace (0xC0 + (b - 0xC0)) with b by lia;
    replace (0x80 + (c - 0x80)) with c by lia.
Qed.

Lemma seq3_lead b lo hi :
  0xE0 <= b <= 0xEF -> 0x80 <= lo -> hi <= 0xBF -> (b = 0xE0 -> 0xA0 <= lo) -> (b = 0xED -> hi <= 0x9F) ->
  seq3 lo hi (b - 0xE0) [b].
Proof.
  intros Hb Hlo Hhi H0 HD. split; [lia|]. intros c Hc. split; [lia|]. intros c' Hc'. split; [split; lia|].
  rewrite encode_three by lia. simpl. replace (0xE0 + (b - 0xE0)) with b by lia.
  by replace (0x80 + (c - 0x80)) with c by lia; replace (0x80 + (c' - 0x80)) with c' by lia.
Qed.

Lemma seq4_lead b lo hi :
  0xF0 <= b <= 0xF4 -> 0x80 <= lo -> hi <= 0xBF -> (b = 0xF0 -> 0x90 <= lo) -> (b = 0xF4 -> hi <= 0x8F) ->
  seq4 lo hi (b - 0xF0) [b].
Proof.
  intros Hb Hlo Hhi H0 H4. split; [lia|]. intros c Hc. split; [lia|]. intros c' Hc'. split; [lia|].
  intros d Hd. split; [split; lia|].
  rewrite encode_four by lia. simpl. replace (0xF0 + (b - 0xF0)) with b by lia.
  replace (0x80 + (d - 0x80)) with d by lia.
  by replace (0x80 + (c - 0x80)) with c by lia; replace (0x80 + (c' - 0x80)) with c' by lia.
Qed.

Lemma decode_lead c0 b :
  is_byte b -> exists st v, decode 0 c0 b = Ret (st, v) /\ decoded st v [b].
Proof.
  intros Hb. unfold is_byte in Hb. destruct (Z.eq_dec (next 0 b) UTF8_REJECT) as [Hn|Hn].
  { rewrite decode_shape by (by (left || done)). eexists _, _. split; [done|]. by left. }
  rewrite decode_first by done. eexists _, _. split; [done|]. clear c0.
  unfold next, first_value in *. cbn [Z.eqb] in *.
  destruct (Z.ltb_spec b 0x80).
  { right; left. split_and!; [done|split; lia|apply utf8_encode_ascii; lia]. }
  destruct (Z.ltb_spec b 0xC2); [done|].
  destruct (Z.leb_spec b 0xDF).
  { rewrite (proj2 (Z.ltb_lt b 0xE0)) by lia. right; right. constructor. apply seq2_lead. lia. }
  rewrite (proj2 (Z.ltb_ge b 0xE0)) by lia.
  destruct (Z.leb_spec b 0xEF).
  - rewrite (proj2 (Z.ltb_lt b 0xF0)) by lia.
    destruct (Z.eqb_spec b 0xE0); [|destruct (Z.eqb_spec b 0xED)];
      right; right; constructor; apply seq3_lead; lia.
  - rewrite (proj2 (Z.ltb_ge b 0xF0)) by lia.
    destruct (Z.eqb_spec b 0xE0), (Z.eqb_spec b 0xED); try lia.
    destruct (Z.eqb_spec b 0xF0); [|destruct (Z.leb_spec b 0xF3); [|destruct (Z.eqb_spec b 0xF4)]];
      try done; right; right; constructor; apply seq4_lead; lia.
Qed.

(** ** What is written for a code point *)

Definition item (ensure_ascii : bool) (cp : Z) : list Z :=
  match short_escape cp with
  | Some e => [0x5C; e]
  | None =>
      if (cp <=? 0x1F) || (ensure_ascii && (0x7F <=? cp))
      then
        if cp <=? 0xFFFF
        then unicode_escape cp
        else unicode_escape (0xD7C0 + Z.shiftr cp 10) ++ unicode_escape (0xDC00 + Z.land cp 0x3FF)
      else utf8_encode cp
  end.

Lemma hex_value_nibble n : 0 <= n < 16 -> hex_value (nibble_to_hex false n) = Some n.
Proof. intros Hn. unfold nibble_to_hex. destruct (Z.ltb_spec n 10); unfold hex_value; ztests; f_equal; lia. Qed.

Lemma hex04_ok x :
  0 <= x < 2 ^ 16 -> exists a b c d, hex04 x = [a; b; c; d] /\ hex4 a b c d = Some x.
Proof.
  intros Hx. unfold hex04. simpl. eexists _, _, _, _. split; [done|]. unfold hex4.
  pose proof (Z.mod_pos_bound (x / 256) 16 ltac:(lia)). pose proof (Z.mod_pos_bound (x / 16) 16 ltac:(lia)).
  pose proof (Z.mod_pos_bound x 16 ltac:(lia)).
  assert (0 <= x / 4096 < 16) by (split; [apply Z.div_pos|apply Z.div_lt_upper_bound]; lia).
  rewrite !hex_value_nibble by lia. simpl. f_equal.
  pose proof (Z.div_mod x 16 ltac:(lia)). pose proof (Z.div_mod (x / 16) 16 ltac:(lia)).
  pose proof (Z.div_mod (x / 256) 16 ltac:(lia)).
  assert (x / 16 / 16 = x / 256) by (by rewrite Z.div_div by lia).
  assert (x / 256 / 16 = x / 4096) by (by rewrite Z.div_div by lia). lia.
Qed.

Lemma short_escape_ok cp e : short_escape cp = Some e -> escape_char e = Some cp /\ 0 <= cp < 0x7F.
Proof.
  unfold short_escape. intros H.
  repeat match type of H with context [?a =? ?b] => destruct (Z.eqb_spec a b) end;
    try discriminate; injection H as <-; subst cp; (split; [reflexivity|lia]).
Qed.

Lemma short_escape_none cp : short_escape cp = None -> cp <> 0x22 /\ cp <> 0x5C.
Proof.
  unfold short_escape. intros H. split; intros ->; discriminate.
Qed.

Lemma item_ok ensure_ascii cp : scalar cp -> string_item (item ensure_ascii cp) cp.
Proof.
  intros [Hcp Hs]. unfold item. destruct (short_escape cp) as [e|] eqn:He.
  { apply item_escape, (short_escape_ok cp e He). }
  destruct (short_escape_none cp He).
  destruct ((cp <=? 0x1F) || _) eqn:Ht.
  2: { apply orb_false_iff in Ht as [Ht _]. apply Z.leb_gt in Ht. apply item_char; [by split|lia|done..]. }
  unfold unicode_escape. destruct (Z.leb_spec cp 0xFFFF).
  - rewrite Z.mod_small by lia. destruct (hex04_ok cp) as (a & b & c & d & -> & Hh); [lia|].
    by apply item_unicode.
  - rewrite Z.shiftr_div_pow2 by lia. change 0x3FF with (2 ^ 10 - 1). rewrite land_mask by lia.
    pose proof (Z.div_mod cp (2 ^ 10) ltac:(lia)). pose proof (Z.mod_pos_bound cp (2 ^ 10) ltac:(lia)).
    set (q := cp / 2 ^ 10) in *. set (r := cp mod 2 ^ 10) in *. clearbody q r.
    rewrite !Z.mod_small by lia.
    destruct (hex04_ok (0xD7C0 + q)) as (a & b & c & d & -> & Hh); [lia|].
    destruct (hex04_ok (0xDC00 + r)) as (a' & b' & c' & d' & -> & Hl); [lia|].
    replace cp with (0x10000 + (0xD7C0 + q - 0xD800) * 0x400 + (0xDC00 + r - 0xDC00)) by lia.
    cbn [app]. apply item_pair; [done|lia|done|lia].
Qed.

Lemma encode_length cp : zlen (utf8_encode cp) <= 4.
Proof. unfold utf8_encode. repeat case_match; len. Qed.

Lemma item_length ensure_ascii cp : zlen (item ensure_ascii cp) <= 12.
Proof.
  unfold item. pose proof (encode_length cp). repeat case_match; try len.
  all: unfold unicode_escape, hex04; simpl; len.
Qed.

(** ** The loop *)

Definition with_buffer (x : escaping) (b : list Z) (n : Z) : escaping :=
  let s := ser x in
  Escaping (codepoint x) (state x) n (bytes_after_last_accept x) (undumped_chars x) (index x)
    (Serializer (o s) (number_buffer s) b (indent_string s)).

Lemma puts_ok x l text :
  holds [] 512 (string_buffer (ser x)) text -> bytes_ x = zlen text -> zlen text + zlen l <= 512 ->
  exists b, puts x l = Ret (with_buffer x b (zlen text + zlen l)) /\ holds [] 512 b (text ++ l).
Proof.
  revert x text. induction l as [|c l IH]; intros x text Hh Hb Hl.
  - exists (string_buffer (ser x)). rewrite app_nil_r. split; [|done].
    destruct x as [cp st by' la un ix [o' nb sb is_]]. cbn in *. unfold with_buffer. cbn.
    rewrite Hb. change (zlen (@nil Z)) with 0. by rewrite Z.add_0_r.
  - cbn [puts]. unfold put. rewrite Hb.
    destruct (holds_write [] 512 (string_buffer (ser x)) text c Hh) as (b1 & Hs & Hb1); [len|].
    change (zlen (@nil Z)) with 0 in Hs. rewrite Z.add_0_l in Hs. rewrite Hs. bind_ret.
    edestruct (IH (with_buffer x b1 (zlen text + 1)) (text ++ [c])) as (b & Hp & Hb2); [exact Hb1|cbn; len|len|].
    unfold with_buffer at 1 in Hp. cbn [ser codepoint state bytes_after_last_accept undumped_chars index
      o number_buffer indent_string] in Hp. rewrite Hp.
    exists b. rewrite <- app_assoc in Hb2. split; [|done]. unfold with_buffer. cbn. f_equal. f_equal. len.
Qed.

Lemma print_escape_ok x l text :
  holds [] 512 (string_buffer (ser x)) text -> bytes_ x = zlen text -> zlen text + zlen l < 512 ->
  exists b, print_escape x l = Ret (with_buffer x b (zlen text + zlen l)) /\ holds [] 512 b (text ++ l).
Proof.
  intros Hh Hb Hl. unfold print_escape.
  destruct (puts_ok x (l ++ [0]) text Hh Hb) as (b & -> & Hb'); [len|]. bind_ret.
  exists b. split.
  - unfold set_bytes, with_buffer. cbn. f_equal. f_equal. len.
  - destruct Hb' as (rest & E & Hr). exists (0 :: rest). rewrite E, <- !app_assoc. split; [done|len].
Qed.

(** [body] is written or in the buffer up to the last accepted code point, and
    [raw] are the bytes behind it. *)
Definition escaped (s0 : serializer) (ensure_ascii : bool) (x : escaping) (body raw : list Z) : Prop :=
  exists out pending, body = out ++ pending /\ o (ser x) = o s0 ++ out /\
    let text := pending ++ (if ensure_ascii then [] else raw) in
    holds [] 512 (string_buffer (ser x)) text /\ bytes_ x = zlen text /\
    bytes_after_last_accept x = zlen pending /\ zlen pending <= 499 /\ undumped_chars x = zlen raw /\
    zlen raw <= 3 /\ zlen (number_buffer (ser x)) = 64 /\ indent_string (ser x) = indent_string s0.

Lemma escaped_start s0 ensure_ascii :
  buffers_ok s0 -> escaped s0 ensure_ascii (Escaping 0 UTF8_ACCEPT 0 0 0 0 s0) [] [].
Proof.
  intros [Hn Hs]. exists [], []. cbn. rewrite app_nil_r. destruct ensure_ascii; cbn.
  all: split_and!; try done. all: exists (string_buffer s0); split; [done|len].
Qed.

(** The end of an accepted or replaced code point: the text behind [pending] is
    [it]. *)
Lemma escaped_flush s0 ensure_ascii x out pending it b :
  o (ser x) = o s0 ++ out -> holds [] 512 b (pending ++ it) -> zlen pending <= 499 -> zlen it <= 13 ->
  zlen (number_buffer (ser x)) = 64 -> indent_string (ser x) = indent_string s0 ->
  let y := flush_full (with_buffer x b (zlen pending + zlen it)) in
  escaped s0 ensure_ascii (set_bytes y (bytes_ y) (bytes_ y) 0) (out ++ pending ++ it) [] /\
  index y = index x /\ state y = state x /\ codepoint y = codepoint x.
Proof.
  intros Ho Hb Hp Hi Hn Hind. pose proof Hb as (rest & E & Hr).
  unfold flush_full. cbn [with_buffer ser string_buffer bytes_].
  assert (Hlen : zlen b = 512) by (rewrite E; len). rewrite Hlen.
  assert (Hnil : (if ensure_ascii then [] else []) = (@nil Z)) by (by destruct ensure_ascii).
  destruct (Z.ltb_spec (512 - (zlen pending + zlen it)) 13) as [Hf|Hf].
  - split; [|done]. exists (out ++ pending ++ it), []. cbv zeta. rewrite app_nil_r, Hnil.
    cbn [set_bytes ser bytes_ bytes_after_last_accept undumped_chars with_buffer flush write o number_buffer
      indent_string string_buffer].
    split_and!; try done.
    + rewrite Ho, <- app_assoc. do 2 f_equal. rewrite E. cbn [app]. apply take_app_length'. len.
    + exists b. split; [done|len].
  - split; [|done]. exists out, (pending ++ it). cbv zeta. rewrite Hnil, app_nil_r.
    cbn [set_bytes ser bytes_ bytes_after_last_accept undumped_chars with_buffer o number_buffer
      indent_string string_buffer].
    split_and!; try done; len.
Qed.

Lemma encode_single cp raw c : 0 <= cp < 0x80 -> utf8_encode cp = raw ++ [c] -> raw = [] /\ c = cp.
Proof.
  intros Hcp. rewrite utf8_encode_ascii by done. destruct raw as [|? [|? ?]]; intros [=]; done.
Qed.

(** The text of the code point replaces its bytes behind [pending]. *)
Lemma accept_text s0 ensure_ascii x body raw c :
  escaped s0 ensure_ascii x body raw -> scalar (codepoint x) -> utf8_encode (codepoint x) = raw ++ [c] ->
  exists out pending b, body = out ++ pending /\ o (ser x) = o s0 ++ out /\ zlen pending <= 499 /\
    holds [] 512 b (pending ++ item ensure_ascii (codepoint x)) /\
    match short_escape (codepoint x) with
    | Some e => puts x [0x5C; e]
    | None =>
        if (codepoint x <=? 0x1F) || (ensure_ascii && (0x7F <=? codepoint x))
        then
          if codepoint x <=? 0xFFFF
          then print_escape x (unicode_escape (codepoint x))
          else print_escape x (unicode_escape (0xD7C0 + Z.shiftr (codepoint x) 10)
                               ++ unicode_escape (0xDC00 + Z.land (codepoint x) 0x3FF))
        else put x c
    end = Ret (with_buffer x b (zlen pending + zlen (item ensure_ascii (codepoint x)))).
Proof.
  intros (out & pending & -> & Ho & Hh & Hb & Hla & Hp & Hu & Hr & Hn & Hi) Hs Hen.
  exists out, pending. pose proof (item_length ensure_ascii (codepoint x)) as Hlen. cbv zeta in Hh, Hb.
  unfold item in *. destruct (short_escape (codepoint x)) as [e|] eqn:He.
  { destruct (short_escape_ok _ _ He) as [_ Hcp].
    destruct (encode_single (codepoint x) raw c ltac:(lia) Hen) as [-> _].
    assert ((if ensure_ascii then [] else []) = (@nil Z)) as Hnil by (by destruct ensure_ascii).
    rewrite Hnil, app_nil_r in Hh, Hb.
    destruct (puts_ok x [0x5C; e] pending Hh Hb) as (b & -> & Hb'); [len|]. by exists b. }
  destruct ((codepoint x <=? 0x1F) || _) eqn:Ht.
  - assert (Htext : pending ++ (if ensure_ascii then [] else raw) = pending).
    { destruct ensure_ascii; [by rewrite app_nil_r|]. cbn [andb] in Ht. rewrite orb_false_r in Ht.
      apply Z.leb_le in Ht. destruct Hs. destruct (encode_single (codepoint x) raw c ltac:(lia) Hen) as [-> _].
      by rewrite app_nil_r. }
    rewrite Htext in Hh, Hb. destruct (codepoint x <=? 0xFFFF).
    + destruct (print_escape_ok x (unicode_escape (codepoint x)) pending Hh Hb) as (b & -> & Hb'); [lia|].
      by exists b.
    + edestruct (print_escape_ok x) as (b & -> & Hb'); [exact Hh|exact Hb| |by exists b]. lia.
  - apply orb_false_iff in Ht as [Ht1 Ht2]. apply Z.leb_gt in Ht1.
    assert (Htext : pending ++ utf8_encode (codepoint x) = (pending ++ (if ensure_ascii then [] else raw)) ++ [c]).
    { rewrite Hen. destruct ensure_ascii; [|by rewrite app_assoc]. cbn [andb] in Ht2. apply Z.leb_gt in Ht2.
      destruct (encode_single (codepoint x) raw c ltac:(lia) Hen) as [-> _]. by rewrite app_nil_r. }
    destruct (puts_ok x [c] _ Hh Hb) as (b & Hput & Hb').
    { destruct ensure_ascii; len. }
    rewrite <- Htext in Hb'. exists b. split_and!; try done.
    cbn [puts] in Hput. destruct (put x c); cbn in Hput; try done. injection Hput as ->. f_equal. f_equal.
    transitivity (zlen ((pending ++ (if ensure_ascii then [] else raw)) ++ [c])); [len|].
    rewrite <- Htext. len.
Qed.

Lemma dump_accept_ok s0 ensure_ascii x body raw c :
  escaped s0 ensure_ascii x body raw -> scalar (codepoint x) -> utf8_encode (codepoint x) = raw ++ [c] ->
  exists x', dump_accept ensure_ascii c x = Ret x' /\
    escaped s0 ensure_ascii x' (body ++ item ensure_ascii (codepoint x)) [] /\
    index x' = index x /\ state x' = state x.
Proof.
  intros Hx Hs Hen. pose proof Hx as (? & ? & _ & _ & _ & _ & _ & _ & _ & _ & Hn & Hi).
  destruct (accept_text s0 ensure_ascii x body raw c Hx Hs Hen) as (out & pending & b & -> & Ho & Hp & Hb & He).
  unfold dump_accept. cbv zeta. rewrite He. bind_ret.
  destruct (escaped_flush s0 ensure_ascii x out pending (item ensure_ascii (codepoint x)) b) as (H1 & H2 & H3 & _);
    try done. { pose proof (item_length ensure_ascii (codepoint x)). lia. }
  eexists. split; [done|]. rewrite <- app_assoc. by split_and!.
Qed.

(** The result is as stated, or the exception 316 is thrown and [T] holds. *)
Definition dumps {A} (T : Prop) (m : outcome A) (Q : A -> Prop) : Prop :=
  match m with
  | Ret a => Q a
  | Throw (JsonException id _) => id = 316 /\ T
  | _ => False
  end.

Lemma dumps_bind {A B} T (m : outcome A) (f : A -> outcome B) P Q :
  dumps T m P -> (forall a, P a -> dumps T (f a) Q) -> dumps T (m ≫= f) Q.
Proof. destruct m as [| |[]|]; simpl; auto. Qed.

Lemma dumps_mono {A} (T T' : Prop) (m : outcome A) (P Q : A -> Prop) :
  dumps T m P -> (T -> T') -> (forall a, P a -> Q a) -> dumps T' m Q.
Proof. destruct m as [| |[]|]; simpl; try tauto; auto. Qed.

Section Loop.
Context (handler : error_handler_t) (s : list Z) (ensure_ascii : bool) (s0 : serializer).
Hypothesis Hs : bytes s.

Lemma step_partial x body raw b st cp :
  escaped s0 ensure_ascii x body raw -> vget s (index x) = Ret b ->
  decode (state x) (codepoint x) b = Ret (st, cp) -> 2 <= st <= 8 -> zlen raw <= 2 ->
  exists x', dump_escaped_step handler s ensure_ascii x = Ret (Continue x') /\
    escaped s0 ensure_ascii x' body (raw ++ [b]) /\ state x' = st /\ codepoint x' = cp /\
    index x' = index x + 1.
Proof.
  intros (out & pending & -> & Ho & Hh & Hb & Hla & Hp & Hu & Hr & Hn & Hi) Hget Hd Hst Hraw.
  pose proof Hget as [Hix Hlook]%vget_Ret. apply lookup_lt_Some in Hlook.
  unfold dump_escaped_step. rewrite (proj2 (Z.ltb_lt _ _)) by len. rewrite Hget. bind_ret. rewrite Hd. bind_ret.
  rewrite (proj2 (Z.eqb_neq st UTF8_ACCEPT)), (proj2 (Z.eqb_neq st UTF8_REJECT))
    by (unfold UTF8_ACCEPT, UTF8_REJECT; lia).
  cbv zeta in Hh, Hb. destruct ensure_ascii.
  - bind_ret. eexists. split; [done|]. cbn. split; [|done].
    exists out, pending. cbn. split_and!; try done; len.
  - set (x1 := Escaping cp st (bytes_ x) (bytes_after_last_accept x) (undumped_chars x) (index x) (ser x)).
    destruct (puts_ok x1 [b] _ Hh Hb) as (b1 & Hput & Hb1); [len|].
    cbn [puts] in Hput. destruct (put x1 b); cbn in Hput; try done. injection Hput as ->. bind_ret.
    eexists. split; [done|]. cbn. split; [|done]. exists out, pending. cbn. rewrite app_assoc.
    split_and!; try done; len.
Qed.

Lemma step_accept x body raw b cp :
  escaped s0 ensure_ascii x body raw -> vget s (index x) = Ret b ->
  decode (state x) (codepoint x) b = Ret (UTF8_ACCEPT, cp) -> scalar cp -> utf8_encode cp = raw ++ [b] ->
  exists x', dump_escaped_step handler s ensure_ascii x = Ret (Continue x') /\
    escaped s0 ensure_ascii x' (body ++ item ensure_ascii cp) [] /\ state x' = UTF8_ACCEPT /\
    index x' = index x + 1.
Proof.
  intros Hx Hget Hd Hcp Hen. pose proof Hget as [Hix Hlook]%vget_Ret. apply lookup_lt_Some in Hlook.
  unfold dump_escaped_step. rewrite (proj2 (Z.ltb_lt _ _)) by len. rewrite Hget. bind_ret. rewrite Hd. bind_ret.
  set (x1 := Escaping cp UTF8_ACCEPT (bytes_ x) (bytes_after_last_accept x) (undumped_chars x) (index x) (ser x)).
  destruct (dump_accept_ok s0 ensure_ascii x1 body raw b Hx Hcp Hen) as (x2 & -> & H2 & H3 & H4). bind_ret.
  eexists. split; [done|]. cbn. rewrite H3, H4. done.
Qed.

(** What is written for a byte that is not allowed. *)
Definition rejected : list Z :=
  match handler with error_replace => replacement ensure_ascii | _ => [] end.

Lemma step_reject x body raw b cp :
  handler <> error_strict -> escaped s0 ensure_ascii x body raw -> vget s (index x) = Ret b ->
  decode (state x) (codepoint x) b = Ret (UTF8_REJECT, cp) ->
  exists x', dump_escaped_step handler s ensure_ascii x = Ret (Continue x') /\
    escaped s0 ensure_ascii x' (body ++ rejected) [] /\ state x' = UTF8_ACCEPT /\
    index x' = if 0 <? zlen raw then index x else index x + 1.
Proof.
  intros Hh0 (out & pending & -> & Ho & Hh & Hb & Hla & Hp & Hu & Hr & Hn & Hi) Hget Hd.
  pose proof Hget as [Hix Hlook]%vget_Ret. apply lookup_lt_Some in Hlook.
  unfold dump_escaped_step. rewrite (proj2 (Z.ltb_lt _ _)) by len. rewrite Hget. bind_ret. rewrite Hd. bind_ret.
  cbn [Z.eqb UTF8_ACCEPT UTF8_REJECT Pos.eqb]. unfold dump_reject, rejected.
  assert (Hpend : holds [] 512 (string_buffer (ser x)) pending).
  { destruct Hh as (rest & E & Hlen). eexists. rewrite E, <- !app_assoc. split; [done|len]. }
  assert (Hnil : (if ensure_ascii then [] else []) = (@nil Z)) by (by destruct ensure_ascii).
  cbn [undumped_chars index bytes_after_last_accept]. rewrite Hu, Hla.
  assert (zlen (replacement ensure_ascii) <= 6) by (by destruct ensure_ascii).
  destruct handler; [done| |].
  - set (x1 := set_bytes _ _ _ _).
    destruct (puts_ok x1 (replacement ensure_ascii) pending) as (b1 & -> & Hb1); [done|done|lia|].
    bind_ret. destruct (escaped_flush s0 ensure_ascii x1 out pending (replacement ensure_ascii) b1)
      as (H1 & _ & _ & _); try done; [lia|].
    eexists. split; [done|]. destruct H1 as (out' & pend' & E & H1). rewrite <- app_assoc, E.
    split_and!; [|done|cbn; destruct (0 <? zlen raw); lia].
    exists out', pend'. split; [done|]. exact H1.
  - bind_ret. eexists. split; [done|]. rewrite app_nil_r. split_and!; [|done|cbn; destruct (0 <? zlen raw); lia].
    exists out, pending. cbn. rewrite Hnil, app_nil_r. by split_and!.
Qed.

(** The bytes of one code point. *)
Lemma loop_char l : forall fuel x body raw cp,
  escaped s0 ensure_ascii x body raw -> runs (state x) (codepoint x) l cp -> scalar cp ->
  utf8_encode cp = raw ++ l -> 0 <= index x -> take (length l) (drop (Z.to_nat (index x)) s) = l ->
  exists x', while_loop (length l + fuel) (dump_escaped_step handler s ensure_ascii) x
             = while_loop fuel (dump_escaped_step handler s ensure_ascii) x' /\
    escaped s0 ensure_ascii x' (body ++ item ensure_ascii cp) [] /\ state x' = UTF8_ACCEPT /\
    index x' = index x + zlen l.
Proof.
  induction l as [|b l IH]; intros fuel x body raw cp Hx Hrun Hcp Hen Hix Htake; [done|].
  assert (Hget : vget s (index x) = Ret b).
  { apply vget_Ret. split; [done|]. rewrite <- (Nat.add_0_r (Z.to_nat (index x))), <- lookup_drop.
    rewrite <- (lookup_take_lt _ (length (b :: l))) by (cbn; lia). by rewrite Htake. }
  destruct l as [|b' l].
  - destruct (step_accept x body raw b cp Hx Hget Hrun Hcp Hen) as (x' & Hstep & Hx' & Hst & Hi).
    exists x'. cbn [length Nat.add]. erewrite while_loop_continue by exact Hstep. by split_and!.
  - destruct Hrun as (st & v & Hd & Hst & Hrun).
    assert (zlen raw <= 2) by (pose proof (encode_length cp) as Hl; rewrite Hen in Hl; len).
    destruct (step_partial x body raw b st v Hx Hget Hd Hst) as (x' & Hstep & Hx' & Es & Ec & Ei); [done|].
    destruct (IH fuel x' body (raw ++ [b]) cp Hx') as (x2 & Hw & H2 & H3 & H4).
    + by rewrite Es, Ec.
    + done.
    + by rewrite <- app_assoc.
    + lia.
    + rewrite Ei, Z2Nat.inj_add by lia. cbn [length] in Htake.
      rewrite <- drop_drop. destruct (drop (Z.to_nat (index x)) s) as [|c r]; [done|].
      change (Z.to_nat 1) with 1%nat. cbn [drop]. by injection Htake.
    + exists x2. cbn [length Nat.add] in *. erewrite while_loop_continue by exact Hstep.
      split_and!; [exact Hw|done|done|]. rewrite H4, Ei. len.
Qed.

Definition all_items (cps : list Z) : list Z := mjoin (item ensure_ascii <$> cps).

Lemma loop_valid cps : forall fuel x body,
  escaped s0 ensure_ascii x body [] -> state x = UTF8_ACCEPT -> Forall scalar cps -> 0 <= index x ->
  drop (Z.to_nat (index x)) s = utf8 cps -> (length (utf8 cps) < fuel)%nat ->
  exists x', while_loop fuel (dump_escaped_step handler s ensure_ascii) x = Ret x' /\
    escaped s0 ensure_ascii x' (body ++ all_items cps) [] /\ state x' = UTF8_ACCEPT.
Proof.
  induction cps as [|cp cps IH]; intros fuel x body Hx Hst Hcps Hix Hd Hf.
  - destruct fuel as [|fuel]; [lia|]. exists x. rewrite app_nil_r. split_and!; [|done|done].
    apply while_loop_break. unfold dump_escaped_step. rewrite (proj2 (Z.ltb_ge _ _)); [done|].
    apply (f_equal length) in Hd. rewrite length_drop in Hd. change (length (utf8 [])) with 0%nat in Hd. len.
  - apply Forall_cons in Hcps as [Hcp Hcps]. rewrite utf8_cons in *. rewrite length_app in Hf.
    destruct (loop_char (utf8_encode cp) (fuel - length (utf8_encode cp)) x body [] cp) as (x' & Hw & H1 & H2 & H3).
    + done.
    + rewrite Hst. by apply scalar_runs.
    + done.
    + done.
    + done.
    + rewrite Hd. by rewrite take_app_length.
    + replace (length (utf8_encode cp) + (fuel - length (utf8_encode cp)))%nat with fuel in Hw by lia.
      rewrite Hw. destruct (IH (fuel - length (utf8_encode cp))%nat x' (body ++ item ensure_ascii cp))
        as (x2 & Hw2 & H4 & H5); [done|done|done|len| |lia|].
      * rewrite H3. unfold zlen. rewrite Z2Nat.inj_add, Nat2Z.id, <- drop_drop by lia.
        by rewrite Hd, drop_app_length.
      * exists x2. split_and!; [done| |done]. by rewrite <- app_assoc in H4.
Qed.

(** ** Any text *)

Lemma body_snoc body cps it cp :
  string_body body cps -> string_item it cp -> string_body (body ++ it) (cps ++ [cp]).
Proof.
  intros H Hit. induction H as [|raw cp' body cps Hr H IH]; cbn [app].
  - rewrite <- (app_nil_r it). constructor; [done|constructor].
  - rewrite <- app_assoc. by constructor.
Qed.

Lemma replacement_ok : string_item (replacement ensure_ascii) 0xFFFD.
Proof.
  destruct ensure_ascii.
  - apply item_unicode; [done|split; lia].
  - apply (item_char 0xFFFD); [split; lia|lia..].
Qed.

Lemma rejected_body body cps :
  string_body body cps -> Forall scalar cps ->
  exists cps', string_body (body ++ rejected) cps' /\ Forall scalar cps'.
Proof.
  intros Hb Hc. unfold rejected. destruct handler; rewrite ?app_nil_r; [by exists cps| |by exists cps].
  exists (cps ++ [0xFFFD]). split; [apply body_snoc; [done|apply replacement_ok]|].
  apply Forall_app. split; [done|]. repeat constructor; lia.
Qed.

Lemma partial_length st v raw : partial st v raw -> zlen raw <= 3.
Proof.
  assert (H2 : forall v raw, seq2 v raw -> zlen raw <= 3).
  { intros v' raw' [_ H]. destruct (H 0x80 ltac:(lia)) as [_ E].
    pose proof (encode_length (v' * 64 + (0x80 - 0x80))) as Hl. rewrite E in Hl. len. }
  assert (H3 : forall lo hi v raw, lo <= hi -> seq3 lo hi v raw -> zlen raw <= 2).
  { intros lo hi v' raw' Hlo [_ H]. specialize (H lo ltac:(lia)). apply H2 in H. len. }
  destruct 1 as [v raw H|v raw H|v raw H|v raw H|v raw H|v raw H|v raw H]; [by apply H2 in H|..].
  1-3: apply H3 in H; lia.
  all: destruct H as [_ H]; match type of H with forall c, ?lo <= c <= _ -> _ => specialize (H lo ltac:(lia)) end.
  all: apply H3 in H; len.
Qed.

(** In the middle of the text. *)
Definition loop_inv (x : escaping) (body cps raw : list Z) : Prop :=
  escaped s0 ensure_ascii x body raw /\ string_body body cps /\ Forall scalar cps /\
  0 <= index x <= zlen s /\ (raw = [] /\ state x = UTF8_ACCEPT \/ partial (state x) (codepoint x) raw) /\
  (handler = error_strict -> take (Z.to_nat (index x)) s = utf8 cps ++ raw).

Lemma loop_decode x body cps raw b :
  loop_inv x body cps raw -> vget s (index x) = Ret b ->
  exists st v, decode (state x) (codepoint x) b = Ret (st, v) /\ decoded st v (raw ++ [b]).
Proof.
  intros (_ & _ & _ & _ & Hp & _) Hget. apply vget_Ret in Hget as [_ Hl].
  assert (is_byte b) as Hb by (by apply (Forall_lookup_1 _ _ _ _ Hs Hl)).
  destruct Hp as [[-> ->]|Hp]; [by apply decode_lead|by apply decode_partial].
Qed.

Lemma take_more x b :
  vget s (index x) = Ret b -> take (Z.to_nat (index x + 1)) s = take (Z.to_nat (index x)) s ++ [b].
Proof.
  intros [Hi Hl]%vget_Ret. rewrite Z2Nat.inj_add, Nat.add_1_r by lia. by apply take_S_r.
Qed.

Definition measure (x : escaping) (raw : list Z) : nat :=
  2 * (length s - Z.to_nat (index x)) + match raw with [] => 0 | _ => 1 end.

Lemma loop_step x body cps raw b :
  loop_inv x body cps raw -> vget s (index x) = Ret b ->
  dumps (handler = error_strict) (dump_escaped_step handler s ensure_ascii x) (fun c =>
    exists x' body' cps' raw', c = Continue x' /\ loop_inv x' body' cps' raw' /\
      (measure x' raw' < measure x raw)%nat).
Proof.
  intros Hinv Hget. destruct (loop_decode x body cps raw b Hinv Hget) as (st & v & Hd & Hdec).
  destruct Hinv as (Hx & Hbody & Hcps & Hix & Hp & Htake).
  pose proof Hget as [_ Hlook]%vget_Ret. apply lookup_lt_Some in Hlook.
  destruct Hdec as [->|[(-> & Hv & Hen)|Hpart]].
  - destruct (decide (handler = error_strict)) as [Hstrict|Hns].
    { unfold dump_escaped_step. rewrite (proj2 (Z.ltb_lt _ _)), Hget by len. bind_ret. rewrite Hd. bind_ret.
      rewrite Hstrict. done. }
    destruct (step_reject x body raw b v Hns Hx Hget Hd) as (x' & -> & Hx' & Est & Ei).
    destruct (rejected_body body cps Hbody Hcps) as (cps' & Hb' & Hc').
    exists x', (body ++ rejected), cps', []. split_and!; [done| |].
    + split_and!; try done; [rewrite Ei; destruct (0 <? zlen raw); len..|by left].
    + unfold measure. rewrite Ei. destruct raw as [|c raw];
        [change (0 <? zlen []) with false|change (0 <? zlen (c :: raw)) with true; lia].
      lia.
  - destruct (step_accept x body raw b v Hx Hget Hd Hv Hen) as (x' & -> & Hx' & Est & Ei).
    exists x', (body ++ item ensure_ascii v), (cps ++ [v]), []. split_and!; [done| |].
    + split_and!; [done|by apply body_snoc, item_ok|by apply Forall_app_2; [|constructor; [|constructor]]|len|len|by left|].
      intros Hst. rewrite Ei, take_more with (b := b), Htake by done.
      rewrite app_nil_r, utf8_app, <- app_assoc. f_equal. rewrite utf8_cons, app_nil_r. by symmetry.
    + unfold measure. rewrite Ei, Z2Nat.inj_add by lia. change (Z.to_nat 1) with 1%nat. lia.
  - assert (zlen raw <= 2) by (apply partial_length in Hpart; len).
    destruct (step_partial x body raw b st v Hx Hget Hd) as (x' & -> & Hx' & Est & Ecp & Ei);
      [by apply partial_state in Hpart|done|].
    exists x', body, cps, (raw ++ [b]). split_and!; [done| |].
    + split_and!; [done..|len|len|right; by rewrite Est, Ecp|].
      intros Hst. rewrite Ei, take_more with (b := b), Htake by done. by rewrite app_assoc.
    + unfold measure. rewrite Ei, Z2Nat.inj_add by lia. change (Z.to_nat 1) with 1%nat.
      destruct raw; cbn -[Nat.mul]; lia.
Qed.

Lemma loop_any fuel : forall x body cps raw,
  loop_inv x body cps raw -> (measure x raw < fuel)%nat ->
  dumps (handler = error_strict) (while_loop fuel (dump_escaped_step handler s ensure_ascii) x) (fun x' =>
    exists body' cps' raw', loop_inv x' body' cps' raw' /\ index x' = zlen s).
Proof.
  induction fuel as [|fuel IH]; intros x body cps raw Hinv Hm; [lia|].
  pose proof Hinv as (_ & _ & _ & Hix & _).
  destruct (Z.lt_ge_cases (index x) (zlen s)) as [Hlt|Hge].
  - destruct (vget_in_range s (index x)) as [b Hget]; [lia|].
    pose proof (loop_step x body cps raw b Hinv Hget) as Hstep. cbn [while_loop].
    eapply dumps_bind; [exact Hstep|]. cbv beta. intros c (x' & body' & cps' & raw' & -> & Hinv' & Hm').
    apply (IH x' body' cps' raw'); [done|lia].
  - erewrite while_loop_break.
    2: { unfold dump_escaped_step. by rewrite (proj2 (Z.ltb_ge _ _)) by done. }
    exists body, cps, raw. split; [done|lia].
Qed.
End Loop.

(** ** The result *)

(** [s'] is [s0] after the output of [out] and of what is in the buffer. *)
Lemma flush_wrote s0 x out pending more :
  o (ser x) = o s0 ++ out -> holds [] 512 (string_buffer (ser x)) (pending ++ more) ->
  zlen (number_buffer (ser x)) = 64 -> indent_string (ser x) = indent_string s0 ->
  wrote s0 (flush (ser x) (zlen pending)) (out ++ pending).
Proof.
  intros Ho (rest & E & Hr) Hn Hi. split_and!; [|split|done].
  - cbn [flush write o]. rewrite Ho, <- app_assoc. do 2 f_equal. rewrite E. cbn [app].
    rewrite <- app_assoc. apply take_app_length'. len.
  - done.
  - cbn [flush write string_buffer]. rewrite E. len.
Qed.

Lemma finish_accept handler s ensure_ascii s0 x body :
  escaped s0 ensure_ascii x body [] -> state x = UTF8_ACCEPT ->
  exists s', dump_finish handler s ensure_ascii x = Ret s' /\ wrote s0 s' body.
Proof.
  intros (out & pending & -> & Ho & Hh & Hb & Hla & Hp & Hu & Hr & Hn & Hi) Hst.
  assert (Hnil : (if ensure_ascii then [] else []) = (@nil Z)) by (by destruct ensure_ascii).
  cbv zeta in *. rewrite Hnil in Hh. rewrite Hnil, app_nil_r in Hb.
  unfold dump_finish. rewrite Hst, Hb. cbn [Z.eqb UTF8_ACCEPT].
  destruct (Z.ltb_spec 0 (zlen pending)).
  - eexists. split; [done|]. by eapply flush_wrote.
  - destruct pending; [|len]. eexists. split; [done|]. split_and!; [by rewrite app_nil_r|split; [done|]|done].
    destruct Hh as (rest & E & Hl). rewrite E. len.
Qed.

Lemma finish_incomplete handler s ensure_ascii s0 x body raw :
  escaped s0 ensure_ascii x body raw -> state x <> UTF8_ACCEPT -> s <> [] ->
  dumps (handler = error_strict) (dump_finish handler s ensure_ascii x)
    (fun s' => handler <> error_strict /\ wrote s0 s' (body ++ rejected handler ensure_ascii)).
Proof.
  intros (out & pending & -> & Ho & Hh & Hb & Hla & Hp & Hu & Hr & Hn & Hi) Hst Hs.
  unfold dump_finish, rejected. rewrite (proj2 (Z.eqb_neq _ _)) by done. rewrite Hla.
  pose proof (flush_wrote s0 x out pending _ Ho Hh Hn Hi) as Hw.
  destruct handler.
  - destruct (last s) eqn:El; [done|]. by apply last_None in El.
  - split; [done|]. eapply wrote_trans; [exact Hw|]. apply wrote_write. apply Hw.
  - split; [done|]. by rewrite app_nil_r.
Qed.

Lemma all_items_body ensure_ascii cps :
  Forall scalar cps -> string_body (all_items ensure_ascii cps) cps.
Proof.
  induction 1 as [|cp cps Hcp H IH]; [constructor|].
  change (string_body (item ensure_ascii cp ++ all_items ensure_ascii cps) (cp :: cps)).
  constructor; [by apply item_ok|done].
Qed.

(** A text in UTF-8: every code point is written. *)
Lemma dump_escaped_utf8 handler ensure_ascii s0 cps :
  Forall scalar cps -> buffers_ok s0 ->
  exists s', dump_escaped handler (utf8 cps) ensure_ascii s0 = Ret s' /\
    wrote s0 s' (all_items ensure_ascii cps).
Proof.
  intros Hcps Hb. unfold dump_escaped.
  destruct (loop_valid handler (utf8 cps) ensure_ascii s0 cps (S (2 * length (utf8 cps)))
    (Escaping 0 UTF8_ACCEPT 0 0 0 0 s0) []) as (x & -> & Hx & Hst);
    [by apply escaped_start|done|done|done|done|lia|].
  bind_ret. by apply finish_accept.
Qed.

Lemma dump_escaped_cases handler t ensure_ascii s0 :
  bytes t -> t <> [] -> buffers_ok s0 ->
  dumps (handler = error_strict) (dump_escaped handler t ensure_ascii s0) (fun s' =>
    exists body cps, wrote s0 s' body /\ string_body body cps /\ Forall scalar cps /\
      (handler = error_strict -> t = utf8 cps)).
Proof.
  intros Ht Hne Hb. unfold dump_escaped. eapply dumps_bind.
  - apply (loop_any handler t ensure_ascii s0 Ht _ _ [] [] []).
    + split_and!; try done; [by apply escaped_start|constructor|cbn; len|by left].
    + unfold measure. cbn. lia.
  - cbv beta. intros x (body & cps & raw & (Hx & Hbody & Hcps & _ & Hp & Hstrict) & Hix).
    destruct Hp as [[-> Hst]|Hp].
    + destruct (finish_accept handler t ensure_ascii s0 x body Hx Hst) as (s' & -> & Hw).
      exists body, cps. split_and!; try done. intros Heq. specialize (Hstrict Heq).
      rewrite Hix, app_nil_r in Hstrict. unfold zlen in Hstrict. by rewrite Nat2Z.id, firstn_all in Hstrict.
    + eapply dumps_mono; [apply (finish_incomplete handler t ensure_ascii s0 x body raw Hx)|done|].
      * apply partial_state in Hp. unfold UTF8_ACCEPT. lia.
      * done.
      * cbv beta. intros s' [Hns Hw]. destruct (rejected_body handler ensure_ascii body cps Hbody Hcps) as (cps' & H1 & H2).
        by exists (body ++ rejected handler ensure_ascii), cps'.
Qed.

Lemma utf8_dec t : bytes t -> valid_utf8 t \/ ~ valid_utf8 t.
Proof.
  intros Ht. destruct (decide (t = [])) as [->|Hne]; [left; by exists []|].
  pose proof (dump_escaped_cases error_strict t false (new_serializer 0) Ht Hne ltac:(done)) as H.
  destruct (dump_escaped error_strict t false (new_serializer 0)) as [s'| |[]|] eqn:E; try done.
  - destruct H as (body & cps & _ & _ & Hcps & Heq). left. exists cps. split; [done|by apply Heq].
  - right. intros (cps & Hcps & ->).
    destruct (dump_escaped_utf8 error_strict false (new_serializer 0) cps Hcps ltac:(done)) as (s' & E' & _).
    by rewrite E in E'.
Qed.

(** Any text: the body of a string is written, or the handler is strict, the
    text is not in UTF-8, and the exception 316 is thrown. *)
Lemma dump_escaped_any handler t ensure_ascii s0 :
  bytes t -> buffers_ok s0 ->
  dumps (handler = error_strict /\ ~ valid_utf8 t) (dump_escaped handler t ensure_ascii s0) (fun s' =>
    exists body cps, wrote s0 s' body /\ string_body body cps /\ (valid_utf8 t -> t = utf8 cps) /\
      (handler = error_strict -> valid_utf8 t)).
Proof.
  intros Ht Hb. destruct (utf8_dec t Ht) as [(cps & Hcps & ->)|Hv].
  - destruct (dump_escaped_utf8 handler ensure_ascii s0 cps Hcps Hb) as (s' & -> & Hw).
    exists (all_items ensure_ascii cps), cps. split_and!; try done; [by apply all_items_body|].
    intros _. by exists cps.
  - assert (t <> []) by (intros ->; apply Hv; by exists []).
    eapply dumps_mono; [by apply dump_escaped_cases|done|].
    cbv beta. intros s' (body & cps & Hw & Hbody & Hcps & Hs). exists body, cps. split_and!; try done.
    intros Heq. exfalso. apply Hv. exists cps. split; [done|by apply Hs].
Qed.
