(* ===== verification/JsonRoundTrip.v ===== *)
(** [dump] and [parse] of [src/util/nlohmann_json.hpp] fit together: what is
    dumped is a JSON text, and parsing it gives the value back. *)

From Stdlib Require Import ZArith Lia.
From S2P Require Import Prelude JsonValue JsonNumber JsonGrammar JsonLexer JsonScanNumber JsonCorrect.
From S2P Require Import JsonParser JsonDtoa JsonDtoaDigits JsonDtoaCorrect JsonSerializer JsonDump JsonDumpString.
From stdpp Require Import base decidable option strings list.

Open Scope Z_scope.

(** ** The values that can be dumped *)

#[local] Unset Elimination Schemes.
(** The numbers fit into their types, and the strings and names satisfy [P]. *)
Inductive dumpable (P : list Z -> Prop) : json -> Prop :=
  | dumpable_null : dumpable P Null
  | dumpable_boolean b : dumpable P (Boolean b)
  | dumpable_integer z : LLONG_MIN <= z <= LLONG_MAX -> dumpable P (Number_integer z)
  | dumpable_unsigned z : 0 <= z <= ULLONG_MAX -> dumpable P (Number_unsigned z)
  | dumpable_float v : 0 <= v < 2 ^ 64 -> dumpable P (Number_float v)
  | dumpable_string s : bytes s -> P s -> dumpable P (Str s)
  | dumpable_binary b t :
      bytes b -> match t with Some t => 0 <= t <= ULLONG_MAX | None => True end -> dumpable P (Binary b t)
  | dumpable_array l : Forall (dumpable P) l -> dumpable P (Array l)
  | dumpable_object es :
      Forall (fun e => bytes e.1 /\ P e.1 /\ dumpable P e.2) es -> dumpable P (Object es).

(** What is written for a value: an integer that is not negative comes back as
    an unsigned one, a binary value as an object, and a double that is not
    finite as [null]. *)
Definition written_binary (b : list Z) (t : option Z) : json :=
  Object [(bytes_of "bytes", Array (Number_unsigned <$> b));
          (bytes_of "subtype", match t with Some t => Number_unsigned t | None => Null end)].

Fixpoint written (j : json) : json :=
  match j with
  | Number_integer z => if 0 <=? z then Number_unsigned z else j
  | Number_float v => if isfinite v then j else Null
  | Binary b t => written_binary b t
  | Array l => Array (written <$> l)
  | Object es => Object ((fun e => (e.1, written e.2)) <$> es)
  | _ => j
  end.

(** The same where the text of a string that is not in UTF-8 may be changed. *)
Inductive shown : json -> json -> Prop :=
  | shown_string s s' : (valid_utf8 s -> s' = s) -> shown (Str s) (Str s')
  | shown_array l l' : Forall2 shown l l' -> shown (Array l) (Array l')
  | shown_object es es' :
      Forall2 (fun e e' => (valid_utf8 e.1 -> e'.1 = e.1) /\ shown e.2 e'.2) es es' ->
      shown (Object es) (Object es')
  | shown_scalar j :
      match j with Str _ | Array _ | Object _ => False | _ => True end -> shown j (written j).
#[local] Set Elimination Schemes.

Lemma shown_written j j' : dumpable valid_utf8 j -> shown j j' -> j' = written j.
Proof.
  revert j'. induction j as [| | | | | | |l IH|es IH|] using json_induction; intros j' Hd Hs;
    inversion Hs; subst; try done.
  - inversion Hd; subst. simpl. f_equal. auto.
  - inversion Hd as [| | | | | | |? Hl|]; subst. simpl. f_equal.
    match goal with H : Forall2 _ _ _ |- _ => rename H into H2 end. clear Hd Hs.
    induction H2 as [|x y l l' Hxy H2 IH2]; [done|]. cbn.
    apply Forall_cons in IH as [IHx IH]. apply Forall_cons in Hl as [Hx Hl]. f_equal; auto.
  - inversion Hd as [| | | | | | | |? Hl]; subst. simpl. f_equal.
    match goal with H : Forall2 _ _ _ |- _ => rename H into H2 end. clear Hd Hs.
    induction H2 as [|[k x] [k' y] es es' [Hk Hxy] H2 IH2]; [done|]. cbn.
    apply Forall_cons in IH as [IHx IH]. apply Forall_cons in Hl as [(Hb & Hv & Hx) Hl].
    cbn [fst snd] in *. f_equal; auto. f_equal; auto.
Qed.

(** ** Numbers *)

Lemma decimal_int_text n : 0 <= n -> int_text (decimal n).
Proof.
  intros Hn. destruct (decide (n = 0)) as [->|]; [by left|]. right.
  destruct (decimal_head n ltac:(lia)) as (d & l & E & Hd). exists d, l. split_and!; [done|lia|lia|].
  pose proof (decimal_digits n Hn) as H. rewrite E in H. by apply Forall_cons in H as [_ H].
Qed.

Lemma integer_text z :
  LLONG_MIN <= z <= ULLONG_MAX ->
  value_text (to_string z) (if 0 <=? z then Number_unsigned z else Number_integer z).
Proof.
  intros Hz. unfold to_string.
  assert (E : forall neg, number_form (minus_text neg ++ decimal (Z.abs z) ++ [] ++ [])
    (number_value neg (decimal (Z.abs z)) [] [] 0)).
  { intros neg. apply number_intro; [apply decimal_int_text; lia|constructor|constructor]. }
  cbn [app] in E. rewrite app_nil_r in E. unfold number_value in E. rewrite decimal_value_decimal in E by lia.
  destruct (Z.leb_spec 0 z).
  - specialize (E false). rewrite Z.abs_eq in E by lia. rewrite (proj2 (Z.leb_le _ _)) in E by lia.
    rewrite (proj2 (Z.ltb_ge _ _)) by lia. by apply text_number.
  - specialize (E true). rewrite Z.abs_neq, Z.opp_involutive in E by lia.
    rewrite (proj2 (Z.leb_le _ _)) in E by lia. rewrite (proj2 (Z.ltb_lt _ _)) by lia. by apply text_number.
Qed.

Lemma number_form_strtod t v : number_form t (Number_float v) -> strtod [ch "."] t = (v, zlen t).
Proof.
  intros Hn. inversion Hn as [neg i f d x e Hi Hf Hx E1 E2]; subst.
  assert (Ef : frac_buffer (ch ".") f = f) by (by destruct Hf).
  assert (Ev : v = sign_bit neg + decimal_double (decimal_value (i ++ d)) (e - zlen d)).
  { unfold number_value in E2. destruct d, x, neg; repeat case_match; congruence. }
  pose proof (strtod_ok (ch ".") ltac:(done) ltac:(done) neg i f d x e Hi Hf Hx) as H. rewrite Ef in H.
  rewrite H. by f_equal.
Qed.

(** C11: grisu2 is exact: for every finite double [to_chars] returns, its text
    is a number of JSON that stands for this double, and [strtod] reads all of
    the text and returns the double with every bit. *)
Theorem to_chars_strtod (v : Z) :
  0 <= v < 2 ^ 64 -> isfinite v = true ->
  exists t, to_chars_text v = Ret t /\ number_form t (Number_float v) /\ strtod [ch "."] t = (v, zlen t).
Proof.
  intros Hv Hf. destruct (to_chars_ok (replicate 64 0) v ltac:(done) Hv Hf) as (b & t & Ht & Hb & Htake & Hn).
  exists t. unfold to_chars_text. rewrite Ht. bind_ret. unfold zlen at 1. rewrite Nat2Z.id, Htake.
  split_and!; [done|done|by apply number_form_strtod].
Qed.

(** ** Containers *)

Section Dump.
Context (handler : error_handler_t) (pretty ensure_ascii : bool) (indent_step : Z).
Hypothesis Hstep : pretty = true -> 0 <= indent_step <= 1024.

(** When the output is indented, the indentation string is white space, at
    least 512 characters long. *)
Definition good (s : serializer) : Prop :=
  buffers_ok s /\ (pretty = true -> ws (indent_string s) /\ 512 <= zlen (indent_string s)).

(** The indentation is inside of the string; below the outermost level a step
    is not longer than the string. *)
Definition fits (cur : Z) (s : serializer) : Prop :=
  pretty = true -> 0 <= cur <= zlen (indent_string s) /\ (cur = 0 \/ indent_step <= zlen (indent_string s)).

(** [s'] is [s] after the output of [t]; the indentation string may grow. *)
Definition prints (s s' : serializer) (t : list Z) : Prop :=
  o s' = o s ++ t /\ good s' /\ zlen (indent_string s) <= zlen (indent_string s').

Lemma prints_trans s s' s'' t t' : prints s s' t -> prints s' s'' t' -> prints s s'' (t ++ t').
Proof. intros (E1 & _ & I1) (E2 & B & I2). split_and!; [by rewrite E2, E1, app_assoc|done|lia]. Qed.

Lemma prints_write s t : good s -> prints s (write s t) t.
Proof. intros H. split_and!; [done|exact H|done]. Qed.

Lemma prints_wrote s s' t : good s -> wrote s s' t -> prints s s' t.
Proof. intros [_ Hi] (E & Hb & I). split_and!; [done|split; [done|by rewrite I]|by rewrite I]. Qed.

Lemma prints_fits cur s s' t : prints s s' t -> fits cur s -> fits cur s'.
Proof. intros (_ & _ & Hi) Hf Hp. specialize (Hf Hp). lia. Qed.

(** The indentation of a nested value fits, since it grows by at most 1024
    characters and the string is doubled when it is too short. *)
Lemma grow_indent_ok cur s :
  pretty = true -> good s -> fits cur s ->
  let new := u32 (cur + indent_step) in
  exists s', grow_indent s new = s' /\ prints s s' [] /\ fits new s'.
Proof.
  intros Hp [Hb Hi] Hf. destruct (Hi Hp) as [Hws Hlen]. specialize (Hf Hp). specialize (Hstep Hp).
  cbv zeta. assert (Hnew : 0 <= u32 (cur + indent_step) <= cur + indent_step /\
    (u32 (cur + indent_step) = cur + indent_step \/ 2 ^ 32 <= cur + indent_step)).
  { unfold u32. pose proof (Z.mod_pos_bound (cur + indent_step) (2 ^ 32) ltac:(lia)).
    pose proof (Z.mod_le (cur + indent_step) (2 ^ 32) ltac:(lia) ltac:(lia)).
    destruct (Z.lt_ge_cases (cur + indent_step) (2 ^ 32)); [rewrite Z.mod_small|]; lia. }
  eexists. split; [done|]. unfold grow_indent. set (new := u32 (cur + indent_step)) in *. clearbody new.
  destruct (Z.ltb_spec (zlen (indent_string s)) new).
  - assert (Hl : zlen (indent_string s ++ replicate (length (indent_string s)) (ch " "))
                 = 2 * zlen (indent_string s)).
    { unfold zlen. rewrite length_app, length_replicate. lia. }
    split.
    + split_and!; [by rewrite app_nil_r| |cbn [indent_string]; lia]. split; [done|]. intros _.
      cbn [indent_string]. split; [|lia]. apply Forall_app. split; [done|]. by apply Forall_replicate.
    + intros _. cbn [indent_string]. rewrite Hl. lia.
  - split; [split_and!; [by rewrite app_nil_r|done|done]|]. intros _. lia.
Qed.

Lemma write_indent_ok cur s :
  pretty = true -> good s -> fits cur s ->
  exists s' w, write_indent s cur = Ret s' /\ prints s s' w /\ ws w.
Proof.
  intros Hp Hg Hf. pose proof Hg as [Hb Hi]. destruct (Hi Hp) as [Hws Hlen]. specialize (Hf Hp).
  unfold write_indent. rewrite (proj2 (Z.leb_le cur (zlen (indent_string s ++ [0])))) by len.
  eexists _, _. split; [done|]. split; [by apply prints_write|].
  rewrite take_app_le by len. by apply Forall_take.
Qed.

(** The beginning and the end of an indented container. *)
Lemma open_ok c cur s :
  pretty = true -> good s -> fits cur s ->
  let new := u32 (cur + indent_step) in let s' := grow_indent (write s [c; 0x0A]) new in
  prints s s' [c; 0x0A] /\ fits new s'.
Proof.
  intros Hp Hg Hf. destruct (grow_indent_ok cur (write s [c; 0x0A]) Hp Hg Hf) as (s' & E & H1 & H2).
  cbv zeta in *. rewrite E. split; [|done]. exact (prints_trans _ _ _ _ _ (prints_write s [c; 0x0A] Hg) H1).
Qed.

Lemma close_ok c cur s :
  pretty = true -> good s -> fits cur s ->
  exists s' w, (s ← write_indent (write s [0x0A]) cur; Ret (write s [c])) = Ret s' /\
    prints s s' (w ++ [c]) /\ ws w.
Proof.
  intros Hp Hg Hf. destruct (write_indent_ok cur (write s [0x0A]) Hp Hg Hf) as (s' & w & -> & H1 & Hw).
  bind_ret. eexists _, (0x0A :: w). split; [done|]. split; [|by constructor].
  exact (prints_trans _ _ _ _ _ (prints_trans _ _ _ _ _ (prints_write s [0x0A] Hg) H1)
           (prints_write s' [c] (proj1 (proj2 H1)))).
Qed.
End Dump.

(** Texts with a separator between them. *)
Inductive sep_text {B} (E : list Z -> B -> Prop) (sep : list Z) : list Z -> list B -> Prop :=
  | sep_one t y : E t y -> sep_text E sep t [y]
  | sep_more t y t' ys : E t y -> sep_text E sep t' ys -> sep_text E sep (t ++ sep ++ t') (y :: ys).

Lemma separated_ok {A B} pretty step cur T (E : list Z -> B -> Prop) (S : A -> B -> Prop) f sep (l : list A) :
  l <> [] ->
  Forall (fun x => forall s, good pretty s -> fits pretty step cur s ->
    dumps T (f x s) (fun s' => exists t y, prints pretty s s' t /\ E t y /\ S x y)) l ->
  forall s, good pretty s -> fits pretty step cur s ->
  dumps T (separated f sep l s) (fun s' =>
    exists t ys, prints pretty s s' t /\ sep_text E sep t ys /\ Forall2 S l ys).
Proof.
  intros Hne Hl. induction Hl as [|x l Hx Hl IH]; [done|]. intros s Hg Hf. cbn [separated].
  eapply dumps_bind; [by apply Hx|]. cbv beta. intros s1 (t & y & H1 & HE & HS).
  destruct l as [|x' l].
  - exists t, [y]. split_and!; [done|by constructor|by repeat constructor].
  - assert (Hg1 : good pretty s1) by apply H1. pose proof (prints_write pretty s1 sep Hg1) as H2.
    eapply dumps_mono; [apply IH; [done|exact Hg1|]|done|].
    { eapply prints_fits; [exact H2|]. by eapply prints_fits. }
    cbv beta. intros s2 (t2 & ys & H3 & HE2 & HS2). exists (t ++ sep ++ t2), (y :: ys). split_and!.
    + exact (prints_trans _ _ _ _ _ _ H1 (prints_trans _ _ _ _ _ _ H2 H3)).
    + by constructor.
    + by constructor.
Qed.

(** ** White space around elements and members *)

Definition element (t : list Z) (j : json) : Prop := exists w t0, t = w ++ t0 /\ ws w /\ value_text t0 j.
Definition member (t : list Z) (e : list Z * json) : Prop := exists w n w2 t0,
  t = w ++ n ++ ch ":" :: w2 ++ t0 /\ ws w /\ string_text n e.1 /\ ws w2 /\ value_text t0 e.2.

Lemma ws_app a b : ws a -> ws b -> ws (a ++ b).
Proof. intros. by apply Forall_app. Qed.

Lemma ws_nil : ws [].
Proof. by constructor. Qed.

Lemma space_or_nothing (b : bool) c : is_space c = true -> ws (if b then [c] else []).
Proof. intros Hc. destruct b; [by constructor; [|apply ws_nil]|apply ws_nil]. Qed.

Lemma elements_space w t l : ws w -> elements_text t l -> elements_text (w ++ t) l.
Proof. intros Hw []; rewrite app_assoc; constructor; try done; by apply ws_app. Qed.

Lemma members_space w t es : ws w -> members_text t es -> members_text (w ++ t) es.
Proof. intros Hw []; rewrite app_assoc; constructor; try done; by apply ws_app. Qed.

Lemma elements_of_sep sp t l w' :
  ws sp -> ws w' -> sep_text element (ch "," :: sp) t l -> elements_text (t ++ w') l.
Proof.
  intros Hsp Hw'. induction 1 as [t y (w & t0 & -> & Hw & Ht)|t y t' ys (w & t0 & -> & Hw & Ht) H IH].
  - rewrite <- app_assoc. by constructor.
  - rewrite <- !app_assoc. change (elements_text (w ++ t0 ++ [] ++ ch "," :: (sp ++ t' ++ w')) (y :: ys)).
    constructor; [done|done|apply ws_nil|]. by apply elements_space.
Qed.

Lemma members_of_sep sp t es w' :
  ws sp -> ws w' -> sep_text member (ch "," :: sp) t es -> members_text (t ++ w') es.
Proof.
  intros Hsp Hw'. induction 1 as [t [k j] (w & n & w2 & t0 & -> & Hw & Hn & Hw2 & Ht)
    |t [k j] t' ys (w & n & w2 & t0 & -> & Hw & Hn & Hw2 & Ht) H IH]; cbn [fst snd] in *.
  - rewrite <- !app_assoc. cbn [app]. rewrite <- app_assoc.
    change (members_text (w ++ n ++ [] ++ ch ":" :: w2 ++ t0 ++ w') [(k, j)]).
    by constructor; try apply ws_nil.
  - rewrite <- !app_assoc. cbn [app]. rewrite <- !app_assoc.
    change (members_text (w ++ n ++ [] ++ ch ":" :: w2 ++ t0 ++ [] ++ ch "," :: (sp ++ t' ++ w')) ((k, j) :: ys)).
    constructor; try apply ws_nil; try done. by apply members_space.
Qed.

(** ** Values *)

(** A string in quotes. *)
Lemma quoted_ok handler pretty ensure_ascii t s :
  bytes t -> good pretty s ->
  dumps (handler = error_strict /\ ~ valid_utf8 t)
    (s ← dump_escaped handler t ensure_ascii (write s [0x22]); Ret (write s [0x22])) (fun s' =>
    exists n t', prints pretty s s' n /\ string_text n t' /\ (valid_utf8 t -> t' = t) /\
      (handler = error_strict -> valid_utf8 t)).
Proof.
  intros Ht Hg. pose proof (prints_write pretty s [0x22] Hg) as H1.
  eapply dumps_bind; [apply dump_escaped_any; [done|apply Hg]|].
  cbv beta. intros s1 (body & cps & Hw & Hb & Hv & Hs).
  pose proof (prints_wrote pretty _ _ _ (proj1 (proj2 H1)) Hw) as H2.
  pose proof (prints_write pretty s1 [0x22] (proj1 (proj2 H2))) as H3.
  exists (0x22 :: body ++ [0x22]), (utf8 cps). split_and!.
  - exact (prints_trans _ _ _ _ _ _ H1 (prints_trans _ _ _ _ _ _ H2 H3)).
  - by exists body, cps.
  - intros H. symmetry. by apply Hv.
  - done.
Qed.

(** The same with the quote at the end written together with what follows. *)
Lemma quoted_then handler pretty ensure_ascii t s more :
  bytes t -> good pretty s ->
  dumps (handler = error_strict /\ ~ valid_utf8 t)
    (s ← dump_escaped handler t ensure_ascii (write s [0x22]); Ret (write s (0x22 :: more))) (fun s' =>
    exists n t', prints pretty s s' (n ++ more) /\ string_text n t' /\ (valid_utf8 t -> t' = t) /\
      (handler = error_strict -> valid_utf8 t)).
Proof.
  intros Ht Hg. pose proof (quoted_ok handler pretty ensure_ascii t s Ht Hg) as H.
  destruct (dump_escaped handler t ensure_ascii (write s [0x22])) as [s1| |[]|]; try done.
  destruct H as (n & t' & (E & Hg' & Hi) & Hn). exists n, t'. split; [|done].
  split_and!; [|exact Hg'|exact Hi]. change (0x22 :: more) with ([0x22] ++ more).
  cbn [write o] in *. rewrite app_assoc, E. by rewrite app_assoc.
Qed.

Lemma integer_ok pretty z s :
  LLONG_MIN <= z <= ULLONG_MAX -> good pretty s ->
  exists s', dump_integer z s = Ret s' /\ prints pretty s s' (to_string z).
Proof.
  intros Hz Hg. destruct (dump_integer_ok z s Hz (proj1 Hg)) as (s' & E & Hw).
  exists s'. split; [done|by apply prints_wrote].
Qed.

Lemma float_ok pretty v s :
  0 <= v < 2 ^ 64 -> good pretty s ->
  exists s' t, dump_float v s = Ret s' /\ prints pretty s s' t /\ value_text t (written (Number_float v)).
Proof.
  intros Hv Hg. cbn [written]. destruct (isfinite v) eqn:Hf.
  - destruct (dump_float_ok v s Hv Hf (proj1 Hg)) as (s' & t & E & Hw & Hn). exists s', t.
    split_and!; [done|by apply prints_wrote|by apply text_number].
  - unfold dump_float. rewrite Hf. cbn [negb]. eexists _, _. split; [done|].
    split; [by apply prints_write|constructor].
Qed.

(** ** Binary values *)

Lemma name_text k :
  all_items false k = k -> utf8 k = k -> Forall scalar k -> string_text (0x22 :: k ++ [0x22]) k.
Proof.
  intros Hi Hu Hk. exists k, k. split_and!; [done| |done]. rewrite <- Hi at 1. by apply all_items_body.
Qed.

Lemma bytes_name : string_text (0x22 :: bytes_of "bytes" ++ [0x22]) (bytes_of "bytes").
Proof. apply name_text; [done|done|]. repeat constructor; cbn; lia. Qed.

Lemma subtype_name : string_text (0x22 :: bytes_of "subtype" ++ [0x22]) (bytes_of "subtype").
Proof. apply name_text; [done|done|]. repeat constructor; cbn; lia. Qed.

Lemma bytes_array pretty sp b s :
  bytes b -> good pretty s -> ws sp ->
  exists s' t, dump_bytes (ch "," :: sp) b s = Ret s' /\ prints pretty s s' t /\
    value_text (ch "[" :: t ++ [ch "]"]) (Array (Number_unsigned <$> b)).
Proof.
  intros Hb Hg Hsp. destruct (decide (b = [])) as [->|Hne].
  { exists s, []. split_and!; [done| |apply (text_array_nil []), ws_nil].
    split_and!; [by rewrite app_nil_r|done|done]. }
  pose proof (separated_ok pretty 0 0 False element (fun c j => j = Number_unsigned c) dump_integer
    (ch "," :: sp) b Hne) as H.
  assert (Hall : dump_bytes (ch "," :: sp) b s = separated dump_integer (ch "," :: sp) b s) by (by destruct b).
  rewrite Hall. match type of H with ?X -> _ => assert (HX : X) end.
  - apply (Forall_impl _ _ _ Hb). intros c Hc s1 Hg1 _. unfold is_byte in Hc.
    destruct (integer_ok pretty c s1) as (s2 & -> & H2); [unfold LLONG_MIN, ULLONG_MAX; lia|done|].
    exists (to_string c), (Number_unsigned c). split_and!; [done| |done].
    exists [], (to_string c). split_and!; [done|apply ws_nil|].
    pose proof (integer_text c) as Ht. rewrite (proj2 (Z.leb_le 0 c)) in Ht by lia.
    apply Ht. unfold LLONG_MIN, ULLONG_MAX. lia.
  - specialize (H HX s Hg ltac:(intros _; pose proof (zlen_nonneg (indent_string s)); lia)).
    destruct (separated dump_integer (ch "," :: sp) b s) as [s'| |[]|]; try done; [|by destruct H].
    destruct H as (t & ys & H1 & H2 & H3). exists s', t. split_and!; [done|done|].
    assert (ys = Number_unsigned <$> b) as -> by (clear -H3; induction H3; cbn; congruence).
    apply text_array. rewrite <- (app_nil_r t). by eapply elements_of_sep; [..|apply ws_nil|].
Qed.

Lemma subtype_ok pretty st s :
  match st with Some t => 0 <= t <= ULLONG_MAX | None => True end -> good pretty s ->
  exists s' t, dump_subtype st s = Ret s' /\ prints pretty s s' t /\
    value_text t (match st with Some t => Number_unsigned t | None => Null end).
Proof.
  intros Hst Hg. destruct st as [n|]; cbn [dump_subtype].
  - assert (Hn : LLONG_MIN <= n <= ULLONG_MAX) by (unfold LLONG_MIN; lia).
    destruct (integer_ok pretty n s Hn Hg) as (s' & E & H). exists s', (to_string n). split_and!; [done|done|].
    pose proof (integer_text n Hn) as Ht. by rewrite (proj2 (Z.leb_le 0 n)) in Ht by lia.
  - eexists _, _. split; [done|]. split; [by apply prints_write|constructor].
Qed.

(** The two members, with the white space that is written around them. *)
Lemma binary_text w1 w2 w3 sp tb ts b st :
  ws w1 -> ws w2 -> ws w3 -> ws sp -> value_text tb (Array (Number_unsigned <$> b)) ->
  value_text ts (match st with Some t => Number_unsigned t | None => Null end) ->
  value_text (ch "{" :: (w1 ++ (0x22 :: bytes_of "bytes" ++ [0x22]) ++ ch ":" :: sp ++ tb ++ ch "," ::
    (w2 ++ (0x22 :: bytes_of "subtype" ++ [0x22]) ++ ch ":" :: sp ++ ts ++ w3)) ++ [ch "}"])
    (written_binary b st).
Proof.
  intros H1 H2 H3 Hsp Hb Hs. apply text_object.
  apply (members_more w1 (0x22 :: bytes_of "bytes" ++ [0x22]) [] sp tb []);
    [done|apply bytes_name|apply ws_nil|done|done|apply ws_nil|].
  apply (members_one w2 (0x22 :: bytes_of "subtype" ++ [0x22]) [] sp ts w3);
    [done|apply subtype_name|apply ws_nil|done|done|done].
Qed.

(** The goal and [H] are about the same text, up to the brackets of [++]. *)
Ltac same_text H :=
  repeat (progress (rewrite <- ?app_assoc in H; simpl app in H));
  repeat (progress (rewrite <- ?app_assoc; simpl app)); exact H.

Lemma binary_ok pretty step cur b st s :
  (pretty = true -> 0 <= step <= 1024) -> bytes b ->
  match st with Some t => 0 <= t <= ULLONG_MAX | None => True end ->
  good pretty s -> fits pretty step cur s ->
  exists s' t, dump_binary b st pretty step cur s = Ret s' /\ prints pretty s s' t /\
    value_text t (written_binary b st).
Proof.
  intros Hstep Hb Hst Hg Hf. unfold dump_binary. destruct pretty.
  - destruct (open_ok true step Hstep (ch "{") cur s eq_refl Hg Hf) as [P0 F0]. cbv zeta in *.
    set (new := u32 (cur + step)) in *. set (s0 := grow_indent (write s [ch "{"; 0x0A]) new) in *. clearbody s0.
    destruct (write_indent_ok true step new s0 eq_refl (proj1 (proj2 P0)) F0) as (s1 & w1 & -> & P1 & W1). bind_ret.
    pose proof (prints_write true s1 (0x22 :: bytes_of "bytes" ++ 0x22 :: bytes_of ": [") (proj1 (proj2 P1))) as P2.
    destruct (bytes_array true [ch " "] b _ Hb (proj1 (proj2 P2))) as (s3 & tb & E3 & P3 & Hv3); [by repeat constructor|].
    change (bytes_of ", ") with [ch ","; ch " "]. rewrite E3. bind_ret.
    pose proof (prints_write true s3 (bytes_of "]," ++ [0x0A]) (proj1 (proj2 P3))) as P4.
    destruct (write_indent_ok true step new _ eq_refl (proj1 (proj2 P4))) as (s5 & w5 & -> & P5 & W5).
    { do 4 (eapply prints_fits; [eassumption|]). exact F0. }
    bind_ret. pose proof (prints_write true s5 (0x22 :: bytes_of "subtype" ++ 0x22 :: bytes_of ": ") (proj1 (proj2 P5))) as P6.
    destruct (subtype_ok true st _ Hst (proj1 (proj2 P6))) as (s7 & ts & -> & P7 & Hv7). bind_ret.
    destruct (close_ok true step (ch "}") cur s7 eq_refl (proj1 (proj2 P7))) as (s8 & w8 & -> & P8 & W8).
    { do 8 (eapply prints_fits; [eassumption|]). exact Hf. }
    pose proof (prints_trans _ _ _ _ _ _ P0 (prints_trans _ _ _ _ _ _ P1 (prints_trans _ _ _ _ _ _ P2
      (prints_trans _ _ _ _ _ _ P3 (prints_trans _ _ _ _ _ _ P4 (prints_trans _ _ _ _ _ _ P5
      (prints_trans _ _ _ _ _ _ P6 (prints_trans _ _ _ _ _ _ P7 P8)))))))) as P.
    eexists s8, _. split; [done|]. split; [exact P|].
    pose proof (binary_text (0x0A :: w1) (0x0A :: w5) w8 [ch " "] _ ts b st ltac:(by constructor)
      ltac:(by constructor) W8 ltac:(by repeat constructor) Hv3 Hv7) as Ht. same_text Ht.
  - pose proof (prints_write false s (ch "{" :: 0x22 :: bytes_of "bytes" ++ 0x22 :: bytes_of ":[") Hg) as P2.
    destruct (bytes_array false [] b _ Hb (proj1 (proj2 P2)) ws_nil) as (s3 & tb & E3 & P3 & Hv3).
    change (bytes_of ",") with [ch ","]. rewrite E3. bind_ret.
    pose proof (prints_write false s3 (bytes_of "]," ++ 0x22 :: bytes_of "subtype" ++ 0x22 :: bytes_of ":")
      (proj1 (proj2 P3))) as P4.
    destruct (subtype_ok false st _ Hst (proj1 (proj2 P4))) as (s7 & ts & -> & P7 & Hv7). bind_ret.
    pose proof (prints_write false s7 [ch "}"] (proj1 (proj2 P7))) as P8.
    pose proof (prints_trans _ _ _ _ _ _ P2 (prints_trans _ _ _ _ _ _ P3 (prints_trans _ _ _ _ _ _ P4
      (prints_trans _ _ _ _ _ _ P7 P8)))) as P.
    eexists _, _. split; [done|]. split; [exact P|].
    pose proof (binary_text [] [] [] [] _ ts b st ws_nil ws_nil ws_nil ws_nil Hv3 Hv7) as Ht. same_text Ht.
Qed.

(** ** Any value *)

Definition anything (s : list Z) : Prop := True.

(** A value is written as a text of JSON for it; or the handler is strict, a
    string or a name is not in UTF-8, and the exception 316 is thrown. *)
Definition dump_ok (handler : error_handler_t) (pretty : bool) (s : serializer) (j : json)
    (m : outcome serializer) : Prop :=
  dumps (handler = error_strict /\ ~ dumpable valid_utf8 j) m (fun s' =>
    exists t j', prints pretty s s' t /\ value_text t j' /\ shown j j' /\
      (handler = error_strict -> dumpable valid_utf8 j)).

Section Values.
Context (handler : error_handler_t) (ensure_ascii : bool).

Lemma plain_ok pretty s s' t j :
  prints pretty s s' t -> value_text t (written j) -> dumpable valid_utf8 j ->
  match j with Str _ | Array _ | Object _ => False | _ => True end ->
  dump_ok handler pretty s j (Ret s').
Proof. intros Hp Ht Hd Hj. exists t, (written j). split_and!; [done|done|by constructor|done]. Qed.

(** What is written for the elements and the members. *)
Definition shows (x y : json) : Prop := shown x y /\ (handler = error_strict -> dumpable valid_utf8 x).

Definition shows_member (e e' : list Z * json) : Prop :=
  (valid_utf8 e.1 -> e'.1 = e.1) /\ (handler = error_strict -> valid_utf8 e.1) /\ bytes e.1 /\ shows e.2 e'.2.

Lemma shows_array l l' :
  Forall2 shows l l' -> shown (Array l) (Array l') /\ (handler = error_strict -> dumpable valid_utf8 (Array l)).
Proof.
  intros H. split.
  - constructor. eapply Forall2_impl; [exact H|]. by intros x y [Hs _].
  - intros Hs. constructor. induction H as [|x y l l' [_ Hd] H IH]; constructor; auto.
Qed.

Lemma shows_object es es' :
  Forall2 shows_member es es' ->
  shown (Object es) (Object es') /\ (handler = error_strict -> dumpable valid_utf8 (Object es)).
Proof.
  intros H. split.
  - constructor. eapply Forall2_impl; [exact H|]. intros x y (Hk & _ & _ & Hs & _). done.
  - intros Hs. constructor. induction H as [|x y l l' (_ & Hv & Hb & _ & Hd) H IH]; constructor; auto.
Qed.

Lemma element_invalid l x :
  x ∈ l -> ~ dumpable valid_utf8 x -> ~ dumpable valid_utf8 (Array l).
Proof.
  intros Hx Hn H. inversion H as [| | | | | | |? Hl|]; subst. apply Hn. by eapply Forall_forall in Hl.
Qed.

Lemma member_invalid es e :
  e ∈ es -> ~ valid_utf8 e.1 \/ ~ dumpable valid_utf8 e.2 -> ~ dumpable valid_utf8 (Object es).
Proof.
  intros He Hn H. inversion H as [| | | | | | | |? Hl]; subst.
  eapply Forall_forall in Hl as (_ & Hv & Hd); [|exact He]. tauto.
Qed.

(** One element, behind white space when the output is indented. *)
Lemma element_ok pretty step cur (l : list json) x s f :
  x ∈ l -> good pretty s -> fits pretty step cur s ->
  (forall s, good pretty s -> fits pretty step cur s -> dump_ok handler pretty s x (f s)) ->
  dumps (handler = error_strict /\ ~ dumpable valid_utf8 (Array l))
    (if pretty then s ← write_indent s cur; f s else f s) (fun s' =>
    exists t y, prints pretty s s' t /\ element t y /\ shows x y).
Proof.
  intros Hx Hg Hf Hok.
  assert (Hone : forall s, good pretty s -> fits pretty step cur s ->
    dumps (handler = error_strict /\ ~ dumpable valid_utf8 (Array l)) (f s) (fun s' =>
      exists t y, prints pretty s s' t /\ value_text t y /\ shows x y)).
  { intros s1 Hg1 Hf1. eapply dumps_mono; [by apply Hok|intros [? ?]; split; [done|by eapply element_invalid]|].
    cbv beta. intros s' (t & y & Hp & Ht & Hs & Hd). by exists t, y. }
  destruct pretty.
  - destruct (write_indent_ok true step cur s eq_refl Hg Hf) as (s1 & w & -> & H1 & Hw). bind_ret.
    eapply dumps_mono; [apply Hone; [apply H1|by eapply prints_fits]|done|].
    cbv beta. intros s' (t & y & Hp & Ht & Hs). exists (w ++ t), y.
    split_and!; [by eapply prints_trans|by exists w, t|done].
  - eapply dumps_mono; [by apply Hone|done|]. cbv beta. intros s' (t & y & Hp & Ht & Hs).
    exists t, y. split_and!; [done|exists [], t; split_and!; [done|apply ws_nil|done]|done].
Qed.

(** One member: the name, a colon and the value. *)
Lemma named_ok pretty step cur (es : list (list Z * json)) e sp s f :
  e ∈ es -> bytes e.1 -> ws sp -> good pretty s -> fits pretty step cur s ->
  (forall s, good pretty s -> fits pretty step cur s -> dump_ok handler pretty s e.2 (f s)) ->
  dumps (handler = error_strict /\ ~ dumpable valid_utf8 (Object es))
    (s ← dump_escaped handler e.1 ensure_ascii (write s [0x22]); f (write s (0x22 :: ch ":" :: sp))) (fun s' =>
    exists n t e', prints pretty s s' (n ++ ch ":" :: sp ++ t) /\ string_text n e'.1 /\
      value_text t e'.2 /\ shows_member e e').
Proof.
  intros He Hb Hsp Hg Hf Hok.
  assert (E : forall m, (s ← m; f (write s (0x22 :: ch ":" :: sp)))
    = (s ← (s ← m; Ret (write s (0x22 :: ch ":" :: sp))); f s)) by (by intros []).
  rewrite E. eapply dumps_bind.
  - eapply dumps_mono; [apply (quoted_then handler pretty ensure_ascii e.1 s (ch ":" :: sp) Hb Hg)| |].
    + intros [Hs Hv]. split; [done|]. eapply member_invalid; [exact He|by left].
    + intros s1 H1. exact H1.
  - cbv beta. intros s1 (n & k & H1 & Hn & Hk & Hv).
    eapply dumps_mono; [apply Hok; [apply H1|by eapply prints_fits]| |].
    + intros [Hs Hd]. split; [done|]. eapply member_invalid; [exact He|by right].
    + cbv beta. intros s2 (t & y & H2 & Ht & Hs & Hd). exists n, t, (k, y).
      split_and!; [|done|done|by split_and!].
      pose proof (prints_trans _ _ _ _ _ _ H1 H2) as H3. rewrite <- app_assoc in H3. exact H3.
Qed.

Lemma member_ok pretty step cur (es : list (list Z * json)) e sp s f :
  e ∈ es -> bytes e.1 -> ws sp -> good pretty s -> fits pretty step cur s ->
  (forall s, good pretty s -> fits pretty step cur s -> dump_ok handler pretty s e.2 (f s)) ->
  dumps (handler = error_strict /\ ~ dumpable valid_utf8 (Object es))
    (if pretty
     then s ← write_indent s cur;
          s ← dump_escaped handler e.1 ensure_ascii (write s [0x22]); f (write s (0x22 :: ch ":" :: sp))
     else s ← dump_escaped handler e.1 ensure_ascii (write s [0x22]); f (write s (0x22 :: ch ":" :: sp)))
    (fun s' => exists t e', prints pretty s s' t /\ member t e' /\ shows_member e e').
Proof.
  intros He Hb Hsp Hg Hf Hok.
  assert (Hone := fun s Hg Hf => named_ok pretty step cur es e sp s f He Hb Hsp Hg Hf Hok). destruct pretty.
  - destruct (write_indent_ok true step cur s eq_refl Hg Hf) as (s1 & w & -> & H1 & Hw). bind_ret.
    eapply dumps_mono; [apply Hone; [apply H1|by eapply prints_fits]|done|].
    cbv beta. intros s' (n & t & e' & Hp & Hn & Ht & Hs). exists (w ++ n ++ ch ":" :: sp ++ t), e'.
    split_and!; [by eapply prints_trans|by exists w, n, sp, t|done].
  - eapply dumps_mono; [by apply Hone|done|]. cbv beta. intros s' (n & t & e' & Hp & Hn & Ht & Hs).
    exists (n ++ ch ":" :: sp ++ t), e'. split_and!; [done| |done].
    exists [], n, sp, t. split_and!; [done|apply ws_nil|done..].
Qed.

(** The brackets around what [body] writes. *)
Lemma container_ok {B} pretty step cur T (E : list Z -> list B -> Prop) (S : list B -> Prop)
    (mk : list B -> json) opening closing body s :
  (pretty = true -> 0 <= step <= 1024) -> good pretty s -> fits pretty step cur s ->
  (forall w t w' ys, ws w -> ws w' -> E t ys -> value_text (opening :: (w ++ t ++ w') ++ [closing]) (mk ys)) ->
  (forall s, good pretty s -> fits pretty step (if pretty then u32 (cur + step) else cur) s ->
    dumps T (body s) (fun s' => exists t ys, prints pretty s s' t /\ E t ys /\ S ys)) ->
  dumps T
    (if pretty
     then s ← body (grow_indent (write s [opening; 0x0A]) (u32 (cur + step)));
          s ← write_indent (write s [0x0A]) cur; Ret (write s [closing])
     else s ← body (write s [opening]); Ret (write s [closing]))
    (fun s' => exists t ys, prints pretty s s' t /\ value_text t (mk ys) /\ S ys).
Proof.
  intros Hstep Hg Hf Hmk Hbody. destruct pretty.
  - destruct (open_ok true step Hstep opening cur s eq_refl Hg Hf) as [P0 F0]. cbv zeta in *.
    eapply dumps_bind; [apply Hbody; [apply P0|done]|]. cbv beta. intros s1 (t & ys & P1 & HE & HS).
    destruct (close_ok true step closing cur s1 eq_refl (proj1 (proj2 P1))) as (s2 & w & -> & P2 & Hw).
    { do 2 (eapply prints_fits; [eassumption|]). done. }
    pose proof (prints_trans _ _ _ _ _ _ P0 (prints_trans _ _ _ _ _ _ P1 P2)) as P.
    eexists _, ys. split_and!; [exact P| |done].
    pose proof (Hmk [0x0A] t w ys ltac:(by repeat constructor) Hw HE) as Ht. same_text Ht.
  - pose proof (prints_write false s [opening] Hg) as P0.
    eapply dumps_bind; [apply Hbody; [apply P0|done]|]. cbv beta. intros s1 (t & ys & P1 & HE & HS).
    pose proof (prints_write false s1 [closing] (proj1 (proj2 P1))) as P2.
    pose proof (prints_trans _ _ _ _ _ _ P0 (prints_trans _ _ _ _ _ _ P1 P2)) as P.
    eexists _, ys. split_and!; [exact P| |done].
    pose proof (Hmk [] t [] ys ws_nil ws_nil HE) as Ht. rewrite app_nil_r in Ht. same_text Ht.
Qed.

Definition value_ok (pretty : bool) (step : Z) (j : json) : Prop := forall cur s,
  good pretty s -> fits pretty step cur s ->
  dump_ok handler pretty s j (dump_value handler j pretty ensure_ascii step cur s).

Lemma array_ok pretty step l :
  (pretty = true -> 0 <= step <= 1024) -> Forall (value_ok pretty step) l ->
  value_ok pretty step (Array l).
Proof.
  intros Hstep Hl cur s Hg Hf. destruct (decide (l = [])) as [->|Hne].
  { exists (bytes_of "[]"), (Array []). split_and!; [by apply prints_write|apply (text_array_nil []), ws_nil| |];
      [by repeat constructor|by repeat constructor]. }
  assert (Hel : forall cur, Forall (fun x => forall s, good pretty s -> fits pretty step cur s ->
    dumps (handler = error_strict /\ ~ dumpable valid_utf8 (Array l))
      (if pretty then s ← write_indent s cur; dump_value handler x pretty ensure_ascii step cur s
       else dump_value handler x pretty ensure_ascii step cur s)
      (fun s' => exists t y, prints pretty s s' t /\ element t y /\ shows x y)) l).
  { intros cur'. apply Forall_forall. intros x Hx s' Hg' Hf'.
    apply (element_ok pretty step cur' l x s'); [done|done|done|]. intros s1 Hg1 Hf1.
    by eapply Forall_forall in Hl; [apply Hl|]. }
  assert (Hmk : forall sp w t w' ys, ws sp -> ws w -> ws w' -> sep_text element (ch "," :: sp) t ys ->
    value_text (ch "[" :: (w ++ t ++ w') ++ [ch "]"]) (Array ys)).
  { intros sp w t w' ys Hsp Hw Hw' Ht. apply text_array, elements_space; [done|]. by apply (elements_of_sep sp). }
  pose proof (container_ok pretty step cur (handler = error_strict /\ ~ dumpable valid_utf8 (Array l))
    (sep_text element (ch "," :: (if pretty then [0x0A] else []))) (fun ys => Forall2 shows l ys) Array
    (ch "[") (ch "]") _ s Hstep Hg Hf
    (fun w t w' ys => Hmk (if pretty then [0x0A] else []) w t w' ys (space_or_nothing pretty 0x0A eq_refl))
    (separated_ok pretty step _ _ element shows _ _ l Hne (Hel _))) as H.
  unfold dump_ok. eapply dumps_mono; [|done|].
  - clear -H Hne. destruct pretty, l; try done; exact H.
  - cbv beta. intros s' (t & ys & Hp & Ht & Hs). apply shows_array in Hs as [Hs Hd]. by exists t, (Array ys).
Qed.

Lemma object_ok pretty step es :
  (pretty = true -> 0 <= step <= 1024) ->
  Forall (fun e => bytes e.1 /\ value_ok pretty step e.2) es -> value_ok pretty step (Object es).
Proof.
  intros Hstep Hl cur s Hg Hf. destruct (decide (es = [])) as [->|Hne].
  { exists (bytes_of "{}"), (Object []). split_and!; [by apply prints_write|apply (text_object_nil []), ws_nil| |];
      [by repeat constructor|by repeat constructor]. }
  assert (Hel : forall cur, Forall (fun e => forall s, good pretty s -> fits pretty step cur s ->
    dumps (handler = error_strict /\ ~ dumpable valid_utf8 (Object es))
      (if pretty
       then s ← write_indent s cur;
            s ← dump_escaped handler e.1 ensure_ascii (write s [0x22]);
            dump_value handler e.2 pretty ensure_ascii step cur (write s (0x22 :: ch ":" :: if pretty then [ch " "] else []))
       else s ← dump_escaped handler e.1 ensure_ascii (write s [0x22]);
            dump_value handler e.2 pretty ensure_ascii step cur (write s (0x22 :: ch ":" :: if pretty then [ch " "] else [])))
      (fun s' => exists t e', prints pretty s s' t /\ member t e' /\ shows_member e e')) es).
  { intros cur'. apply Forall_forall. intros e He s' Hg' Hf'. eapply Forall_forall in Hl as [Hb Hv]; [|exact He].
    apply (member_ok pretty step cur' es e (if pretty then [ch " "] else []) s'); try done.
    - by apply space_or_nothing.
    - intros s1 Hg1 Hf1. by apply Hv. }
  assert (Hmk : forall sp w t w' ys, ws sp -> ws w -> ws w' -> sep_text member (ch "," :: sp) t ys ->
    value_text (ch "{" :: (w ++ t ++ w') ++ [ch "}"]) (Object ys)).
  { intros sp w t w' ys Hsp Hw Hw' Ht. apply text_object, members_space; [done|]. by apply (members_of_sep sp). }
  pose proof (container_ok pretty step cur (handler = error_strict /\ ~ dumpable valid_utf8 (Object es))
    (sep_text member (ch "," :: (if pretty then [0x0A] else []))) (fun ys => Forall2 shows_member es ys) Object
    (ch "{") (ch "}") _ s Hstep Hg Hf
    (fun w t w' ys => Hmk (if pretty then [0x0A] else []) w t w' ys (space_or_nothing pretty 0x0A eq_refl))
    (separated_ok pretty step _ _ member shows_member _ _ es Hne (Hel _))) as H.
  unfold dump_ok. eapply dumps_mono; [|done|].
  - clear -H Hne. destruct pretty, es; try done; exact H.
  - cbv beta. intros s' (t & ys & Hp & Ht & Hs). apply shows_object in Hs as [Hs Hd]. by exists t, (Object ys).
Qed.

Lemma dump_value_ok pretty step j :
  (pretty = true -> 0 <= step <= 1024) -> dumpable anything j -> value_ok pretty step j.
Proof.
  intros Hstep. induction j as [| | | | | | |l IH|es IH|] using json_induction; intros Hd;
    inversion Hd as [| | | | |? Hb|? ? Hb Ht|? Hl|? Hl]; subst.
  - intros cur s Hg Hf. eapply plain_ok; [by apply prints_write|constructor|constructor|done].
  - intros cur s Hg Hf. eapply plain_ok; [by apply prints_write|destruct b; constructor|constructor|done].
  - intros cur s Hg Hf. cbn [dump_value]. unfold LLONG_MAX in *.
    destruct (integer_ok pretty z s) as (s' & -> & Hp); [unfold ULLONG_MAX; lia|done|].
    eapply plain_ok; [done| |by constructor|done]. apply integer_text. unfold ULLONG_MAX. lia.
  - intros cur s Hg Hf. cbn [dump_value].
    destruct (integer_ok pretty z s) as (s' & -> & Hp); [unfold LLONG_MIN; lia|done|].
    eapply plain_ok; [done| |by constructor|done].
    pose proof (integer_text z) as Ht. rewrite (proj2 (Z.leb_le 0 z)) in Ht by lia. apply Ht. unfold LLONG_MIN. lia.
  - intros cur s Hg Hf. cbn [dump_value].
    destruct (float_ok pretty z s) as (s' & t & -> & Hp & Ht); [done|done|].
    eapply plain_ok; [done|done|by constructor|done].
  - intros cur s' Hg Hf. eapply dumps_mono; [by apply quoted_ok|..].
    + intros [Hs Hv]. split; [done|]. intros Hx. by inversion Hx.
    + cbv beta. intros s2 (n & t & Hp & Hn & Hv & Hs). exists n, (Str t).
      split_and!; [done|by constructor|by constructor|intros; constructor; auto].
  - intros cur s Hg Hf. cbn [dump_value].
    destruct (binary_ok pretty step cur b t s) as (s' & tx & -> & Hp & Htx); try done.
    eapply plain_ok; [done|done|by constructor|done].
  - apply array_ok; [done|]. apply Forall_forall. intros x Hx.
    eapply Forall_forall in IH; [|exact Hx]. eapply Forall_forall in Hl; [|exact Hx]. auto.
  - apply object_ok; [done|]. apply Forall_forall. intros x Hx.
    eapply Forall_forall in IH; [|exact Hx]. eapply Forall_forall in Hl as (? & _ & ?); [|exact Hx]. auto.
Qed.
End Values.

(** ** [dump] *)

(** The arguments of [dump]: no indentation, or at most 1024 characters of
    white space for a level. *)
Definition indent_ok (indent indent_char : Z) : Prop :=
  indent < 0 \/ 0 <= indent <= 1024 /\ is_space indent_char = true.

Lemma new_serializer_good indent indent_char :
  indent_ok indent indent_char -> good (0 <=? indent) (new_serializer indent_char).
Proof.
  intros H. split; [done|]. intros Hp%Z.leb_le. destruct H as [|[_ H]]; [lia|]. split; [|done].
  by apply Forall_replicate.
Qed.

Lemma dumpable_anything P j : dumpable P j -> dumpable anything j.
Proof.
  induction j as [| | | | | | |l IH|es IH|] using json_induction; intros Hd;
    inversion Hd as [| | | | | | |? Hl|? Hl]; subst; constructor; try done.
  - apply Forall_forall. intros x Hx. eapply Forall_forall in IH; [|exact Hx].
    eapply Forall_forall in Hl; [|exact Hx]. auto.
  - apply Forall_forall. intros x Hx. eapply Forall_forall in IH; [|exact Hx].
    eapply Forall_forall in Hl as (? & _ & ?); [|exact Hx]. split_and!; [done|done|auto].
Qed.

Lemma dump_any j indent indent_char ensure_ascii handler :
  indent_ok indent indent_char -> dumpable anything j ->
  dumps (handler = error_strict /\ ~ dumpable valid_utf8 j) (dump j indent indent_char ensure_ascii handler)
    (fun t => exists j', value_text t j' /\ shown j j' /\ (handler = error_strict -> dumpable valid_utf8 j)).
Proof.
  intros Hi Hd. pose proof (new_serializer_good _ _ Hi) as Hg. unfold dump.
  assert (H : dump_ok handler (0 <=? indent) (new_serializer indent_char) j
    (if 0 <=? indent then dump_value handler j true ensure_ascii (u32 indent) 0 (new_serializer indent_char)
     else dump_value handler j false ensure_ascii 0 0 (new_serializer indent_char))).
  { destruct (Z.leb_spec 0 indent).
    - assert (Hi' : 0 <= indent <= 1024) by (destruct Hi; lia).
      rewrite u32_small by lia. apply dump_value_ok; [done|done|done|].
      intros _. split; [done|by left].
    - by apply dump_value_ok. }
  eapply dumps_bind; [exact H|]. cbv beta. intros s (t & j' & (Ho & _) & Ht & Hs). bind_ret.
  exists j'. by rewrite Ho.
Qed.

(** ** The texts of JSON are bytes *)

Ltac byte_list := repeat (apply Forall_cons_2; [first [done | unfold is_byte; lia]|]);
  try apply Forall_nil_2.

Lemma hex_value_byte c n : hex_value c = Some n -> is_byte c.
Proof. unfold hex_value, is_byte. repeat case_match; rewrite ?andb_true_iff, ?Z.leb_le in *; try done; lia. Qed.

Lemma hex4_bytes a b c d n : hex4 a b c d = Some n -> bytes [a; b; c; d].
Proof.
  unfold hex4. intros H. apply bind_Some in H as (x & Ha & H). apply bind_Some in H as (y & Hb & H).
  apply bind_Some in H as (z & Hc & H). apply bind_Some in H as (w & Hd & _).
  repeat (apply Forall_cons_2; [by eapply hex_value_byte|]). apply Forall_nil_2.
Qed.

Lemma string_item_bytes raw cp : string_item raw cp -> bytes raw.
Proof.
  destruct 1 as [cp [Hcp _]|e cp He|a b c d cp H|a b c d a' b' c' d' hi lo H _ H' _].
  - by apply utf8_encode_bytes.
  - assert (is_byte e).
    { unfold escape_char in He. unfold is_byte.
      repeat match type of He with context [?x =? ?y] => destruct (Z.eqb_spec x y) end; try done; lia. }
    byte_list.
  - apply hex4_bytes in H. apply (Forall_app_2 _ [0x5C; ch "u"]); [byte_list|done].
  - apply hex4_bytes in H, H'.
    apply (Forall_app_2 _ ([0x5C; ch "u"] ++ [a; b; c; d]) ([0x5C; ch "u"] ++ [a'; b'; c'; d']));
      (apply Forall_app_2; [byte_list|done]).
Qed.

Lemma string_text_bytes t s : string_text t s -> bytes t.
Proof.
  intros (body & cps & -> & Hb & _). constructor; [done|]. apply Forall_app_2; [|byte_list].
  induction Hb as [|raw cp body cps Hr Hb IH]; [by constructor|]. apply Forall_app_2; [|done].
  by eapply string_item_bytes.
Qed.

Lemma ws_bytes w : ws w -> bytes w.
Proof.
  intros H. eapply Forall_impl; [exact H|]. cbv beta. intros c Hc. unfold is_space in Hc. unfold is_byte.
  rewrite !orb_true_iff, !Z.eqb_eq in Hc. lia.
Qed.

Lemma number_form_bytes t j : number_form t j -> bytes t.
Proof.
  intros [neg i f d x e Hi Hf Hx]. apply Forall_app_2; [destruct neg; byte_list|].
  apply Forall_app_2; [by apply digits_bytes, int_text_digits|]. apply Forall_app_2.
  - destruct Hf as [|d Hd _]; constructor; [done|by apply digits_bytes].
  - destruct Hx as [|c s l g Hc Hs Hd _]; constructor; [by destruct Hc as [-> | ->]|].
    apply Forall_app_2; [|by apply digits_bytes]. destruct s as [|c' [|]]; [constructor| |done].
    constructor; [|constructor]. cbn in Hs. destruct (Z.eqb_spec c' (ch "+")) as [->|]; [done|].
    by destruct (Z.eqb_spec c' (ch "-")) as [->|].
Qed.

Create HintDb text_bytes.
#[local] Hint Resolve ws_bytes string_text_bytes number_form_bytes bytes_of_bytes : text_bytes.

Ltac text_bytes := repeat first [apply Forall_app_2 | apply Forall_cons_2; [by unfold is_byte|] | apply Forall_nil_2];
  try match goal with |- Forall is_byte ?l => change (bytes l) end; eauto with text_bytes.

Lemma value_text_bytes t j : value_text t j -> bytes t.
Proof.
  revert t j. apply (value_text_min (fun t _ => bytes t) (fun t _ => bytes t) (fun t _ => bytes t));
    intros; text_bytes.
Qed.

(** ** The round trip *)

#[local] Unset Elimination Schemes.
(** An object is sorted by the names, and has each of them once. *)
Inductive ordered : json -> Prop :=
  | ordered_array l : Forall ordered l -> ordered (Array l)
  | ordered_object es : map_ordered es -> Forall (fun e => ordered e.2) es -> ordered (Object es)
  | ordered_scalar j : is_structured j = false -> ordered j.
#[local] Set Elimination Schemes.

Lemma map_ordered_fmap {V W} (f : V -> W) (es : list (list Z * V)) :
  map_ordered es -> map_ordered ((fun e => (e.1, f e.2)) <$> es).
Proof.
  induction 1 as [|e es H IH Hall]; cbn; constructor; [done|]. apply Forall_fmap. exact Hall.
Qed.

Lemma build_written j : ordered j -> build (written j) = written j.
Proof.
  induction j as [| | | | | | |l IH|es IH|] using json_induction; intros Ho; try done.
  - cbn [written]. by destruct (0 <=? z).
  - cbn [written]. by destruct (isfinite z).
  - cbn [written]. unfold written_binary. cbn [build]. cbn [fmap list_fmap fst snd].
    assert (E : build (Array (Number_unsigned <$> b)) = Array (Number_unsigned <$> b)).
    { cbn [build]. f_equal. rewrite <- list_fmap_compose. apply list_fmap_ext. done. }
    rewrite E. by destruct t.
  - inversion Ho as [? Hl| |]; subst; [|done]. cbn [written build]. f_equal.
    rewrite <- list_fmap_compose. apply list_fmap_ext. intros i x Hx. cbn.
    eapply Forall_lookup_1 in IH; [|exact Hx]. eapply Forall_lookup_1 in Hl; [|exact Hx]. auto.
  - inversion Ho as [|? Hord Hl|]; subst; [|done]. cbn [written build]. f_equal.
    rewrite <- list_fmap_compose.
    assert (E : ((fun e => (e.1, build e.2)) ∘ (fun e => (e.1, written e.2))) <$> es
                = (fun e => (e.1, written e.2)) <$> es).
    { apply list_fmap_ext. intros i x Hx. cbn. f_equal.
      eapply Forall_lookup_1 in IH; [|exact Hx]. eapply Forall_lookup_1 in Hl; [|exact Hx]. auto. }
    rewrite E. apply map_of_id. by apply map_ordered_fmap.
Qed.

(** The values that [parse] can return: integers that are not negative are
    unsigned, doubles are finite, and nothing is binary. *)
Fixpoint native (j : json) : bool :=
  match j with
  | Number_integer z => z <? 0
  | Number_float v => isfinite v
  | Binary _ _ => false
  | Array l => forallb native l
  | Object es => forallb (fun e => native e.2) es
  | _ => true
  end.

Lemma native_written j : native j = true -> written j = j.
Proof.
  induction j as [| | | | | | |l IH|es IH|] using json_induction; cbn [native written]; intros H; try done.
  - by apply Z.ltb_lt, Z.leb_gt in H as ->.
  - by rewrite H.
  - f_equal. apply list_eq_Forall2, Forall2_fmap_l. apply Forall_Forall2_diag.
    rewrite forallb_forall in H. apply Forall_forall. intros x Hx. eapply Forall_forall in IH; [|exact Hx].
    by apply IH, H, list_elem_of_In.
  - f_equal. apply list_eq_Forall2, Forall2_fmap_l. apply Forall_Forall2_diag.
    rewrite forallb_forall in H. apply Forall_forall. intros [k x] Hx. eapply Forall_forall in IH; [|exact Hx].
    cbn in *. f_equal. apply IH. by apply (H (k, x)), list_elem_of_In.
Qed.

(** C3: the round trip: a value whose strings are in UTF-8 is dumped without
    indentation, or with at most 1024 white-space characters of it for a level,
    with or without escapes for what is not ASCII, and parsing the text gives
    [written j].  This is the value itself if [parse] could have returned it,
    doubles with every bit; otherwise the type of an integer that is not
    negative becomes unsigned, a binary value comes back as an object, and a
    double that is not finite as [null]. *)
Theorem dump_parse (dp : Z) (j : json) (indent indent_char : Z) (ensure_ascii : bool)
    (handler : error_handler_t) :
  point_ok dp -> indent_ok indent indent_char -> dumpable valid_utf8 j -> ordered j ->
  (exists t, dump j indent indent_char ensure_ascii handler = Ret t /\ parse [dp] t = Ret (written j)) /\
  (native j = true -> written j = j).
Proof.
  intros Hdp Hi Hd Ho. split; [|apply native_written].
  pose proof (dump_any j indent indent_char ensure_ascii handler Hi (dumpable_anything _ _ Hd)) as H.
  destruct (dump j indent indent_char ensure_ascii handler) as [t| |[]|]; try done; [|by destruct H as [_ [_ H]]].
  destruct H as (j' & Ht & Hs & _). exists t. split; [done|].
  apply shown_written in Hs; [subst j'|done]. apply parse_complete; [done|by eapply value_text_bytes|].
  apply document_parts. exists [], [], t, [], [], (written j). rewrite !app_nil_r.
  split_and!; [done|by left|apply ws_nil|done|apply ws_nil|by left|by rewrite build_written].
Qed.

Definition filled (j : json) : bool :=
  match j with
  | Array (_ :: _) | Object (_ :: _) | Binary _ _ => true
  | _ => false
  end.

Lemma write_indent_beyond s n :
  zlen (indent_string s) = 512 -> 1025 < n -> write_indent (grow_indent s n) n = Undef OutOfBounds.
Proof.
  intros Hs Hn. unfold grow_indent. rewrite Hs. rewrite (proj2 (Z.ltb_lt _ _)) by lia.
  unfold write_indent. cbn [indent_string]. unfold zlen in *. rewrite !length_app, length_replicate. cbn [length].
  by rewrite (proj2 (Z.leb_gt _ _)) by lia.
Qed.

(** With more than 1025 characters for a level the first indentation is read
    from behind the end of the indentation string. *)
Lemma indent_limit j indent indent_char ensure_ascii handler :
  1025 < indent < 2 ^ 31 -> filled j = true ->
  dump j indent indent_char ensure_ascii handler = Undef OutOfBounds.
Proof.
  intros Hi Hj. unfold dump. rewrite (proj2 (Z.leb_le _ _)) by lia. rewrite u32_small by lia.
  assert (W : forall t, write_indent (grow_indent (write (new_serializer indent_char) t) indent) indent = Undef OutOfBounds).
  { intros t. apply write_indent_beyond; [|lia]. reflexivity. }
  destruct j as [| | | | | |b st|[|v l]|[|e es]|]; try done; cbn [dump_value]; unfold dump_binary;
    rewrite Z.add_0_l, u32_small by lia; cbn [separated]; by rewrite W.
Qed.

(** C13: [dump] without indentation, or with at most 1024 white-space
    characters of it for a level, of any value without a discarded part, also
    one with strings that are not in UTF-8, stays inside of its buffers, fails
    no assertion and returns a JSON text; it throws exactly when the handler is
    strict and a string or a name is not in UTF-8, and then the exception is
    316.  The bound is needed: from 1026 characters on the indentation of every
    array or object that is not empty is read out of bounds. *)
Theorem dump_total (j : json) (indent indent_char : Z) (ensure_ascii : bool) (handler : error_handler_t) :
  (indent_ok indent indent_char -> dumpable anything j ->
   if decide (handler = error_strict)
   then (dumpable valid_utf8 j /\
           exists t v, dump j indent indent_char ensure_ascii handler = Ret t /\ json_text t v) \/
        (~ dumpable valid_utf8 j /\
           exists what, dump j indent indent_char ensure_ascii handler = Throw (JsonException 316 what))
   else exists t v, dump j indent indent_char ensure_ascii handler = Ret t /\ json_text t v) /\
  (1025 < indent < 2 ^ 31 -> filled j = true ->
   dump j indent indent_char ensure_ascii handler = Undef OutOfBounds).
Proof.
  split; [|apply indent_limit].
  intros Hi Hd. pose proof (dump_any j indent indent_char ensure_ascii handler Hi Hd) as H.
  destruct (dump j indent indent_char ensure_ascii handler) as [t| |[]|]; try done.
  - destruct H as (v & Ht & _ & Hs).
    assert (json_text t (build v)).
    { exists [], t, [], v. rewrite app_nil_r. split_and!; [done|apply ws_nil|done|apply ws_nil|done]. }
    case_decide; [left; split; [by apply Hs|]|]; by exists t, (build v).
  - destruct H as [-> [Hh Hn]]. rewrite decide_True by done. right. split; [done|]. by eexists.
Qed.

(** ** Examples *)

(** An object with a string that needs escapes, the smallest double above zero
    and the smallest integer. *)
Definition sample : json :=
  Object [(bytes_of "a", Array [Str (utf8 [0x20AC; 0x1F600; 0x0A]); Number_float 1; Number_integer (- 2 ^ 63)]);
          (bytes_of "b", Binary [0; 255] (Some 7))].

Lemma sample_dumpable : dumpable valid_utf8 sample.
Proof.
  assert (forall cps, forallb (fun c => (0 <=? c) && (c <=? 0xD7FF) || (0xE000 <=? c) && (c <=? 0x10FFFF)) cps = true ->
    valid_utf8 (utf8 cps)) as Hv.
  { intros cps H. exists cps. split; [|done]. apply Forall_forall. intros c Hc.
    rewrite forallb_forall in H. specialize (H c (proj1 (list_elem_of_In _ _) Hc)).
    rewrite orb_true_iff, !andb_true_iff, !Z.leb_le in H. split; lia. }
  unfold sample. constructor. repeat apply Forall_cons_2; [| |apply Forall_nil_2]; cbn [fst snd]; split_and!.
  - apply bytes_of_bytes.
  - by apply (Hv (bytes_of "a")).
  - constructor. repeat apply Forall_cons_2; [| | |apply Forall_nil_2]; constructor;
      try (by apply Hv); try (unfold LLONG_MIN, LLONG_MAX; lia). by apply utf8_bytes; repeat constructor; cbn; lia.
  - apply bytes_of_bytes.
  - by apply (Hv (bytes_of "b")).
  - constructor; [byte_list|unfold ULLONG_MAX; lia].
Qed.

Lemma sample_ordered : ordered sample.
Proof.
  unfold sample. apply ordered_object.
  - repeat constructor.
  - repeat apply Forall_cons_2; [| |apply Forall_nil_2]; cbn [snd].
    + apply ordered_array. repeat apply Forall_cons_2; [| | |apply Forall_nil_2]; by apply ordered_scalar.
    + by apply ordered_scalar.
Qed.

Lemma dump_parse_witness :
  exists t, dump sample 2 (ch " ") true error_strict = Ret t /\ parse [ch "."] t = Ret (written sample).
Proof.
  refine (proj1 (dump_parse (ch ".") sample 2 (ch " ") true error_strict _ _ _ _)); [apply ascii_point|right; split; [lia|done]|apply sample_dumpable|apply sample_ordered].
Defined.

Lemma dump_total_witness :
  (exists t v, dump (Str [0xFF]) (-1) (ch " ") false error_replace = Ret t /\ json_text t v) /\
  dump (Array [Null]) 1026 (ch " ") false error_strict = Undef OutOfBounds.
Proof.
  split.
  - apply (dump_total (Str [0xFF]) (-1) (ch " ") false error_replace); [left; lia|constructor; [byte_list|done]].
  - by apply (dump_total (Array [Null]) 1026 (ch " ") false error_strict); [lia|].
Defined.

Lemma to_chars_strtod_witness :
  exists t, to_chars_text 1 = Ret t /\ strtod [ch "."] t = (1, zlen t).
Proof.
  destruct (to_chars_strtod 1) as (t & H1 & _ & H2); [lia|reflexivity|].
  exists t. exact (conj H1 H2).
Defined.

(** It is extended with blanks, whatever the indentation character is. *)
Example indent_character_lost :
  exists t, dump (Array [Null]) 600 0x09 false error_strict = Ret t /\
    t !! 2%nat = Some 0x09 /\ t !! 601%nat = Some (ch " ").
Proof. eexists. split; [vm_compute; reflexivity|]. by vm_compute. Qed.

(** A discarded value is written as no JSON text at all. *)
Example discarded_dump :
  dump (Array [Discarded]) (-1) (ch " ") false error_strict = Ret (bytes_of "[<discarded>]").
Proof. vm_compute. reflexivity. Qed.
